(* ===== verification/_CoqProject ===== *)
-Q . S2P
Prelude.v
Varint.v
Core.v
Lifecycle.v
LeaseTable.v
CanLeaseTable.v
SerialRegistry.v
CanTypes.v
CanActor.v
CameraTypes.v
ShmLayout.v
ShmRing.v
WireCore.v
WireCan.v
UsbTypes.v
Worker.v
WorkerManager.v
UsbManager.v
GpioTypes.v
GpioManager.v
WireUsbGpio.v
WireCamera.v
Envelope.v
BrokerCore.v
BrokerDispatch.v
BrokerSafety.v
BrokerConnection.v
BrokerLimits.v
CanManager.v
CanManagerInv.v
CanManagerSpec.v
CanManagerTheorems.v
CameraWorker.v
CameraWorkerSpec.v
CameraRing.v
CameraManager.v
CameraManagerSpec.v
ClientWire.v
ClientValidate.v
ClientPreflight.v
ClientConnection.v
ClientInv.v
ClientSpec.v
ClientHandles.v
ClientHandlesSpec.v
ClientBroker.v
ClientAccepts.v
ClientCalls.v
ClientInbound.v
Native.v
PcanTiming.v
PcanChannel.v
PcanSpec.v
AdapterIdentity.v
PcanAdapter.v
SocketcanLink.v
SocketcanSpec.v
SocketcanChannel.v
SocketcanChannelSpec.v
SerialIo.v
SerialIoSpec.v
SerialSession.v
SerialSessionSpec.v
SerialAdapter.v
LinuxGpio.v
Nusb.v
Facade.v
BrokerToken.v
BrokerServe.v
V4l2.v
V4l2Spec.v
ShmPlatform.v
TestkitUsbGpio.v
TestkitCan.v
TestkitSerial.v
TestkitCamera.v
