(* ===== verification/Prelude.v ===== *)
(** * Robot HAL: a verification library

    Robot HAL is a hardware abstraction layer for robots: one runtime process owns the
    physical serial ports, CAN buses, USB interfaces, GPIO lines and cameras, and clients
    (in process, or over a local socket through the broker) open sessions on them under
    leases.  This library models its core and proves what makes it correct.

    ** The program and its models

    - crates/robot-hal-core: structured errors, identifiers, capabilities, resource
      descriptors and resolution, lease tokens.  [Core].
    - crates/robot-hal-runtime, shared parts: the session lifecycle and the event stream.
      [Lifecycle].
    - crates/robot-hal-runtime/src/lease_table.rs: one exclusive lease per resource, with
      generations that fence revoked tokens; used by serial, USB, GPIO and camera.
      [LeaseTable].
    - crates/robot-hal-runtime/src/can_lease_table.rs: observe, control and maintenance
      leases with provisional reservations.  [CanLeaseTable].
    - crates/robot-hal-serial, registry.rs, serial_actor.rs and the serial part of the
      runtime facade (lib.rs): sessions, the actor task that owns the native port, and
      their interleaving.  [SerialRegistry].
    - crates/robot-hal-can: identifiers, frames, filters, bit timing, configurations.
      [CanTypes].
    - crates/robot-hal-runtime/src/can_actor.rs: the thread that owns a CAN channel, the
      receive rings of its sessions and the transmit accounting.  [CanActor].
    - crates/robot-hal-runtime/src/can_manager.rs: discovery, the sessions that share an
      actor, their leases and events ([CanManager]); its invariant ([CanManagerInv]), the
      life of a session step by step ([CanManagerSpec]), the theorems and runs
      ([CanManagerTheorems]).
    - crates/robot-hal-camera: formats, plane layouts, frames, controls.  [CameraTypes].
    - adapters/shared-memory: the layout of the frame mapping and the frame ring over a
      byte memory ([ShmLayout], [ShmRing]); the mapping itself, on Unix ([ShmPlatform]).
    - crates/robot-hal-runtime/src/camera_manager.rs: the thread that owns a camera, with its
      admission lock and terminal errors ([CameraWorker], [CameraWorkerSpec]), the ring it
      publishes into ([CameraRing]), the manager ([CameraManager], [CameraManagerSpec]).
    - crates/robot-hal-usb, crates/robot-hal-gpio and the usb_manager.rs and
      gpio_manager.rs of crates/robot-hal-runtime: transfers and line groups, the thread
      that owns a native session, the managers and the tasks around them.  The two
      managers differ in little: [Worker] and [WorkerManager] hold what they share, as
      classes the two instantiate.  [UsbTypes], [GpioTypes], [Worker], [WorkerManager],
      [UsbManager], [GpioManager].
    - crates/robot-hal-protocol over proto/seeed/hal/v1/hal.proto: version negotiation and
      the conversions shared by all transports and of serial sessions (lib.rs,
      conversion.rs), those of CAN (can_conversion.rs), of USB and GPIO (conversion.rs), and
      of cameras (camera_conversion.rs), with the encoders of crates/robot-hal-client.
      [WireCore], [WireCan], [WireUsbGpio], [WireCamera].
    - crates/robot-hal-broker: the messages in their envelope ([Envelope]), the session
      registries, the capability gate and the effects of a request task ([BrokerCore]), the
      requests of every transport ([BrokerDispatch]), a logic for what they may ask of the
      runtime ([BrokerSafety]), the reader, loop, writer and tasks of a connection
      ([BrokerConnection]), the handshake and the frame lengths ([BrokerLimits]).
    - crates/robot-hal-client: the scanner of the protobuf wire format ([ClientWire], over
      [Varint]); the options, the handshake, the size limits of an inbound frame and the
      validation of responses ([ClientValidate], [ClientPreflight]); requests, their
      cancellation, the reader and writer tasks and the termination of a connection
      ([ClientConnection]), its invariant ([ClientInv]) and theorems ([ClientSpec]); the
      methods of the remote handles ([ClientHandles], [ClientHandlesSpec]); what client and
      broker agree on: the handshake ([ClientBroker]), the calls, from a method to the
      runtime ([ClientCalls]), and the answers, as payloads ([ClientAccepts]) and as frames
      that reach the caller ([ClientInbound]).
    - adapters: the state-and-error monad and the operating-system errors they share
      ([Native]); how devices are named ([AdapterIdentity]).  adapters/pcan: the timing search
      ([PcanTiming]), the driver and its channels ([PcanChannel], [PcanSpec]), discovery
      ([PcanAdapter]).  adapters/socketcan: the lease on the configuration of a link
      ([SocketcanLink], [SocketcanSpec]), sockets, discovery and opening ([SocketcanChannel],
      [SocketcanChannelSpec]).  adapters/serialport: the bounded loops ([SerialIo],
      [SerialIoSpec]), the session and its thread ([SerialSession], [SerialSessionSpec]),
      discovery and opening ([SerialAdapter]).  adapters/linux-gpio: chips, line requests, edges
      ([LinuxGpio]).  adapters/nusb: devices, claims, transfers ([Nusb]).
      adapters/v4l2: cameras, frames, the capturing thread and the claims ([V4l2], [V4l2Spec]).
    - crates/robot-hal-runtime/src/lib.rs: the builder, the methods that forward to the
      managers, the handles ([Facade]).
    - apps/robot-hal-broker: the file of the startup token ([BrokerToken]); the adapters of a
      build, the socket, the accept loop and shutdown, with listener/unix.rs of the broker
      ([BrokerServe]).

    - crates/robot-hal-testkit: the virtual USB, GPIO ([TestkitUsbGpio]), CAN ([TestkitCan]),
      serial ([TestkitSerial]) and camera ([TestkitCamera]) adapters, which are instances of
      the device classes, and the conformance checks as programs over any adapter.

    ** How code becomes definitions

    A definition carries the name of the Rust item, with the type in front for methods
    ([LeaseTable_release] is [LeaseTable::release]).  [Result] is [result], the [?]
    operator its bind; a [&mut self] method takes the state and returns it with the
    result, also on the error paths; a [HashMap] is a [gmap], a [Vec] or [VecDeque] a
    list, a byte string a [string] (UTF-8 bytes), an integer a [Z] whose width is written
    out where the code relies on it.  Native devices are type classes ([SerialSession],
    [CanChannel]) whose operations may return anything.  Random identifiers (UUIDs,
    mapping names, tokens), clocks, the [Debug] rendering of durations, the outcomes of
    operating-system locks and SHA-256 are arguments.

    Concurrency is explicit: a critical section under the registry's mutex is one step,
    as is each channel operation of an actor task, and a reachable state is the result of
    any interleaving of steps ([serial_step], [lease_step], [can_lease_step], [tx_step],
    [shm_step], [worker_step], [mgr_step], [can_step],
    [camera_step], [cam_step], [conn_step], [client_step], [serial_move],
    [serve_move], [v4_move], [vu_step], [vg_step], [vc_step], [vcam_step]).  A request task of the broker is a
    tree of runtime calls and critical sections ([prog]), whose calls may answer anything.
    The lists that record what happened (exposed tokens, admitted and answered commands,
    calls made, sessions closed so far) are ghost state, marked as such.

    The loops of the code run over lists, and the ones that do not end by themselves, those
    of the actors, workers and connections, are step relations; their budgets (16 commands per
    iteration, 64 queue places) are those of the code.  Only the client's scanner of protobuf
    fields recurs on something else, the rest of its input: [visit_fields] and [skip_group]
    take the length of the input as fuel, which suffices ([ClientWire.visit_fields_total]).
    The polling loops of the adapters take fuel for the rounds until their deadline, which
    suffices on a machine whose clock advances ([PcanSpec.pcan_receive_returns],
    [SerialIoSpec.read_bounded_returns], [V4l2Spec.bounded_wait_returns]).

    ** What is proved

    - Leases ([LeaseTable], [CanLeaseTable]): [validate] accepts exactly the active
      token; generations grow; a revoked token is refused for ever; roll back is exact;
      CAN modes are mutually exclusive as documented and [reserve] refuses nothing else.
    - Serial sessions ([SerialRegistry]): commands are answered in admission order and
      none is lost, one session per resource, a close or revocation stops I/O for good,
      close replay for the last 256 sessions, events once per session and in order, no
      trace of a failed open.
    - CAN ([CanTypes], [CanActor]): the receive ring refines a lossy stream reader that
      reports every gap, the native channel's own losses included; batches are sent in order and reported exactly; transmit
      capacity is neither oversubscribed nor leaked; bus transitions are announced once;
      filters and validation mean what they say.
    - CAN manager ([CanManagerTheorems]): under any interleaving of opens, closes,
      revocations, cancelled calls and dying actors, leases are granted exactly for the
      active sessions and reserved exactly for the opens in progress; I/O is fenced by the
      session's own token; a revoked open never becomes a session; opening and closing are
      announced once each.  Two ways to leave a session that can never be closed:
      [can_orphan_is_stuck], [can_dropped_close_strands].
    - Cameras ([CameraTypes], [ShmLayout], [ShmRing]): accepted frames are safe to read;
      the mapping's layout is sound; the header admits exactly the authorised; a leased
      frame is never overwritten; a published frame is read back byte for byte; there is
      always a slot to write and the newest frame is leased.
    - Camera sessions ([CameraWorkerSpec], [CameraManagerSpec]): one thread at a time serves a
      camera, under any interleaving; once a close is accepted or the camera has failed, the
      session is left alone until its close, no native call is begun (an open that was running
      may still end) and every request is told why; a thread told to close ends; the
      frames a session hands out carry its lease generation.  A failed mapping lets two
      threads hold one device: [camera_unmapped_overlap].
    - USB and GPIO ([Worker], [WorkerManager]): a resource has one native user at a time
      under any interleaving of opens, timeouts, cancellations, closes and panics; the
      commands of a worker are resolved once each and in order, at most one native
      operation begins after a close request, and a worker told to close ends; I/O calls
      are fenced by the lease; a finished session gives its resource back.  A dropped
      open does not: [cancelled_open_blocks].
    - Broker ([BrokerSafety], [BrokerConnection], [BrokerLimits]): every call of the
      runtime follows a handshake with the startup token, is made for the connection's
      owner, within the negotiated limits (of bytes read and written and of the frame that an answer
      may need) and, serial I/O apart, on a session granted to
      the connection under the lease presented; requests are answered once each, queues are
      bounded, events reach their owner only; the handshake accepts exactly what it should
      and the limits it agrees to fit the frames that protobuf produces.
    - Client ([ClientSpec], [ClientHandlesSpec], [ClientPreflight], [ClientWire],
      [ClientBroker], [ClientCalls], [ClientAccepts], [ClientInbound]): under any interleaving
      of callers, cancellations, reader and writer, a caller gets the response to its own request, validated, or an error, and is never
      forgotten; a termination is final and answers everybody; late responses are consumed,
      stray ones end the connection; the bookkeeping is bounded.  The scanner accepts exactly
      the protobuf wire format, but for field numbers that protobuf does not allow
      ([oversized_fields_confused]), and the preflight bounds what is decoded.  The two
      handshakes agree; what a method asks reaches the runtime with its arguments, but for the
      values the client does not check; and whatever the runtime answers within its contract,
      the frame with the broker's response passes the client's preflight and validation and is
      handed to the caller.  An answer that refuses one malformed request ends the connection
      of all: [client_refusal_disconnects], [open_serial_sends_malformed].
    - Wire protocol ([WireCore], [WireCan], [WireUsbGpio], [WireCamera]): decoding is exact, that is, a message is
      accepted iff it encodes a value the validating constructors accept, and gives that
      value back; malformed input is refused with one error; batches are bounded; the
      outcome of a batch send survives the wire; negotiation picks the greatest common
      minor version.
    - Native adapters: identifiers tell devices apart, and only those the device carries are
      Strong, the kernel's name of a GPIO chip excepted; the PCAN timing search is exact,
      complete and optimal, frames survive the vendor's formats, a receive ends, a channel is
      never opened with other settings than asked for; configuring a SocketCAN link is a
      transaction, but for settings that the kernel refuses half-way on a link that was down
      ([configure_down_half_applied]), and its lease gives the link back as it was, unless a
      restore fails half-way ([failed_close_is_stuck]); the serial loops end by their deadline and move the bytes they
      report, every call on a serial session is answered, its close ends the thread and keeps
      the error it interrupted, and opening a port is a transaction; a GPIO request holds
      the lines as configured or nothing, and waiting for an edge discards the ones read with
      it ([gpio_next_edge_discards]); a USB transfer reaches the device as it was asked for; a
      V4L2 buffer becomes a frame exactly when it has the layout of its format, which no buffer
      has of some formats that opening accepts ([v4l2_opens_uncapturable]), and a camera is
      claimed exactly while a thread uses it.
    - Facade ([Facade]): a dropped serial or CAN handle has its session closed, later and once,
      when no close has succeeded and the drop happens within tokio; the other handles, and
      all of them outside of tokio, leave theirs ([dropped_handle_leaks]).
    - Broker application ([BrokerToken], [BrokerServe]): a token comes from a private file,
      checked before and after it is read and once more before it is deleted; starting to serve is a transaction; at most
      the maximum of connections is served, and all are joined before the broker returns; the
      manifest names the runtime's adapters, but for the serial one
      ([manifest_names_adapters]).
    - Shared-memory mappings ([ShmPlatform]): making or opening one is all or nothing, but for a
      lock file that fails its check ([lock_file_left_behind]); dropping and unlinking it gives
      everything back.
    - Test kit: the virtual CAN and camera adapters pass the conformance checks; claims are
      exclusive; no frame, edge or byte disappears unreported; a Configure channel's close
      restores the bus, its drop does not ([dropped_configure_channel]); a closed GPIO session
      still acts ([closed_gpio_session_acts]).
    - Core ([Core], [Lifecycle]): parsers accept exactly their grammars; resolution is
      unambiguous and blind to endpoints; errors lose only diagnostics when serialized.

    These record behaviour that departs from the intention:
    [ShmRing.shm_failed_publish_tears], [CameraTypes.control_range_contains_wraps],
    [WorkerManager.cancelled_open_blocks], [UsbManager.usb_revoke_leaves_session],
    [CanManagerTheorems.can_orphan_is_stuck], [CanManagerTheorems.can_dropped_close_strands],
    [CameraManagerSpec.camera_unmapped_overlap],
    [ClientSpec.client_refusal_disconnects], [ClientWire.oversized_fields_confused],
    [SocketcanSpec.failed_close_is_stuck], [SocketcanSpec.configure_down_half_applied],
    [LinuxGpio.gpio_next_edge_discards], [Facade.dropped_handle_leaks],
    [V4l2Spec.v4l2_opens_uncapturable], [V4l2Spec.v4l2_timeout_ends_session],
    [BrokerServe.manifest_reports_missing_serial], [ShmPlatform.lock_file_left_behind],
    [TestkitUsbGpio.closed_gpio_session_acts], [TestkitCan.dropped_configure_channel].

    ** What is not modelled

    Of the client, the wiping of secrets and the grace period of [close].  What
    the adapters call (drivers, kernels, vendor libraries) is a class over the state of the
    machine.  The cameras of macOS and Windows, Windows itself (GPIO, pipes, mappings,
    security descriptors), the broker's command line and tracing and the Python bindings are
    bindings of operating-system interfaces or glue and stay outside.

    This file holds what the components share: the result monad, machine integers, string
    operations of the Rust standard library, the tactics [bool_simp], [break_hyp] and
    [break_goal], the hint database [hal], and lemmas on results, integers and strings. *)

From stdpp Require Export base decidable gmap strings list numbers option fin_maps.
From stdpp Require Import pretty.
From Stdlib Require Import Ascii.

(** ** The result type of fallible operations

    Rust's [Result<T, E>]; the error type comes first so that [result E] is a
    monad and stdpp's [x ← e; k] reads like the [?] operator. *)
Inductive result (E T : Type) : Type :=
  | Ok (value : T)
  | Err (error : E).
Global Arguments Ok {E T} value.
Global Arguments Err {E T} error.

Global Instance result_ret {E} : MRet (result E) := λ T x, Ok x.
Global Instance result_bind {E} : MBind (result E) :=
  λ T U f r, match r with Ok x => f x | Err e => Err e end.
Global Instance result_fmap {E} : FMap (result E) :=
  λ T U f r, match r with Ok x => Ok (f x) | Err e => Err e end.
Global Instance result_eq_dec {E T} `{EqDecision E, EqDecision T} : EqDecision (result E T).
Proof. solve_decision. Defined.

(** [Result::map_err], [Option::ok_or_else], [Result::is_ok] and [Result::ok]. *)
Definition map_err {E F T} (f : E → F) (r : result E T) : result F T :=
  match r with Ok x => Ok x | Err e => Err (f e) end.
Definition ok_or {E T} (e : E) (o : option T) : result E T :=
  match o with Some x => Ok x | None => Err e end.
Definition is_ok {E T} (r : result E T) : bool :=
  match r with Ok _ => true | Err _ => false end.
Definition result_ok {E T} (r : result E T) : option T :=
  match r with Ok x => Some x | Err _ => None end.
Definition result_err {E T} (r : result E T) : option E :=
  match r with Ok _ => None | Err e => Some e end.

(** [iter().map(f).collect::<Result<Vec<_>, _>>()]: the first error wins. *)
Fixpoint collect {E A B} (f : A → result E B) (l : list A) : result E (list B) :=
  match l with
  | [] => Ok []
  | x :: l =>
      match f x with
      | Err e => Err e
      | Ok y => match collect f l with Ok ys => Ok (y :: ys) | Err e => Err e end
      end
  end.

(** [iter().try_fold(acc, f)]. *)
Fixpoint try_fold {E A B} (f : A → B → result E A) (acc : A) (l : list B) : result E A :=
  match l with
  | [] => Ok acc
  | x :: l => match f acc x with Ok acc => try_fold f acc l | Err e => Err e end
  end.

(** [Option::map(f).transpose()]. *)
Definition transpose {E A B} (f : A → result E B) (o : option A) : result E (option B) :=
  match o with
  | None => Ok None
  | Some x => match f x with Ok y => Ok (Some y) | Err e => Err e end
  end.

(** [Option::is_some_and] and [Option::is_none_or]. *)
Definition is_some_and {A} (p : A → bool) (o : option A) : bool :=
  match o with Some x => p x | None => false end.
Definition is_none_or {A} (p : A → bool) (o : option A) : bool :=
  match o with Some x => p x | None => true end.
Definition is_some {A} (o : option A) : bool :=
  match o with Some _ => true | None => false end.
Definition is_none {A} (o : option A) : bool := negb (is_some o).

(** ** Machine integers

    Values are [Z]; the width bounds are written out where the code relies on
    them.  [usize] is 64 bits, as on every target of release/targets.toml. *)
Open Scope Z_scope.

Definition u8_max : Z := 2 ^ 8 - 1.
Definition u16_max : Z := 2 ^ 16 - 1.
Definition u32_max : Z := 2 ^ 32 - 1.
Definition u64_max : Z := 2 ^ 64 - 1.
Definition usize_max : Z := u64_max.
Definition i64_min : Z := - 2 ^ 63.
Definition i64_max : Z := 2 ^ 63 - 1.

(** [Vec::len]. *)
Definition len {A} (l : list A) : Z := Z.of_nat (length l).

Definition is_u8 (x : Z) : bool := (0 <=? x) && (x <=? u8_max).
Definition is_u16 (x : Z) : bool := (0 <=? x) && (x <=? u16_max).
Definition is_u32 (x : Z) : bool := (0 <=? x) && (x <=? u32_max).
Definition is_u64 (x : Z) : bool := (0 <=? x) && (x <=? u64_max).

Definition checked_add (max a b : Z) : option Z :=
  if a + b <=? max then Some (a + b) else None.
Definition checked_mul (max a b : Z) : option Z :=
  if a * b <=? max then Some (a * b) else None.
Definition saturating_add (max a b : Z) : Z := Z.min max (a + b).
(** [uN::try_from] of a wider unsigned value. *)
Definition try_from (max a : Z) : option Z := if a <=? max then Some a else None.
(** Two's-complement wrap of a 64-bit signed result. *)
Definition wrap_i64 (x : Z) : Z := (x - i64_min) mod 2 ^ 64 + i64_min.

(** ** Strings

    A Rust [String] is a sequence of bytes (UTF-8); [string] is a sequence of
    8-bit characters, so [String.length] is Rust's [len] in bytes. *)
Definition byte_of (c : ascii) : Z := Z.of_nat (nat_of_ascii c).
Definition str_len (s : string) : Z := Z.of_nat (String.length s).

Fixpoint str_all (p : ascii → bool) (s : string) : bool :=
  match s with EmptyString => true | String c s => p c && str_all p s end.
Definition is_ascii (s : string) : bool := str_all (λ c, byte_of c <? 128) s.
Definition str_is_empty (s : string) : bool :=
  match s with EmptyString => true | _ => false end.

Definition is_ascii_lowercase (c : ascii) : bool := (97 <=? byte_of c) && (byte_of c <=? 122).
Definition is_ascii_uppercase (c : ascii) : bool := (65 <=? byte_of c) && (byte_of c <=? 90).
Definition is_ascii_digit (c : ascii) : bool := (48 <=? byte_of c) && (byte_of c <=? 57).
Definition is_ascii_alphanumeric (c : ascii) : bool :=
  is_ascii_lowercase c || is_ascii_uppercase c || is_ascii_digit c.

(** [str::split_once], [str::split] and [str::contains] for a one-character pattern. *)
Fixpoint split_once (sep : ascii) (s : string) : option (string * string) :=
  match s with
  | EmptyString => None
  | String c s' =>
      if decide (c = sep) then Some (EmptyString, s')
      else match split_once sep s' with
           | Some (a, b) => Some (String c a, b)
           | None => None
           end
  end.
Fixpoint str_split (sep : ascii) (s : string) : list string :=
  match s with
  | EmptyString => [EmptyString]
  | String c s' =>
      if decide (c = sep) then EmptyString :: str_split sep s'
      else match str_split sep s' with
           | w :: ws => String c w :: ws
           | [] => [String c EmptyString]
           end
  end.
Definition str_contains (sep : ascii) (s : string) : bool :=
  negb (str_all (λ c, negb (bool_decide (c = sep))) s).

(** [str::parse::<u64>]: an optional leading [+], then decimal digits only. *)
Fixpoint digits_value (acc : Z) (s : string) : option Z :=
  match s with
  | EmptyString => Some acc
  | String c s' =>
      if is_ascii_digit c then digits_value (acc * 10 + (byte_of c - 48)) s' else None
  end.
Definition parse_u64 (s : string) : option Z :=
  let digits :=
    match s with
    | String c (String _ _ as rest) => if byte_of c =? 43 then rest else s
    | _ => s
    end in
  if str_is_empty digits then None
  else match digits_value 0 digits with
       | Some v => if v <=? u64_max then Some v else None
       | None => None
       end.

(** [u64::to_string]. *)
Definition to_string (x : Z) : string := pretty (Z.to_N x).

(** ** Automation *)
Create HintDb hal.

(** Simplify boolean tests in hypotheses and goal to arithmetic facts. *)
Ltac bool_simp :=
  repeat match goal with
  | H : context [negb _ = true] |- _ => rewrite negb_true_iff in H
  | H : context [negb _ = false] |- _ => rewrite negb_false_iff in H
  | H : _ && _ = true |- _ => apply andb_prop in H as [? ?]
  | H : _ && _ = false |- _ => apply andb_false_iff in H
  | H : _ || _ = false |- _ => apply orb_false_elim in H as [? ?]
  | H : _ || _ = true |- _ => apply orb_prop in H
  | H : (_ <=? _) = true |- _ => apply Z.leb_le in H
  | H : (_ <=? _) = false |- _ => apply Z.leb_gt in H
  | H : (_ <? _) = true |- _ => apply Z.ltb_lt in H
  | H : (_ <? _) = false |- _ => apply Z.ltb_ge in H
  | H : (_ =? _) = true |- _ => apply Z.eqb_eq in H
  | H : (_ =? _) = false |- _ => apply Z.eqb_neq in H
  | H : bool_decide _ = true |- _ => apply bool_decide_eq_true_1 in H
  | H : bool_decide _ = false |- _ => apply bool_decide_eq_false_1 in H
  end.

(** Case split on the scrutinee of the outermost [match]/[if] of a
    hypothesis or of the goal, keeping the equation. *)
Ltac break_match_in H :=
  lazymatch type of H with
  | context [match ?x with _ => _ end] =>
      lazymatch x with
      | context [match _ with _ => _ end] => fail
      | _ => destruct x eqn:?
      end
  end.
Ltac break_hyp :=
  match goal with
  | H : context [match ?x with _ => _ end] |- _ =>
      lazymatch x with
      | context [match _ with _ => _ end] => fail
      | _ => destruct x eqn:?
      end
  end.
Ltac break_goal :=
  match goal with
  | |- context [match ?x with _ => _ end] =>
      lazymatch x with
      | context [match _ with _ => _ end] => fail
      | _ => destruct x eqn:?
      end
  end.

(** ** Shared lemmas *)
Section results.
Context {E A B : Type}.

Lemma bind_Ok (r : result E A) (f : A → result E B) (y : B) :
  (r ≫= f) = Ok y ↔ ∃ x, r = Ok x ∧ f x = Ok y.
Proof. destruct r; naive_solver. Qed.

Lemma bind_Err (r : result E A) (f : A → result E B) (e : E) :
  (r ≫= f) = Err e ↔ r = Err e ∨ ∃ x, r = Ok x ∧ f x = Err e.
Proof. destruct r; naive_solver. Qed.

Lemma map_err_Ok {F} (g : E → F) (r : result E A) x : map_err g r = Ok x ↔ r = Ok x.
Proof. destruct r; naive_solver. Qed.

Lemma collect_Ok (f : A → result E B) l l' :
  collect f l = Ok l' ↔ Forall2 (λ x y, f x = Ok y) l l'.
Proof.
  revert l'; induction l as [|x l IH]; intros l'; simpl.
  - split; [intros [= <-]; constructor | by inversion 1].
  - split.
    + destruct (f x) eqn:?; [|done]. destruct (collect f l) eqn:?; [|done].
      intros [= <-]. constructor; [done|]. by apply IH.
    + inversion 1 as [|?? ys ? Hx Hl]; subst. rewrite Hx.
      by rewrite (proj2 (IH _) Hl).
Qed.

Lemma collect_length (f : A → result E B) l l' :
  collect f l = Ok l' → length l' = length l.
Proof. intros H%collect_Ok. by symmetry; eapply Forall2_length. Qed.

(** Encoding then collecting decodes every element back. *)
Lemma collect_map_roundtrip (f : A → result E B) (g : B → A) l :
  (∀ y, y ∈ l → f (g y) = Ok y) → collect f (g <$> l) = Ok l.
Proof.
  intros H. apply collect_Ok. induction l as [|y l IH]; simpl; constructor.
  - apply H. by left.
  - apply IH. intros z Hz. apply H. by right.
Qed.
End results.

Section integers.

Lemma checked_add_Some max a b c : checked_add max a b = Some c ↔ c = a + b ∧ a + b <= max.
Proof. unfold checked_add. destruct (a + b <=? max) eqn:?; bool_simp; naive_solver lia. Qed.

Lemma checked_add_None max a b : checked_add max a b = None ↔ max < a + b.
Proof. unfold checked_add. destruct (a + b <=? max) eqn:?; bool_simp; naive_solver lia. Qed.

Lemma checked_mul_Some max a b c : checked_mul max a b = Some c ↔ c = a * b ∧ a * b <= max.
Proof. unfold checked_mul. destruct (a * b <=? max) eqn:?; bool_simp; naive_solver lia. Qed.

Lemma checked_mul_None max a b : checked_mul max a b = None ↔ max < a * b.
Proof. unfold checked_mul. destruct (a * b <=? max) eqn:?; bool_simp; naive_solver lia. Qed.

Lemma ok_or_Ok {E T} (e : E) (o : option T) x : ok_or e o = Ok x ↔ o = Some x.
Proof. destruct o; naive_solver. Qed.

Lemma try_from_Some max a b : try_from max a = Some b ↔ b = a ∧ a <= max.
Proof. unfold try_from. destruct (a <=? max) eqn:?; bool_simp; naive_solver lia. Qed.

Lemma wrap_i64_id x : i64_min <= x <= i64_max → wrap_i64 x = x.
Proof. unfold wrap_i64, i64_min, i64_max. intros. rewrite Z.mod_small; lia. Qed.
End integers.

Lemma byte_of_bounds c : 0 <= byte_of c < 256.
Proof. unfold byte_of. pose proof (nat_ascii_bounded c). lia. Qed.

Lemma byte_of_inj c d : byte_of c = byte_of d → c = d.
Proof.
  unfold byte_of. intros H%Nat2Z.inj.
  by rewrite <- (ascii_nat_embedding c), <- (ascii_nat_embedding d), H.
Qed.

Lemma len_app {A} (l k : list A) : len (l ++ k) = len l + len k.
Proof. unfold len. rewrite length_app. lia. Qed.
Lemma len_nonneg {A} (l : list A) : 0 <= len l.
Proof. unfold len. lia. Qed.
Lemma str_len_nonneg s : 0 <= str_len s.
Proof. unfold str_len. lia. Qed.

Lemma str_len_pos s : str_is_empty s = false ↔ 0 < str_len s.
Proof. unfold str_len. destruct s; simpl; naive_solver lia. Qed.

Lemma str_len_app s t : str_len (s +:+ t) = str_len s + str_len t.
Proof.
  unfold str_len. rewrite <- Nat2Z.inj_add. f_equal.
  induction s as [|c s IH]; simpl; [done|]. by rewrite IH.
Qed.

Lemma str_all_app p s t : str_all p (s +:+ t) = str_all p s && str_all p t.
Proof. induction s as [|c s IH]; simpl; [done|]. by rewrite IH, andb_assoc. Qed.

Lemma str_all_impl (p q : ascii → bool) s :
  (∀ c, p c = true → q c = true) → str_all p s = true → str_all q s = true.
Proof. intros Hpq. induction s; simpl; [done|]. intros ?; bool_simp. rewrite Hpq; auto. Qed.

#[export] Hint Resolve str_len_nonneg byte_of_bounds : hal.

(** *** Splitting strings *)
Definition str_free (sep : ascii) (s : string) : Prop :=
  str_all (λ c, negb (bool_decide (c = sep))) s = true.
Fixpoint str_join (sep : ascii) (ws : list string) : string :=
  match ws with
  | [] => EmptyString
  | [w] => w
  | w :: ws => w +:+ String sep (str_join sep ws)
  end.

Lemma str_free_cons sep c s : str_free sep (String c s) ↔ c ≠ sep ∧ str_free sep s.
Proof.
  unfold str_free. simpl. rewrite andb_true_iff, negb_true_iff, bool_decide_eq_false. done.
Qed.

Lemma str_free_app sep s t : str_free sep (s +:+ t) ↔ str_free sep s ∧ str_free sep t.
Proof. unfold str_free. by rewrite str_all_app, andb_true_iff. Qed.

Lemma split_once_Some sep s a b :
  split_once sep s = Some (a, b) ↔ s = a +:+ String sep b ∧ str_free sep a.
Proof.
  revert a; induction s as [|c s IH]; intros a; simpl.
  { split; [done|]. intros [Hs _]. by destruct a. }
  case_decide as Hc.
  - subst c. split; [intros [= <- <-]; done|].
    intros [Hs Ha]. destruct a as [|d a]; [by injection Hs as ->|].
    injection Hs as <- _. by apply str_free_cons in Ha as [? _].
  - split.
    + destruct (split_once sep s) as [[a' b']|] eqn:E; [|done]. intros [= <- <-].
      destruct (proj1 (IH a') eq_refl) as [-> ?]. split; [done|]. by apply str_free_cons.
    + intros [Hs Ha]. destruct a as [|d a]; [by injection Hs as -> _|].
      injection Hs as <- Hs. apply str_free_cons in Ha as [_ Ha].
      by rewrite (proj2 (IH a) (conj Hs Ha)).
Qed.

Lemma str_split_nonnil sep s : str_split sep s ≠ [].
Proof. destruct s; simpl; [done|]. repeat case_match; done. Qed.

Lemma str_split_join sep s :
  str_join sep (str_split sep s) = s ∧ Forall (str_free sep) (str_split sep s).
Proof.
  induction s as [|c s [IHj IHf]]; simpl; [split; [done|by repeat constructor]|].
  pose proof (str_split_nonnil sep s) as Hn. case_decide as Hc.
  - subst c. split; [|by constructor].
    destruct (str_split sep s) as [|w ws]; [done|]. rewrite <- IHj. done.
  - destruct (str_split sep s) as [|w ws]; [done|]. split.
    + rewrite <- IHj. by destruct ws.
    + apply Forall_cons in IHf as [??]. constructor; [|done]. by apply str_free_cons.
Qed.

Lemma str_split_of_join sep ws :
  ws ≠ [] → Forall (str_free sep) ws → str_split sep (str_join sep ws) = ws.
Proof.
  assert (∀ w s, str_free sep w →
    str_split sep (w +:+ String sep s) = w :: str_split sep s) as Hsplit.
  { induction w as [|c w IH]; intros s Hw; simpl; [by rewrite decide_True|].
    apply str_free_cons in Hw as [? Hw]. rewrite decide_False by done. by rewrite IH. }
  assert (∀ w, str_free sep w → str_split sep w = [w]) as Hone.
  { induction w as [|c w IH]; intros Hw; simpl; [done|].
    apply str_free_cons in Hw as [? Hw]. rewrite decide_False by done. by rewrite IH. }
  induction ws as [|w ws IH]; [done|]. intros _ [Hw Hws]%Forall_cons.
  destruct ws as [|w' ws]; simpl; [by apply Hone|].
  rewrite Hsplit by done. f_equal. by apply IH.
Qed.

Lemma str_contains_split sep s :
  str_contains sep s = true ↔ (2 <= length (str_split sep s))%nat.
Proof.
  unfold str_contains. rewrite negb_true_iff.
  pose proof (str_split_nonnil sep s) as Hn. destruct (str_split_join sep s) as [Hj Hf].
  destruct (str_split sep s) as [|w [|w' ws]] eqn:E; [done| |]; simpl.
  - simpl in Hj. subst w. apply Forall_cons in Hf as [Hf _]. unfold str_free in Hf.
    rewrite Hf. split; [done|lia].
  - split; [lia|]. intros _. apply not_true_is_false. intros Hfree.
    rewrite <- Hj in Hfree. apply str_free_app in Hfree as [_ Hfree].
    by apply str_free_cons in Hfree as [? _].
Qed.

(** On a string of digits [parse::<u64>] is the decimal value, bounds-checked. *)
Lemma parse_u64_digits s :
  str_all is_ascii_digit s = true → s ≠ EmptyString →
  parse_u64 s = match digits_value 0 s with
                | Some v => if v <=? u64_max then Some v else None
                | None => None
                end.
Proof.
  intros Hd Hne. unfold parse_u64. destruct s as [|c [|d s]]; [done|done|].
  simpl in Hd. bool_simp. destruct (byte_of c =? 43) eqn:E; [|done].
  unfold is_ascii_digit in *. bool_simp. lia.
Qed.

Lemma digits_value_nonneg acc s v : 0 <= acc → digits_value acc s = Some v → 0 <= v.
Proof.
  revert acc. induction s as [|c s IH]; intros acc Ha; cbn; [by intros [= <-]|].
  destruct (is_ascii_digit c) eqn:Hc; [|done]. apply IH. unfold is_ascii_digit in Hc. bool_simp. lia.
Qed.
Lemma parse_u64_bounds s v : parse_u64 s = Some v → 0 <= v <= u64_max.
Proof.
  unfold parse_u64. set (digits := match s with EmptyString => _ | String _ _ => _ end).
  destruct (str_is_empty digits); [done|]. destruct (digits_value 0 digits) as [x|] eqn:Hx; [|done].
  apply digits_value_nonneg in Hx; [|done]. destruct (x <=? u64_max) eqn:Hle; [|done].
  intros [= <-]. bool_simp. lia.
Qed.

(** The decimal rendering of a u64 has at most 20 digits. *)
Lemma pretty_N_go_length (n : nat) (x : N) (s : string) :
  (x < 10 ^ N.of_nat n)%N → (String.length (pretty_N_go x s) <= String.length s + n)%nat.
Proof.
  revert x s. induction n as [|n IH]; intros x s Hx.
  { assert (x = 0%N) as -> by (simpl in Hx; lia). rewrite pretty_N_go_0. lia. }
  destruct (decide (x = 0)%N) as [->|Hne]; [rewrite pretty_N_go_0; lia|].
  rewrite pretty_N_go_step by lia. etransitivity; [apply IH|simpl; lia].
  apply N.Div0.div_lt_upper_bound. by rewrite <- N.pow_succ_r', <- Nat2N.inj_succ.
Qed.

Lemma to_string_length x : x <= u64_max → str_len (to_string x) <= 20.
Proof.
  intros Hx. unfold to_string, str_len, pretty, pretty_N. case_decide; [simpl; lia|].
  pose proof (pretty_N_go_length 20 (Z.to_N x) "") as Hlen. simpl in Hlen.
  unfold u64_max in Hx. lia.
Qed.

Lemma tail_drop {A} n (l : list A) : tail (drop n l) = drop (S n) l.
Proof. revert l; induction n as [|n IH]; intros [|x l]; simpl; auto. Qed.
