(* ===== verification/Varint.v ===== *)
(** * Base 128 varints

    The wire format of protobuf integers, as a reference: the encoder of canonical varints,
    the relation between a value and any of its encodings, canonical or padded, and the
    lengths of the fields protobuf writes. *)

From S2P Require Import Prelude.

(** ** Encoder and decoder *)
Fixpoint varint_encode_loop (rounds : nat) (value : Z) : list Z :=
  match rounds with
  | O => [value]
  | S rounds =>
      if value <? 128 then [value]
      else (128 + value mod 128) :: varint_encode_loop rounds (value / 128)
  end.
Definition varint_encode (value : Z) : list Z := varint_encode_loop 10 value.
Fixpoint varint_decode (bytes : list Z) : Z :=
  match bytes with
  | [] => 0
  | b :: rest => if b <? 128 then b else b - 128 + 128 * varint_decode rest
  end.
Definition varint_bytes (value : Z) : Z := len (varint_encode value).

(** [bytes], read from place [index] of a varint, stand for [v]: at most ten bytes, all but
    the last with their high bit set, within 64 bits. *)
Inductive varint_at : Z → list Z → Z → Prop :=
  | varint_last i b : 0 <= b < 128 → i <= 9 → (i = 9 → b <= 1) → varint_at i [b] b
  | varint_more i b bs v :
      128 <= b < 256 → i < 9 → varint_at (i + 1) bs v → varint_at i (b :: bs) (b - 128 + 128 * v).
Definition varint (bytes : list Z) (v : Z) : Prop := varint_at 0 bytes v.

Lemma varint_decode_loop n v : 0 <= v < 128 ^ (Z.of_nat n + 1) →
  varint_decode (varint_encode_loop n v) = v.
Proof.
  revert v. induction n as [|n IH]; intros v Hv; cbn [varint_encode_loop].
  - cbn. destruct (Z.ltb_spec v 128); lia.
  - destruct (Z.ltb_spec v 128) as [Hlt|Hge]; cbn [varint_decode].
    + destruct (Z.ltb_spec v 128); lia.
    + pose proof (Z.mod_pos_bound v 128). destruct (Z.ltb_spec (128 + v mod 128) 128); [lia|].
      rewrite IH; [pose proof (Z.div_mod v 128); lia|].
      split; [apply Z.div_pos; lia|]. apply Z.div_lt_upper_bound; [lia|].
      rewrite Nat2Z.inj_succ, <- Z.add_1_r, (Z.pow_add_r 128 (Z.of_nat n + 1) 1) in Hv by lia. lia.
Qed.
Lemma varint_loop_mono n v w : 0 <= v <= w →
  (length (varint_encode_loop n v) <= length (varint_encode_loop n w))%nat.
Proof.
  revert v w. induction n as [|n IH]; intros v w Hvw; cbn [varint_encode_loop]; [done|].
  destruct (Z.ltb_spec v 128), (Z.ltb_spec w 128); cbn; try lia.
  apply le_n_S, IH. split; [apply Z.div_pos; lia|]. apply Z.div_le_mono; lia.
Qed.
Lemma varint_bytes_mono v w : 0 <= v <= w → varint_bytes v <= varint_bytes w.
Proof. intros Hvw. unfold varint_bytes, len, varint_encode. pose proof (varint_loop_mono 10 v w Hvw). lia. Qed.
Lemma varint_bytes_u64 v : 0 <= v <= u64_max → 1 <= varint_bytes v <= 10.
Proof.
  intros Hv. split.
  - change 1 with (varint_bytes 0). apply varint_bytes_mono. lia.
  - change 10 with (varint_bytes u64_max). by apply varint_bytes_mono.
Qed.
Lemma varint_bytes_small v : 0 <= v < 128 → varint_bytes v = 1.
Proof.
  intros Hv. pose proof (varint_bytes_mono 0 v). pose proof (varint_bytes_mono v 127).
  change (varint_bytes 0) with 1 in *. change (varint_bytes 127) with 1 in *. lia.
Qed.

Lemma varint_at_bound i bs v : 0 <= i → varint_at i bs v → 0 <= v < 2 ^ (64 - 7 * i).
Proof.
  intros Hi. induction 1 as [i b Hb Hi9 H9|i b bs v Hb Hi9 _ IH].
  - split; [lia|]. destruct (decide (i = 9)) as [->|].
    + change (2 ^ (64 - 7 * 9)) with 2. lia.
    + apply Z.lt_le_trans with (2 ^ 7); [lia|]. apply Z.pow_le_mono_r; lia.
  - specialize (IH ltac:(lia)). replace (64 - 7 * i) with (64 - 7 * (i + 1) + 7) by lia.
    rewrite Z.pow_add_r by lia. lia.
Qed.
Lemma varint_u64 bs v : varint bs v → 0 <= v <= u64_max.
Proof. intros H%varint_at_bound; [|done]. unfold u64_max. change (64 - 7 * 0) with 64 in H. lia. Qed.
Lemma varint_decode_at i bs v : varint_at i bs v → varint_decode bs = v.
Proof.
  induction 1 as [i b Hb _ _|i b bs v Hb _ _ IH]; cbn [varint_decode].
  - destruct (Z.ltb_spec b 128); lia.
  - rewrite IH. destruct (Z.ltb_spec b 128); lia.
Qed.
Lemma varint_nonempty i bs v : varint_at i bs v → bs ≠ [].
Proof. by destruct 1. Qed.
Lemma varint_encode_at n i v : 0 <= i → (i + Z.of_nat n = 9) → 0 <= v < 2 ^ (64 - 7 * i) →
  varint_at i (varint_encode_loop (S n) v) v.
Proof.
  revert i v. induction n as [|n IH]; intros i v Hi Hn Hv.
  - assert (i = 9) as -> by lia. change (2 ^ (64 - 7 * 9)) with 2 in Hv. cbn [varint_encode_loop].
    destruct (Z.ltb_spec v 128); [|lia]. constructor; lia.
  - change (varint_encode_loop (S (S n)) v) with
      (if v <? 128 then [v] else (128 + v mod 128) :: varint_encode_loop (S n) (v / 128)).
    destruct (Z.ltb_spec v 128); [constructor; lia|].
    pose proof (Z.mod_pos_bound v 128 ltac:(lia)).
    assert (Hd : v = (128 + v mod 128) - 128 + 128 * (v / 128))
      by (pose proof (Z.div_mod v 128 ltac:(lia)); lia).
    rewrite Hd at 3. apply varint_more; [lia|lia|]. apply IH; [lia|lia|].
    split; [apply Z.div_pos; lia|]. apply Z.div_lt_upper_bound; [lia|].
    replace (64 - 7 * i) with (7 + (64 - 7 * (i + 1))) in Hv by lia.
    rewrite Z.pow_add_r in Hv by lia. lia.
Qed.
Lemma varint_encode_correct v : 0 <= v <= u64_max → varint (varint_encode v) v.
Proof.
  intros Hv. apply (varint_encode_at 9 0); [done|done|].
  unfold u64_max in Hv. change (64 - 7 * 0) with 64. lia.
Qed.

(** ** Lengths of protobuf fields, the reference: scalars that are zero or empty are omitted *)
Definition wire_tag (field wire_type : Z) : Z := varint_bytes (field * 8 + wire_type).
Definition wire_varint (field value : Z) : Z :=
  if value =? 0 then 0 else wire_tag field 0 + varint_bytes value.
Definition wire_message (field length : Z) : Z := wire_tag field 2 + varint_bytes length + length.
Definition wire_bytes (field length : Z) : Z := if length =? 0 then 0 else wire_message field length.
Lemma wire_message_mono field n m : 0 <= n <= m → wire_message field n <= wire_message field m.
Proof. intros H. unfold wire_message. pose proof (varint_bytes_mono n m H). lia. Qed.
Lemma wire_message_nonneg field n : 0 <= n → 0 <= wire_message field n.
Proof. unfold wire_message, wire_tag, varint_bytes, len. lia. Qed.
Lemma wire_bytes_bound field n m : 0 <= n <= m → 0 <= wire_bytes field n <= wire_message field m.
Proof.
  intros H. unfold wire_bytes. pose proof (wire_message_nonneg field n).
  pose proof (wire_message_mono field n m H). destruct (_ =? _); lia.
Qed.
Lemma wire_varint_u64 field v : 1 <= field <= 3 → 0 <= v <= u64_max → 0 <= wire_varint field v <= 11.
Proof.
  intros Hf Hv. unfold wire_varint, wire_tag. rewrite (varint_bytes_small (field * 8 + 0)) by lia.
  pose proof (varint_bytes_u64 v Hv). destruct (_ =? _); lia.
Qed.
Lemma wire_varint_small field v : 1 <= field <= 3 → 0 <= v < 128 → 0 <= wire_varint field v <= 2.
Proof.
  intros Hf Hv. unfold wire_varint, wire_tag. rewrite (varint_bytes_small (field * 8 + 0)) by lia.
  rewrite varint_bytes_small by lia. destruct (_ =? _); lia.
Qed.
