(* ===== verification/Core.v ===== *)
(** * robot-hal-core: identifiers, errors, capabilities, resources, leases

    Models crates/robot-hal-core/src/{error,capability,identity,lease}.rs.
    Every newtype of the crate is a record with one field; every validating
    constructor is a function into [HalResult].  [HalError] keeps all nine
    fields, debug messages included, so that an error produced by another
    component can be compared as a whole. *)

From S2P Require Import Prelude.
From Stdlib Require Import Ascii.

(** ** Data *)
Inductive ErrorCategory := InvalidArgument | NotFound | Conflict | Unavailable | Internal.

Record ErrorName := mkErrorName { ErrorName_as_str : string }.
Record OperationName := mkOperationName { OperationName_as_str : string }.
Record ResourceId := mkResourceId { ResourceId_as_str : string }.
Record Endpoint := mkEndpoint { Endpoint_as_str : string }.
Record CapabilityId := mkCapabilityId { CapabilityId_as_str : string }.
Record LeaseId := mkLeaseId { LeaseId_as_str : string }.
Record OwnerId := mkOwnerId { OwnerId_as_str : string }.
Record SessionId := mkSessionId { SessionId_as_str : string }.

Record ErrorContext := mkErrorContext { context_map : gmap string string }.

Record HalError := mkHalError {
  err_name : ErrorName;
  err_category : ErrorCategory;
  err_operation : OperationName;
  err_retryable : bool;
  err_debug_message : string;
  err_resource_id : option ResourceId;
  err_platform_code : option string;
  err_vendor_code : option string;
  err_context : ErrorContext;
}.

Abbreviation HalResult := (result HalError).

Inductive IdentityQuality := Weak | Medium | Strong.
Inductive TransportKind := Serial | Can | Usb | Gpio | Camera.
Inductive LeaseMode := Observe | Control | Maintenance.

Record CapabilitySet := mkCapabilitySet { CapabilitySet_as_slice : list CapabilityId }.
Record ResourceProperties := mkResourceProperties { properties_map : gmap string string }.

Record ResourceDescriptor := mkResourceDescriptor {
  desc_id : ResourceId;
  desc_endpoint : Endpoint;
  desc_minimum_identity_quality : IdentityQuality;
  desc_transport : TransportKind;
  desc_properties : ResourceProperties;
  desc_capabilities : CapabilitySet;
}.

Record ResourceSelector := mkResourceSelector {
  sel_id : ResourceId;
  sel_minimum_identity_quality : IdentityQuality;
  sel_transport : TransportKind;
}.

Record LeaseToken := mkLeaseToken {
  token_lease_id : LeaseId;
  token_generation : Z;
  token_mode : LeaseMode;
}.

(** *** Decidable equality and countability, for [decide] and for map keys *)
Global Instance ErrorCategory_eq_dec : EqDecision ErrorCategory.
Proof. solve_decision. Defined.
Global Instance ErrorName_eq_dec : EqDecision ErrorName.
Proof. solve_decision. Defined.
Global Instance OperationName_eq_dec : EqDecision OperationName.
Proof. solve_decision. Defined.
Global Instance ResourceId_eq_dec : EqDecision ResourceId.
Proof. solve_decision. Defined.
Global Instance Endpoint_eq_dec : EqDecision Endpoint.
Proof. solve_decision. Defined.
Global Instance CapabilityId_eq_dec : EqDecision CapabilityId.
Proof. solve_decision. Defined.
Global Instance LeaseId_eq_dec : EqDecision LeaseId.
Proof. solve_decision. Defined.
Global Instance OwnerId_eq_dec : EqDecision OwnerId.
Proof. solve_decision. Defined.
Global Instance SessionId_eq_dec : EqDecision SessionId.
Proof. solve_decision. Defined.
Global Instance ErrorContext_eq_dec : EqDecision ErrorContext.
Proof. solve_decision. Defined.
Global Instance HalError_eq_dec : EqDecision HalError.
Proof. solve_decision. Defined.
Global Instance IdentityQuality_eq_dec : EqDecision IdentityQuality.
Proof. solve_decision. Defined.
Global Instance TransportKind_eq_dec : EqDecision TransportKind.
Proof. solve_decision. Defined.
Global Instance LeaseMode_eq_dec : EqDecision LeaseMode.
Proof. solve_decision. Defined.
Global Instance LeaseToken_eq_dec : EqDecision LeaseToken.
Proof. solve_decision. Defined.
Global Instance CapabilitySet_eq_dec : EqDecision CapabilitySet.
Proof. solve_decision. Defined.
Global Instance ResourceProperties_eq_dec : EqDecision ResourceProperties.
Proof. solve_decision. Defined.
Global Instance ResourceDescriptor_eq_dec : EqDecision ResourceDescriptor.
Proof. solve_decision. Defined.
Global Instance ResourceSelector_eq_dec : EqDecision ResourceSelector.
Proof. solve_decision. Defined.

Global Instance ResourceId_countable : Countable ResourceId.
Proof. apply (inj_countable' ResourceId_as_str mkResourceId). by intros []. Defined.
Global Instance SessionId_countable : Countable SessionId.
Proof. apply (inj_countable' SessionId_as_str mkSessionId). by intros []. Defined.
Global Instance OwnerId_countable : Countable OwnerId.
Proof. apply (inj_countable' OwnerId_as_str mkOwnerId). by intros []. Defined.

(** ** error.rs *)
Definition ERROR_CONTEXT_MAX_ENTRIES : Z := 16.
Definition ERROR_CONTEXT_MAX_KEY_BYTES : Z := 64.
Definition ERROR_CONTEXT_MAX_VALUE_BYTES : Z := 1024.
Definition ERROR_CONTEXT_MAX_TOTAL_BYTES : Z := 8192.

Definition ErrorContext_default : ErrorContext := mkErrorContext ∅.

(** The name and the operation are static strings or [field] followed by a
    static suffix; the code parses them with [expect].  That this never panics
    is [identifier_error_metadata_valid] below. *)
Definition HalError_invalid_argument_error (name operation debug_message : string) : HalError :=
  mkHalError (mkErrorName name) InvalidArgument (mkOperationName operation) false
    debug_message None None None ErrorContext_default.

(** ** capability.rs: the identifier validator *)
Definition validate_identifier (field value : string) : HalResult unit :=
  if str_is_empty value then
    Err (HalError_invalid_argument_error (field +:+ ".empty") field
           "identifier must not be empty")
  else if 255 <? str_len value then
    Err (HalError_invalid_argument_error (field +:+ ".too_long") field
           "identifier must be at most 255 bytes")
  else if negb (is_ascii value) then
    Err (HalError_invalid_argument_error (field +:+ ".non_ascii") field
           "identifier must be ASCII")
  else Ok ().

Definition ErrorName_parse (value : string) : HalResult ErrorName :=
  validate_identifier "error.name" value ≫= λ _, Ok (mkErrorName value).
Definition OperationName_parse (value : string) : HalResult OperationName :=
  validate_identifier "operation.name" value ≫= λ _, Ok (mkOperationName value).
Definition ResourceId_parse (value : string) : HalResult ResourceId :=
  validate_identifier "resource.id" value ≫= λ _, Ok (mkResourceId value).
Definition LeaseId_parse (value : string) : HalResult LeaseId :=
  validate_identifier "lease.id" value ≫= λ _, Ok (mkLeaseId value).
Definition OwnerId_parse (value : string) : HalResult OwnerId :=
  validate_identifier "owner.id" value ≫= λ _, Ok (mkOwnerId value).
Definition SessionId_parse (value : string) : HalResult SessionId :=
  validate_identifier "session.id" value ≫= λ _, Ok (mkSessionId value).

Definition Endpoint_new (value : string) : HalResult Endpoint :=
  if str_is_empty value then
    Err (HalError_invalid_argument_error "endpoint.empty" "endpoint.new"
           "endpoint must not be empty")
  else if 4096 <? str_len value then
    Err (HalError_invalid_argument_error "endpoint.too_long" "endpoint.new"
           "endpoint must be at most 4096 bytes")
  else Ok (mkEndpoint value).

Definition CapabilityId_parse (value : string) : HalResult CapabilityId :=
  validate_identifier "capability.id" value ≫= λ _,
  ok_or (HalError_invalid_argument_error "capability.id.invalid" "capability.parse"
           "missing version")
        (split_once "/"%char value) ≫= λ '(contract, version),
  if existsb str_is_empty (str_split "."%char contract)
     || negb (str_contains "."%char contract)
     || negb (match version with String c _ => bool_decide (c = "v"%char) | _ => false end)
  then Err (HalError_invalid_argument_error "capability.id.invalid" "capability.parse"
              "expected <namespace>.<name>/v<positive integer>")
  else
    let number := match version with String _ rest => rest | EmptyString => EmptyString end in
    if str_is_empty number
       || negb (str_all is_ascii_digit number)
       || is_none (match parse_u64 number with
                   | Some n => if 0 <? n then Some n else None
                   | None => None
                   end)
    then Err (HalError_invalid_argument_error "capability.id.invalid" "capability.parse"
                "version must be a positive integer")
    else Ok (mkCapabilityId value).

(** ** error.rs: contexts and errors *)
Definition validate_context_key (key : string) : HalResult unit :=
  if str_is_empty key then
    Err (HalError_invalid_argument_error "error.context.key.empty" "error.context.new"
           "context keys must not be empty")
  else if ERROR_CONTEXT_MAX_KEY_BYTES <? str_len key then
    Err (HalError_invalid_argument_error "error.context.key.too_long" "error.context.new"
           "context keys must be at most 64 bytes")
  else if negb (is_ascii key) then
    Err (HalError_invalid_argument_error "error.context.key.non_ascii" "error.context.new"
           "context keys must be ASCII")
  else
    let '(first_ok, rest) :=
      match key with
      | EmptyString => (false, EmptyString)
      | String c rest => (is_ascii_lowercase c, rest)
      end in
    if negb first_ok
       || negb (str_all (λ c, is_ascii_alphanumeric c
                              || bool_decide (c = "_"%char) || bool_decide (c = "-"%char)) rest)
    then Err (HalError_invalid_argument_error "error.context.key.invalid" "error.context.new"
                "context keys must match [a-z][a-zA-Z0-9_-]*")
    else Ok ().

(** The loop of [ErrorContext::new], with its two accumulators. *)
Fixpoint ErrorContext_loop (entries : list (string * string))
    (context : gmap string string) (total_bytes : Z) : HalResult (gmap string string) :=
  match entries with
  | [] => Ok context
  | (key, value) :: entries =>
      if ERROR_CONTEXT_MAX_ENTRIES <=? Z.of_nat (size context) then
        Err (HalError_invalid_argument_error "error.context.too_many_entries"
               "error.context.new" "context must contain at most 16 entries")
      else
        match validate_context_key key with
        | Err e => Err e
        | Ok _ =>
            if ERROR_CONTEXT_MAX_VALUE_BYTES <? str_len value then
              Err (HalError_invalid_argument_error "error.context.value.too_long"
                     "error.context.new" "context values must be at most 1024 bytes")
            else if is_some (context !! key) then
              Err (HalError_invalid_argument_error "error.context.duplicate_key"
                     "error.context.new" "context keys must be unique")
            else
              let entry_bytes := str_len key + str_len value in
              if ERROR_CONTEXT_MAX_TOTAL_BYTES <? total_bytes + entry_bytes then
                Err (HalError_invalid_argument_error "error.context.too_large"
                       "error.context.new" "context key/value bytes must total at most 8192")
              else ErrorContext_loop entries (<[key := value]> context) (total_bytes + entry_bytes)
        end
  end.
Definition ErrorContext_new (entries : list (string * string)) : HalResult ErrorContext :=
  mkErrorContext <$> ErrorContext_loop entries ∅ 0.
(** [ErrorContext::iter]: the pairs of the map. *)
Definition ErrorContext_iter (context : ErrorContext) : list (string * string) :=
  map_to_list (context_map context).
Definition ErrorContext_is_empty (context : ErrorContext) : bool :=
  bool_decide (context_map context = ∅).

Definition HalError_new (name : string) (category : ErrorCategory) (operation : string)
    (retryable : bool) (debug_message : string) : HalResult HalError :=
  ErrorName_parse name ≫= λ name,
  OperationName_parse operation ≫= λ operation,
  Ok (mkHalError name category operation retryable debug_message
        None None None ErrorContext_default).

Definition HalError_with_resource_id (e : HalError) (resource_id : ResourceId) : HalError :=
  mkHalError (err_name e) (err_category e) (err_operation e) (err_retryable e)
    (err_debug_message e) (Some resource_id) (err_platform_code e) (err_vendor_code e)
    (err_context e).
Definition HalError_with_platform_code (e : HalError) (code : string) : HalResult HalError :=
  validate_identifier "error.platform_code" code ≫= λ _,
  Ok (mkHalError (err_name e) (err_category e) (err_operation e) (err_retryable e)
        (err_debug_message e) (err_resource_id e) (Some code) (err_vendor_code e)
        (err_context e)).
Definition HalError_with_vendor_code (e : HalError) (code : string) : HalResult HalError :=
  validate_identifier "error.vendor_code" code ≫= λ _,
  Ok (mkHalError (err_name e) (err_category e) (err_operation e) (err_retryable e)
        (err_debug_message e) (err_resource_id e) (err_platform_code e) (Some code)
        (err_context e)).
Definition HalError_with_context (e : HalError) (context : ErrorContext) : HalError :=
  mkHalError (err_name e) (err_category e) (err_operation e) (err_retryable e)
    (err_debug_message e) (err_resource_id e) (err_platform_code e) (err_vendor_code e)
    context.

(** [HalError::new(..).expect(..)] on static metadata: the error itself, or, when
    the metadata were invalid, the panic that [static_error_ok] rules out. *)
Definition static_error (name : string) (category : ErrorCategory) (operation : string)
    (retryable : bool) (debug_message : string) : HalError :=
  match HalError_new name category operation retryable debug_message with
  | Ok e => e
  | Err panic => panic
  end.

Record ErrorDecisionFields := mkErrorDecisionFields {
  decision_name : ErrorName;
  decision_category : ErrorCategory;
  decision_operation : OperationName;
  decision_retryable : bool;
}.
Definition HalError_decision_fields (e : HalError) : ErrorDecisionFields :=
  mkErrorDecisionFields (err_name e) (err_category e) (err_operation e) (err_retryable e).
(** serde serializes exactly the decision fields and rebuilds an error from them. *)
Definition HalError_serialize (e : HalError) : ErrorDecisionFields := HalError_decision_fields e.
Definition HalError_deserialize (decision : ErrorDecisionFields) : HalError :=
  mkHalError (decision_name decision) (decision_category decision)
    (decision_operation decision) (decision_retryable decision)
    "" None None None ErrorContext_default.
Definition HalError_display (e : HalError) : string :=
  ErrorName_as_str (err_name e) +:+ " during " +:+ OperationName_as_str (err_operation e)
  +:+ ": " +:+ err_debug_message e.

(** The serde string visitors: parse, then wrap the error with [E::custom]. *)
Section visitors.
Context {SerdeError : Type} (custom : HalError → SerdeError).
Definition ErrorName_visit_str (value : string) : result SerdeError ErrorName :=
  map_err custom (ErrorName_parse value).
Definition OperationName_visit_str (value : string) : result SerdeError OperationName :=
  map_err custom (OperationName_parse value).
Definition ResourceId_visit_str (value : string) : result SerdeError ResourceId :=
  map_err custom (ResourceId_parse value).
Definition Endpoint_visit_str (value : string) : result SerdeError Endpoint :=
  map_err custom (Endpoint_new value).
Definition CapabilityId_visit_str (value : string) : result SerdeError CapabilityId :=
  map_err custom (CapabilityId_parse value).
Definition LeaseId_visit_str (value : string) : result SerdeError LeaseId :=
  map_err custom (LeaseId_parse value).
Definition OwnerId_visit_str (value : string) : result SerdeError OwnerId :=
  map_err custom (OwnerId_parse value).
Definition SessionId_visit_str (value : string) : result SerdeError SessionId :=
  map_err custom (SessionId_parse value).
End visitors.

(** ** capability.rs, identity.rs: capability sets and resource resolution *)
Definition CapabilitySet_contains (s : CapabilitySet) (c : CapabilityId) : bool :=
  bool_decide (c ∈ CapabilitySet_as_slice s).

Definition IdentityQuality_rank (q : IdentityQuality) : Z :=
  match q with Weak => 0 | Medium => 1 | Strong => 2 end.
Definition IdentityQuality_satisfies (q minimum : IdentityQuality) : bool :=
  IdentityQuality_rank minimum <=? IdentityQuality_rank q.

Definition ResourceProperties_get (p : ResourceProperties) (key : string) : option string :=
  properties_map p !! key.
Definition ResourceSelector_exact := mkResourceSelector.
Definition ResourceDescriptor_selector (d : ResourceDescriptor) : ResourceSelector :=
  ResourceSelector_exact (desc_id d) (desc_minimum_identity_quality d) (desc_transport d).

Definition descriptor_matches (selector : ResourceSelector) (required : CapabilityId)
    (d : ResourceDescriptor) : bool :=
  bool_decide (desc_id d = sel_id selector)
  && bool_decide (desc_transport d = sel_transport selector)
  && IdentityQuality_satisfies (desc_minimum_identity_quality d)
       (sel_minimum_identity_quality selector)
  && CapabilitySet_contains (desc_capabilities d) required.

(** The filtering iterator is advanced at most twice. *)
Definition resolve_resource (descriptors : list ResourceDescriptor)
    (selector : ResourceSelector) (required_capability : CapabilityId)
    (operation : string) : HalResult ResourceDescriptor :=
  match List.filter (descriptor_matches selector required_capability) descriptors with
  | [] =>
      HalError_new "runtime.resource.not_found" NotFound operation false
        "resource selector did not match an enumerated descriptor" ≫= λ e,
      Err (HalError_with_resource_id e (sel_id selector))
  | selected :: rest =>
      match rest with
      | _ :: _ =>
          HalError_new "runtime.resource.ambiguous" Conflict operation false
            "resource selector matched more than one enumerated descriptor" ≫= λ e,
          Err (HalError_with_resource_id e (sel_id selector))
      | [] => Ok selected
      end
  end.

(** ** Identifier validation *)
Definition valid_identifier (value : string) : Prop :=
  0 < str_len value <= 255 ∧ is_ascii value = true.

Lemma validate_identifier_Ok field value :
  validate_identifier field value = Ok () ↔ valid_identifier value.
Proof.
  unfold validate_identifier, valid_identifier.
  destruct (str_is_empty value) eqn:He.
  { destruct value; [|done]. split; [done|]. intros [??]. vm_compute in H. naive_solver. }
  apply str_len_pos in He.
  destruct (255 <? str_len value) eqn:?; bool_simp; [naive_solver lia|].
  destruct (is_ascii value); simpl; naive_solver lia.
Qed.

Lemma validate_identifier_cases field value :
  validate_identifier field value = Ok () ∨
  ∃ suffix message, validate_identifier field value =
    Err (HalError_invalid_argument_error (field +:+ suffix) field message) ∧
    suffix ∈ [".empty"; ".too_long"; ".non_ascii"].
Proof.
  unfold validate_identifier. repeat break_goal; eauto; right;
    eexists _, _; (split; [done|]); set_solver.
Qed.

(** All newtype parsers are [validate_identifier] followed by the wrapper. *)
Ltac parse_spec := unfold ErrorName_parse, OperationName_parse, ResourceId_parse,
  LeaseId_parse, OwnerId_parse, SessionId_parse;
  rewrite bind_Ok; setoid_rewrite <- validate_identifier_Ok;
  split; [intros ([] & ? & [= <-]); eauto | intros [? ->]; eauto].

Lemma ErrorName_parse_Ok value n :
  ErrorName_parse value = Ok n ↔ valid_identifier value ∧ n = mkErrorName value.
Proof. parse_spec. Qed.
Lemma OperationName_parse_Ok value n :
  OperationName_parse value = Ok n ↔ valid_identifier value ∧ n = mkOperationName value.
Proof. parse_spec. Qed.
Lemma ResourceId_parse_Ok value n :
  ResourceId_parse value = Ok n ↔ valid_identifier value ∧ n = mkResourceId value.
Proof. parse_spec. Qed.
Lemma LeaseId_parse_Ok value n :
  LeaseId_parse value = Ok n ↔ valid_identifier value ∧ n = mkLeaseId value.
Proof. parse_spec. Qed.
Lemma OwnerId_parse_Ok value n :
  OwnerId_parse value = Ok n ↔ valid_identifier value ∧ n = mkOwnerId value.
Proof. parse_spec. Qed.
Lemma SessionId_parse_Ok value n :
  SessionId_parse value = Ok n ↔ valid_identifier value ∧ n = mkSessionId value.
Proof. parse_spec. Qed.

Lemma HalError_new_Ok name category operation retryable message e :
  HalError_new name category operation retryable message = Ok e ↔
  valid_identifier name ∧ valid_identifier operation ∧
  e = mkHalError (mkErrorName name) category (mkOperationName operation) retryable message
        None None None ErrorContext_default.
Proof.
  unfold HalError_new. rewrite bind_Ok. split.
  - intros (n & [Hn ->]%ErrorName_parse_Ok & Ho). apply bind_Ok in Ho as (o & Ho & [= <-]).
    apply OperationName_parse_Ok in Ho as [? ->]. done.
  - intros (Hn & Ho & ->). eexists. split; [by apply ErrorName_parse_Ok|].
    apply bind_Ok. eexists. split; [by apply OperationName_parse_Ok|done].
Qed.

(** [expect] on valid metadata does not panic and yields the plain error. *)
Lemma static_error_ok name category operation retryable message :
  valid_identifier name → valid_identifier operation →
  HalError_new name category operation retryable message
  = Ok (static_error name category operation retryable message).
Proof.
  intros Hn Ho. unfold static_error.
  by rewrite (proj2 (HalError_new_Ok name category operation retryable message _)
               (conj Hn (conj Ho eq_refl))).
Qed.

Lemma static_error_eq name category operation retryable message :
  valid_identifier name → valid_identifier operation →
  static_error name category operation retryable message
  = mkHalError (mkErrorName name) category (mkOperationName operation) retryable message
      None None None ErrorContext_default.
Proof.
  intros Hn Ho. unfold static_error.
  by rewrite (proj2 (HalError_new_Ok name category operation retryable message _)
               (conj Hn (conj Ho eq_refl))).
Qed.

(** The validator's own error names are valid whenever the field name is short
    enough to leave room for the longest suffix, which all fields used are. *)
Lemma valid_identifier_suffix field suffix :
  valid_identifier field → str_len field + str_len suffix <= 255 → is_ascii suffix = true →
  valid_identifier (field +:+ suffix).
Proof.
  unfold valid_identifier, is_ascii. intros [[??] Hf] Hlen Hs.
  rewrite str_all_app, Hf, Hs. split; [|done].
  rewrite str_len_app.
  pose proof (str_len_nonneg suffix). lia.
Qed.

Lemma valid_identifier_compute value :
  validate_identifier "" value = Ok () → valid_identifier value.
Proof. apply validate_identifier_Ok. Qed.

Ltac solve_valid_identifier := apply valid_identifier_compute; vm_compute; reflexivity.

(** Every field name that the crates pass to [validate_identifier]. *)
Definition identifier_fields : list string :=
  ["error.name"; "operation.name"; "resource.id"; "lease.id"; "owner.id"; "session.id";
   "capability.id"; "error.platform_code"; "error.vendor_code"].

(** The [expect] in [HalError::invalid_argument_error] never panics on the
    errors of the identifier validator: for every field name the crate uses and
    for every rejected value, the produced name and operation are themselves
    valid, so parsing them again succeeds and rebuilds exactly this error. *)
Theorem identifier_error_metadata_valid field value e :
  field ∈ identifier_fields →
  validate_identifier field value = Err e →
  HalError_new (ErrorName_as_str (err_name e)) (err_category e)
    (OperationName_as_str (err_operation e)) (err_retryable e) (err_debug_message e) = Ok e.
Proof.
  intros Hf He. destruct (validate_identifier_cases field value) as [|(suffix & m & Hs & Hin)];
    [congruence|]. rewrite He in Hs. injection Hs as ->. simpl.
  assert (valid_identifier field ∧ valid_identifier (field +:+ suffix)) as [??];
    [|by apply HalError_new_Ok].
  split; [|apply valid_identifier_suffix]; unfold identifier_fields in *;
    repeat (apply elem_of_cons in Hf as [-> | Hf]); try by apply elem_of_nil in Hf.
  all: try solve_valid_identifier.
  all: repeat (apply elem_of_cons in Hin as [-> | Hin]); try by apply elem_of_nil in Hin.
  all: vm_compute; congruence.
Qed.

Lemma identifier_error_metadata_valid_witness :
  HalError_new "resource.id.empty" InvalidArgument "resource.id" false
    "identifier must not be empty"
  = Ok (HalError_invalid_argument_error "resource.id.empty" "resource.id"
          "identifier must not be empty").
Proof.
  apply (identifier_error_metadata_valid "resource.id" ""
           (HalError_invalid_argument_error "resource.id.empty" "resource.id"
              "identifier must not be empty")); [|reflexivity].
  unfold identifier_fields. apply list_elem_of_In. simpl. tauto.
Defined.

(** ** Error contexts *)
Definition valid_context_key (key : string) : Prop := validate_context_key key = Ok ().

Definition context_bytes (entries : list (string * string)) : Z :=
  foldr (λ kv acc, str_len kv.1 + str_len kv.2 + acc) 0 entries.

(** The documented bounds on a context, as a predicate on the input pairs. *)
Definition context_entries_ok (entries : list (string * string)) : Prop :=
  Z.of_nat (length entries) <= ERROR_CONTEXT_MAX_ENTRIES ∧
  Forall (λ kv, valid_context_key kv.1 ∧ str_len kv.2 <= ERROR_CONTEXT_MAX_VALUE_BYTES) entries ∧
  NoDup entries.*1 ∧
  context_bytes entries <= ERROR_CONTEXT_MAX_TOTAL_BYTES.

Lemma context_bytes_nonneg entries : 0 <= context_bytes entries.
Proof.
  induction entries as [|[k v] es IH]; simpl; [lia|].
  pose proof (str_len_nonneg k); pose proof (str_len_nonneg v). lia.
Qed.

Lemma ErrorContext_loop_Ok entries m total ctx :
  0 <= total <= ERROR_CONTEXT_MAX_TOTAL_BYTES →
  Z.of_nat (size m) <= ERROR_CONTEXT_MAX_ENTRIES →
  ErrorContext_loop entries m total = Ok ctx ↔
  (Z.of_nat (size m) + Z.of_nat (length entries) <= ERROR_CONTEXT_MAX_ENTRIES ∧
   Forall (λ kv, valid_context_key kv.1 ∧ str_len kv.2 <= ERROR_CONTEXT_MAX_VALUE_BYTES) entries ∧
   NoDup entries.*1 ∧ (∀ k, k ∈ entries.*1 → m !! k = None) ∧
   total + context_bytes entries <= ERROR_CONTEXT_MAX_TOTAL_BYTES) ∧
  ctx = list_to_map entries ∪ m.
Proof.
  revert m total; induction entries as [|[k v] es IH]; intros m total Ht Hm; simpl.
  { rewrite (left_id_L ∅ (∪)). split; [intros [= <-]|naive_solver].
    repeat split; [lia|constructor|constructor|set_solver|lia]. }
  pose proof (str_len_nonneg k). pose proof (str_len_nonneg v).
  pose proof (context_bytes_nonneg es).
  destruct (ERROR_CONTEXT_MAX_ENTRIES <=? Z.of_nat (size m)) eqn:?; bool_simp.
  { split; [done|]. intros [(?&_)]. lia. }
  destruct (validate_context_key k) as [[]|] eqn:Hk.
  2:{ split; [done|]. intros [(_&[[Hk' _] _]%Forall_cons&_)]. unfold valid_context_key in Hk'.
      simpl in Hk'. congruence. }
  destruct (ERROR_CONTEXT_MAX_VALUE_BYTES <? str_len v) eqn:?; bool_simp.
  { split; [done|]. intros [(_&[[_ ?] _]%Forall_cons&_)]. simpl in *. lia. }
  destruct (m !! k) eqn:Hmk; simpl.
  { split; [done|]. intros [(_&_&_&Hd&_)]. rewrite Hd in Hmk; [done|]. by left. }
  destruct (ERROR_CONTEXT_MAX_TOTAL_BYTES <? total + (str_len k + str_len v)) eqn:?; bool_simp.
  { split; [done|]. intros [(_&_&_&_&?)]. lia. }
  rewrite IH by (rewrite ?map_size_insert_None by done; lia).
  rewrite map_size_insert_None, Forall_cons, NoDup_cons by done.
  assert (list_to_map es ∪ <[k:=v]> m = <[k:=v]> (list_to_map es ∪ m) ∨ k ∈ es.*1) as Hins.
  { destruct (decide (k ∈ es.*1)); [by right|left].
    rewrite insert_union_r; [done|]. by apply not_elem_of_list_to_map_1. }
  rewrite <- insert_union_l. split.
  - intros [(?&?&?&Hd&?) ->]. assert (k ∉ es.*1) as Hnin.
    { intros Hin. specialize (Hd k Hin). by rewrite lookup_insert_eq in Hd. }
    split; [|naive_solver]. split_and!; auto; try lia.
    intros k' [->|Hin]%elem_of_cons; [done|].
    specialize (Hd k' Hin). rewrite lookup_insert_ne in Hd; [done|]. by intros ->.
  - intros [(?&[??]&[Hnin ?]&Hd&?) ->]. split; [|naive_solver].
    split_and!; auto; try lia.
    intros k' Hin. rewrite lookup_insert_ne by (by intros ->). apply Hd. by right.
Qed.

Lemma ErrorContext_new_iff entries ctx :
  ErrorContext_new entries = Ok ctx ↔
  context_entries_ok entries ∧ ctx = mkErrorContext (list_to_map entries).
Proof.
  unfold ErrorContext_new, context_entries_ok.
  destruct (ErrorContext_loop entries ∅ 0) as [m|e] eqn:H; simpl; split.
  - intros [= <-]. apply ErrorContext_loop_Ok in H; [|vm_compute; naive_solver..].
    rewrite map_size_empty in H. destruct H as [(?&?&?&_&?) ->]. rewrite (right_id_L ∅ (∪)).
    naive_solver.
  - intros [(Hlen & Hall & Hnd & Hb) ->].
    assert (ErrorContext_loop entries ∅ 0 = Ok (list_to_map entries)) as H'; [|congruence].
    apply ErrorContext_loop_Ok; [vm_compute; naive_solver..|].
    rewrite map_size_empty, (right_id_L ∅ (∪)). repeat split; auto.
  - done.
  - intros [(Hlen & Hall & Hnd & Hb) ->].
    assert (ErrorContext_loop entries ∅ 0 = Ok (list_to_map entries)) as H'; [|congruence].
    apply ErrorContext_loop_Ok; [vm_compute; naive_solver..|].
    rewrite map_size_empty, (right_id_L ∅ (∪)). repeat split; auto.
Qed.

Lemma context_entries_ok_perm_1 es es' :
  es ≡ₚ es' → context_entries_ok es → context_entries_ok es'.
Proof.
  intros Hp (Hlen & Hall & Hnd & Hb). unfold context_entries_ok. rewrite <- Hp at 1.
  split_and!; [done|by rewrite <- Hp|by rewrite <- Hp|].
  assert (context_bytes es' = context_bytes es) as ->; [|done].
  unfold context_bytes. apply (foldr_permutation_proper (=) _ _); [|by symmetry].
  intros; simpl; lia.
Qed.

Global Instance context_entries_ok_proper : Proper ((≡ₚ) ==> iff) context_entries_ok.
Proof. intros es es' Hp. split; apply context_entries_ok_perm_1; by symmetry + done. Qed.

(** A context built by [ErrorContext::new]. *)
Definition valid_context (c : ErrorContext) : Prop := context_entries_ok (ErrorContext_iter c).

Lemma ErrorContext_new_valid entries ctx :
  ErrorContext_new entries = Ok ctx → valid_context ctx.
Proof.
  intros [Hok ->]%ErrorContext_new_iff. unfold valid_context, ErrorContext_iter. simpl.
  rewrite map_to_list_to_map; [done|]. by destruct Hok as (_&_&?&_).
Qed.

(** Rebuilding a valid context from its pairs, in whatever order a hash map
    yields them, gives the context back. *)
Lemma ErrorContext_new_iter c entries :
  valid_context c → entries ≡ₚ ErrorContext_iter c → ErrorContext_new entries = Ok c.
Proof.
  intros Hc Hp. apply ErrorContext_new_iff. split; [by rewrite Hp|].
  destruct c as [m]. unfold ErrorContext_iter in Hp. simpl in *. f_equal.
  assert (NoDup entries.*1) as Hnd by (rewrite Hp; apply NoDup_fst_map_to_list).
  rewrite <- (list_to_map_to_list m). symmetry. by apply list_to_map_proper.
Qed.

(** [ErrorContext::new] accepts a sequence of pairs exactly when it respects
    the documented bounds (at most 16 entries, keys matching the grammar, values of
    at most 1024 bytes, unique keys, 8192 bytes in total), and then yields the map
    of those pairs; re-reading the pairs of that map in any order gives the same
    context back. *)
Theorem ErrorContext_new_spec entries ctx :
  (ErrorContext_new entries = Ok ctx ↔
   context_entries_ok entries ∧ ctx = mkErrorContext (list_to_map entries)) ∧
  (ErrorContext_new entries = Ok ctx →
   ∀ entries', entries' ≡ₚ ErrorContext_iter ctx → ErrorContext_new entries' = Ok ctx).
Proof.
  split; [apply ErrorContext_new_iff|]. intros Hn entries' Hp.
  eapply ErrorContext_new_iter; [by eapply ErrorContext_new_valid|done].
Qed.

Lemma ErrorContext_new_spec_witness :
  ErrorContext_new (rev [("bus", "1"); ("port", "3")])
  = Ok (mkErrorContext (list_to_map [("bus", "1"); ("port", "3")])).
Proof.
  apply (ErrorContext_new_spec [("bus", "1"); ("port", "3")]); [vm_compute; reflexivity|].
  by rewrite <- Permutation_rev.
Defined.

(** ** Capability identifiers *)
(** The documented grammar [<namespace>.<name>(.<name>)*/v<positive integer>]. *)
Definition capability_grammar (value : string) : Prop :=
  ∃ (segments : list string) (digits : string) (version : Z),
    value = str_join "."%char segments +:+ String "/" (String "v" digits) ∧
    (2 <= length segments)%nat ∧
    Forall (λ s, s ≠ EmptyString ∧ str_free "."%char s) segments ∧
    str_free "/"%char (str_join "."%char segments) ∧
    digits ≠ EmptyString ∧ str_all is_ascii_digit digits = true ∧
    digits_value 0 digits = Some version ∧ 0 < version <= u64_max.

Lemma existsb_empty_false ws :
  existsb str_is_empty ws = false ↔ Forall (λ s, s ≠ EmptyString) ws.
Proof.
  induction ws as [|w ws IH]; simpl; [split; [constructor|done]|].
  rewrite orb_false_iff, Forall_cons, IH. destruct w; naive_solver.
Qed.

(** [CapabilityId::parse] accepts exactly the valid identifiers of the grammar
    [<namespace>.<name>/v<positive integer>] (two or more non-empty dot-separated
    segments, a slash, [v], and a positive decimal that fits in u64), and keeps the
    text unchanged. *)
Theorem CapabilityId_parse_spec value c :
  CapabilityId_parse value = Ok c ↔
  valid_identifier value ∧ capability_grammar value ∧ c = mkCapabilityId value.
Proof.
  unfold CapabilityId_parse. rewrite bind_Ok.
  setoid_rewrite bind_Ok. split.
  - intros ([] & Hv%validate_identifier_Ok & [contract version] & Hs & Hc).
    destruct (split_once "/" value) as [[a b]|] eqn:E; [|done]. injection Hs as -> ->.
    apply split_once_Some in E as [-> Hfree].
    destruct (existsb _ _) eqn:He; [done|]. destruct (str_contains _ _) eqn:Hcon; [|done].
    destruct version as [|v number]; [done|].
    destruct (bool_decide (v = "v"%char)) eqn:Hv'; [|done]. bool_simp. subst v. simpl in Hc.
    destruct (str_is_empty number) eqn:Hn; [done|].
    destruct (str_all is_ascii_digit number) eqn:Hd; [|done]. simpl in Hc.
    assert (number ≠ EmptyString) as Hne by (by intros ->).
    rewrite parse_u64_digits in Hc by done.
    destruct (digits_value 0 number) as [n|] eqn:Hval; [|done].
    destruct (n <=? u64_max) eqn:?; [|done]. destruct (0 <? n) eqn:?; [|done]. bool_simp.
    injection Hc as <-. split; [done|]. split; [|done].
    destruct (str_split_join "." contract) as [Hj Hf].
    exists (str_split "." contract), number, n. rewrite Hj.
    apply existsb_empty_false in He. apply str_contains_split in Hcon.
    split_and!; try done. rewrite Forall_forall in *. naive_solver.
  - intros (Hv & (segs & digits & n & -> & Hlen & Hsegs & Hfree & Hne & Hd & Hval & Hn) & ->).
    exists (). split; [by apply validate_identifier_Ok|].
    exists (str_join "." segs, String "v" digits).
    rewrite (proj2 (split_once_Some _ _ _ _) (conj eq_refl Hfree)). split; [done|].
    assert (str_split "." (str_join "." segs) = segs) as Hsplit.
    { apply str_split_of_join; [by destruct segs; [simpl in Hlen; lia|]|].
      eapply Forall_impl; [done|]. by intros ? [??]. }
    rewrite Hsplit.
    rewrite (proj2 (existsb_empty_false segs)) by (eapply Forall_impl; [done|]; by intros ? [??]).
    rewrite (proj2 (str_contains_split "." (str_join "." segs))) by (by rewrite Hsplit).
    simpl. rewrite parse_u64_digits by done. rewrite Hd, Hval.
    destruct digits; [done|]. simpl.
    rewrite (proj2 (Z.leb_le _ _)) by lia. rewrite (proj2 (Z.ltb_lt _ _)) by lia. done.
Qed.

(** ** Resource resolution *)
Lemma filter_singleton {A} (p : A → bool) l d :
  List.filter p l = [d] ↔
  ∃ l1 l2, l = l1 ++ d :: l2 ∧ p d = true ∧ Forall (λ x, p x = false) (l1 ++ l2).
Proof.
  split.
  - induction l as [|x l IH]; simpl; [done|]. destruct (p x) eqn:Hx.
    + intros [= -> Hl]. exists [], l. split_and!; [done|done|]. simpl.
      apply Forall_forall. intros y Hy%list_elem_of_In. destruct (p y) eqn:Hpy; [|done].
      assert (In y (List.filter p l)) as Hin by (by apply filter_In). by rewrite Hl in Hin.
    + intros (l1 & l2 & -> & Hd & Hall)%IH. exists (x :: l1), l2. by split_and!; [| |constructor].
  - intros (l1 & l2 & -> & Hd & [H1 H2]%Forall_app).
    assert (∀ l, Forall (λ x, p x = false) l → List.filter p l = []) as Hnil.
    { induction 1 as [|? ? Hp _ IH]; simpl; [done|]. by rewrite Hp. }
    rewrite List.filter_app, Hnil by done. simpl. by rewrite Hd, Hnil.
Qed.

(** [resolve_resource] returns a descriptor exactly when it is the only
    enumerated one that has the selector's id and transport, at least its identity
    quality and the required capability.  With no match it reports
    [runtime.resource.not_found], with two or more [runtime.resource.ambiguous];
    both errors name the selector's resource and are not retryable. *)
Theorem resolve_resource_spec descriptors selector capability operation :
  valid_identifier operation →
  let matches := descriptor_matches selector capability in
  match resolve_resource descriptors selector capability operation with
  | Ok d => ∃ l1 l2, descriptors = l1 ++ d :: l2 ∧ matches d = true ∧
              Forall (λ x, matches x = false) (l1 ++ l2)
  | Err e =>
      err_resource_id e = Some (sel_id selector) ∧ err_retryable e = false ∧
      err_operation e = mkOperationName operation ∧
      ((err_name e = mkErrorName "runtime.resource.not_found" ∧ err_category e = NotFound ∧
        Forall (λ x, matches x = false) descriptors) ∨
       (err_name e = mkErrorName "runtime.resource.ambiguous" ∧ err_category e = Conflict ∧
        ∃ l1 d1 l2 d2 l3, descriptors = l1 ++ d1 :: l2 ++ d2 :: l3 ∧
          matches d1 = true ∧ matches d2 = true))
  end.
Proof.
  intros Hop matches. unfold resolve_resource. fold matches.
  rewrite !(static_error_ok _ _ operation) by (done || solve_valid_identifier).
  destruct (List.filter matches descriptors) as [|d [|d' rest]] eqn:Hf; simpl.
  - rewrite static_error_eq by (done || solve_valid_identifier). simpl.
    split_and!; [done..|]. left. split_and!; [done..|].
    apply Forall_forall. intros y Hy%list_elem_of_In. destruct (matches y) eqn:Hm; [|done].
    assert (In y (List.filter matches descriptors)) as Hin by (by apply filter_In).
    by rewrite Hf in Hin.
  - by apply filter_singleton.
  - rewrite static_error_eq by (done || solve_valid_identifier). simpl.
    split_and!; [done..|]. right. split_and!; [done..|].
    clear Hop. induction descriptors as [|x l IH]; [done|]. simpl in Hf.
    destruct (matches x) eqn:Hx.
    + injection Hf as -> Hf. assert (In d' (List.filter matches l)) as [Hin Hd']%filter_In
        by (rewrite Hf; by left).
      apply in_split in Hin as (l2 & l3 & ->). exists [], d, l2, d', l3. done.
    + destruct (IH Hf) as (l1 & d1 & l2 & d2 & l3 & -> & ? & ?).
      exists (x :: l1), d1, l2, d2, l3. done.
Qed.

Definition example_descriptor : ResourceDescriptor :=
  mkResourceDescriptor (mkResourceId "serial:1") (mkEndpoint "/dev/ttyUSB0") Medium Serial
    (mkResourceProperties ∅) (mkCapabilitySet [mkCapabilityId "serial.bytes/v1"]).

Lemma resolve_resource_spec_witness :
  ∃ l1 l2, [example_descriptor] = l1 ++ example_descriptor :: l2 ∧
    descriptor_matches (ResourceDescriptor_selector example_descriptor)
      (mkCapabilityId "serial.bytes/v1") example_descriptor = true ∧
    Forall (λ x, descriptor_matches (ResourceDescriptor_selector example_descriptor)
      (mkCapabilityId "serial.bytes/v1") x = false) (l1 ++ l2).
Proof.
  apply (resolve_resource_spec [example_descriptor]
           (ResourceDescriptor_selector example_descriptor)
           (mkCapabilityId "serial.bytes/v1") "serial.open").
  solve_valid_identifier.
Defined.

(** Endpoints are transient: changing them changes neither which descriptor is
    selected nor which error is reported. *)
Definition set_endpoint (g : ResourceDescriptor → Endpoint) (d : ResourceDescriptor)
    : ResourceDescriptor :=
  mkResourceDescriptor (desc_id d) (g d) (desc_minimum_identity_quality d)
    (desc_transport d) (desc_properties d) (desc_capabilities d).

(** Resolution ignores endpoints: whatever endpoints the enumerated descriptors
    carry, the same descriptor is selected (up to its endpoint) or the same error is
    returned. *)
Theorem resolve_resource_endpoint_blind g descriptors selector capability operation :
  resolve_resource (set_endpoint g <$> descriptors) selector capability operation
  = set_endpoint g <$> resolve_resource descriptors selector capability operation.
Proof.
  assert (List.filter (descriptor_matches selector capability) (set_endpoint g <$> descriptors)
    = set_endpoint g <$> List.filter (descriptor_matches selector capability) descriptors) as Hf.
  { induction descriptors as [|d l IH]; [done|]. rewrite fmap_cons. simpl. rewrite IH.
    assert (descriptor_matches selector capability (set_endpoint g d)
            = descriptor_matches selector capability d) as -> by done.
    by destruct (descriptor_matches selector capability d). }
  unfold resolve_resource. rewrite Hf.
  destruct (List.filter _ descriptors) as [|d [|d' rest]]; simpl; [|done|];
    by destruct (HalError_new _ _ _ _ _).
Qed.

(** ** Decision-only serialization *)
(** Serializing an error and reading it back keeps exactly the decision fields
    (name, category, operation, retryable) and drops every diagnostic; errors that
    agree on the decision fields are indistinguishable after the round trip. *)
Theorem HalError_serde_decision_only e :
  let e' := HalError_deserialize (HalError_serialize e) in
  HalError_decision_fields e' = HalError_decision_fields e ∧
  err_debug_message e' = "" ∧ err_resource_id e' = None ∧ err_platform_code e' = None ∧
  err_vendor_code e' = None ∧ ErrorContext_is_empty (err_context e') = true ∧
  (∀ f, HalError_decision_fields f = HalError_decision_fields e ↔
        HalError_deserialize (HalError_serialize f) = e').
Proof.
  split_and!; try done. intros f.
  unfold HalError_serialize, HalError_decision_fields, HalError_deserialize. simpl.
  split; [intros [= -> -> -> ->]; done|]. by intros [= -> -> -> ->].
Qed.
