(* ===== verification/Lifecycle.v ===== *)
(** * robot-hal-runtime: static errors, session lifecycle, event stream

    Models runtime_error of crates/robot-hal-runtime/src/lib.rs, and
    session_lifecycle.rs and events.rs of the same crate. *)

From S2P Require Import Prelude Core.

(** lib.rs: [HalError::new(..).expect(..)] on static metadata. *)
Definition runtime_error (name : string) (category : ErrorCategory) (operation : string)
    (retryable : bool) (debug_message : string) : HalError :=
  static_error name category operation retryable debug_message.

(** A refusal: a non-retryable conflict that names the resource. *)
Definition rejected_with (name : string) (r : ResourceId) (res : HalResult unit) : Prop :=
  ∃ e, res = Err e ∧ err_name e = mkErrorName name ∧ err_category e = Conflict ∧
    err_retryable e = false ∧ err_resource_id e = Some r.

Lemma rejected_with_intro name op msg r :
  valid_identifier name → valid_identifier op →
  rejected_with name r
    (Err (HalError_with_resource_id (runtime_error name Conflict op false msg) r)).
Proof.
  intros. eexists. split; [done|]. unfold runtime_error.
  by rewrite static_error_eq.
Qed.

(** ** session_lifecycle.rs *)
Inductive SessionLifecycle := Opening | Active | Closing.
Global Instance SessionLifecycle_eq_dec : EqDecision SessionLifecycle.
Proof. solve_decision. Defined.

Definition SessionLifecycle_is_active (s : SessionLifecycle) : bool :=
  match s with Active => true | _ => false end.
Definition SessionLifecycle_is_closing (s : SessionLifecycle) : bool :=
  match s with Closing => true | _ => false end.

(** The derived [Debug] output. *)
Definition SessionLifecycle_debug (s : SessionLifecycle) : string :=
  match s with Opening => "Opening" | Active => "Active" | Closing => "Closing" end.

Definition invalid_transition (operation : string) (actual expected : SessionLifecycle)
    (message : string) : HalError :=
  runtime_error "runtime.session.lifecycle.invalid_transition" Conflict operation false
    ("session lifecycle is " +:+ SessionLifecycle_debug actual +:+ ", expected "
     +:+ SessionLifecycle_debug expected +:+ ": " +:+ message).

Definition SessionLifecycle_commit_open (s : SessionLifecycle) (operation : string)
    : HalResult SessionLifecycle :=
  if bool_decide (s ≠ Opening) then
    Err (invalid_transition operation s Active "only an opening session can become active")
  else Ok Active.

Definition SessionLifecycle_begin_close (s : SessionLifecycle) (operation : string)
    : HalResult SessionLifecycle :=
  match s with
  | Opening | Active => Ok Closing
  | Closing => Ok Closing
  end.

Definition SessionLifecycle_admit_io (s : SessionLifecycle) (operation : string)
    : HalResult unit :=
  if bool_decide (s ≠ Active) then
    Err (runtime_error "runtime.session.closed" Conflict operation false
           "the session is not active and cannot admit new I/O")
  else Ok ().

(** One call on a session, as an event of the lifecycle automaton. *)
Inductive lifecycle_step : SessionLifecycle → SessionLifecycle → Prop :=
  | lifecycle_commit s s' op :
      SessionLifecycle_commit_open s op = Ok s' → lifecycle_step s s'
  | lifecycle_close s s' op :
      SessionLifecycle_begin_close s op = Ok s' → lifecycle_step s s'.

(** Once a session is closing it never becomes active again and never admits
    I/O, whatever calls follow; I/O is admitted only in the active state, which
    only a commit from the opening state enters. *)
Theorem lifecycle_closing_is_final s op :
  rtc lifecycle_step Closing s →
  s = Closing ∧ is_ok (SessionLifecycle_admit_io s op) = false ∧
  is_ok (SessionLifecycle_commit_open s op) = false.
Proof.
  intros Hr. assert (s = Closing) as ->; [|done].
  remember Closing as c eqn:Hc. induction Hr as [|x y z Hxy _ IH]; [done|].
  subst x. assert (y = Closing) as ->; [|by apply IH].
  inversion Hxy as [? ? ? H | ? ? ? H]; subst;
    unfold SessionLifecycle_commit_open, SessionLifecycle_begin_close in H; simpl in H; congruence.
Qed.

Lemma lifecycle_closing_is_final_witness :
  Closing = Closing ∧ is_ok (SessionLifecycle_admit_io Closing "serial.read") = false ∧
  is_ok (SessionLifecycle_commit_open Closing "serial.read") = false.
Proof.
  apply (lifecycle_closing_is_final Closing "serial.read").
  eapply rtc_l; [|apply rtc_refl]. by apply (lifecycle_close Closing Closing "serial.close").
Defined.

(** ** events.rs *)
Definition EVENT_QUEUE_CAPACITY : Z := 64.

Inductive RuntimeEventKind :=
  | SessionOpened | SessionClosed | CanBusActive | CanBusWarning | CanBusPassive
  | CanBusOff | CanBusStopped | CanBusUnknown.
Global Instance RuntimeEventKind_eq_dec : EqDecision RuntimeEventKind.
Proof. solve_decision. Defined.

Definition RuntimeEventKind_name (k : RuntimeEventKind) : string :=
  match k with
  | SessionOpened => "session.opened"
  | SessionClosed => "session.closed"
  | CanBusActive => "can.bus.active"
  | CanBusWarning => "can.bus.warning"
  | CanBusPassive => "can.bus.passive"
  | CanBusOff => "can.bus.off"
  | CanBusStopped => "can.bus.stopped"
  | CanBusUnknown => "can.bus.unknown"
  end.

Record RuntimeEvent := mkRuntimeEvent {
  ev_sequence : Z;
  ev_kind : RuntimeEventKind;
  ev_resource_id : ResourceId;
  ev_session_id : SessionId;
  ev_owner_id : OwnerId;
  ev_lease_generation : Z;
}.
Global Instance RuntimeEvent_eq_dec : EqDecision RuntimeEvent.
Proof. solve_decision. Defined.

(** The publisher's mutex-protected counter, and the events handed to the
    broadcast channel, oldest first.  The channel itself (tokio) is not modelled:
    [sent] is the argument sequence of its [send]. *)
Record EventPublisher := mkEventPublisher {
  next_sequence : Z;
  sent : list RuntimeEvent;
}.
Definition EventPublisher_new : EventPublisher := mkEventPublisher 1 [].

Definition EventPublisher_publish (p : EventPublisher) (kind : RuntimeEventKind)
    (resource_id : ResourceId) (session_id : SessionId) (owner_id : OwnerId)
    (lease_generation : Z) : EventPublisher :=
  let event := mkRuntimeEvent (next_sequence p) kind resource_id session_id owner_id
                 lease_generation in
  mkEventPublisher (saturating_add u64_max (next_sequence p) 1) (sent p ++ [event]).

Definition event_error (name : string) (category : ErrorCategory) (retryable : bool)
    (debug_message : string) : HalError :=
  runtime_error name category "runtime.event.receive" retryable debug_message.

(** tokio's [broadcast::error::RecvError]. *)
Inductive RecvError := RecvClosed | RecvLagged (skipped : Z).
(** [EventSubscription::recv], given what the broadcast receiver returned. *)
Definition EventSubscription_recv (received : result RecvError RuntimeEvent)
    : HalResult RuntimeEvent :=
  map_err (λ error, match error with
    | RecvClosed => event_error "runtime.event.closed" Unavailable false
                      "the runtime event stream is closed"
    | RecvLagged skipped => event_error "runtime.event.lagged" Unavailable true
                      ("event subscriber fell behind by " +:+ to_string skipped +:+ " events")
    end) received.

(** A sequence of publications, as the arguments of [publish]. *)
Definition publication : Type := RuntimeEventKind * ResourceId * SessionId * OwnerId * Z.
Definition publish_all (p : EventPublisher) (pubs : list publication) : EventPublisher :=
  foldl (λ p '(k, r, s, o, g), EventPublisher_publish p k r s o g) p pubs.

Lemma publish_all_sequences p pubs :
  0 <= next_sequence p <= u64_max →
  ev_sequence <$> sent (publish_all p pubs) =
    (ev_sequence <$> sent p) ++
    ((λ i, Z.min u64_max (next_sequence p + Z.of_nat i)) <$> seq 0 (length pubs)).
Proof.
  revert p; induction pubs as [|[[[[k r] s] o] g] pubs IH]; intros p Hp; simpl.
  { by rewrite app_nil_r. }
  rewrite IH by (simpl; unfold saturating_add; lia). simpl.
  rewrite fmap_app, <- app_assoc. f_equal. simpl. f_equal.
  - rewrite Z.add_0_r. symmetry. apply Z.min_r. lia.
  - rewrite <- fmap_S_seq, <- list_fmap_compose. apply list_fmap_ext.
    intros i x Hx. unfold saturating_add, compose. simpl. lia.
Qed.

(** The event stream is totally ordered: the events published by a fresh
    runtime carry the sequence numbers 1, 2, 3, ... in the order of publication,
    without gap or repetition as long as fewer than u64::MAX events were sent. *)
Theorem event_sequence_numbers pubs :
  Z.of_nat (length pubs) <= u64_max →
  ev_sequence <$> sent (publish_all EventPublisher_new pubs)
  = (λ i, 1 + Z.of_nat i) <$> seq 0 (length pubs).
Proof.
  intros Hlen. rewrite publish_all_sequences by (vm_compute; naive_solver). simpl.
  apply list_fmap_ext. intros i x [-> Hx]%lookup_seq. lia.
Qed.

Lemma event_sequence_numbers_witness :
  ev_sequence <$> sent (publish_all EventPublisher_new
    [(SessionOpened, mkResourceId "r", mkSessionId "s", mkOwnerId "o", 1);
     (SessionClosed, mkResourceId "r", mkSessionId "s", mkOwnerId "o", 1)]) = [1; 2].
Proof.
  apply (event_sequence_numbers
    [(SessionOpened, mkResourceId "r", mkSessionId "s", mkOwnerId "o", 1);
     (SessionClosed, mkResourceId "r", mkSessionId "s", mkOwnerId "o", 1)]).
  vm_compute. congruence.
Defined.
