(* ===== verification/LeaseTable.v ===== *)
(** * robot-hal-runtime: the exclusive lease table

    Models crates/robot-hal-runtime/src/lease_table.rs: one control lease per
    resource, with a generation counter per resource.  A reservation takes a
    generation provisionally; [commit] (or [quarantine]) makes it permanent,
    [release] of an uncommitted reservation gives it back.  [LeaseId::new()]
    (a random UUID) is the argument [fresh]. *)

From S2P Require Import Prelude Core Lifecycle.

Record ActiveLease := mkActiveLease {
  al_session_id : SessionId;
  al_owner_id : OwnerId;
  al_token : LeaseToken;
  al_committed : bool;
}.

Record LeaseTable := mkLeaseTable {
  current_generations : gmap ResourceId Z;
  active : gmap ResourceId ActiveLease;
}.
Definition LeaseTable_default : LeaseTable := mkLeaseTable ∅ ∅.

Definition LeaseTable_current_generation (t : LeaseTable) (r : ResourceId) : Z :=
  default 0 (current_generations t !! r).
Definition LeaseTable_retained_generation_count (t : LeaseTable) : Z :=
  Z.of_nat (size (current_generations t)).

Definition LeaseTable_reserve_control (t : LeaseTable) (resource_id : ResourceId)
    (session_id : SessionId) (owner_id : OwnerId) (fresh : LeaseId)
    : LeaseTable * HalResult LeaseToken :=
  if is_some (active t !! resource_id) then
    (t, Err (HalError_with_resource_id
               (runtime_error "runtime.lease.conflict" Conflict "serial.open" false
                  "the resource already has an active control lease") resource_id))
  else
    let current := default 0 (current_generations t !! resource_id) in
    match checked_add u64_max current 1 with
    | None =>
        (mkLeaseTable (<[resource_id := current]> (current_generations t)) (active t),
         Err (HalError_with_resource_id
                (runtime_error "runtime.lease.generation_exhausted" Internal "serial.open" false
                   "the resource lease generation reached u64::MAX") resource_id))
    | Some current =>
        let token := mkLeaseToken fresh current Control in
        (mkLeaseTable (<[resource_id := current]> (current_generations t))
           (<[resource_id := mkActiveLease session_id owner_id token false]> (active t)),
         Ok token)
    end.

Definition ActiveLease_set_committed (a : ActiveLease) : ActiveLease :=
  mkActiveLease (al_session_id a) (al_owner_id a) (al_token a) true.

Definition LeaseTable_commit (t : LeaseTable) (resource_id : ResourceId)
    (session_id : SessionId) (token : LeaseToken) : LeaseTable * bool :=
  match active t !! resource_id with
  | None => (t, false)
  | Some a =>
      if bool_decide (al_session_id a ≠ session_id) || bool_decide (al_token a ≠ token)
      then (t, false)
      else (mkLeaseTable (current_generations t)
              (<[resource_id := ActiveLease_set_committed a]> (active t)), true)
  end.

Definition LeaseTable_quarantine (t : LeaseTable) (resource_id : ResourceId)
    (session_id : SessionId) (token : LeaseToken) : LeaseTable * bool :=
  match active t !! resource_id with
  | None => (t, false)
  | Some a =>
      if bool_decide (al_session_id a ≠ session_id) || bool_decide (al_token a ≠ token)
      then (t, false)
      else (mkLeaseTable (current_generations t)
              (<[resource_id := ActiveLease_set_committed a]> (active t)), true)
  end.

Definition LeaseTable_validate (t : LeaseTable) (resource_id : ResourceId)
    (session_id : SessionId) (owner_id : OwnerId) (lease : LeaseToken) (operation : string)
    : HalResult unit :=
  let fail name message :=
    Err (HalError_with_resource_id
           (runtime_error name Conflict operation false message) resource_id) in
  let current_generation := default 0 (current_generations t !! resource_id) in
  if token_generation lease <? current_generation then
    fail "runtime.lease.stale_generation"
      ("lease generation " +:+ to_string (token_generation lease)
       +:+ " is older than current generation " +:+ to_string current_generation)
  else
    match active t !! resource_id with
    | None => fail "runtime.session.closed" "the serial session is closed"
    | Some a =>
        if bool_decide (al_session_id a ≠ session_id) then
          fail "runtime.lease.invalid_token" "the lease does not belong to the requested session"
        else if bool_decide (al_owner_id a ≠ owner_id) then
          fail "runtime.lease.owner_mismatch" "the lease owner does not match the session owner"
        else if bool_decide (al_token a ≠ lease) then
          fail "runtime.lease.invalid_token" "the lease token does not match the active lease"
        else Ok ()
    end.

Definition LeaseTable_release (t : LeaseTable) (resource_id : ResourceId)
    (session_id : SessionId) : LeaseTable * bool :=
  match active t !! resource_id with
  | None => (t, false)
  | Some a =>
      if bool_decide (al_session_id a = session_id) then
        let committed := al_committed a in
        let generation := token_generation (al_token a) in
        let gens := current_generations t in
        let gens' :=
          if negb committed && bool_decide (gens !! resource_id = Some generation) then
            if generation =? 1 then delete resource_id gens
            else match gens !! resource_id with
                 | Some _ => <[resource_id := generation - 1]> gens
                 | None => gens
                 end
          else gens in
        (mkLeaseTable gens' (delete resource_id (active t)), committed)
      else (t, false)
  end.

(** ** The table as a state machine

    [exposed] is a ghost list: the tokens that left the runtime, that is those of
    committed (or quarantined) reservations. *)
Record LeaseState := mkLeaseState {
  ls_table : LeaseTable;
  ls_exposed : list (ResourceId * LeaseToken);
}.
Definition LeaseState_init : LeaseState := mkLeaseState LeaseTable_default [].

Inductive lease_step : LeaseState → LeaseState → Prop :=
  | lease_step_reserve t ex r s o fresh t' res :
      LeaseTable_reserve_control t r s o fresh = (t', res) →
      lease_step (mkLeaseState t ex) (mkLeaseState t' ex)
  | lease_step_commit t ex r s token t' (ok : bool) :
      LeaseTable_commit t r s token = (t', ok) →
      lease_step (mkLeaseState t ex)
        (mkLeaseState t' (if ok then (r, token) :: ex else ex))
  | lease_step_quarantine t ex r s token t' (ok : bool) :
      LeaseTable_quarantine t r s token = (t', ok) →
      lease_step (mkLeaseState t ex)
        (mkLeaseState t' (if ok then (r, token) :: ex else ex))
  | lease_step_release t ex r s t' ok :
      LeaseTable_release t r s = (t', ok) →
      lease_step (mkLeaseState t ex) (mkLeaseState t' ex).

(** ** Invariant *)
Record lease_inv (st : LeaseState) : Prop := {
  (** stored generations are non-zero u64 values; *)
  inv_gens : ∀ r g, current_generations (ls_table st) !! r = Some g → 1 <= g <= u64_max;
  (** an active lease holds the resource's current generation in control mode; *)
  inv_active : ∀ r a, active (ls_table st) !! r = Some a →
    current_generations (ls_table st) !! r = Some (token_generation (al_token a)) ∧
    token_mode (al_token a) = Control;
  (** exposed generations never exceed the current one, and stay below the
      generation of an uncommitted reservation, which may be rolled back; *)
  inv_exposed : ∀ r tok, (r, tok) ∈ ls_exposed st →
    1 <= token_generation tok <= LeaseTable_current_generation (ls_table st) r ∧
    (∀ a, active (ls_table st) !! r = Some a → al_committed a = false →
       token_generation tok < token_generation (al_token a));
  (** a committed lease has been exposed; *)
  inv_committed : ∀ r a, active (ls_table st) !! r = Some a → al_committed a = true →
    (r, al_token a) ∈ ls_exposed st;
  (** two exposed tokens of a resource never share a generation. *)
  inv_unique : ∀ r tok tok', (r, tok) ∈ ls_exposed st → (r, tok') ∈ ls_exposed st →
    token_generation tok = token_generation tok' → tok = tok';
}.

Lemma LeaseTable_current_generation_insert g a r r' x :
  LeaseTable_current_generation (mkLeaseTable (<[r := x]> g) a) r'
  = if decide (r = r') then x else default 0 (g !! r').
Proof.
  unfold LeaseTable_current_generation. simpl. case_decide as H.
  - subst. by rewrite lookup_insert_eq.
  - by rewrite lookup_insert_ne.
Qed.

Lemma LeaseTable_quarantine_commit t r s tok :
  LeaseTable_quarantine t r s tok = LeaseTable_commit t r s tok.
Proof. done. Qed.

(** ** Inversion of the operations *)
Lemma reserve_control_Ok t r s o fresh t' tok :
  LeaseTable_reserve_control t r s o fresh = (t', Ok tok) →
  active t !! r = None ∧ LeaseTable_current_generation t r + 1 <= u64_max ∧
  tok = mkLeaseToken fresh (LeaseTable_current_generation t r + 1) Control ∧
  t' = mkLeaseTable (<[r := token_generation tok]> (current_generations t))
         (<[r := mkActiveLease s o tok false]> (active t)).
Proof.
  unfold LeaseTable_reserve_control, LeaseTable_current_generation.
  destruct (active t !! r); simpl; [done|].
  destruct (checked_add _ _ _) eqn:Hc; [|done].
  apply checked_add_Some in Hc as [-> ?]. intros [= <- <-]. simpl. split_and!; auto; lia.
Qed.

(** A refused reservation leaves the table as it was. *)
Lemma reserve_control_Err st r s o fresh t' e :
  lease_inv st →
  LeaseTable_reserve_control (ls_table st) r s o fresh = (t', Err e) → t' = ls_table st.
Proof.
  intros Hinv. destruct st as [[gens act] ex]. unfold LeaseTable_reserve_control. simpl.
  destruct (act !! r); simpl; [by intros [= <- _]|].
  destruct (checked_add _ _ _) eqn:Hc; [done|]. apply checked_add_None in Hc.
  intros [= <- _]. f_equal. destruct (gens !! r) as [g|] eqn:Hg; simpl in *.
  - by apply insert_id.
  - unfold u64_max in Hc. lia.
Qed.

Lemma commit_inv t r s tok t' ok :
  LeaseTable_commit t r s tok = (t', ok) →
  (ok = false ∧ t' = t) ∨
  ∃ a, ok = true ∧ active t !! r = Some a ∧ al_session_id a = s ∧ al_token a = tok ∧
    t' = mkLeaseTable (current_generations t)
           (<[r := ActiveLease_set_committed a]> (active t)).
Proof.
  unfold LeaseTable_commit. destruct (active t !! r) as [a|]; [|intros [= <- <-]; by left].
  destruct (bool_decide (al_session_id a ≠ s)) eqn:H1, (bool_decide (al_token a ≠ tok)) eqn:H2;
    simpl; intros [= <- <-]; try (by left).
  right. exists a. bool_simp. split_and!; try done; by apply dec_stable.
Qed.

Lemma release_inv t r s t' ok :
  LeaseTable_release t r s = (t', ok) →
  (ok = false ∧ t' = t ∧ ∀ a, active t !! r = Some a → al_session_id a ≠ s) ∨
  ∃ a, active t !! r = Some a ∧ al_session_id a = s ∧ ok = al_committed a ∧
    active t' = delete r (active t) ∧
    (∀ r', r' ≠ r → current_generations t' !! r' = current_generations t !! r') ∧
    (al_committed a = true → current_generations t' = current_generations t) ∧
    (al_committed a = false →
     current_generations t !! r = Some (token_generation (al_token a)) →
     current_generations t' !! r =
       if token_generation (al_token a) =? 1 then None
       else Some (token_generation (al_token a) - 1)).
Proof.
  unfold LeaseTable_release. destruct (active t !! r) as [a|]; [|intros [= <- <-]; left; naive_solver].
  case_bool_decide as Hs; [|intros [= <- <-]; left; naive_solver].
  intros [= <- <-]. right. exists a. simpl. split_and!; try done.
  - intros r' Hr. repeat case_match; try done;
      by rewrite ?lookup_delete_ne, ?lookup_insert_ne by done.
  - by intros ->.
  - intros -> ->. simpl. rewrite bool_decide_eq_true_2 by done.
    destruct (_ =? 1); [by rewrite lookup_delete_eq|by rewrite lookup_insert_eq].
Qed.

(** ** Preservation *)
Lemma lease_inv_init : lease_inv LeaseState_init.
Proof. split; simpl; intros *; rewrite ?lookup_empty; try done; set_solver. Qed.

Lemma lease_inv_reserve t ex r s o fresh t' res :
  lease_inv (mkLeaseState t ex) →
  LeaseTable_reserve_control t r s o fresh = (t', res) → lease_inv (mkLeaseState t' ex).
Proof.
  intros Hinv Hres. destruct res as [tok|e].
  2:{ apply (reserve_control_Err (mkLeaseState t ex)) in Hres; [|done]. by subst. }
  apply reserve_control_Ok in Hres as (Hact & Hmax & -> & ->).
  destruct Hinv as [Hgens Hactive Hexp Hcom Huniq]. simpl in *.
  assert (0 <= LeaseTable_current_generation t r) as Hcur.
  { unfold LeaseTable_current_generation. destruct (current_generations t !! r) eqn:E; simpl; [|lia].
    apply Hgens in E. lia. }
  split; simpl.
  - intros r' g [[<- <-]|[? ?]]%lookup_insert_Some; [lia|eauto].
  - intros r' a [[<- <-]|[? Ha]]%lookup_insert_Some; simpl.
    + by rewrite lookup_insert_eq.
    + rewrite lookup_insert_ne by done. eauto.
  - intros r' tok Hin. rewrite LeaseTable_current_generation_insert.
    destruct (Hexp r' tok Hin) as [? Hlt]. unfold LeaseTable_current_generation in *.
    split; [case_decide; subst; lia|].
    intros a [[<- <-]|[? Ha]]%lookup_insert_Some Hc; simpl in *; [lia|eauto].
  - intros r' a [[<- <-]|[? Ha]]%lookup_insert_Some Hc; [done|eauto].
  - eauto.
Qed.

Lemma lease_inv_commit t ex r s tok t' (ok : bool) :
  lease_inv (mkLeaseState t ex) →
  LeaseTable_commit t r s tok = (t', ok) →
  lease_inv (mkLeaseState t' (if ok then (r, tok) :: ex else ex)).
Proof.
  intros Hinv [[-> ->]|(a & -> & Ha & <- & <- & ->)]%commit_inv; [done|].
  destruct Hinv as [Hgens Hactive Hexp Hcom Huniq]. simpl in *.
  destruct (Hactive _ _ Ha) as [Hg Hm].
  assert (LeaseTable_current_generation t r = token_generation (al_token a)) as Hcur
    by (unfold LeaseTable_current_generation; by rewrite Hg).
  split; simpl.
  - eauto.
  - intros r' b [[<- <-]|[? Hb]]%lookup_insert_Some; simpl; eauto.
  - intros r' tok Hin. change (LeaseTable_current_generation _ r')
      with (LeaseTable_current_generation t r').
    apply elem_of_cons in Hin as [[= -> ->]|Hin].
    + split; [rewrite Hcur; apply Hgens in Hg; lia|].
      intros b [[_ <-]|[? _]]%lookup_insert_Some Hc; done.
    + destruct (Hexp _ _ Hin) as [? Hlt]. split; [done|].
      intros b [[<- <-]|[? Hb]]%lookup_insert_Some Hc; [done|eauto].
  - intros r' b [[<- <-]|[? Hb]]%lookup_insert_Some Hc; simpl; [by left|]. right. eauto.
  - assert (∀ tok, (r, tok) ∈ ex →
      token_generation tok = token_generation (al_token a) → tok = al_token a) as Hkey.
    { intros tok Hin Heq. destruct (al_committed a) eqn:Hc.
      - eauto.
      - destruct (Hexp _ _ Hin) as [_ Hlt]. specialize (Hlt a Ha Hc). lia. }
    intros r' tok tok' Hin Hin' Heq.
    rewrite elem_of_cons in Hin, Hin'.
    destruct Hin as [[= -> ->]|Hin], Hin' as [Hin'|Hin'].
    + by injection Hin' as ->.
    + symmetry. by apply Hkey.
    + injection Hin' as -> ->. by apply Hkey.
    + eauto.
Qed.

Lemma lease_inv_release t ex r s t' ok :
  lease_inv (mkLeaseState t ex) →
  LeaseTable_release t r s = (t', ok) → lease_inv (mkLeaseState t' ex).
Proof.
  intros Hinv [(-> & -> & _)|(a & Ha & _ & _ & Hact & Hother & Hkeep & Hroll)]%release_inv; [done|].
  destruct Hinv as [Hgens Hactive Hexp Hcom Huniq]. simpl in *.
  destruct (Hactive _ _ Ha) as [Hg Hm]. specialize (Hgens _ _ Hg) as Hbound.
  assert (∀ r' g, current_generations t' !! r' = Some g → 1 <= g <= u64_max) as Hgens'.
  { intros r' g. destruct (decide (r' = r)) as [->|]; [|rewrite Hother by done; eauto].
    destruct (al_committed a) eqn:Hc; [rewrite Hkeep by done; eauto|].
    rewrite Hroll by done. destruct (_ =? 1) eqn:?; [done|]. bool_simp. intros [= <-]. lia. }
  split; simpl; rewrite ?Hact; auto.
  - intros r' b [? Hb]%lookup_delete_Some. rewrite Hother by done. eauto.
  - intros r' tok Hin. destruct (Hexp _ _ Hin) as [? Hlt]. split.
    2:{ intros b [? Hb]%lookup_delete_Some. eauto. }
    unfold LeaseTable_current_generation in *.
    destruct (decide (r' = r)) as [->|]; [|by rewrite Hother].
    destruct (al_committed a) eqn:Hc; [by rewrite Hkeep|].
    rewrite Hroll by done. specialize (Hlt a Ha Hc).
    destruct (_ =? 1) eqn:?; bool_simp; simpl; lia.
  - intros r' b [? Hb]%lookup_delete_Some. eauto.
Qed.

Lemma lease_inv_step st st' : lease_step st st' → lease_inv st → lease_inv st'.
Proof.
  intros Hstep Hinv. destruct Hstep.
  - by eapply lease_inv_reserve.
  - by eapply lease_inv_commit.
  - by eapply lease_inv_commit.
  - by eapply lease_inv_release.
Qed.
#[export] Hint Resolve lease_inv_init lease_inv_step : hal.

Lemma lease_inv_steps st st' : rtc lease_step st st' → lease_inv st → lease_inv st'.
Proof. induction 1; eauto with hal. Qed.

Lemma lease_inv_reachable st : rtc lease_step LeaseState_init st → lease_inv st.
Proof. intros H. by eapply lease_inv_steps; [|apply lease_inv_init]. Qed.

(** ** Validation *)
(** What a token is told, as a function of the resource's view in the table. *)
Definition token_verdict (current : Z) (entry : option ActiveLease) (s : SessionId)
    (o : OwnerId) (tok : LeaseToken) : option string :=
  if token_generation tok <? current then Some "runtime.lease.stale_generation"
  else match entry with
       | None => Some "runtime.session.closed"
       | Some a =>
           if decide (al_session_id a = s) then
             if decide (al_owner_id a = o) then
               if decide (al_token a = tok) then None else Some "runtime.lease.invalid_token"
             else Some "runtime.lease.owner_mismatch"
           else Some "runtime.lease.invalid_token"
       end.

Lemma validate_verdict t r s o tok op :
  valid_identifier op →
  match token_verdict (LeaseTable_current_generation t r) (active t !! r) s o tok with
  | None => LeaseTable_validate t r s o tok op = Ok ()
  | Some name => rejected_with name r (LeaseTable_validate t r s o tok op)
  end.
Proof.
  intros Hop. unfold token_verdict, LeaseTable_validate, LeaseTable_current_generation.
  destruct (token_generation tok <? _).
  { apply rejected_with_intro; [solve_valid_identifier|done]. }
  destruct (active t !! r) as [a|].
  2:{ apply rejected_with_intro; [solve_valid_identifier|done]. }
  repeat (case_decide; [rewrite bool_decide_eq_false_2 by naive_solver|
    rewrite bool_decide_eq_true_2 by done;
    apply rejected_with_intro; [solve_valid_identifier|done]]). done.
Qed.

Lemma validate_Ok t r s o tok op u :
  LeaseTable_validate t r s o tok op = Ok u →
  LeaseTable_current_generation t r <= token_generation tok ∧
  ∃ a, active t !! r = Some a ∧ al_session_id a = s ∧ al_owner_id a = o ∧ al_token a = tok.
Proof.
  unfold LeaseTable_validate, LeaseTable_current_generation.
  destruct (token_generation tok <? _) eqn:?; [done|].
  destruct (active t !! r) as [a|]; [|done].
  repeat (case_bool_decide; [done|]). bool_simp. intros _. split; [done|].
  exists a. split_and!; [done|apply dec_stable; tauto..].
Qed.

(** In every reachable table, [validate] accepts a token exactly when the
    resource has an active lease held by that session and owner with that very
    token; hence at most one token per resource is valid at any time. *)
Theorem LeaseTable_validate_spec st r s o tok op :
  rtc lease_step LeaseState_init st →
  valid_identifier op →
  (LeaseTable_validate (ls_table st) r s o tok op = Ok () ↔
   ∃ a, active (ls_table st) !! r = Some a ∧
     al_session_id a = s ∧ al_owner_id a = o ∧ al_token a = tok) ∧
  match token_verdict (LeaseTable_current_generation (ls_table st) r)
          (active (ls_table st) !! r) s o tok with
  | None => True
  | Some name => rejected_with name r (LeaseTable_validate (ls_table st) r s o tok op)
  end.
Proof.
  intros Hreach Hop. pose proof (validate_verdict (ls_table st) r s o tok op Hop) as Hv.
  split; [split|].
  - intros [_ H]%validate_Ok. done.
  - intros (a & Ha & <- & <- & <-). apply lease_inv_reachable in Hreach as [_ Hact _ _ _].
    destruct (Hact _ _ Ha) as [Hg _]. unfold token_verdict, LeaseTable_current_generation in Hv.
    rewrite Ha, Hg in Hv. simpl in Hv. rewrite Z.ltb_irrefl in Hv.
    by rewrite !decide_True in Hv by done.
  - by destruct (token_verdict _ _ _ _ _).
Qed.

(** ** Fencing *)
(** C1: a new reservation of a resource always carries a generation strictly
    greater than that of every token ever handed out for the resource, and from that
    moment every such token is refused as stale, whoever presents it. *)
Theorem lease_fencing st r s o fresh t' tok :
  rtc lease_step LeaseState_init st →
  LeaseTable_reserve_control (ls_table st) r s o fresh = (t', Ok tok) →
  ∀ old, (r, old) ∈ ls_exposed st →
    token_generation old < token_generation tok ∧
    ∀ s' o' op, valid_identifier op →
      rejected_with "runtime.lease.stale_generation" r (LeaseTable_validate t' r s' o' old op).
Proof.
  intros Hreach (Hact & _ & -> & ->)%reserve_control_Ok old Hin.
  apply lease_inv_reachable in Hreach as [_ _ Hexp _ _].
  destruct (Hexp _ _ Hin) as [Hle _]. simpl in *.
  assert (token_generation old < LeaseTable_current_generation (ls_table st) r + 1) by lia.
  split; [done|]. intros s' o' op Hop.
  match goal with |- rejected_with _ _ (LeaseTable_validate ?t _ _ _ _ _) =>
    pose proof (validate_verdict t r s' o' old op Hop) as Hv end.
  unfold token_verdict in Hv. rewrite LeaseTable_current_generation_insert in Hv.
  rewrite decide_True in Hv by done. by rewrite (proj2 (Z.ltb_lt _ _)) in Hv.
Qed.

(** An exposed token that is not the active one. *)
Definition token_dead (r : ResourceId) (tok : LeaseToken) (st : LeaseState) : Prop :=
  (r, tok) ∈ ls_exposed st ∧
  ∀ a, active (ls_table st) !! r = Some a → al_token a ≠ tok.

Lemma token_dead_step r tok st st' :
  lease_inv st → lease_step st st' → token_dead r tok st → token_dead r tok st'.
Proof.
  intros Hinv Hstep [Hin Hne]. unfold token_dead.
  destruct Hstep as [t ex r' s o fresh t' [tok'|e] Hres|t ex r' s tok' t' ok Hres
                    |t ex r' s tok' t' ok Hres|t ex r' s t' ok Hres]; simpl in *.
  - apply reserve_control_Ok in Hres as (_ & _ & -> & ->). split; [done|]. simpl.
    intros a [[<- <-]|[? Ha]]%lookup_insert_Some; [|eauto]. simpl. intros <-.
    destruct (inv_exposed _ Hinv _ _ Hin) as [Hle _]. simpl in Hle. lia.
  - apply (reserve_control_Err (mkLeaseState t ex)) in Hres; [|done]. by subst.
  - apply commit_inv in Hres as [[-> ->]|(a & -> & Ha & _ & _ & ->)]; [done|].
    split; [by right|]. simpl. intros b [[<- <-]|[? Hb]]%lookup_insert_Some; simpl; eauto.
  - rewrite LeaseTable_quarantine_commit in Hres.
    apply commit_inv in Hres as [[-> ->]|(a & -> & Ha & _ & _ & ->)]; [done|].
    split; [by right|]. simpl. intros b [[<- <-]|[? Hb]]%lookup_insert_Some; simpl; eauto.
  - apply release_inv in Hres as [(-> & -> & _)|(a & Ha & _ & _ & Hact & _)]; [done|].
    split; [done|]. rewrite Hact. intros b [_ Hb]%lookup_delete_Some. eauto.
Qed.

(** Revocation is permanent.  Once a handed-out token is no longer the active
    one (its lease was released or superseded), no later sequence of reservations,
    commits, quarantines and releases makes [validate] accept it again. *)
Theorem revoked_token_never_valid_again st st' r tok s o op :
  rtc lease_step LeaseState_init st →
  token_dead r tok st →
  rtc lease_step st st' →
  is_ok (LeaseTable_validate (ls_table st') r s o tok op) = false.
Proof.
  intros Hreach%lease_inv_reachable Hdead Hsteps.
  assert (token_dead r tok st') as [_ Hne].
  { induction Hsteps as [|x y z Hxy _ IH]; [done|].
    apply IH; [by eapply lease_inv_step|by eapply token_dead_step]. }
  destruct (LeaseTable_validate _ _ _ _ _ _) as [u|] eqn:Hv; [|done].
  apply validate_Ok in Hv as (_ & a & Ha & _ & _ & Htok). by destruct (Hne _ Ha).
Qed.

Lemma reserve_release_exact st r s o fresh t' tok :
  lease_inv st →
  LeaseTable_reserve_control (ls_table st) r s o fresh = (t', Ok tok) →
  LeaseTable_release t' r s = (ls_table st, false).
Proof.
  intros [Hgens _ _ _ _] (Hact & Hmax & -> & ->)%reserve_control_Ok.
  unfold LeaseTable_release. simpl. rewrite !lookup_insert_eq. simpl.
  rewrite !bool_decide_eq_true_2 by done. simpl. f_equal.
  destruct st as [[gens act] ex]. simpl in *. unfold LeaseTable_current_generation in *. simpl in *.
  rewrite (delete_insert_id act) by done. f_equal.
  destruct (gens !! r) as [g|] eqn:Hg; simpl.
  - apply Hgens in Hg as ?. destruct (g + 1 =? 1) eqn:?; bool_simp; [lia|].
    rewrite insert_insert_eq, Z.add_simpl_r. by apply insert_id.
  - by rewrite delete_insert_id.
Qed.

(** Rolling back is exact: releasing a reservation that was not committed
    restores the very table from before the reservation, generation counter
    included, so a failed open leaves no trace. *)
Theorem reserve_release_rollback st r s o fresh t' tok :
  rtc lease_step LeaseState_init st →
  LeaseTable_reserve_control (ls_table st) r s o fresh = (t', Ok tok) →
  LeaseTable_release t' r s = (ls_table st, false).
Proof. intros Hreach%lease_inv_reachable. by apply reserve_release_exact. Qed.

(** ** Concrete runs *)
Inductive LeaseOp :=
  | OpReserve (r : ResourceId) (s : SessionId) (o : OwnerId) (fresh : LeaseId)
  | OpCommit (r : ResourceId) (s : SessionId) (token : LeaseToken)
  | OpRelease (r : ResourceId) (s : SessionId).
Definition lease_exec (st : LeaseState) (op : LeaseOp) : LeaseState :=
  match op with
  | OpReserve r s o fresh =>
      mkLeaseState (LeaseTable_reserve_control (ls_table st) r s o fresh).1 (ls_exposed st)
  | OpCommit r s token =>
      let '(t, ok) := LeaseTable_commit (ls_table st) r s token in
      mkLeaseState t (if ok : bool then (r, token) :: ls_exposed st else ls_exposed st)
  | OpRelease r s => mkLeaseState (LeaseTable_release (ls_table st) r s).1 (ls_exposed st)
  end.
Definition lease_run (ops : list LeaseOp) : LeaseState := foldl lease_exec LeaseState_init ops.

Lemma lease_exec_step st op : lease_step st (lease_exec st op).
Proof.
  destruct st as [t ex], op; simpl.
  - by eapply lease_step_reserve, surjective_pairing.
  - destruct (LeaseTable_commit _ _ _ _) eqn:?. by eapply lease_step_commit.
  - by eapply lease_step_release, surjective_pairing.
Qed.

Lemma lease_run_steps st ops : rtc lease_step st (foldl lease_exec st ops).
Proof.
  revert st; induction ops as [|op ops IH]; intros st; simpl; [apply rtc_refl|].
  eapply rtc_l; [apply lease_exec_step|apply IH].
Qed.
#[export] Hint Resolve lease_run_steps : hal.

Definition ex_res : ResourceId := mkResourceId "camera:0".
Definition ex_session (n : Z) : SessionId := mkSessionId ("session-" +:+ to_string n).
Definition ex_owner : OwnerId := mkOwnerId "owner".
Definition ex_token (n : Z) : LeaseToken := mkLeaseToken (mkLeaseId "lease") n Control.
(** Open and close one session, then open a second one. *)
Definition ex_ops : list LeaseOp :=
  [OpReserve ex_res (ex_session 1) ex_owner (mkLeaseId "lease");
   OpCommit ex_res (ex_session 1) (ex_token 1);
   OpRelease ex_res (ex_session 1)].

Lemma LeaseTable_validate_spec_witness :
  rejected_with "runtime.session.closed" ex_res
    (LeaseTable_validate (ls_table (lease_run ex_ops)) ex_res (ex_session 1) ex_owner
       (ex_token 1) "camera.capture").
Proof.
  exact (proj2 (LeaseTable_validate_spec (lease_run ex_ops) ex_res (ex_session 1) ex_owner
    (ex_token 1) "camera.capture" (lease_run_steps _ _) ltac:(solve_valid_identifier))).
Defined.

Lemma lease_fencing_witness : token_generation (ex_token 1) < token_generation (ex_token 2).
Proof.
  apply (lease_fencing (lease_run ex_ops) ex_res (ex_session 2) ex_owner (mkLeaseId "lease")
           (ls_table (lease_exec (lease_run ex_ops)
              (OpReserve ex_res (ex_session 2) ex_owner (mkLeaseId "lease")))) (ex_token 2)).
  - apply lease_run_steps.
  - vm_compute. reflexivity.
  - vm_compute. left.
Defined.

Lemma revoked_token_never_valid_again_witness :
  is_ok (LeaseTable_validate
           (ls_table (lease_exec (lease_run ex_ops)
              (OpReserve ex_res (ex_session 1) ex_owner (mkLeaseId "lease"))))
           ex_res (ex_session 1) ex_owner (ex_token 1) "camera.capture") = false.
Proof.
  apply (revoked_token_never_valid_again (lease_run ex_ops)).
  - apply lease_run_steps.
  - split; [vm_compute; left|]. intros a Ha. vm_compute in Ha. discriminate.
  - apply rtc_once, lease_exec_step.
Defined.

Lemma reserve_release_rollback_witness :
  LeaseTable_release
    (LeaseTable_reserve_control (ls_table (lease_run ex_ops)) ex_res (ex_session 2) ex_owner
       (mkLeaseId "x")).1 ex_res (ex_session 2) = (ls_table (lease_run ex_ops), false).
Proof.
  apply (reserve_release_rollback (lease_run ex_ops) ex_res (ex_session 2) ex_owner
           (mkLeaseId "x") _ (mkLeaseToken (mkLeaseId "x") 2 Control)).
  - apply lease_run_steps.
  - vm_compute. reflexivity.
Defined.
