(* ===== verification/CanLeaseTable.v ===== *)
(** * robot-hal-runtime: the CAN lease table

    Models crates/robot-hal-runtime/src/can_lease_table.rs: several sessions may
    observe a CAN resource, at most one controls it beside them, and maintenance
    excludes everyone else.  A lease is first reserved ([pending]), then committed
    with the next generation of the resource, or cancelled.  [LeaseId::new()] is the
    argument [fresh]. *)

From S2P Require Import Prelude Core Lifecycle.

Record CanReservation := mkCanReservation {
  cr_resource_id : ResourceId;
  cr_session_id : SessionId;
  cr_owner_id : OwnerId;
  cr_reservation_id : LeaseId;
  cr_mode : LeaseMode;
}.
Record LeaseEntry := mkLeaseEntry {
  le_session_id : SessionId;
  le_owner_id : OwnerId;
  le_token : LeaseToken;
}.
Record PendingEntry := mkPendingEntry {
  pe_reservation_id : LeaseId;
  pe_owner_id : OwnerId;
  pe_mode : LeaseMode;
}.
Record ResourceLeases := mkResourceLeases {
  last_generation : Z;
  pending : gmap SessionId PendingEntry;
  observes : gmap SessionId LeaseEntry;
  control : option LeaseEntry;
  maintenance : option LeaseEntry;
}.
Definition ResourceLeases_default : ResourceLeases := mkResourceLeases 0 ∅ ∅ None None.

(** [values().any(p)] over a map. *)
Definition any_value {K V} `{Countable K} (p : V → bool) (m : gmap K V) : bool :=
  existsb (λ kv, p kv.2) (map_to_list m).

Definition ResourceLeases_is_empty (l : ResourceLeases) : bool :=
  bool_decide (pending l = ∅) && bool_decide (observes l = ∅)
  && is_none (control l) && is_none (maintenance l).
Definition ResourceLeases_has_any_lease (l : ResourceLeases) : bool :=
  negb (ResourceLeases_is_empty l).

Record CanLeaseTable := mkCanLeaseTable { resources : gmap ResourceId ResourceLeases }.
Definition CanLeaseTable_default : CanLeaseTable := mkCanLeaseTable ∅.

Definition mode_allows (actual required : LeaseMode) : bool :=
  match actual, required with
  | Observe, Observe => true
  | Control, (Observe | Control) => true
  | Maintenance, (Observe | Control | Maintenance) => true
  | _, _ => false
  end.

Definition can_conflict (resource_id : ResourceId) (message : string) : HalError :=
  HalError_with_resource_id
    (static_error "runtime.lease.conflict" Conflict "can.open" false message) resource_id.
Definition can_session_closed (resource_id : ResourceId) (operation : string) : HalError :=
  HalError_with_resource_id
    (static_error "runtime.session.closed" Conflict operation false
       "the CAN session is closed") resource_id.

Definition set_pending (l : ResourceLeases) (p : gmap SessionId PendingEntry) : ResourceLeases :=
  mkResourceLeases (last_generation l) p (observes l) (control l) (maintenance l).
Definition put_leases (t : CanLeaseTable) (r : ResourceId) (l : ResourceLeases)
    : CanLeaseTable := mkCanLeaseTable (<[r := l]> (resources t)).

(** The two tests of [reserve]: the session already holds something, and the
    requested mode does not fit beside what others hold. *)
Definition session_holds (l : ResourceLeases) (session_id : SessionId) : bool :=
  is_some (pending l !! session_id)
  || is_some (observes l !! session_id)
  || is_some_and (λ e, bool_decide (le_session_id e = session_id)) (control l)
  || is_some_and (λ e, bool_decide (le_session_id e = session_id)) (maintenance l).
Definition reserve_incompatible (l : ResourceLeases) (mode : LeaseMode) : bool :=
  match mode with
  | Observe | Control =>
      is_some (maintenance l)
      || any_value (λ p, bool_decide (pe_mode p = Maintenance)) (pending l)
      || (bool_decide (mode = Control)
          && (is_some (control l)
              || any_value (λ p, bool_decide (pe_mode p = Control)) (pending l)))
  | Maintenance => ResourceLeases_has_any_lease l
  end.

Definition CanLeaseTable_reserve (t : CanLeaseTable) (resource_id : ResourceId)
    (session_id : SessionId) (owner_id : OwnerId) (mode : LeaseMode) (fresh : LeaseId)
    : CanLeaseTable * HalResult CanReservation :=
  let leases := default ResourceLeases_default (resources t !! resource_id) in
  if session_holds leases session_id then
    (put_leases t resource_id leases,
     Err (can_conflict resource_id "the session already owns or is opening a CAN lease"))
  else if reserve_incompatible leases mode then
    (put_leases t resource_id leases,
     Err (can_conflict resource_id
            "the CAN lease is incompatible with an active or provisional lease"))
  else
    (put_leases t resource_id
       (set_pending leases
          (<[session_id := mkPendingEntry fresh owner_id mode]> (pending leases))),
     Ok (mkCanReservation resource_id session_id owner_id fresh mode)).

(** The identity test shared by [commit] and [cancel]. *)
Definition pending_matches (p : PendingEntry) (reservation : CanReservation) : bool :=
  bool_decide (pe_reservation_id p = cr_reservation_id reservation)
  && bool_decide (pe_owner_id p = cr_owner_id reservation)
  && bool_decide (pe_mode p = cr_mode reservation).

Definition CanLeaseTable_commit (t : CanLeaseTable) (reservation : CanReservation)
    (fresh : LeaseId) : CanLeaseTable * HalResult LeaseToken :=
  let resource_id := cr_resource_id reservation in
  let session_id := cr_session_id reservation in
  match resources t !! resource_id with
  | None => (t, Err (can_conflict resource_id "the CAN reservation is no longer pending"))
  | Some leases =>
      match pending leases !! session_id with
      | None => (t, Err (can_conflict resource_id "the CAN reservation is no longer pending"))
      | Some p =>
          if negb (pending_matches p reservation) then
            (t, Err (can_conflict resource_id "the CAN reservation identity is invalid"))
          else
            let remaining := delete session_id (pending leases) in
            match checked_add u64_max (last_generation leases) 1 with
            | None =>
                (put_leases t resource_id (set_pending leases remaining),
                 Err (HalError_with_resource_id
                        (static_error "runtime.lease.generation_exhausted" Internal "can.open"
                           false "the CAN lease generation reached u64::MAX") resource_id))
            | Some generation =>
                let token := mkLeaseToken fresh generation (cr_mode reservation) in
                let entry := mkLeaseEntry session_id (cr_owner_id reservation) token in
                let leases' :=
                  match cr_mode reservation with
                  | Observe => mkResourceLeases generation remaining
                      (<[session_id := entry]> (observes leases)) (control leases)
                      (maintenance leases)
                  | Control => mkResourceLeases generation remaining (observes leases)
                      (Some entry) (maintenance leases)
                  | Maintenance => mkResourceLeases generation remaining (observes leases)
                      (control leases) (Some entry)
                  end in
                (put_leases t resource_id leases', Ok token)
            end
      end
  end.

Definition CanLeaseTable_cancel (t : CanLeaseTable) (reservation : CanReservation)
    : CanLeaseTable * bool :=
  let resource_id := cr_resource_id reservation in
  match resources t !! resource_id with
  | None => (t, false)
  | Some leases =>
      let removed := is_some_and (λ p, pending_matches p reservation)
                       (pending leases !! cr_session_id reservation) in
      if negb removed then (t, false)
      else
        let leases' := set_pending leases (delete (cr_session_id reservation) (pending leases)) in
        if (last_generation leases' =? 0) && ResourceLeases_is_empty leases'
        then (mkCanLeaseTable (delete resource_id (resources t)), true)
        else (put_leases t resource_id leases', true)
  end.

Definition CanLeaseTable_release (t : CanLeaseTable) (resource_id : ResourceId)
    (session_id : SessionId) (token : LeaseToken) : CanLeaseTable * bool :=
  match resources t !! resource_id with
  | None => (t, false)
  | Some l =>
      let is_mine e := bool_decide (le_session_id e = session_id) && bool_decide (le_token e = token) in
      if is_some_and (λ e, bool_decide (le_token e = token)) (observes l !! session_id) then
        (put_leases t resource_id
           (mkResourceLeases (last_generation l) (pending l) (delete session_id (observes l))
              (control l) (maintenance l)), true)
      else if is_some_and is_mine (control l) then
        (put_leases t resource_id
           (mkResourceLeases (last_generation l) (pending l) (observes l) None (maintenance l)),
         true)
      else if is_some_and is_mine (maintenance l) then
        (put_leases t resource_id
           (mkResourceLeases (last_generation l) (pending l) (observes l) (control l) None),
         true)
      else (t, false)
  end.

(** The lookup chain of [validate]: observer, else controller, else maintainer. *)
Definition active_entry (l : ResourceLeases) (session_id : SessionId) : option LeaseEntry :=
  let mine o := match o with
                | Some e => if bool_decide (le_session_id e = session_id) then Some e else None
                | None => None
                end in
  match observes l !! session_id with
  | Some e => Some e
  | None => match mine (control l) with
            | Some e => Some e
            | None => mine (maintenance l)
            end
  end.

Definition CanLeaseTable_validate (t : CanLeaseTable) (resource_id : ResourceId)
    (session_id : SessionId) (owner_id : OwnerId) (token : LeaseToken)
    (required_mode : LeaseMode) (operation : string) : HalResult unit :=
  let fail name message :=
    Err (HalError_with_resource_id (static_error name Conflict operation false message)
           resource_id) in
  match resources t !! resource_id with
  | None => Err (can_session_closed resource_id operation)
  | Some leases =>
      match active_entry leases session_id with
      | None =>
          if token_generation token <? last_generation leases then
            fail "runtime.lease.stale_generation" "the lease generation is no longer active"
          else Err (can_session_closed resource_id operation)
      | Some a =>
          if bool_decide (le_owner_id a ≠ owner_id) then
            fail "runtime.lease.owner_mismatch"
              "the CAN lease owner does not match the session owner"
          else if bool_decide (le_token a ≠ token) then
            fail (if token_generation token <? token_generation (le_token a)
                  then "runtime.lease.stale_generation" else "runtime.lease.invalid_token")
              "the CAN lease token does not match the active lease"
          else if negb (mode_allows (token_mode (le_token a)) required_mode) then
            fail "runtime.lease.mode_denied" "the CAN lease mode does not permit this operation"
          else Ok ()
      end
  end.

Definition CanLeaseTable_retained_generation_count (t : CanLeaseTable) : Z :=
  Z.of_nat (length (List.filter (λ kv, 0 <? last_generation kv.2) (map_to_list (resources t)))).
Definition CanLeaseTable_pending_count (t : CanLeaseTable) : Z :=
  foldr (λ kv n, Z.of_nat (size (pending kv.2)) + n) 0 (map_to_list (resources t)).

(** ** Contract: who holds what

    [held l s m ph]: session [s] holds mode [m] on the resource, provisionally
    ([Provisional]) or with a committed lease ([Granted]). *)
Inductive Phase := Provisional | Granted.

Definition granted (l : ResourceLeases) (s : SessionId) (m : LeaseMode) (e : LeaseEntry) : Prop :=
  match m with
  | Observe => observes l !! s = Some e
  | Control => control l = Some e ∧ le_session_id e = s
  | Maintenance => maintenance l = Some e ∧ le_session_id e = s
  end.
Definition held (l : ResourceLeases) (s : SessionId) (m : LeaseMode) (ph : Phase) : Prop :=
  match ph with
  | Provisional => ∃ p, pending l !! s = Some p ∧ pe_mode p = m
  | Granted => ∃ e, granted l s m e
  end.

(** The compatibility matrix of the lease modes. *)
Definition compatible (m m' : LeaseMode) : bool :=
  match m, m' with
  | Observe, (Observe | Control) | Control, Observe => true
  | _, _ => false
  end.

Lemma compatible_sym m m' : compatible m m' = compatible m' m.
Proof. by destruct m, m'. Qed.

Definition exclusive (l : ResourceLeases) : Prop :=
  ∀ s m ph s' m' ph', held l s m ph → held l s' m' ph' →
    (s = s' ∧ m = m' ∧ ph = ph') ∨ (s ≠ s' ∧ compatible m m' = true).

Record leases_ok (l : ResourceLeases) : Prop := {
  lo_generation : 0 <= last_generation l <= u64_max;
  lo_exclusive : exclusive l;
  lo_entries : ∀ s m e, granted l s m e →
    le_session_id e = s ∧ token_mode (le_token e) = m ∧
    1 <= token_generation (le_token e) <= last_generation l;
}.

Lemma any_value_true {K V} `{Countable K} (p : V → bool) (m : gmap K V) :
  any_value p m = true ↔ ∃ k v, m !! k = Some v ∧ p v = true.
Proof.
  unfold any_value. rewrite existsb_exists. split.
  - intros ([k v] & Hin & Hp). exists k, v. split; [|done].
    by apply elem_of_map_to_list, list_elem_of_In.
  - intros (k & v & Hk & Hp). exists (k, v). split; [|done].
    by apply list_elem_of_In, elem_of_map_to_list.
Qed.

Lemma is_some_true {A} (o : option A) : is_some o = true ↔ ∃ x, o = Some x.
Proof. destruct o; naive_solver. Qed.

Lemma is_some_and_true {A} (p : A → bool) (o : option A) :
  is_some_and p o = true ↔ ∃ x, o = Some x ∧ p x = true.
Proof. destruct o; naive_solver. Qed.

Lemma session_holds_true l s :
  session_holds l s = true ↔ ∃ m ph, held l s m ph.
Proof.
  unfold session_holds.
  rewrite !orb_true_iff, !is_some_true, !is_some_and_true.
  setoid_rewrite bool_decide_eq_true. split.
  - intros [[[[p ?]|[e ?]]|[e ?]]|[e ?]].
    + exists (pe_mode p), Provisional. naive_solver.
    + exists Observe, Granted. naive_solver.
    + exists Control, Granted. naive_solver.
    + exists Maintenance, Granted. naive_solver.
  - intros (m & [] & H); [|destruct H as [e H]; destruct m]; simpl in *; naive_solver.
Qed.

Lemma is_empty_true l :
  ResourceLeases_is_empty l = true ↔
  pending l = ∅ ∧ observes l = ∅ ∧ control l = None ∧ maintenance l = None.
Proof.
  unfold ResourceLeases_is_empty, is_none.
  rewrite !andb_true_iff, !bool_decide_eq_true, !negb_true_iff.
  destruct (control l), (maintenance l); naive_solver.
Qed.

Lemma is_empty_held l :
  ResourceLeases_is_empty l = true ↔ ∀ s m ph, ¬ held l s m ph.
Proof.
  rewrite is_empty_true. split.
  - intros (Hp & Ho & Hc & Hm) s m [] H; [|destruct H as [e H]; destruct m];
      simpl in *; rewrite ?Hp, ?Ho, ?Hc, ?Hm, ?lookup_empty in *; naive_solver.
  - intros Hn. split_and!.
    + apply map_empty. intros s. apply eq_None_not_Some. intros [p Hp].
      apply (Hn s (pe_mode p) Provisional). by exists p.
    + apply map_empty. intros s. apply eq_None_not_Some. intros [e He].
      apply (Hn s Observe Granted). by exists e.
    + apply eq_None_not_Some. intros [e He].
      apply (Hn (le_session_id e) Control Granted). by exists e.
    + apply eq_None_not_Some. intros [e He].
      apply (Hn (le_session_id e) Maintenance Granted). by exists e.
Qed.

Lemma held_maintenance l :
  (∃ s ph, held l s Maintenance ph) ↔
  is_some (maintenance l)
  || any_value (λ p, bool_decide (pe_mode p = Maintenance)) (pending l) = true.
Proof.
  rewrite orb_true_iff, any_value_true, is_some_true. setoid_rewrite bool_decide_eq_true.
  split; [intros (s & [] & ?); simpl in *; naive_solver|].
  intros [[e He]|(s & p & ? & ?)]; [exists (le_session_id e), Granted|exists s, Provisional];
    simpl; naive_solver.
Qed.

Lemma held_control l :
  (∃ s ph, held l s Control ph) ↔
  is_some (control l)
  || any_value (λ p, bool_decide (pe_mode p = Control)) (pending l) = true.
Proof.
  rewrite orb_true_iff, any_value_true, is_some_true. setoid_rewrite bool_decide_eq_true.
  split; [intros (s & [] & ?); simpl in *; naive_solver|].
  intros [[e He]|(s & p & ? & ?)]; [exists (le_session_id e), Granted|exists s, Provisional];
    simpl; naive_solver.
Qed.

Lemma reserve_incompatible_true l m :
  reserve_incompatible l m = true ↔ ∃ s' m' ph, held l s' m' ph ∧ compatible m m' = false.
Proof.
  assert (∀ m', (∃ s ph, held l s m' ph) → compatible m m' = false →
    ∃ s' m' ph, held l s' m' ph ∧ compatible m m' = false) as Hw by naive_solver.
  unfold reserve_incompatible. destruct m; simpl.
  - rewrite orb_false_r, <- held_maintenance. split; [naive_solver|].
    intros (s & [] & ph & ? & ?); naive_solver.
  - rewrite orb_true_iff, <- held_maintenance, <- held_control. split; [naive_solver|].
    intros (s & [] & ph & ? & ?); naive_solver.
  - unfold ResourceLeases_has_any_lease. split.
    + rewrite negb_true_iff. intros He.
      destruct (any_value (λ _, true) (pending l)) eqn:Hp.
      { apply any_value_true in Hp as (s & p & ? & _).
        exists s, (pe_mode p), Provisional. split; [by exists p|done]. }
      destruct (any_value (λ _, true) (observes l)) eqn:Ho.
      { apply any_value_true in Ho as (s & e & ? & _).
        exists s, Observe, Granted. split; [by exists e|done]. }
      destruct (control l) as [e|] eqn:Hc.
      { exists (le_session_id e), Control, Granted. split; [by exists e|done]. }
      destruct (maintenance l) as [e|] eqn:Hm.
      { exists (le_session_id e), Maintenance, Granted. split; [by exists e|done]. }
      assert (ResourceLeases_is_empty l = true) as He'; [|congruence].
      apply is_empty_true. split_and!; try done; apply map_empty; intros s;
        apply eq_None_not_Some; intros [x Hx].
      * apply not_true_iff_false in Hp. destruct Hp. apply any_value_true. eauto.
      * apply not_true_iff_false in Ho. destruct Ho. apply any_value_true. eauto.
    + intros (s & m' & ph & Hh & _). apply negb_true_iff, not_true_iff_false.
      rewrite is_empty_held. naive_solver.
Qed.

(** ** One resource: each operation preserves [leases_ok] *)
Lemma leases_ok_default : leases_ok ResourceLeases_default.
Proof.
  split; simpl; [vm_compute; naive_solver| |].
  - intros s m ph ? ? ? Hh. destruct (proj1 (is_empty_held ResourceLeases_default) eq_refl s m ph Hh).
  - intros s m e Hg. by destruct (proj1 (is_empty_held ResourceLeases_default) eq_refl s m Granted);
      exists e.
Qed.

(** Dropping holds preserves exclusivity. *)
Lemma exclusive_sub l l' :
  (∀ s m ph, held l' s m ph → held l s m ph) → exclusive l → exclusive l'.
Proof. intros Hsub He s m ph s' m' ph' H H'. apply He; by apply Hsub. Qed.

Lemma held_insert_pending l s p s' m ph :
  held (set_pending l (<[s := p]> (pending l))) s' m ph →
  (s' = s ∧ m = pe_mode p ∧ ph = Provisional) ∨ held l s' m ph.
Proof.
  destruct ph; simpl.
  - intros (q & [[<- <-]|[? ?]]%lookup_insert_Some & <-); [by left|right; eauto].
  - intros [e He]. right. by exists e.
Qed.

Lemma leases_ok_reserve l s p :
  leases_ok l → session_holds l s = false → reserve_incompatible l (pe_mode p) = false →
  leases_ok (set_pending l (<[s := p]> (pending l))).
Proof.
  intros [Hg He Ht] Hs Hi.
  assert (∀ m ph, ¬ held l s m ph) as Hs'.
  { intros m ph Hh. apply not_true_iff_false in Hs. destruct Hs.
    apply session_holds_true. eauto. }
  assert (∀ s' m ph, held l s' m ph → s' ≠ s ∧ compatible (pe_mode p) m = true) as Hi'.
  { intros s' m ph Hh. split; [by intros ->; apply (Hs' m ph)|].
    apply not_false_iff_true. intros Hc. apply not_true_iff_false in Hi. destruct Hi.
    apply reserve_incompatible_true. eauto. }
  split; [done| |done].
  intros s1 m1 ph1 s2 m2 ph2 [(->&->&->)|H1]%held_insert_pending
    [(->&->&->)|H2]%held_insert_pending.
  - by left.
  - right. apply Hi' in H2 as [??]. done.
  - right. apply Hi' in H1 as [??]. by rewrite compatible_sym.
  - by apply He.
Qed.

Lemma held_delete_pending l s s' m ph :
  held (set_pending l (delete s (pending l))) s' m ph → held l s' m ph ∧ (ph = Provisional → s' ≠ s).
Proof.
  destruct ph; simpl.
  - intros (p & [? ?]%lookup_delete_Some & <-). split; [eauto|done].
  - intros [e He]. split; [by exists e|done].
Qed.

Lemma leases_ok_drop_pending l s :
  leases_ok l → leases_ok (set_pending l (delete s (pending l))).
Proof.
  intros [Hg He Ht]. split; [done| |done].
  eapply exclusive_sub; [|done]. intros s' m ph Hh. by apply held_delete_pending in Hh as [? _].
Qed.

(** The leases after granting [m] to the pending session [s]. *)
Definition grant (l : ResourceLeases) (s : SessionId) (m : LeaseMode) (generation : Z)
    (entry : LeaseEntry) : ResourceLeases :=
  let remaining := delete s (pending l) in
  match m with
  | Observe => mkResourceLeases generation remaining (<[s := entry]> (observes l)) (control l)
                 (maintenance l)
  | Control => mkResourceLeases generation remaining (observes l) (Some entry) (maintenance l)
  | Maintenance => mkResourceLeases generation remaining (observes l) (control l) (Some entry)
  end.

Lemma granted_grant l s m g entry s' m' e :
  le_session_id entry = s →
  granted (grant l s m g entry) s' m' e →
  (s' = s ∧ m' = m ∧ e = entry) ∨ granted l s' m' e.
Proof.
  intros Hs. destruct m, m'; simpl; rewrite ?lookup_insert_Some; naive_solver.
Qed.

Lemma held_grant l s m g entry s' m' ph p :
  exclusive l → pending l !! s = Some p → pe_mode p = m → le_session_id entry = s →
  held (grant l s m g entry) s' m' ph →
  (s' = s ∧ m' = m ∧ ph = Granted) ∨ (s' ≠ s ∧ held l s' m' ph).
Proof.
  intros He Hp Hm Hs Hh. destruct ph; simpl in Hh.
  - right. destruct Hh as (q & Hq & <-).
    assert (delete s (pending l) !! s' = Some q) as [? ?]%lookup_delete_Some
      by (by destruct m).
    split; [done|]. by exists q.
  - destruct Hh as [e [(->&->&->)|Hg]%granted_grant]; [by left| |done].
    right. assert (held l s' m' Granted) as Hh by (by exists e). split; [|done]. intros ->.
    destruct (He _ _ _ s m Provisional Hh) as [(_&_&?)|[? _]]; [by exists p|done|done].
Qed.

Lemma leases_ok_grant l s m entry p :
  leases_ok l → pending l !! s = Some p → pe_mode p = m → le_session_id entry = s →
  token_mode (le_token entry) = m →
  token_generation (le_token entry) = last_generation l + 1 → last_generation l + 1 <= u64_max →
  leases_ok (grant l s m (last_generation l + 1) entry).
Proof.
  intros [Hg He Ht] Hp Hm Hs Hmode Hgen Hmax.
  assert (last_generation (grant l s m (last_generation l + 1) entry) = last_generation l + 1)
    as Hlast by (by destruct m).
  assert (∀ s' m' ph, held l s' m' ph → s' ≠ s → compatible m m' = true) as Hcomp.
  { intros s' m' ph Hh Hne.
    destruct (He s m Provisional s' m' ph) as [(?&_)|[_ ?]]; [by exists p|done| |done].
    by destruct Hne. }
  split.
  - lia.
  - intros s1 m1 ph1 s2 m2 ph2 H1 H2.
    eapply held_grant in H1; [|done..]. eapply held_grant in H2; [|done..].
    destruct H1 as [(->&->&->)|[? H1]], H2 as [(->&->&->)|[? H2]].
    + by left.
    + right. split; [done|]. eauto.
    + right. split; [done|]. rewrite compatible_sym. eauto.
    + by apply He.
  - intros s' m' e [(->&->&->)|H]%granted_grant; [| |done].
    + split_and!; [done..| |]; rewrite ?Hlast, Hgen; lia.
    + apply Ht in H as (?&?&?). split_and!; [done..| |]; rewrite ?Hlast; lia.
Qed.

(** What [release] leaves. *)
Lemma leases_ok_sub l l' :
  leases_ok l → last_generation l' = last_generation l → pending l' = pending l →
  (∀ s m e, granted l' s m e → granted l s m e) → leases_ok l'.
Proof.
  intros [Hg He Ht] Hlast Hp Hsub. split.
  - by rewrite Hlast.
  - eapply exclusive_sub; [|done]. intros s m [] Hh; simpl in *.
    + by rewrite Hp in Hh.
    + destruct Hh as [e ?]. exists e. auto.
  - intros s m e Hgr. rewrite Hlast. auto.
Qed.

(** ** The table as a state machine, with the tokens handed out so far *)
Record CanLeaseState := mkCanLeaseState {
  cls_table : CanLeaseTable;
  cls_exposed : list (ResourceId * LeaseToken);
}.
Definition CanLeaseState_init : CanLeaseState := mkCanLeaseState CanLeaseTable_default [].

Definition exposes (res : HalResult LeaseToken) (r : ResourceId)
    (ex : list (ResourceId * LeaseToken)) : list (ResourceId * LeaseToken) :=
  match res with Ok tok => (r, tok) :: ex | Err _ => ex end.

Inductive can_lease_step : CanLeaseState → CanLeaseState → Prop :=
  | can_step_reserve t ex r s o m fresh t' res :
      CanLeaseTable_reserve t r s o m fresh = (t', res) →
      can_lease_step (mkCanLeaseState t ex) (mkCanLeaseState t' ex)
  | can_step_commit t ex rv fresh t' res :
      CanLeaseTable_commit t rv fresh = (t', res) →
      can_lease_step (mkCanLeaseState t ex)
        (mkCanLeaseState t' (exposes res (cr_resource_id rv) ex))
  | can_step_cancel t ex rv t' ok :
      CanLeaseTable_cancel t rv = (t', ok) →
      can_lease_step (mkCanLeaseState t ex) (mkCanLeaseState t' ex)
  | can_step_release t ex r s tok t' ok :
      CanLeaseTable_release t r s tok = (t', ok) →
      can_lease_step (mkCanLeaseState t ex) (mkCanLeaseState t' ex).

Definition leases_of (t : CanLeaseTable) (r : ResourceId) : ResourceLeases :=
  default ResourceLeases_default (resources t !! r).

Lemma leases_of_put t r l r' :
  leases_of (put_leases t r l) r' = if decide (r' = r) then l else leases_of t r'.
Proof.
  unfold leases_of, put_leases. simpl. case_decide as H.
  - subst. by rewrite lookup_insert_eq.
  - by rewrite lookup_insert_ne.
Qed.

(** A change of [t] that grants nothing: it touches one resource, keeps its
    leases well-formed and its counter, and adds no lease. *)
Record quiet (t t' : CanLeaseTable) (r : ResourceId) : Prop := {
  q_other : ∀ r', r' ≠ r → leases_of t' r' = leases_of t r';
  q_generation : last_generation (leases_of t' r) = last_generation (leases_of t r);
  q_granted : ∀ s m e, granted (leases_of t' r) s m e → granted (leases_of t r) s m e;
  q_ok : leases_ok (leases_of t r) → leases_ok (leases_of t' r);
}.

Lemma quiet_refl t r : quiet t t r.
Proof. split; auto. Qed.

Lemma quiet_put t r l :
  last_generation l = last_generation (leases_of t r) →
  (∀ s m e, granted l s m e → granted (leases_of t r) s m e) →
  (leases_ok (leases_of t r) → leases_ok l) → quiet t (put_leases t r l) r.
Proof.
  intros Hg Hs Hok. split; rewrite ?leases_of_put, ?decide_True by done; auto.
  intros r' Hr. by rewrite leases_of_put, decide_False.
Qed.
#[export] Hint Resolve quiet_refl quiet_put : hal.

Lemma leases_of_Some t r l : resources t !! r = Some l → leases_of t r = l.
Proof. unfold leases_of. by intros ->. Qed.

Lemma reserve_inv t r s o m fresh t' res :
  CanLeaseTable_reserve t r s o m fresh = (t', res) →
  let l := leases_of t r in
  (∃ e, res = Err e ∧ t' = put_leases t r l ∧
     (session_holds l s = true ∨ reserve_incompatible l m = true)) ∨
  (session_holds l s = false ∧ reserve_incompatible l m = false ∧
   res = Ok (mkCanReservation r s o fresh m) ∧
   t' = put_leases t r (set_pending l (<[s := mkPendingEntry fresh o m]> (pending l)))).
Proof.
  unfold CanLeaseTable_reserve. fold (leases_of t r). simpl.
  destruct (session_holds _ _) eqn:?; [intros [= <- <-]; left; eauto|].
  destruct (reserve_incompatible _ _) eqn:?; intros [= <- <-]; [left|right]; eauto.
Qed.

Lemma reserve_quiet t r s o m fresh t' res :
  CanLeaseTable_reserve t r s o m fresh = (t', res) → quiet t t' r.
Proof.
  intros [(e & -> & -> & _)|(Hs & Hi & -> & ->)]%reserve_inv; [by apply quiet_put|].
  apply quiet_put; [done|done|]. intros Hok. by apply leases_ok_reserve.
Qed.

Lemma cancel_quiet t rv t' ok :
  CanLeaseTable_cancel t rv = (t', ok) → quiet t t' (cr_resource_id rv).
Proof.
  unfold CanLeaseTable_cancel. destruct (resources t !! _) as [l|] eqn:Hl;
    [|intros [= <- _]; auto with hal].
  apply leases_of_Some in Hl as Hof.
  destruct (negb _); [intros [= <- _]; auto with hal|].
  destruct (_ && _) eqn:He; intros [= <- _].
  2:{ apply quiet_put; rewrite Hof; [done|done|apply leases_ok_drop_pending]. }
  bool_simp. apply is_empty_true in H0 as (_ & Ho & Hc & Hm). simpl in *.
  split; rewrite ?Hof; unfold leases_of; simpl; rewrite ?lookup_delete_eq; simpl.
  - intros r' Hr. by rewrite lookup_delete_ne.
  - done.
  - intros s m e Hg. destruct m; simpl in Hg; set_solver.
  - intros _. apply leases_ok_default.
Qed.

Lemma release_quiet t r s tok t' ok :
  CanLeaseTable_release t r s tok = (t', ok) → quiet t t' r.
Proof.
  unfold CanLeaseTable_release. destruct (resources t !! r) as [l|] eqn:Hl;
    [|intros [= <- _]; auto with hal].
  apply leases_of_Some in Hl.
  repeat (destruct (is_some_and _ _)); intros [= <- _]; auto with hal;
    apply quiet_put; rewrite Hl; simpl; try done.
  - intros s' [] e; simpl; try done. by intros [_ ?]%lookup_delete_Some.
  - intros Hok. eapply leases_ok_sub; [done..|]. intros s' [] e; simpl; try done.
    by intros [_ ?]%lookup_delete_Some.
  - intros s' [] e; simpl; naive_solver.
  - intros Hok. eapply leases_ok_sub; [done..|]. intros s' [] e; simpl; naive_solver.
  - intros s' [] e; simpl; naive_solver.
  - intros Hok. eapply leases_ok_sub; [done..|]. intros s' [] e; simpl; naive_solver.
Qed.

Lemma pending_matches_true p rv :
  pending_matches p rv = true ↔
  p = mkPendingEntry (cr_reservation_id rv) (cr_owner_id rv) (cr_mode rv).
Proof.
  unfold pending_matches. rewrite !andb_true_iff, !bool_decide_eq_true.
  destruct p; simpl. naive_solver.
Qed.

Lemma commit_can_inv t rv fresh t' res :
  CanLeaseTable_commit t rv fresh = (t', res) →
  let r := cr_resource_id rv in let l := leases_of t r in
  (∃ e, res = Err e ∧ quiet t t' r) ∨
  (∃ tok, res = Ok tok ∧ last_generation l + 1 <= u64_max ∧
    tok = mkLeaseToken fresh (last_generation l + 1) (cr_mode rv) ∧
    pending l !! cr_session_id rv
      = Some (mkPendingEntry (cr_reservation_id rv) (cr_owner_id rv) (cr_mode rv)) ∧
    t' = put_leases t r
           (grant l (cr_session_id rv) (cr_mode rv) (last_generation l + 1)
              (mkLeaseEntry (cr_session_id rv) (cr_owner_id rv) tok))).
Proof.
  simpl. unfold CanLeaseTable_commit. destruct (resources t !! _) as [l|] eqn:Hl;
    [|intros [= <- <-]; left; eauto with hal].
  apply leases_of_Some in Hl. rewrite Hl.
  destruct (pending l !! _) as [p|] eqn:Hp; [|intros [= <- <-]; left; eauto with hal].
  destruct (pending_matches p rv) eqn:Hm; simpl; [|intros [= <- <-]; left; eauto with hal].
  apply pending_matches_true in Hm as ->.
  destruct (checked_add _ _ _) as [g|] eqn:Hc; intros [= <- <-].
  - apply checked_add_Some in Hc as [-> ?]. right. eexists. split_and!; [done..|].
    unfold grant. by destruct (cr_mode rv).
  - left. eexists. split; [done|]. apply quiet_put; rewrite Hl; [done|done|].
    apply leases_ok_drop_pending.
Qed.

Record can_inv (st : CanLeaseState) : Prop := {
  ci_ok : ∀ r, leases_ok (leases_of (cls_table st) r);
  ci_exposed : ∀ r tok, (r, tok) ∈ cls_exposed st →
    1 <= token_generation tok <= last_generation (leases_of (cls_table st) r);
  ci_granted : ∀ r s m e, granted (leases_of (cls_table st) r) s m e →
    (r, le_token e) ∈ cls_exposed st;
  ci_unique : ∀ r tok tok', (r, tok) ∈ cls_exposed st → (r, tok') ∈ cls_exposed st →
    token_generation tok = token_generation tok' → tok = tok';
}.

Lemma can_inv_init : can_inv CanLeaseState_init.
Proof.
  split; simpl; try set_solver.
  - intros r. unfold leases_of. simpl. rewrite lookup_empty. apply leases_ok_default.
  - intros r s m e. unfold leases_of. simpl. rewrite lookup_empty. simpl.
    destruct m; simpl; set_solver.
Qed.

Lemma can_inv_quiet t t' ex r :
  quiet t t' r → can_inv (mkCanLeaseState t ex) → can_inv (mkCanLeaseState t' ex).
Proof.
  intros [Ho Hg Hs Hok] [Iok Iex Igr Iu]. split; simpl in *.
  - intros r'. destruct (decide (r' = r)) as [->|]; [auto|by rewrite Ho].
  - intros r' tok Hin. destruct (decide (r' = r)) as [->|]; [rewrite Hg; auto|rewrite Ho; auto].
  - intros r' s m e. destruct (decide (r' = r)) as [->|]; [eauto|rewrite Ho by done; eauto].
  - eauto.
Qed.

Lemma can_inv_commit t ex rv fresh t' tok :
  can_inv (mkCanLeaseState t ex) → CanLeaseTable_commit t rv fresh = (t', Ok tok) →
  can_inv (mkCanLeaseState t' ((cr_resource_id rv, tok) :: ex)).
Proof.
  intros [Iok Iex Igr Iu] [(e & [=] & _)|(tok' & [= <-] & Hmax & -> & Hp & ->)]%commit_can_inv.
  set (r := cr_resource_id rv) in *. set (l := leases_of t r) in *. simpl in *.
  assert (∀ tok, (r, tok) ∈ ex → token_generation tok ≠ last_generation l + 1) as Hnew.
  { intros tok Hin. apply Iex in Hin. fold l in Hin. lia. }
  split; simpl.
  - intros r'. rewrite leases_of_put. case_decide; [|auto].
    eapply leases_ok_grant; [apply Iok|done|done|done|done|done|done].
  - intros r' tok. rewrite leases_of_put, elem_of_cons. intros [[= -> ->]|Hin]; simpl.
    + rewrite decide_True by done. pose proof (lo_generation _ (Iok r)) as Hlast. fold l in Hlast.
      destruct (cr_mode rv); simpl; lia.
    + apply Iex in Hin. case_decide; [subst r'; fold l in Hin|done].
      destruct (cr_mode rv); simpl; lia.
  - intros r' s m e. rewrite leases_of_put. case_decide; [|right; eauto].
    intros [(->&->&->)|Hg]%granted_grant; [subst; by left| |done]. subst r'. right. eauto.
  - intros r' tok1 tok2. rewrite !elem_of_cons. intros [[= -> ->]|H1] [E2|H2]; simpl; intros Heq.
    + by injection E2 as ->.
    + by destruct (Hnew _ H2).
    + injection E2 as -> ->. simpl in Heq. by destruct (Hnew _ H1).
    + eauto.
Qed.

Lemma can_inv_step st st' : can_lease_step st st' → can_inv st → can_inv st'.
Proof.
  intros [] Hinv.
  - by eapply can_inv_quiet; [eapply reserve_quiet|].
  - destruct res as [tok|e]; [by eapply can_inv_commit|].
    apply commit_can_inv in H as [(? & _ & Hq)|(? & [=] & _)]. by eapply can_inv_quiet.
  - by eapply can_inv_quiet; [eapply cancel_quiet|].
  - by eapply can_inv_quiet; [eapply release_quiet|].
Qed.

Lemma can_inv_reachable st : rtc can_lease_step CanLeaseState_init st → can_inv st.
Proof.
  intros H. assert (∀ st0, rtc can_lease_step st0 st → can_inv st0 → can_inv st) as Hs.
  { induction 1; eauto using can_inv_step. }
  eapply Hs; [done|apply can_inv_init].
Qed.

(** No resource keeps an entry that says nothing: entries created on demand by a
    reservation disappear with it. *)
Definition kept (t : CanLeaseTable) : Prop :=
  ∀ r, resources t !! r ≠ Some ResourceLeases_default.

Lemma kept_put t r l : kept t → l ≠ ResourceLeases_default → kept (put_leases t r l).
Proof.
  intros Hk Hl r'. unfold put_leases. simpl.
  intros [[-> ?]|[? ?]]%lookup_insert_Some; [done|by apply (Hk r')].
Qed.

Lemma kept_put_generation t r l : kept t → 1 <= last_generation l → kept (put_leases t r l).
Proof. intros Hk Hl. apply kept_put; [done|]. intros ->. simpl in Hl. lia. Qed.

Lemma kept_reserve t r s o m fresh t' res :
  CanLeaseTable_reserve t r s o m fresh = (t', res) → kept t → kept t'.
Proof.
  intros [(e & -> & -> & Hw)|(_ & _ & _ & ->)]%reserve_inv Hk; apply kept_put; try done.
  - intros Hd. rewrite Hd in Hw. by destruct Hw, m.
  - intros [= _ Hp _ _ _]. by apply (insert_non_empty (pending (leases_of t r)) s
      (mkPendingEntry fresh o m)).
Qed.

Lemma kept_commit st rv fresh t' res :
  can_inv st → CanLeaseTable_commit (cls_table st) rv fresh = (t', res) →
  kept (cls_table st) → kept t'.
Proof.
  intros Hinv. unfold CanLeaseTable_commit.
  destruct (resources _ !! _) as [l|] eqn:Hl; [|by intros [= <- _]].
  apply leases_of_Some in Hl. pose proof (lo_generation _ (ci_ok _ Hinv (cr_resource_id rv))) as Hg.
  rewrite Hl in Hg.
  destruct (pending l !! _) as [p|]; [|by intros [= <- _]].
  destruct (negb _); [by intros [= <- _]|].
  destruct (checked_add _ _ _) as [g|] eqn:Hc; intros [= <- _] Hk; apply kept_put_generation; try done.
  - apply checked_add_Some in Hc as [-> ?]. destruct (cr_mode rv); simpl; lia.
  - apply checked_add_None in Hc. simpl. unfold u64_max in *. lia.
Qed.

Lemma kept_cancel t rv t' ok : CanLeaseTable_cancel t rv = (t', ok) → kept t → kept t'.
Proof.
  unfold CanLeaseTable_cancel. destruct (resources t !! _) as [l|]; [|by intros [= <- _]].
  destruct (negb _); [by intros [= <- _]|].
  destruct (_ && _) eqn:He; intros [= <- _] Hk.
  - intros r'. simpl. intros [_ ?]%lookup_delete_Some. by apply (Hk r').
  - apply kept_put; [done|]. intros Hd. rewrite Hd in He. done.
Qed.

Lemma release_granted t r s tok t' :
  CanLeaseTable_release t r s tok = (t', true) →
  ∃ m e, granted (leases_of t r) s m e ∧ le_token e = tok ∧
    resources t !! r = Some (leases_of t r) ∧
    ∃ l', t' = put_leases t r l' ∧ last_generation l' = last_generation (leases_of t r).
Proof.
  unfold CanLeaseTable_release. destruct (resources t !! r) as [l|] eqn:Hl; [|done].
  apply leases_of_Some in Hl. rewrite Hl.
  destruct (is_some_and _ (observes l !! s)) eqn:Ho.
  { apply is_some_and_true in Ho as (e & He & Ht). bool_simp. intros [= <-].
    exists Observe, e. eauto 10. }
  destruct (is_some_and _ (control l)) eqn:Hc.
  { apply is_some_and_true in Hc as (e & He & Ht). bool_simp. intros [= <-].
    exists Control, e. simpl. eauto 10. }
  destruct (is_some_and _ (maintenance l)) eqn:Hm; [|done].
  apply is_some_and_true in Hm as (e & He & Ht). bool_simp. intros [= <-].
  exists Maintenance, e. simpl. eauto 10.
Qed.

Lemma release_false t r s tok t' : CanLeaseTable_release t r s tok = (t', false) → t' = t.
Proof.
  unfold CanLeaseTable_release. destruct (resources t !! r) as [l|]; [|by intros [= <-]].
  repeat (destruct (is_some_and _ _)); try done. by intros [= <-].
Qed.

Lemma kept_release st r s tok t' ok :
  can_inv st → CanLeaseTable_release (cls_table st) r s tok = (t', ok) →
  kept (cls_table st) → kept t'.
Proof.
  intros Hinv Hr Hk. destruct ok; [|by apply release_false in Hr as ->].
  apply release_granted in Hr as (m & e & Hg & _ & _ & l' & -> & Hl).
  apply kept_put_generation; [done|].
  apply (lo_entries _ (ci_ok _ Hinv r)) in Hg as (_ & _ & ?). lia.
Qed.

Lemma kept_reachable st : rtc can_lease_step CanLeaseState_init st → kept (cls_table st).
Proof.
  intros H. assert (∀ st0, rtc can_lease_step st0 st → can_inv st0 → kept (cls_table st0) →
    kept (cls_table st)) as Hs.
  { induction 1 as [|x y z Hxy _ IH]; [done|]. intros Hinv Hk.
    apply IH; [done|by eapply can_inv_step|]. destruct Hxy; simpl in *.
    - by eapply kept_reserve.
    - by eapply (kept_commit (mkCanLeaseState t ex)).
    - by eapply kept_cancel.
    - by eapply (kept_release (mkCanLeaseState t ex)). }
  eapply Hs; [done|apply can_inv_init|]. intros r. simpl. by rewrite lookup_empty.
Qed.

(** ** Theorems *)
(** C3: mutual exclusion.  In every reachable table, two sessions that hold leases
    on the same CAN resource, committed or still provisional, hold compatible modes:
    several observers, at most one controller beside them, and nobody beside a
    maintainer; and a session holds at most one lease. *)
Theorem can_leases_exclusive st r s m ph s' m' ph' :
  rtc can_lease_step CanLeaseState_init st →
  held (leases_of (cls_table st) r) s m ph →
  held (leases_of (cls_table st) r) s' m' ph' →
  (s = s' ∧ m = m' ∧ ph = ph') ∨ (s ≠ s' ∧ compatible m m' = true).
Proof. intros Hr%can_inv_reachable. apply (lo_exclusive _ (ci_ok _ Hr r)). Qed.

(** [reserve] is exact: it refuses exactly the requests that the contract
    forbids.  It succeeds if and only if the session holds nothing on the resource
    and the mode is compatible with every lease held, provisional ones included. *)
Theorem can_reserve_exact t r s o m fresh :
  is_ok (CanLeaseTable_reserve t r s o m fresh).2 = true ↔
  (∀ m' ph, ¬ held (leases_of t r) s m' ph) ∧
  (∀ s' m' ph, held (leases_of t r) s' m' ph → compatible m m' = true).
Proof.
  destruct (CanLeaseTable_reserve t r s o m fresh) as [t' res] eqn:Hres. simpl.
  apply reserve_inv in Hres as [(e & -> & _ & Hwhy)|(Hs & Hi & -> & _)]; simpl; (split; [|try done]).
  - done.
  - intros [Hno Hcomp]. destruct Hwhy as [(m' & ph & Hh)%session_holds_true|
      (s' & m' & ph & Hh & Hc)%reserve_incompatible_true].
    + by destruct (Hno m' ph).
    + by rewrite (Hcomp s' m' ph) in Hc.
  - intros _. apply not_true_iff_false in Hs, Hi.
    rewrite session_holds_true in Hs. rewrite reserve_incompatible_true in Hi.
    split; [naive_solver|]. intros s' m' ph Hh. apply not_false_iff_true. naive_solver.
Qed.

(** Cancelling is exact: a reservation that is cancelled before its commit
    leaves the table as it was before, so the resource is free again and no
    generation is consumed. *)
Theorem can_reserve_cancel st r s o m fresh t' rv :
  rtc can_lease_step CanLeaseState_init st →
  CanLeaseTable_reserve (cls_table st) r s o m fresh = (t', Ok rv) →
  CanLeaseTable_cancel t' rv = (cls_table st, true).
Proof.
  intros Hnd%kept_reachable. specialize (Hnd r). revert Hnd. generalize (cls_table st) as t.
  intros t Hnd [(e & [=] & _)|(Hs & Hi & [= ->] & ->)]%reserve_inv.
  unfold CanLeaseTable_cancel, put_leases. simpl. rewrite lookup_insert_eq. simpl.
  rewrite lookup_insert_eq. simpl. rewrite (proj2 (pending_matches_true _ _)) by done. simpl.
  assert (pending (leases_of t r) !! s = None) as Hp.
  { apply eq_None_not_Some. intros [p ?]. apply not_true_iff_false in Hs. destruct Hs.
    apply session_holds_true. exists (pe_mode p), Provisional. by exists p. }
  assert (set_pending (set_pending (leases_of t r) (<[s:=mkPendingEntry fresh o m]>
    (pending (leases_of t r)))) (delete s (<[s:=mkPendingEntry fresh o m]>
    (pending (leases_of t r)))) = leases_of t r) as ->.
  { rewrite delete_insert_id by done. by destruct (leases_of t r). }
  destruct t as [m0]. unfold leases_of in *. simpl in *.
  destruct (m0 !! r) as [l|] eqn:Hl; simpl in *.
  - destruct (_ && _) eqn:He; [|by rewrite insert_insert_eq, insert_id].
    bool_simp. apply is_empty_true in H0 as (Hpe & Ho & Hc & Hm).
    destruct Hnd. f_equal. destruct l; simpl in *. subst. done.
  - by rewrite delete_insert_id.
Qed.

Lemma active_entry_granted l s e :
  leases_ok l → active_entry l s = Some e ↔ ∃ m, granted l s m e.
Proof.
  intros [_ He _]. unfold active_entry. split.
  - destruct (observes l !! s) as [x|] eqn:Ho; [intros [= ->]; by exists Observe|].
    destruct (control l) as [x|] eqn:Hc; [case_bool_decide; [intros [= ->]; by exists Control|]|];
      (destruct (maintenance l) as [y|] eqn:Hm; [|done]; case_bool_decide; [|done];
       intros [= ->]; by exists Maintenance).
  - intros [m Hg].
    assert (∀ m' e', granted l s m' e' → m' = m) as Huniq.
    { intros m' e' Hg'. destruct (He s m' Granted s m Granted) as [(_&?&_)|[? _]];
        [by exists e'|by exists e|done|done]. }
    destruct (observes l !! s) as [x|] eqn:Ho.
    { assert (m = Observe) as -> by (symmetry; by apply (Huniq _ x)). simpl in Hg. congruence. }
    destruct m; simpl in Hg; [congruence| |]; destruct Hg as [Hg Hs]; rewrite Hg.
    + by rewrite bool_decide_eq_true_2.
    + destruct (control l) as [x|] eqn:Hc; [|by rewrite bool_decide_eq_true_2].
      case_bool_decide as Hx; [|by rewrite bool_decide_eq_true_2].
      by assert (Control = Maintenance) by (by apply (Huniq _ x)).
Qed.

(** What a token is told, as a function of the resource's leases. *)
Definition can_token_verdict (l : ResourceLeases) (s : SessionId) (o : OwnerId)
    (tok : LeaseToken) (required : LeaseMode) : option string :=
  match active_entry l s with
  | None => Some (if token_generation tok <? last_generation l
                  then "runtime.lease.stale_generation" else "runtime.session.closed")
  | Some a =>
      if decide (le_owner_id a = o) then
        if decide (le_token a = tok) then
          if mode_allows (token_mode (le_token a)) required then None
          else Some "runtime.lease.mode_denied"
        else Some (if token_generation tok <? token_generation (le_token a)
                   then "runtime.lease.stale_generation" else "runtime.lease.invalid_token")
      else Some "runtime.lease.owner_mismatch"
  end.

Lemma can_validate_verdict t r s o tok required op :
  valid_identifier op → 0 <= token_generation tok →
  match can_token_verdict (leases_of t r) s o tok required with
  | None => CanLeaseTable_validate t r s o tok required op = Ok ()
  | Some name => rejected_with name r (CanLeaseTable_validate t r s o tok required op)
  end.
Proof.
  intros Hop Hgen. unfold can_token_verdict, CanLeaseTable_validate, can_session_closed.
  destruct (resources t !! r) as [l|] eqn:Hl.
  2:{ unfold leases_of. rewrite Hl. simpl. rewrite (proj2 (Z.ltb_ge _ _)) by lia.
      apply rejected_with_intro; [solve_valid_identifier|done]. }
  apply leases_of_Some in Hl. rewrite Hl.
  destruct (active_entry l s) as [a|].
  2:{ destruct (_ <? _); apply rejected_with_intro; by try solve_valid_identifier. }
  case_decide; [rewrite bool_decide_eq_false_2 by naive_solver|rewrite bool_decide_eq_true_2 by done;
    apply rejected_with_intro; [solve_valid_identifier|done]].
  case_decide; [rewrite bool_decide_eq_false_2 by naive_solver|rewrite bool_decide_eq_true_2 by done;
    destruct (_ <? _); apply rejected_with_intro; by try solve_valid_identifier].
  destruct (mode_allows _ _); [done|]. apply rejected_with_intro; [solve_valid_identifier|done].
Qed.

Lemma can_validate_Ok st r s o tok required op :
  can_inv st → CanLeaseTable_validate (cls_table st) r s o tok required op = Ok () →
  ∃ m e, granted (leases_of (cls_table st) r) s m e ∧ le_owner_id e = o ∧ le_token e = tok ∧
    mode_allows m required = true.
Proof.
  intros Hinv. unfold CanLeaseTable_validate.
  destruct (resources _ !! r) as [l|] eqn:Hl; [|done]. apply leases_of_Some in Hl.
  pose proof (ci_ok _ Hinv r) as Hok. rewrite Hl in Hok |- *.
  destruct (active_entry l s) as [a|] eqn:Ha; [|by destruct (_ <? _)].
  apply active_entry_granted in Ha as [m Hg]; [|done].
  case_bool_decide; [done|]. case_bool_decide; [done|].
  destruct (mode_allows _ _) eqn:Hm; [|done]. intros _. exists m, a.
  destruct (lo_entries _ Hok _ _ _ Hg) as (_ & Hmode & _). rewrite Hmode in Hm.
  split_and!; try done; apply dec_stable; tauto.
Qed.

(** In every reachable table, [validate] accepts a token for a required mode
    exactly when the session has a committed lease with that owner and token whose
    mode permits the required one; every other request is refused with the error the
    verdict names (stale, closed, wrong owner, wrong token or mode denied). *)
Theorem can_validate_spec st r s o tok required op :
  rtc can_lease_step CanLeaseState_init st →
  valid_identifier op → 0 <= token_generation tok →
  let l := leases_of (cls_table st) r in
  (CanLeaseTable_validate (cls_table st) r s o tok required op = Ok () ↔
   ∃ m e, granted l s m e ∧ le_owner_id e = o ∧ le_token e = tok ∧
     mode_allows m required = true) ∧
  match can_token_verdict l s o tok required with
  | None => True
  | Some name =>
      rejected_with name r (CanLeaseTable_validate (cls_table st) r s o tok required op)
  end.
Proof.
  intros Hr%can_inv_reachable Hop Hgen l.
  pose proof (can_validate_verdict (cls_table st) r s o tok required op Hop Hgen) as Hv.
  fold l in Hv. split; [split|].
  - by apply can_validate_Ok.
  - intros (m & e & Hg & <- & <- & Hm).
    destruct (lo_entries _ (ci_ok _ Hr r) _ _ _ Hg) as (_ & Hmode & _).
    unfold can_token_verdict in Hv.
    rewrite (proj2 (active_entry_granted l s e (ci_ok _ Hr r))) in Hv by eauto.
    rewrite !decide_True, Hmode, Hm in Hv by done. done.
  - by destruct (can_token_verdict _ _ _ _ _).
Qed.

(** ** Fencing and permanence of revocation *)
Definition can_token_dead (r : ResourceId) (tok : LeaseToken) (st : CanLeaseState) : Prop :=
  (r, tok) ∈ cls_exposed st ∧
  ∀ s m e, granted (leases_of (cls_table st) r) s m e → le_token e ≠ tok.

Lemma can_token_dead_quiet t t' ex r r' tok :
  quiet t t' r' → can_token_dead r tok (mkCanLeaseState t ex) →
  can_token_dead r tok (mkCanLeaseState t' ex).
Proof.
  intros [Ho _ Hs _] [Hin Hne]. split; [done|]. simpl in *. intros s m e.
  destruct (decide (r = r')) as [->|]; [|rewrite Ho by done; eauto].
  intros Hg%Hs. eauto.
Qed.

Lemma can_token_dead_step r tok st st' :
  can_inv st → can_lease_step st st' → can_token_dead r tok st → can_token_dead r tok st'.
Proof.
  intros Hinv Hstep Hdead. destruct Hstep as [????????? H|????? res H|????? H|??????? H].
  - apply reserve_quiet in H. by eapply can_token_dead_quiet.
  - destruct (commit_can_inv _ _ _ _ _ H) as [(e & -> & Hq)|(tok' & -> & _ & -> & _ & ->)];
      simpl; [by eapply can_token_dead_quiet|].
    destruct Hdead as [Hin Hne]. split; [by right|]. simpl in *. intros s m e.
    rewrite leases_of_put. case_decide; [subst r|eauto].
    intros [(->&->&->)|Hg]%granted_grant; [simpl|eauto|done]. intros <-.
    apply (ci_exposed _ Hinv) in Hin. simpl in Hin. lia.
  - apply cancel_quiet in H. by eapply can_token_dead_quiet.
  - apply release_quiet in H. by eapply can_token_dead_quiet.
Qed.

(** CAN leases are fenced: every commit hands out a generation above all those
    handed out before for the resource, and a handed-out token that no longer backs a
    lease is refused for ever, for every session, owner, mode and operation. *)
Theorem can_lease_fencing st r :
  rtc can_lease_step CanLeaseState_init st →
  (∀ rv fresh t' tok, CanLeaseTable_commit (cls_table st) rv fresh = (t', Ok tok) →
     cr_resource_id rv = r →
     ∀ old, (r, old) ∈ cls_exposed st → token_generation old < token_generation tok) ∧
  (∀ tok st' s o required op, can_token_dead r tok st → rtc can_lease_step st st' →
     is_ok (CanLeaseTable_validate (cls_table st') r s o tok required op) = false).
Proof.
  intros Hr%can_inv_reachable. split.
  - intros rv fresh t' tok [(? & [=] & _)|(? & [= <-] & _ & -> & _)]%commit_can_inv <- old Hin.
    apply (ci_exposed _ Hr) in Hin. simpl. lia.
  - intros tok st' s o required op Hdead Hsteps.
    assert (can_inv st' ∧ can_token_dead r tok st') as [Hinv' [_ Hne]].
    { induction Hsteps as [|x y z Hxy _ IH]; [done|].
      apply IH; [by eapply can_inv_step|by eapply can_token_dead_step]. }
    destruct (CanLeaseTable_validate _ _ _ _ _ _ _) as [[]|] eqn:Hv; [|done].
    apply can_validate_Ok in Hv as (m & e & Hg & _ & <- & _); [|done].
    by destruct (Hne _ _ _ Hg).
Qed.

(** ** Concrete runs *)
Definition cx_res : ResourceId := mkResourceId "can:0".
Definition cx_session (n : Z) : SessionId := mkSessionId ("session-" +:+ to_string n).
Definition cx_owner : OwnerId := mkOwnerId "owner".
Definition cx_rv (n : Z) (m : LeaseMode) : CanReservation :=
  mkCanReservation cx_res (cx_session n) cx_owner (mkLeaseId "reservation") m.
Definition cx_token (g : Z) (m : LeaseMode) : LeaseToken := mkLeaseToken (mkLeaseId "lease") g m.

(** Reserve and commit mode [m] for session [n]. *)
Definition cx_open (st : CanLeaseState) (nm : Z * LeaseMode) : CanLeaseState :=
  let '(n, m) := nm in
  let t1 := (CanLeaseTable_reserve (cls_table st) cx_res (cx_session n) cx_owner m
               (mkLeaseId "reservation")).1 in
  let '(t2, res) := CanLeaseTable_commit t1 (cx_rv n m) (mkLeaseId "lease") in
  mkCanLeaseState t2 (exposes res cx_res (cls_exposed st)).
Definition cx_run (opens : list (Z * LeaseMode)) : CanLeaseState :=
  foldl cx_open CanLeaseState_init opens.

Lemma cx_run_reachable opens : rtc can_lease_step CanLeaseState_init (cx_run opens).
Proof.
  unfold cx_run. generalize CanLeaseState_init as st.
  induction opens as [|[n m] l IH]; intros st; simpl; [apply rtc_refl|].
  etransitivity; [|apply IH]. destruct st as [t ex]. simpl.
  destruct (CanLeaseTable_commit _ _ _) as [t2 res] eqn:Hc.
  eapply rtc_l; [by eapply can_step_reserve, surjective_pairing|].
  apply rtc_once. by apply (can_step_commit _ ex (cx_rv n m) (mkLeaseId "lease")).
Qed.

Lemma can_leases_exclusive_witness :
  (cx_session 1 = cx_session 2 ∧ Control = Observe ∧ Granted = Granted) ∨
  (cx_session 1 ≠ cx_session 2 ∧ compatible Control Observe = true).
Proof.
  apply (can_leases_exclusive (cx_run [(1, Control); (2, Observe)]) cx_res
           (cx_session 1) Control Granted (cx_session 2) Observe Granted).
  - apply cx_run_reachable.
  - eexists. split; vm_compute; reflexivity.
  - eexists. vm_compute. reflexivity.
Defined.

Lemma can_reserve_cancel_witness :
  CanLeaseTable_cancel
    (CanLeaseTable_reserve (cls_table (cx_run [(1, Control)])) cx_res (cx_session 2) cx_owner
       Observe (mkLeaseId "reservation")).1 (cx_rv 2 Observe)
  = (cls_table (cx_run [(1, Control)]), true).
Proof.
  apply (can_reserve_cancel (cx_run [(1, Control)]) cx_res (cx_session 2) cx_owner Observe
           (mkLeaseId "reservation")).
  - apply cx_run_reachable.
  - vm_compute. reflexivity.
Defined.

Lemma can_validate_spec_witness :
  rejected_with "runtime.lease.mode_denied" cx_res
    (CanLeaseTable_validate (cls_table (cx_run [(2, Observe)])) cx_res (cx_session 2) cx_owner
       (cx_token 1 Observe) Control "can.send").
Proof.
  exact (proj2 (can_validate_spec (cx_run [(2, Observe)]) cx_res (cx_session 2) cx_owner
    (cx_token 1 Observe) Control "can.send" (cx_run_reachable _)
    ltac:(solve_valid_identifier) ltac:(simpl; lia))).
Defined.

Lemma can_lease_fencing_witness :
  is_ok (CanLeaseTable_validate
    (cls_table (mkCanLeaseState
       (CanLeaseTable_release (cls_table (cx_run [(1, Control)])) cx_res (cx_session 1)
          (cx_token 1 Control)).1 (cls_exposed (cx_run [(1, Control)]))))
    cx_res (cx_session 1) cx_owner (cx_token 1 Control) Control "can.send") = false.
Proof.
  eapply (proj2 (can_lease_fencing (mkCanLeaseState
       (CanLeaseTable_release (cls_table (cx_run [(1, Control)])) cx_res (cx_session 1)
          (cx_token 1 Control)).1 (cls_exposed (cx_run [(1, Control)]))) cx_res _));
    [|apply rtc_refl].
  split; [vm_compute; left|].
  intros s [] e; vm_compute; [intros H|intros [H _]|intros [H _]]; discriminate H.
  Unshelve.
  eapply rtc_r; [apply (cx_run_reachable [(1, Control)])|].
  by eapply can_step_release, surjective_pairing.
Defined.
