(* ===== verification/SerialRegistry.v ===== *)
(** * robot-hal-runtime: serial registry and serial actors

    Models crates/robot-hal-serial/src/lib.rs (data and the [SerialSession] trait),
    crates/robot-hal-runtime/src/registry.rs, serial_actor.rs, and the serial part of
    lib.rs.  The registry is a value protected by one mutex; every method of it is one
    atomic step.  An actor is named by the session id of its metadata; the channels
    that its [ActorHandle] shares with the task (command queue, shutdown flag,
    completion) are a record of a store indexed by that name. *)

From S2P Require Import Prelude Core Lifecycle LeaseTable.

(** ** robot-hal-serial *)
Inductive DataBits := Five | Six | Seven | Eight.
Inductive Parity := ParityNone | ParityOdd | ParityEven.
Inductive StopBits := StopOne | StopTwo.
Inductive FlowControl := FlowNone | FlowSoftware | FlowHardware.
Record ControlLines := mkControlLines { data_terminal_ready : bool; request_to_send : bool }.
(** [read_timeout] in nanoseconds. *)
Record SerialConfig := mkSerialConfig {
  baud_rate : Z;
  data_bits : DataBits;
  parity : Parity;
  stop_bits : StopBits;
  flow_control : FlowControl;
  read_timeout : Z;
}.
Definition DataBits_default : DataBits := Eight.
Definition Parity_default : Parity := ParityNone.
Definition StopBits_default : StopBits := StopOne.
Definition FlowControl_default : FlowControl := FlowNone.
Definition SerialConfig_default : SerialConfig :=
  mkSerialConfig 115200 Eight ParityNone StopOne FlowNone 100000000.
Definition SERIAL_BYTES_CAPABILITY : string := "serial.bytes/v1".
Definition serial_bytes_capability : CapabilityId := mkCapabilityId SERIAL_BYTES_CAPABILITY.

Definition Bytes : Type := list Z.

(** The [SerialSession] trait; implementations are adapters outside the runtime. *)
Class SerialSession (S : Type) := {
  session_read : S → Z → S * HalResult Bytes;
  session_write_all : S → Bytes → S * HalResult unit;
  session_flush : S → S * HalResult unit;
  session_set_control_lines : S → ControlLines → S * HalResult unit;
}.

(** ** serial_actor.rs *)
Definition COMMAND_QUEUE_CAPACITY : Z := 64.

(** A command and the identity of its reply channel. *)
Inductive SerialCommand :=
  | CmdRead (max_bytes : Z) (reply : Z)
  | CmdWrite (bytes : Bytes) (reply : Z)
  | CmdFlush (reply : Z)
  | CmdSetControlLines (lines : ControlLines) (reply : Z).

Inductive CommandResult :=
  | ResBytes (r : HalResult Bytes)
  | ResUnit (r : HalResult unit).

Definition serial_session_closed (operation : string) : HalError :=
  runtime_error "runtime.session.closed" Conflict operation false "the serial session is closed".

(** The reply that [reject_closed] sends. *)
Definition SerialCommand_reject_closed (c : SerialCommand) : CommandResult :=
  match c with
  | CmdRead _ _ => ResBytes (Err (serial_session_closed "serial.read"))
  | CmdWrite _ _ => ResUnit (Err (serial_session_closed "serial.write"))
  | CmdFlush _ => ResUnit (Err (serial_session_closed "serial.flush"))
  | CmdSetControlLines _ _ => ResUnit (Err (serial_session_closed "serial.set_control_lines"))
  end.

(** The native operation a command stands for. *)
Definition run_command {S} `{SerialSession S} (session : S) (c : SerialCommand)
    : S * CommandResult :=
  match c with
  | CmdRead max_bytes _ => let '(s, r) := session_read session max_bytes in (s, ResBytes r)
  | CmdWrite bytes _ => let '(s, r) := session_write_all session bytes in (s, ResUnit r)
  | CmdFlush _ => let '(s, r) := session_flush session in (s, ResUnit r)
  | CmdSetControlLines lines _ =>
      let '(s, r) := session_set_control_lines session lines in (s, ResUnit r)
  end.

(** [execute_command]: [shutdown] is the flag when the command starts; the biased
    [select!] takes the shutdown branch when the flag changes before the native
    operation completes, and then [interrupted] is the session the dropped operation
    left behind.  Result: session, reply, whether the actor loop stops. *)
Definition execute_command {S} `{SerialSession S} (session : S) (c : SerialCommand)
    (shutdown : bool) (interrupted : option S) : S * CommandResult * bool :=
  if shutdown then (session, SerialCommand_reject_closed c, true)
  else match interrupted with
       | Some session' => (session', SerialCommand_reject_closed c, true)
       | None => let '(session', r) := run_command session c in (session', r, false)
       end.

(** Where the actor task is: in its loop, past the loop, past the drain of the
    queue, or terminated (its channel ends are dropped). *)
Inductive ActorPhase := ARunning | AClosing | ADrained | ADone.
Global Instance ActorPhase_eq_dec : EqDecision ActorPhase.
Proof. solve_decision. Defined.

(** The channels between an [ActorHandle] and its task.  [ac_admitted] and
    [ac_replied] are ghost logs: the commands accepted by the queue and the replies
    sent, both oldest first. *)
Record ActorChannel := mkActorChannel {
  ac_queue : list SerialCommand;
  ac_inflight : option SerialCommand;
  ac_shutdown : bool;
  ac_completion : option (HalResult unit);
  ac_phase : ActorPhase;
  ac_admitted : list SerialCommand;
  ac_replied : list (SerialCommand * CommandResult);
}.
Definition spawn_serial_actor : ActorChannel := mkActorChannel [] None false None ARunning [] [].

Definition ActorHandle_try_enqueue (a : ActorChannel) (command : SerialCommand)
    (operation : string) : HalResult ActorChannel :=
  if bool_decide (ac_phase a = ADone) then Err (serial_session_closed operation)
  else if COMMAND_QUEUE_CAPACITY <=? Z.of_nat (length (ac_queue a)) then
    Err (runtime_error "runtime.queue.full" Unavailable operation true
           "the bounded serial actor command queue has reached its 64-command capacity")
  else Ok (mkActorChannel (ac_queue a ++ [command]) (ac_inflight a) (ac_shutdown a)
             (ac_completion a) (ac_phase a) (ac_admitted a ++ [command]) (ac_replied a)).

Definition ActorHandle_request_close (a : ActorChannel) : ActorChannel :=
  mkActorChannel (ac_queue a) (ac_inflight a) true (ac_completion a) (ac_phase a)
    (ac_admitted a) (ac_replied a).

(** ** registry.rs *)
Definition CLOSED_SESSION_CAPACITY : Z := 256.

Record SessionEntry := mkSessionEntry {
  se_resource_id : ResourceId;
  se_owner_id : OwnerId;
  se_lease : LeaseToken;
  se_state : SessionLifecycle;
  se_actor : option SessionId;
  se_open_cancel : bool;
}.
Record Registry := mkRegistry {
  reg_leases : LeaseTable;
  reg_sessions : gmap SessionId SessionEntry;
  reg_closed_sessions : gmap SessionId LeaseToken;
  reg_closed_order : list SessionId;
}.
Definition Registry_default : Registry := mkRegistry LeaseTable_default ∅ ∅ [].

Inductive CloseAction :=
  | AlreadyClosed
  | WaitActor (actor : SessionId) (resource_id : ResourceId).

Definition SessionEntry_set_state (e : SessionEntry) (st : SessionLifecycle) : SessionEntry :=
  mkSessionEntry (se_resource_id e) (se_owner_id e) (se_lease e) st (se_actor e)
    (se_open_cancel e).
Definition SessionEntry_set_actor (e : SessionEntry) (a : SessionId) : SessionEntry :=
  mkSessionEntry (se_resource_id e) (se_owner_id e) (se_lease e) (se_state e) (Some a)
    (se_open_cancel e).
Definition SessionEntry_cancel (e : SessionEntry) : SessionEntry :=
  mkSessionEntry (se_resource_id e) (se_owner_id e) (se_lease e) (se_state e) (se_actor e)
    true.

Definition Registry_reserve_open (reg : Registry) (resource_id : ResourceId)
    (session_id : SessionId) (owner_id : OwnerId) (fresh : LeaseId)
    : Registry * HalResult LeaseToken :=
  let '(leases, res) :=
    LeaseTable_reserve_control (reg_leases reg) resource_id session_id owner_id fresh in
  match res with
  | Err e => (mkRegistry leases (reg_sessions reg) (reg_closed_sessions reg)
                (reg_closed_order reg), Err e)
  | Ok lease =>
      (mkRegistry leases
         (<[session_id := mkSessionEntry resource_id owner_id lease Opening None false]>
            (reg_sessions reg))
         (reg_closed_sessions reg) (reg_closed_order reg), Ok lease)
  end.

Definition put_entry (reg : Registry) (s : SessionId) (e : SessionEntry) : Registry :=
  mkRegistry (reg_leases reg) (<[s := e]> (reg_sessions reg)) (reg_closed_sessions reg)
    (reg_closed_order reg).
Definition put_lease_table (reg : Registry) (t : LeaseTable) : Registry :=
  mkRegistry t (reg_sessions reg) (reg_closed_sessions reg) (reg_closed_order reg).

Definition Registry_finish_open (reg : Registry) (session_id : SessionId) (actor : SessionId)
    (events : EventPublisher) : Registry * EventPublisher * bool :=
  match reg_sessions reg !! session_id with
  | None => (reg, events, false)
  | Some entry =>
      let entry := SessionEntry_set_actor entry actor in
      let reg := put_entry reg session_id entry in
      if SessionLifecycle_is_closing (se_state entry) then (reg, events, false)
      else
        let '(leases, committed) :=
          LeaseTable_commit (reg_leases reg) (se_resource_id entry) session_id (se_lease entry) in
        let reg := put_lease_table reg leases in
        if negb committed then (reg, events, false)
        else match SessionLifecycle_commit_open (se_state entry) "serial.open" with
             | Err _ => (reg, events, false)
             | Ok state =>
                 (put_entry reg session_id (SessionEntry_set_state entry state),
                  EventPublisher_publish events SessionOpened (se_resource_id entry) session_id
                    (se_owner_id entry) (token_generation (se_lease entry)), true)
             end
  end.

(** The second component is the value sent on the entry's [done] channel, if any. *)
Definition Registry_cancel_open (reg : Registry) (session_id : SessionId)
    : Registry * option (HalResult unit) :=
  match reg_sessions reg !! session_id with
  | None => (reg, None)
  | Some entry =>
      (mkRegistry (LeaseTable_release (reg_leases reg) (se_resource_id entry) session_id).1
         (delete session_id (reg_sessions reg)) (reg_closed_sessions reg) (reg_closed_order reg),
       Some (Ok ()))
  end.

Definition session_not_found (operation : string) : HalError :=
  runtime_error "runtime.session.not_found" NotFound operation false
    "the serial session ID is unknown".
Definition registry_session_closed (operation : string) : HalError :=
  runtime_error "runtime.session.closed" Conflict operation false "the serial session is closed".

Definition validate_closed_lease (closed supplied : LeaseToken) (operation : string)
    : HalResult unit :=
  if token_generation supplied <? token_generation closed then
    Err (runtime_error "runtime.lease.stale_generation" Conflict operation false
           "the supplied lease generation predates the closed session generation")
  else if bool_decide (supplied ≠ closed) then
    Err (runtime_error "runtime.lease.invalid_token" Conflict operation false
           "the supplied lease token does not match the closed session")
  else Ok ().

Definition Registry_missing_session_error (reg : Registry) (session_id : SessionId)
    (lease : LeaseToken) (operation : string) : HalError :=
  match reg_closed_sessions reg !! session_id with
  | None => session_not_found operation
  | Some closed =>
      match validate_closed_lease closed lease operation with
      | Ok _ => registry_session_closed operation
      | Err error => error
      end
  end.

Definition Registry_closed_close_result (reg : Registry) (session_id : SessionId)
    (lease : LeaseToken) : HalResult CloseAction :=
  match reg_closed_sessions reg !! session_id with
  | None => Err (session_not_found "serial.close")
  | Some closed =>
      validate_closed_lease closed lease "serial.close" ≫= λ _, Ok AlreadyClosed
  end.

(** [enqueue] changes only the actor's command channel. *)
Definition Registry_enqueue (reg : Registry) (actors : gmap SessionId ActorChannel)
    (session_id : SessionId) (lease : LeaseToken) (command : SerialCommand) (operation : string)
    : gmap SessionId ActorChannel * HalResult ResourceId :=
  match reg_sessions reg !! session_id with
  | None => (actors, Err (Registry_missing_session_error reg session_id lease operation))
  | Some entry =>
      let at_resource e := HalError_with_resource_id e (se_resource_id entry) in
      match LeaseTable_validate (reg_leases reg) (se_resource_id entry) session_id
              (se_owner_id entry) lease operation with
      | Err e => (actors, Err e)
      | Ok _ =>
          match SessionLifecycle_admit_io (se_state entry) operation with
          | Err e => (actors, Err (at_resource e))
          | Ok _ =>
              match se_actor entry ≫= λ a, pair a <$> actors !! a with
              | None =>
                  (actors, Err (at_resource (runtime_error "runtime.actor.unavailable" Internal
                     operation false "the active serial session has no actor")))
              | Some (a, channel) =>
                  match ActorHandle_try_enqueue channel command operation with
                  | Err e => (actors, Err (at_resource e))
                  | Ok channel => (<[a := channel]> actors, Ok (se_resource_id entry))
                  end
              end
          end
      end
  end.

Definition Registry_begin_close (reg : Registry) (session_id : SessionId) (lease : LeaseToken)
    : Registry * HalResult CloseAction :=
  match reg_sessions reg !! session_id with
  | None => (reg, Registry_closed_close_result reg session_id lease)
  | Some entry =>
      match LeaseTable_validate (reg_leases reg) (se_resource_id entry) session_id
              (se_owner_id entry) lease "serial.close" with
      | Err e => (reg, Err e)
      | Ok _ =>
          match SessionLifecycle_begin_close (se_state entry) "serial.close" with
          | Err e => (reg, Err e)
          | Ok state =>
              let reg := put_entry reg session_id (SessionEntry_set_state entry state) in
              match se_actor entry with
              | None =>
                  (reg, Err (HalError_with_resource_id
                     (runtime_error "runtime.actor.unavailable" Internal "serial.close" false
                        "the serial session is still opening and has no actor")
                     (se_resource_id entry)))
              | Some actor => (reg, Ok (WaitActor actor (se_resource_id entry)))
              end
          end
      end
  end.

Record RevokeTarget := mkRevokeTarget {
  rt_session : SessionId;
  rt_actor : option SessionId;
  rt_resource_id : ResourceId;
}.
Definition revoke_entry (e : SessionEntry) : SessionEntry :=
  let state := match SessionLifecycle_begin_close (se_state e) "runtime.owner.revoke" with
               | Ok state => state
               | Err _ => Closing
               end in
  let e := SessionEntry_set_state e state in
  if is_none (se_actor e) then SessionEntry_cancel e else e.
Definition Registry_begin_revoke (reg : Registry) (owner_id : OwnerId)
    : Registry * list RevokeTarget :=
  let mine e := bool_decide (se_owner_id e = owner_id) in
  (mkRegistry (reg_leases reg)
     ((λ e, if mine e then revoke_entry e else e) <$> reg_sessions reg)
     (reg_closed_sessions reg) (reg_closed_order reg),
   (λ '(s, e), mkRevokeTarget s (se_actor e) (se_resource_id e)) <$>
     List.filter (λ se, mine se.2) (map_to_list (reg_sessions reg))).

(** The eviction loop of [remember_closed]. *)
Fixpoint evict_closed (order : list SessionId) (closed : gmap SessionId LeaseToken)
    : list SessionId * gmap SessionId LeaseToken :=
  match order with
  | [] => ([], closed)
  | expired :: rest =>
      if CLOSED_SESSION_CAPACITY <=? Z.of_nat (length order)
      then evict_closed rest (delete expired closed)
      else (order, closed)
  end.
Definition Registry_remember_closed (reg : Registry) (session_id : SessionId)
    (lease : LeaseToken) : Registry :=
  if is_some (reg_closed_sessions reg !! session_id) then reg
  else
    let '(order, closed) := evict_closed (reg_closed_order reg) (reg_closed_sessions reg) in
    mkRegistry (reg_leases reg) (reg_sessions reg) (<[session_id := lease]> closed)
      (order ++ [session_id]).

Definition Registry_finish_close (reg : Registry) (session_id : SessionId)
    (events : EventPublisher) (close_result : HalResult unit)
    : Registry * EventPublisher * option (HalResult unit) :=
  match reg_sessions reg !! session_id with
  | None => (reg, events, None)
  | Some entry =>
      let '(leases, exposed) :=
        LeaseTable_release (reg_leases reg) (se_resource_id entry) session_id in
      let reg := mkRegistry leases (delete session_id (reg_sessions reg))
                   (reg_closed_sessions reg) (reg_closed_order reg) in
      if exposed then
        (Registry_remember_closed reg session_id (se_lease entry),
         EventPublisher_publish events SessionClosed (se_resource_id entry) session_id
           (se_owner_id entry) (token_generation (se_lease entry)), Some close_result)
      else (reg, events, Some close_result)
  end.

Definition Registry_retained_generation_count (reg : Registry) : Z :=
  LeaseTable_retained_generation_count (reg_leases reg).

(** ** The serial runtime as a transition system

    [ss_done] holds the values sent on the [done] channels; [ss_used] (the session ids
    drawn so far) and [ss_closed_log] (every exposed session closed so far, oldest
    first) are ghost state. *)
Record SerialState := mkSerialState {
  ss_registry : Registry;
  ss_events : EventPublisher;
  ss_actors : gmap SessionId ActorChannel;
  ss_done : gmap SessionId (HalResult unit);
  ss_used : gset SessionId;
  ss_closed_log : list (SessionId * LeaseToken);
}.
Definition SerialState_init : SerialState :=
  mkSerialState Registry_default EventPublisher_new ∅ ∅ ∅ [].

Definition send_done (done : gmap SessionId (HalResult unit)) (s : SessionId)
    (v : option (HalResult unit)) : gmap SessionId (HalResult unit) :=
  match v with Some r => <[s := r]> done | None => done end.

Definition close_actors (actors : gmap SessionId ActorChannel) (targets : list SessionId)
    : gmap SessionId ActorChannel :=
  foldr (λ s m, alter ActorHandle_request_close s m) actors targets.

(** First critical section of [open_serial]. *)
Definition open_reserve (st : SerialState) (r : ResourceId) (s : SessionId) (o : OwnerId)
    (fresh : LeaseId) : SerialState * HalResult LeaseToken :=
  let '(reg, res) := Registry_reserve_open (ss_registry st) r s o fresh in
  (mkSerialState reg (ss_events st) (ss_actors st) (ss_done st) ({[s]} ∪ ss_used st)
     (ss_closed_log st), res).

(** The failure path of [open_serial], and the drop of its [PendingOpen] guard. *)
Definition open_cancel (st : SerialState) (s : SessionId) : SerialState :=
  let '(reg, v) := Registry_cancel_open (ss_registry st) s in
  mkSerialState reg (ss_events st) (ss_actors st) (send_done (ss_done st) s v) (ss_used st)
    (ss_closed_log st).

(** [spawn_serial_actor] inside [open_serial]. *)
Definition open_spawn (st : SerialState) (s : SessionId) : SerialState :=
  mkSerialState (ss_registry st) (ss_events st) (<[s := spawn_serial_actor]> (ss_actors st))
    (ss_done st) (ss_used st) (ss_closed_log st).

(** Second critical section of [open_serial]; a refused actor is told to close. *)
Definition open_finish (st : SerialState) (s : SessionId) : SerialState * bool :=
  let '(reg, ev, accepted) := Registry_finish_open (ss_registry st) s s (ss_events st) in
  (mkSerialState reg ev
     (if accepted : bool then ss_actors st else close_actors (ss_actors st) [s])
     (ss_done st) (ss_used st) (ss_closed_log st), accepted).

(** The critical section of [request_serial]. *)
Definition serial_enqueue (st : SerialState) (s : SessionId) (lease : LeaseToken)
    (command : SerialCommand) (operation : string) : SerialState * HalResult ResourceId :=
  let '(actors, res) :=
    Registry_enqueue (ss_registry st) (ss_actors st) s lease command operation in
  (mkSerialState (ss_registry st) (ss_events st) actors (ss_done st) (ss_used st)
     (ss_closed_log st), res).

(** The critical section of [close_serial]. *)
Definition close_begin (st : SerialState) (s : SessionId) (lease : LeaseToken)
    : SerialState * HalResult CloseAction :=
  let '(reg, res) := Registry_begin_close (ss_registry st) s lease in
  (mkSerialState reg (ss_events st)
     (match res with
      | Ok (WaitActor a _) => close_actors (ss_actors st) [a]
      | _ => ss_actors st
      end) (ss_done st) (ss_used st) (ss_closed_log st), res).

(** The critical section of [revoke_serial_owner]. *)
Definition revoke_begin (st : SerialState) (o : OwnerId) : SerialState * list RevokeTarget :=
  let '(reg, targets) := Registry_begin_revoke (ss_registry st) o in
  (mkSerialState reg (ss_events st) (close_actors (ss_actors st) (omap rt_actor targets))
     (ss_done st) (ss_used st) (ss_closed_log st), targets).

(** *** The actor task (run_serial_actor) *)
Definition put_actor (st : SerialState) (s : SessionId) (a : ActorChannel) : SerialState :=
  mkSerialState (ss_registry st) (ss_events st) (<[s := a]> (ss_actors st)) (ss_done st)
    (ss_used st) (ss_closed_log st).

(** [commands.recv()] wins the select. *)
Definition actor_recv (a : ActorChannel) : option ActorChannel :=
  match ac_queue a with
  | c :: q => Some (mkActorChannel q (Some c) (ac_shutdown a) (ac_completion a) (ac_phase a)
                      (ac_admitted a) (ac_replied a))
  | [] => None
  end.
(** [execute_command] replied to the command in flight with [r]. *)
Definition actor_reply (a : ActorChannel) (r : CommandResult) (stop : bool)
    : option ActorChannel :=
  match ac_inflight a with
  | Some c => Some (mkActorChannel (ac_queue a) None (ac_shutdown a) (ac_completion a)
                      (if stop then AClosing else ac_phase a)
                      (ac_admitted a) (ac_replied a ++ [(c, r)]))
  | None => None
  end.
Definition actor_break (a : ActorChannel) : ActorChannel :=
  mkActorChannel (ac_queue a) (ac_inflight a) (ac_shutdown a) (ac_completion a) AClosing
    (ac_admitted a) (ac_replied a).
(** After [session.close()]: the loop [while let Ok(command) = commands.try_recv()]. *)
Definition actor_drain (a : ActorChannel) : ActorChannel :=
  mkActorChannel [] (ac_inflight a) (ac_shutdown a) (ac_completion a) ADrained (ac_admitted a)
    (ac_replied a ++ ((λ c, (c, SerialCommand_reject_closed c)) <$> ac_queue a)).
Definition actor_complete (a : ActorChannel) (result : HalResult unit) : ActorChannel :=
  mkActorChannel (ac_queue a) (ac_inflight a) (ac_shutdown a) (Some result) ADone
    (ac_admitted a) (ac_replied a).

(** The result of [session.close()] under the close deadline; [deadline] is the
    [Debug] rendering of the timeout. *)
Definition close_result_of (closed : option (HalResult unit)) (deadline : string)
    : HalResult unit :=
  match closed with
  | Some result => result
  | None => Err (runtime_error "runtime.session.close_timeout" Unavailable "serial.close" false
                   ("serial session close exceeded its " +:+ deadline +:+ " deadline"))
  end.

(** [finish_close] under the lock, then the completion is published. *)
Definition actor_finish (st : SerialState) (s : SessionId) (a : ActorChannel)
    (close_result : HalResult unit) : SerialState :=
  let '(reg, ev, v) := Registry_finish_close (ss_registry st) s (ss_events st) close_result in
  let exposed :=
    match reg_sessions (ss_registry st) !! s with
    | Some e => if (LeaseTable_release (reg_leases (ss_registry st)) (se_resource_id e) s).2
                then [(s, se_lease e)] else []
    | None => []
    end in
  mkSerialState reg ev (<[s := actor_complete a close_result]> (ss_actors st))
    (send_done (ss_done st) s v) (ss_used st) (ss_closed_log st ++ exposed).

Inductive serial_step : SerialState → SerialState → Prop :=
  (** [Uuid::new_v4] yields an id not drawn before. *)
  | serial_open_reserve st r s o fresh :
      s ∉ ss_used st → serial_step st (open_reserve st r s o fresh).1
  (** The adapter failed, the open was cancelled, or its future was dropped. *)
  | serial_open_cancel st s e :
      reg_sessions (ss_registry st) !! s = Some e → se_actor e = None →
      serial_step st (open_cancel st s)
  | serial_open_spawn st s e :
      reg_sessions (ss_registry st) !! s = Some e → se_actor e = None →
      ss_actors st !! s = None → serial_step st (open_spawn st s)
  | serial_open_finish st s e a :
      reg_sessions (ss_registry st) !! s = Some e → se_actor e = None →
      ss_actors st !! s = Some a → serial_step st (open_finish st s).1
  | serial_enqueue_step st s lease c op :
      serial_step st (serial_enqueue st s lease c op).1
  | serial_close_begin st s lease : serial_step st (close_begin st s lease).1
  | serial_revoke_begin st o : serial_step st (revoke_begin st o).1
  | serial_actor_recv st s a a' :
      ss_actors st !! s = Some a → ac_phase a = ARunning → ac_shutdown a = false →
      ac_inflight a = None → actor_recv a = Some a' → serial_step st (put_actor st s a')
  | serial_actor_exec {S} `{SerialSession S} st s a a' (session session' : S) c
      (shutdown : bool) interrupted r stop :
      ss_actors st !! s = Some a → ac_phase a = ARunning → ac_inflight a = Some c →
      ((shutdown = true ∨ is_some interrupted = true) → ac_shutdown a = true) →
      execute_command session c shutdown interrupted = (session', r, stop) →
      actor_reply a r stop = Some a' → serial_step st (put_actor st s a')
  (** Shutdown was requested, or every handle of the actor is gone. *)
  | serial_actor_break st s a :
      ss_actors st !! s = Some a → ac_phase a = ARunning → ac_inflight a = None →
      (ac_shutdown a = true ∨ reg_sessions (ss_registry st) !! s = None) →
      serial_step st (put_actor st s (actor_break a))
  | serial_actor_drain st s a :
      ss_actors st !! s = Some a → ac_phase a = AClosing →
      serial_step st (put_actor st s (actor_drain a))
  | serial_actor_finish st s a closed deadline :
      ss_actors st !! s = Some a → ac_phase a = ADrained →
      serial_step st (actor_finish st s a (close_result_of closed deadline)).

(** ** Invariant *)
(** A single actor: commands are answered in the order they were admitted, the
    queue is bounded, and nothing is left behind once the queue was drained. *)
Record actor_ok (a : ActorChannel) : Prop := {
  ao_fifo : ac_admitted a = (ac_replied a).*1 ++ option_list (ac_inflight a) ++ ac_queue a;
  ao_bound : Z.of_nat (length (ac_queue a)) <= COMMAND_QUEUE_CAPACITY;
  ao_inflight : ac_phase a ≠ ARunning → ac_inflight a = None;
  ao_drained : (ac_phase a = ADrained ∨ ac_phase a = ADone) → ac_queue a = [];
}.

(** What a session's entry, its lease and its actor look like together. *)
Definition entry_shape (actors : gmap SessionId ActorChannel) (s : SessionId)
    (e : SessionEntry) (l : ActiveLease) : Prop :=
  match se_actor e with
  | None =>
      se_state e ≠ Active ∧ al_committed l = false ∧
      (∀ a, actors !! s = Some a → a = spawn_serial_actor)
  | Some s' =>
      s' = s ∧ se_state e ≠ Opening ∧
      ∃ a, actors !! s = Some a ∧ ac_phase a ≠ ADone ∧
        (se_state e = Active →
         al_committed l = true ∧ ac_shutdown a = false ∧ ac_phase a = ARunning) ∧
        (se_state e = Closing → ac_shutdown a = true)
  end.

Definition lease_of_entry (s : SessionId) (e : SessionEntry) (l : ActiveLease) : Prop :=
  al_session_id l = s ∧ al_owner_id l = se_owner_id e ∧ al_token l = se_lease e.

Record serial_inv (st : SerialState) : Prop := {
  si_table : ∃ ex, lease_inv (mkLeaseState (reg_leases (ss_registry st)) ex);
  si_entry : ∀ s e, reg_sessions (ss_registry st) !! s = Some e →
    s ∈ ss_used st ∧ s ∉ (ss_closed_log st).*1 ∧
    ∃ l, active (reg_leases (ss_registry st)) !! se_resource_id e = Some l ∧
      lease_of_entry s e l ∧ entry_shape (ss_actors st) s e l;
  si_lease : ∀ r l, active (reg_leases (ss_registry st)) !! r = Some l →
    ∃ e, reg_sessions (ss_registry st) !! al_session_id l = Some e ∧ se_resource_id e = r;
  si_actor : ∀ s a, ss_actors st !! s = Some a → s ∈ ss_used st ∧ actor_ok a;
  si_log : ∀ s, s ∈ (ss_closed_log st).*1 → s ∈ ss_used st;
}.

Lemma serial_inv_init : serial_inv SerialState_init.
Proof.
  split; simpl.
  - exists []. apply lease_inv_init.
  - intros s e. by rewrite lookup_empty.
  - intros r l. by rewrite lookup_empty.
  - intros s a. by rewrite lookup_empty.
  - intros s. by rewrite elem_of_nil.
Qed.

(** *** Actors *)
Lemma actor_ok_spawn : actor_ok spawn_serial_actor.
Proof. split; simpl; try done. Qed.

Lemma actor_ok_enqueue a c op a' :
  actor_ok a → ac_phase a = ARunning →
  ActorHandle_try_enqueue a c op = Ok a' →
  actor_ok a' ∧ ac_admitted a' = ac_admitted a ++ [c] ∧
  ac_phase a' = ac_phase a ∧ ac_shutdown a' = ac_shutdown a.
Proof.
  intros [Hf Hb Hi Hd] Hp. unfold ActorHandle_try_enqueue.
  rewrite bool_decide_eq_false_2 by congruence.
  destruct (_ <=? _) eqn:Hlen; [done|]. bool_simp. intros [= <-]. simpl.
  split; [|done]. split; simpl.
  - by rewrite Hf, <- !app_assoc.
  - rewrite length_app. simpl. lia.
  - done.
  - rewrite Hp. by intros [?|?].
Qed.

Lemma actor_ok_request_close a : actor_ok a → actor_ok (ActorHandle_request_close a).
Proof. by intros []; split. Qed.

Lemma actor_ok_recv a a' :
  actor_ok a → ac_phase a = ARunning → ac_inflight a = None → actor_recv a = Some a' →
  actor_ok a'.
Proof.
  intros [Hf Hb Hi Hd] Hp Hin. unfold actor_recv. destruct (ac_queue a) as [|c q] eqn:Hq; [done|].
  intros [= <-]. rewrite Hin in Hf. split; simpl in *; [done|lia|congruence|].
  rewrite Hp. by intros [?|?].
Qed.

Lemma actor_ok_reply a c r stop a' :
  actor_ok a → ac_phase a = ARunning → ac_inflight a = Some c → actor_reply a r stop = Some a' →
  actor_ok a'.
Proof.
  intros [Hf Hb Hi Hd] Hp Hin. unfold actor_reply. rewrite Hin in Hf |- *. intros [= <-].
  split; simpl in *; [|done|done|].
  - by rewrite Hf, fmap_app, <- app_assoc.
  - rewrite Hp. destruct stop; by intros [?|?].
Qed.

Lemma actor_ok_break a : actor_ok a → ac_inflight a = None → actor_ok (actor_break a).
Proof. intros [Hf Hb Hi Hd] Hin. split; simpl; [done|done|done|by intros [?|?]]. Qed.

Lemma actor_ok_drain a : actor_ok a → ac_phase a = AClosing → actor_ok (actor_drain a).
Proof.
  intros [Hf Hb Hi Hd] Hp. assert (ac_inflight a = None) as Hin by (apply Hi; congruence).
  split; simpl; [|done|done|done].
  rewrite Hf, Hin, fmap_app, <- list_fmap_compose, !app_nil_r. simpl. f_equal.
  unfold compose. simpl. by rewrite list_fmap_id.
Qed.

Lemma actor_ok_complete a r : actor_ok a → ac_phase a = ADrained → actor_ok (actor_complete a r).
Proof.
  intros [Hf Hb Hi Hd] Hp. split; simpl; [done|done| |].
  - intros _. apply Hi. congruence.
  - intros _. apply Hd. by left.
Qed.
#[export] Hint Resolve actor_ok_spawn actor_ok_request_close actor_ok_break actor_ok_drain
  actor_ok_complete : hal.

Lemma close_actors_lookup actors targets s :
  close_actors actors targets !! s =
    if decide (s ∈ targets) then ActorHandle_request_close <$> actors !! s else actors !! s.
Proof.
  induction targets as [|t ts IH]; simpl; [done|].
  destruct (decide (s = t)) as [->|Hne].
  - rewrite lookup_alter_eq, IH, (decide_True (P := t ∈ t :: ts)) by (by left).
    case_decide; [|done]. by destruct (actors !! t).
  - rewrite lookup_alter_ne, IH by done.
    destruct (decide (s ∈ ts)), (decide (s ∈ t :: ts)); set_solver.
Qed.

Lemma close_actors_inv actors targets s a :
  close_actors actors targets !! s = Some a →
  ∃ a0, actors !! s = Some a0 ∧ (a = a0 ∧ s ∉ targets ∨ a = ActorHandle_request_close a0 ∧ s ∈ targets).
Proof.
  rewrite close_actors_lookup. case_decide; [|eauto].
  destruct (actors !! s) as [a0|]; [|done]. intros [= <-]. eauto.
Qed.

(** *** Registry steps *)
Section preservation.
Context (st : SerialState) (Hinv : serial_inv st).

Lemma entry_shape_frame actors actors' s e l :
  actors' !! s = actors !! s → entry_shape actors s e l → entry_shape actors' s e l.
Proof. unfold entry_shape. by intros ->. Qed.

Lemma used_fresh s : s ∉ ss_used st →
  reg_sessions (ss_registry st) !! s = None ∧ ss_actors st !! s = None ∧
  s ∉ (ss_closed_log st).*1.
Proof.
  intros Hs. split_and!.
  - apply eq_None_not_Some. intros [e He]. by apply (si_entry _ Hinv) in He as [? _].
  - apply eq_None_not_Some. intros [a Ha]. by apply (si_actor _ Hinv) in Ha as [? _].
  - intros ?%(si_log _ Hinv). done.
Qed.

(** Two entries never share a resource. *)
Lemma entry_resource_inj s s' e e' :
  reg_sessions (ss_registry st) !! s = Some e →
  reg_sessions (ss_registry st) !! s' = Some e' →
  se_resource_id e = se_resource_id e' → s = s'.
Proof.
  intros (_ & _ & l & Hl & (Hs & _) & _)%(si_entry _ Hinv)
         (_ & _ & l' & Hl' & (Hs' & _) & _)%(si_entry _ Hinv) Hr.
  rewrite Hr in Hl. congruence.
Qed.

Lemma serial_inv_reserve r s o fresh :
  s ∉ ss_used st → serial_inv (open_reserve st r s o fresh).1.
Proof.
  intros Hs. destruct (used_fresh s Hs) as (Hse & Hac & Hlog).
  destruct (si_table _ Hinv) as [ex Htab].
  unfold open_reserve, Registry_reserve_open.
  destruct (LeaseTable_reserve_control _ r s o fresh) as [t' res] eqn:Hres.
  pose proof (lease_inv_reserve _ _ _ _ _ _ _ _ Htab Hres) as Htab'.
  destruct res as [tok|err]; simpl.
  2:{ apply (reserve_control_Err (mkLeaseState _ ex)) in Hres as ->; [|done]. simpl in *.
      destruct Hinv as [? He ? Ha ?]. split; simpl; [eauto| |eauto| |set_solver].
      - intros s' e (?&?&?)%He. set_solver.
      - intros s' a (?&?)%Ha. set_solver. }
  apply reserve_control_Ok in Hres as (Hact & _ & _ & ->). simpl in *.
  split; simpl.
  - by exists ex.
  - intros s' e [[<- <-]|[Hne He]]%lookup_insert_Some; simpl.
    + split_and!; [set_solver|done|]. eexists. rewrite lookup_insert_eq.
      split_and!; [done..|]. split_and!; [done|done|]. intros a Ha. congruence.
    + apply (si_entry _ Hinv) in He as (?&?&l&Hl&?&?). split_and!; [set_solver|done|].
      exists l. rewrite lookup_insert_ne by congruence. eauto.
  - intros r' l [[<- <-]|[Hne Hl]]%lookup_insert_Some; simpl.
    + rewrite lookup_insert_eq. eauto.
    + apply (si_lease _ Hinv) in Hl as (e & He & <-). exists e.
      rewrite lookup_insert_ne by congruence. done.
  - intros s' a (?&?)%(si_actor _ Hinv). set_solver.
  - intros s' ?%(si_log _ Hinv). set_solver.
Qed.

(** Dropping an entry together with its lease. *)
Lemma serial_inv_drop s e t' ok ev actors dn log closed order :
  reg_sessions (ss_registry st) !! s = Some e →
  LeaseTable_release (reg_leases (ss_registry st)) (se_resource_id e) s = (t', ok) →
  (∀ s', s' ≠ s → actors !! s' = ss_actors st !! s') →
  (∀ a, actors !! s = Some a → actor_ok a) →
  (∀ s', s' ∈ log.*1 → s' ∈ (ss_closed_log st).*1 ∨ s' = s) →
  serial_inv (mkSerialState
    (mkRegistry t' (delete s (reg_sessions (ss_registry st))) closed order)
    ev actors dn (ss_used st) log).
Proof.
  intros He Hrel Hactors Hok Hlog.
  destruct (si_table _ Hinv) as [ex Htab].
  pose proof (lease_inv_release _ _ _ _ _ _ Htab Hrel) as Htab'.
  destruct (si_entry _ Hinv _ _ He) as (Hused & _ & l & Hl & (Hls & _ & _) & _).
  assert (active t' = delete (se_resource_id e) (active (reg_leases (ss_registry st)))) as Hact.
  { apply release_inv in Hrel as [(_ & _ & Hn)|(l' & Hl' & _ & _ & ? & _)]; [|done].
    by destruct (Hn _ Hl). }
  split; simpl.
  - by exists ex.
  - intros s' e' [Hne He']%lookup_delete_Some.
    apply (si_entry _ Hinv) in He' as Hs'. destruct Hs' as (?&?&l'&Hl'&?&?).
    split_and!; [done|intros [?|?]%Hlog; congruence|].
    exists l'. rewrite Hact, lookup_delete_ne.
    + split_and!; [done..|]. eapply entry_shape_frame; [|done]. by apply Hactors.
    + intros Heq. by destruct (entry_resource_inj s s' e e' He He' Heq).
  - intros r l' Hl'. rewrite Hact in Hl'. apply lookup_delete_Some in Hl' as [Hne Hl'].
    apply (si_lease _ Hinv) in Hl' as (e' & He' & <-). exists e'.
    rewrite lookup_delete_ne; [done|]. intros ->. congruence.
  - intros s' a Ha. destruct (decide (s' = s)) as [->|Hne]; [auto|].
    rewrite Hactors in Ha by done. by apply (si_actor _ Hinv).
  - intros s' [?%(si_log _ Hinv)| ->]%Hlog; done.
Qed.

Lemma serial_inv_cancel s e :
  reg_sessions (ss_registry st) !! s = Some e → serial_inv (open_cancel st s).
Proof.
  intros He. unfold open_cancel, Registry_cancel_open. rewrite He.
  destruct (LeaseTable_release _ _ _) as [t' ok] eqn:Hrel. simpl.
  eapply serial_inv_drop; eauto. intros a Ha. by apply (si_actor _ Hinv) in Ha as [_ ?].
Qed.

(** A step that changes actors and entries but neither leases nor ghost state. *)
Lemma serial_inv_entries sessions actors ev dn closed order :
  (∀ s e', sessions !! s = Some e' →
     ∃ e, reg_sessions (ss_registry st) !! s = Some e ∧
       se_resource_id e' = se_resource_id e ∧ se_owner_id e' = se_owner_id e ∧
       se_lease e' = se_lease e ∧
       ∀ l, entry_shape (ss_actors st) s e l → entry_shape actors s e' l) →
  (∀ s e, reg_sessions (ss_registry st) !! s = Some e →
     ∃ e', sessions !! s = Some e' ∧ se_resource_id e' = se_resource_id e) →
  (∀ s a, actors !! s = Some a → s ∈ ss_used st ∧ actor_ok a) →
  serial_inv (mkSerialState
    (mkRegistry (reg_leases (ss_registry st)) sessions closed order)
    ev actors dn (ss_used st) (ss_closed_log st)).
Proof.
  intros Hback Hfwd Hact. split; simpl.
  - apply (si_table _ Hinv).
  - intros s e' (e & He & -> & Ho & Ht & Hsh)%Hback.
    apply (si_entry _ Hinv) in He as (?&?&l&?&(?&?&?)&?).
    split_and!; [done..|]. exists l. split_and!; [done| |auto].
    split_and!; congruence.
  - intros r l (e & (e' & ? & ?)%Hfwd & <-)%(si_lease _ Hinv). eauto.
  - done.
  - apply (si_log _ Hinv).
Qed.

Lemma entries_same actors :
  (∀ s e l, reg_sessions (ss_registry st) !! s = Some e →
     entry_shape (ss_actors st) s e l → entry_shape actors s e l) →
  (∀ s a, actors !! s = Some a → s ∈ ss_used st ∧ actor_ok a) →
  ∀ ev dn, serial_inv (mkSerialState (ss_registry st) ev actors dn (ss_used st) (ss_closed_log st)).
Proof.
  intros Hsh Hact ev dn. destruct (ss_registry st) as [t se cl or] eqn:Hreg.
  pose proof (serial_inv_entries se actors ev dn cl or) as H. rewrite Hreg in H. simpl in H.
  apply H; eauto 10.
Qed.

Lemma serial_inv_spawn s e :
  reg_sessions (ss_registry st) !! s = Some e → se_actor e = None →
  ss_actors st !! s = None → serial_inv (open_spawn st s).
Proof.
  intros He Hn Ha. apply entries_same.
  - intros s' e' l He' Hsh. destruct (decide (s' = s)) as [->|Hne].
    + assert (e' = e) as -> by congruence. unfold entry_shape in *. rewrite Hn in *.
      destruct Hsh as (?&?&?). split_and!; [done..|]. intros a. rewrite lookup_insert_eq. congruence.
    + eapply entry_shape_frame; [|done]. by rewrite lookup_insert_ne.
  - intros s' a [[<- <-]|[? Ha']]%lookup_insert_Some.
    + split; [by apply (si_entry _ Hinv) in He as [? _]|auto with hal].
    + by apply (si_actor _ Hinv).
Qed.

(** What [finish_open] does to a pending open: it is refused when a revocation came
    first, and otherwise commits the lease and announces the session. *)
Lemma finish_open_eq s e a :
  reg_sessions (ss_registry st) !! s = Some e → se_actor e = None →
  ss_actors st !! s = Some a →
  a = spawn_serial_actor ∧ ∃ l,
  active (reg_leases (ss_registry st)) !! se_resource_id e = Some l ∧ lease_of_entry s e l ∧
  al_committed l = false ∧
  ((se_state e = Closing ∧
    Registry_finish_open (ss_registry st) s s (ss_events st)
    = (put_entry (ss_registry st) s (SessionEntry_set_actor e s), ss_events st, false)) ∨
   (se_state e = Opening ∧
    Registry_finish_open (ss_registry st) s s (ss_events st)
    = (mkRegistry
         (mkLeaseTable (current_generations (reg_leases (ss_registry st)))
            (<[se_resource_id e := ActiveLease_set_committed l]>
               (active (reg_leases (ss_registry st)))))
         (<[s := SessionEntry_set_state (SessionEntry_set_actor e s) Active]>
            (reg_sessions (ss_registry st)))
         (reg_closed_sessions (ss_registry st)) (reg_closed_order (ss_registry st)),
       EventPublisher_publish (ss_events st) SessionOpened (se_resource_id e) s (se_owner_id e)
         (token_generation (se_lease e)), true))).
Proof.
  intros He Hn Ha.
  destruct (si_entry _ Hinv _ _ He) as (_ & _ & l & Hl & (Hls & Hlo & Hlt) & Hsh).
  unfold entry_shape in Hsh. rewrite Hn in Hsh. destruct Hsh as (Hst & Hc & Hsp).
  split; [by apply Hsp|]. exists l. split_and!; [done..|].
  unfold Registry_finish_open. rewrite He. simpl.
  destruct (se_state e) eqn:Hstate; [right|done|left]; (split; [done|]); simpl; [|done].
  unfold LeaseTable_commit. simpl. rewrite Hl, Hls, Hlt.
  rewrite !bool_decide_eq_false_2 by naive_solver. simpl.
  unfold put_entry, put_lease_table. simpl. by rewrite insert_insert_eq.
Qed.

Lemma serial_inv_finish_open s e a :
  reg_sessions (ss_registry st) !! s = Some e → se_actor e = None →
  ss_actors st !! s = Some a → serial_inv (open_finish st s).1.
Proof.
  intros He Hn Ha. unfold open_finish.
  destruct (si_entry _ Hinv _ _ He) as (Hused & _).
  destruct (finish_open_eq s e a He Hn Ha) as (-> & l & Hl & Hle & Hc & [[Hst ->]|[Hst ->]]); simpl.
  - apply serial_inv_entries.
    + intros s' e' [[<- <-]|[Hne He']]%lookup_insert_Some.
      * exists e. split_and!; [done..|]. intros l' _. unfold entry_shape. simpl.
        rewrite Hst. split_and!; [done|done|]. exists (ActorHandle_request_close spawn_serial_actor).
        rewrite lookup_alter_eq, Ha. done.
      * exists e'. split_and!; [done..|]. intros l'. apply entry_shape_frame.
        by rewrite lookup_alter_ne.
    + intros s' e' He'. destruct (decide (s' = s)) as [->|].
      * rewrite lookup_insert_eq. eexists. split; [done|]. simpl. congruence.
      * rewrite lookup_insert_ne by done. eauto.
    + intros s' b. rewrite lookup_alter_Some. intros [(-> & b0 & Hb & ->)|(? & Hb)].
      * apply (si_actor _ Hinv) in Hb as [? ?]. auto with hal.
      * by apply (si_actor _ Hinv).
  - destruct (si_table _ Hinv) as [ex Htab].
    assert (lease_inv (mkLeaseState
      (mkLeaseTable (current_generations (reg_leases (ss_registry st)))
         (<[se_resource_id e := ActiveLease_set_committed l]>
            (active (reg_leases (ss_registry st)))))
      ((se_resource_id e, se_lease e) :: ex))) as Htab'.
    { eapply (lease_inv_commit _ ex (se_resource_id e) s (se_lease e) _ true); [exact Htab|].
      destruct Hle as (Hls & _ & Hlt).
      unfold LeaseTable_commit. rewrite Hl, Hls, Hlt.
      rewrite !bool_decide_eq_false_2 by naive_solver. simpl. done. }
    split; simpl.
    + eauto.
    + intros s' e' [[<- <-]|[Hne He']]%lookup_insert_Some; simpl.
      * destruct (si_entry _ Hinv _ _ He) as (_ & ? & _). split_and!; [done..|].
        eexists. rewrite lookup_insert_eq. split_and!; [done|done|].
        unfold entry_shape. simpl. split_and!; [done|done|]. eexists. split; [done|]. done.
      * apply (si_entry _ Hinv) in He' as Hs'. destruct Hs' as (?&?&l'&Hl'&?&?).
        split_and!; [done..|]. exists l'. rewrite lookup_insert_ne; [done|].
        intros Heq. by destruct (entry_resource_inj s s' e e' He He' Heq).
    + intros r l' [[<- <-]|[Hne Hl']]%lookup_insert_Some; simpl.
      * destruct Hle as (-> & _). rewrite lookup_insert_eq. eauto.
      * apply (si_lease _ Hinv) in Hl' as (e' & He' & <-).
        rewrite lookup_insert_ne by congruence. eauto.
    + apply (si_actor _ Hinv).
    + apply (si_log _ Hinv).
Qed.

(** [enqueue] succeeds exactly on an active session presented with its own lease,
    and appends to the queue of that session's running actor. *)
Lemma enqueue_inv s lease c op actors res :
  Registry_enqueue (ss_registry st) (ss_actors st) s lease c op = (actors, res) →
  (actors = ss_actors st ∧ is_ok res = false) ∨
  ∃ e a a', reg_sessions (ss_registry st) !! s = Some e ∧ se_state e = Active ∧
    se_actor e = Some s ∧ se_lease e = lease ∧ res = Ok (se_resource_id e) ∧
    ss_actors st !! s = Some a ∧ ac_phase a = ARunning ∧ ac_shutdown a = false ∧
    ActorHandle_try_enqueue a c op = Ok a' ∧ actors = <[s := a']> (ss_actors st).
Proof.
  unfold Registry_enqueue. destruct (reg_sessions _ !! s) as [e|] eqn:He;
    [|intros [= <- <-]; by left].
  destruct (LeaseTable_validate _ _ _ _ _ _) eqn:Hv; [|intros [= <- <-]; by left].
  destruct (SessionLifecycle_admit_io _ _) eqn:Had; [|intros [= <- <-]; by left].
  apply validate_Ok in Hv as (_ & l & Hl & _ & _ & Ht).
  destruct (si_entry _ Hinv _ _ He) as (_ & _ & l' & Hl' & (_ & _ & Ht') & Hsh).
  assert (se_state e = Active) as Hst.
  { unfold SessionLifecycle_admit_io in Had. case_bool_decide; [done|]. apply dec_stable; tauto. }
  unfold entry_shape in Hsh. destruct (se_actor e) as [s'|] eqn:Hac; simpl;
    [|by destruct Hsh as [? _]].
  destruct Hsh as (-> & _ & a & Ha & _ & Hact & _). rewrite Ha. simpl.
  destruct (ActorHandle_try_enqueue a c op) as [a'|] eqn:Hq; [|intros [= <- <-]; by left].
  intros [= <- <-]. right. exists e, a, a'. destruct (Hact Hst) as (_&?&?).
  split_and!; try done. congruence.
Qed.

Lemma serial_inv_enqueue s lease c op : serial_inv (serial_enqueue st s lease c op).1.
Proof.
  unfold serial_enqueue. destruct (Registry_enqueue _ _ _ _ _ _) as [actors res] eqn:Hq. simpl.
  apply enqueue_inv in Hq as [[-> _]|(e & a & a' & He & Hst & Hac & _ & _ & Ha & Hp & Hsd & Hen & ->)].
  { apply entries_same; [auto|]. apply (si_actor _ Hinv). }
  destruct (si_actor _ Hinv _ _ Ha) as [Hu Hok].
  destruct (actor_ok_enqueue _ _ _ _ Hok Hp Hen) as (Hok' & _ & Hp' & Hs').
  apply entries_same.
  - intros s' e' l He' Hsh. destruct (decide (s' = s)) as [->|].
    + assert (e' = e) as -> by congruence. unfold entry_shape in *. rewrite Hac in *.
      destruct Hsh as (_ & ? & b & Hb & Hd & Hact & Hcl). split_and!; [done..|].
      exists a'. rewrite lookup_insert_eq. assert (b = a) as -> by congruence.
      rewrite Hp', Hs'. split_and!; done || congruence.
    + eapply entry_shape_frame; [|done]. by rewrite lookup_insert_ne.
  - intros s' b [[<- <-]|[? Hb]]%lookup_insert_Some; [done|]. by apply (si_actor _ Hinv).
Qed.

(** Shapes survive a close request on a closing entry. *)
Lemma entry_shape_close actors s e l :
  entry_shape (ss_actors st) s e l →
  (∀ a, ss_actors st !! s = Some a → se_actor e = Some s →
     actors !! s = Some (ActorHandle_request_close a)) →
  (se_actor e = None → actors !! s = ss_actors st !! s) →
  entry_shape actors s (SessionEntry_set_state e Closing) l.
Proof.
  unfold entry_shape. intros Hsh Hreq Hsame. simpl. destruct (se_actor e) as [s'|].
  - destruct Hsh as (-> & _ & a & Ha & Hd & _). split_and!; [done..|].
    exists (ActorHandle_request_close a). rewrite (Hreq _ Ha) by done. done.
  - destruct Hsh as (_ & ? & ?). split_and!; [done..|]. by rewrite Hsame.
Qed.

Lemma begin_close_closing lc op : SessionLifecycle_begin_close lc op = Ok Closing.
Proof. by destruct lc. Qed.

Lemma serial_inv_close_begin s lease : serial_inv (close_begin st s lease).1.
Proof.
  unfold close_begin, Registry_begin_close.
  destruct (reg_sessions _ !! s) as [e|] eqn:He.
  2:{ unfold Registry_closed_close_result. simpl.
      assert (serial_inv (mkSerialState (ss_registry st) (ss_events st) (ss_actors st)
        (ss_done st) (ss_used st) (ss_closed_log st))) by (by destruct st).
      destruct (reg_closed_sessions _ !! s); simpl; [|done].
      by destruct (validate_closed_lease _ _ _). }
  destruct (LeaseTable_validate _ _ _ _ _ _); [|by destruct st].
  rewrite begin_close_closing.
  destruct (si_entry _ Hinv _ _ He) as (Hu & _ & l0 & _ & _ & Hsh0).
  assert (∀ s0, se_actor e = Some s0 → s0 = s) as Hself.
  { intros s0 Hs0. unfold entry_shape in Hsh0. rewrite Hs0 in Hsh0. by destruct Hsh0. }
  assert (∀ actors ev dn,
    (∀ s', s' ≠ s → actors !! s' = ss_actors st !! s') →
    (∀ a, ss_actors st !! s = Some a → se_actor e = Some s →
       actors !! s = Some (ActorHandle_request_close a)) →
    (se_actor e = None → actors !! s = ss_actors st !! s) →
    serial_inv (mkSerialState (put_entry (ss_registry st) s (SessionEntry_set_state e Closing))
      ev actors dn (ss_used st) (ss_closed_log st))) as Hgen.
  { intros actors ev dn Hother Hreq Hsame. apply serial_inv_entries.
    - intros s' e' [[<- <-]|[Hne He']]%lookup_insert_Some.
      + exists e. split_and!; [done..|]. intros l Hsh. by apply entry_shape_close.
      + exists e'. split_and!; [done..|]. intros l. apply entry_shape_frame. auto.
    - intros s' e' He'. destruct (decide (s' = s)) as [->|].
      + rewrite lookup_insert_eq. eexists. split; [done|]. simpl. congruence.
      + rewrite lookup_insert_ne by done. eauto.
    - intros s' a Ha. destruct (decide (s' = s)) as [->|];
        [|rewrite Hother in Ha by done; by apply (si_actor _ Hinv)].
      split; [done|]. destruct (se_actor e) as [s0|] eqn:Hac.
      + assert (s0 = s) as -> by auto. unfold entry_shape in Hsh0. rewrite Hac in Hsh0.
        destruct Hsh0 as (_ & _ & a0 & Ha0 & _).
        rewrite (Hreq _ Ha0) in Ha by done. injection Ha as <-.
        apply (si_actor _ Hinv) in Ha0 as [_ ?]. auto with hal.
      + rewrite Hsame in Ha by done. by apply (si_actor _ Hinv) in Ha as [_ ?]. }
  destruct (se_actor e) as [s0|] eqn:Hac; simpl; apply Hgen; try done.
  - assert (s0 = s) as -> by auto. intros s' Hne. by rewrite lookup_alter_ne.
  - assert (s0 = s) as -> by auto. intros a Ha _. by rewrite lookup_alter_eq, Ha.
Qed.

Lemma revoke_targets_actors o s :
  s ∈ omap rt_actor (Registry_begin_revoke (ss_registry st) o).2 ↔
  ∃ e, reg_sessions (ss_registry st) !! s = Some e ∧ se_owner_id e = o ∧ se_actor e = Some s.
Proof.
  unfold Registry_begin_revoke. simpl. rewrite list_elem_of_omap. split.
  - intros (t & Ht & Hs). apply list_elem_of_fmap in Ht as ([s' e] & -> & Hin). simpl in Hs.
    apply list_elem_of_In, filter_In in Hin as [Hin Ho]. simpl in Ho. bool_simp.
    apply list_elem_of_In, elem_of_map_to_list in Hin.
    destruct (si_entry _ Hinv _ _ Hin) as (_ & _ & l & _ & _ & Hsh).
    unfold entry_shape in Hsh. rewrite Hs in Hsh. destruct Hsh as [-> _]. eauto.
  - intros (e & He & Ho & Ha). exists (mkRevokeTarget s (se_actor e) (se_resource_id e)).
    split; [|done]. apply list_elem_of_fmap. exists (s, e). split; [done|].
    apply list_elem_of_In, filter_In. split; [by apply list_elem_of_In, elem_of_map_to_list|].
    simpl. by apply bool_decide_eq_true_2.
Qed.

Lemma serial_inv_revoke o : serial_inv (revoke_begin st o).1.
Proof.
  unfold revoke_begin.
  pose proof (revoke_targets_actors o) as Htg.
  destruct (Registry_begin_revoke (ss_registry st) o) as [reg targets] eqn:Hrev. simpl in *.
  injection Hrev as <- _. apply serial_inv_entries.
  - intros s e' (e & <- & He)%lookup_fmap_Some. exists e. split; [done|].
    case_bool_decide as Ho.
    + unfold revoke_entry. rewrite begin_close_closing.
      split_and!; [by destruct (is_none _)..|]. intros l Hsh.
      assert (entry_shape (close_actors (ss_actors st) (omap rt_actor targets)) s
                (SessionEntry_set_state e Closing) l) as Hsh'.
      { apply entry_shape_close; [done| |].
        - intros a Ha Hac. rewrite close_actors_lookup, decide_True; [by rewrite Ha|].
          apply Htg. eauto.
        - intros Hn. rewrite close_actors_lookup, decide_False; [done|].
          intros (e0 & He0 & _ & Ha0)%Htg. congruence. }
      unfold entry_shape in *. simpl in *. destruct (se_actor e) eqn:Hac; simpl in *; rewrite ?Hac;
        done.
    + split_and!; [done..|]. intros l. apply entry_shape_frame.
      rewrite close_actors_lookup, decide_False; [done|].
      intros (e0 & He0 & ? & _)%Htg. congruence.
  - intros s e He. rewrite lookup_fmap, He. simpl. eexists. split; [done|].
    case_bool_decide; [|done]. unfold revoke_entry. by destruct (is_none _).
  - intros s a (a0 & Ha0 & Hor)%close_actors_inv. apply (si_actor _ Hinv) in Ha0 as [? ?].
    destruct Hor as [[-> _]|[-> _]]; auto with hal.
Qed.

(** An actor that has moved on belongs to an entry that knows it, or to none. *)
Lemma entry_knows_actor s e a :
  reg_sessions (ss_registry st) !! s = Some e → ss_actors st !! s = Some a →
  a ≠ spawn_serial_actor → se_actor e = Some s.
Proof.
  intros He Ha Hne. destruct (si_entry _ Hinv _ _ He) as (_ & _ & l & _ & _ & Hsh).
  unfold entry_shape in Hsh. destruct (se_actor e) as [s'|]; [by destruct Hsh as [-> _]|].
  destruct Hsh as (_ & _ & Hsp). by destruct Hne; apply Hsp.
Qed.

Lemma serial_inv_put_actor s a a' :
  ss_actors st !! s = Some a → actor_ok a' → a ≠ spawn_serial_actor ∨ reg_sessions (ss_registry st) !! s = None →
  ac_shutdown a' = ac_shutdown a → ac_phase a' ≠ ADone →
  (ac_phase a' = ARunning ∨ ac_phase a ≠ ARunning ∨ ac_shutdown a = true ∨
   reg_sessions (ss_registry st) !! s = None) →
  serial_inv (put_actor st s a').
Proof.
  intros Ha Hok' Hns Hsd Hd Hph. destruct (si_actor _ Hinv _ _ Ha) as [Hu _].
  apply entries_same.
  - intros s' e l He Hsh. destruct (decide (s' = s)) as [->|];
      [|eapply entry_shape_frame; [|done]; by rewrite lookup_insert_ne].
    assert (a ≠ spawn_serial_actor) as Hns' by (destruct Hns; congruence).
    pose proof (entry_knows_actor s e a He Ha Hns') as Hac.
    unfold entry_shape in *. rewrite Hac in *. destruct Hsh as (_ & ? & b & Hb & _ & Hact & Hcl).
    assert (b = a) as -> by congruence. split_and!; [done..|]. exists a'.
    rewrite lookup_insert_eq, Hsd. split_and!; [done..| |done].
    intros Hst. destruct (Hact Hst) as (?&?&?). split_and!; [done..|].
    destruct Hph as [?|[?|[?|?]]]; congruence.
  - intros s' b [[<- <-]|[? Hb]]%lookup_insert_Some; [done|]. by apply (si_actor _ Hinv).
Qed.

Lemma evict_closed_shape order closed :
  ∀ s, s ∈ (evict_closed order closed).1 → s ∈ order.
Proof.
  revert closed; induction order as [|x order IH]; intros closed s; simpl; [done|].
  destruct (_ <=? _); [|done]. intros ?%IH. by right.
Qed.

Lemma remember_closed_frame reg s lease :
  ∃ closed order, Registry_remember_closed reg s lease
    = mkRegistry (reg_leases reg) (reg_sessions reg) closed order.
Proof.
  unfold Registry_remember_closed. destruct (is_some _); [by destruct reg; eauto|].
  destruct (evict_closed _ _). eauto.
Qed.

Lemma serial_inv_finish s a result :
  ss_actors st !! s = Some a → ac_phase a = ADrained → serial_inv (actor_finish st s a result).
Proof.
  intros Ha Hp. destruct (si_actor _ Hinv _ _ Ha) as [Hu Hok].
  unfold actor_finish, Registry_finish_close.
  destruct (reg_sessions _ !! s) as [e|] eqn:He.
  - destruct (LeaseTable_release _ _ _) as [t' exposed] eqn:Hrel. simpl.
    assert (∀ log closed order ev dn,
      (∀ s', s' ∈ log.*1 → s' ∈ (ss_closed_log st).*1 ∨ s' = s) →
      serial_inv (mkSerialState
        (mkRegistry t' (delete s (reg_sessions (ss_registry st))) closed order)
        ev (<[s := actor_complete a result]> (ss_actors st)) dn (ss_used st) log)) as Hdrop.
    { intros log closed order ev dn Hlog. eapply serial_inv_drop; [done|done| | |done].
      - intros s' Hne. by rewrite lookup_insert_ne.
      - intros b. rewrite lookup_insert_eq. intros [= <-]. auto with hal. }
    destruct exposed; simpl.
    + destruct (remember_closed_frame (mkRegistry t' (delete s (reg_sessions (ss_registry st)))
        (reg_closed_sessions (ss_registry st)) (reg_closed_order (ss_registry st))) s (se_lease e))
        as (closed & order & ->). simpl. apply Hdrop.
      intros s'. rewrite fmap_app. set_solver.
    + apply Hdrop. intros s'. rewrite app_nil_r. auto.
  - simpl. rewrite app_nil_r.
    apply entries_same.
    + intros s' e l He' Hsh. eapply entry_shape_frame; [|done].
      rewrite lookup_insert_ne by congruence. done.
    + intros s' b [[<- <-]|[? Hb]]%lookup_insert_Some; [|by apply (si_actor _ Hinv)].
      auto with hal.
Qed.
End preservation.

Lemma serial_inv_step st st' : serial_step st st' → serial_inv st → serial_inv st'.
Proof.
  intros Hstep Hinv. destruct Hstep as [| | | | | | |st s a a' Ha Hp Hsd Hin Hr
    |S ? st s a a' ? ? c sh intr r stop Ha Hp Hin Hsd Hex Hr|st s a Ha Hp Hin Hor|st s a Ha Hp|].
  - by apply serial_inv_reserve.
  - by eapply serial_inv_cancel.
  - by eapply serial_inv_spawn.
  - by eapply serial_inv_finish_open.
  - by apply serial_inv_enqueue.
  - by apply serial_inv_close_begin.
  - by apply serial_inv_revoke.
  - destruct (si_actor _ Hinv _ _ Ha) as [_ Hok].
    pose proof (actor_ok_recv _ _ Hok Hp Hin Hr) as Hok'.
    unfold actor_recv in Hr. destruct (ac_queue a) eqn:Hq; [done|]. injection Hr as <-.
    eapply serial_inv_put_actor; eauto; simpl; try congruence. left. by intros ->.
  - destruct (si_actor _ Hinv _ _ Ha) as [_ Hok].
    pose proof (actor_ok_reply _ _ _ _ _ Hok Hp Hin Hr) as Hok'.
    unfold actor_reply in Hr. rewrite Hin in Hr. injection Hr as <-.
    eapply serial_inv_put_actor; eauto; simpl; try (destruct stop; congruence).
    + left. by intros ->.
    + destruct stop; [|by left]. right; right; left. apply Hsd.
      unfold execute_command in Hex. destruct sh; [by left|]. destruct intr; [by right|].
      by destruct (run_command _ c).
  - destruct (si_actor _ Hinv _ _ Ha) as [_ Hok].
    eapply serial_inv_put_actor; eauto with hal; simpl; try congruence; try tauto.
    destruct Hor as [Hsd|?]; [left|by right]. intros ->. done.
  - destruct (si_actor _ Hinv _ _ Ha) as [_ Hok].
    eapply serial_inv_put_actor; eauto with hal; simpl; try congruence.
    + left. intros ->. done.
    + right; left. congruence.
  - by apply serial_inv_finish.
Qed.

Lemma serial_inv_reachable st : rtc serial_step SerialState_init st → serial_inv st.
Proof.
  intros H. assert (∀ st0, rtc serial_step st0 st → serial_inv st0 → serial_inv st) as Hs.
  { induction 1; eauto using serial_inv_step. }
  eapply Hs; [done|apply serial_inv_init].
Qed.

(** ** The replay cache of closed sessions *)
Definition recent_closed (log : list (SessionId * LeaseToken)) : list (SessionId * LeaseToken) :=
  drop (length log - Z.to_nat CLOSED_SESSION_CAPACITY) log.

Lemma evict_closed_spec (l : list (SessionId * LeaseToken)) :
  NoDup l.*1 →
  evict_closed l.*1 (list_to_map l) =
    ((drop (length l - 255) l).*1, list_to_map (drop (length l - 255) l)).
Proof.
  induction l as [|[s tok] l IH]; intros Hnd; [done|].
  apply NoDup_cons in Hnd as [Hs Hnd]. cbn [evict_closed fmap list_fmap fst].
  replace (Z.of_nat (length (s :: l.*1))) with (Z.of_nat (length l) + 1)
    by (simpl; rewrite length_fmap; lia).
  unfold CLOSED_SESSION_CAPACITY. destruct (256 <=? _) eqn:Hle; bool_simp.
  - replace (length ((s, tok) :: l) - 255)%nat with (S (length l - 255)) by (simpl; lia).
    cbn [drop list_to_map foldr curry]. simpl.
    rewrite delete_insert_id by (by apply not_elem_of_list_to_map_1). by apply IH.
  - replace (length ((s, tok) :: l) - 255)%nat with 0%nat by (simpl; lia). done.
Qed.

Record cache_inv (st : SerialState) : Prop := {
  ca_nodup : NoDup (ss_closed_log st).*1;
  ca_order : reg_closed_order (ss_registry st) = (recent_closed (ss_closed_log st)).*1;
  ca_map : reg_closed_sessions (ss_registry st) = list_to_map (recent_closed (ss_closed_log st));
}.

Lemma recent_closed_nodup log : NoDup log.*1 → NoDup (recent_closed log).*1.
Proof.
  unfold recent_closed. rewrite fmap_drop. intros Hnd.
  eapply sublist_NoDup; [done|apply sublist_drop].
Qed.

Lemma recent_closed_snoc log x :
  drop (length (recent_closed log) - 255) (recent_closed log) ++ [x] = recent_closed (log ++ [x]).
Proof.
  unfold recent_closed. change (Z.to_nat CLOSED_SESSION_CAPACITY) with 256%nat.
  rewrite length_app, length_drop, drop_drop. simpl length.
  rewrite drop_app_le by lia. f_equal. f_equal. lia.
Qed.

Lemma remember_closed_spec reg s lease log :
  NoDup log.*1 → s ∉ log.*1 →
  reg_closed_order reg = (recent_closed log).*1 →
  reg_closed_sessions reg = list_to_map (recent_closed log) →
  Registry_remember_closed reg s lease
  = mkRegistry (reg_leases reg) (reg_sessions reg)
      (list_to_map (recent_closed (log ++ [(s, lease)])))
      (recent_closed (log ++ [(s, lease)])).*1.
Proof.
  intros Hnd Hs Ho Hm. unfold Registry_remember_closed. rewrite Ho, Hm.
  pose proof (recent_closed_nodup _ Hnd) as Hnd'.
  assert (∀ k, s ∉ (drop k (recent_closed log)).*1) as Hs'.
  { intros k Hin. apply Hs. unfold recent_closed in Hin.
    rewrite drop_drop, fmap_drop in Hin. by eapply elem_of_sublist; [|apply sublist_drop]. }
  rewrite not_elem_of_list_to_map_1 by (apply (Hs' 0%nat)). simpl.
  rewrite evict_closed_spec by done. rewrite <- recent_closed_snoc. f_equal.
  - rewrite list_to_map_snoc; [done|apply Hs'].
  - by rewrite fmap_app.
Qed.

Lemma cache_inv_same st st' :
  cache_inv st → ss_closed_log st' = ss_closed_log st →
  reg_closed_sessions (ss_registry st') = reg_closed_sessions (ss_registry st) →
  reg_closed_order (ss_registry st') = reg_closed_order (ss_registry st) → cache_inv st'.
Proof. intros [] Hl Hm Ho. split; rewrite ?Hl, ?Hm, ?Ho; done. Qed.

Lemma cache_inv_step st st' : serial_step st st' → serial_inv st → cache_inv st → cache_inv st'.
Proof.
  intros Hstep Hinv Hc. destruct Hstep; try (by eapply cache_inv_same).
  - unfold open_reserve, Registry_reserve_open.
    destruct (LeaseTable_reserve_control _ _ _ _ _) as [t [tok|err]]; by eapply cache_inv_same.
  - unfold open_cancel, Registry_cancel_open. rewrite H. by eapply cache_inv_same.
  - unfold open_finish, Registry_finish_open. rewrite H.
    destruct (SessionLifecycle_is_closing _); [by eapply cache_inv_same|].
    destruct (LeaseTable_commit _ _ _ _) as [t [] ]; simpl; [|by eapply cache_inv_same].
    destruct (SessionLifecycle_commit_open _ _); by eapply cache_inv_same.
  - unfold serial_enqueue. destruct (Registry_enqueue _ _ _ _ _ _). by eapply cache_inv_same.
  - unfold close_begin, Registry_begin_close.
    destruct (reg_sessions _ !! s) as [e|]; [|by eapply cache_inv_same].
    destruct (LeaseTable_validate _ _ _ _ _ _); [|by eapply cache_inv_same].
    destruct (SessionLifecycle_begin_close _ _); [|by eapply cache_inv_same].
    destruct (se_actor e); by eapply cache_inv_same.
  - unfold actor_finish, Registry_finish_close.
    destruct (reg_sessions _ !! s) as [e|] eqn:He.
    + destruct (LeaseTable_release _ _ _) as [t' []] eqn:Hrel; simpl.
      * destruct (si_entry _ Hinv _ _ He) as (_ & Hlog & _). destruct Hc as [Hnd Ho Hm].
        rewrite (remember_closed_spec _ s _ (ss_closed_log st)) by done.
        split; simpl; [|done|done]. rewrite fmap_app. simpl. apply NoDup_app.
        split_and!; [done| |by apply NoDup_singleton]. set_solver.
      * rewrite app_nil_r. by eapply cache_inv_same.
    + rewrite app_nil_r. by eapply cache_inv_same.
Qed.

Lemma cache_inv_reachable st : rtc serial_step SerialState_init st → cache_inv st.
Proof.
  intros H. assert (∀ st0, rtc serial_step st0 st → serial_inv st0 → cache_inv st0 →
    cache_inv st) as Hs.
  { induction 1; eauto using serial_inv_step, cache_inv_step. }
  eapply Hs; [done|apply serial_inv_init|]. split; simpl; [by apply NoDup_nil|done|done].
Qed.

(** ** Session events *)
Definition session_events (ev : EventPublisher) (s : SessionId) : list (RuntimeEventKind * Z) :=
  (λ e, (ev_kind e, ev_lease_generation e)) <$>
    filter (λ e, ev_session_id e = s) (sent ev).

(** Whether a session's lease was exposed, and the lease. *)
Definition entry_view (reg : Registry) (s : SessionId) : option (bool * LeaseToken) :=
  (λ e, (is_some_and al_committed (active (reg_leases reg) !! se_resource_id e), se_lease e))
    <$> reg_sessions reg !! s.

Definition expected_events (st : SerialState) (s : SessionId) : list (RuntimeEventKind * Z) :=
  match entry_view (ss_registry st) s with
  | Some (true, lease) => [(SessionOpened, token_generation lease)]
  | Some (false, _) => []
  | None =>
      match (list_to_map (ss_closed_log st) : gmap SessionId LeaseToken) !! s with
      | Some lease =>
          [(SessionOpened, token_generation lease); (SessionClosed, token_generation lease)]
      | None => []
      end
  end.
Definition events_inv (st : SerialState) : Prop :=
  ∀ s, session_events (ss_events st) s = expected_events st s.

Lemma session_events_publish ev k r s' o g s :
  session_events (EventPublisher_publish ev k r s' o g) s =
    session_events ev s ++ (if decide (s' = s) then [(k, g)] else []).
Proof.
  unfold session_events, EventPublisher_publish. simpl.
  rewrite filter_app, fmap_app. f_equal. rewrite filter_cons, filter_nil. simpl.
  by case_decide.
Qed.

Lemma events_inv_view st st' :
  events_inv st → ss_events st' = ss_events st → ss_closed_log st' = ss_closed_log st →
  (∀ s, entry_view (ss_registry st') s = entry_view (ss_registry st) s ∨
        (entry_view (ss_registry st') s = None ∨ ∃ t, entry_view (ss_registry st') s = Some (false, t)) ∧
        (entry_view (ss_registry st) s = None ∨ ∃ t, entry_view (ss_registry st) s = Some (false, t)) ∧
        s ∉ (ss_closed_log st).*1) →
  events_inv st'.
Proof.
  intros Hi He Hl Hv s. rewrite He, (Hi s). unfold expected_events. rewrite Hl.
  destruct (Hv s) as [->|(H1 & H2 & Hs)]; [done|].
  rewrite (not_elem_of_list_to_map_1 _ _ Hs).
  destruct H1 as [->|[? ->]], H2 as [->|[? ->]]; done.
Qed.

Section event_steps.
Context (st : SerialState) (Hinv : serial_inv st) (Hev : events_inv st).

Lemma entry_view_uncommitted s e :
  reg_sessions (ss_registry st) !! s = Some e → se_actor e = None →
  entry_view (ss_registry st) s = Some (false, se_lease e).
Proof.
  intros He Hn. unfold entry_view. rewrite He. simpl.
  destruct (si_entry _ Hinv _ _ He) as (_ & _ & l & Hl & _ & Hsh).
  unfold entry_shape in Hsh. rewrite Hn in Hsh. destruct Hsh as (_ & Hc & _).
  rewrite Hl. simpl. by rewrite Hc.
Qed.

Lemma events_inv_reserve r s o fresh :
  s ∉ ss_used st → events_inv (open_reserve st r s o fresh).1.
Proof.
  intros Hs. destruct (used_fresh st Hinv s Hs) as (Hse & _ & Hlog).
  unfold open_reserve, Registry_reserve_open.
  destruct (LeaseTable_reserve_control _ r s o fresh) as [t' res] eqn:Hres.
  destruct res as [tok|err]; simpl.
  2:{ destruct (si_table _ Hinv) as [ex Htab].
      apply (reserve_control_Err (mkLeaseState _ ex)) in Hres as ->; [|done].
      eapply events_inv_view; simpl; [done..|]. intros s'. by left. }
  apply reserve_control_Ok in Hres as (Hact & _ & _ & ->).
  eapply events_inv_view; simpl; [done..|]. intros s'. unfold entry_view. simpl.
  destruct (decide (s' = s)) as [->|Hne].
  - right. rewrite lookup_insert_eq, Hse. simpl. rewrite lookup_insert_eq. simpl.
    split_and!; [right; by eexists|by left|done].
  - left. rewrite lookup_insert_ne by done.
    destruct (reg_sessions _ !! s') as [e|] eqn:He; [|done]. simpl.
    apply (si_entry _ Hinv) in He as (_ & _ & l & Hl & _).
    rewrite lookup_insert_ne by congruence. done.
Qed.

(** Dropping the entry of [s] leaves the views of the other sessions. *)
Lemma entry_view_drop s e t' ok closed order s' :
  reg_sessions (ss_registry st) !! s = Some e →
  LeaseTable_release (reg_leases (ss_registry st)) (se_resource_id e) s = (t', ok) →
  entry_view (mkRegistry t' (delete s (reg_sessions (ss_registry st))) closed order) s'
  = if decide (s' = s) then None else entry_view (ss_registry st) s'.
Proof.
  intros He Hrel. unfold entry_view. simpl. case_decide as Hd.
  { subst. by rewrite lookup_delete_eq. }
  rewrite lookup_delete_ne by done. destruct (reg_sessions _ !! s') as [e'|] eqn:He'; [|done].
  simpl. do 2 f_equal. f_equal.
  apply release_inv in Hrel as [(_ & -> & _)|(l & _ & _ & _ & -> & _)]; [done|].
  rewrite lookup_delete_ne; [done|].
  intros Heq. by destruct (entry_resource_inj st Hinv s s' e e' He He' Heq).
Qed.

Lemma events_inv_cancel s e :
  reg_sessions (ss_registry st) !! s = Some e → se_actor e = None →
  events_inv (open_cancel st s).
Proof.
  intros He Hn. unfold open_cancel, Registry_cancel_open. rewrite He.
  destruct (LeaseTable_release _ _ _) as [t' ok] eqn:Hrel. simpl.
  eapply events_inv_view; simpl; [done..|]. intros s'.
  rewrite (entry_view_drop s e t' ok) by done. case_decide; [subst|by left]. right.
  rewrite (entry_view_uncommitted s e) by done.
  destruct (si_entry _ Hinv _ _ He) as (_ & ? & _).
  split_and!; [by left|right; by eexists|done].
Qed.

Lemma events_inv_finish_open s e a :
  reg_sessions (ss_registry st) !! s = Some e → se_actor e = None →
  ss_actors st !! s = Some a → events_inv (open_finish st s).1.
Proof.
  intros He Hn Ha. unfold open_finish.
  pose proof (entry_view_uncommitted s e He Hn) as Hview.
  destruct (finish_open_eq st Hinv s e a He Hn Ha) as (-> & l & Hl & Hle & Hc & [[Hst ->]|[Hst ->]]);
    simpl.
  - eapply events_inv_view; simpl; [done..|]. intros s'. left. unfold entry_view. simpl.
    destruct (decide (s' = s)) as [->|]; [by rewrite lookup_insert_eq, He|by rewrite lookup_insert_ne].
  - intros s'. cbn [ss_events]. rewrite session_events_publish, (Hev s'). unfold expected_events. simpl.
    case_decide as Hd.
    + subst s'. rewrite Hview. unfold entry_view. simpl.
      rewrite lookup_insert_eq. simpl. by rewrite lookup_insert_eq.
    + rewrite app_nil_r. unfold entry_view. simpl. rewrite lookup_insert_ne by done.
      destruct (reg_sessions _ !! s') as [e'|] eqn:He'; [|done]. simpl.
      rewrite lookup_insert_ne; [done|].
      intros Heq. by destruct (entry_resource_inj st Hinv s s' e e' He He' Heq).
Qed.

Lemma events_inv_finish s a result :
  ss_actors st !! s = Some a → ac_phase a = ADrained → events_inv (actor_finish st s a result).
Proof.
  intros Ha Hp. unfold actor_finish, Registry_finish_close.
  destruct (reg_sessions _ !! s) as [e|] eqn:He.
  2:{ rewrite app_nil_r. eapply events_inv_view; simpl; [done..|]. intros s'. by left. }
  destruct (si_entry _ Hinv _ _ He) as (_ & Hlog & l & Hl & (Hls & _) & _).
  destruct (LeaseTable_release _ _ _) as [t' exposed] eqn:Hrel. simpl.
  assert (exposed = al_committed l) as Hexp.
  { apply release_inv in Hrel as [(_ & _ & Hn)|(l' & Hl' & _ & -> & _)]; [|congruence].
    by destruct (Hn _ Hl). }
  assert (entry_view (ss_registry st) s = Some (exposed, se_lease e)) as Hview.
  { unfold entry_view. rewrite He. simpl. rewrite Hl. simpl. by rewrite Hexp. }
  destruct exposed; simpl.
  - destruct (remember_closed_frame (mkRegistry t' (delete s (reg_sessions (ss_registry st)))
      (reg_closed_sessions (ss_registry st)) (reg_closed_order (ss_registry st))) s (se_lease e))
      as (closed & order & ->). simpl.
    intros s'. cbn [ss_events]. rewrite session_events_publish, (Hev s'). unfold expected_events. simpl.
    rewrite (entry_view_drop s e t' true) by done. case_decide as Hd; [subst s'|].
    + rewrite decide_True, Hview by done.
      rewrite list_to_map_snoc, lookup_insert_eq by done. done.
    + rewrite decide_False, app_nil_r by done. rewrite list_to_map_snoc by done.
      by rewrite lookup_insert_ne.
  - eapply events_inv_view; simpl; [done|done|by rewrite app_nil_r|]. intros s'.
    rewrite (entry_view_drop s e t' false) by done. case_decide; [subst|by left]. right.
    split_and!; [by left|right; by eexists|done].
Qed.

Lemma events_inv_entries sessions ev actors dn closed order :
  (∀ s, (λ e, (se_resource_id e, se_lease e)) <$> sessions !! s
        = (λ e, (se_resource_id e, se_lease e)) <$> reg_sessions (ss_registry st) !! s) →
  ev = ss_events st →
  events_inv (mkSerialState (mkRegistry (reg_leases (ss_registry st)) sessions closed order)
    ev actors dn (ss_used st) (ss_closed_log st)).
Proof.
  intros Hs ->. eapply events_inv_view; simpl; [done..|]. intros s. left. unfold entry_view. simpl.
  specialize (Hs s). destruct (sessions !! s), (reg_sessions _ !! s); simpl in *; try done.
  by injection Hs as -> ->.
Qed.
End event_steps.

Lemma events_inv_step st st' :
  serial_step st st' → serial_inv st → events_inv st → events_inv st'.
Proof.
  intros Hstep Hinv Hev. destruct Hstep; try (by intros s'; apply (Hev s')).
  - by apply events_inv_reserve.
  - by eapply events_inv_cancel.
  - by eapply events_inv_finish_open.
  - unfold serial_enqueue. destruct (Registry_enqueue _ _ _ _ _ _).
    eapply events_inv_view; [done..|]. intros s'. by left.
  - unfold close_begin, Registry_begin_close.
    destruct (reg_sessions _ !! s) as [e|] eqn:He;
      [|eapply events_inv_view; [done..|]; intros s'; by left].
    destruct (LeaseTable_validate _ _ _ _ _ _);
      [|eapply events_inv_view; [done..|]; intros s'; by left].
    rewrite begin_close_closing.
    destruct (se_actor e); apply events_inv_entries; try done; intros s';
      (destruct (decide (s' = s)) as [->|]; [by rewrite lookup_insert_eq, He|by rewrite lookup_insert_ne]).
  - unfold revoke_begin. simpl. apply events_inv_entries; [done| |done]. intros s'.
    rewrite lookup_fmap. destruct (reg_sessions _ !! s'); [|done]. simpl. f_equal.
    case_bool_decide; [|done]. unfold revoke_entry. by destruct (is_none _).
  - by apply events_inv_finish.
Qed.

Lemma events_inv_reachable st : rtc serial_step SerialState_init st → events_inv st.
Proof.
  intros H. assert (∀ st0, rtc serial_step st0 st → serial_inv st0 → events_inv st0 →
    events_inv st) as Hs.
  { induction 1; eauto using serial_inv_step, events_inv_step. }
  eapply Hs; [done|apply serial_inv_init|]. intros s. done.
Qed.

(** ** Theorems *)

(** C4: commands are answered in the order they were admitted and none is lost.
    In every reachable state the commands an actor has answered are exactly the first
    ones it admitted, those not yet answered are the one in flight followed by the
    queue, which never exceeds its 64 places; and once the actor has terminated,
    every admitted command has been answered. *)
Theorem serial_commands_answered_in_order st s a :
  rtc serial_step SerialState_init st →
  ss_actors st !! s = Some a →
  ac_admitted a = (ac_replied a).*1 ++ option_list (ac_inflight a) ++ ac_queue a ∧
  Z.of_nat (length (ac_queue a)) <= COMMAND_QUEUE_CAPACITY ∧
  (ac_phase a = ADone → (ac_replied a).*1 = ac_admitted a).
Proof.
  intros Hr%serial_inv_reachable Ha. destruct (si_actor _ Hr _ _ Ha) as [_ [Hf Hb Hi Hd]].
  split_and!; [done..|]. intros Hp. rewrite Hf, Hi, Hd by (congruence || by right).
  by rewrite app_nil_r.
Qed.

(** Each session announces itself once and in order: the events published for
    a session are none while it is opening, [session.opened] while it is open, and
    [session.opened] then [session.closed] with the same lease generation once it is
    closed. *)
Theorem serial_session_events st s :
  rtc serial_step SerialState_init st →
  (∃ g, session_events (ss_events st) s `prefix_of` [(SessionOpened, g); (SessionClosed, g)]) ∧
  (∀ e, reg_sessions (ss_registry st) !! s = Some e → se_state e = Active →
     session_events (ss_events st) s = [(SessionOpened, token_generation (se_lease e))]) ∧
  (∀ lease, (s, lease) ∈ ss_closed_log st →
     session_events (ss_events st) s
     = [(SessionOpened, token_generation lease); (SessionClosed, token_generation lease)]).
Proof.
  intros Hr. pose proof (serial_inv_reachable _ Hr) as Hinv.
  pose proof (cache_inv_reachable _ Hr) as [Hnd _ _].
  rewrite (events_inv_reachable _ Hr s). unfold expected_events. split_and!.
  - destruct (entry_view _ s) as [[[] lease]|].
    + exists (token_generation lease). by eexists.
    + exists 0. apply prefix_nil.
    + destruct (_ !! s) as [lease|]; [by exists (token_generation lease)|].
      exists 0. apply prefix_nil.
  - intros e He Hst. unfold entry_view. rewrite He. simpl.
    destruct (si_entry _ Hinv _ _ He) as (_ & _ & l & Hl & _ & Hsh). rewrite Hl. simpl.
    unfold entry_shape in Hsh. destruct (se_actor e); [|by destruct Hsh].
    destruct Hsh as (_ & _ & a & _ & _ & Hact & _). by destruct (Hact Hst) as (-> & _).
  - intros lease Hin. unfold entry_view.
    destruct (reg_sessions _ !! s) as [e|] eqn:He; simpl.
    { apply (si_entry _ Hinv) in He as (_ & Hlog & _). destruct Hlog.
      apply list_elem_of_fmap. by exists (s, lease). }
    by rewrite (elem_of_list_to_map_1 _ _ _ Hnd Hin).
Qed.

Lemma validate_closed_lease_same lease op : validate_closed_lease lease lease op = Ok ().
Proof.
  unfold validate_closed_lease. rewrite Z.ltb_irrefl, bool_decide_eq_false_2; naive_solver.
Qed.

(** Closing is idempotent for the 256 most recently closed sessions.  Repeating
    the close of a closed session with its own lease changes nothing and succeeds if
    the session is among the last 256 closed ones; otherwise the answer is that the
    session is unknown. *)
Theorem serial_close_replay st s lease :
  rtc serial_step SerialState_init st →
  (s, lease) ∈ ss_closed_log st →
  ((s, lease) ∈ recent_closed (ss_closed_log st) →
     close_begin st s lease = (st, Ok AlreadyClosed)) ∧
  ((s, lease) ∉ recent_closed (ss_closed_log st) →
     close_begin st s lease = (st, Err (session_not_found "serial.close"))).
Proof.
  intros Hr Hin. pose proof (serial_inv_reachable _ Hr) as Hinv.
  pose proof (cache_inv_reachable _ Hr) as [Hnd Ho Hm].
  assert (reg_sessions (ss_registry st) !! s = None) as Hnone.
  { apply eq_None_not_Some. intros [e (_ & Hlog & _)%(si_entry _ Hinv)]. destruct Hlog.
    apply list_elem_of_fmap. by exists (s, lease). }
  unfold close_begin, Registry_begin_close, Registry_closed_close_result. rewrite Hnone, Hm.
  split; intros Hrec.
  - rewrite (elem_of_list_to_map_1 _ s lease) by (by try apply recent_closed_nodup). simpl.
    rewrite validate_closed_lease_same. simpl. by destruct st.
  - rewrite not_elem_of_list_to_map_1; [by destruct st|].
    intros ([s' lease'] & ? & Hin')%list_elem_of_fmap. simpl in *. subst s'.
    assert ((s, lease') ∈ ss_closed_log st) as Hin2
      by (eapply elem_of_sublist; [done|apply sublist_drop]).
    apply (elem_of_list_to_map_1 (M := gmap SessionId) _ _ _ Hnd) in Hin.
    apply (elem_of_list_to_map_1 (M := gmap SessionId) _ _ _ Hnd) in Hin2. congruence.
Qed.

(** A failed or abandoned open leaves no trace: reserving a session and then
    cancelling it restores the registry, lease table and generation included. *)
Theorem serial_open_cancel_restores st r s o fresh tok :
  rtc serial_step SerialState_init st →
  s ∉ ss_used st →
  (open_reserve st r s o fresh).2 = Ok tok →
  ss_registry (open_cancel (open_reserve st r s o fresh).1 s) = ss_registry st.
Proof.
  intros Hr%serial_inv_reachable Hs. destruct (used_fresh st Hr s Hs) as (Hse & _ & _).
  destruct (si_table _ Hr) as [ex Htab].
  unfold open_reserve, Registry_reserve_open.
  destruct (LeaseTable_reserve_control _ r s o fresh) as [t' [tok'|]] eqn:Hres; [|done].
  simpl. intros _.
  apply (reserve_release_exact (mkLeaseState _ ex)) in Hres; [|done]. simpl in Hres.
  unfold open_cancel, Registry_cancel_open. simpl. rewrite lookup_insert_eq. simpl.
  rewrite Hres. simpl. rewrite delete_insert_id by done. by destruct (ss_registry st).
Qed.

(** Serial sessions are exclusive and their resource comes back: at most one
    session, opening, active or closing, uses a resource; and when the actor of a
    session has terminated, the resource can be reserved by anyone (unless its 2^64
    generations are used up). *)
Theorem serial_resource_exclusive st :
  rtc serial_step SerialState_init st →
  (∀ s e s' e', reg_sessions (ss_registry st) !! s = Some e →
     reg_sessions (ss_registry st) !! s' = Some e' →
     se_resource_id e = se_resource_id e' → s = s') ∧
  (∀ s e a result, reg_sessions (ss_registry st) !! s = Some e →
     ss_actors st !! s = Some a → ac_phase a = ADrained →
     let st' := actor_finish st s a result in
     LeaseTable_current_generation (reg_leases (ss_registry st')) (se_resource_id e) < u64_max →
     ∀ s' o' fresh, is_ok (open_reserve st' (se_resource_id e) s' o' fresh).2 = true).
Proof.
  intros Hr%serial_inv_reachable. split.
  { intros s e s' e' He He'. by eapply entry_resource_inj. }
  intros s e a result He Ha Hp st' Hgen s' o' fresh.
  assert (serial_inv st') as Hinv' by (by apply serial_inv_finish).
  assert (reg_sessions (ss_registry st') = delete s (reg_sessions (ss_registry st))) as Hses.
  { unfold st', actor_finish, Registry_finish_close. rewrite He.
    destruct (LeaseTable_release _ _ _) as [t' []]; simpl; [|done].
    edestruct remember_closed_frame as (closed & order & ->). done. }
  assert (active (reg_leases (ss_registry st')) !! se_resource_id e = None) as Hfree.
  { apply eq_None_not_Some. intros [l (e' & He' & Hr')%(si_lease _ Hinv')].
    rewrite Hses in He'. apply lookup_delete_Some in He' as [Hne He'].
    destruct Hne. eapply (entry_resource_inj st Hr); [exact He|exact He'|congruence]. }
  unfold open_reserve, Registry_reserve_open, LeaseTable_reserve_control.
  rewrite Hfree. simpl. fold (LeaseTable_current_generation (reg_leases (ss_registry st')) (se_resource_id e)).
  unfold checked_add. by rewrite (proj2 (Z.leb_le _ _)) by lia.
Qed.

(** *** I/O after a close *)
(** A session that is closing or gone. *)
Definition session_finished (st : SerialState) (s : SessionId) : Prop :=
  s ∈ ss_used st ∧ ∀ e, reg_sessions (ss_registry st) !! s = Some e → se_state e = Closing.

Lemma session_finished_step st st' s :
  serial_step st st' → serial_inv st → session_finished st s → session_finished st' s.
Proof.
  intros Hstep Hinv [Hu Hcl]. destruct Hstep; try (by split).
  - unfold open_reserve, Registry_reserve_open.
    destruct (LeaseTable_reserve_control _ _ _ _ _) as [t [tok|err]]; simpl.
    + split; simpl; [set_solver|]. intros e [[<- <-]|[? ?]]%lookup_insert_Some; [done|auto].
    + split; simpl; [set_solver|auto].
  - unfold open_cancel, Registry_cancel_open. rewrite H. split; simpl; [done|].
    intros e' [_ ?]%lookup_delete_Some. auto.
  - unfold open_finish.
    destruct (finish_open_eq st Hinv _ _ _ H H0 H1) as (_ & l & _ & _ & _ & [[Hst ->]|[Hst ->]]);
      (split; [done|]); simpl; intros e' [[<- <-]|[? ?]]%lookup_insert_Some; auto; simpl.
    apply Hcl in H. congruence.
  - unfold serial_enqueue. destruct (Registry_enqueue _ _ _ _ _ _). by split.
  - unfold close_begin, Registry_begin_close.
    destruct (reg_sessions _ !! s0) as [e|] eqn:He; [|by split].
    destruct (LeaseTable_validate _ _ _ _ _ _); [|by split].
    rewrite begin_close_closing.
    destruct (se_actor e); (split; [done|]); simpl;
      intros e' [[<- <-]|[? ?]]%lookup_insert_Some; auto.
  - unfold revoke_begin. split; [done|]. simpl. intros e' (e & <- & He)%lookup_fmap_Some.
    case_bool_decide; [|auto]. unfold revoke_entry. rewrite begin_close_closing.
    by destruct (is_none _).
  - unfold actor_finish, Registry_finish_close.
    destruct (reg_sessions _ !! s0) as [e|] eqn:He; [|by split].
    destruct (LeaseTable_release _ _ _) as [t' []]; simpl.
    + edestruct remember_closed_frame as (cl' & or' & ->). split; simpl; [done|].
      intros e' [_ ?]%lookup_delete_Some. auto.
    + split; simpl; [done|]. intros e' [_ ?]%lookup_delete_Some. auto.
Qed.

Lemma session_finished_steps st st' s :
  rtc serial_step st st' → serial_inv st → session_finished st s →
  serial_inv st' ∧ session_finished st' s.
Proof. induction 1; eauto using serial_inv_step, session_finished_step. Qed.

(** Closing stops I/O for good.  Once an owner is revoked, or a close request of
    a session was accepted, no later state admits any command of the session (or of
    any session of the owner), whatever token is presented: the request is refused and
    no queue changes; and the actors concerned have been told to stop. *)
Theorem serial_close_stops_io st :
  rtc serial_step SerialState_init st →
  (∀ o s e st' lease c op, reg_sessions (ss_registry st) !! s = Some e → se_owner_id e = o →
     rtc serial_step (revoke_begin st o).1 st' →
     is_ok (serial_enqueue st' s lease c op).2 = false ∧ (serial_enqueue st' s lease c op).1 = st') ∧
  (∀ s lease0 action st' lease c op, (close_begin st s lease0).2 = Ok action →
     rtc serial_step (close_begin st s lease0).1 st' →
     is_ok (serial_enqueue st' s lease c op).2 = false ∧ (serial_enqueue st' s lease c op).1 = st') ∧
  (∀ o s e, reg_sessions (ss_registry st) !! s = Some e → se_owner_id e = o →
     se_actor e = Some s →
     ∃ a, ss_actors (revoke_begin st o).1 !! s = Some a ∧ ac_shutdown a = true).
Proof.
  intros Hr. pose proof (serial_inv_reachable _ Hr) as Hinv.
  assert (∀ st0 st' s lease c op, serial_inv st0 → session_finished st0 s →
    rtc serial_step st0 st' →
    is_ok (serial_enqueue st' s lease c op).2 = false ∧
    (serial_enqueue st' s lease c op).1 = st') as Hstop.
  { intros st0 st' s lease c op Hi Hf Hs.
    destruct (session_finished_steps _ _ _ Hs Hi Hf) as [Hinv' [_ Hcl]].
    unfold serial_enqueue. destruct (Registry_enqueue _ _ _ _ _ _) as [actors res] eqn:Hq. simpl.
    apply (enqueue_inv st' Hinv') in Hq as [[-> ->]|(e & a & a' & He & Hst & _)];
      [by destruct st'|]. apply Hcl in He. congruence. }
  split_and!.
  - intros o s e st' lease c op He Ho. apply Hstop; [by apply serial_inv_revoke|].
    split; simpl; [by apply (si_entry _ Hinv) in He as [? _]|].
    intros e'. rewrite lookup_fmap, He. simpl. rewrite bool_decide_eq_true_2 by done.
    intros [= <-]. unfold revoke_entry. rewrite begin_close_closing. by destruct (is_none _).
  - intros s lease0 action st' lease c op Hok. apply Hstop; [by apply serial_inv_close_begin|].
    revert Hok. unfold close_begin, Registry_begin_close.
    destruct (reg_sessions _ !! s) as [e|] eqn:He.
    + destruct (LeaseTable_validate _ _ _ _ _ _); [|done]. rewrite begin_close_closing.
      destruct (se_actor e); [|done]. intros _. split; simpl.
      * by apply (si_entry _ Hinv) in He as [? _].
      * intros e'. rewrite lookup_insert_eq. by intros [= <-].
    + unfold Registry_closed_close_result. pose proof (cache_inv_reachable _ Hr) as [Hnd _ Hm].
      destruct (reg_closed_sessions _ !! s) as [cl|] eqn:Hcl; [|done].
      intros _. split; simpl; [|congruence]. apply (si_log _ Hinv).
      rewrite Hm in Hcl. apply elem_of_list_to_map_2 in Hcl. apply list_elem_of_fmap.
      exists (s, cl). split; [done|]. eapply elem_of_sublist; [done|apply sublist_drop].
  - intros o s e He Ho Hac. destruct (si_entry _ Hinv _ _ He) as (_ & _ & l & _ & _ & Hsh).
    unfold entry_shape in Hsh. rewrite Hac in Hsh. destruct Hsh as (_ & _ & a & Ha & _).
    exists (ActorHandle_request_close a). split; [|done]. unfold revoke_begin. simpl.
    rewrite close_actors_lookup, decide_True; [by rewrite Ha|].
    apply (revoke_targets_actors st Hinv o s). eauto.
Qed.

(** ** A concrete session: open, one flush, close *)
Definition sx_s : SessionId := mkSessionId "s1".
Definition sx_r : ResourceId := mkResourceId "serial:1".
Definition sx_o : OwnerId := mkOwnerId "client-a".
Definition sx_tok : LeaseToken := mkLeaseToken (mkLeaseId "lease") 1 Control.
Definition sx_actor (st : SerialState) : ActorChannel :=
  default spawn_serial_actor (ss_actors st !! sx_s).
Definition sx1 : SerialState := (open_reserve SerialState_init sx_r sx_s sx_o (mkLeaseId "lease")).1.
Definition sx2 : SerialState := open_spawn sx1 sx_s.
Definition sx3 : SerialState := (open_finish sx2 sx_s).1.
Definition sx4 : SerialState := (serial_enqueue sx3 sx_s sx_tok (CmdFlush 7) "serial.flush").1.
Definition sx5 : SerialState := (close_begin sx4 sx_s sx_tok).1.
Definition sx6 : SerialState := put_actor sx5 sx_s (actor_break (sx_actor sx5)).
Definition sx7 : SerialState := put_actor sx6 sx_s (actor_drain (sx_actor sx6)).
Definition sx8 : SerialState :=
  actor_finish sx7 sx_s (sx_actor sx7) (close_result_of (Some (Ok ())) "2s").

Lemma sx3_reachable : rtc serial_step SerialState_init sx3.
Proof.
  eapply rtc_l; [apply (serial_open_reserve _ sx_r sx_s sx_o (mkLeaseId "lease")); set_solver|].
  eapply rtc_l; [eapply (serial_open_spawn sx1 sx_s); vm_compute; reflexivity|].
  eapply rtc_l; [eapply (serial_open_finish sx2 sx_s); vm_compute; reflexivity|].
  apply rtc_refl.
Qed.

Lemma sx7_reachable : rtc serial_step SerialState_init sx7.
Proof.
  eapply rtc_r; [|eapply (serial_actor_drain sx6 sx_s); vm_compute; reflexivity].
  eapply rtc_r; [|eapply (serial_actor_break sx5 sx_s);
    [vm_compute; reflexivity..|left; vm_compute; reflexivity]].
  eapply rtc_r; [|apply (serial_close_begin sx4 sx_s sx_tok)].
  eapply rtc_r; [|apply (serial_enqueue_step sx3 sx_s sx_tok (CmdFlush 7) "serial.flush")].
  apply sx3_reachable.
Qed.

Lemma sx8_reachable : rtc serial_step SerialState_init sx8.
Proof.
  eapply rtc_r; [apply sx7_reachable|].
  apply (serial_actor_finish sx7 sx_s); vm_compute; reflexivity.
Qed.

Lemma serial_commands_answered_in_order_witness :
  (ac_replied (sx_actor sx8)).*1 = ac_admitted (sx_actor sx8).
Proof.
  apply (serial_commands_answered_in_order sx8 sx_s (sx_actor sx8) sx8_reachable);
    vm_compute; reflexivity.
Defined.

Lemma serial_session_events_witness :
  session_events (ss_events sx8) sx_s = [(SessionOpened, 1); (SessionClosed, 1)].
Proof.
  apply (proj2 (proj2 (serial_session_events sx8 sx_s sx8_reachable)) sx_tok).
  vm_compute. left.
Defined.

Lemma serial_close_replay_witness :
  close_begin sx8 sx_s sx_tok = (sx8, Ok AlreadyClosed).
Proof.
  apply (proj1 (serial_close_replay sx8 sx_s sx_tok sx8_reachable ltac:(vm_compute; left))).
  vm_compute. left.
Defined.

Lemma serial_open_cancel_restores_witness :
  ss_registry (open_cancel (open_reserve sx8 sx_r (mkSessionId "s2") sx_o (mkLeaseId "l2")).1
                 (mkSessionId "s2")) = ss_registry sx8.
Proof.
  apply (serial_open_cancel_restores sx8 sx_r (mkSessionId "s2") sx_o (mkLeaseId "l2")
           (mkLeaseToken (mkLeaseId "l2") 2 Control) sx8_reachable).
  - apply (bool_decide_eq_false_1 (mkSessionId "s2" ∈ ss_used sx8)). vm_compute. reflexivity.
  - vm_compute. reflexivity.
Defined.

Lemma serial_resource_exclusive_witness :
  is_ok (open_reserve sx8 sx_r (mkSessionId "s2") sx_o (mkLeaseId "l2")).2 = true.
Proof.
  eapply (proj2 (serial_resource_exclusive sx7 sx7_reachable) sx_s
    (mkSessionEntry sx_r sx_o sx_tok Closing (Some sx_s) false) (sx_actor sx7)
    (close_result_of (Some (Ok ())) "2s")); vm_compute; reflexivity.
Defined.

Lemma serial_close_stops_io_witness :
  is_ok (serial_enqueue (revoke_begin sx3 sx_o).1 sx_s sx_tok (CmdFlush 1) "serial.flush").2 = false.
Proof.
  eapply (proj1 (serial_close_stops_io sx3 sx3_reachable) sx_o sx_s
    (mkSessionEntry sx_r sx_o sx_tok Active (Some sx_s) false)).
  - vm_compute. reflexivity.
  - reflexivity.
  - apply rtc_refl.
Defined.

(** ** Combining the outcomes of a revocation (lib.rs) *)
(** [revoke_serial_owner] waits for all targets and reports the first error, with
    the resource it concerns. *)
Definition revoke_serial_result (outcomes : list (ResourceId * HalResult unit)) : HalResult unit :=
  match foldl (λ first '(r, res),
           match first with
           | Some e => Some e
           | None => match res with
                     | Err e => Some (HalError_with_resource_id e r)
                     | Ok _ => None
                     end
           end) None outcomes with
  | Some e => Err e
  | None => Ok ()
  end.
(** [HalRuntime::revoke_owner]: every manager is asked, the first error wins. *)
Definition revoke_owner_result (serial can usb gpio camera : HalResult unit) : HalResult unit :=
  match serial, can, usb, gpio, camera with
  | Err e, _, _, _, _ => Err e
  | Ok _, Err e, _, _, _ => Err e
  | Ok _, Ok _, Err e, _, _ => Err e
  | Ok _, Ok _, Ok _, Err e, _ => Err e
  | Ok _, Ok _, Ok _, Ok _, Err e => Err e
  | Ok _, Ok _, Ok _, Ok _, Ok _ => Ok ()
  end.

Lemma revoke_serial_result_spec outcomes :
  match revoke_serial_result outcomes with
  | Ok _ => Forall (λ o, is_ok o.2 = true) outcomes
  | Err e => ∃ l1 r e0 l2, outcomes = l1 ++ (r, Err e0) :: l2 ∧
      Forall (λ o, is_ok o.2 = true) l1 ∧ e = HalError_with_resource_id e0 r
  end.
Proof.
  unfold revoke_serial_result.
  set (f := λ first '(r, res), _).
  assert (∀ l e, foldl f (Some e) l = Some e) as Hsome.
  { induction l as [|[r [[]|e']] l IH]; intros e; simpl; auto. }
  induction outcomes as [|[r [[]|e]] l IH]; simpl; [constructor| |].
  - change (foldl f None l) with (foldl f None l) in IH |- *.
    destruct (foldl f None l) as [e|]; [|by constructor].
    destruct IH as (l1 & r' & e0 & l2 & -> & ? & ->).
    exists ((r, Ok ()) :: l1), r', e0, l2. split_and!; [done|by constructor|done].
  - rewrite Hsome. exists [], r, e, l. split_and!; [done|constructor|done].
Qed.
