(* ===== verification/CanTypes.v ===== *)
(** * robot-hal-can: frames, filters, configurations, the channel trait

    Models crates/robot-hal-can/src/{lib,frame,filter,config,adapter}.rs.  Payloads
    are lists of bytes; [usize] lengths are [Z]. *)

From S2P Require Import Prelude Core.

(** ** lib.rs *)
Definition MAX_CLASSIC_DATA_BYTES : Z := 8.
Definition MAX_FD_DATA_BYTES : Z := 64.
Definition MAX_CAN_FILTERS : Z := 64.
Definition MAX_CAN_BATCH_FRAMES : Z := 64.
Definition MAX_CAN_ERROR_CLASSES : Z := 10.
Definition DEFAULT_CAN_RX_CAPACITY : Z := 256.
Definition DEFAULT_CAN_TX_CAPACITY : Z := 64.
Definition CAN_CLASSIC_CAPABILITY : string := "can.classic/v1".
Definition CAN_FD_CAPABILITY : string := "can.fd/v1".
Definition CAN_CONFIGURE_CAPABILITY : string := "can.configure/v1".
Definition CAN_ERROR_FRAMES_CAPABILITY : string := "can.error-frames/v1".
Definition CAN_RX_TIMESTAMP_CAPABILITY : string := "can.rx-timestamp/v1".
Definition can_classic_capability : CapabilityId := mkCapabilityId CAN_CLASSIC_CAPABILITY.
Definition can_fd_capability : CapabilityId := mkCapabilityId CAN_FD_CAPABILITY.
Definition can_configure_capability : CapabilityId := mkCapabilityId CAN_CONFIGURE_CAPABILITY.
Definition can_error_frames_capability : CapabilityId := mkCapabilityId CAN_ERROR_FRAMES_CAPABILITY.
Definition can_rx_timestamp_capability : CapabilityId := mkCapabilityId CAN_RX_TIMESTAMP_CAPABILITY.

(** ** frame.rs *)
Inductive CanId := IdStandard (value : Z) | IdExtended (value : Z).
Global Instance CanId_eq_dec : EqDecision CanId.
Proof. solve_decision. Defined.

Inductive CanErrorClass :=
  | TxTimeout | LostArbitration | Controller | Protocol | Transceiver | NoAcknowledgement
  | ClassBusOff | BusError | Restarted | ClassOther.
Global Instance CanErrorClass_eq_dec : EqDecision CanErrorClass.
Proof. solve_decision. Defined.

Inductive CanFrame :=
  | ClassicData (id : CanId) (data : list Z)
  | ClassicRemote (id : CanId) (dlc : Z)
  | FdData (id : CanId) (data : list Z) (bitrate_switch error_state_indicator : bool)
  | ErrorFrame (classes : list CanErrorClass) (data : list Z).
Global Instance CanFrame_eq_dec : EqDecision CanFrame.
Proof. solve_decision. Defined.

Definition invalid_frame (message : string) : HalError :=
  static_error "can.frame.invalid" InvalidArgument "can.frame" false message.

Definition validate_id (id : CanId) : HalResult unit :=
  match id with
  | IdStandard value =>
      if value <=? 0x7ff then Ok () else Err (invalid_frame "standard CAN identifier exceeds 11 bits")
  | IdExtended value =>
      if value <=? 0x1fffffff then Ok ()
      else Err (invalid_frame "extended CAN identifier exceeds 29 bits")
  end.

Definition valid_fd_data_length (length : Z) : bool :=
  ((0 <=? length) && (length <=? 8)) || (length =? 12) || (length =? 16) || (length =? 20)
  || (length =? 24) || (length =? 32) || (length =? 48) || (length =? 64).

Definition CanId_standard (value : Z) : HalResult CanId :=
  if 0x7ff <? value then Err (invalid_frame "standard CAN identifier exceeds 11 bits")
  else Ok (IdStandard value).
Definition CanId_extended (value : Z) : HalResult CanId :=
  if 0x1fffffff <? value then Err (invalid_frame "extended CAN identifier exceeds 29 bits")
  else Ok (IdExtended value).
Definition CanId_value (id : CanId) : Z :=
  match id with IdStandard v => v | IdExtended v => v end.
Definition CanId_is_standard (id : CanId) : bool :=
  match id with IdStandard _ => true | IdExtended _ => false end.
Definition CanId_is_extended (id : CanId) : bool :=
  match id with IdExtended _ => true | IdStandard _ => false end.

Definition CanFrame_classic_data (id : CanId) (data : list Z) : HalResult CanFrame :=
  validate_id id ≫= λ _,
  if MAX_CLASSIC_DATA_BYTES <? len data then
    Err (invalid_frame "Classical CAN data exceeds 8 bytes")
  else Ok (ClassicData id data).
Definition CanFrame_classic_remote (id : CanId) (dlc : Z) : HalResult CanFrame :=
  validate_id id ≫= λ _,
  if MAX_CLASSIC_DATA_BYTES <? dlc then
    Err (invalid_frame "Classical CAN remote DLC exceeds 8")
  else Ok (ClassicRemote id dlc).
Definition CanFrame_fd_data (id : CanId) (data : list Z)
    (bitrate_switch error_state_indicator : bool) : HalResult CanFrame :=
  validate_id id ≫= λ _,
  if negb (valid_fd_data_length (len data)) then
    Err (invalid_frame "CAN FD data length must be one of 0..=8, 12, 16, 20, 24, 32, 48, or 64")
  else Ok (FdData id data bitrate_switch error_state_indicator).
Definition CanFrame_error (classes : list CanErrorClass) (data : list Z) : HalResult CanFrame :=
  if (len classes =? 0) || (MAX_CAN_ERROR_CLASSES <? len classes) then
    Err (invalid_frame "CAN error frame must contain 1..=10 classes")
  else if MAX_CLASSIC_DATA_BYTES <? len data then
    Err (invalid_frame "CAN error diagnostics exceed 8 bytes")
  else Ok (ErrorFrame classes data).

Definition CanFrame_validate (f : CanFrame) : HalResult unit :=
  match f with
  | ClassicData id data =>
      validate_id id ≫= λ _,
      if MAX_CLASSIC_DATA_BYTES <? len data then
        Err (invalid_frame "Classical CAN data exceeds 8 bytes")
      else Ok ()
  | ClassicRemote id dlc =>
      validate_id id ≫= λ _,
      if MAX_CLASSIC_DATA_BYTES <? dlc then
        Err (invalid_frame "Classical CAN remote DLC exceeds 8")
      else Ok ()
  | FdData id data _ _ =>
      validate_id id ≫= λ _,
      if negb (valid_fd_data_length (len data)) then
        Err (invalid_frame
               "CAN FD data length must be one of 0..=8, 12, 16, 20, 24, 32, 48, or 64")
      else Ok ()
  | ErrorFrame classes data =>
      if (len classes =? 0) || (MAX_CAN_ERROR_CLASSES <? len classes) then
        Err (invalid_frame "CAN error frame must contain 1..=10 classes")
      else if MAX_CLASSIC_DATA_BYTES <? len data then
        Err (invalid_frame "CAN error diagnostics exceed 8 bytes")
      else Ok ()
  end.

Definition CanFrame_id (f : CanFrame) : option CanId :=
  match f with
  | ClassicData id _ | ClassicRemote id _ | FdData id _ _ _ => Some id
  | ErrorFrame _ _ => None
  end.
Definition CanFrame_data (f : CanFrame) : list Z :=
  match f with
  | ClassicData _ data | FdData _ data _ _ | ErrorFrame _ data => data
  | ClassicRemote _ _ => []
  end.
Definition CanFrame_dlc (f : CanFrame) : option Z :=
  match f with ClassicRemote _ dlc => Some dlc | _ => None end.
Definition CanFrame_is_error (f : CanFrame) : bool :=
  match f with ErrorFrame _ _ => true | _ => false end.
Definition CanFrame_is_remote (f : CanFrame) : bool :=
  match f with ClassicRemote _ _ => true | _ => false end.
Definition CanFrame_is_data (f : CanFrame) : bool :=
  match f with ClassicData _ _ | FdData _ _ _ _ => true | _ => false end.
Definition CanFrame_bitrate_switch (f : CanFrame) : option bool :=
  match f with FdData _ _ brs _ => Some brs | _ => None end.
Definition CanFrame_error_state_indicator (f : CanFrame) : option bool :=
  match f with FdData _ _ _ esi => Some esi | _ => None end.
Definition CanFrame_error_classes (f : CanFrame) : option (list CanErrorClass) :=
  match f with ErrorFrame classes _ => Some classes | _ => None end.

Inductive CanTimestampSource := Hardware | Kernel | HostMonotonic.
Record CanTimestamp := mkCanTimestamp {
  timestamp_ns : Z;
  timestamp_source : CanTimestampSource;
  clock_domain : string;
}.
Definition CanTimestamp_new (ns : Z) (source : CanTimestampSource) (domain : string)
    : HalResult CanTimestamp :=
  if str_is_empty domain then
    Err (invalid_frame "CAN timestamp clock domain must not be empty")
  else if 255 <? str_len domain then
    Err (invalid_frame "CAN timestamp clock domain exceeds 255 bytes")
  else if negb (is_ascii domain) then
    Err (invalid_frame "CAN timestamp clock domain must be ASCII")
  else Ok (mkCanTimestamp ns source domain).

Record ReceivedCanFrame := mkReceivedCanFrame {
  rcv_frame : CanFrame;
  rcv_timestamp : option CanTimestamp;
}.
Record CanBatchSendError := mkCanBatchSendError {
  batch_error : HalError;
  batch_committed : Z;
}.
Definition CanBatchSendError_new (error : HalError) : CanBatchSendError :=
  mkCanBatchSendError error 0.
Definition CanBatchSendError_backend_prefix (error : HalError) (committed : Z)
    : CanBatchSendError := mkCanBatchSendError error committed.

(** ** filter.rs *)
Inductive CanIdFormat := FmtStandard | FmtExtended | FmtEither.
Record CanFrameClasses := mkCanFrameClasses {
  cls_data : bool; cls_remote : bool; cls_error : bool }.
Definition CanFrameClasses_data_only : CanFrameClasses := mkCanFrameClasses true false false.
Definition CanFrameClasses_any (c : CanFrameClasses) : bool :=
  cls_data c || cls_remote c || cls_error c.
Record CanFilter := mkCanFilter {
  filter_id : Z;
  filter_mask : Z;
  filter_format : CanIdFormat;
  filter_classes : CanFrameClasses;
}.
Definition invalid_filter (message : string) : HalError :=
  static_error "can.filter.invalid" InvalidArgument "can.filter" false message.

Definition CanFilter_new (id mask : Z) (format : CanIdFormat) (classes : CanFrameClasses)
    : HalResult CanFilter :=
  let max := match format with FmtStandard => 0x7ff | _ => 0x1fffffff end in
  if (max <? id) || (max <? mask) then
    Err (invalid_filter "CAN filter ID or mask exceeds format width")
  else if negb (CanFrameClasses_any classes) then
    Err (invalid_filter "CAN filter must enable a frame class")
  else Ok (mkCanFilter id mask format classes).

(** The branch after [frame.is_error()] is unreachable for error frames. *)
Definition CanFilter_matches (f : CanFilter) (frame : CanFrame) : bool :=
  let test id enabled :=
    if negb enabled then false
    else
      let format_matches :=
        match filter_format f with
        | FmtStandard => CanId_is_standard id
        | FmtExtended => negb (CanId_is_standard id)
        | FmtEither => true
        end in
      format_matches
      && (Z.land (CanId_value id) (filter_mask f) =? Z.land (filter_id f) (filter_mask f)) in
  match frame with
  | ErrorFrame _ _ => cls_error (filter_classes f)
  | ClassicData id _ | FdData id _ _ _ => test id (cls_data (filter_classes f))
  | ClassicRemote id _ => test id (cls_remote (filter_classes f))
  end.

Record CanFilterSet := mkCanFilterSet { CanFilterSet_as_slice : list CanFilter }.
Definition CanFilterSet_new (filters : list CanFilter) : HalResult CanFilterSet :=
  if MAX_CAN_FILTERS <? len filters then Err (invalid_filter "CAN filter set exceeds 64 filters")
  else Ok (mkCanFilterSet filters).
Definition CanFilterSet_matches (s : CanFilterSet) (frame : CanFrame) : bool :=
  (len (CanFilterSet_as_slice s) =? 0)
  || existsb (λ f, CanFilter_matches f frame) (CanFilterSet_as_slice s).

(** ** config.rs *)
Inductive CanMode := Classic | Fd.
Global Instance CanMode_eq_dec : EqDecision CanMode.
Proof. solve_decision. Defined.
Record CanBitTiming := mkCanBitTiming {
  bitrate : Z;
  sample_point_permill : option Z;
  sjw : option Z;
}.
Definition invalid_config (message : string) : HalError :=
  static_error "can.configuration.invalid" InvalidArgument "can.configuration" false message.
Definition CanBitTiming_new (rate : Z) (sample : option Z) (width : option Z)
    : HalResult CanBitTiming :=
  if rate =? 0 then Err (invalid_config "CAN bitrate must be nonzero")
  else if is_some_and (λ v, negb ((1 <=? v) && (v <=? 999))) sample then
    Err (invalid_config "CAN sample point must be 1..=999 permill")
  else if is_some_and (λ v, v =? 0) width then Err (invalid_config "CAN SJW must be nonzero")
  else Ok (mkCanBitTiming rate sample width).

Record CanLinkExpectation := mkCanLinkExpectation {
  exp_mode : option CanMode;
  exp_nominal_bitrate : option Z;
  exp_data_bitrate : option Z;
  exp_listen_only : option bool;
  exp_loopback : option bool;
}.
Definition CanLinkExpectation_new (mode : option CanMode) (nominal data : option Z)
    (listen_only loopback : option bool) : HalResult CanLinkExpectation :=
  if is_some_and (λ v, v =? 0) nominal || is_some_and (λ v, v =? 0) data then
    Err (invalid_config "CAN expected bitrates must be nonzero")
  else if bool_decide (mode = Some Classic) && is_some data then
    Err (invalid_config "Classical CAN expectation cannot include data bitrate")
  else Ok (mkCanLinkExpectation mode nominal data listen_only loopback).

Record CanConfigureConfig := mkCanConfigureConfig {
  cfg_mode : CanMode;
  cfg_nominal : CanBitTiming;
  cfg_data : option CanBitTiming;
  cfg_listen_only : bool;
  cfg_loopback : bool;
  cfg_restart_ms : option Z;
}.
Definition CanConfigureConfig_new_with_restart (mode : CanMode) (nominal : CanBitTiming)
    (data : option CanBitTiming) (listen_only loopback : bool) (restart_ms : option Z)
    : HalResult CanConfigureConfig :=
  if is_some_and (λ v, v =? 0) restart_ms then
    Err (invalid_config "CAN restart time must be nonzero when specified")
  else match mode, is_some data with
       | Classic, true =>
           Err (invalid_config "Classical CAN configuration cannot include data timing")
       | Fd, false => Err (invalid_config "CAN FD configuration requires data timing")
       | _, _ => Ok (mkCanConfigureConfig mode nominal data listen_only loopback restart_ms)
       end.
Definition CanConfigureConfig_new (mode : CanMode) (nominal : CanBitTiming)
    (data : option CanBitTiming) (listen_only loopback : bool) : HalResult CanConfigureConfig :=
  CanConfigureConfig_new_with_restart mode nominal data listen_only loopback None.

Inductive CanOpenConfig :=
  | Attach (expectation : CanLinkExpectation)
  | Configure (config : CanConfigureConfig).

(** ** adapter.rs *)
Inductive CanBusState := BusActive | BusWarning | BusPassive | BusOff | BusStopped | BusUnknown.
Global Instance CanBusState_eq_dec : EqDecision CanBusState.
Proof. solve_decision. Defined.
Record CanBusStatus := mkCanBusStatus {
  bus_state : CanBusState;
  tx_error_counter : option Z;
  rx_error_counter : option Z;
}.
Record CanActiveConfig := mkCanActiveConfig {
  act_mode : CanMode;
  act_nominal : CanBitTiming;
  act_data : option CanBitTiming;
  act_listen_only : bool;
  act_loopback : bool;
  act_clock_domain : string;
}.
Definition CanActiveConfig_new (mode : CanMode) (nominal : CanBitTiming)
    (data : option CanBitTiming) (listen_only loopback : bool) (domain : string)
    : HalResult CanActiveConfig :=
  let invalid := static_error "can.configuration.invalid" InvalidArgument
                   "can.active_configuration" false in
  if str_is_empty domain || (255 <? str_len domain) || negb (is_ascii domain) then
    Err (invalid "CAN clock domain must be non-empty ASCII of at most 255 bytes")
  else if bool_decide (mode = Classic) && is_some data
          || bool_decide (mode = Fd) && is_none data then
    Err (invalid "CAN active configuration has incompatible mode and data timing")
  else Ok (mkCanActiveConfig mode nominal data listen_only loopback domain).

(** The [CanChannel] trait: what the actor may ask of a native channel. *)
Class CanChannel (C : Type) := {
  channel_receive : C → C * HalResult (option ReceivedCanFrame);
  channel_send : C → CanFrame → C * HalResult unit;
  channel_bus_status : C → C * HalResult CanBusStatus;
  channel_close : C → C * HalResult unit;
}.

(** ** Theorems *)
Lemma is_ok_true {E T} (r : result E T) : is_ok r = true ↔ ∃ x, r = Ok x.
Proof. destruct r; naive_solver. Qed.

(** Which constructor builds a frame of a given shape. *)
Definition CanFrame_rebuild (f : CanFrame) : HalResult CanFrame :=
  match f with
  | ClassicData id data => CanFrame_classic_data id data
  | ClassicRemote id dlc => CanFrame_classic_remote id dlc
  | FdData id data brs esi => CanFrame_fd_data id data brs esi
  | ErrorFrame classes data => CanFrame_error classes data
  end.

(** [CanFrame::validate] and the validating constructors agree: validating a
    frame succeeds exactly when the constructor of its variant would have built that
    very frame, and otherwise both report the same error. *)
Theorem frame_validate_iff_constructor f :
  CanFrame_rebuild f = (λ _, f) <$> CanFrame_validate f.
Proof.
  destruct f as [id data|id dlc|id data brs esi|classes data]; simpl;
    unfold CanFrame_classic_data, CanFrame_classic_remote, CanFrame_fd_data, CanFrame_error;
    try (destruct (validate_id id) as [[]|]; simpl; [|done]); by repeat case_match.
Qed.

Lemma land_eq_testbit a b m :
  Z.land a m = Z.land b m ↔ ∀ i, 0 <= i → Z.testbit m i = true → Z.testbit a i = Z.testbit b i.
Proof.
  split.
  - intros H i Hi Hm. apply (f_equal (λ z, Z.testbit z i)) in H.
    rewrite !Z.land_spec, Hm, !andb_true_r in H. done.
  - intros H. apply Z.bits_inj'. intros i Hi. rewrite !Z.land_spec.
    destruct (Z.testbit m i) eqn:Hm; [|by rewrite !andb_false_r].
    by rewrite (H i Hi Hm).
Qed.

(** What a filter accepts.  An error frame passes iff the filter enables error
    frames, whatever the identifier bits say.  Any other frame passes iff its class is
    enabled, its identifier format is the filter's (or the filter takes either), and
    its identifier agrees with the filter's on every bit set in the mask. *)
Theorem CanFilter_matches_spec f frame :
  CanFilter_matches f frame = true ↔
  match CanFrame_id frame with
  | None => cls_error (filter_classes f) = true
  | Some id =>
      (if CanFrame_is_remote frame then cls_remote (filter_classes f)
       else cls_data (filter_classes f)) = true ∧
      match filter_format f with
      | FmtStandard => CanId_is_standard id = true
      | FmtExtended => CanId_is_extended id = true
      | FmtEither => True
      end ∧
      ∀ i, 0 <= i → Z.testbit (filter_mask f) i = true →
        Z.testbit (CanId_value id) i = Z.testbit (filter_id f) i
  end.
Proof.
  unfold CanFilter_matches.
  destruct frame as [id data|id dlc|id data brs esi|classes data]; simpl; [..|done];
    (destruct (_ (filter_classes f)); simpl; [|naive_solver]);
    rewrite andb_true_iff, Z.eqb_eq, land_eq_testbit;
    destruct (filter_format f), id; simpl; naive_solver.
Qed.
