(* ===== verification/CanActor.v ===== *)
(** * robot-hal-runtime: the CAN channel actor

    Models crates/robot-hal-runtime/src/can_actor.rs: the worker thread that owns one
    native CAN channel and serves every session attached to it.  Reply channels,
    cleanup signals and termination flags are identified by numbers, and what is sent
    on them is the output of the operations.  [Instant]s are integers; within one
    iteration of the actor loop all readings of the clock are one value [now]. *)

From S2P Require Import Prelude Core Lifecycle CanTypes.

Definition MANAGEMENT_QUEUE_CAPACITY : Z := 64.
Definition CLEANUP_QUEUE_CAPACITY : Z := 64.
Definition MANAGEMENT_COMMAND_BUDGET : nat := 16.
Definition CLEANUP_COMMAND_BUDGET : nat := 16.
Definition MAX_PENDING_RECEIVES_PER_SESSION : Z := 1.
(** lib.rs: the builder clamps the ring capacities. *)
Definition MAX_RUNTIME_CAN_RX_CAPACITY : Z := 4096.
Definition MAX_RUNTIME_CAN_TX_CAPACITY : Z := 4096.
Definition HalRuntimeBuilder_can_rx_capacity (capacity : Z) : Z :=
  Z.min (Z.max capacity 1) MAX_RUNTIME_CAN_RX_CAPACITY.
Definition HalRuntimeBuilder_can_tx_capacity (capacity : Z) : Z :=
  Z.min (Z.max capacity 1) MAX_RUNTIME_CAN_TX_CAPACITY.

(** ** Data *)
Record ActorSessionSpec := mkActorSessionSpec {
  spec_session_id : SessionId;
  spec_owner_id : OwnerId;
  spec_config : CanOpenConfig;
  spec_filters : CanFilterSet;
  spec_activation : option LeaseToken;
  spec_cancelled : bool;
  spec_cleanup_done : Z;
}.
Record PendingReceive := mkPendingReceive {
  pr_max_frames : Z;
  pr_deadline : Z;
  pr_reply : Z;
}.
Record ActorSession := mkActorSession {
  as_owner_id : OwnerId;
  as_activation : option LeaseToken;
  as_cancelled : bool;
  as_cleanup_done : Z;
  as_filters : CanFilterSet;
  as_received : list ReceivedCanFrame;
  as_dropped : Z;
  as_receive_error : option HalError;
  as_pending_receive : option PendingReceive;
}.

Inductive CanCommand :=
  | AddSession (session : ActorSessionSpec) (reply : Z)
  | SendBatch (session_id : SessionId) (frames : list CanFrame) (reply : Z)
  | Receive (session_id : SessionId) (max_frames deadline : Z) (reply : Z)
  | ReplaceFilters (session_id : SessionId) (filters : CanFilterSet) (reply : Z)
  | BusStatus (session_id : SessionId) (reply : Z)
  | RemoveSession (session_id : SessionId) (cleanup_done : option Z) (reply : Z).

Inductive CanOutput :=
  | ReplyUnit (reply : Z) (r : HalResult unit)
  | ReplySend (reply : Z) (r : result CanBatchSendError unit)
  | ReplyFrames (reply : Z) (r : HalResult (list ReceivedCanFrame))
  | ReplyStatus (reply : Z) (r : HalResult CanBusStatus)
  | ReplyRemove (reply : Z) (last_session : bool) (r : HalResult unit)
  | CleanupDone (signal : Z)
  | Terminated (session_id : SessionId) (failed : bool).

(** ** Errors *)
Definition queue_full (operation : string) (capacity : Z) : HalError :=
  runtime_error "runtime.queue.full" Unavailable operation true
    ("the bounded CAN queue has reached its " +:+ to_string capacity +:+ "-item capacity").
Definition actor_unavailable (operation : string) : HalError :=
  runtime_error "runtime.actor.unavailable" Internal operation false
    "the CAN actor worker is unavailable".
Definition session_error (name operation : string) (resource_id : ResourceId) (message : string)
    : HalError :=
  HalError_with_resource_id (runtime_error name Conflict operation false message) resource_id.
Definition actor_session_closed (operation : string) (resource_id : ResourceId) : HalError :=
  session_error "runtime.session.closed" operation resource_id "the CAN session is closed".

Definition CanCommand_reject_unavailable (c : CanCommand) : list CanOutput :=
  match c with
  | AddSession session reply =>
      [CleanupDone (spec_cleanup_done session);
       ReplyUnit reply (Err (actor_unavailable "can.session"))]
  | ReplaceFilters _ _ reply => [ReplyUnit reply (Err (actor_unavailable "can.session"))]
  | RemoveSession _ cleanup_done reply =>
      option_list (CleanupDone <$> cleanup_done)
      ++ [ReplyRemove reply false (Err (actor_unavailable "can.close"))]
  | SendBatch _ _ reply =>
      [ReplySend reply (Err (CanBatchSendError_new (actor_unavailable "can.send_batch")))]
  | Receive _ _ _ reply => [ReplyFrames reply (Err (actor_unavailable "can.receive"))]
  | BusStatus _ reply => [ReplyStatus reply (Err (actor_unavailable "can.status"))]
  end.

(** ** Sessions: the receive ring *)
Definition new_session (owner_id : OwnerId) (filters : CanFilterSet)
    (activation : option LeaseToken) (cancelled : bool) (cleanup_done : Z) : ActorSession :=
  mkActorSession owner_id activation cancelled cleanup_done filters [] 0 None None.
Definition new_session_of (spec : ActorSessionSpec) : ActorSession :=
  new_session (spec_owner_id spec) (spec_filters spec) (spec_activation spec)
    (spec_cancelled spec) (spec_cleanup_done spec).

Definition set_ring (s : ActorSession) (received : list ReceivedCanFrame) (dropped : Z)
    : ActorSession :=
  mkActorSession (as_owner_id s) (as_activation s) (as_cancelled s) (as_cleanup_done s)
    (as_filters s) received dropped (as_receive_error s) (as_pending_receive s).
Definition set_receive_error (s : ActorSession) (e : option HalError) : ActorSession :=
  mkActorSession (as_owner_id s) (as_activation s) (as_cancelled s) (as_cleanup_done s)
    (as_filters s) (as_received s) (as_dropped s) e (as_pending_receive s).
Definition set_pending_receive (s : ActorSession) (p : option PendingReceive) : ActorSession :=
  mkActorSession (as_owner_id s) (as_activation s) (as_cancelled s) (as_cleanup_done s)
    (as_filters s) (as_received s) (as_dropped s) (as_receive_error s) p.
Definition set_filters (s : ActorSession) (f : CanFilterSet) : ActorSession :=
  mkActorSession (as_owner_id s) (as_activation s) (as_cancelled s) (as_cleanup_done s)
    f (as_received s) (as_dropped s) (as_receive_error s) (as_pending_receive s).

(** The body of [fan_out] for one session. *)
Definition offer (rx_capacity : Z) (frame : ReceivedCanFrame) (s : ActorSession) : ActorSession :=
  if negb (CanFilterSet_matches (as_filters s) (rcv_frame frame)) then s
  else
    let '(received, dropped) :=
      if len (as_received s) =? rx_capacity
      then (tail (as_received s), saturating_add u64_max (as_dropped s) 1)
      else (as_received s, as_dropped s) in
    set_ring s (received ++ [frame]) dropped.

(** [ErrorContext::new(..).expect(..)]; [lag_context_eq] shows it does not panic. *)
Definition lag_context (dropped : Z) : ErrorContext :=
  match ErrorContext_new [("dropped_count", to_string dropped)] with
  | Ok context => context
  | Err _ => ErrorContext_default
  end.
Definition lagged_error (dropped : Z) (resource_id : ResourceId) : HalError :=
  HalError_with_resource_id
    (HalError_with_context
       (runtime_error "can.receive.lagged" Unavailable "can.receive" true
          "the bounded CAN receive ring dropped oldest frames") (lag_context dropped))
    resource_id.

Definition take_receive_result (s : ActorSession) (max_frames : Z) (resource_id : ResourceId)
    : ActorSession * option (HalResult (list ReceivedCanFrame)) :=
  if 0 <? as_dropped s then
    (set_ring s (as_received s) 0, Some (Err (lagged_error (as_dropped s) resource_id)))
  else match as_receive_error s with
       | Some error =>
           (set_receive_error s None, Some (Err (HalError_with_resource_id error resource_id)))
       | None =>
           if len (as_received s) =? 0 then (s, None)
           else
             let count := Z.min max_frames (len (as_received s)) in
             (set_ring s (drop (Z.to_nat count) (as_received s)) (as_dropped s),
              Some (Ok (take (Z.to_nat count) (as_received s))))
       end.

(** The body of [service_pending_receives] for one session; [reply_closed] tells
    whether the requester is gone. *)
Definition service_session (now : Z) (reply_closed : Z → bool) (resource_id : ResourceId)
    (s : ActorSession) : ActorSession * list CanOutput :=
  match as_pending_receive s with
  | None => (s, [])
  | Some pending =>
      let s := set_pending_receive s None in
      if reply_closed (pr_reply pending) then (s, [])
      else
        let '(s', result) := take_receive_result s (pr_max_frames pending) resource_id in
        match result with
        | Some result => (s', [ReplyFrames (pr_reply pending) result])
        | None =>
            if pr_deadline pending <=? now then (s', [ReplyFrames (pr_reply pending) (Ok [])])
            else (set_pending_receive s' (Some pending), [])
        end
  end.

Definition sessions_outputs (f : ActorSession → list CanOutput)
    (sessions : gmap SessionId ActorSession) : list CanOutput :=
  map_to_list sessions ≫= λ '(_, s), f s.

Definition service_pending_receives (now : Z) (reply_closed : Z → bool)
    (resource_id : ResourceId) (sessions : gmap SessionId ActorSession)
    : gmap SessionId ActorSession * list CanOutput :=
  ((λ s, (service_session now reply_closed resource_id s).1) <$> sessions,
   sessions_outputs (λ s, (service_session now reply_closed resource_id s).2) sessions).

Definition fan_out (frame : ReceivedCanFrame) (sessions : gmap SessionId ActorSession)
    (rx_capacity : Z) (resource_id : ResourceId) (now : Z) (reply_closed : Z → bool)
    : gmap SessionId ActorSession * list CanOutput :=
  service_pending_receives now reply_closed resource_id (offer rx_capacity frame <$> sessions).

(** ** Configuration sharing *)
Definition expectation_mismatch (e : CanLinkExpectation) (a : CanActiveConfig) : bool :=
  is_some_and (λ v, bool_decide (v ≠ act_mode a)) (exp_mode e)
  || is_some_and (λ v, negb (v =? bitrate (act_nominal a))) (exp_nominal_bitrate e)
  || is_some_and (λ v, is_none_or (λ t, negb (bitrate t =? v)) (act_data a)) (exp_data_bitrate e)
  || is_some_and (λ v, negb (eqb v (act_listen_only a))) (exp_listen_only e)
  || is_some_and (λ v, negb (eqb v (act_loopback a))) (exp_loopback e).
Definition compatible_configuration (active : CanActiveConfig) (requested : CanOpenConfig)
    (resource_id : ResourceId) : HalResult unit :=
  let mismatch := match requested with
                  | Attach expectation => expectation_mismatch expectation active
                  | Configure _ => true
                  end in
  if mismatch then
    Err (HalError_with_resource_id
           (runtime_error "can.configuration.mismatch" Conflict "can.open" false
              "the requested CAN configuration is incompatible with the live shared actor")
           resource_id)
  else Ok ().

(** ** Bus state events *)
Definition bus_event_kind (state : CanBusState) : RuntimeEventKind :=
  match state with
  | BusActive => CanBusActive
  | BusWarning => CanBusWarning
  | BusPassive => CanBusPassive
  | BusOff => CanBusOff
  | BusStopped => CanBusStopped
  | BusUnknown => CanBusUnknown
  end.
Definition publish_health_for_session (kind : RuntimeEventKind) (resource_id : ResourceId)
    (session_id : SessionId) (s : ActorSession) (events : EventPublisher) : EventPublisher :=
  match as_activation s with
  | Some token => EventPublisher_publish events kind resource_id session_id (as_owner_id s)
                    (token_generation token)
  | None => events
  end.
Definition publish_bus_transition (state : CanBusState) (previous : option CanBusState)
    (sessions : gmap SessionId ActorSession) (resource_id : ResourceId)
    (events : EventPublisher) : option CanBusState * EventPublisher :=
  (Some state,
   match previous with
   | None => events
   | Some old =>
       if bool_decide (old = state) then events
       else foldl (λ ev '(id, s),
                     publish_health_for_session (bus_event_kind state) resource_id id s ev)
              events (map_to_list sessions)
   end).

Definition reject_all_sessions (sessions : gmap SessionId ActorSession)
    (resource_id : ResourceId) : gmap SessionId ActorSession * list CanOutput :=
  ((λ s, set_pending_receive s None) <$> sessions,
   sessions_outputs (λ s,
     option_list ((λ p, ReplyFrames (pr_reply p)
       (Err (HalError_with_resource_id (actor_unavailable "can.receive") resource_id)))
         <$> as_pending_receive s)
     ++ [CleanupDone (as_cleanup_done s)]) sessions).

(** ** The actor *)
Section actor.
Context {C : Type} `{!CanChannel C}.

Record CanActorState := mkCanActorState {
  ca_channel : C;
  ca_sessions : gmap SessionId ActorSession;
  ca_tx_reserved : Z;
  ca_last_bus_state : option CanBusState;
  ca_events : EventPublisher;
}.

(** What is fixed for the life of the actor, and what one iteration observes of the
    outside: the clock, whether a native close would exceed its deadline (rendered as
    [env_deadline]) and which requesters are gone. *)
Record ActorEnv := mkActorEnv {
  env_active_config : CanActiveConfig;
  env_resource_id : ResourceId;
  env_rx_capacity : Z;
  env_now : Z;
  env_slow_close : bool;
  env_deadline : string;
  env_reply_closed : Z → bool;
}.

Definition set_sessions (st : CanActorState) (m : gmap SessionId ActorSession) : CanActorState :=
  mkCanActorState (ca_channel st) m (ca_tx_reserved st) (ca_last_bus_state st) (ca_events st).

(** [AtomicUsize::fetch_sub], with its wrap-around. *)
Definition fetch_sub (x n : Z) : Z := (x - n) mod 2 ^ 64.

(** The transmission loop of [SendBatch]. *)
Fixpoint send_frames (channel : C) (frames : list CanFrame) (committed : Z)
    : C * result CanBatchSendError unit :=
  match frames with
  | [] => (channel, Ok ())
  | frame :: frames =>
      match channel_send channel frame with
      | (channel, Err error) => (channel, Err (CanBatchSendError_backend_prefix error committed))
      | (channel, Ok _) => send_frames channel frames (committed + 1)
      end
  end.

(** [channel.close()] under the close deadline. *)
Definition timed_close (env : ActorEnv) (what : string) (channel : C) : C * HalResult unit :=
  let '(channel, backend_result) := channel_close channel in
  (channel,
   if env_slow_close env then
     Err (HalError_with_resource_id
            (runtime_error "runtime.session.close_timeout" Unavailable "can.close" false
               ("CAN " +:+ what +:+ " exceeded its " +:+ env_deadline env +:+ " deadline"))
            (env_resource_id env))
   else backend_result).

Definition execute_can_command (env : ActorEnv) (st : CanActorState) (command : CanCommand)
    : CanActorState * list CanOutput * bool :=
  let sessions := ca_sessions st in
  let resource_id := env_resource_id env in
  match command with
  | AddSession session reply =>
      if spec_cancelled session then
        (st, [CleanupDone (spec_cleanup_done session);
              ReplyUnit reply (Err (actor_session_closed "can.open" resource_id))], false)
      else
        match compatible_configuration (env_active_config env) (spec_config session) resource_id with
        | Err e => (st, [CleanupDone (spec_cleanup_done session); ReplyUnit reply (Err e)], false)
        | Ok _ =>
            if is_some (sessions !! spec_session_id session) then
              (st, [CleanupDone (spec_cleanup_done session);
                    ReplyUnit reply (Err (session_error "runtime.session.conflict" "can.open"
                      resource_id "the CAN actor already contains this session"))], false)
            else
              (set_sessions st (<[spec_session_id session := new_session_of session]> sessions),
               [ReplyUnit reply (Ok ())], false)
        end
  | SendBatch session_id frames reply =>
      let '(channel, result) :=
        if is_some (sessions !! session_id) then send_frames (ca_channel st) frames 0
        else (ca_channel st,
              Err (CanBatchSendError_new (actor_session_closed "can.send_batch" resource_id))) in
      (mkCanActorState channel sessions (fetch_sub (ca_tx_reserved st) (len frames))
         (ca_last_bus_state st) (ca_events st),
       [ReplySend reply result], false)
  | Receive session_id max_frames deadline reply =>
      match sessions !! session_id with
      | None =>
          (st, [ReplyFrames reply (Err (actor_session_closed "can.receive" resource_id))], false)
      | Some session =>
          if is_some (as_pending_receive session) then
            (st, [ReplyFrames reply (Err (HalError_with_resource_id
                    (queue_full "can.receive" MAX_PENDING_RECEIVES_PER_SESSION) resource_id))],
             false)
          else
            let '(session', result) := take_receive_result session max_frames resource_id in
            match result with
            | Some result =>
                (set_sessions st (<[session_id := session']> sessions),
                 [ReplyFrames reply result], false)
            | None =>
                if deadline <=? env_now env then
                  (set_sessions st (<[session_id := session']> sessions),
                   [ReplyFrames reply (Ok [])], false)
                else
                  (set_sessions st
                     (<[session_id := set_pending_receive session'
                          (Some (mkPendingReceive max_frames deadline reply))]> sessions),
                   [], false)
            end
      end
  | ReplaceFilters session_id filters reply =>
      match sessions !! session_id with
      | None =>
          (st, [ReplyUnit reply (Err (actor_session_closed "can.replace_filters" resource_id))],
           false)
      | Some session =>
          (set_sessions st (<[session_id := set_filters session filters]> sessions),
           [ReplyUnit reply (Ok ())], false)
      end
  | BusStatus session_id reply =>
      if is_some (sessions !! session_id) then
        let '(channel, result) := channel_bus_status (ca_channel st) in
        match result with
        | Ok status =>
            let '(last, events) :=
              publish_bus_transition (bus_state status) (ca_last_bus_state st) sessions
                resource_id (ca_events st) in
            (mkCanActorState channel sessions (ca_tx_reserved st) last events,
             [ReplyStatus reply (Ok status)], false)
        | Err e =>
            (mkCanActorState channel sessions (ca_tx_reserved st) (ca_last_bus_state st)
               (ca_events st), [ReplyStatus reply (Err e)], false)
        end
      else
        (st, [ReplyStatus reply (Err (actor_session_closed "can.status" resource_id))], false)
  | RemoveSession session_id cleanup_done reply =>
      let signal := option_list (CleanupDone <$> cleanup_done) in
      match sessions !! session_id with
      | None =>
          (st, signal ++ [ReplyRemove reply false
                            (Err (actor_session_closed "can.close" resource_id))], false)
      | Some removed =>
          let sessions := delete session_id sessions in
          let rejected := option_list ((λ p, ReplyFrames (pr_reply p)
            (Err (actor_session_closed "can.receive" resource_id))) <$> as_pending_receive removed) in
          if bool_decide (sessions = ∅) then
            let '(channel, result) := timed_close env "channel close" (ca_channel st) in
            (mkCanActorState channel sessions (ca_tx_reserved st) (ca_last_bus_state st)
               (ca_events st),
             rejected ++ [Terminated session_id (negb (is_ok result));
                          ReplyRemove reply true result;
                          CleanupDone (as_cleanup_done removed)] ++ signal, true)
          else
            (set_sessions st sessions,
             rejected ++ [CleanupDone (as_cleanup_done removed)] ++ signal
             ++ [ReplyRemove reply false (Ok ())], false)
      end
  end.

Definition prune_cancelled_sessions (env : ActorEnv) (st : CanActorState)
    : CanActorState * list CanOutput * option (HalResult unit) :=
  let is_cancelled (s : ActorSession) := as_cancelled s && is_none (as_activation s) in
  let cancelled := filter (λ kv, is_cancelled kv.2 = true) (ca_sessions st) in
  if bool_decide (cancelled = ∅) then (st, [], None)
  else
    let sessions := filter (λ kv, is_cancelled kv.2 = false) (ca_sessions st) in
    let rejected := sessions_outputs (λ s, option_list ((λ p, ReplyFrames (pr_reply p)
      (Err (actor_session_closed "can.receive" (env_resource_id env)))) <$> as_pending_receive s))
      cancelled in
    let signals := sessions_outputs (λ s, [CleanupDone (as_cleanup_done s)]) cancelled in
    if bool_decide (sessions = ∅) then
      let '(channel, result) := timed_close env "provisional cleanup" (ca_channel st) in
      (mkCanActorState channel sessions (ca_tx_reserved st) (ca_last_bus_state st)
         (ca_events st), rejected ++ signals, Some result)
    else (set_sessions st sessions, rejected ++ signals, None).

(** [reject_remaining]: the new [tx_reserved] and the replies. *)
Fixpoint reject_remaining (commands : list CanCommand) (tx_reserved : Z) : Z * list CanOutput :=
  match commands with
  | [] => (tx_reserved, [])
  | command :: commands =>
      let '(tx, here) :=
        match command with
        | SendBatch _ frames reply =>
            (fetch_sub tx_reserved (len frames),
             [ReplySend reply (Err (CanBatchSendError_new (actor_unavailable "can.send_batch")))])
        | command => (tx_reserved, CanCommand_reject_unavailable command)
        end in
      let '(tx, rest) := reject_remaining commands tx in
      (tx, here ++ rest)
  end.

(** One of the two budgeted command loops: state, outputs, commands left in the
    queue, and how the loop ended. *)
Inductive LoopEnd := LoopClosed | LoopEmpty | LoopBudget.
Fixpoint run_commands (budget : nat) (env : ActorEnv) (st : CanActorState)
    (queue : list CanCommand) : CanActorState * list CanOutput * list CanCommand * LoopEnd :=
  match budget with
  | O => (st, [], queue, LoopBudget)
  | S budget =>
      match queue with
      | [] => (st, [], [], LoopEmpty)
      | command :: queue =>
          let '(st, out, should_close) := execute_can_command env st command in
          if should_close : bool then (st, out, queue, LoopClosed)
          else
            let '(st, out', queue, how) := run_commands budget env st queue in
            (st, out ++ out', queue, how)
      end
  end.

Definition set_tx (st : CanActorState) (tx : Z) : CanActorState :=
  mkCanActorState (ca_channel st) (ca_sessions st) tx (ca_last_bus_state st) (ca_events st).

(** [reject_remaining] on both queues before the actor returns. *)
Definition reject_queues (st : CanActorState) (cleanup commands : list CanCommand)
    : CanActorState * list CanOutput :=
  let '(tx, out1) := reject_remaining cleanup (ca_tx_reserved st) in
  let '(tx, out2) := reject_remaining commands tx in
  (set_tx st tx, out1 ++ out2).

(** The count carried by a [can.receive.lagged] error of the native channel. *)
Definition native_lag (error : HalError) : Z :=
  match context_map (err_context error) !! "dropped_count" with
  | Some value => default 1 (parse_u64 value)
  | None => 1
  end.

(** What a native receive does to the sessions. *)
Definition handle_received (env : ActorEnv) (sessions : gmap SessionId ActorSession)
    (received : HalResult (option ReceivedCanFrame))
    : gmap SessionId ActorSession * list CanOutput :=
  match received with
  | Ok (Some frame) =>
      match CanFrame_validate (rcv_frame frame) with
      | Ok _ => fan_out frame sessions (env_rx_capacity env) (env_resource_id env) (env_now env)
                  (env_reply_closed env)
      | Err error =>
          ((λ s, set_receive_error s
                   (Some (HalError_with_resource_id error (env_resource_id env)))) <$> sessions, [])
      end
  | Ok None => (sessions, [])
  | Err error =>
      if bool_decide (ErrorName_as_str (err_name error) = "can.receive.lagged") then
        ((λ s, set_ring s (as_received s)
                 (saturating_add u64_max (as_dropped s) (native_lag error))) <$> sessions, [])
      else ((λ s, set_receive_error s (Some error)) <$> sessions, [])
  end.

(** One iteration of the loop of [run_actor].  [disconnected]: every sender of the
    command queue is gone.  The last component is the actor's result when it
    returns. *)
Definition actor_iteration (env : ActorEnv) (st : CanActorState)
    (cleanup commands : list CanCommand) (disconnected : bool)
    : CanActorState * list CanOutput * list CanCommand * list CanCommand
      * option (HalResult unit) :=
  let '(st, out0, pruned) := prune_cancelled_sessions env st in
  match pruned with
  | Some result =>
      let '(st, rej) := reject_queues st cleanup commands in
      (st, out0 ++ rej, [], [], Some result)
  | None =>
      let '(st, out1, cleanup, how1) := run_commands CLEANUP_COMMAND_BUDGET env st cleanup in
      match how1 with
      | LoopClosed =>
          let '(st, rej) := reject_queues st cleanup commands in
          (st, out0 ++ out1 ++ rej, [], [], Some (Ok ()))
      | _ =>
          let '(st, out2, commands, how2) :=
            run_commands MANAGEMENT_COMMAND_BUDGET env st commands in
          match how2 with
          | LoopClosed =>
              let '(st, rej) := reject_queues st cleanup commands in
              (st, out0 ++ out1 ++ out2 ++ rej, [], [], Some (Ok ()))
          | _ =>
              let disconnected :=
                disconnected && match how2 with LoopEmpty => true | _ => false end in
              if bool_decide (ca_sessions st = ∅) then
                (st, out0 ++ out1 ++ out2, cleanup, commands, Some (Ok ()))
              else
                let '(channel, received) := channel_receive (ca_channel st) in
                let '(sessions, out3) := handle_received env (ca_sessions st) received in
                let '(sessions, out4) :=
                  service_pending_receives (env_now env) (env_reply_closed env)
                    (env_resource_id env) sessions in
                let st := mkCanActorState channel sessions (ca_tx_reserved st)
                            (ca_last_bus_state st) (ca_events st) in
                let out := out0 ++ out1 ++ out2 ++ out3 ++ out4 in
                if disconnected then
                  let '(channel, close_result) := channel_close (ca_channel st) in
                  let '(sessions, out5) := reject_all_sessions sessions (env_resource_id env) in
                  let '(tx, out6) := reject_remaining cleanup (ca_tx_reserved st) in
                  (mkCanActorState channel sessions tx (ca_last_bus_state st) (ca_events st),
                   out ++ out5 ++ out6, [], commands, Some close_result)
                else (st, out, cleanup, commands, None)
          end
      end
  end.

(** ** The handle's admission of a batch

    [tx_reserved] is claimed by a compare-exchange loop, which is one atomic
    read-modify-write; then the command is sent, and a refused send gives the claim
    back.  Other threads may run between the two. *)
Definition claim_tx (tx_capacity tx_reserved frames : Z) : option Z :=
  match checked_add usize_max tx_reserved frames with
  | None => None
  | Some next => if tx_capacity <? next then None else Some next
  end.
Definition send_claimed (tx_reserved : Z) (commands : list CanCommand) (alive : bool)
    (command : CanCommand) (frames : Z) : Z * list CanCommand * HalResult unit :=
  if negb alive then
    (fetch_sub tx_reserved frames, commands, Err (actor_unavailable "can.send_batch"))
  else if MANAGEMENT_QUEUE_CAPACITY <=? len commands then
    (fetch_sub tx_reserved frames, commands,
     Err (queue_full "can.send_batch" MANAGEMENT_QUEUE_CAPACITY))
  else (tx_reserved, commands ++ [command], Ok ()).
(** The whole call when no other thread interferes. *)
Definition CanActorHandle_try_send_batch (tx_capacity : Z) (tx_reserved : Z)
    (commands : list CanCommand) (alive : bool) (command : CanCommand) (frames : Z)
    : Z * list CanCommand * HalResult unit :=
  match claim_tx tx_capacity tx_reserved frames with
  | None => (tx_reserved, commands, Err (queue_full "can.send_batch" tx_capacity))
  | Some next => send_claimed next commands alive command frames
  end.
Definition CanActorHandle_try_command (commands : list CanCommand) (alive : bool)
    (command : CanCommand) (operation : string) : list CanCommand * HalResult unit :=
  if negb alive then (commands, Err (actor_unavailable operation))
  else if MANAGEMENT_QUEUE_CAPACITY <=? len commands then
    (commands, Err (queue_full operation MANAGEMENT_QUEUE_CAPACITY))
  else (commands ++ [command], Ok ()).
Definition CanActorHandle_try_cleanup (cleanup : list CanCommand) (alive : bool)
    (command : CanCommand) : list CanCommand * HalResult unit :=
  if negb alive then (cleanup, Err (actor_unavailable "can.cleanup"))
  else if CLEANUP_QUEUE_CAPACITY <=? len cleanup then
    (cleanup, Err (queue_full "can.cleanup" CLEANUP_QUEUE_CAPACITY))
  else (cleanup ++ [command], Ok ()).
End actor.
Global Arguments CanActorState : clear implicits.

(** ** The lag report *)
Lemma lag_context_eq dropped :
  dropped <= u64_max →
  lag_context dropped = mkErrorContext {["dropped_count" := to_string dropped]}.
Proof.
  intros Hd. unfold lag_context.
  assert (ErrorContext_new [("dropped_count", to_string dropped)]
          = Ok (mkErrorContext {["dropped_count" := to_string dropped]})) as ->; [|done].
  apply ErrorContext_new_iff. pose proof (to_string_length dropped Hd).
  split; [|done]. split_and!.
  - vm_compute. congruence.
  - constructor; [|constructor]. split; [vm_compute; reflexivity|].
    unfold ERROR_CONTEXT_MAX_VALUE_BYTES. simpl. lia.
  - by apply NoDup_singleton.
  - unfold ERROR_CONTEXT_MAX_TOTAL_BYTES, context_bytes. simpl.
    change (str_len "dropped_count") with 13. lia.
Qed.

(** ** A session's receive side refines a lossy stream reader

    The abstract reader has a position in the stream of the frames that arrived and passed the
    session's filters, and a count of the frames that the native channel said it had lost
    before they arrived, of which it has been told.  A read yields the frames at the position,
    or reports a loss, or reports another error; nothing else moves the reader. *)
(** What a native receive does to one session, but for the answer to a waiting requester,
    which is a read; see [handle_received_session]. *)
Definition session_received (cap : Z) (r : ResourceId) (native : HalResult (option ReceivedCanFrame))
    (s : ActorSession) : ActorSession :=
  match native with
  | Ok (Some frame) =>
      match CanFrame_validate (rcv_frame frame) with
      | Ok _ => offer cap frame s
      | Err error => set_receive_error s (Some (HalError_with_resource_id error r))
      end
  | Ok None => s
  | Err error =>
      if bool_decide (ErrorName_as_str (err_name error) = "can.receive.lagged") then
        set_ring s (as_received s) (saturating_add u64_max (as_dropped s) (native_lag error))
      else set_receive_error s (Some error)
  end.
Lemma handle_received_session env sessions native :
  let serve s := (service_session (env_now env) (env_reply_closed env) (env_resource_id env) s).1 in
  let receive := session_received (env_rx_capacity env) (env_resource_id env) native in
  (handle_received env sessions native).1 = receive <$> sessions ∨
  (handle_received env sessions native).1 = (λ s, serve (receive s)) <$> sessions.
Proof.
  intros serve receive. unfold handle_received, receive, session_received.
  destruct native as [[frame|]|error].
  - destruct (CanFrame_validate _); [|by left]. right. unfold fan_out, service_pending_receives. cbn.
    by rewrite <- map_fmap_compose.
  - left. by rewrite map_fmap_id.
  - left. by destruct (bool_decide _).
Qed.

(** A native receive, a read by the session's owner (or the service of one that waits), a
    change of the filters. *)
Inductive RingOp :=
  | Received (native : HalResult (option ReceivedCanFrame))
  | TakeUpTo (max_frames : Z)
  | Refilter (filters : CanFilterSet).

Definition ReadOutcome : Type := HalResult (list ReceivedCanFrame).
(** The frames of the stream and the native loss that a native receive adds. *)
Definition arrival (s : ActorSession) (native : HalResult (option ReceivedCanFrame))
    : list ReceivedCanFrame :=
  match native with
  | Ok (Some frame) =>
      if is_ok (CanFrame_validate (rcv_frame frame)) && CanFilterSet_matches (as_filters s) (rcv_frame frame)
      then [frame] else []
  | _ => []
  end.
Definition native_loss (native : HalResult (option ReceivedCanFrame)) : Z :=
  match native with
  | Err error =>
      if bool_decide (ErrorName_as_str (err_name error) = "can.receive.lagged")
      then native_lag error else 0
  | Ok _ => 0
  end.
Definition op_loss (op : RingOp) : Z := match op with Received native => native_loss native | _ => 0 end.
Definition ops_loss (ops : list RingOp) : Z := foldr (λ op n, op_loss op + n) 0 ops.

(** The reads come with the native loss known when they were made. *)
Record RingRun := mkRingRun {
  rr_session : ActorSession;
  rr_stream : list ReceivedCanFrame;
  rr_lost : Z;
  rr_reads : list (Z * ReadOutcome);
}.
Definition ring_step (cap : Z) (r : ResourceId) (run : RingRun) (op : RingOp) : RingRun :=
  let s := rr_session run in
  match op with
  | Received native =>
      mkRingRun (session_received cap r native s) (rr_stream run ++ arrival s native)
        (rr_lost run + native_loss native) (rr_reads run)
  | TakeUpTo n =>
      let '(s', res) := take_receive_result s n r in
      mkRingRun s' (rr_stream run) (rr_lost run)
        (rr_reads run ++ ((λ o, (rr_lost run, o)) <$> option_list res))
  | Refilter f => mkRingRun (set_filters s f) (rr_stream run) (rr_lost run) (rr_reads run)
  end.
Definition ring_run (cap : Z) (r : ResourceId) (s : ActorSession) (ops : list RingOp) : RingRun :=
  foldl (ring_step cap r) (mkRingRun s [] 0 []) ops.

(** [stream_reads r stream c m reads c' m']: the reads take the reader from position [c] of the
    stream and native loss [m] to [c'] and [m'].  Frames are read, and other errors told,
    only when every native loss known has been told. *)
Inductive stream_reads (r : ResourceId) (stream : list ReceivedCanFrame)
    : nat → Z → list (Z * ReadOutcome) → nat → Z → Prop :=
  | reads_nil c m : stream_reads r stream c m [] c m
  | reads_frames c m frames reads c' m' :
      frames = take (length frames) (drop c stream) →
      stream_reads r stream (c + length frames) m reads c' m' →
      stream_reads r stream c m ((m, Ok frames) :: reads) c' m'
  | reads_lag c m (k : nat) lost reads c' m' :
      m <= lost → 0 < Z.of_nat k + (lost - m) → (c + k <= length stream)%nat →
      stream_reads r stream (c + k) lost reads c' m' →
      stream_reads r stream c m
        ((lost, Err (lagged_error (Z.of_nat k + (lost - m)) r)) :: reads) c' m'
  | reads_error c m e reads c' m' :
      err_name e ≠ mkErrorName "can.receive.lagged" →
      stream_reads r stream c m reads c' m' →
      stream_reads r stream c m ((m, Err e) :: reads) c' m'.

Lemma stream_reads_app r stream c m reads c' m' reads' c'' m'' :
  stream_reads r stream c m reads c' m' → stream_reads r stream c' m' reads' c'' m'' →
  stream_reads r stream c m (reads ++ reads') c'' m''.
Proof. induction 1; simpl; [done|..]; intros; econstructor; eauto. Qed.

Lemma stream_reads_extend r stream c m reads c' m' more :
  stream_reads r stream c m reads c' m' → (c <= length stream)%nat →
  (c' <= length stream)%nat ∧ stream_reads r (stream ++ more) c m reads c' m'.
Proof.
  induction 1 as [c m|c m frames reads c' m' Hf _ IH|c m k lost reads c' m' Hm Hk Hle _ IH
                 |c m e reads c' m' Hn _ IH]; intros Hc.
  - split; [done|constructor].
  - assert (c + length frames <= length stream)%nat as Hle.
    { assert (length frames = length (take (length frames) (drop c stream))) as Hlen by congruence.
      rewrite length_take, length_drop in Hlen. lia. }
    destruct (IH Hle) as [? IH']. split; [done|]. constructor; [|done].
    rewrite drop_app_le by done. rewrite take_app_le by (rewrite length_drop; lia). done.
  - destruct IH as [? IH']; [lia|]. split; [done|]. constructor; [done|done| |done].
    rewrite length_app. lia.
  - destruct (IH Hc). split; [done|]. by constructor.
Qed.

(** The concrete ring at reader position [c], of whose drop counter [k] are frames of the
    stream, and the rest native losses not told yet. *)
Record ring_inv (cap : Z) (r : ResourceId) (run : RingRun) (c k : nat) (m : Z) : Prop := {
  ri_reads : stream_reads r (rr_stream run) 0 0 (rr_reads run) c m;
  ri_lost : m <= rr_lost run;
  ri_dropped : as_dropped (rr_session run) = Z.of_nat k + (rr_lost run - m);
  ri_received : as_received (rr_session run) = drop (c + k) (rr_stream run);
  ri_position : (c + k <= length (rr_stream run))%nat;
  ri_capacity : len (as_received (rr_session run)) <= cap;
  ri_error : ∀ e, as_receive_error (rr_session run) = Some e →
    err_name e ≠ mkErrorName "can.receive.lagged";
}.

Lemma validate_error_name f e :
  CanFrame_validate f = Err e → err_name e ≠ mkErrorName "can.receive.lagged".
Proof.
  intros H. destruct f as [i ?|i ?|i ? ? ?|]; cbn [CanFrame_validate] in H;
    try (destruct (validate_id i) as [[]|e'] eqn:Hi; cbn [mbind result_bind] in H;
      [|injection H as <-; unfold validate_id in Hi]);
    repeat case_match; simplify_eq; by vm_compute.
Qed.
Lemma native_lag_nonneg e : 0 <= native_lag e.
Proof.
  unfold native_lag. destruct (_ !! _) as [v|]; [|done].
  destruct (parse_u64 v) eqn:Hv; [|done]. cbn. apply parse_u64_bounds in Hv. lia.
Qed.
Lemma op_loss_nonneg op : 0 <= op_loss op.
Proof.
  destruct op as [[|e]| |]; cbn; try done. destruct (bool_decide _); [apply native_lag_nonneg|done].
Qed.

Lemma ring_inv_offer cap r run c k m frame :
  1 <= cap → Z.of_nat (length (rr_stream run)) + rr_lost run < u64_max → 0 <= m →
  ring_inv cap r run c k m →
  ∃ k', ring_inv cap r (mkRingRun (offer cap frame (rr_session run))
    (rr_stream run ++ if CanFilterSet_matches (as_filters (rr_session run)) (rcv_frame frame)
                      then [frame] else []) (rr_lost run) (rr_reads run)) c k' m.
Proof.
  intros Hcap Hmax Hm0 [Hr Hm Hd Hrec Hpos Hc He]. unfold offer.
  destruct (CanFilterSet_matches _ _); cbn [negb]; [|exists k; rewrite app_nil_r; by split].
  destruct (stream_reads_extend _ _ _ _ _ _ _ [frame] Hr) as [Hle Hr']; [lia|].
  assert (saturating_add u64_max (as_dropped (rr_session run)) 1
          = as_dropped (rr_session run) + 1) as Hsat.
  { unfold saturating_add. rewrite Z.min_r; lia. }
  destruct (len (as_received (rr_session run)) =? cap) eqn:Hfull; bool_simp.
  - exists (S k). unfold len in Hfull. assert (length (as_received (rr_session run))
      = length (rr_stream run) - (c + k))%nat as Hlen by (by rewrite Hrec, length_drop).
    split; simpl; auto.
    + rewrite Hsat. lia.
    + rewrite Hrec, Nat.add_succ_r, drop_app_le by lia. f_equal. apply tail_drop.
    + rewrite length_app. simpl. lia.
    + unfold len in *. rewrite length_app. simpl.
      destruct (as_received (rr_session run)) as [|x l]; simpl in *; lia.
  - exists k. split; simpl; auto.
    + rewrite Hrec, drop_app_le by done. done.
    + rewrite length_app. lia.
    + unfold len in *. rewrite length_app. simpl. lia.
Qed.
Lemma ring_inv_received cap r run c k m native :
  1 <= cap → Z.of_nat (length (rr_stream run)) + rr_lost run + native_loss native < u64_max → 0 <= m →
  ring_inv cap r run c k m →
  ∃ k', ring_inv cap r (ring_step cap r run (Received native)) c k' m.
Proof.
  intros Hcap Hmax Hm0 Hi. unfold ring_step, session_received, arrival, native_loss in *.
  destruct native as [[frame|]|error].
  - rewrite Z.add_0_r in *. destruct (CanFrame_validate (rcv_frame frame)) eqn:Hv; cbn [is_ok andb].
    + by apply (ring_inv_offer cap r run c k m).
    + exists k. rewrite app_nil_r. destruct Hi. split; simpl; auto. intros ? [= <-].
      by apply validate_error_name in Hv.
  - exists k. rewrite app_nil_r, Z.add_0_r. by destruct Hi.
  - rewrite app_nil_r. case_bool_decide as Hlag; exists k; destruct Hi as [Hr Hm Hd Hrec Hpos Hc He].
    + pose proof (native_lag_nonneg error). split; simpl; auto; [lia|].
      unfold saturating_add. rewrite Z.min_r; lia.
    + rewrite Z.add_0_r. split; simpl; auto. intros ? [= <-] Hn. by rewrite Hn in Hlag.
Qed.

Lemma ring_inv_take cap r run c k m n :
  0 <= n → 0 <= m → ring_inv cap r run c k m →
  ∃ c' k' m', 0 <= m' ∧ ring_inv cap r (ring_step cap r run (TakeUpTo n)) c' k' m'.
Proof.
  intros Hn Hm0 [Hr Hm Hd Hrec Hpos Hc He]. simpl. unfold take_receive_result.
  destruct (0 <? as_dropped (rr_session run)) eqn:Hlag; bool_simp.
  { exists (c + k)%nat, 0%nat, (rr_lost run). split; [lia|]. split; simpl; auto; try lia.
    - eapply stream_reads_app; [done|]. rewrite Hd. constructor; [done|lia|done|constructor].
    - rewrite Hrec. f_equal. lia. }
  assert (as_dropped (rr_session run) = 0 ∧ k = 0%nat ∧ m = rr_lost run) as (Hz & -> & Hml) by lia.
  rewrite Hml in *. clear Hml m.
  destruct (as_receive_error (rr_session run)) as [e|] eqn:Herr.
  { exists c, 0%nat, (rr_lost run). split; [done|]. split; simpl; auto; try done.
    eapply stream_reads_app; [done|]. constructor; [exact (He e eq_refl)|constructor]. }
  destruct (len (as_received (rr_session run)) =? 0) eqn:Hempty; bool_simp.
  { exists c, 0%nat, (rr_lost run). split; [done|]. rewrite app_nil_r. split; simpl; rewrite ?Herr; auto. }
  set (j := Z.to_nat (n `min` len (as_received (rr_session run)))).
  assert (j <= length (as_received (rr_session run)))%nat as Hj by (unfold len in *; lia).
  rewrite Nat.add_0_r in *. exists (c + j)%nat, 0%nat, (rr_lost run). split; [done|]. split; simpl; auto.
  - eapply stream_reads_app; [done|].
    assert (length (take j (as_received (rr_session run))) = j) as Hlen
      by (rewrite length_take; lia).
    constructor; rewrite Hlen; [|constructor]. by rewrite Hrec.
  - rewrite Hrec, drop_drop, Nat.add_0_r. done.
  - rewrite Nat.add_0_r. rewrite Hrec, length_drop in Hj. lia.
  - unfold len in *. rewrite length_drop. lia.
  - by rewrite Herr.
Qed.

Definition ring_op_ok (op : RingOp) : Prop :=
  match op with TakeUpTo n => 0 <= n | _ => True end.

Lemma ring_step_stream cap r run op :
  (length (rr_stream (ring_step cap r run op)) <= S (length (rr_stream run)))%nat ∧
  rr_lost (ring_step cap r run op) = rr_lost run + op_loss op.
Proof.
  destruct op as [native|n|f]; simpl; try lia.
  - rewrite length_app. split; [|done]. unfold arrival. repeat case_match; simpl; lia.
  - destruct (take_receive_result _ _ _). simpl. lia.
Qed.

Lemma ring_run_inv cap r ops run c k m :
  1 <= cap → Forall ring_op_ok ops → 0 <= m →
  Z.of_nat (length (rr_stream run) + length ops) + rr_lost run + ops_loss ops < u64_max →
  ring_inv cap r run c k m → ∃ c' k' m', ring_inv cap r (foldl (ring_step cap r) run ops) c' k' m'.
Proof.
  intros Hcap Hops. revert run c k m. induction Hops as [|op ops Hop Hops IH]; intros run c k m Hm Hmax Hi;
    cbn [foldl length ops_loss foldr] in *; [by exists c, k, m|]. fold (ops_loss ops) in Hmax.
  destruct (ring_step_stream cap r run op) as [Hlen Hlost].
  assert (0 <= ops_loss ops).
  { clear. unfold ops_loss. induction ops as [|op ops IH]; cbn [foldr]; [done|]. pose proof (op_loss_nonneg op). lia. }
  assert (∃ c' k' m', 0 <= m' ∧ ring_inv cap r (ring_step cap r run op) c' k' m') as (c' & k' & m' & Hm' & Hi');
    [|eapply IH; [exact Hm'|lia|exact Hi']].
  destruct op as [native|n|f]; cbn [ring_op_ok op_loss] in *.
  - destruct (ring_inv_received cap r run c k m native) as [k' Hi']; [done|lia|done|done|]. by exists c, k', m.
  - by apply (ring_inv_take cap r run c k m).
  - exists c, k, m. split; [done|]. destruct Hi. by split.
Qed.

(** C10: the receive ring of a CAN session refines a lossy stream reader.  For every sequence
    of native receives (valid and invalid frames, nothing, lag reports and other errors of the
    channel), reads and filter changes on a fresh session, the reads deliver the valid matching
    frames in arrival order with no duplication; every gap is reported by a lag error before
    any frame after the gap, and the count it carries is exactly the number of frames skipped
    since the last report plus the number the native channel has since said it lost; frames and
    other errors are only read when every native loss known has been reported; and the frames
    not yet accounted for are the pending drop count followed by the ring, which never exceeds
    its capacity.  The counts are exact as long as they fit in 64 bits. *)
Theorem can_receive_ring_refines_stream cap r owner filters activation cancelled done_ ops :
  1 <= cap → Forall ring_op_ok ops → Z.of_nat (length ops) + ops_loss ops < u64_max →
  let run := ring_run cap r (new_session owner filters activation cancelled done_) ops in
  ∃ c k m, stream_reads r (rr_stream run) 0 0 (rr_reads run) c m ∧ m <= rr_lost run ∧
    as_dropped (rr_session run) = Z.of_nat k + (rr_lost run - m) ∧
    as_received (rr_session run) = drop (c + k) (rr_stream run) ∧
    (c + k + length (as_received (rr_session run)) = length (rr_stream run))%nat ∧
    len (as_received (rr_session run)) <= cap.
Proof.
  intros Hcap Hops Hlen run.
  destruct (ring_run_inv cap r ops
    (mkRingRun (new_session owner filters activation cancelled done_) [] 0 []) 0 0 0)
    as (c & k & m & [Hr Hm Hd Hrec Hpos Hc _]); [done|done|done|cbn [rr_stream rr_lost length]; lia|..].
  - split; simpl; try done; [constructor|unfold len; simpl; lia].
  - exists c, k, m. unfold run, ring_run. split_and!; auto. rewrite Hrec, length_drop. lia.
Qed.

Definition cx_frame (n : Z) : ReceivedCanFrame :=
  mkReceivedCanFrame (ClassicData (IdStandard n) []) None.
Definition cx_lag : HalError := lagged_error 5 (mkResourceId "can:0").
(** One frame falls out of a ring of two; then the channel says that it lost five; an invalid
    frame arrives. *)
Lemma can_receive_ring_refines_stream_witness :
  ∃ c m, stream_reads (mkResourceId "can:0") [cx_frame 1; cx_frame 2; cx_frame 3] 0 0
         [(5, Err (lagged_error 6 (mkResourceId "can:0")));
          (5, Err (HalError_with_resource_id (invalid_frame "Classical CAN remote DLC exceeds 8") (mkResourceId "can:0")));
          (5, Ok [cx_frame 2; cx_frame 3])] c m.
Proof.
  destruct (can_receive_ring_refines_stream 2 (mkResourceId "can:0") (mkOwnerId "o")
    (mkCanFilterSet []) None false 0
    [Received (Ok (Some (cx_frame 1))); Received (Ok (Some (cx_frame 2))); Received (Ok None);
     Received (Ok (Some (cx_frame 3))); Received (Err cx_lag);
     Received (Ok (Some (mkReceivedCanFrame (ClassicRemote (IdStandard 1) 9) None)));
     TakeUpTo 8; TakeUpTo 8; TakeUpTo 8])
    as (c & k & m & H & _).
  - lia.
  - repeat constructor; simpl; lia.
  - vm_compute. congruence.
  - exists c, m. exact H.
Defined.

(** ** Transmission *)
Section transmission.
Context {C : Type} `{!CanChannel C}.

(** [sends c frames c']: the channel accepts the frames one after the other. *)
Inductive sends : C → list CanFrame → C → Prop :=
  | sends_nil c : sends c [] c
  | sends_cons c f c1 u fs c2 :
      channel_send c f = (c1, Ok u) → sends c1 fs c2 → sends c (f :: fs) c2.

Lemma send_frames_spec c frames k c' res :
  send_frames c frames k = (c', res) →
  match res with
  | Ok _ => sends c frames c'
  | Err e => ∃ before bad after c1, frames = before ++ bad :: after ∧ sends c before c1 ∧
      channel_send c1 bad = (c', Err (batch_error e)) ∧ batch_committed e = k + len before
  end.
Proof.
  revert c k. induction frames as [|f frames IH]; intros c k; simpl.
  { intros [= <- <-]. constructor. }
  destruct (channel_send c f) as [c1 [u|e]] eqn:Hs.
  - intros H%IH. destruct res as [[]|e].
    + by econstructor.
    + destruct H as (before & bad & after & c2 & -> & ? & ? & ->).
      exists (f :: before), bad, after, c2. split_and!; [done|by econstructor|done|].
      unfold len. simpl. lia.
  - intros [= <- <-]. exists [], f, frames, c. split_and!; [done|constructor|done|].
    unfold len. simpl. lia.
Qed.

(** C39: a batch is transmitted in order and reported exactly.  For a live session the
    reply is success only if the channel accepted every frame in order; otherwise it
    carries the channel's error and the number of frames accepted before it, and no
    frame after the refused one was offered.  A session that is gone sends nothing
    and reports zero. *)
Theorem can_send_batch_prefix env st session_id frames reply st' out close :
  execute_can_command env st (SendBatch session_id frames reply) = (st', out, close) →
  close = false ∧ ca_sessions st' = ca_sessions st ∧
  ∃ res, out = [ReplySend reply res] ∧
    match ca_sessions st !! session_id with
    | Some _ =>
        match res with
        | Ok _ => sends (ca_channel st) frames (ca_channel st')
        | Err e => ∃ before bad after c1, frames = before ++ bad :: after ∧
            sends (ca_channel st) before c1 ∧
            channel_send c1 bad = (ca_channel st', Err (batch_error e)) ∧
            batch_committed e = len before
        end
    | None =>
        ca_channel st' = ca_channel st ∧
        res = Err (CanBatchSendError_new
                     (actor_session_closed "can.send_batch" (env_resource_id env)))
    end.
Proof.
  simpl. destruct (ca_sessions st !! session_id) as [s|] eqn:Hs; simpl.
  - destruct (send_frames (ca_channel st) frames 0) as [c res] eqn:Hsend.
    intros [= <- <- <-]. split_and!; [done..|]. exists res. split; [done|].
    apply send_frames_spec in Hsend. simpl. by destruct res.
  - intros [= <- <- <-]. split_and!; [done..|]. eexists. done.
Qed.

(** ** Accounting of admitted frames *)
Definition command_frames (c : CanCommand) : Z :=
  match c with SendBatch _ frames _ => len frames | _ => 0 end.
Definition queued_frames (q : list CanCommand) : Z := foldr (λ c n, command_frames c + n) 0 q.

Lemma queued_frames_app q q' : queued_frames (q ++ q') = queued_frames q + queued_frames q'.
Proof. induction q as [|c q IH]; simpl; [done|]. rewrite IH. lia. Qed.

Lemma queued_frames_nonneg q : 0 <= queued_frames q.
Proof.
  induction q as [|c q IH]; simpl; [lia|].
  assert (0 <= command_frames c); [|lia]. destruct c; simpl; unfold len; lia.
Qed.

Lemma fetch_sub_exact x n : 0 <= n <= x → x <= usize_max → fetch_sub x n = x - n.
Proof. unfold fetch_sub, usize_max, u64_max. intros. apply Z.mod_small. lia. Qed.

Lemma execute_tx env (st : CanActorState C) c st' out close :
  execute_can_command env st c = (st', out, close) →
  ca_tx_reserved st' = match c with
                       | SendBatch _ frames _ => fetch_sub (ca_tx_reserved st) (len frames)
                       | _ => ca_tx_reserved st
                       end.
Proof.
  destruct c; simpl; repeat case_match; try congruence; intros; simplify_eq/=; done.
Qed.

(** Executing or rejecting queued commands returns exactly what they had claimed. *)
Lemma execute_tx_sub env (st : CanActorState C) c st' out close :
  execute_can_command env st c = (st', out, close) →
  command_frames c <= ca_tx_reserved st <= usize_max →
  ca_tx_reserved st' = ca_tx_reserved st - command_frames c.
Proof.
  intros ->%execute_tx Hle. destruct c; simpl in *; try lia.
  apply fetch_sub_exact; [unfold len in *|]; lia.
Qed.

Lemma run_commands_tx budget env (st : CanActorState C) q st' out q' how :
  run_commands budget env st q = (st', out, q', how) →
  queued_frames q <= ca_tx_reserved st <= usize_max →
  ca_tx_reserved st' = ca_tx_reserved st - (queued_frames q - queued_frames q').
Proof.
  revert st q out. induction budget as [|budget IH]; intros st q out; simpl.
  { intros [= <- <- <- <-]. lia. }
  destruct q as [|c q]; [intros [= <- <- <- <-]; lia|].
  destruct (execute_can_command env st c) as [[st1 out1] close] eqn:Hex.
  intros Hrun Hle. simpl in Hle. pose proof (queued_frames_nonneg q).
  apply execute_tx_sub in Hex as Htx; [|lia].
  destruct close; [injection Hrun as <- <- <- <-; simpl; lia|].
  destruct (run_commands budget env st1 q) as [[[st2 out2] q2] how2] eqn:Hrec.
  injection Hrun as <- <- <- <-. apply IH in Hrec; [|split; [lia|]].
  - simpl. lia.
  - assert (0 <= command_frames c) by (destruct c; simpl; unfold len; lia). lia.
Qed.

Lemma reject_remaining_tx q tx :
  queued_frames q <= tx <= usize_max → (reject_remaining q tx).1 = tx - queued_frames q.
Proof.
  revert tx. induction q as [|c q IH]; intros tx Hle; simpl in *; [lia|].
  pose proof (queued_frames_nonneg q).
  destruct c as [| s frames reply | | | |]; simpl in *;
    try (destruct (reject_remaining q tx) as [tx' o] eqn:Hr; simpl;
         specialize (IH tx ltac:(lia)); rewrite Hr in IH; simpl in IH; lia).
  rewrite fetch_sub_exact by (unfold len in *; lia).
  destruct (reject_remaining q _) as [tx' o] eqn:Hr. simpl.
  specialize (IH (tx - len frames) ltac:(unfold len in *; lia)). rewrite Hr in IH. simpl in IH. lia.
Qed.

Lemma prune_tx env (st : CanActorState C) :
  ca_tx_reserved (prune_cancelled_sessions env st).1.1 = ca_tx_reserved st.
Proof.
  unfold prune_cancelled_sessions. repeat case_match; simplify_eq/=; try done.
Qed.

(** The books balance: what is reserved is what the queues hold and what senders have
    claimed and not yet queued. *)
Definition tx_balanced (claimed tx : Z) (cleanup commands : list CanCommand) : Prop :=
  0 <= claimed ∧ tx = queued_frames cleanup + queued_frames commands + claimed.

Lemma reject_queues_tx claimed (st : CanActorState C) cleanup commands st' out :
  tx_balanced claimed (ca_tx_reserved st) cleanup commands → ca_tx_reserved st <= usize_max →
  reject_queues st cleanup commands = (st', out) → ca_tx_reserved st' = claimed.
Proof.
  unfold tx_balanced, reject_queues. intros Hb Hle.
  pose proof (queued_frames_nonneg cleanup). pose proof (queued_frames_nonneg commands).
  pose proof (reject_remaining_tx cleanup (ca_tx_reserved st) ltac:(lia)) as H1.
  destruct (reject_remaining cleanup _) as [tx1 o1]. simpl in H1.
  pose proof (reject_remaining_tx commands tx1 ltac:(lia)) as H2.
  destruct (reject_remaining commands tx1) as [tx2 o2]. simpl in H2.
  intros [= <- _]. simpl. lia.
Qed.

Lemma run_commands_suffix budget env (st : CanActorState C) q st' out q' how :
  run_commands budget env st q = (st', out, q', how) → ∃ done_, q = done_ ++ q'.
Proof.
  revert st q out. induction budget as [|budget IH]; intros st q out; simpl.
  { intros [= <- <- <- <-]. by exists []. }
  destruct q as [|c q]; [intros [= <- <- <- <-]; by exists []|].
  destruct (execute_can_command env st c) as [[st1 out1] []].
  { intros [= <- <- <- <-]. by exists [c]. }
  destruct (run_commands budget env st1 q) as [[[st2 out2] q2] how2] eqn:Hrec.
  intros [= <- <- <- <-]. apply IH in Hrec as [d ->]. by exists (c :: d).
Qed.

Lemma run_commands_balanced budget env (st : CanActorState C) q other st' out q' how :
  run_commands budget env st q = (st', out, q', how) → 0 <= other →
  ca_tx_reserved st = queued_frames q + other → ca_tx_reserved st <= usize_max →
  ca_tx_reserved st' = queued_frames q' + other ∧ ca_tx_reserved st' <= ca_tx_reserved st.
Proof.
  intros Hrun Hother Hb Hle. destruct (run_commands_suffix _ _ _ _ _ _ _ _ Hrun) as [d ->].
  apply run_commands_tx in Hrun; [|lia]. rewrite queued_frames_app in *.
  pose proof (queued_frames_nonneg d). lia.
Qed.

Lemma iteration_tx claimed env (st : CanActorState C) cleanup commands disc st' out cleanup'
    commands' ret :
  actor_iteration env st cleanup commands disc = (st', out, cleanup', commands', ret) →
  tx_balanced claimed (ca_tx_reserved st) cleanup commands → ca_tx_reserved st <= usize_max →
  tx_balanced claimed (ca_tx_reserved st') cleanup' commands' ∧
  ca_tx_reserved st' <= ca_tx_reserved st.
Proof.
  unfold actor_iteration. intros Hit Hb Hle.
  pose proof (queued_frames_nonneg cleanup). pose proof (queued_frames_nonneg commands).
  pose proof (prune_tx env st) as Hp.
  destruct (prune_cancelled_sessions env st) as [[st0 o0] pruned]. simpl in Hp.
  rewrite <- Hp in *. assert (0 <= ca_tx_reserved st0) by (unfold tx_balanced in Hb; lia).
  assert (∀ (st1 : CanActorState C) q1 q2 st2 rej, tx_balanced claimed (ca_tx_reserved st1) q1 q2 →
    ca_tx_reserved st1 <= ca_tx_reserved st0 → reject_queues st1 q1 q2 = (st2, rej) →
    tx_balanced claimed (ca_tx_reserved st2) [] [] ∧
    ca_tx_reserved st2 <= ca_tx_reserved st0) as Hrej.
  { intros st1 q1 q2 st2 rej Hb1 Hle1 Hr.
    apply (reject_queues_tx claimed) in Hr; [|done|lia]. unfold tx_balanced in *. simpl.
    pose proof (queued_frames_nonneg q1). pose proof (queued_frames_nonneg q2). lia. }
  destruct pruned.
  { destruct (reject_queues st0 cleanup commands) as [st1 rej] eqn:Hr.
    injection Hit as <- <- <- <- <-. by eapply Hrej. }
  destruct (run_commands CLEANUP_COMMAND_BUDGET env st0 cleanup) as [[[st1 o1] q1] how1] eqn:Hr1.
  apply (run_commands_balanced _ _ _ _ (queued_frames commands + claimed)) in Hr1 as [Hb1 Hle1];
    [|unfold tx_balanced in Hb; lia..].
  destruct how1.
  { destruct (reject_queues st1 q1 commands) as [st2 rej] eqn:Hr.
    injection Hit as <- <- <- <- <-. eapply Hrej; [|exact Hle1|exact Hr].
    unfold tx_balanced in *. lia. }
  1,2: pose proof (queued_frames_nonneg q1);
    destruct (run_commands MANAGEMENT_COMMAND_BUDGET env st1 commands)
      as [[[st2 o2] q2] how2] eqn:Hr2;
    apply (run_commands_balanced _ _ _ _ (queued_frames q1 + claimed)) in Hr2 as [Hb2 Hle2];
      [|unfold tx_balanced in *; lia..];
    assert (tx_balanced claimed (ca_tx_reserved st2) q1 q2) as Hb2' by (unfold tx_balanced in *; lia);
    assert (ca_tx_reserved st2 <= ca_tx_reserved st0) as Hle2' by lia;
    pose proof (queued_frames_nonneg q2);
    destruct (reject_queues st2 q1 q2) as [st3 rej] eqn:Hr;
    pose proof (reject_remaining_tx q1 (ca_tx_reserved st2)
      ltac:(unfold tx_balanced in *; lia)) as Hcl;
    destruct (reject_remaining q1 (ca_tx_reserved st2)) as [tx3 o6] eqn:Hcl';
    destruct how2; [injection Hit as <- <- <- <- <-; by eapply Hrej|..];
    simpl in Hit; rewrite ?Hcl' in Hit;
    repeat case_match; simplify_eq/=; split; unfold tx_balanced in *; simpl in *; try lia.
Qed.

(** What the manager may write at any time: it shares the activation and cancellation
    cells of every session with the actor. *)
Definition share_cells (cells : SessionId → option LeaseToken * bool)
    (sessions : gmap SessionId ActorSession) : gmap SessionId ActorSession :=
  map_imap (λ id s, Some (mkActorSession (as_owner_id s) (cells id).1 (cells id).2
    (as_cleanup_done s) (as_filters s) (as_received s) (as_dropped s) (as_receive_error s)
    (as_pending_receive s))) sessions.

(** The interleaving of senders, other requests, the manager and the actor: a sender
    claims capacity and, some time later, queues its batch or gives the claim back. *)
Record TxState := mkTxState {
  tx_actor : CanActorState C;
  tx_cleanup : list CanCommand;
  tx_commands : list CanCommand;
  tx_claimed : list CanCommand;
  tx_returned : bool;
}.
Inductive tx_step (tx_capacity : Z) : TxState → TxState → Prop :=
  | tx_claim st cl q cm ret session_id frames reply next :
      claim_tx tx_capacity (ca_tx_reserved st) (len frames) = Some next →
      tx_step tx_capacity (mkTxState st cl q cm ret)
        (mkTxState (set_tx st next) cl q (SendBatch session_id frames reply :: cm) ret)
  | tx_send st cl q cm1 session_id frames reply cm2 ret tx' q' res :
      send_claimed (ca_tx_reserved st) q (negb ret) (SendBatch session_id frames reply)
        (len frames) = (tx', q', res) →
      tx_step tx_capacity
        (mkTxState st cl q (cm1 ++ SendBatch session_id frames reply :: cm2) ret)
        (mkTxState (set_tx st tx') cl q' (cm1 ++ cm2) ret)
  | tx_command st cl q cm ret c op q' res :
      command_frames c = 0 →
      CanActorHandle_try_command q (negb ret) c op = (q', res) →
      tx_step tx_capacity (mkTxState st cl q cm ret) (mkTxState st cl q' cm ret)
  | tx_cleanup_step st cl q cm ret session_id done_ reply cl' res :
      CanActorHandle_try_cleanup cl (negb ret) (RemoveSession session_id done_ reply) = (cl', res) →
      tx_step tx_capacity (mkTxState st cl q cm ret) (mkTxState st cl' q cm ret)
  | tx_share st cl q cm ret cells :
      tx_step tx_capacity (mkTxState st cl q cm ret)
        (mkTxState (set_sessions st (share_cells cells (ca_sessions st))) cl q cm ret)
  | tx_iterate st cl q cm env disc st' out cl' q' result :
      actor_iteration env st cl q disc = (st', out, cl', q', result) →
      tx_step tx_capacity (mkTxState st cl q cm false) (mkTxState st' cl' q' cm (is_some result)).

Definition tx_inv (tx_capacity : Z) (ts : TxState) : Prop :=
  tx_balanced (queued_frames (tx_claimed ts)) (ca_tx_reserved (tx_actor ts)) (tx_cleanup ts)
    (tx_commands ts) ∧ ca_tx_reserved (tx_actor ts) <= tx_capacity.

Lemma tx_step_inv tx_capacity ts ts' :
  0 <= tx_capacity <= usize_max → tx_step tx_capacity ts ts' →
  tx_inv tx_capacity ts → tx_inv tx_capacity ts'.
Proof.
  intros Hcap Hstep [[Hcl Hb] Hle].
  destruct Hstep as [st cl q cm ret s fs re next H|st cl q cm1 s fs re cm2 ret tx' q' res H
    |st cl q cm ret c op q' res Hc H|st cl q cm ret s d re cl' res H|st cl q cm ret cells
    |st cl q cm env disc st' out cl' q' res H];
    unfold tx_inv, tx_balanced in *; simpl in *; pose proof (queued_frames_nonneg cl);
    pose proof (queued_frames_nonneg q).
  - unfold claim_tx in H. destruct (checked_add _ _ _) as [n|] eqn:Hadd; [|done].
    apply checked_add_Some in Hadd as [-> Hadd]. destruct (_ <? _) eqn:?; [done|].
    injection H as <-. bool_simp. unfold len in *. lia.
  - rewrite queued_frames_app in *. simpl in *. unfold send_claimed in H.
    pose proof (queued_frames_nonneg cm1). pose proof (queued_frames_nonneg cm2).
    assert (0 <= len fs) by (unfold len; lia).
    destruct (negb (negb ret)); [|destruct (_ <=? _)]; injection H as <- <- _;
      rewrite ?queued_frames_app; simpl; rewrite ?fetch_sub_exact; lia.
  - unfold CanActorHandle_try_command in H. repeat case_match; simplify_eq; try lia.
    rewrite queued_frames_app. simpl. lia.
  - unfold CanActorHandle_try_cleanup in H. repeat case_match; simplify_eq; try lia.
    rewrite queued_frames_app. simpl. lia.
  - lia.
  - apply (iteration_tx (queued_frames cm)) in H; [|done|lia]. unfold tx_balanced in H. lia.
Qed.

(** C35: transmit capacity is never oversubscribed nor leaked.  Starting from an idle
    actor, however the claims, sends, refusals, cleanups, cancellations and iterations of
    the actor interleave, the reserved count is always exactly the number of frames in
    queued batches and in batches claimed but not yet queued, and it never exceeds the
    configured capacity nor wraps around. *)
Theorem can_tx_accounting tx_capacity st0 ts :
  0 <= tx_capacity <= usize_max → ca_tx_reserved st0 = 0 →
  rtc (tx_step tx_capacity) (mkTxState st0 [] [] [] false) ts →
  ca_tx_reserved (tx_actor ts) = queued_frames (tx_cleanup ts) + queued_frames (tx_commands ts)
    + queued_frames (tx_claimed ts) ∧
  0 <= ca_tx_reserved (tx_actor ts) <= tx_capacity.
Proof.
  intros Hcap H0 Hr.
  assert (tx_inv tx_capacity ts) as [[Hcl Hb] Hle].
  { assert (tx_inv tx_capacity (mkTxState st0 [] [] [] false)) as Hinit
      by (unfold tx_inv, tx_balanced; simpl; lia).
    induction Hr; eauto using tx_step_inv. }
  pose proof (queued_frames_nonneg (tx_cleanup ts)).
  pose proof (queued_frames_nonneg (tx_commands ts)). lia.
Qed.
End transmission.

(** ** A channel to run: it logs accepted frames and refuses error frames *)
Global Instance log_channel : CanChannel (list CanFrame) := {|
  channel_receive c := (c, Ok None);
  channel_send c f :=
    if CanFrame_is_error f then (c, Err (invalid_frame "not sendable")) else (c ++ [f], Ok ());
  channel_bus_status c := (c, Ok (mkCanBusStatus BusActive None None));
  channel_close c := (c, Ok ());
|}.
Definition dx_timing : CanBitTiming := mkCanBitTiming 500000 None None.
Definition dx_env : ActorEnv :=
  mkActorEnv (mkCanActiveConfig Classic dx_timing None false false "host")
    (mkResourceId "can:0") 256 0 false "2s" (λ _, false).
Definition dx_session : ActorSession :=
  new_session (mkOwnerId "o") (mkCanFilterSet []) None false 0.
Definition dx_actor : CanActorState (list CanFrame) :=
  mkCanActorState [] {[mkSessionId "s" := dx_session]} 0 None EventPublisher_new.
Definition dx_frames : list CanFrame := [ClassicData (IdStandard 1) []; ErrorFrame [] []].
Definition dx_batch : CanCommand := SendBatch (mkSessionId "s") dx_frames 5.

Lemma can_send_batch_prefix_witness :
  ∃ before bad after c1, dx_frames = before ++ bad :: after ∧
    sends (ca_channel dx_actor) before c1 ∧
    channel_send c1 bad
      = (ca_channel (execute_can_command dx_env dx_actor dx_batch).1.1,
         Err (invalid_frame "not sendable")) ∧ 1 = len before.
Proof.
  destruct (can_send_batch_prefix dx_env dx_actor (mkSessionId "s") dx_frames 5
    (execute_can_command dx_env dx_actor dx_batch).1.1
    (execute_can_command dx_env dx_actor dx_batch).1.2 false) as (_ & _ & res & Hout & H).
  - reflexivity.
  - injection Hout as <-. exact H.
Defined.

Lemma can_tx_accounting_witness :
  ca_tx_reserved (tx_actor (mkTxState (set_tx dx_actor 2) [] [dx_batch] [] false)) = 0 + 2 + 0 ∧
  0 <= 2 <= 64.
Proof.
  apply (can_tx_accounting 64 dx_actor (mkTxState (set_tx dx_actor 2) [] [dx_batch] [] false)).
  - vm_compute. split; congruence.
  - reflexivity.
  - eapply rtc_l; [apply (tx_claim 64 dx_actor [] [] [] false (mkSessionId "s") dx_frames 5 2);
      vm_compute; reflexivity|].
    apply rtc_once. eapply (tx_send 64 (set_tx dx_actor 2) [] [] []). vm_compute. reflexivity.
Defined.

(** ** Bus state events *)
(** The event of one session, if its lease is active. *)
Definition health_event (k : RuntimeEventKind) (r : ResourceId) (entry : SessionId * ActorSession)
    : option (RuntimeEventKind * ResourceId * SessionId * OwnerId * Z) :=
  (λ token, (k, r, entry.1, as_owner_id entry.2, token_generation token))
    <$> as_activation entry.2.
Definition event_fields (e : RuntimeEvent) : RuntimeEventKind * ResourceId * SessionId * OwnerId * Z :=
  (ev_kind e, ev_resource_id e, ev_session_id e, ev_owner_id e, ev_lease_generation e).

(** Bus state changes are announced once per active session.  The first status
    reading announces nothing; a reading equal to the previous one announces nothing;
    a different one appends exactly one event of the new state's kind for each session
    whose lease is active, and none for sessions still opening. *)
Theorem can_bus_transition_events state previous sessions r ev :
  let '(last, ev') := publish_bus_transition state previous sessions r ev in
  last = Some state ∧
  event_fields <$> sent ev' =
    (event_fields <$> sent ev) ++
    match previous with
    | Some old =>
        if decide (old = state) then []
        else omap (health_event (bus_event_kind state) r) (map_to_list sessions)
    | None => []
    end.
Proof.
  unfold publish_bus_transition. split; [done|].
  destruct previous as [old|]; [|by rewrite app_nil_r].
  case_bool_decide as Ho; case_decide; try done; [by rewrite app_nil_r|].
  revert ev. induction (map_to_list sessions) as [|[id s] l IH]; intros ev; simpl;
    [by rewrite app_nil_r|].
  rewrite IH. unfold publish_health_for_session, health_event. simpl.
  destruct (as_activation s) as [tok|]; simpl; [|done].
  rewrite fmap_app, <- app_assoc. done.
Qed.

(** ** Sharing a channel *)
Lemma is_some_and_false {A} (p : A → bool) (o : option A) :
  is_some_and p o = false ↔ ∀ x, o = Some x → p x = false.
Proof. destruct o; naive_solver. Qed.

(** A second session may join a live channel exactly when it asks only to attach
    and every expectation it states (mode, bitrates, listen-only, loopback) is met by
    the active configuration; a request to configure is always refused. *)
Theorem compatible_configuration_spec active requested r :
  compatible_configuration active requested r = Ok () ↔
  ∃ e, requested = Attach e ∧
    (∀ m, exp_mode e = Some m → m = act_mode active) ∧
    (∀ b, exp_nominal_bitrate e = Some b → b = bitrate (act_nominal active)) ∧
    (∀ b, exp_data_bitrate e = Some b → ∃ t, act_data active = Some t ∧ bitrate t = b) ∧
    (∀ b, exp_listen_only e = Some b → b = act_listen_only active) ∧
    (∀ b, exp_loopback e = Some b → b = act_loopback active).
Proof.
  unfold compatible_configuration. destruct requested as [e|c]; [|naive_solver].
  assert (expectation_mismatch e active = false ↔
    (∀ m, exp_mode e = Some m → m = act_mode active) ∧
    (∀ b, exp_nominal_bitrate e = Some b → b = bitrate (act_nominal active)) ∧
    (∀ b, exp_data_bitrate e = Some b → ∃ t, act_data active = Some t ∧ bitrate t = b) ∧
    (∀ b, exp_listen_only e = Some b → b = act_listen_only active) ∧
    (∀ b, exp_loopback e = Some b → b = act_loopback active)) as Hiff.
  { unfold expectation_mismatch. rewrite !orb_false_iff, !is_some_and_false.
    setoid_rewrite bool_decide_eq_false. setoid_rewrite negb_false_iff.
    setoid_rewrite Z.eqb_eq. setoid_rewrite eqb_true_iff.
    assert (∀ v, is_none_or (λ t, negb (bitrate t =? v)) (act_data active) = false ↔
      ∃ t, act_data active = Some t ∧ bitrate t = v) as Hdata.
    { intros v. destruct (act_data active) as [t|]; simpl; [|naive_solver].
      rewrite negb_false_iff, Z.eqb_eq. naive_solver. }
    setoid_rewrite Hdata.
    assert (∀ m, ¬ (m ≠ act_mode active) ↔ m = act_mode active) as Hm.
    { intros m. split; [apply dec_stable|naive_solver]. }
    setoid_rewrite Hm. tauto. }
  destruct (expectation_mismatch e active); naive_solver.
Qed.
