(* ===== verification/CameraTypes.v ===== *)
(** * robot-hal-camera: formats, plane layouts, frames, controls

    Models crates/robot-hal-camera/src/lib.rs.  Signed 64-bit subtraction wraps, as in
    a release build. *)

From S2P Require Import Prelude Core.
From stdpp Require Import sorting.
Local Open Scope Z_scope.

Definition MAX_CAMERA_WIDTH : Z := 4096.
Definition MAX_CAMERA_HEIGHT : Z := 2160.
Definition MAX_CAMERA_FRAME_BYTES : Z := 24 * 1024 * 1024.
Definition DEFAULT_CAMERA_SLOT_COUNT : Z := 4.
Definition MIN_CAMERA_SLOT_COUNT : Z := 4.
Definition MAX_CAMERA_SLOT_COUNT : Z := 8.
Definition CAMERA_CAPTURE_CAPABILITY : string := "camera.capture/v1".
Definition CAMERA_FRAMES_SHM_CAPABILITY : string := "camera.frames.shm/v1".
Definition CAMERA_CONTROLS_CAPABILITY : string := "camera.controls/v1".
Definition camera_capture_capability : CapabilityId := mkCapabilityId CAMERA_CAPTURE_CAPABILITY.
Definition camera_frames_shm_capability : CapabilityId :=
  mkCapabilityId CAMERA_FRAMES_SHM_CAPABILITY.
Definition camera_controls_capability : CapabilityId := mkCapabilityId CAMERA_CONTROLS_CAPABILITY.

Definition camera_invalid_format (operation message : string) : HalError :=
  static_error "camera.format.invalid" InvalidArgument operation false message.
Definition camera_invalid_frame (operation message : string) : HalError :=
  static_error "camera.frame.invalid" InvalidArgument operation false message.
Definition invalid_control_descriptor (operation message : string) : HalError :=
  static_error "camera.control.invalid" InvalidArgument operation false message.

(** ** Formats and requests *)
Inductive CameraPixelFormat := CamNv12 | CamYuyv | CamMjpeg.
Global Instance CameraPixelFormat_eq_dec : EqDecision CameraPixelFormat.
Proof. solve_decision. Defined.
Record CameraFormat := mkCameraFormat {
  cf_pixel_format : CameraPixelFormat;
  cf_width : Z;
  cf_height : Z;
}.
Global Instance CameraFormat_eq_dec : EqDecision CameraFormat.
Proof. solve_decision. Defined.

Definition CameraFormat_worst_case_frame_bytes (f : CameraFormat) : HalResult Z :=
  ok_or (camera_invalid_format "camera.format" "camera dimensions overflow")
    (checked_mul usize_max (cf_width f) (cf_height f)) ≫= λ pixels,
  match cf_pixel_format f with
  | CamNv12 =>
      ok_or (camera_invalid_format "camera.format" "NV12 frame size overflows")
        ((λ bytes, bytes `div` 2) <$> checked_mul usize_max pixels 3)
  | CamYuyv =>
      ok_or (camera_invalid_format "camera.format" "YUYV frame size overflows")
        (checked_mul usize_max pixels 2)
  | CamMjpeg => Ok MAX_CAMERA_FRAME_BYTES
  end.
Definition CameraFormat_validate (f : CameraFormat) : HalResult unit :=
  if (cf_width f =? 0) || (cf_height f =? 0) || (MAX_CAMERA_WIDTH <? cf_width f)
     || (MAX_CAMERA_HEIGHT <? cf_height f)
  then Err (camera_invalid_format "camera.format"
              "camera dimensions must be non-zero and within public bounds")
  else
    CameraFormat_worst_case_frame_bytes f ≫= λ bytes,
    if MAX_CAMERA_FRAME_BYTES <? bytes then
      Err (camera_invalid_format "camera.format"
             "camera format worst-case payload exceeds the frame bound")
    else Ok ().
Definition CameraFormat_new (pixel_format : CameraPixelFormat) (width height : Z)
    : HalResult CameraFormat :=
  let format := mkCameraFormat pixel_format width height in
  CameraFormat_validate format ≫= λ _, Ok format.

Record CameraRequest := mkCameraRequest {
  req_format : CameraFormat;
  req_slot_count : Z;
}.
Definition slot_count_in_range (n : Z) : bool :=
  (MIN_CAMERA_SLOT_COUNT <=? n) && (n <=? MAX_CAMERA_SLOT_COUNT).
Definition CameraRequest_new (format : CameraFormat) (slot_count : Z) : HalResult CameraRequest :=
  CameraFormat_validate format ≫= λ _,
  if negb (slot_count_in_range slot_count) then
    HalError_new "camera.request.invalid" InvalidArgument "camera.request" false
      "camera slot count must be within the inclusive public range" ≫= λ e, Err e
  else Ok (mkCameraRequest format slot_count).

(** ** Planes *)
Record CameraPlaneLayout := mkCameraPlaneLayout {
  cp_offset : Z;
  cp_length : Z;
  cp_stride : Z;
}.
Definition CameraPlaneLayout_new (offset length stride : Z) : HalResult CameraPlaneLayout :=
  if (length =? 0) || (stride =? 0) then
    HalError_new "camera.frame.invalid" InvalidArgument "camera.plane_layout" false
      "camera plane length and stride must be non-zero" ≫= λ e, Err e
  else
    ok_or (camera_invalid_frame "camera.plane_layout" "camera plane range overflows")
      (checked_add usize_max offset length) ≫= λ _,
    Ok (mkCameraPlaneLayout offset length stride).

(** Ranges sorted by their start; [sort_unstable_by_key]. *)
Definition range_le (a b : Z * Z) : Prop := a.1 <= b.1.
Global Instance range_le_dec a b : Decision (range_le a b).
Proof. unfold range_le. apply _. Defined.
Definition sort_ranges (l : list (Z * Z)) : list (Z * Z) := merge_sort range_le l.
(** [ranges.windows(2).any(|r| r[0].1 > r[1].0)]. *)
Fixpoint windows_overlap (l : list (Z * Z)) : bool :=
  match l with
  | a :: (b :: _) as rest => (b.1 <? a.2) || windows_overlap rest
  | _ => false
  end.

(** [stride.checked_mul(rows)], with the error of the overflow. *)
Definition plane_size (stride rows : Z) (message : string) : HalResult Z :=
  ok_or (camera_invalid_frame "camera.frame_metadata" message) (checked_mul usize_max stride rows).

Definition validate_plane_layouts (format : CameraFormat) (planes : list CameraPlaneLayout)
    : HalResult unit :=
  let bad := camera_invalid_frame "camera.frame_metadata" in
  let width := cf_width format in
  let height := cf_height format in
  match cf_pixel_format format, planes with
  | CamNv12, [y; uv] =>
      if (cp_stride y <? width) || (cp_stride uv <? width) then
        Err (bad "NV12 plane layout is smaller than its format dimensions")
      else
        plane_size (cp_stride y) height "camera Y plane layout overflows" ≫= λ y_min,
        if cp_length y <? y_min then
          Err (bad "NV12 plane layout is smaller than its format dimensions")
        else
          plane_size (cp_stride uv) ((height + 1) `div` 2) "camera UV plane layout overflows"
          ≫= λ uv_min,
          if cp_length uv <? uv_min then
            Err (bad "NV12 plane layout is smaller than its format dimensions")
          else Ok ()
  | CamYuyv, [plane] =>
      ok_or (bad "camera YUYV stride overflows") (checked_mul usize_max width 2)
      ≫= λ minimum_stride,
      if cp_stride plane <? minimum_stride then
        Err (bad "YUYV plane layout is smaller than its format dimensions")
      else
        plane_size (cp_stride plane) height "camera YUYV plane layout overflows" ≫= λ size,
        if cp_length plane <? size then
          Err (bad "YUYV plane layout is smaller than its format dimensions")
        else Ok ()
  | CamMjpeg, [_] => Ok ()
  | _, _ => Err (bad "camera plane count does not match the pixel format")
  end ≫= λ _,
  collect (λ p,
    ok_or (bad "camera plane range overflows")
      ((λ end_, (cp_offset p, end_)) <$> checked_add usize_max (cp_offset p) (cp_length p)))
    planes ≫= λ ranges,
  if windows_overlap (sort_ranges ranges) then Err (bad "camera plane ranges must not overlap")
  else Ok ().

Definition plane_escapes (payload_length : Z) (p : CameraPlaneLayout) : bool :=
  is_none_or (λ end_, payload_length <? end_)
    (checked_add usize_max (cp_offset p) (cp_length p)).
Definition validate_plane_layouts_against_payload (format : CameraFormat)
    (planes : list CameraPlaneLayout) (payload_length : Z) : HalResult unit :=
  validate_plane_layouts format planes ≫= λ _,
  if existsb (plane_escapes payload_length) planes then
    Err (camera_invalid_frame "camera.frame" "camera plane layout exceeds payload bounds")
  else Ok ().

(** ** Frames *)
Record CameraFrameMetadata := mkCameraFrameMetadata {
  fm_format : CameraFormat;
  fm_planes : list CameraPlaneLayout;
  fm_sequence : Z;
  fm_monotonic_timestamp_ns : Z;
  fm_clock_domain : string;
  fm_dropped_count : Z;
}.
Definition CameraFrameMetadata_new (format : CameraFormat) (planes : list CameraPlaneLayout)
    (sequence timestamp : Z) (clock_domain : string) (dropped : Z)
    : HalResult CameraFrameMetadata :=
  CameraFormat_validate format ≫= λ _,
  if str_is_empty clock_domain || negb (is_ascii clock_domain) || (255 <? str_len clock_domain) then
    HalError_new "camera.frame.invalid" InvalidArgument "camera.frame_metadata" false
      "camera clock domain must be non-empty ASCII of at most 255 bytes" ≫= λ e, Err e
  else
    match planes with
    | [] => Err (camera_invalid_frame "camera.frame_metadata"
                   "camera frames must declare one or more planes")
    | _ =>
        validate_plane_layouts format planes ≫= λ _,
        Ok (mkCameraFrameMetadata format planes sequence timestamp clock_domain dropped)
    end.

Record CameraFrame := mkCameraFrame {
  frame_metadata : CameraFrameMetadata;
  frame_payload : list Z;
}.
Definition CameraFrame_new (metadata : CameraFrameMetadata) (payload : list Z)
    : HalResult CameraFrame :=
  let n := Z.of_nat (length payload) in
  if (MAX_CAMERA_FRAME_BYTES <? n) || existsb (plane_escapes n) (fm_planes metadata) then
    Err (camera_invalid_frame "camera.frame"
           "camera frame payload or plane layout exceeds public bounds")
  else
    validate_plane_layouts_against_payload (fm_format metadata) (fm_planes metadata) n ≫= λ _,
    Ok (mkCameraFrame metadata payload).

(** ** Controls *)
Inductive CameraControlKind := Exposure | Gain | WhiteBalance | Focus.
Inductive CameraControlValue := ControlInteger (value : Z) | ControlEnum (value : string).
Global Instance CameraControlValue_eq_dec : EqDecision CameraControlValue.
Proof. solve_decision. Defined.
Inductive CameraControlValues :=
  | ControlRange (minimum maximum step : Z)
  | ControlEnumerated (values : list CameraControlValue).
Definition CameraControlValues_range (minimum maximum step : Z) : HalResult CameraControlValues :=
  if (maximum <? minimum) || (step <=? 0) then
    Err (invalid_control_descriptor "camera.control_values"
           "camera control range must be ordered with a positive step")
  else Ok (ControlRange minimum maximum step).
Definition CameraControlValues_enumerated (values : list CameraControlValue)
    : HalResult CameraControlValues :=
  match values with
  | [] => Err (invalid_control_descriptor "camera.control_values"
                 "camera enumerated controls must have one or more values")
  | _ => Ok (ControlEnumerated values)
  end.
Definition CameraControlValues_contains (values : CameraControlValues)
    (value : CameraControlValue) : bool :=
  match values, value with
  | ControlRange minimum maximum step, ControlInteger v =>
      (minimum <=? v) && (v <=? maximum) && (Z.rem (wrap_i64 (v - minimum)) step =? 0)
  | ControlEnumerated vs, v => existsb (λ x, bool_decide (x = v)) vs
  | _, _ => false
  end.
Record CameraControlDescriptor := mkCameraControlDescriptor {
  cd_kind : CameraControlKind;
  cd_readable : bool;
  cd_writable : bool;
  cd_auto_supported : bool;
  cd_values : CameraControlValues;
  cd_current_value_available : bool;
  cd_diagnostic : option string;
}.
Definition CameraControlDescriptor_new (kind : CameraControlKind)
    (readable writable auto_supported : bool) (values : CameraControlValues)
    (current_value_available : bool) (diagnostic : option string)
    : HalResult CameraControlDescriptor :=
  if negb readable && current_value_available then
    Err (invalid_control_descriptor "camera.control_descriptor"
           "unreadable controls cannot advertise a current value")
  else Ok (mkCameraControlDescriptor kind readable writable auto_supported values
             current_value_available diagnostic).

(** ** Disjointness of sorted ranges *)
Definition ranges_disjoint (a b : Z * Z) : Prop := a.2 <= b.1 ∨ b.2 <= a.1.

Lemma windows_overlap_false l :
  Sorted range_le l → Forall (λ r, r.1 <= r.2) l → windows_overlap l = false →
  ForallOrdPairs (λ a b, a.2 <= b.1) l.
Proof.
  induction l as [|a l IH]; intros Hs Hp Hw; [constructor|].
  apply Forall_cons in Hp as [Ha Hp]. destruct l as [|b l]; [repeat constructor|].
  simpl in Hw. bool_simp. apply Sorted_inv in Hs as [Hs _]. specialize (IH Hs Hp H0).
  constructor; [|done]. constructor; [lia|].
  inversion IH as [|? ? Hb _]; subst. apply Forall_cons in Hp as [? _].
  eapply Forall_impl; [done|]. simpl. lia.
Qed.

Lemma ForallOrdPairs_perm {A} (R : relation A) (l l' : list A) :
  Symmetric R → l ≡ₚ l' → ForallOrdPairs R l → ForallOrdPairs R l'.
Proof.
  intros Hsym. induction 1 as [|x l l' Hp IH|x y l|l l' l'' _ IH1 _ IH2]; intros H.
  - constructor.
  - inversion H; subst. constructor; [by rewrite <- Hp|auto].
  - inversion H as [|? ? Hy Hyl]; subst. inversion Hyl as [|? ? Hx Hl]; subst.
    apply Forall_cons in Hy as [Hyx Hy]. repeat constructor; auto.
  - auto.
Qed.

(** Ranges accepted by the overlap test are pairwise disjoint. *)
Lemma no_overlap_disjoint l :
  Forall (λ r, r.1 <= r.2) l → windows_overlap (sort_ranges l) = false →
  ForallOrdPairs ranges_disjoint l.
Proof.
  intros Hp Hw. pose proof (merge_sort_Permutation range_le l) as Hperm.
  eapply (ForallOrdPairs_perm _ (sort_ranges l) l); [|done|].
  { unfold ranges_disjoint. intros ? ?. tauto. }
  assert (ForallOrdPairs (λ a b, a.2 <= b.1) (sort_ranges l)) as Ho.
  { apply windows_overlap_false; [| |done].
    - apply Sorted_merge_sort. intros ? ?. unfold range_le. lia.
    - unfold sort_ranges. by rewrite Hperm. }
  revert Ho. generalize (sort_ranges l). clear. intros l.
  induction 1 as [|a l Ha]; constructor; [|done].
  eapply Forall_impl; [done|]. intros. by left.
Qed.

(** ** Theorems *)
Definition plane_range (p : CameraPlaneLayout) : Z * Z :=
  (cp_offset p, cp_offset p + cp_length p).

Lemma collect_ranges planes ranges (e : HalError) :
  collect (λ p, ok_or e
    ((λ end_, (cp_offset p, end_)) <$> checked_add usize_max (cp_offset p) (cp_length p)))
    planes = Ok ranges → ranges = plane_range <$> planes ∧
  Forall (λ p, (plane_range p).2 <= usize_max) planes.
Proof.
  intros H%collect_Ok. induction H as [|p r planes ranges Hp _ [-> IH]]; [done|].
  unfold checked_add in Hp. destruct (_ <=? _) eqn:Hle; [|done]. bool_simp.
  injection Hp as <-. by split; [|constructor].
Qed.

(** How many rows of at least how many bytes each plane must hold. *)
Definition plane_minimums (f : CameraFormat) : list (Z * Z) :=
  match cf_pixel_format f with
  | CamNv12 => [(cf_width f, cf_height f); (cf_width f, (cf_height f + 1) `div` 2)]
  | CamYuyv => [(cf_width f * 2, cf_height f)]
  | CamMjpeg => [(0, 0)]
  end.

Lemma plane_size_Ok stride rows message n :
  plane_size stride rows message = Ok n → n = stride * rows.
Proof.
  unfold plane_size, checked_mul. destruct (_ <=? _); [|done]. by intros [= <-].
Qed.

(** C40: a frame that [CameraFrame::new] accepts is safe to read: it has exactly the
    planes of its pixel format, every plane is wide enough and holds all its rows
    (for raw formats), every plane lies inside the payload, planes do not overlap,
    and the payload is at most 24 MiB. *)
Theorem camera_frame_well_formed metadata payload frame :
  Forall (λ p, 0 <= cp_offset p ∧ 0 < cp_length p ∧ 0 < cp_stride p) (fm_planes metadata) →
  CameraFrame_new metadata payload = Ok frame →
  frame = mkCameraFrame metadata payload ∧
  Z.of_nat (length payload) <= MAX_CAMERA_FRAME_BYTES ∧
  Forall2 (λ p '(stride, rows), stride <= cp_stride p ∧ cp_stride p * rows <= cp_length p)
    (fm_planes metadata) (plane_minimums (fm_format metadata)) ∧
  Forall (λ p, (plane_range p).2 <= Z.of_nat (length payload)) (fm_planes metadata) ∧
  ForallOrdPairs ranges_disjoint (plane_range <$> fm_planes metadata).
Proof.
  intros Hpos. unfold CameraFrame_new, validate_plane_layouts_against_payload.
  destruct (_ || _) eqn:Hb; [done|]. bool_simp.
  intros Hnew. apply bind_Ok in Hnew as ([] & Hval & [= <-]).
  apply bind_Ok in Hval as ([] & Hval & _).
  unfold validate_plane_layouts in Hval. apply bind_Ok in Hval as ([] & Hmin & Hval).
  apply bind_Ok in Hval as (ranges & Hr & Hov).
  destruct (windows_overlap _) eqn:Hw; [done|].
  apply collect_ranges in Hr as [-> Hmax].
  split_and!; [done|done| | |].
  - clear - Hmin Hpos. unfold plane_minimums.
    destruct (cf_pixel_format _), (fm_planes metadata) as [|p [|q [|]]]; simpl in *; try done.
    + destruct (_ || _) eqn:Hs; [done|]. bool_simp.
      apply bind_Ok in Hmin as (y & Hy%plane_size_Ok & Hmin).
      destruct (_ <? _) eqn:?; [done|]. bool_simp.
      apply bind_Ok in Hmin as (uv & Huv%plane_size_Ok & Hmin).
      destruct (_ <? _) eqn:?; [done|]. bool_simp. repeat constructor; simpl; lia.
    + apply bind_Ok in Hmin as (m & Hm & Hmin). unfold checked_mul in Hm.
      destruct (_ <=? _); [|done]. injection Hm as <-.
      destruct (_ <? _) eqn:?; [done|]. bool_simp.
      apply bind_Ok in Hmin as (y & Hy%plane_size_Ok & Hmin).
      destruct (_ <? _) eqn:?; [done|]. bool_simp. repeat constructor; simpl; lia.
    + apply Forall_cons in Hpos as [? _]. repeat constructor; simpl; lia.
  - apply Forall_forall. intros p Hp. apply Forall_forall with (x := p) in Hmax; [|done].
    assert (plane_escapes (Z.of_nat (length payload)) p = false) as He.
    { apply not_true_is_false. intros He. apply not_true_iff_false in H0. destruct H0.
      apply existsb_exists. exists p. by rewrite <- list_elem_of_In. }
    unfold plane_escapes, checked_add in He. unfold plane_range in *. simpl in *.
    rewrite (proj2 (Z.leb_le _ _)) in He by done. simpl in He. bool_simp. done.
  - apply no_overlap_disjoint; [|done]. apply Forall_fmap. eapply Forall_impl; [exact Hpos|].
    unfold plane_range, compose. simpl. lia.
Qed.

Definition gx_format : CameraFormat := mkCameraFormat CamNv12 2 2.
Definition gx_metadata : CameraFrameMetadata :=
  mkCameraFrameMetadata gx_format [mkCameraPlaneLayout 0 4 2; mkCameraPlaneLayout 4 2 2] 1 0 "host" 0.

Lemma camera_frame_well_formed_witness :
  ForallOrdPairs ranges_disjoint (plane_range <$> fm_planes gx_metadata).
Proof.
  apply (camera_frame_well_formed gx_metadata [1; 2; 3; 4; 5; 6]
           (mkCameraFrame gx_metadata [1; 2; 3; 4; 5; 6])).
  - repeat constructor; simpl; lia.
  - vm_compute. reflexivity.
Defined.

(** A control range accepts exactly the integers minimum, minimum + step, ... up
    to the maximum, provided the range is not wider than i64::MAX. *)
Theorem control_range_contains_spec minimum maximum step values v :
  CameraControlValues_range minimum maximum step = Ok values →
  i64_min <= minimum → maximum <= i64_max → maximum - minimum <= i64_max →
  CameraControlValues_contains values (ControlInteger v) = true ↔
  ∃ k, 0 <= k ∧ v = minimum + k * step ∧ v <= maximum.
Proof.
  unfold CameraControlValues_range. destruct (_ || _) eqn:Hb; [done|]. bool_simp.
  intros [= <-] Hmin Hmax Hw. simpl. rewrite !andb_true_iff, !Z.leb_le, Z.eqb_eq. split.
  - intros [[? ?] Hr]. rewrite wrap_i64_id in Hr by (unfold i64_min, i64_max in *; lia).
    apply Z.rem_divide in Hr as [k Hk]; [|lia]. exists k. split_and!; [nia|lia|done].
  - intros (k & Hk & -> & ?). split; [split; [nia|done]|].
    rewrite wrap_i64_id by (unfold i64_min, i64_max in *; nia).
    replace (minimum + k * step - minimum) with (k * step) by lia. apply Z.rem_mul. lia.
Qed.

Lemma control_range_contains_spec_witness :
  CameraControlValues_contains (ControlRange 0 10 5) (ControlInteger 10) = true ↔
  ∃ k, 0 <= k ∧ 10 = 0 + k * 5 ∧ 10 <= 10.
Proof.
  apply (control_range_contains_spec 0 10 5); [reflexivity|vm_compute; congruence..].
Defined.

(** Over the full i64 range the subtraction wraps: minimum + 3 * 2^62 is a multiple of
    the step away from the minimum and is refused. *)
Lemma control_range_contains_wraps :
  CameraControlValues_range i64_min i64_max 3 = Ok (ControlRange i64_min i64_max 3) ∧
  i64_min <= i64_min + 3 * 2 ^ 62 <= i64_max ∧
  CameraControlValues_contains (ControlRange i64_min i64_max 3)
    (ControlInteger (i64_min + 3 * 2 ^ 62)) = false.
Proof. vm_compute. split_and!; [reflexivity|congruence|congruence|reflexivity]. Qed.
