(* ===== verification/ShmLayout.v ===== *)
(** * Shared-memory adapter: byte memory and the fixed layout

    Models adapters/shared-memory/src/layout.rs and the error constructors of lib.rs,
    over an explicit byte memory: a mapping is a function from addresses (offsets from
    the base pointer) to bytes, and multi-byte fields are little-endian. *)

From S2P Require Import Prelude Core CameraTypes.

(** ** lib.rs *)
Definition shm_invalid (operation message : string) : HalError :=
  static_error "shared_memory.invalid" InvalidArgument operation false message.
Definition shm_unavailable (operation message : string) : HalError :=
  static_error "shared_memory.unavailable" Unavailable operation false message.

(** ** Byte memory *)
Definition Mem : Type := Z → Z.
Definition mem_store (m : Mem) (a : Z) (bytes : list Z) : Mem := λ x,
  if (a <=? x) && (x <? a + Z.of_nat (length bytes))
  then default 0 (bytes !! Z.to_nat (x - a)) else m x.
Definition mem_load (m : Mem) (a : Z) (n : nat) : list Z :=
  (λ i, m (a + Z.of_nat i)) <$> seq 0 n.

Fixpoint le_bytes (n : nat) (v : Z) : list Z :=
  match n with O => [] | S n => v mod 256 :: le_bytes n (v / 256) end.
Fixpoint le_value (bytes : list Z) : Z :=
  match bytes with [] => 0 | b :: bytes => b + 256 * le_value bytes end.

Definition write_u16 (m : Mem) (a v : Z) : Mem := mem_store m a (le_bytes 2 v).
Definition write_u32 (m : Mem) (a v : Z) : Mem := mem_store m a (le_bytes 4 v).
Definition write_u64 (m : Mem) (a v : Z) : Mem := mem_store m a (le_bytes 8 v).
Definition read_u16 (m : Mem) (a : Z) : Z := le_value (mem_load m a 2).
Definition read_u32 (m : Mem) (a : Z) : Z := le_value (mem_load m a 4).
Definition read_u64 (m : Mem) (a : Z) : Z := le_value (mem_load m a 8).

(** Two memories agree on an address range. *)
Definition mem_agree (lo hi : Z) (m m' : Mem) : Prop := ∀ x, lo <= x < hi → m x = m' x.

Global Instance mem_agree_equiv lo hi : Equivalence (mem_agree lo hi).
Proof.
  split.
  - intros m x _. done.
  - intros m m' H x Hx. symmetry. auto.
  - intros m1 m2 m3 H1 H2 x Hx. rewrite H1 by done. auto.
Qed.

Lemma mem_agree_store lo hi m a bytes :
  a + Z.of_nat (length bytes) <= lo ∨ hi <= a → mem_agree lo hi (mem_store m a bytes) m.
Proof.
  intros H x Hx. unfold mem_store.
  destruct (a <=? x) eqn:?, (x <? _) eqn:?; bool_simp; simpl; try done. lia.
Qed.

Lemma mem_agree_sub lo hi lo' hi' m m' :
  lo <= lo' → hi' <= hi → mem_agree lo hi m m' → mem_agree lo' hi' m m'.
Proof. intros ? ? H x Hx. apply H. lia. Qed.

Lemma mem_load_agree m m' a n :
  mem_agree a (a + Z.of_nat n) m m' → mem_load m a n = mem_load m' a n.
Proof.
  intros H. unfold mem_load. apply list_fmap_ext. intros i x [-> Hi]%lookup_seq.
  apply H. lia.
Qed.

Lemma mem_load_store m a bytes : mem_load (mem_store m a bytes) a (length bytes) = bytes.
Proof.
  apply list_eq. intros i. unfold mem_load. rewrite list_lookup_fmap.
  destruct (decide (i < length bytes)%nat) as [Hi|Hi].
  - rewrite lookup_seq_lt by done. simpl. unfold mem_store.
    rewrite (proj2 (Z.leb_le _ _)) by lia. rewrite (proj2 (Z.ltb_lt _ _)) by lia. simpl.
    replace (Z.to_nat (a + Z.of_nat i - a)) with i by lia.
    destruct (lookup_lt_is_Some_2 bytes i Hi) as [b ->]. done.
  - rewrite lookup_seq_ge by lia. simpl. symmetry. by apply lookup_ge_None_2; lia.
Qed.

Lemma length_le_bytes n v : length (le_bytes n v) = n.
Proof. revert v; induction n as [|n IH]; intros v; simpl; [done|]. by rewrite IH. Qed.

Lemma le_value_bytes n v : 0 <= v < 256 ^ Z.of_nat n → le_value (le_bytes n v) = v.
Proof.
  revert v. induction n as [|n IH]; intros v Hv; simpl.
  - simpl in Hv. lia.
  - rewrite IH; [pose proof (Z.div_mod v 256); lia|].
    rewrite Nat2Z.inj_succ, Z.pow_succ_r in Hv by lia.
    split; [apply Z.div_pos; lia|]. apply Z.div_lt_upper_bound; lia.
Qed.

Lemma read_u64_agree m m' a : mem_agree a (a + 8) m m' → read_u64 m a = read_u64 m' a.
Proof. intros. unfold read_u64. by rewrite (mem_load_agree m m') by done. Qed.
Lemma read_u32_agree m m' a : mem_agree a (a + 4) m m' → read_u32 m a = read_u32 m' a.
Proof. intros. unfold read_u32. by rewrite (mem_load_agree m m') by done. Qed.
Lemma read_u16_agree m m' a : mem_agree a (a + 2) m m' → read_u16 m a = read_u16 m' a.
Proof. intros. unfold read_u16. by rewrite (mem_load_agree m m') by done. Qed.

Lemma read_u64_same m a v : 0 <= v <= u64_max → read_u64 (write_u64 m a v) a = v.
Proof.
  intros. unfold read_u64, write_u64.
  replace 8%nat with (length (le_bytes 8 v)) at 2 by apply length_le_bytes.
  rewrite mem_load_store. apply le_value_bytes. unfold u64_max in *. simpl. lia.
Qed.
Lemma read_u32_same m a v : 0 <= v <= u32_max → read_u32 (write_u32 m a v) a = v.
Proof.
  intros. unfold read_u32, write_u32.
  replace 4%nat with (length (le_bytes 4 v)) at 2 by apply length_le_bytes.
  rewrite mem_load_store. apply le_value_bytes. unfold u32_max in *. simpl. lia.
Qed.
Lemma read_u16_same m a v : 0 <= v <= u16_max → read_u16 (write_u16 m a v) a = v.
Proof.
  intros. unfold read_u16, write_u16.
  replace 2%nat with (length (le_bytes 2 v)) at 2 by apply length_le_bytes.
  rewrite mem_load_store. apply le_value_bytes. unfold u16_max in *. simpl. lia.
Qed.

Lemma write_u64_agree lo hi m a v : a + 8 <= lo ∨ hi <= a → mem_agree lo hi (write_u64 m a v) m.
Proof. intros. apply mem_agree_store. rewrite length_le_bytes. lia. Qed.
Lemma write_u32_agree lo hi m a v : a + 4 <= lo ∨ hi <= a → mem_agree lo hi (write_u32 m a v) m.
Proof. intros. apply mem_agree_store. rewrite length_le_bytes. lia. Qed.
Lemma write_u16_agree lo hi m a v : a + 2 <= lo ∨ hi <= a → mem_agree lo hi (write_u16 m a v) m.
Proof. intros. apply mem_agree_store. rewrite length_le_bytes. lia. Qed.

(** Peel writes that do not touch the range of interest. *)
Ltac peel_writes :=
  repeat match goal with
  | |- mem_agree _ _ (write_u64 _ _ _) _ => etransitivity; [apply write_u64_agree; lia|]
  | |- mem_agree _ _ (write_u32 _ _ _) _ => etransitivity; [apply write_u32_agree; lia|]
  | |- mem_agree _ _ (write_u16 _ _ _) _ => etransitivity; [apply write_u16_agree; lia|]
  | |- mem_agree _ _ (mem_store _ _ _) _ =>
      etransitivity; [apply mem_agree_store; simpl in *; lia|]
  end.

(** ** layout.rs *)
Definition MAX_MAPPING_BYTES : Z := 256 * 1024 * 1024.
Definition HEADER_BYTES : Z := 192.
Definition SLOT_HEADER_BYTES : Z := 128.
Definition SLOT_ALIGNMENT : Z := 64.
(** The bytes of "SHRING04". *)
Definition MAGIC : list Z := [83; 72; 82; 73; 78; 71; 48; 52].
Definition LAYOUT_MAJOR : Z := 1.
Definition LAYOUT_MINOR : Z := 0.
Definition MAX_PLANES : Z := 3.

Inductive PixelFormat := Nv12 | Yuyv | Mjpeg.
Global Instance PixelFormat_eq_dec : EqDecision PixelFormat.
Proof. solve_decision. Defined.
Definition PixelFormat_as_u32 (f : PixelFormat) : Z :=
  match f with Nv12 => 1 | Yuyv => 2 | Mjpeg => 3 end.
Definition PixelFormat_try_from (value : Z) : HalResult PixelFormat :=
  if value =? 1 then Ok Nv12 else if value =? 2 then Ok Yuyv else if value =? 3 then Ok Mjpeg
  else Err (shm_invalid "shared_memory.layout" "unknown pixel format").
Definition PixelFormat_from (f : CameraPixelFormat) : PixelFormat :=
  match f with CamNv12 => Nv12 | CamYuyv => Yuyv | CamMjpeg => Mjpeg end.
Definition CameraPixelFormat_of (f : PixelFormat) : CameraPixelFormat :=
  match f with Nv12 => CamNv12 | Yuyv => CamYuyv | Mjpeg => CamMjpeg end.

Record PlaneLayout := mkPlaneLayout { pl_offset : Z; pl_length : Z; pl_stride : Z }.
Definition PlaneLayout_new (offset length stride : Z) : HalResult PlaneLayout :=
  let bad := shm_invalid "shared_memory.plane" in
  ok_or (bad "plane offset exceeds layout range") (try_from u32_max offset) ≫= λ offset,
  ok_or (bad "plane length exceeds layout range") (try_from u32_max length) ≫= λ length,
  ok_or (bad "plane stride exceeds layout range") (try_from u32_max stride) ≫= λ stride,
  if (length =? 0) || (stride =? 0) then Err (bad "plane length and stride must be non-zero")
  else
    ok_or (bad "plane range overflows") (checked_add u32_max offset length) ≫= λ _,
    Ok (mkPlaneLayout offset length stride).

Definition validate_dimensions (format : PixelFormat) (width height : Z) : HalResult unit :=
  if (width =? 0) || (height =? 0) || (MAX_CAMERA_WIDTH <? width) || (MAX_CAMERA_HEIGHT <? height)
  then Err (shm_invalid "shared_memory.layout"
              "frame dimensions are outside the negotiated bounds")
  else if bool_decide (format = Nv12) && (negb (width mod 2 =? 0) || negb (height mod 2 =? 0))
  then Err (shm_invalid "shared_memory.layout" "NV12 dimensions must be even")
  else Ok ().

(** The three loops of [validate_planes]. *)
Fixpoint check_plane_ends (planes : list PlaneLayout) (payload_length : Z) : HalResult unit :=
  match planes with
  | [] => Ok ()
  | p :: planes =>
      ok_or (shm_invalid "shared_memory.layout" "plane range overflows")
        (checked_add usize_max (pl_offset p) (pl_length p)) ≫= λ end_,
      if payload_length <? end_ then
        Err (shm_invalid "shared_memory.layout" "plane range escapes the frame payload")
      else check_plane_ends planes payload_length
  end.
Fixpoint check_plane_minimums (planes : list PlaneLayout) (minimums : list (Z * Z))
    : HalResult unit :=
  match planes, minimums with
  | p :: planes, (minimum_stride, rows) :: minimums =>
      let small := Err (shm_invalid "shared_memory.layout"
                          "plane dimensions do not cover the negotiated frame") in
      if pl_stride p <? minimum_stride then small
      else
        ok_or (shm_invalid "shared_memory.layout" "plane size overflows")
          (checked_mul usize_max (pl_stride p) rows) ≫= λ size,
        if pl_length p <? size then small else check_plane_minimums planes minimums
  | _, _ => Ok ()
  end.
Definition shm_plane_range (p : PlaneLayout) : Z * Z := (pl_offset p, pl_offset p + pl_length p).
Definition shm_minimums (format : PixelFormat) (width height : Z) : list (Z * Z) :=
  match format with
  | Nv12 => [(width, height); (width, height / 2); (0, 0)]
  | Yuyv => [(default usize_max (checked_mul usize_max width 2), height); (0, 0); (0, 0)]
  | Mjpeg => [(0, 0); (0, 0); (0, 0)]
  end.
Definition validate_planes (format : PixelFormat) (width height : Z) (planes : list PlaneLayout)
    (payload_length : Z) : HalResult unit :=
  let count := Z.of_nat (length planes) in
  let expected_count := if bool_decide (format = Nv12) then 2 else 1 in
  if negb (count =? expected_count) || (MAX_PLANES <? count) then
    Err (shm_invalid "shared_memory.layout" "plane count does not match the pixel format")
  else
    check_plane_ends planes payload_length ≫= λ _,
    check_plane_minimums planes (shm_minimums format width height) ≫= λ _,
    if windows_overlap (sort_ranges (shm_plane_range <$> planes)) then
      Err (shm_invalid "shared_memory.layout" "plane ranges overlap")
    else Ok ().

Record FrameMetadata := mkFrameMetadata {
  md_format : PixelFormat;
  md_width : Z;
  md_height : Z;
  md_sequence : Z;
  md_generation : Z;
  md_monotonic_timestamp_ns : Z;
  md_dropped_count : Z;
  md_planes : list PlaneLayout;
}.
Definition FrameMetadata_new (format : PixelFormat) (width height sequence generation timestamp
    dropped : Z) (planes : list PlaneLayout) : HalResult FrameMetadata :=
  validate_dimensions format width height ≫= λ _,
  validate_planes format width height planes MAX_CAMERA_FRAME_BYTES ≫= λ _,
  Ok (mkFrameMetadata format width height sequence generation timestamp dropped planes).

Inductive SlotState := Free | Writing | Ready | Pinned.
Global Instance SlotState_eq_dec : EqDecision SlotState.
Proof. solve_decision. Defined.
Definition SlotState_raw (s : SlotState) : Z :=
  match s with Free => 0 | Writing => 1 | Ready => 2 | Pinned => 3 end.
Definition SlotState_from_raw (value : Z) : HalResult SlotState :=
  if value =? 0 then Ok Free else if value =? 1 then Ok Writing
  else if value =? 2 then Ok Ready else if value =? 3 then Ok Pinned
  else Err (shm_invalid "shared_memory.slot" "slot state is invalid").

(** Tokens and identities are 32 bytes. *)
Record MappingDescriptor := mkMappingDescriptor {
  mapd_name : string;
  mapd_identity : list Z;
  mapd_token : list Z;
  mapd_total_length : Z;
}.
Definition MappingDescriptor_new (name : string) (identity token : list Z) (total_length : Z)
    : HalResult MappingDescriptor :=
  if str_is_empty name || negb (is_ascii name) || (255 <? str_len name) || (total_length =? 0)
     || (MAX_MAPPING_BYTES <? total_length)
  then Err (shm_invalid "shared_memory.descriptor" "mapping descriptor fields are invalid")
  else Ok (mkMappingDescriptor name identity token total_length).

Definition align_up (value alignment : Z) : HalResult Z :=
  ok_or (shm_invalid "shared_memory.layout" "alignment overflows")
    ((λ v : Z, v / alignment * alignment) <$> checked_add usize_max value (alignment - 1)).

Record RingConfig := mkRingConfig {
  rc_format : CameraFormat;
  rc_slot_count : Z;
  rc_payload_capacity : Z;
  rc_slot_stride : Z;
  rc_total_length : Z;
}.
Definition RingConfig_new (format : CameraFormat) (slot_count payload_capacity : Z)
    : HalResult RingConfig :=
  let bad := shm_invalid "shared_memory.config" in
  CameraFormat_validate format ≫= λ _,
  if negb (slot_count_in_range slot_count) then
    Err (bad "slot count must be within the inclusive public range")
  else
    CameraFormat_worst_case_frame_bytes format ≫= λ worst_case,
    if (MAX_CAMERA_FRAME_BYTES <? payload_capacity) || (payload_capacity <? worst_case) then
      Err (bad "payload capacity must cover the negotiated format within the frame bound")
    else
      ok_or (bad "slot stride overflows")
        (checked_add usize_max SLOT_HEADER_BYTES payload_capacity) ≫= λ unaligned,
      align_up unaligned SLOT_ALIGNMENT ≫= λ slot_stride,
      ok_or (bad "mapping length overflows") (checked_mul usize_max slot_stride slot_count)
      ≫= λ slots,
      ok_or (bad "mapping length overflows") (checked_add usize_max HEADER_BYTES slots)
      ≫= λ total_length,
      if MAX_MAPPING_BYTES <? total_length then
        Err (bad "mapping length exceeds the bounded shared-memory limit")
      else Ok (mkRingConfig format slot_count payload_capacity slot_stride total_length).

Record ValidatedHeader := mkValidatedHeader {
  vh_config : RingConfig;
  vh_identity : list Z;
}.

(** ** The layout is sound *)
Lemma SlotState_from_raw_raw s : SlotState_from_raw (SlotState_raw s) = Ok s.
Proof. by destruct s. Qed.

Lemma PixelFormat_try_from_as f : PixelFormat_try_from (PixelFormat_as_u32 f) = Ok f.
Proof. by destruct f. Qed.

Lemma CameraFormat_validate_bounds f :
  CameraFormat_validate f = Ok () →
  cf_width f ≠ 0 ∧ cf_height f ≠ 0 ∧
  cf_width f <= MAX_CAMERA_WIDTH ∧ cf_height f <= MAX_CAMERA_HEIGHT.
Proof. unfold CameraFormat_validate. destruct (_ || _) eqn:?; [done|]. intros _. bool_simp. lia. Qed.

Lemma RingConfig_new_Ok format slot_count payload_capacity cfg :
  RingConfig_new format slot_count payload_capacity = Ok cfg →
  cfg = mkRingConfig format slot_count payload_capacity (rc_slot_stride cfg)
          (HEADER_BYTES + rc_slot_stride cfg * slot_count) ∧
  CameraFormat_validate format = Ok () ∧
  MIN_CAMERA_SLOT_COUNT <= slot_count <= MAX_CAMERA_SLOT_COUNT ∧
  (∃ worst, CameraFormat_worst_case_frame_bytes format = Ok worst ∧ worst <= payload_capacity) ∧
  payload_capacity <= MAX_CAMERA_FRAME_BYTES ∧
  SLOT_HEADER_BYTES + payload_capacity <= rc_slot_stride cfg
    < SLOT_HEADER_BYTES + payload_capacity + SLOT_ALIGNMENT ∧
  (SLOT_ALIGNMENT | rc_slot_stride cfg) ∧
  rc_total_length cfg <= MAX_MAPPING_BYTES.
Proof.
  unfold RingConfig_new. intros H. apply bind_Ok in H as ([] & Hf & H).
  unfold slot_count_in_range in H. destruct (negb _) eqn:Hn; [done|]. bool_simp.
  apply bind_Ok in H as (worst & Hworst & H). destruct (_ || _) eqn:Hc; [done|]. bool_simp.
  apply bind_Ok in H as (un & Hun & H). unfold checked_add in Hun.
  destruct (_ <=? usize_max) in Hun; [|done]. injection Hun as <-.
  apply bind_Ok in H as (stride & Hst & H). unfold align_up, checked_add in Hst.
  destruct (_ <=? usize_max) in Hst; [|done]. injection Hst as <-.
  apply bind_Ok in H as (slots & Hsl & H). unfold checked_mul in Hsl.
  destruct (_ <=? usize_max) in Hsl; [|done]. injection Hsl as <-.
  apply bind_Ok in H as (total & Ht & H). unfold checked_add in Ht.
  destruct (_ <=? usize_max) in Ht; [|done]. injection Ht as <-.
  destruct (_ <? _) eqn:Hm; [done|]. bool_simp. injection H as <-. simpl.
  unfold SLOT_HEADER_BYTES, SLOT_ALIGNMENT in *.
  split_and!; try done.
  - by exists worst.
  - pose proof (Z.mod_pos_bound (128 + payload_capacity + (64 - 1)) 64 ltac:(lia)).
    pose proof (Z.div_mod (128 + payload_capacity + (64 - 1)) 64 ltac:(lia)). lia.
  - pose proof (Z.mod_pos_bound (128 + payload_capacity + (64 - 1)) 64 ltac:(lia)).
    pose proof (Z.div_mod (128 + payload_capacity + (64 - 1)) 64 ltac:(lia)). lia.
  - apply Z.divide_factor_r.
Qed.

(** An accepted ring configuration lays its slots out soundly: every slot (header
    and full payload) starts at a multiple of 64 after the 192-byte mapping header, no
    two slots overlap, all of them end inside the mapping, the mapping is at most
    256 MiB, and each payload area can hold the largest frame of the format. *)
Theorem ring_config_layout_sound format slot_count payload_capacity cfg :
  0 <= payload_capacity →
  RingConfig_new format slot_count payload_capacity = Ok cfg →
  let base i := HEADER_BYTES + i * rc_slot_stride cfg in
  let slot_end i := base i + SLOT_HEADER_BYTES + payload_capacity in
  (∃ worst, CameraFormat_worst_case_frame_bytes format = Ok worst ∧ worst <= payload_capacity) ∧
  rc_total_length cfg <= MAX_MAPPING_BYTES ∧
  ∀ i, 0 <= i < rc_slot_count cfg →
    HEADER_BYTES <= base i ∧ slot_end i <= rc_total_length cfg ∧ (SLOT_ALIGNMENT | base i) ∧
    ∀ j, 0 <= j < rc_slot_count cfg → i ≠ j → slot_end i <= base j ∨ slot_end j <= base i.
Proof.
  intros Hpc (Hcfg & _ & Hn & Hw & Hmax & Hst & Hdiv & Ht)%RingConfig_new_Ok base slot_end.
  assert (rc_slot_count cfg = slot_count ∧
    rc_total_length cfg = HEADER_BYTES + rc_slot_stride cfg * slot_count) as [Hsc Htl]
    by (rewrite Hcfg; done).
  split_and!; [done|done|]. intros i Hi. rewrite Hsc, Htl in *. unfold slot_end, base.
  assert (0 < rc_slot_stride cfg) as Hs0 by (unfold SLOT_HEADER_BYTES in *; lia).
  split_and!.
  - nia.
  - nia.
  - apply Z.divide_add_r; [by exists 3|]. by apply Z.divide_mul_r.
  - intros j Hj Hij. destruct (decide (i < j)); [left|right]; nia.
Qed.

Definition hx_format : CameraFormat := mkCameraFormat CamYuyv 2 2.
Definition hx_config : RingConfig := mkRingConfig hx_format 4 16 192 960.
Lemma ring_config_layout_sound_witness :
  rc_total_length hx_config <= MAX_MAPPING_BYTES.
Proof.
  apply (ring_config_layout_sound hx_format 4 16 hx_config); [lia|vm_compute; reflexivity].
Defined.
