(* ===== verification/ShmRing.v ===== *)
(** * Shared-memory adapter: the frame ring

    Models adapters/shared-memory/src/ring.rs over the byte memory of [ShmLayout].
    The operating-system mapping and its advisory lock (platform.rs) appear as the
    outcomes of the lock calls; the mapping name, identity and token come from the
    system's random generator and are arguments; SHA-256 is a parameter. *)

From S2P Require Import Prelude Core CameraTypes ShmLayout.

Definition HEADER_MAGIC : Z := 0.
Definition HEADER_MAJOR : Z := 8.
Definition HEADER_MINOR : Z := 10.
Definition HEADER_TOTAL_LENGTH : Z := 16.
Definition HEADER_SLOT_COUNT : Z := 24.
Definition HEADER_SLOT_STRIDE : Z := 32.
Definition HEADER_FORMAT : Z := 40.
Definition HEADER_WIDTH : Z := 44.
Definition HEADER_HEIGHT : Z := 48.
Definition HEADER_PAYLOAD_CAPACITY : Z := 56.
Definition HEADER_IDENTITY : Z := 64.
Definition HEADER_TOKEN_HASH : Z := 96.
Definition HEADER_DROPPED_COUNT : Z := 128.
Definition HEADER_TERMINAL_STATE : Z := 136.
Definition TERMINAL_STATE_OPEN : Z := 0.
Definition TERMINAL_STATE_CLOSED : Z := 1.
Definition SLOT_STATE : Z := 0.
Definition SLOT_SEQUENCE : Z := 8.
Definition SLOT_GENERATION : Z := 16.
Definition SLOT_TIMESTAMP : Z := 24.
Definition SLOT_DROPPED : Z := 32.
Definition SLOT_PAYLOAD_LENGTH : Z := 40.
Definition SLOT_PLANE_COUNT : Z := 48.
Definition SLOT_PLANES : Z := 56.
Definition PLANE_BYTES : Z := 12.

(** ** Data *)
Record FrameLease := mkFrameLease {
  fl_identity : list Z;
  fl_slot_index : Z;
  fl_sequence : Z;
  fl_generation : Z;
}.
Record CopiedFrame := mkCopiedFrame { copied_metadata : FrameMetadata; copied_payload : list Z }.
Record BrokerMapping := mkBrokerMapping {
  bm_mem : Mem;
  bm_descriptor : MappingDescriptor;
  bm_config : RingConfig;
  bm_closed : bool;
  bm_pinned : option FrameLease;
}.
(** The outcome of a non-blocking lock attempt. *)
Inductive LockOutcome := LockAcquired | LockWouldBlock | LockFailed (message : string).

Definition set_mem (b : BrokerMapping) (m : Mem) : BrokerMapping :=
  mkBrokerMapping m (bm_descriptor b) (bm_config b) (bm_closed b) (bm_pinned b).
Definition set_pinned (b : BrokerMapping) (p : option FrameLease) : BrokerMapping :=
  mkBrokerMapping (bm_mem b) (bm_descriptor b) (bm_config b) (bm_closed b) p.

(** ** The mapping header *)
Section header.
Context (sha256 : list Z → list Z).

Definition write_header (m : Mem) (cfg : RingConfig) (identity token : list Z) : Mem :=
  let m := mem_store m HEADER_MAGIC MAGIC in
  let m := write_u16 m HEADER_MAJOR LAYOUT_MAJOR in
  let m := write_u16 m HEADER_MINOR LAYOUT_MINOR in
  let m := write_u64 m HEADER_TOTAL_LENGTH (rc_total_length cfg) in
  let m := write_u64 m HEADER_SLOT_COUNT (rc_slot_count cfg) in
  let m := write_u64 m HEADER_SLOT_STRIDE (rc_slot_stride cfg) in
  let m := write_u32 m HEADER_FORMAT
             (PixelFormat_as_u32 (PixelFormat_from (cf_pixel_format (rc_format cfg)))) in
  let m := write_u32 m HEADER_WIDTH (cf_width (rc_format cfg)) in
  let m := write_u32 m HEADER_HEIGHT (cf_height (rc_format cfg)) in
  let m := write_u64 m HEADER_PAYLOAD_CAPACITY (rc_payload_capacity cfg) in
  let m := mem_store m HEADER_IDENTITY identity in
  let m := mem_store m HEADER_TOKEN_HASH (sha256 token) in
  write_u64 m HEADER_TERMINAL_STATE TERMINAL_STATE_OPEN.

Definition validate_header (m : Mem) (mapped_length : Z) (d : MappingDescriptor)
    : HalResult ValidatedHeader :=
  let bad := shm_invalid "shared_memory.open" in
  let total_length := read_u64 m HEADER_TOTAL_LENGTH in
  if bool_decide (mem_load m HEADER_MAGIC 8 ≠ MAGIC)
     || negb (read_u16 m HEADER_MAJOR =? LAYOUT_MAJOR)
     || (LAYOUT_MINOR <? read_u16 m HEADER_MINOR)
  then Err (bad "mapping magic or layout version is incompatible")
  else if negb (total_length =? mapd_total_length d) || (mapped_length <? total_length)
  then Err (bad "mapping total length does not match its descriptor")
  else
    PixelFormat_try_from (read_u32 m HEADER_FORMAT) ≫= λ format,
    CameraFormat_new (CameraPixelFormat_of format) (read_u32 m HEADER_WIDTH)
      (read_u32 m HEADER_HEIGHT) ≫= λ camera_format,
    RingConfig_new camera_format (read_u64 m HEADER_SLOT_COUNT)
      (read_u64 m HEADER_PAYLOAD_CAPACITY) ≫= λ config,
    if negb (rc_slot_stride config =? read_u64 m HEADER_SLOT_STRIDE) then
      Err (bad "mapping slot stride violates the fixed layout")
    else if bool_decide (mem_load m HEADER_IDENTITY 32 = mapd_identity d)
            && bool_decide (mem_load m HEADER_TOKEN_HASH 32 = sha256 (mapd_token d))
    then Ok (mkValidatedHeader config (mapd_identity d))
    else Err (bad "mapping session identity or capability token does not match").

(** [BrokerMapping::create] after the operating system returned the mapping. *)
Definition BrokerMapping_create (m : Mem) (cfg : RingConfig) (name : string)
    (identity token : list Z) : BrokerMapping :=
  mkBrokerMapping (write_header m cfg identity token)
    (mkMappingDescriptor name identity token (rc_total_length cfg)) cfg false None.
End header.

(** ** Slots *)
Definition slot_base (cfg : RingConfig) (index : Z) : Z :=
  HEADER_BYTES + index * rc_slot_stride cfg.
Definition slot_state (m : Mem) (cfg : RingConfig) (index : Z) : HalResult SlotState :=
  SlotState_from_raw (read_u64 m (slot_base cfg index + SLOT_STATE)).
Definition slot_sequence (m : Mem) (cfg : RingConfig) (index : Z) : Z :=
  read_u64 m (slot_base cfg index + SLOT_SEQUENCE).
Definition slot_generation (m : Mem) (cfg : RingConfig) (index : Z) : Z :=
  read_u64 m (slot_base cfg index + SLOT_GENERATION).
Definition write_slot_state (m : Mem) (cfg : RingConfig) (index : Z) (s : SlotState) : Mem :=
  write_u64 m (slot_base cfg index + SLOT_STATE) (SlotState_raw s).
Definition indices (cfg : RingConfig) : list Z :=
  Z.of_nat <$> seq 0 (Z.to_nat (rc_slot_count cfg)).

Definition dropped_count_locked (m : Mem) : Z := read_u64 m HEADER_DROPPED_COUNT.
Definition increment_dropped_locked (m : Mem) : HalResult Mem :=
  ok_or (shm_invalid "shared_memory.publish" "dropped-frame counter overflow")
    (checked_add u64_max (dropped_count_locked m) 1) ≫= λ next,
  Ok (write_u64 m HEADER_DROPPED_COUNT next).

(** ** Writing *)
Fixpoint select_writable (m : Mem) (cfg : RingConfig) (idx : list Z) (oldest : option (Z * Z))
    : HalResult (option Z) :=
  match idx with
  | [] => Ok (fst <$> oldest)
  | index :: idx =>
      slot_state m cfg index ≫= λ s,
      match s with
      | Free => Ok (Some index)
      | Ready =>
          let sequence := slot_sequence m cfg index in
          select_writable m cfg idx
            (if is_none_or (λ o, sequence <? o.2) oldest then Some (index, sequence) else oldest)
      | Writing | Pinned => select_writable m cfg idx oldest
      end
  end.
Definition select_writable_slot (m : Mem) (cfg : RingConfig) : HalResult (option Z) :=
  select_writable m cfg (indices cfg) None.

Fixpoint write_planes (m : Mem) (base : Z) (index : Z) (planes : list PlaneLayout) : Mem :=
  match planes with
  | [] => m
  | p :: planes =>
      let offset := base + SLOT_PLANES + index * PLANE_BYTES in
      let m := write_u32 m offset (pl_offset p mod 2 ^ 32) in
      let m := write_u32 m (offset + 4) (pl_length p mod 2 ^ 32) in
      let m := write_u32 m (offset + 8) (pl_stride p mod 2 ^ 32) in
      write_planes m base (index + 1) planes
  end.

(** The metadata writes of [publish_locked_with], in their order. *)
Definition write_slot_metadata (m : Mem) (base : Z) (metadata : FrameMetadata)
    (payload_length : Z) : Mem :=
  let m := write_u64 m (base + SLOT_GENERATION) (md_generation metadata) in
  let m := write_u64 m (base + SLOT_TIMESTAMP) (md_monotonic_timestamp_ns metadata) in
  let m := write_u64 m (base + SLOT_DROPPED) (dropped_count_locked m) in
  let m := write_u64 m (base + SLOT_PAYLOAD_LENGTH) payload_length in
  let m := write_u64 m (base + SLOT_PLANE_COUNT) (Z.of_nat (length (md_planes metadata))) in
  let m := write_planes m base 0 (md_planes metadata) in
  write_u64 m (base + SLOT_SEQUENCE) (md_sequence metadata).

(** [copy_payload] fills the destination in place: it returns the bytes it leaves
    there and either the payload length or an error. *)
Definition CopyPayload : Type := list Z → list Z * HalResult Z.

Definition fill_slot (m : Mem) (cfg : RingConfig) (index : Z) (metadata : FrameMetadata)
    (copy_payload : CopyPayload) : Mem * HalResult unit :=
  let base := slot_base cfg index in
  let destination := mem_load m (base + SLOT_HEADER_BYTES) (Z.to_nat (rc_payload_capacity cfg)) in
  let '(bytes, copied) := copy_payload destination in
  let m := mem_store m (base + SLOT_HEADER_BYTES) bytes in
  match copied with
  | Err e => (m, Err e)
  | Ok payload_length =>
      if rc_payload_capacity cfg <? payload_length then
        (m, Err (shm_invalid "shared_memory.publish"
                   "payload copier exceeded the negotiated slot capacity"))
      else
        match validate_planes (md_format metadata) (md_width metadata) (md_height metadata)
                (md_planes metadata) payload_length with
        | Err e => (m, Err e)
        | Ok _ => (write_slot_metadata m base metadata payload_length, Ok ())
        end
  end.

Definition publish_locked_with (m : Mem) (cfg : RingConfig) (metadata : FrameMetadata)
    (copy_payload : CopyPayload) : Mem * HalResult unit :=
  match select_writable_slot m cfg with
  | Err e => (m, Err e)
  | Ok None =>
      match increment_dropped_locked m with Ok m => (m, Ok ()) | Err e => (m, Err e) end
  | Ok (Some index) =>
      match slot_state m cfg index with
      | Err e => (m, Err e)
      | Ok previous_state =>
          match (if bool_decide (previous_state = Ready) then increment_dropped_locked m
                 else Ok m) with
          | Err e => (m, Err e)
          | Ok m =>
              let m := write_slot_state m cfg index Writing in
              let '(m, result) := fill_slot m cfg index metadata copy_payload in
              if is_ok result then (write_slot_state m cfg index Ready, result)
              else (write_slot_state m cfg index previous_state, result)
          end
      end
  end.

(** [publish_with]: a contended lock drops the frame, counted if the lock [retry] can
    be had.  [unlock] is the outcome of releasing the lock. *)
Definition publish_with (b : BrokerMapping) (metadata : FrameMetadata)
    (copy_payload : CopyPayload) (lock retry : LockOutcome) (unlock : result string unit)
    : BrokerMapping * HalResult unit :=
  let unlocked r := map_err (shm_unavailable "shared_memory.publish") unlock ≫= λ _, r in
  match validate_dimensions (md_format metadata) (md_width metadata) (md_height metadata) with
  | Err e => (b, Err e)
  | Ok _ =>
      match lock with
      | LockAcquired =>
          let '(m, result) := publish_locked_with (bm_mem b) (bm_config b) metadata copy_payload in
          (set_mem b m, unlocked result)
      | LockWouldBlock =>
          match retry with
          | LockAcquired =>
              match increment_dropped_locked (bm_mem b) with
              | Ok m => (set_mem b m, unlocked (Ok ()))
              | Err e => (b, Err e)
              end
          | _ => (b, Ok ())
          end
      | LockFailed message => (b, Err (shm_unavailable "shared_memory.publish" message))
      end
  end.

(** [SlotWriter::publish]: the copier of a byte slice. *)
Definition copy_slice (payload : list Z) : CopyPayload := λ destination,
  if (length destination <? length payload)%nat then
    (destination, Err (shm_invalid "shared_memory.publish"
                         "payload exceeds the negotiated slot capacity"))
  else (payload ++ drop (length payload) destination, Ok (Z.of_nat (length payload))).
Definition publish (b : BrokerMapping) (metadata : FrameMetadata) (payload : list Z)
    (lock retry : LockOutcome) (unlock : result string unit) : BrokerMapping * HalResult unit :=
  publish_with b metadata (copy_slice payload) lock retry unlock.

(** ** Leasing frames to readers *)
Definition release_pin_locked (b : BrokerMapping) : BrokerMapping * HalResult unit :=
  match bm_pinned b with
  | None => (b, Ok ())
  | Some lease =>
      let cfg := bm_config b in
      let i := fl_slot_index lease in
      let b := set_pinned b None in
      if bool_decide (fl_identity lease = mapd_identity (bm_descriptor b))
         && (slot_sequence (bm_mem b) cfg i =? fl_sequence lease)
         && (slot_generation (bm_mem b) cfg i =? fl_generation lease)
      then
        match slot_state (bm_mem b) cfg i with
        | Err e => (b, Err e)
        | Ok s =>
            if bool_decide (s = Pinned)
            then (set_mem b (write_slot_state (bm_mem b) cfg i Free), Ok ())
            else (b, Ok ())
        end
      else (b, Ok ())
  end.

Fixpoint newest_ready (m : Mem) (cfg : RingConfig) (idx : list Z) (latest : option (Z * Z))
    : HalResult (option (Z * Z)) :=
  match idx with
  | [] => Ok latest
  | index :: idx =>
      slot_state m cfg index ≫= λ s,
      if bool_decide (s ≠ Ready) then newest_ready m cfg idx latest
      else
        let sequence := slot_sequence m cfg index in
        newest_ready m cfg idx
          (if is_none_or (λ l, l.2 <? sequence) latest then Some (index, sequence) else latest)
  end.

Definition next_frame_lease_locked (b : BrokerMapping)
    : BrokerMapping * HalResult (option FrameLease) :=
  match release_pin_locked b with
  | (b, Err e) => (b, Err e)
  | (b, Ok _) =>
      let cfg := bm_config b in
      match newest_ready (bm_mem b) cfg (indices cfg) None with
      | Err e => (b, Err e)
      | Ok None => (b, Ok None)
      | Ok (Some (index, sequence)) =>
          match slot_state (bm_mem b) cfg index with
          | Err e => (b, Err e)
          | Ok s =>
              if bool_decide (s ≠ Ready) then (b, Ok None)
              else
                let b := set_mem b (write_slot_state (bm_mem b) cfg index Pinned) in
                let generation := slot_generation (bm_mem b) cfg index in
                if negb (slot_sequence (bm_mem b) cfg index =? sequence) then
                  (set_mem b (write_slot_state (bm_mem b) cfg index Ready), Ok None)
                else
                  let lease := mkFrameLease (mapd_identity (bm_descriptor b)) index sequence
                                 generation in
                  (set_pinned b (Some lease), Ok (Some lease))
          end
      end
  end.

Definition with_exclusive_lock {T} (operation : string) (lock : LockOutcome)
    (unlock : result string unit) (b : BrokerMapping)
    (body : BrokerMapping → BrokerMapping * HalResult T) : BrokerMapping * HalResult T :=
  match lock with
  | LockAcquired =>
      let '(b, result) := body b in
      (b, map_err (shm_unavailable operation) unlock ≫= λ _, result)
  | LockWouldBlock => (b, Err (shm_unavailable operation "operation would block"))
  | LockFailed message => (b, Err (shm_unavailable operation message))
  end.
Definition next_frame_lease (b : BrokerMapping) (lock : LockOutcome) (unlock : result string unit)
    : BrokerMapping * HalResult (option FrameLease) :=
  with_exclusive_lock "shared_memory.lease" lock unlock b next_frame_lease_locked.
Definition release_pin (b : BrokerMapping) (lock : LockOutcome) (unlock : result string unit)
    : BrokerMapping * HalResult unit :=
  with_exclusive_lock "shared_memory.release" lock unlock b release_pin_locked.

(** [BrokerMapping::close]: once the teardown lock is held, publish the terminal
    state, unlock, unlink. *)
Definition BrokerMapping_close (b : BrokerMapping) (lock : LockOutcome)
    (unlock unlink : result string unit) : BrokerMapping * HalResult unit :=
  if bm_closed b then (b, Ok ())
  else match lock with
       | LockFailed message => (b, Err (shm_unavailable "shared_memory.close" message))
       | _ =>
           let b := set_mem b (write_u64 (bm_mem b) HEADER_TERMINAL_STATE TERMINAL_STATE_CLOSED) in
           match unlock with
           | Err message => (b, Err (shm_unavailable "shared_memory.close" message))
           | Ok _ =>
               match unlink with
               | Err message => (b, Err (shm_unavailable "shared_memory.close" message))
               | Ok _ => (mkBrokerMapping (bm_mem b) (bm_descriptor b) (bm_config b) true
                            (bm_pinned b), Ok ())
               end
           end
       end.

(** ** Reading *)
Definition read_plane (m : Mem) (base : Z) (index : nat) : HalResult PlaneLayout :=
  let offset := base + SLOT_PLANES + Z.of_nat index * PLANE_BYTES in
  PlaneLayout_new (read_u32 m offset) (read_u32 m (offset + 4)) (read_u32 m (offset + 8)).

Definition read_metadata (m : Mem) (cfg : RingConfig) (index sequence generation : Z)
    : HalResult FrameMetadata :=
  let base := slot_base cfg index in
  let timestamp := read_u64 m (base + SLOT_TIMESTAMP) in
  let dropped := read_u64 m (base + SLOT_DROPPED) in
  let payload_length := read_u64 m (base + SLOT_PAYLOAD_LENGTH) in
  let plane_count := read_u64 m (base + SLOT_PLANE_COUNT) in
  if (rc_payload_capacity cfg <? payload_length) || (MAX_PLANES <? plane_count) then
    Err (shm_invalid "shared_memory.read"
           "slot payload or plane count exceeds the validated layout")
  else
    collect (read_plane m base) (seq 0 (Z.to_nat plane_count)) ≫= λ planes,
    let format := PixelFormat_from (cf_pixel_format (rc_format cfg)) in
    let width := cf_width (rc_format cfg) in
    let height := cf_height (rc_format cfg) in
    validate_planes format width height planes payload_length ≫= λ _,
    FrameMetadata_new format width height sequence generation timestamp dropped planes.

Definition slot_payload_length (m : Mem) (cfg : RingConfig) (index : Z) : HalResult Z :=
  let length := read_u64 m (slot_base cfg index + SLOT_PAYLOAD_LENGTH) in
  if rc_payload_capacity cfg <? length then
    Err (shm_invalid "shared_memory.read" "slot payload exceeds the validated capacity")
  else Ok length.

Definition slot_payload (m : Mem) (cfg : RingConfig) (index length : Z) : list Z :=
  mem_load m (slot_base cfg index + SLOT_HEADER_BYTES) (Z.to_nat length).

(** [ReadOnlyMapping::copy_locked] in a mapping whose header was validated. *)
Definition copy_locked (m : Mem) (header : ValidatedHeader) (expected_generation : option Z)
    (lease : FrameLease) : HalResult (option CopiedFrame) :=
  let cfg := vh_config header in
  let i := fl_slot_index lease in
  if negb (read_u64 m HEADER_TERMINAL_STATE =? TERMINAL_STATE_OPEN) then Ok None
  else if rc_slot_count cfg <=? i then Ok None
  else
    slot_state m cfg i ≫= λ s,
    if bool_decide (s ≠ Pinned) then Ok None
    else
      let generation := slot_generation m cfg i in
      if is_some_and (λ g, negb (g =? generation)) expected_generation
         || negb (generation =? fl_generation lease)
         || negb (slot_sequence m cfg i =? fl_sequence lease)
      then Ok None
      else
        read_metadata m cfg i (fl_sequence lease) generation ≫= λ metadata,
        if negb (slot_sequence m cfg i =? fl_sequence lease)
           || negb (slot_generation m cfg i =? generation)
        then Ok None
        else
          slot_payload_length m cfg i ≫= λ payload_length,
          Ok (Some (mkCopiedFrame metadata (slot_payload m cfg i payload_length))).
Definition ReadOnlyMapping_copy (m : Mem) (header : ValidatedHeader)
    (expected_generation : option Z) (lease : FrameLease) (lock : LockOutcome)
    (unlock : result string unit) : HalResult (option CopiedFrame) :=
  if bool_decide (fl_identity lease ≠ vh_identity header) then Ok None
  else match lock with
       | LockAcquired =>
           map_err (shm_unavailable "shared_memory.copy") unlock ≫= λ _,
           copy_locked m header expected_generation lease
       | LockWouldBlock => Err (shm_unavailable "shared_memory.copy" "operation would block")
       | LockFailed message => Err (shm_unavailable "shared_memory.copy" message)
       end.
(** [BrokerMapping::frame_view]: the frame a pinned lease denotes in the broker. *)
Definition frame_view (b : BrokerMapping) (lease : FrameLease) : HalResult CopiedFrame :=
  let cfg := bm_config b in
  let m := bm_mem b in
  let i := fl_slot_index lease in
  let gone := Err (shm_invalid "shared_memory.acquire" "pinned lease no longer matches slot") in
  if bool_decide (fl_identity lease ≠ mapd_identity (bm_descriptor b)) then gone
  else
    slot_state m cfg i ≫= λ s,
    if bool_decide (s ≠ Pinned) || negb (slot_sequence m cfg i =? fl_sequence lease)
       || negb (slot_generation m cfg i =? fl_generation lease)
    then gone
    else
      read_metadata m cfg i (fl_sequence lease) (fl_generation lease) ≫= λ metadata,
      slot_payload_length m cfg i ≫= λ payload_length,
      Ok (mkCopiedFrame metadata (slot_payload m cfg i payload_length)).

(** [BrokerMapping::acquire]: lease the newest frame under the exclusive lock, then
    view it under the shared one.  Each lock call has its own outcome. *)
Definition acquire (b : BrokerMapping) (lock : LockOutcome) (unlock : result string unit)
    (shared : LockOutcome) : BrokerMapping * HalResult (option CopiedFrame) :=
  let failed message := Err (shm_unavailable "shared_memory.acquire" message) in
  match lock with
  | LockWouldBlock => (b, failed "operation would block")
  | LockFailed message => (b, failed message)
  | LockAcquired =>
      match next_frame_lease_locked b with
      | (b, Err e) => (b, Err e)
      | (b, Ok lease) =>
          match unlock, lease with
          | Err message, _ => (b, failed message)
          | Ok _, None => (b, Ok None)
          | Ok _, Some lease =>
              match shared with
              | LockAcquired => (b, Some <$> frame_view b lease)
              | LockWouldBlock => (b, failed "operation would block")
              | LockFailed message => (b, failed message)
              end
          end
      end
  end.

(** [BrokerMapping::dropped_count]: 0 when the shared lock is not available. *)
Definition dropped_count (b : BrokerMapping) (shared : LockOutcome) : Z :=
  match shared with LockAcquired => read_u64 (bm_mem b) HEADER_DROPPED_COUNT | _ => 0 end.

(** ** Valid configurations *)
Definition ring_config_valid (cfg : RingConfig) : Prop :=
  RingConfig_new (rc_format cfg) (rc_slot_count cfg) (rc_payload_capacity cfg) = Ok cfg ∧
  0 <= rc_payload_capacity cfg ∧
  0 <= cf_width (rc_format cfg) ∧ 0 <= cf_height (rc_format cfg).

Lemma ring_config_valid_facts cfg :
  ring_config_valid cfg →
  0 <= rc_payload_capacity cfg <= MAX_CAMERA_FRAME_BYTES ∧
  SLOT_HEADER_BYTES + rc_payload_capacity cfg <= rc_slot_stride cfg ∧
  MIN_CAMERA_SLOT_COUNT <= rc_slot_count cfg <= MAX_CAMERA_SLOT_COUNT ∧
  HEADER_BYTES <= rc_total_length cfg <= MAX_MAPPING_BYTES ∧
  rc_slot_stride cfg <= MAX_MAPPING_BYTES.
Proof.
  intros (Hnew & Hpc & _). apply RingConfig_new_Ok in Hnew as (Hc & _ & Hn & _ & Hmax & Hs & _ & Ht).
  assert (rc_total_length cfg = HEADER_BYTES + rc_slot_stride cfg * rc_slot_count cfg) as Htl
    by (rewrite Hc at 1; done).
  unfold SLOT_HEADER_BYTES, MIN_CAMERA_SLOT_COUNT, MAX_MAPPING_BYTES, HEADER_BYTES in *.
  split_and!; try lia; nia.
Qed.

(** Unfold the layout constants for [lia]. *)
Ltac layout_simpl :=
  unfold slot_base, slot_state, slot_sequence, slot_generation, dropped_count_locked,
    SLOT_STATE, SLOT_SEQUENCE, SLOT_GENERATION, SLOT_TIMESTAMP, SLOT_DROPPED,
    SLOT_PAYLOAD_LENGTH, SLOT_PLANE_COUNT, SLOT_PLANES, PLANE_BYTES, SLOT_HEADER_BYTES,
    HEADER_BYTES, HEADER_MAGIC, HEADER_MAJOR, HEADER_MINOR, HEADER_TOTAL_LENGTH,
    HEADER_SLOT_COUNT, HEADER_SLOT_STRIDE, HEADER_FORMAT, HEADER_WIDTH, HEADER_HEIGHT,
    HEADER_PAYLOAD_CAPACITY, HEADER_IDENTITY, HEADER_TOKEN_HASH, HEADER_DROPPED_COUNT,
    HEADER_TERMINAL_STATE, MIN_CAMERA_SLOT_COUNT, MAX_CAMERA_SLOT_COUNT,
    MAX_CAMERA_FRAME_BYTES, MAX_MAPPING_BYTES, MAX_PLANES in *.

(** ** The header round trip *)
Section header_lemmas.
Context (sha256 : list Z → list Z).

(** Read back a header field: skip the later writes, then hit its own. *)
Ltac read_field :=
  layout_simpl;
  first
    [ etransitivity; [apply read_u64_agree; peel_writes; reflexivity|]; apply read_u64_same
    | etransitivity; [apply read_u32_agree; peel_writes; reflexivity|]; apply read_u32_same
    | etransitivity; [apply read_u16_agree; peel_writes; reflexivity|]; apply read_u16_same ].

Lemma mem_load_same m a bytes n : length bytes = n → mem_load (mem_store m a bytes) a n = bytes.
Proof. intros <-. apply mem_load_store. Qed.

Record header_fields (m : Mem) (cfg : RingConfig) (identity hash : list Z) : Prop := {
  hf_magic : mem_load m HEADER_MAGIC 8 = MAGIC;
  hf_major : read_u16 m HEADER_MAJOR = LAYOUT_MAJOR;
  hf_minor : read_u16 m HEADER_MINOR = LAYOUT_MINOR;
  hf_total : read_u64 m HEADER_TOTAL_LENGTH = rc_total_length cfg;
  hf_count : read_u64 m HEADER_SLOT_COUNT = rc_slot_count cfg;
  hf_stride : read_u64 m HEADER_SLOT_STRIDE = rc_slot_stride cfg;
  hf_format : read_u32 m HEADER_FORMAT =
    PixelFormat_as_u32 (PixelFormat_from (cf_pixel_format (rc_format cfg)));
  hf_width : read_u32 m HEADER_WIDTH = cf_width (rc_format cfg);
  hf_height : read_u32 m HEADER_HEIGHT = cf_height (rc_format cfg);
  hf_capacity : read_u64 m HEADER_PAYLOAD_CAPACITY = rc_payload_capacity cfg;
  hf_identity : mem_load m HEADER_IDENTITY 32 = identity;
  hf_hash : mem_load m HEADER_TOKEN_HASH 32 = hash;
}.

Lemma write_header_fields m cfg identity token :
  ring_config_valid cfg → length identity = 32%nat → length (sha256 token) = 32%nat →
  header_fields (write_header sha256 m cfg identity token) cfg identity (sha256 token).
Proof.
  intros Hcfg Hid Hh. pose proof (ring_config_valid_facts _ Hcfg) as Hf.
  destruct Hcfg as (Hnew & _ & Hw & Hht).
  assert (cf_width (rc_format cfg) <= 4096 ∧ cf_height (rc_format cfg) <= 2160) as [? ?].
  { apply RingConfig_new_Ok in Hnew as (_ & Hv & _). apply CameraFormat_validate_bounds in Hv.
    unfold MAX_CAMERA_WIDTH, MAX_CAMERA_HEIGHT in Hv. lia. }
  clear Hnew. unfold write_header. layout_simpl.
  split; cbn zeta.
  - etransitivity; [apply mem_load_agree; layout_simpl; peel_writes; reflexivity|].
    by apply mem_load_same.
  - read_field; unfold LAYOUT_MAJOR, u16_max; lia.
  - read_field; unfold LAYOUT_MINOR, u16_max; lia.
  - read_field; unfold u64_max; lia.
  - read_field; unfold u64_max; lia.
  - read_field; unfold u64_max; nia.
  - read_field; destruct (cf_pixel_format _); unfold u32_max; simpl; lia.
  - read_field; unfold u32_max; lia.
  - read_field; unfold u32_max; lia.
  - read_field; unfold u64_max; lia.
  - etransitivity; [apply mem_load_agree; layout_simpl; peel_writes; reflexivity|].
    by apply mem_load_same.
  - etransitivity; [apply mem_load_agree; layout_simpl; peel_writes; reflexivity|].
    by apply mem_load_same.
Qed.

Lemma validate_header_fields m cfg d len :
  ring_config_valid cfg →
  header_fields m cfg (mapd_identity d) (sha256 (mapd_token d)) →
  mapd_total_length d = rc_total_length cfg → rc_total_length cfg <= len →
  validate_header sha256 m len d = Ok (mkValidatedHeader cfg (mapd_identity d)).
Proof.
  intros [Hnew _] [] Ht Hlen. unfold validate_header.
  rewrite hf_magic0, hf_major0, hf_minor0, hf_total0, hf_count0, hf_stride0, hf_format0,
    hf_width0, hf_height0, hf_capacity0, hf_identity0, hf_hash0, Ht.
  rewrite bool_decide_eq_false_2 by (intros Hne; by apply Hne).
  rewrite !bool_decide_eq_true_2 by done.
  rewrite !Z.eqb_refl. cbn. rewrite (proj2 (Z.ltb_ge _ _)) by done. simpl.
  rewrite PixelFormat_try_from_as. cbn [mbind result_bind].
  replace (CameraPixelFormat_of (PixelFormat_from (cf_pixel_format (rc_format cfg))))
    with (cf_pixel_format (rc_format cfg)) by (by destruct (cf_pixel_format _)).
  unfold CameraFormat_new.
  replace (mkCameraFormat _ _ _) with (rc_format cfg) by (by destruct (rc_format cfg)).
  pose proof Hnew as (_ & Hv & _)%RingConfig_new_Ok. rewrite Hv. cbn [mbind result_bind].
  rewrite Hnew. cbn [mbind result_bind]. by rewrite Z.eqb_refl.
Qed.

Lemma validate_header_Ok m len d h cfg identity hash :
  header_fields m cfg identity hash → validate_header sha256 m len d = Ok h →
  mapd_identity d = identity ∧ sha256 (mapd_token d) = hash ∧
  mapd_total_length d = rc_total_length cfg ∧ rc_total_length cfg <= len.
Proof.
  intros [] H. unfold validate_header in H. rewrite hf_total0, hf_identity0, hf_hash0 in H.
  destruct (_ || _ || _); [done|]. destruct (_ || _) eqn:Ht; [done|].
  apply bind_Ok in H as (? & _ & H). apply bind_Ok in H as (? & _ & H).
  apply bind_Ok in H as (? & _ & H). destruct (negb _) in H; [done|].
  destruct (_ && _) eqn:Hm in H; [|done]. bool_simp. split_and!; auto.
Qed.
End header_lemmas.

(** The mapping header round-trips and is an authority check: a client opens a mapping
    the broker created with an accepted configuration exactly when its descriptor carries
    the mapping's identity, a token with the stored SHA-256, the mapping's length, and the
    operating system mapped at least that much; it then sees the broker's configuration. *)
Theorem shm_header_open_exact sha256 m cfg name identity token len d h :
  ring_config_valid cfg → length identity = 32%nat → length (sha256 token) = 32%nat →
  validate_header sha256 (bm_mem (BrokerMapping_create sha256 m cfg name identity token)) len d
    = Ok h ↔
  h = mkValidatedHeader cfg identity ∧ mapd_identity d = identity ∧
  sha256 (mapd_token d) = sha256 token ∧
  mapd_total_length d = rc_total_length cfg ∧ rc_total_length cfg <= len.
Proof.
  intros Hcfg Hid Hh. cbn [bm_mem BrokerMapping_create].
  pose proof (write_header_fields sha256 m cfg identity token Hcfg Hid Hh) as Hf. split.
  - intros H. destruct (validate_header_Ok _ _ _ _ _ _ _ _ Hf H) as (H1 & H2 & H3 & H4).
    split_and!; auto. rewrite (validate_header_fields _ _ cfg) in H; [|done|by rewrite H1, H2|done..].
    injection H as <-. by rewrite H1.
  - intros (-> & H1 & H2 & H3 & H4).
    rewrite (validate_header_fields _ _ cfg); [by rewrite H1|done|by rewrite H1, H2|done..].
Qed.

(** A stand-in for SHA-256 with 32-byte digests. *)
Definition toy_hash (t : list Z) : list Z := take 32 (t ++ replicate 32 0).
Definition hx_identity : list Z := replicate 32 7.
Definition hx_token : list Z := replicate 32 9.
Definition hx_broker : BrokerMapping :=
  BrokerMapping_create toy_hash (λ _, 0) hx_config "/robot-hal-00" hx_identity hx_token.
Lemma hx_config_valid : ring_config_valid hx_config.
Proof. repeat split; vm_compute; first [reflexivity|congruence]. Qed.
Lemma shm_header_open_exact_witness :
  validate_header toy_hash (bm_mem hx_broker) 960 (bm_descriptor hx_broker)
    = Ok (mkValidatedHeader hx_config hx_identity).
Proof.
  apply (shm_header_open_exact toy_hash (λ _, 0) hx_config "/robot-hal-00" hx_identity hx_token);
    [apply hx_config_valid|reflexivity|reflexivity|].
  split_and!; first [reflexivity|done].
Defined.

(** ** Slots are disjoint *)
Section slots.
Context (cfg : RingConfig) (Hcfg : ring_config_valid cfg).

Definition slot_end (i : Z) : Z := slot_base cfg i + SLOT_HEADER_BYTES + rc_payload_capacity cfg.
Definition in_ring (i : Z) : Prop := 0 <= i < rc_slot_count cfg.
Definition slot_agree (i : Z) : Mem → Mem → Prop := mem_agree (slot_base cfg i) (slot_end i).
(** Agreement on the slot but for its state word. *)
Definition slot_body_agree (i : Z) : Mem → Mem → Prop :=
  mem_agree (slot_base cfg i + 8) (slot_end i).

Lemma slot_disjoint i j :
  i ≠ j → slot_end i <= slot_base cfg j ∨ slot_end j <= slot_base cfg i.
Proof.
  pose proof (ring_config_valid_facts _ Hcfg) as (? & ? & _). intros.
  unfold slot_end, slot_base, SLOT_HEADER_BYTES in *.
  destruct (decide (i < j)); [left|right]; nia.
Qed.

Lemma slot_after_header i : 0 <= i → HEADER_BYTES <= slot_base cfg i.
Proof.
  pose proof (ring_config_valid_facts _ Hcfg) as (? & ? & _). intros.
  unfold slot_base, SLOT_HEADER_BYTES in *. nia.
Qed.

Lemma indices_elem i : i ∈ indices cfg ↔ in_ring i.
Proof.
  unfold indices, in_ring. rewrite list_elem_of_fmap. setoid_rewrite elem_of_seq.
  split; [intros (n & -> & ?); lia|]. intros. exists (Z.to_nat i). lia.
Qed.

(** Everything a reader sees of a slot is determined by the slot's bytes. *)
Lemma slot_state_agree m m' i :
  mem_agree (slot_base cfg i) (slot_base cfg i + 8) m m' → slot_state m cfg i = slot_state m' cfg i.
Proof.
  intros H. unfold slot_state. f_equal. apply read_u64_agree.
  revert H. apply mem_agree_sub; unfold SLOT_STATE; lia.
Qed.
Lemma slot_agree_state m m' i : slot_agree i m m' → slot_state m cfg i = slot_state m' cfg i.
Proof.
  pose proof (ring_config_valid_facts _ Hcfg).
  intros H'. apply slot_state_agree. revert H'.
  apply mem_agree_sub; unfold slot_end, SLOT_HEADER_BYTES in *; lia.
Qed.
Lemma slot_agree_body m m' i : slot_agree i m m' → slot_body_agree i m m'.
Proof. apply mem_agree_sub; lia. Qed.
Lemma slot_body_u64 m m' i off :
  slot_body_agree i m m' → 8 <= off <= 120 →
  read_u64 m (slot_base cfg i + off) = read_u64 m' (slot_base cfg i + off).
Proof.
  pose proof (ring_config_valid_facts _ Hcfg).
  intros H' ?. apply read_u64_agree. revert H'.
  apply mem_agree_sub; unfold slot_end, SLOT_HEADER_BYTES in *; lia.
Qed.
Lemma slot_body_plane m m' i k :
  slot_body_agree i m m' → (k < 3)%nat →
  read_plane m (slot_base cfg i) k = read_plane m' (slot_base cfg i) k.
Proof.
  pose proof (ring_config_valid_facts _ Hcfg).
  intros H' ?. unfold read_plane. f_equal; apply read_u32_agree; revert H';
    apply mem_agree_sub; layout_simpl; unfold slot_end; layout_simpl; lia.
Qed.

Lemma collect_ext {E A B} (f g : A → result E B) l :
  (∀ x, x ∈ l → f x = g x) → collect f l = collect g l.
Proof.
  induction l as [|x l IH]; intros H; simpl; [done|].
  rewrite H by apply list_elem_of_here. rewrite IH; [done|].
  intros y Hy. apply H. by apply list_elem_of_further.
Qed.

Lemma slot_body_metadata m m' i sequence generation :
  slot_body_agree i m m' →
  read_metadata m cfg i sequence generation = read_metadata m' cfg i sequence generation.
Proof.
  intros H. unfold read_metadata.
  rewrite !(slot_body_u64 m m' i) by (done || layout_simpl; lia).
  destruct (_ || _) eqn:Hb; [done|]. bool_simp.
  rewrite (collect_ext (read_plane m (slot_base cfg i)) (read_plane m' (slot_base cfg i)));
    [done|]. intros k [_ Hk]%elem_of_seq. apply slot_body_plane; [done|].
  unfold MAX_PLANES in *. lia.
Qed.
Lemma slot_body_payload m m' i len :
  slot_body_agree i m m' → len <= rc_payload_capacity cfg →
  slot_payload m cfg i len = slot_payload m' cfg i len.
Proof.
  pose proof (ring_config_valid_facts _ Hcfg).
  intros H' ?. apply mem_load_agree. revert H'.
  apply mem_agree_sub; unfold slot_end; layout_simpl; lia.
Qed.

Lemma slot_agree_copy m m' header g lease :
  vh_config header = cfg → slot_agree (fl_slot_index lease) m m' →
  read_u64 m HEADER_TERMINAL_STATE = read_u64 m' HEADER_TERMINAL_STATE →
  copy_locked m header g lease = copy_locked m' header g lease.
Proof.
  intros Hc Ha Ht. pose proof (slot_agree_body _ _ _ Ha) as Hb.
  unfold copy_locked. rewrite Ht, Hc.
  unfold slot_generation, slot_sequence, slot_payload_length.
  rewrite (slot_agree_state m m') by done.
  rewrite !(slot_body_u64 m m') by (done || layout_simpl; lia).
  destruct (negb _); [done|]. destruct (_ <=? _); [done|]. destruct (slot_state _ _ _); [|done].
  cbn [mbind result_bind]. destruct (bool_decide _); [done|]. destruct (_ || _); [done|].
  rewrite (slot_body_metadata m m') by done. destruct (read_metadata _ _ _ _ _); [|done].
  cbn [mbind result_bind]. destruct (_ || _); [done|].
  destruct (_ <? _) eqn:Hl; [done|]. bool_simp. cbn [mbind result_bind].
  by rewrite (slot_body_payload m m') by done.
Qed.

(** *** What a publication writes *)
Lemma write_planes_agree lo hi m base k planes :
  hi <= base + SLOT_PLANES + k * PLANE_BYTES ∨
  base + SLOT_PLANES + (k + Z.of_nat (length planes)) * PLANE_BYTES <= lo →
  mem_agree lo hi (write_planes m base k planes) m.
Proof.
  revert m k. induction planes as [|p planes IH]; intros m k Hr; simpl in *; [done|].
  etransitivity; [apply IH; layout_simpl; lia|]. layout_simpl. peel_writes. done.
Qed.

Lemma write_slot_metadata_agree lo hi m base md len :
  Z.of_nat (length (md_planes md)) <= MAX_PLANES → hi <= base + 8 ∨ base + 128 <= lo →
  mem_agree lo hi (write_slot_metadata m base md len) m.
Proof.
  intros Hn Hr. unfold write_slot_metadata. layout_simpl. peel_writes.
  etransitivity; [apply write_planes_agree; layout_simpl; lia|]. layout_simpl. peel_writes. done.
Qed.

(** A copier writes through a slice, so it leaves as many bytes as it was given. *)
Definition copier_in_place (copy : CopyPayload) : Prop := ∀ d, length (copy d).1 = length d.

Lemma copy_slice_in_place payload : copier_in_place (copy_slice payload).
Proof.
  intros d. unfold copy_slice. destruct (_ <? _)%nat eqn:E; simpl; [done|].
  apply Nat.ltb_ge in E. rewrite length_app, length_drop. lia.
Qed.

Lemma length_mem_load m a n : length (mem_load m a n) = n.
Proof. unfold mem_load. by rewrite length_fmap, length_seq. Qed.

Lemma validate_planes_count f w h planes len :
  validate_planes f w h planes len = Ok () → Z.of_nat (length planes) <= MAX_PLANES.
Proof. unfold validate_planes. destruct (_ || _) eqn:E; [done|]. bool_simp. done. Qed.

Lemma fill_slot_agree m i md copy m' r lo hi :
  copier_in_place copy → fill_slot m cfg i md copy = (m', r) →
  hi <= slot_base cfg i + 8 ∨ slot_end i <= lo → mem_agree lo hi m' m.
Proof.
  pose proof (ring_config_valid_facts _ Hcfg) as (Hpc & Hst & _).
  intros Hcopy Hfill Hr. unfold fill_slot in Hfill.
  destruct (copy _) as [bytes copied] eqn:Hc.
  assert (length bytes = Z.to_nat (rc_payload_capacity cfg)) as Hlen.
  { replace bytes with (copy (mem_load m (slot_base cfg i + SLOT_HEADER_BYTES)
      (Z.to_nat (rc_payload_capacity cfg)))).1 by (by rewrite Hc).
    by rewrite Hcopy, length_mem_load. }
  assert (mem_agree lo hi (mem_store m (slot_base cfg i + SLOT_HEADER_BYTES) bytes) m) as Hstore.
  { apply mem_agree_store. rewrite Hlen. unfold slot_end in Hr. layout_simpl. lia. }
  destruct copied as [len|e]; [|by injection Hfill as <- _].
  destruct (_ <? len); [by injection Hfill as <- _|].
  destruct (validate_planes _ _ _ _ _) as [[]|] eqn:Hv; injection Hfill as <- _; [|done].
  etransitivity; [|exact Hstore]. apply validate_planes_count in Hv.
  apply write_slot_metadata_agree; [done|]. unfold slot_end in Hr. layout_simpl. lia.
Qed.

Lemma write_slot_state_agree m i s lo hi :
  hi <= slot_base cfg i ∨ slot_base cfg i + 8 <= lo →
  mem_agree lo hi (write_slot_state m cfg i s) m.
Proof. intros. apply write_u64_agree. unfold SLOT_STATE. lia. Qed.

Lemma slot_state_same m i s : slot_state (write_slot_state m cfg i s) cfg i = Ok s.
Proof.
  unfold slot_state, write_slot_state. rewrite read_u64_same; [apply SlotState_from_raw_raw|].
  unfold u64_max. destruct s; simpl; lia.
Qed.

Lemma increment_dropped_agree m m' lo hi :
  increment_dropped_locked m = Ok m' → hi <= 128 ∨ 136 <= lo → mem_agree lo hi m' m.
Proof.
  unfold increment_dropped_locked. intros (n & _ & [= <-])%bind_Ok Hr.
  apply write_u64_agree. unfold HEADER_DROPPED_COUNT. lia.
Qed.

Lemma select_writable_Some m idx oldest i :
  (∀ j s, oldest = Some (j, s) → slot_state m cfg j = Ok Ready ∧ in_ring j) →
  (∀ j, j ∈ idx → in_ring j) →
  select_writable m cfg idx oldest = Ok (Some i) →
  (slot_state m cfg i = Ok Free ∨ slot_state m cfg i = Ok Ready) ∧ in_ring i.
Proof.
  revert oldest. induction idx as [|j idx IH]; intros oldest Hold Hidx Hsel; simpl in Hsel.
  { destruct oldest as [[k s]|]; [|done]. injection Hsel as <-.
    destruct (Hold k s eq_refl) as [? ?]. auto. }
  assert (in_ring j) as Hj by apply Hidx, list_elem_of_here.
  apply bind_Ok in Hsel as (s & Hs & Hsel).
  destruct s; [injection Hsel as <-; auto|..];
    eapply IH; try exact Hsel; try (intros; apply Hidx; by apply list_elem_of_further);
    try done.
  intros k sk Hk. destruct (is_none_or _ _); [|by eapply Hold].
  injection Hk as <- _. auto.
Qed.

Lemma select_writable_slot_Some m i :
  select_writable_slot m cfg = Ok (Some i) →
  (slot_state m cfg i = Ok Free ∨ slot_state m cfg i = Ok Ready) ∧ in_ring i.
Proof. apply select_writable_Some; [done|]. intros j. apply indices_elem. Qed.

(** A publication touches one writable slot at most, besides the dropped counter, and
    leaves that slot Ready, or in its previous state when it failed. *)
Record publish_frame (m m' : Mem) (r : HalResult unit) (written : option Z) : Prop := {
  pf_writable i : written = Some i → in_ring i ∧
    (slot_state m cfg i = Ok Free ∨ slot_state m cfg i = Ok Ready) ∧
    slot_state m' cfg i = (if is_ok r then Ok Ready else slot_state m cfg i);
  pf_others j : 0 <= j → written ≠ Some j → slot_agree j m' m;
  pf_header lo hi : 0 <= lo → hi <= HEADER_BYTES → hi <= 128 ∨ 136 <= lo → mem_agree lo hi m' m;
}.

Lemma publish_frame_id m r : publish_frame m m r None.
Proof. by split. Qed.
Lemma publish_frame_increment m m' r :
  increment_dropped_locked m = Ok m' → publish_frame m m' r None.
Proof.
  intros H. split; [done|..].
  - intros j Hj _. eapply increment_dropped_agree; [done|].
    pose proof (slot_after_header j Hj). unfold HEADER_BYTES in *. lia.
  - intros lo hi _ _. by apply increment_dropped_agree.
Qed.

Definition written_slot (m : Mem) : option Z :=
  match select_writable_slot m cfg with Ok o => o | Err _ => None end.

Lemma publish_locked_frame m md copy m' r :
  copier_in_place copy → publish_locked_with m cfg md copy = (m', r) →
  publish_frame m m' r (written_slot m).
Proof.
  intros Hcopy Hp. unfold publish_locked_with in Hp. unfold written_slot.
  destruct (select_writable_slot m cfg) as [[i|]|] eqn:Hsel;
    [|destruct (increment_dropped_locked m) eqn:?; injection Hp as <- <-;
      auto using publish_frame_id, publish_frame_increment
     |injection Hp as <- <-; apply publish_frame_id].
  apply select_writable_slot_Some in Hsel as [Hs Hi].
  destruct (slot_state m cfg i) as [previous|] eqn:Hprev; [|naive_solver].
  destruct (if bool_decide _ then _ else _) as [m1|] eqn:Hm1;
    [|injection Hp as <- <-; split; try done; intros j [= <-]; by rewrite Hprev].
  assert (∀ lo hi, hi <= 128 ∨ 136 <= lo → mem_agree lo hi m1 m) as H1.
  { intros lo hi ?. case_bool_decide; [by eapply increment_dropped_agree|by injection Hm1 as <-]. }
  destruct (fill_slot _ _ _ _ _) as [m2 r2] eqn:Hfill.
  assert (∀ lo hi, hi <= slot_base cfg i + 8 ∨ slot_end i <= lo →
    mem_agree lo hi m2 (write_slot_state m1 cfg i Writing)) as H2
    by (intros; by eapply fill_slot_agree).
  pose proof (slot_after_header i (proj1 Hi)) as Hbase.
  pose proof (ring_config_valid_facts _ Hcfg) as (Hpc & _).
  assert (∀ s lo hi, hi <= slot_base cfg i ∨ slot_end i <= lo → hi <= 128 ∨ 136 <= lo →
    mem_agree lo hi (write_slot_state m2 cfg i s) m) as Hout.
  { intros s lo hi Hr Hr'. assert (slot_base cfg i + 8 <= slot_end i)
      by (unfold slot_end; layout_simpl; lia).
    etransitivity; [apply write_slot_state_agree; lia|].
    etransitivity; [apply H2; lia|]. etransitivity; [apply write_slot_state_agree; lia|auto]. }
  assert (∃ s, m' = write_slot_state m2 cfg i s ∧ s = (if is_ok r then Ready else previous))
    as (s & -> & Hsr) by (destruct (is_ok r2) eqn:E; injection Hp as <- <-; rewrite E; eauto).
  split.
  - intros j [= <-]. split_and!; [done|by rewrite Hprev|]. rewrite slot_state_same, Hprev, Hsr.
    by destruct (is_ok r).
  - intros j Hj Hne. apply Hout.
    + destruct (slot_disjoint i j); [congruence|auto..].
    + pose proof (slot_after_header j Hj). unfold HEADER_BYTES in *. lia.
  - intros lo hi ? ? ?. apply Hout; [left; lia|done].
Qed.

(** *** What a publication stores *)
Definition plane_wf (p : PlaneLayout) : Prop :=
  0 <= pl_offset p ∧ 0 < pl_length p ∧ 0 < pl_stride p <= u32_max ∧
  pl_offset p + pl_length p <= u32_max.

Lemma PlaneLayout_new_wf p :
  plane_wf p → PlaneLayout_new (pl_offset p) (pl_length p) (pl_stride p) = Ok p.
Proof.
  intros (? & ? & ? & ?). unfold PlaneLayout_new, try_from, checked_add.
  rewrite !(proj2 (Z.leb_le _ _)) by lia. simpl.
  rewrite !(proj2 (Z.eqb_neq _ _)) by lia. simpl.
  rewrite !(proj2 (Z.leb_le _ _)) by lia. by destruct p.
Qed.

Lemma read_plane_written m base k planes j p :
  planes !! j = Some p → plane_wf p →
  read_plane (write_planes m base (Z.of_nat k) planes) base (k + j) = Ok p.
Proof.
  revert m k j. induction planes as [|q planes IH]; intros m k j Hj Hp; [done|].
  destruct j as [|j]; cbn [write_planes].
  - injection Hj as ->. rewrite Nat.add_0_r.
    transitivity (PlaneLayout_new (pl_offset p) (pl_length p) (pl_stride p));
      [|by apply PlaneLayout_new_wf].
    destruct Hp as (? & ? & ? & ?). unfold u32_max in *. unfold read_plane.
    f_equal;
      (etransitivity; [apply read_u32_agree;
         etransitivity; [apply write_planes_agree; layout_simpl; lia|];
         layout_simpl; peel_writes; reflexivity|]);
      rewrite read_u32_same; rewrite ?Z.mod_small; unfold u32_max; lia.
  - rewrite <- Nat.add_succ_comm. replace (Z.of_nat k + 1) with (Z.of_nat (S k)) by lia.
    by apply IH.
Qed.

Lemma collect_planes_written m base planes :
  Forall plane_wf planes →
  collect (read_plane (write_planes m base 0 planes) base) (seq 0 (length planes)) = Ok planes.
Proof.
  intros Hp. apply collect_Ok, Forall2_same_length_lookup. split; [by rewrite length_seq|].
  intros j x p [-> Hj]%lookup_seq Hl. apply (read_plane_written m base 0); [done|].
  by eapply Forall_lookup_1.
Qed.

Definition is_u64_value (x : Z) : Prop := 0 <= x <= u64_max.
Definition with_dropped (md : FrameMetadata) (n : Z) : FrameMetadata :=
  mkFrameMetadata (md_format md) (md_width md) (md_height md) (md_sequence md)
    (md_generation md) (md_monotonic_timestamp_ns md) n (md_planes md).

(** A frame the camera actor may publish into this ring. *)
Record frame_ok (md : FrameMetadata) (payload : list Z) : Prop := {
  fo_format : md_format md = PixelFormat_from (cf_pixel_format (rc_format cfg));
  fo_width : md_width md = cf_width (rc_format cfg);
  fo_height : md_height md = cf_height (rc_format cfg);
  fo_u64 : is_u64_value (md_sequence md) ∧ is_u64_value (md_generation md) ∧
           is_u64_value (md_monotonic_timestamp_ns md);
  fo_new : ∃ d, FrameMetadata_new (md_format md) (md_width md) (md_height md) (md_sequence md)
             (md_generation md) (md_monotonic_timestamp_ns md) d (md_planes md)
           = Ok (with_dropped md d);
  fo_planes : Forall plane_wf (md_planes md);
  fo_valid : validate_planes (md_format md) (md_width md) (md_height md) (md_planes md)
               (Z.of_nat (length payload)) = Ok ();
  fo_capacity : Z.of_nat (length payload) <= rc_payload_capacity cfg;
}.

(** The frame a slot holds. *)
Record slot_holds (m : Mem) (i : Z) (md : FrameMetadata) (payload : list Z) : Prop := {
  sh_sequence : slot_sequence m cfg i = md_sequence md;
  sh_generation : slot_generation m cfg i = md_generation md;
  sh_metadata : read_metadata m cfg i (md_sequence md) (md_generation md) = Ok md;
  sh_length : slot_payload_length m cfg i = Ok (Z.of_nat (length payload));
  sh_payload : slot_payload m cfg i (Z.of_nat (length payload)) = payload;
}.

Lemma FrameMetadata_new_dropped f w h sq g t d d' planes x :
  FrameMetadata_new f w h sq g t d planes = Ok x →
  FrameMetadata_new f w h sq g t d' planes = Ok (mkFrameMetadata f w h sq g t d' planes).
Proof.
  unfold FrameMetadata_new. intros ([] & -> & H)%bind_Ok. apply bind_Ok in H as ([] & -> & H).
  done.
Qed.

(** Read back a slot field: skip the later writes, then hit its own. *)
Ltac slot_field :=
  (etransitivity;
    [apply read_u64_agree; layout_simpl; peel_writes;
     (etransitivity; [apply write_planes_agree; layout_simpl; lia|]);
     layout_simpl; peel_writes; reflexivity|]);
  apply read_u64_same.

Lemma write_slot_metadata_fields m base md len :
  HEADER_BYTES <= base → is_u64_value (dropped_count_locked m) →
  is_u64_value (md_sequence md) → is_u64_value (md_generation md) →
  is_u64_value (md_monotonic_timestamp_ns md) → is_u64_value len →
  Z.of_nat (length (md_planes md)) <= MAX_PLANES → Forall plane_wf (md_planes md) →
  let m' := write_slot_metadata m base md len in
  read_u64 m' (base + SLOT_SEQUENCE) = md_sequence md ∧
  read_u64 m' (base + SLOT_GENERATION) = md_generation md ∧
  read_u64 m' (base + SLOT_TIMESTAMP) = md_monotonic_timestamp_ns md ∧
  read_u64 m' (base + SLOT_DROPPED) = dropped_count_locked m ∧
  read_u64 m' (base + SLOT_PAYLOAD_LENGTH) = len ∧
  read_u64 m' (base + SLOT_PLANE_COUNT) = Z.of_nat (length (md_planes md)) ∧
  collect (read_plane m' base) (seq 0 (length (md_planes md))) = Ok (md_planes md).
Proof.
  intros Hb Hd Hsq Hg Ht Hl Hn Hp m'. subst m'. unfold write_slot_metadata.
  assert (∀ a b, dropped_count_locked (write_u64 (write_u64 m (base + SLOT_GENERATION) a)
    (base + SLOT_TIMESTAMP) b) = dropped_count_locked m) as Hdc.
  { intros a b. unfold dropped_count_locked. apply read_u64_agree. layout_simpl. peel_writes. done. }
  rewrite Hdc. unfold is_u64_value in *.
  split_and!; [by apply read_u64_same|by slot_field..| |].
  - slot_field. layout_simpl. unfold u64_max. lia.
  - rewrite <- (collect_planes_written (write_u64 (write_u64 (write_u64 (write_u64 (write_u64 m
      (base + SLOT_GENERATION) (md_generation md)) (base + SLOT_TIMESTAMP)
      (md_monotonic_timestamp_ns md)) (base + SLOT_DROPPED) (dropped_count_locked m))
      (base + SLOT_PAYLOAD_LENGTH) len) (base + SLOT_PLANE_COUNT)
      (Z.of_nat (length (md_planes md)))) base (md_planes md) Hp).
    apply collect_ext. intros k [_ Hk]%elem_of_seq. unfold read_plane.
    f_equal; apply read_u32_agree; layout_simpl; peel_writes; done.
Qed.

Lemma fill_slot_stores m i md payload :
  0 <= i → frame_ok md payload → is_u64_value (dropped_count_locked m) →
  ∃ m', fill_slot m cfg i md (copy_slice payload) = (m', Ok ()) ∧
    slot_holds m' i (with_dropped md (dropped_count_locked m)) payload.
Proof.
  pose proof (ring_config_valid_facts _ Hcfg) as (Hpc & _).
  intros Hi [Hf Hw Hh (Hsq & Hg & Ht) [d Hnew] Hpl Hv Hcap] Hd.
  pose proof (slot_after_header i Hi) as Hbase.
  pose proof (validate_planes_count _ _ _ _ _ Hv) as Hcount.
  unfold fill_slot, copy_slice. rewrite length_mem_load.
  rewrite (proj2 (Nat.ltb_ge _ _)) by lia. cbn [fst snd].
  set (bytes := payload ++ _). set (m0 := mem_store m _ bytes).
  rewrite (proj2 (Z.ltb_ge _ _)) by lia. rewrite Hv. eexists. split; [reflexivity|].
  assert (dropped_count_locked m0 = dropped_count_locked m) as Hdc.
  { apply read_u64_agree, mem_agree_store. layout_simpl. lia. }
  rewrite <- Hdc in Hd |- *.
  assert (is_u64_value (Z.of_nat (length payload))) as Hlen
    by (unfold is_u64_value, u64_max; layout_simpl; lia).
  destruct (write_slot_metadata_fields m0 (slot_base cfg i) md (Z.of_nat (length payload)))
    as (H1 & H2 & H3 & H4 & H5 & H6 & H7); [done..|].
  split; cbn [md_sequence md_generation with_dropped]; try done.
  - unfold read_metadata. rewrite H3, H4, H5, H6, Nat2Z.id, H7.
    rewrite !(proj2 (Z.ltb_ge _ _)) by done. cbn [orb mbind result_bind].
    rewrite <- Hf, <- Hw, <- Hh, Hv. cbn [mbind result_bind].
    by eapply FrameMetadata_new_dropped.
  - unfold slot_payload_length. rewrite H5. by rewrite (proj2 (Z.ltb_ge _ _)).
  - unfold slot_payload. rewrite Nat2Z.id.
    etransitivity; [apply mem_load_agree, write_slot_metadata_agree; layout_simpl; lia|].
    transitivity (take (length payload) (mem_load m0 (slot_base cfg i + SLOT_HEADER_BYTES)
      (length bytes))).
    + unfold mem_load. rewrite <- fmap_take, take_seq. f_equal. f_equal.
      unfold bytes. rewrite length_app. lia.
    + unfold m0. rewrite mem_load_store. unfold bytes. by rewrite take_app_length.
Qed.

Lemma slot_holds_agree m m' i md payload :
  slot_body_agree i m' m → slot_holds m i md payload → slot_holds m' i md payload.
Proof.
  intros Ha [Hsq Hg Hmd Hl Hp].
  assert (Z.of_nat (length payload) <= rc_payload_capacity cfg) as Hcap.
  { unfold slot_payload_length in Hl. destruct (_ <? _) eqn:?; [done|]. bool_simp.
    injection Hl as <-. lia. }
  split.
  - unfold slot_sequence. rewrite (slot_body_u64 m' m); [done..|layout_simpl; lia].
  - unfold slot_generation. rewrite (slot_body_u64 m' m); [done..|layout_simpl; lia].
  - by rewrite (slot_body_metadata m' m).
  - unfold slot_payload_length. rewrite (slot_body_u64 m' m); [done..|layout_simpl; lia].
  - by rewrite (slot_body_payload m' m).
Qed.

(** A pinned slot is copied out whole. *)
Lemma copy_locked_holds m header i md payload lease :
  vh_config header = cfg → read_u64 m HEADER_TERMINAL_STATE = TERMINAL_STATE_OPEN →
  in_ring i → slot_state m cfg i = Ok Pinned → slot_holds m i md payload →
  fl_slot_index lease = i → fl_sequence lease = md_sequence md →
  fl_generation lease = md_generation md →
  copy_locked m header None lease = Ok (Some (mkCopiedFrame md payload)).
Proof.
  intros Hc Ht [_ Hi] Hs [Hsq Hg Hmd Hl Hp] Hli Hls Hlg. unfold copy_locked.
  rewrite Ht, Hc, Hli, Hls, Hlg, Hs. rewrite (proj2 (Z.leb_gt _ _)) by done.
  cbn [negb Z.eqb TERMINAL_STATE_OPEN mbind result_bind is_some_and].
  rewrite bool_decide_eq_false_2 by (intros Hne; by apply Hne).
  rewrite Hsq, Hg, !Z.eqb_refl. cbn [negb orb]. rewrite Hmd. cbn [mbind result_bind].
  rewrite Hl. cbn [mbind result_bind]. by rewrite Hp.
Qed.
End slots.

(** ** The broker's ring invariant *)
Definition pinned_slot (b : BrokerMapping) : option Z := fl_slot_index <$> bm_pinned b.

(** Outside an operation no slot is Writing, the only Pinned slot is the one whose lease
    the broker remembers, and that slot still carries the leased frame. *)
Record shm_ok (b : BrokerMapping) : Prop := {
  ri_config : ring_config_valid (bm_config b);
  ri_states i : in_ring (bm_config b) i → ∃ s,
    slot_state (bm_mem b) (bm_config b) i = Ok s ∧ s ≠ Writing ∧
    (s = Pinned ↔ pinned_slot b = Some i);
  ri_lease lease : bm_pinned b = Some lease →
    in_ring (bm_config b) (fl_slot_index lease) ∧
    fl_identity lease = mapd_identity (bm_descriptor b) ∧
    slot_sequence (bm_mem b) (bm_config b) (fl_slot_index lease) = fl_sequence lease ∧
    slot_generation (bm_mem b) (bm_config b) (fl_slot_index lease) = fl_generation lease;
}.

(** An unpinned slot of a good ring is Free or Ready. *)
Lemma ring_inv_unpinned b i :
  shm_ok b → in_ring (bm_config b) i → pinned_slot b ≠ Some i →
  slot_state (bm_mem b) (bm_config b) i = Ok Free ∨
  slot_state (bm_mem b) (bm_config b) i = Ok Ready.
Proof.
  intros Hinv Hi Hp. destruct (ri_states _ Hinv i Hi) as (s & Hs & Hw & Hpin).
  destruct s; auto; [done|]. by destruct Hp; apply Hpin.
Qed.

Section ring_ops.
Context (b : BrokerMapping) (Hinv : shm_ok b).
Local Notation cfg := (bm_config b).

(** Changing the state word of slot [i] leaves the rest of the ring alone. *)
Lemma write_state_others m i j s :
  in_ring cfg i → in_ring cfg j → i ≠ j →
  slot_state (write_slot_state m cfg i s) cfg j = slot_state m cfg j.
Proof.
  intros [Hi _] [Hj _] Hij. pose proof (ri_config _ Hinv) as Hcfg.
  apply slot_agree_state; [done|].
  apply write_slot_state_agree. destruct (slot_disjoint cfg Hcfg i j Hij) as [H|H]; [|auto].
  pose proof (ring_config_valid_facts _ Hcfg). unfold slot_end in H. layout_simpl. lia.
Qed.
Lemma write_state_body m i j s :
  in_ring cfg i → in_ring cfg j → slot_body_agree cfg j (write_slot_state m cfg i s) m.
Proof.
  intros [Hi _] [Hj _]. pose proof (ri_config _ Hinv) as Hcfg.
  apply write_slot_state_agree. destruct (decide (i = j)) as [->|Hij]; [lia|].
  pose proof (ring_config_valid_facts _ Hcfg).
  destruct (slot_disjoint cfg Hcfg i j Hij) as [H'|H']; unfold slot_end in *; layout_simpl; lia.
Qed.

Lemma release_pin_locked_inv :
  ∃ m, release_pin_locked b = (set_mem (set_pinned b None) m, Ok ()) ∧
    shm_ok (set_mem (set_pinned b None) m) ∧
    (∀ i, in_ring cfg i → slot_body_agree cfg i m (bm_mem b) ∧
       (slot_state (bm_mem b) cfg i = Ok Ready ↔ slot_state m cfg i = Ok Ready)) ∧
    mem_agree 0 HEADER_BYTES m (bm_mem b).
Proof.
  pose proof (ri_config _ Hinv) as Hcfg. unfold release_pin_locked.
  destruct (bm_pinned b) as [lease|] eqn:Hp.
  - destruct (ri_lease _ Hinv lease Hp) as (Hi & Hid & Hsq & Hg).
    destruct (ri_states _ Hinv _ Hi) as (s & Hs & _ & Hsp).
    assert (s = Pinned) as -> by (apply Hsp; unfold pinned_slot; by rewrite Hp).
    cbn [set_pinned bm_mem bm_config bm_descriptor].
    rewrite bool_decide_eq_true_2 by done. rewrite Hsq, Hg, !Z.eqb_refl, Hs.
    rewrite bool_decide_eq_true_2 by done. cbn [andb].
    eexists. split; [reflexivity|]. split_and!.
    + split; cbn; [done| |done]. intros j Hj.
      destruct (decide (fl_slot_index lease = j)) as [<-|Hij].
      * exists Free. by rewrite slot_state_same.
      * destruct (ri_states _ Hinv j Hj) as (s & Hs' & Hw & Hsp').
        exists s. rewrite write_state_others by done. split_and!; [done..|].
        split; [|done]. intros Hsp''. apply Hsp' in Hsp''. unfold pinned_slot in Hsp''.
        rewrite Hp in Hsp''. by injection Hsp''.
    + intros j Hj. split; [by apply write_state_body|].
      destruct (decide (fl_slot_index lease = j)) as [<-|Hij].
      * rewrite slot_state_same, Hs. done.
      * by rewrite write_state_others.
    + apply write_slot_state_agree. left. by apply slot_after_header; [|destruct Hi].
  - exists (bm_mem b). split.
    + destruct b; simpl in *. by subst.
    + split_and!; [|done..]. destruct b; simpl in *. by subst.
Qed.
End ring_ops.

Lemma newest_ready_spec m cfg idx latest :
  (∀ j, j ∈ idx → ∃ s, slot_state m cfg j = Ok s) →
  ∃ o, newest_ready m cfg idx latest = Ok o ∧
    (o = None → latest = None ∧ ∀ j, j ∈ idx → slot_state m cfg j ≠ Ok Ready) ∧
    (∀ i s, o = Some (i, s) →
       (latest = Some (i, s) ∨
        i ∈ idx ∧ slot_state m cfg i = Ok Ready ∧ s = slot_sequence m cfg i) ∧
       (∀ j, j ∈ idx → slot_state m cfg j = Ok Ready → slot_sequence m cfg j <= s) ∧
       (∀ l, latest = Some l → l.2 <= s)).
Proof.
  revert latest. induction idx as [|k idx IH]; intros latest Hst.
  { exists latest. split_and!; [done|intros ->; split; [done|]; by intros j ?%elem_of_nil|].
    intros i s ->. split_and!; [auto|by intros j ?%elem_of_nil|]. intros l [= <-]. simpl. lia. }
  destruct (Hst k (list_elem_of_here _ _)) as [s Hs].
  assert (∀ j, j ∈ idx → ∃ s, slot_state m cfg j = Ok s) as Hst'
    by (intros j Hj; apply Hst; by apply list_elem_of_further).
  simpl. rewrite Hs. cbn [mbind result_bind]. case_bool_decide as Hr.
  - destruct (IH latest Hst') as (o & -> & Hn & Hsome). exists o. split_and!; [done|..].
    + intros ->. destruct (Hn eq_refl) as [-> Hn']. split; [done|].
      intros j [->|Hj]%elem_of_cons; [congruence|auto].
    + intros i s' ->. destruct (Hsome i s' eq_refl) as (H1 & H2 & H3). split_and!; [|..|done].
      * destruct H1 as [?|(? & ? & ?)]; [auto|]. right. split; [by apply list_elem_of_further|auto].
      * intros j [->|Hj]%elem_of_cons Hj'; [congruence|auto].
  - subst s.
    set (latest' := if is_none_or _ latest then _ else _).
    destruct (IH latest' Hst') as (o & -> & Hn & Hsome). exists o.
    assert (∃ l, latest' = Some l ∧ slot_sequence m cfg k <= l.2 ∧
      (l = (k, slot_sequence m cfg k) ∨ latest = Some l) ∧
      ∀ l', latest = Some l' → l'.2 <= l.2) as (l & Hl & Hk & Hor & Hmax).
    { unfold latest'. destruct latest as [l|]; simpl; [|eexists; split; [done|]; simpl; naive_solver lia].
      destruct (l.2 <? _) eqn:?; bool_simp; (eexists; split; [done|]); simpl;
        (split_and!; [lia|auto|]); intros l' [= <-]; lia. }
    split_and!; [done|..].
    + intros ->. destruct (Hn eq_refl) as [? _]. congruence.
    + intros i s' ->. destruct (Hsome i s' eq_refl) as (H1 & H2 & H3).
      specialize (H3 l Hl). split_and!.
      * rewrite Hl in H1. destruct H1 as [[= ->]|(? & ? & ?)].
        -- destruct Hor as [[= -> ->]|?]; [|auto]. right. split; [apply list_elem_of_here|auto].
        -- right. split; [by apply list_elem_of_further|auto].
      * intros j [->|Hj]%elem_of_cons Hj'; [lia|auto].
      * intros l' Hl'. specialize (Hmax l' Hl'). lia.
Qed.

(** What leasing the newest frame does to a good ring. *)
Record lease_outcome (b b' : BrokerMapping) (o : option FrameLease) : Prop := {
  lo_inv : shm_ok b';
  lo_config : bm_config b' = bm_config b;
  lo_descriptor : bm_descriptor b' = bm_descriptor b;
  lo_pinned : bm_pinned b' = o;
  lo_header : mem_agree 0 HEADER_BYTES (bm_mem b') (bm_mem b);
  lo_bodies i : in_ring (bm_config b) i →
    slot_body_agree (bm_config b) i (bm_mem b') (bm_mem b);
  lo_none : o = None → ∀ j, in_ring (bm_config b) j →
    slot_state (bm_mem b) (bm_config b) j ≠ Ok Ready;
  lo_some lease : o = Some lease →
    in_ring (bm_config b) (fl_slot_index lease) ∧
    slot_state (bm_mem b) (bm_config b) (fl_slot_index lease) = Ok Ready ∧
    fl_sequence lease = slot_sequence (bm_mem b) (bm_config b) (fl_slot_index lease) ∧
    fl_generation lease = slot_generation (bm_mem b) (bm_config b) (fl_slot_index lease) ∧
    ∀ j, in_ring (bm_config b) j → slot_state (bm_mem b) (bm_config b) j = Ok Ready →
      slot_sequence (bm_mem b) (bm_config b) j <= fl_sequence lease;
  lo_ready j : in_ring (bm_config b) j → slot_state (bm_mem b') (bm_config b) j = Ok Ready →
    slot_state (bm_mem b) (bm_config b) j = Ok Ready;
}.

(** Pinning a Ready slot of a ring with no pin keeps it good. *)
Lemma pin_slot_inv b i :
  shm_ok b → bm_pinned b = None → in_ring (bm_config b) i →
  shm_ok (set_pinned (set_mem b (write_slot_state (bm_mem b) (bm_config b) i Pinned))
    (Some (mkFrameLease (mapd_identity (bm_descriptor b)) i
       (slot_sequence (bm_mem b) (bm_config b) i) (slot_generation (bm_mem b) (bm_config b) i)))).
Proof.
  intros Hinv Hp Hi. pose proof (ri_config _ Hinv) as Hcfg. split; cbn; [done|..].
  - intros j Hj. destruct (decide (i = j)) as [<-|Hij].
    + exists Pinned. rewrite slot_state_same. done.
    + destruct (ri_states _ Hinv j Hj) as (s & Hs & Hw & Hsp). exists s.
      rewrite (write_state_others b) by done. split_and!; [done..|].
      unfold pinned_slot in *. rewrite Hp in Hsp. cbn in *. rewrite Hsp. naive_solver.
  - intros lease [= <-]. cbn. pose proof (write_state_body b Hinv (bm_mem b) i i Pinned Hi Hi).
    split_and!; [done..| |].
    + unfold slot_sequence. apply slot_body_u64; [done..|layout_simpl; lia].
    + unfold slot_generation. apply slot_body_u64; [done..|layout_simpl; lia].
Qed.

Lemma next_frame_lease_locked_spec b :
  shm_ok b → ∃ b' o, next_frame_lease_locked b = (b', Ok o) ∧ lease_outcome b b' o.
Proof.
  intros Hinv. destruct (release_pin_locked_inv b Hinv) as (m & Hrel & Hinv1 & Hsl & Hhd).
  unfold next_frame_lease_locked. rewrite Hrel. cbn [bm_mem bm_config set_mem set_pinned].
  pose proof (ri_config _ Hinv) as Hcfg. set (b1 := set_mem (set_pinned b None) m) in *.
  destruct (newest_ready_spec m (bm_config b) (indices (bm_config b)) None)
    as (o & -> & Hnone & Hsome).
  { intros j Hj%indices_elem. destruct (ri_states _ Hinv1 j Hj) as (s & ? & _). eauto. }
  assert (∀ i, in_ring (bm_config b) i →
    slot_sequence m (bm_config b) i = slot_sequence (bm_mem b) (bm_config b) i ∧
    slot_generation m (bm_config b) i = slot_generation (bm_mem b) (bm_config b) i) as Hsg.
  { intros i Hi. destruct (Hsl i Hi) as [Ha _].
    split; apply (slot_body_u64 _ Hcfg); first [done|layout_simpl; lia]. }
  destruct o as [[i s]|].
  - destruct (Hsome i s eq_refl) as ([?|(Hi & Hr & ->)] & Hmax & _); [done|].
    apply indices_elem in Hi. rewrite Hr, bool_decide_eq_false_2 by (intros Hne; by apply Hne).
    pose proof (write_state_body b1 Hinv1 m i) as Hb. cbn in Hb.
    assert (∀ j, in_ring (bm_config b) j →
      slot_sequence (write_slot_state m (bm_config b) i Pinned) (bm_config b) j
        = slot_sequence m (bm_config b) j ∧
      slot_generation (write_slot_state m (bm_config b) i Pinned) (bm_config b) j
        = slot_generation m (bm_config b) j) as Hw.
    { intros j Hj. split; apply (slot_body_u64 _ Hcfg); first [by apply Hb|layout_simpl; lia]. }
    cbn [set_mem bm_mem]. rewrite (proj1 (Hw i Hi)), Z.eqb_refl. cbn [negb].
    eexists _, _. split; [reflexivity|]. rewrite (proj2 (Hw i Hi)).
    split; try done.
    + by apply (pin_slot_inv b1).
    + etransitivity; [|exact Hhd]. apply write_slot_state_agree. left.
      by apply slot_after_header; [|destruct Hi].
    + intros j Hj. etransitivity; [by apply Hb|]. by apply Hsl.
    + intros lease [= <-]. cbn [fl_slot_index fl_sequence fl_generation]. destruct (Hsg i Hi) as [Hs1 Hs2].
      split_and!; [done|by apply Hsl|done..|].
      intros j Hj Hr'. rewrite <- (proj1 (Hsg j Hj)). apply Hmax; [by apply indices_elem|].
      by apply Hsl.
    + cbn [set_mem set_pinned bm_mem]. intros j Hj Hrj. apply (Hsl j Hj).
      destruct (decide (i = j)) as [<-|Hij]; [done|].
      pose proof (write_state_others b1 Hinv1 m i j Pinned Hi Hj Hij) as Hws. cbn in Hws. congruence.
  - eexists _, _. split; [reflexivity|]. destruct (Hnone eq_refl) as [_ Hn].
    split; try done.
    + intros j Hj. by apply Hsl.
    + intros _ j Hj Hr. apply (Hn j); [by apply indices_elem|]. by apply Hsl.
    + intros j Hj Hr. by apply Hsl.
Qed.

(** *** Publishing keeps the ring good *)
Lemma publish_frame_inv b m' r written :
  shm_ok b → publish_frame (bm_config b) (bm_mem b) m' r written → shm_ok (set_mem b m').
Proof.
  intros Hinv [Hw Ho Hh]. pose proof (ri_config _ Hinv) as Hcfg.
  assert (∀ i, pinned_slot b = Some i → in_ring (bm_config b) i → written ≠ Some i) as Hpin.
  { intros i Hp Hi ->. destruct (Hw i eq_refl) as (_ & Hs & _).
    destruct (ri_states _ Hinv i Hi) as (s & Hs' & _ & Hsp). rewrite Hs' in Hs.
    apply Hsp in Hp. subst s. naive_solver. }
  split; cbn; [done|..].
  - intros j Hj. destruct (ri_states _ Hinv j Hj) as (s & Hs & Hnw & Hsp).
    destruct (decide (written = Some j)) as [->|Hne].
    + destruct (Hw j eq_refl) as (_ & Hs' & ->). rewrite Hs.
      destruct (is_ok r); [|by exists s]. exists Ready. split_and!; [done..|].
      split; [done|]. intros Hp. by destruct (Hpin j Hp Hj).
    + exists s. rewrite <- Hs. split; [|done].
      apply (slot_agree_state _ Hcfg). apply Ho; [apply Hj|done].
  - intros lease Hl. destruct (ri_lease _ Hinv lease Hl) as (Hi & Hid & Hsq & Hg).
    assert (slot_body_agree (bm_config b) (fl_slot_index lease) m' (bm_mem b)) as Ha.
    { apply slot_agree_body. apply Ho; [apply Hi|]. apply Hpin; [|done].
      unfold pinned_slot. by rewrite Hl. }
    split_and!; [done..| |].
    + rewrite <- Hsq. apply slot_body_u64; [done..|layout_simpl; lia].
    + rewrite <- Hg. apply slot_body_u64; [done..|layout_simpl; lia].
Qed.

Lemma publish_with_frame b md copy lock retry unlock b' r :
  ring_config_valid (bm_config b) → copier_in_place copy →
  publish_with b md copy lock retry unlock = (b', r) →
  ∃ m' r' written, b' = set_mem b m' ∧ publish_frame (bm_config b) (bm_mem b) m' r' written.
Proof.
  intros Hcfg Hcopy Hp. unfold publish_with in Hp.
  assert (b = set_mem b (bm_mem b)) as Hb by (by destruct b).
  assert (∃ m' r' written, b = set_mem b m' ∧
    publish_frame (bm_config b) (bm_mem b) m' r' written) as Hsame
    by (exists (bm_mem b), (Ok ()), None; split; [done|apply publish_frame_id]).
  destruct (validate_dimensions _ _ _); [|by injection Hp as <- _].
  destruct lock; [|destruct retry; try by injection Hp as <- _|by injection Hp as <- _].
  - destruct (publish_locked_with _ _ _ _) as [m1 r1] eqn:Hl. injection Hp as <- _.
    pose proof (publish_locked_frame _ Hcfg _ _ _ _ _ Hcopy Hl). eauto.
  - destruct (increment_dropped_locked _) as [m1|] eqn:Hi; injection Hp as <- _; [|done].
    exists m1, (Ok ()), None. split; [done|]. by apply publish_frame_increment.
Qed.

(** *** Choosing the slot to write *)
Lemma select_writable_spec m cfg idx oldest :
  (∀ j, j ∈ idx → ∃ s, slot_state m cfg j = Ok s) →
  ∃ o, select_writable m cfg idx oldest = Ok o ∧
    (o = None → oldest = None ∧ ∀ j, j ∈ idx →
       slot_state m cfg j = Ok Writing ∨ slot_state m cfg j = Ok Pinned) ∧
    (∀ i, o = Some i →
       i ∈ idx ∧ slot_state m cfg i = Ok Free ∨
       (∀ j, j ∈ idx → slot_state m cfg j ≠ Ok Free) ∧ ∃ s,
       (oldest = Some (i, s) ∨
        i ∈ idx ∧ slot_state m cfg i = Ok Ready ∧ s = slot_sequence m cfg i) ∧
       (∀ j, j ∈ idx → slot_state m cfg j = Ok Ready → s <= slot_sequence m cfg j) ∧
       (∀ l, oldest = Some l → s <= l.2)).
Proof.
  revert oldest. induction idx as [|k idx IH]; intros oldest Hst.
  { exists (fst <$> oldest). split_and!; [done|..].
    - intros Hn. split; [by destruct oldest|]. by intros j ?%elem_of_nil.
    - intros i Hi. right. split; [by intros j ?%elem_of_nil|].
      destruct oldest as [[j s]|]; [|done]. injection Hi as <-. exists s.
      split_and!; [auto|by intros j' ?%elem_of_nil|]. intros l [= <-]. simpl. lia. }
  destruct (Hst k (list_elem_of_here _ _)) as [s Hs].
  assert (∀ j, j ∈ idx → ∃ s, slot_state m cfg j = Ok s) as Hst'
    by (intros j Hj; apply Hst; by apply list_elem_of_further).
  simpl. rewrite Hs. cbn [mbind result_bind].
  set (oldest' := if is_none_or _ oldest then _ else _).
  assert (s = Free ∨ s = Ready ∨ s = Writing ∨ s = Pinned) as [->|[->|Hwp]]
    by (destruct s; auto).
  - exists (Some k). split_and!; [done..|]. intros i [= <-]. left. split; [|done].
    apply list_elem_of_here.
  - assert (∃ l, oldest' = Some l ∧ l.2 <= slot_sequence m cfg k ∧
      (l = (k, slot_sequence m cfg k) ∨ oldest = Some l) ∧
      ∀ l', oldest = Some l' → l.2 <= l'.2) as (l & Hl & Hk & Hor & Hmin).
    { unfold oldest'. destruct oldest as [l|]; simpl; [|eexists; split; [done|]; simpl; naive_solver lia].
      destruct (_ <? l.2) eqn:?; bool_simp; (eexists; split; [done|]); simpl;
        (split_and!; [lia|auto|]); intros l' [= <-]; lia. }
    destruct (IH oldest' Hst') as (o & -> & Hn & Hsome). exists o. split_and!; [done|..].
    + intros ->. destruct (Hn eq_refl) as [? _]. congruence.
    + intros i ->. destruct (Hsome i eq_refl) as [[? ?]|(Hnf & s & H1 & H2 & H3)].
      { left. split; [by apply list_elem_of_further|done]. }
      right. split; [intros j [->|?]%elem_of_cons; [congruence|auto]|].
      exists s. specialize (H3 l Hl). split_and!.
      * rewrite Hl in H1. destruct H1 as [[= ->]|(? & ? & ?)].
        -- destruct Hor as [[= -> ->]|?]; [|auto]. right. split; [apply list_elem_of_here|auto].
        -- right. split; [by apply list_elem_of_further|auto].
      * intros j [->|Hj]%elem_of_cons Hj'; [lia|auto].
      * intros l' Hl'. specialize (Hmin l' Hl'). lia.
  - destruct (IH oldest Hst') as (o & Ho & Hn & Hsome). exists o.
    assert (slot_state m cfg k ≠ Ok Free ∧ slot_state m cfg k ≠ Ok Ready) as [? ?]
      by (rewrite Hs; destruct Hwp; subst s; done).
    split_and!; [destruct Hwp; subst s; done|..].
    + intros ->. destruct (Hn eq_refl) as [-> Hn']. split; [done|].
      intros j [->|Hj]%elem_of_cons; [rewrite Hs; destruct Hwp; subst s; auto|auto].
    + intros i ->. destruct (Hsome i eq_refl) as [[? ?]|(Hnf & s' & H1 & H2 & H3)].
      { left. split; [by apply list_elem_of_further|done]. }
      right. split; [intros j [->|?]%elem_of_cons; auto|]. exists s'. split_and!; [|..|done].
      * destruct H1 as [?|(? & ? & ?)]; [auto|]. right. split; [by apply list_elem_of_further|auto].
      * intros j [->|Hj]%elem_of_cons Hj'; [done|auto].
Qed.

(** A good ring always has a slot to write: at least three of its slots are unpinned. *)
Lemma ring_inv_writable b :
  shm_ok b → ∃ i, select_writable_slot (bm_mem b) (bm_config b) = Ok (Some i) ∧
    in_ring (bm_config b) i ∧
    (slot_state (bm_mem b) (bm_config b) i = Ok Free ∨
     (∀ j, in_ring (bm_config b) j → slot_state (bm_mem b) (bm_config b) j ≠ Ok Free) ∧
     slot_state (bm_mem b) (bm_config b) i = Ok Ready ∧
     ∀ j, in_ring (bm_config b) j → slot_state (bm_mem b) (bm_config b) j = Ok Ready →
       slot_sequence (bm_mem b) (bm_config b) i <= slot_sequence (bm_mem b) (bm_config b) j).
Proof.
  intros Hinv. pose proof (ring_config_valid_facts _ (ri_config _ Hinv)) as (_ & _ & Hn & _).
  destruct (select_writable_spec (bm_mem b) (bm_config b) (indices (bm_config b)) None)
    as (o & Ho & Hnone & Hsome).
  { intros j Hj%indices_elem. destruct (ri_states _ Hinv j Hj) as (s & ? & _). eauto. }
  destruct o as [i|].
  - exists i. destruct (Hsome i eq_refl) as [[Hi%indices_elem ?]|(Hnf & s & [?|(Hi & Hr & ->)] & Hmin & _)];
      [auto|done|]. apply indices_elem in Hi. split_and!; [done..|]. right.
    split_and!; [|done|]; intros j Hj%indices_elem; auto.
  - exfalso. destruct (Hnone eq_refl) as [_ Hall].
    unfold MIN_CAMERA_SLOT_COUNT in *.
    set (j := if decide (pinned_slot b = Some 0) then 1 else 0).
    assert (in_ring (bm_config b) j ∧ pinned_slot b ≠ Some j) as [Hj Hp]
      by (unfold j, in_ring; case_decide; split; first [lia|congruence]).
    destruct (ring_inv_unpinned b j Hinv Hj Hp) as [H|H];
      destruct (Hall j (proj2 (indices_elem _ _) Hj)); congruence.
Qed.

(** ** The ring as a transition system *)
Inductive shm_step : BrokerMapping → BrokerMapping → Prop :=
  | ring_publish b md copy lock retry unlock :
      copier_in_place copy → shm_step b (publish_with b md copy lock retry unlock).1
  | ring_lease b lock unlock : shm_step b (next_frame_lease b lock unlock).1
  | ring_acquire b lock unlock shared : shm_step b (acquire b lock unlock shared).1
  | ring_release b lock unlock : shm_step b (release_pin b lock unlock).1
  | ring_close b lock unlock unlink : shm_step b (BrokerMapping_close b lock unlock unlink).1.

Lemma publish_with_inv b md copy lock retry unlock :
  shm_ok b → copier_in_place copy → shm_ok (publish_with b md copy lock retry unlock).1.
Proof.
  intros Hinv Hcopy. destruct (publish_with _ _ _ _ _ _) as [b' r] eqn:Hp.
  destruct (publish_with_frame _ _ _ _ _ _ _ _ (ri_config _ Hinv) Hcopy Hp)
    as (m' & r' & written & -> & Hf). by eapply publish_frame_inv.
Qed.

(** Only the memory and [closed] change on close, and no slot byte. *)
Lemma ring_inv_header_write b a v closed :
  shm_ok b → 0 <= a → a + 8 <= HEADER_BYTES →
  shm_ok (mkBrokerMapping (write_u64 (bm_mem b) a v) (bm_descriptor b) (bm_config b) closed
    (bm_pinned b)).
Proof.
  intros Hinv Ha Ha'. pose proof (ri_config _ Hinv) as Hcfg.
  assert (∀ i, in_ring (bm_config b) i →
    slot_agree (bm_config b) i (write_u64 (bm_mem b) a v) (bm_mem b)) as Hag.
  { intros i [Hi _]. apply write_u64_agree. pose proof (slot_after_header _ Hcfg i Hi). lia. }
  split; cbn; [done|..].
  - intros i Hi. rewrite (slot_agree_state _ Hcfg _ _ _ (Hag i Hi)). by apply ri_states.
  - intros lease Hl. destruct (ri_lease _ Hinv lease Hl) as (Hi & Hid & Hsq & Hg).
    pose proof (slot_agree_body _ _ _ _ (Hag _ Hi)) as Hb. split_and!; [done..| |].
    + rewrite <- Hsq. apply slot_body_u64; [done..|layout_simpl; lia].
    + rewrite <- Hg. apply slot_body_u64; [done..|layout_simpl; lia].
Qed.

Lemma ring_step_inv b b' : shm_ok b → shm_step b b' → shm_ok b'.
Proof.
  intros Hinv Hstep. destruct Hstep.
  - by apply publish_with_inv.
  - unfold next_frame_lease, with_exclusive_lock. destruct lock; [|done..].
    by destruct (next_frame_lease_locked_spec b Hinv) as (b' & o & -> & []).
  - unfold acquire. destruct lock; [|done..].
    destruct (next_frame_lease_locked_spec b Hinv) as (b' & o & -> & []).
    by destruct unlock, o; [destruct shared|..].
  - unfold release_pin, with_exclusive_lock. destruct lock; [|done..].
    by destruct (release_pin_locked_inv b Hinv) as (m & -> & ? & _).
  - unfold BrokerMapping_close. destruct (bm_closed b) eqn:Hc; [done|].
    pose proof (λ c, ring_inv_header_write b HEADER_TERMINAL_STATE TERMINAL_STATE_CLOSED c Hinv)
      as Hw. layout_simpl.
    destruct lock; [..|done]; (destruct unlock; [destruct unlink|]); cbn; apply Hw; lia.
Qed.

Lemma write_header_agree sha256 m cfg identity token lo hi :
  length identity = 32%nat → length (sha256 token) = 32%nat → HEADER_BYTES <= lo →
  mem_agree lo hi (write_header sha256 m cfg identity token) m.
Proof. intros. unfold write_header. layout_simpl. peel_writes. done. Qed.

Lemma ring_inv_initial sha256 m cfg name identity token :
  ring_config_valid cfg → length identity = 32%nat → length (sha256 token) = 32%nat →
  (∀ x, HEADER_BYTES <= x → m x = 0) →
  shm_ok (BrokerMapping_create sha256 m cfg name identity token).
Proof.
  intros Hcfg Hid Hh Hz. split; cbn; [done| |done]. intros i [Hi _]. exists Free.
  split_and!; [|done..].
  pose proof (slot_after_header cfg Hcfg i Hi) as Hb.
  rewrite (slot_state_agree cfg _ m) by (by apply write_header_agree).
  unfold slot_state, SLOT_STATE, read_u64, mem_load. simpl. layout_simpl.
  rewrite !Hz by lia. done.
Qed.

(** C32: at every point of the life of a mapping created over zeroed memory, whatever
    sequence of publications (any in-place copier, failing or not), leases, acquisitions,
    releases and closes ran and however the lock calls turned out: no slot is left Writing,
    at most one slot is Pinned and it is the slot of the lease the broker holds, and that
    slot still carries the sequence and generation of the lease. *)
Theorem shm_ring_invariant sha256 m cfg name identity token b :
  ring_config_valid cfg → length identity = 32%nat → length (sha256 token) = 32%nat →
  (∀ x, HEADER_BYTES <= x → m x = 0) →
  rtc shm_step (BrokerMapping_create sha256 m cfg name identity token) b →
  shm_ok b.
Proof.
  intros Hcfg Hid Hh Hz Hsteps.
  pose proof (ring_inv_initial sha256 m cfg name identity token Hcfg Hid Hh Hz) as Hinv.
  induction Hsteps; eauto using ring_step_inv.
Qed.

Definition hx_planes : list PlaneLayout := [mkPlaneLayout 0 8 4].
Definition hx_metadata (sequence : Z) : FrameMetadata :=
  mkFrameMetadata Yuyv 2 2 sequence 1 100 0 hx_planes.
Definition hx_payload (v : Z) : list Z := replicate 8 v.
Definition hx_published : BrokerMapping :=
  (publish hx_broker (hx_metadata 5) (hx_payload 42) LockAcquired LockWouldBlock (Ok ())).1.
Definition hx_pinned : BrokerMapping := (next_frame_lease hx_published LockAcquired (Ok ())).1.

Lemma shm_ring_invariant_witness : shm_ok hx_pinned.
Proof.
  apply (shm_ring_invariant toy_hash (λ _, 0) hx_config "/robot-hal-00" hx_identity hx_token);
    [apply hx_config_valid|reflexivity|reflexivity|reflexivity|].
  eapply rtc_l; [apply (ring_publish hx_broker (hx_metadata 5) (copy_slice (hx_payload 42))
    LockAcquired LockWouldBlock (Ok ())), copy_slice_in_place|].
  eapply rtc_l; [apply (ring_lease _ LockAcquired (Ok ()))|]. apply rtc_refl.
Defined.

(** Choosing the slot to write: in a reachable ring there always is one; it is a Free
    slot if the ring has any, and otherwise the Ready slot with the smallest sequence, so
    publication never waits for a reader and always overwrites the oldest frame. *)
Theorem shm_writable_slot_spec b :
  shm_ok b → ∃ i, select_writable_slot (bm_mem b) (bm_config b) = Ok (Some i) ∧
    in_ring (bm_config b) i ∧
    (slot_state (bm_mem b) (bm_config b) i = Ok Free ∨
     (∀ j, in_ring (bm_config b) j → slot_state (bm_mem b) (bm_config b) j ≠ Ok Free) ∧
     slot_state (bm_mem b) (bm_config b) i = Ok Ready ∧
     ∀ j, in_ring (bm_config b) j → slot_state (bm_mem b) (bm_config b) j = Ok Ready →
       slot_sequence (bm_mem b) (bm_config b) i <= slot_sequence (bm_mem b) (bm_config b) j).
Proof. apply ring_inv_writable. Qed.

Lemma hx_broker_inv : shm_ok hx_broker.
Proof. by apply ring_inv_initial; [apply hx_config_valid|..]. Qed.
Lemma shm_writable_slot_spec_witness :
  ∃ i, select_writable_slot (bm_mem hx_broker) hx_config = Ok (Some i).
Proof.
  destruct (shm_writable_slot_spec hx_broker hx_broker_inv) as (i & Hi & _). by exists i.
Defined.

(** ** From publication to the reader *)
Lemma publish_locked_stores b md payload :
  shm_ok b → frame_ok (bm_config b) md payload →
  0 <= dropped_count_locked (bm_mem b) < u64_max →
  ∃ m' i, publish_locked_with (bm_mem b) (bm_config b) md (copy_slice payload) = (m', Ok ()) ∧
    publish_frame (bm_config b) (bm_mem b) m' (Ok ()) (Some i) ∧
    slot_holds (bm_config b) m' i (with_dropped md (dropped_count_locked m')) payload ∧
    dropped_count_locked m' = dropped_count_locked (bm_mem b) +
      (if bool_decide (slot_state (bm_mem b) (bm_config b) i = Ok Ready) then 1 else 0).
Proof.
  intros Hinv Hok Hd. pose proof (ri_config _ Hinv) as Hcfg.
  set (cfg := bm_config b) in *. set (m := bm_mem b) in *.
  destruct (ring_inv_writable b Hinv) as (i & Hsel & Hi & Hst). fold cfg m in Hsel, Hi, Hst.
  assert (∃ s, slot_state m cfg i = Ok s ∧ (s = Free ∨ s = Ready)) as (s & Hs & Hsor)
    by (destruct Hst as [?|(_ & ? & _)]; eauto).
  assert (∃ m1, (if bool_decide (s = Ready) then increment_dropped_locked m else Ok m) = Ok m1 ∧
    dropped_count_locked m1 = dropped_count_locked m + (if bool_decide (s = Ready) then 1 else 0))
    as (m1 & Hm1 & Hd1).
  { case_bool_decide; [|eexists; split; [done|lia]]. unfold increment_dropped_locked.
    rewrite (proj2 (checked_add_Some _ _ _ _)) by (split; [done|lia]).
    eexists. split; [reflexivity|]. apply read_u64_same. lia. }
  set (m2 := write_slot_state m1 cfg i Writing).
  pose proof (slot_after_header cfg Hcfg i (proj1 Hi)) as Hbase.
  assert (∀ s' mm, dropped_count_locked (write_slot_state mm cfg i s') = dropped_count_locked mm)
    as Hdw.
  { intros s' mm. apply read_u64_agree, write_slot_state_agree. layout_simpl. lia. }
  destruct (fill_slot_stores cfg Hcfg m2 i md payload (proj1 Hi) Hok) as (m3 & Hfill & Hholds).
  { unfold m2, is_u64_value. rewrite Hdw, Hd1. case_bool_decide; lia. }
  assert (publish_locked_with m cfg md (copy_slice payload)
    = (write_slot_state m3 cfg i Ready, Ok ())) as Hpub.
  { unfold publish_locked_with. rewrite Hsel, Hs, Hm1. fold m2. by rewrite Hfill. }
  assert (dropped_count_locked m3 = dropped_count_locked m1) as Hd3.
  { rewrite <- (Hdw Writing m1). apply read_u64_agree.
    eapply fill_slot_agree; [done|apply copy_slice_in_place|exact Hfill|layout_simpl; lia]. }
  eexists _, i. split; [exact Hpub|]. split_and!.
  - pose proof (publish_locked_frame cfg Hcfg m md _ _ _ (copy_slice_in_place payload) Hpub)
      as Hframe. unfold written_slot in Hframe. by rewrite Hsel in Hframe.
  - rewrite Hdw, Hd3, <- (Hdw Writing). fold m2. eapply slot_holds_agree; [done| |exact Hholds].
    apply write_slot_state_agree. lia.
  - rewrite Hdw, Hd3, Hd1, Hs. f_equal. destruct Hsor; subst s; done.
Qed.

(** In a ring where slot [i] was just published with the greatest sequence, [i] is leased. *)
Lemma lease_after_publish b m' r i md payload b' o :
  shm_ok b → publish_frame (bm_config b) (bm_mem b) m' r (Some i) → is_ok r = true →
  slot_holds (bm_config b) m' i md payload →
  (∀ j, in_ring (bm_config b) j → slot_state (bm_mem b) (bm_config b) j = Ok Ready →
     slot_sequence (bm_mem b) (bm_config b) j < md_sequence md) →
  lease_outcome (set_mem b m') b' o →
  ∃ lease, o = Some lease ∧ fl_slot_index lease = i ∧ fl_sequence lease = md_sequence md ∧
    fl_generation lease = md_generation md ∧ fl_identity lease = mapd_identity (bm_descriptor b).
Proof.
  intros Hinv [Hw Ho _] Hr Hholds Hseq Hlo. pose proof (ri_config _ Hinv) as Hcfg.
  destruct (Hw i eq_refl) as (Hi & _ & Hready). rewrite Hr in Hready.
  destruct o as [lease|]; [|by destruct (lo_none _ _ _ Hlo eq_refl i Hi)].
  destruct (lo_some _ _ _ Hlo lease eq_refl) as (Hl & Hlr & Hls & Hlg & Hmax).
  cbn [bm_mem bm_config set_mem] in *. specialize (Hmax i Hi Hready).
  rewrite (sh_sequence _ _ _ _ _ Hholds) in Hmax.
  assert (fl_slot_index lease = i) as Hli.
  { destruct (decide (i = fl_slot_index lease)) as [|Hne]; [done|]. exfalso.
    assert (slot_agree (bm_config b) (fl_slot_index lease) m' (bm_mem b)) as Ha
      by (apply Ho; [apply Hl|congruence]).
    rewrite (slot_agree_state _ Hcfg _ _ _ Ha) in Hlr. specialize (Hseq _ Hl Hlr).
    assert (slot_sequence m' (bm_config b) (fl_slot_index lease)
      = slot_sequence (bm_mem b) (bm_config b) (fl_slot_index lease))
      by (apply slot_body_u64; [done|by apply slot_agree_body|layout_simpl; lia]).
    lia. }
  rewrite Hli in Hls, Hlg. exists lease. split_and!; [done|done|..].
  - rewrite Hls. apply Hholds.
  - rewrite Hlg. apply Hholds.
  - destruct (ri_lease _ (lo_inv _ _ _ Hlo) lease (lo_pinned _ _ _ Hlo)) as (_ & Hid & _).
    by rewrite Hid, (lo_descriptor _ _ _ Hlo).
Qed.

(** C31: publication to reader, end to end: publishing a frame whose sequence exceeds
    those of the frames still in the ring succeeds, the next lease is for that frame, and
    a reader of an open mapping copies out exactly its metadata (stamped with the dropped
    counter) and exactly its payload bytes; the counter grew by one just when an unread
    frame had to be overwritten. *)
Theorem shm_publish_then_read b md payload header retry :
  shm_ok b → frame_ok (bm_config b) md payload →
  0 <= dropped_count b LockAcquired < u64_max →
  read_u64 (bm_mem b) HEADER_TERMINAL_STATE = TERMINAL_STATE_OPEN →
  (∀ j, in_ring (bm_config b) j → slot_state (bm_mem b) (bm_config b) j = Ok Ready →
     slot_sequence (bm_mem b) (bm_config b) j < md_sequence md) →
  vh_config header = bm_config b → vh_identity header = mapd_identity (bm_descriptor b) →
  ∃ b1 b2 lease,
    publish b md payload LockAcquired retry (Ok ()) = (b1, Ok ()) ∧
    next_frame_lease b1 LockAcquired (Ok ()) = (b2, Ok (Some lease)) ∧
    fl_sequence lease = md_sequence md ∧
    ReadOnlyMapping_copy (bm_mem b2) header None lease LockAcquired (Ok ()) =
      Ok (Some (mkCopiedFrame (with_dropped md (dropped_count b1 LockAcquired)) payload)) ∧
    dropped_count b1 LockAcquired = dropped_count b LockAcquired +
      (if bool_decide (slot_state (bm_mem b) (bm_config b) (fl_slot_index lease) = Ok Ready)
       then 1 else 0).
Proof.
  intros Hinv Hok Hd Ht Hseq Hhc Hhi. pose proof (ri_config _ Hinv) as Hcfg.
  destruct (publish_locked_stores b md payload Hinv Hok Hd) as (m' & i & Hpub & Hf & Hholds & Hd').
  assert (publish b md payload LockAcquired retry (Ok ()) = (set_mem b m', Ok ())) as Hp.
  { unfold publish, publish_with. destruct (fo_new _ _ _ Hok) as [d Hnew].
    unfold FrameMetadata_new in Hnew. apply bind_Ok in Hnew as ([] & -> & _). by rewrite Hpub. }
  pose proof (publish_frame_inv b m' (Ok ()) (Some i) Hinv Hf) as Hinv1.
  destruct (next_frame_lease_locked_spec _ Hinv1) as (b2 & o & Hnext & Hlo).
  destruct (lease_after_publish b m' (Ok ()) i _ payload b2 o Hinv Hf eq_refl Hholds Hseq Hlo)
    as (lease & -> & Hli & Hls & Hlg & Hlid).
  exists (set_mem b m'), b2, lease. split_and!; [done| |done| |by rewrite Hli].
  { unfold next_frame_lease, with_exclusive_lock. by rewrite Hnext. }
  unfold ReadOnlyMapping_copy. rewrite bool_decide_eq_false_2 by (rewrite Hlid, Hhi; auto).
  cbn [map_err mbind result_bind].
  pose proof (lo_config _ _ _ Hlo) as Hc. cbn in Hc.
  destruct (lo_some _ _ _ Hlo lease eq_refl) as (Hir & _). rewrite Hli in Hir. cbn in Hir.
  eapply (copy_locked_holds (bm_config b)); try done.
  - rewrite <- Ht. apply read_u64_agree. etransitivity.
    + eapply mem_agree_sub; [| |apply (lo_header _ _ _ Hlo)]; layout_simpl; lia.
    + apply Hf; layout_simpl; lia.
  - destruct (ri_states _ (lo_inv _ _ _ Hlo) i) as (s & Hs & _ & Hsp); [by rewrite Hc|].
    rewrite Hc in Hs. rewrite Hs. f_equal. apply Hsp. unfold pinned_slot.
    rewrite (lo_pinned _ _ _ Hlo). simpl. by rewrite Hli.
  - eapply slot_holds_agree; [done|by apply (lo_bodies _ _ _ Hlo)|done].
Qed.

Definition hx_header : ValidatedHeader := mkValidatedHeader hx_config hx_identity.
Lemma hx_frame_ok : frame_ok hx_config (hx_metadata 5) (hx_payload 42).
Proof.
  split.
  - reflexivity.
  - reflexivity.
  - reflexivity.
  - repeat split; vm_compute; congruence.
  - exists 0. vm_compute. reflexivity.
  - constructor; [|constructor]. repeat split; vm_compute; congruence.
  - vm_compute. reflexivity.
  - vm_compute. congruence.
Qed.
Lemma shm_publish_then_read_witness : ∃ b1 b2 lease,
  publish hx_broker (hx_metadata 5) (hx_payload 42) LockAcquired LockWouldBlock (Ok ())
    = (b1, Ok ()) ∧
  next_frame_lease b1 LockAcquired (Ok ()) = (b2, Ok (Some lease)) ∧
  ReadOnlyMapping_copy (bm_mem b2) hx_header None lease LockAcquired (Ok ()) =
    Ok (Some (mkCopiedFrame (with_dropped (hx_metadata 5) (dropped_count b1 LockAcquired))
                (hx_payload 42))).
Proof.
  destruct (shm_publish_then_read hx_broker (hx_metadata 5) (hx_payload 42) hx_header
    LockWouldBlock hx_broker_inv hx_frame_ok) as (b1 & b2 & lease & H1 & H2 & _ & H3 & _).
  - vm_compute. split; congruence.
  - reflexivity.
  - intros j [Hj Hj'] Hs. exfalso. cbn in Hj, Hj'.
    assert (j = 0 ∨ j = 1 ∨ j = 2 ∨ j = 3) as [-> | [-> | [-> | ->]]] by (unfold hx_broker in *; cbn in *; lia);
      vm_compute in Hs; congruence.
  - reflexivity.
  - reflexivity.
  - by exists b1, b2, lease.
Defined.

(** ** Pinned frames are stable *)
(** One publication attempt: the frame, its copier and the outcomes of its lock calls. *)
Record PublishAttempt := mkPublishAttempt {
  pa_metadata : FrameMetadata;
  pa_copy : CopyPayload;
  pa_lock : LockOutcome;
  pa_retry : LockOutcome;
  pa_unlock : result string unit;
}.
Definition publish_attempts (b : BrokerMapping) (attempts : list PublishAttempt) : BrokerMapping :=
  foldl (λ b a, (publish_with b (pa_metadata a) (pa_copy a) (pa_lock a) (pa_retry a)
                   (pa_unlock a)).1) b attempts.

Lemma publish_with_pinned b md copy lock retry unlock i :
  ring_config_valid (bm_config b) → copier_in_place copy → 0 <= i →
  slot_state (bm_mem b) (bm_config b) i = Ok Pinned →
  let b' := (publish_with b md copy lock retry unlock).1 in
  bm_config b' = bm_config b ∧ bm_descriptor b' = bm_descriptor b ∧
  slot_agree (bm_config b) i (bm_mem b') (bm_mem b) ∧
  mem_agree 136 144 (bm_mem b') (bm_mem b).
Proof.
  intros Hcfg Hcopy Hi Hpin. destruct (publish_with _ _ _ _ _ _) as [b' r] eqn:Hp. cbn.
  destruct (publish_with_frame _ _ _ _ _ _ _ _ Hcfg Hcopy Hp)
    as (m' & r' & written & -> & [Hw Ho Hh]). cbn.
  split_and!; [done..| |].
  - apply Ho; [done|]. intros ->. destruct (Hw i eq_refl) as (_ & [Hs|Hs] & _); congruence.
  - apply Hh; layout_simpl; lia.
Qed.

(** C9: a leased frame is stable: while its slot is Pinned, no sequence of publications,
    whatever their metadata, copiers, failures and lock outcomes, changes what a reader
    copies out under that lease, nor what the broker's own view of it is. *)
Theorem shm_pinned_frame_stable b attempts header expected lease :
  ring_config_valid (bm_config b) → vh_config header = bm_config b →
  0 <= fl_slot_index lease →
  slot_state (bm_mem b) (bm_config b) (fl_slot_index lease) = Ok Pinned →
  Forall (λ a, copier_in_place (pa_copy a)) attempts →
  copy_locked (bm_mem (publish_attempts b attempts)) header expected lease
    = copy_locked (bm_mem b) header expected lease ∧
  frame_view (publish_attempts b attempts) lease = frame_view b lease.
Proof.
  intros Hcfg Hh Hi Hpin Hall. unfold publish_attempts. revert b Hcfg Hh Hpin.
  induction Hall as [|a attempts Ha Hall IH]; intros b Hcfg Hh Hpin; [done|]. cbn [foldl].
  destruct (publish_with_pinned b (pa_metadata a) (pa_copy a) (pa_lock a) (pa_retry a) (pa_unlock a)
    _ Hcfg Ha Hi Hpin) as (Hc & Hd & Hs & Ht).
  set (b1 := (publish_with b _ _ _ _ _).1) in *.
  pose proof (slot_agree_state _ Hcfg _ _ _ Hs) as Hst.
  pose proof (slot_agree_body _ _ _ _ Hs) as Hb.
  destruct (IH b1) as [-> ->]; [by rewrite Hc|by rewrite Hc|by rewrite Hc, Hst|]. split.
  - apply (slot_agree_copy (bm_config b)); [done..|]. apply read_u64_agree.
    by layout_simpl.
  - unfold frame_view. rewrite Hc, Hd, Hst. case_bool_decide; [done|].
    unfold slot_sequence, slot_generation, slot_payload_length.
    rewrite !(slot_body_u64 _ Hcfg (bm_mem b1) (bm_mem b)) by (done || layout_simpl; lia).
    destruct (slot_state _ _ _); [|done]. cbn [mbind result_bind]. destruct (_ || _); [done|].
    rewrite (slot_body_metadata _ Hcfg (bm_mem b1) (bm_mem b)) by done.
    destruct (read_metadata _ _ _ _ _); [|done]. cbn [mbind result_bind].
    destruct (_ <? _) eqn:Hl; [done|]. bool_simp. cbn [mbind result_bind].
    by rewrite (slot_body_payload _ Hcfg (bm_mem b1) (bm_mem b)).
Qed.

Definition hx_lease : FrameLease := mkFrameLease hx_identity 0 5 1.
Lemma shm_pinned_frame_stable_witness :
  copy_locked (bm_mem (publish_attempts hx_pinned
    [mkPublishAttempt (hx_metadata 6) (copy_slice (hx_payload 43)) LockAcquired LockWouldBlock (Ok ());
     mkPublishAttempt (hx_metadata 7) (copy_slice (hx_payload 44)) LockAcquired LockWouldBlock (Ok ())]))
    hx_header None hx_lease = copy_locked (bm_mem hx_pinned) hx_header None hx_lease.
Proof.
  refine (proj1 (shm_pinned_frame_stable hx_pinned _ hx_header None hx_lease _ _ _ _ _)).
  - apply hx_config_valid.
  - reflexivity.
  - vm_compute. congruence.
  - vm_compute. reflexivity.
  - repeat constructor; apply copy_slice_in_place.
Defined.

(** Leasing: in a reachable ring the call under the lock always succeeds; it leases
    nothing only if no slot is Ready, and otherwise the Ready slot with the greatest
    sequence, releasing the previous pin and pinning that slot. *)
Theorem shm_lease_newest b :
  shm_ok b → ∃ b' o,
    next_frame_lease b LockAcquired (Ok ()) = (b', Ok o) ∧ bm_pinned b' = o ∧
    match o with
    | None => ∀ j, in_ring (bm_config b) j → slot_state (bm_mem b) (bm_config b) j ≠ Ok Ready
    | Some lease =>
        slot_state (bm_mem b) (bm_config b) (fl_slot_index lease) = Ok Ready ∧
        slot_state (bm_mem b') (bm_config b) (fl_slot_index lease) = Ok Pinned ∧
        fl_sequence lease = slot_sequence (bm_mem b) (bm_config b) (fl_slot_index lease) ∧
        ∀ j, in_ring (bm_config b) j →
          (slot_state (bm_mem b) (bm_config b) j = Ok Ready →
             slot_sequence (bm_mem b) (bm_config b) j <= fl_sequence lease) ∧
          (slot_state (bm_mem b') (bm_config b) j = Ok Pinned → j = fl_slot_index lease)
    end.
Proof.
  intros Hinv. destruct (next_frame_lease_locked_spec b Hinv) as (b' & o & Hn & Hlo).
  exists b', o. split_and!; [unfold next_frame_lease, with_exclusive_lock; by rewrite Hn
    |apply Hlo|].
  destruct o as [lease|]; [|by apply (lo_none _ _ _ Hlo)].
  destruct (lo_some _ _ _ Hlo lease eq_refl) as (Hir & Hr & Hs & _ & Hmax).
  assert (∀ j, in_ring (bm_config b) j → ∃ s, slot_state (bm_mem b') (bm_config b) j = Ok s ∧
    (s = Pinned ↔ j = fl_slot_index lease)) as Hst.
  { intros j Hj. destruct (ri_states _ (lo_inv _ _ _ Hlo) j) as (s & Hs' & _ & Hp);
      rewrite (lo_config _ _ _ Hlo) in *; [done|]. exists s. split; [done|].
    rewrite Hp. unfold pinned_slot. rewrite (lo_pinned _ _ _ Hlo). cbn. naive_solver. }
  split_and!; [done| |done|].
  - destruct (Hst _ Hir) as (s & -> & Hp). f_equal. by apply Hp.
  - intros j Hj. split; [by apply Hmax|]. destruct (Hst j Hj) as (s & -> & Hp).
    intros [= ->]. by apply Hp.
Qed.

Lemma shm_lease_newest_witness :
  ∃ b' o, next_frame_lease hx_broker LockAcquired (Ok ()) = (b', Ok o).
Proof.
  destruct (shm_lease_newest hx_broker hx_broker_inv) as (b' & o & H & _). by exists b', o.
Defined.

(** ** A torn frame
    When every slot holds an unread frame and a publication fails after its copier ran
    (here: the copied payload is too short for the planes), the oldest slot goes back to
    Ready with its old metadata over the new bytes. *)
Definition hx_full : BrokerMapping :=
  publish_attempts hx_broker
    ((λ n, mkPublishAttempt (hx_metadata n) (copy_slice (hx_payload n)) LockAcquired
             LockWouldBlock (Ok ())) <$> [1; 2; 3; 4]).
Lemma shm_failed_publish_tears :
  let '(b, result) :=
    publish hx_full (hx_metadata 5) (replicate 4 99) LockAcquired LockWouldBlock (Ok ()) in
  result = Err (shm_invalid "shared_memory.layout" "plane range escapes the frame payload") ∧
  slot_state (bm_mem b) hx_config 0 = Ok Ready ∧ slot_sequence (bm_mem b) hx_config 0 = 1 ∧
  slot_payload (bm_mem hx_full) hx_config 0 8 = hx_payload 1 ∧
  slot_payload (bm_mem b) hx_config 0 8 = [99; 99; 99; 99; 1; 1; 1; 1] ∧
  dropped_count b LockAcquired = 1.
Proof. vm_compute. repeat split; reflexivity. Qed.
