(* ===== verification/WireCore.v ===== *)
(** * robot-hal-protocol: negotiation, enumerations, core messages

    Models crates/robot-hal-protocol/src/lib.rs and the parts of conversion.rs that serve
    every transport and the serial one.  The message types are those prost generates from
    proto/seeed/hal/v1/hal.proto: one record per message, named [v1_<Message>], with an
    enumeration field holding its number (an [i32]) and a [map] a finite map.  A
    [Duration] is a number of nanoseconds. *)

From S2P Require Import Prelude Core Lifecycle SerialRegistry.

(** ** lib.rs: version negotiation *)
Definition PROTOCOL_MAJOR : Z := 1.
Definition PROTOCOL_MINOR_MINIMUM : Z := 0.
Definition PROTOCOL_MINOR_MAXIMUM : Z := 3.
Definition PROTOCOL_MINOR : Z := PROTOCOL_MINOR_MAXIMUM.
Definition SERIAL_CAPABILITY : string := "serial.bytes/v1".
Definition MAX_FRAME_BYTES : Z := 1024 * 1024.

Definition invalid_message (debug_message : string) : HalError :=
  static_error "runtime.protocol.invalid_message" InvalidArgument "runtime.protocol.decode" false
    debug_message.

Record v1_HandshakeRequest := mk_v1_HandshakeRequest {
  hsq_startup_token : list Z;
  hsq_protocol_major : Z;
  hsq_protocol_minor : Z;
  hsq_required_capabilities : list string;
  hsq_max_frame_bytes : Z;
  hsq_max_read_bytes : Z;
  hsq_max_write_bytes : Z;
  hsq_protocol_minor_minimum : Z;
  hsq_protocol_minor_maximum : Z;
}.
Record v1_HandshakeResponse := mk_v1_HandshakeResponse {
  hsr_protocol_major : Z;
  hsr_protocol_minor : Z;
  hsr_capabilities : list string;
  hsr_max_frame_bytes : Z;
  hsr_max_read_bytes : Z;
  hsr_max_write_bytes : Z;
  hsr_protocol_minor_minimum : Z;
  hsr_protocol_minor_maximum : Z;
}.

Definition handshake_minor_range (request : v1_HandshakeRequest) : HalResult (Z * Z) :=
  if (hsq_protocol_minor_minimum request =? 0) && (hsq_protocol_minor_maximum request =? 0) then
    Ok (hsq_protocol_minor request, hsq_protocol_minor request)
  else if (hsq_protocol_minor_maximum request <? hsq_protocol_minor_minimum request)
          || negb (hsq_protocol_minor request =? hsq_protocol_minor_maximum request) then
    Err (invalid_message "protocol minor range is invalid or conflicts with legacy protocol_minor")
  else Ok (hsq_protocol_minor_minimum request, hsq_protocol_minor_maximum request).

Definition handshake_response_minor_range (response : v1_HandshakeResponse) : HalResult (Z * Z) :=
  if (hsr_protocol_minor_minimum response =? 0) && (hsr_protocol_minor_maximum response =? 0) then
    Ok (hsr_protocol_minor response, hsr_protocol_minor response)
  else if (hsr_protocol_minor_maximum response <? hsr_protocol_minor_minimum response)
          || (hsr_protocol_minor response <? hsr_protocol_minor_minimum response)
          || (hsr_protocol_minor_maximum response <? hsr_protocol_minor response) then
    Err (invalid_message "broker protocol minor range does not contain the selected minor")
  else Ok (hsr_protocol_minor_minimum response, hsr_protocol_minor_maximum response).

Definition negotiate_protocol_minor (client_major client_minimum client_maximum broker_major
    broker_minimum broker_maximum : Z) : HalResult Z :=
  if (client_maximum <? client_minimum) || (broker_maximum <? broker_minimum) then
    Err (invalid_message "protocol minor range minimum exceeds maximum")
  else
    let shared_minimum := Z.max client_minimum broker_minimum in
    let shared_maximum := Z.min client_maximum broker_maximum in
    if negb (client_major =? broker_major) || (shared_maximum <? shared_minimum) then
      HalError_new "runtime.protocol.version_incompatible" Conflict "runtime.protocol.handshake"
        false "client and broker protocol version ranges do not overlap" ≫= λ e, Err e
    else Ok shared_maximum.

(** ** Enumerations

    A generated enumeration has the numbers of the .proto file; number 0 is always the
    unspecified value, which no domain type has.  [proto_number] is [as i32] and
    [proto_of] is [TryFrom<i32>] on the specified values. *)
Class ProtoEnum (A : Type) := {
  proto_number : A → Z;
  proto_of : Z → option A;
  proto_of_number a : proto_of (proto_number a) = Some a;
  proto_number_of v a : proto_of v = Some a → proto_number a = v;
  proto_number_pos a : proto_number a ≠ 0;
}.

Global Arguments proto_number : simpl never.
Global Arguments proto_of : simpl never.

(** [required_enum]: [None] is the unspecified value. *)
Definition required_enum {A} `{ProtoEnum A} (value : Z) (field : string)
    : HalResult (option A) :=
  if value =? 0 then Ok None
  else match proto_of value with
       | Some a => Ok (Some a)
       | None => Err (invalid_message (field +:+ " has an unknown value"))
       end.
(** [match required_enum(..)? { .., Unspecified => return Err(..) }]. *)
Definition enum_field {A} `{ProtoEnum A} (value : Z) (field : string) (missing : HalError)
    : HalResult A :=
  required_enum value field ≫= ok_or missing.

Lemma enum_field_Ok {A} `{ProtoEnum A} value field missing (a : A) :
  enum_field value field missing = Ok a ↔ value = proto_number a.
Proof.
  unfold enum_field, required_enum. destruct (value =? 0) eqn:E; bool_simp.
  { subst value. split; [done|]. intros Hz. by destruct (proto_number_pos a). }
  split.
  - destruct (proto_of value) as [b|] eqn:Hb; [|done]. intros [= ->].
    symmetry. by apply proto_number_of.
  - intros ->. by rewrite proto_of_number.
Qed.

(** Enumerations with few values: the three laws by cases. *)
Ltac solve_proto_enum :=
  first [ by intros []
        | intros v a; unfold mret, option_ret; repeat case_match; intros; simplify_eq/=; bool_simp;
          try done; lia ].

Global Arguments enum_field : simpl never.

Global Program Instance IdentityQuality_proto : ProtoEnum IdentityQuality := {|
  proto_number q := match q with Weak => 1 | Medium => 2 | Strong => 3 end;
  proto_of v := if v =? 1 then Some Weak else if v =? 2 then Some Medium
                else if v =? 3 then Some Strong else None;
|}.
Solve Obligations with solve_proto_enum.
Global Program Instance TransportKind_proto : ProtoEnum TransportKind := {|
  proto_number t := match t with Serial => 1 | Can => 2 | Usb => 3 | Gpio => 4 | Camera => 5 end;
  proto_of v := if v =? 1 then Some Serial else if v =? 2 then Some Can
                else if v =? 3 then Some Usb else if v =? 4 then Some Gpio
                else if v =? 5 then Some Camera else None;
|}.
Solve Obligations with solve_proto_enum.
Global Program Instance LeaseMode_proto : ProtoEnum LeaseMode := {|
  proto_number m := match m with Observe => 1 | Control => 2 | Maintenance => 3 end;
  proto_of v := if v =? 1 then Some Observe else if v =? 2 then Some Control
                else if v =? 3 then Some Maintenance else None;
|}.
Solve Obligations with solve_proto_enum.
Global Program Instance ErrorCategory_proto : ProtoEnum ErrorCategory := {|
  proto_number c := match c with InvalidArgument => 1 | NotFound => 2 | Conflict => 3
                    | Unavailable => 4 | Internal => 5 end;
  proto_of v := if v =? 1 then Some InvalidArgument else if v =? 2 then Some NotFound
                else if v =? 3 then Some Conflict else if v =? 4 then Some Unavailable
                else if v =? 5 then Some Internal else None;
|}.
Solve Obligations with solve_proto_enum.
Global Program Instance DataBits_proto : ProtoEnum DataBits := {|
  proto_number d := match d with Five => 1 | Six => 2 | Seven => 3 | Eight => 4 end;
  proto_of v := if v =? 1 then Some Five else if v =? 2 then Some Six
                else if v =? 3 then Some Seven else if v =? 4 then Some Eight else None;
|}.
Solve Obligations with solve_proto_enum.
Global Program Instance Parity_proto : ProtoEnum Parity := {|
  proto_number p := match p with ParityNone => 1 | ParityOdd => 2 | ParityEven => 3 end;
  proto_of v := if v =? 1 then Some ParityNone else if v =? 2 then Some ParityOdd
                else if v =? 3 then Some ParityEven else None;
|}.
Solve Obligations with solve_proto_enum.
Global Program Instance StopBits_proto : ProtoEnum StopBits := {|
  proto_number s := match s with StopOne => 1 | StopTwo => 2 end;
  proto_of v := if v =? 1 then Some StopOne else if v =? 2 then Some StopTwo else None;
|}.
Solve Obligations with solve_proto_enum.
Global Program Instance FlowControl_proto : ProtoEnum FlowControl := {|
  proto_number f := match f with FlowNone => 1 | FlowSoftware => 2 | FlowHardware => 3 end;
  proto_of v := if v =? 1 then Some FlowNone else if v =? 2 then Some FlowSoftware
                else if v =? 3 then Some FlowHardware else None;
|}.
Solve Obligations with solve_proto_enum.

(** ** Messages *)
Record v1_ResourceSelector := mk_v1_ResourceSelector {
  wsel_resource_id : string;
  wsel_minimum_identity_quality : Z;
  wsel_transport : Z;
}.
Record v1_ResourceDescriptor := mk_v1_ResourceDescriptor {
  wdesc_resource_id : string;
  wdesc_endpoint : string;
  wdesc_identity_quality : Z;
  wdesc_transport : Z;
  wdesc_properties : gmap string string;
  wdesc_capabilities : list string;
}.
Record v1_SerialConfig := mk_v1_SerialConfig {
  wser_baud_rate : Z;
  wser_data_bits : Z;
  wser_parity : Z;
  wser_stop_bits : Z;
  wser_flow_control : Z;
  wser_read_timeout_ms : Z;
}.
Record v1_LeaseToken := mk_v1_LeaseToken {
  wlease_id : string;
  wlease_generation : Z;
  wlease_mode : Z;
}.
Record v1_Error := mk_v1_Error {
  werr_name : string;
  werr_category : Z;
  werr_operation : string;
  werr_retryable : bool;
  werr_debug_message : string;
  werr_resource_id : string;
  werr_platform_code : string;
  werr_vendor_code : string;
  werr_context : gmap string string;
}.
Record v1_RuntimeEvent := mk_v1_RuntimeEvent {
  wev_sequence : Z;
  wev_kind : Z;
  wev_name : string;
  wev_resource_id : string;
  wev_session_id : string;
  wev_owner_id : string;
  wev_lease_generation : Z;
}.
(** OpenSerialRequest; EnumerateSerialResponse is a list of descriptors, and every
    response that opens a session is a session id and a lease. *)
Record v1_OpenSerialRequest := mk_v1_OpenSerialRequest {
  wos_selector : option v1_ResourceSelector;
  wos_config : option v1_SerialConfig;
}.
Record v1_SessionLease := mk_v1_SessionLease {
  wsl_session_id : string;
  wsl_lease : option v1_LeaseToken;
}.

(** *** Resources *)
Definition ResourceSelector_try_from (value : v1_ResourceSelector) : HalResult ResourceSelector :=
  map_err (λ _, invalid_message "resource selector has an invalid resource_id")
    (ResourceId_parse (wsel_resource_id value)) ≫= λ id,
  enum_field (wsel_minimum_identity_quality value) "minimum_identity_quality"
    (invalid_message "minimum_identity_quality is required") ≫= λ quality,
  enum_field (wsel_transport value) "transport" (invalid_message "transport is required")
  ≫= λ transport,
  Ok (ResourceSelector_exact id quality transport).

Definition ResourceSelector_to_proto (value : ResourceSelector) : v1_ResourceSelector :=
  mk_v1_ResourceSelector (ResourceId_as_str (sel_id value))
    (proto_number (sel_minimum_identity_quality value)) (proto_number (sel_transport value)).

Definition ResourceDescriptor_try_from (value : v1_ResourceDescriptor)
    : HalResult ResourceDescriptor :=
  ResourceSelector_try_from (mk_v1_ResourceSelector (wdesc_resource_id value)
    (wdesc_identity_quality value) (wdesc_transport value)) ≫= λ selector,
  map_err (λ _, invalid_message "resource descriptor has an invalid endpoint")
    (Endpoint_new (wdesc_endpoint value)) ≫= λ endpoint,
  (if bool_decide (wdesc_capabilities value = []) then
     if bool_decide (sel_transport selector ≠ Serial) then
       Err (invalid_message "CAN resource descriptor requires explicit capabilities")
     else Ok [mkCapabilityId SERIAL_CAPABILITY]
   else
     collect (λ capability,
       map_err (λ _, invalid_message "resource descriptor has an invalid capability")
         (CapabilityId_parse capability)) (wdesc_capabilities value)) ≫= λ capabilities,
  Ok (mkResourceDescriptor (sel_id selector) endpoint (sel_minimum_identity_quality selector)
        (sel_transport selector) (mkResourceProperties (wdesc_properties value))
        (mkCapabilitySet capabilities)).

Definition ResourceDescriptor_to_proto (value : ResourceDescriptor) : v1_ResourceDescriptor :=
  mk_v1_ResourceDescriptor (ResourceId_as_str (desc_id value))
    (Endpoint_as_str (desc_endpoint value))
    (proto_number (desc_minimum_identity_quality value)) (proto_number (desc_transport value))
    (properties_map (desc_properties value))
    (CapabilityId_as_str <$> CapabilitySet_as_slice (desc_capabilities value)).

(** *** Serial configuration *)
Definition from_millis (ms : Z) : Z := ms * 1000000.
Definition SerialConfig_try_from (value : v1_SerialConfig) : HalResult SerialConfig :=
  if (wser_baud_rate value =? 0) || (wser_read_timeout_ms value =? 0) then
    Err (invalid_message "baud_rate and read_timeout_ms must be greater than zero")
  else
    enum_field (wser_data_bits value) "data_bits" (invalid_message "data_bits is required")
    ≫= λ data_bits,
    enum_field (wser_parity value) "parity" (invalid_message "parity is required") ≫= λ parity,
    enum_field (wser_stop_bits value) "stop_bits" (invalid_message "stop_bits is required")
    ≫= λ stop_bits,
    enum_field (wser_flow_control value) "flow_control"
      (invalid_message "flow_control is required") ≫= λ flow_control,
    Ok (mkSerialConfig (wser_baud_rate value) data_bits parity stop_bits flow_control
          (from_millis (wser_read_timeout_ms value))).
Definition SerialConfig_to_proto (value : SerialConfig) : v1_SerialConfig :=
  mk_v1_SerialConfig (baud_rate value) (proto_number (data_bits value))
    (proto_number (parity value)) (proto_number (stop_bits value))
    (proto_number (flow_control value))
    (default u64_max (try_from u64_max (read_timeout value / 1000000))).

(** *** Leases *)
Definition LeaseToken_try_from (value : v1_LeaseToken) : HalResult LeaseToken :=
  map_err (λ _, invalid_message "lease token has an invalid lease_id")
    (LeaseId_parse (wlease_id value)) ≫= λ lease_id,
  if wlease_generation value =? 0 then
    Err (invalid_message "lease generation must be greater than zero")
  else
    enum_field (wlease_mode value) "lease mode" (invalid_message "lease mode is required")
    ≫= λ mode,
    Ok (mkLeaseToken lease_id (wlease_generation value) mode).
Definition LeaseToken_to_proto (value : LeaseToken) : v1_LeaseToken :=
  mk_v1_LeaseToken (LeaseId_as_str (token_lease_id value)) (token_generation value)
    (proto_number (token_mode value)).

Definition parse_session_lease (session_id : string) (lease : option v1_LeaseToken)
    : HalResult (SessionId * LeaseToken) :=
  map_err (λ _, invalid_message "request has an invalid session_id") (SessionId_parse session_id)
  ≫= λ session,
  ok_or (invalid_message "request is missing lease") lease ≫= λ lease,
  LeaseToken_try_from lease ≫= λ lease, Ok (session, lease).
Definition parse_serial_session_lease (session_id : string) (lease : option v1_LeaseToken)
    : HalResult (SessionId * LeaseToken) :=
  parse_session_lease session_id lease ≫= λ '(session, lease),
  if bool_decide (token_mode lease ≠ Control)
  then Err (invalid_message "Serial session lease mode must be Control")
  else Ok (session, lease).
Definition parse_control_session_lease (session_id : string) (lease : option v1_LeaseToken)
    (hardware_class : string) : HalResult (SessionId * LeaseToken) :=
  parse_session_lease session_id lease ≫= λ '(session, lease),
  if bool_decide (token_mode lease ≠ Control)
  then Err (invalid_message (hardware_class +:+ " session lease mode must be Control"))
  else Ok (session, lease).

Definition nonzero_timeout (value : Z) (field : string) : HalResult Z :=
  if value =? 0 then Err (invalid_message (field +:+ " must be greater than zero"))
  else Ok (from_millis value).

(** *** Serial requests *)
Definition serial_selector_from_proto (value : v1_ResourceSelector) : HalResult ResourceSelector :=
  ResourceSelector_try_from value ≫= λ selector,
  if bool_decide (sel_transport selector ≠ Serial)
  then Err (invalid_message "serial resource selector transport must be Serial")
  else Ok selector.
Definition selector_for_transport (value : v1_ResourceSelector) (expected : TransportKind)
    (label : string) : HalResult ResourceSelector :=
  ResourceSelector_try_from value ≫= λ selector,
  if bool_decide (sel_transport selector ≠ expected)
  then Err (invalid_message (label +:+ " resource selector transport does not match"))
  else Ok selector.
Definition enumerate_serial_response_from_proto (resources : list v1_ResourceDescriptor)
    : HalResult (list ResourceDescriptor) :=
  collect (λ value,
    ResourceDescriptor_try_from value ≫= λ descriptor,
    if bool_decide (desc_transport descriptor ≠ Serial)
    then Err (invalid_message "enumerate_serial resource transport must be Serial")
    else Ok descriptor) resources.
Definition open_serial_request_from_proto (value : v1_OpenSerialRequest)
    : HalResult (ResourceSelector * SerialConfig) :=
  ok_or (invalid_message "open_serial selector is required") (wos_selector value) ≫= λ selector,
  ok_or (invalid_message "open_serial config is required") (wos_config value) ≫= λ config,
  serial_selector_from_proto selector ≫= λ selector,
  SerialConfig_try_from config ≫= λ config,
  Ok (selector, config).
Definition open_serial_response_from_proto (value : v1_SessionLease)
    : HalResult (SessionId * LeaseToken) :=
  parse_serial_session_lease (wsl_session_id value) (wsl_lease value).

(** *** Errors and events *)
Definition HalError_to_proto (value : HalError) : v1_Error :=
  mk_v1_Error (ErrorName_as_str (err_name value)) (proto_number (err_category value))
    (OperationName_as_str (err_operation value)) (err_retryable value) (err_debug_message value)
    (match err_resource_id value with Some r => ResourceId_as_str r | None => "" end)
    (default "" (err_platform_code value)) (default "" (err_vendor_code value))
    (context_map (err_context value)).

Definition error_from_proto (value : v1_Error) : HalResult HalError :=
  enum_field (werr_category value) "category" (invalid_message "error category is required")
  ≫= λ category,
  map_err (λ _, invalid_message "error has invalid name or operation")
    (HalError_new (werr_name value) category (werr_operation value) (werr_retryable value)
       (werr_debug_message value)) ≫= λ error,
  (if str_is_empty (werr_resource_id value) then Ok error
   else
     map_err (λ _, invalid_message "error has an invalid resource_id")
       (ResourceId_parse (werr_resource_id value)) ≫= λ resource_id,
     Ok (HalError_with_resource_id error resource_id)) ≫= λ error,
  (if str_is_empty (werr_platform_code value) then Ok error
   else map_err (λ _, invalid_message "error has an invalid platform_code")
          (HalError_with_platform_code error (werr_platform_code value))) ≫= λ error,
  (if str_is_empty (werr_vendor_code value) then Ok error
   else map_err (λ _, invalid_message "error has an invalid vendor_code")
          (HalError_with_vendor_code error (werr_vendor_code value))) ≫= λ error,
  map_err (λ _, invalid_message "error has an invalid context")
    (ErrorContext_new (map_to_list (werr_context value))) ≫= λ context,
  Ok (HalError_with_context error context).

Definition RuntimeEvent_to_proto (value : RuntimeEvent) : v1_RuntimeEvent :=
  mk_v1_RuntimeEvent (ev_sequence value)
    (match ev_kind value with
     | SessionOpened => 1 | SessionClosed => 2 | CanBusActive => 3 | CanBusWarning => 4
     | CanBusPassive => 5 | CanBusOff => 6 | CanBusStopped => 7 | CanBusUnknown => 8
     end)
    (RuntimeEventKind_name (ev_kind value)) (ResourceId_as_str (ev_resource_id value))
    (SessionId_as_str (ev_session_id value)) (OwnerId_as_str (ev_owner_id value))
    (ev_lease_generation value).

(** ** Exact codecs

    What the conversions promise each other: on messages that the generated types can
    hold, decoding accepts exactly the encodings of well-formed values and returns the
    value encoded.  It gives the round trip from the value and says that a peer has one
    way to write each value. *)
Class ExactCodec {M A} (typed : M → Prop) (decode : M → HalResult A) (encode : A → M)
    (wf : A → Prop) : Prop :=
  exact_codec m a : (typed m ∧ decode m = Ok a) ↔ (m = encode a ∧ wf a).

Lemma codec_roundtrip {M A} (typed : M → Prop) decode encode (wf : A → Prop)
    `{!ExactCodec typed decode encode wf} a :
  wf a → decode (encode a) = Ok a ∧ typed (encode a).
Proof. intros Hwf. by destruct (proj2 (exact_codec (encode a) a)). Qed.

Global Instance collect_exact {M A} (typed : M → Prop) decode encode (wf : A → Prop)
    `{!ExactCodec typed decode encode wf} :
  ExactCodec (Forall typed) (collect decode) (fmap encode) (Forall wf).
Proof.
  intros ms l. rewrite collect_Ok. split.
  - intros [Ht Hf]. induction Hf as [|m a ms l Hm Hf IH]; [by repeat constructor|].
    apply Forall_cons in Ht as [Htm Ht]. destruct (IH Ht) as [-> Hwf].
    destruct (proj1 (exact_codec m a) (conj Htm Hm)) as [-> ?]. by repeat constructor.
  - intros [-> Hwf]. induction Hwf as [|a l Ha Hwf [IHt IHf]]; [by repeat constructor|].
    destruct (codec_roundtrip typed decode encode wf a Ha). by repeat constructor.
Qed.

Global Instance transpose_exact {M A} (typed : M → Prop) decode encode (wf : A → Prop)
    `{!ExactCodec typed decode encode wf} :
  ExactCodec (λ o, ∀ m, o = Some m → typed m) (transpose decode) (fmap encode)
    (λ o, ∀ a, o = Some a → wf a).
Proof.
  intros o o'. split.
  - intros [Ht Hd]. destruct o as [m|]; simpl in *; [|by injection Hd as <-].
    destruct (decode m) as [a|] eqn:Hm; [|done]. injection Hd as <-.
    destruct (proj1 (exact_codec m a) (conj (Ht m eq_refl) Hm)) as [-> ?].
    split; [done|]. intros a' [= <-]. done.
  - intros [-> Hwf]. destruct o' as [a|]; simpl; [|done].
    destruct (codec_roundtrip typed decode encode wf a (Hwf a eq_refl)) as [-> ?].
    split; [|done]. intros m [= <-]. done.
Qed.

(** One direction each of the exactness of a codec whose messages are all typed. *)
Lemma exact_decode {M A} (decode : M → HalResult A) encode (wf : A → Prop)
    `{!ExactCodec (λ _, True) decode encode wf} m a :
  decode m = Ok a → m = encode a ∧ wf a.
Proof. intros H. by apply (exact_codec (typed := λ _, True)). Qed.
Lemma exact_encode {M A} (decode : M → HalResult A) encode (wf : A → Prop)
    `{!ExactCodec (λ _, True) decode encode wf} a : wf a → decode (encode a) = Ok a.
Proof. intros H. by apply (codec_roundtrip (λ _, True) decode encode wf). Qed.
Lemma exact_intro {M A} (decode : M → HalResult A) encode (wf : A → Prop) :
  (∀ m a, decode m = Ok a → m = encode a ∧ wf a) → (∀ a, wf a → decode (encode a) = Ok a) →
  ExactCodec (λ _, True) decode encode wf.
Proof. intros H1 H2 m a. split; [intros [_ ?]; by apply H1|]. intros [-> ?]. by rewrite H2. Qed.
Lemma exact_collect {M A} (decode : M → HalResult A) encode (wf : A → Prop)
    `{!ExactCodec (λ _, True) decode encode wf} :
  ExactCodec (λ _, True) (collect decode) (fmap encode) (Forall wf).
Proof.
  pose proof (collect_exact (λ _ : M, True) decode encode wf) as HC.
  apply exact_intro.
  - intros m a H. apply HC. split; [|done]. by apply Forall_forall.
  - intros a H. by apply (codec_roundtrip (Forall (λ _, True)) _ (fmap encode) (Forall wf)).
Qed.
Lemma exact_transpose {M A} (decode : M → HalResult A) encode (wf : A → Prop)
    `{!ExactCodec (λ _, True) decode encode wf} :
  ExactCodec (λ _, True) (transpose decode) (fmap encode) (λ o, ∀ a, o = Some a → wf a).
Proof.
  pose proof (transpose_exact (λ _ : M, True) decode encode wf) as HC.
  apply exact_intro.
  - intros m a H. by apply HC.
  - intros a H. by apply (codec_roundtrip _ _ (fmap encode) _ a H).
Qed.
Lemma enum_field_proto {A} `{ProtoEnum A} (x : A) field e :
  enum_field (proto_number x) field e = Ok x.
Proof. by apply enum_field_Ok. Qed.
Lemma try_from_Ok {E} (e : E) max v x : ok_or e (try_from max v) = Ok x ↔ v <= max ∧ x = v.
Proof. unfold try_from. case_match; bool_simp; simpl; naive_solver lia. Qed.

(** *** The codecs of this file *)
Definition selector_wf (s : ResourceSelector) : Prop :=
  valid_identifier (ResourceId_as_str (sel_id s)).
Definition token_wf (t : LeaseToken) : Prop :=
  valid_identifier (LeaseId_as_str (token_lease_id t)) ∧ token_generation t ≠ 0.
Definition serial_config_wf (c : SerialConfig) : Prop :=
  baud_rate c ≠ 0 ∧ ∃ ms, 0 < ms <= u64_max ∧ read_timeout c = from_millis ms.
Definition serial_config_typed (v : v1_SerialConfig) : Prop :=
  0 <= wser_read_timeout_ms v <= u64_max.
Definition error_wf (e : HalError) : Prop :=
  valid_identifier (ErrorName_as_str (err_name e)) ∧
  valid_identifier (OperationName_as_str (err_operation e)) ∧
  (∀ r, err_resource_id e = Some r → valid_identifier (ResourceId_as_str r)) ∧
  (∀ c, err_platform_code e = Some c → valid_identifier c) ∧
  (∀ c, err_vendor_code e = Some c → valid_identifier c) ∧
  valid_context (err_context e).
Definition descriptor_wf (d : ResourceDescriptor) : Prop :=
  valid_identifier (ResourceId_as_str (desc_id d)) ∧
  0 < str_len (Endpoint_as_str (desc_endpoint d)) <= 4096 ∧
  CapabilitySet_as_slice (desc_capabilities d) ≠ [] ∧
  Forall (λ c, CapabilityId_parse (CapabilityId_as_str c) = Ok c)
    (CapabilitySet_as_slice (desc_capabilities d)).

Global Instance selector_exact :
  ExactCodec (λ _, True) ResourceSelector_try_from ResourceSelector_to_proto selector_wf.
Proof.
  intros [id q t] [[id'] q' t']. unfold ResourceSelector_try_from, ResourceSelector_to_proto,
    selector_wf, ResourceSelector_exact; cbn. split.
  - intros [_ H]. apply bind_Ok in H as (r & Hr%map_err_Ok & H).
    apply ResourceId_parse_Ok in Hr as [? ->]. apply bind_Ok in H as (? & Hq%enum_field_Ok & H).
    apply bind_Ok in H as (? & Ht%enum_field_Ok & [= <- <- <-]). by subst.
  - intros [[= -> -> ->] Hwf]. split; [done|].
    rewrite (proj2 (ResourceId_parse_Ok id' _) (conj Hwf eq_refl)). cbn.
    rewrite (proj2 (enum_field_Ok _ _ _ q') eq_refl). cbn.
    by rewrite (proj2 (enum_field_Ok _ _ _ t') eq_refl).
Qed.

Global Instance token_exact :
  ExactCodec (λ _, True) LeaseToken_try_from LeaseToken_to_proto token_wf.
Proof.
  intros [id g m] [[id'] g' m']. unfold LeaseToken_try_from, LeaseToken_to_proto, token_wf; cbn.
  split.
  - intros [_ H]. apply bind_Ok in H as (r & Hr%map_err_Ok & H).
    apply LeaseId_parse_Ok in Hr as [? ->]. destruct (g =? 0) eqn:?; [done|]. bool_simp.
    apply bind_Ok in H as (? & Hm%enum_field_Ok & [= <- <- <-]). by subst.
  - intros [[= -> -> ->] [Hid Hg]]. split; [done|].
    rewrite (proj2 (LeaseId_parse_Ok id' _) (conj Hid eq_refl)). cbn.
    rewrite (proj2 (Z.eqb_neq _ _) Hg).
    by rewrite (proj2 (enum_field_Ok _ _ _ m') eq_refl).
Qed.

Global Instance serial_config_exact :
  ExactCodec serial_config_typed SerialConfig_try_from SerialConfig_to_proto serial_config_wf.
Proof.
  intros [b d p s f t] [b' d' p' s' f' t']. unfold SerialConfig_try_from, SerialConfig_to_proto,
    serial_config_wf, serial_config_typed, from_millis, try_from; cbn. split.
  - intros [Ht H]. destruct (_ || _) eqn:?; [done|]. bool_simp.
    apply bind_Ok in H as (? & Hd%enum_field_Ok & H).
    apply bind_Ok in H as (? & Hp%enum_field_Ok & H).
    apply bind_Ok in H as (? & Hs%enum_field_Ok & H).
    apply bind_Ok in H as (? & Hf%enum_field_Ok & [= <- <- <- <- <- <-]). subst.
    rewrite Z.div_mul by lia. rewrite (proj2 (Z.leb_le _ _)) by lia.
    split_and!; [done..|]. exists t. lia.
  - intros [[= -> -> -> -> -> ->] [Hb (ms & Hms & ->)]].
    rewrite Z.div_mul by lia. rewrite (proj2 (Z.leb_le _ _)) by lia. cbn.
    split; [lia|]. rewrite (proj2 (Z.eqb_neq b' _)) by done.
    rewrite (proj2 (Z.eqb_neq ms _)) by lia. cbn [orb].
    rewrite (proj2 (enum_field_Ok _ _ _ d') eq_refl). cbn.
    rewrite (proj2 (enum_field_Ok _ _ _ p') eq_refl). cbn.
    rewrite (proj2 (enum_field_Ok _ _ _ s') eq_refl). cbn.
    by rewrite (proj2 (enum_field_Ok _ _ _ f') eq_refl).
Qed.

(** An optional identifier on the wire: the empty string stands for its absence. *)
Lemma optional_identifier (o : option string) :
  (∀ c, o = Some c → valid_identifier c) →
  str_is_empty (default "" o) = is_none o.
Proof.
  intros H. destruct o as [c|]; [|done]. destruct (H c eq_refl) as [[Hc _] _].
  apply str_len_pos in Hc. by simpl.
Qed.

Lemma str_is_empty_true s : str_is_empty s = true → s = "".
Proof. by destruct s. Qed.

Lemma validate_identifier_valid field value :
  valid_identifier value → validate_identifier field value = Ok ().
Proof. apply validate_identifier_Ok. Qed.

Lemma error_from_to e : error_wf e → error_from_proto (HalError_to_proto e) = Ok e.
Proof.
  destruct e as [[name] cat [op] ret msg r pc vc ctx].
  intros (Hn & Ho & Hr & Hp & Hv & Hc). cbn in Hn, Ho, Hr, Hp, Hv, Hc.
  unfold error_from_proto, HalError_to_proto. cbn.
  rewrite (proj2 (enum_field_Ok _ _ _ cat) eq_refl). cbn [mbind result_bind].
  rewrite (proj2 (HalError_new_Ok name cat op ret msg _) (conj Hn (conj Ho eq_refl))).
  cbn [map_err mbind result_bind].
  set (rid := match r with Some r => ResourceId_as_str r | None => "" end).
  assert (rid = default "" (ResourceId_as_str <$> r)) as Hrid by (by destruct r).
  assert (∀ c, ResourceId_as_str <$> r = Some c → valid_identifier c) as Hr'.
  { intros c. destruct r as [r|]; [|done]. intros [= <-]. by apply Hr. }
  rewrite Hrid, (optional_identifier _ Hr').
  rewrite (optional_identifier pc Hp), (optional_identifier vc Hv).
  rewrite (ErrorContext_new_iter ctx (map_to_list (context_map ctx)) Hc) by done.
  unfold HalError_with_platform_code, HalError_with_vendor_code.
  destruct r as [[r]|]; cbn;
    [rewrite (proj2 (ResourceId_parse_Ok r _) (conj (Hr _ eq_refl) eq_refl)); cbn|];
    destruct pc as [pc|]; cbn; rewrite ?(validate_identifier_valid _ pc) by (by apply Hp); cbn;
    destruct vc as [vc|]; cbn; rewrite ?(validate_identifier_valid _ vc) by (by apply Hv);
    reflexivity.
Qed.

(** Decoding an optional part either leaves the error alone or sets the part. *)
Lemma error_to_from v e : error_from_proto v = Ok e → v = HalError_to_proto e ∧ error_wf e.
Proof.
  destruct v as [name cat op ret msg r pc vc ctx]. unfold error_from_proto, error_wf,
    HalError_to_proto. cbn. intros H.
  apply bind_Ok in H as (c & Hc%enum_field_Ok & H).
  apply bind_Ok in H as (e0 & He0%map_err_Ok & H).
  apply HalError_new_Ok in He0 as (Hn & Ho & ->).
  apply bind_Ok in H as (e1 & He1 & H).
  assert (∃ r', e1 = mkHalError (mkErrorName name) c (mkOperationName op) ret msg r' None None
      ErrorContext_default ∧ r = match r' with Some r => ResourceId_as_str r | None => "" end ∧
      (∀ x, r' = Some x → valid_identifier (ResourceId_as_str x))) as (r' & -> & -> & Hr).
  { destruct (str_is_empty r) eqn:Hre.
    - apply str_is_empty_true in Hre as ->. injection He1 as <-. by exists None.
    - apply bind_Ok in He1 as (id & Hid%map_err_Ok & [= <-]).
      apply ResourceId_parse_Ok in Hid as [? ->]. exists (Some (mkResourceId r)).
      split_and!; [done..|]. intros x [= <-]. done. }
  clear He1. apply bind_Ok in H as (e2 & He2 & H).
  assert (∃ p', e2 = mkHalError (mkErrorName name) c (mkOperationName op) ret msg r' p' None
      ErrorContext_default ∧ pc = default "" p' ∧ (∀ x, p' = Some x → valid_identifier x))
    as (p' & -> & -> & Hp).
  { destruct (str_is_empty pc) eqn:Hpe.
    - apply str_is_empty_true in Hpe as ->. injection He2 as <-. by exists None.
    - apply map_err_Ok, bind_Ok in He2 as ([] & Hid%validate_identifier_Ok & [= <-]).
      exists (Some pc). split_and!; [done..|]. intros x [= <-]. done. }
  clear He2. apply bind_Ok in H as (e3 & He3 & H).
  assert (∃ v', e3 = mkHalError (mkErrorName name) c (mkOperationName op) ret msg r' p' v'
      ErrorContext_default ∧ vc = default "" v' ∧ (∀ x, v' = Some x → valid_identifier x))
    as (v' & -> & -> & Hv).
  { destruct (str_is_empty vc) eqn:Hve.
    - apply str_is_empty_true in Hve as ->. injection He3 as <-. by exists None.
    - apply map_err_Ok, bind_Ok in He3 as ([] & Hid%validate_identifier_Ok & [= <-]).
      exists (Some vc). split_and!; [done..|]. intros x [= <-]. done. }
  clear He3. apply bind_Ok in H as (context & Hctx%map_err_Ok & [= <-]). cbn.
  pose proof (ErrorContext_new_valid _ _ Hctx) as Hcv.
  apply ErrorContext_new_iff in Hctx as [_ ->]. cbn. rewrite list_to_map_to_list.
  subst cat. rewrite list_to_map_to_list in Hcv. done.
Qed.

Global Instance error_exact :
  ExactCodec (λ _, True) error_from_proto HalError_to_proto error_wf.
Proof.
  intros v e. split; [intros [_ H]; by apply error_to_from|].
  intros [-> H]. split; [done|by apply error_from_to].
Qed.

Lemma Endpoint_new_Ok value e :
  Endpoint_new value = Ok e ↔ 0 < str_len value <= 4096 ∧ e = mkEndpoint value.
Proof.
  unfold Endpoint_new. destruct (str_is_empty value) eqn:He.
  { destruct value; [|done]. split; [done|]. intros [H _]. vm_compute in H. naive_solver. }
  apply str_len_pos in He. destruct (4096 <? str_len value) eqn:?; bool_simp; naive_solver lia.
Qed.

Lemma CapabilityId_parse_id value c : CapabilityId_parse value = Ok c → c = mkCapabilityId value.
Proof.
  unfold CapabilityId_parse. intros H. apply bind_Ok in H as ([] & _ & H).
  apply bind_Ok in H as ([contract version] & _ & H).
  destruct (_ || _ || _); [done|]. destruct (_ || _ || _); [done|]. by injection H as <-.
Qed.

Global Instance capability_exact msg :
  ExactCodec (λ _, True) (λ c, map_err (λ _, invalid_message msg) (CapabilityId_parse c))
    CapabilityId_as_str (λ c, CapabilityId_parse (CapabilityId_as_str c) = Ok c).
Proof.
  intros v c. rewrite map_err_Ok. split.
  - intros [_ H]. pose proof (CapabilityId_parse_id _ _ H) as ->. done.
  - intros [-> H]. done.
Qed.

Global Instance descriptor_exact :
  ExactCodec (λ v, wdesc_capabilities v ≠ []) ResourceDescriptor_try_from
    ResourceDescriptor_to_proto descriptor_wf.
Proof.
  intros [id ep q t props caps] [[id'] [ep'] q' t' [props'] [caps']].
  unfold ResourceDescriptor_try_from, ResourceDescriptor_to_proto, descriptor_wf. cbn. split.
  - intros [Hne H]. apply bind_Ok in H as (sel & Hsel & H).
    destruct (proj1 (exact_codec _ _) (conj I Hsel)) as [Heq Hwf].
    destruct sel as [[i] q0 t0]. unfold ResourceSelector_to_proto in Heq. cbn in Heq, H.
    injection Heq as -> -> ->. apply bind_Ok in H as (e & He%map_err_Ok & H).
    apply Endpoint_new_Ok in He as [? ->]. rewrite bool_decide_eq_false_2 in H by done.
    apply bind_Ok in H as (cs & Hcs & [= <- <- <- <- <- <-]).
    destruct (proj1 (exact_codec (ExactCodec := collect_exact _ _ _ _) caps cs)
      (conj (proj2 (Forall_forall (λ _ : string, True) caps) (λ _ _, I)) Hcs)) as [-> ?].
    split_and!; try lia; try done. by intros ->.
  - intros [[= -> -> -> -> -> ->] (Hid & Hep & Hne & Hcs)].
    split; [by destruct caps'|].
    destruct (codec_roundtrip _ _ _ _ (mkResourceSelector (mkResourceId id') q' t') Hid) as [Hsel _].
    unfold ResourceSelector_to_proto in Hsel. cbn in Hsel. rewrite Hsel. cbn [mbind result_bind].
    rewrite (proj2 (Endpoint_new_Ok ep' _) (conj Hep eq_refl)). cbn [map_err mbind result_bind].
    rewrite bool_decide_eq_false_2 by (by destruct caps').
    destruct (codec_roundtrip (Forall (λ _, True)) (collect (λ c : string, map_err
      (λ _, invalid_message "resource descriptor has an invalid capability") (CapabilityId_parse c)))
      (fmap CapabilityId_as_str) _ caps' Hcs) as [-> _]. done.
Qed.

(** ** Malformed messages are refused uniformly *)
Definition refuses_uniformly {M A} (decode : M → HalResult A) : Prop :=
  ∀ m e, decode m = Err e → ∃ message, e = invalid_message message.

Lemma uniform_bind {A B} (r : HalResult A) (f : A → HalResult B) e :
  (∀ e', r = Err e' → ∃ message, e' = invalid_message message) →
  (∀ x e', f x = Err e' → ∃ message, e' = invalid_message message) →
  (r ≫= f) = Err e → ∃ message, e = invalid_message message.
Proof. intros Hr Hf [He|(x & _ & He)]%bind_Err; eauto. Qed.

Lemma uniform_map_err {E A} (r : result E A) message e :
  map_err (λ _, invalid_message message) r = Err e → ∃ message, e = invalid_message message.
Proof. destruct r; [done|]. intros [= <-]. eauto. Qed.

Lemma uniform_ok_or {A} (o : option A) message e :
  ok_or (invalid_message message) o = Err e → ∃ message, e = invalid_message message.
Proof. destruct o; [done|]. intros [= <-]. eauto. Qed.

Lemma uniform_enum {A} `{ProtoEnum A} value field message e :
  enum_field (A:=A) value field (invalid_message message) = Err e →
  ∃ message, e = invalid_message message.
Proof.
  unfold enum_field. apply uniform_bind; [|intros x e'; apply uniform_ok_or].
  intros e'. unfold required_enum. repeat case_match; try done. intros [= <-]. eauto.
Qed.

Lemma uniform_collect {A B} (f : A → HalResult B) l e :
  refuses_uniformly f → collect f l = Err e → ∃ message, e = invalid_message message.
Proof.
  intros Hf. induction l as [|x l IH]; simpl; [done|].
  destruct (f x) eqn:Hx; [|intros [= <-]; by eapply Hf].
  destruct (collect f l); [done|]. intros [= <-]. by apply IH.
Qed.

Lemma uniform_transpose {A B} (f : A → HalResult B) o e :
  refuses_uniformly f → transpose f o = Err e → ∃ message, e = invalid_message message.
Proof.
  intros Hf. destruct o as [x|]; simpl; [|done].
  destruct (f x) eqn:Hx; [done|]. intros [= <-]. by eapply Hf.
Qed.

#[export] Hint Resolve uniform_map_err uniform_ok_or uniform_enum : hal.

(** Walk through a decoder: every early return is an invalid message. *)
Ltac uniform_step :=
  match goal with
  | |- Ok _ = Err _ → _ => discriminate
  | |- Err (invalid_message ?m) = Err _ → _ => intros [= <-]; exists m; reflexivity
  | |- (if ?c then _ else _) = Err _ → _ => destruct c
  | |- (match ?x with _ => _ end) = Err _ → _ => destruct x
  | |- (_ ≫= _) = Err _ → _ => apply uniform_bind; [intros ?|intros ? ?]
  | |- map_err (λ _, invalid_message _) _ = Err _ → _ => apply uniform_map_err
  | |- ok_or (invalid_message _) _ = Err _ → _ => apply uniform_ok_or
  | |- enum_field _ _ (invalid_message _) = Err _ → _ => apply uniform_enum
  | |- collect _ _ = Err _ → _ => apply uniform_collect; intros ? ?; cbn
  | |- transpose _ _ = Err _ → _ => apply uniform_transpose; intros ? ?; cbn
  end.
Ltac solve_uniform := intros ? ?; cbn; repeat uniform_step; try solve [eauto with hal].

Lemma selector_uniform : refuses_uniformly ResourceSelector_try_from.
Proof. unfold ResourceSelector_try_from. solve_uniform. Qed.
Lemma token_uniform : refuses_uniformly LeaseToken_try_from.
Proof. unfold LeaseToken_try_from. solve_uniform. Qed.
#[export] Hint Resolve selector_uniform token_uniform : hal.
Lemma parse_session_lease_uniform session_id lease e :
  parse_session_lease session_id lease = Err e → ∃ message, e = invalid_message message.
Proof. unfold parse_session_lease. repeat uniform_step. apply token_uniform. Qed.
#[export] Hint Resolve parse_session_lease_uniform : hal.

(** Decoding is exact for the messages every transport shares (resource selectors and
    descriptors, lease tokens, serial configurations, errors): a message is accepted
    exactly when it is the encoding of a well-formed value, which is the value returned.
    So values survive the wire, and each has a single encoding; in particular an error
    keeps its name, category, operation, codes, resource and context. *)
Theorem wire_core_exact :
  ExactCodec (λ _, True) ResourceSelector_try_from ResourceSelector_to_proto selector_wf ∧
  ExactCodec (λ v, wdesc_capabilities v ≠ []) ResourceDescriptor_try_from
    ResourceDescriptor_to_proto descriptor_wf ∧
  ExactCodec (λ _, True) LeaseToken_try_from LeaseToken_to_proto token_wf ∧
  ExactCodec serial_config_typed SerialConfig_try_from SerialConfig_to_proto serial_config_wf ∧
  ExactCodec (λ _, True) error_from_proto HalError_to_proto error_wf.
Proof. split_and!; apply _. Qed.

Lemma descriptor_uniform : refuses_uniformly ResourceDescriptor_try_from.
Proof. unfold ResourceDescriptor_try_from. solve_uniform. Qed.
Lemma serial_config_uniform : refuses_uniformly SerialConfig_try_from.
Proof. unfold SerialConfig_try_from. solve_uniform. Qed.
Lemma error_uniform : refuses_uniformly error_from_proto.
Proof. unfold error_from_proto. solve_uniform. Qed.
#[export] Hint Resolve descriptor_uniform serial_config_uniform error_uniform : hal.

(** Malformed peer input is refused uniformly: whatever a peer sends, a decoder of this
    file either succeeds or reports [runtime.protocol.invalid_message], an invalid-argument
    error that is not retryable and carries no peer-supplied details but its text. *)
Theorem wire_refusals_uniform :
  refuses_uniformly ResourceSelector_try_from ∧ refuses_uniformly ResourceDescriptor_try_from ∧
  refuses_uniformly LeaseToken_try_from ∧ refuses_uniformly SerialConfig_try_from ∧
  refuses_uniformly error_from_proto ∧ refuses_uniformly open_serial_request_from_proto ∧
  refuses_uniformly open_serial_response_from_proto ∧
  refuses_uniformly enumerate_serial_response_from_proto.
Proof.
  split_and!; [eauto with hal..| | |].
  - unfold open_serial_request_from_proto, serial_selector_from_proto. solve_uniform.
  - unfold open_serial_response_from_proto, parse_serial_session_lease. solve_uniform.
  - unfold enumerate_serial_response_from_proto. solve_uniform.
Qed.

(** Negotiation picks the greatest minor version that both ranges contain, and fails
    exactly when the majors differ or no minor is shared. *)
Theorem negotiate_protocol_minor_spec cM cmin cmax bM bmin bmax m :
  negotiate_protocol_minor cM cmin cmax bM bmin bmax = Ok m ↔
  cM = bM ∧ cmin <= m <= cmax ∧ bmin <= m <= bmax ∧
  ∀ m', cmin <= m' <= cmax → bmin <= m' <= bmax → m' <= m.
Proof.
  unfold negotiate_protocol_minor.
  destruct (_ || _) eqn:Hr.
  { split; [done|]. intros (_ & ? & ? & _).
    apply orb_prop in Hr as [Hr|Hr]; bool_simp; lia. }
  bool_simp. destruct (_ || _) eqn:Hs.
  - split; [intros (e & _ & [=])%bind_Ok|]. intros (-> & ? & ? & _).
    rewrite Z.eqb_refl in Hs. cbn in Hs. bool_simp. lia.
  - bool_simp. split.
    + intros [= <-]. split_and!; lia.
    + intros (-> & ? & ? & Hmax). f_equal.
      specialize (Hmax (Z.min cmax bmax)). lia.
Qed.
