(* ===== verification/WireCan.v ===== *)
(** * robot-hal-protocol: CAN messages

    Models crates/robot-hal-protocol/src/can_conversion.rs over the message types of
    proto/seeed/hal/v1/hal.proto, with the conventions of [WireCore]. *)

From S2P Require Import Prelude Core SerialRegistry CanTypes WireCore.

Definition wire_invalid (field detail : string) : HalError :=
  invalid_message (field +:+ " " +:+ detail).
Definition required {T} (value : option T) (field : string) : HalResult T :=
  ok_or (wire_invalid field "is required") value.

(** ** Enumerations *)
Inductive v1_CanFrameKind := KindClassicData | KindClassicRemote | KindFdData | KindError.
Global Program Instance CanFrameKind_proto : ProtoEnum v1_CanFrameKind := {|
  proto_number k := match k with KindClassicData => 1 | KindClassicRemote => 2 | KindFdData => 3
                    | KindError => 4 end;
  proto_of v := if v =? 1 then Some KindClassicData else if v =? 2 then Some KindClassicRemote
                else if v =? 3 then Some KindFdData else if v =? 4 then Some KindError else None;
|}.
Solve Obligations with solve_proto_enum.
Global Program Instance CanMode_proto : ProtoEnum CanMode := {|
  proto_number m := match m with Classic => 1 | Fd => 2 end;
  proto_of v := if v =? 1 then Some Classic else if v =? 2 then Some Fd else None;
|}.
Solve Obligations with solve_proto_enum.
Global Program Instance CanIdFormat_proto : ProtoEnum CanIdFormat := {|
  proto_number f := match f with FmtStandard => 1 | FmtExtended => 2 | FmtEither => 3 end;
  proto_of v := if v =? 1 then Some FmtStandard else if v =? 2 then Some FmtExtended
                else if v =? 3 then Some FmtEither else None;
|}.
Solve Obligations with solve_proto_enum.
Global Program Instance CanTimestampSource_proto : ProtoEnum CanTimestampSource := {|
  proto_number s := match s with Hardware => 1 | Kernel => 2 | HostMonotonic => 3 end;
  proto_of v := if v =? 1 then Some Hardware else if v =? 2 then Some Kernel
                else if v =? 3 then Some HostMonotonic else None;
|}.
Solve Obligations with solve_proto_enum.
Global Program Instance CanBusState_proto : ProtoEnum CanBusState := {|
  proto_number s := match s with BusActive => 1 | BusWarning => 2 | BusPassive => 3 | BusOff => 4
                    | BusStopped => 5 | BusUnknown => 6 end;
  proto_of v := if v =? 1 then Some BusActive else if v =? 2 then Some BusWarning
                else if v =? 3 then Some BusPassive else if v =? 4 then Some BusOff
                else if v =? 5 then Some BusStopped else if v =? 6 then Some BusUnknown else None;
|}.
Solve Obligations with solve_proto_enum.
Global Program Instance CanErrorClass_proto : ProtoEnum CanErrorClass := {|
  proto_number c := match c with TxTimeout => 1 | LostArbitration => 2 | Controller => 3
                    | Protocol => 4 | Transceiver => 5 | NoAcknowledgement => 6 | ClassBusOff => 7
                    | BusError => 8 | Restarted => 9 | ClassOther => 10 end;
  proto_of v := if v =? 1 then Some TxTimeout else if v =? 2 then Some LostArbitration
                else if v =? 3 then Some Controller else if v =? 4 then Some Protocol
                else if v =? 5 then Some Transceiver else if v =? 6 then Some NoAcknowledgement
                else if v =? 7 then Some ClassBusOff else if v =? 8 then Some BusError
                else if v =? 9 then Some Restarted else if v =? 10 then Some ClassOther else None;
|}.
Solve Obligations with solve_proto_enum.

Definition mode_from_proto (value : Z) (field : string) : HalResult CanMode :=
  enum_field value field (wire_invalid field "is required").
Definition lease_mode_from_proto (value : Z) (field : string) : HalResult LeaseMode :=
  enum_field value field (wire_invalid field "is required").
Definition error_class_from_proto (value : Z) : HalResult CanErrorClass :=
  enum_field value "can_frame.error_classes"
    (wire_invalid "can_frame.error_classes" "contains an unspecified value").
Definition error_class_to_proto (value : CanErrorClass) : Z := proto_number value.

(** ** Messages *)
Record v1_CanId := mk_v1_CanId { wid_value : Z; wid_format : Z }.
Record v1_CanFrame := mk_v1_CanFrame {
  wfr_id : option v1_CanId;
  wfr_kind : Z;
  wfr_data : list Z;
  wfr_remote_dlc : Z;
  wfr_bitrate_switch : bool;
  wfr_error_state_indicator : bool;
  wfr_error_classes : list Z;
}.
Record v1_CanTimestamp := mk_v1_CanTimestamp {
  wts_timestamp_ns : Z; wts_source : Z; wts_clock_domain : string }.
Record v1_ReceivedCanFrame := mk_v1_ReceivedCanFrame {
  wrf_frame : option v1_CanFrame; wrf_timestamp : option v1_CanTimestamp }.
Record v1_CanBitTiming := mk_v1_CanBitTiming {
  wbt_bitrate : Z; wbt_sample_point_permill : option Z; wbt_sjw : option Z }.
Record v1_CanLinkExpectation := mk_v1_CanLinkExpectation {
  wle_mode : option Z;
  wle_nominal_bitrate : option Z;
  wle_data_bitrate : option Z;
  wle_listen_only : option bool;
  wle_loopback : option bool;
}.
Record v1_CanConfigureConfig := mk_v1_CanConfigureConfig {
  wcc_mode : Z;
  wcc_nominal : option v1_CanBitTiming;
  wcc_data : option v1_CanBitTiming;
  wcc_listen_only : bool;
  wcc_loopback : bool;
  wcc_restart_ms : option Z;
}.
Inductive v1_CanOpenConfig_config :=
  | v1_Attach (value : v1_CanLinkExpectation)
  | v1_Configure (value : v1_CanConfigureConfig).
Record v1_CanOpenConfig := mk_v1_CanOpenConfig { woc_config : option v1_CanOpenConfig_config }.
Record v1_CanActiveConfig := mk_v1_CanActiveConfig {
  wac_mode : Z;
  wac_nominal : option v1_CanBitTiming;
  wac_data : option v1_CanBitTiming;
  wac_listen_only : bool;
  wac_loopback : bool;
  wac_clock_domain : string;
}.
Record v1_CanFrameClasses := mk_v1_CanFrameClasses {
  wfc_data : bool; wfc_remote : bool; wfc_error : bool }.
Record v1_CanFilter := mk_v1_CanFilter {
  wfl_id : Z; wfl_mask : Z; wfl_format : Z; wfl_classes : option v1_CanFrameClasses }.
Record v1_CanFilterSet := mk_v1_CanFilterSet { wfs_filters : list v1_CanFilter }.
Record v1_CanBusStatus := mk_v1_CanBusStatus {
  wbs_state : Z; wbs_tx_error_counter : option Z; wbs_rx_error_counter : option Z }.
Record v1_OpenCanRequest := mk_v1_OpenCanRequest {
  wor_selector : option v1_ResourceSelector;
  wor_mode : Z;
  wor_config : option v1_CanOpenConfig;
  wor_filters : option v1_CanFilterSet;
}.
Record v1_CanSendRequest := mk_v1_CanSendRequest {
  wsr_session_id : string; wsr_lease : option v1_LeaseToken; wsr_frames : list v1_CanFrame }.
Record v1_CanSendResponse := mk_v1_CanSendResponse {
  wsp_committed_count : Z; wsp_error : option v1_Error }.
Record v1_CanReceiveRequest := mk_v1_CanReceiveRequest {
  wrr_session_id : string;
  wrr_lease : option v1_LeaseToken;
  wrr_max_frames : Z;
  wrr_timeout_ms : Z;
}.
Record v1_ReplaceCanFiltersRequest := mk_v1_ReplaceCanFiltersRequest {
  wrp_session_id : string;
  wrp_lease : option v1_LeaseToken;
  wrp_filters : option v1_CanFilterSet;
}.

(** ** Frames *)
Definition CanId_try_from (value : v1_CanId) : HalResult CanId :=
  enum_field (wid_format value) "can_id.format" (wire_invalid "can_id.format" "is required")
  ≫= λ format : CanIdFormat,
  match format with
  | FmtStandard =>
      let bad := wire_invalid "can_id.value" "exceeds the standard ID range" in
      ok_or bad (try_from u16_max (wid_value value)) ≫= λ id,
      map_err (λ _, bad) (CanId_standard id)
  | FmtExtended =>
      map_err (λ _, wire_invalid "can_id.value" "exceeds the extended ID range")
        (CanId_extended (wid_value value))
  | FmtEither => Err (wire_invalid "can_id.format" "must be standard or extended for a frame")
  end.
Definition CanId_to_proto (value : CanId) : v1_CanId :=
  mk_v1_CanId (CanId_value value)
    (proto_number (if CanId_is_standard value then FmtStandard else FmtExtended)).

Definition CanFrame_try_from (value : v1_CanFrame) : HalResult CanFrame :=
  let incompatible detail := Err (wire_invalid "can_frame" detail) in
  let frame_id := required (wfr_id value) "can_frame.id" ≫= CanId_try_from in
  enum_field (wfr_kind value) "can_frame.kind" (wire_invalid "can_frame.kind" "is required")
  ≫= λ kind : v1_CanFrameKind,
  match kind with
  | KindClassicData =>
      if negb (wfr_remote_dlc value =? 0) || wfr_bitrate_switch value
         || wfr_error_state_indicator value || negb (bool_decide (wfr_error_classes value = []))
      then incompatible "has fields incompatible with classic data"
      else
        frame_id ≫= λ id,
        map_err (λ _, wire_invalid "can_frame.data" "exceeds the classic payload bound")
          (CanFrame_classic_data id (wfr_data value))
  | KindClassicRemote =>
      if negb (bool_decide (wfr_data value = [])) || wfr_bitrate_switch value
         || wfr_error_state_indicator value || negb (bool_decide (wfr_error_classes value = []))
      then incompatible "has fields incompatible with a classic remote frame"
      else
        let bad := wire_invalid "can_frame.remote_dlc" "exceeds the classic bound" in
        frame_id ≫= λ id,
        ok_or bad (try_from u8_max (wfr_remote_dlc value)) ≫= λ dlc,
        map_err (λ _, bad) (CanFrame_classic_remote id dlc)
  | KindFdData =>
      if negb (wfr_remote_dlc value =? 0) || negb (bool_decide (wfr_error_classes value = []))
      then incompatible "has fields incompatible with FD data"
      else
        frame_id ≫= λ id,
        map_err (λ _, wire_invalid "can_frame.data" "has an invalid FD payload length")
          (CanFrame_fd_data id (wfr_data value) (wfr_bitrate_switch value)
             (wfr_error_state_indicator value))
  | KindError =>
      if is_some (wfr_id value) || negb (wfr_remote_dlc value =? 0) || wfr_bitrate_switch value
         || wfr_error_state_indicator value
      then incompatible "has fields incompatible with an error frame"
      else
        collect error_class_from_proto (wfr_error_classes value) ≫= λ classes,
        map_err (λ _, wire_invalid "can_frame.error_classes/data"
                        "does not form a valid error frame")
          (CanFrame_error classes (wfr_data value))
  end.
Definition CanFrame_to_proto (value : CanFrame) : v1_CanFrame :=
  match value with
  | ClassicData id data =>
      mk_v1_CanFrame (Some (CanId_to_proto id)) (proto_number KindClassicData) data 0 false false []
  | ClassicRemote id dlc =>
      mk_v1_CanFrame (Some (CanId_to_proto id)) (proto_number KindClassicRemote) [] dlc false false []
  | FdData id data bitrate_switch error_state_indicator =>
      mk_v1_CanFrame (Some (CanId_to_proto id)) (proto_number KindFdData) data 0 bitrate_switch
        error_state_indicator []
  | ErrorFrame classes data =>
      mk_v1_CanFrame None (proto_number KindError) data 0 false false
        (error_class_to_proto <$> classes)
  end.

Definition CanTimestamp_try_from (value : v1_CanTimestamp) : HalResult CanTimestamp :=
  enum_field (wts_source value) "can_timestamp.source"
    (wire_invalid "can_timestamp.source" "is required") ≫= λ source,
  map_err (λ _, wire_invalid "can_timestamp.clock_domain" "is invalid")
    (CanTimestamp_new (wts_timestamp_ns value) source (wts_clock_domain value)).
Definition CanTimestamp_to_proto (value : CanTimestamp) : v1_CanTimestamp :=
  mk_v1_CanTimestamp (timestamp_ns value) (proto_number (timestamp_source value))
    (clock_domain value).

Definition ReceivedCanFrame_try_from (value : v1_ReceivedCanFrame) : HalResult ReceivedCanFrame :=
  required (wrf_frame value) "received_can_frame.frame" ≫= λ frame,
  CanFrame_try_from frame ≫= λ frame,
  transpose CanTimestamp_try_from (wrf_timestamp value) ≫= λ timestamp,
  Ok (mkReceivedCanFrame frame timestamp).
Definition ReceivedCanFrame_to_proto (value : ReceivedCanFrame) : v1_ReceivedCanFrame :=
  mk_v1_ReceivedCanFrame (Some (CanFrame_to_proto (rcv_frame value)))
    (CanTimestamp_to_proto <$> rcv_timestamp value).

(** ** Configurations *)
Definition CanBitTiming_try_from (value : v1_CanBitTiming) : HalResult CanBitTiming :=
  transpose (λ v, ok_or (wire_invalid "can_bit_timing.sample_point_permill" "is out of range")
                    (try_from u16_max v)) (wbt_sample_point_permill value) ≫= λ sample,
  transpose (λ v, ok_or (wire_invalid "can_bit_timing.sjw" "is out of range")
                    (try_from u16_max v)) (wbt_sjw value) ≫= λ width,
  map_err (λ _, wire_invalid "can_bit_timing" "contains invalid timing values")
    (CanBitTiming_new (wbt_bitrate value) sample width).
Definition CanBitTiming_to_proto (value : CanBitTiming) : v1_CanBitTiming :=
  mk_v1_CanBitTiming (bitrate value) (sample_point_permill value) (sjw value).

Definition CanLinkExpectation_try_from (value : v1_CanLinkExpectation)
    : HalResult CanLinkExpectation :=
  transpose (λ v, mode_from_proto v "can_link_expectation.mode") (wle_mode value) ≫= λ mode,
  map_err (λ _, wire_invalid "can_link_expectation" "contains inconsistent expectations")
    (CanLinkExpectation_new mode (wle_nominal_bitrate value) (wle_data_bitrate value)
       (wle_listen_only value) (wle_loopback value)).
Definition CanLinkExpectation_to_proto (value : CanLinkExpectation) : v1_CanLinkExpectation :=
  mk_v1_CanLinkExpectation (proto_number <$> exp_mode value) (exp_nominal_bitrate value)
    (exp_data_bitrate value) (exp_listen_only value) (exp_loopback value).

Definition CanConfigureConfig_try_from (value : v1_CanConfigureConfig)
    : HalResult CanConfigureConfig :=
  mode_from_proto (wcc_mode value) "can_configure_config.mode" ≫= λ mode,
  required (wcc_nominal value) "can_configure_config.nominal" ≫= λ nominal,
  CanBitTiming_try_from nominal ≫= λ nominal,
  transpose CanBitTiming_try_from (wcc_data value) ≫= λ data,
  map_err (λ _, wire_invalid "can_configure_config" "is inconsistent")
    (CanConfigureConfig_new_with_restart mode nominal data (wcc_listen_only value)
       (wcc_loopback value) (wcc_restart_ms value)).
Definition CanConfigureConfig_to_proto (value : CanConfigureConfig) : v1_CanConfigureConfig :=
  mk_v1_CanConfigureConfig (proto_number (cfg_mode value))
    (Some (CanBitTiming_to_proto (cfg_nominal value)))
    (CanBitTiming_to_proto <$> cfg_data value) (cfg_listen_only value) (cfg_loopback value)
    (cfg_restart_ms value).

Definition CanOpenConfig_try_from (value : v1_CanOpenConfig) : HalResult CanOpenConfig :=
  required (woc_config value) "can_open_config.config" ≫= λ config,
  match config with
  | v1_Attach value => Attach <$> CanLinkExpectation_try_from value
  | v1_Configure value => Configure <$> CanConfigureConfig_try_from value
  end.
Definition CanOpenConfig_to_proto (value : CanOpenConfig) : v1_CanOpenConfig :=
  mk_v1_CanOpenConfig (Some
    match value with
    | Attach value => v1_Attach (CanLinkExpectation_to_proto value)
    | Configure value => v1_Configure (CanConfigureConfig_to_proto value)
    end).

Definition CanActiveConfig_try_from (value : v1_CanActiveConfig) : HalResult CanActiveConfig :=
  mode_from_proto (wac_mode value) "can_active_config.mode" ≫= λ mode,
  required (wac_nominal value) "can_active_config.nominal" ≫= λ nominal,
  CanBitTiming_try_from nominal ≫= λ nominal,
  transpose CanBitTiming_try_from (wac_data value) ≫= λ data,
  map_err (λ _, wire_invalid "can_active_config" "is inconsistent or has an invalid domain")
    (CanActiveConfig_new mode nominal data (wac_listen_only value) (wac_loopback value)
       (wac_clock_domain value)).
Definition CanActiveConfig_to_proto (value : CanActiveConfig) : v1_CanActiveConfig :=
  mk_v1_CanActiveConfig (proto_number (act_mode value))
    (Some (CanBitTiming_to_proto (act_nominal value)))
    (CanBitTiming_to_proto <$> act_data value) (act_listen_only value) (act_loopback value)
    (act_clock_domain value).

(** ** Filters and status *)
Definition CanFrameClasses_to_proto (value : CanFrameClasses) : v1_CanFrameClasses :=
  mk_v1_CanFrameClasses (cls_data value) (cls_remote value) (cls_error value).
Definition CanFrameClasses_from (value : v1_CanFrameClasses) : CanFrameClasses :=
  mkCanFrameClasses (wfc_data value) (wfc_remote value) (wfc_error value).

Definition CanFilter_try_from (value : v1_CanFilter) : HalResult CanFilter :=
  enum_field (wfl_format value) "can_filter.format" (wire_invalid "can_filter.format" "is required")
  ≫= λ format,
  required (wfl_classes value) "can_filter.classes" ≫= λ classes,
  map_err (λ _, wire_invalid "can_filter" "contains invalid bounds or frame classes")
    (CanFilter_new (wfl_id value) (wfl_mask value) format (CanFrameClasses_from classes)).
Definition CanFilter_to_proto (value : CanFilter) : v1_CanFilter :=
  mk_v1_CanFilter (filter_id value) (filter_mask value) (proto_number (filter_format value))
    (Some (CanFrameClasses_to_proto (filter_classes value))).

Definition CanFilterSet_try_from (value : v1_CanFilterSet) : HalResult CanFilterSet :=
  if MAX_CAN_FILTERS <? len (wfs_filters value) then
    Err (wire_invalid "can_filter_set.filters" "exceeds the 64-filter bound")
  else
    collect CanFilter_try_from (wfs_filters value) ≫= λ filters,
    map_err (λ _, wire_invalid "can_filter_set.filters" "is invalid") (CanFilterSet_new filters).
Definition CanFilterSet_to_proto (value : CanFilterSet) : v1_CanFilterSet :=
  mk_v1_CanFilterSet (CanFilter_to_proto <$> CanFilterSet_as_slice value).

Definition CanBusStatus_try_from (value : v1_CanBusStatus) : HalResult CanBusStatus :=
  enum_field (wbs_state value) "can_bus_status.state"
    (wire_invalid "can_bus_status.state" "is required") ≫= λ state,
  Ok (mkCanBusStatus state (wbs_tx_error_counter value) (wbs_rx_error_counter value)).
Definition CanBusStatus_to_proto (value : CanBusStatus) : v1_CanBusStatus :=
  mk_v1_CanBusStatus (proto_number (bus_state value)) (tx_error_counter value)
    (rx_error_counter value).

(** ** Requests and responses *)
Definition enumerate_can_response_from_proto (resources : list v1_ResourceDescriptor)
    : HalResult (list ResourceDescriptor) :=
  collect (λ value,
    ResourceDescriptor_try_from value ≫= λ descriptor,
    if bool_decide (desc_transport descriptor ≠ Can)
    then Err (wire_invalid "enumerate_can.resources.transport" "must be CAN")
    else Ok descriptor) resources.

Definition open_can_request_from_proto (value : v1_OpenCanRequest)
    : HalResult (ResourceSelector * LeaseMode * CanOpenConfig * CanFilterSet) :=
  required (wor_selector value) "open_can.selector" ≫= λ selector,
  ResourceSelector_try_from selector ≫= λ selector,
  if bool_decide (sel_transport selector ≠ Can) then
    Err (wire_invalid "open_can.selector.transport" "must be CAN")
  else
    lease_mode_from_proto (wor_mode value) "open_can.mode" ≫= λ mode,
    required (wor_config value) "open_can.config" ≫= λ config,
    CanOpenConfig_try_from config ≫= λ config,
    required (wor_filters value) "open_can.filters" ≫= λ filters,
    CanFilterSet_try_from filters ≫= λ filters,
    Ok (selector, mode, config, filters).
Definition open_can_response_from_proto (value : v1_SessionLease) (expected_mode : LeaseMode)
    : HalResult (SessionId * LeaseToken) :=
  parse_session_lease (wsl_session_id value) (wsl_lease value) ≫= λ '(session, lease),
  if bool_decide (token_mode lease ≠ expected_mode) then
    Err (wire_invalid "open_can_response.lease.mode" "does not match the requested mode")
  else Ok (session, lease).

Definition in_batch (n : Z) : bool := (1 <=? n) && (n <=? MAX_CAN_BATCH_FRAMES).
Definition send_can_frames_from_proto (value : list v1_CanFrame) : HalResult (list CanFrame) :=
  if negb (in_batch (len value)) then
    Err (wire_invalid "can_send.frames" "must contain 1..=64 frames")
  else collect CanFrame_try_from value.
Definition can_send_request_from_proto (value : v1_CanSendRequest)
    : HalResult (SessionId * LeaseToken * list CanFrame) :=
  parse_session_lease (wsr_session_id value) (wsr_lease value) ≫= λ '(session, lease),
  send_can_frames_from_proto (wsr_frames value) ≫= λ frames,
  Ok (session, lease, frames).

Definition validate_input_count (input_count : Z) : HalResult unit :=
  if negb (in_batch input_count) then Err (wire_invalid "can_send.input_count" "must be 1..=64")
  else Ok ().
Definition can_send_response_from_proto (value : v1_CanSendResponse) (input_count : Z)
    : HalResult (result CanBatchSendError unit) :=
  validate_input_count input_count ≫= λ _,
  let committed := wsp_committed_count value in
  match wsp_error value with
  | None =>
      if committed =? input_count then Ok (Ok ())
      else Err (wire_invalid "can_send_response.committed_count"
                  "must equal the input count when error is absent")
  | Some error =>
      if committed <? input_count then
        error_from_proto error ≫= λ error,
        Ok (Err (CanBatchSendError_backend_prefix error committed))
      else Err (wire_invalid "can_send_response.committed_count"
                  "must be a strict input prefix when error is present")
  end.
Definition can_send_response_to_proto (outcome : result CanBatchSendError unit) (input_count : Z)
    : HalResult v1_CanSendResponse :=
  validate_input_count input_count ≫= λ _,
  match outcome with
  | Ok _ => Ok (mk_v1_CanSendResponse input_count None)
  | Err error =>
      if batch_committed error <? input_count then
        Ok (mk_v1_CanSendResponse (batch_committed error)
              (Some (HalError_to_proto (batch_error error))))
      else Err (wire_invalid "can_send_response.committed_count"
                  "must be a strict input prefix when error is present")
  end.

Definition can_receive_parameters (max_frames timeout_ms : Z) : HalResult (Z * Z) :=
  if negb (in_batch max_frames) then Err (wire_invalid "can_receive.max_frames" "must be 1..=64")
  else Ok (max_frames, from_millis timeout_ms).
Definition can_receive_request_from_proto (value : v1_CanReceiveRequest)
    : HalResult (SessionId * LeaseToken * Z * Z) :=
  parse_session_lease (wrr_session_id value) (wrr_lease value) ≫= λ '(session, lease),
  can_receive_parameters (wrr_max_frames value) (wrr_timeout_ms value) ≫= λ '(max_frames, timeout),
  Ok (session, lease, max_frames, timeout).
Definition received_can_frames_from_proto (value : list v1_ReceivedCanFrame) (requested_max : Z)
    : HalResult (list ReceivedCanFrame) :=
  if negb (in_batch requested_max) then
    Err (wire_invalid "can_receive.requested_max" "must be 1..=64")
  else if requested_max <? len value then
    Err (wire_invalid "can_receive_response.frames" "exceeds the requested maximum")
  else collect ReceivedCanFrame_try_from value.
Definition can_receive_response_from_proto (frames : list v1_ReceivedCanFrame)
    (requested_max : Z) : HalResult (list ReceivedCanFrame) :=
  received_can_frames_from_proto frames requested_max.
Definition replace_can_filters_request_from_proto (value : v1_ReplaceCanFiltersRequest)
    : HalResult (SessionId * LeaseToken * CanFilterSet) :=
  parse_session_lease (wrp_session_id value) (wrp_lease value) ≫= λ '(session, lease),
  required (wrp_filters value) "replace_can_filters.filters" ≫= λ filters,
  CanFilterSet_try_from filters ≫= λ filters,
  Ok (session, lease, filters).
Definition get_can_bus_status_request_from_proto (value : v1_SessionLease)
    : HalResult (SessionId * LeaseToken) :=
  parse_session_lease (wsl_session_id value) (wsl_lease value).
Definition get_can_bus_status_response_from_proto (status : option v1_CanBusStatus)
    : HalResult CanBusStatus :=
  required status "get_can_bus_status.status" ≫= CanBusStatus_try_from.

(** ** Exactness

    A value is well formed on the wire when the validating constructor of its type
    returns it. *)
Definition id_wf (id : CanId) : Prop := validate_id id = Ok ().
Definition frame_wf (f : CanFrame) : Prop := CanFrame_validate f = Ok ().
Definition timestamp_wf (t : CanTimestamp) : Prop :=
  CanTimestamp_new (timestamp_ns t) (timestamp_source t) (clock_domain t) = Ok t.
Definition received_wf (r : ReceivedCanFrame) : Prop :=
  frame_wf (rcv_frame r) ∧ ∀ t, rcv_timestamp r = Some t → timestamp_wf t.
Definition timing_wf (t : CanBitTiming) : Prop :=
  CanBitTiming_new (bitrate t) (sample_point_permill t) (sjw t) = Ok t ∧
  ∀ w, sjw t = Some w → w <= u16_max.
Definition expectation_wf (e : CanLinkExpectation) : Prop :=
  CanLinkExpectation_new (exp_mode e) (exp_nominal_bitrate e) (exp_data_bitrate e)
    (exp_listen_only e) (exp_loopback e) = Ok e.
Definition configure_wf (c : CanConfigureConfig) : Prop :=
  timing_wf (cfg_nominal c) ∧ (∀ t, cfg_data c = Some t → timing_wf t) ∧
  CanConfigureConfig_new_with_restart (cfg_mode c) (cfg_nominal c) (cfg_data c)
    (cfg_listen_only c) (cfg_loopback c) (cfg_restart_ms c) = Ok c.
Definition open_config_wf (c : CanOpenConfig) : Prop :=
  match c with Attach e => expectation_wf e | Configure c => configure_wf c end.
Definition active_wf (c : CanActiveConfig) : Prop :=
  timing_wf (act_nominal c) ∧ (∀ t, act_data c = Some t → timing_wf t) ∧
  CanActiveConfig_new (act_mode c) (act_nominal c) (act_data c)
    (act_listen_only c) (act_loopback c) (act_clock_domain c) = Ok c.
Definition filter_wf (f : CanFilter) : Prop :=
  CanFilter_new (filter_id f) (filter_mask f) (filter_format f) (filter_classes f) = Ok f.
Definition filter_set_wf (s : CanFilterSet) : Prop :=
  len (CanFilterSet_as_slice s) <= MAX_CAN_FILTERS ∧ Forall filter_wf (CanFilterSet_as_slice s).

(** The constructors store their arguments. *)
Lemma CanId_standard_Ok v id :
  CanId_standard v = Ok id ↔ v <= 0x7ff ∧ id = IdStandard v.
Proof. unfold CanId_standard. case_match; bool_simp; naive_solver lia. Qed.
Lemma CanId_extended_Ok v id :
  CanId_extended v = Ok id ↔ v <= 0x1fffffff ∧ id = IdExtended v.
Proof. unfold CanId_extended. case_match; bool_simp; naive_solver lia. Qed.
Lemma required_Ok {T} (o : option T) field x : required o field = Ok x ↔ o = Some x.
Proof. apply ok_or_Ok. Qed.
Ltac solve_new := intros; unfold CanTimestamp_new, CanBitTiming_new, CanLinkExpectation_new,
  CanConfigureConfig_new_with_restart, CanActiveConfig_new, CanFilter_new in *;
  repeat case_match; simplify_eq; reflexivity.
Lemma CanTimestamp_new_eq n s d t : CanTimestamp_new n s d = Ok t → t = mkCanTimestamp n s d.
Proof. solve_new. Qed.
Lemma CanBitTiming_new_eq r s w t : CanBitTiming_new r s w = Ok t → t = mkCanBitTiming r s w.
Proof. solve_new. Qed.
Lemma CanLinkExpectation_new_eq m n d l b e :
  CanLinkExpectation_new m n d l b = Ok e → e = mkCanLinkExpectation m n d l b.
Proof. solve_new. Qed.
Lemma CanConfigureConfig_new_eq m n d l b r c :
  CanConfigureConfig_new_with_restart m n d l b r = Ok c → c = mkCanConfigureConfig m n d l b r.
Proof. solve_new. Qed.
Lemma CanActiveConfig_new_eq m n d l b k c :
  CanActiveConfig_new m n d l b k = Ok c → c = mkCanActiveConfig m n d l b k.
Proof. solve_new. Qed.
Lemma CanFilter_new_eq i m f c r : CanFilter_new i m f c = Ok r → r = mkCanFilter i m f c.
Proof. solve_new. Qed.
Lemma CanFrameClasses_roundtrip c : CanFrameClasses_from (CanFrameClasses_to_proto c) = c.
Proof. by destruct c. Qed.


Global Instance mode_exact field :
  ExactCodec (λ _, True) (λ v, mode_from_proto v field) proto_number (λ _, True).
Proof.
  apply exact_intro; [intros m a H%enum_field_Ok; done|intros a _; apply enum_field_proto].
Qed.
Global Instance error_class_exact :
  ExactCodec (λ _, True) error_class_from_proto error_class_to_proto (λ _, True).
Proof.
  apply exact_intro; [intros m a H%enum_field_Ok; done|intros a _; apply enum_field_proto].
Qed.

Global Instance id_exact : ExactCodec (λ _, True) CanId_try_from CanId_to_proto id_wf.
Proof.
  apply exact_intro.
  - intros [v f] id H. unfold CanId_try_from in H. cbn in H.
    apply bind_Ok in H as ([] & ->%enum_field_Ok & H); [..|done].
    + apply bind_Ok in H as (x & [Hv ->]%try_from_Ok & [? ->]%map_err_Ok%CanId_standard_Ok).
      split; [done|]. unfold id_wf. simpl. case_match; [done|]. bool_simp. lia.
    + apply map_err_Ok, CanId_extended_Ok in H as [? ->].
      split; [done|]. unfold id_wf. simpl. case_match; [done|]. bool_simp. lia.
  - intros [v|v] Hwf; unfold id_wf in Hwf; simpl in Hwf; case_match; try done; bool_simp;
      unfold CanId_try_from, CanId_to_proto; cbn [wid_value wid_format CanId_value CanId_is_standard];
      rewrite enum_field_proto; cbn [mbind result_bind].
    + rewrite (proj2 (try_from_Ok _ u16_max v v)) by (split; [unfold u16_max; lia|done]).
      cbn [mbind result_bind]. by rewrite (proj2 (CanId_standard_Ok v (IdStandard v))).
    + by rewrite (proj2 (CanId_extended_Ok v (IdExtended v))).
Qed.

Lemma CanFrame_rebuild_Ok f g : CanFrame_rebuild f = Ok g ↔ g = f ∧ frame_wf f.
Proof.
  unfold frame_wf. destruct f as [id data|id dlc|id data brs esi|classes data]; simpl;
    unfold CanFrame_classic_data, CanFrame_classic_remote, CanFrame_fd_data, CanFrame_error;
    try (destruct (validate_id id) as [[]|]; simpl; [|naive_solver]);
    repeat case_match; naive_solver.
Qed.
Lemma frame_wf_id f id : CanFrame_id f = Some id → frame_wf f → id_wf id.
Proof.
  unfold frame_wf, id_wf. destruct f; simpl; intros [= ->]; by destruct (validate_id id) as [[]|].
Qed.

Lemma frame_decode v f : CanFrame_try_from v = Ok f → v = CanFrame_to_proto f ∧ frame_wf f.
Proof.
  destruct v as [id k data dlc brs esi classes]. unfold CanFrame_try_from. cbn. intros H.
  apply bind_Ok in H as ([] & ->%enum_field_Ok & H); case_match; try done; bool_simp.
  - apply bind_Ok in H as (i & Hi & H). apply bind_Ok in Hi as (? & ->%required_Ok & Hi).
    destruct (exact_decode _ _ _ _ _ Hi) as [-> _].
    apply map_err_Ok, (CanFrame_rebuild_Ok (ClassicData i data)) in H as [-> ?]. by subst.
  - apply bind_Ok in H as (i & Hi & H). apply bind_Ok in Hi as (? & ->%required_Ok & Hi).
    destruct (exact_decode _ _ _ _ _ Hi) as [-> _].
    apply bind_Ok in H as (d & [_ ->]%try_from_Ok & H).
    apply map_err_Ok, (CanFrame_rebuild_Ok (ClassicRemote i dlc)) in H as [-> ?]. by subst.
  - apply bind_Ok in H as (i & Hi & H). apply bind_Ok in Hi as (? & ->%required_Ok & Hi).
    destruct (exact_decode _ _ _ _ _ Hi) as [-> _].
    apply map_err_Ok, (CanFrame_rebuild_Ok (FdData i data brs esi)) in H as [-> ?]. by subst.
  - destruct id; [done|]. apply bind_Ok in H as (cs & Hc & H).
    pose proof (exact_collect error_class_from_proto error_class_to_proto (λ _, True)) as HC.
    destruct (exact_decode _ _ _ _ _ Hc) as [-> _].
    apply map_err_Ok, (CanFrame_rebuild_Ok (ErrorFrame cs data)) in H as [-> ?]. by subst.
Qed.

Lemma rebuild_wf f : frame_wf f → CanFrame_rebuild f = Ok f.
Proof. intros H. by apply CanFrame_rebuild_Ok. Qed.
Lemma frame_encode f : frame_wf f → CanFrame_try_from (CanFrame_to_proto f) = Ok f.
Proof.
  intros Hwf. pose proof (rebuild_wf _ Hwf) as Hr. pose proof (λ id H, frame_wf_id f id H Hwf) as Hid.
  destruct f as [id data|id dlc|id data brs esi|classes data]; unfold CanFrame_try_from;
    cbn [CanFrame_to_proto wfr_id wfr_kind wfr_data wfr_remote_dlc wfr_bitrate_switch
      wfr_error_state_indicator wfr_error_classes];
    rewrite enum_field_proto; cbn [mbind result_bind negb orb Z.eqb required ok_or is_some];
    rewrite ?(bool_decide_eq_true_2 ([] = [])) by done; cbn [negb orb];
    try (rewrite (exact_encode CanId_try_from CanId_to_proto id_wf id) by (by apply Hid));
    cbn [mbind result_bind].
  - cbn in Hr. by rewrite Hr.
  - assert (dlc <= u8_max) as Hd.
    { unfold frame_wf in Hwf. cbn in Hwf. apply bind_Ok in Hwf as (? & _ & H).
      case_match; [done|]. bool_simp. unfold MAX_CLASSIC_DATA_BYTES in *. unfold u8_max. lia. }
    rewrite (proj2 (try_from_Ok _ u8_max dlc dlc)) by done. cbn [mbind result_bind].
    cbn in Hr. by rewrite Hr.
  - cbn in Hr. by rewrite Hr.
  - pose proof (exact_collect error_class_from_proto error_class_to_proto (λ _, True)) as HC.
    rewrite (exact_encode _ _ _ classes) by (by apply Forall_forall). cbn [mbind result_bind].
    cbn in Hr. by rewrite Hr.
Qed.
Global Instance frame_exact : ExactCodec (λ _, True) CanFrame_try_from CanFrame_to_proto frame_wf.
Proof. apply exact_intro; [apply frame_decode|apply frame_encode]. Qed.

Global Instance timestamp_exact :
  ExactCodec (λ _, True) CanTimestamp_try_from CanTimestamp_to_proto timestamp_wf.
Proof.
  apply exact_intro.
  - intros [n s d] t H. unfold CanTimestamp_try_from in H. cbn in H.
    apply bind_Ok in H as (src & ->%enum_field_Ok & H%map_err_Ok).
    pose proof (CanTimestamp_new_eq _ _ _ _ H) as ->. done.
  - intros t Hwf. unfold CanTimestamp_try_from, CanTimestamp_to_proto. cbn -[CanTimestamp_new].
    rewrite enum_field_proto. cbn [mbind result_bind]. by rewrite Hwf.
Qed.

Global Instance received_exact :
  ExactCodec (λ _, True) ReceivedCanFrame_try_from ReceivedCanFrame_to_proto received_wf.
Proof.
  pose proof (exact_transpose CanTimestamp_try_from CanTimestamp_to_proto timestamp_wf) as HT.
  apply exact_intro.
  - intros [f t] r H. unfold ReceivedCanFrame_try_from in H. cbn in H.
    apply bind_Ok in H as (f' & ->%required_Ok & H). apply bind_Ok in H as (f & Hf & H).
    apply bind_Ok in H as (ts & Ht & [= <-]).
    destruct (exact_decode _ _ _ _ _ Hf) as [-> ?]. destruct (exact_decode _ _ _ _ _ Ht) as [-> ?].
    done.
  - intros [f t] [Hf Ht]. unfold ReceivedCanFrame_try_from, ReceivedCanFrame_to_proto.
    cbn [wrf_frame wrf_timestamp rcv_frame rcv_timestamp required ok_or mbind result_bind].
    rewrite (exact_encode CanFrame_try_from _ _ f) by done. cbn [mbind result_bind].
    by rewrite (exact_encode (transpose CanTimestamp_try_from) _ _ t Ht).
Qed.

Lemma optional_u16 (e : HalError) (o o' : option Z) :
  transpose (λ v, ok_or e (try_from u16_max v)) o = Ok o' ↔
  o' = o ∧ ∀ v, o = Some v → v <= u16_max.
Proof.
  destruct o as [v|]; simpl; [|naive_solver].
  unfold try_from. destruct (v <=? u16_max) eqn:Hv; simpl; bool_simp.
  - split; [intros [= <-]; split; [done|]; intros ? [= <-]; done|]. by intros [-> _].
  - split; [done|]. intros [_ H]. specialize (H v eq_refl). lia.
Qed.
Global Instance timing_exact :
  ExactCodec (λ _, True) CanBitTiming_try_from CanBitTiming_to_proto timing_wf.
Proof.
  apply exact_intro.
  - intros [r s w] t H. unfold CanBitTiming_try_from in H. cbn in H.
    apply bind_Ok in H as (s' & [-> _]%optional_u16 & H).
    apply bind_Ok in H as (w' & [-> Hw]%optional_u16 & H%map_err_Ok).
    pose proof (CanBitTiming_new_eq _ _ _ _ H) as ->. done.
  - intros [r s w] [Hn Hw]. unfold CanBitTiming_try_from, CanBitTiming_to_proto. cbn in Hn, Hw.
    cbn [wbt_bitrate wbt_sample_point_permill wbt_sjw bitrate sample_point_permill sjw].
    assert (∀ v, s = Some v → v <= u16_max) as Hs.
    { intros v ->. unfold CanBitTiming_new in Hn. simpl in Hn. repeat case_match; try done.
      bool_simp. unfold u16_max. lia. }
    rewrite (proj2 (optional_u16 _ s s) (conj eq_refl Hs)). cbn [mbind result_bind].
    rewrite (proj2 (optional_u16 _ w w) (conj eq_refl Hw)). cbn [mbind result_bind].
    by rewrite Hn.
Qed.

Global Instance expectation_exact :
  ExactCodec (λ _, True) CanLinkExpectation_try_from CanLinkExpectation_to_proto expectation_wf.
Proof.
  pose proof (exact_transpose (λ v, mode_from_proto v "can_link_expectation.mode")
    proto_number (λ _, True)) as HM.
  apply exact_intro.
  - intros [m n d l b] e H. unfold CanLinkExpectation_try_from in H. cbn in H.
    apply bind_Ok in H as (m' & Hm & H%map_err_Ok).
    destruct (exact_decode _ _ _ _ _ Hm) as [-> _].
    pose proof (CanLinkExpectation_new_eq _ _ _ _ _ _ H) as ->. done.
  - intros e Hwf. unfold CanLinkExpectation_try_from, CanLinkExpectation_to_proto.
    cbn [wle_mode wle_nominal_bitrate wle_data_bitrate wle_listen_only wle_loopback].
    rewrite (exact_encode _ _ _ (exp_mode e)) by done. cbn [mbind result_bind]. by rewrite Hwf.
Qed.

Global Instance configure_exact :
  ExactCodec (λ _, True) CanConfigureConfig_try_from CanConfigureConfig_to_proto configure_wf.
Proof.
  pose proof (exact_transpose CanBitTiming_try_from CanBitTiming_to_proto timing_wf) as HT.
  apply exact_intro.
  - intros [m n d l b r] c H. unfold CanConfigureConfig_try_from in H. cbn in H.
    apply bind_Ok in H as (m' & ->%enum_field_Ok & H). apply bind_Ok in H as (? & ->%required_Ok & H).
    apply bind_Ok in H as (n' & Hn & H). apply bind_Ok in H as (d' & Hd & H%map_err_Ok).
    destruct (exact_decode _ _ _ _ _ Hn) as [-> ?]. destruct (exact_decode _ _ _ _ _ Hd) as [-> ?].
    pose proof (CanConfigureConfig_new_eq _ _ _ _ _ _ _ H) as ->. done.
  - intros c (Hn & Hd & Hc). unfold CanConfigureConfig_try_from, CanConfigureConfig_to_proto.
    cbn [wcc_mode wcc_nominal wcc_data wcc_listen_only wcc_loopback wcc_restart_ms].
    unfold mode_from_proto. rewrite enum_field_proto. cbn [mbind result_bind required ok_or].
    rewrite (exact_encode CanBitTiming_try_from _ _ (cfg_nominal c)) by done.
    cbn [mbind result_bind]. rewrite (exact_encode (transpose _) _ _ (cfg_data c) Hd).
    cbn [mbind result_bind]. by rewrite Hc.
Qed.

Global Instance active_exact :
  ExactCodec (λ _, True) CanActiveConfig_try_from CanActiveConfig_to_proto active_wf.
Proof.
  pose proof (exact_transpose CanBitTiming_try_from CanBitTiming_to_proto timing_wf) as HT.
  apply exact_intro.
  - intros [m n d l b r] c H. unfold CanActiveConfig_try_from in H. cbn in H.
    apply bind_Ok in H as (m' & ->%enum_field_Ok & H). apply bind_Ok in H as (? & ->%required_Ok & H).
    apply bind_Ok in H as (n' & Hn & H). apply bind_Ok in H as (d' & Hd & H%map_err_Ok).
    destruct (exact_decode _ _ _ _ _ Hn) as [-> ?]. destruct (exact_decode _ _ _ _ _ Hd) as [-> ?].
    pose proof (CanActiveConfig_new_eq _ _ _ _ _ _ _ H) as ->. done.
  - intros c (Hn & Hd & Hc). unfold CanActiveConfig_try_from, CanActiveConfig_to_proto.
    cbn [wac_mode wac_nominal wac_data wac_listen_only wac_loopback wac_clock_domain].
    unfold mode_from_proto. rewrite enum_field_proto. cbn [mbind result_bind required ok_or].
    rewrite (exact_encode CanBitTiming_try_from _ _ (act_nominal c)) by done.
    cbn [mbind result_bind]. rewrite (exact_encode (transpose _) _ _ (act_data c) Hd).
    cbn [mbind result_bind]. by rewrite Hc.
Qed.

Global Instance open_config_exact :
  ExactCodec (λ _, True) CanOpenConfig_try_from CanOpenConfig_to_proto open_config_wf.
Proof.
  apply exact_intro.
  - intros [o] c H. unfold CanOpenConfig_try_from in H. cbn in H.
    apply bind_Ok in H as ([v|v] & ->%required_Ok & H).
    + destruct (CanLinkExpectation_try_from v) as [e|] eqn:He; [|done]. injection H as <-.
      by destruct (exact_decode _ _ _ _ _ He) as [-> ?].
    + destruct (CanConfigureConfig_try_from v) as [e|] eqn:He; [|done]. injection H as <-.
      by destruct (exact_decode _ _ _ _ _ He) as [-> ?].
  - intros [e|c] Hwf; cbn -[CanLinkExpectation_try_from CanConfigureConfig_try_from].
    + by rewrite (exact_encode CanLinkExpectation_try_from _ _ e Hwf).
    + by rewrite (exact_encode CanConfigureConfig_try_from _ _ c Hwf).
Qed.

Global Instance filter_exact :
  ExactCodec (λ _, True) CanFilter_try_from CanFilter_to_proto filter_wf.
Proof.
  apply exact_intro.
  - intros [i m f c] r H. unfold CanFilter_try_from in H. cbn in H.
    apply bind_Ok in H as (f' & ->%enum_field_Ok & H).
    apply bind_Ok in H as (c' & ->%required_Ok & H%map_err_Ok).
    pose proof (CanFilter_new_eq _ _ _ _ _ H) as ->. by destruct c'.
  - intros f Hwf. unfold CanFilter_try_from, CanFilter_to_proto.
    cbn [wfl_id wfl_mask wfl_format wfl_classes].
    rewrite enum_field_proto. cbn [mbind result_bind required ok_or].
    rewrite CanFrameClasses_roundtrip. by rewrite Hwf.
Qed.

Global Instance filter_set_exact :
  ExactCodec (λ _, True) CanFilterSet_try_from CanFilterSet_to_proto filter_set_wf.
Proof.
  pose proof (exact_collect CanFilter_try_from CanFilter_to_proto filter_wf) as HC.
  apply exact_intro.
  - intros [l] s H. unfold CanFilterSet_try_from in H. cbn in H. case_match; [done|]. bool_simp.
    apply bind_Ok in H as (fs & Hfs & H%map_err_Ok).
    destruct (exact_decode _ _ _ _ _ Hfs) as [-> ?]. unfold CanFilterSet_new in H.
    case_match; [done|]. injection H as <-. bool_simp. done.
  - intros [l] [Hlen Hwf]. unfold CanFilterSet_try_from, CanFilterSet_to_proto. cbn in Hlen, Hwf.
    cbn [wfs_filters CanFilterSet_as_slice].
    assert (len (CanFilter_to_proto <$> l) = len l) as -> by (unfold len; by rewrite length_fmap).
    unfold CanFilterSet_new. rewrite (exact_encode (collect _) _ _ l Hwf).
    rewrite (proj2 (Z.ltb_ge _ _) Hlen). cbn [mbind result_bind].
    by rewrite (proj2 (Z.ltb_ge _ _) Hlen).
Qed.

Global Instance bus_status_exact :
  ExactCodec (λ _, True) CanBusStatus_try_from CanBusStatus_to_proto (λ _, True).
Proof.
  apply exact_intro.
  - intros [s t r] b H. unfold CanBusStatus_try_from in H. cbn in H.
    by apply bind_Ok in H as (s' & ->%enum_field_Ok & [= <-]).
  - intros [s t r] _. unfold CanBusStatus_try_from, CanBusStatus_to_proto.
    cbn [wbs_state wbs_tx_error_counter wbs_rx_error_counter bus_state].
    by rewrite enum_field_proto.
Qed.

(** ** Properties of the CAN wire format *)

Lemma len_fmap {A B} (f : A → B) l : len (f <$> l) = len l.
Proof. unfold len. by rewrite length_fmap. Qed.
Lemma in_batch_true n : in_batch n = true ↔ 1 <= n <= MAX_CAN_BATCH_FRAMES.
Proof. unfold in_batch. rewrite andb_true_iff, !Z.leb_le. done. Qed.

(** C38: decoding is exact for the CAN messages: a peer's frame, timestamped frame,
    filter set, open, active or bus-status message is accepted exactly when it is the
    encoding of a value that the validating constructors of the CAN types accept, and that
    value is returned.  So nothing invalid enters through the wire, fields that do not
    belong to a frame's kind are refused, and no value is altered. *)
Theorem wire_can_exact :
  ExactCodec (λ _, True) CanFrame_try_from CanFrame_to_proto frame_wf ∧
  ExactCodec (λ _, True) ReceivedCanFrame_try_from ReceivedCanFrame_to_proto received_wf ∧
  ExactCodec (λ _, True) CanOpenConfig_try_from CanOpenConfig_to_proto open_config_wf ∧
  ExactCodec (λ _, True) CanActiveConfig_try_from CanActiveConfig_to_proto active_wf ∧
  ExactCodec (λ _, True) CanFilterSet_try_from CanFilterSet_to_proto filter_set_wf ∧
  ExactCodec (λ _, True) CanBusStatus_try_from CanBusStatus_to_proto (λ _, True).
Proof. split_and!; apply _. Qed.

(** Batches are bounded in both directions: a send request decodes exactly when it
    carries 1 to 64 valid frames, and a receive response exactly when it carries no more
    valid frames than were asked for, 1 to 64; order and contents are kept. *)
Theorem can_batches_exact frames sent received requested got :
  (send_can_frames_from_proto frames = Ok sent ↔
   frames = CanFrame_to_proto <$> sent ∧ Forall frame_wf sent ∧ 1 <= len sent <= 64) ∧
  (can_receive_response_from_proto received requested = Ok got ↔
   received = ReceivedCanFrame_to_proto <$> got ∧ Forall received_wf got ∧
   1 <= requested <= 64 ∧ len got <= requested).
Proof.
  pose proof (exact_collect CanFrame_try_from CanFrame_to_proto frame_wf) as HS.
  pose proof (exact_collect ReceivedCanFrame_try_from ReceivedCanFrame_to_proto received_wf) as HR.
  change 64 with MAX_CAN_BATCH_FRAMES.
  unfold send_can_frames_from_proto, can_receive_response_from_proto,
    received_can_frames_from_proto. split.
  - destruct (in_batch (len frames)) eqn:Hb; simpl.
    + apply in_batch_true in Hb. split.
      * intros H. destruct (exact_decode _ _ _ _ _ H) as [-> ?]. by rewrite len_fmap in Hb.
      * intros (-> & H & _). by apply (exact_encode _ _ _ _ (ExactCodec0 := HS)).
    + split; [done|]. intros (-> & _ & H). rewrite len_fmap in Hb.
      apply in_batch_true in H. congruence.
  - destruct (in_batch requested) eqn:Hb; simpl.
    + apply in_batch_true in Hb. destruct (requested <? len received) eqn:Hl; bool_simp; split.
      * done.
      * intros (-> & _ & _ & H). rewrite len_fmap in Hl. lia.
      * intros H. destruct (exact_decode _ _ _ _ _ H) as [-> ?]. by rewrite len_fmap in Hl.
      * intros (-> & H & _). by apply (exact_encode _ _ _ _ (ExactCodec0 := HR)).
    + split; [done|]. intros (_ & _ & H & _). apply in_batch_true in H. congruence.
Qed.

(** The outcome of a batch send crosses the wire exactly: the client decodes outcome
    [r] from a response to a batch of [n] frames iff the broker encodes [r] as that
    response (and the error is one a broker can hold).  Both sides refuse a success that
    is not about the whole batch and a failure that is not about a strict prefix. *)
Theorem can_send_response_exact v n r :
  can_send_response_from_proto v n = Ok r ↔
  can_send_response_to_proto r n = Ok v ∧ ∀ e, r = Err e → error_wf (batch_error e).
Proof.
  unfold can_send_response_from_proto, can_send_response_to_proto, validate_input_count.
  destruct (in_batch n); cbn; [|naive_solver]. destruct v as [k [err|]]; cbn.
  - destruct r as [[]|[e c]]; cbn.
    { split; [|naive_solver]. case_match; [|done]. intros (e & _ & [=])%bind_Ok. }
    split.
    + case_match; [|done]. intros (e' & He & [= <- <-])%bind_Ok.
      destruct (error_to_from _ _ He) as [-> Hwf]. rewrite H. split; [done|].
      intros ? [= <-]. done.
    + intros [H Hwf]. case_match; [|done]. injection H as <- <-.
      rewrite H0, (error_from_to e) by (by apply (Hwf _ eq_refl)). done.
  - destruct r as [[]|[e c]]; cbn.
    + destruct (k =? n) eqn:?; bool_simp; naive_solver.
    + split; [by case_match|]. intros [H _]. by case_match.
Qed.

Lemma uniform_required {T} (o : option T) field e :
  required o field = Err e → ∃ message, e = invalid_message message.
Proof. apply uniform_ok_or. Qed.
Lemma uniform_fmap {A B} (f : A → B) (r : HalResult A) e :
  (∀ e', r = Err e' → ∃ message, e' = invalid_message message) →
  (f <$> r) = Err e → ∃ message, e = invalid_message message.
Proof. intros Hr. destruct r; [done|]. intros [= <-]. by apply Hr. Qed.
#[export] Hint Resolve uniform_required : hal.
Ltac can_uniform_step :=
  first
    [ uniform_step
    | progress unfold wire_invalid
    | match goal with
      | |- required _ _ = Err _ → _ => apply uniform_required
      | |- (_ <$> _) = Err _ → _ => apply uniform_fmap; intros ?
      end ].
Ltac solve_can_uniform :=
  intros ? ?; cbv beta iota zeta; repeat can_uniform_step; try solve [eauto with hal].

Lemma id_uniform : refuses_uniformly CanId_try_from.
Proof. unfold CanId_try_from. solve_can_uniform. Qed.
#[export] Hint Resolve id_uniform : hal.
Lemma frame_uniform : refuses_uniformly CanFrame_try_from.
Proof. unfold CanFrame_try_from, error_class_from_proto. solve_can_uniform. Qed.
Lemma timestamp_uniform : refuses_uniformly CanTimestamp_try_from.
Proof. unfold CanTimestamp_try_from. solve_can_uniform. Qed.
Lemma timing_uniform : refuses_uniformly CanBitTiming_try_from.
Proof. unfold CanBitTiming_try_from. solve_can_uniform. Qed.
Lemma expectation_uniform : refuses_uniformly CanLinkExpectation_try_from.
Proof. unfold CanLinkExpectation_try_from, mode_from_proto. solve_can_uniform. Qed.
Lemma filter_uniform : refuses_uniformly CanFilter_try_from.
Proof. unfold CanFilter_try_from. solve_can_uniform. Qed.
#[export] Hint Resolve frame_uniform timestamp_uniform timing_uniform expectation_uniform
  filter_uniform : hal.
Lemma configure_uniform : refuses_uniformly CanConfigureConfig_try_from.
Proof. unfold CanConfigureConfig_try_from, mode_from_proto. solve_can_uniform. Qed.
#[export] Hint Resolve configure_uniform : hal.
Lemma open_config_uniform : refuses_uniformly CanOpenConfig_try_from.
Proof. unfold CanOpenConfig_try_from. solve_can_uniform. Qed.
Lemma filter_set_uniform : refuses_uniformly CanFilterSet_try_from.
Proof. unfold CanFilterSet_try_from. solve_can_uniform. Qed.
Lemma received_uniform : refuses_uniformly ReceivedCanFrame_try_from.
Proof. unfold ReceivedCanFrame_try_from. solve_can_uniform. Qed.
Lemma bus_status_uniform : refuses_uniformly CanBusStatus_try_from.
Proof. unfold CanBusStatus_try_from. solve_can_uniform. Qed.
#[export] Hint Resolve open_config_uniform filter_set_uniform received_uniform
  bus_status_uniform : hal.

(** Malformed CAN messages are refused uniformly: every decoder of a CAN request or
    response either succeeds or reports [runtime.protocol.invalid_message], whatever the
    peer sent. *)
Theorem wire_can_refusals_uniform mode n :
  refuses_uniformly open_can_request_from_proto ∧
  refuses_uniformly (λ v, open_can_response_from_proto v mode) ∧
  refuses_uniformly can_send_request_from_proto ∧
  refuses_uniformly (λ v, can_send_response_from_proto v n) ∧
  refuses_uniformly can_receive_request_from_proto ∧
  refuses_uniformly (λ v, can_receive_response_from_proto v n) ∧
  refuses_uniformly replace_can_filters_request_from_proto ∧
  refuses_uniformly get_can_bus_status_request_from_proto ∧
  refuses_uniformly get_can_bus_status_response_from_proto.
Proof.
  split_and!; unfold open_can_request_from_proto, lease_mode_from_proto,
    open_can_response_from_proto, can_send_request_from_proto, send_can_frames_from_proto,
    can_send_response_from_proto, validate_input_count, can_receive_request_from_proto,
    can_receive_parameters, can_receive_response_from_proto, received_can_frames_from_proto,
    replace_can_filters_request_from_proto, get_can_bus_status_request_from_proto,
    get_can_bus_status_response_from_proto; solve_can_uniform.
Qed.
