(* ===== verification/UsbTypes.v ===== *)
(** * robot-hal-usb: claims, transfers, the session trait

    Models crates/robot-hal-usb/src/lib.rs.  Bytes and machine integers are [Z]; a
    timeout is in nanoseconds. *)

From S2P Require Import Prelude Core SerialRegistry CanTypes.

Definition MAX_USB_TRANSFER_BYTES : Z := 16 * 1024.
Definition MAX_USB_PENDING_TRANSFERS : Z := 64.
Definition MAX_USB_INTERFACE_NUMBER : Z := u8_max.
Definition USB_CONTROL_CAPABILITY : string := "usb.control/v1".
Definition USB_BULK_CAPABILITY : string := "usb.bulk/v1".
Definition USB_INTERRUPT_CAPABILITY : string := "usb.interrupt/v1".
Definition usb_control_capability : CapabilityId := mkCapabilityId USB_CONTROL_CAPABILITY.
Definition usb_bulk_capability : CapabilityId := mkCapabilityId USB_BULK_CAPABILITY.
Definition usb_interrupt_capability : CapabilityId := mkCapabilityId USB_INTERRUPT_CAPABILITY.

Record UsbInterfaceClaim := mkUsbInterfaceClaim { claim_number : Z }.
Definition UsbInterfaceClaim_new (interface : Z) : HalResult UsbInterfaceClaim :=
  if MAX_USB_INTERFACE_NUMBER <? interface then
    Err (static_error "usb.interface.invalid" InvalidArgument "usb.interface_claim" false
           "USB interface number is outside the u8 range")
  else Ok (mkUsbInterfaceClaim interface).

Inductive UsbTransfer :=
  | ControlOut (request_type request value index : Z) (data : Bytes)
  | ControlIn (request_type request value index max_bytes : Z)
  | BulkOut (endpoint : Z) (data : Bytes)
  | BulkIn (endpoint max_bytes : Z)
  | InterruptOut (endpoint : Z) (data : Bytes)
  | InterruptIn (endpoint max_bytes : Z).
Global Instance UsbTransfer_eq_dec : EqDecision UsbTransfer.
Proof. solve_decision. Defined.

Definition invalid_transfer (message : string) : HalError :=
  static_error "usb.transfer.invalid" InvalidArgument "usb.transfer" false message.
Definition validate_size (size : Z) : HalResult unit :=
  if MAX_USB_TRANSFER_BYTES <? size then
    Err (invalid_transfer "transfer payload exceeds the bound")
  else Ok ().
Definition validate_endpoint (endpoint : Z) (input : bool) : HalResult unit :=
  if (Z.land endpoint 0x0f =? 0)
     || bool_decide (negb (Z.land endpoint 0x80 =? 0) ≠ input)
  then Err (invalid_transfer "endpoint direction or number is invalid")
  else Ok ().
Definition validate_control_direction (request_type : Z) (input : bool) : HalResult unit :=
  if bool_decide (negb (Z.land request_type 0x80 =? 0) ≠ input) then
    Err (invalid_transfer "control request direction does not match transfer")
  else Ok ().

Definition UsbTransfer_validate (t : UsbTransfer) : HalResult unit :=
  match t with
  | ControlOut request_type _ _ _ data =>
      validate_control_direction request_type false ≫= λ _, validate_size (len data)
  | ControlIn request_type _ _ _ max_bytes =>
      validate_control_direction request_type true ≫= λ _, validate_size max_bytes
  | BulkOut endpoint data | InterruptOut endpoint data =>
      validate_endpoint endpoint false ≫= λ _, validate_size (len data)
  | BulkIn endpoint max_bytes | InterruptIn endpoint max_bytes =>
      validate_endpoint endpoint true ≫= λ _, validate_size max_bytes
  end.

Definition validated (t : UsbTransfer) : HalResult UsbTransfer :=
  UsbTransfer_validate t ≫= λ _, Ok t.
Definition UsbTransfer_control_out (request_type request value index : Z) (data : Bytes) :=
  validated (ControlOut request_type request value index data).
Definition UsbTransfer_control_in (request_type request value index max_bytes : Z) :=
  validated (ControlIn request_type request value index max_bytes).
Definition UsbTransfer_bulk_out (endpoint : Z) (data : Bytes) := validated (BulkOut endpoint data).
Definition UsbTransfer_bulk_in (endpoint max_bytes : Z) := validated (BulkIn endpoint max_bytes).
Definition UsbTransfer_interrupt_out (endpoint : Z) (data : Bytes) :=
  validated (InterruptOut endpoint data).
Definition UsbTransfer_interrupt_in (endpoint max_bytes : Z) :=
  validated (InterruptIn endpoint max_bytes).

(** What every adapter gets to see of an accepted transfer: bit 7 of the request type or
    endpoint is the direction, a data endpoint has a non-zero number, and the payload or
    the read bound is at most 16 KiB. *)
Definition transfer_direction (t : UsbTransfer) : Z * bool :=
  match t with
  | ControlOut rt _ _ _ _ => (rt, false)
  | ControlIn rt _ _ _ _ => (rt, true)
  | BulkOut e _ | InterruptOut e _ => (e, false)
  | BulkIn e _ | InterruptIn e _ => (e, true)
  end.
Definition transfer_endpoint (t : UsbTransfer) : option Z :=
  match t with
  | ControlOut _ _ _ _ _ | ControlIn _ _ _ _ _ => None
  | BulkOut e _ | InterruptOut e _ | BulkIn e _ | InterruptIn e _ => Some e
  end.
Definition transfer_size (t : UsbTransfer) : Z :=
  match t with
  | ControlOut _ _ _ _ d | BulkOut _ d | InterruptOut _ d => len d
  | ControlIn _ _ _ _ n | BulkIn _ n | InterruptIn _ n => n
  end.

Lemma bit7 a : negb (Z.land a 0x80 =? 0) = Z.testbit a 7.
Proof.
  assert (Z.land a 0x80 = Z.land a (2 ^ 7)) as -> by done.
  destruct (Z.testbit a 7) eqn:Hb.
  - apply negb_true_iff, Z.eqb_neq. intros H.
    apply (f_equal (λ z, Z.testbit z 7)) in H.
    rewrite Z.land_spec, Hb, Z.pow2_bits_true, Z.bits_0 in H by lia. done.
  - apply negb_false_iff, Z.eqb_eq. apply Z.bits_inj'. intros i Hi.
    rewrite Z.land_spec, Z.bits_0, Z.pow2_bits_eqb by lia.
    destruct (Z.eqb_spec 7 i) as [<-|]; [by rewrite Hb|by rewrite andb_false_r].
Qed.
Lemma low_nibble a : Z.land a 0x0f = a mod 16.
Proof. change 0x0f with (Z.ones 4). by rewrite Z.land_ones. Qed.

Lemma validate_size_Ok n : validate_size n = Ok () ↔ n <= MAX_USB_TRANSFER_BYTES.
Proof. unfold validate_size. destruct (_ <? n) eqn:?; bool_simp; split; done || lia. Qed.
Lemma validate_direction_Ok rt input :
  validate_control_direction rt input = Ok () ↔ Z.testbit rt 7 = input.
Proof. unfold validate_control_direction. rewrite bit7. case_bool_decide; naive_solver. Qed.
Lemma validate_endpoint_Ok e input :
  validate_endpoint e input = Ok () ↔ Z.testbit e 7 = input ∧ e mod 16 ≠ 0.
Proof.
  unfold validate_endpoint. rewrite bit7, low_nibble.
  destruct (e mod 16 =? 0) eqn:?; bool_simp; simpl; [naive_solver|].
  case_bool_decide; naive_solver.
Qed.
Lemma unit_bind_Ok (r r' : HalResult unit) :
  (r ≫= λ _, r') = Ok () ↔ r = Ok () ∧ r' = Ok ().
Proof. destruct r as [[]|]; naive_solver. Qed.

Lemma UsbTransfer_validate_iff t :
  UsbTransfer_validate t = Ok () ↔
  Z.testbit (transfer_direction t).1 7 = (transfer_direction t).2 ∧
  (∀ e, transfer_endpoint t = Some e → e mod 16 ≠ 0) ∧
  transfer_size t <= MAX_USB_TRANSFER_BYTES.
Proof.
  destruct t; simpl; rewrite unit_bind_Ok, validate_size_Ok, ?validate_direction_Ok,
    ?validate_endpoint_Ok; naive_solver.
Qed.

(** The [UsbInterfaceSession] trait: what the worker may ask of a native session. *)
Class UsbInterfaceSession (S : Type) := {
  usb_session_transfer : S → UsbTransfer → Z → S * HalResult Bytes;
  usb_session_close : S → S * HalResult unit;
}.
