(* ===== verification/Worker.v ===== *)
(** * robot-hal-runtime: the thread that owns a native USB session

    Models [UsbCommand], [UsbWorker] and [spawn_worker] of
    crates/robot-hal-runtime/src/usb_manager.rs, over any native session and command
    type: gpio_manager.rs has the same thread with other commands and texts, which are
    the fields of the class [NativeWorker].

    A thread is a record of what it shares with its handles (the bounded command queue,
    the shutdown flag, the completion, the one-shot [opened] signal) and of the place it
    has reached.  A native call takes any time and may panic, which [catch_unwind] turns
    into a failed completion; both are moves of the thread. *)

From S2P Require Import Prelude Core Lifecycle LeaseTable SerialRegistry.

(** What tells the managers that use this thread apart: the texts of their errors and the
    capability that a resource must have. *)
Record BusNames := mkBusNames {
  bn_prefix : string;
  bn_noun : string;
  bn_bus : string;
  bn_capability : CapabilityId;
}.

Class NativeWorker (S Cmd Resp : Type) := {
  (** the native operation a command stands for, and closing the native session *)
  worker_perform : S → Cmd → S * HalResult Resp;
  worker_native_close : S → HalResult unit;
  cmd_operation : Cmd → string;
  worker_names : BusNames;
}.

Definition worker_unavailable (names : BusNames) (operation : string) : HalError :=
  runtime_error "runtime.actor.unavailable" Internal operation false
    ("the " +:+ bn_noun names +:+ " worker terminated before completing the operation").
Definition worker_session_closed (names : BusNames) (operation : string) : HalError :=
  runtime_error "runtime.session.closed" Conflict operation false
    ("the " +:+ bn_bus names +:+ " session is closed").
Definition worker_queue_full (names : BusNames) (operation : string) : HalError :=
  runtime_error "runtime.queue.full" Unavailable operation true
    ("the bounded " +:+ bn_noun names +:+ " command queue has reached its 64-command capacity").

(** Where the thread is: inside [adapter.open]; at the head of its loop; holding a
    command it has not rechecked the shutdown flag for; inside the native operation;
    inside [session.close]; rejecting what is left; past [catch_unwind]; completed; gone,
    with its end of the command channel. *)
Inductive WorkerPhase (S Cmd : Type) :=
  | WOpening
  | WLoop (session : S)
  | WTaken (session : S) (command : Cmd)
  | WPerform (session : S) (command : Cmd)
  | WClosing (session : S)
  | WDraining (result : HalResult unit)
  | WCompleting (result : HalResult unit)
  | WCompleted
  | WExited.
Global Arguments WOpening {S Cmd}.
Global Arguments WLoop {S Cmd}.
Global Arguments WTaken {S Cmd}.
Global Arguments WPerform {S Cmd}.
Global Arguments WClosing {S Cmd}.
Global Arguments WDraining {S Cmd}.
Global Arguments WCompleting {S Cmd}.
Global Arguments WCompleted {S Cmd}.
Global Arguments WExited {S Cmd}.

(** The [opened] one-shot: not sent, sent, or dropped by a panic. *)
Inductive OpenSignal := OpenPending | OpenSent (result : HalResult unit) | OpenDropped.

(** [w_target] is the id of the selector the thread opens.  Ghost: the commands the queue
    admitted, the fate of those that left it ([None]: the reply was dropped unanswered,
    which its caller sees as [worker_unavailable]), and how many native operations began
    after the shutdown request. *)
Record Worker (S Cmd Resp : Type) := mkWorker {
  w_target : ResourceId;
  w_phase : WorkerPhase S Cmd;
  w_queue : list Cmd;
  w_senders : bool;
  w_shutdown : bool;
  w_opened : OpenSignal;
  w_completion : option (HalResult unit);
  w_admitted : list Cmd;
  w_resolved : list (Cmd * option (HalResult Resp));
  w_late : nat;
}.
Global Arguments mkWorker {S Cmd Resp}.
Global Arguments w_target {S Cmd Resp}.
Global Arguments w_phase {S Cmd Resp}.
Global Arguments w_queue {S Cmd Resp}.
Global Arguments w_senders {S Cmd Resp}.
Global Arguments w_shutdown {S Cmd Resp}.
Global Arguments w_opened {S Cmd Resp}.
Global Arguments w_completion {S Cmd Resp}.
Global Arguments w_admitted {S Cmd Resp}.
Global Arguments w_resolved {S Cmd Resp}.
Global Arguments w_late {S Cmd Resp}.

Inductive Move (S : Type) :=
  | MOpened (result : HalResult S)
  | MIterate
  | MRecheck (reply_closed : bool)
  | MRun
  | MClose
  | MDrain
  | MPanic
  | MComplete
  | MExit.
Global Arguments MOpened {S}.
Global Arguments MIterate {S}.
Global Arguments MRecheck {S}.
Global Arguments MRun {S}.
Global Arguments MClose {S}.
Global Arguments MDrain {S}.
Global Arguments MPanic {S}.
Global Arguments MComplete {S}.
Global Arguments MExit {S}.

Section worker.
Context {S Cmd Resp : Type} `{!NativeWorker S Cmd Resp}.
Implicit Types (w : Worker S Cmd Resp) (c : Cmd).

Definition UsbCommand_reject_closed c : HalResult Resp :=
  Err (worker_session_closed worker_names (cmd_operation c)).
Definition spawn_worker (target : ResourceId) : Worker S Cmd Resp :=
  mkWorker target WOpening [] true false OpenPending None [] [] 0.

(** ** The handle *)
Definition UsbWorker_try_enqueue w (command : Cmd) (operation : string) : HalResult (Worker S Cmd Resp) :=
  match w_phase w with
  | WExited => Err (worker_unavailable worker_names operation)
  | _ =>
      if COMMAND_QUEUE_CAPACITY <=? Z.of_nat (length (w_queue w))
      then Err (worker_queue_full worker_names operation)
      else Ok (mkWorker (w_target w) (w_phase w) (w_queue w ++ [command]) (w_senders w)
                 (w_shutdown w) (w_opened w) (w_completion w) (w_admitted w ++ [command])
                 (w_resolved w) (w_late w))
  end.
Definition UsbWorker_request_close w : Worker S Cmd Resp :=
  mkWorker (w_target w) (w_phase w) (w_queue w) (w_senders w) true (w_opened w)
    (w_completion w) (w_admitted w) (w_resolved w) (w_late w).
Definition UsbWorker_is_closing w : bool := w_shutdown w.
Definition UsbWorker_is_finished w : bool := is_some (w_completion w).
(** The last handle is dropped: the thread's [try_recv] reports [Disconnected]. *)
Definition worker_disconnect w : Worker S Cmd Resp :=
  mkWorker (w_target w) (w_phase w) (w_queue w) false (w_shutdown w) (w_opened w)
    (w_completion w) (w_admitted w) (w_resolved w) (w_late w).

(** ** The thread *)
Definition goto w (phase : WorkerPhase S Cmd) (queue : list Cmd)
    (fates : list (Cmd * option (HalResult Resp))) : Worker S Cmd Resp :=
  mkWorker (w_target w) phase queue (w_senders w) (w_shutdown w) (w_opened w) (w_completion w)
    (w_admitted w) (w_resolved w ++ fates) (w_late w).
Definition goto_opened w (phase : WorkerPhase S Cmd) (opened : OpenSignal) : Worker S Cmd Resp :=
  mkWorker (w_target w) phase (w_queue w) (w_senders w) (w_shutdown w) opened (w_completion w)
    (w_admitted w) (w_resolved w) (w_late w).
Definition panicked : HalResult unit := Err (worker_unavailable worker_names (bn_prefix worker_names +:+ ".worker")).

Definition worker_move w (m : Move S) : option (Worker S Cmd Resp) :=
  match w_phase w, m with
  | WOpening, MOpened (Ok session) => Some (goto_opened w (WLoop session) (OpenSent (Ok ())))
  | WOpening, MOpened (Err error) =>
      Some (goto_opened w (WCompleting (Err error)) (OpenSent (Err error)))
  | WLoop session, MIterate =>
      if w_shutdown w then Some (goto w (WClosing session) (w_queue w) [])
      else match w_queue w with
           | command :: queue => Some (goto w (WTaken session command) queue [])
           | [] => Some (goto w (if w_senders w then WLoop session else WClosing session) [] [])
           end
  | WTaken session command, MRecheck reply_closed =>
      if w_shutdown w then
        Some (goto w (WClosing session) (w_queue w)
                [(command, Some (UsbCommand_reject_closed command))])
      else if reply_closed then Some (goto w (WLoop session) (w_queue w) [(command, None)])
      else Some (goto w (WPerform session command) (w_queue w) [])
  | WPerform session command, MRun =>
      let '(session, result) := worker_perform session command in
      Some (mkWorker (w_target w) (WLoop session) (w_queue w) (w_senders w) (w_shutdown w)
              (w_opened w) (w_completion w) (w_admitted w)
              (w_resolved w ++ [(command, Some result)])
              (if w_shutdown w then Datatypes.S (w_late w) else w_late w))
  | WClosing session, MClose =>
      Some (goto w (WDraining (worker_native_close session)) (w_queue w) [])
  | WDraining result, MDrain =>
      match w_queue w with
      | command :: queue =>
          Some (goto w (WDraining result) queue
                  [(command, Some (UsbCommand_reject_closed command))])
      | [] => Some (goto w (WCompleting result) [] [])
      end
  | WOpening, MPanic => Some (goto_opened w (WCompleting panicked) OpenDropped)
  | WPerform _ command, MPanic =>
      Some (goto w (WCompleting panicked) (w_queue w) [(command, None)])
  | WClosing _, MPanic => Some (goto w (WCompleting panicked) (w_queue w) [])
  | WCompleting result, MComplete =>
      Some (mkWorker (w_target w) WCompleted (w_queue w) (w_senders w) (w_shutdown w)
              (w_opened w) (Some result) (w_admitted w) (w_resolved w) (w_late w))
  | WCompleted, MExit => Some (goto w WExited [] ((λ c, (c, None)) <$> w_queue w))
  | _, _ => None
  end.

(** What may happen to a worker: a move of its thread or a call on one of its handles. *)
Inductive worker_step : Worker S Cmd Resp → Worker S Cmd Resp → Prop :=
  | worker_step_move w m w' : worker_move w m = Some w' → worker_step w w'
  | worker_step_enqueue w c op w' : UsbWorker_try_enqueue w c op = Ok w' → worker_step w w'
  | worker_step_close w : worker_step w (UsbWorker_request_close w)
  | worker_step_disconnect w : worker_step w (worker_disconnect w).

(** ** Invariant *)
Definition in_hand w : list Cmd :=
  match w_phase w with WTaken _ c | WPerform _ c => [c] | _ => [] end.
(** The thread has, or may yet get, a native session. *)
Definition holds_native w : bool :=
  match w_phase w with
  | WOpening | WLoop _ | WTaken _ _ | WPerform _ _ | WClosing _ => true
  | _ => false
  end.
Definition is_performing w : bool := match w_phase w with WPerform _ _ => true | _ => false end.
Definition is_done w : bool := match w_phase w with WCompleted | WExited => true | _ => false end.

Record worker_ok w : Prop := {
  ok_account : w_admitted w = (w_resolved w).*1 ++ in_hand w ++ w_queue w;
  ok_completion : is_some (w_completion w) = is_done w;
  ok_opened : match w_opened w with
              | OpenPending => w_phase w = WOpening
              | OpenSent (Ok _) => w_phase w ≠ WOpening
              | OpenSent (Err _) | OpenDropped => holds_native w = false
              end;
  ok_exited : w_phase w = WExited → w_queue w = [];
  ok_no_late : w_shutdown w = false → w_late w = 0%nat;
  ok_late : (w_late w <= 1)%nat;
  ok_performing : is_performing w = true → w_late w = 0%nat;
}.

Lemma spawn_worker_ok target : worker_ok (spawn_worker target).
Proof. split; cbn; done || lia. Qed.

Lemma enqueue_Ok w c op w' :
  UsbWorker_try_enqueue w c op = Ok w' →
  w_phase w ≠ WExited ∧ (Z.of_nat (length (w_queue w)) < COMMAND_QUEUE_CAPACITY) ∧
  w' = mkWorker (w_target w) (w_phase w) (w_queue w ++ [c]) (w_senders w) (w_shutdown w)
         (w_opened w) (w_completion w) (w_admitted w ++ [c]) (w_resolved w) (w_late w).
Proof.
  unfold UsbWorker_try_enqueue. intros He.
  destruct (w_phase w); try done;
    (destruct (_ <=? _) eqn:?; [done|]); bool_simp; by injection He as <-.
Qed.

Lemma dropped_fst (q : list Cmd) : ((λ c, (c, None : option (HalResult Resp))) <$> q).*1 = q.
Proof. rewrite <- list_fmap_compose. by apply list_fmap_id. Qed.
Lemma move_ok w m w' : worker_move w m = Some w' → worker_ok w → worker_ok w'.
Proof.
  destruct w as [t ph q sd sh op co ad re la]. unfold worker_move. cbn.
  intros Hm [H1 H2 H3 H4 H5 H6 H7]. cbn in *.
  destruct ph, m; try done; repeat case_match; simplify_eq/=; split; cbn;
    rewrite ?fmap_app, ?dropped_fst, ?app_nil_r, <- ?app_assoc; cbn; try done; auto; try lia;
    try (destruct op as [|[[]|]|]; naive_solver).
  rewrite H7; [lia|done].
Qed.

Lemma worker_step_ok w w' : worker_step w w' → worker_ok w → worker_ok w'.
Proof.
  intros [? m ? Hm|? c op ? He|?|?]; [by eapply move_ok|..]; intros [H1 H2 H3 H4 H5 H6 H7].
  - apply enqueue_Ok in He as (Hp & _ & ->). split; cbn; try done.
    rewrite H1. unfold in_hand. cbn. by rewrite <- !app_assoc.
  - by split.
  - by split.
Qed.
Lemma worker_steps_ok w w' : rtc worker_step w w' → worker_ok w → worker_ok w'.
Proof. induction 1; eauto using worker_step_ok. Qed.

(** The shutdown flag is never lowered. *)
Lemma move_shutdown w m w' : worker_move w m = Some w' → w_shutdown w' = w_shutdown w.
Proof.
  unfold worker_move. intros Hm. destruct (w_phase w), m; try done;
    repeat case_match; by simplify_eq/=.
Qed.
Lemma move_target w m w' : worker_move w m = Some w' → w_target w' = w_target w.
Proof.
  unfold worker_move. intros Hm. destruct (w_phase w), m; try done;
    repeat case_match; by simplify_eq/=.
Qed.
Lemma move_native w m w' :
  worker_move w m = Some w' → holds_native w' = true → holds_native w = true.
Proof.
  unfold worker_move, holds_native. intros Hm. destruct (w_phase w), m; try done;
    repeat case_match; by simplify_eq/=.
Qed.

(** ** Shutting down *)
Fixpoint worker_run w (moves : list (Move S)) : option (Worker S Cmd Resp) :=
  match moves with
  | [] => Some w
  | m :: moves => match worker_move w m with Some w => worker_run w moves | None => None end
  end.
(** How many moves a worker that was told to stop can still make. *)
Definition moves_left w : nat :=
  (match w_phase w with
   | WOpening => 9 | WPerform _ _ => 8 | WTaken _ _ => 7 | WLoop _ => 7 | WClosing _ => 6
   | WDraining _ => 5 | WCompleting _ => 3 | WCompleted => 2 | WExited => 0
   end + length (w_queue w))%nat.

Lemma move_decreases w m w' :
  w_shutdown w = true → worker_move w m = Some w' → (moves_left w' < moves_left w)%nat.
Proof.
  unfold worker_move, moves_left. intros Hs Hm. rewrite Hs in Hm.
  destruct (w_phase w), m; try done; repeat case_match; simplify_eq/=; lia.
Qed.
Lemma move_enabled w : w_phase w ≠ WExited → ∃ m w', worker_move w m = Some w'.
Proof.
  intros Hne. unfold worker_move. destruct (w_phase w) eqn:Hp; [..|done].
  - by exists MPanic; eexists.
  - exists MIterate. repeat case_match; eauto.
  - exists (MRecheck true). repeat case_match; eauto.
  - by exists MPanic; eexists.
  - by exists MClose; eexists.
  - exists MDrain. repeat case_match; eauto.
  - by exists MComplete; eexists.
  - by exists MExit; eexists.
Qed.
Lemma run_bounded w moves w' :
  w_shutdown w = true → worker_run w moves = Some w' →
  (length moves + moves_left w' <= moves_left w)%nat.
Proof.
  revert w. induction moves as [|m moves IH]; cbn; intros w Hs Hr; [by injection Hr as ->|].
  destruct (worker_move w m) as [w1|] eqn:Hm; [|done].
  pose proof (move_decreases _ _ _ Hs Hm). apply IH in Hr; [lia|].
  by rewrite (move_shutdown _ _ _ Hm).
Qed.
Lemma run_ok w moves w' : worker_run w moves = Some w' → worker_ok w → worker_ok w'.
Proof.
  revert w. induction moves as [|m moves IH]; cbn; intros w Hr Hok; [by injection Hr as ->|].
  destruct (worker_move w m) as [w1|] eqn:Hm; [|done]. eauto using move_ok.
Qed.

Lemma worker_run_steps w moves w' : worker_run w moves = Some w' → rtc worker_step w w'.
Proof.
  revert w. induction moves as [|m moves IH]; cbn; intros w Hr; [injection Hr as ->; apply rtc_refl|].
  destruct (worker_move w m) as [w1|] eqn:Hm; [|done].
  eapply rtc_l; [by eapply worker_step_move|by apply IH].
Qed.
(** A run in which one command is enqueued and a close requested on the way. *)
Definition worker_script w (before : list (Move S)) c (middle after : list (Move S))
    : option (Worker S Cmd Resp) :=
  w ← worker_run w before;
  w ← result_ok (UsbWorker_try_enqueue w c (cmd_operation c));
  w ← worker_run w middle;
  worker_run (UsbWorker_request_close w) after.
Lemma worker_script_steps w before c middle after w' :
  worker_script w before c middle after = Some w' → rtc worker_step w w'.
Proof.
  unfold worker_script. destruct (worker_run w before) as [w1|] eqn:H1; [|done]. cbn.
  destruct (UsbWorker_try_enqueue w1 c _) as [w2|] eqn:H2; [|done]. cbn.
  destruct (worker_run w2 middle) as [w3|] eqn:H3; [|done]. cbn. intros H4.
  etrans; [by eapply worker_run_steps|]. eapply rtc_l; [by eapply worker_step_enqueue|].
  etrans; [by eapply worker_run_steps|]. eapply rtc_l; [by eapply worker_step_close|].
  by eapply worker_run_steps.
Qed.

(** C33: no command is lost: in every state a native worker can reach, the commands its
    queue has admitted are, in order, those already answered or dropped, the one in hand
    and those still queued; each is resolved at most once, and when the thread is gone all
    of them are, so no caller waits for ever. *)
Theorem worker_commands_resolved target w :
  rtc worker_step (spawn_worker target) w →
  w_admitted w = (w_resolved w).*1 ++ in_hand w ++ w_queue w ∧
  (w_phase w = WExited → (w_resolved w).*1 = w_admitted w).
Proof.
  intros Hr. destruct (worker_steps_ok _ _ Hr (spawn_worker_ok target)) as [H1 _ _ H4 _ _ _].
  split; [done|]. intros Hp. rewrite H1, (H4 Hp). unfold in_hand. rewrite Hp. by rewrite app_nil_r.
Qed.

(** A close request stops I/O: after it the thread begins at most one more native
    operation (the one it had already decided on), however many commands are queued. *)
Theorem worker_late_io target w :
  rtc worker_step (spawn_worker target) w → (w_late w <= 1)%nat.
Proof. intros Hr. by destruct (worker_steps_ok _ _ Hr (spawn_worker_ok target)). Qed.

(** A worker that was told to close ends: provided its native calls return or panic, it
    makes at most [moves_left] further moves, it can always make one until it has exited,
    and then its completion is set and its queue empty. *)
Theorem worker_close_terminates target w moves w' :
  rtc worker_step (spawn_worker target) w → w_shutdown w = true →
  worker_run w moves = Some w' →
  (length moves <= moves_left w)%nat ∧
  ((∃ m w'', worker_move w' m = Some w'') ∨
   w_phase w' = WExited ∧ UsbWorker_is_finished w' = true ∧ w_queue w' = []).
Proof.
  intros Hr Hs Hrun. pose proof (run_bounded _ _ _ Hs Hrun). split; [lia|].
  assert (worker_ok w') as [_ H2 _ H4 _ _ _].
  { eapply run_ok; [done|]. eapply worker_steps_ok; [done|]. apply spawn_worker_ok. }
  destruct (w_phase w') eqn:Hp; [left; apply move_enabled; by rewrite Hp..|].
  right. split_and!; [done| |by apply H4]. unfold UsbWorker_is_finished. rewrite H2.
  unfold is_done. by rewrite Hp.
Qed.
End worker.

(** ** A concrete device: it answers a command with its successor *)
Definition echo_device : NativeWorker unit Z Z := {|
  worker_perform session command := (session, Ok (command + 1));
  worker_native_close _ := Ok ();
  cmd_operation _ := "usb.transfer";
  worker_names := mkBusNames "usb" "USB interface" "USB" (mkCapabilityId "usb.control/v1");
|}.
Definition echo_target : ResourceId := mkResourceId "usb:1".
(** The close request arrives while the thread is about to run the command. *)
Definition echo_run (after : list (Move unit)) : Worker unit Z Z :=
  default (spawn_worker echo_target)
    (worker_script (NativeWorker0 := echo_device) (spawn_worker echo_target)
       [MOpened (Ok ())] 7 [MIterate; MRecheck false] after).
Lemma echo_run_steps after :
  rtc (worker_step (NativeWorker0 := echo_device)) (spawn_worker echo_target) (echo_run after).
Proof.
  unfold echo_run. destruct (worker_script _ _ _ _ _) eqn:H; [by eapply worker_script_steps|].
  apply rtc_refl.
Qed.
Definition echo_tail : list (Move unit) := [MRun; MIterate; MClose; MDrain; MComplete; MExit].

Lemma worker_commands_resolved_witness :
  (w_resolved (echo_run echo_tail)).*1 = [7] ∧
  w_resolved (echo_run echo_tail) = [(7, Some (Ok 8))].
Proof.
  split; [|reflexivity].
  apply (worker_commands_resolved (NativeWorker0 := echo_device) echo_target (echo_run echo_tail)
    (echo_run_steps echo_tail)). reflexivity.
Defined.
Lemma worker_late_io_witness : w_late (echo_run echo_tail) = 1%nat ∧ (w_late (echo_run echo_tail) <= 1)%nat.
Proof.
  split; [reflexivity|].
  apply (worker_late_io (NativeWorker0 := echo_device) echo_target _ (echo_run_steps echo_tail)).
Defined.
Lemma worker_close_terminates_witness :
  (length echo_tail <= moves_left (echo_run []))%nat ∧
  UsbWorker_is_finished (echo_run echo_tail) = true.
Proof.
  destruct (worker_close_terminates (NativeWorker0 := echo_device) echo_target (echo_run [])
    echo_tail (echo_run echo_tail) (echo_run_steps [])) as [Hlen Hend];
    [vm_compute; reflexivity|vm_compute; reflexivity|].
  split; [exact Hlen|]. destruct Hend as [(m & w & Hm)|(_ & Hf & _)]; [|exact Hf].
  vm_compute in Hm. destruct m; discriminate Hm.
Defined.
