(* ===== verification/WorkerManager.v ===== *)
(** * robot-hal-runtime: managers of sessions with a worker thread

    What usb_manager.rs and gpio_manager.rs of crates/robot-hal-runtime/src share: the
    critical sections of [open], of the I/O calls, of [close] and of [revoke_owner], and
    the tasks that wait for a worker to finish.  The two differ in the texts of their
    errors ([BusNames]) and in what an entry remembers about its session, which decides
    how it is closed and whether it admits I/O ([SessionPolicy]).

    The manager's state is behind one mutex; a critical section is one operation on
    [MgrState].  [MgrSystem] adds what lives outside it: the worker threads ([Worker]),
    the calls in progress and the waiting tasks.  Its steps are the critical sections and
    the moves of the threads, in any order.  A worker is named by its session; the
    session's UUID and the lease id are arguments, the UUIDs being distinct. *)

From S2P Require Import Prelude Core Lifecycle LeaseTable SerialRegistry Worker.

(** ** State *)
Record MgrEntry (X : Type) := mkMgrEntry {
  me_resource : ResourceId;
  me_owner : OwnerId;
  me_extra : X;
}.
Global Arguments mkMgrEntry {X}.
Global Arguments me_resource {X}.
Global Arguments me_owner {X}.
Global Arguments me_extra {X}.
Record MgrState (X : Type) := mkMgrState {
  ms_leases : LeaseTable;
  ms_sessions : gmap SessionId (MgrEntry X);
  ms_closed : gmap SessionId (ResourceId * OwnerId);
}.
Global Arguments mkMgrState {X}.
Global Arguments ms_leases {X}.
Global Arguments ms_sessions {X}.
Global Arguments ms_closed {X}.

(** ** Errors; [timeout] is the [Debug] rendering of the configured limit *)
Definition mgr_session_is_closed (names : BusNames) (operation : string) : HalError :=
  runtime_error "runtime.session.closed" Conflict operation false
    (bn_bus names +:+ " session is closed").
Definition mgr_not_configured (names : BusNames) (operation : string) : HalError :=
  runtime_error "runtime.adapter.not_configured" Unavailable operation false
    ("no " +:+ bn_bus names +:+ " adapter was registered").
Definition close_timeout (names : BusNames) (operation timeout : string) : HalError :=
  runtime_error "runtime.session.close_timeout" Unavailable operation false
    (bn_bus names +:+ " worker did not release its native session within " +:+ timeout
     +:+ "; the resource remains quarantined").
Definition open_timeout (names : BusNames) (operation timeout : string) : HalError :=
  runtime_error "runtime.transport.timeout" Unavailable operation true
    (bn_bus names +:+ " worker did not finish opening within " +:+ timeout
     +:+ "; the resource remains quarantined").
(** [op names "open"] is the operation ["usb.open"] or ["gpio.open"]. *)
Definition op (names : BusNames) (verb : string) : string := bn_prefix names +:+ "." +:+ verb.

(** [adapter] is the outcome of its [enumerate], when one is configured. *)
Definition mgr_enumerate (names : BusNames) (adapter : option (HalResult (list ResourceDescriptor)))
    : HalResult (list ResourceDescriptor) :=
  ok_or (mgr_not_configured names (op names "enumerate")) adapter ≫= λ enumerated, enumerated.

(** A call of [open] that holds a reservation: its worker could not be spawned, it waits
    for the worker to open, or the worker has opened. *)
Inductive OpenStage := SpawnFailed (error : HalError) | AwaitOpened | Opened.
Record MgrOpen := mkMgrOpen {
  mo_owner : OwnerId;
  mo_resource : ResourceId;
  mo_lease : LeaseToken;
  mo_stage : OpenStage;
}.
(** What [timeout(close_timeout, opened).await] returns. *)
Inductive OpenWait := WaitOpened (result : HalResult unit) | WaitDropped | WaitTimeout.
Inductive OpenNext :=
  | OpenProceed
  | OpenFail (error : HalError)
  | OpenQuarantine (error : HalError).

(** The [select!] at the end of an I/O call. *)
Inductive ReplyEvent (T : Type) := Answered (result : HalResult T) | ReplyDropped | ClosingSeen.
Global Arguments Answered {T}.
Global Arguments ReplyDropped {T}.
Global Arguments ClosingSeen {T}.
Definition mgr_reply_result {T} (names : BusNames) (operation : string) (resource : ResourceId)
    (event : ReplyEvent T) : HalResult T :=
  map_err (λ e, HalError_with_resource_id e resource)
    match event with
    | Answered result => result
    | ReplyDropped => Err (worker_unavailable names operation)
    | ClosingSeen => Err (worker_session_closed names operation)
    end.

(** ** Critical sections *)
Section sections.
Context {X : Type}.
Implicit Types (st : MgrState X) (names : BusNames).

Definition MgrState_default : MgrState X := mkMgrState LeaseTable_default ∅ ∅.
Definition set_ms_leases st (t : LeaseTable) : MgrState X :=
  mkMgrState t (ms_sessions st) (ms_closed st).
Definition mgr_release st (resource : ResourceId) (id : SessionId) : MgrState X :=
  set_ms_leases st (LeaseTable_release (ms_leases st) resource id).1.

(** [open], up to the reservation. *)
Definition mgr_open_reserve names st (adapter : option (HalResult (list ResourceDescriptor)))
    (owner : OwnerId) (selector : ResourceSelector) (id : SessionId) (fresh : LeaseId)
    : MgrState X * HalResult (ResourceId * LeaseToken) :=
  match ok_or (mgr_not_configured names (op names "open")) adapter ≫= λ enumerated,
        enumerated ≫= λ descriptors,
        resolve_resource descriptors selector (bn_capability names) (op names "open") with
  | Err e => (st, Err e)
  | Ok descriptor =>
      let '(leases, reserved) :=
        LeaseTable_reserve_control (ms_leases st) (desc_id descriptor) id owner fresh in
      (set_ms_leases st leases, (λ lease, (desc_id descriptor, lease)) <$> reserved)
  end.
(** [open], from the worker's answer or the failure to spawn it. *)
Definition mgr_open_settle names st (id : SessionId) (open : MgrOpen) (wait : OpenWait)
    (timeout : string) : MgrState X * OpenNext :=
  let resource := mo_resource open in
  match mo_stage open with
  | SpawnFailed error => (mgr_release st resource id, OpenFail error)
  | Opened => (st, OpenProceed)
  | AwaitOpened =>
      match wait with
      | WaitOpened (Ok _) => (st, OpenProceed)
      | WaitOpened (Err error) => (mgr_release st resource id, OpenFail error)
      | WaitDropped =>
          (mgr_release st resource id, OpenFail (worker_unavailable names (op names "open")))
      | WaitTimeout =>
          (st, OpenQuarantine
                 (HalError_with_resource_id (open_timeout names (op names "open") timeout) resource))
      end
  end.
Definition mgr_open_commit names (extra : X) st (id : SessionId) (open : MgrOpen)
    : MgrState X * HalResult (SessionId * LeaseToken) :=
  let '(leases, committed) :=
    LeaseTable_commit (ms_leases st) (mo_resource open) id (mo_lease open) in
  if negb committed then
    (set_ms_leases st leases,
     Err (runtime_error "runtime.session.closed" Conflict (op names "open") false
            (bn_bus names +:+ " open was cancelled")))
  else
    (mkMgrState leases
       (<[id := mkMgrEntry (mo_resource open) (mo_owner open) extra]> (ms_sessions st))
       (ms_closed st),
     Ok (id, mo_lease open)).

Definition mgr_forget st (id : SessionId) (entry : MgrEntry X) : MgrState X :=
  mkMgrState (LeaseTable_release (ms_leases st) (me_resource entry) id).1
    (delete id (ms_sessions st)) (<[id := (me_resource entry, me_owner entry)]> (ms_closed st)).
Definition finish_session st (id : SessionId) : MgrState X :=
  match ms_sessions st !! id with
  | None => st
  | Some entry => mgr_forget st id entry
  end.

(** The critical section of an I/O call; [finished] and [closing] are what the entry's
    worker says, [admits] what the entry says. *)
Definition session_worker names (admits : X → bool) st (id : SessionId) (lease : LeaseToken)
    (operation : string) (finished closing : bool) : MgrState X * HalResult ResourceId :=
  match ms_sessions st !! id with
  | None =>
      (st,
       match ms_closed st !! id with
       | Some (resource, owner) =>
           LeaseTable_validate (ms_leases st) resource id owner lease operation
       | None => Ok ()
       end ≫= λ _, Err (mgr_session_is_closed names operation))
  | Some entry =>
      match LeaseTable_validate (ms_leases st) (me_resource entry) id (me_owner entry) lease
              operation with
      | Err e => (st, Err e)
      | Ok _ =>
          if finished then
            (mgr_forget st id entry,
             Err (HalError_with_resource_id (worker_unavailable names operation)
                    (me_resource entry)))
          else if negb (admits (me_extra entry)) || closing then
            (st, Err (HalError_with_resource_id (worker_session_closed names operation)
                       (me_resource entry)))
          else (st, Ok (me_resource entry))
      end
  end.

(** The end of [close]: the completion seen, or [None] when the wait timed out. *)
Definition mgr_close_end names st (id : SessionId) (resource : ResourceId)
    (completion : option (HalResult unit)) (timeout : string) : MgrState X * HalResult unit :=
  match completion with
  | Some result =>
      (finish_session st id, map_err (λ e, HalError_with_resource_id e resource) result)
  | None =>
      (st, Err (HalError_with_resource_id (close_timeout names (op names "close") timeout) resource))
  end.

(** [revoke_owner]: the sessions it tells to close, and one round of its loop. *)
Definition mgr_owner_sessions st (owner : OwnerId) : list (SessionId * ResourceId) :=
  (λ '(id, entry), (id, me_resource entry)) <$>
    filter (λ '(_, entry), me_owner entry = owner) (map_to_list (ms_sessions st)).
Definition mgr_revoke_round names st (id : SessionId) (resource : ResourceId)
    (completion : option (HalResult unit)) (timeout : string) : MgrState X * HalResult unit :=
  match completion with
  | Some (Ok _) => (finish_session st id, Ok ())
  | Some (Err error) => (st, Err (HalError_with_resource_id error resource))
  | None =>
      (st, Err (HalError_with_resource_id
                  (close_timeout names (op names "revoke_owner") timeout) resource))
  end.
End sections.

(** ** What distinguishes the managers

    [policy_extra] is what a new entry remembers, [policy_admits] whether an entry lets
    I/O in, [policy_close] the critical section of [close].  Closing may only leave the
    state alone, change what the entry remembers, or forget a session whose worker is
    finished. *)
Class SessionPolicy (X : Type) := {
  policy_extra : X;
  policy_admits : X → bool;
  policy_close : MgrState X → SessionId → LeaseToken → bool → bool →
    MgrState X * HalResult ResourceId;
  policy_close_frame st id lease finished closing st' res :
    policy_close st id lease finished closing = (st', res) →
    st' = st ∨
    ∃ e, ms_sessions st !! id = Some e ∧
      ((∃ x, st' = mkMgrState (ms_leases st)
                     (<[id := mkMgrEntry (me_resource e) (me_owner e) x]> (ms_sessions st))
                     (ms_closed st)) ∨
       (finished = true ∧ st' = mgr_forget st id e ∧ ∃ err, res = Err err));
}.

(** ** The manager at work *)
Section system.
Context {S Cmd Resp X : Type} `{!NativeWorker S Cmd Resp} `{!SessionPolicy X}.
Implicit Types (st : MgrState X).

(** [sys_opens]: calls of [open] in progress.  [sys_callers]: transfers admitted but not
    yet enqueued.  [sys_closers]: calls of [close] that have left the critical section and
    not yet told the worker.  [sys_reapers] and [sys_releasers]: the tasks of
    [reap_when_finished] and [release_reservation_when_finished] (a [close] or
    [revoke_owner] that sees the completion itself does what the reaper does).
    [sys_revokes]: what each call of [revoke_owner] has still to wait for. *)
Record MgrSystem := mkMgrSystem {
  sys_state : MgrState X;
  sys_workers : gmap SessionId (Worker S Cmd Resp);
  sys_opens : gmap SessionId MgrOpen;
  sys_callers : list (SessionId * Cmd);
  sys_closers : list SessionId;
  sys_reapers : list SessionId;
  sys_releasers : list (SessionId * ResourceId);
  sys_revokes : list (list (SessionId * ResourceId));
}.
Definition MgrSystem_init : MgrSystem := mkMgrSystem MgrState_default ∅ ∅ [] [] [] [] [].
Implicit Types (sys : MgrSystem) (id : SessionId).

Definition with_state sys (st : MgrState X) : MgrSystem :=
  mkMgrSystem st (sys_workers sys) (sys_opens sys) (sys_callers sys) (sys_closers sys)
    (sys_reapers sys) (sys_releasers sys) (sys_revokes sys).
Definition with_workers sys (ws : gmap SessionId (Worker S Cmd Resp)) : MgrSystem :=
  mkMgrSystem (sys_state sys) ws (sys_opens sys) (sys_callers sys) (sys_closers sys)
    (sys_reapers sys) (sys_releasers sys) (sys_revokes sys).
Definition with_opens sys (opens : gmap SessionId MgrOpen) : MgrSystem :=
  mkMgrSystem (sys_state sys) (sys_workers sys) opens (sys_callers sys) (sys_closers sys)
    (sys_reapers sys) (sys_releasers sys) (sys_revokes sys).
Definition with_tasks sys (callers : list (SessionId * Cmd)) (closers reapers : list SessionId)
    (releasers : list (SessionId * ResourceId)) (revokes : list (list (SessionId * ResourceId)))
    : MgrSystem :=
  mkMgrSystem (sys_state sys) (sys_workers sys) (sys_opens sys) callers closers reapers releasers
    revokes.
Definition alter_worker sys id (f : Worker S Cmd Resp → Worker S Cmd Resp)
    : MgrSystem := with_workers sys (alter f id (sys_workers sys)).
Definition finished sys id : bool :=
  match sys_workers sys !! id with Some w => UsbWorker_is_finished w | None => false end.
Definition closing sys id : bool :=
  match sys_workers sys !! id with Some w => UsbWorker_is_closing w | None => false end.
Definition add_releaser sys id (r : ResourceId) : MgrSystem :=
  with_tasks sys (sys_callers sys) (sys_closers sys) (sys_reapers sys)
    ((id, r) :: sys_releasers sys) (sys_revokes sys).
Definition add_reaper sys id : MgrSystem :=
  with_tasks sys (sys_callers sys) (sys_closers sys) (id :: sys_reapers sys)
    (sys_releasers sys) (sys_revokes sys).

(** [wait] is possible for a worker in its present state. *)
Definition wait_possible sys id (wait : OpenWait) : bool :=
  match wait, w_opened <$> sys_workers sys !! id with
  | WaitTimeout, _ => true
  | WaitOpened (Ok _), Some (OpenSent (Ok _)) => true
  | WaitOpened (Err e), Some (OpenSent (Err e')) => bool_decide (e = e')
  | WaitDropped, Some OpenDropped => true
  | _, _ => false
  end.

Inductive MgrEvent :=
  | EvOpen (adapter : option (HalResult (list ResourceDescriptor))) (owner : OwnerId)
      (selector : ResourceSelector) (id : SessionId) (fresh : LeaseId) (spawn : option HalError)
  | EvSettle (id : SessionId) (wait : OpenWait) (timeout : string)
  | EvCommit (id : SessionId)
  | EvCancel (id : SessionId)
  | EvAdmit (id : SessionId) (lease : LeaseToken) (command : Cmd)
  | EvEnqueue (n : nat)
  | EvCloseBegin (id : SessionId) (lease : LeaseToken)
  | EvCloseTell (n : nat)
  | EvFinish (id : SessionId)
  | EvRelease (n : nat)
  | EvRevoke (owner : OwnerId) (targets : list (SessionId * ResourceId))
  | EvRevokeStart (n : nat)
  | EvRevokeEnd (n : nat) (timed_out : bool) (timeout : string)
  | EvMove (id : SessionId) (m : Move S).

Definition same_elements {A} `{EqDecision A} (l k : list A) : bool :=
  bool_decide (NoDup l) && bool_decide (Forall (λ x, x ∈ k) l) && bool_decide (Forall (λ x, x ∈ l) k).

(** One critical section, task or thread move; [None] when it is not possible. *)
Definition mgr_exec sys (ev : MgrEvent) : option MgrSystem :=
  let st := sys_state sys in
  match ev with
  | EvOpen adapter owner selector id fresh spawn =>
      if is_some (sys_workers sys !! id) || is_some (sys_opens sys !! id)
         || is_some (ms_sessions st !! id)
      then None
      else
        let '(st, reserved) := mgr_open_reserve worker_names st adapter owner selector id fresh in
        let sys := with_state sys st in
        match reserved with
        | Err _ => Some sys
        | Ok (resource, lease) =>
            match spawn with
            | Some error =>
                Some (with_opens sys
                        (<[id := mkMgrOpen owner resource lease (SpawnFailed error)]> (sys_opens sys)))
            | None =>
                let sys := with_workers sys (<[id := spawn_worker (sel_id selector)]> (sys_workers sys)) in
                Some (with_opens sys
                        (<[id := mkMgrOpen owner resource lease AwaitOpened]> (sys_opens sys)))
            end
        end
  | EvSettle id wait timeout =>
      open ← sys_opens sys !! id;
      if match mo_stage open with
         | SpawnFailed _ => true
         | AwaitOpened => wait_possible sys id wait
         | Opened => false
         end
      then
        let '(st, next) := mgr_open_settle worker_names st id open wait timeout in
        let sys := with_state sys st in
        match next with
        | OpenProceed =>
            Some (with_opens sys
                    (<[id := mkMgrOpen (mo_owner open) (mo_resource open) (mo_lease open) Opened]>
                       (sys_opens sys)))
        | OpenFail _ =>
            Some (alter_worker (with_opens sys (delete id (sys_opens sys))) id worker_disconnect)
        | OpenQuarantine _ =>
            let sys := alter_worker (with_opens sys (delete id (sys_opens sys))) id
                         UsbWorker_request_close in
            Some (add_releaser sys id (mo_resource open))
        end
      else None
  | EvCommit id =>
      open ← sys_opens sys !! id;
      match mo_stage open with
      | Opened =>
          let '(st, res) := mgr_open_commit worker_names policy_extra st id open in
          let sys := with_opens (with_state sys st) (delete id (sys_opens sys)) in
          match res with
          | Ok _ => Some sys
          | Err _ =>
              Some (add_releaser (alter_worker sys id UsbWorker_request_close) id (mo_resource open))
          end
      | _ => None
      end
  | EvCancel id =>
      _ ← sys_opens sys !! id;
      Some (alter_worker (with_opens sys (delete id (sys_opens sys))) id worker_disconnect)
  | EvAdmit id lease command =>
      let '(st, res) := session_worker worker_names policy_admits st id lease (cmd_operation command)
                         (finished sys id) (closing sys id) in
      let sys := with_state sys st in
      Some match res with
           | Ok _ => with_tasks sys ((id, command) :: sys_callers sys) (sys_closers sys)
                       (sys_reapers sys) (sys_releasers sys) (sys_revokes sys)
           | Err _ => sys
           end
  | EvEnqueue n =>
      '(id, command) ← sys_callers sys !! n;
      let sys := with_tasks sys (delete n (sys_callers sys)) (sys_closers sys)
                   (sys_reapers sys) (sys_releasers sys) (sys_revokes sys) in
      Some (alter_worker sys id (λ w, default w
              (result_ok (UsbWorker_try_enqueue w command (cmd_operation command)))))
  | EvCloseBegin id lease =>
      let '(st, res) := policy_close st id lease (finished sys id) (closing sys id) in
      let sys := with_state sys st in
      Some match res with
           | Ok _ => with_tasks sys (sys_callers sys) (id :: sys_closers sys)
                       (sys_reapers sys) (sys_releasers sys) (sys_revokes sys)
           | Err _ => sys
           end
  | EvCloseTell n =>
      id ← sys_closers sys !! n;
      let sys := with_tasks sys (sys_callers sys) (delete n (sys_closers sys))
                   (sys_reapers sys) (sys_releasers sys) (sys_revokes sys) in
      Some (add_reaper (alter_worker sys id UsbWorker_request_close) id)
  | EvFinish id =>
      if bool_decide (id ∈ sys_reapers sys) && finished sys id
      then Some (with_state sys (finish_session st id)) else None
  | EvRelease n =>
      '(id, resource) ← sys_releasers sys !! n;
      if finished sys id then
        Some (with_tasks (with_state sys (mgr_release st resource id)) (sys_callers sys)
                (sys_closers sys) (sys_reapers sys) (delete n (sys_releasers sys))
                (sys_revokes sys))
      else None
  | EvRevoke owner targets =>
      if same_elements targets (mgr_owner_sessions st owner) then
        let sys := foldl (λ sys '(id, _), alter_worker sys id UsbWorker_request_close) sys targets in
        Some (with_tasks sys (sys_callers sys) (sys_closers sys) (sys_reapers sys)
                (sys_releasers sys) (targets :: sys_revokes sys))
      else None
  | EvRevokeStart n =>
      targets ← sys_revokes sys !! n;
      '(id, _) ← head targets;
      Some (add_reaper sys id)
  | EvRevokeEnd n timed_out timeout =>
      targets ← sys_revokes sys !! n;
      '(id, resource) ← head targets;
      let completion := if timed_out then None else sys_workers sys !! id ≫= w_completion in
      if bool_decide (id ∈ sys_reapers sys) && (timed_out || is_some completion) then
        let '(st, res) := mgr_revoke_round worker_names st id resource completion timeout in
        Some (with_tasks (with_state sys st) (sys_callers sys) (sys_closers sys) (sys_reapers sys)
                (sys_releasers sys)
                match res with
                | Ok _ => <[n := tail targets]> (sys_revokes sys)
                | Err _ => delete n (sys_revokes sys)
                end)
      else None
  | EvMove id m =>
      w ← sys_workers sys !! id;
      w ← worker_move w m;
      Some (with_workers sys (<[id := w]> (sys_workers sys)))
  end.

Definition mgr_step sys sys' : Prop := ∃ ev, mgr_exec sys ev = Some sys'.
Definition mgr_run sys (evs : list MgrEvent) : option MgrSystem :=
  foldl (λ o ev, o ≫= λ sys, mgr_exec sys ev) (Some sys) evs.

(** ** Invariant *)
Definition leased (st : MgrState X) (r : ResourceId) id : Prop :=
  ∃ a, active (ms_leases st) !! r = Some a ∧ al_session_id a = id.
Record mgr_inv sys : Prop := {
  ui_workers : ∀ id w, sys_workers sys !! id = Some w → worker_ok w;
  (** a thread that has, or may get, a native session is covered by a lease; *)
  ui_native : ∀ id w, sys_workers sys !! id = Some w → holds_native w = true →
    leased (sys_state sys) (w_target w) id;
  (** so are open sessions, which are neither being opened nor being released; *)
  ui_sessions : ∀ id e, ms_sessions (sys_state sys) !! id = Some e →
    leased (sys_state sys) (me_resource e) id ∧ sys_opens sys !! id = None ∧
    is_Some (sys_workers sys !! id) ∧ ∀ r, (id, r) ∉ sys_releasers sys;
  (** an [open] in progress holds its uncommitted reservation. *)
  ui_opens : ∀ id o, sys_opens sys !! id = Some o →
    active (ms_leases (sys_state sys)) !! mo_resource o
      = Some (mkActiveLease id (mo_owner o) (mo_lease o) false) ∧
    (∀ r, (id, r) ∉ sys_releasers sys) ∧
    match mo_stage o with
    | SpawnFailed _ => sys_workers sys !! id = None
    | _ => is_Some (sys_workers sys !! id)
    end;
  ui_releasers : ∀ id r, (id, r) ∈ sys_releasers sys → is_Some (sys_workers sys !! id);
}.

Lemma mgr_inv_init : mgr_inv MgrSystem_init.
Proof. split; cbn; intros *; rewrite ?lookup_empty; try done. by intros ?%elem_of_nil. Qed.

Lemma release_other t r id r' a :
  active t !! r' = Some a → al_session_id a ≠ id →
  active (LeaseTable_release t r id).1 !! r' = Some a.
Proof.
  intros Ha Hne. destruct (LeaseTable_release t r id) as [t' ok] eqn:Hr. cbn.
  apply release_inv in Hr as [(_ & -> & _)|(b & Hb & Hid & _ & -> & _)]; [done|].
  rewrite lookup_delete_ne; [done|]. intros ->. congruence.
Qed.
Lemma leased_release st r id r' id' :
  leased st r' id' → id' ≠ id → leased (mgr_release st r id) r' id'.
Proof. intros (a & Ha & <-) Hne. exists a. split; [by apply release_other|done]. Qed.

(** Only the list of waiting calls changes. *)
Lemma inv_tasks sys callers closers reapers revokes :
  mgr_inv sys →
  mgr_inv (with_tasks sys callers closers reapers (sys_releasers sys) revokes).
Proof. by intros []. Qed.

(** A worker changes, in a way that does not give it a native session. *)
Lemma inv_alter_worker sys id f :
  mgr_inv sys →
  (∀ w, sys_workers sys !! id = Some w → worker_ok (f w) ∧ w_target (f w) = w_target w ∧
     (holds_native (f w) = true → holds_native w = true)) →
  mgr_inv (alter_worker sys id f).
Proof.
  intros [Hw Hn Hs Ho Hr] Hf.
  assert (∀ id', is_Some (alter f id (sys_workers sys) !! id') ↔ is_Some (sys_workers sys !! id'))
    as Hdom.
  { intros id'. rewrite lookup_alter. case_decide; [subst|done]. by rewrite fmap_is_Some. }
  split; cbn.
  - intros id' w'. rewrite lookup_alter_Some. intros [(<- & w & Hl & ->)|[_ Hl]]; [|eauto].
    by apply Hf.
  - intros id' w'. rewrite lookup_alter_Some. intros [(<- & w & Hl & ->)|[_ Hl]] Hnat; [|eauto].
    destruct (Hf w Hl) as (_ & -> & Hk). eauto.
  - intros id' e He. rewrite Hdom. eauto.
  - intros id' o Hoo. destruct (Ho _ _ Hoo) as (? & ? & Hst). split_and!; [done..|].
    destruct (mo_stage o); [|by apply Hdom..].
    apply eq_None_not_Some. rewrite Hdom. by rewrite Hst; intros [? ?].
  - intros id' r Hin. rewrite Hdom. eauto.
Qed.

Lemma inv_close_worker sys id : mgr_inv sys → mgr_inv (alter_worker sys id UsbWorker_request_close).
Proof.
  intros Hi. apply inv_alter_worker; [done|]. intros w Hl. split_and!; [|done|done].
  eapply worker_step_ok; [apply worker_step_close|by eapply ui_workers].
Qed.
Lemma inv_disconnect sys id : mgr_inv sys → mgr_inv (alter_worker sys id worker_disconnect).
Proof.
  intros Hi. apply inv_alter_worker; [done|]. intros w Hl. split_and!; [|done|done].
  eapply worker_step_ok; [apply worker_step_disconnect|by eapply ui_workers].
Qed.

Definition not_native sys id : Prop :=
  ∀ w, sys_workers sys !! id = Some w → holds_native w = false.
Lemma finished_not_native sys id : mgr_inv sys → finished sys id = true → not_native sys id.
Proof.
  intros Hi Hf w Hl. unfold finished in Hf. rewrite Hl in Hf.
  destruct (ui_workers _ Hi _ _ Hl) as [_ H2 _ _ _ _ _]. unfold UsbWorker_is_finished in Hf.
  rewrite H2 in Hf. unfold is_done, holds_native in *. by destruct (w_phase w).
Qed.

(** A lease is released for a session that is over. *)
Lemma inv_release sys r id :
  mgr_inv sys → not_native sys id → ms_sessions (sys_state sys) !! id = None →
  sys_opens sys !! id = None → mgr_inv (with_state sys (mgr_release (sys_state sys) r id)).
Proof.
  intros [Hw Hn Hs Ho Hr] Hnn Hses Hop. split; cbn; [done|..|done].
  - intros id' w Hl Hnat. apply leased_release; [eauto|]. intros ->.
    by rewrite (Hnn w Hl) in Hnat.
  - intros id' e He. destruct (Hs _ _ He) as (? & ? & ? & ?). split_and!; [|done..].
    apply leased_release; [done|]. congruence.
  - intros id' o Hoo. destruct (Ho _ _ Hoo) as (Ha & ? & ?). split_and!; [|done..].
    apply release_other; [done|]. cbn. congruence.
Qed.

Lemma inv_delete_open sys id : mgr_inv sys → mgr_inv (with_opens sys (delete id (sys_opens sys))).
Proof.
  intros [Hw Hn Hs Ho Hr]. split; cbn; [done..| | |done].
  - intros id' e He. destruct (Hs _ _ He) as (? & ? & ? & ?). split_and!; try done.
    by apply lookup_delete_None; right.
  - intros id' o [_ Hoo]%lookup_delete_Some. eauto.
Qed.

(** A session whose worker is over is forgotten. *)
Lemma inv_forget sys id e :
  mgr_inv sys → not_native sys id → ms_sessions (sys_state sys) !! id = Some e →
  mgr_inv (with_state sys (mgr_forget (sys_state sys) id e)).
Proof.
  intros Hi Hnn He. destruct (ui_sessions _ Hi _ _ He) as (_ & Hop & _ & _).
  assert (mgr_inv (with_state sys (mkMgrState (ms_leases (sys_state sys))
    (delete id (ms_sessions (sys_state sys)))
    (<[id := (me_resource e, me_owner e)]> (ms_closed (sys_state sys)))))) as Hi'.
  { destruct Hi as [Hw Hn Hs Ho Hr]. split; cbn; [done..| |done|done].
    intros id' e' [_ He']%lookup_delete_Some. by apply Hs. }
  apply (inv_release _ (me_resource e) id) in Hi'; [done|done| |done].
  cbn. apply lookup_delete_eq.
Qed.
Lemma inv_finish sys id :
  mgr_inv sys → not_native sys id → mgr_inv (with_state sys (finish_session (sys_state sys) id)).
Proof.
  intros Hi Hnn. unfold finish_session. destruct (ms_sessions (sys_state sys) !! id) eqn:He.
  - by apply inv_forget.
  - by destruct sys.
Qed.
Lemma inv_add_releaser sys id r :
  mgr_inv sys → is_Some (sys_workers sys !! id) → ms_sessions (sys_state sys) !! id = None →
  sys_opens sys !! id = None → mgr_inv (add_releaser sys id r).
Proof.
  intros [Hw Hn Hs Ho Hr] Hsome Hses Hop. split; cbn; [done|done|..].
  - intros id' e He. destruct (Hs _ _ He) as (? & ? & ? & Hnot). split_and!; [done..|].
    intros r' [[= -> ->]|Hin]%elem_of_cons; [congruence|by eapply Hnot].
  - intros id' o Hoo. destruct (Ho _ _ Hoo) as (? & Hnot & ?). split_and!; [done| |done].
    intros r' [[= -> ->]|Hin]%elem_of_cons; [congruence|by eapply Hnot].
  - intros id' r' [[= -> ->]|Hin]%elem_of_cons; eauto.
Qed.
Lemma opens_no_session sys id o :
  mgr_inv sys → sys_opens sys !! id = Some o → ms_sessions (sys_state sys) !! id = None.
Proof.
  intros Hi Ho. destruct (ms_sessions (sys_state sys) !! id) as [e|] eqn:He; [|done].
  destruct (ui_sessions _ Hi _ _ He) as (_ & Hn & _). congruence.
Qed.

Lemma resolve_resource_id ds selector cap op d :
  resolve_resource ds selector cap op = Ok d → desc_id d = sel_id selector.
Proof.
  unfold resolve_resource. destruct (List.filter _ ds) as [|d' [|]] eqn:Hf; intros Hr.
  - by apply bind_Ok in Hr as (? & _ & ?).
  - injection Hr as <-. assert (d' ∈ List.filter (descriptor_matches selector cap) ds) as Hin
      by (rewrite Hf; set_solver).
    apply list_elem_of_In, filter_In in Hin as [_ Hm]. unfold descriptor_matches in Hm.
    by bool_simp.
  - by apply bind_Ok in Hr as (? & _ & ?).
Qed.

Lemma mgr_open_reserve_Ok st adapter owner selector id fresh st' r lease :
  mgr_open_reserve worker_names st adapter owner selector id fresh = (st', Ok (r, lease)) →
  r = sel_id selector ∧ active (ms_leases st) !! r = None ∧
  ms_sessions st' = ms_sessions st ∧
  active (ms_leases st') = <[r := mkActiveLease id owner lease false]> (active (ms_leases st)).
Proof.
  unfold mgr_open_reserve. destruct (_ ≫= _) as [d|] eqn:Hd; [|done].
  apply bind_Ok in Hd as (en & _ & Hd). apply bind_Ok in Hd as (ds & _ & Hd%resolve_resource_id).
  destruct (LeaseTable_reserve_control _ _ _ _ _) as [t [tok|]] eqn:Hr; [|done].
  intros [= <- <- <-]. apply reserve_control_Ok in Hr as (Hnone & _ & _ & ->).
  by rewrite Hd in *.
Qed.
Lemma mgr_open_reserve_Err st adapter owner selector id fresh st' e :
  mgr_open_reserve worker_names st adapter owner selector id fresh = (st', Err e) →
  ms_sessions st' = ms_sessions st ∧ active (ms_leases st') = active (ms_leases st).
Proof.
  unfold mgr_open_reserve. destruct (_ ≫= _) as [d|] eqn:Hd; [|by intros [= <- _]].
  unfold LeaseTable_reserve_control. destruct (is_some _); [by intros [= <- _]|].
  by destruct (checked_add _ _ _); intros [= <- _].
Qed.

Lemma inv_same_view sys st :
  mgr_inv sys → ms_sessions st = ms_sessions (sys_state sys) →
  active (ms_leases st) = active (ms_leases (sys_state sys)) → mgr_inv (with_state sys st).
Proof.
  intros [Hw Hn Hs Ho Hr] Hses Hact. split; cbn; unfold leased in *; rewrite ?Hses, ?Hact; done.
Qed.

(** A reservation is added for a new session. *)
Lemma inv_reserved sys st r id owner lease :
  mgr_inv sys → active (ms_leases (sys_state sys)) !! r = None →
  ms_sessions st = ms_sessions (sys_state sys) →
  active (ms_leases st)
    = <[r := mkActiveLease id owner lease false]> (active (ms_leases (sys_state sys))) →
  mgr_inv (with_state sys st) ∧ leased st r id.
Proof.
  intros [Hw Hn Hs Ho Hr] Hnone Hses Hact.
  assert (∀ r' a, active (ms_leases (sys_state sys)) !! r' = Some a →
    active (ms_leases st) !! r' = Some a) as Hmono.
  { intros r' a Ha. rewrite Hact, lookup_insert_ne; [done|]. congruence. }
  assert (∀ r' id', leased (sys_state sys) r' id' → leased st r' id') as Hl.
  { intros r' id' (a & Ha & <-). exists a. eauto. }
  split.
  - split; cbn; rewrite ?Hses; [done|by eauto|..|done].
    + intros id' e He. destruct (Hs _ _ He) as (? & ? & ? & ?). eauto.
    + intros id' o Hoo. destruct (Ho _ _ Hoo) as (? & ? & ?). eauto.
  - eexists. rewrite Hact, lookup_insert_eq. done.
Qed.

Lemma inv_insert_open sys id o :
  mgr_inv sys → ms_sessions (sys_state sys) !! id = None →
  active (ms_leases (sys_state sys)) !! mo_resource o
    = Some (mkActiveLease id (mo_owner o) (mo_lease o) false) →
  (∀ r, (id, r) ∉ sys_releasers sys) →
  match mo_stage o with
  | SpawnFailed _ => sys_workers sys !! id = None
  | _ => is_Some (sys_workers sys !! id)
  end →
  mgr_inv (with_opens sys (<[id := o]> (sys_opens sys))).
Proof.
  intros [Hw Hn Hs Ho Hr] Hses Hact Hrel Hst. split; cbn; [done|done|..|done].
  - intros id' e He. destruct (Hs _ _ He) as (? & ? & ? & ?). split_and!; [done| |done..].
    rewrite lookup_insert_ne by congruence. done.
  - intros id' o' [[<- <-]|[_ Ho']]%lookup_insert_Some; eauto.
Qed.

Lemma inv_spawn sys id r :
  mgr_inv sys → sys_workers sys !! id = None → sys_opens sys !! id = None →
  leased (sys_state sys) r id →
  mgr_inv (with_workers sys (<[id := spawn_worker r]> (sys_workers sys))).
Proof.
  intros [Hw Hn Hs Ho Hr] Hnone Hop Hl.
  assert (∀ id', is_Some (sys_workers sys !! id') →
    is_Some (<[id := spawn_worker r]> (sys_workers sys) !! id')) as Hdom.
  { intros id' ?. by apply lookup_insert_is_Some'; right. }
  split; cbn.
  - intros id' w [[<- <-]|[_ Hl']]%lookup_insert_Some; [apply spawn_worker_ok|eauto].
  - intros id' w [[<- <-]|[_ Hl']]%lookup_insert_Some; eauto.
  - intros id' e He. destruct (Hs _ _ He) as (? & ? & ? & ?). eauto.
  - intros id' o Hoo. destruct (Ho _ _ Hoo) as (? & ? & Hst). split_and!; [done..|].
    destruct (mo_stage o); [|by apply Hdom..]. rewrite lookup_insert_ne by congruence. done.
  - intros id' r' Hin. apply Hdom. eauto.
Qed.

Lemma inv_open sys adapter owner selector id fresh spawn sys' :
  mgr_inv sys → mgr_exec sys (EvOpen adapter owner selector id fresh spawn) = Some sys' →
  mgr_inv sys'.
Proof.
  intros Hi. cbn. destruct (_ || _) eqn:Hfresh; [done|]. bool_simp.
  destruct (sys_workers sys !! id) eqn:Hwk; [done|].
  destruct (sys_opens sys !! id) eqn:Hop; [done|].
  destruct (ms_sessions (sys_state sys) !! id) eqn:Hses; [done|].
  destruct (mgr_open_reserve _ _ _ _ _ _) as [st [[r lease]|e]] eqn:Hres.
  2:{ intros [= <-]. apply mgr_open_reserve_Err in Hres as [? ?]. by apply inv_same_view. }
  apply mgr_open_reserve_Ok in Hres as (-> & Hnone & Hss & Hact).
  destruct (inv_reserved _ _ _ _ _ _ Hi Hnone Hss Hact) as [Hi' Hl].
  assert (∀ r, (id, r) ∉ sys_releasers sys) as Hrel.
  { intros r Hin. destruct (ui_releasers _ Hi _ _ Hin). congruence. }
  destruct spawn as [error|]; intros [= <-].
  - apply (inv_insert_open (with_state sys st)); cbn; [done|by rewrite Hss|by rewrite Hact, lookup_insert_eq|done..].
  - apply (inv_insert_open (with_workers (with_state sys st) _)); cbn;
      [|by rewrite Hss|by rewrite Hact, lookup_insert_eq|done|by rewrite lookup_insert_eq].
    by apply (inv_spawn (with_state sys st)).
Qed.

Lemma inv_fail_open sys id o r :
  mgr_inv sys → sys_opens sys !! id = Some o → not_native sys id →
  mgr_inv (alter_worker (with_opens (with_state sys (mgr_release (sys_state sys) r id))
             (delete id (sys_opens sys))) id worker_disconnect).
Proof.
  intros Hi Ho Hnn. apply inv_disconnect.
  change (mgr_inv (with_state (with_opens sys (delete id (sys_opens sys)))
    (mgr_release (sys_state sys) r id))).
  apply (inv_release (with_opens sys (delete id (sys_opens sys))) r id);
    [by apply inv_delete_open|done|by apply (opens_no_session sys id o)|apply lookup_delete_eq].
Qed.
(** An [open] gives up on a worker that it tells to close. *)
Lemma inv_abandon_open sys id o :
  mgr_inv sys → sys_opens sys !! id = Some o → is_Some (sys_workers sys !! id) →
  mgr_inv (add_releaser (alter_worker (with_opens sys (delete id (sys_opens sys))) id
             UsbWorker_request_close) id (mo_resource o)).
Proof.
  intros Hi Ho Hsome. apply inv_add_releaser;
    [|cbn|by apply (opens_no_session sys id o)|apply lookup_delete_eq].
  - by apply inv_close_worker, inv_delete_open.
  - rewrite lookup_alter, decide_True by done. by apply fmap_is_Some.
Qed.

Lemma inv_settle sys id wait timeout sys' :
  mgr_inv sys → mgr_exec sys (EvSettle id wait timeout) = Some sys' → mgr_inv sys'.
Proof.
  intros Hi. cbn. destruct (sys_opens sys !! id) as [o|] eqn:Ho; [|done]. cbn.
  destruct (ui_opens _ Hi _ _ Ho) as (Hact & Hrel & Hst).
  unfold mgr_open_settle. destruct (mo_stage o) as [error| |] eqn:Hstage; [| |done].
  - intros [= <-]. eapply inv_fail_open; [done..|]. intros w Hw. congruence.
  - destruct (wait_possible sys id wait) eqn:Hwait; [|done].
    destruct Hst as [w Hw]. unfold wait_possible in Hwait. rewrite Hw in Hwait. cbn in Hwait.
    destruct (ui_workers _ Hi _ _ Hw) as [_ _ Hopd _ _ _ _].
    assert (match w_opened w with OpenSent (Err _) | OpenDropped => True | _ => False end →
      not_native sys id) as Hnn.
    { intros Hcase w' Hw'. replace w' with w by congruence.
      by destruct (w_opened w) as [|[]|]. }
    destruct wait as [[u|error]| |]; intros [= <-].
    + apply (inv_insert_open (with_state sys (sys_state sys))); cbn;
        [by destruct sys|by apply (opens_no_session sys id o)|done|done|by exists w].
    + eapply inv_fail_open; [done..|]. apply Hnn. by destruct (w_opened w) as [|[]|].
    + eapply inv_fail_open; [done..|]. apply Hnn. by destruct (w_opened w) as [|[]|].
    + by apply (inv_abandon_open (with_state sys (sys_state sys))); [destruct sys| |exists w].
Qed.

Lemma inv_commit sys id sys' :
  mgr_inv sys → mgr_exec sys (EvCommit id) = Some sys' →
  mgr_inv sys' ∧ ∃ e, ms_sessions (sys_state sys') !! id = Some e ∧ me_extra e = policy_extra.
Proof.
  intros Hi. cbn. destruct (sys_opens sys !! id) as [o|] eqn:Ho; [|done]. cbn.
  destruct (ui_opens _ Hi _ _ Ho) as (Hact & Hrel & Hst).
  destruct (mo_stage o) eqn:Hstage; [done|done|].
  unfold mgr_open_commit. rewrite (surjective_pairing (LeaseTable_commit _ _ _ _)).
  unfold LeaseTable_commit. rewrite Hact. cbn.
  rewrite !bool_decide_eq_false_2 by (by intros ?). cbn. intros [= <-].
  split; [|eexists; cbn; by rewrite lookup_insert_eq].
  pose proof (opens_no_session _ _ _ Hi Ho) as Hses.
  destruct Hi as [Hw Hn Hs Hop Hr].
  set (a := ActiveLease_set_committed _).
  assert (∀ r' id', leased (sys_state sys) r' id' →
    ∃ b, <[mo_resource o := a]> (active (ms_leases (sys_state sys))) !! r' = Some b ∧
      al_session_id b = id') as Hl.
  { intros r' id' (b & Hb & <-). destruct (decide (r' = mo_resource o)) as [->|].
    - exists a. rewrite lookup_insert_eq. by simplify_eq/=.
    - exists b. by rewrite lookup_insert_ne. }
  split; cbn; [done|by unfold leased; cbn; eauto|..|done].
  - intros id' e [[<- <-]|[Hne He]]%lookup_insert_Some; cbn.
    + split_and!; [|by apply lookup_delete_eq|done..]. unfold leased. cbn. exists a.
      by rewrite lookup_insert_eq.
    + destruct (Hs _ _ He) as (Hle & ? & ? & ?). split_and!; [|by apply lookup_delete_None; right|done..].
      unfold leased. cbn. by apply Hl.
  - intros id' o' [Hne Ho']%lookup_delete_Some. destruct (Hop _ _ Ho') as (Ha & ? & ?).
    split_and!; [|done..]. rewrite lookup_insert_ne; [done|]. intros Heq.
    rewrite <- Heq, Hact in Ha. by injection Ha.
Qed.

Lemma inv_admit sys id lease command sys' :
  mgr_inv sys → mgr_exec sys (EvAdmit id lease command) = Some sys' → mgr_inv sys'.
Proof.
  intros Hi. cbn. unfold session_worker.
  destruct (ms_sessions (sys_state sys) !! id) as [e|] eqn:He.
  2:{ destruct (_ ≫= _) eqn:Hb; intros [= <-]; [|by destruct sys].
      apply bind_Ok in Hb as (? & _ & ?). done. }
  destruct (LeaseTable_validate _ _ _ _ _ _); [|intros [= <-]; by destruct sys].
  destruct (finished sys id) eqn:Hf.
  - intros [= <-]. apply inv_forget; [done|by apply finished_not_native|done].
  - destruct (_ || _); intros [= <-]; [by destruct sys|].
    by apply (inv_tasks (with_state sys (sys_state sys))); destruct sys.
Qed.
Lemma inv_enqueue sys n sys' :
  mgr_inv sys → mgr_exec sys (EvEnqueue n) = Some sys' → mgr_inv sys'.
Proof.
  intros Hi. cbn. destruct (sys_callers sys !! n) as [[id c]|]; [|done]. intros [= <-].
  apply inv_alter_worker; [by apply inv_tasks|]. intros w Hl.
  destruct (UsbWorker_try_enqueue w c (cmd_operation c)) as [w'|] eqn:He; cbn.
  - pose proof (enqueue_Ok _ _ _ _ He) as (_ & _ & ->). split_and!; [|done|done].
    eapply worker_step_ok; [by eapply worker_step_enqueue|by eapply ui_workers].
  - split_and!; [by eapply ui_workers|done|done].
Qed.
(** What an entry remembers is of no concern to the invariant. *)
Lemma inv_set_extra sys id e x :
  mgr_inv sys → ms_sessions (sys_state sys) !! id = Some e →
  mgr_inv (with_state sys (mkMgrState (ms_leases (sys_state sys))
    (<[id := mkMgrEntry (me_resource e) (me_owner e) x]> (ms_sessions (sys_state sys)))
    (ms_closed (sys_state sys)))).
Proof.
  intros [Hw Hn Hs Ho Hr] He. split; cbn; [done|done|..|done|done].
  intros id' e' [[<- <-]|[_ He']]%lookup_insert_Some; cbn; [by apply (Hs _ e)|by apply Hs].
Qed.
Lemma inv_close_begin sys id lease sys' :
  mgr_inv sys → mgr_exec sys (EvCloseBegin id lease) = Some sys' → mgr_inv sys'.
Proof.
  intros Hi. cbn. destruct (policy_close _ _ _ _ _) as [st res] eqn:Hc.
  assert (mgr_inv (with_state sys st)) as Hi'.
  { apply policy_close_frame in Hc as [-> |(e & He & [[x ->]|(Hf & -> & _)])].
    - by destruct sys.
    - by apply inv_set_extra.
    - apply inv_forget; [done|by apply finished_not_native|done]. }
  destruct res; intros [= <-]; [|done]. by apply (inv_tasks (with_state sys st)).
Qed.
Lemma inv_revoke sys (targets : list (SessionId * ResourceId)) :
  mgr_inv sys →
  mgr_inv (foldl (λ sys '(id, _), alter_worker sys id UsbWorker_request_close) sys targets).
Proof.
  revert sys. induction targets as [|[id r] targets IH]; cbn; intros sys Hi; [done|].
  by apply IH, inv_close_worker.
Qed.
Lemma inv_release_task sys n sys' :
  mgr_inv sys → mgr_exec sys (EvRelease n) = Some sys' → mgr_inv sys'.
Proof.
  intros Hi. cbn. destruct (sys_releasers sys !! n) as [[id r]|] eqn:Hn; [|done]. cbn.
  destruct (finished sys id) eqn:Hf; [|done]. intros [= <-].
  apply list_elem_of_lookup_2 in Hn.
  assert (mgr_inv (with_state sys (mgr_release (sys_state sys) r id))) as Hi'.
  { apply inv_release; [done|by apply finished_not_native|..].
    - destruct (ms_sessions (sys_state sys) !! id) as [e|] eqn:He; [|done].
      destruct (ui_sessions _ Hi _ _ He) as (_ & _ & _ & Hno). by destruct (Hno r).
    - destruct (sys_opens sys !! id) as [o|] eqn:Ho; [|done].
      destruct (ui_opens _ Hi _ _ Ho) as (_ & Hno & _). by destruct (Hno r). }
  destruct Hi' as [Hw Hna Hs Ho Hr]. split; cbn in *; [done|done|..].
  - intros id' e He. destruct (Hs _ _ He) as (? & ? & ? & Hno). split_and!; [done..|].
    intros r' Hin. apply (Hno r'). by eapply list_elem_of_delete_inv.
  - intros id' o Hoo. destruct (Ho _ _ Hoo) as (? & Hno & ?). split_and!; [done| |done].
    intros r' Hin. apply (Hno r'). by eapply list_elem_of_delete_inv.
  - intros id' r' Hin. apply (Hr id' r'). by eapply list_elem_of_delete_inv.
Qed.
Lemma inv_revoke_end sys n timed_out timeout sys' :
  mgr_inv sys → mgr_exec sys (EvRevokeEnd n timed_out timeout) = Some sys' → mgr_inv sys'.
Proof.
  intros Hi. cbn. destruct (sys_revokes sys !! n) as [targets|]; [|done]. cbn.
  destruct (head targets) as [[id r]|]; [|done]. cbn.
  destruct (_ && _) eqn:Hc; [|done]. bool_simp.
  destruct timed_out; cbn.
  { intros [= <-]. by apply (inv_tasks (with_state sys (sys_state sys))); destruct sys. }
  assert (is_some (sys_workers sys !! id ≫= w_completion) = true → finished sys id = true) as Hf.
  { unfold finished, UsbWorker_is_finished. by destruct (sys_workers sys !! id). }
  destruct (sys_workers sys !! id ≫= w_completion) as [[u|e]|]; [| |naive_solver]; cbn;
    intros [= <-].
  - apply (inv_tasks (with_state sys (finish_session (sys_state sys) id))).
    apply inv_finish; [done|]. by apply finished_not_native, Hf.
  - by apply (inv_tasks (with_state sys (sys_state sys))); destruct sys.
Qed.

Lemma mgr_inv_step sys sys' : mgr_step sys sys' → mgr_inv sys → mgr_inv sys'.
Proof.
  intros [[] Hev] Hi; [by eapply inv_open|by eapply inv_settle|by eapply inv_commit| |
    by eapply inv_admit|by eapply inv_enqueue|by eapply inv_close_begin| | |
    by eapply inv_release_task| | |by eapply inv_revoke_end|]; cbn in Hev.
  - destruct (sys_opens sys !! id); [|done]. injection Hev as <-.
    by apply inv_disconnect, inv_delete_open.
  - destruct (sys_closers sys !! n); [|done]. injection Hev as <-.
    by apply inv_tasks, inv_close_worker, inv_tasks.
  - destruct (_ && _) eqn:Hc; [|done]. bool_simp. injection Hev as <-.
    apply inv_finish; [done|]. by apply finished_not_native.
  - destruct (same_elements _ _); [|done]. injection Hev as <-. apply inv_tasks, inv_revoke, Hi.
  - destruct (sys_revokes sys !! n); [|done]. cbn in Hev. destruct (head l) as [[]|]; [|done].
    injection Hev as <-. by apply inv_tasks.
  - destruct (sys_workers sys !! id) as [w|] eqn:Hw; [|done]. cbn in Hev.
    destruct (worker_move w m) as [w'|] eqn:Hm; [|done]. injection Hev as <-.
    replace (with_workers sys (<[id := w']> (sys_workers sys)))
      with (alter_worker sys id (λ _, w')).
    + apply inv_alter_worker; [done|]. intros w0 Hw0. replace w0 with w by congruence.
      split_and!; [|by eapply move_target|by eapply move_native].
      eapply move_ok; [done|by eapply ui_workers].
    + unfold alter_worker. f_equal. apply map_eq. intros i. rewrite lookup_alter, lookup_insert.
      case_decide; [subst; by rewrite Hw|done].
Qed.
Lemma mgr_inv_reachable sys : rtc mgr_step MgrSystem_init sys → mgr_inv sys.
Proof.
  intros Hr. remember MgrSystem_init as init eqn:Hinit.
  assert (mgr_inv init) as Hi by (subst; apply mgr_inv_init). clear Hinit.
  induction Hr; eauto using mgr_inv_step.
Qed.

(** ** Closing is final *)
Lemma closing_alter sys id id' f :
  (∀ w, w_shutdown w = true → w_shutdown (f w) = true) →
  closing sys id = true → closing (alter_worker sys id' f) id = true.
Proof.
  unfold closing, UsbWorker_is_closing. cbn. intros Hf. rewrite lookup_alter. case_decide; [|done].
  subst. destruct (sys_workers sys !! id) as [w|]; cbn; [apply Hf|done].
Qed.
Lemma enqueue_shutdown (w : Worker S Cmd Resp) c op :
  w_shutdown (default w (result_ok (UsbWorker_try_enqueue w c op))) = w_shutdown w.
Proof.
  destruct (UsbWorker_try_enqueue w c op) as [w'|] eqn:He; [|done].
  by apply enqueue_Ok in He as (_ & _ & ->).
Qed.
Lemma closing_step sys sys' id :
  mgr_step sys sys' → closing sys id = true → closing sys' id = true.
Proof.
  intros [ev Hev] Hc. destruct ev; cbn in Hev.
  - destruct (_ || _) eqn:Hfr; [done|]. bool_simp.
    assert (id ≠ id0). { intros ->. unfold closing in Hc. by destruct (sys_workers sys !! id0). }
    destruct (mgr_open_reserve _ _ _ _ _ _) as [st [[r l]|]]; [|by injection Hev as <-].
    destruct spawn; injection Hev as <-; [done|].
    unfold closing. cbn. by rewrite lookup_insert_ne.
  - destruct (sys_opens sys !! id0) as [o|]; [|done]. cbn in Hev. case_match; [|done].
    destruct (mgr_open_settle _ _ _ _ _) as [st []]; injection Hev as <-; [done| |];
      by apply closing_alter.
  - destruct (sys_opens sys !! id0) as [o|]; [|done]. cbn in Hev.
    destruct (mo_stage o); [done|done|].
    destruct (mgr_open_commit _ _ _) as [st []]; injection Hev as <-; [done|].
    by apply closing_alter.
  - destruct (sys_opens sys !! id0); [|done]. injection Hev as <-. by apply closing_alter.
  - destruct (session_worker _ _ _ _ _ _ _ _) as [st []]; by injection Hev as <-.
  - destruct (sys_callers sys !! n) as [[]|]; [|done]. injection Hev as <-.
    apply closing_alter; [|done]. intros w. by rewrite enqueue_shutdown.
  - destruct (policy_close _ _ _ _ _) as [st []]; by injection Hev as <-.
  - destruct (sys_closers sys !! n); [|done]. injection Hev as <-. by apply closing_alter.
  - destruct (_ && _); [|done]. by injection Hev as <-.
  - destruct (sys_releasers sys !! n) as [[]|]; [|done]. cbn in Hev.
    destruct (finished _ _); [|done]. by injection Hev as <-.
  - destruct (same_elements _ _); [|done]. injection Hev as <-. unfold closing. cbn.
    change (closing (foldl (λ sys '(id, _), alter_worker sys id UsbWorker_request_close)
      sys targets) id = true).
    revert sys Hc. induction targets as [|[]]; cbn; [done|]. eauto using closing_alter.
  - destruct (sys_revokes sys !! n); [|done]. cbn in Hev. destruct (head l) as [[]|]; [|done].
    by injection Hev as <-.
  - destruct (sys_revokes sys !! n); [|done]. cbn in Hev. destruct (head l) as [[]|]; [|done].
    cbn in Hev. case_match; [|done]. destruct (mgr_revoke_round _ _ _ _ _). by injection Hev as <-.
  - destruct (sys_workers sys !! id0) as [w|] eqn:Hw; [|done]. cbn in Hev.
    destruct (worker_move w m) as [w'|] eqn:Hm; [|done]. injection Hev as <-.
    unfold closing, UsbWorker_is_closing in *. cbn. rewrite lookup_insert. case_decide; [subst|done].
    rewrite Hw in Hc. by rewrite (move_shutdown _ _ _ Hm).
Qed.
Lemma closing_steps sys sys' id :
  rtc mgr_step sys sys' → closing sys id = true → closing sys' id = true.
Proof. induction 1; eauto using closing_step. Qed.

(** ** Orphaned reservations *)
(** A lease whose session no call, task or entry knows about. *)
Record orphan sys (r : ResourceId) id : Prop := {
  or_leased : leased (sys_state sys) r id;
  or_session : ms_sessions (sys_state sys) !! id = None;
  or_open : sys_opens sys !! id = None;
  or_releaser : ∀ r', (id, r') ∉ sys_releasers sys;
  or_worker : is_Some (sys_workers sys !! id);
}.
Lemma orphan_worker sys r id id' f :
  orphan sys r id → orphan (alter_worker sys id' f) r id.
Proof.
  intros []. split; cbn; try done. rewrite lookup_alter. case_decide; [|done].
  subst. by apply fmap_is_Some.
Qed.
Lemma orphan_tasks sys r id callers closers reapers revokes :
  orphan sys r id →
  orphan (with_tasks sys callers closers reapers (sys_releasers sys) revokes) r id.
Proof. by intros []. Qed.
Lemma orphan_release sys r id r' id' :
  orphan sys r id → id' ≠ id → orphan (with_state sys (mgr_release (sys_state sys) r' id')) r id.
Proof. intros [] Hne. split; cbn; try done. by apply leased_release. Qed.
Lemma orphan_delete_open sys r id id' :
  orphan sys r id → orphan (with_opens sys (delete id' (sys_opens sys))) r id.
Proof. intros []. split; cbn; try done. by apply lookup_delete_None; right. Qed.
Lemma orphan_forget sys r id id' e :
  orphan sys r id → ms_sessions (sys_state sys) !! id' = Some e →
  orphan (with_state sys (mgr_forget (sys_state sys) id' e)) r id.
Proof.
  intros [Hl Hs ? ? ?] He. assert (id' ≠ id) by congruence. split; cbn; try done.
  - by apply (leased_release (sys_state sys)).
  - by apply lookup_delete_None; right.
Qed.
Lemma orphan_finish sys r id id' :
  orphan sys r id → orphan (with_state sys (finish_session (sys_state sys) id')) r id.
Proof.
  intros Ho. unfold finish_session. destruct (ms_sessions (sys_state sys) !! id') eqn:He;
    [by apply orphan_forget|by destruct sys].
Qed.
Lemma orphan_abandon sys r id id' r' :
  orphan sys r id → id' ≠ id → orphan (add_releaser sys id' r') r id.
Proof.
  intros [] Hne. split; cbn; try done.
  intros r1 [[= -> ->]|Hin]%elem_of_cons; [done|by eapply or_releaser0].
Qed.
Lemma orphan_insert_open sys r id id' o :
  orphan sys r id → id' ≠ id → orphan (with_opens sys (<[id' := o]> (sys_opens sys))) r id.
Proof. intros [] Hne. split; cbn; try done. by rewrite lookup_insert_ne. Qed.

Lemma orphan_open sys r id adapter owner selector id' fresh spawn sys' :
  orphan sys r id → mgr_exec sys (EvOpen adapter owner selector id' fresh spawn) = Some sys' →
  orphan sys' r id.
Proof.
  intros Ho. cbn. destruct (_ || _) eqn:Hfr; [done|]. bool_simp.
  assert (id' ≠ id) as Hne.
  { intros ->. destruct (or_worker _ _ _ Ho) as [w Hw]. by rewrite Hw in *. }
  destruct (mgr_open_reserve _ _ _ _ _ _) as [st [[r' l]|]] eqn:Hres.
  - apply mgr_open_reserve_Ok in Hres as (_ & Hnone & Hss & Hact).
    assert (orphan (with_state sys st) r id) as Ho'.
    { destruct Ho as [(a & Ha & Hid) ? ? ? ?]. split; cbn; rewrite ?Hss; try done.
      exists a. rewrite Hact, lookup_insert_ne by congruence. done. }
    destruct spawn; intros [= <-]; [by apply (orphan_insert_open (with_state sys st))|].
    apply (orphan_insert_open (with_workers (with_state sys st) _)); [|done].
    destruct Ho'. split; cbn; try done. by apply lookup_insert_is_Some'; right.
  - intros [= <-]. apply mgr_open_reserve_Err in Hres as [Hss Hact].
    destruct Ho as [(a & Ha & Hid) ? ? ? ?]. split; cbn; rewrite ?Hss; try done.
    exists a. by rewrite Hact.
Qed.
Lemma orphan_commit sys r id id' sys' :
  mgr_inv sys → orphan sys r id → mgr_exec sys (EvCommit id') = Some sys' → orphan sys' r id.
Proof.
  intros Hi Ho Hev. pose proof Hev as Hev'. cbn in Hev'.
  destruct (sys_opens sys !! id') as [o|] eqn:Hop; [|done]. cbn in Hev'.
  assert (id' ≠ id) by (destruct Ho; congruence).
  destruct (ui_opens _ Hi _ _ Hop) as (Hact & _ & _).
  destruct (mo_stage o) eqn:Hstage; [done|done|]. revert Hev'.
  unfold mgr_open_commit. rewrite (surjective_pairing (LeaseTable_commit _ _ _ _)).
  unfold LeaseTable_commit. rewrite Hact. cbn.
  rewrite !bool_decide_eq_false_2 by (by intros ?). cbn. intros [= <-].
  destruct Ho as [(a & Ha & Hid) ? ? ? ?]. split; cbn; try done.
  - exists a. cbn. rewrite lookup_insert_ne; [done|]. intros Heq. rewrite <- Heq, Hact in Ha.
    by simplify_eq/=.
  - by rewrite lookup_insert_ne.
  - by apply lookup_delete_None; right.
Qed.
Lemma orphan_settle sys r id id' wait timeout sys' :
  orphan sys r id → mgr_exec sys (EvSettle id' wait timeout) = Some sys' → orphan sys' r id.
Proof.
  intros Ho. cbn. destruct (sys_opens sys !! id') as [o|] eqn:Hop; [|done]. cbn.
  assert (id' ≠ id) by (destruct Ho; congruence). case_match; [|done].
  assert (∀ st, st = sys_state sys ∨ st = mgr_release (sys_state sys) (mo_resource o) id' →
    orphan (with_state sys st) r id) as Hst.
  { intros st [-> | ->]; [by destruct sys|by apply orphan_release]. }
  destruct (mgr_open_settle _ _ _ _ _) as [st next] eqn:Hs.
  specialize (Hst st). unfold mgr_open_settle in Hs.
  assert (orphan (with_state sys st) r id) as Ho' by
    (apply Hst; destruct (mo_stage o), wait as [[]| |]; injection Hs as <- _; auto).
  destruct next; intros [= <-].
  - by apply (orphan_insert_open (with_state sys st)).
  - by apply orphan_worker, (orphan_delete_open (with_state sys st)).
  - apply orphan_abandon; [|done]. by apply orphan_worker, (orphan_delete_open (with_state sys st)).
Qed.

Lemma orphan_step sys sys' r id :
  mgr_inv sys → mgr_step sys sys' → orphan sys r id → orphan sys' r id.
Proof.
  intros Hi [[] Hev] Ho; [by eapply orphan_open|by eapply orphan_settle|by eapply orphan_commit|..];
    cbn in Hev.
  - destruct (sys_opens sys !! id0); [|done]. injection Hev as <-.
    by apply orphan_worker, orphan_delete_open.
  - unfold session_worker in Hev.
    assert (orphan (with_state sys (sys_state sys)) r id) as Ho' by (by destruct sys).
    destruct (ms_sessions (sys_state sys) !! id0) as [e|] eqn:He.
    + repeat case_match; simplify_eq; try done; try by apply orphan_forget.
      by apply (orphan_tasks (with_state sys (sys_state sys))).
    + destruct (_ ≫= _); injection Hev as <-; [|done].
      by apply (orphan_tasks (with_state sys (sys_state sys))).
  - destruct (sys_callers sys !! n) as [[]|]; [|done]. injection Hev as <-.
    by apply orphan_worker, orphan_tasks.
  - destruct (policy_close _ _ _ _ _) as [st res] eqn:Hc.
    assert (orphan (with_state sys st) r id) as Ho'.
    { apply policy_close_frame in Hc as [-> |(e & He & [[x ->]|(Hf & -> & _)])].
      - by destruct sys.
      - destruct Ho. split; cbn; try done. rewrite lookup_insert_ne by congruence. done.
      - by apply orphan_forget. }
    destruct res; injection Hev as <-; [|done]. by apply (orphan_tasks (with_state sys st)).
  - destruct (sys_closers sys !! n); [|done]. injection Hev as <-.
    by apply orphan_tasks, orphan_worker, orphan_tasks.
  - destruct (_ && _); [|done]. injection Hev as <-. by apply orphan_finish.
  - destruct (sys_releasers sys !! n) as [[id' r']|] eqn:Hn; [|done]. cbn in Hev.
    destruct (finished _ _); [|done]. injection Hev as <-. apply list_elem_of_lookup_2 in Hn.
    assert (id' ≠ id) as Hne by (intros ->; by eapply or_releaser).
    apply (orphan_release _ _ _ r' id') in Ho as []; [|done]. split; cbn in *; try done.
    intros r1 Hin%list_elem_of_delete_inv. by eapply or_releaser0.
  - destruct (same_elements _ _); [|done]. injection Hev as <-. apply orphan_tasks.
    clear Hi. revert sys Ho. induction targets as [|[]]; cbn; [done|]. eauto using orphan_worker.
  - destruct (sys_revokes sys !! n); [|done]. cbn in Hev. destruct (head l) as [[]|]; [|done].
    injection Hev as <-. by apply orphan_tasks.
  - destruct (sys_revokes sys !! n); [|done]. cbn in Hev. destruct (head l) as [[]|]; [|done].
    cbn in Hev. case_match; [|done]. unfold mgr_revoke_round in Hev.
    repeat case_match; simplify_eq; first
      [ by apply (orphan_tasks (with_state sys (finish_session _ _))), orphan_finish
      | by apply (orphan_tasks (with_state sys (sys_state sys))); destruct sys ].
  - destruct (sys_workers sys !! id0) as [w|] eqn:Hw; [|done]. cbn in Hev.
    destruct (worker_move w m) as [w'|] eqn:Hm; [|done]. injection Hev as <-.
    destruct Ho. split; cbn; try done. by apply lookup_insert_is_Some'; right.
Qed.
Lemma orphan_steps sys sys' r id :
  rtc mgr_step sys sys' → mgr_inv sys → orphan sys r id → orphan sys' r id.
Proof. induction 1; eauto using orphan_step, mgr_inv_step. Qed.

Lemma mgr_run_steps sys evs sys' : mgr_run sys evs = Some sys' → rtc mgr_step sys sys'.
Proof.
  unfold mgr_run. revert sys. induction evs as [|ev evs IH]; cbn; intros sys Hr.
  - injection Hr as <-. apply rtc_refl.
  - destruct (mgr_exec sys ev) as [sys1|] eqn:Hev.
    + eapply rtc_l; [by exists ev|]. by apply IH.
    + exfalso. clear IH. induction evs; [done|]. by apply IHevs.
Qed.

(** ** Theorems *)

(** C11: a USB interface or GPIO line group has one native user at a time: however opens, I/O
    calls, closes, revocations, timeouts, cancellations and panics interleave, two threads
    that hold (or may yet obtain) a native session never target the same resource, and a
    reservation succeeds only when no thread holds the resource. *)
Theorem native_exclusive sys :
  rtc mgr_step MgrSystem_init sys →
  (∀ id1 id2 w1 w2, sys_workers sys !! id1 = Some w1 → sys_workers sys !! id2 = Some w2 →
     holds_native w1 = true → holds_native w2 = true → w_target w1 = w_target w2 → id1 = id2) ∧
  (∀ adapter owner selector id fresh st r lease id' w,
     mgr_open_reserve worker_names (sys_state sys) adapter owner selector id fresh = (st, Ok (r, lease)) →
     sys_workers sys !! id' = Some w → w_target w = r → holds_native w = false).
Proof.
  intros Hi%mgr_inv_reachable. split.
  - intros id1 id2 w1 w2 H1 H2 Hn1 Hn2 Ht.
    destruct (ui_native _ Hi _ _ H1 Hn1) as (a1 & Ha1 & <-).
    destruct (ui_native _ Hi _ _ H2 Hn2) as (a2 & Ha2 & <-). congruence.
  - intros adapter owner selector id fresh st r lease id' w Hres Hw Ht.
    apply mgr_open_reserve_Ok in Hres as (_ & Hnone & _). apply not_true_is_false. intros Hn.
    destruct (ui_native _ Hi _ _ Hw Hn) as (a & Ha & _). congruence.
Qed.

(** Admission to I/O is fenced: a USB or GPIO command is admitted only for a session that
    admits I/O and whose worker is neither finished nor told to close, under the very token
    of the resource's active lease; and once a worker has been told to close no later
    command of its session is ever admitted. *)
Theorem io_fenced sys sys' id lease operation :
  (∀ st r, session_worker worker_names policy_admits (sys_state sys) id lease operation
             (finished sys id) (closing sys id) = (st, Ok r) →
     st = sys_state sys ∧ finished sys id = false ∧ closing sys id = false ∧
     (∃ e, ms_sessions st !! id = Some e ∧ me_resource e = r ∧
        policy_admits (me_extra e) = true) ∧
     ∃ a, active (ms_leases st) !! r = Some a ∧ al_session_id a = id ∧ al_token a = lease) ∧
  (closing sys id = true → rtc mgr_step sys sys' →
   ∃ e, (session_worker worker_names policy_admits (sys_state sys') id lease operation
           (finished sys' id) (closing sys' id)).2 = Err e).
Proof.
  split.
  - intros st r. unfold session_worker.
    destruct (ms_sessions (sys_state sys) !! id) as [e|] eqn:He;
      [|intros [= _ Hb]; by apply bind_Ok in Hb as (? & _ & ?)].
    destruct (LeaseTable_validate _ _ _ _ _ _) eqn:Hv; [|done].
    destruct (finished sys id); [done|]. destruct (_ || _) eqn:Hor; [done|]. bool_simp.
    intros [= <- <-]. apply validate_Ok in Hv as (_ & a & ? & ? & _ & ?).
    split_and!; [done..|by exists e|by exists a].
  - intros Hc Hr. rewrite (closing_steps _ _ _ Hr Hc). unfold session_worker.
    destruct (ms_sessions (sys_state sys') !! id) as [e|].
    + repeat case_match; cbn; eauto. by rewrite orb_true_r in *.
    + destruct (match ms_closed _ !! id with Some _ => _ | None => _ end); cbn; eauto.
Qed.

(** A finished session gives its resource back: when the reaper runs, the entry is
    gone, the session is remembered as closed, and the resource can be reserved again
    by anyone (short of exhausting its generations). *)
Theorem finish_reclaims sys id e sys' :
  rtc mgr_step MgrSystem_init sys → ms_sessions (sys_state sys) !! id = Some e →
  mgr_exec sys (EvFinish id) = Some sys' →
  ms_sessions (sys_state sys') !! id = None ∧
  ms_closed (sys_state sys') !! id = Some (me_resource e, me_owner e) ∧
  ∀ id' owner fresh,
    LeaseTable_current_generation (ms_leases (sys_state sys')) (me_resource e) < u64_max →
    ∃ t tok, LeaseTable_reserve_control (ms_leases (sys_state sys')) (me_resource e) id' owner fresh
             = (t, Ok tok).
Proof.
  intros Hi%mgr_inv_reachable He. cbn. destruct (_ && _); [|done]. intros [= <-]. cbn.
  unfold finish_session. rewrite He. cbn.
  split_and!; [apply lookup_delete_eq|apply lookup_insert_eq|]. intros id' owner fresh.
  destruct (ui_sessions _ Hi _ _ He) as ((a & Ha & Hid) & _).
  destruct (LeaseTable_release _ _ _) as [t ok] eqn:Hr. cbn.
  apply release_inv in Hr as [(_ & _ & Hno)|(b & _ & _ & _ & Hact & _)];
    [by destruct (Hno a Ha)|].
  unfold LeaseTable_reserve_control, LeaseTable_current_generation. rewrite Hact, lookup_delete_eq.
  cbn. unfold checked_add. intros Hg. destruct (_ <=? _) eqn:Hle; [eauto|]. bool_simp. lia.
Qed.

(** A USB or GPIO open that is dropped while it waits for its worker (the broker aborts the
    request tasks of a connection that goes away) blocks the resource for good: nothing
    releases the reservation, so in every later state reserving that resource is refused
    with [runtime.lease.conflict]. *)
Theorem cancelled_open_blocks sys id o sys1 sys2 :
  rtc mgr_step MgrSystem_init sys → sys_opens sys !! id = Some o →
  mo_stage o = AwaitOpened →
  mgr_exec sys (EvCancel id) = Some sys1 → rtc mgr_step sys1 sys2 →
  ∀ id' owner fresh, ∃ e,
    LeaseTable_reserve_control (ms_leases (sys_state sys2)) (mo_resource o) id' owner fresh
      = (ms_leases (sys_state sys2), Err e) ∧ err_name e = mkErrorName "runtime.lease.conflict".
Proof.
  intros Hi%mgr_inv_reachable Ho Hstage Hev Hr id' owner fresh.
  assert (orphan sys1 (mo_resource o) id) as Hor.
  { cbn in Hev. rewrite Ho in Hev. cbn in Hev. injection Hev as <-.
    destruct (ui_opens _ Hi _ _ Ho) as (Ha & Hrel & Hst). rewrite Hstage in Hst.
    apply orphan_worker. split; cbn; try done.
    - by eexists.
    - by apply (opens_no_session sys id o).
    - apply lookup_delete_eq. }
  destruct (orphan_steps _ _ (mo_resource o) id Hr) as [(a & Ha & _) _ _ _ _]; [|done|].
  { eapply mgr_inv_step; [by exists (EvCancel id)|done]. }
  unfold LeaseTable_reserve_control. rewrite Ha. cbn. eexists. split; [done|].
  unfold runtime_error. rewrite static_error_eq; [done|solve_valid_identifier..].
Qed.
End system.
