(* ===== verification/UsbManager.v ===== *)
(** * robot-hal-runtime: the USB manager

    Models crates/robot-hal-runtime/src/usb_manager.rs as an instance of [WorkerManager]:
    its commands are transfers, and an entry remembers the session's lifecycle, which
    [close] moves to [Closing] and which must be active for a transfer. *)

From S2P Require Import Prelude Core Lifecycle LeaseTable SerialRegistry CanTypes UsbTypes Worker.
From S2P Require Import WorkerManager.

(** ** Commands *)
(** [cmd_reply] names the one-shot the caller waits on. *)
Record UsbCommand := mkUsbCommand {
  cmd_transfer : UsbTransfer;
  cmd_timeout : Z;
  cmd_reply : Z;
}.
Definition usb_names : BusNames := mkBusNames "usb" "USB interface" "USB" usb_control_capability.
Global Instance UsbWorker_native {S} `{!UsbInterfaceSession S} : NativeWorker S UsbCommand Bytes := {|
  worker_perform session command :=
    usb_session_transfer session (cmd_transfer command) (cmd_timeout command);
  worker_native_close session := (usb_session_close session).2;
  cmd_operation _ := "usb.transfer";
  worker_names := usb_names;
|}.

(** ** Critical sections *)
Definition UsbEntry : Type := MgrEntry SessionLifecycle.
Definition UsbState : Type := MgrState SessionLifecycle.
Definition usb_open_reserve : UsbState → option (HalResult (list ResourceDescriptor)) →
    OwnerId → ResourceSelector → SessionId → LeaseId →
    UsbState * HalResult (ResourceId * LeaseToken) := mgr_open_reserve usb_names.
Definition usb_open_settle : UsbState → SessionId → MgrOpen → OpenWait → string →
    UsbState * OpenNext := mgr_open_settle usb_names.
(** [SessionLifecycle::Opening.commit_open(..).expect(..)]. *)
Definition usb_opened_lifecycle : SessionLifecycle :=
  match SessionLifecycle_commit_open Opening "usb.open" with
  | Ok lifecycle => lifecycle
  | Err _ => Opening
  end.
Definition usb_open_commit : UsbState → SessionId → MgrOpen →
    UsbState * HalResult (SessionId * LeaseToken) := mgr_open_commit usb_names usb_opened_lifecycle.
Definition usb_transfer_admit (st : UsbState) (id : SessionId) (lease : LeaseToken)
    (finished closing : bool) : UsbState * HalResult ResourceId :=
  session_worker usb_names SessionLifecycle_is_active st id lease "usb.transfer" finished closing.
Definition usb_transfer_result : ResourceId → ReplyEvent Bytes → HalResult Bytes :=
  mgr_reply_result usb_names "usb.transfer".

Definition usb_close_begin (st : UsbState) (id : SessionId) (lease : LeaseToken)
    : UsbState * HalResult ResourceId :=
  match ms_sessions st !! id with
  | None => (st, Err (mgr_session_is_closed usb_names "usb.close"))
  | Some entry =>
      match LeaseTable_validate (ms_leases st) (me_resource entry) id (me_owner entry) lease
              "usb.close" ≫= λ _,
            SessionLifecycle_begin_close (me_extra entry) "usb.close" with
      | Err e => (st, Err e)
      | Ok lifecycle =>
          (mkMgrState (ms_leases st)
             (<[id := mkMgrEntry (me_resource entry) (me_owner entry) lifecycle]>
                (ms_sessions st))
             (ms_closed st),
           Ok (me_resource entry))
      end
  end.
Definition usb_close_end : UsbState → SessionId → ResourceId → option (HalResult unit) → string →
    UsbState * HalResult unit := mgr_close_end usb_names.
Definition usb_revoke_round : UsbState → SessionId → ResourceId → option (HalResult unit) →
    string → UsbState * HalResult unit := mgr_revoke_round usb_names.

Global Program Instance UsbPolicy : SessionPolicy SessionLifecycle := {|
  policy_extra := usb_opened_lifecycle;
  policy_admits := SessionLifecycle_is_active;
  policy_close st id lease _ _ := usb_close_begin st id lease;
|}.
Next Obligation.
  unfold usb_close_begin. intros st id lease finished closing st' res.
  destruct (ms_sessions st !! id) as [e|] eqn:He; [|intros [= <- _]; by left].
  destruct (_ ≫= _) as [l|]; [|intros [= <- _]; by left].
  intros [= <- _]. right. exists e. eauto.
Qed.

(** A close that began admits no transfer, even before it has told the worker. *)
Lemma usb_close_begin_closing st id lease st' r finished closing :
  usb_close_begin st id lease = (st', Ok r) →
  ∃ e, (usb_transfer_admit st' id lease finished closing).2 = Err e.
Proof.
  unfold usb_close_begin. destruct (ms_sessions st !! id) as [e|] eqn:He; [|done].
  destruct (_ ≫= _) as [l|] eqn:Hv; [|done]. intros [= <- <-].
  apply bind_Ok in Hv as (u & Hv & Hl). assert (l = Closing) as -> by (by destruct (me_extra e), l).
  unfold usb_transfer_admit, session_worker. cbn. rewrite lookup_insert_eq. cbn.
  repeat case_match; cbn; eauto.
Qed.

(** ** A concrete run: one device, opened, used and closed *)
Definition loopback_usb : UsbInterfaceSession unit := {|
  usb_session_transfer session _ _ := (session, Ok [1; 2]);
  usb_session_close session := (session, Ok ());
|}.
#[local] Existing Instance loopback_usb.
Definition UsbSystem : Type := MgrSystem (S := unit) (Cmd := UsbCommand) (Resp := Bytes)
  (X := SessionLifecycle).
Definition UsbEvent : Type := MgrEvent (S := unit) (Cmd := UsbCommand).
Definition ex_usb_id : ResourceId := mkResourceId "usb:1".
Definition ex_usb_descriptor : ResourceDescriptor :=
  mkResourceDescriptor ex_usb_id (mkEndpoint "bus1") Strong Usb (mkResourceProperties ∅)
    (mkCapabilitySet [usb_control_capability]).
Definition ex_usb_session (n : Z) : SessionId := mkSessionId ("usb-" +:+ to_string n).
Definition ex_usb_open (n : Z) : UsbEvent :=
  EvOpen (Some (Ok [ex_usb_descriptor])) (mkOwnerId "owner")
    (ResourceSelector_exact ex_usb_id Medium Usb) (ex_usb_session n) (mkLeaseId "lease") None.
Definition ex_usb_token : LeaseToken := mkLeaseToken (mkLeaseId "lease") 1 Control.
Definition ex_usb_opened : list (UsbEvent) :=
  [ex_usb_open 1; EvMove (ex_usb_session 1) (MOpened (Ok ()));
   EvSettle (ex_usb_session 1) (WaitOpened (Ok ())) "2s"; EvCommit (ex_usb_session 1)].
Definition ex_usb_closed : list (UsbEvent) :=
  ex_usb_opened ++
  [EvCloseBegin (ex_usb_session 1) ex_usb_token; EvCloseTell 0] ++
  (EvMove (ex_usb_session 1) <$> [MIterate; MClose; MDrain; MComplete]).
Definition ex_usb_run (evs : list (UsbEvent)) : UsbSystem :=
  default MgrSystem_init (mgr_run MgrSystem_init evs).
Lemma ex_usb_reachable evs : rtc mgr_step MgrSystem_init (ex_usb_run evs).
Proof.
  unfold ex_usb_run. destruct (mgr_run _ _) eqn:H; [by eapply mgr_run_steps|apply rtc_refl].
Qed.

Lemma native_exclusive_witness :
  holds_native <$> sys_workers (ex_usb_run ex_usb_opened) !! ex_usb_session 1 = Some true ∧
  ∀ id w, sys_workers (ex_usb_run ex_usb_opened) !! id = Some w → holds_native w = true →
    w_target w = ex_usb_id → id = ex_usb_session 1.
Proof.
  assert (∃ w, sys_workers (ex_usb_run ex_usb_opened) !! ex_usb_session 1 = Some w ∧
    holds_native w = true ∧ w_target w = ex_usb_id) as (w1 & H1 & Hn & Ht)
    by (eexists; split; [vm_compute; reflexivity|by split]).
  split; [by rewrite H1; cbn; rewrite Hn|].
  intros id w Hw Hn' Ht'.
  destruct (native_exclusive _ (ex_usb_reachable ex_usb_opened)) as [Hex _].
  apply (Hex id (ex_usb_session 1) w w1); congruence.
Defined.

Lemma io_fenced_witness :
  is_ok (usb_transfer_admit (sys_state (ex_usb_run ex_usb_opened)) (ex_usb_session 1) ex_usb_token
           false false).2 = true ∧
  ∃ e, (usb_transfer_admit (sys_state (ex_usb_run ex_usb_closed)) (ex_usb_session 1) ex_usb_token
          (finished (ex_usb_run ex_usb_closed) (ex_usb_session 1))
          (closing (ex_usb_run ex_usb_closed) (ex_usb_session 1))).2 = Err e.
Proof.
  split; [vm_compute; reflexivity|].
  assert (closing (ex_usb_run ex_usb_closed) (ex_usb_session 1) = true) as Hc
    by (vm_compute; reflexivity).
  exact (proj2 (io_fenced (ex_usb_run ex_usb_closed) (ex_usb_run ex_usb_closed)
    (ex_usb_session 1) ex_usb_token "usb.transfer") Hc (rtc_refl _ _)).
Defined.

Lemma finish_reclaims_witness :
  ∃ sys', mgr_exec (ex_usb_run ex_usb_closed) (EvFinish (ex_usb_session 1)) = Some sys' ∧
    ms_sessions (sys_state sys') !! ex_usb_session 1 = None.
Proof.
  eexists. split; [vm_compute; reflexivity|].
  eapply (finish_reclaims (ex_usb_run ex_usb_closed) (ex_usb_session 1));
    [apply ex_usb_reachable|vm_compute; reflexivity|vm_compute; reflexivity].
Defined.

Lemma cancelled_open_blocks_witness :
  ∃ e, LeaseTable_reserve_control
         (ms_leases (sys_state (ex_usb_run [ex_usb_open 1; EvCancel (ex_usb_session 1)])))
         ex_usb_id (ex_usb_session 2) (mkOwnerId "other") (mkLeaseId "lease")
       = (ms_leases (sys_state (ex_usb_run [ex_usb_open 1; EvCancel (ex_usb_session 1)])), Err e).
Proof.
  destruct (cancelled_open_blocks (ex_usb_run [ex_usb_open 1]) (ex_usb_session 1)
    (mkMgrOpen (mkOwnerId "owner") ex_usb_id ex_usb_token AwaitOpened)
    (ex_usb_run [ex_usb_open 1; EvCancel (ex_usb_session 1)])
    (ex_usb_run [ex_usb_open 1; EvCancel (ex_usb_session 1)])
    (ex_usb_reachable _)) with (id' := ex_usb_session 2) (owner := mkOwnerId "other")
    (fresh := mkLeaseId "lease") as (e & He & _);
    [vm_compute; reflexivity|reflexivity|vm_compute; reflexivity|apply rtc_refl|].
  exists e. exact He.
Defined.

(** [revoke_owner] returns at the first session whose native close fails.  The sessions
    after it were told to close and their workers end, but no task was started to reap
    them: their entries and leases stay. *)
Definition ex_usb_id2 : ResourceId := mkResourceId "usb:2".
Definition ex_usb_descriptor2 : ResourceDescriptor :=
  mkResourceDescriptor ex_usb_id2 (mkEndpoint "bus2") Strong Usb (mkResourceProperties ∅)
    (mkCapabilitySet [usb_control_capability]).
Definition ex_usb_open2 : UsbEvent :=
  EvOpen (Some (Ok [ex_usb_descriptor2])) (mkOwnerId "owner")
    (ResourceSelector_exact ex_usb_id2 Medium Usb) (ex_usb_session 2) (mkLeaseId "lease") None.
Definition ex_usb_revoked : list (UsbEvent) :=
  ex_usb_opened ++
  [ex_usb_open2; EvMove (ex_usb_session 2) (MOpened (Ok ()));
   EvSettle (ex_usb_session 2) (WaitOpened (Ok ())) "2s"; EvCommit (ex_usb_session 2);
   EvRevoke (mkOwnerId "owner") [(ex_usb_session 1, ex_usb_id); (ex_usb_session 2, ex_usb_id2)];
   EvRevokeStart 0] ++
  (EvMove (ex_usb_session 1) <$> [MIterate; MPanic; MComplete]) ++
  (EvMove (ex_usb_session 2) <$> [MIterate; MClose; MDrain; MComplete; MExit]) ++
  [EvRevokeEnd 0 false "2s"; EvFinish (ex_usb_session 1)].
Lemma usb_revoke_leaves_session :
  ∃ sys, mgr_run (MgrSystem_init) ex_usb_revoked = Some sys ∧
    sys_revokes sys = [] ∧ sys_reapers sys = [ex_usb_session 1] ∧
    finished sys (ex_usb_session 2) = true ∧
    ms_sessions (sys_state sys) !! ex_usb_session 1 = None ∧
    is_some (ms_sessions (sys_state sys) !! ex_usb_session 2) = true ∧
    is_some (active (ms_leases (sys_state sys)) !! ex_usb_id2) = true.
Proof. eexists. split; [vm_compute; reflexivity|]. by split_and!; vm_compute. Qed.
