(* ===== verification/GpioTypes.v ===== *)
(** * robot-hal-gpio: line configurations, edges, the session trait

    Models crates/robot-hal-gpio/src/lib.rs. *)

From S2P Require Import Prelude Core.

Definition MAX_GPIO_EVENTS : Z := 1024.
Definition DEFAULT_GPIO_EVENT_CAPACITY : Z := 256.
Definition GPIO_LINES_CAPABILITY : string := "gpio.lines/v1".
Definition GPIO_EDGES_CAPABILITY : string := "gpio.edges/v1".
Definition gpio_lines_capability : CapabilityId := mkCapabilityId GPIO_LINES_CAPABILITY.
Definition gpio_edges_capability : CapabilityId := mkCapabilityId GPIO_EDGES_CAPABILITY.

Inductive GpioBias := BiasDisabled | PullUp | PullDown.
Inductive GpioDrive := PushPull | OpenDrain | OpenSource.
Inductive GpioDirection := Input | Output.
Record GpioLineConfig := mkGpioLineConfig {
  gpio_direction : GpioDirection;
  gpio_active_low : bool;
  gpio_bias : GpioBias;
  gpio_drive : option GpioDrive;
  gpio_initial_value : option bool;
}.
Definition GpioLineConfig_input (active_low : bool) (bias : GpioBias) : HalResult GpioLineConfig :=
  Ok (mkGpioLineConfig Input active_low bias None None).
Definition GpioLineConfig_output (active_low initial_value : bool) (drive : GpioDrive)
    : HalResult GpioLineConfig :=
  Ok (mkGpioLineConfig Output active_low BiasDisabled (Some drive) (Some initial_value)).

Inductive GpioEdge := Rising | Falling.
Record EdgeMask := mkEdgeMask { edge_bits : Z }.
Definition EdgeMask_RISING : EdgeMask := mkEdgeMask 1.
Definition EdgeMask_FALLING : EdgeMask := mkEdgeMask 2.
Definition EdgeMask_BOTH : EdgeMask := mkEdgeMask 3.
Definition EdgeMask_empty : EdgeMask := mkEdgeMask 0.
Definition EdgeMask_contains (m : EdgeMask) (edge : GpioEdge) : bool :=
  negb (Z.land (edge_bits m)
          match edge with
          | Rising => edge_bits EdgeMask_RISING
          | Falling => edge_bits EdgeMask_FALLING
          end =? 0).

Record GpioEdgeRequest := mkGpioEdgeRequest { edge_mask : EdgeMask; edge_capacity : Z }.
Definition GpioEdgeRequest_new (edges : EdgeMask) (capacity : Z) : HalResult GpioEdgeRequest :=
  if (edge_bits edges =? 0) || (capacity =? 0) || (MAX_GPIO_EVENTS <? capacity) then
    Err (static_error "gpio.edge_request.invalid" InvalidArgument "gpio.edge_request" false
           "edge request must select edges and use a bounded non-zero capacity")
  else Ok (mkGpioEdgeRequest edges capacity).

Record GpioEdgeEvent := mkGpioEdgeEvent {
  event_edge : GpioEdge;
  event_monotonic_ns : Z;
  event_sequence : Z;
}.

(** The [GpioLineSession] trait: what the worker may ask of a native line group. *)
Class GpioLineSession (S : Type) := {
  gpio_session_read : S → S * HalResult (list bool);
  gpio_session_write : S → list bool → S * HalResult unit;
  gpio_session_next_edge : S → GpioEdgeRequest → Z → S * HalResult (option GpioEdgeEvent);
  gpio_session_close : S → S * HalResult unit;
}.

(** A mask is what a request can select: the constants are the three non-empty masks, and
    membership reads them as expected. *)
Lemma EdgeMask_contains_spec e :
  EdgeMask_contains EdgeMask_BOTH e = true ∧ EdgeMask_contains EdgeMask_empty e = false ∧
  EdgeMask_contains EdgeMask_RISING e = negb (EdgeMask_contains EdgeMask_FALLING e).
Proof. by destruct e. Qed.
Lemma GpioEdgeRequest_new_Ok edges capacity r :
  GpioEdgeRequest_new edges capacity = Ok r ↔
  edge_bits edges ≠ 0 ∧ capacity ≠ 0 ∧ capacity <= MAX_GPIO_EVENTS ∧
  r = mkGpioEdgeRequest edges capacity.
Proof.
  unfold GpioEdgeRequest_new. destruct (_ || _ || _) eqn:H.
  - split; [done|]. intros (? & ? & ? & _). rewrite !orb_true_iff in H.
    destruct H as [[H|H]|H]; bool_simp; lia.
  - bool_simp. split; [intros [= <-]; split_and!; done|]. by intros (_ & _ & _ & ->).
Qed.
