(* ===== verification/GpioManager.v ===== *)
(** * robot-hal-runtime: the GPIO manager

    Models crates/robot-hal-runtime/src/gpio_manager.rs as an instance of
    [WorkerManager]: its commands read, write or wait for an edge of a line group, an
    entry remembers nothing beside its owner and resource, and [close] passes through the
    same critical section as I/O. *)

From S2P Require Import Prelude Core Lifecycle LeaseTable SerialRegistry GpioTypes Worker.
From S2P Require Import WorkerManager.

(** ** Commands and their replies *)
Inductive GpioCommand :=
  | GpioRead (reply : Z)
  | GpioWrite (values : list bool) (reply : Z)
  | GpioNextEdge (request : GpioEdgeRequest) (timeout : Z) (reply : Z).
Inductive GpioResponse :=
  | GpioValues (values : list bool)
  | GpioWritten
  | GpioEvent (event : option GpioEdgeEvent).
Definition gpio_names : BusNames := mkBusNames "gpio" "GPIO line group" "GPIO" gpio_lines_capability.
Definition GpioCommand_operation (command : GpioCommand) : string :=
  match command with
  | GpioRead _ => "gpio.read"
  | GpioWrite _ _ => "gpio.write"
  | GpioNextEdge _ _ _ => "gpio.next_edge"
  end.
Definition GpioCommand_perform {S} `{!GpioLineSession S} (session : S) (command : GpioCommand)
    : S * HalResult GpioResponse :=
  match command with
  | GpioRead _ =>
      let '(session, r) := gpio_session_read session in (session, GpioValues <$> r)
  | GpioWrite values _ =>
      let '(session, r) := gpio_session_write session values in (session, (λ _, GpioWritten) <$> r)
  | GpioNextEdge request timeout _ =>
      let '(session, r) := gpio_session_next_edge session request timeout in
      (session, GpioEvent <$> r)
  end.
Global Instance GpioWorker_native {S} `{!GpioLineSession S}
    : NativeWorker S GpioCommand GpioResponse := {|
  worker_perform := GpioCommand_perform;
  worker_native_close session := (gpio_session_close session).2;
  cmd_operation := GpioCommand_operation;
  worker_names := gpio_names;
|}.

(** ** Critical sections *)
Definition GpioEntry : Type := MgrEntry unit.
Definition GpioState : Type := MgrState unit.
Definition GpioManager_enumerate : option (HalResult (list ResourceDescriptor)) →
    HalResult (list ResourceDescriptor) := mgr_enumerate gpio_names.
Definition gpio_open_reserve : GpioState → option (HalResult (list ResourceDescriptor)) →
    OwnerId → ResourceSelector → SessionId → LeaseId →
    GpioState * HalResult (ResourceId * LeaseToken) := mgr_open_reserve gpio_names.
Definition gpio_open_settle : GpioState → SessionId → MgrOpen → OpenWait → string →
    GpioState * OpenNext := mgr_open_settle gpio_names.
Definition gpio_open_commit : GpioState → SessionId → MgrOpen →
    GpioState * HalResult (SessionId * LeaseToken) := mgr_open_commit gpio_names ().
Definition gpio_session_worker : GpioState → SessionId → LeaseToken → string → bool → bool →
    GpioState * HalResult ResourceId := session_worker gpio_names (λ _, true).
(** [wait_for_reply]. *)
Definition gpio_wait_for_reply {T} : string → ResourceId → ReplyEvent T → HalResult T :=
  mgr_reply_result gpio_names.
(** [read], [write] and [next_edge] up to the wait for their reply: admission, then the
    worker's queue ([worker] is what the entry holds). *)
Definition gpio_submit {S} `{!GpioLineSession S} (st : GpioState)
    (worker : Worker S GpioCommand GpioResponse) (id : SessionId) (lease : LeaseToken)
    (command : GpioCommand) : GpioState * HalResult (Worker S GpioCommand GpioResponse * ResourceId) :=
  let operation := GpioCommand_operation command in
  let '(st, admitted) :=
    gpio_session_worker st id lease operation (UsbWorker_is_finished worker)
      (UsbWorker_is_closing worker) in
  (st, resource ← admitted;
       worker ← map_err (λ e, HalError_with_resource_id e resource)
                  (UsbWorker_try_enqueue worker command operation);
       Ok (worker, resource)).
Definition gpio_read {S} `{!GpioLineSession S} (st : GpioState)
    (worker : Worker S GpioCommand GpioResponse) (id : SessionId) (lease : LeaseToken) (reply : Z) :=
  gpio_submit st worker id lease (GpioRead reply).
Definition gpio_write {S} `{!GpioLineSession S} (st : GpioState)
    (worker : Worker S GpioCommand GpioResponse) (id : SessionId) (lease : LeaseToken)
    (values : list bool) (reply : Z) :=
  gpio_submit st worker id lease (GpioWrite values reply).
Definition gpio_next_edge {S} `{!GpioLineSession S} (st : GpioState)
    (worker : Worker S GpioCommand GpioResponse) (id : SessionId) (lease : LeaseToken)
    (request : GpioEdgeRequest) (timeout : Z) (reply : Z) :=
  gpio_submit st worker id lease (GpioNextEdge request timeout reply).

Definition gpio_close_begin (st : GpioState) (id : SessionId) (lease : LeaseToken)
    (finished closing : bool) : GpioState * HalResult ResourceId :=
  gpio_session_worker st id lease "gpio.close" finished closing.
Definition gpio_close_end : GpioState → SessionId → ResourceId → option (HalResult unit) →
    string → GpioState * HalResult unit := mgr_close_end gpio_names.
Definition gpio_owner_sessions : GpioState → OwnerId → list (SessionId * ResourceId) :=
  mgr_owner_sessions.
Definition gpio_revoke_round : GpioState → SessionId → ResourceId → option (HalResult unit) →
    string → GpioState * HalResult unit := mgr_revoke_round gpio_names.
Definition gpio_finish_session : GpioState → SessionId → GpioState := finish_session.

Global Program Instance GpioPolicy : SessionPolicy unit := {|
  policy_extra := ();
  policy_admits _ := true;
  policy_close := gpio_close_begin;
|}.
Next Obligation.
  unfold gpio_close_begin, gpio_session_worker, session_worker. intros st id lease fin clo st' res.
  destruct (ms_sessions st !! id) as [e|] eqn:He; [|intros [= <- _]; by left].
  destruct (LeaseTable_validate _ _ _ _ _ _); [|intros [= <- _]; by left].
  destruct fin; [|cbn; destruct clo; intros [= <- _]; by left].
  intros [= <- <-]. right. exists e. split; [done|]. right. eauto.
Qed.

(** ** The manager at work *)
Definition GpioSystem (S : Type) : Type :=
  MgrSystem (S := S) (Cmd := GpioCommand) (Resp := GpioResponse) (X := unit).

(** Closing twice: the first close admits no further command, the second is told that the
    session is closing, and a close of a session whose worker already ended reports that
    and gives the resource back. *)
Lemma gpio_close_outcomes st id lease e finished closing :
  ms_sessions st !! id = Some e →
  LeaseTable_validate (ms_leases st) (me_resource e) id (me_owner e) lease "gpio.close" = Ok () →
  gpio_close_begin st id lease finished closing =
    if finished then
      (mgr_forget st id e,
       Err (HalError_with_resource_id (worker_unavailable gpio_names "gpio.close") (me_resource e)))
    else if closing then
      (st, Err (HalError_with_resource_id (worker_session_closed gpio_names "gpio.close")
                  (me_resource e)))
    else (st, Ok (me_resource e)).
Proof.
  intros He Hv. unfold gpio_close_begin, gpio_session_worker, session_worker. by rewrite He, Hv.
Qed.
