(* ===== verification/WireUsbGpio.v ===== *)
(** * robot-hal-protocol: USB and GPIO conversions

    Models the USB and GPIO part of crates/robot-hal-protocol/src/conversion.rs (what the
    broker decodes and answers) together with the encoders of the requests, which are in
    crates/robot-hal-client/src (usb.rs, gpio.rs, connection.rs).  Messages are named as
    in [WireCore]; a [uint32] field is a [Z] between 0 and [u32_max]. *)

From S2P Require Import Prelude Core SerialRegistry CanTypes UsbTypes GpioTypes WireCore.

(** ** Enumerations *)
Inductive v1_UsbTransferKind :=
  | KindControlOut | KindControlIn | KindBulkOut | KindBulkIn | KindInterruptOut | KindInterruptIn.
Global Program Instance UsbTransferKind_proto : ProtoEnum v1_UsbTransferKind := {|
  proto_number k := match k with KindControlOut => 1 | KindControlIn => 2 | KindBulkOut => 3
                    | KindBulkIn => 4 | KindInterruptOut => 5 | KindInterruptIn => 6 end;
  proto_of v := if v =? 1 then Some KindControlOut else if v =? 2 then Some KindControlIn
                else if v =? 3 then Some KindBulkOut else if v =? 4 then Some KindBulkIn
                else if v =? 5 then Some KindInterruptOut
                else if v =? 6 then Some KindInterruptIn else None;
|}.
Solve Obligations with solve_proto_enum.
Global Program Instance GpioBias_proto : ProtoEnum GpioBias := {|
  proto_number b := match b with BiasDisabled => 1 | PullUp => 2 | PullDown => 3 end;
  proto_of v := if v =? 1 then Some BiasDisabled else if v =? 2 then Some PullUp
                else if v =? 3 then Some PullDown else None;
|}.
Solve Obligations with solve_proto_enum.
Global Program Instance GpioDrive_proto : ProtoEnum GpioDrive := {|
  proto_number d := match d with PushPull => 1 | OpenDrain => 2 | OpenSource => 3 end;
  proto_of v := if v =? 1 then Some PushPull else if v =? 2 then Some OpenDrain
                else if v =? 3 then Some OpenSource else None;
|}.
Solve Obligations with solve_proto_enum.
Global Program Instance GpioDirection_proto : ProtoEnum GpioDirection := {|
  proto_number d := match d with Input => 1 | Output => 2 end;
  proto_of v := if v =? 1 then Some Input else if v =? 2 then Some Output else None;
|}.
Solve Obligations with solve_proto_enum.
Global Program Instance GpioEdge_proto : ProtoEnum GpioEdge := {|
  proto_number e := match e with Rising => 1 | Falling => 2 end;
  proto_of v := if v =? 1 then Some Rising else if v =? 2 then Some Falling else None;
|}.
Solve Obligations with solve_proto_enum.

(** ** Messages

    OpenUsbResponse, OpenGpioResponse, CloseUsbRequest, CloseGpioRequest and
    GpioReadRequest are a session id and a lease, [v1_SessionLease]; UsbTransferResponse
    and GpioReadResponse are their one field. *)
Record v1_UsbTransferRequest := mk_v1_UsbTransferRequest {
  wut_session_id : string;
  wut_lease : option v1_LeaseToken;
  wut_kind : Z;
  wut_request_type : Z;
  wut_request : Z;
  wut_value : Z;
  wut_index : Z;
  wut_endpoint : Z;
  wut_data : Bytes;
  wut_max_bytes : Z;
  wut_timeout_ms : Z;
}.
Record v1_GpioLineConfig := mk_v1_GpioLineConfig {
  wgc_direction : Z;
  wgc_active_low : bool;
  wgc_bias : Z;
  wgc_drive : Z;
  wgc_initial_value : option bool;
}.
Record v1_OpenUsbRequest := mk_v1_OpenUsbRequest {
  wou_selector : option v1_ResourceSelector;
  wou_interface_number : Z;
}.
Record v1_OpenGpioRequest := mk_v1_OpenGpioRequest {
  wog_selector : option v1_ResourceSelector;
  wog_lines : list Z;
  wog_config : option v1_GpioLineConfig;
}.
Record v1_GpioWriteRequest := mk_v1_GpioWriteRequest {
  wgw_session_id : string;
  wgw_lease : option v1_LeaseToken;
  wgw_values : list bool;
}.
Record v1_GpioNextEdgeRequest := mk_v1_GpioNextEdgeRequest {
  wne_session_id : string;
  wne_lease : option v1_LeaseToken;
  wne_rising : bool;
  wne_falling : bool;
  wne_capacity : Z;
  wne_timeout_ms : Z;
}.
Record v1_GpioEdgeEvent := mk_v1_GpioEdgeEvent {
  wge_edge : Z;
  wge_monotonic_ns : Z;
  wge_sequence : Z;
}.

(** ** Decoding: USB *)
Definition byte (value : Z) (field : string) : HalResult Z :=
  ok_or (invalid_message (field +:+ " exceeds u8")) (try_from u8_max value).
Definition u16_value (value : Z) (field : string) : HalResult Z :=
  ok_or (invalid_message (field +:+ " exceeds u16")) (try_from u16_max value).
Definition transfer_bounds (r : HalResult UsbTransfer) : HalResult UsbTransfer :=
  map_err (λ _, invalid_message "usb_transfer violates the public USB transfer bounds") r.
(** The fields of a control transfer, read in order. *)
Definition control_fields (value : v1_UsbTransferRequest)
    (build : Z → Z → Z → Z → HalResult UsbTransfer) : HalResult UsbTransfer :=
  byte (wut_request_type value) "usb_transfer.request_type" ≫= λ request_type,
  byte (wut_request value) "usb_transfer.request" ≫= λ request,
  u16_value (wut_value value) "usb_transfer.value" ≫= λ v,
  u16_value (wut_index value) "usb_transfer.index" ≫= λ index,
  transfer_bounds (build request_type request v index).
Definition has_control_fields (value : v1_UsbTransferRequest) : bool :=
  negb (wut_request_type value =? 0) || negb (wut_request value =? 0)
  || negb (wut_value value =? 0) || negb (wut_index value =? 0).
Definition has_data (value : v1_UsbTransferRequest) : bool := bool_decide (wut_data value ≠ []).

Definition usb_transfer_from_proto (value : v1_UsbTransferRequest) : HalResult UsbTransfer :=
  required_enum (wut_kind value) "usb_transfer.kind" ≫= λ kind,
  ok_or (invalid_message "usb_transfer.max_bytes is invalid")
    (try_from u64_max (wut_max_bytes value)) ≫= λ max,
  let data := wut_data value in
  match kind with
  | Some KindControlOut =>
      if negb (wut_endpoint value =? 0) || negb (wut_max_bytes value =? 0) then
        Err (invalid_message "control-out transfer must not set endpoint or max_bytes")
      else control_fields value (λ rt r v i, UsbTransfer_control_out rt r v i data)
  | Some KindControlIn =>
      if negb (wut_endpoint value =? 0) || has_data value then
        Err (invalid_message "control-in transfer must not set endpoint or data")
      else control_fields value (λ rt r v i, UsbTransfer_control_in rt r v i max)
  | Some KindBulkOut =>
      if has_control_fields value || negb (wut_max_bytes value =? 0) then
        Err (invalid_message "bulk-out transfer has control or max_bytes fields")
      else
        byte (wut_endpoint value) "usb_transfer.endpoint" ≫= λ endpoint,
        transfer_bounds (UsbTransfer_bulk_out endpoint data)
  | Some KindBulkIn =>
      if has_control_fields value || has_data value then
        Err (invalid_message "bulk-in transfer has control or data fields")
      else
        byte (wut_endpoint value) "usb_transfer.endpoint" ≫= λ endpoint,
        transfer_bounds (UsbTransfer_bulk_in endpoint max)
  | Some KindInterruptOut =>
      if has_control_fields value || negb (wut_max_bytes value =? 0) then
        Err (invalid_message "interrupt-out transfer has control or max_bytes fields")
      else
        byte (wut_endpoint value) "usb_transfer.endpoint" ≫= λ endpoint,
        transfer_bounds (UsbTransfer_interrupt_out endpoint data)
  | Some KindInterruptIn =>
      if has_control_fields value || has_data value then
        Err (invalid_message "interrupt-in transfer has control or data fields")
      else
        byte (wut_endpoint value) "usb_transfer.endpoint" ≫= λ endpoint,
        transfer_bounds (UsbTransfer_interrupt_in endpoint max)
  | None => transfer_bounds (Err (invalid_message "usb_transfer.kind is required"))
  end.
Definition usb_transfer_request_from_proto (value : v1_UsbTransferRequest)
    : HalResult (SessionId * LeaseToken * UsbTransfer * Z) :=
  nonzero_timeout (wut_timeout_ms value) "usb_transfer.timeout_ms" ≫= λ timeout,
  parse_control_session_lease (wut_session_id value) (wut_lease value) "USB"
  ≫= λ '(session, lease),
  usb_transfer_from_proto value ≫= λ transfer,
  Ok (session, lease, transfer, timeout).

Definition usb_selector_from_proto (value : v1_ResourceSelector) : HalResult ResourceSelector :=
  selector_for_transport value Usb "USB".
Definition open_usb_request_from_proto (value : v1_OpenUsbRequest)
    : HalResult (ResourceSelector * Z) :=
  ok_or (invalid_message "open_usb selector is required") (wou_selector value) ≫= λ selector,
  ok_or (invalid_message "open_usb interface_number is invalid")
    (try_from u64_max (wou_interface_number value)) ≫= λ interface,
  if MAX_USB_INTERFACE_NUMBER <? interface then
    Err (invalid_message "open_usb interface_number exceeds u8")
  else
    usb_selector_from_proto selector ≫= λ selector, Ok (selector, interface mod 2 ^ 8).
Definition usb_close_request_from_proto (value : v1_SessionLease)
    : HalResult (SessionId * LeaseToken) :=
  parse_control_session_lease (wsl_session_id value) (wsl_lease value) "USB".
Definition open_usb_response_from_proto (value : v1_SessionLease)
    : HalResult (SessionId * LeaseToken) :=
  parse_control_session_lease (wsl_session_id value) (wsl_lease value) "USB".
Definition usb_transfer_response_from_proto (data : Bytes) : HalResult Bytes :=
  if MAX_USB_TRANSFER_BYTES <? len data then
    Err (invalid_message "usb_transfer_response data exceeds the public USB transfer bound")
  else Ok data.
Definition usb_transfer_response_to_proto (value : Bytes) : Bytes := value.

(** ** Decoding: GPIO *)
Definition gpio_config_from_proto (value : v1_GpioLineConfig) : HalResult GpioLineConfig :=
  required_enum (wgc_direction value) "gpio_config.direction" ≫= λ direction,
  enum_field (wgc_bias value) "gpio_config.bias" (invalid_message "gpio_config.bias is required")
  ≫= λ bias,
  let bounds (r : HalResult GpioLineConfig) := map_err (λ _, invalid_message
    "gpio_config violates the public GPIO configuration bounds") r in
  match direction with
  | Some Input => bounds (GpioLineConfig_input (wgc_active_low value) bias)
  | Some Output =>
      enum_field (wgc_drive value) "gpio_config.drive"
        (invalid_message "gpio_config.drive is required") ≫= λ drive,
      ok_or (invalid_message "gpio_config.initial_value is required for output")
        (wgc_initial_value value) ≫= λ initial_value,
      bounds (GpioLineConfig_output (wgc_active_low value) initial_value drive)
  | None => bounds (Err (invalid_message "gpio_config.direction is required"))
  end.
Definition GpioLineConfig_to_proto (value : GpioLineConfig) : option v1_GpioLineConfig :=
  let out direction drive initial_value :=
    mk_v1_GpioLineConfig (proto_number (A := GpioDirection) direction) (gpio_active_low value)
      (proto_number (gpio_bias value)) drive initial_value in
  match gpio_direction value with
  | Input => Some (out Input 0 None)
  | Output =>
      (* [expect("output config carries drive")] *)
      drive ← gpio_drive value;
      Some (out Output (proto_number drive) (gpio_initial_value value))
  end.
Definition gpio_selector_from_proto (value : v1_ResourceSelector) : HalResult ResourceSelector :=
  selector_for_transport value Gpio "GPIO".
Definition open_gpio_request_from_proto (value : v1_OpenGpioRequest)
    : HalResult (ResourceSelector * list Z * GpioLineConfig) :=
  ok_or (invalid_message "open_gpio selector is required") (wog_selector value) ≫= λ selector,
  if bool_decide (wog_lines value = []) || (MAX_GPIO_EVENTS <? len (wog_lines value)) then
    Err (invalid_message "open_gpio lines must be non-empty and bounded")
  else
    ok_or (invalid_message "open_gpio config is required") (wog_config value) ≫= λ config,
    gpio_selector_from_proto selector ≫= λ selector,
    gpio_config_from_proto config ≫= λ config,
    Ok (selector, wog_lines value, config).
Definition gpio_edge_request_from_proto (value : v1_GpioNextEdgeRequest)
    : HalResult GpioEdgeRequest :=
  match wne_rising value, wne_falling value with
  | true, true => Ok EdgeMask_BOTH
  | true, false => Ok EdgeMask_RISING
  | false, true => Ok EdgeMask_FALLING
  | false, false => Err (invalid_message "gpio_next_edge must select an edge")
  end ≫= λ edges,
  ok_or (invalid_message "gpio_next_edge capacity is invalid")
    (try_from u64_max (wne_capacity value)) ≫= λ capacity,
  map_err (λ _, invalid_message "gpio_next_edge capacity violates public bounds")
    (GpioEdgeRequest_new edges capacity).
Definition gpio_read_request_from_proto (value : v1_SessionLease)
    : HalResult (SessionId * LeaseToken) :=
  parse_control_session_lease (wsl_session_id value) (wsl_lease value) "GPIO".
Definition gpio_close_request_from_proto (value : v1_SessionLease)
    : HalResult (SessionId * LeaseToken) :=
  parse_control_session_lease (wsl_session_id value) (wsl_lease value) "GPIO".
Definition open_gpio_response_from_proto (value : v1_SessionLease)
    : HalResult (SessionId * LeaseToken) :=
  parse_control_session_lease (wsl_session_id value) (wsl_lease value) "GPIO".
Definition gpio_write_request_from_proto (value : v1_GpioWriteRequest)
    : HalResult (SessionId * LeaseToken * list bool) :=
  parse_control_session_lease (wgw_session_id value) (wgw_lease value) "GPIO"
  ≫= λ '(session, lease),
  if bool_decide (wgw_values value = []) || (MAX_GPIO_EVENTS <? len (wgw_values value)) then
    Err (invalid_message "gpio_write values must be non-empty and bounded")
  else Ok (session, lease, wgw_values value).
Definition gpio_next_edge_request_from_proto (value : v1_GpioNextEdgeRequest)
    : HalResult (SessionId * LeaseToken * GpioEdgeRequest * Z) :=
  nonzero_timeout (wne_timeout_ms value) "gpio_next_edge.timeout_ms" ≫= λ timeout,
  parse_control_session_lease (wne_session_id value) (wne_lease value) "GPIO"
  ≫= λ '(session, lease),
  gpio_edge_request_from_proto value ≫= λ request,
  Ok (session, lease, request, timeout).

Definition gpio_read_response_from_proto (values : list bool) : HalResult (list bool) :=
  if bool_decide (values = []) || (MAX_GPIO_EVENTS <? len values) then
    Err (invalid_message "gpio_read_response values must be non-empty and bounded")
  else Ok values.
Definition gpio_read_response_to_proto (values : list bool) : list bool := values.
Definition gpio_edge_event_from_proto (value : v1_GpioEdgeEvent) : HalResult GpioEdgeEvent :=
  enum_field (wge_edge value) "gpio_edge_event.edge"
    (invalid_message "gpio_edge_event.edge is required") ≫= λ edge,
  if wge_sequence value =? 0 then
    Err (invalid_message "gpio_edge_event.sequence must be greater than zero")
  else Ok (mkGpioEdgeEvent edge (wge_monotonic_ns value) (wge_sequence value)).
Definition GpioEdgeEvent_to_proto (value : GpioEdgeEvent) : v1_GpioEdgeEvent :=
  mk_v1_GpioEdgeEvent (proto_number (event_edge value)) (event_monotonic_ns value)
    (event_sequence value).
Definition gpio_next_edge_response_from_proto (value : option v1_GpioEdgeEvent)
    : HalResult (option GpioEdgeEvent) := transpose gpio_edge_event_from_proto value.
Definition gpio_next_edge_response_to_proto (value : option GpioEdgeEvent)
    : option v1_GpioEdgeEvent := GpioEdgeEvent_to_proto <$> value.
Definition open_usb_response_to_proto (session : SessionId) (lease : LeaseToken)
    : v1_SessionLease :=
  mk_v1_SessionLease (SessionId_as_str session) (Some (LeaseToken_to_proto lease)).
Definition open_gpio_response_to_proto (session : SessionId) (lease : LeaseToken)
    : v1_SessionLease :=
  mk_v1_SessionLease (SessionId_as_str session) (Some (LeaseToken_to_proto lease)).

(** ** Encoding: what the client sends *)
Definition transfer_to_proto (session_id : SessionId) (lease : LeaseToken) (transfer : UsbTransfer)
    (timeout_ms : Z) : v1_UsbTransferRequest :=
  let request kind request_type request value index endpoint data max_bytes :=
    mk_v1_UsbTransferRequest (SessionId_as_str session_id) (Some (LeaseToken_to_proto lease))
      (proto_number kind) request_type request value index endpoint data (max_bytes mod 2 ^ 32)
      timeout_ms in
  match transfer with
  | ControlOut request_type code value index data =>
      request KindControlOut request_type code value index 0 data 0
  | ControlIn request_type code value index max_bytes =>
      request KindControlIn request_type code value index 0 [] max_bytes
  | BulkOut endpoint data => request KindBulkOut 0 0 0 0 endpoint data 0
  | BulkIn endpoint max_bytes => request KindBulkIn 0 0 0 0 endpoint [] max_bytes
  | InterruptOut endpoint data => request KindInterruptOut 0 0 0 0 endpoint data 0
  | InterruptIn endpoint max_bytes => request KindInterruptIn 0 0 0 0 endpoint [] max_bytes
  end.
(** The requests the methods of [RemoteUsbHandle], [RemoteGpioHandle] and [HalClient] build. *)
Definition session_request (session : SessionId) (lease : LeaseToken) : v1_SessionLease :=
  mk_v1_SessionLease (SessionId_as_str session) (Some (LeaseToken_to_proto lease)).
Definition open_usb_request (selector : ResourceSelector) (claim : UsbInterfaceClaim)
    : v1_OpenUsbRequest :=
  mk_v1_OpenUsbRequest (Some (ResourceSelector_to_proto selector)) (claim_number claim).
Definition open_gpio_request (selector : ResourceSelector) (lines : list Z)
    (config : GpioLineConfig) : option v1_OpenGpioRequest :=
  config ← GpioLineConfig_to_proto config;
  Some (mk_v1_OpenGpioRequest (Some (ResourceSelector_to_proto selector)) lines (Some config)).
Definition gpio_write_request (session : SessionId) (lease : LeaseToken) (values : list bool)
    : v1_GpioWriteRequest :=
  mk_v1_GpioWriteRequest (SessionId_as_str session) (Some (LeaseToken_to_proto lease)) values.
Definition gpio_next_edge_request (session : SessionId) (lease : LeaseToken)
    (request : GpioEdgeRequest) (timeout_ms : Z) : v1_GpioNextEdgeRequest :=
  mk_v1_GpioNextEdgeRequest (SessionId_as_str session) (Some (LeaseToken_to_proto lease))
    (EdgeMask_contains (edge_mask request) Rising) (EdgeMask_contains (edge_mask request) Falling)
    (edge_capacity request mod 2 ^ 32) timeout_ms.

(** ** Exactness *)
Definition lease_wf (s : SessionId) (l : LeaseToken) : Prop :=
  valid_identifier (SessionId_as_str s) ∧ token_wf l ∧ token_mode l = Control.
Definition timeout_wf (d : Z) : Prop := ∃ ms, ms ≠ 0 ∧ d = from_millis ms.
Definition fits_u8 (n : Z) : Prop := 0 <= n <= u8_max.
Definition fits_u16 (n : Z) : Prop := 0 <= n <= u16_max.
(** The Rust types of the fields of a transfer. *)
Definition transfer_typed (t : UsbTransfer) : Prop :=
  match t with
  | ControlOut rt r v i _ => fits_u8 rt ∧ fits_u8 r ∧ fits_u16 v ∧ fits_u16 i
  | ControlIn rt r v i n => fits_u8 rt ∧ fits_u8 r ∧ fits_u16 v ∧ fits_u16 i ∧ 0 <= n
  | BulkOut e _ | InterruptOut e _ => fits_u8 e
  | BulkIn e n | InterruptIn e n => fits_u8 e ∧ 0 <= n
  end.
Definition transfer_message_typed (v : v1_UsbTransferRequest) : Prop :=
  0 <= wut_request_type v ∧ 0 <= wut_request v ∧ 0 <= wut_value v ∧ 0 <= wut_index v ∧
  0 <= wut_endpoint v ∧ 0 <= wut_max_bytes v.

Lemma parse_control_Ok s o class s' l' :
  parse_control_session_lease s o class = Ok (s', l') ↔
  s = SessionId_as_str s' ∧ o = Some (LeaseToken_to_proto l') ∧ lease_wf s' l'.
Proof.
  unfold parse_control_session_lease, parse_session_lease, lease_wf. split.
  - intros H. apply bind_Ok in H as ([s1 l1] & H & Hm).
    apply bind_Ok in H as (s2 & Hs%map_err_Ok & H).
    apply bind_Ok in H as (w & Hw%ok_or_Ok & H). apply bind_Ok in H as (l2 & Hl & [= -> ->]).
    apply SessionId_parse_Ok in Hs as [? ->]. apply (exact_decode LeaseToken_try_from LeaseToken_to_proto token_wf) in Hl as [-> ?].
    case_bool_decide; [done|]. injection Hm as <- <-. done.
  - intros (-> & -> & Hs & Hl & Hm). destruct s' as [s']. cbn [SessionId_as_str] in *.
    rewrite (proj2 (SessionId_parse_Ok s' _) (conj Hs eq_refl)). cbn.
    rewrite (exact_encode LeaseToken_try_from LeaseToken_to_proto token_wf l' Hl). cbn.
    by rewrite bool_decide_eq_false_2 by (intros ?; done).
Qed.
Lemma session_lease_exact class :
  ExactCodec (λ _, True) (λ v, parse_control_session_lease (wsl_session_id v) (wsl_lease v) class)
    (λ '(s, l), session_request s l) (λ '(s, l), lease_wf s l).
Proof.
  intros [s o] [s' l']. cbn. rewrite parse_control_Ok. unfold session_request. naive_solver.
Qed.
Lemma nonzero_timeout_Ok ms field d :
  nonzero_timeout ms field = Ok d ↔ ms ≠ 0 ∧ d = from_millis ms.
Proof. unfold nonzero_timeout. destruct (ms =? 0) eqn:?; bool_simp; naive_solver. Qed.
Lemma guarded_selector_Ok v expected (e : HalError) s :
  (ResourceSelector_try_from v ≫= λ selector,
   if bool_decide (sel_transport selector ≠ expected) then Err e else Ok selector) = Ok s ↔
  v = ResourceSelector_to_proto s ∧ selector_wf s ∧ sel_transport s = expected.
Proof.
  split.
  - intros (s' & Hs & H)%bind_Ok.
    apply (exact_decode ResourceSelector_try_from ResourceSelector_to_proto selector_wf) in Hs as [-> ?].
    case_bool_decide; [done|]. by injection H as <-.
  - intros (-> & Hwf & Ht).
    rewrite (exact_encode ResourceSelector_try_from ResourceSelector_to_proto selector_wf s Hwf).
    cbn. by rewrite bool_decide_eq_false_2 by (intros ?; done).
Qed.
Lemma selector_for_transport_Ok v expected label s :
  selector_for_transport v expected label = Ok s ↔
  v = ResourceSelector_to_proto s ∧ selector_wf s ∧ sel_transport s = expected.
Proof. apply guarded_selector_Ok. Qed.

Lemma byte_Ok v field b : byte v field = Ok b ↔ v <= u8_max ∧ b = v.
Proof. unfold byte. by rewrite try_from_Ok. Qed.
Lemma u16_value_Ok v field b : u16_value v field = Ok b ↔ v <= u16_max ∧ b = v.
Proof. unfold u16_value. by rewrite try_from_Ok. Qed.
Lemma transfer_bounds_Ok t t' :
  transfer_bounds (validated t) = Ok t' ↔ t' = t ∧ UsbTransfer_validate t = Ok ().
Proof.
  unfold transfer_bounds, validated. rewrite map_err_Ok.
  destruct (UsbTransfer_validate t) as [[]|]; cbn; naive_solver.
Qed.
Lemma control_fields_Ok v (build : Z → Z → Z → Z → UsbTransfer) t :
  control_fields v (λ rt r x i, validated (build rt r x i)) = Ok t ↔
  wut_request_type v <= u8_max ∧ wut_request v <= u8_max ∧ wut_value v <= u16_max ∧
  wut_index v <= u16_max ∧
  t = build (wut_request_type v) (wut_request v) (wut_value v) (wut_index v) ∧
  UsbTransfer_validate t = Ok ().
Proof.
  unfold control_fields. split.
  - intros H. apply bind_Ok in H as (? & [? ->]%byte_Ok & Hb).
    apply bind_Ok in Hb as (? & [? ->]%byte_Ok & Hc).
    apply bind_Ok in Hc as (? & [? ->]%u16_value_Ok & Hd).
    apply bind_Ok in Hd as (? & [? ->]%u16_value_Ok & He).
    apply transfer_bounds_Ok in He as [-> ?]. done.
  - intros (H1 & H2 & H3 & H4 & -> & Hv).
    rewrite (proj2 (byte_Ok (wut_request_type v) _ _) (conj H1 eq_refl)). cbn.
    rewrite (proj2 (byte_Ok (wut_request v) _ _) (conj H2 eq_refl)). cbn.
    rewrite (proj2 (u16_value_Ok (wut_value v) _ _) (conj H3 eq_refl)). cbn.
    rewrite (proj2 (u16_value_Ok (wut_index v) _ _) (conj H4 eq_refl)). cbn.
    by apply transfer_bounds_Ok.
Qed.
Lemma data_fields_Ok e (build : Z → UsbTransfer) t :
  (byte e "usb_transfer.endpoint" ≫= λ e, transfer_bounds (validated (build e))) = Ok t ↔
  e <= u8_max ∧ t = build e ∧ UsbTransfer_validate t = Ok ().
Proof.
  split.
  - intros (? & [? ->]%byte_Ok & [-> ?]%transfer_bounds_Ok)%bind_Ok. done.
  - intros (He & -> & Hv). rewrite (proj2 (byte_Ok _ _ _) (conj He eq_refl)). cbn.
    by apply transfer_bounds_Ok.
Qed.

(** A transfer that decodes is typed, valid, and what the client would have sent. *)
Lemma transfer_size_u32 n : 0 <= n → n <= MAX_USB_TRANSFER_BYTES → n mod 2 ^ 32 = n.
Proof. unfold MAX_USB_TRANSFER_BYTES. intros ??. apply Z.mod_small. lia. Qed.
Lemma in_size_bound t : UsbTransfer_validate t = Ok () → transfer_size t <= MAX_USB_TRANSFER_BYTES.
Proof. by intros (_ & _ & ?)%UsbTransfer_validate_iff. Qed.

Ltac decode_control build H :=
  apply (control_fields_Ok _ build) in H as (? & ? & ? & ? & -> & Hv).
Ltac decode_data build H := apply (data_fields_Ok _ build) in H as (? & -> & Hv).
Ltac by_transfer :=
  pose proof (in_size_bound _ ltac:(eassumption)) as Hsize; cbn in *;
  split; [intros s l -> ->; unfold transfer_to_proto; cbn;
          rewrite ?transfer_size_u32 by done; reflexivity
         |split; [unfold fits_u8, fits_u16; split_and?; done|done]].

Lemma usb_transfer_decode v t :
  transfer_message_typed v → usb_transfer_from_proto v = Ok t →
  (∀ s l, wut_session_id v = SessionId_as_str s → wut_lease v = Some (LeaseToken_to_proto l) →
     v = transfer_to_proto s l t (wut_timeout_ms v)) ∧
  transfer_typed t ∧ UsbTransfer_validate t = Ok ().
Proof.
  destruct v as [sid lease kind rt r x i e d n ms]. intros (Hrt & Hr & Hx & Hi & He & Hn) H.
  cbn in *. unfold usb_transfer_from_proto in H. cbn in H.
  apply bind_Ok in H as (k & Hk & Ha). apply bind_Ok in Ha as (n' & [_ ->]%try_from_Ok & H).
  unfold required_enum in Hk. destruct (kind =? 0); [by injection Hk as <-|].
  destruct (proto_of kind) as [k'|] eqn:Hp; [|done]. injection Hk as <-.
  apply proto_number_of in Hp as <-.
  destruct k'; destruct (_ || _) eqn:Hg; try done;
    unfold has_control_fields, has_data in Hg; cbn in Hg; bool_simp; subst;
    repeat match goal with Hd : ¬ d ≠ [] |- _ => apply dec_stable in Hd as -> end.
  - decode_control (λ rt r v i, ControlOut rt r v i d) H. by_transfer.
  - decode_control (λ rt r v i, ControlIn rt r v i n) H. by_transfer.
  - decode_data (λ e, BulkOut e d) H. by_transfer.
  - decode_data (λ e, BulkIn e n) H. by_transfer.
  - decode_data (λ e, InterruptOut e d) H. by_transfer.
  - decode_data (λ e, InterruptIn e n) H. by_transfer.
Qed.
Lemma required_enum_proto {A} `{ProtoEnum A} (a : A) field :
  required_enum (proto_number a) field = Ok (Some a).
Proof.
  unfold required_enum. rewrite (proj2 (Z.eqb_neq _ _) (proto_number_pos a)).
  by rewrite proto_of_number.
Qed.
Global Instance proto_number_inj {A} `{ProtoEnum A} : Inj (=) (=) (proto_number (A := A)).
Proof. intros a b Hab. pose proof (proto_of_number a) as Ha. rewrite Hab, proto_of_number in Ha. by injection Ha. Qed.
Lemma usb_transfer_encode s l t ms :
  transfer_typed t → UsbTransfer_validate t = Ok () →
  usb_transfer_from_proto (transfer_to_proto s l t ms) = Ok t.
Proof.
  intros Ht Hv. pose proof (in_size_bound _ Hv) as Hsize. unfold usb_transfer_from_proto.
  assert (∀ n, 0 <= n → n <= MAX_USB_TRANSFER_BYTES → try_from u64_max n = Some n) as Hmax.
  { intros n ??. apply try_from_Some. unfold u64_max, MAX_USB_TRANSFER_BYTES in *. lia. }
  destruct t; cbn [transfer_typed transfer_size] in Ht, Hsize; unfold fits_u8, fits_u16 in Ht;
    cbn [transfer_to_proto wut_kind wut_max_bytes wut_data wut_endpoint];
    rewrite required_enum_proto, ?transfer_size_u32 by (done || lia);
    cbn [mbind result_bind]; rewrite Hmax by (done || lia); cbn [ok_or mbind result_bind].
  - apply (control_fields_Ok _ (λ rt r v i, ControlOut rt r v i data)); split_and!; done || apply Ht.
  - apply (control_fields_Ok _ (λ rt r v i, ControlIn rt r v i max_bytes)); split_and!; done || apply Ht.
  - apply (data_fields_Ok _ (λ e, BulkOut e data)); split_and!; done || apply Ht.
  - apply (data_fields_Ok _ (λ e, BulkIn e max_bytes)); split_and!; done || apply Ht.
  - apply (data_fields_Ok _ (λ e, InterruptOut e data)); split_and!; done || apply Ht.
  - apply (data_fields_Ok _ (λ e, InterruptIn e max_bytes)); split_and!; done || apply Ht.
Qed.

Definition usb_request_wf (a : SessionId * LeaseToken * UsbTransfer * Z) : Prop :=
  let '(s, l, t, d) := a in
  lease_wf s l ∧ transfer_typed t ∧ UsbTransfer_validate t = Ok () ∧ timeout_wf d.
Definition usb_request_encode (a : SessionId * LeaseToken * UsbTransfer * Z)
    : v1_UsbTransferRequest :=
  let '(s, l, t, d) := a in transfer_to_proto s l t (d / 1000000).
Lemma transfer_to_proto_session s l t ms :
  wut_session_id (transfer_to_proto s l t ms) = SessionId_as_str s ∧
  wut_lease (transfer_to_proto s l t ms) = Some (LeaseToken_to_proto l) ∧
  wut_timeout_ms (transfer_to_proto s l t ms) = ms.
Proof. by destruct t. Qed.
Lemma transfer_to_proto_typed s l t ms :
  transfer_typed t → transfer_message_typed (transfer_to_proto s l t ms).
Proof.
  unfold transfer_message_typed. destruct t; cbn; unfold fits_u8, fits_u16; intros Ht;
    split_and!; try apply Ht; try done; apply Z.mod_pos_bound; lia.
Qed.
Global Instance usb_request_exact :
  ExactCodec transfer_message_typed usb_transfer_request_from_proto usb_request_encode
    usb_request_wf.
Proof.
  intros v [[[s l] t] d]. unfold usb_transfer_request_from_proto, usb_request_encode. split.
  - intros [Hty H]. apply bind_Ok in H as (d' & [Hms ->]%nonzero_timeout_Ok & H1).
    apply bind_Ok in H1 as ([s' l'] & (Hs & Hl & Hwf)%parse_control_Ok & H2).
    apply bind_Ok in H2 as (t' & Ht & [= <- <- <- <-]).
    destruct (usb_transfer_decode _ _ Hty Ht) as (Heq & Htt & Hv).
    unfold from_millis. rewrite Z.div_mul by done. split; [by apply Heq|].
    unfold usb_request_wf. split_and!; [done..|]. by exists (wut_timeout_ms v).
  - intros [-> (Hl & Ht & Hv & ms & Hms & ->)]. split; [by apply transfer_to_proto_typed|].
    unfold from_millis. rewrite Z.div_mul by done.
    destruct (transfer_to_proto_session s l t ms) as (-> & -> & ->).
    rewrite (proj2 (nonzero_timeout_Ok ms _ _) (conj Hms eq_refl)). cbn [mbind result_bind].
    rewrite (proj2 (parse_control_Ok _ _ _ s l) (conj eq_refl (conj eq_refl Hl))).
    cbn [mbind result_bind]. by rewrite usb_transfer_encode.
Qed.

(** *** Opening, reading, writing and waiting for edges *)
Definition open_usb_wf (a : ResourceSelector * Z) : Prop :=
  selector_wf a.1 ∧ sel_transport a.1 = Usb ∧ 0 <= a.2 <= MAX_USB_INTERFACE_NUMBER.
Global Instance open_usb_exact :
  ExactCodec (λ v, 0 <= wou_interface_number v) open_usb_request_from_proto
    (λ '(s, n), open_usb_request s (mkUsbInterfaceClaim n)) open_usb_wf.
Proof.
  intros [o n] [s n']. unfold open_usb_request_from_proto, open_usb_request, open_usb_wf,
    usb_selector_from_proto. cbn. split.
  - intros [Hn H]. apply bind_Ok in H as (w & Hw%ok_or_Ok & H1).
    apply bind_Ok in H1 as (m & [_ ->]%try_from_Ok & H2).
    destruct (_ <? n) eqn:Hle; [done|]. bool_simp.
    apply bind_Ok in H2 as (s' & (-> & ? & ?)%selector_for_transport_Ok & [= <- <-]).
    unfold MAX_USB_INTERFACE_NUMBER, u8_max in *. rewrite Z.mod_small by lia. by subst.
  - intros [[= -> ->] (Hs & Ht & Hn)]. split; [lia|]. cbn.
    unfold MAX_USB_INTERFACE_NUMBER, u8_max in *.
    rewrite (proj2 (try_from_Some u64_max n' n')) by (unfold u64_max; lia). cbn.
    rewrite (proj2 (Z.ltb_ge _ _)) by lia.
    rewrite (proj2 (selector_for_transport_Ok _ Usb _ s)) by done. cbn.
    by rewrite Z.mod_small by lia.
Qed.

Definition values_wf {A} (l : list A) : Prop := l ≠ [] ∧ len l <= MAX_GPIO_EVENTS.
Lemma values_guard {A} `{EqDecision A} (l : list A) :
  bool_decide (l = []) || (MAX_GPIO_EVENTS <? len l) = false ↔ values_wf l.
Proof.
  unfold values_wf. rewrite orb_false_iff, bool_decide_eq_false, Z.ltb_ge. done.
Qed.
Definition gpio_write_wf (a : SessionId * LeaseToken * list bool) : Prop :=
  let '(s, l, values) := a in lease_wf s l ∧ values_wf values.
Global Instance gpio_write_exact :
  ExactCodec (λ _, True) gpio_write_request_from_proto
    (λ '(s, l, values), gpio_write_request s l values) gpio_write_wf.
Proof.
  apply exact_intro.
  - intros [sid o values] [[s l] values'] H. unfold gpio_write_request_from_proto in H. cbn in H.
    apply bind_Ok in H as ([s' l'] & (-> & -> & Hwf)%parse_control_Ok & H1).
    destruct (_ || _) eqn:Hg; [done|]. injection H1 as <- <- <-. by apply values_guard in Hg.
  - intros [[s l] values] [Hl Hv]. unfold gpio_write_request_from_proto. cbn.
    rewrite (proj2 (parse_control_Ok _ _ _ s l) (conj eq_refl (conj eq_refl Hl))). cbn.
    by rewrite (proj2 (values_guard values) Hv).
Qed.
Global Instance gpio_read_response_exact :
  ExactCodec (λ _, True) gpio_read_response_from_proto gpio_read_response_to_proto values_wf.
Proof.
  apply exact_intro; unfold gpio_read_response_from_proto, gpio_read_response_to_proto.
  - intros m a. destruct (_ || _) eqn:Hg; [done|]. intros [= <-]. by apply values_guard in Hg.
  - intros a Ha. by rewrite (proj2 (values_guard a) Ha).
Qed.
Global Instance usb_response_exact :
  ExactCodec (λ _, True) usb_transfer_response_from_proto usb_transfer_response_to_proto
    (λ d, len d <= MAX_USB_TRANSFER_BYTES).
Proof.
  apply exact_intro; unfold usb_transfer_response_from_proto, usb_transfer_response_to_proto.
  - intros m a. destruct (_ <? _) eqn:Hg; [done|]. bool_simp. intros [= <-]. done.
  - intros a Ha. by rewrite (proj2 (Z.ltb_ge _ _) Ha).
Qed.

Definition edge_event_wf (e : GpioEdgeEvent) : Prop := event_sequence e ≠ 0.
Global Instance edge_event_exact :
  ExactCodec (λ _, True) gpio_edge_event_from_proto GpioEdgeEvent_to_proto edge_event_wf.
Proof.
  apply exact_intro; unfold gpio_edge_event_from_proto, GpioEdgeEvent_to_proto, edge_event_wf.
  - intros [e t n] [e' t' n']. cbn. intros H.
    apply bind_Ok in H as (? & ->%enum_field_Ok & H1). destruct (n =? 0) eqn:?; [done|].
    bool_simp. by injection H1 as <- <- <-.
  - intros [e t n]. cbn. intros Hn. rewrite enum_field_proto. cbn.
    by rewrite (proj2 (Z.eqb_neq _ _) Hn).
Qed.
Global Instance next_edge_response_exact :
  ExactCodec (λ _, True) gpio_next_edge_response_from_proto gpio_next_edge_response_to_proto
    (λ o, ∀ e, o = Some e → edge_event_wf e).
Proof. apply exact_transpose, _. Qed.

Definition edge_request_wf (r : GpioEdgeRequest) : Prop :=
  edge_mask r ∈ [EdgeMask_RISING; EdgeMask_FALLING; EdgeMask_BOTH] ∧
  0 < edge_capacity r <= MAX_GPIO_EVENTS.
Definition next_edge_wf (a : SessionId * LeaseToken * GpioEdgeRequest * Z) : Prop :=
  let '(s, l, r, d) := a in lease_wf s l ∧ edge_request_wf r ∧ timeout_wf d.
Definition next_edge_encode (a : SessionId * LeaseToken * GpioEdgeRequest * Z)
    : v1_GpioNextEdgeRequest :=
  let '(s, l, r, d) := a in gpio_next_edge_request s l r (d / 1000000).
Lemma edge_request_decode v r :
  0 <= wne_capacity v → gpio_edge_request_from_proto v = Ok r →
  edge_request_wf r ∧ wne_rising v = EdgeMask_contains (edge_mask r) Rising ∧
  wne_falling v = EdgeMask_contains (edge_mask r) Falling ∧
  wne_capacity v = edge_capacity r mod 2 ^ 32.
Proof.
  intros Hc H. unfold gpio_edge_request_from_proto in H. apply bind_Ok in H as (m & Hm & H1).
  apply bind_Ok in H1 as (c & [_ ->]%try_from_Ok & H2%map_err_Ok).
  apply GpioEdgeRequest_new_Ok in H2 as (_ & H0 & Hle & ->). unfold edge_request_wf. cbn.
  rewrite Z.mod_small by (unfold MAX_GPIO_EVENTS in *; lia).
  destruct (wne_rising v), (wne_falling v); try done; injection Hm as <-;
    (split_and!; first [done | lia | set_solver]).
Qed.
#[local] Arguments GpioEdgeRequest_new : simpl never.
Lemma edge_request_encode s l r ms :
  edge_request_wf r → gpio_edge_request_from_proto (gpio_next_edge_request s l r ms) = Ok r.
Proof.
  destruct r as [m c]. unfold edge_request_wf. cbn. intros [Hm Hc].
  unfold gpio_edge_request_from_proto, gpio_next_edge_request. cbn.
  assert (GpioEdgeRequest_new m c = Ok (mkGpioEdgeRequest m c)) as Hnew.
  { apply GpioEdgeRequest_new_Ok. split_and!; try done; try lia.
    rewrite !elem_of_cons in Hm. intros Hz.
    destruct Hm as [-> |[-> |[-> |Hm]]]; [done..|]. by apply elem_of_nil in Hm. }
  rewrite !elem_of_cons, elem_of_nil in Hm. unfold MAX_GPIO_EVENTS in *.
  assert (ok_or (invalid_message "gpio_next_edge capacity is invalid")
    (try_from u64_max (c mod 2 ^ 32)) = Ok c) as Hcap.
  { rewrite Z.mod_small by lia. apply try_from_Ok. unfold u64_max. lia. }
  destruct Hm as [-> |[-> |[-> |[]]]]; cbn; rewrite Hcap; by apply map_err_Ok, Hnew.
Qed.
Global Instance next_edge_request_exact :
  ExactCodec (λ v, 0 <= wne_capacity v) gpio_next_edge_request_from_proto next_edge_encode
    next_edge_wf.
Proof.
  intros v [[[s l] r] d]. unfold gpio_next_edge_request_from_proto, next_edge_encode. split.
  - intros [Hty H]. apply bind_Ok in H as (d' & [Hms ->]%nonzero_timeout_Ok & H1).
    apply bind_Ok in H1 as ([s' l'] & (Hs & Hl & Hwf)%parse_control_Ok & H2).
    apply bind_Ok in H2 as (r' & Hr & [= <- <- <- <-]).
    destruct (edge_request_decode _ _ Hty Hr) as (? & ? & ? & ?).
    unfold from_millis. rewrite Z.div_mul by done. destruct v; cbn in *; subst.
    split; [done|]. split_and!; [done..|]. by eexists.
  - intros [-> (Hl & Hr & ms & Hms & ->)]. unfold from_millis. rewrite Z.div_mul by done.
    split; [cbn; apply Z.mod_pos_bound; lia|]. cbn [wne_timeout_ms gpio_next_edge_request].
    rewrite (proj2 (nonzero_timeout_Ok ms _ _) (conj Hms eq_refl)). cbn [mbind result_bind].
    cbn [wne_session_id wne_lease].
    rewrite (proj2 (parse_control_Ok _ _ _ s l) (conj eq_refl (conj eq_refl Hl))).
    cbn [mbind result_bind]. by rewrite edge_request_encode.
Qed.

(** *** GPIO configurations

    Decoding a configuration ignores the fields that its direction does not use: the drive
    and the initial value of an input, and the bias of an output, which must be specified
    but is replaced by [Disabled]. *)
Definition gpio_config_wf (c : GpioLineConfig) : Prop :=
  match gpio_direction c with
  | Input => gpio_drive c = None ∧ gpio_initial_value c = None
  | Output => gpio_bias c = BiasDisabled ∧ is_Some (gpio_drive c) ∧ is_Some (gpio_initial_value c)
  end.
Definition gpio_config_canonical (v : v1_GpioLineConfig) : v1_GpioLineConfig :=
  if wgc_direction v =? proto_number Input
  then mk_v1_GpioLineConfig (wgc_direction v) (wgc_active_low v) (wgc_bias v) 0 None
  else mk_v1_GpioLineConfig (wgc_direction v) (wgc_active_low v) (proto_number BiasDisabled)
         (wgc_drive v) (wgc_initial_value v).
Lemma gpio_config_decode v c :
  gpio_config_from_proto v = Ok c ↔
  gpio_config_wf c ∧ GpioLineConfig_to_proto c = Some (gpio_config_canonical v) ∧
  ∃ bias : GpioBias, wgc_bias v = proto_number bias.
Proof.
  destruct v as [d low b dr init]. unfold gpio_config_from_proto, gpio_config_canonical. cbn. split.
  - intros H. apply bind_Ok in H as (d' & Hd & H1).
    apply bind_Ok in H1 as (b' & ->%enum_field_Ok & H2).
    unfold required_enum in Hd. destruct (d =? 0); [by injection Hd as <-|].
    destruct (proto_of d) as [k|] eqn:Hk; [|done]. injection Hd as <-.
    apply proto_number_of in Hk as <-. destruct k.
    + injection H2 as <-. cbn. split_and!; first [done|by eexists].
    + apply bind_Ok in H2 as (dr' & ->%enum_field_Ok & H3).
      apply bind_Ok in H3 as (i & ->%ok_or_Ok & [= <-]). cbn.
      split_and!; first [done|by eexists].
  - intros (Hwf & Hto & bias & ->). rewrite enum_field_proto.
    destruct c as [[] low' b' dr' init']; unfold gpio_config_wf in Hwf; cbn in Hwf, Hto.
    + destruct Hwf as [-> ->].
      assert (d = proto_number Input ∧ low = low' ∧ bias = b') as (-> & -> & ->).
      { destruct (d =? proto_number Input) eqn:E; bool_simp.
        - injection Hto as _ Hlow Hb. split_and!; [done|done|].
          by apply (inj proto_number) in Hb.
        - by injection Hto as Hd. }
      rewrite required_enum_proto. done.
    + destruct Hwf as (-> & [dr1 ->] & [i1 ->]). cbn in Hto.
      destruct (d =? proto_number Input) eqn:E; bool_simp.
      { subst. by injection Hto. }
      injection Hto as <- -> <- <-. rewrite required_enum_proto. cbn.
      by rewrite enum_field_proto.
Qed.
Lemma gpio_config_canonical_encode c v :
  gpio_config_wf c → GpioLineConfig_to_proto c = Some v →
  gpio_config_canonical v = v ∧ ∃ bias : GpioBias, wgc_bias v = proto_number bias.
Proof.
  destruct c as [[] low b dr i]; unfold gpio_config_wf; cbn.
  - intros [-> ->] [= <-]. split; [done|by exists b].
  - intros (-> & [d ->] & [j ->]) [= <-]. split; [done|by exists BiasDisabled].
Qed.

(** What a client asks of USB and GPIO lines is what the broker hears: decoding accepts
    exactly the encodings the client produces for valid requests, and returns the request.
    A transfer arrives with the same fields, data and timeout and satisfies the public
    bounds; opening an interface, writing values and waiting for edges likewise; the data,
    values and edges of the answers come back unchanged. *)
Theorem wire_usb_gpio_exact class :
  ExactCodec transfer_message_typed usb_transfer_request_from_proto usb_request_encode
    usb_request_wf ∧
  ExactCodec (λ v, 0 <= wou_interface_number v) open_usb_request_from_proto
    (λ '(s, n), open_usb_request s (mkUsbInterfaceClaim n)) open_usb_wf ∧
  ExactCodec (λ _, True) gpio_write_request_from_proto
    (λ '(s, l, values), gpio_write_request s l values) gpio_write_wf ∧
  ExactCodec (λ v, 0 <= wne_capacity v) gpio_next_edge_request_from_proto next_edge_encode
    next_edge_wf ∧
  ExactCodec (λ _, True) (λ v, parse_control_session_lease (wsl_session_id v) (wsl_lease v) class)
    (λ '(s, l), session_request s l) (λ '(s, l), lease_wf s l) ∧
  ExactCodec (λ _, True) usb_transfer_response_from_proto usb_transfer_response_to_proto
    (λ d, len d <= MAX_USB_TRANSFER_BYTES) ∧
  ExactCodec (λ _, True) gpio_read_response_from_proto gpio_read_response_to_proto values_wf ∧
  ExactCodec (λ _, True) gpio_next_edge_response_from_proto gpio_next_edge_response_to_proto
    (λ o, ∀ e, o = Some e → edge_event_wf e).
Proof. split_and!; try apply _. apply session_lease_exact. Qed.

(** Opening GPIO lines over the wire: the broker accepts exactly the requests that name a
    well-formed GPIO selector, between 1 and 1024 lines and a configuration; the selector
    and the lines arrive as sent, and the configuration up to the fields its direction
    does not use, in particular an output's bias, which is dropped. *)
Theorem open_gpio_request_spec v s lines c :
  open_gpio_request_from_proto v = Ok (s, lines, c) ↔
  selector_wf s ∧ sel_transport s = Gpio ∧ values_wf lines ∧ gpio_config_wf c ∧
  ∃ w, v = mk_v1_OpenGpioRequest (Some (ResourceSelector_to_proto s)) lines (Some w) ∧
    GpioLineConfig_to_proto c = Some (gpio_config_canonical w) ∧
    ∃ bias : GpioBias, wgc_bias w = proto_number bias.
Proof.
  destruct v as [o ls oc]. unfold open_gpio_request_from_proto, gpio_selector_from_proto. cbn. split.
  - intros H. apply bind_Ok in H as (w & ->%ok_or_Ok & H1).
    destruct (_ || _) eqn:Hg; [done|]. apply values_guard in Hg.
    apply bind_Ok in H1 as (w' & ->%ok_or_Ok & H2).
    apply bind_Ok in H2 as (s' & (-> & ? & ?)%selector_for_transport_Ok & H3).
    apply bind_Ok in H3 as (c' & (? & ? & ?)%gpio_config_decode & [= <- <- <-]).
    split_and!; [done..|]. by exists w'.
  - intros (Hs & Ht & Hl & Hc & w & [= -> -> ->] & Hto & Hb). cbn.
    rewrite (proj2 (values_guard lines) Hl).
    rewrite (proj2 (selector_for_transport_Ok _ Gpio _ s)) by done. cbn.
    by rewrite (proj2 (gpio_config_decode w c) (conj Hc (conj Hto Hb))).
Qed.

(** What a client opens is what the broker decodes. *)
Lemma open_gpio_roundtrip s lines c v :
  selector_wf s → sel_transport s = Gpio → values_wf lines → gpio_config_wf c →
  open_gpio_request s lines c = Some v → open_gpio_request_from_proto v = Ok (s, lines, c).
Proof.
  intros Hs Ht Hl Hc Hv. unfold open_gpio_request in Hv.
  destruct (GpioLineConfig_to_proto c) as [w|] eqn:Hw; [|done]. injection Hv as <-.
  destruct (gpio_config_canonical_encode _ _ Hc Hw) as [Hcan Hb].
  unfold open_gpio_request_from_proto, gpio_selector_from_proto. cbn.
  rewrite (proj2 (values_guard lines) Hl).
  rewrite (proj2 (selector_for_transport_Ok _ Gpio _ s)) by done. cbn.
  rewrite (proj2 (gpio_config_decode w c)); [done|]. by rewrite Hcan.
Qed.
