(* ===== verification/WireCamera.v ===== *)
(** * robot-hal-protocol: camera conversions

    Models crates/robot-hal-protocol/src/camera_conversion.rs, with the encoders of the
    requests that are in crates/robot-hal-client/src (connection.rs, camera.rs).  Messages
    are named as in [WireCore]; a [oneof] is an option of an inductive type. *)

From S2P Require Import Prelude Core SerialRegistry CanTypes CameraTypes ShmLayout ShmRing.
From S2P Require Import WireCore GpioTypes UsbTypes WireUsbGpio.

(** ** Enumerations and messages *)
Global Program Instance CameraPixelFormat_proto : ProtoEnum CameraPixelFormat := {|
  proto_number f := match f with CamNv12 => 1 | CamYuyv => 2 | CamMjpeg => 3 end;
  proto_of v := if v =? 1 then Some CamNv12 else if v =? 2 then Some CamYuyv
                else if v =? 3 then Some CamMjpeg else None;
|}.
Solve Obligations with solve_proto_enum.
Global Program Instance CameraControlKind_proto : ProtoEnum CameraControlKind := {|
  proto_number k := match k with Exposure => 1 | Gain => 2 | WhiteBalance => 3 | Focus => 4 end;
  proto_of v := if v =? 1 then Some Exposure else if v =? 2 then Some Gain
                else if v =? 3 then Some WhiteBalance else if v =? 4 then Some Focus else None;
|}.
Solve Obligations with solve_proto_enum.

Record v1_CameraFormat := mk_v1_CameraFormat {
  wcf_pixel_format : Z;
  wcf_width : Z;
  wcf_height : Z;
}.
Record v1_CameraRequest := mk_v1_CameraRequest {
  wcr_format : option v1_CameraFormat;
  wcr_slot_count : Z;
}.
Record v1_OpenCameraRequest := mk_v1_OpenCameraRequest {
  woc_selector : option v1_ResourceSelector;
  woc_request : option v1_CameraRequest;
}.
Record v1_CaptureCameraRequest := mk_v1_CaptureCameraRequest {
  wcc_session_id : string;
  wcc_lease : option v1_LeaseToken;
  wcc_timeout_ms : Z;
}.
Inductive v1_CameraControlValue := IntegerValue (value : Z) | EnumValue (value : string).
Inductive v1_CameraControlValues :=
  | ValuesRange (minimum maximum step : Z)
  | ValuesEnumerated (values : list (option v1_CameraControlValue)).
Record v1_CameraControlDescriptor := mk_v1_CameraControlDescriptor {
  wcd_kind : Z;
  wcd_readable : bool;
  wcd_writable : bool;
  wcd_auto_supported : bool;
  wcd_values : option (option v1_CameraControlValues);
  wcd_current_value_available : bool;
  wcd_diagnostic : string;
}.
Record v1_MappingDescriptor := mk_v1_MappingDescriptor {
  wmd_mapping_name : string;
  wmd_mapping_identity : list Z;
  wmd_capability_token : list Z;
  wmd_total_length : Z;
}.
Record v1_FrameLease := mk_v1_FrameLease {
  wfl_slot_index : Z;
  wfl_sequence : Z;
  wfl_generation : Z;
}.

(** ** Opening and capturing *)
(** [match v1::E::try_from(value).map_err(unknown)? { .., Unspecified => missing }]. *)
Definition camera_enum {A} `{ProtoEnum A} (value : Z) (unknown missing : string) : HalResult A :=
  if value =? 0 then Err (invalid_message missing)
  else ok_or (invalid_message unknown) (proto_of value).
Definition camera_selector_from_proto (value : v1_ResourceSelector) : HalResult ResourceSelector :=
  ResourceSelector_try_from value ≫= λ selector,
  if bool_decide (sel_transport selector ≠ Camera)
  then Err (invalid_message "camera resource selector transport must be Camera")
  else Ok selector.
Definition camera_format_from_proto (value : v1_CameraFormat) : HalResult CameraFormat :=
  camera_enum (wcf_pixel_format value) "camera format has an unknown pixel format"
    "camera format pixel format is required" ≫= λ pixel_format,
  map_err (λ _, invalid_message "camera format violates public bounds")
    (CameraFormat_new pixel_format (wcf_width value) (wcf_height value)).
Definition camera_open_request_from_proto (value : v1_OpenCameraRequest)
    : HalResult (ResourceSelector * CameraRequest) :=
  ok_or (invalid_message "camera open selector is required") (woc_selector value) ≫= λ selector,
  ok_or (invalid_message "camera open request is required") (woc_request value) ≫= λ request,
  ok_or (invalid_message "camera request format is required") (wcr_format request) ≫= λ format,
  ok_or (invalid_message "camera slot count is invalid")
    (try_from usize_max (wcr_slot_count request)) ≫= λ slots,
  if negb (slot_count_in_range slots) then
    Err (invalid_message "camera slot count violates public bounds")
  else
    camera_selector_from_proto selector ≫= λ selector,
    camera_format_from_proto format ≫= λ format,
    map_err (λ _, invalid_message "camera request violates public bounds")
      (CameraRequest_new format slots) ≫= λ request,
    Ok (selector, request).
Definition camera_session_lease_from_proto (session_id : string) (lease : option v1_LeaseToken)
    : HalResult (SessionId * LeaseToken) :=
  parse_session_lease session_id lease ≫= λ '(session, lease),
  if bool_decide (token_mode lease ≠ Control)
  then Err (invalid_message "Camera session lease mode must be Control")
  else Ok (session, lease).
Definition camera_capture_request_from_proto (value : v1_CaptureCameraRequest)
    : HalResult (SessionId * LeaseToken * Z) :=
  if wcc_timeout_ms value =? 0 then
    Err (invalid_message "camera capture timeout must be greater than zero")
  else
    camera_session_lease_from_proto (wcc_session_id value) (wcc_lease value)
    ≫= λ '(session, lease), Ok (session, lease, from_millis (wcc_timeout_ms value)).
Definition camera_open_response_to_proto (session : SessionId) (lease : LeaseToken)
    : v1_SessionLease :=
  mk_v1_SessionLease (SessionId_as_str session) (Some (LeaseToken_to_proto lease)).
Definition camera_open_response_from_proto (value : v1_SessionLease)
    : HalResult (SessionId * LeaseToken) :=
  camera_session_lease_from_proto (wsl_session_id value) (wsl_lease value).

(** The client's side: [camera_request_to_proto], [open_camera] and [capture]. *)
Definition camera_request_to_proto (request : CameraRequest) : v1_CameraRequest :=
  mk_v1_CameraRequest
    (Some (mk_v1_CameraFormat (proto_number (cf_pixel_format (req_format request)))
             (cf_width (req_format request)) (cf_height (req_format request))))
    (req_slot_count request mod 2 ^ 32).
Definition open_camera_request (selector : ResourceSelector) (request : CameraRequest)
    : v1_OpenCameraRequest :=
  mk_v1_OpenCameraRequest (Some (ResourceSelector_to_proto selector))
    (Some (camera_request_to_proto request)).
Definition capture_camera_request (session : SessionId) (lease : LeaseToken) (timeout_ms : Z)
    : v1_CaptureCameraRequest :=
  mk_v1_CaptureCameraRequest (SessionId_as_str session) (Some (LeaseToken_to_proto lease))
    timeout_ms.

(** ** Controls *)
Definition camera_control_kind_from_proto (value : Z) : HalResult CameraControlKind :=
  camera_enum value "camera control kind has an unknown value" "camera control kind is required".
Definition control_kind_to_proto (kind : CameraControlKind) : Z := proto_number kind.
Definition camera_control_value_from_proto (value : option v1_CameraControlValue)
    : HalResult CameraControlValue :=
  match value with
  | Some (IntegerValue v) => Ok (ControlInteger v)
  | Some (EnumValue v) =>
      if negb (str_is_empty v) && is_ascii v && (str_len v <=? 255) then Ok (ControlEnum v)
      else Err (invalid_message "camera enum control value is invalid")
  | None => Err (invalid_message "camera control value is required")
  end.
Definition camera_control_value_to_proto (value : CameraControlValue)
    : option v1_CameraControlValue :=
  Some match value with
       | ControlInteger v => IntegerValue v
       | ControlEnum v => EnumValue v
       end.
Definition camera_control_descriptor_from_proto (value : v1_CameraControlDescriptor)
    : HalResult CameraControlDescriptor :=
  let invalid r := map_err (λ _, invalid_message "camera control values are invalid") r in
  ok_or (invalid_message "camera control values are required") (wcd_values value) ≫= λ values,
  match values with
  | Some (ValuesRange minimum maximum step) =>
      invalid (CameraControlValues_range minimum maximum step)
  | Some (ValuesEnumerated values) =>
      if 64 <? len values then
        Err (invalid_message "camera enumerated control values exceed bound")
      else
        collect camera_control_value_from_proto values ≫= λ values,
        invalid (CameraControlValues_enumerated values)
  | None => Err (invalid_message "camera control values kind is required")
  end ≫= λ values,
  let diagnostic := wcd_diagnostic value in
  if negb (str_is_empty diagnostic) && (negb (is_ascii diagnostic) || (255 <? str_len diagnostic))
  then Err (invalid_message "camera control diagnostic is invalid")
  else
    camera_control_kind_from_proto (wcd_kind value) ≫= λ kind,
    map_err (λ _, invalid_message "camera control descriptor is invalid")
      (CameraControlDescriptor_new kind (wcd_readable value) (wcd_writable value)
         (wcd_auto_supported value) values (wcd_current_value_available value)
         (if negb (str_is_empty diagnostic) then Some diagnostic else None)).
Definition camera_control_descriptor_to_proto (value : CameraControlDescriptor)
    : v1_CameraControlDescriptor :=
  mk_v1_CameraControlDescriptor (proto_number (cd_kind value)) (cd_readable value)
    (cd_writable value) (cd_auto_supported value)
    (Some (Some match cd_values value with
                | ControlRange minimum maximum step => ValuesRange minimum maximum step
                | ControlEnumerated values =>
                    ValuesEnumerated (camera_control_value_to_proto <$> values)
                end))
    (cd_current_value_available value) (default "" (cd_diagnostic value)).
Definition camera_controls_response_from_proto (controls : list v1_CameraControlDescriptor)
    : HalResult (list CameraControlDescriptor) :=
  if 4 <? len controls then Err (invalid_message "camera control descriptor count exceeds bound")
  else collect camera_control_descriptor_from_proto controls.

(** ** Mappings and frame leases *)
Definition camera_mapping_descriptor_from_proto (value : v1_MappingDescriptor)
    : HalResult MappingDescriptor :=
  if str_is_empty (wmd_mapping_name value) || negb (is_ascii (wmd_mapping_name value))
     || (255 <? str_len (wmd_mapping_name value))
     || negb (len (wmd_mapping_identity value) =? 32)
     || negb (len (wmd_capability_token value) =? 32)
     || (wmd_total_length value =? 0) || (256 * 1024 * 1024 <? wmd_total_length value)
  then Err (invalid_message "camera mapping descriptor is invalid")
  else
    ok_or (invalid_message "camera mapping length is invalid")
      (try_from usize_max (wmd_total_length value)) ≫= λ total_length,
    map_err (λ _, invalid_message "camera mapping descriptor is invalid")
      (MappingDescriptor_new (wmd_mapping_name value) (wmd_mapping_identity value)
         (wmd_capability_token value) total_length).
Definition camera_mapping_descriptor_to_proto (value : MappingDescriptor) : v1_MappingDescriptor :=
  mk_v1_MappingDescriptor (mapd_name value) (mapd_identity value) (mapd_token value)
    (mapd_total_length value).

Record WireFrameLease := mkWireFrameLease {
  wire_slot_index : Z;
  wire_sequence : Z;
  wire_generation : Z;
}.
Definition WireFrameLease_bind (lease : WireFrameLease) (descriptor : MappingDescriptor)
    : FrameLease :=
  mkFrameLease (mapd_identity descriptor) (wire_slot_index lease) (wire_sequence lease)
    (wire_generation lease).
Definition camera_next_frame_lease_response_from_proto (value : option v1_FrameLease)
    : HalResult (option WireFrameLease) :=
  match value with
  | None => Ok None
  | Some lease =>
      if wfl_generation lease =? 0 then
        Err (invalid_message "camera frame lease generation is required")
      else if wfl_sequence lease =? 0 then
        Err (invalid_message "camera frame lease sequence is required")
      else
        ok_or (invalid_message "camera frame slot index is invalid")
          (try_from usize_max (wfl_slot_index lease)) ≫= λ slot_index,
        if MAX_CAMERA_SLOT_COUNT <=? slot_index then
          Err (invalid_message "camera frame slot index exceeds bound")
        else Ok (Some (mkWireFrameLease slot_index (wfl_sequence lease) (wfl_generation lease)))
  end.
Definition frame_lease_to_proto (value : FrameLease) : v1_FrameLease :=
  mk_v1_FrameLease (fl_slot_index value mod 2 ^ 32) (fl_sequence value) (fl_generation value).

(** ** Exactness *)
Lemma camera_session_lease_eq s o :
  camera_session_lease_from_proto s o = parse_control_session_lease s o "Camera".
Proof. reflexivity. Qed.
Lemma camera_enum_Ok {A} `{ProtoEnum A} value unknown missing (a : A) :
  camera_enum value unknown missing = Ok a ↔ value = proto_number a.
Proof.
  unfold camera_enum. destruct (value =? 0) eqn:E; bool_simp.
  { subst. split; [done|]. intros Hz. by destruct (proto_number_pos a). }
  rewrite ok_or_Ok. split; [intros Hp; symmetry; by apply proto_number_of|].
  intros ->. apply proto_of_number.
Qed.
Lemma camera_selector_Ok v s :
  camera_selector_from_proto v = Ok s ↔
  v = ResourceSelector_to_proto s ∧ selector_wf s ∧ sel_transport s = Camera.
Proof. apply guarded_selector_Ok. Qed.

Definition format_wf (f : CameraFormat) : Prop := CameraFormat_validate f = Ok ().
Definition format_to_proto (f : CameraFormat) : v1_CameraFormat :=
  mk_v1_CameraFormat (proto_number (cf_pixel_format f)) (cf_width f) (cf_height f).
Global Instance format_exact :
  ExactCodec (λ _, True) camera_format_from_proto format_to_proto format_wf.
Proof.
  apply exact_intro; unfold camera_format_from_proto, CameraFormat_new, format_to_proto, format_wf.
  - intros [p w h] f H. cbn in H. apply bind_Ok in H as (p' & ->%camera_enum_Ok & H1%map_err_Ok).
    apply bind_Ok in H1 as ([] & Hv & [= <-]). done.
  - intros [p w h] Hf. cbn [wcf_pixel_format wcf_width wcf_height cf_pixel_format cf_width cf_height].
    rewrite (proj2 (camera_enum_Ok _ _ _ p) eq_refl). cbn [mbind result_bind].
    by rewrite Hf.
Qed.

Definition open_camera_wf (a : ResourceSelector * CameraRequest) : Prop :=
  selector_wf a.1 ∧ sel_transport a.1 = Camera ∧ format_wf (req_format a.2) ∧
  MIN_CAMERA_SLOT_COUNT <= req_slot_count a.2 <= MAX_CAMERA_SLOT_COUNT.
Lemma slots_in_range n :
  slot_count_in_range n = true ↔ MIN_CAMERA_SLOT_COUNT <= n <= MAX_CAMERA_SLOT_COUNT.
Proof. unfold slot_count_in_range. rewrite andb_true_iff, !Z.leb_le. done. Qed.
Lemma CameraRequest_new_Ok f n r :
  CameraRequest_new f n = Ok r ↔
  format_wf f ∧ slot_count_in_range n = true ∧ r = mkCameraRequest f n.
Proof.
  unfold CameraRequest_new, format_wf. destruct (CameraFormat_validate f) as [[]|]; cbn; [|naive_solver].
  destruct (slot_count_in_range n); cbn; [naive_solver|].
  split; [intros (? & _ & ?)%bind_Ok; done|naive_solver].
Qed.
Global Instance open_camera_exact :
  ExactCodec (λ _, True) camera_open_request_from_proto
    (λ '(s, r), open_camera_request s r) open_camera_wf.
Proof.
  apply exact_intro; unfold camera_open_request_from_proto, open_camera_request, open_camera_wf.
  - intros [o [[f n]|]] [s r] H; cbn in H;
      apply bind_Ok in H as (w & ->%ok_or_Ok & H1); [|done]. cbn in H1.
    apply bind_Ok in H1 as (f' & ->%ok_or_Ok & H2).
    apply bind_Ok in H2 as (n' & [_ ->]%try_from_Ok & H3).
    destruct (slot_count_in_range n) eqn:Hn; [|done]. cbn in H3.
    apply bind_Ok in H3 as (s' & (-> & ? & ?)%camera_selector_Ok & H4).
    apply bind_Ok in H4 as (f1 & Hf & H5).
    apply (exact_decode camera_format_from_proto format_to_proto format_wf) in Hf as [-> ?].
    apply bind_Ok in H5 as (r' & Hr%map_err_Ok & [= <- <-]).
    apply CameraRequest_new_Ok in Hr as (_ & _ & ->). apply slots_in_range in Hn. cbn.
    unfold camera_request_to_proto, MIN_CAMERA_SLOT_COUNT, MAX_CAMERA_SLOT_COUNT in *. cbn.
    by rewrite Z.mod_small by lia.
  - intros [s [f n]] (Hs & Ht & Hf & Hn). cbn in Hf, Hn, Hs, Ht.
    cbn [woc_selector woc_request ok_or mbind result_bind camera_request_to_proto wcr_format
      req_format req_slot_count wcr_slot_count].
    assert (n mod 2 ^ 32 = n) as ->.
    { unfold MIN_CAMERA_SLOT_COUNT, MAX_CAMERA_SLOT_COUNT in *. by rewrite Z.mod_small by lia. }
    rewrite (proj2 (try_from_Some usize_max n n)) by
      (unfold MIN_CAMERA_SLOT_COUNT, MAX_CAMERA_SLOT_COUNT, usize_max, u64_max in *; lia).
    cbn [ok_or mbind result_bind]. apply slots_in_range in Hn as Hn'. rewrite Hn'. cbn [negb].
    rewrite (proj2 (camera_selector_Ok _ s) (conj eq_refl (conj Hs Ht))). cbn [mbind result_bind].
    fold (format_to_proto f).
    rewrite (exact_encode camera_format_from_proto format_to_proto format_wf f Hf).
    cbn [mbind result_bind].
    rewrite (proj2 (CameraRequest_new_Ok f n _) (conj Hf (conj Hn' eq_refl))). done.
Qed.

Definition capture_wf (a : SessionId * LeaseToken * Z) : Prop :=
  let '(s, l, d) := a in lease_wf s l ∧ timeout_wf d.
Global Instance capture_exact :
  ExactCodec (λ _, True) camera_capture_request_from_proto
    (λ '(s, l, d), capture_camera_request s l (d / 1000000)) capture_wf.
Proof.
  apply exact_intro; unfold camera_capture_request_from_proto, capture_camera_request, capture_wf.
  - intros [sid o ms] [[s l] d]. cbn. destruct (ms =? 0) eqn:?; [done|]. bool_simp. intros H.
    rewrite camera_session_lease_eq in H.
    apply bind_Ok in H as ([s' l'] & (-> & -> & ?)%parse_control_Ok & [= <- <- <-]).
    unfold from_millis. rewrite Z.div_mul by done. split_and!; [done..|]. by exists ms.
  - intros [[s l] d] (Hl & ms & Hms & ->). unfold from_millis. cbn. rewrite Z.div_mul by done.
    rewrite (proj2 (Z.eqb_neq _ _) Hms), camera_session_lease_eq.
    by rewrite (proj2 (parse_control_Ok _ _ _ s l) (conj eq_refl (conj eq_refl Hl))).
Qed.

(** *** Controls *)
Definition control_value_wf (v : CameraControlValue) : Prop :=
  match v with
  | ControlInteger _ => True
  | ControlEnum s => str_is_empty s = false ∧ is_ascii s = true ∧ str_len s <= 255
  end.
Global Instance control_value_exact :
  ExactCodec (λ _, True) camera_control_value_from_proto camera_control_value_to_proto
    control_value_wf.
Proof.
  apply exact_intro.
  - intros [[v|v]|] a; cbn; [by intros [= <-]| |done].
    destruct (_ && _ && _) eqn:Hg; [|done]. intros [= <-]. cbn.
    rewrite !andb_true_iff, negb_true_iff, Z.leb_le in Hg. naive_solver.
  - intros [v|v]; cbn; [done|]. intros (-> & -> & H). by rewrite (proj2 (Z.leb_le _ _) H).
Qed.
Definition control_values_wf (v : CameraControlValues) : Prop :=
  match v with
  | ControlRange lo hi step => lo <= hi ∧ 0 < step
  | ControlEnumerated l => l ≠ [] ∧ len l <= 64 ∧ Forall control_value_wf l
  end.
Definition control_wf (d : CameraControlDescriptor) : Prop :=
  control_values_wf (cd_values d) ∧
  (cd_current_value_available d = true → cd_readable d = true) ∧
  ∀ s, cd_diagnostic d = Some s → str_is_empty s = false ∧ is_ascii s = true ∧ str_len s <= 255.
Lemma control_range_Ok lo hi step v :
  CameraControlValues_range lo hi step = Ok v ↔ v = ControlRange lo hi step ∧ lo <= hi ∧ 0 < step.
Proof.
  unfold CameraControlValues_range. destruct (_ || _) eqn:Hg.
  - split; [done|]. intros (_ & ? & ?). apply orb_prop in Hg as [Hg|Hg]; bool_simp; lia.
  - bool_simp. split; [intros [= <-]; split_and!; done || lia|]. by intros (-> & _).
Qed.
Lemma control_enumerated_Ok l v :
  CameraControlValues_enumerated l = Ok v ↔ v = ControlEnumerated l ∧ l ≠ [].
Proof. unfold CameraControlValues_enumerated. destruct l; naive_solver. Qed.
Lemma control_new_Ok kind r w a v c d x :
  CameraControlDescriptor_new kind r w a v c d = Ok x ↔
  x = mkCameraControlDescriptor kind r w a v c d ∧ (c = true → r = true).
Proof. unfold CameraControlDescriptor_new. destruct r, c; cbn; naive_solver. Qed.

(** The set of values of a control, on the wire. *)
Definition control_values_to_proto (v : CameraControlValues) : v1_CameraControlValues :=
  match v with
  | ControlRange lo hi step => ValuesRange lo hi step
  | ControlEnumerated l => ValuesEnumerated (camera_control_value_to_proto <$> l)
  end.
Definition control_values_from_proto (w : option v1_CameraControlValues)
    : HalResult CameraControlValues :=
  let invalid r := map_err (λ _, invalid_message "camera control values are invalid") r in
  match w with
  | Some (ValuesRange minimum maximum step) =>
      invalid (CameraControlValues_range minimum maximum step)
  | Some (ValuesEnumerated values) =>
      if 64 <? len values then
        Err (invalid_message "camera enumerated control values exceed bound")
      else
        collect camera_control_value_from_proto values ≫= λ values,
        invalid (CameraControlValues_enumerated values)
  | None => Err (invalid_message "camera control values kind is required")
  end.
Lemma len_map {A B} (f : A → B) l : len (f <$> l) = len l.
Proof. unfold len. by rewrite length_fmap. Qed.
Lemma control_values_exact :
  ExactCodec (λ _, True) control_values_from_proto (λ v, Some (control_values_to_proto v))
    control_values_wf.
Proof.
  pose proof (exact_collect camera_control_value_from_proto camera_control_value_to_proto
    control_value_wf) as HC.
  apply exact_intro.
  - intros [[lo hi step|l]|] v; cbn; [|destruct (64 <? len l) eqn:Hle; [done|]|done].
    + intros (-> & ? & ?)%map_err_Ok%control_range_Ok. done.
    + bool_simp. intros H. apply bind_Ok in H as (l' & Hl & H1%map_err_Ok).
      apply control_enumerated_Ok in H1 as [-> Hne].
      apply (exact_decode (collect _) (fmap camera_control_value_to_proto) _) in Hl as [-> Hf].
      rewrite len_map in *. done.
  - intros [lo hi step|l]; cbn.
    + intros [? ?]. by apply map_err_Ok, control_range_Ok.
    + intros (Hne & Hle & Hf). rewrite len_map, (proj2 (Z.ltb_ge _ _)) by lia.
      rewrite (exact_encode (collect camera_control_value_from_proto)
        (fmap camera_control_value_to_proto) _ l Hf). cbn.
      apply map_err_Ok. by apply control_enumerated_Ok.
Qed.
Lemma control_from_proto_eq v :
  camera_control_descriptor_from_proto v =
  (ok_or (invalid_message "camera control values are required") (wcd_values v) ≫= λ values,
   control_values_from_proto values ≫= λ values,
   if negb (str_is_empty (wcd_diagnostic v))
      && (negb (is_ascii (wcd_diagnostic v)) || (255 <? str_len (wcd_diagnostic v)))
   then Err (invalid_message "camera control diagnostic is invalid")
   else
     camera_control_kind_from_proto (wcd_kind v) ≫= λ kind,
     map_err (λ _, invalid_message "camera control descriptor is invalid")
       (CameraControlDescriptor_new kind (wcd_readable v) (wcd_writable v)
          (wcd_auto_supported v) values (wcd_current_value_available v)
          (if negb (str_is_empty (wcd_diagnostic v)) then Some (wcd_diagnostic v) else None))).
Proof. reflexivity. Qed.
Global Instance control_exact :
  ExactCodec (λ _, True) camera_control_descriptor_from_proto camera_control_descriptor_to_proto
    control_wf.
Proof.
  pose proof control_values_exact as HC. apply exact_intro.
  - intros [k r w a vs c d] x. rewrite control_from_proto_eq. cbn. intros H.
    apply bind_Ok in H as (o & ->%ok_or_Ok & H1). apply bind_Ok in H1 as (v & Hv & H2).
    apply (exact_decode control_values_from_proto _ control_values_wf) in Hv as [-> Hvwf].
    destruct (_ && _) eqn:Hd; [done|].
    apply bind_Ok in H2 as (k' & ->%camera_enum_Ok & H3%map_err_Ok).
    apply control_new_Ok in H3 as [-> Hc].
    assert (d = default "" (if negb (str_is_empty d) then Some d else None)) as Hdef.
    { destruct (str_is_empty d) eqn:He; [by apply str_is_empty_true in He as ->|done]. }
    split; [unfold camera_control_descriptor_to_proto; cbn; by rewrite <- Hdef|].
    split_and!; cbn; [done|done|]. intros s. destruct (str_is_empty d) eqn:He; [done|].
    intros [= <-]. cbn in Hd. bool_simp. split_and!; done || by apply negb_false_iff.
  - intros [k r w a v c d] (Hv & Hc & Hd). rewrite control_from_proto_eq. cbn in Hv, Hc, Hd.
    unfold camera_control_descriptor_to_proto. cbn [wcd_values cd_values ok_or mbind result_bind].
    fold (control_values_to_proto v).
    rewrite (exact_encode control_values_from_proto (λ v, Some (control_values_to_proto v))
      control_values_wf v Hv).
    cbn [mbind result_bind wcd_diagnostic wcd_kind wcd_readable wcd_writable wcd_auto_supported
      wcd_current_value_available cd_kind cd_readable cd_writable cd_auto_supported
      cd_current_value_available cd_diagnostic].
    destruct d as [s|]; cbn [default from_option id].
    + destruct (Hd s eq_refl) as (He & Ha & Hl). rewrite He, Ha, (proj2 (Z.ltb_ge _ _)) by lia.
      cbn [negb andb orb]. unfold camera_control_kind_from_proto. rewrite (proj2 (camera_enum_Ok _ _ _ k) eq_refl).
      by apply map_err_Ok, control_new_Ok.
    + unfold camera_control_kind_from_proto. rewrite (proj2 (camera_enum_Ok _ _ _ k) eq_refl).
      by apply map_err_Ok, control_new_Ok.
Qed.
Global Instance controls_exact :
  ExactCodec (λ _, True) camera_controls_response_from_proto
    (fmap camera_control_descriptor_to_proto) (λ l, len l <= 4 ∧ Forall control_wf l).
Proof.
  pose proof (exact_collect camera_control_descriptor_from_proto camera_control_descriptor_to_proto
    control_wf) as HC.
  apply exact_intro; unfold camera_controls_response_from_proto.
  - intros m l. destruct (4 <? len m) eqn:Hle; [done|]. bool_simp. intros Hl.
    apply (exact_decode (collect _) (fmap camera_control_descriptor_to_proto) _) in Hl as [-> Hf].
    by rewrite len_map in *.
  - intros l [Hle Hf]. rewrite len_map, (proj2 (Z.ltb_ge _ _)) by lia.
    by apply (exact_encode (collect _) (fmap camera_control_descriptor_to_proto) _).
Qed.

(** *** Mappings and frame leases *)
Definition mapping_wf (d : MappingDescriptor) : Prop :=
  str_is_empty (mapd_name d) = false ∧ is_ascii (mapd_name d) = true ∧
  str_len (mapd_name d) <= 255 ∧ len (mapd_identity d) = 32 ∧ len (mapd_token d) = 32 ∧
  mapd_total_length d ≠ 0 ∧ mapd_total_length d <= MAX_MAPPING_BYTES.
Global Instance mapping_exact :
  ExactCodec (λ _, True) camera_mapping_descriptor_from_proto camera_mapping_descriptor_to_proto
    mapping_wf.
Proof.
  assert (256 * 1024 * 1024 = MAX_MAPPING_BYTES) as Hmax by reflexivity.
  apply exact_intro; unfold camera_mapping_descriptor_from_proto, camera_mapping_descriptor_to_proto,
    mapping_wf, MappingDescriptor_new; rewrite Hmax.
  - intros [n i t tl] d. cbn. destruct (_ || _) eqn:Hg; [done|]. bool_simp. intros Hd.
    apply bind_Ok in Hd as (tl' & [_ ->]%try_from_Ok & Hd'%map_err_Ok).
    destruct (_ || _); [done|]. injection Hd' as <-. cbn. split_and!; done || by apply negb_false_iff.
  - intros [n i t tl] (Hn & Ha & Hl & Hi & Ht & H0 & Hm).
    cbn [mapd_name mapd_identity mapd_token mapd_total_length wmd_mapping_name wmd_mapping_identity
      wmd_capability_token wmd_total_length] in *.
    rewrite Hn, Ha, Hi, Ht. cbn [negb orb Z.eqb Pos.eqb].
    rewrite (proj2 (Z.ltb_ge _ _) Hl), (proj2 (Z.eqb_neq _ _) H0), (proj2 (Z.ltb_ge _ _) Hm).
    cbn [orb]. rewrite (proj2 (try_from_Some usize_max tl tl)).
    { cbn [ok_or mbind result_bind]. rewrite ?Hn, ?Ha, ?(proj2 (Z.ltb_ge _ _) Hl).
      rewrite ?(proj2 (Z.eqb_neq _ _) H0), ?(proj2 (Z.ltb_ge _ _) Hm). done. }
    unfold MAX_MAPPING_BYTES, usize_max, u64_max in *. lia.
Qed.

Definition frame_lease_wf (l : FrameLease) : Prop :=
  0 <= fl_slot_index l < MAX_CAMERA_SLOT_COUNT ∧ fl_sequence l ≠ 0 ∧ fl_generation l ≠ 0.
(** What [RemoteCameraHandle::next_frame_lease] makes of the broker's answer. *)
Definition bound_frame_lease (response : option v1_FrameLease) (descriptor : MappingDescriptor)
    : HalResult (option FrameLease) :=
  camera_next_frame_lease_response_from_proto response ≫= λ lease,
  Ok (option_map (λ w, WireFrameLease_bind w descriptor) lease).
(** The whole path of a frame lease: encoded by the broker, decoded by the client and bound
    to the mapping the client opened. *)
Lemma frame_lease_path l d :
  frame_lease_wf l → fl_identity l = mapd_identity d →
  bound_frame_lease (Some (frame_lease_to_proto l)) d = Ok (Some l).
Proof.
  destruct l as [id i s g]. intros (Hi & Hs & Hg) Hid. unfold bound_frame_lease. cbn in *. subst.
  rewrite (proj2 (Z.eqb_neq _ _) Hg), (proj2 (Z.eqb_neq _ _) Hs).
  unfold MAX_CAMERA_SLOT_COUNT in *. rewrite Z.mod_small by lia.
  rewrite (proj2 (try_from_Some usize_max i i)) by (unfold usize_max, u64_max; lia). cbn.
  rewrite (proj2 (Z.leb_gt _ _)) by lia. done.
Qed.
Lemma frame_lease_decode v w :
  (∀ m, v = Some m → 0 <= wfl_slot_index m) →
  camera_next_frame_lease_response_from_proto v = Ok (Some w) →
  0 <= wire_slot_index w < MAX_CAMERA_SLOT_COUNT ∧ wire_sequence w ≠ 0 ∧ wire_generation w ≠ 0 ∧
  v = Some (frame_lease_to_proto (WireFrameLease_bind w (mkMappingDescriptor "" [] [] 0))).
Proof.
  destruct v as [[i s g]|]; [|done]. intros Hi. specialize (Hi _ eq_refl). cbn in *.
  destruct (g =? 0) eqn:?; [done|]. destruct (s =? 0) eqn:?; [done|]. intros H.
  apply bind_Ok in H as (i' & [_ ->]%try_from_Ok & H1). destruct (_ <=? i) eqn:?; [done|].
  bool_simp. injection H1 as <-. cbn. unfold frame_lease_to_proto. cbn.
  rewrite Z.mod_small by (unfold MAX_CAMERA_SLOT_COUNT in *; lia). done.
Qed.

(** Camera messages survive the wire and nothing else is accepted: open requests, capture
    requests, control values and descriptors and mapping descriptors are decoded exactly
    when they encode a value within the public bounds, and give that value back; a frame
    lease sent by the broker and bound by the client to its mapping is the broker's lease. *)
Theorem wire_camera_exact l d :
  ExactCodec (λ _, True) camera_open_request_from_proto (λ '(s, r), open_camera_request s r)
    open_camera_wf ∧
  ExactCodec (λ _, True) camera_capture_request_from_proto
    (λ '(s, l, d), capture_camera_request s l (d / 1000000)) capture_wf ∧
  ExactCodec (λ _, True) camera_control_value_from_proto camera_control_value_to_proto
    control_value_wf ∧
  ExactCodec (λ _, True) camera_controls_response_from_proto
    (fmap camera_control_descriptor_to_proto) (λ l, len l <= 4 ∧ Forall control_wf l) ∧
  ExactCodec (λ _, True) camera_mapping_descriptor_from_proto camera_mapping_descriptor_to_proto
    mapping_wf ∧
  (frame_lease_wf l → fl_identity l = mapd_identity d →
   bound_frame_lease (Some (frame_lease_to_proto l)) d = Ok (Some l)).
Proof. split_and!; try apply _. apply frame_lease_path. Qed.
Lemma wire_camera_exact_witness :
  bound_frame_lease (Some (frame_lease_to_proto (mkFrameLease [7] 3 5 2)))
    (mkMappingDescriptor "m" [7] [8] 4096) = Ok (Some (mkFrameLease [7] 3 5 2)).
Proof.
  apply (wire_camera_exact (mkFrameLease [7] 3 5 2) (mkMappingDescriptor "m" [7] [8] 4096));
    [|reflexivity].
  unfold frame_lease_wf, MAX_CAMERA_SLOT_COUNT. cbn. lia.
Defined.
