(* ===== verification/Envelope.v ===== *)
(** * robot-hal-protocol: the envelope

    The [Envelope] message of proto/seeed/hal/v1/hal.proto, one constructor of [Payload]
    per member of its [oneof], and the classifications of payloads that the broker uses
    (connection.rs and can_dispatch.rs of crates/robot-hal-broker/src).  Messages that are
    a session id and a lease are [v1_SessionLease]; a message of one field is that field,
    and [Empty] is nothing. *)

From S2P Require Import Prelude Core Lifecycle SerialRegistry CanTypes CameraTypes UsbTypes.
From S2P Require Import GpioTypes WireCore WireCan WireUsbGpio WireCamera.

Record v1_SerialReadRequest := mk_v1_SerialReadRequest {
  wsrr_session_id : string;
  wsrr_lease : option v1_LeaseToken;
  wsrr_max_bytes : Z;
}.
Record v1_SerialWriteRequest := mk_v1_SerialWriteRequest {
  wsw_session_id : string;
  wsw_lease : option v1_LeaseToken;
  wsw_data : Bytes;
}.
Record v1_SetSerialControlLinesRequest := mk_v1_SetSerialControlLinesRequest {
  wcl_session_id : string;
  wcl_lease : option v1_LeaseToken;
  wcl_data_terminal_ready : bool;
  wcl_request_to_send : bool;
}.
Record v1_CameraGetControlRequest := mk_v1_CameraGetControlRequest {
  wgc_session_id : string;
  wgc_lease : option v1_LeaseToken;
  wgc_kind : Z;
}.
Record v1_CameraSetControlRequest := mk_v1_CameraSetControlRequest {
  wsc_session_id : string;
  wsc_lease : option v1_LeaseToken;
  wsc_kind : Z;
  wsc_value : option (option v1_CameraControlValue);
}.
Record v1_CameraSetAutoRequest := mk_v1_CameraSetAutoRequest {
  wsa_session_id : string;
  wsa_lease : option v1_LeaseToken;
  wsa_kind : Z;
  wsa_enabled : bool;
}.

Inductive Payload :=
  | HandshakeRequest (m : v1_HandshakeRequest)
  | HandshakeResponse (m : v1_HandshakeResponse)
  | EnumerateSerialRequest
  | EnumerateSerialResponse (resources : list v1_ResourceDescriptor)
  | OpenSerialRequest (m : v1_OpenSerialRequest)
  | OpenSerialResponse (m : v1_SessionLease)
  | SerialReadRequest (m : v1_SerialReadRequest)
  | SerialReadResponse (data : Bytes)
  | SerialWriteRequest (m : v1_SerialWriteRequest)
  | SerialWriteResponse
  | SerialFlushRequest (m : v1_SessionLease)
  | SerialFlushResponse
  | SetSerialControlLinesRequest (m : v1_SetSerialControlLinesRequest)
  | SetSerialControlLinesResponse
  | CloseSessionRequest (m : v1_SessionLease)
  | CloseSessionResponse
  | PRuntimeEvent (m : v1_RuntimeEvent)
  | EnumerateCanRequest
  | EnumerateCanResponse (resources : list v1_ResourceDescriptor)
  | OpenCanRequest (m : v1_OpenCanRequest)
  | OpenCanResponse (m : v1_SessionLease)
  | CanSendRequest (m : v1_CanSendRequest)
  | CanSendResponse (m : v1_CanSendResponse)
  | CanReceiveRequest (m : v1_CanReceiveRequest)
  | CanReceiveResponse (frames : list v1_ReceivedCanFrame)
  | ReplaceCanFiltersRequest (m : v1_ReplaceCanFiltersRequest)
  | ReplaceCanFiltersResponse
  | GetCanBusStatusRequest (m : v1_SessionLease)
  | GetCanBusStatusResponse (status : option v1_CanBusStatus)
  | EnumerateUsbRequest
  | EnumerateUsbResponse (resources : list v1_ResourceDescriptor)
  | OpenUsbRequest (m : v1_OpenUsbRequest)
  | OpenUsbResponse (m : v1_SessionLease)
  | UsbTransferRequest (m : v1_UsbTransferRequest)
  | UsbTransferResponse (data : Bytes)
  | CloseUsbRequest (m : v1_SessionLease)
  | CloseUsbResponse
  | EnumerateGpioRequest
  | EnumerateGpioResponse (resources : list v1_ResourceDescriptor)
  | OpenGpioRequest (m : v1_OpenGpioRequest)
  | OpenGpioResponse (m : v1_SessionLease)
  | GpioReadRequest (m : v1_SessionLease)
  | GpioReadResponse (values : list bool)
  | GpioWriteRequest (m : v1_GpioWriteRequest)
  | GpioWriteResponse
  | GpioNextEdgeRequest (m : v1_GpioNextEdgeRequest)
  | GpioNextEdgeResponse (event : option v1_GpioEdgeEvent)
  | CloseGpioRequest (m : v1_SessionLease)
  | CloseGpioResponse
  | EnumerateCameraRequest
  | EnumerateCameraResponse (resources : list v1_ResourceDescriptor)
  | OpenCameraRequest (m : v1_OpenCameraRequest)
  | OpenCameraResponse (m : v1_SessionLease)
  | CaptureCameraRequest (m : v1_CaptureCameraRequest)
  | CaptureCameraResponse
  | CameraMappingDescriptorRequest (m : v1_SessionLease)
  | CameraMappingDescriptorResponse (descriptor : option v1_MappingDescriptor)
  | CameraNextFrameLeaseRequest (m : v1_SessionLease)
  | CameraNextFrameLeaseResponse (lease : option v1_FrameLease)
  | CameraDroppedCountRequest (m : v1_SessionLease)
  | CameraDroppedCountResponse (dropped_count : Z)
  | CameraControlsRequest (m : v1_SessionLease)
  | CameraControlsResponse (controls : list v1_CameraControlDescriptor)
  | CameraGetControlRequest (m : v1_CameraGetControlRequest)
  | CameraGetControlResponse (value : option (option v1_CameraControlValue))
  | CameraSetControlRequest (m : v1_CameraSetControlRequest)
  | CameraSetControlResponse
  | PError (m : v1_Error)
  | CameraSetAutoRequest (m : v1_CameraSetAutoRequest)
  | CameraSetAutoResponse
  | CloseCameraRequest (m : v1_SessionLease)
  | CloseCameraResponse.
Record Envelope := mkEnvelope { env_request_id : Z; env_payload : option Payload }.

(** ** Classification *)
Definition is_can_payload (p : Payload) : bool :=
  match p with
  | EnumerateCanRequest | EnumerateCanResponse _ | OpenCanRequest _ | OpenCanResponse _
  | CanSendRequest _ | CanSendResponse _ | CanReceiveRequest _ | CanReceiveResponse _
  | ReplaceCanFiltersRequest _ | ReplaceCanFiltersResponse
  | GetCanBusStatusRequest _ | GetCanBusStatusResponse _ => true
  | _ => false
  end.
Definition is_usb_gpio_payload (p : Payload) : bool :=
  match p with
  | EnumerateUsbRequest | EnumerateUsbResponse _ | OpenUsbRequest _ | OpenUsbResponse _
  | UsbTransferRequest _ | UsbTransferResponse _ | CloseUsbRequest _ | CloseUsbResponse
  | EnumerateGpioRequest | EnumerateGpioResponse _ | OpenGpioRequest _ | OpenGpioResponse _
  | GpioReadRequest _ | GpioReadResponse _ | GpioWriteRequest _ | GpioWriteResponse
  | GpioNextEdgeRequest _ | GpioNextEdgeResponse _ | CloseGpioRequest _ | CloseGpioResponse => true
  | _ => false
  end.
Definition is_camera_payload (p : Payload) : bool :=
  match p with
  | EnumerateCameraRequest | EnumerateCameraResponse _ | OpenCameraRequest _ | OpenCameraResponse _
  | CaptureCameraRequest _ | CaptureCameraResponse
  | CameraMappingDescriptorRequest _ | CameraMappingDescriptorResponse _
  | CameraNextFrameLeaseRequest _ | CameraNextFrameLeaseResponse _
  | CameraDroppedCountRequest _ | CameraDroppedCountResponse _
  | CameraControlsRequest _ | CameraControlsResponse _
  | CameraGetControlRequest _ | CameraGetControlResponse _
  | CameraSetControlRequest _ | CameraSetControlResponse
  | CameraSetAutoRequest _ | CameraSetAutoResponse | CloseCameraRequest _ | CloseCameraResponse => true
  | _ => false
  end.
Definition is_handshake (p : option Payload) : bool :=
  match p with Some (HandshakeRequest _) => true | _ => false end.

(** ** Envelopes the broker sends *)
Definition error_envelope (request_id : Z) (error : HalError) : Envelope :=
  mkEnvelope request_id (Some (PError (HalError_to_proto error))).
Definition protocol_error (name operation : string) (category : ErrorCategory) (retryable : bool)
    (debug_message : string) : HalError :=
  static_error name category operation retryable debug_message.
Definition broker_queue_full (message : string) : HalError :=
  protocol_error "runtime.queue.full" "runtime.protocol.admit" Unavailable true message.
Definition frame_too_large (message : string) : HalError :=
  protocol_error "runtime.protocol.frame_too_large" "runtime.protocol.frame" InvalidArgument false
    message.
Definition response_queue_full : HalError :=
  protocol_error "runtime.queue.response_full" "runtime.protocol.write" Unavailable true
    "broker response queue is full".
