(* ===== verification/BrokerCore.v ===== *)
(** * robot-hal-broker: effects, sessions of a connection, capability gate

    What the dispatchers of crates/robot-hal-broker/src share.  A request is served by a
    task that calls the runtime and, between calls, reads or updates the sessions recorded
    for the connection under a mutex.  Such a task is a [prog]: a tree whose nodes are
    calls of the runtime ([RtE], with any answer) and critical sections, so that tasks can
    be interleaved at every call and critical section ([BrokerConnection]).

    The session registries of can_dispatch.rs, usb_gpio_dispatch.rs and camera_dispatch.rs
    are instances of [SessionRegistry]; the serial one of connection.rs is two sets. *)

From S2P Require Import Prelude Core Lifecycle SerialRegistry CanTypes CameraTypes UsbTypes.
From S2P Require Import GpioTypes ShmLayout ShmRing WireCore WireCan WireUsbGpio WireCamera.
From S2P Require Import Envelope.

(** ** Calls of the runtime, by what they answer *)
Inductive RtE : Type → Type :=
  | REnumerateSerial : RtE (HalResult (list ResourceDescriptor))
  | ROpenSerial (owner : OwnerId) (selector : ResourceSelector) (config : SerialConfig)
      : RtE (HalResult (SessionId * LeaseToken))
  | RReadSerial (session : SessionId) (lease : LeaseToken) (max_bytes : Z) : RtE (HalResult Bytes)
  | RWriteSerial (session : SessionId) (lease : LeaseToken) (data : Bytes) : RtE (HalResult unit)
  | RFlushSerial (session : SessionId) (lease : LeaseToken) : RtE (HalResult unit)
  | RSetControlLines (session : SessionId) (lease : LeaseToken) (lines : ControlLines)
      : RtE (HalResult unit)
  | RCloseSerial (session : SessionId) (lease : LeaseToken) : RtE (HalResult unit)
  | REnumerateCan : RtE (HalResult (list ResourceDescriptor))
  | ROpenCan (owner : OwnerId) (selector : ResourceSelector) (mode : LeaseMode)
      (config : CanOpenConfig) (filters : CanFilterSet) : RtE (HalResult (SessionId * LeaseToken))
  | RSendCan (session : SessionId) (lease : LeaseToken) (frames : list CanFrame)
      : RtE (result CanBatchSendError unit)
  | RReceiveCan (session : SessionId) (lease : LeaseToken) (max_frames timeout : Z)
      : RtE (HalResult (list ReceivedCanFrame))
  | RReplaceFilters (session : SessionId) (lease : LeaseToken) (filters : CanFilterSet)
      : RtE (HalResult unit)
  | RBusStatus (session : SessionId) (lease : LeaseToken) : RtE (HalResult CanBusStatus)
  | RCloseCan (session : SessionId) (lease : LeaseToken) : RtE (HalResult unit)
  | REnumerateUsb : RtE (HalResult (list ResourceDescriptor))
  | ROpenUsb (owner : OwnerId) (selector : ResourceSelector) (interface : Z)
      : RtE (HalResult (SessionId * LeaseToken))
  | RUsbTransfer (session : SessionId) (lease : LeaseToken) (transfer : UsbTransfer) (timeout : Z)
      : RtE (HalResult Bytes)
  | RCloseUsb (session : SessionId) (lease : LeaseToken) : RtE (HalResult unit)
  | REnumerateGpio : RtE (HalResult (list ResourceDescriptor))
  | ROpenGpio (owner : OwnerId) (selector : ResourceSelector) (lines : list Z)
      (config : GpioLineConfig) : RtE (HalResult (SessionId * LeaseToken))
  | RGpioRead (session : SessionId) (lease : LeaseToken) : RtE (HalResult (list bool))
  | RGpioWrite (session : SessionId) (lease : LeaseToken) (values : list bool) : RtE (HalResult unit)
  | RGpioNextEdge (session : SessionId) (lease : LeaseToken) (request : GpioEdgeRequest)
      (timeout : Z) : RtE (HalResult (option GpioEdgeEvent))
  | RCloseGpio (session : SessionId) (lease : LeaseToken) : RtE (HalResult unit)
  | REnumerateCamera : RtE (HalResult (list ResourceDescriptor))
  | ROpenCamera (owner : OwnerId) (selector : ResourceSelector) (request : CameraRequest)
      : RtE (HalResult (SessionId * LeaseToken))
  | RCapture (session : SessionId) (lease : LeaseToken) (timeout : Z) : RtE (HalResult unit)
  | RMappingDescriptor (session : SessionId) (lease : LeaseToken) : RtE (HalResult MappingDescriptor)
  | RNextFrameLease (session : SessionId) (lease : LeaseToken) : RtE (HalResult (option FrameLease))
  | RDroppedCount (session : SessionId) (lease : LeaseToken) : RtE (HalResult Z)
  | RControls (session : SessionId) (lease : LeaseToken)
      : RtE (HalResult (list CameraControlDescriptor))
  | RGetControl (session : SessionId) (lease : LeaseToken) (kind : CameraControlKind)
      : RtE (HalResult CameraControlValue)
  | RSetControl (session : SessionId) (lease : LeaseToken) (kind : CameraControlKind)
      (value : CameraControlValue) : RtE (HalResult unit)
  | RSetAuto (session : SessionId) (lease : LeaseToken) (kind : CameraControlKind) (enabled : bool)
      : RtE (HalResult unit)
  | RCloseCamera (session : SessionId) (lease : LeaseToken) : RtE (HalResult unit).

(** The session and lease a call presents, the owner an open is made for. *)
Definition rt_session {X} (e : RtE X) : option (SessionId * LeaseToken) :=
  match e with
  | RReadSerial s l _ | RWriteSerial s l _ | RFlushSerial s l | RSetControlLines s l _
  | RCloseSerial s l | RSendCan s l _ | RReceiveCan s l _ _ | RReplaceFilters s l _
  | RBusStatus s l | RCloseCan s l | RUsbTransfer s l _ _ | RCloseUsb s l | RGpioRead s l
  | RGpioWrite s l _ | RGpioNextEdge s l _ _ | RCloseGpio s l | RCapture s l _
  | RMappingDescriptor s l | RNextFrameLease s l | RDroppedCount s l | RControls s l
  | RGetControl s l _ | RSetControl s l _ _ | RSetAuto s l _ _ | RCloseCamera s l => Some (s, l)
  | _ => None
  end.
Definition rt_owner {X} (e : RtE X) : option OwnerId :=
  match e with
  | ROpenSerial o _ _ | ROpenCan o _ _ _ _ | ROpenUsb o _ _ | ROpenGpio o _ _ _
  | ROpenCamera o _ _ => Some o
  | _ => None
  end.
(** Serial I/O, which the broker leaves to the runtime's own lease check. *)
Definition rt_is_serial {X} (e : RtE X) : bool :=
  match e with
  | RReadSerial _ _ _ | RWriteSerial _ _ _ | RFlushSerial _ _ | RSetControlLines _ _ _
  | RCloseSerial _ _ => true
  | _ => false
  end.

(** ** Sessions of a connection *)
Record SessionRecord (X : Type) := mkSessionRecord {
  sr_resource_id : ResourceId;
  sr_capabilities : CapabilitySet;
  sr_lease : LeaseToken;
  sr_extra : X;
  sr_closed : bool;
}.
Global Arguments mkSessionRecord {X}.
Global Arguments sr_resource_id {X}.
Global Arguments sr_capabilities {X}.
Global Arguments sr_lease {X}.
Global Arguments sr_extra {X}.
Global Arguments sr_closed {X}.
Record SessionRegistry (X : Type) := mkSessionRegistry {
  rg_sessions : gmap SessionId (SessionRecord X);
  rg_closed_order : list SessionId;
}.
Global Arguments mkSessionRegistry {X}.
Global Arguments rg_sessions {X}.
Global Arguments rg_closed_order {X}.
Definition CLOSED_SESSION_RETENTION : Z := 256.

Section registry.
Context {X : Type}.
Implicit Types (reg : SessionRegistry X).
Definition SessionRegistry_default : SessionRegistry X := mkSessionRegistry ∅ [].
Definition record_session (session : SessionId) (r : SessionRecord X) reg : SessionRegistry X :=
  mkSessionRegistry (<[session := r]> (rg_sessions reg)) (rg_closed_order reg).
Definition close_record (r : SessionRecord X) : SessionRecord X :=
  mkSessionRecord (sr_resource_id r) (sr_capabilities r) (sr_lease r) (sr_extra r) true.
(** [while closed_order.len() > RETENTION]: CAN and USB/GPIO remove an evicted session only
    if it is recorded as closed, camera removes it whatever it is. *)
Fixpoint evict_sessions (only_closed : bool) (sessions : gmap SessionId (SessionRecord X))
    (order : list SessionId) : gmap SessionId (SessionRecord X) * list SessionId :=
  match order with
  | [] => (sessions, [])
  | evicted :: rest =>
      if CLOSED_SESSION_RETENTION <? len order then
        let sessions :=
          if negb only_closed || is_some_and sr_closed (sessions !! evicted)
          then delete evicted sessions else sessions in
        evict_sessions only_closed sessions rest
      else (sessions, order)
  end.
Definition record_session_closed (only_closed : bool) (session : SessionId) reg
    : SessionRegistry X :=
  match rg_sessions reg !! session with
  | None => reg
  | Some record =>
      if sr_closed record then reg
      else
        let '(sessions, order) :=
          evict_sessions only_closed (<[session := close_record record]> (rg_sessions reg))
            (rg_closed_order reg ++ [session]) in
        mkSessionRegistry sessions order
  end.
End registry.

(** The serial sessions of connection.rs. *)
Record SerialSessionRegistry := mkSerialSessionRegistry {
  ss_active : gset SessionId;
  ss_closed : gset SessionId;
  ss_closed_order : list SessionId;
}.
Definition SerialSessionRegistry_default : SerialSessionRegistry := mkSerialSessionRegistry ∅ ∅ [].
Definition register_serial_session (session : SessionId) (r : SerialSessionRegistry)
    : SerialSessionRegistry :=
  mkSerialSessionRegistry ({[session]} ∪ ss_active r) (ss_closed r) (ss_closed_order r).
Definition is_serial_session (session : SessionId) (r : SerialSessionRegistry) : bool :=
  bool_decide (session ∈ ss_active r) || bool_decide (session ∈ ss_closed r).
Fixpoint evict_serial (closed : gset SessionId) (order : list SessionId)
    : gset SessionId * list SessionId :=
  match order with
  | [] => (closed, [])
  | evicted :: rest =>
      if CLOSED_SESSION_RETENTION <? len order then evict_serial (closed ∖ {[evicted]}) rest
      else (closed, order)
  end.
(** [||] does not evaluate the second operand, which inserts, when the first is true. *)
Definition record_serial_closed (session : SessionId) (r : SerialSessionRegistry)
    : SerialSessionRegistry :=
  if bool_decide (session ∉ ss_active r) then r
  else
    let active := ss_active r ∖ {[session]} in
    if bool_decide (session ∈ ss_closed r)
    then mkSerialSessionRegistry active (ss_closed r) (ss_closed_order r)
    else
      let '(closed, order) :=
        evict_serial ({[session]} ∪ ss_closed r) (ss_closed_order r ++ [session]) in
      mkSerialSessionRegistry active closed order.

Inductive SessionKind := KindUsb | KindGpio.
Global Instance SessionKind_eq_dec : EqDecision SessionKind.
Proof. solve_decision. Defined.
Record CanReceiveWireProfile := mkCanReceiveWireProfile {
  rp_mode : CanMode;
  rp_max_data_bytes : Z;
  rp_max_frame_proto_bytes : Z;
  rp_timestamp : bool;
}.
Record BrokerSessions := mkBrokerSessions {
  bs_serial : SerialSessionRegistry;
  bs_can : SessionRegistry CanReceiveWireProfile;
  bs_usb_gpio : SessionRegistry SessionKind;
  bs_camera : SessionRegistry unit;
}.
Definition BrokerSessions_default : BrokerSessions :=
  mkBrokerSessions SerialSessionRegistry_default SessionRegistry_default SessionRegistry_default
    SessionRegistry_default.

(** ** Programs *)
Inductive prog (A : Type) : Type :=
  | Done (a : A)
  | Call (X : Type) (e : RtE X) (k : X → prog A)
  | Atomic (X : Type) (f : BrokerSessions → BrokerSessions * X) (k : X → prog A).
Global Arguments Done {A}.
Global Arguments Call {A} X e k.
Global Arguments Atomic {A} X f k.
Fixpoint pbind {A B} (m : prog A) (f : A → prog B) : prog B :=
  match m with
  | Done a => f a
  | Call X e k => Call X e (λ x, pbind (k x) f)
  | Atomic X g k => Atomic X g (λ x, pbind (k x) f)
  end.
(** A task: a program that ends in a [HalResult]; its bind is [?] after [.await]. *)
Definition task (A : Type) : Type := prog (HalResult A).
Global Instance task_bind : MBind task := λ A B f m,
  pbind m (λ r, match r with Ok a => f a | Err e => Done (Err e) end).
Definition lift {A} (r : HalResult A) : task A := Done r.
Definition call {A} (e : RtE (HalResult A)) : task A := Call _ e Done.
Definition inspect {A} (f : BrokerSessions → HalResult A) : task A :=
  Atomic _ (λ s, (s, f s)) Done.
Definition update (f : BrokerSessions → BrokerSessions) : task unit :=
  Atomic _ (λ s, (f s, ())) (λ _, Done (Ok ())).

(** ** capability_gate.rs *)
Definition require (capabilities : CapabilitySet) (capability : CapabilityId) (name : string)
    (resource : ResourceId) : HalResult unit :=
  if CapabilitySet_contains capabilities capability then Ok ()
  else
    HalError_new "runtime.protocol.capability_unsupported" Conflict "runtime.protocol.dispatch"
      false "selected resource does not advertise the required capability" ≫= λ e,
    ErrorContext_new [("capability", name)] ≫= λ context,
    Err (HalError_with_context (HalError_with_resource_id e resource) context).

(** [select] of the dispatchers: the one descriptor the selector matches. *)
Definition selector_matches (selector : ResourceSelector) (d : ResourceDescriptor) : bool :=
  bool_decide (desc_id d = sel_id selector)
  && bool_decide (desc_transport d = sel_transport selector)
  && IdentityQuality_satisfies (desc_minimum_identity_quality d)
       (sel_minimum_identity_quality selector).
Definition select_one (not_found : HalError) (ambiguous : ResourceDescriptor → HalError)
    (descriptors : list ResourceDescriptor) (selector : ResourceSelector)
    : HalResult ResourceDescriptor :=
  match List.filter (selector_matches selector) descriptors with
  | [] => Err not_found
  | [descriptor] => Ok descriptor
  | descriptor :: _ :: _ => Err (ambiguous descriptor)
  end.
(** [session_error] of camera_dispatch.rs and usb_gpio_dispatch.rs. *)
Definition session_error_category (name : string) : ErrorCategory :=
  if bool_decide (name ∈ ["runtime.session.not_found"; "runtime.resource.not_found"]) then NotFound
  else if bool_decide (name ∈ ["runtime.resource.ambiguous"; "runtime.lease.stale_generation";
            "runtime.lease.invalid_token"; "runtime.session.closed";
            "runtime.protocol.capability_unsupported"]) then Conflict
  else InvalidArgument.
Definition with_resource (e : HalError) (resource : option ResourceId) : HalError :=
  match resource with Some r => HalError_with_resource_id e r | None => e end.
Definition broker_session_error (name operation message : string) (resource : option ResourceId)
    : HalError :=
  with_resource (static_error name (session_error_category name) operation false message) resource.

(** ** Retention of closed sessions *)
Section retention.
Context {X : Type}.
Implicit Types (reg : SessionRegistry X) (m : gmap SessionId (SessionRecord X)).
(** A registry as a connection uses it: a granted session is recorded open, under an
    identifier that is not among the closed ones kept. *)
Inductive registry_run (only_closed : bool) : SessionRegistry X → Prop :=
  | run_default : registry_run only_closed SessionRegistry_default
  | run_record reg session r : registry_run only_closed reg →
      session ∉ rg_closed_order reg → sr_closed r = false →
      registry_run only_closed (record_session session r reg)
  | run_closed reg session : registry_run only_closed reg →
      registry_run only_closed (record_session_closed only_closed session reg).
(** Closed sessions are those in [order], each once. *)
Record closed_exactly m (order : list SessionId) : Prop := {
  ce_nodup : NoDup order;
  ce_closed s : s ∈ order ↔ ∃ r, m !! s = Some r ∧ sr_closed r = true;
}.
Record retention_ok reg : Prop := {
  ro_closed : closed_exactly (rg_sessions reg) (rg_closed_order reg);
  ro_bounded : len (rg_closed_order reg) <= CLOSED_SESSION_RETENTION;
}.
Lemma evict_short oc m order :
  len order <= CLOSED_SESSION_RETENTION → evict_sessions oc m order = (m, order).
Proof.
  intros Hl. destruct order as [|s order]; cbn [evict_sessions]; [done|].
  by rewrite (proj2 (Z.ltb_ge _ _)).
Qed.
(** One session too many: the oldest goes, whichever way eviction is written. *)
Lemma evict_one oc m s order :
  closed_exactly m (s :: order) → len order = CLOSED_SESSION_RETENTION →
  evict_sessions oc m (s :: order) = (delete s m, order) ∧ closed_exactly (delete s m) order.
Proof.
  intros [Hn Hc] Hl. apply NoDup_cons in Hn as [Hs Hn]. split.
  - cbn [evict_sessions]. assert (CLOSED_SESSION_RETENTION < len (s :: order)) as Hlt.
    { unfold len in *. cbn. lia. }
    apply Z.ltb_lt in Hlt. rewrite Hlt, evict_short by lia.
    destruct (proj1 (Hc s)) as (r & Hr & Hcl); [by left|]. rewrite Hr. cbn. rewrite Hcl.
    by rewrite orb_true_r.
  - split; [done|]. intros s'. destruct (decide (s' = s)) as [-> |Hne].
    + split; [done|]. intros (r & Hr & _). by rewrite lookup_delete_eq in Hr.
    + rewrite lookup_delete_ne by done. rewrite <- Hc, elem_of_cons. naive_solver.
Qed.
Lemma closed_exactly_close m order s r :
  closed_exactly m order → m !! s = Some r → sr_closed r = false →
  closed_exactly (<[s := close_record r]> m) (order ++ [s]).
Proof.
  intros [Hn Hc] Hs Hopen. split.
  - apply NoDup_app. split_and!; [done| |apply NoDup_singleton].
    intros s' Hin ->%list_elem_of_singleton. apply Hc in Hin as (r' & Hr' & ?). congruence.
  - intros s'. rewrite elem_of_app, list_elem_of_singleton, Hc.
    destruct (decide (s' = s)) as [-> |Hne].
    + rewrite lookup_insert_eq. split; [|by right]. intros _. by eexists.
    + rewrite lookup_insert_ne by done. naive_solver.
Qed.
Lemma retention_record session r reg :
  session ∉ rg_closed_order reg → sr_closed r = false → retention_ok reg →
  retention_ok (record_session session r reg).
Proof.
  intros Hs Hr [[Hn Hc] Hb]. split; [|done]. split; [done|]. intros s'. cbn.
  destruct (decide (s' = session)) as [-> |Hne].
  - rewrite lookup_insert_eq. split; [done|]. intros (r' & [= <-] & ?). congruence.
  - by rewrite lookup_insert_ne.
Qed.
(** Closing keeps all sessions but the one evicted, and no open one is evicted. *)
Lemma retention_closed reg session : retention_ok reg →
  (∀ oc, record_session_closed oc session reg = record_session_closed true session reg)
  ∧ retention_ok (record_session_closed true session reg).
Proof.
  intros [Hce Hb]. unfold record_session_closed.
  destruct (rg_sessions reg !! session) as [r|] eqn:Hs; [|done].
  destruct (sr_closed r) eqn:Hr; [done|].
  pose proof (closed_exactly_close _ _ _ _ Hce Hs Hr) as Hce'.
  destruct (decide (len (rg_closed_order reg) = CLOSED_SESSION_RETENTION)) as [Hfull|Hroom].
  - destruct (rg_closed_order reg) as [|s order] eqn:Ho; [done|].
    assert (len (order ++ [session]) = CLOSED_SESSION_RETENTION) as Hl.
    { unfold len in *. rewrite length_app. cbn in *. lia. }
    assert (∀ oc, evict_sessions oc (<[session := close_record r]> (rg_sessions reg))
      ((s :: order) ++ [session]) = (delete s (<[session := close_record r]> (rg_sessions reg)),
                                     order ++ [session])) as Hev.
    { intros oc. by apply evict_one. }
    split; [intros oc; by rewrite !Hev|]. rewrite Hev. split; cbn; [|lia].
    by eapply (evict_one true).
  - assert (len (rg_closed_order reg ++ [session]) <= CLOSED_SESSION_RETENTION) as Hl.
    { unfold len in *. rewrite length_app. cbn. lia. }
    split; [intros oc; by rewrite !evict_short|]. by rewrite evict_short.
Qed.
Lemma retention_run oc reg : registry_run oc reg → retention_ok reg ∧ registry_run (negb oc) reg.
Proof.
  induction 1 as [|reg session r _ [IH1 IH2]|reg session _ [IH1 IH2]].
  - split; [|constructor]. split; [|done]. split; [constructor|].
    intros s. split; [by intros ?%elem_of_nil|]. intros (r & Hr & _). cbn in Hr. by rewrite lookup_empty in Hr.
  - split; [by apply retention_record|by constructor].
  - destruct (retention_closed reg session IH1) as [Heq Hok]. split; [by rewrite Heq|].
    rewrite Heq, <- (Heq (negb oc)). by constructor.
Qed.
Lemma open_kept oc reg session s r :
  retention_ok reg → rg_sessions reg !! s = Some r → sr_closed r = false → s ≠ session →
  rg_sessions (record_session_closed oc session reg) !! s = Some r.
Proof.
  intros [Hce Hb] Hs Hr Hne. unfold record_session_closed.
  destruct (rg_sessions reg !! session) as [r'|] eqn:Hs'; [|done].
  destruct (sr_closed r') eqn:Hr'; [done|].
  pose proof (closed_exactly_close _ _ _ _ Hce Hs' Hr') as Hce'.
  destruct (decide (len (rg_closed_order reg) = CLOSED_SESSION_RETENTION)) as [Hfull|Hroom].
  - destruct (rg_closed_order reg) as [|s0 order] eqn:Ho; [done|].
    assert (evict_sessions oc (<[session := close_record r']> (rg_sessions reg))
      ((s0 :: order) ++ [session]) = (delete s0 (<[session := close_record r']> (rg_sessions reg)),
                                      order ++ [session])) as Hev.
    { apply evict_one; [done|]. unfold len in *. rewrite length_app. cbn in *. lia. }
    rewrite Hev. cbn [rg_sessions]. rewrite lookup_delete_ne; [by rewrite lookup_insert_ne|].
    intros ->. destruct (proj1 (ce_closed _ _ Hce s)) as (r'' & ? & ?); [by left|congruence].
  - rewrite evict_short; [cbn [rg_sessions]; by rewrite lookup_insert_ne|].
    unfold len in *. rewrite length_app. cbn. lia.
Qed.

(** The session registries of a connection keep what they promise: however sessions are
    recorded and closed, the closed ones kept are at most 256 and each
    listed once, listing and records agree, no open session is dropped by closing another,
    and the two ways eviction is written in the dispatchers behave alike. *)
Theorem registry_retention only_closed reg :
  registry_run only_closed reg →
  NoDup (rg_closed_order reg)
  ∧ len (rg_closed_order reg) <= CLOSED_SESSION_RETENTION
  ∧ (∀ s, s ∈ rg_closed_order reg ↔ ∃ r, rg_sessions reg !! s = Some r ∧ sr_closed r = true)
  ∧ (∀ session s r, rg_sessions reg !! s = Some r → sr_closed r = false → s ≠ session →
       rg_sessions (record_session_closed only_closed session reg) !! s = Some r)
  ∧ registry_run (negb only_closed) reg.
Proof.
  intros [Hok Hrun]%retention_run. destruct (Hok) as [[Hn Hc] Hb].
  split_and!; try done. intros session s r ? ? ?. by apply open_kept.
Qed.
End retention.
Lemma registry_retention_witness :
  len (rg_closed_order (record_session_closed true (mkSessionId "s")
         (record_session (mkSessionId "s")
            (mkSessionRecord (mkResourceId "r") (mkCapabilitySet [])
               (mkLeaseToken (mkLeaseId "l") 0 Control) () false) SessionRegistry_default)))
  <= CLOSED_SESSION_RETENTION.
Proof.
  apply (registry_retention true). apply run_closed. apply run_record; [constructor| |reflexivity].
  by apply not_elem_of_nil.
Defined.
