(* ===== verification/BrokerDispatch.v ===== *)
(** * robot-hal-broker: serving requests

    Models can_dispatch.rs, usb_gpio_dispatch.rs and camera_dispatch.rs of
    crates/robot-hal-broker/src and the [dispatch_operation] of connection.rs, as tasks of
    [BrokerCore]: what the broker checks, what it asks of the runtime and what it answers
    for each request. *)

From S2P Require Import Prelude Core Lifecycle SerialRegistry CanTypes CameraTypes UsbTypes.
From S2P Require Import GpioTypes ShmLayout ShmRing WireCore WireCan WireUsbGpio WireCamera.
From S2P Require Import Envelope BrokerCore.

(** ** Lengths on the wire (connection.rs and can_dispatch.rs) *)
(** [prost_varint_len]: ten rounds are enough for a [u64]. *)
Fixpoint varint_len_loop (rounds : nat) (value len : Z) : Z :=
  match rounds with
  | O => len
  | S rounds =>
      if 0x80 <=? value then varint_len_loop rounds (Z.shiftr value 7) (len + 1) else len
  end.
Definition prost_varint_len (value : Z) : Z := varint_len_loop 10 value 1.
Definition length_delimited_field_len (field_number value_len : Z) : Z :=
  prost_varint_len (Z.lor (Z.shiftl field_number 3) 2) + prost_varint_len value_len + value_len.
Definition envelope_encoded_len (payload_field_number payload_len : Z) : Z :=
  1 + 10 + prost_varint_len (Z.lor (Z.shiftl payload_field_number 3) 2)
  + prost_varint_len payload_len + payload_len.
Definition read_response_encoded_len (data_len : Z) : Z :=
  envelope_encoded_len 25 (length_delimited_field_len 1 data_len).
Definition RUNTIME_UUID_LEN : Z := 36.
Definition write_request_encoded_len (data_len : Z) : Z :=
  let session_id := length_delimited_field_len 1 RUNTIME_UUID_LEN in
  let lease_inner := length_delimited_field_len 1 RUNTIME_UUID_LEN + 1 + 10 + 1 + 1 in
  let lease := length_delimited_field_len 2 lease_inner in
  let data := length_delimited_field_len 3 data_len in
  envelope_encoded_len 26 (session_id + lease + data).

(** ** What a protocol minor offers *)
Definition CAN_WIRE_MINOR : Z := 1.
Definition USB_GPIO_WIRE_MINOR : Z := 2.
Definition CAMERA_WIRE_MINOR : Z := 3.
Definition can_broker_capabilities (protocol_minor : Z) : list string :=
  SERIAL_CAPABILITY ::
  if CAN_WIRE_MINOR <=? protocol_minor
  then [CAN_CLASSIC_CAPABILITY; CAN_FD_CAPABILITY; CAN_CONFIGURE_CAPABILITY;
        CAN_ERROR_FRAMES_CAPABILITY; CAN_RX_TIMESTAMP_CAPABILITY]
  else [].
Definition usb_gpio_broker_capabilities (protocol_minor : Z) : list string :=
  if protocol_minor <? USB_GPIO_WIRE_MINOR then []
  else [USB_CONTROL_CAPABILITY; USB_BULK_CAPABILITY; USB_INTERRUPT_CAPABILITY;
        GPIO_LINES_CAPABILITY; GPIO_EDGES_CAPABILITY].
Definition camera_broker_capabilities (protocol_minor : Z) : list string :=
  if protocol_minor <? CAMERA_WIRE_MINOR then []
  else [CAMERA_CAPTURE_CAPABILITY; CAMERA_FRAMES_SHM_CAPABILITY; CAMERA_CONTROLS_CAPABILITY].

(** [NegotiatedLimits]; the dispatch limits of CAN, USB and GPIO are its fields. *)
Record NegotiatedLimits := mkNegotiatedLimits {
  lim_protocol_minor : Z;
  lim_max_frame_bytes : Z;
  lim_max_read_bytes : Z;
  lim_max_write_bytes : Z;
}.

Definition resources_to_proto (l : list ResourceDescriptor) : list v1_ResourceDescriptor :=
  ResourceDescriptor_to_proto <$> l.
Definition open_response (session : SessionId) (lease : LeaseToken) : v1_SessionLease :=
  mk_v1_SessionLease (SessionId_as_str session) (Some (LeaseToken_to_proto lease)).

(** ** usb_gpio_dispatch.rs *)
Definition set_usb_gpio (f : SessionRegistry SessionKind → SessionRegistry SessionKind)
    (s : BrokerSessions) : BrokerSessions :=
  mkBrokerSessions (bs_serial s) (bs_can s) (f (bs_usb_gpio s)) (bs_camera s).
Definition usb_gpio_select (descriptors : list ResourceDescriptor) (selector : ResourceSelector)
    (operation : string) : HalResult ResourceDescriptor :=
  select_one
    (broker_session_error "runtime.resource.not_found" operation "resource selector did not match" None)
    (λ d, broker_session_error "runtime.resource.ambiguous" operation "resource selector was ambiguous"
            (Some (desc_id d)))
    descriptors selector.
Definition usb_gpio_validate (session : SessionId) (supplied : LeaseToken) (kind : SessionKind)
    (operation : string) (allow_closed : bool) (s : BrokerSessions)
    : HalResult (SessionRecord SessionKind) :=
  match rg_sessions (bs_usb_gpio s) !! session with
  | None =>
      Err (broker_session_error "runtime.session.not_found" operation
             "session is not owned by this broker connection" None)
  | Some record =>
      if bool_decide (sr_extra record ≠ kind) then
        Err (broker_session_error "runtime.session.not_found" operation
               "session is not this hardware class" None)
      else if bool_decide (sr_lease record ≠ supplied) then
        Err (broker_session_error
               (if token_generation supplied <? token_generation (sr_lease record)
                then "runtime.lease.stale_generation" else "runtime.lease.invalid_token")
               operation "lease token does not match connection-owned session"
               (Some (sr_resource_id record)))
      else if sr_closed record && negb allow_closed then
        Err (broker_session_error "runtime.session.closed" operation "session is closed"
               (Some (sr_resource_id record)))
      else Ok record
  end.
Definition transfer_capability (transfer : UsbTransfer) : CapabilityId * string :=
  match transfer with
  | ControlOut _ _ _ _ _ | ControlIn _ _ _ _ _ => (usb_control_capability, USB_CONTROL_CAPABILITY)
  | BulkOut _ _ | BulkIn _ _ => (usb_bulk_capability, USB_BULK_CAPABILITY)
  | InterruptOut _ _ | InterruptIn _ _ => (usb_interrupt_capability, USB_INTERRUPT_CAPABILITY)
  end.
Definition response_bound (data_len : Z) : Z := saturating_add usize_max 24 data_len.

Definition open_usb (owner : OwnerId) (request : v1_OpenUsbRequest) : task Payload :=
  '(selector, interface) ← lift (open_usb_request_from_proto request);
  descriptors ← call REnumerateUsb;
  descriptor ← lift (usb_gpio_select descriptors selector "usb.open");
  _ ← lift (require (desc_capabilities descriptor) usb_control_capability USB_CONTROL_CAPABILITY
              (desc_id descriptor));
  '(session, lease) ← call (ROpenUsb owner selector interface);
  _ ← update (set_usb_gpio (record_session session
        (mkSessionRecord (desc_id descriptor) (desc_capabilities descriptor) lease KindUsb false)));
  lift (Ok (OpenUsbResponse (open_usb_response_to_proto session lease))).
Definition open_gpio (owner : OwnerId) (request : v1_OpenGpioRequest) : task Payload :=
  '(selector, lines, config) ← lift (open_gpio_request_from_proto request);
  descriptors ← call REnumerateGpio;
  descriptor ← lift (usb_gpio_select descriptors selector "gpio.open");
  _ ← lift (require (desc_capabilities descriptor) gpio_lines_capability GPIO_LINES_CAPABILITY
              (desc_id descriptor));
  '(session, lease) ← call (ROpenGpio owner selector lines config);
  _ ← update (set_usb_gpio (record_session session
        (mkSessionRecord (desc_id descriptor) (desc_capabilities descriptor) lease KindGpio false)));
  lift (Ok (OpenGpioResponse (open_gpio_response_to_proto session lease))).
Definition transfer (request : v1_UsbTransferRequest) (limits : NegotiatedLimits) : task Payload :=
  let read_len := default usize_max (try_from usize_max (wut_max_bytes request)) in
  if (lim_max_write_bytes limits <? len (wut_data request)) || (lim_max_read_bytes limits <? read_len)
  then lift (Err (invalid_message "USB transfer exceeds negotiated payload limits"))
  else
    '(session, lease, transfer, timeout) ← lift (usb_transfer_request_from_proto request);
    record ← inspect (usb_gpio_validate session lease KindUsb "usb.transfer" false);
    _ ← lift (require (sr_capabilities record) (transfer_capability transfer).1
                (transfer_capability transfer).2 (sr_resource_id record));
    data ← call (RUsbTransfer session lease transfer timeout);
    if (lim_max_read_bytes limits <? len data)
       || (lim_max_frame_bytes limits <? response_bound (len data))
    then lift (Err (invalid_message "USB transfer response exceeds negotiated limits"))
    else lift (Ok (UsbTransferResponse (usb_transfer_response_to_proto data))).
Definition read_gpio (request : v1_SessionLease) : task Payload :=
  '(session, lease) ← lift (gpio_read_request_from_proto request);
  record ← inspect (usb_gpio_validate session lease KindGpio "gpio.read" false);
  _ ← lift (require (sr_capabilities record) gpio_lines_capability GPIO_LINES_CAPABILITY
              (sr_resource_id record));
  values ← call (RGpioRead session lease);
  if bool_decide (values = []) || (MAX_GPIO_EVENTS <? len values)
  then lift (Err (invalid_message "GPIO read response violates public bounds"))
  else lift (Ok (GpioReadResponse (gpio_read_response_to_proto values))).
Definition write_gpio (request : v1_GpioWriteRequest) (limits : NegotiatedLimits) : task Payload :=
  if lim_max_write_bytes limits <? len (wgw_values request)
  then lift (Err (invalid_message "GPIO write exceeds negotiated write limit"))
  else
    '(session, lease, values) ← lift (gpio_write_request_from_proto request);
    record ← inspect (usb_gpio_validate session lease KindGpio "gpio.write" false);
    _ ← lift (require (sr_capabilities record) gpio_lines_capability GPIO_LINES_CAPABILITY
                (sr_resource_id record));
    _ ← call (RGpioWrite session lease values);
    lift (Ok GpioWriteResponse).
Definition next_edge (request : v1_GpioNextEdgeRequest) (limits : NegotiatedLimits)
    : task Payload :=
  '(session, lease, request, timeout) ← lift (gpio_next_edge_request_from_proto request);
  record ← inspect (usb_gpio_validate session lease KindGpio "gpio.next_edge" false);
  _ ← lift (require (sr_capabilities record) gpio_edges_capability GPIO_EDGES_CAPABILITY
              (sr_resource_id record));
  if lim_max_frame_bytes limits <? response_bound 24
  then lift (Err (invalid_message "GPIO edge response exceeds negotiated frame limit"))
  else
    event ← call (RGpioNextEdge session lease request timeout);
    lift (Ok (GpioNextEdgeResponse (gpio_next_edge_response_to_proto event))).
Definition close_usb (request : v1_SessionLease) : task Payload :=
  '(session, lease) ← lift (usb_close_request_from_proto request);
  record ← inspect (usb_gpio_validate session lease KindUsb "usb.close" true);
  if sr_closed record then lift (Ok CloseUsbResponse)
  else
    _ ← call (RCloseUsb session lease);
    _ ← update (set_usb_gpio (record_session_closed true session));
    lift (Ok CloseUsbResponse).
Definition close_gpio (request : v1_SessionLease) : task Payload :=
  '(session, lease) ← lift (gpio_close_request_from_proto request);
  record ← inspect (usb_gpio_validate session lease KindGpio "gpio.close" true);
  if sr_closed record then lift (Ok CloseGpioResponse)
  else
    _ ← call (RCloseGpio session lease);
    _ ← update (set_usb_gpio (record_session_closed true session));
    lift (Ok CloseGpioResponse).
Definition usb_gpio_dispatch (owner : OwnerId) (payload : Payload) (limits : NegotiatedLimits)
    : task Payload :=
  match payload with
  | EnumerateUsbRequest =>
      resources ← call REnumerateUsb; lift (Ok (EnumerateUsbResponse (resources_to_proto resources)))
  | OpenUsbRequest request => open_usb owner request
  | UsbTransferRequest request => transfer request limits
  | CloseUsbRequest request => close_usb request
  | EnumerateGpioRequest =>
      resources ← call REnumerateGpio; lift (Ok (EnumerateGpioResponse (resources_to_proto resources)))
  | OpenGpioRequest request => open_gpio owner request
  | GpioReadRequest request => read_gpio request
  | GpioWriteRequest request => write_gpio request limits
  | GpioNextEdgeRequest request => next_edge request limits
  | CloseGpioRequest request => close_gpio request
  | _ => lift (Err (invalid_message "USB/GPIO response payloads are not valid client requests"))
  end.

(** ** camera_dispatch.rs *)
Definition set_camera (f : SessionRegistry unit → SessionRegistry unit) (s : BrokerSessions)
    : BrokerSessions :=
  mkBrokerSessions (bs_serial s) (bs_can s) (bs_usb_gpio s) (f (bs_camera s)).
Definition camera_select (descriptors : list ResourceDescriptor) (selector : ResourceSelector)
    : HalResult ResourceDescriptor :=
  select_one
    (broker_session_error "runtime.resource.not_found" "camera.open" "resource selector did not match" None)
    (λ d, broker_session_error "runtime.resource.ambiguous" "camera.open" "resource selector was ambiguous"
            (Some (desc_id d)))
    descriptors selector.
Definition camera_validate (session : SessionId) (lease : LeaseToken) (operation : string)
    (allow_closed : bool) (s : BrokerSessions) : HalResult (SessionRecord unit) :=
  match rg_sessions (bs_camera s) !! session with
  | None =>
      Err (broker_session_error "runtime.session.not_found" operation
             "session is not owned by this broker connection" None)
  | Some record =>
      if bool_decide (sr_lease record ≠ lease) then
        Err (broker_session_error
               (if token_generation lease <? token_generation (sr_lease record)
                then "runtime.lease.stale_generation" else "runtime.lease.invalid_token")
               operation "lease token does not match connection-owned session"
               (Some (sr_resource_id record)))
      else if sr_closed record && negb allow_closed then
        Err (broker_session_error "runtime.session.closed" operation "session is closed"
               (Some (sr_resource_id record)))
      else Ok record
  end.
Definition camera_open (owner : OwnerId) (request : v1_OpenCameraRequest) : task Payload :=
  '(selector, request) ← lift (camera_open_request_from_proto request);
  descriptors ← call REnumerateCamera;
  descriptor ← lift (camera_select descriptors selector);
  _ ← lift (require (desc_capabilities descriptor) camera_capture_capability
              CAMERA_CAPTURE_CAPABILITY (desc_id descriptor));
  '(session, lease) ← call (ROpenCamera owner selector request);
  _ ← update (set_camera (record_session session
        (mkSessionRecord (desc_id descriptor) (desc_capabilities descriptor) lease () false)));
  lift (Ok (OpenCameraResponse (camera_open_response_to_proto session lease))).
(** The checks every camera operation on a session begins with. *)
Definition camera_admit (session_id : string) (lease : option v1_LeaseToken) (operation : string)
    (capability : CapabilityId) (name : string) : task (SessionId * LeaseToken) :=
  '(session, lease) ← lift (camera_session_lease_from_proto session_id lease);
  record ← inspect (camera_validate session lease operation false);
  _ ← lift (require (sr_capabilities record) capability name (sr_resource_id record));
  lift (Ok (session, lease)).
Definition camera_dispatch (owner : OwnerId) (payload : Payload) : task Payload :=
  match payload with
  | EnumerateCameraRequest =>
      resources ← call REnumerateCamera;
      lift (Ok (EnumerateCameraResponse (resources_to_proto resources)))
  | OpenCameraRequest request => camera_open owner request
  | CaptureCameraRequest request =>
      '(session, lease, timeout) ← lift (camera_capture_request_from_proto request);
      record ← inspect (camera_validate session lease "camera.capture" false);
      _ ← lift (require (sr_capabilities record) camera_capture_capability
                  CAMERA_CAPTURE_CAPABILITY (sr_resource_id record));
      _ ← call (RCapture session lease timeout);
      lift (Ok CaptureCameraResponse)
  | CameraMappingDescriptorRequest m =>
      '(session, lease) ← camera_admit (wsl_session_id m) (wsl_lease m) "camera.mapping_descriptor"
                            camera_frames_shm_capability CAMERA_FRAMES_SHM_CAPABILITY;
      descriptor ← call (RMappingDescriptor session lease);
      lift (Ok (CameraMappingDescriptorResponse
                  (Some (camera_mapping_descriptor_to_proto descriptor))))
  | CameraNextFrameLeaseRequest m =>
      '(session, lease) ← camera_admit (wsl_session_id m) (wsl_lease m) "camera.next_frame_lease"
                            camera_frames_shm_capability CAMERA_FRAMES_SHM_CAPABILITY;
      frame ← call (RNextFrameLease session lease);
      lift (Ok (CameraNextFrameLeaseResponse (frame_lease_to_proto <$> frame)))
  | CameraDroppedCountRequest m =>
      '(session, lease) ← camera_admit (wsl_session_id m) (wsl_lease m) "camera.dropped_count"
                            camera_frames_shm_capability CAMERA_FRAMES_SHM_CAPABILITY;
      count ← call (RDroppedCount session lease);
      lift (Ok (CameraDroppedCountResponse count))
  | CameraControlsRequest m =>
      '(session, lease) ← camera_admit (wsl_session_id m) (wsl_lease m) "camera.controls"
                            camera_controls_capability CAMERA_CONTROLS_CAPABILITY;
      controls ← call (RControls session lease);
      lift (Ok (CameraControlsResponse (camera_control_descriptor_to_proto <$> controls)))
  | CameraGetControlRequest m =>
      '(session, lease) ← camera_admit (wgc_session_id m) (wgc_lease m) "camera.control.get"
                            camera_controls_capability CAMERA_CONTROLS_CAPABILITY;
      kind ← lift (camera_control_kind_from_proto (wgc_kind m));
      value ← call (RGetControl session lease kind);
      lift (Ok (CameraGetControlResponse (Some (camera_control_value_to_proto value))))
  | CameraSetControlRequest m =>
      '(session, lease) ← camera_admit (wsc_session_id m) (wsc_lease m) "camera.control.set"
                            camera_controls_capability CAMERA_CONTROLS_CAPABILITY;
      value ← lift (ok_or (invalid_message "camera control value is required") (wsc_value m));
      kind ← lift (camera_control_kind_from_proto (wsc_kind m));
      value ← lift (camera_control_value_from_proto value);
      _ ← call (RSetControl session lease kind value);
      lift (Ok CameraSetControlResponse)
  | CameraSetAutoRequest m =>
      '(session, lease) ← camera_admit (wsa_session_id m) (wsa_lease m) "camera.control.auto"
                            camera_controls_capability CAMERA_CONTROLS_CAPABILITY;
      kind ← lift (camera_control_kind_from_proto (wsa_kind m));
      _ ← call (RSetAuto session lease kind (wsa_enabled m));
      lift (Ok CameraSetAutoResponse)
  | CloseCameraRequest m =>
      '(session, lease) ← lift (camera_session_lease_from_proto (wsl_session_id m) (wsl_lease m));
      record ← inspect (camera_validate session lease "camera.close" true);
      if sr_closed record then lift (Ok CloseCameraResponse)
      else
        _ ← call (RCloseCamera session lease);
        _ ← update (set_camera (record_session_closed false session));
        lift (Ok CloseCameraResponse)
  | _ => lift (Err (invalid_message "Camera response payloads are not valid client requests"))
  end.

(** ** can_dispatch.rs *)
Definition MAX_CLASSIC_CAN_FRAME_PROTO_BYTES : Z := 22.
Definition MAX_FD_CAN_FRAME_PROTO_BYTES : Z := 82.
Definition MAX_ERROR_CAN_FRAME_PROTO_BYTES : Z := 2 + 10 + 2 + MAX_CAN_ERROR_CLASSES.
Definition MAX_CAN_TIMESTAMP_PROTO_BYTES : Z := 271.
Definition CAN_RECEIVE_RESPONSE_FIELD_NUMBER : Z := 57.
Definition set_can (f : SessionRegistry CanReceiveWireProfile → SessionRegistry CanReceiveWireProfile)
    (s : BrokerSessions) : BrokerSessions :=
  mkBrokerSessions (bs_serial s) (f (bs_can s)) (bs_usb_gpio s) (bs_camera s).
Definition capability_unsupported (message : string) (resource_id : option ResourceId) : HalError :=
  with_resource (static_error "runtime.protocol.capability_unsupported" Conflict
    "runtime.protocol.dispatch" false message) resource_id.
Definition require_capability (capabilities : CapabilitySet) (capability : CapabilityId)
    (name : string) (resource_id : option ResourceId) : HalResult unit :=
  if CapabilitySet_contains capabilities capability then Ok ()
  else Err (capability_unsupported ("selected CAN resource does not advertise " +:+ name) resource_id).
Definition mode_capability (mode : CanMode) : CapabilityId * string :=
  match mode with
  | Classic => (can_classic_capability, CAN_CLASSIC_CAPABILITY)
  | Fd => (can_fd_capability, CAN_FD_CAPABILITY)
  end.
Definition validate_filter_capabilities (filters : CanFilterSet) (capabilities : CapabilitySet)
    (resource_id : option ResourceId) : HalResult unit :=
  if existsb (λ f, cls_error (filter_classes f)) (CanFilterSet_as_slice filters)
  then require_capability capabilities can_error_frames_capability CAN_ERROR_FRAMES_CAPABILITY
         resource_id
  else Ok ().
Definition validate_open_capabilities (descriptor : ResourceDescriptor) (config : CanOpenConfig)
    (filters : CanFilterSet) : HalResult unit :=
  let resource_id := Some (desc_id descriptor) in
  let capabilities := desc_capabilities descriptor in
  match config with
  | Attach expectation =>
      match exp_mode expectation with
      | Some mode => require_capability capabilities (mode_capability mode).1
                       (mode_capability mode).2 resource_id
      | None => Ok ()
      end
  | Configure config =>
      require_capability capabilities can_configure_capability CAN_CONFIGURE_CAPABILITY resource_id
      ≫= λ _,
      require_capability capabilities (mode_capability (cfg_mode config)).1
        (mode_capability (cfg_mode config)).2 resource_id
  end ≫= λ _,
  validate_filter_capabilities filters capabilities resource_id.
Definition frame_capability (frame : CanFrame) : CapabilityId * string :=
  match frame with
  | ClassicData _ _ | ClassicRemote _ _ => (can_classic_capability, CAN_CLASSIC_CAPABILITY)
  | FdData _ _ _ _ => (can_fd_capability, CAN_FD_CAPABILITY)
  | ErrorFrame _ _ => (can_error_frames_capability, CAN_ERROR_FRAMES_CAPABILITY)
  end.
Fixpoint validate_frame_capabilities (frames : list CanFrame) (capabilities : CapabilitySet)
    (resource_id : option ResourceId) : HalResult unit :=
  match frames with
  | [] => Ok ()
  | frame :: frames =>
      map_err (λ e, with_resource e resource_id) (CanFrame_validate frame) ≫= λ _,
      require_capability capabilities (frame_capability frame).1 (frame_capability frame).2
        resource_id ≫= λ _,
      validate_frame_capabilities frames capabilities resource_id
  end.
Fixpoint validate_received_capabilities (frames : list ReceivedCanFrame)
    (capabilities : CapabilitySet) (resource_id : ResourceId) (profile : CanReceiveWireProfile)
    : HalResult unit :=
  match frames with
  | [] => Ok ()
  | received :: frames =>
      if match rp_mode profile, rcv_frame received with
         | Classic, FdData _ _ _ _ => true
         | _, _ => false
         end
      then Err (capability_unsupported "Classical CAN session received a CAN FD frame"
                  (Some resource_id))
      else
        validate_frame_capabilities [rcv_frame received] capabilities (Some resource_id) ≫= λ _,
        (if is_some (rcv_timestamp received)
         then require_capability capabilities can_rx_timestamp_capability
                CAN_RX_TIMESTAMP_CAPABILITY (Some resource_id)
         else Ok ()) ≫= λ _,
        validate_received_capabilities frames capabilities resource_id profile
  end.
Definition select_descriptor (descriptors : list ResourceDescriptor) (selector : ResourceSelector)
    : HalResult ResourceDescriptor :=
  let error name category message :=
    HalError_with_resource_id (static_error name category "can.open" false message)
      (sel_id selector) in
  select_one
    (error "runtime.resource.not_found" NotFound
       "CAN resource selector did not match an enumerated descriptor")
    (λ _, error "runtime.resource.ambiguous" Conflict
            "CAN resource selector matched more than one enumerated descriptor")
    descriptors selector.
Definition receive_wire_profile (config : CanOpenConfig) (capabilities : CapabilitySet)
    : CanReceiveWireProfile :=
  let mode :=
    match config with
    | Configure config => cfg_mode config
    | Attach expectation =>
        default (if CapabilitySet_contains capabilities can_fd_capability then Fd else Classic)
          (exp_mode expectation)
    end in
  let mode_frame_bytes :=
    match mode with
    | Classic => MAX_CLASSIC_CAN_FRAME_PROTO_BYTES
    | Fd => MAX_FD_CAN_FRAME_PROTO_BYTES
    end in
  mkCanReceiveWireProfile mode
    (match mode with Classic => MAX_CLASSIC_DATA_BYTES | Fd => MAX_FD_DATA_BYTES end)
    (if CapabilitySet_contains capabilities can_error_frames_capability
     then Z.max mode_frame_bytes MAX_ERROR_CAN_FRAME_PROTO_BYTES else mode_frame_bytes)
    (CapabilitySet_contains capabilities can_rx_timestamp_capability).
Definition can_session_error (name operation message : string) (resource_id : option ResourceId)
    : HalError :=
  with_resource (static_error name
    (if bool_decide (name = "runtime.session.not_found") then NotFound else Conflict)
    operation false message) resource_id.
Definition session_token_error {X} (record : SessionRecord X) (supplied : LeaseToken)
    (operation : string) : HalError :=
  can_session_error
    (if token_generation supplied <? token_generation (sr_lease record)
     then "runtime.lease.stale_generation" else "runtime.lease.invalid_token")
    operation "the CAN lease token does not match the connection-owned session"
    (Some (sr_resource_id record)).
Definition lease_mode_allows (actual required : LeaseMode) : bool :=
  match actual, required with
  | Observe, Observe | Control, Observe | Control, Control
  | Maintenance, Observe | Maintenance, Control | Maintenance, Maintenance => true
  | _, _ => false
  end.
Definition validate_session (session : SessionId) (supplied : LeaseToken) (required_mode : LeaseMode)
    (operation : string) (allow_closed : bool) (s : BrokerSessions)
    : HalResult (SessionRecord CanReceiveWireProfile) :=
  match rg_sessions (bs_can s) !! session with
  | None =>
      Err (can_session_error "runtime.session.not_found" operation
             "the CAN session is not owned by this broker connection" None)
  | Some record =>
      if sr_closed record then
        if bool_decide (supplied = sr_lease record) then
          if negb allow_closed then
            Err (can_session_error "runtime.session.closed" operation "the CAN session is closed"
                   (Some (sr_resource_id record)))
          else Ok record
        else Err (session_token_error record supplied operation)
      else if bool_decide (supplied ≠ sr_lease record) then
        Err (session_token_error record supplied operation)
      else if negb (lease_mode_allows (token_mode (sr_lease record)) required_mode) then
        Err (can_session_error "runtime.lease.mode_denied" operation
               "the CAN lease mode does not permit this operation" (Some (sr_resource_id record)))
      else Ok record
  end.
Definition is_can_session (session_id : string) (s : BrokerSessions) : bool :=
  match SessionId_parse session_id with
  | Ok session => is_some (rg_sessions (bs_can s) !! session)
  | Err _ => false
  end.
Definition can_receive_response_envelope_bound (frame_count : Z) (profile : CanReceiveWireProfile)
    : option Z :=
  let frame_field := length_delimited_field_len 1 (rp_max_frame_proto_bytes profile) in
  let timestamp_field :=
    if rp_timestamp profile then length_delimited_field_len 2 MAX_CAN_TIMESTAMP_PROTO_BYTES else 0 in
  received_frame ← checked_add usize_max frame_field timestamp_field;
  response_payload ← checked_mul usize_max (length_delimited_field_len 1 received_frame) frame_count;
  Some (envelope_encoded_len CAN_RECEIVE_RESPONSE_FIELD_NUMBER response_payload).
Fixpoint payload_bytes (total : Z) (frames : list v1_CanFrame) : HalResult Z :=
  match frames with
  | [] => Ok total
  | frame :: frames =>
      ok_or (invalid_message "CAN send payload bound overflows usize")
        (checked_add usize_max total (len (wfr_data frame))) ≫= λ total,
      payload_bytes total frames
  end.
Definition validate_send_bounds (request : v1_CanSendRequest) (max_write_bytes : Z)
    : HalResult unit :=
  if negb (in_batch (len (wsr_frames request))) then
    Err (invalid_message "CAN send batch must contain 1..=64 frames")
  else
    payload_bytes 0 (wsr_frames request) ≫= λ bytes,
    if max_write_bytes <? bytes then
      Err (invalid_message "CAN send payload exceeds the negotiated write maximum")
    else Ok ().

Definition can_open (owner : OwnerId) (request : v1_OpenCanRequest) : task Payload :=
  '(selector, mode, config, filters) ← lift (open_can_request_from_proto request);
  descriptors ← call REnumerateCan;
  selected ← lift (select_descriptor descriptors selector);
  _ ← lift (validate_open_capabilities selected config filters);
  let profile := receive_wire_profile config (desc_capabilities selected) in
  '(session, lease) ← call (ROpenCan owner selector mode config filters);
  _ ← update (set_can (record_session session
        (mkSessionRecord (desc_id selected) (desc_capabilities selected) lease profile false)));
  lift (Ok (OpenCanResponse (open_response session lease))).
Definition can_send (request : v1_CanSendRequest) (limits : NegotiatedLimits) : task Payload :=
  _ ← lift (validate_send_bounds request (lim_max_write_bytes limits));
  '(session, lease, frames) ← lift (can_send_request_from_proto request);
  record ← inspect (validate_session session lease Control "can.send_batch" false);
  _ ← lift (validate_frame_capabilities frames (sr_capabilities record)
              (Some (sr_resource_id record)));
  outcome ← Call _ (RSendCan session lease frames) (λ r, Done (Ok r));
  response ← lift (can_send_response_to_proto outcome (len frames));
  lift (Ok (CanSendResponse response)).
Definition can_receive (request : v1_CanReceiveRequest) (limits : NegotiatedLimits) : task Payload :=
  '(session, lease, max_frames, timeout) ← lift (can_receive_request_from_proto request);
  record ← inspect (validate_session session lease Observe "can.receive" false);
  maximum_payload ← lift (ok_or (invalid_message "CAN receive payload bound overflows usize")
    (checked_mul usize_max max_frames (rp_max_data_bytes (sr_extra record))));
  if lim_max_read_bytes limits <? maximum_payload then
    lift (Err (invalid_message "CAN receive payload bound exceeds the negotiated read maximum"))
  else
    maximum_response ← lift (ok_or (invalid_message "CAN receive response bound overflows usize")
      (can_receive_response_envelope_bound max_frames (sr_extra record)));
    if lim_max_frame_bytes limits <? maximum_response then
      lift (Err (invalid_message "CAN receive response bound exceeds the negotiated frame maximum"))
    else
      frames ← call (RReceiveCan session lease max_frames timeout);
      _ ← lift (validate_received_capabilities frames (sr_capabilities record)
                  (sr_resource_id record) (sr_extra record));
      lift (Ok (CanReceiveResponse (ReceivedCanFrame_to_proto <$> frames))).
Definition can_replace_filters (request : v1_ReplaceCanFiltersRequest) : task Payload :=
  '(session, lease, filters) ← lift (replace_can_filters_request_from_proto request);
  record ← inspect (validate_session session lease Observe "can.replace_filters" false);
  _ ← lift (validate_filter_capabilities filters (sr_capabilities record)
              (Some (sr_resource_id record)));
  _ ← call (RReplaceFilters session lease filters);
  lift (Ok ReplaceCanFiltersResponse).
Definition can_status (request : v1_SessionLease) : task Payload :=
  '(session, lease) ← lift (get_can_bus_status_request_from_proto request);
  _ ← inspect (validate_session session lease Observe "can.status" false);
  status ← call (RBusStatus session lease);
  lift (Ok (GetCanBusStatusResponse (Some (CanBusStatus_to_proto status)))).
Definition can_close (request : v1_SessionLease) : task Payload :=
  '(session, lease) ← lift (parse_session_lease (wsl_session_id request) (wsl_lease request));
  record ← inspect (validate_session session lease Observe "can.close" true);
  if sr_closed record then lift (Ok CloseSessionResponse)
  else
    _ ← call (RCloseCan session lease);
    _ ← update (set_can (record_session_closed true session));
    lift (Ok CloseSessionResponse).
Definition can_dispatch (owner : OwnerId) (payload : Payload) (limits : NegotiatedLimits)
    : task Payload :=
  if lim_protocol_minor limits <? CAN_WIRE_MINOR then
    lift (Err (capability_unsupported "CAN operations require negotiated protocol minor 1" None))
  else
    match payload with
    | EnumerateCanRequest =>
        resources ← call REnumerateCan; lift (Ok (EnumerateCanResponse (resources_to_proto resources)))
    | OpenCanRequest request => can_open owner request
    | CanSendRequest request => can_send request limits
    | CanReceiveRequest request => can_receive request limits
    | ReplaceCanFiltersRequest request => can_replace_filters request
    | GetCanBusStatusRequest request => can_status request
    | _ => lift (Err (invalid_message "CAN response payloads are not valid client requests"))
    end.

(** ** connection.rs: the serial operations and the choice of dispatcher *)
Definition set_serial (f : SerialSessionRegistry → SerialSessionRegistry) (s : BrokerSessions)
    : BrokerSessions :=
  mkBrokerSessions (f (bs_serial s)) (bs_can s) (bs_usb_gpio s) (bs_camera s).
(** The arms for USB and GPIO requests are never reached: see [dispatch_operation]. *)
Definition dispatch_operation_inner (owner : OwnerId) (payload : option Payload)
    (limits : NegotiatedLimits) : task Payload :=
  match payload with
  | Some EnumerateUsbRequest =>
      resources ← call REnumerateUsb; lift (Ok (EnumerateUsbResponse (resources_to_proto resources)))
  | Some EnumerateGpioRequest =>
      resources ← call REnumerateGpio; lift (Ok (EnumerateGpioResponse (resources_to_proto resources)))
  | Some (OpenUsbRequest request) =>
      selector ← lift (ok_or (invalid_message "usb open selector is required")
        (wou_selector request) ≫= ResourceSelector_try_from);
      interface ← lift (ok_or (invalid_message "USB interface number exceeds u8")
        (try_from u8_max (wou_interface_number request)));
      '(session, lease) ← call (ROpenUsb owner selector interface);
      lift (Ok (OpenUsbResponse (open_response session lease)))
  | Some (OpenGpioRequest request) =>
      if bool_decide (wog_lines request = []) then
        lift (Err (invalid_message "GPIO open requires at least one line"))
      else
        selector ← lift (ok_or (invalid_message "GPIO open selector is required")
          (wog_selector request) ≫= ResourceSelector_try_from);
        config ← lift (ok_or (invalid_message "GPIO line configuration is required")
          (wog_config request) ≫= gpio_config_from_proto);
        '(session, lease) ← call (ROpenGpio owner selector (wog_lines request) config);
        lift (Ok (OpenGpioResponse (open_response session lease)))
  | Some EnumerateSerialRequest =>
      resources ← call REnumerateSerial;
      lift (Ok (EnumerateSerialResponse (resources_to_proto resources)))
  | Some (OpenSerialRequest request) =>
      '(selector, config) ← lift (open_serial_request_from_proto request);
      '(session, lease) ← call (ROpenSerial owner selector config);
      _ ← update (set_serial (register_serial_session session));
      lift (Ok (OpenSerialResponse (open_response session lease)))
  | Some (SerialReadRequest request) =>
      let max_bytes := default usize_max (try_from usize_max (wsrr_max_bytes request)) in
      if (max_bytes =? 0) || (lim_max_read_bytes limits <? max_bytes) then
        lift (Err (invalid_message "serial read byte limit exceeds the negotiated maximum"))
      else
        '(session, lease) ← lift (parse_serial_session_lease (wsrr_session_id request)
                                    (wsrr_lease request));
        data ← call (RReadSerial session lease max_bytes);
        lift (Ok (SerialReadResponse data))
  | Some (SerialWriteRequest request) =>
      if lim_max_write_bytes limits <? len (wsw_data request) then
        lift (Err (invalid_message "serial write byte limit exceeds the negotiated maximum"))
      else
        '(session, lease) ← lift (parse_serial_session_lease (wsw_session_id request)
                                    (wsw_lease request));
        _ ← call (RWriteSerial session lease (wsw_data request));
        lift (Ok SerialWriteResponse)
  | Some (SerialFlushRequest request) =>
      '(session, lease) ← lift (parse_serial_session_lease (wsl_session_id request)
                                  (wsl_lease request));
      _ ← call (RFlushSerial session lease);
      lift (Ok SerialFlushResponse)
  | Some (SetSerialControlLinesRequest request) =>
      '(session, lease) ← lift (parse_serial_session_lease (wcl_session_id request)
                                  (wcl_lease request));
      _ ← call (RSetControlLines session lease
            (mkControlLines (wcl_data_terminal_ready request) (wcl_request_to_send request)));
      lift (Ok SetSerialControlLinesResponse)
  | Some (CloseSessionRequest request) =>
      is_can ← inspect (λ s, Ok (is_can_session (wsl_session_id request) s));
      if (is_can : bool) then can_close request
      else
        '(session, lease) ← lift (parse_session_lease (wsl_session_id request) (wsl_lease request));
        is_serial ← inspect (λ s, Ok (is_serial_session session (bs_serial s)));
        if negb is_serial then
          lift (Err (protocol_error "runtime.session.not_found" "serial.close" NotFound false
                       "the Serial session is not owned by this broker connection"))
        else
          _ ← call (RCloseSerial session lease);
          _ ← update (set_serial (record_serial_closed session));
          lift (Ok CloseSessionResponse)
  | None => lift (Err (invalid_message "envelope payload is required"))
  | _ => lift (Err (invalid_message "response and event payloads are not valid client requests"))
  end.
Definition unsupported_minor (message : string) : HalError :=
  protocol_error "runtime.protocol.unsupported_capability" "runtime.protocol.dispatch" Conflict
    false message.
Definition dispatch_payload (owner : OwnerId) (payload : option Payload) (limits : NegotiatedLimits)
    : task Payload :=
  match payload with
  | Some p =>
      if is_camera_payload p && (lim_protocol_minor limits <? CAMERA_WIRE_MINOR) then
        lift (Err (unsupported_minor "Camera operations require negotiated protocol minor 3"))
      else if is_usb_gpio_payload p && (lim_protocol_minor limits <? 2) then
        lift (Err (unsupported_minor "USB and GPIO operations require negotiated protocol minor 2"))
      else if is_can_payload p then can_dispatch owner p limits
      else if is_usb_gpio_payload p then usb_gpio_dispatch owner p limits
      else if is_camera_payload p then camera_dispatch owner p
      else dispatch_operation_inner owner payload limits
  | None => dispatch_operation_inner owner payload limits
  end.
Definition operation_envelope (request_id : Z) (result : HalResult Payload) : Envelope :=
  match result with
  | Ok payload => mkEnvelope request_id (Some payload)
  | Err error => error_envelope request_id error
  end.
Definition dispatch_operation (owner : OwnerId) (request_id : Z) (payload : option Payload)
    (limits : NegotiatedLimits) : prog Envelope :=
  pbind (dispatch_payload owner payload limits) (λ result, Done (operation_envelope request_id result)).
