(* ===== verification/BrokerSafety.v ===== *)
(** * robot-hal-broker: what the dispatchers may ask of the runtime

    A logic for the tasks of [BrokerCore]: [safe] says, of a task run with any answers of
    the runtime and with the other tasks of the connection working on the sessions in
    between, that every call it makes is admissible and that the sessions it records are
    those the runtime granted to this connection.  The grants are ghost state: they only
    grow.  [dispatch_payload] is shown to be safe, request by request. *)

From S2P Require Import Prelude Core Lifecycle SerialRegistry CanTypes CameraTypes UsbTypes.
From S2P Require Import GpioTypes ShmLayout ShmRing WireCore WireCan WireUsbGpio WireCamera.
From S2P Require Import Envelope BrokerCore BrokerDispatch.

(** ** Grants *)
(** What the runtime answered: a session with its lease, the selector and configuration a CAN
    session was opened with, a list of CAN descriptors. *)
Inductive Grant :=
  | mkGrant (kind : TransportKind) (session : SessionId) (lease : LeaseToken)
  | CanOpened (session : SessionId) (lease : LeaseToken) (selector : ResourceSelector)
      (config : CanOpenConfig)
  | CanListed (descriptors : list ResourceDescriptor).
Definition opened (kind : TransportKind) (r : HalResult (SessionId * LeaseToken)) : list Grant :=
  match r with Ok (s, l) => [mkGrant kind s l] | Err _ => [] end.
Definition granted_by {X} (e : RtE X) : X → list Grant :=
  match e in RtE X return X → list Grant with
  | ROpenSerial _ _ _ => opened Serial
  | ROpenCan _ selector _ config _ => λ r,
      match r with
      | Ok (s, l) => [mkGrant Can s l; CanOpened s l selector config]
      | Err _ => []
      end
  | REnumerateCan => λ r, match r with Ok descriptors => [CanListed descriptors] | Err _ => [] end
  | ROpenUsb _ _ _ => opened Usb
  | ROpenGpio _ _ _ _ => opened Gpio
  | ROpenCamera _ _ _ => opened Camera
  | _ => λ _, []
  end.
(** The transport of a call on a session. *)
Definition rt_kind {X} (e : RtE X) : TransportKind :=
  match e with
  | REnumerateSerial | ROpenSerial _ _ _ | RReadSerial _ _ _ | RWriteSerial _ _ _
  | RFlushSerial _ _ | RSetControlLines _ _ _ | RCloseSerial _ _ => Serial
  | REnumerateCan | ROpenCan _ _ _ _ _ | RSendCan _ _ _ | RReceiveCan _ _ _ _
  | RReplaceFilters _ _ _ | RBusStatus _ _ | RCloseCan _ _ => Can
  | REnumerateUsb | ROpenUsb _ _ _ | RUsbTransfer _ _ _ _ | RCloseUsb _ _ => Usb
  | REnumerateGpio | ROpenGpio _ _ _ _ | RGpioRead _ _ | RGpioWrite _ _ _
  | RGpioNextEdge _ _ _ _ | RCloseGpio _ _ => Gpio
  | _ => Camera
  end.

(** A call is offered by the negotiated minor.  A CAN session is closed by the request that
    closes a serial one, which every minor has. *)
Definition rt_offered (limits : NegotiatedLimits) {X} (e : RtE X) : Prop :=
  match e with
  | RCloseCan _ _ => True
  | _ =>
      match rt_kind e with
      | Serial => True
      | Can => CAN_WIRE_MINOR <= lim_protocol_minor limits
      | Usb | Gpio => USB_GPIO_WIRE_MINOR <= lim_protocol_minor limits
      | Camera => CAMERA_WIRE_MINOR <= lim_protocol_minor limits
      end
  end.

(** The wire profile of a CAN session: of the configuration it was opened with and of the
    capabilities of the descriptor its selector selected from a listing. *)
Definition can_profile (g : list Grant) (session : SessionId) (lease : LeaseToken)
    (profile : CanReceiveWireProfile) : Prop :=
  ∃ selector config descriptors d,
    CanOpened session lease selector config ∈ g ∧ CanListed descriptors ∈ g
    ∧ select_descriptor descriptors selector = Ok d
    ∧ profile = receive_wire_profile config (desc_capabilities d).
(** Registered sessions are granted ones. *)
Definition kind_transport (k : SessionKind) : TransportKind :=
  match k with KindUsb => Usb | KindGpio => Gpio end.
Definition registry_granted {X} (g : list Grant) (kind : X → TransportKind)
    (reg : SessionRegistry X) : Prop :=
  ∀ s r, rg_sessions reg !! s = Some r → mkGrant (kind (sr_extra r)) s (sr_lease r) ∈ g.
Definition serial_granted (g : list Grant) (reg : SerialSessionRegistry) : Prop :=
  ∀ s, s ∈ ss_active reg ∪ ss_closed reg → ∃ l, mkGrant Serial s l ∈ g.
Record sessions_ok (g : list Grant) (s : BrokerSessions) : Prop := {
  so_serial : serial_granted g (bs_serial s);
  so_can : registry_granted g (λ _, Can) (bs_can s);
  so_profiles : ∀ s' r, rg_sessions (bs_can s) !! s' = Some r → can_profile g s' (sr_lease r) (sr_extra r);
  so_usb_gpio : registry_granted g kind_transport (bs_usb_gpio s);
  so_camera : registry_granted g (λ _, Camera) (bs_camera s);
}.

(** ** Admissible calls *)
Definition frames_bytes (frames : list CanFrame) : Z :=
  foldr (λ f n, len (wfr_data (CanFrame_to_proto f)) + n) 0 frames.
(** A USB transfer sends no more than may be written, or asks for no more than may be read. *)
Definition transfer_bounded (limits : NegotiatedLimits) (t : UsbTransfer) : Prop :=
  match t with
  | ControlOut _ _ _ _ data | BulkOut _ data | InterruptOut _ data =>
      len data <= lim_max_write_bytes limits
  | ControlIn _ _ _ _ n | BulkIn _ n | InterruptIn _ n => n <= lim_max_read_bytes limits
  end.
(** A receive on a CAN session asks for no more frames than, each as large as the session's
    profile allows, fit what may be read and, as an envelope, the frame that carries them. *)
Definition receive_bounded (limits : NegotiatedLimits) (profile : CanReceiveWireProfile) (n : Z) : Prop :=
  n * rp_max_data_bytes profile <= lim_max_read_bytes limits
  ∧ ∃ bound, can_receive_response_envelope_bound n profile = Some bound
      ∧ bound <= lim_max_frame_bytes limits.
(** What is asked is well formed and within the negotiated limits. *)
Definition call_bounded (limits : NegotiatedLimits) (g : list Grant) {X} (e : RtE X) : Prop :=
  match e with
  | ROpenSerial _ s _ => selector_wf s ∧ sel_transport s = Serial
  | RReadSerial _ _ n => n ≠ 0 ∧ n <= lim_max_read_bytes limits
  | RWriteSerial _ _ data => len data <= lim_max_write_bytes limits
  | ROpenCan _ s _ config filters =>
      selector_wf s ∧ sel_transport s = Can ∧ open_config_wf config ∧ filter_set_wf filters
  | RSendCan _ _ frames =>
      in_batch (len frames) = true ∧ Forall frame_wf frames ∧
      frames_bytes frames <= lim_max_write_bytes limits
  | RReceiveCan s l n _ =>
      in_batch n = true ∧ ∃ profile, can_profile g s l profile ∧ receive_bounded limits profile n
  | RReplaceFilters _ _ filters => filter_set_wf filters
  | ROpenUsb _ s n => selector_wf s ∧ sel_transport s = Usb ∧ n <= MAX_USB_INTERFACE_NUMBER
  | RUsbTransfer _ _ t _ =>
      UsbTransfer_validate t = Ok () ∧ transfer_bounded limits t
  | ROpenGpio _ s lines config =>
      selector_wf s ∧ sel_transport s = Gpio ∧ values_wf lines ∧ gpio_config_wf config
  | RGpioWrite _ _ values => values_wf values ∧ len values <= lim_max_write_bytes limits
  | RGpioNextEdge _ _ r _ =>
      edge_bits (edge_mask r) ≠ 0 ∧ edge_capacity r <= MAX_GPIO_EVENTS ∧
      response_bound 24 <= lim_max_frame_bytes limits
  | ROpenCamera _ s r =>
      selector_wf s ∧ sel_transport s = Camera ∧ format_wf (req_format r) ∧
      MIN_CAMERA_SLOT_COUNT <= req_slot_count r <= MAX_CAMERA_SLOT_COUNT
  | RSetControl _ _ _ v => control_value_wf v
  | _ => True
  end.
(** A call on behalf of the connection's owner; on a session, one that the runtime granted
    to this connection under this very lease.  Serial I/O is the exception: the broker
    only requires a granted session to close it, and leaves the lease to the runtime. *)
Definition call_ok (owner : OwnerId) (limits : NegotiatedLimits) (g : list Grant) {X} (e : RtE X)
    : Prop :=
  (∀ o, rt_owner e = Some o → o = owner) ∧
  (∀ s l, rt_session e = Some (s, l) → rt_is_serial e = true ∨ mkGrant (rt_kind e) s l ∈ g) ∧
  (∀ s l, match e with RCloseSerial s' l' => (s', l') = (s, l) | _ => False end →
          ∃ l', mkGrant Serial s l' ∈ g) ∧
  rt_offered limits e ∧
  call_bounded limits g e.

Section logic.
Context (owner : OwnerId) (limits : NegotiatedLimits).
Implicit Types (g : list Grant).

Fixpoint confined {A} (g : list Grant) (m : prog A) (Q : list Grant → A → Prop) : Prop :=
  match m with
  | Done a => Q g a
  | Call X e k =>
      call_ok owner limits g e ∧
      ∀ x g', g ⊆ g' → granted_by e x ⊆ g' → confined g' (k x) Q
  | Atomic X f k =>
      ∀ s g', g ⊆ g' → sessions_ok g' s →
        sessions_ok g' (f s).1 ∧ confined g' (k (f s).2) Q
  end.
Definition safe {A} (g : list Grant) (m : task A) (Q : list Grant → A → Prop) : Prop :=
  confined g m (λ g r, ∀ a, r = Ok a → Q g a).

Lemma confined_pbind {A B} g (m : prog A) (f : A → prog B) Q :
  confined g m (λ g a, confined g (f a) Q) → confined g (pbind m f) Q.
Proof.
  revert g. induction m as [a|X e k IH|X h k IH]; cbn; intros g; [done|..].
  - intros [Hc Hk]. split; [done|]. intros x g' ? ?. by apply IH, Hk.
  - intros Hk s g' ? ?. destruct (Hk s g') as [? ?]; [done..|]. split; [done|]. by apply IH.
Qed.
Lemma confined_impl {A} g (m : prog A) Q Q' :
  (∀ g' a, Q g' a → Q' g' a) → confined g m Q → confined g m Q'.
Proof.
  intros HQ. revert g. induction m as [a|X e k IH|X h k IH]; cbn; intros g; [by apply HQ|..].
  - intros [Hc Hk]. split; [done|]. intros x g' ? ?. by apply IH, Hk.
  - intros Hk s g' ? ?. destruct (Hk s g') as [? ?]; [done..|]. split; [done|]. by apply IH.
Qed.
(** Grants made by other tasks do no harm. *)
Lemma can_profile_mono g g' s l p : g ⊆ g' → can_profile g s l p → can_profile g' s l p.
Proof.
  intros Hg (selector & config & ds & d & Ho & Hl & ?). exists selector, config, ds, d.
  split; [by apply Hg|split; [by apply Hg|done]].
Qed.
Lemma call_ok_mono g g' {X} (e : RtE X) : g ⊆ g' → call_ok owner limits g e → call_ok owner limits g' e.
Proof.
  intros Hg (Ho & Hs & Hc & Hm & Hb). split_and!; [done| | |done|].
  - intros s l H. destruct (Hs s l H) as [?|?]; [by left|right; by apply Hg].
  - intros s l H. destruct (Hc s l H) as [l' ?]. exists l'. by apply Hg.
  - destruct e; try exact Hb. destruct Hb as (? & p & Hp & ?). split; [done|]. exists p.
    split; [by eapply can_profile_mono|done].
Qed.
Lemma confined_mono {A} g g' (m : prog A) Q :
  (∀ g1 g2 a, g1 ⊆ g2 → Q g1 a → Q g2 a) → g ⊆ g' → confined g m Q → confined g' m Q.
Proof.
  intros HQ. revert g g'. destruct m as [a|X e k|X h k]; cbn; intros g g' Hg.
  - by apply HQ.
  - intros [Hc Hk]. split; [by eapply call_ok_mono|]. intros x g'' ? ?. apply Hk; [set_solver|done].
  - intros Hk s g'' ? ?. apply Hk; [set_solver|done].
Qed.

(** The rules of the logic. *)
Lemma safe_bind {A B} g (m : task A) (f : A → task B) Q :
  safe g m (λ g a, safe g (f a) Q) → safe g (m ≫= f) Q.
Proof.
  intros H. apply confined_pbind. eapply confined_impl; [|exact H].
  intros g' [a|e] Ha; [by apply Ha|]. by intros ? [=].
Qed.
Lemma safe_lift {A} g (r : HalResult A) (Q : list Grant → A → Prop) :
  (∀ a, r = Ok a → Q g a) → safe g (lift r) Q.
Proof. done. Qed.
Lemma safe_call {A} g (e : RtE (HalResult A)) (Q : list Grant → A → Prop) :
  call_ok owner limits g e → (∀ a g', g ⊆ g' → granted_by e (Ok a) ⊆ g' → Q g' a) →
  safe g (call e) Q.
Proof. intros Hc HQ. split; [done|]. intros x g' Hg Hx a ->. by apply HQ. Qed.
Lemma safe_inspect {A} g (f : BrokerSessions → HalResult A) (Q : list Grant → A → Prop) :
  (∀ s g' a, g ⊆ g' → sessions_ok g' s → f s = Ok a → Q g' a) → safe g (inspect f) Q.
Proof. intros HQ s g' Hg Hs. split; [done|]. intros a Ha. by eapply HQ. Qed.
Lemma safe_update g f (Q : list Grant → unit → Prop) :
  (∀ s g', g ⊆ g' → sessions_ok g' s → sessions_ok g' (f s)) → (∀ g', g ⊆ g' → Q g' ()) →
  safe g (update f) Q.
Proof. intros Hf HQ s g' Hg Hs. split; [by apply Hf|]. intros [] _. by apply HQ. Qed.
End logic.

(** ** The registries keep to the grants *)
Lemma evict_sessions_sub {X} oc (m : gmap SessionId (SessionRecord X)) order :
  (evict_sessions oc m order).1 ⊆ m.
Proof.
  revert m. induction order as [|s order IH]; intros m; cbn; [done|].
  destruct (_ <? _); [|done]. etrans; [apply IH|]. case_match; [apply delete_subseteq|done].
Qed.
Lemma registry_granted_record {X} g (kind : X → TransportKind) s r reg :
  registry_granted g kind reg → mkGrant (kind (sr_extra r)) s (sr_lease r) ∈ g →
  registry_granted g kind (record_session s r reg).
Proof.
  intros Hreg Hg s' r' Hl. cbn in Hl. apply lookup_insert_Some in Hl as [[<- <-]|[_ Hl]]; [done|].
  by apply Hreg.
Qed.
(** Closing a session changes no more of a record than that it is closed. *)
Lemma record_session_closed_lookup {X} oc s (reg : SessionRegistry X) s' r' :
  rg_sessions (record_session_closed oc s reg) !! s' = Some r' →
  ∃ r, rg_sessions reg !! s' = Some r ∧ sr_lease r' = sr_lease r ∧ sr_extra r' = sr_extra r.
Proof.
  unfold record_session_closed. destruct (rg_sessions reg !! s) as [r|] eqn:Hr; [|by eexists].
  destruct (sr_closed r); [by eexists|]. rewrite (surjective_pairing (evict_sessions _ _ _)).
  intros Hl. cbn in Hl. eapply lookup_weaken in Hl; [|apply evict_sessions_sub].
  apply lookup_insert_Some in Hl as [[<- <-]|[_ Hl]]; by eexists.
Qed.
Lemma registry_granted_close {X} g (kind : X → TransportKind) oc s reg :
  registry_granted g kind reg → registry_granted g kind (record_session_closed oc s reg).
Proof.
  intros Hreg s' r' (r & Hr & -> & ->)%record_session_closed_lookup. by apply (Hreg _ _ Hr).
Qed.
Lemma evict_serial_sub closed order : (evict_serial closed order).1 ⊆ closed.
Proof.
  revert closed. induction order as [|s order IH]; intros closed; cbn; [done|].
  destruct (_ <? _); [|done]. etrans; [apply IH|]. set_solver.
Qed.
Lemma serial_granted_register g s l reg :
  serial_granted g reg → mkGrant Serial s l ∈ g → serial_granted g (register_serial_session s reg).
Proof.
  intros Hreg Hg s' Hs. cbn in Hs. destruct (decide (s' = s)) as [-> |]; [by exists l|].
  apply Hreg. set_solver.
Qed.
Lemma serial_granted_close g s reg :
  serial_granted g reg → serial_granted g (record_serial_closed s reg).
Proof.
  intros Hreg. unfold record_serial_closed. case_bool_decide as Ha; [done|].
  case_bool_decide.
  - intros s' Hs. apply Hreg. cbn in Hs. set_solver.
  - rewrite (surjective_pairing (evict_serial _ _)). intros s' Hs. cbn in Hs.
    pose proof (evict_serial_sub ({[s]} ∪ ss_closed reg) (ss_closed_order reg ++ [s])).
    apply Hreg. set_solver.
Qed.
Lemma sessions_ok_serial g s f :
  sessions_ok g s → serial_granted g (f (bs_serial s)) → sessions_ok g (set_serial f s).
Proof. by intros [] ?. Qed.
Definition registry_profiled (g : list Grant) (reg : SessionRegistry CanReceiveWireProfile) : Prop :=
  ∀ s r, rg_sessions reg !! s = Some r → can_profile g s (sr_lease r) (sr_extra r).
Lemma sessions_ok_can g s f :
  sessions_ok g s → registry_granted g (λ _, Can) (f (bs_can s)) →
  registry_profiled g (f (bs_can s)) → sessions_ok g (set_can f s).
Proof. by intros [] ?. Qed.
Lemma registry_profiled_record g s r reg :
  registry_profiled g reg → can_profile g s (sr_lease r) (sr_extra r) →
  registry_profiled g (record_session s r reg).
Proof.
  intros Hreg Hg s' r' Hl. cbn in Hl. apply lookup_insert_Some in Hl as [[<- <-]|[_ Hl]]; [done|].
  by apply Hreg.
Qed.
Lemma registry_profiled_close g oc s reg :
  registry_profiled g reg → registry_profiled g (record_session_closed oc s reg).
Proof.
  intros Hreg s' r' (r & Hr & -> & ->)%record_session_closed_lookup. by apply (Hreg _ _ Hr).
Qed.
Lemma sessions_ok_usb_gpio g s f :
  sessions_ok g s → registry_granted g kind_transport (f (bs_usb_gpio s)) →
  sessions_ok g (set_usb_gpio f s).
Proof. by intros [] ?. Qed.
Lemma sessions_ok_camera g s f :
  sessions_ok g s → registry_granted g (λ _, Camera) (f (bs_camera s)) → sessions_ok g (set_camera f s).
Proof. by intros [] ?. Qed.

(** A session that passes the checks of a dispatcher was granted. *)
Lemma usb_gpio_validate_Ok session lease kind operation allow s r :
  usb_gpio_validate session lease kind operation allow s = Ok r →
  rg_sessions (bs_usb_gpio s) !! session = Some r ∧ sr_extra r = kind ∧ sr_lease r = lease ∧
  (allow = false → sr_closed r = false).
Proof.
  unfold usb_gpio_validate. destruct (rg_sessions _ !! session) as [r'|]; [|done].
  case_bool_decide; [done|]. case_bool_decide; [done|].
  destruct (sr_closed r') eqn:Hc, allow; cbn; try done; intros [= <-]; naive_solver.
Qed.
Lemma camera_validate_Ok session lease operation allow s r :
  camera_validate session lease operation allow s = Ok r →
  rg_sessions (bs_camera s) !! session = Some r ∧ sr_lease r = lease ∧
  (allow = false → sr_closed r = false).
Proof.
  unfold camera_validate. destruct (rg_sessions _ !! session) as [r'|]; [|done].
  case_bool_decide; [done|].
  destruct (sr_closed r') eqn:Hc, allow; cbn; try done; intros [= <-]; naive_solver.
Qed.
Lemma validate_session_Ok session lease mode operation allow s r :
  validate_session session lease mode operation allow s = Ok r →
  rg_sessions (bs_can s) !! session = Some r ∧ sr_lease r = lease ∧
  (sr_closed r = false → lease_mode_allows (token_mode lease) mode = true) ∧
  (allow = false → sr_closed r = false).
Proof.
  unfold validate_session. destruct (rg_sessions _ !! session) as [r'|]; [|done].
  destruct (sr_closed r') eqn:Hc.
  - case_bool_decide; [|done]. destruct allow; [|done]. intros [= <-].
    split_and!; [done|done|by rewrite Hc|done].
  - case_bool_decide as Hl; [done|]. destruct (negb _) eqn:Hm; [done|]. intros [= <-].
    subst. apply negb_false_iff in Hm. done.
Qed.

Lemma open_gpio_decoded v s lines c :
  open_gpio_request_from_proto v = Ok (s, lines, c) →
  selector_wf s ∧ sel_transport s = Gpio ∧ values_wf lines ∧ gpio_config_wf c.
Proof.
  unfold open_gpio_request_from_proto. intros H. apply bind_Ok in H as (w & _ & H1).
  destruct (_ || _) eqn:Hg; [done|]. apply values_guard in Hg.
  apply bind_Ok in H1 as (w' & _ & H2).
  apply bind_Ok in H2 as (s' & (_ & ? & ?)%selector_for_transport_Ok & H3).
  apply bind_Ok in H3 as (c' & (? & _)%gpio_config_decode & [= <- <- <-]). done.
Qed.

(** ** Every dispatcher is safe *)
Ltac step :=
  lazymatch goal with
  | |- safe _ _ _ (match ?x with pair _ _ => _ end) _ => destruct x
  | |- safe _ _ _ (if ?c then _ else _) _ => destruct c eqn:?
  | |- safe _ _ _ (mbind _ (lift _)) _ =>
      apply safe_bind, safe_lift; let H := fresh "Hd" in intros ? H
  | |- safe _ _ _ (mbind _ (call _)) _ =>
      apply safe_bind, safe_call; [|let Hg := fresh "Hg" in let Hn := fresh "Hn" in
        intros ? ? Hg Hn]
  | |- safe _ _ _ (mbind _ (inspect _)) _ =>
      apply safe_bind, safe_inspect; let Hg := fresh "Hg" in let Hs := fresh "Hs" in
        let Hv := fresh "Hv" in intros ? ? ? Hg Hs Hv
  | |- safe _ _ _ (mbind _ (update _)) _ =>
      apply safe_bind, safe_update; [let Hg := fresh "Hg" in let Hs := fresh "Hs" in
        intros ? ? Hg Hs | let Hg := fresh "Hg" in intros ? Hg]
  | |- safe _ _ _ (lift _) _ => apply safe_lift; by intros ? _
  end.
Section dispatchers.
Context (owner : OwnerId) (limits : NegotiatedLimits).
Implicit Types (g : list Grant).
Notation safe' g m := (safe owner limits g m (λ _ _, True)).

Lemma call_ok_plain g {X} (e : RtE X) :
  rt_session e = None → (∀ o, rt_owner e = Some o → o = owner) →
  rt_offered limits e → call_bounded limits g e → call_ok owner limits g e.
Proof.
  intros Hs Ho Hm Hb. split_and!; [done| | |done|done].
  - intros s l H. by rewrite Hs in H.
  - intros s l H. by destruct e.
Qed.
Lemma call_ok_granted g {X} (e : RtE X) s l :
  rt_session e = Some (s, l) → rt_is_serial e = false → mkGrant (rt_kind e) s l ∈ g →
  rt_owner e = None → rt_offered limits e → call_bounded limits g e →
  call_ok owner limits g e.
Proof.
  intros Hs Hser Hg Ho Hm Hb. split_and!; [by rewrite Ho| | |done|done].
  - intros s' l' H. rewrite Hs in H. injection H as <- <-. by right.
  - intros s' l' H. by destruct e.
Qed.
Lemma call_ok_serial g {X} (e : RtE X) :
  rt_is_serial e = true → rt_owner e = None → call_bounded limits g e →
  match e with RCloseSerial s _ => ∃ l, mkGrant Serial s l ∈ g | _ => True end →
  call_ok owner limits g e.
Proof.
  intros Hser Ho Hb Hc. split_and!; [by rewrite Ho|by left| |by destruct e|done].
  intros s l H. destruct e; try done. by injection H as -> ->.
Qed.
Lemma granted_in {A} (x : A) (l g : list A) : [x] ⊆ l → l ⊆ g → x ∈ g.
Proof. set_solver. Qed.

Lemma usb_gpio_granted g s session lease kind operation allow r :
  sessions_ok g s → usb_gpio_validate session lease kind operation allow s = Ok r →
  mkGrant (kind_transport kind) session lease ∈ g.
Proof.
  intros Hs (Hr & <- & <- & _)%usb_gpio_validate_Ok. by apply (so_usb_gpio _ _ Hs).
Qed.
Lemma camera_granted g s session lease operation allow r :
  sessions_ok g s → camera_validate session lease operation allow s = Ok r →
  mkGrant Camera session lease ∈ g.
Proof. intros Hs (Hr & <- & _)%camera_validate_Ok. by apply (so_camera _ _ Hs). Qed.
Lemma can_granted g s session lease mode operation allow r :
  sessions_ok g s → validate_session session lease mode operation allow s = Ok r →
  mkGrant Can session lease ∈ g.
Proof. intros Hs (Hr & <- & _)%validate_session_Ok. by apply (so_can _ _ Hs). Qed.

(** Discharge a call on a session that was just checked. *)
Ltac granted_call H :=
  eapply call_ok_granted;
  [ reflexivity | reflexivity
  | first [ by eapply (usb_gpio_granted _ _ _ _ KindUsb); [|exact H]
          | by eapply (usb_gpio_granted _ _ _ _ KindGpio); [|exact H]
          | by eapply camera_granted; [|exact H]
          | by eapply can_granted; [|exact H] ]
  | reflexivity | try done | try done ].
Ltac plain_call := apply call_ok_plain;
  [done|cbn; intros ?; first [done|by intros [= ->]]|try done|try done].

(** USB and GPIO. *)
Section usb_gpio.
Hypothesis Hminor : USB_GPIO_WIRE_MINOR <= lim_protocol_minor limits.
Lemma transfer_decoded v session lease t d :
  usb_transfer_request_from_proto v = Ok (session, lease, t, d) →
  UsbTransfer_validate t = Ok () ∧
  match t with
  | ControlOut _ _ _ _ data | BulkOut _ data | InterruptOut _ data => data = wut_data v
  | ControlIn _ _ _ _ n | BulkIn _ n | InterruptIn _ n => n = wut_max_bytes v
  end.
Proof.
  unfold usb_transfer_request_from_proto, usb_transfer_from_proto. intros H.
  apply bind_Ok in H as (? & _ & H1). apply bind_Ok in H1 as ([] & _ & H2).
  apply bind_Ok in H2 as (t' & H3 & [= <- <- <- <-]). apply bind_Ok in H3 as (k & _ & H4).
  apply bind_Ok in H4 as (n & [_ ->]%try_from_Ok & H5).
  destruct k as [[]|]; try (destruct (_ || _); [done|]); [..|done].
  - apply (control_fields_Ok _ (λ rt r x i, ControlOut rt r x i (wut_data v))) in H5.
    destruct H5 as (_ & _ & _ & _ & -> & ?). auto.
  - apply (control_fields_Ok _ (λ rt r x i, ControlIn rt r x i (wut_max_bytes v))) in H5.
    destruct H5 as (_ & _ & _ & _ & -> & ?). auto.
  - apply (data_fields_Ok _ (λ e, BulkOut e (wut_data v))) in H5 as (_ & -> & ?). auto.
  - apply (data_fields_Ok _ (λ e, BulkIn e (wut_max_bytes v))) in H5 as (_ & -> & ?). auto.
  - apply (data_fields_Ok _ (λ e, InterruptOut e (wut_data v))) in H5 as (_ & -> & ?). auto.
  - apply (data_fields_Ok _ (λ e, InterruptIn e (wut_max_bytes v))) in H5 as (_ & -> & ?). auto.
Qed.
Lemma safe_transfer g request : safe' g (transfer request limits).
Proof.
  unfold transfer. step; [step|]. repeat step. granted_call Hv.
  apply transfer_decoded in Hd as [Hval Hsize]. split; [done|].
  pose proof (in_size_bound _ Hval) as Hmax. bool_simp.
  match goal with H : UsbTransfer_validate ?t = _ |- _ => destruct t end; cbn in *; subst; try lia; unfold try_from in *;
    destruct (_ <=? usize_max) eqn:Hle; cbn in *; bool_simp;
    unfold usize_max, u64_max, MAX_USB_TRANSFER_BYTES in *; lia.
Qed.
Lemma safe_read_gpio g request : safe' g (read_gpio request).
Proof. unfold read_gpio. repeat step. granted_call Hv. Qed.
Lemma safe_write_gpio g request : safe' g (write_gpio request limits).
Proof.
  unfold write_gpio. step; [step|]. repeat step. granted_call Hv. bool_simp.
  unfold gpio_write_request_from_proto in Hd. apply bind_Ok in Hd as ([] & _ & Hd').
  destruct (_ || _) eqn:Hg'; [done|]. apply values_guard in Hg'. injection Hd' as <- <- <-. done.
Qed.
Lemma edge_request_decoded v r :
  gpio_edge_request_from_proto v = Ok r →
  edge_bits (edge_mask r) ≠ 0 ∧ edge_capacity r <= MAX_GPIO_EVENTS.
Proof.
  unfold gpio_edge_request_from_proto. intros H. apply bind_Ok in H as (m & _ & H1).
  apply bind_Ok in H1 as (c & _ & H2%map_err_Ok). apply GpioEdgeRequest_new_Ok in H2 as (? & ? & ? & ->).
  done.
Qed.
Lemma safe_next_edge g request : safe' g (next_edge request limits).
Proof.
  unfold next_edge. repeat step. granted_call Hv.
  unfold gpio_next_edge_request_from_proto in Hd. apply bind_Ok in Hd as (? & _ & H1).
  apply bind_Ok in H1 as ([] & _ & H2). apply bind_Ok in H2 as (r & Hr & [= <- <- <- <-]).
  apply edge_request_decoded in Hr as [? ?]. by bool_simp.
Qed.
Lemma safe_open_usb g request : safe' g (open_usb owner request).
Proof.
  unfold open_usb. repeat step.
  - plain_call.
  - plain_call. unfold open_usb_request_from_proto in Hd. apply bind_Ok in Hd as (w & _ & H1).
    apply bind_Ok in H1 as (n & [_ ->]%try_from_Ok & H2). destruct (_ <? _) eqn:Hle; [done|].
    bool_simp. apply bind_Ok in H2 as (s & (_ & ? & ?)%selector_for_transport_Ok & [= <- <-]).
    split_and!; [done|done|]. unfold MAX_USB_INTERFACE_NUMBER, u8_max in *.
    pose proof (Z.mod_pos_bound (wou_interface_number request) (2 ^ 8)). lia.
  - apply sessions_ok_usb_gpio; [done|]. apply registry_granted_record; [by apply so_usb_gpio|].
    cbn. eapply granted_in; [exact Hn0|done].
Qed.
Lemma safe_open_gpio g request : safe' g (open_gpio owner request).
Proof.
  unfold open_gpio. repeat step.
  - plain_call.
  - plain_call. apply open_gpio_decoded in Hd. done.
  - apply sessions_ok_usb_gpio; [done|]. apply registry_granted_record; [by apply so_usb_gpio|].
    cbn. eapply granted_in; [exact Hn0|done].
Qed.
Lemma safe_close_usb g request : safe' g (close_usb request).
Proof.
  unfold close_usb. repeat step; [granted_call Hv|]. apply sessions_ok_usb_gpio; [done|].
  by apply registry_granted_close, so_usb_gpio.
Qed.
Lemma safe_close_gpio g request : safe' g (close_gpio request).
Proof.
  unfold close_gpio. repeat step; [granted_call Hv|]. apply sessions_ok_usb_gpio; [done|].
  by apply registry_granted_close, so_usb_gpio.
Qed.
Lemma safe_usb_gpio g payload : safe' g (usb_gpio_dispatch owner payload limits).
Proof.
  destruct payload; cbn [usb_gpio_dispatch]; try (by step);
    auto using safe_open_usb, safe_open_gpio, safe_transfer, safe_read_gpio, safe_write_gpio,
      safe_next_edge, safe_close_usb, safe_close_gpio; repeat step; plain_call.
Qed.

End usb_gpio.

(** Camera. *)
Section camera.
Hypothesis Hminor : CAMERA_WIRE_MINOR <= lim_protocol_minor limits.
Lemma safe_camera_admit g sid o operation cap name :
  safe owner limits g (camera_admit sid o operation cap name)
    (λ g' '(s, l), g ⊆ g' ∧ mkGrant Camera s l ∈ g').
Proof.
  unfold camera_admit. do 4 step. apply safe_lift. intros ? [= <-].
  split; [done|]. by eapply camera_granted.
Qed.
Lemma safe_camera_open g request : safe' g (camera_open owner request).
Proof.
  unfold camera_open. repeat step.
  - plain_call.
  - plain_call.
    apply (exact_decode _ (λ '(s, r), open_camera_request s r) open_camera_wf) in Hd as [_ Hwf].
    done.
  - apply sessions_ok_camera; [done|]. apply registry_granted_record; [by apply so_camera|].
    cbn. eapply granted_in; [exact Hn0|done].
Qed.
(** A camera operation: the checks, then the rest on the granted session. *)
Lemma safe_camera_op g sid o operation cap name (k : SessionId * LeaseToken → task Payload) :
  (∀ g' s l, mkGrant Camera s l ∈ g' → safe' g' (k (s, l))) →
  safe' g (camera_admit sid o operation cap name ≫= k).
Proof.
  intros Hk. apply safe_bind. eapply confined_impl; [|apply safe_camera_admit].
  intros g' r Hr [s l] ->. destruct (Hr (s, l) eq_refl) as [_ Hin]. by apply Hk.
Qed.
Ltac camera_call H := eapply call_ok_granted; [reflexivity|reflexivity|exact H|reflexivity|exact Hminor|try done].
Lemma safe_camera g payload : safe' g (camera_dispatch owner payload).
Proof.
  destruct payload; cbn [camera_dispatch]; try (by step); try exact (safe_camera_open _ _);
    try (apply safe_camera_op; intros g' s l Hin; repeat step; camera_call Hin).
  - repeat step. granted_call Hv.
  - by apply (exact_decode _ camera_control_value_to_proto control_value_wf) in Hd1 as [_ ?].
  - repeat step; [granted_call Hv|]. apply sessions_ok_camera; [done|].
    by apply registry_granted_close, so_camera.
Qed.

End camera.

(** CAN. *)
Section can.
Hypothesis Hminor : CAN_WIRE_MINOR <= lim_protocol_minor limits.
Lemma open_can_decoded v s mode config filters :
  open_can_request_from_proto v = Ok (s, mode, config, filters) →
  selector_wf s ∧ sel_transport s = Can ∧ open_config_wf config ∧ filter_set_wf filters.
Proof.
  unfold open_can_request_from_proto. intros H. apply bind_Ok in H as (w & _ & H1).
  apply bind_Ok in H1 as (s' & Hs & H2).
  apply (exact_decode _ ResourceSelector_to_proto selector_wf) in Hs as [_ Hs].
  case_bool_decide as Ht; [done|].
  apply bind_Ok in H2 as (m & _ & H3). apply bind_Ok in H3 as (c & _ & H4).
  apply bind_Ok in H4 as (c' & Hc & H5).
  apply (exact_decode _ CanOpenConfig_to_proto open_config_wf) in Hc as [_ Hc].
  apply bind_Ok in H5 as (f & _ & H6). apply bind_Ok in H6 as (f' & Hf & [= <- <- <- <-]).
  by apply (exact_decode _ CanFilterSet_to_proto filter_set_wf) in Hf as [_ Hf].
Qed.
Lemma payload_bytes_sum total frames n :
  payload_bytes total frames = Ok n → n = foldr (λ f k, len (wfr_data f) + k) total frames.
Proof.
  revert total. induction frames as [|f frames IH]; intros total; cbn; [by intros [= <-]|].
  unfold checked_add. destruct (_ <=? _); cbn; [|done]. intros ->%IH. clear.
  induction frames as [|f' frames IH]; cbn; lia.
Qed.
Lemma send_decoded v session lease frames n :
  validate_send_bounds v n = Ok () → can_send_request_from_proto v = Ok (session, lease, frames) →
  in_batch (len frames) = true ∧ Forall frame_wf frames ∧ frames_bytes frames <= n.
Proof.
  unfold validate_send_bounds, can_send_request_from_proto, send_can_frames_from_proto.
  destruct (in_batch (len (wsr_frames v))) eqn:Hb; [|done]. cbn [negb]. intros Hp H.
  apply bind_Ok in Hp as (bytes & Hp & Hle). destruct (n <? bytes) eqn:Hlt; [done|]. bool_simp.
  apply bind_Ok in H as ([] & _ & H1). apply bind_Ok in H1 as (fs & Hf & [= <- <- <-]).
  pose proof (exact_collect CanFrame_try_from CanFrame_to_proto frame_wf) as HC.
  apply (exact_decode _ (fmap CanFrame_to_proto) (Forall frame_wf)) in Hf as [Heq Hwf].
  apply payload_bytes_sum in Hp. rewrite Heq in Hb, Hp. rewrite len_map in Hb.
  split_and!; [done|done|]. rewrite foldr_fmap in Hp. unfold frames_bytes. by rewrite <- Hp.
Qed.
Lemma safe_can_open g request : safe' g (can_open owner request).
Proof.
  unfold can_open. repeat step.
  - plain_call.
  - plain_call. by apply open_can_decoded in Hd.
  - cbn in Hn, Hn0. apply sessions_ok_can; [done| |].
    + apply registry_granted_record; [by apply so_can|]. cbn. set_solver.
    + apply registry_profiled_record; [by intros ??; apply so_profiles|].
      eexists _, _, _, _. split_and!; [| |exact Hd0|reflexivity]; cbn; set_solver.
Qed.
Lemma safe_can_send g request : safe' g (can_send request limits).
Proof.
  unfold can_send. step. destruct a. do 5 step. apply safe_bind. split.
  - granted_call Hv. by eapply send_decoded.
  - intros outcome g'' _ _ outcome' [= <-]. repeat step.
Qed.
Lemma safe_can_receive g request : safe' g (can_receive request limits).
Proof.
  unfold can_receive. repeat step. granted_call Hv. bool_simp.
  apply validate_session_Ok in Hv as (Hr & <- & _).
  apply ok_or_Ok in Hd0 as [-> _]%checked_mul_Some. apply ok_or_Ok in Hd1. split.
  - unfold can_receive_request_from_proto, can_receive_parameters in Hd.
    apply bind_Ok in Hd as ([] & _ & H1). apply bind_Ok in H1 as ([] & H2 & [= _ _ <- _]).
    destruct (in_batch _) eqn:Hb; [|done]. by injection H2 as <- _.
  - exists (sr_extra a). split; [by apply (so_profiles _ _ Hs)|]. split; [done|]. by exists a1.
Qed.
Lemma safe_can_replace_filters g request : safe' g (can_replace_filters request).
Proof.
  unfold can_replace_filters. repeat step. granted_call Hv.
  unfold replace_can_filters_request_from_proto in Hd.
  apply bind_Ok in Hd as ([] & _ & H1). apply bind_Ok in H1 as (f & _ & H2).
  apply bind_Ok in H2 as (f' & Hf & [= <- <- <-]).
  by apply (exact_decode _ CanFilterSet_to_proto filter_set_wf) in Hf as [_ Hf].
Qed.
Lemma safe_can_status g request : safe' g (can_status request).
Proof. unfold can_status. repeat step. granted_call Hv. Qed.
End can.
Lemma safe_can_close g request : safe' g (can_close request).
Proof.
  unfold can_close. repeat step; [granted_call Hv|]. apply sessions_ok_can; [done| |].
  - by apply registry_granted_close, so_can.
  - apply registry_profiled_close. by intros ??; apply so_profiles.
Qed.
Lemma safe_can g payload : safe' g (can_dispatch owner payload limits).
Proof.
  unfold can_dispatch. destruct (_ <? _) eqn:Hminor; [step|]. bool_simp.
  destruct payload; try (by step);
    auto using safe_can_open, safe_can_send, safe_can_receive, safe_can_replace_filters,
      safe_can_status; repeat step; plain_call.
Qed.

(** Serial, and the choice of dispatcher. *)
Ltac serial_call := apply call_ok_serial; [reflexivity|reflexivity|try done|try done].
Lemma safe_close_session g request :
  safe' g (dispatch_operation_inner owner (Some (CloseSessionRequest request)) limits).
Proof.
  cbn [dispatch_operation_inner]. step. destruct a; [apply safe_can_close|].
  do 2 step. step. injection Hv0 as <-. destruct (is_serial_session s0 (bs_serial s1)) eqn:Hser.
  - cbn [negb]. step; [|step; [|step]].
    + serial_call. apply (so_serial _ _ Hs0). unfold is_serial_session in Hser.
      apply orb_prop in Hser as [Hm|Hm]; apply bool_decide_eq_true in Hm; set_solver.
    + apply sessions_ok_serial; [done|]. by apply serial_granted_close, so_serial.
  - cbn [negb]. step.
Qed.
Lemma safe_inner g payload :
  (∀ p, payload = Some p → is_usb_gpio_payload p = false) →
  safe' g (dispatch_operation_inner owner payload limits).
Proof.
  intros Hno. destruct payload as [p|]; [|cbn [dispatch_operation_inner]; by step]. specialize (Hno p eq_refl).
  destruct p; try done; try exact (safe_close_session _ _); cbn [dispatch_operation_inner];
    try (by step).
  - repeat step.
    + plain_call. unfold open_serial_request_from_proto, serial_selector_from_proto in Hd.
      apply bind_Ok in Hd as (? & _ & H1). apply bind_Ok in H1 as (? & _ & H2).
      apply bind_Ok in H2 as (s' & (_ & ? & ?)%guarded_selector_Ok & H3).
      by apply bind_Ok in H3 as (? & _ & [= <- <-]).
    + apply sessions_ok_serial; [done|]. eapply serial_granted_register; [by apply so_serial|].
      eapply granted_in; [exact Hn|done].
  - step; [step|]. repeat step. serial_call. by bool_simp.
  - step; [step|]. repeat step. serial_call. by bool_simp.
  - repeat step. serial_call.
  - repeat step. serial_call.
Qed.
Lemma safe_dispatch g payload : safe' g (dispatch_payload owner payload limits).
Proof.
  unfold dispatch_payload. destruct payload as [p|]; [|by apply safe_inner].
  destruct (is_camera_payload p && _) eqn:Hcm; [step|].
  destruct (is_usb_gpio_payload p && _) eqn:Hum; [step|].
  destruct (is_can_payload p); [apply safe_can|].
  destruct (is_usb_gpio_payload p) eqn:Hu.
  { apply safe_usb_gpio. cbn [andb] in Hum. unfold USB_GPIO_WIRE_MINOR. by bool_simp. }
  destruct (is_camera_payload p); [apply safe_camera; cbn [andb] in Hcm; by bool_simp|].
  apply safe_inner. by intros ? [= <-].
Qed.
(** The task of a request: safe, and it ends with the envelope of that request. *)
Lemma dispatch_operation_confined g request_id payload :
  confined owner limits g (dispatch_operation owner request_id payload limits)
    (λ _ env, env_request_id env = request_id).
Proof.
  apply confined_pbind. eapply confined_impl; [|apply safe_dispatch].
  intros g' [p|e] _; reflexivity.
Qed.
End dispatchers.
