(* ===== verification/BrokerConnection.v ===== *)
(** * robot-hal-broker: one connection

    Models crates/robot-hal-broker/src/connection.rs: the handshake, the reader that admits
    frames, the loop that dispatches requests, events and finished tasks, the writer, and
    the tasks of [BrokerDispatch], interleaved in any order.

    What travels through a socket is a length and what decoding gave; [encoded_len] is the
    length prost gives to an envelope.  A channel is a list bounded by its capacity; the
    request channel is closed when the loop has ended, the response channel when the
    writer has.  Fields marked as ghosts only record what happened. *)

From S2P Require Import Prelude Core Lifecycle SerialRegistry CanTypes CameraTypes UsbTypes.
From S2P Require Import GpioTypes ShmLayout ShmRing WireCore WireCan WireUsbGpio WireCamera.
From S2P Require Import Envelope BrokerCore BrokerDispatch BrokerSafety.

(** ** Configuration and secrets *)
Record BrokerConfig := mkBrokerConfig {
  cfg_request_queue_capacity : Z;
  cfg_response_queue_capacity : Z;
  cfg_max_in_flight_requests : Z;
}.
Definition BrokerConfig_default : BrokerConfig := mkBrokerConfig 32 64 32.
Definition with_request_queue_capacity (c : BrokerConfig) (capacity : Z) : BrokerConfig :=
  mkBrokerConfig (Z.max capacity 1) (cfg_response_queue_capacity c) (cfg_max_in_flight_requests c).
Definition with_response_queue_capacity (c : BrokerConfig) (capacity : Z) : BrokerConfig :=
  mkBrokerConfig (cfg_request_queue_capacity c) (Z.max capacity 1) (cfg_max_in_flight_requests c).
Definition with_max_in_flight_requests (c : BrokerConfig) (capacity : Z) : BrokerConfig :=
  mkBrokerConfig (cfg_request_queue_capacity c) (cfg_response_queue_capacity c) (Z.max capacity 1).
Record StartupToken := mkStartupToken { token_bytes : list Z }.
Definition StartupToken_authenticates (t : StartupToken) (presented : list Z) : bool :=
  (len presented =? len (token_bytes t)) && bool_decide (presented = token_bytes t).

(** ** Handshake *)
Definition capabilities_of (minor : Z) : list string :=
  can_broker_capabilities minor ++ usb_gpio_broker_capabilities minor
  ++ camera_broker_capabilities minor.
Section handshake.
Context (encoded_len : Envelope → Z).
Definition validate_handshake (expected_token : StartupToken) (request : v1_HandshakeRequest)
    : HalResult (v1_HandshakeResponse * NegotiatedLimits) :=
  if negb (StartupToken_authenticates expected_token (hsq_startup_token request)) then
    Err (protocol_error "runtime.protocol.authentication_failed" "runtime.protocol.handshake"
           Conflict false "startup token did not authenticate the connection")
  else
    handshake_minor_range request ≫= λ '(client_minimum, client_maximum),
    negotiate_protocol_minor (hsq_protocol_major request) client_minimum client_maximum
      PROTOCOL_MAJOR PROTOCOL_MINOR_MINIMUM PROTOCOL_MINOR_MAXIMUM ≫= λ selected_minor,
    let capabilities := capabilities_of selected_minor in
    if existsb (λ c, bool_decide (c ∉ capabilities)) (hsq_required_capabilities request) then
      Err (protocol_error "runtime.protocol.unsupported_capability" "runtime.protocol.handshake"
             Conflict false "a required capability is not supported")
    else
      let limit v := default usize_max (try_from usize_max v) in
      let frame_limit := limit (hsq_max_frame_bytes request) in
      let read_limit := limit (hsq_max_read_bytes request) in
      let write_limit := limit (hsq_max_write_bytes request) in
      if (frame_limit =? 0) || (MAX_FRAME_BYTES <? frame_limit) || (read_limit =? 0)
         || (write_limit =? 0) || (frame_limit <? read_response_encoded_len read_limit)
         || (frame_limit <? write_request_encoded_len write_limit)
      then Err (invalid_message "negotiated frame/read/write byte limits are invalid")
      else
        let response :=
          mk_v1_HandshakeResponse PROTOCOL_MAJOR selected_minor capabilities
            (hsq_max_frame_bytes request) (hsq_max_read_bytes request)
            (hsq_max_write_bytes request) PROTOCOL_MINOR_MINIMUM PROTOCOL_MINOR_MAXIMUM in
        if frame_limit <? encoded_len (mkEnvelope u64_max (Some (HandshakeResponse response))) then
          Err (invalid_message "negotiated frame limit cannot contain the handshake response")
        else Ok (response, mkNegotiatedLimits selected_minor frame_limit read_limit write_limit).
End handshake.

Lemma authenticates_spec t presented :
  StartupToken_authenticates t presented = bool_decide (presented = token_bytes t).
Proof.
  unfold StartupToken_authenticates. case_bool_decide as H; [|by rewrite andb_false_r].
  by rewrite H, Z.eqb_refl.
Qed.
Lemma validate_handshake_token encoded_len t request r :
  validate_handshake encoded_len t request = Ok r → hsq_startup_token request = token_bytes t.
Proof.
  unfold validate_handshake. rewrite authenticates_spec. by case_bool_decide.
Qed.

(** ** State of a connection *)
Record InboundRequest := mkInboundRequest { in_envelope : Envelope; in_encoded_len : Z }.
Definition in_id (r : InboundRequest) : Z := env_request_id (in_envelope r).
Record OutboundEnvelope := mkOutboundEnvelope { out_envelope : Envelope; out_max_frame_bytes : Z }.
Inductive ReaderState := ReaderLoop | ReaderWaitsLimit | ReaderDone (result : HalResult unit).
Inductive LoopState := LoopRunning | LoopEnded (failure : option HalError).
Inductive WriterState := WriterLoop | WriterDone (result : HalResult unit).
Record Connection := mkConnection {
  cn_active : gset Z;
  cn_requests : list InboundRequest;
  cn_responses : list OutboundEnvelope;
  cn_limits : option NegotiatedLimits;
  cn_tasks : list (Z * prog Envelope);
  cn_sessions : BrokerSessions;
  cn_reader : ReaderState;
  cn_loop : LoopState;
  cn_writer : WriterState;
  cn_cancel : bool;
  (* ghosts: the handshake accepted, the sessions granted, the calls made, the requests
     admitted and answered, the envelopes written *)
  cn_handshake : option v1_HandshakeRequest;
  cn_grants : list Grant;
  cn_calls : list (sigT RtE);
  cn_admitted : list Z;
  cn_answered : list Z;
  cn_written : list Envelope;
}.
Definition Connection_init : Connection :=
  mkConnection ∅ [] [] None [] BrokerSessions_default ReaderLoop LoopRunning WriterLoop false
    None [] [] [] [] [].

Definition set_active (c : Connection) (a : gset Z) : Connection :=
  mkConnection a (cn_requests c) (cn_responses c) (cn_limits c) (cn_tasks c) (cn_sessions c)
    (cn_reader c) (cn_loop c) (cn_writer c) (cn_cancel c) (cn_handshake c) (cn_grants c)
    (cn_calls c) (cn_admitted c) (cn_answered c) (cn_written c).
Definition set_requests (c : Connection) (r : list InboundRequest) (admitted : list Z)
    : Connection :=
  mkConnection (cn_active c) r (cn_responses c) (cn_limits c) (cn_tasks c) (cn_sessions c)
    (cn_reader c) (cn_loop c) (cn_writer c) (cn_cancel c) (cn_handshake c) (cn_grants c)
    (cn_calls c) admitted (cn_answered c) (cn_written c).
Definition set_responses (c : Connection) (r : list OutboundEnvelope) : Connection :=
  mkConnection (cn_active c) (cn_requests c) r (cn_limits c) (cn_tasks c) (cn_sessions c)
    (cn_reader c) (cn_loop c) (cn_writer c) (cn_cancel c) (cn_handshake c) (cn_grants c)
    (cn_calls c) (cn_admitted c) (cn_answered c) (cn_written c).
Definition set_reader (c : Connection) (r : ReaderState) : Connection :=
  mkConnection (cn_active c) (cn_requests c) (cn_responses c) (cn_limits c) (cn_tasks c)
    (cn_sessions c) r (cn_loop c) (cn_writer c) (cn_cancel c) (cn_handshake c) (cn_grants c)
    (cn_calls c) (cn_admitted c) (cn_answered c) (cn_written c).
Definition set_tasks (c : Connection) (t : list (Z * prog Envelope)) : Connection :=
  mkConnection (cn_active c) (cn_requests c) (cn_responses c) (cn_limits c) t (cn_sessions c)
    (cn_reader c) (cn_loop c) (cn_writer c) (cn_cancel c) (cn_handshake c) (cn_grants c)
    (cn_calls c) (cn_admitted c) (cn_answered c) (cn_written c).
(** [break], then [tasks.abort_all()] and the loop that joins the aborted tasks. *)
Definition end_loop (c : Connection) (failure : option HalError) : Connection :=
  mkConnection (cn_active c) (cn_requests c) (cn_responses c) (cn_limits c) [] (cn_sessions c)
    (cn_reader c) (LoopEnded failure) (cn_writer c) (cn_cancel c) (cn_handshake c) (cn_grants c)
    (cn_calls c) (cn_admitted c) (cn_answered c) (cn_written c).
Definition set_negotiated (c : Connection) (limits : NegotiatedLimits) (h : v1_HandshakeRequest)
    : Connection :=
  mkConnection (cn_active c) (cn_requests c) (cn_responses c) (Some limits) (cn_tasks c)
    (cn_sessions c) (cn_reader c) (cn_loop c) (cn_writer c) (cn_cancel c) (Some h) (cn_grants c)
    (cn_calls c) (cn_admitted c) (cn_answered c) (cn_written c).
(** A task moves: its program, the sessions, and the ghosts of a call. *)
Definition set_task_state (c : Connection) (t : list (Z * prog Envelope)) (s : BrokerSessions)
    (grants : list Grant) (calls : list (sigT RtE)) : Connection :=
  mkConnection (cn_active c) (cn_requests c) (cn_responses c) (cn_limits c) t s
    (cn_reader c) (cn_loop c) (cn_writer c) (cn_cancel c) (cn_handshake c) grants
    calls (cn_admitted c) (cn_answered c) (cn_written c).
Definition set_writer (c : Connection) (responses : list OutboundEnvelope) (w : WriterState)
    (cancel : bool) (written : list Envelope) : Connection :=
  mkConnection (cn_active c) (cn_requests c) responses (cn_limits c) (cn_tasks c) (cn_sessions c)
    (cn_reader c) (cn_loop c) w cancel (cn_handshake c) (cn_grants c)
    (cn_calls c) (cn_admitted c) (cn_answered c) written.
(** [remove_active]; when the loop answers, the ghost records it. *)
Definition remove_active (c : Connection) (request_id : Z) : Connection :=
  set_active c (cn_active c ∖ {[request_id]}).
Definition answered (c : Connection) (request_id : Z) : Connection :=
  mkConnection (cn_active c) (cn_requests c) (cn_responses c) (cn_limits c) (cn_tasks c)
    (cn_sessions c) (cn_reader c) (cn_loop c) (cn_writer c) (cn_cancel c) (cn_handshake c)
    (cn_grants c) (cn_calls c) (cn_admitted c) (cn_answered c ++ [request_id]) (cn_written c).

Definition negotiated_frame_limit (limits : option NegotiatedLimits) : Z :=
  match limits with Some l => lim_max_frame_bytes l | None => MAX_FRAME_BYTES end.

Section connection.
Context (encoded_len : Envelope → Z) (config : BrokerConfig) (startup_token : StartupToken)
  (owner : OwnerId).
Implicit Types (c : Connection).

(** ** Responses *)
Definition connection_lost : HalError :=
  protocol_error "runtime.protocol.connection_lost" "runtime.protocol.write" Unavailable true
    "broker response channel is closed".
Definition send_response c (response : Envelope) (max_frame_bytes : Z) : Connection * HalResult unit :=
  match cn_writer c with
  | WriterDone _ => (c, Err connection_lost)
  | WriterLoop =>
      if cfg_response_queue_capacity config <=? len (cn_responses c)
      then (c, Err response_queue_full)
      else (set_responses c (cn_responses c ++ [mkOutboundEnvelope response max_frame_bytes]), Ok ())
  end.

(** ** The reader *)
Inductive FrameIn :=
  | FrameEof
  | FrameBad (message : string)
  | FrameData (length : Z) (decoded : result string Envelope).
Definition duplicate_request_id : HalError :=
  protocol_error "runtime.protocol.duplicate_request_id" "runtime.protocol.admit" Conflict false
    "request_id is already in flight".
(** Answer from the reader: a failure to enqueue ends it. *)
Definition reader_answer c (response : Envelope) (next : ReaderState) : Connection :=
  match send_response c response (negotiated_frame_limit (cn_limits c)) with
  | (c, Ok _) => set_reader c next
  | (c, Err e) => set_reader c (ReaderDone (Err e))
  end.
Definition read_request c (frame : FrameIn) : Connection :=
  match frame with
  | FrameEof => set_reader c (ReaderDone (Ok ()))
  | FrameBad message =>
      set_reader c (ReaderDone (Err (protocol_error "runtime.protocol.frame_invalid"
        "runtime.protocol.read" InvalidArgument false message)))
  | FrameData length decoded =>
      if negotiated_frame_limit (cn_limits c) <? length then
        set_reader c (ReaderDone (Err (frame_too_large
          "inbound frame exceeds the active connection maximum")))
      else
        match decoded with
        | Err message =>
            set_reader c (ReaderDone (Err (protocol_error "runtime.protocol.invalid_message"
              "runtime.protocol.decode" InvalidArgument false message)))
        | Ok request =>
            let request_id := env_request_id request in
            if request_id =? 0 then
              reader_answer c
                (error_envelope request_id (invalid_message "request_id must be non-zero")) ReaderLoop
            else if bool_decide (request_id ∈ cn_active c) then
              reader_answer c (error_envelope request_id duplicate_request_id) (ReaderDone (Ok ()))
            else
              match cn_loop c with
              | LoopEnded _ =>
                  set_reader (set_active c ({[request_id]} ∪ cn_active c)) (ReaderDone (Ok ()))
              | LoopRunning =>
                  if cfg_request_queue_capacity config <=? len (cn_requests c) then
                    (* inserted, then removed again *)
                    reader_answer c
                      (error_envelope request_id (broker_queue_full "broker request queue is full"))
                      ReaderLoop
                  else
                    set_reader
                      (set_requests (set_active c ({[request_id]} ∪ cn_active c))
                         (cn_requests c ++ [mkInboundRequest request length])
                         (cn_admitted c ++ [request_id]))
                      (if is_handshake (env_payload request) then ReaderWaitsLimit else ReaderLoop)
              end
        end
  end.

(** ** The dispatch loop *)
(** Answer from the loop; a failure to enqueue ends it. *)
Definition loop_answer c (request_id : Z) (response : Envelope) (max_frame_bytes : Z) : Connection :=
  match send_response (answered (remove_active c request_id) request_id) response max_frame_bytes with
  | (c, Ok _) => c
  | (c, Err e) => end_loop c (Some e)
  end.
Definition handshake_required : HalError :=
  protocol_error "runtime.protocol.handshake_required" "runtime.protocol.dispatch" Conflict false
    "the connection must complete a handshake before operations".
Definition dispatch_request c (request : InboundRequest) : Connection :=
  let request_id := in_id request in
  let payload := env_payload (in_envelope request) in
  let too_large :=
    match cn_limits c with
    | Some limits => lim_max_frame_bytes limits <? in_encoded_len request
    | None => false
    end in
  if too_large then
    end_loop (remove_active c request_id)
      (Some (frame_too_large "inbound frame exceeds the negotiated maximum"))
  else
    match cn_limits c with
    | None =>
        match payload with
        | Some (HandshakeRequest handshake) =>
            match validate_handshake encoded_len startup_token handshake with
            | Ok (response, negotiated) =>
                loop_answer (set_negotiated c negotiated handshake) request_id
                  (mkEnvelope request_id (Some (HandshakeResponse response)))
                  (lim_max_frame_bytes negotiated)
            | Err error =>
                match send_response (answered (remove_active c request_id) request_id)
                        (error_envelope request_id error) MAX_FRAME_BYTES with
                | (c, Ok _) => end_loop c None
                | (c, Err e) => end_loop c (Some e)
                end
            end
        | _ =>
            loop_answer c request_id (error_envelope request_id handshake_required) MAX_FRAME_BYTES
        end
    | Some limits =>
        if is_handshake payload then
          loop_answer c request_id
            (error_envelope request_id
               (invalid_message "handshake may only be sent once per connection"))
            (negotiated_frame_limit (cn_limits c))
        else if cfg_max_in_flight_requests config <=? len (cn_tasks c) then
          loop_answer c request_id
            (error_envelope request_id (broker_queue_full "broker task queue is full"))
            (negotiated_frame_limit (cn_limits c))
        else
          set_tasks c (cn_tasks c ++ [(request_id, dispatch_operation owner request_id payload limits)])
    end.
Definition event_is_visible_to_owner (event : RuntimeEvent) : bool :=
  bool_decide (ev_owner_id event = owner).
Definition dispatch_event c (event : HalResult RuntimeEvent) : Connection :=
  let answer response :=
    match send_response c response (negotiated_frame_limit (cn_limits c)) with
    | (c, Ok _) => c
    | (c, Err e) => end_loop c (Some e)
    end in
  match event with
  | Ok event =>
      if event_is_visible_to_owner event
      then answer (mkEnvelope 0 (Some (PRuntimeEvent (RuntimeEvent_to_proto event))))
      else c
  | Err error => answer (error_envelope 0 error)
  end.

(** ** The writer *)
Definition write_response c (response : OutboundEnvelope) (rest : list OutboundEnvelope)
    (outcome : HalResult unit) : Connection :=
  let fail error := set_writer c rest (WriterDone (Err error)) true (cn_written c) in
  if (MAX_FRAME_BYTES <? encoded_len (out_envelope response))
     || (out_max_frame_bytes response <? encoded_len (out_envelope response))
  then fail (frame_too_large "outbound envelope exceeds the negotiated maximum")
  else
    match outcome with
    | Err error => fail error
    | Ok _ => set_writer c rest WriterLoop (cn_cancel c) (cn_written c ++ [out_envelope response])
    end.

(** ** How a connection ends *)
(** A spawned task at the shutdown deadline: still running, panicked, or its result. *)
Inductive JoinedTask := JoinTimedOut | JoinPanicked (message : string) | Joined (r : HalResult unit).
Definition finish_connection_task (task : JoinedTask) (operation : string) : option HalError :=
  match task with
  | JoinTimedOut =>
      Some (protocol_error "runtime.protocol.task_shutdown_timeout" operation Internal false
              "connection task did not stop before its shutdown deadline")
  | Joined (Ok _) => None
  | Joined (Err error) => Some error
  | JoinPanicked message =>
      Some (protocol_error "runtime.protocol.task_failed" operation Internal false message)
  end.
Record ConnectionOutcome := mkConnectionOutcome {
  co_cleanup_error : option HalError;
  co_connection_error : option HalError;
}.
Definition option_or {A} (a b : option A) : option A := match a with Some _ => a | None => b end.
(** After the loop has ended with [dispatch_error]: [revoke_owner], then reader and writer. *)
Definition serve_outcome (dispatch_error : option HalError) (revoked : HalResult unit)
    (reader writer : JoinedTask) : ConnectionOutcome :=
  mkConnectionOutcome (match revoked with Ok _ => None | Err e => Some e end)
    (option_or (option_or dispatch_error (finish_connection_task reader "runtime.protocol.read"))
       (finish_connection_task writer "runtime.protocol.write")).

(** ** Steps *)
Inductive conn_step : Connection → Connection → Prop :=
  | StepFrame c frame : cn_reader c = ReaderLoop → conn_step c (read_request c frame)
  | StepReaderWakes c : cn_reader c = ReaderWaitsLimit → cn_limits c ≠ None →
      conn_step c (set_reader c ReaderLoop)
  | StepReaderCancelled c : cn_reader c = ReaderLoop ∨ cn_reader c = ReaderWaitsLimit →
      cn_cancel c = true → conn_step c (set_reader c (ReaderDone (Ok ())))
  | StepRequest c request rest : cn_loop c = LoopRunning → cn_requests c = request :: rest →
      conn_step c (dispatch_request (set_requests c rest (cn_admitted c)) request)
  | StepNoMoreRequests c r : cn_loop c = LoopRunning → cn_requests c = [] →
      cn_reader c = ReaderDone r → conn_step c (end_loop c None)
  | StepCancelled c : cn_loop c = LoopRunning → cn_cancel c = true → conn_step c (end_loop c None)
  | StepEvent c event : cn_loop c = LoopRunning → cn_limits c ≠ None →
      conn_step c (dispatch_event c event)
  | StepCall c n id X (e : RtE X) k x :
      cn_tasks c !! n = Some (id, Call X e k) →
      conn_step c (set_task_state c (<[n := (id, k x)]> (cn_tasks c)) (cn_sessions c)
                     (granted_by e x ++ cn_grants c) (existT X e :: cn_calls c))
  | StepAtomic c n id X f k :
      cn_tasks c !! n = Some (id, Atomic X f k) →
      conn_step c (set_task_state c (<[n := (id, k (f (cn_sessions c)).2)]> (cn_tasks c))
                     (f (cn_sessions c)).1 (cn_grants c) (cn_calls c))
  | StepJoin c n id env : cn_loop c = LoopRunning → cn_tasks c !! n = Some (id, Done env) →
      conn_step c (loop_answer (set_tasks c (delete n (cn_tasks c))) id env
                     (negotiated_frame_limit (cn_limits c)))
  | StepTaskPanics c n task message : cn_loop c = LoopRunning → cn_tasks c !! n = Some task →
      conn_step c (end_loop c (Some (protocol_error "runtime.protocol.task_failed"
                     "runtime.protocol.dispatch" Internal false message)))
  | StepWrite c response rest outcome : cn_writer c = WriterLoop →
      cn_responses c = response :: rest → conn_step c (write_response c response rest outcome)
  | StepShutdown c :
      conn_step c (set_writer c (cn_responses c) (cn_writer c) true (cn_written c)).

Definition reachable c : Prop := rtc conn_step Connection_init c.

(** ** Authority: who may call the runtime, and with what *)
Record conn_auth c : Prop := {
  ca_limits l : cn_limits c = Some l → ∃ h response,
    cn_handshake c = Some h ∧ validate_handshake encoded_len startup_token h = Ok (response, l);
  ca_tasks id p : (id, p) ∈ cn_tasks c → ∃ l, cn_limits c = Some l ∧
    confined owner l (cn_grants c) p (λ _ env, env_request_id env = id);
  ca_sessions : sessions_ok (cn_grants c) (cn_sessions c);
  ca_calls X (e : RtE X) : existT X e ∈ cn_calls c → ∃ l, cn_limits c = Some l ∧
    call_ok owner l (cn_grants c) e;
}.
(** What leaves the authority of a connection alone, but for ended tasks. *)
Record same_auth c c' : Prop := {
  sa_limits : cn_limits c' = cn_limits c;
  sa_handshake : cn_handshake c' = cn_handshake c;
  sa_tasks t : t ∈ cn_tasks c' → t ∈ cn_tasks c;
  sa_sessions : cn_sessions c' = cn_sessions c;
  sa_grants : cn_grants c' = cn_grants c;
  sa_calls : cn_calls c' = cn_calls c;
}.
Lemma same_auth_refl c : same_auth c c.
Proof. by split. Qed.
Lemma same_auth_trans c1 c2 c3 : same_auth c1 c2 → same_auth c2 c3 → same_auth c1 c3.
Proof. intros [] []. split; [congruence..|auto|congruence|congruence|congruence]. Qed.
Lemma same_auth_preserves c c' : same_auth c c' → conn_auth c → conn_auth c'.
Proof.
  intros [Hl Hh Ht Hs Hg Hc] [Al At As Ac]. split.
  - intros l. rewrite Hl, Hh. apply Al.
  - intros id p Hin. rewrite Hl, Hg. by apply At, Ht.
  - by rewrite Hg, Hs.
  - intros X e. rewrite Hc, Hl, Hg. apply Ac.
Qed.
Lemma same_auth_end c f : same_auth c (end_loop c f).
Proof. split; cbn; try done. set_solver. Qed.
Lemma same_auth_send c env n c' r :
  send_response c env n = (c', r) → same_auth c c'.
Proof. unfold send_response. repeat case_match; intros [= <- <-]; by split. Qed.
Lemma same_auth_reader_answer c env next : same_auth c (reader_answer c env next).
Proof.
  unfold reader_answer. destruct (send_response _ _ _) as [c' [[]|e]] eqn:H;
    apply same_auth_send in H; destruct H; by split.
Qed.
Lemma same_auth_loop_answer c id env n : same_auth c (loop_answer c id env n).
Proof.
  unfold loop_answer. destruct (send_response _ _ _) as [c' [[]|e]] eqn:H;
    apply same_auth_send in H; destruct H; split; try done. cbn. set_solver.
Qed.
Lemma same_auth_read c frame : same_auth c (read_request c frame).
Proof.
  unfold read_request. repeat case_match; try apply same_auth_reader_answer; by split.
Qed.
Lemma same_auth_event c event : same_auth c (dispatch_event c event).
Proof.
  unfold dispatch_event. destruct event as [ev|e].
  - destruct (event_is_visible_to_owner ev); [|apply same_auth_refl].
    destruct (send_response _ _ _) as [c' [[]|e']] eqn:H; apply same_auth_send in H;
      [done|by eapply same_auth_trans, same_auth_end].
  - destruct (send_response _ _ _) as [c' [[]|e']] eqn:H; apply same_auth_send in H;
      [done|by eapply same_auth_trans, same_auth_end].
Qed.
Lemma same_auth_write c response rest outcome : same_auth c (write_response c response rest outcome).
Proof. unfold write_response. repeat case_match; by split. Qed.

Lemma auth_negotiated c l h response :
  cn_limits c = None → conn_auth c → validate_handshake encoded_len startup_token h = Ok (response, l) →
  conn_auth (set_negotiated c l h).
Proof.
  intros Hn [Al At As Ac] Hv. split; cbn.
  - intros l' [= <-]. by exists h, response.
  - intros id p Hin. destruct (At id p Hin) as (? & ? & _). congruence.
  - done.
  - intros X e Hin. destruct (Ac X e Hin) as (? & ? & _). congruence.
Qed.
Lemma auth_dispatch c request : conn_auth c → conn_auth (dispatch_request c request).
Proof.
  intros Ha. unfold dispatch_request. destruct (cn_limits c) as [l|] eqn:Hl.
  - destruct (_ <? _).
    { eapply same_auth_preserves; [|exact Ha]. eapply same_auth_trans, same_auth_end. by split. }
    destruct (is_handshake _); [by eapply same_auth_preserves; [apply same_auth_loop_answer|]|].
    destruct (_ <=? _); [by eapply same_auth_preserves; [apply same_auth_loop_answer|]|].
    destruct Ha as [Al At As Ac]. split; cbn; try done.
    intros id p [Hin|Hin%list_elem_of_singleton]%elem_of_app; [by apply At|].
    injection Hin as -> ->. exists l. split; [done|]. apply dispatch_operation_confined.
  - destruct (env_payload _) as [p|];
      [|by eapply same_auth_preserves; [apply same_auth_loop_answer|]].
    destruct p; try (by eapply same_auth_preserves; [apply same_auth_loop_answer|]).
    destruct (validate_handshake _ _ _) as [[response l]|e] eqn:Hv.
    + eapply same_auth_preserves; [apply same_auth_loop_answer|]. by eapply auth_negotiated.
    + eapply same_auth_preserves; [|exact Ha].
      destruct (send_response _ _ _) as [c' [[]|e']] eqn:H; apply same_auth_send in H;
        (eapply same_auth_trans, same_auth_end; destruct H; by split).
Qed.
Lemma confined_more g g' l id (p : prog Envelope) :
  g ⊆ g' → confined owner l g p (λ _ env, env_request_id env = id) →
  confined owner l g' p (λ _ env, env_request_id env = id).
Proof. by apply confined_mono. Qed.
Lemma sessions_ok_mono g g' s : g ⊆ g' → sessions_ok g s → sessions_ok g' s.
Proof.
  intros Hg [H1 H2 Hp H3 H4]. split.
  - intros x Hx. destruct (H1 x Hx) as [l ?]. exists l. by apply Hg.
  - intros x r Hx. by apply Hg, H2.
  - intros x r Hx. by eapply can_profile_mono, Hp.
  - intros x r Hx. by apply Hg, H3.
  - intros x r Hx. by apply Hg, H4.
Qed.
Lemma auth_call c n id X (e : RtE X) k x :
  cn_tasks c !! n = Some (id, Call X e k) → conn_auth c →
  conn_auth (set_task_state c (<[n := (id, k x)]> (cn_tasks c)) (cn_sessions c)
               (granted_by e x ++ cn_grants c) (existT X e :: cn_calls c)).
Proof.
  intros Hn [Al At As Ac]. assert (cn_grants c ⊆ granted_by e x ++ cn_grants c) as Hsub by set_solver.
  destruct (At id (Call X e k)) as (l & Hl & Hcall & Hk); [by apply list_elem_of_lookup_2 in Hn|].
  split; cbn.
  - apply Al.
  - intros id' p Hin. exists l. split; [done|].
    apply list_elem_of_lookup in Hin as [m Hm]. apply list_lookup_insert_Some in Hm as [(-> & [= <- <-] & _)|[_ Hm]].
    + apply (Hk x (granted_by e x ++ cn_grants c)); [done|set_solver].
    + apply list_elem_of_lookup_2, At in Hm as (l' & Hl' & Hc). rewrite Hl in Hl'.
      injection Hl' as <-. by eapply confined_more.
  - by eapply sessions_ok_mono.
  - intros Y e' [Heq|Hin]%elem_of_cons.
    + exists l. split; [done|]. eapply call_ok_mono; [done|].
      apply (f_equal (λ q, call_ok owner l (cn_grants c) (projT2 q))) in Heq. cbn in Heq.
      by rewrite Heq.
    + destruct (Ac Y e' Hin) as (l' & Hl' & Hc). exists l'. split; [done|]. by eapply call_ok_mono.
Qed.
Lemma auth_atomic c n id X f k :
  cn_tasks c !! n = Some (id, Atomic X f k) → conn_auth c →
  conn_auth (set_task_state c (<[n := (id, k (f (cn_sessions c)).2)]> (cn_tasks c))
               (f (cn_sessions c)).1 (cn_grants c) (cn_calls c)).
Proof.
  intros Hn [Al At As Ac].
  destruct (At id (Atomic X f k)) as (l & Hl & Hk); [by apply list_elem_of_lookup_2 in Hn|].
  cbn in Hk. destruct (Hk (cn_sessions c) (cn_grants c)) as [Hs Hrest]; [done|done|].
  split; cbn; [apply Al| |done|apply Ac].
  intros id' p Hin. apply list_elem_of_lookup in Hin as [m Hm].
  apply list_lookup_insert_Some in Hm as [(-> & [= <- <-] & _)|[_ Hm]]; [by exists l|].
  by apply list_elem_of_lookup_2, At in Hm.
Qed.
Lemma auth_step c c' : conn_step c c' → conn_auth c → conn_auth c'.
Proof.
  intros Hstep Ha. destruct Hstep;
    first [ by eapply same_auth_preserves; [apply same_auth_read|]
          | by eapply same_auth_preserves; [apply same_auth_event|]
          | by eapply same_auth_preserves; [apply same_auth_write|]
          | by eapply same_auth_preserves; [apply same_auth_end|]
          | by apply auth_call | by apply auth_atomic
          | by eapply same_auth_preserves; [|exact Ha]; split
          | idtac ].
  - apply auth_dispatch. by eapply same_auth_preserves; [|exact Ha]; split.
  - eapply same_auth_preserves; [apply same_auth_loop_answer|].
    eapply same_auth_preserves; [|exact Ha]. split; cbn; try done.
    intros t. apply list_elem_of_delete_inv.
Qed.
Lemma auth_reachable c : reachable c → conn_auth c.
Proof.
  assert (conn_auth Connection_init) as Ha.
  { split; [done|by intros id p ?%elem_of_nil| |by intros X e ?%elem_of_nil].
    split; [intros s; cbn; set_solver|..]; intros s r Hl; cbn in Hl; by rewrite lookup_empty in Hl. }
  unfold reachable. generalize dependent Connection_init. induction 2; eauto using auth_step.
Qed.

(** ** Flow: requests admitted, in flight and answered *)
Definition pending c : list Z := (in_id <$> cn_requests c) ++ (cn_tasks c).*1.
(** [extra] is the request the loop is handling. *)
Record flow_at c (extra : list Z) : Prop := {
  fl_active : cn_loop c = LoopRunning → cn_active c = list_to_set (pending c ++ extra);
  fl_nodup : cn_loop c = LoopRunning → NoDup (pending c ++ extra);
  fl_admitted : cn_loop c = LoopRunning → cn_admitted c ≡ₚ cn_answered c ++ pending c ++ extra;
  fl_requests : len (cn_requests c) <= cfg_request_queue_capacity config;
  fl_tasks : len (cn_tasks c) <= cfg_max_in_flight_requests config;
  fl_responses : len (cn_responses c) <= cfg_response_queue_capacity config;
  fl_ended f : cn_loop c = LoopEnded f → cn_tasks c = [];
}.
Definition conn_flow c : Prop := flow_at c [].
Lemma flow_send c extra env n c' r :
  send_response c env n = (c', r) → flow_at c extra → flow_at c' extra.
Proof.
  unfold send_response. destruct (cn_writer c); [|by intros [= <- _]].
  destruct (_ <=? _) eqn:Hle; intros [= <- _]; [done|]. bool_simp. intros []. split; try done.
  cbn. rewrite len_app. unfold len in *. cbn in *. lia.
Qed.
Lemma flow_reader c extra r : flow_at c extra → flow_at (set_reader c r) extra.
Proof. by intros []. Qed.
Lemma flow_end c extra f : 0 <= cfg_max_in_flight_requests config →
  flow_at c extra → conn_flow (end_loop c f).
Proof. intros Hc []. by split. Qed.
Lemma flow_reader_answer c env next : conn_flow c → conn_flow (reader_answer c env next).
Proof.
  intros Hf. unfold reader_answer. destruct (send_response _ _ _) as [c' [[]|e]] eqn:H;
    apply flow_reader; by eapply flow_send.
Qed.
Lemma flow_admit c request length :
  env_request_id request ∉ cn_active c →
  len (cn_requests c) < cfg_request_queue_capacity config → conn_flow c →
  conn_flow (set_requests (set_active c ({[env_request_id request]} ∪ cn_active c))
    (cn_requests c ++ [mkInboundRequest request length]) (cn_admitted c ++ [env_request_id request])).
Proof.
  intros Hnew Hcap [Ha Hn Hp Hr Ht Hs He]. rewrite ?app_nil_r in *.
  split; cbn; rewrite ?app_nil_r; try done.
  - intros Hloop. unfold pending. cbn. rewrite Ha by done. unfold pending.
    rewrite fmap_app, !list_to_set_app_L. cbn. set_solver.
  - intros Hloop. specialize (Hn Hloop). specialize (Ha Hloop). unfold pending in *. cbn.
    rewrite fmap_app. cbn. rewrite <- app_assoc. cbn. rewrite <- Permutation_middle.
    apply NoDup_cons. split; [|done]. intros Hin. apply Hnew. rewrite Ha.
    by apply elem_of_list_to_set.
  - intros Hloop. rewrite (Hp Hloop). unfold pending. cbn. rewrite fmap_app. cbn.
    rewrite <- !app_assoc. do 2 f_equiv. by rewrite (Permutation_app_comm _ [_]).
  - rewrite len_app. unfold len in *. cbn in *. lia.
Qed.
Lemma flow_read c frame : conn_flow c → conn_flow (read_request c frame).
Proof.
  intros Hf. unfold read_request. destruct frame as [|m|length decoded]; [by apply flow_reader..|].
  destruct (_ <? _); [by apply flow_reader|]. destruct decoded as [request|m]; [|by apply flow_reader].
  destruct (_ =? _); [by apply flow_reader_answer|].
  case_bool_decide as Hact; [by apply flow_reader_answer|].
  destruct (cn_loop c) eqn:Hloop.
  - destruct (_ <=? _) eqn:Hle; [by apply flow_reader_answer|]. bool_simp.
    apply flow_reader. by apply flow_admit.
  - apply flow_reader. destruct Hf. split; cbn; try done; rewrite Hloop; done.
Qed.
Lemma flow_loop_answer c id env n : 0 <= cfg_max_in_flight_requests config →
  flow_at c [id] → conn_flow (loop_answer c id env n).
Proof.
  intros Hc Hf. unfold loop_answer.
  assert (flow_at (answered (remove_active c id) id) []) as Hf'.
  { destruct Hf as [Ha Hn Hp Hr Ht Hs He]. split; cbn; try done; unfold pending in *; cbn;
      rewrite ?app_nil_r.
    - intros Hloop. rewrite (Ha Hloop). specialize (Hn Hloop).
      apply NoDup_app in Hn as (_ & Hnot & _). rewrite list_to_set_app_L. cbn.
      apply set_eq. intros x. rewrite elem_of_difference, elem_of_union, !elem_of_list_to_set.
      set_solver.
    - intros Hloop. by apply NoDup_app in Hn as (? & _ & _).
    - intros Hloop. rewrite (Hp Hloop). solve_Permutation. }
  destruct (send_response _ _ _) as [c' [[]|e]] eqn:H; eapply flow_send in H; try done.
  by eapply flow_end.
Qed.

Lemma flow_pop c request rest :
  cn_requests c = request :: rest → conn_flow c →
  flow_at (set_requests c rest (cn_admitted c)) [in_id request].
Proof.
  intros Hreq [Ha Hn Hp Hr Ht Hs He]. rewrite ?app_nil_r in *. unfold pending in *.
  rewrite Hreq in *. cbn in *.
  split; cbn; try done; unfold pending; cbn.
  - intros Hloop. rewrite (Ha Hloop), !list_to_set_app_L. cbn. set_solver.
  - intros Hloop. specialize (Hn Hloop). by rewrite (Permutation_app_comm _ [_]).
  - intros Hloop. rewrite (Hp Hloop). solve_Permutation.
  - unfold len in *. cbn in *. lia.
Qed.
Lemma flow_unjoin c n id (p : prog Envelope) :
  cn_tasks c !! n = Some (id, p) → conn_flow c → flow_at (set_tasks c (delete n (cn_tasks c))) [id].
Proof.
  intros Hn0 [Ha Hn Hp Hr Ht Hs He]. rewrite ?app_nil_r in *. unfold pending in *.
  pose proof (delete_Permutation _ _ _ Hn0) as Hperm.
  assert (pending c ≡ₚ pending (set_tasks c (delete n (cn_tasks c))) ++ [id]) as Hpend.
  { unfold pending. cbn. rewrite Hperm at 1. cbn. solve_Permutation. }
  split; cbn; try done.
  - intros Hloop. rewrite (Ha Hloop). apply set_eq. intros x.
    rewrite !elem_of_list_to_set. fold (pending c). by rewrite Hpend.
  - intros Hloop. specialize (Hn Hloop). fold (pending c) in Hn. by rewrite <- Hpend.
  - intros Hloop. rewrite (Hp Hloop). fold (pending c). by rewrite Hpend.
  - unfold len in *. rewrite length_delete by (by eexists). lia.
  - intros f Hf. by rewrite (He f Hf).
Qed.
Lemma task_ids (tasks : list (Z * prog Envelope)) n id p p' :
  tasks !! n = Some (id, p) → (<[n := (id, p')]> tasks).*1 = tasks.*1.
Proof.
  intros Hn. rewrite list_fmap_insert. cbn. apply list_insert_id. by rewrite list_lookup_fmap, Hn.
Qed.
Lemma flow_set_task c n id p p' s g k :
  cn_tasks c !! n = Some (id, p) → conn_flow c →
  conn_flow (set_task_state c (<[n := (id, p')]> (cn_tasks c)) s g k).
Proof.
  intros Hn0 [Ha Hn Hp Hr Ht Hs He]. rewrite ?app_nil_r in *.
  pose proof (task_ids _ _ _ _ p' Hn0) as Heq.
  split; cbn; rewrite ?app_nil_r; try done; unfold pending in *; cbn; rewrite ?Heq; try done.
  - unfold len in *. by rewrite length_insert.
  - intros f Hf. by rewrite (He f Hf).
Qed.
Lemma flow_spawn c id p :
  flow_at c [id] → cn_loop c = LoopRunning → len (cn_tasks c) < cfg_max_in_flight_requests config →
  conn_flow (set_tasks c (cn_tasks c ++ [(id, p)])).
Proof.
  intros [Ha Hn Hp Hr Ht Hs He] Hrun Hcap.
  assert (pending (set_tasks c (cn_tasks c ++ [(id, p)])) = pending c ++ [id]) as Heq.
  { unfold pending. cbn. rewrite fmap_app. cbn. by rewrite app_assoc. }
  split; rewrite ?app_nil_r, ?Heq; try done.
  - cbn. rewrite len_app. unfold len in *. cbn in *. lia.
  - cbn. intros f Hf. congruence.
Qed.
Lemma flow_remove_end c extra id f : 0 <= cfg_max_in_flight_requests config →
  flow_at c extra → conn_flow (end_loop (remove_active c id) f).
Proof. intros Hc []. by split. Qed.
Lemma flow_negotiated c extra l h : flow_at c extra → flow_at (set_negotiated c l h) extra.
Proof. by intros []. Qed.
Lemma flow_dispatch c request : 0 <= cfg_max_in_flight_requests config →
  cn_loop c = LoopRunning → flow_at c [in_id request] → conn_flow (dispatch_request c request).
Proof.
  intros Hc Hrun Hf. unfold dispatch_request. destruct (cn_limits c) as [l|] eqn:Hl.
  - destruct (_ <? _); [by eapply flow_remove_end|].
    destruct (is_handshake _); [by apply flow_loop_answer|].
    destruct (_ <=? _) eqn:Hle; [by apply flow_loop_answer|]. bool_simp. by apply flow_spawn.
  - destruct (env_payload _) as [p|]; [|by apply flow_loop_answer].
    destruct p; try (by apply flow_loop_answer).
    destruct (validate_handshake _ _ _) as [[response l]|e] eqn:Hv.
    + by apply flow_loop_answer, flow_negotiated.
    + assert (conn_flow (end_loop (remove_active c (in_id request)) None)) as Hf0
        by (by eapply flow_remove_end).
      destruct (send_response _ _ _) as [c' [[]|e']] eqn:H; unfold send_response in H; cbn in H;
        (destruct (cn_writer c); [destruct (_ <=? _) eqn:Hle|]);
        inversion H; subst; bool_simp; (split; cbn; try done; destruct Hf; try done).
      rewrite len_app. unfold len in *. cbn in *. lia.
Qed.
Lemma flow_event c event : 0 <= cfg_max_in_flight_requests config →
  conn_flow c → conn_flow (dispatch_event c event).
Proof.
  intros Hc Hf. unfold dispatch_event. destruct event as [ev|e];
    [destruct (event_is_visible_to_owner ev); [|done]|];
    (destruct (send_response _ _ _) as [c' [[]|e']] eqn:H; eapply flow_send in H; try done;
     by eapply flow_end).
Qed.
Lemma flow_write c response rest outcome :
  cn_responses c = response :: rest → conn_flow c → conn_flow (write_response c response rest outcome).
Proof.
  intros Hr []. unfold write_response. rewrite Hr in *.
  repeat case_match; (split; cbn; try done; unfold len in *; cbn in *; lia).
Qed.
Record config_ok : Prop := {
  cok_requests : 0 <= cfg_request_queue_capacity config;
  cok_responses : 0 <= cfg_response_queue_capacity config;
  cok_in_flight : 0 <= cfg_max_in_flight_requests config;
}.
Lemma flow_step c c' : config_ok → conn_step c c' → conn_flow c → conn_flow c'.
Proof.
  intros [? ? Hc] Hstep Hf. destruct Hstep;
    first [ by apply flow_read | by apply flow_reader | by eapply flow_end | by apply flow_event
          | by eapply flow_set_task | by apply flow_write | idtac ].
  - apply flow_dispatch; [done|done|]. by apply flow_pop.
  - apply flow_loop_answer; [done|]. by eapply flow_unjoin.
  - by destruct Hf.
Qed.
Lemma flow_reachable c : config_ok → reachable c → conn_flow c.
Proof.
  intros Hok. assert (conn_flow Connection_init) as Hi.
  { destruct Hok. split; cbn; try done. intros _. constructor. }
  unfold reachable. generalize dependent Connection_init. induction 2; eauto using flow_step.
Qed.

(** ** Output: what the peer is sent *)
Definition delivered c : list Envelope := cn_written c ++ (out_envelope <$> cn_responses c).
Definition out_ok (env : Envelope) : Prop :=
  env_request_id env = 0 →
  (∃ e, env = error_envelope 0 e) ∨
  ∃ ev, ev_owner_id ev = owner
        ∧ env = mkEnvelope 0 (Some (PRuntimeEvent (RuntimeEvent_to_proto ev))).
(** [unsent] is the request whose answer is about to be queued. *)
Record out_at c (unsent : list Z) : Prop := {
  co_nonzero : 0 ∉ pending c;
  co_visible : Forall out_ok (delivered c);
  co_sizes : Forall (λ env, encoded_len env <= MAX_FRAME_BYTES) (cn_written c);
  co_answers : cn_loop c = LoopRunning → cn_writer c = WriterLoop →
    cn_answered c ⊆+ (env_request_id <$> delivered c) ++ unsent;
}.
Definition conn_out c : Prop := out_at c [].
Lemma out_ok_error id e : out_ok (error_envelope id e).
Proof. intros Hid. cbn in Hid. subst id. left. by exists e. Qed.
Lemma out_ok_nonzero env : env_request_id env ≠ 0 → out_ok env.
Proof. by intros ? ?. Qed.
Lemma out_send c env n c' unsent : out_ok env →
  send_response c env n = (c', Ok tt) → out_at c unsent →
  unsent = [] ∨ unsent = [env_request_id env] → conn_out c'.
Proof.
  unfold send_response. intros Henv Hsend [Hn Hv Hz Ha] Hun.
  destruct (cn_writer c) eqn:Hw; [|done]. destruct (_ <=? _); [done|]. injection Hsend as <-.
  assert (delivered (set_responses c (cn_responses c ++ [mkOutboundEnvelope env n]))
          = delivered c ++ [env]) as Hd.
  { unfold delivered. cbn. by rewrite fmap_app, app_assoc. }
  split; rewrite ?Hd; try done.
  - rewrite Forall_app, Forall_singleton. done.
  - intros Hloop _. rewrite app_nil_r, fmap_app. etrans; [by apply Ha|]. cbn.
    destruct Hun as [-> | ->]; [|done]. rewrite app_nil_r. by apply submseteq_inserts_r.
Qed.
Lemma send_failed c env n c' e : send_response c env n = (c', Err e) → c' = c.
Proof. unfold send_response. repeat case_match; congruence. Qed.
Lemma out_reader c extra r : out_at c extra → out_at (set_reader c r) extra.
Proof. by intros []. Qed.
Lemma out_end c extra f : out_at c extra → conn_out (end_loop c f).
Proof.
  intros [Hn Hv Hz Ha]. split; cbn; try done. unfold pending in *. cbn. rewrite app_nil_r.
  set_solver.
Qed.
Lemma out_reader_answer c id e next :
  conn_out c → conn_out (reader_answer c (error_envelope id e) next).
Proof.
  intros Ho. unfold reader_answer. destruct (send_response _ _ _) as [c' [[]|e']] eqn:H;
    apply out_reader.
  - eapply out_send; [apply out_ok_error|done|done|by left].
  - by rewrite (send_failed _ _ _ _ _ H).
Qed.
Lemma out_loop_answer c id env n : env_request_id env = id → out_ok env →
  conn_out c → conn_out (loop_answer c id env n).
Proof.
  intros Hid Henv [Hn Hv Hz Ha]. unfold loop_answer.
  assert (out_at (answered (remove_active c id) id) [id]) as Ho.
  { split; cbn; try done. intros Hloop Hw. specialize (Ha Hloop Hw). rewrite app_nil_r in Ha.
    by apply submseteq_app. }
  destruct (send_response _ _ _) as [c' [[]|e']] eqn:H.
  - eapply out_send; [done|done|done|]. right. by rewrite Hid.
  - rewrite (send_failed _ _ _ _ _ H). by eapply out_end.
Qed.
Lemma out_read c frame : conn_out c → conn_out (read_request c frame).
Proof.
  intros Ho. unfold read_request. destruct frame as [|m|length decoded]; [by apply out_reader..|].
  destruct (_ <? _); [by apply out_reader|]. destruct decoded as [request|m]; [|by apply out_reader].
  destruct (_ =? _) eqn:Hid; [by apply out_reader_answer|]. bool_simp.
  case_bool_decide as Hact; [by apply out_reader_answer|].
  destruct (cn_loop c) eqn:Hloop.
  - destruct (_ <=? _) eqn:Hle; [by apply out_reader_answer|].
    apply out_reader. destruct Ho as [Hn Hv Hz Ha]. split; cbn; try done.
    unfold pending in *. cbn. rewrite fmap_app. cbn. unfold in_id at 2. cbn. set_solver.
  - apply out_reader. by destruct Ho.
Qed.
Lemma out_dispatch c request : in_id request ≠ 0 → conn_out c → conn_out (dispatch_request c request).
Proof.
  intros Hid Ho. unfold dispatch_request. destruct (cn_limits c) as [l|] eqn:Hl.
  - destruct (_ <? _). { eapply out_end. by destruct Ho. }
    destruct (is_handshake _); [apply out_loop_answer; [done|apply out_ok_error|done]|].
    destruct (_ <=? _) eqn:Hle; [apply out_loop_answer; [done|apply out_ok_error|done]|].
    destruct Ho as [Hn Hv Hz Ha]. split; cbn; try done. unfold pending in *. cbn.
    rewrite fmap_app. cbn. set_solver.
  - assert (∀ e, conn_out (loop_answer c (in_id request) (error_envelope (in_id request) e)
                             MAX_FRAME_BYTES)) as Herr.
    { intros e. apply out_loop_answer; [done|apply out_ok_error|done]. }
    destruct (env_payload _) as [p|]; [|apply Herr]. destruct p; try apply Herr.
    destruct (validate_handshake _ _ _) as [[response l]|e] eqn:Hv.
    + apply out_loop_answer; [done|by apply out_ok_nonzero|by destruct Ho].
    + specialize (Herr e). unfold loop_answer in Herr.
      destruct (send_response _ _ _) as [c' [[]|e']]; [|done]. by eapply out_end.
Qed.
Lemma out_event c event : conn_out c → conn_out (dispatch_event c event).
Proof.
  intros Ho. unfold dispatch_event.
  assert (∀ env, out_ok env → conn_out
    (match send_response c env (negotiated_frame_limit (cn_limits c)) with
     | (c', Ok _) => c' | (c', Err e) => end_loop c' (Some e) end)) as Hans.
  { intros env Henv. destruct (send_response _ _ _) as [c' [[]|e']] eqn:H.
    - eapply out_send; [done|done|done|by left].
    - rewrite (send_failed _ _ _ _ _ H). by eapply out_end. }
  destruct event as [ev|e]; [|apply Hans, out_ok_error].
  unfold event_is_visible_to_owner. case_bool_decide; [|done]. apply Hans. right. by exists ev.
Qed.
Lemma out_write c response rest outcome : cn_writer c = WriterLoop →
  cn_responses c = response :: rest → conn_out c → conn_out (write_response c response rest outcome).
Proof.
  intros Hw Hr [Hn Hv Hz Ha]. unfold delivered in *. rewrite Hr in *. cbn in Hv.
  assert (Forall out_ok (cn_written c ++ (out_envelope <$> rest))) as Hv'.
  { apply Forall_app in Hv as [? Hv]. apply Forall_cons in Hv as [? ?]. by apply Forall_app. }
  unfold write_response. destruct (_ || _) eqn:Hlarge; [by split|]. bool_simp.
  destruct outcome as [u|e]; [|by split].
  split; cbn; unfold delivered; cbn; rewrite <- ?app_assoc; try done.
  - rewrite Forall_app, Forall_singleton. split; [done|]. lia.
  - intros Hloop _. by apply Ha.
Qed.
Lemma out_set_task c n id p p' s g k :
  cn_tasks c !! n = Some (id, p) → conn_out c →
  conn_out (set_task_state c (<[n := (id, p')]> (cn_tasks c)) s g k).
Proof.
  intros Hn0 [Hn Hv Hz Ha]. split; try done. unfold pending in *. cbn.
  by rewrite (task_ids _ _ _ _ p' Hn0).
Qed.
Lemma out_step c c' : conn_auth c → conn_step c c' → conn_out c → conn_out c'.
Proof.
  intros Hauth Hstep Ho. destruct Hstep;
    first [ by apply out_read | by apply out_reader | by eapply out_end | by apply out_event
          | by eapply out_set_task | by apply out_write | idtac ].
  - destruct Ho as [Hn Hv Hz Ha]. unfold pending in Hn. rewrite H0 in Hn. cbn in Hn.
    apply out_dispatch; [set_solver|]. split; try done. unfold pending. cbn. set_solver.
  - assert ((id, Done env) ∈ cn_tasks c) as Hin by (by eapply list_elem_of_lookup_2).
    assert (env_request_id env = id) as Hid.
    { by destruct (ca_tasks c Hauth _ _ Hin) as (l & _ & Hc). }
    assert (id ≠ 0) as Hnz.
    { intros ->. apply (co_nonzero _ _ Ho). unfold pending. apply elem_of_app. right.
      by apply (list_elem_of_fmap_2' fst) with (x := (0, Done env)). }
    apply out_loop_answer; [done|apply out_ok_nonzero; congruence|].
    destruct Ho as [Hn Hv Hz Ha]. split; try done. unfold pending in *. cbn.
    intros [Hr|(t & Hz0 & Ht%list_elem_of_delete_inv)%list_elem_of_fmap]%elem_of_app; apply Hn.
    + apply elem_of_app. by left.
    + apply elem_of_app. right. rewrite Hz0. by apply list_elem_of_fmap_2.
  - by destruct Ho.
Qed.
Lemma out_reachable c : reachable c → conn_out c.
Proof.
  intros Hr. assert (conn_auth c ∧ conn_out c) as [_ ?]; [|done]. revert Hr. unfold reachable.
  assert (conn_auth Connection_init ∧ conn_out Connection_init) as Hi.
  { split; [by apply auth_reachable, rtc_refl|].
    split; [by apply not_elem_of_nil|apply Forall_nil; done|apply Forall_nil; done|done]. }
  generalize dependent Connection_init. induction 2; [done|].
  destruct Hi. eauto using auth_step, out_step.
Qed.

(** ** The reader waits only for a handshake that the loop still has to answer *)
Definition reader_waits c : Prop :=
  cn_reader c = ReaderWaitsLimit → cn_limits c = None → cn_loop c = LoopRunning →
  ∃ r, r ∈ cn_requests c ∧ is_handshake (env_payload (in_envelope r)) = true.
Record keeps_input c c' : Prop := {
  ki_reader : cn_reader c' = cn_reader c;
  ki_requests : cn_requests c' = cn_requests c;
  ki_limits : cn_limits c' = None → cn_limits c = None;
  ki_loop : cn_loop c' = LoopRunning → cn_loop c = LoopRunning;
}.
Lemma keeps_input_waits c c' : keeps_input c c' → reader_waits c → reader_waits c'.
Proof. intros [Hr Hq Hl Ho] Hw. unfold reader_waits. rewrite Hr, Hq. auto. Qed.
Lemma keeps_send c env n c' r : send_response c env n = (c', r) → keeps_input c c'.
Proof. unfold send_response. repeat case_match; intros [= <- _]; by split. Qed.
Lemma keeps_loop_answer c id env n : keeps_input c (loop_answer c id env n).
Proof.
  unfold loop_answer. destruct (send_response _ _ _) as [c' [[]|e]] eqn:H;
    apply keeps_send in H as []; by split.
Qed.
Lemma keeps_event c event : keeps_input c (dispatch_event c event).
Proof.
  unfold dispatch_event. destruct event as [ev|e]; [destruct (event_is_visible_to_owner ev); [|done]|];
    (destruct (send_response _ _ _) as [c' [[]|e']] eqn:H; apply keeps_send in H as []; by split).
Qed.
Lemma keeps_dispatch c request :
  keeps_input c (dispatch_request c request) ∧
  (is_handshake (env_payload (in_envelope request)) = true →
   cn_limits (dispatch_request c request) = None → cn_loop (dispatch_request c request) ≠ LoopRunning).
Proof.
  unfold dispatch_request. destruct (cn_limits c) as [l|] eqn:Hl.
  - assert (∀ id env n, cn_limits (loop_answer c id env n) = Some l) as Hans.
    { intros id env n. by rewrite (sa_limits _ _ (same_auth_loop_answer c id env n)). }
    repeat case_match; (split; [try apply keeps_loop_answer; by split|]);
      rewrite ?Hans; cbn; congruence.
  - destruct (env_payload _) as [p|]; [|split; [apply keeps_loop_answer|done]].
    destruct p; try (split; [apply keeps_loop_answer|done]).
    destruct (validate_handshake _ _ _) as [[response l]|e].
    + split.
      * destruct (keeps_loop_answer (set_negotiated c l m) (in_id request)
          (mkEnvelope (in_id request) (Some (HandshakeResponse response)))
          (lim_max_frame_bytes l)) as [Hr Hq Hn Ho]. split; [by rewrite Hr|by rewrite Hq|done|auto].
      * by rewrite (sa_limits _ _ (same_auth_loop_answer _ _ _ _)).
    + destruct (send_response _ _ _) as [c' [[]|e']] eqn:H; apply keeps_send in H as []; by split.
Qed.
Lemma waits_read c frame : cn_reader c = ReaderLoop → reader_waits (read_request c frame).
Proof.
  intros Hc. assert (∀ c' r, r ≠ ReaderWaitsLimit → reader_waits (set_reader c' r)) as Hset.
  { by intros c' r ? ?. }
  assert (∀ env next, next ≠ ReaderWaitsLimit → reader_waits (reader_answer c env next)) as Hans.
  { intros env next ?. unfold reader_answer. destruct (send_response _ _ _) as [c' [[]|e]]; by apply Hset. }
  unfold read_request. repeat case_match; try first [by apply Hset | by apply Hans].
  intros _ _ _. eexists. split; [by apply elem_of_app; right; apply list_elem_of_singleton|done].
Qed.
Lemma waits_step c c' : conn_step c c' → reader_waits c → reader_waits c'.
Proof.
  intros Hstep Hw. destruct Hstep;
    first [ by apply waits_read | by eapply keeps_input_waits; [apply keeps_event|]
          | by eapply keeps_input_waits; [|exact Hw] | by intros ? ? | idtac ].
  - destruct (keeps_dispatch (set_requests c rest (cn_admitted c)) request) as [[Hr Hq Hl Ho] Hh].
    intros H1 H2 H3. rewrite Hr in H1. rewrite Hq. destruct (Hw H1 (Hl H2) (Ho H3)) as (r & Hin & Hp).
    rewrite H0 in Hin. apply elem_of_cons in Hin as [-> |Hin]; [|by exists r].
    by destruct (Hh Hp H2).
  - eapply keeps_input_waits; [apply keeps_loop_answer|]. done.
  - eapply keeps_input_waits; [|exact Hw]. unfold write_response. repeat case_match; by split.
Qed.
Lemma waits_reachable c : reachable c → reader_waits c.
Proof.
  assert (reader_waits Connection_init) as Hi by done.
  unfold reachable. generalize dependent Connection_init. induction 2; eauto using waits_step.
Qed.
End connection.

(** ** A run: a handshake, then a request served by the runtime *)
Definition demo_encoded_len (env : Envelope) : Z := 100.
Definition demo_token : StartupToken := mkStartupToken [1; 2; 3].
Definition demo_owner : OwnerId := mkOwnerId "owner".
Definition demo_handshake : v1_HandshakeRequest :=
  mk_v1_HandshakeRequest [1; 2; 3] 1 3 ["can.classic/v1"] 65536 1024 1024 0 3.
Definition demo_frame (id : Z) (p : Payload) : FrameIn := FrameData 80 (Ok (mkEnvelope id (Some p))).
Definition demo_read (id : Z) (p : Payload) (c : Connection) : Connection :=
  read_request BrokerConfig_default c (demo_frame id p).
Definition demo_dispatch (id : Z) (p : Payload) (c : Connection) : Connection :=
  dispatch_request demo_encoded_len BrokerConfig_default demo_token demo_owner
    (set_requests c [] (cn_admitted c)) (mkInboundRequest (mkEnvelope id (Some p)) 80).
Definition demo_negotiated : Connection :=
  demo_dispatch 1 (HandshakeRequest demo_handshake)
    (demo_read 1 (HandshakeRequest demo_handshake) Connection_init).
Definition demo_admitted : Connection :=
  demo_read 2 EnumerateSerialRequest (set_reader demo_negotiated ReaderLoop).
Definition demo_spawned : Connection := demo_dispatch 2 EnumerateSerialRequest demo_admitted.
Definition demo_enumerated : Connection :=
  set_task_state demo_spawned
    [(2, Done (mkEnvelope 2 (Some (EnumerateSerialResponse []))))]
    (cn_sessions demo_spawned) [] [existT _ REnumerateSerial].
Lemma demo_negotiated_reachable :
  reachable demo_encoded_len BrokerConfig_default demo_token demo_owner demo_negotiated.
Proof.
  eapply rtc_l; [by apply (StepFrame _ _ _ _ _ (demo_frame 1 (HandshakeRequest demo_handshake)))|].
  apply rtc_once. unfold demo_negotiated, demo_dispatch. by apply StepRequest.
Qed.
Lemma demo_spawned_reachable :
  reachable demo_encoded_len BrokerConfig_default demo_token demo_owner demo_spawned.
Proof.
  unfold reachable. etrans; [apply demo_negotiated_reachable|].
  eapply rtc_l; [by apply StepReaderWakes|].
  eapply rtc_l; [by apply (StepFrame _ _ _ _ _ (demo_frame 2 EnumerateSerialRequest))|].
  apply rtc_once. unfold demo_spawned, demo_dispatch. by apply StepRequest.
Qed.
Lemma demo_enumerated_reachable :
  reachable demo_encoded_len BrokerConfig_default demo_token demo_owner demo_enumerated.
Proof.
  eapply rtc_r; [apply demo_spawned_reachable|].
  epose proof (StepCall demo_encoded_len BrokerConfig_default demo_token demo_owner demo_spawned 0 2
    _ REnumerateSerial _ (Ok []) eq_refl) as Hcall. exact Hcall.
Qed.

(** ** Main theorems *)
(** C2: nobody uses the runtime through a connection without the startup token: whatever the
    interleaving of reader, loop, writer and tasks, every call ever made of the runtime was
    made after a handshake that presented the token and that [validate_handshake] accepted;
    an open is made for the connection's own owner; the call is one the negotiated protocol
    minor offers; its arguments are well formed and within the negotiated limits: what is
    written (serial, CAN, GPIO, USB out) against the write limit, what is asked for (serial,
    USB in) against the read limit, a CAN receive against the read limit and, as the largest
    envelope its frames can make under the session's own wire profile, against the frame limit,
    a GPIO edge against the frame limit; and a call on a CAN, USB, GPIO or camera session
    presents a session and lease that the runtime granted to this very connection. *)
Theorem broker_calls_authorised encoded_len config startup_token owner c X (e : RtE X) :
  reachable encoded_len config startup_token owner c → existT X e ∈ cn_calls c →
  ∃ handshake response limits,
    cn_handshake c = Some handshake ∧ cn_limits c = Some limits
    ∧ validate_handshake encoded_len startup_token handshake = Ok (response, limits)
    ∧ hsq_startup_token handshake = token_bytes startup_token
    ∧ call_ok owner limits (cn_grants c) e.
Proof.
  intros Hr Hin. destruct (auth_reachable _ _ _ _ _ Hr) as [Al At As Ac].
  destruct (Ac X e Hin) as (l & Hl & Hc). destruct (Al l Hl) as (h & response & Hh & Hv).
  exists h, response, l. split_and!; try done. by eapply validate_handshake_token.
Qed.
Lemma broker_calls_authorised_witness :
  ∃ handshake response limits,
    cn_handshake demo_enumerated = Some handshake ∧ cn_limits demo_enumerated = Some limits
    ∧ validate_handshake demo_encoded_len demo_token handshake = Ok (response, limits)
    ∧ hsq_startup_token handshake = token_bytes demo_token
    ∧ call_ok demo_owner limits (cn_grants demo_enumerated) REnumerateSerial.
Proof.
  apply (broker_calls_authorised demo_encoded_len BrokerConfig_default demo_token demo_owner
           demo_enumerated _ REnumerateSerial); [apply demo_enumerated_reachable|].
  apply elem_of_cons. by left.
Defined.

(** C5: requests are neither lost nor answered twice: while the loop runs, the identifiers in
    flight are exactly those queued or being served, each once, every admitted request is
    either answered or in flight, and, while the writer runs, every answer recorded is an
    envelope with that identifier that was written or waits to be. *)
Theorem broker_requests_answered encoded_len config startup_token owner c :
  config_ok config → reachable encoded_len config startup_token owner c →
  cn_loop c = LoopRunning →
  cn_active c = list_to_set (pending c) ∧ NoDup (pending c)
  ∧ cn_admitted c ≡ₚ cn_answered c ++ pending c
  ∧ (cn_writer c = WriterLoop → cn_answered c ⊆+ (env_request_id <$> delivered c)).
Proof.
  intros Hok Hr Hrun. destruct (flow_reachable _ _ _ _ _ Hok Hr) as [Ha Hn Hp _ _ _ _].
  destruct (out_reachable _ _ _ _ _ Hr) as [_ _ _ Hd]. rewrite ?app_nil_r in *.
  split_and!; [auto..|]. intros Hw. by apply Hd.
Qed.
Lemma broker_requests_answered_witness :
  pending demo_enumerated = [2] ∧
  cn_active demo_enumerated = list_to_set (pending demo_enumerated).
Proof.
  split; [reflexivity|].
  apply (broker_requests_answered demo_encoded_len BrokerConfig_default demo_token demo_owner);
    [by split|apply demo_enumerated_reachable|reflexivity].
Defined.

(** A connection holds bounded resources: the request and response queues and the tasks
    in flight never exceed the configured capacities, no task survives the loop, and nothing
    larger than the protocol's largest frame is written. *)
Theorem broker_bounded encoded_len config startup_token owner c :
  config_ok config → reachable encoded_len config startup_token owner c →
  len (cn_requests c) <= cfg_request_queue_capacity config
  ∧ len (cn_responses c) <= cfg_response_queue_capacity config
  ∧ len (cn_tasks c) <= cfg_max_in_flight_requests config
  ∧ (∀ failure, cn_loop c = LoopEnded failure → cn_tasks c = [])
  ∧ Forall (λ env, encoded_len env <= MAX_FRAME_BYTES) (cn_written c).
Proof.
  intros Hok Hr. destruct (flow_reachable _ _ _ _ _ Hok Hr) as [_ _ _ Hq Ht Hs He].
  by destruct (out_reachable _ _ _ _ _ Hr).
Qed.
Lemma broker_bounded_witness : len (cn_tasks demo_spawned) <= 32.
Proof.
  apply (broker_bounded demo_encoded_len BrokerConfig_default demo_token demo_owner);
    [by split|apply demo_spawned_reachable].
Defined.

(** What the peer gets unasked concerns it: an envelope without a request identifier that
    was written or queued carries either an error or an event of the connection's own
    owner. *)
Theorem broker_events_private encoded_len config startup_token owner c env :
  reachable encoded_len config startup_token owner c → env ∈ delivered c → env_request_id env = 0 →
  (∃ e, env = error_envelope 0 e) ∨
  ∃ ev, ev_owner_id ev = owner
        ∧ env = mkEnvelope 0 (Some (PRuntimeEvent (RuntimeEvent_to_proto ev))).
Proof.
  intros Hr Hin. destruct (out_reachable _ _ _ _ _ Hr) as [_ Hv _ _].
  rewrite Forall_forall in Hv. by apply Hv.
Qed.

Definition demo_event : RuntimeEvent :=
  mkRuntimeEvent 1 SessionOpened (mkResourceId "r") (mkSessionId "s") demo_owner 0.
Lemma broker_events_private_witness :
  ∃ env, env ∈ delivered (dispatch_event BrokerConfig_default demo_owner demo_negotiated (Ok demo_event))
    ∧ ((∃ e, env = error_envelope 0 e) ∨
       ∃ ev, ev_owner_id ev = demo_owner
             ∧ env = mkEnvelope 0 (Some (PRuntimeEvent (RuntimeEvent_to_proto ev)))).
Proof.
  exists (mkEnvelope 0 (Some (PRuntimeEvent (RuntimeEvent_to_proto demo_event)))).
  assert (mkEnvelope 0 (Some (PRuntimeEvent (RuntimeEvent_to_proto demo_event))) ∈
    delivered (dispatch_event BrokerConfig_default demo_owner demo_negotiated (Ok demo_event))) as Hin.
  { apply (list_elem_of_lookup_2 _ 1). reflexivity. }
  split; [exact Hin|].
  apply (broker_events_private demo_encoded_len BrokerConfig_default demo_token demo_owner _ _)
    with (2 := Hin); [|reflexivity].
  eapply rtc_r; [apply demo_negotiated_reachable|]. apply StepEvent; [reflexivity|discriminate].
Defined.

(** The reader never waits in vain: when it has stopped reading until limits are
    negotiated, and the loop runs, a handshake is still queued for the loop. *)
Theorem broker_reader_progress encoded_len config startup_token owner c :
  reachable encoded_len config startup_token owner c →
  cn_reader c = ReaderWaitsLimit → cn_limits c = None → cn_loop c = LoopRunning →
  ∃ r, r ∈ cn_requests c ∧ is_handshake (env_payload (in_envelope r)) = true.
Proof. intros Hr. by apply (waits_reachable _ _ _ _ _ Hr). Qed.
Lemma broker_reader_progress_witness :
  ∃ r, r ∈ cn_requests (demo_read 1 (HandshakeRequest demo_handshake) Connection_init)
       ∧ is_handshake (env_payload (in_envelope r)) = true.
Proof.
  apply (broker_reader_progress demo_encoded_len BrokerConfig_default demo_token demo_owner);
    [|reflexivity..].
  apply rtc_once.
  apply (StepFrame _ _ _ _ _ (demo_frame 1 (HandshakeRequest demo_handshake))). reflexivity.
Defined.
