(* ===== verification/BrokerLimits.v ===== *)
(** * robot-hal-broker: the handshake and the limits it negotiates

    What [validate_handshake] of connection.rs accepts, and that the byte limits it agrees
    to are mutually consistent: the estimates [read_response_encoded_len] and
    [write_request_encoded_len] bound what protobuf really writes, which is stated here
    from the wire format (base 128 varints, length-delimited fields, defaults omitted). *)

From S2P Require Import Prelude Varint Core Lifecycle SerialRegistry CanTypes WireCore Envelope.
From S2P Require Import BrokerCore BrokerDispatch BrokerConnection.

Lemma shiftr_7 v : Z.shiftr v 7 = v / 128.
Proof. by rewrite Z.shiftr_div_pow2. Qed.
Lemma varint_len_loop_encode n v k :
  varint_len_loop n v k = k + len (varint_encode_loop n v) - 1.
Proof.
  revert v k. induction n as [|n IH]; intros v k; cbn [varint_len_loop varint_encode_loop].
  - unfold len. cbn. lia.
  - rewrite shiftr_7. destruct (Z.leb_spec 128 v), (Z.ltb_spec v 128); try lia.
    + rewrite IH. unfold len. cbn [length]. lia.
    + unfold len. cbn. lia.
Qed.
Lemma prost_varint_len_bytes v : prost_varint_len v = varint_bytes v.
Proof. unfold prost_varint_len, varint_bytes, varint_encode. rewrite varint_len_loop_encode. lia. Qed.
(** Envelope { request_id = 1, serial_read_response = 25 { data = 1 } } *)
Definition read_response_wire_len (request_id data_len : Z) : Z :=
  wire_varint 1 request_id + wire_message 25 (wire_bytes 1 data_len).
(** Envelope { request_id = 1, serial_write_request = 26 { session_id = 1,
    lease = 2 { lease_id = 1, generation = 2, mode = 3 }, data = 3 } } *)
Definition write_request_wire_len (request_id session_len lease_id_len generation mode data_len : Z)
    : Z :=
  wire_varint 1 request_id
  + wire_message 26
      (wire_bytes 1 session_len
       + wire_message 2 (wire_bytes 1 lease_id_len + wire_varint 2 generation + wire_varint 3 mode)
       + wire_bytes 3 data_len).

Lemma length_delimited_is_message field n :
  field ∈ [1; 2; 3; 25; 26] → length_delimited_field_len field n = wire_message field n.
Proof.
  intros Hf. unfold length_delimited_field_len, wire_message, wire_tag. rewrite !prost_varint_len_bytes.
  do 2 f_equal. set_unfold in Hf. by destruct Hf as [-> |[-> |[-> |[-> |[-> |[]]]]]].
Qed.
Lemma envelope_is_message field n : field ∈ [25; 26] →
  envelope_encoded_len field n = 11 + wire_message field n.
Proof.
  intros Hf. unfold envelope_encoded_len, wire_message, wire_tag. rewrite !prost_varint_len_bytes.
  replace (Z.lor (Z.shiftl field 3) 2) with (field * 8 + 2); [lia|].
  set_unfold in Hf. by destruct Hf as [-> |[-> |[]]].
Qed.
Lemma read_response_bound id d n : 0 <= id <= u64_max → 0 <= d <= n →
  read_response_wire_len id d <= read_response_encoded_len n.
Proof.
  intros Hid Hd. unfold read_response_wire_len, read_response_encoded_len.
  rewrite envelope_is_message, length_delimited_is_message by set_solver.
  pose proof (wire_varint_u64 1 id). pose proof (wire_bytes_bound 1 d n Hd).
  pose proof (wire_message_mono 25 (wire_bytes 1 d) (wire_message 1 n)). lia.
Qed.
Lemma write_request_bound id s l g m d n :
  0 <= id <= u64_max → 0 <= s <= RUNTIME_UUID_LEN → 0 <= l <= RUNTIME_UUID_LEN →
  0 <= g <= u64_max → 0 <= m < 128 → 0 <= d <= n →
  write_request_wire_len id s l g m d <= write_request_encoded_len n.
Proof.
  intros Hid Hs Hl Hg Hm Hd. unfold write_request_wire_len, write_request_encoded_len.
  rewrite envelope_is_message by set_solver. rewrite !length_delimited_is_message by set_solver.
  pose proof (wire_varint_u64 1 id). pose proof (wire_varint_u64 2 g).
  pose proof (wire_varint_small 3 m). pose proof (wire_bytes_bound 1 s _ Hs).
  pose proof (wire_bytes_bound 1 l _ Hl). pose proof (wire_bytes_bound 3 d n Hd).
  set (inner := wire_bytes 1 l + wire_varint 2 g + wire_varint 3 m).
  set (bound := wire_message 1 RUNTIME_UUID_LEN + 1 + 10 + 1 + 1).
  pose proof (wire_message_mono 2 inner bound). pose proof (wire_message_nonneg 2 inner).
  pose proof (wire_message_mono 26 (wire_bytes 1 s + wire_message 2 inner + wire_bytes 3 d)
    (wire_message 1 RUNTIME_UUID_LEN + wire_message 2 bound + wire_message 3 n)). lia.
Qed.

(** ** What a handshake must be to be accepted *)
Definition handshake_u32 (h : v1_HandshakeRequest) : Prop :=
  Forall (λ v, 0 <= v <= u32_max)
    [hsq_max_frame_bytes h; hsq_max_read_bytes h; hsq_max_write_bytes h].
(** The limits a peer may ask for, given the length of the answer to its handshake. *)
Definition limits_acceptable (l : NegotiatedLimits) (response_len : Z) : Prop :=
  0 < lim_max_frame_bytes l <= MAX_FRAME_BYTES ∧ 0 < lim_max_read_bytes l ∧ 0 < lim_max_write_bytes l
  ∧ read_response_encoded_len (lim_max_read_bytes l) <= lim_max_frame_bytes l
  ∧ write_request_encoded_len (lim_max_write_bytes l) <= lim_max_frame_bytes l
  ∧ response_len <= lim_max_frame_bytes l.
Definition handshake_response_for (h : v1_HandshakeRequest) (minor : Z) : v1_HandshakeResponse :=
  mk_v1_HandshakeResponse PROTOCOL_MAJOR minor (capabilities_of minor) (hsq_max_frame_bytes h)
    (hsq_max_read_bytes h) (hsq_max_write_bytes h) PROTOCOL_MINOR_MINIMUM PROTOCOL_MINOR_MAXIMUM.
Definition handshake_limits (h : v1_HandshakeRequest) (minor : Z) : NegotiatedLimits :=
  mkNegotiatedLimits minor (hsq_max_frame_bytes h) (hsq_max_read_bytes h) (hsq_max_write_bytes h).

Lemma limit_u32 v : 0 <= v <= u32_max → default usize_max (try_from usize_max v) = v.
Proof.
  intros Hv. unfold try_from. destruct (Z.leb_spec v usize_max); [done|].
  unfold u32_max, usize_max, u64_max in *. lia.
Qed.
Lemma required_missing (required offered : list string) :
  existsb (λ c, bool_decide (c ∉ offered)) required = false ↔ required ⊆ offered.
Proof.
  rewrite <- not_true_iff_false, existsb_exists. split.
  - intros Hno c Hc. destruct (decide (c ∈ offered)) as [|Hn]; [done|]. exfalso. apply Hno.
    exists c. split; [by apply list_elem_of_In|]. by apply bool_decide_eq_true.
  - intros Hsub (c & Hin%list_elem_of_In & Hc). apply bool_decide_eq_true in Hc.
    by apply Hc, Hsub.
Qed.
Lemma negotiate_Ok cM cmin cmax bmin bmax m :
  negotiate_protocol_minor cM cmin cmax PROTOCOL_MAJOR bmin bmax = Ok m ↔
  cM = PROTOCOL_MAJOR ∧ cmin <= cmax ∧ bmin <= bmax ∧ m = Z.min cmax bmax ∧ Z.max cmin bmin <= m.
Proof.
  unfold negotiate_protocol_minor. destruct (_ || _) eqn:Hr.
  { split; [done|]. intros (_ & ? & ? & _). apply orb_prop in Hr as [Hr|Hr]; bool_simp; lia. }
  bool_simp. destruct (_ || _) eqn:Hs.
  - split; [intros (e & _ & [=])%bind_Ok|]. intros (-> & ? & ? & ? & ?).
    rewrite Z.eqb_refl in Hs. cbn in Hs. bool_simp. lia.
  - bool_simp. split; [intros [= <-]; lia|]. by intros (_ & _ & _ & -> & _).
Qed.

Lemma validate_handshake_Ok encoded_len startup_token h response limits :
  handshake_u32 h →
  validate_handshake encoded_len startup_token h = Ok (response, limits) →
  ∃ minimum maximum minor,
    handshake_minor_range h = Ok (minimum, maximum)
    ∧ hsq_protocol_major h = PROTOCOL_MAJOR
    ∧ minimum <= maximum ∧ minor = Z.min maximum PROTOCOL_MINOR_MAXIMUM
    ∧ minimum <= minor ∧ PROTOCOL_MINOR_MINIMUM <= minor
    ∧ hsq_required_capabilities h ⊆ capabilities_of minor
    ∧ response = handshake_response_for h minor ∧ limits = handshake_limits h minor
    ∧ limits_acceptable limits
        (encoded_len (mkEnvelope u64_max (Some (HandshakeResponse response)))).
Proof.
  unfold handshake_u32. rewrite !Forall_cons. intros (Hf & Hr & Hw & _). cbn beta in Hf, Hr, Hw.
  unfold validate_handshake. rewrite authenticates_spec, !limit_u32 by done.
  case_bool_decide as Ht; cbn [negb]; [|done]. rewrite bind_Ok.
  intros ([minimum maximum] & Hrange & (minor & Hneg & Hrest)%bind_Ok).
  exists minimum, maximum, minor. apply negotiate_Ok in Hneg as (? & ? & ? & ? & ?).
  destruct (existsb _ _) eqn:Hcap; [done|]. apply required_missing in Hcap.
  destruct (_ || _) eqn:Hlim in Hrest; [done|]. destruct (_ <? _) eqn:Hlen in Hrest; [done|].
  injection Hrest as <- <-. bool_simp. split_and!; try done; try lia.
  unfold limits_acceptable, handshake_response_for, handshake_limits.
  cbn [lim_max_frame_bytes lim_max_read_bytes lim_max_write_bytes]. split_and!; lia || done.
Qed.
Lemma validate_handshake_limits encoded_len startup_token h response limits :
  handshake_u32 h → validate_handshake encoded_len startup_token h = Ok (response, limits) →
  limits_acceptable limits (encoded_len (mkEnvelope u64_max (Some (HandshakeResponse response)))).
Proof. intros Hu (? & ? & ? & ? & ? & ? & ? & ? & ? & ? & ? & ? & ?)%validate_handshake_Ok; done. Qed.

Lemma validate_handshake_accepts encoded_len startup_token h response limits :
  handshake_u32 h →
  (hsq_startup_token h = token_bytes startup_token ∧
  ∃ minimum maximum minor,
    handshake_minor_range h = Ok (minimum, maximum)
    ∧ hsq_protocol_major h = PROTOCOL_MAJOR
    ∧ minimum <= maximum ∧ minor = Z.min maximum PROTOCOL_MINOR_MAXIMUM
    ∧ minimum <= minor ∧ PROTOCOL_MINOR_MINIMUM <= minor
    ∧ hsq_required_capabilities h ⊆ capabilities_of minor
    ∧ response = handshake_response_for h minor ∧ limits = handshake_limits h minor
    ∧ limits_acceptable limits
        (encoded_len (mkEnvelope u64_max (Some (HandshakeResponse response))))) →
  validate_handshake encoded_len startup_token h = Ok (response, limits).
Proof.
  intros Hu.
  intros (Ht & minimum & maximum & minor & Hrange & Hmaj & Hle & Hm & Hmin & Hbmin & Hcap & -> & ->
          & Hacc). unfold handshake_u32 in Hu. rewrite !Forall_cons in Hu.
  destruct Hu as (Hf & Hr & Hw & _). cbn beta in Hf, Hr, Hw.
  unfold validate_handshake. rewrite authenticates_spec, !limit_u32, bool_decide_eq_true_2 by done.
  cbn [negb]. rewrite bind_Ok. exists (minimum, maximum). split; [done|].
  apply bind_Ok. exists minor. split; [apply negotiate_Ok; split_and!; try done; lia|].
  apply required_missing in Hcap. rewrite Hcap.
  unfold limits_acceptable, handshake_response_for, handshake_limits in *.
  cbn [lim_max_frame_bytes lim_max_read_bytes lim_max_write_bytes] in Hacc.
  destruct Hacc as (? & ? & ? & ? & ? & ?). destruct (_ || _) eqn:Hlim.
  { exfalso. repeat (apply orb_prop in Hlim as [Hlim|Hlim]); bool_simp; lia. }
  by rewrite (proj2 (Z.ltb_ge _ _)).
Qed.

(** The broker accepts exactly the handshakes it should: the token is the startup token,
    the peer's major is the broker's and the minor ranges meet (the highest shared minor is
    selected), every required capability is offered at that minor, and the byte limits are
    acceptable; it then answers with that minor, its capabilities and the very limits asked
    for, and with anything else it answers an error. *)
Theorem validate_handshake_spec encoded_len startup_token h response limits :
  handshake_u32 h →
  validate_handshake encoded_len startup_token h = Ok (response, limits) ↔
  hsq_startup_token h = token_bytes startup_token ∧
  ∃ minimum maximum minor,
    handshake_minor_range h = Ok (minimum, maximum)
    ∧ hsq_protocol_major h = PROTOCOL_MAJOR
    ∧ minimum <= maximum ∧ minor = Z.min maximum PROTOCOL_MINOR_MAXIMUM
    ∧ minimum <= minor ∧ PROTOCOL_MINOR_MINIMUM <= minor
    ∧ hsq_required_capabilities h ⊆ capabilities_of minor
    ∧ response = handshake_response_for h minor ∧ limits = handshake_limits h minor
    ∧ limits_acceptable limits
        (encoded_len (mkEnvelope u64_max (Some (HandshakeResponse response)))).
Proof.
  intros Hu. split.
  { intros Hv. split; [by eapply validate_handshake_token|by eapply validate_handshake_Ok]. }
  by apply validate_handshake_accepts.
Qed.
Lemma validate_handshake_spec_witness :
  validate_handshake demo_encoded_len demo_token demo_handshake
  = Ok (handshake_response_for demo_handshake 3, handshake_limits demo_handshake 3).
Proof.
  apply validate_handshake_spec; [repeat (constructor; [vm_compute; by split|]); constructor|].
  split; [reflexivity|]. exists 0, 3, 3.
  split_and!; [reflexivity|reflexivity|done|reflexivity|done|done| |reflexivity|reflexivity|].
  - apply required_missing. reflexivity.
  - vm_compute. by repeat split.
Defined.

(** The routine that counts the bytes of a varint is exact: for every 64-bit value it is
    the length of the base 128 encoding, which decodes to the value again and takes one to
    ten bytes. *)
Theorem prost_varint_len_exact v :
  0 <= v <= u64_max →
  prost_varint_len v = len (varint_encode v) ∧ varint_decode (varint_encode v) = v
  ∧ 1 <= prost_varint_len v <= 10.
Proof.
  intros Hv. rewrite prost_varint_len_bytes. split_and!; [done| |by apply varint_bytes_u64..].
  apply varint_decode_loop. unfold u64_max in Hv. split; [lia|]. cbn [Z.of_nat]. lia.
Qed.
Lemma prost_varint_len_exact_witness :
  prost_varint_len 300 = len (varint_encode 300) ∧ varint_encode 300 = [172; 2].
Proof.
  split; [apply (prost_varint_len_exact 300); by vm_compute; split|reflexivity].
Defined.

(** C37: negotiated limits are consistent: after an accepted handshake, the response to a
    serial read of up to the read limit and a serial write request of up to the write limit
    (with identifiers of at most 36 bytes) fit, as protobuf encodes them and whatever the
    request identifier, in a frame of the negotiated size, which is at most the protocol's
    maximum. *)
Theorem negotiated_limits_fit encoded_len startup_token h response limits :
  handshake_u32 h → validate_handshake encoded_len startup_token h = Ok (response, limits) →
  (∀ request_id n, 0 <= request_id <= u64_max → 0 <= n <= lim_max_read_bytes limits →
     read_response_wire_len request_id n <= lim_max_frame_bytes limits)
  ∧ (∀ request_id session_len lease_id_len generation mode n,
       0 <= request_id <= u64_max → 0 <= session_len <= RUNTIME_UUID_LEN →
       0 <= lease_id_len <= RUNTIME_UUID_LEN → 0 <= generation <= u64_max → 0 <= mode < 128 →
       0 <= n <= lim_max_write_bytes limits →
       write_request_wire_len request_id session_len lease_id_len generation mode n
       <= lim_max_frame_bytes limits)
  ∧ lim_max_frame_bytes limits <= MAX_FRAME_BYTES.
Proof.
  intros Hu Hv. apply validate_handshake_limits in Hv as (Hf & _ & _ & Hr & Hw & _); [|done].
  split_and!; [| |lia].
  - intros id n Hid Hn. pose proof (read_response_bound id n _ Hid Hn). lia.
  - intros id s l g m n ? ? ? ? ? Hn. pose proof (write_request_bound id s l g m n (lim_max_write_bytes limits)).
    lia.
Qed.
Lemma negotiated_limits_fit_witness :
  read_response_wire_len 7 1024 <= 65536.
Proof.
  apply (negotiated_limits_fit demo_encoded_len demo_token demo_handshake
    (handshake_response_for demo_handshake 3) (handshake_limits demo_handshake 3)).
  - repeat (constructor; [vm_compute; by split|]); constructor.
  - reflexivity.
Defined.
