(* ===== verification/CanManager.v ===== *)
(** * robot-hal-runtime: the CAN manager

    Models crates/robot-hal-runtime/src/can_manager.rs: discovery over several adapters,
    the critical sections of [open] and its drop guard, of the I/O calls, of [close] and of
    [revoke_owner], and the reconciliation of sessions whose actor has ended.

    The manager's state is behind one mutex ([ManagerState]); [CanWorld] adds the flags it
    shares with actors and callers (atomics and watch channels, as sets) and the event
    publisher.  An actor is known by its handle, a number; the actor itself is [CanActor],
    and here only what the manager sees of it matters: whether a command was accepted, what
    was answered, and whether it is finished.  [CanSystem] adds the calls in progress; its
    steps ([can_exec]) are the critical sections, the cancellation of calls, and the moves
    of actors.  Session and lease identifiers are arguments, session identifiers being
    distinct. *)

From S2P Require Import Prelude Core Lifecycle CanLeaseTable CanTypes CanActor.

Definition CAN_CLOSED_SESSION_CAPACITY : Z := 256.

(** ** State *)
Record DiscoveryRecord := mkDiscoveryRecord {
  dr_adapter_index : Z;
  dr_descriptor : ResourceDescriptor;
}.
(** The senders and flags of a session are in [CanFlags], by session. *)
Record PendingSession := mkPendingSession {
  ps_reservation : CanReservation;
  ps_actor_epoch : option Z;
}.
Record ActiveSession := mkActiveSession {
  xs_resource_id : ResourceId;
  xs_owner_id : OwnerId;
  xs_token : LeaseToken;
  xs_actor : Z;
  xs_actor_epoch : Z;
  xs_closing : bool;
}.
Record ActorEntry := mkActorEntry { ae_handle : Z; ae_epoch : Z }.
Record ClosedSession := mkClosedSession { cc_token : LeaseToken; cc_resource_id : ResourceId }.
Record ManagerState := mkManagerState {
  mg_leases : CanLeaseTable;
  mg_pending : gmap SessionId PendingSession;
  mg_active : gmap SessionId ActiveSession;
  mg_actors : gmap ResourceId ActorEntry;
  mg_next_actor_epoch : Z;
  mg_closed : gmap SessionId ClosedSession;
  mg_closed_order : list SessionId;
}.
Definition ManagerState_default : ManagerState :=
  mkManagerState CanLeaseTable_default ∅ ∅ ∅ 0 ∅ [].
Record CanFlags := mkCanFlags {
  fg_finished : gset Z;
  fg_expected : gset SessionId;
  fg_failed : gset SessionId;
  fg_health : gset SessionId;
  fg_cancelled : gset SessionId;
  fg_done : gset SessionId;
  fg_activation : gmap SessionId LeaseToken;
}.
Definition CanFlags_default : CanFlags := mkCanFlags ∅ ∅ ∅ ∅ ∅ ∅ ∅.
Record CanWorld := mkCanWorld {
  cw_state : ManagerState;
  cw_flags : CanFlags;
  cw_events : EventPublisher;
}.

Definition set_mg_leases (st : ManagerState) (t : CanLeaseTable) : ManagerState :=
  mkManagerState t (mg_pending st) (mg_active st) (mg_actors st) (mg_next_actor_epoch st)
    (mg_closed st) (mg_closed_order st).
Definition set_mg_pending (st : ManagerState) (p : gmap SessionId PendingSession) : ManagerState :=
  mkManagerState (mg_leases st) p (mg_active st) (mg_actors st) (mg_next_actor_epoch st)
    (mg_closed st) (mg_closed_order st).
Definition set_mg_active (st : ManagerState) (a : gmap SessionId ActiveSession) : ManagerState :=
  mkManagerState (mg_leases st) (mg_pending st) a (mg_actors st) (mg_next_actor_epoch st)
    (mg_closed st) (mg_closed_order st).
Definition set_mg_actors (st : ManagerState) (a : gmap ResourceId ActorEntry) (epoch : Z)
    : ManagerState :=
  mkManagerState (mg_leases st) (mg_pending st) (mg_active st) a epoch
    (mg_closed st) (mg_closed_order st).
Definition set_cw_state (w : CanWorld) (st : ManagerState) : CanWorld :=
  mkCanWorld st (cw_flags w) (cw_events w).
Definition set_cw_flags (w : CanWorld) (f : CanFlags) : CanWorld :=
  mkCanWorld (cw_state w) f (cw_events w).
Definition cw_publish (w : CanWorld) (kind : RuntimeEventKind) (resource : ResourceId)
    (session : SessionId) (owner : OwnerId) (generation : Z) : CanWorld :=
  mkCanWorld (cw_state w) (cw_flags w)
    (EventPublisher_publish (cw_events w) kind resource session owner generation).
Definition add_health (f : CanFlags) (s : SessionId) : CanFlags :=
  mkCanFlags (fg_finished f) (fg_expected f) (fg_failed f) ({[s]} ∪ fg_health f)
    (fg_cancelled f) (fg_done f) (fg_activation f).
(** [cancelled.store(true)], [done.send_replace(true)] where [done] is set. *)
Definition add_cancelled (f : CanFlags) (s : SessionId) (done_ : bool) : CanFlags :=
  mkCanFlags (fg_finished f) (fg_expected f) (fg_failed f) (fg_health f)
    ({[s]} ∪ fg_cancelled f) (if done_ then {[s]} ∪ fg_done f else fg_done f) (fg_activation f).
Definition activate (f : CanFlags) (s : SessionId) (token : LeaseToken) : CanFlags :=
  mkCanFlags (fg_finished f) (fg_expected f) (fg_failed f) (fg_health f)
    (fg_cancelled f) ({[s]} ∪ fg_done f) (<[s := token]> (fg_activation f)).
Definition is_finished (w : CanWorld) (handle : Z) : bool :=
  bool_decide (handle ∈ fg_finished (cw_flags w)).

(** ** Errors *)
Definition cm_actor_unavailable (operation : string) (resource_id : ResourceId) : HalError :=
  HalError_with_resource_id
    (runtime_error "runtime.actor.unavailable" Internal operation false
       "the CAN actor dropped an operation reply") resource_id.
Definition cm_session_closed (operation : string) (resource_id : ResourceId) : HalError :=
  HalError_with_resource_id
    (runtime_error "runtime.session.closed" Conflict operation false
       "the CAN session is closed") resource_id.
Definition cm_session_not_found (operation : string) : HalError :=
  runtime_error "runtime.session.not_found" NotFound operation false
    "the CAN session ID is unknown".
Definition operation_timeout (operation : string) (resource_id : ResourceId) : HalError :=
  HalError_with_resource_id
    (runtime_error "runtime.transport.timeout" Unavailable operation true
       "the CAN actor operation exceeded its finite deadline") resource_id.
Definition validate_closed_token (closed supplied : LeaseToken) (operation : string)
    : HalResult unit :=
  if token_generation supplied <? token_generation closed then
    Err (runtime_error "runtime.lease.stale_generation" Conflict operation false
           "the supplied lease generation predates the closed CAN session")
  else if bool_decide (supplied ≠ closed) then
    Err (runtime_error "runtime.lease.invalid_token" Conflict operation false
           "the supplied lease token does not match the closed CAN session")
  else Ok ().
Definition closed_result (st : ManagerState) (session_id : SessionId) (supplied : LeaseToken)
    (operation : string) : HalResult unit :=
  match mg_closed st !! session_id with
  | None => Err (cm_session_not_found operation)
  | Some closed =>
      map_err (λ e, HalError_with_resource_id e (cc_resource_id closed))
        (validate_closed_token (cc_token closed) supplied operation)
  end.
Definition missing_session_error (st : ManagerState) (session_id : SessionId)
    (supplied : LeaseToken) (operation : string) : HalError :=
  match mg_closed st !! session_id with
  | None => cm_session_not_found operation
  | Some closed =>
      match validate_closed_token (cc_token closed) supplied operation with
      | Err e => HalError_with_resource_id e (cc_resource_id closed)
      | Ok _ => cm_session_closed operation (cc_resource_id closed)
      end
  end.

(** ** Discovery *)
(** What one adapter's worker thread reports, and what waiting for it gives. *)
Inductive AdapterOutcome :=
  | AdapterReturned (r : HalResult (list ResourceDescriptor))
  | AdapterTimeout
  | AdapterPanic.
Inductive WorkerWait := WorkerReply (outcome : AdapterOutcome) | WorkerLate | WorkerGone.
Definition adapter_result (timeout : string) (outcome : AdapterOutcome)
    : HalResult (list ResourceDescriptor) :=
  match outcome with
  | AdapterReturned r => r
  | AdapterTimeout =>
      Err (runtime_error "runtime.transport.timeout" Unavailable "can.enumerate" true
             ("CAN adapter discovery exceeded its " +:+ timeout +:+ " deadline"))
  | AdapterPanic =>
      Err (runtime_error "runtime.actor.unavailable" Internal "can.enumerate" false
             "a CAN adapter panicked during discovery")
  end.
Definition worker_result (operation timeout : string) (wait : WorkerWait)
    : HalResult (list ResourceDescriptor) :=
  match wait with
  | WorkerReply outcome => adapter_result timeout outcome
  | WorkerLate =>
      Err (runtime_error "runtime.transport.timeout" Unavailable operation true
             "CAN adapter discovery exceeded its finite deadline")
  | WorkerGone =>
      Err (runtime_error "runtime.actor.unavailable" Internal operation false
             "a CAN discovery worker exited without a reply")
  end.
(** The order of [sort_by]; [String::cmp] compares bytes. *)
Definition record_compare (left right : DiscoveryRecord) : comparison :=
  match String.compare (ResourceId_as_str (desc_id (dr_descriptor left)))
          (ResourceId_as_str (desc_id (dr_descriptor right))) with
  | Eq =>
      match Z.compare (dr_adapter_index left) (dr_adapter_index right) with
      | Eq => String.compare (Endpoint_as_str (desc_endpoint (dr_descriptor left)))
                (Endpoint_as_str (desc_endpoint (dr_descriptor right)))
      | c => c
      end
  | c => c
  end.
(** A stable sort. *)
Fixpoint insert_record (x : DiscoveryRecord) (l : list DiscoveryRecord) : list DiscoveryRecord :=
  match l with
  | [] => [x]
  | y :: l => match record_compare x y with Gt => y :: insert_record x l | _ => x :: y :: l end
  end.
Definition sort_records (l : list DiscoveryRecord) : list DiscoveryRecord := foldr insert_record [] l.
Fixpoint collect_records (operation timeout : string) (adapter_index : Z) (waits : list WorkerWait)
    : HalResult (list DiscoveryRecord) :=
  match waits with
  | [] => Ok []
  | wait :: waits =>
      worker_result operation timeout wait ≫= λ descriptors,
      collect_records operation timeout (adapter_index + 1) waits ≫= λ rest,
      Ok ((mkDiscoveryRecord adapter_index <$> descriptors) ++ rest)
  end.
(** [spawns]: the error of each thread that could not be started; all are started before
    the first is waited for. *)
Definition discovery_records (operation timeout : string) (executor : bool)
    (spawns : list (option string)) (waits : list WorkerWait) : HalResult (list DiscoveryRecord) :=
  if bool_decide (waits = []) then
    Err (runtime_error "runtime.adapter.not_configured" Unavailable operation false
           "no CAN adapter was registered with the runtime")
  else if negb executor then
    Err (runtime_error "runtime.executor.unavailable" Unavailable operation true
           "CAN discovery requires an active Tokio runtime handle")
  else
    match omap id spawns with
    | error :: _ =>
        Err (runtime_error "runtime.actor.spawn_failed" Unavailable operation true
               ("failed to spawn CAN discovery worker: " +:+ error))
    | [] => sort_records <$> collect_records operation timeout 0 waits
    end.
Definition can_enumerate (timeout : string) (executor : bool) (spawns : list (option string))
    (waits : list WorkerWait) : HalResult (list ResourceDescriptor) :=
  (λ records : list DiscoveryRecord, dr_descriptor <$> records)
    <$> discovery_records "can.enumerate" timeout executor spawns waits.

(** ** Selection of the resource to open *)
Definition validate_open_mode (mode : LeaseMode) (config : CanOpenConfig)
    (resource_id : ResourceId) : HalResult unit :=
  match config with
  | Configure _ =>
      if bool_decide (mode ≠ Maintenance) then
        Err (HalError_with_resource_id
               (runtime_error "runtime.lease.mode_denied" Conflict "can.open" false
                  "CAN Configure requires a Maintenance lease") resource_id)
      else Ok ()
  | Attach _ => Ok ()
  end.
Definition required_capability (config : CanOpenConfig) : CapabilityId :=
  match config with
  | Configure _ => can_configure_capability
  | Attach expectation =>
      if bool_decide (exp_mode expectation = Some Fd) then can_fd_capability
      else can_classic_capability
  end.
(** [None] is the failure of [expect] on the position of the resolved descriptor. *)
Definition can_open_select (mode : LeaseMode) (config : CanOpenConfig)
    (selector : ResourceSelector) (discovered : HalResult (list DiscoveryRecord))
    : HalResult (option DiscoveryRecord) :=
  validate_open_mode mode config (sel_id selector) ≫= λ _,
  discovered ≫= λ records,
  if 1 <? len (take 2 (List.filter (λ r, bool_decide (desc_id (dr_descriptor r) = sel_id selector))
                         records))
  then
    Err (HalError_with_resource_id
           (runtime_error "runtime.resource.ambiguous" Conflict "can.open" false
              "the selected CAN resource ID is duplicated across combined discovery")
           (sel_id selector))
  else
    resolve_resource (dr_descriptor <$> records) selector (required_capability config) "can.open"
      ≫= λ selected,
    Ok (List.find (λ r, bool_decide (dr_descriptor r = selected)) records).

(** ** Closed sessions *)
Fixpoint can_evict_closed (order : list SessionId) (closed : gmap SessionId ClosedSession)
    : list SessionId * gmap SessionId ClosedSession :=
  match order with
  | [] => ([], closed)
  | expired :: rest =>
      if CAN_CLOSED_SESSION_CAPACITY <=? len order
      then can_evict_closed rest (delete expired closed)
      else (order, closed)
  end.
Definition remember_closed (st : ManagerState) (session_id : SessionId) (token : LeaseToken)
    (resource_id : ResourceId) : ManagerState :=
  let '(order, closed) := can_evict_closed (mg_closed_order st) (mg_closed st) in
  mkManagerState (mg_leases st) (mg_pending st) (mg_active st) (mg_actors st)
    (mg_next_actor_epoch st) (<[session_id := mkClosedSession token resource_id]> closed)
    (order ++ [session_id]).

(** ** Reconciliation with actors that have ended *)
(** The body of its first loop: an active session of the actor. *)
Definition retire_session (w : CanWorld) (resource_id : ResourceId) (session_id : SessionId)
    : CanWorld :=
  match mg_active (cw_state w) !! session_id with
  | None => w
  | Some session =>
      let st := set_mg_active (cw_state w) (delete session_id (mg_active (cw_state w))) in
      let st := set_mg_leases st
                  (CanLeaseTable_release (mg_leases st) resource_id session_id (xs_token session)).1 in
      let generation := token_generation (xs_token session) in
      let expected := bool_decide (session_id ∈ fg_expected (cw_flags w)) in
      let failed := bool_decide (session_id ∈ fg_failed (cw_flags w)) in
      let w := set_cw_state w st in
      let w :=
        if negb expected || failed then
          let emitted := bool_decide (session_id ∈ fg_health (cw_flags w)) in
          let w := set_cw_flags w (add_health (cw_flags w) session_id) in
          if emitted then w
          else cw_publish w CanBusUnknown resource_id session_id (xs_owner_id session) generation
        else w in
      let w := cw_publish w SessionClosed resource_id session_id (xs_owner_id session) generation in
      set_cw_state w (remember_closed (cw_state w) session_id (xs_token session) resource_id)
  end.
(** The body of its second loop, and of the loop of [revoke_owner]. *)
Definition cancel_pending (w : CanWorld) (done_ : bool) (session_id : SessionId) : CanWorld :=
  match mg_pending (cw_state w) !! session_id with
  | None => w
  | Some session =>
      let st := set_mg_pending (cw_state w) (delete session_id (mg_pending (cw_state w))) in
      let st := set_mg_leases st (CanLeaseTable_cancel (mg_leases st) (ps_reservation session)).1 in
      set_cw_flags (set_cw_state w st) (add_cancelled (cw_flags w) session_id done_)
  end.
Definition actor_sessions (st : ManagerState) (resource_id : ResourceId) (epoch : Z)
    : list SessionId :=
  (filter (λ '(_, a), xs_resource_id a = resource_id ∧ xs_actor_epoch a = epoch)
     (map_to_list (mg_active st))).*1.
Definition actor_pending (st : ManagerState) (epoch : Z) : list SessionId :=
  (filter (λ '(_, p), ps_actor_epoch p = Some epoch) (map_to_list (mg_pending st))).*1.
Definition reconcile_finished_actor (w : CanWorld) (resource_id : ResourceId) : CanWorld :=
  match mg_actors (cw_state w) !! resource_id with
  | None => w
  | Some entry =>
      if negb (is_finished w (ae_handle entry)) then w
      else
        let st := cw_state w in
        let w := set_cw_state w
                   (set_mg_actors st (delete resource_id (mg_actors st)) (mg_next_actor_epoch st)) in
        let w := foldl (λ w s, retire_session w resource_id s) w
                   (actor_sessions (cw_state w) resource_id (ae_epoch entry)) in
        foldl (λ w s, cancel_pending w true s) w (actor_pending (cw_state w) (ae_epoch entry))
  end.

(** ** The critical sections of [open] *)
Definition can_open_reserve (w : CanWorld) (resource_id : ResourceId) (session_id : SessionId)
    (owner_id : OwnerId) (mode : LeaseMode) (fresh : LeaseId) : CanWorld * HalResult unit :=
  let w := reconcile_finished_actor w resource_id in
  let st := cw_state w in
  let '(leases, reserved) :=
    CanLeaseTable_reserve (mg_leases st) resource_id session_id owner_id mode fresh in
  let st := set_mg_leases st leases in
  match reserved with
  | Err e => (set_cw_state w st, Err e)
  | Ok reservation =>
      (set_cw_state w
         (set_mg_pending st (<[session_id := mkPendingSession reservation None]> (mg_pending st))),
       Ok ())
  end.
(** [admitted] is the outcome of [try_command] on a live actor, [spawned] that of
    [spawn_can_actor], which gives [handle]. *)
Definition can_open_assign (w : CanWorld) (resource_id : ResourceId) (session_id : SessionId)
    (admitted spawned : HalResult unit) (handle : Z) : CanWorld * HalResult (Z * Z) :=
  let w := reconcile_finished_actor w resource_id in
  let st := cw_state w in
  let assign st handle epoch :=
    (set_cw_state w
       (set_mg_pending st
          (alter (λ p, mkPendingSession (ps_reservation p) (Some epoch)) session_id (mg_pending st))),
     Ok (handle, epoch)) in
  match mg_actors st !! resource_id with
  | Some entry =>
      match admitted with
      | Err e => (w, Err e)
      | Ok _ => assign st (ae_handle entry) (ae_epoch entry)
      end
  | None =>
      match checked_add u64_max (mg_next_actor_epoch st) 1 with
      | None =>
          (w, Err (runtime_error "runtime.actor.epoch_exhausted" Internal "can.open" false
                     "the CAN actor lifecycle epoch reached u64::MAX"))
      | Some epoch =>
          match spawned with
          | Err e => (set_cw_state w (set_mg_actors st (mg_actors st) epoch), Err e)
          | Ok _ =>
              assign (set_mg_actors st (<[resource_id := mkActorEntry handle epoch]> (mg_actors st))
                        epoch) handle epoch
          end
      end
  end.
(** What waiting for the actor's admission gives. *)
Inductive AddWait := AddReply (r : HalResult unit) | AddDropped | AddTimeout | AddCancelled.
Definition can_add_result (resource_id : ResourceId) (wait : AddWait) : HalResult unit :=
  map_err (λ e, HalError_with_resource_id e resource_id)
    match wait with
    | AddReply r => r
    | AddDropped => Err (cm_actor_unavailable "can.open" resource_id)
    | AddTimeout =>
        Err (HalError_with_resource_id
               (runtime_error "runtime.transport.timeout" Unavailable "can.open" true
                  "the CAN actor did not complete session admission before the deadline")
               resource_id)
    | AddCancelled => Err (cm_session_closed "can.open" resource_id)
    end.
(** [None] is the failure of [expect] on the actor epoch. *)
Definition can_open_commit (w : CanWorld) (resource_id : ResourceId) (session_id : SessionId)
    (owner_id : OwnerId) (actor : Z) (fresh : LeaseId) : option (CanWorld * HalResult LeaseToken) :=
  let w := reconcile_finished_actor w resource_id in
  let st := cw_state w in
  match mg_pending st !! session_id with
  | None => Some (w, Err (cm_session_closed "can.open" resource_id))
  | Some pending =>
      let st := set_mg_pending st (delete session_id (mg_pending st)) in
      let '(leases, committed) := CanLeaseTable_commit (mg_leases st) (ps_reservation pending) fresh in
      let st := set_mg_leases st leases in
      match committed with
      | Err e => Some (set_cw_state w st, Err e)
      | Ok token =>
          epoch ← ps_actor_epoch pending;
          let session := mkActiveSession resource_id owner_id token actor epoch false in
          let w := set_cw_state w (set_mg_active st (<[session_id := session]> (mg_active st))) in
          let w := cw_publish w SessionOpened resource_id session_id owner_id
                     (token_generation token) in
          Some (set_cw_flags w (activate (cw_flags w) session_id token), Ok token)
      end
  end.
(** [Drop for PendingCanOpen]; without an actor it is done at once, otherwise a task asks
    the actor to remove the session. *)
Definition can_guard_drop (w : CanWorld) (session_id : SessionId) (actor_assigned : bool) : CanWorld :=
  let w := set_cw_flags w (add_cancelled (cw_flags w) session_id false) in
  let w :=
    match mg_pending (cw_state w) !! session_id with
    | None => w
    | Some pending =>
        let st := set_mg_pending (cw_state w) (delete session_id (mg_pending (cw_state w))) in
        set_cw_state w
          (set_mg_leases st (CanLeaseTable_cancel (mg_leases st) (ps_reservation pending)).1)
    end in
  if actor_assigned then w
  else set_cw_flags w (add_cancelled (cw_flags w) session_id true).

(** ** I/O calls *)
Definition reconcile_session (w : CanWorld) (session_id : SessionId) : CanWorld :=
  match mg_active (cw_state w) !! session_id with
  | Some entry => reconcile_finished_actor w (xs_resource_id entry)
  | None => w
  end.
Definition session_actor (w : CanWorld) (session_id : SessionId) (token : LeaseToken)
    (required_mode : LeaseMode) (operation : string) : CanWorld * HalResult (Z * ResourceId) :=
  let w := reconcile_session w session_id in
  let st := cw_state w in
  (w,
   match mg_active st !! session_id with
   | None => Err (missing_session_error st session_id token operation)
   | Some entry =>
       CanLeaseTable_validate (mg_leases st) (xs_resource_id entry) session_id (xs_owner_id entry)
         token required_mode operation ≫= λ _,
       if xs_closing entry then Err (cm_session_closed operation (xs_resource_id entry))
       else Ok (xs_actor entry, xs_resource_id entry)
   end).
(** Waiting for a reply, with or without a deadline. *)
Inductive CanReply (T : Type) := CanAnswered (r : T) | CanDropped | CanLate.
Global Arguments CanAnswered {T}.
Global Arguments CanDropped {T}.
Global Arguments CanLate {T}.
(** [enqueued] is the outcome of [try_send_batch]. *)
Definition can_send_batch_call (w : CanWorld) (session_id : SessionId) (token : LeaseToken)
    (frames : list CanFrame) (enqueued : HalResult unit)
    (reply : option (result CanBatchSendError unit)) : CanWorld * result CanBatchSendError unit :=
  let '(w, actor) := session_actor w session_id token Control "can.send_batch" in
  (w,
   map_err CanBatchSendError_new actor ≫= λ '(_, resource_id),
   if bool_decide (frames = []) || (MAX_CAN_BATCH_FRAMES <? len frames) then
     Err (CanBatchSendError_new
            (HalError_with_resource_id
               (runtime_error "can.frame.invalid" InvalidArgument "can.send_batch" false
                  "a CAN send batch must contain 1..=64 frames") resource_id))
   else
     let with_id r := map_err (λ e, CanBatchSendError_new (HalError_with_resource_id e resource_id)) r in
     collect (λ f, with_id (CanFrame_validate f)) frames ≫= λ _,
     with_id enqueued ≫= λ _,
     default (Err (CanBatchSendError_new (cm_actor_unavailable "can.send_batch" resource_id))) reply).
Definition can_receive_call (w : CanWorld) (session_id : SessionId) (token : LeaseToken) (max_frames : Z)
    (enqueued : HalResult unit) (reply : CanReply (HalResult (list ReceivedCanFrame)))
    : CanWorld * HalResult (list ReceivedCanFrame) :=
  let '(w, actor) := session_actor w session_id token Observe "can.receive" in
  (w,
   actor ≫= λ '(_, resource_id),
   if negb ((1 <=? max_frames) && (max_frames <=? MAX_CAN_BATCH_FRAMES)) then
     Err (HalError_with_resource_id
            (runtime_error "can.receive.invalid_limit" InvalidArgument "can.receive" false
               "CAN receive max_frames must be 1..=64") resource_id)
   else
     map_err (λ e, HalError_with_resource_id e resource_id) enqueued ≫= λ _,
     match reply with
     | CanAnswered r => r
     | CanDropped => Err (cm_actor_unavailable "can.receive" resource_id)
     | CanLate =>
         Err (HalError_with_resource_id
                (runtime_error "runtime.transport.timeout" Unavailable "can.receive" true
                   "the CAN receive request exceeded its finite deadline") resource_id)
     end).
(** What [replace_filters] and [bus_status] share. *)
Definition can_observe_call {T} (w : CanWorld) (session_id : SessionId) (token : LeaseToken)
    (operation : string) (enqueued : HalResult unit) (reply : CanReply (HalResult T))
    : CanWorld * HalResult T :=
  let '(w, actor) := session_actor w session_id token Observe operation in
  (w,
   actor ≫= λ '(_, resource_id),
   map_err (λ e, HalError_with_resource_id e resource_id) enqueued ≫= λ _,
   match reply with
   | CanAnswered r => r
   | CanDropped => Err (cm_actor_unavailable operation resource_id)
   | CanLate => Err (operation_timeout operation resource_id)
   end).
Definition can_replace_filters_call (w : CanWorld) (session_id : SessionId) (token : LeaseToken)
    (enqueued : HalResult unit) (reply : CanReply (HalResult unit)) : CanWorld * HalResult unit :=
  can_observe_call w session_id token "can.replace_filters" enqueued reply.
Definition can_bus_status_call (w : CanWorld) (session_id : SessionId) (token : LeaseToken)
    (enqueued : HalResult unit) (reply : CanReply (HalResult CanBusStatus))
    : CanWorld * HalResult CanBusStatus :=
  can_observe_call w session_id token "can.status" enqueued reply.

(** ** Closing *)
Record CloseTask := mkCloseTask {
  ct_session : SessionId;
  ct_token : LeaseToken;
  ct_resource : ResourceId;
  ct_actor : Z;
  ct_epoch : Z;
}.
Inductive CloseNext := CloseReturns (r : HalResult unit) | CloseWaits (task : CloseTask).
Definition mark_closing (a : ActiveSession) : ActiveSession :=
  mkActiveSession (xs_resource_id a) (xs_owner_id a) (xs_token a) (xs_actor a) (xs_actor_epoch a) true.
(** [enqueued] is the outcome of [try_cleanup]. *)
Definition can_close_begin (w : CanWorld) (session_id : SessionId) (token : LeaseToken)
    (enqueued : HalResult unit) : CanWorld * CloseNext :=
  let w := reconcile_session w session_id in
  let st := cw_state w in
  match mg_active st !! session_id with
  | None => (w, CloseReturns (closed_result st session_id token "can.close"))
  | Some entry =>
      let resource := xs_resource_id entry in
      match CanLeaseTable_validate (mg_leases st) resource session_id (xs_owner_id entry) token Observe
              "can.close" with
      | Err e => (w, CloseReturns (Err e))
      | Ok _ =>
          if xs_closing entry then (w, CloseReturns (Err (cm_session_closed "can.close" resource)))
          else
            match enqueued with
            | Err e => (w, CloseReturns (Err (HalError_with_resource_id e resource)))
            | Ok _ =>
                (set_cw_state w (set_mg_active st (<[session_id := mark_closing entry]> (mg_active st))),
                 CloseWaits (mkCloseTask session_id token resource (xs_actor entry)
                               (xs_actor_epoch entry)))
            end
      end
  end.
(** The actor's [RemoveOutcome] is its result and whether the session was its last, for
    which [close] then waits until the actor has ended. *)
Definition can_close_result (resource_id : ResourceId) (timeout : string)
    (reply : CanReply (bool * HalResult unit)) : HalResult unit * bool :=
  match reply with
  | CanAnswered (last_session, result) => (result, last_session)
  | CanDropped => (Err (cm_actor_unavailable "can.close" resource_id), false)
  | CanLate =>
      (Err (HalError_with_resource_id
              (runtime_error "runtime.session.close_timeout" Unavailable "can.close" false
                 ("CAN session close exceeded its " +:+ timeout +:+ " deadline")) resource_id), false)
  end.
Definition finish_close (w : CanWorld) (session_id : SessionId) (token : LeaseToken)
    (resource_id : ResourceId) (close_failed actor_finished : bool) (actor_epoch : Z) : CanWorld :=
  match mg_active (cw_state w) !! session_id with
  | None => w
  | Some entry =>
      let st := set_mg_active (cw_state w) (delete session_id (mg_active (cw_state w))) in
      let st := set_mg_leases st
                  (CanLeaseTable_release (mg_leases st) resource_id session_id token).1 in
      let w := set_cw_state w (remember_closed st session_id (xs_token entry) (xs_resource_id entry)) in
      let generation := token_generation (xs_token entry) in
      let w :=
        if close_failed then
          let emitted := bool_decide (session_id ∈ fg_health (cw_flags w)) in
          let w := set_cw_flags w (add_health (cw_flags w) session_id) in
          if emitted then w
          else cw_publish w CanBusUnknown resource_id session_id (xs_owner_id entry) generation
        else w in
      let w := cw_publish w SessionClosed resource_id session_id (xs_owner_id entry) generation in
      let st := cw_state w in
      if actor_finished
         && is_some_and (λ current, (ae_epoch current =? actor_epoch)
                                    && is_finished w (ae_handle current))
              (mg_actors st !! resource_id)
      then set_cw_state w
             (set_mg_actors st (delete resource_id (mg_actors st)) (mg_next_actor_epoch st))
      else w
  end.
(** [revoke_owner], its critical section: the opens it cancels, the sessions it closes. *)
Definition owner_pending (st : ManagerState) (owner_id : OwnerId) : list SessionId :=
  (filter (λ '(_, p), cr_owner_id (ps_reservation p) = owner_id) (map_to_list (mg_pending st))).*1.
Definition owner_active (st : ManagerState) (owner_id : OwnerId) : list (SessionId * LeaseToken) :=
  (λ '(s, a), (s, xs_token a)) <$>
    filter (λ '(_, a), xs_owner_id a = owner_id) (map_to_list (mg_active st)).
Definition can_revoke_begin (w : CanWorld) (owner_id : OwnerId)
    : CanWorld * list SessionId * list (SessionId * LeaseToken) :=
  let pending := owner_pending (cw_state w) owner_id in
  let w := foldl (λ w s, cancel_pending w false s) w pending in
  (w, pending, owner_active (cw_state w) owner_id).
Definition wait_pending_done (timed_out : bool) : HalResult unit :=
  if timed_out then
    Err (runtime_error "runtime.session.close_timeout" Unavailable "runtime.owner.revoke" false
           "a provisional CAN open did not finish cleanup before the deadline")
  else Ok ().
(** The first error of its waits and closes, in this order. *)
Definition can_revoke_result (waits closes : list (HalResult unit)) : HalResult unit :=
  match omap result_err (waits ++ closes) with
  | error :: _ => Err error
  | [] => Ok ()
  end.

(** ** Retries *)
Definition is_queue_full (e : HalError) : bool :=
  bool_decide (err_name e = mkErrorName "runtime.queue.full").
(** What [close] returned at each attempt, and whether the deadline had passed then; [None]
    while it still tries. *)
Fixpoint close_reliably (attempts : list (HalResult unit * bool)) : option (HalResult unit) :=
  match attempts with
  | [] => None
  | (Err e, past_deadline) :: attempts =>
      if is_queue_full e && negb past_deadline then close_reliably attempts else Some (Err e)
  | (Ok _, _) :: _ => Some (Ok ())
  end.
(** One round of the loop of [reliable_actor_remove]: the actor was finished, or the outcome
    of [try_cleanup] and whether the deadline had passed. *)
Inductive RemoveRound := RemoveFinished | RemoveTried (enqueued : HalResult unit) (past_deadline : bool).
(** How the wait for an accepted removal ended. *)
Inductive RemoveWait := RemoveActorEnded | RemoveSignalled | RemoveLate.
(** The second component of the result tells whether [done] was signalled here. *)
Fixpoint reliable_actor_remove (rounds : list RemoveRound) (wait : RemoveWait)
    : option (HalResult unit * bool) :=
  match rounds with
  | [] => None
  | RemoveFinished :: _ => Some (Ok (), true)
  | RemoveTried (Ok _) _ :: _ =>
      Some match wait with
           | RemoveActorEnded => (Ok (), true)
           | RemoveSignalled => (wait_pending_done false, false)
           | RemoveLate => (wait_pending_done true, false)
           end
  | RemoveTried (Err e) past_deadline :: rounds =>
      if is_queue_full e then
        if past_deadline then
          Some (Err (runtime_error "runtime.session.close_timeout" Unavailable "can.cleanup" false
                       "CAN cleanup admission exceeded its finite deadline"), false)
        else reliable_actor_remove rounds wait
      else Some (Ok (), true)
  end.

(** ** The manager at work *)
(** A call of [open] after its reservation: the resource, the owner and, once assigned, the
    actor's handle and epoch. *)
Record OpenTask := mkOpenTask {
  ot_resource : ResourceId;
  ot_owner : OwnerId;
  ot_actor : option (Z * Z);
}.
(** [cy_used]: session identifiers drawn so far; [cy_handles]: actors spawned so far. *)
Record CanSystem := mkCanSystem {
  cy_world : CanWorld;
  cy_opens : gmap SessionId OpenTask;
  cy_closes : list CloseTask;
  cy_used : gset SessionId;
  cy_handles : Z;
}.
Definition CanSystem_init : CanSystem :=
  mkCanSystem (mkCanWorld ManagerState_default CanFlags_default EventPublisher_new) ∅ [] ∅ 0.
Definition with_world (y : CanSystem) (w : CanWorld) : CanSystem :=
  mkCanSystem w (cy_opens y) (cy_closes y) (cy_used y) (cy_handles y).
Definition with_can_opens (y : CanSystem) (o : gmap SessionId OpenTask) : CanSystem :=
  mkCanSystem (cy_world y) o (cy_closes y) (cy_used y) (cy_handles y).
Definition with_can_closes (y : CanSystem) (c : list CloseTask) : CanSystem :=
  mkCanSystem (cy_world y) (cy_opens y) c (cy_used y) (cy_handles y).
(** What an actor does to the flags and events it shares with the manager. *)
Inductive ActorMove :=
  | ActorEnds (handle : Z)
  | ActorExpects (session_id : SessionId) (failed : bool)
  | ActorBus (state : CanBusState) (resource_id : ResourceId) (session_id : SessionId)
      (owner_id : OwnerId) (generation : Z).
Definition actor_move (w : CanWorld) (m : ActorMove) : CanWorld :=
  let f := cw_flags w in
  match m with
  | ActorEnds handle =>
      set_cw_flags w (mkCanFlags ({[handle]} ∪ fg_finished f) (fg_expected f) (fg_failed f)
        (fg_health f) (fg_cancelled f) (fg_done f) (fg_activation f))
  | ActorExpects s failed =>
      set_cw_flags w (mkCanFlags (fg_finished f) ({[s]} ∪ fg_expected f)
        (if failed then {[s]} ∪ fg_failed f else fg_failed f)
        (fg_health f) (fg_cancelled f) (fg_done f) (fg_activation f))
  | ActorBus state r s o g => cw_publish w (bus_event_kind state) r s o g
  end.
Inductive CanEvent :=
  | CvReserve (resource_id : ResourceId) (session_id : SessionId) (owner_id : OwnerId)
      (mode : LeaseMode) (fresh : LeaseId)
  | CvAssign (session_id : SessionId) (admitted spawned : HalResult unit)
  | CvCommit (session_id : SessionId) (fresh : LeaseId)
  | CvAbandon (session_id : SessionId)
  | CvUse (session_id : SessionId) (token : LeaseToken) (mode : LeaseMode) (operation : string)
  | CvClose (session_id : SessionId) (token : LeaseToken) (enqueued : HalResult unit)
  | CvCloseEnd (n : nat) (close_failed actor_finished : bool)
  | CvCloseDropped (n : nat)
  | CvRevoke (owner_id : OwnerId)
  | CvActor (m : ActorMove).
(** One critical section, cancellation or actor move; [None] when it is not possible.  A
    finished actor accepts no command.  [CvAbandon] is an [open] that fails or is dropped;
    [CvCloseDropped] is a [close] dropped while it waits for the actor. *)
Definition can_exec (y : CanSystem) (ev : CanEvent) : option CanSystem :=
  let w := cy_world y in
  match ev with
  | CvReserve r s o m fresh =>
      if bool_decide (s ∈ cy_used y) then None
      else
        let '(w, reserved) := can_open_reserve w r s o m fresh in
        Some (mkCanSystem w
                (if is_ok reserved then <[s := mkOpenTask r o None]> (cy_opens y) else cy_opens y)
                (cy_closes y) ({[s]} ∪ cy_used y) (cy_handles y))
  | CvAssign s admitted spawned =>
      task ← cy_opens y !! s;
      if is_some (ot_actor task) then None
      else
        let '(w, assigned) := can_open_assign w (ot_resource task) s admitted spawned (cy_handles y) in
        match assigned with
        | Ok actor =>
            Some (mkCanSystem w
                    (<[s := mkOpenTask (ot_resource task) (ot_owner task) (Some actor)]> (cy_opens y))
                    (cy_closes y) (cy_used y) (cy_handles y + 1))
        | Err _ =>
            Some (with_can_opens (with_world y (can_guard_drop w s false)) (delete s (cy_opens y)))
        end
  | CvCommit s fresh =>
      task ← cy_opens y !! s;
      '(handle, _) ← ot_actor task;
      '(w, committed) ← can_open_commit w (ot_resource task) s (ot_owner task) handle fresh;
      Some (with_can_opens
              (with_world y (if is_ok committed then w else can_guard_drop w s true))
              (delete s (cy_opens y)))
  | CvAbandon s =>
      task ← cy_opens y !! s;
      Some (with_can_opens (with_world y (can_guard_drop w s (is_some (ot_actor task))))
              (delete s (cy_opens y)))
  | CvUse s token mode operation =>
      Some (with_world y (session_actor w s token mode operation).1)
  | CvClose s token enqueued =>
      let '(w, next) := can_close_begin w s token enqueued in
      match next with
      | CloseReturns _ => Some (with_world y w)
      | CloseWaits task =>
          if is_finished w (ct_actor task) then None
          else Some (with_can_closes (with_world y w) (task :: cy_closes y))
      end
  | CvCloseEnd n close_failed actor_finished =>
      task ← cy_closes y !! n;
      Some (with_can_closes
              (with_world y
                 (finish_close w (ct_session task) (ct_token task) (ct_resource task) close_failed
                    (actor_finished && is_finished w (ct_actor task)) (ct_epoch task)))
              (delete n (cy_closes y)))
  | CvCloseDropped n =>
      _ ← cy_closes y !! n;
      Some (with_can_closes y (delete n (cy_closes y)))
  | CvRevoke o => Some (with_world y (can_revoke_begin w o).1.1)
  | CvActor m => Some (with_world y (actor_move w m))
  end.
Definition can_step (y y' : CanSystem) : Prop := ∃ ev, can_exec y ev = Some y'.
Definition can_reachable (y : CanSystem) : Prop := rtc can_step CanSystem_init y.
