(* ===== verification/CanManagerInv.v ===== *)
(** * The CAN manager: what every interleaving preserves

    [core_inv] ties the lease table to the sessions the manager knows, the sessions to the
    calls in progress, and both to the events published and the closed sessions kept.  It
    is preserved by the critical sections of [CanManager], hence by every step. *)

From S2P Require Import Prelude Core Lifecycle CanLeaseTable CanTypes CanActor CanManager.

(** ** The lease table, seen through who holds what *)
Record tracks (t : CanLeaseTable) (pend : gmap SessionId PendingSession)
    (act : gmap SessionId ActiveSession) : Prop := {
  tr_pending r s p : pending (leases_of t r) !! s = Some p ↔
    ∃ q, pend !! s = Some q ∧
      ps_reservation q = mkCanReservation r s (pe_owner_id p) (pe_reservation_id p) (pe_mode p);
  tr_granted r s m e : granted (leases_of t r) s m e ↔
    ∃ a, act !! s = Some a ∧ xs_resource_id a = r
      ∧ e = mkLeaseEntry s (xs_owner_id a) (xs_token a) ∧ m = token_mode (xs_token a);
}.
Definition table_ok (t : CanLeaseTable) : Prop := ∃ ex, can_inv (mkCanLeaseState t ex).

Lemma table_ok_leases t r : table_ok t → leases_ok (leases_of t r).
Proof. intros [ex H]. apply (ci_ok _ H). Qed.
Lemma table_ok_reserve t r s o m fresh t' res :
  CanLeaseTable_reserve t r s o m fresh = (t', res) → table_ok t → table_ok t'.
Proof. intros H [ex Hi]. exists ex. eapply can_inv_step; [by eapply can_step_reserve|done]. Qed.
Lemma table_ok_cancel t rv : table_ok t → table_ok (CanLeaseTable_cancel t rv).1.
Proof.
  intros [ex Hi]. exists ex. destruct (CanLeaseTable_cancel t rv) eqn:H.
  eapply can_inv_step; [by eapply can_step_cancel|done].
Qed.
Lemma table_ok_release t r s tok : table_ok t → table_ok (CanLeaseTable_release t r s tok).1.
Proof.
  intros [ex Hi]. exists ex. destruct (CanLeaseTable_release t r s tok) eqn:H.
  eapply can_inv_step; [by eapply can_step_release|done].
Qed.
Lemma table_ok_commit t rv fresh t' res :
  CanLeaseTable_commit t rv fresh = (t', res) → table_ok t → table_ok t'.
Proof.
  intros H [ex Hi]. eexists. eapply can_inv_step; [by eapply can_step_commit|done].
Qed.

Lemma cancel_leases_of t rv r' :
  let r := cr_resource_id rv in let s := cr_session_id rv in
  pending (leases_of t r) !! s
    = Some (mkPendingEntry (cr_reservation_id rv) (cr_owner_id rv) (cr_mode rv)) →
  leases_of (CanLeaseTable_cancel t rv).1 r'
  = if decide (r' = r) then set_pending (leases_of t r) (delete s (pending (leases_of t r)))
    else leases_of t r'.
Proof.
  cbn. intros Hp. unfold CanLeaseTable_cancel.
  destruct (resources t !! cr_resource_id rv) as [l|] eqn:Hl.
  2:{ unfold leases_of in Hp. rewrite Hl in Hp. cbn in Hp. by rewrite lookup_empty in Hp. }
  apply leases_of_Some in Hl as Hof. rewrite Hof in *. rewrite Hp. cbn.
  rewrite (proj2 (pending_matches_true _ _)) by done. cbn.
  destruct (_ && _) eqn:He; cbn; [|by rewrite leases_of_put].
  bool_simp. apply is_empty_true in H0 as (Hpe & Ho & Hc & Hm). cbn in *.
  unfold leases_of. cbn. case_decide as Hr.
  - rewrite Hr, lookup_delete_eq. cbn. unfold set_pending, ResourceLeases_default.
    rewrite Hpe. f_equal; symmetry; done.
  - by rewrite lookup_delete_ne.
Qed.
Lemma release_leases_of t r s m e :
  leases_ok (leases_of t r) → granted (leases_of t r) s m e →
  let t' := (CanLeaseTable_release t r s (le_token e)).1 in
  (∀ r', r' ≠ r → leases_of t' r' = leases_of t r')
  ∧ pending (leases_of t' r) = pending (leases_of t r)
  ∧ ∀ s' m' e', granted (leases_of t' r) s' m' e' ↔ granted (leases_of t r) s' m' e' ∧ s' ≠ s.
Proof.
  intros Hok Hg. unfold CanLeaseTable_release.
  destruct (resources t !! r) as [l|] eqn:Hl.
  2:{ unfold leases_of in Hg. rewrite Hl in Hg. destruct m; cbn in Hg; rewrite ?lookup_empty in Hg;
      naive_solver. }
  apply leases_of_Some in Hl as Hof. rewrite Hof in *.
  assert (∀ s' m' e', granted l s' m' e' → s' = s → m' = m ∧ e' = e) as Huniq.
  { intros s' m' e' Hg' ->. destruct (lo_exclusive _ Hok s m Granted s m' Granted) as [(_ & -> & _)|[? _]];
      [by exists e|by exists e'| |done]. split; [done|]. destruct m'; cbn in *; naive_solver. }
  destruct (lo_entries _ Hok _ _ _ Hg) as (Hs & Hm & _).
  assert (∀ l', (∀ s' m' e', granted l' s' m' e' ↔ granted l s' m' e' ∧ s' ≠ s) → pending l' = pending l →
    (∀ r', r' ≠ r → leases_of (put_leases t r l') r' = leases_of t r')
    ∧ pending (leases_of (put_leases t r l') r) = pending l
    ∧ ∀ s' m' e', granted (leases_of (put_leases t r l') r) s' m' e' ↔ granted l s' m' e' ∧ s' ≠ s)
    as Hput.
  { intros l' Hgr Hpe. split_and!; [|by rewrite leases_of_put, decide_True|].
    - intros r' ?. by rewrite leases_of_put, decide_False.
    - intros s' m' e'. by rewrite leases_of_put, decide_True. }
  destruct m; cbn in Hg.
  - rewrite Hg. cbn. rewrite bool_decide_eq_true_2 by done. cbn. apply Hput; [|done].
    intros s' m' e'. destruct m'; cbn; rewrite ?lookup_delete_Some; split.
    + intros [? ?]. done.
    + intros [? ?]. done.
    + intros H. split; [done|]. intros ->. by destruct (Huniq s Control e').
    + by intros [? _].
    + intros H. split; [done|]. intros ->. by destruct (Huniq s Maintenance e').
    + by intros [? _].
  - destruct Hg as [Hc Hse]. assert (observes l !! s = None) as Ho.
    { apply eq_None_not_Some. intros [e' He']. by destruct (Huniq s Observe e'). }
    rewrite Ho, Hc. cbn. rewrite !bool_decide_eq_true_2 by done. cbn. apply Hput; [|done].
    intros s' m' e'. destruct m'; cbn; split.
    + intros H. split; [done|]. intros ->. congruence.
    + by intros [? _].
    + by intros [? _].
    + intros [[? ?] Hne]. congruence.
    + intros H. split; [done|]. intros ->. by destruct (Huniq s Maintenance e').
    + by intros [? _].
  - destruct Hg as [Hc Hse]. assert (observes l !! s = None) as Ho.
    { apply eq_None_not_Some. intros [e' He']. by destruct (Huniq s Observe e'). }
    assert (is_some_and (λ e0, bool_decide (le_session_id e0 = s)
      && bool_decide (le_token e0 = le_token e)) (control l) = false) as Hct.
    { destruct (control l) as [e0|] eqn:Hctl; [|done]. cbn. apply not_true_iff_false. intros H. bool_simp.
      by destruct (Huniq s Control e0). }
    rewrite Ho, Hct, Hc. cbn. rewrite !bool_decide_eq_true_2 by done. cbn. apply Hput; [|done].
    intros s' m' e'. destruct m'; cbn; split.
    + intros H. split; [done|]. intros ->. congruence.
    + by intros [? _].
    + intros H. split; [done|]. intros ->. by destruct (Huniq s Control e').
    + by intros [? _].
    + by intros [? _].
    + intros [[? ?] Hne]. congruence.
Qed.
Lemma granted_grant_iff l s m g entry p s' m' e :
  exclusive l → pending l !! s = Some p → pe_mode p = m → le_session_id entry = s →
  granted (grant l s m g entry) s' m' e ↔ (s' = s ∧ m' = m ∧ e = entry) ∨ granted l s' m' e.
Proof.
  intros He Hp Hm Hs. split; [by apply granted_grant|].
  intros [(-> & -> & ->)|Hg].
  - destruct m; cbn; [by rewrite lookup_insert_eq|done|done].
  - destruct (He s m Provisional s' m' Granted) as [(_ & _ & ?)|[Hne Hcomp]];
      [by exists p|by exists e|done|].
    destruct m, m'; cbn in *; try done. by rewrite lookup_insert_ne.
Qed.

(** ** Operations on the table keep track *)
Definition reservation_entry (rv : CanReservation) : PendingEntry :=
  mkPendingEntry (cr_reservation_id rv) (cr_owner_id rv) (cr_mode rv).
Lemma tracks_pending_entry t pend act s q :
  tracks t pend act → pend !! s = Some q → cr_session_id (ps_reservation q) = s →
  pending (leases_of t (cr_resource_id (ps_reservation q))) !! s
  = Some (reservation_entry (ps_reservation q)).
Proof.
  intros Ht Hq Hs. apply (tr_pending _ _ _ Ht). exists q. split; [done|].
  destruct (ps_reservation q). cbn in *. by rewrite Hs.
Qed.
Lemma tracks_reserve t pend act r s o m fresh t' rv :
  CanLeaseTable_reserve t r s o m fresh = (t', Ok rv) → pend !! s = None →
  tracks t pend act →
  rv = mkCanReservation r s o fresh m ∧ tracks t' (<[s := mkPendingSession rv None]> pend) act.
Proof.
  intros [(e & [=] & _)|(_ & _ & [= ->] & ->)]%reserve_inv Hn [Hp Hg]. split; [done|]. split.
  - intros r' s' p. rewrite leases_of_put. case_decide as Hr; cbn.
    + subst r'. rewrite lookup_insert_Some. rewrite Hp. split.
      * intros [[<- <-]|[Hne (q & Hq & Hrv)]].
        -- eexists. by rewrite lookup_insert_eq.
        -- exists q. by rewrite lookup_insert_ne.
      * intros (q & Hq & Hrv). apply lookup_insert_Some in Hq as [[<- <-]|[Hne Hq]].
        -- left. split; [done|]. cbn in Hrv. injection Hrv as -> -> ->. by destruct p.
        -- right. split; [done|]. by exists q.
    + rewrite Hp. split; intros (q & Hq & Hrv); exists q; (split; [|done]).
      * rewrite lookup_insert_ne; [done|]. congruence.
      * apply lookup_insert_Some in Hq as [[<- <-]|[Hne Hq]]; [|done]. cbn in Hrv. congruence.
  - intros r' s' m' e. rewrite leases_of_put. case_decide as Hr; [subst r'|]; by rewrite <- Hg.
Qed.
Lemma tracks_reserve_Err t pend act r s o m fresh t' e :
  CanLeaseTable_reserve t r s o m fresh = (t', Err e) → tracks t pend act → tracks t' pend act.
Proof.
  intros [(e' & _ & -> & _)|(_ & _ & [=] & _)]%reserve_inv [Hp Hg].
  split; intros; rewrite leases_of_put; case_decide; subst; auto.
Qed.
Lemma tracks_drop t t' pend act s q :
  let rv := ps_reservation q in
  pend !! s = Some q → cr_session_id rv = s →
  (∀ r', leases_of t' r' = if decide (r' = cr_resource_id rv)
     then set_pending (leases_of t (cr_resource_id rv)) (delete s (pending (leases_of t (cr_resource_id rv))))
     else leases_of t r') →
  tracks t pend act → tracks t' (delete s pend) act.
Proof.
  cbn. intros Hq Hs Hl [Hp Hg]. split.
  - intros r' s' p. rewrite Hl. case_decide as Hr; cbn.
    + subst r'. rewrite lookup_delete_Some, Hp. split.
      * intros [Hne (q' & Hq' & Hrv)]. exists q'. by rewrite lookup_delete_ne.
      * intros (q' & [Hne Hq']%lookup_delete_Some & Hrv). split; [done|]. by exists q'.
    + rewrite Hp. split; intros (q' & Hq' & Hrv); exists q'; (split; [|done]).
      * rewrite lookup_delete_ne; [done|]. intros ->. rewrite Hq in Hq'. injection Hq' as <-.
        by rewrite Hrv in Hr.
      * by apply lookup_delete_Some in Hq' as [_ ?].
  - intros r' s' m' e. rewrite Hl. case_decide as Hr; [subst r'|]; by rewrite <- Hg.
Qed.
Lemma tracks_cancel t pend act s q :
  pend !! s = Some q → cr_session_id (ps_reservation q) = s → tracks t pend act →
  tracks (CanLeaseTable_cancel t (ps_reservation q)).1 (delete s pend) act.
Proof.
  intros Hq Hs Ht. eapply tracks_drop; [done|done| |done]. intros r'.
  rewrite cancel_leases_of; [by rewrite Hs|]. rewrite Hs. by apply tracks_pending_entry with pend act.
Qed.
Lemma tracks_commit_Err t pend act s q fresh t' e :
  pend !! s = Some q → cr_session_id (ps_reservation q) = s →
  CanLeaseTable_commit t (ps_reservation q) fresh = (t', Err e) → tracks t pend act →
  tracks t' (delete s pend) act.
Proof.
  intros Hq Hs Hc Ht. pose proof (tracks_pending_entry _ _ _ _ _ Ht Hq Hs) as Hp.
  eapply tracks_drop; [done|done| |done]. intros r'. unfold CanLeaseTable_commit in Hc.
  destruct (resources t !! _) as [l|] eqn:Hl.
  2:{ unfold leases_of in Hp. rewrite Hl in Hp. cbn in Hp. by rewrite lookup_empty in Hp. }
  apply leases_of_Some in Hl as Hof. rewrite Hof in *. rewrite Hs, Hp in Hc.
  rewrite (proj2 (pending_matches_true _ _)) in Hc by done. cbn in Hc.
  destruct (checked_add _ _ _); [done|]. injection Hc as <- _. by rewrite leases_of_put.
Qed.
Lemma tracks_commit t pend act s q fresh t' tok a :
  table_ok t → pend !! s = Some q → cr_session_id (ps_reservation q) = s →
  CanLeaseTable_commit t (ps_reservation q) fresh = (t', Ok tok) → act !! s = None →
  xs_resource_id a = cr_resource_id (ps_reservation q) →
  xs_owner_id a = cr_owner_id (ps_reservation q) → xs_token a = tok →
  tracks t pend act → tracks t' (delete s pend) (<[s := a]> act).
Proof.
  intros Hok Hq Hs Hc Hn Har Hao Hat Ht. destruct (Ht) as [Hp Hg].
  apply commit_can_inv in Hc as [(e & [=] & _)|(tok' & [= <-] & Hmax & Htok & Hpend & ->)].
  rewrite Hs in *. set (rv := ps_reservation q) in *. set (r := cr_resource_id rv) in *.
  assert (∀ r', pending (leases_of (put_leases t r (grant (leases_of t r) s (cr_mode rv)
      (last_generation (leases_of t r) + 1) (mkLeaseEntry s (cr_owner_id rv) tok))) r')
    = if decide (r' = r) then delete s (pending (leases_of t r)) else pending (leases_of t r'))
    as Hpe.
  { intros r'. rewrite leases_of_put. case_decide; [|done]. by destruct (cr_mode rv). }
  split.
  - intros r' s' p. rewrite Hpe. case_decide as Hr.
    + subst r'. rewrite lookup_delete_Some, Hp. split.
      * intros [Hne (q' & Hq' & Hrv)]. exists q'. by rewrite lookup_delete_ne.
      * intros (q' & [Hne Hq']%lookup_delete_Some & Hrv). split; [done|]. by exists q'.
    + rewrite Hp. split; intros (q' & Hq' & Hrv); exists q'; (split; [|done]).
      * rewrite lookup_delete_ne; [done|]. intros ->. rewrite Hq in Hq'. injection Hq' as <-.
        apply Hr. unfold r, rv. by rewrite Hrv.
      * by apply lookup_delete_Some in Hq' as [_ ?].
  - intros r' s' m' e. rewrite leases_of_put. case_decide as Hr.
    + subst r'. rewrite granted_grant_iff;
        [|apply (table_ok_leases _ _ Hok)|done|done|done]. rewrite Hg. split.
      * intros [(-> & -> & ->)|(a' & Ha' & Hrest)].
        -- exists a. rewrite lookup_insert_eq, Hao, Hat, Htok. done.
        -- exists a'. rewrite lookup_insert_ne; [done|]. congruence.
      * intros (a' & [[<- <-]|[Hne Ha']]%lookup_insert_Some & Hr' & -> & ->).
        -- left. by rewrite Hao, Hat, Htok.
        -- right. by exists a'.
    + rewrite Hg. split; intros (a' & Ha' & Hr' & Hrest).
      * exists a'. rewrite lookup_insert_ne; [done|]. congruence.
      * apply lookup_insert_Some in Ha' as [[<- <-]|[Hne Ha']]; [|by exists a']. congruence.
Qed.
Lemma tracks_release t pend act s a :
  table_ok t → act !! s = Some a → tracks t pend act →
  tracks (CanLeaseTable_release t (xs_resource_id a) s (xs_token a)).1 pend (delete s act).
Proof.
  intros Hok Ha [Hp Hg]. set (r := xs_resource_id a).
  assert (granted (leases_of t r) s (token_mode (xs_token a))
    (mkLeaseEntry s (xs_owner_id a) (xs_token a))) as Hgr by (apply Hg; by exists a).
  destruct (release_leases_of t r s _ _ (table_ok_leases _ _ Hok) Hgr) as (Ho & Hpe & Hgi).
  cbn [le_token] in Ho, Hpe, Hgi. split.
  - intros r' s' p. rewrite <- Hp. destruct (decide (r' = r)) as [-> |Hr]; [by rewrite Hpe|by rewrite Ho].
  - intros r' s' m' e. destruct (decide (r' = r)) as [-> |Hr].
    + rewrite Hgi, Hg. split.
      * intros [(a' & Ha' & Hrest) Hne]. exists a'. by rewrite lookup_delete_ne.
      * intros (a' & [Hne Ha']%lookup_delete_Some & Hrest). split; [by exists a'|done].
    + rewrite (Ho r' Hr), Hg. split; intros (a' & Ha' & Hrest).
      * exists a'. rewrite lookup_delete_ne; [done|]. intros ->. rewrite Ha in Ha'.
        injection Ha' as <-. naive_solver.
      * apply lookup_delete_Some in Ha' as [_ Ha']. by exists a'.
Qed.

(** ** The invariant *)
Definition is_life (k : RuntimeEventKind) : bool :=
  match k with SessionOpened | SessionClosed => true | _ => false end.
(** The openings and closings announced for a session. *)
Definition life_events (ev : EventPublisher) (s : SessionId) : list (RuntimeEventKind * Z) :=
  (λ e, (ev_kind e, ev_lease_generation e)) <$>
    filter (λ e, ev_session_id e = s ∧ is_life (ev_kind e) = true) (sent ev).
Lemma life_events_publish ev k r s' o g s :
  life_events (EventPublisher_publish ev k r s' o g) s
  = life_events ev s ++ (if decide (s' = s ∧ is_life k = true) then [(k, g)] else []).
Proof.
  unfold life_events, EventPublisher_publish. cbn. rewrite filter_app, fmap_app. f_equal.
  rewrite filter_cons, filter_nil. cbn. by case_decide.
Qed.
Definition open_close (g : Z) : list (RuntimeEventKind * Z) := [(SessionOpened, g); (SessionClosed, g)].
Definition wlife (w : CanWorld) (s : SessionId) : list (RuntimeEventKind * Z) :=
  life_events (cw_events w) s.

Record core_inv (w : CanWorld) (opens : gmap SessionId OpenTask) (used : gset SessionId) : Prop := {
  co_table : table_ok (mg_leases (cw_state w));
  co_tracks : tracks (mg_leases (cw_state w)) (mg_pending (cw_state w)) (mg_active (cw_state w));
  co_pending s q : mg_pending (cw_state w) !! s = Some q →
    cr_session_id (ps_reservation q) = s ∧
    ∃ task, opens !! s = Some task ∧ cr_resource_id (ps_reservation q) = ot_resource task
      ∧ cr_owner_id (ps_reservation q) = ot_owner task
      ∧ ps_actor_epoch q = snd <$> ot_actor task;
  co_opens s task : opens !! s = Some task →
    s ∈ used ∧ mg_active (cw_state w) !! s = None ∧ wlife w s = [];
  co_active s a : mg_active (cw_state w) !! s = Some a →
    s ∈ used ∧ wlife w s = [(SessionOpened, token_generation (xs_token a))];
  co_gone s : mg_active (cw_state w) !! s = None → wlife w s = [] ∨ ∃ g, wlife w s = open_close g;
  co_unused s : s ∉ used → wlife w s = [];
  co_closed s c : mg_closed (cw_state w) !! s = Some c →
    wlife w s = open_close (token_generation (cc_token c));
  co_order_nodup : NoDup (mg_closed_order (cw_state w));
  co_order_len : len (mg_closed_order (cw_state w)) <= CAN_CLOSED_SESSION_CAPACITY;
  co_order s : s ∈ mg_closed_order (cw_state w) ↔ is_Some (mg_closed (cw_state w) !! s);
}.

(** Worlds that differ only in actors, flags and bus events. *)
Record same_core (w w' : CanWorld) : Prop := {
  sc_leases : mg_leases (cw_state w') = mg_leases (cw_state w);
  sc_pending : mg_pending (cw_state w') = mg_pending (cw_state w);
  sc_active : mg_active (cw_state w') = mg_active (cw_state w);
  sc_closed : mg_closed (cw_state w') = mg_closed (cw_state w);
  sc_order : mg_closed_order (cw_state w') = mg_closed_order (cw_state w);
  sc_life s : wlife w' s = wlife w s;
}.
Lemma same_core_inv w w' opens used : same_core w w' → core_inv w opens used → core_inv w' opens used.
Proof.
  intros [Hl Hp Ha Hc Ho He] [H1 H2 H3 H4 H5 H6 H7 H8 H9 H10 H11].
  split; rewrite ?Hl, ?Hp, ?Ha, ?Hc, ?Ho; try done; intros s *; rewrite He;
    [apply H4|apply H5|apply H6|apply H7|apply H8].
Qed.

Lemma can_evict_spec order closed :
  NoDup order → (∀ s, s ∈ order ↔ is_Some (closed !! s)) →
  let '(order', closed') := can_evict_closed order closed in
  NoDup order' ∧ len order' < CAN_CLOSED_SESSION_CAPACITY
  ∧ (∀ s, s ∈ order' ↔ is_Some (closed' !! s)) ∧ closed' ⊆ closed.
Proof.
  revert closed. induction order as [|x order IH]; intros closed Hn Hc; cbn [can_evict_closed].
  { done. }
  destruct (_ <=? _) eqn:Hle; bool_simp; [|by split_and!].
  apply NoDup_cons in Hn as [Hx Hn].
  assert (∀ s, s ∈ order ↔ is_Some (delete x closed !! s)) as Hc'.
  { intros s. destruct (decide (s = x)) as [-> |Hne].
    - rewrite lookup_delete_eq. split; [done|]. by intros [? ?].
    - rewrite lookup_delete_ne, <- Hc, elem_of_cons by done. naive_solver. }
  specialize (IH _ Hn Hc'). destruct (can_evict_closed order (delete x closed)) as [order' closed'].
  destruct IH as (? & ? & ? & ?). split_and!; try done. etrans; [done|apply delete_subseteq].
Qed.
(** What retiring a session does, whoever does it. *)
Record retires (w w' : CanWorld) (s : SessionId) (a : ActiveSession) : Prop := {
  rt_leases : mg_leases (cw_state w')
    = (CanLeaseTable_release (mg_leases (cw_state w)) (xs_resource_id a) s (xs_token a)).1;
  rt_pending : mg_pending (cw_state w') = mg_pending (cw_state w);
  rt_active : mg_active (cw_state w') = delete s (mg_active (cw_state w));
  rt_closed :
    let '(order, closed) := can_evict_closed (mg_closed_order (cw_state w)) (mg_closed (cw_state w)) in
    mg_closed (cw_state w') = <[s := mkClosedSession (xs_token a) (xs_resource_id a)]> closed
    ∧ mg_closed_order (cw_state w') = order ++ [s];
  rt_life s' : wlife w' s'
    = wlife w s' ++ (if decide (s' = s) then [(SessionClosed, token_generation (xs_token a))] else []);
}.
Lemma core_retire w w' s a opens used :
  mg_active (cw_state w) !! s = Some a → retires w w' s a →
  core_inv w opens used → core_inv w' opens used.
Proof.
  intros Ha [Rl Rp Ra Rc Re] [H1 H2 H3 H4 H5 H6 H7 H8 H9 H10 H11].
  pose proof (can_evict_spec _ _ H9 H11) as Hev.
  destruct (can_evict_closed _ _) as [order closed]. destruct Rc as [Rc Ro].
  destruct Hev as (Hnd & Hlen & Hmem & Hsub).
  assert (mg_closed (cw_state w) !! s = None) as Hcs.
  { apply eq_None_not_Some. intros [c Hc]. destruct (H5 s a Ha) as [_ Hl].
    specialize (H8 s c Hc). by rewrite Hl in H8. }
  assert (s ∉ order) as Hso.
  { intros [c Hc]%Hmem. eapply lookup_weaken in Hc; [|done]. congruence. }
  assert (∀ s', s' ≠ s → wlife w' s' = wlife w s') as Hother.
  { intros s' ?. by rewrite Re, decide_False, app_nil_r. }
  assert (wlife w' s = open_close (token_generation (xs_token a))) as Hself.
  { rewrite Re, decide_True by done. destruct (H5 s a Ha) as [_ ->]. done. }
  split; rewrite ?Rl, ?Rp, ?Ra, ?Rc, ?Ro.
  - by apply table_ok_release.
  - by apply tracks_release.
  - done.
  - intros s' task Ht. destruct (H4 s' task Ht) as (? & Hna & ?).
    assert (s' ≠ s) by congruence. by rewrite lookup_delete_ne, Hother.
  - intros s' a' [Hne Ha']%lookup_delete_Some. rewrite Hother by done. by apply H5.
  - intros s' Hn. destruct (decide (s' = s)) as [-> |Hne]; [right; by eexists|].
    rewrite lookup_delete_ne in Hn by done. rewrite Hother by done. by apply H6.
  - intros s' Hu. rewrite Hother; [by apply H7|]. intros ->. by apply Hu, (H5 s a).
  - intros s' c [[<- <-]|[Hne Hc]]%lookup_insert_Some; [done|]. rewrite Hother by done.
    apply H8. by eapply lookup_weaken.
  - apply NoDup_app. split_and!; [done| |apply NoDup_singleton].
    by intros s' Hin ->%list_elem_of_singleton.
  - unfold len in *. rewrite length_app. cbn. lia.
  - intros s'. rewrite elem_of_app, list_elem_of_singleton, Hmem.
    destruct (decide (s' = s)) as [-> |Hne].
    + rewrite lookup_insert_eq. split; [by eexists|by right].
    + rewrite lookup_insert_ne by done. naive_solver.
Qed.

(** What cancelling a pending open does. *)
Record cancels (w w' : CanWorld) (s : SessionId) (q : PendingSession) : Prop := {
  cl_leases : mg_leases (cw_state w')
    = (CanLeaseTable_cancel (mg_leases (cw_state w)) (ps_reservation q)).1;
  cl_pending : mg_pending (cw_state w') = delete s (mg_pending (cw_state w));
  cl_active : mg_active (cw_state w') = mg_active (cw_state w);
  cl_closed : mg_closed (cw_state w') = mg_closed (cw_state w);
  cl_order : mg_closed_order (cw_state w') = mg_closed_order (cw_state w);
  cl_events : cw_events w' = cw_events w;
}.
Lemma core_cancel w w' s q opens used :
  mg_pending (cw_state w) !! s = Some q → cancels w w' s q →
  core_inv w opens used → core_inv w' opens used.
Proof.
  intros Hq [Cl Cp Ca Cc Co Ce] [H1 H2 H3 H4 H5 H6 H7 H8 H9 H10 H11].
  unfold wlife in *. split; unfold wlife; rewrite ?Cl, ?Cp, ?Ca, ?Cc, ?Co, ?Ce; try done.
  - by apply table_ok_cancel.
  - apply tracks_cancel; [done|by apply H3|done].
  - intros s' q' [_ Hq']%lookup_delete_Some. by apply H3.
Qed.

(** ** The critical sections *)
#[local] Arguments EventPublisher_publish : simpl never.
Lemma retire_retires w s a :
  mg_active (cw_state w) !! s = Some a → retires w (retire_session w (xs_resource_id a) s) s a.
Proof.
  intros Ha. unfold retire_session. rewrite Ha. unfold remember_closed.
  destruct (can_evict_closed (mg_closed_order (cw_state w)) (mg_closed (cw_state w)))
    as [order closed] eqn:Hev.
  destruct (negb _ || _); [destruct (bool_decide (s ∈ fg_health _))|];
    (split; cbn; rewrite ?Hev; cbn; try done; intros s'; unfold wlife; cbn;
     rewrite !life_events_publish, ?app_nil_r; cbn; repeat case_decide; rewrite ?app_nil_r; naive_solver).
Qed.
Lemma finish_retires w s a failed finished epoch :
  mg_active (cw_state w) !! s = Some a →
  retires w (finish_close w s (xs_token a) (xs_resource_id a) failed finished epoch) s a.
Proof.
  intros Ha. unfold finish_close. rewrite Ha. unfold remember_closed. cbn.
  destruct (can_evict_closed (mg_closed_order (cw_state w)) (mg_closed (cw_state w)))
    as [order closed] eqn:Hev.
  destruct failed; [destruct (bool_decide (s ∈ fg_health _))|]; cbn; destruct (_ && _);
    (split; cbn; rewrite ?Hev; cbn; try done; intros s'; unfold wlife; cbn;
     rewrite !life_events_publish, ?app_nil_r; cbn; repeat case_decide; rewrite ?app_nil_r; naive_solver).
Qed.
Lemma cancel_pending_cancels w b s q :
  mg_pending (cw_state w) !! s = Some q → cancels w (cancel_pending w b s) s q.
Proof. intros Hq. unfold cancel_pending. rewrite Hq. by split. Qed.

(** Sections that only take sessions away. *)
Record shrinks (w w' : CanWorld) : Prop := {
  sh_active : mg_active (cw_state w') ⊆ mg_active (cw_state w);
  sh_pending : mg_pending (cw_state w') ⊆ mg_pending (cw_state w);
  sh_finished : fg_finished (cw_flags w') = fg_finished (cw_flags w);
  sh_life s : wlife w s `prefix_of` wlife w' s;
}.
Lemma shrinks_refl w : shrinks w w.
Proof. by split. Qed.
Lemma shrinks_trans w1 w2 w3 : shrinks w1 w2 → shrinks w2 w3 → shrinks w1 w3.
Proof.
  intros [A1 P1 F1 L1] [A2 P2 F2 L2]. split; [by transitivity (mg_active (cw_state w2))|
    by transitivity (mg_pending (cw_state w2))|congruence|].
  intros s. by transitivity (wlife w2 s).
Qed.
Lemma retires_shrinks w w' s a :
  fg_finished (cw_flags w') = fg_finished (cw_flags w) → retires w w' s a → shrinks w w'.
Proof.
  intros Hf [Rl Rp Ra Rc Re]. split; [|by rewrite Rp|done|].
  - rewrite Ra. apply delete_subseteq.
  - intros s'. rewrite Re. by eexists.
Qed.
Lemma cancels_shrinks w w' s q :
  fg_finished (cw_flags w') = fg_finished (cw_flags w) → cancels w w' s q → shrinks w w'.
Proof.
  intros Hf [Cl Cp Ca Cc Co Ce]. split; [by rewrite Ca| |done|].
  - rewrite Cp. apply delete_subseteq.
  - intros s'. unfold wlife. by rewrite Ce.
Qed.
(** A section that keeps the invariant and only takes sessions away. *)
Definition tidies (w w' : CanWorld) : Prop :=
  shrinks w w' ∧ ∀ opens used, core_inv w opens used → core_inv w' opens used.
Lemma tidies_refl w : tidies w w.
Proof. split; [apply shrinks_refl|done]. Qed.
Lemma tidies_trans w1 w2 w3 : tidies w1 w2 → tidies w2 w3 → tidies w1 w3.
Proof. intros [H1 I1] [H2 I2]. split; [by eapply shrinks_trans|auto]. Qed.
Lemma tidies_retire w r s :
  (∀ a, mg_active (cw_state w) !! s = Some a → xs_resource_id a = r) → tidies w (retire_session w r s).
Proof.
  intros Hr. destruct (mg_active (cw_state w) !! s) as [a|] eqn:Ha.
  - rewrite <- (Hr a eq_refl). pose proof (retire_retires w s a Ha) as Hret. split.
    + eapply retires_shrinks; [|done]. unfold retire_session. rewrite Ha.
      destruct (negb _ || _); [destruct (bool_decide (s ∈ fg_health _))|]; done.
    + intros opens used. by eapply core_retire.
  - unfold retire_session. rewrite Ha. apply tidies_refl.
Qed.
Lemma tidies_cancel w b s : tidies w (cancel_pending w b s).
Proof.
  destruct (mg_pending (cw_state w) !! s) as [q|] eqn:Hq.
  - pose proof (cancel_pending_cancels w b s q Hq) as Hc. split.
    + eapply cancels_shrinks; [|done]. unfold cancel_pending. by rewrite Hq.
    + intros opens used. by eapply core_cancel.
  - unfold cancel_pending. rewrite Hq. apply tidies_refl.
Qed.
Lemma tidies_cancels w b l : tidies w (foldl (λ w s, cancel_pending w b s) w l).
Proof.
  revert w. induction l as [|s l IH]; intros w; cbn; [apply tidies_refl|].
  eapply tidies_trans; [apply tidies_cancel|apply IH].
Qed.
Lemma tidies_retires w r l :
  (∀ s a, s ∈ l → mg_active (cw_state w) !! s = Some a → xs_resource_id a = r) →
  tidies w (foldl (λ w s, retire_session w r s) w l).
Proof.
  revert w. induction l as [|s l IH]; intros w Hl; cbn; [apply tidies_refl|].
  assert (tidies w (retire_session w r s)) as Ht.
  { apply tidies_retire. intros a. apply Hl. by left. }
  eapply tidies_trans; [done|]. apply IH. intros s' a Hin Ha. apply (Hl s'); [by right|].
  eapply lookup_weaken; [done|apply Ht].
Qed.
Lemma same_core_tidies w w' : same_core w w' → fg_finished (cw_flags w') = fg_finished (cw_flags w) →
  tidies w w'.
Proof.
  intros Hs Hf. split; [|intros opens used; by apply same_core_inv].
  destruct Hs. split; [by rewrite sc_active0|by rewrite sc_pending0|done|intros s; by rewrite sc_life0].
Qed.
Lemma actor_sessions_resource st r epoch s a :
  s ∈ actor_sessions st r epoch → mg_active st !! s = Some a → xs_resource_id a = r.
Proof.
  intros ([s' a'] & -> & [[Hr _] Hin]%list_elem_of_filter)%list_elem_of_fmap Ha.
  apply elem_of_map_to_list in Hin. cbn in *. congruence.
Qed.
Lemma tidies_reconcile w r : tidies w (reconcile_finished_actor w r).
Proof.
  unfold reconcile_finished_actor. destruct (mg_actors _ !! r) as [entry|]; [|apply tidies_refl].
  destruct (negb _); [apply tidies_refl|].
  apply (tidies_trans _ (set_cw_state w (set_mg_actors (cw_state w)
    (delete r (mg_actors (cw_state w))) (mg_next_actor_epoch (cw_state w)))));
    [by apply same_core_tidies|].
  eapply tidies_trans; [|apply tidies_cancels]. apply tidies_retires.
  intros s a. apply actor_sessions_resource.
Qed.
Lemma tidies_reconcile_session w s : tidies w (reconcile_session w s).
Proof.
  unfold reconcile_session. destruct (mg_active _ !! s); [apply tidies_reconcile|apply tidies_refl].
Qed.
Lemma core_forget w s opens used :
  mg_pending (cw_state w) !! s = None → core_inv w opens used → core_inv w (delete s opens) used.
Proof.
  intros Hn [H1 H2 H3 H4 H5 H6 H7 H8 H9 H10 H11]. split; try done.
  - intros s' q Hq. destruct (H3 s' q Hq) as (? & task & ? & ?). split; [done|]. exists task.
    rewrite lookup_delete_ne; [done|]. congruence.
  - intros s' task [_ Ht]%lookup_delete_Some. by eapply H4.
Qed.
Lemma core_unused w s opens used : s ∉ used → core_inv w opens used →
  mg_pending (cw_state w) !! s = None ∧ mg_active (cw_state w) !! s = None ∧ opens !! s = None
  ∧ wlife w s = [].
Proof.
  intros Hs Hi. split_and!; [..|by eapply co_unused].
  - apply eq_None_not_Some. intros [q Hq]. destruct (co_pending _ _ _ Hi _ _ Hq) as (_ & task & Ht & _).
    by apply Hs, (co_opens _ _ _ Hi _ _ Ht).
  - apply eq_None_not_Some. intros [a Ha]. by apply Hs, (co_active _ _ _ Hi _ _ Ha).
  - apply eq_None_not_Some. intros [task Ht]. by apply Hs, (co_opens _ _ _ Hi _ _ Ht).
Qed.
Lemma core_more w opens used s : core_inv w opens used → core_inv w opens ({[s]} ∪ used).
Proof.
  intros [H1 H2 H3 H4 H5 H6 H7 H8 H9 H10 H11]. split; try done.
  - intros s' task Ht. destruct (H4 s' task Ht) as (? & ? & ?). split_and!; set_solver.
  - intros s' a Ha. destruct (H5 s' a Ha) as (? & ?). split; [set_solver|done].
  - intros s' Hs. apply H7. set_solver.
Qed.
Lemma core_reserve w r s o m fresh w' res opens used :
  can_open_reserve w r s o m fresh = (w', res) → s ∉ used → core_inv w opens used →
  core_inv w' (if is_ok res then <[s := mkOpenTask r o None]> opens else opens) ({[s]} ∪ used).
Proof.
  unfold can_open_reserve. intros Hres Hs Hi.
  apply (tidies_reconcile w r) in Hi. set (v := reconcile_finished_actor w r) in *.
  destruct (core_unused _ _ _ _ Hs Hi) as (Hp & Ha & Ho & Hl).
  apply (core_more _ _ _ s) in Hi. destruct (CanLeaseTable_reserve _ _ _ _ _ _) as [t [rv|e]] eqn:Hr;
    injection Hres as <- <-; destruct Hi as [H1 H2 H3 H4 H5 H6 H7 H8 H9 H10 H11]; cbn.
  - destruct (tracks_reserve _ _ _ _ _ _ _ _ _ _ Hr Hp H2) as [-> Ht].
    split; cbn; try done.
    + by eapply table_ok_reserve.
    + intros s' q [[<- <-]|[Hne Hq]]%lookup_insert_Some.
      * split; [done|]. eexists. by rewrite lookup_insert_eq.
      * destruct (H3 s' q Hq) as (? & task & ? & ?). split; [done|]. exists task.
        by rewrite lookup_insert_ne.
    + intros s' task [[<- <-]|[Hne Ht']]%lookup_insert_Some; [|by eapply H4].
      split_and!; [set_solver|done|done].
  - split; cbn; try done; [by eapply table_ok_reserve|by eapply tracks_reserve_Err].
Qed.
Lemma core_assign w r s o adm sp h w' actor opens used :
  can_open_assign w r s adm sp h = (w', Ok actor) → opens !! s = Some (mkOpenTask r o None) →
  core_inv w opens used → core_inv w' (<[s := mkOpenTask r o (Some actor)]> opens) used.
Proof.
  unfold can_open_assign. intros Has Ho Hi. apply (tidies_reconcile w r) in Hi.
  set (v := reconcile_finished_actor w r) in *.
  assert (∀ st hd ep, mg_leases st = mg_leases (cw_state v) → mg_active st = mg_active (cw_state v) →
    mg_pending st = mg_pending (cw_state v) → mg_closed st = mg_closed (cw_state v) →
    mg_closed_order st = mg_closed_order (cw_state v) →
    core_inv (set_cw_state v (set_mg_pending st
      (alter (λ p, mkPendingSession (ps_reservation p) (Some ep)) s (mg_pending st))))
      (<[s := mkOpenTask r o (Some (hd, ep))]> opens) used) as Hset.
  { intros st hd ep El Ea Ep Ec Eo. destruct Hi as [H1 H2 H3 H4 H5 H6 H7 H8 H9 H10 H11].
    split; cbn; rewrite ?El, ?Ea, ?Ep, ?Ec, ?Eo; try done.
    - destruct H2 as [Hp Hg]. split; [|done]. intros r' s' p. rewrite Hp.
      split; intros (q & Hq & Hrv).
      + destruct (decide (s' = s)) as [-> |Hne].
        * eexists. rewrite lookup_alter_eq, Hq. cbn. done.
        * exists q. by rewrite lookup_alter_ne.
      + destruct (decide (s' = s)) as [-> |Hne].
        * rewrite lookup_alter_eq in Hq. destruct (mg_pending (cw_state v) !! s) as [q0|]; [|done].
          cbn in Hq. injection Hq as <-. by exists q0.
        * rewrite lookup_alter_ne in Hq by done. by exists q.
    - intros s' q Hq. destruct (decide (s' = s)) as [-> |Hne].
      + rewrite lookup_alter_eq in Hq. destruct (mg_pending (cw_state v) !! s) as [q0|] eqn:Hq0; [|done].
        cbn in Hq. injection Hq as <-. destruct (H3 s q0 Hq0) as (? & task & Ht & Hr & Hw & _).
        rewrite Ho in Ht. injection Ht as <-. split; [done|]. eexists. by rewrite lookup_insert_eq.
      + rewrite lookup_alter_ne in Hq by done. destruct (H3 s' q Hq) as (? & task & ? & ?).
        split; [done|]. exists task. by rewrite lookup_insert_ne.
    - intros s' task [[<- <-]|[Hne Ht]]%lookup_insert_Some; by eapply H4. }
  destruct (mg_actors (cw_state v) !! r) as [entry|].
  - destruct adm; [|done]. injection Has as <- <-. by apply Hset.
  - destruct (checked_add _ _ _) as [ep|]; [|done]. destruct sp; [|done]. injection Has as <- <-.
    by apply (Hset (set_mg_actors (cw_state v) (<[r := mkActorEntry h ep]> (mg_actors (cw_state v))) ep)).
Qed.
Lemma assign_Err w r s adm sp h w' e :
  can_open_assign w r s adm sp h = (w', Err e) → tidies w w'.
Proof.
  unfold can_open_assign. intros Has. eapply tidies_trans; [apply (tidies_reconcile w r)|].
  set (v := reconcile_finished_actor w r) in *.
  destruct (mg_actors (cw_state v) !! r) as [entry|].
  - destruct adm; [done|]. injection Has as <- _. apply tidies_refl.
  - destruct (checked_add _ _ _) as [ep|]; [|injection Has as <- _; apply tidies_refl].
    destruct sp; [done|]. injection Has as <- _. by apply same_core_tidies.
Qed.
Lemma guard_drop_tidies w s b :
  tidies w (can_guard_drop w s b) ∧ mg_pending (cw_state (can_guard_drop w s b)) !! s = None.
Proof.
  assert (∀ v, tidies w v → mg_pending (cw_state v) !! s = None →
    let v' := if b then v else set_cw_flags v (add_cancelled (cw_flags v) s true) in
    tidies w v' ∧ mg_pending (cw_state v') !! s = None) as Hlast.
  { intros v Ht Hp. destruct b; [done|]. split; [|done]. eapply tidies_trans; [done|].
    by apply same_core_tidies. }
  unfold can_guard_drop. cbn [cw_state set_cw_flags].
  destruct (mg_pending (cw_state w) !! s) as [q|] eqn:Hq; apply Hlast; try done.
  - assert (∀ v, cancels w v s q → fg_finished (cw_flags v) = fg_finished (cw_flags w) → tidies w v)
      as Hc.
    { intros v Hc Hf. split; [by eapply cancels_shrinks|]. intros opens used. by eapply core_cancel. }
    by apply Hc.
  - apply lookup_delete_eq.
  - by apply same_core_tidies.
Qed.
Lemma core_guard_drop w s b opens used :
  core_inv w opens used → core_inv (can_guard_drop w s b) (delete s opens) used.
Proof. intros Hi. destruct (guard_drop_tidies w s b) as [[_ Ht] Hp]. by apply core_forget, Ht. Qed.
(** A lease table and pending sessions after a commit that failed. *)
Lemma commit_Err_tidies w s q fresh t e :
  mg_pending (cw_state w) !! s = Some q → cr_session_id (ps_reservation q) = s →
  CanLeaseTable_commit (mg_leases (cw_state w)) (ps_reservation q) fresh = (t, Err e) →
  tidies w (set_cw_state w (set_mg_leases
    (set_mg_pending (cw_state w) (delete s (mg_pending (cw_state w)))) t)).
Proof.
  intros Hq Hs Hc. split.
  - split; cbn; [done|apply delete_subseteq|done|done].
  - intros opens used [H1 H2 H3 H4 H5 H6 H7 H8 H9 H10 H11]. split; cbn; try done.
    + by eapply table_ok_commit.
    + by eapply tracks_commit_Err.
    + intros s' q' [_ Hq']%lookup_delete_Some. by apply H3.
Qed.
(** The world after a commit that succeeded. *)
Definition opened_world (w : CanWorld) (t : CanLeaseTable) (s : SessionId) (a : ActiveSession) : CanWorld :=
  set_cw_flags
    (cw_publish
       (set_cw_state w (set_mg_active
          (set_mg_leases (set_mg_pending (cw_state w) (delete s (mg_pending (cw_state w)))) t)
          (<[s := a]> (mg_active (cw_state w)))))
       SessionOpened (xs_resource_id a) s (xs_owner_id a) (token_generation (xs_token a)))
    (activate (cw_flags w) s (xs_token a)).
Lemma opened_life w t s a s' :
  wlife (opened_world w t s a) s' = wlife w s'
    ++ (if decide (s = s') then [(SessionOpened, token_generation (xs_token a))] else []).
Proof.
  unfold wlife, opened_world. cbn. rewrite life_events_publish. cbn. f_equal.
  repeat case_decide; naive_solver.
Qed.
Lemma core_commit w s q fresh t tok a task opens used :
  mg_pending (cw_state w) !! s = Some q → opens !! s = Some task →
  CanLeaseTable_commit (mg_leases (cw_state w)) (ps_reservation q) fresh = (t, Ok tok) →
  xs_resource_id a = ot_resource task → xs_owner_id a = ot_owner task → xs_token a = tok →
  core_inv w opens used → core_inv (opened_world w t s a) (delete s opens) used.
Proof.
  intros Hq Ho Hc Har Hao Hat Hi. destruct (co_pending _ _ _ Hi s q Hq) as (Hs & task' & Ht & Hqr & Hqo & _).
  rewrite Ho in Ht. injection Ht as <-. destruct (co_opens _ _ _ Hi _ _ Ho) as (Hu & Hna & Hl).
  destruct Hi as [H1 H2 H3 H4 H5 H6 H7 H8 H9 H10 H11].
  assert (∀ s', s ≠ s' → wlife (opened_world w t s a) s' = wlife w s') as Hother.
  { intros s' ?. by rewrite opened_life, decide_False, app_nil_r. }
  split; cbn; try done.
  - by eapply table_ok_commit.
  - eapply tracks_commit; try done; congruence.
  - intros s' q' [Hne Hq']%lookup_delete_Some. destruct (H3 s' q' Hq') as (? & task' & ? & ?).
    split; [done|]. exists task'. by rewrite lookup_delete_ne.
  - intros s' task' [Hne Ht']%lookup_delete_Some. rewrite lookup_insert_ne, Hother by done. by eapply H4.
  - intros s' a' [[<- <-]|[Hne Ha]]%lookup_insert_Some; [|rewrite Hother by done; by apply H5].
    split; [done|]. by rewrite opened_life, decide_True, Hl.
  - intros s' [Ha Hne]%lookup_insert_None. rewrite Hother by done. by apply H6.
  - intros s' Hs'. rewrite Hother by (by intros ->). by apply H7.
  - intros s' c Hcl. rewrite Hother; [by apply H8|].
    intros ->. specialize (H8 _ _ Hcl). by rewrite Hl in H8.
Qed.
(** [open] does not panic at its commit: it has an epoch by then. *)
Lemma commit_outcomes w s h ep fresh task opens used :
  opens !! s = Some task → ot_actor task = Some (h, ep) → core_inv w opens used →
  ∃ w' res, can_open_commit w (ot_resource task) s (ot_owner task) h fresh = Some (w', res) ∧
    let v := reconcile_finished_actor w (ot_resource task) in
    match res with
    | Err _ => tidies w w'
    | Ok tok =>
        (∃ t, w' = opened_world v t s
                (mkActiveSession (ot_resource task) (ot_owner task) tok h ep false))
        ∧ core_inv w' (delete s opens) used
    end.
Proof.
  intros Ho Hact Hi. unfold can_open_commit.
  destruct (tidies_reconcile w (ot_resource task)) as [Hsh Hti]. apply Hti in Hi.
  assert (tidies w (reconcile_finished_actor w (ot_resource task))) as Hvt by done.
  set (v := reconcile_finished_actor w (ot_resource task)) in *.
  destruct (mg_pending (cw_state v) !! s) as [q|] eqn:Hq; [|by eexists _, _].
  destruct (co_pending _ _ _ Hi s q Hq) as (Hs & task' & Ht & _ & _ & Hep).
  rewrite Ho in Ht. injection Ht as <-. rewrite Hact in Hep. cbn in Hep.
  destruct (CanLeaseTable_commit _ _ _) as [t [tok|e]] eqn:Hc; cbn in Hc.
  - rewrite Hep. cbn. eexists _, _. split; [reflexivity|].
    split; [by exists t|]. by eapply core_commit.
  - eexists _, _. split; [reflexivity|]. eapply tidies_trans; [exact Hvt|]. by eapply commit_Err_tidies.
Qed.

(** ** Closes in progress *)
Definition close_ok (w : CanWorld) (task : CloseTask) : Prop :=
  wlife w (ct_session task) ≠ [] ∧
  ∀ a, mg_active (cw_state w) !! ct_session task = Some a →
    xs_token a = ct_token task ∧ xs_resource_id a = ct_resource task ∧ xs_closing a = true.
Definition can_sys_inv (y : CanSystem) : Prop :=
  core_inv (cy_world y) (cy_opens y) (cy_used y) ∧ Forall (close_ok (cy_world y)) (cy_closes y).
Lemma close_ok_shrinks w w' task : shrinks w w' → close_ok w task → close_ok w' task.
Proof.
  intros [Ha _ _ Hl] [Hn Hc]. split.
  - intros Hnil. destruct (Hl (ct_session task)) as [k Hk]. rewrite Hnil in Hk. symmetry in Hk.
    by apply app_eq_nil in Hk as [? _].
  - intros a Hact. apply Hc. by eapply lookup_weaken.
Qed.
Lemma sys_tidies y w' : tidies (cy_world y) w' → can_sys_inv y → can_sys_inv (with_world y w').
Proof.
  intros [Hs Ht] [Hi Hc]. split; [by apply Ht|]. cbn. eapply Forall_impl; [done|].
  intros task. by apply close_ok_shrinks.
Qed.
Lemma core_mark_closing w s a opens used :
  mg_active (cw_state w) !! s = Some a → core_inv w opens used →
  core_inv (set_cw_state w (set_mg_active (cw_state w)
    (<[s := mark_closing a]> (mg_active (cw_state w))))) opens used.
Proof.
  intros Ha [H1 H2 H3 H4 H5 H6 H7 H8 H9 H10 H11]. split; cbn; try done.
  - destruct H2 as [Hp Hg]. split; [done|]. intros r s' m e. rewrite Hg.
    split; intros (a' & Ha' & Hrest).
    + destruct (decide (s' = s)) as [-> |Hne]; [|exists a'; by rewrite lookup_insert_ne].
      exists (mark_closing a). rewrite lookup_insert_eq. rewrite Ha in Ha'. by injection Ha' as <-.
    + apply lookup_insert_Some in Ha' as [[<- <-]|[Hne Ha']]; [by exists a|by exists a'].
  - intros s' task Ht. destruct (H4 s' task Ht) as (? & Hn & ?).
    rewrite lookup_insert_ne; [done|]. congruence.
  - intros s' a' [[<- <-]|[Hne Ha']]%lookup_insert_Some; [|by apply H5]. by apply (H5 s a).
  - intros s' [Hn _]%lookup_insert_None. by apply H6.
Qed.
Lemma validate_active w s a tok required op opens used :
  mg_active (cw_state w) !! s = Some a → core_inv w opens used →
  CanLeaseTable_validate (mg_leases (cw_state w)) (xs_resource_id a) s (xs_owner_id a) tok required op
    = Ok () →
  xs_token a = tok ∧ mode_allows (token_mode tok) required = true.
Proof.
  intros Ha Hi Hv. destruct (co_table _ _ _ Hi) as [ex Hci].
  destruct (can_validate_Ok _ _ _ _ _ _ _ Hci Hv) as (m & e & Hg & _ & Ht & Hm).
  apply (tr_granted _ _ _ (co_tracks _ _ _ Hi)) in Hg as (a' & Ha' & _ & -> & ->).
  rewrite Ha in Ha'. injection Ha' as <-. cbn in Ht. by subst tok.
Qed.
Lemma sys_close_begin y s tok enq w' next :
  can_close_begin (cy_world y) s tok enq = (w', next) → can_sys_inv y →
  match next with
  | CloseReturns _ => can_sys_inv (with_world y w')
  | CloseWaits task => can_sys_inv (with_can_closes (with_world y w') (task :: cy_closes y))
  end.
Proof.
  unfold can_close_begin. intros Hb Hy.
  apply (sys_tidies _ _ (tidies_reconcile_session (cy_world y) s)) in Hy.
  set (v := reconcile_session (cy_world y) s) in *.
  destruct (mg_active (cw_state v) !! s) as [a|] eqn:Ha; [|by injection Hb as <- <-].
  destruct (CanLeaseTable_validate _ _ _ _ _ _ _) as [[]|e] eqn:Hv; [|by injection Hb as <- <-].
  destruct (xs_closing a) eqn:Hcl; [by injection Hb as <- <-|].
  destruct enq as [[]|e]; [|by injection Hb as <- <-]. injection Hb as <- <-.
  destruct Hy as [Hi Hc]. cbn in Hi, Hc.
  destruct (validate_active _ _ _ _ _ _ _ _ Ha Hi Hv) as [Htok _].
  split; cbn; [by apply core_mark_closing|]. apply Forall_cons. split.
  - split; cbn.
    + destruct (co_active _ _ _ Hi s a Ha) as [_ Hl]. unfold wlife in *. cbn. by rewrite Hl.
    + intros a' Ha'. rewrite lookup_insert_eq in Ha'. by injection Ha' as <-.
  - eapply Forall_impl; [done|]. intros task [Hn Ht]. split; [done|]. cbn.
    intros a' [[Hs <-]|[Hne Ha']]%lookup_insert_Some; [|by apply Ht].
    rewrite <- Hs in Ht. destruct (Ht a Ha) as (_ & _ & ?). congruence.
Qed.
Lemma sys_close_end_shrinks y n task failed fin :
  cy_closes y !! n = Some task → can_sys_inv y →
  tidies (cy_world y) (finish_close (cy_world y) (ct_session task) (ct_token task) (ct_resource task)
                         failed fin (ct_epoch task)).
Proof.
  intros Hn [Hi Hc]. assert (close_ok (cy_world y) task) as [Hl Ht].
  { rewrite Forall_forall in Hc. apply Hc. by eapply list_elem_of_lookup_2. }
  destruct (mg_active (cw_state (cy_world y)) !! ct_session task) as [a|] eqn:Ha.
  - destruct (Ht a eq_refl) as (<- & <- & _).
    pose proof (finish_retires _ _ _ failed fin (ct_epoch task) Ha) as Hret. split.
    + eapply retires_shrinks; [|done]. unfold finish_close. rewrite Ha. cbn.
      destruct failed; [destruct (bool_decide (_ ∈ fg_health _))|]; cbn; by destruct (_ && _).
    + intros opens used. by eapply core_retire.
  - unfold finish_close. rewrite Ha. apply tidies_refl.
Qed.
Lemma sys_close_end y n task failed fin :
  cy_closes y !! n = Some task → can_sys_inv y →
  can_sys_inv (with_can_closes
    (with_world y (finish_close (cy_world y) (ct_session task) (ct_token task) (ct_resource task)
                     failed fin (ct_epoch task))) (delete n (cy_closes y))).
Proof.
  intros Hn Hy. destruct (sys_close_end_shrinks y n task failed fin Hn Hy) as [Hsh Hti].
  destruct Hy as [Hi Hc]. split; cbn; [by apply Hti|]. rewrite Forall_forall in Hc |- *.
  intros task' Hin%list_elem_of_delete_inv. eapply close_ok_shrinks; [done|]. by apply Hc.
Qed.
Lemma actor_move_tidies w m : same_core w (actor_move w m).
Proof.
  destruct m as [h|s f|st r s o g]; cbn; [by split|by split|].
  split; cbn; try done. intros s'. unfold wlife. cbn. rewrite life_events_publish.
  rewrite decide_False; [by rewrite app_nil_r|]. intros [_ H]. by destruct st.
Qed.
Lemma close_ok_same w w' task : same_core w w' → close_ok w task → close_ok w' task.
Proof. intros [Hl Hp Ha Hc Ho He] [Hn Ht]. split; [by rewrite He|by rewrite Ha]. Qed.

(** ** Every step *)
Lemma sys_guard_drop y s b : can_sys_inv y →
  can_sys_inv (with_can_opens (with_world y (can_guard_drop (cy_world y) s b)) (delete s (cy_opens y))).
Proof.
  intros [Hi Hc]. split; cbn; [by apply core_guard_drop|]. eapply Forall_impl; [done|].
  intros task. apply close_ok_shrinks, guard_drop_tidies.
Qed.
Lemma sys_reserve y r s o m fresh y' :
  can_exec y (CvReserve r s o m fresh) = Some y' → can_sys_inv y → can_sys_inv y'.
Proof.
  cbn. case_bool_decide as Hu; [done|]. destruct (can_open_reserve _ _ _ _ _ _) as [w' res] eqn:Hr.
  intros [= <-] [Hi Hc]. split; cbn; [by eapply core_reserve|]. eapply Forall_impl; [done|].
  intros task. intros Hok. apply (close_ok_shrinks _ _ _ (proj1 (tidies_reconcile (cy_world y) r))) in Hok.
  revert Hok. unfold can_open_reserve in Hr.
  destruct (CanLeaseTable_reserve _ _ _ _ _ _) as [t [rv|e]]; by injection Hr as <- _.
Qed.
Lemma sys_assign y s adm sp y' :
  can_exec y (CvAssign s adm sp) = Some y' → can_sys_inv y → can_sys_inv y'.
Proof.
  cbn. intros (task & Ht & Hx)%bind_Some [Hi Hc]. destruct task as [r o [actor|]]; [done|]. cbn in Hx.
  destruct (can_open_assign _ _ _ _ _ _) as [w' [actor|e]] eqn:Ha; injection Hx as <-.
  - split; cbn; [by eapply core_assign|]. eapply Forall_impl; [done|]. intros task Hok.
    apply (close_ok_shrinks _ _ _ (proj1 (tidies_reconcile (cy_world y) r))) in Hok. revert Hok.
    unfold can_open_assign in Ha. destruct (mg_actors _ !! r).
    + destruct adm; [|done]. by injection Ha as <- _.
    + destruct (checked_add _ _ _); [|done]. destruct sp; [|done]. by injection Ha as <- _.
  - apply (sys_guard_drop (with_world y w') s false). apply sys_tidies; [|done]. by eapply assign_Err.
Qed.
Lemma sys_commit y s fresh y' :
  can_exec y (CvCommit s fresh) = Some y' → can_sys_inv y → can_sys_inv y'.
Proof.
  cbn. intros (task & Ht & ([h ep] & Hact & Hx)%bind_Some)%bind_Some [Hi Hc].
  destruct (commit_outcomes _ s h ep fresh task _ _ Ht Hact Hi) as (w' & res & Hco & Hres).
  rewrite Hco in Hx. cbn in Hx. injection Hx as <-. destruct res as [tok|e]; cbn.
  - destruct Hres as [[t ->] Hi']. split; cbn; [done|].
    destruct (co_opens _ _ _ Hi _ _ Ht) as (_ & _ & Hl). eapply Forall_impl; [done|].
    intros ctask Hok. assert (ct_session ctask ≠ s) as Hne by (intros <-; by destruct Hok).
    apply (close_ok_shrinks _ _ _ (proj1 (tidies_reconcile (cy_world y) (ot_resource task)))) in Hok.
    destruct Hok as [Hn Hok]. split.
    + rewrite opened_life, decide_False, app_nil_r by done. done.
    + intros a' Ha'. cbn in Ha'. rewrite lookup_insert_ne in Ha' by done. by apply Hok.
  - apply (sys_guard_drop (with_world y w') s true). by apply sys_tidies.
Qed.
Lemma sys_step y ev y' : can_exec y ev = Some y' → can_sys_inv y → can_sys_inv y'.
Proof.
  intros Hx Hy. destruct ev as [r s o m fresh|s adm sp|s fresh|s|s tok mode op|s tok enq|n f fin|n|o|m].
  - by eapply sys_reserve.
  - by eapply sys_assign.
  - by eapply sys_commit.
  - apply bind_Some in Hx as (task & _ & [= <-]). by apply sys_guard_drop.
  - injection Hx as <-. apply sys_tidies; [apply tidies_reconcile_session|done].
  - cbn in Hx. destruct (can_close_begin _ _ _ _) as [w' next] eqn:Hb.
    pose proof (sys_close_begin _ _ _ _ _ _ Hb Hy) as Hnext.
    destruct next as [r|task]; [by injection Hx as <-|]. destruct (is_finished _ _); [done|].
    by injection Hx as <-.
  - apply bind_Some in Hx as (task & Hn & [= <-]). by apply sys_close_end.
  - apply bind_Some in Hx as (task & _ & [= <-]). destruct Hy as [Hi Hc]. split; [done|]. cbn.
    rewrite Forall_forall in Hc |- *. intros task' Hin%list_elem_of_delete_inv. by apply Hc.
  - injection Hx as <-. apply sys_tidies; [apply tidies_cancels|done].
  - injection Hx as <-. destruct Hy as [Hi Hc]. split; cbn.
    + by eapply same_core_inv; [apply actor_move_tidies|].
    + eapply Forall_impl; [done|]. intros task. apply close_ok_same, actor_move_tidies.
Qed.
Lemma can_sys_init : can_sys_inv CanSystem_init.
Proof.
  split; [|constructor]. split; cbn; try done.
  - exists []. apply can_inv_init.
  - split.
    + intros r s p. unfold leases_of. cbn. rewrite lookup_empty. cbn. rewrite lookup_empty.
      split; [done|]. intros (q & Hq & _). by rewrite lookup_empty in Hq.
    + intros r s m e. unfold leases_of. cbn. rewrite lookup_empty. cbn. split.
      * destruct m; cbn; [by rewrite lookup_empty|by intros [? _]|by intros [? _]].
      * intros (a & Ha & _). by rewrite lookup_empty in Ha.
  - intros s _. by left.
  - constructor.
  - intros s. rewrite lookup_empty. split; [by intros ?%elem_of_nil|by intros [? ?]].
Qed.
Lemma sys_steps y y' : rtc can_step y y' → can_sys_inv y → can_sys_inv y'.
Proof. induction 1 as [|? ? ? [ev Hx]]; eauto using sys_step. Qed.
Lemma sys_reachable y : can_reachable y → can_sys_inv y.
Proof. intros Hr. eapply sys_steps; [done|apply can_sys_init]. Qed.
