(* ===== verification/CanManagerSpec.v ===== *)
(** * The CAN manager: how sessions end, and its main theorems

    Actors are told apart by epochs; a session ends only by its own close or with its actor
    ([session_ends]).  The theorems follow: leases are tracked exactly, sessions announced
    once, I/O fenced, a revoked open never succeeds - and what goes wrong when a close is
    dropped or races with the death of an actor. *)

From S2P Require Import Prelude Core Lifecycle CanLeaseTable CanTypes CanActor CanManager.
From S2P Require Import CanManagerInv.

(** ** Epochs *)
Definition epoch_names (st : ManagerState) (handle epoch : Z) : Prop :=
  epoch <= mg_next_actor_epoch st ∧
  ∀ r en, mg_actors st !! r = Some en → ae_epoch en = epoch → ae_handle en = handle.
Record epochs_ok (y : CanSystem) : Prop := {
  ep_actor r en : mg_actors (cw_state (cy_world y)) !! r = Some en →
    ae_epoch en <= mg_next_actor_epoch (cw_state (cy_world y));
  ep_inj r r' en en' : mg_actors (cw_state (cy_world y)) !! r = Some en →
    mg_actors (cw_state (cy_world y)) !! r' = Some en' → ae_epoch en = ae_epoch en' → r = r';
  ep_active s a : mg_active (cw_state (cy_world y)) !! s = Some a →
    epoch_names (cw_state (cy_world y)) (xs_actor a) (xs_actor_epoch a);
  ep_open s task h e : cy_opens y !! s = Some task → ot_actor task = Some (h, e) →
    epoch_names (cw_state (cy_world y)) h e;
}.
(** Actors forgotten, sessions taken away. *)
Record fewer (w w' : CanWorld) : Prop := {
  fw_actors : mg_actors (cw_state w') ⊆ mg_actors (cw_state w);
  fw_epoch : mg_next_actor_epoch (cw_state w) <= mg_next_actor_epoch (cw_state w');
  fw_active s a' : mg_active (cw_state w') !! s = Some a' →
    ∃ a, mg_active (cw_state w) !! s = Some a ∧ xs_actor a' = xs_actor a
         ∧ xs_actor_epoch a' = xs_actor_epoch a;
}.
Lemma fewer_refl w : fewer w w.
Proof. split; [done|done|]. intros s a Ha. by exists a. Qed.
Lemma fewer_trans w1 w2 w3 : fewer w1 w2 → fewer w2 w3 → fewer w1 w3.
Proof.
  intros [A1 E1 X1] [A2 E2 X2]. split; [by transitivity (mg_actors (cw_state w2))|lia|].
  intros s a3 (a2 & (a1 & ? & ? & ?)%X1 & ? & ?)%X2. exists a1. split_and!; congruence.
Qed.
Lemma fewer_names w w' h e : fewer w w' → epoch_names (cw_state w) h e → epoch_names (cw_state w') h e.
Proof.
  intros [Ha He _] [Hle Hn]. split; [lia|]. intros r en Hen. apply (Hn r).
  by eapply lookup_weaken.
Qed.
Lemma epochs_fewer y w' opens closes used handles :
  fewer (cy_world y) w' →
  (∀ s task, opens !! s = Some task → ot_actor task = None ∨ cy_opens y !! s = Some task) →
  epochs_ok y → epochs_ok (mkCanSystem w' opens closes used handles).
Proof.
  intros Hf Ho [E1 E2 E3 E4]. destruct (Hf) as [Ha He Hx]. split; cbn.
  - intros r en Hen. eapply lookup_weaken in Hen; [|done]. specialize (E1 r en Hen). lia.
  - intros r r' en en' H1 H2. apply (E2 r r' en en'); by eapply lookup_weaken.
  - intros s a' (a & Hact & -> & ->)%Hx. by eapply fewer_names, E3.
  - intros s task h e Ht Hact. destruct (Ho s task Ht) as [?|Ht']; [congruence|].
    by eapply fewer_names, E4.
Qed.

Lemma fewer_retire w r s : fewer w (retire_session w r s).
Proof.
  unfold retire_session. destruct (mg_active _ !! s) as [a|]; [|apply fewer_refl].
  unfold remember_closed.
  destruct (negb _ || _); [destruct (bool_decide (s ∈ fg_health _))|];
    cbn; destruct (can_evict_closed _ _); (split; cbn; [done|done|]);
    intros s' a' [_ Ha']%lookup_delete_Some; by exists a'.
Qed.
Lemma fewer_cancel w b s : fewer w (cancel_pending w b s).
Proof. unfold cancel_pending. destruct (mg_pending _ !! s); [|apply fewer_refl]. split; [done|done|]. intros s' a Ha. by exists a. Qed.
Lemma fewer_fold {A} (f : CanWorld → A → CanWorld) w l : (∀ w x, fewer w (f w x)) → fewer w (foldl f w l).
Proof.
  intros Hf. revert w. induction l as [|x l IH]; intros w; cbn; [apply fewer_refl|].
  eapply fewer_trans; [apply Hf|apply IH].
Qed.
Lemma fewer_reconcile w r : fewer w (reconcile_finished_actor w r).
Proof.
  unfold reconcile_finished_actor. destruct (mg_actors _ !! r) as [en|]; [|apply fewer_refl].
  destruct (negb _); [apply fewer_refl|].
  eapply fewer_trans; [|apply fewer_fold; intros; apply fewer_cancel].
  eapply (fewer_trans _ (set_cw_state w (set_mg_actors (cw_state w)
    (delete r (mg_actors (cw_state w))) (mg_next_actor_epoch (cw_state w)))));
    [|apply fewer_fold; intros; apply fewer_retire].
  split; cbn; [apply delete_subseteq|done|]. intros s a Ha. by exists a.
Qed.
Lemma fewer_guard_drop w s b : fewer w (can_guard_drop w s b).
Proof.
  unfold can_guard_drop. cbn. destruct (mg_pending _ !! s); destruct b;
    (split; cbn; [done|done|intros s' a Ha; by exists a]).
Qed.
Lemma fewer_finish_close w s tok r f fin e : fewer w (finish_close w s tok r f fin e).
Proof.
  unfold finish_close. destruct (mg_active _ !! s) as [a|]; [|apply fewer_refl].
  unfold remember_closed. cbn. destruct (can_evict_closed _ _).
  destruct f; [destruct (bool_decide (s ∈ fg_health _))|]; cbn; destruct (_ && _);
    (split; cbn; [try done; apply delete_subseteq|done|]);
    intros s' a' [_ Ha']%lookup_delete_Some; by exists a'.
Qed.
Lemma fewer_actor_move w m : fewer w (actor_move w m).
Proof. destruct m; (split; cbn; [done|done|intros s' a Ha; by exists a]). Qed.
Lemma fewer_reconcile_session w s : fewer w (reconcile_session w s).
Proof. unfold reconcile_session. destruct (mg_active _ !! s); [apply fewer_reconcile|apply fewer_refl]. Qed.
Lemma fewer_reserve w r s o m fresh : fewer w (can_open_reserve w r s o m fresh).1.
Proof.
  eapply fewer_trans; [apply (fewer_reconcile w r)|]. unfold can_open_reserve.
  destruct (CanLeaseTable_reserve _ _ _ _ _ _) as [t [rv|e]]; (split; cbn; [done|done|]);
    intros s' a Ha; by exists a.
Qed.
Lemma fewer_close_begin w s tok enq : fewer w (can_close_begin w s tok enq).1.
Proof.
  eapply fewer_trans; [apply (fewer_reconcile_session w s)|]. unfold can_close_begin.
  set (v := reconcile_session w s). destruct (mg_active (cw_state v) !! s) as [a|] eqn:Ha; [|apply fewer_refl].
  destruct (CanLeaseTable_validate _ _ _ _ _ _ _); [|apply fewer_refl].
  destruct (xs_closing a); [apply fewer_refl|]. destruct enq; [|apply fewer_refl].
  split; cbn; [done|done|]. intros s' a' [[<- <-]|[_ Ha']]%lookup_insert_Some; [by exists a|by exists a'].
Qed.
Lemma epochs_entry y r en : epochs_ok y → mg_actors (cw_state (cy_world y)) !! r = Some en →
  epoch_names (cw_state (cy_world y)) (ae_handle en) (ae_epoch en).
Proof.
  intros [E1 E2 _ _] Hen. split; [by eapply E1|]. intros r' en' Hen' He.
  assert (r' = r) as -> by (by eapply E2). congruence.
Qed.
Lemma new_epoch_names y st r h :
  let next := mg_next_actor_epoch (cw_state (cy_world y)) in
  epochs_ok y → mg_actors st = <[r := mkActorEntry h (next + 1)]> (mg_actors (cw_state (cy_world y))) →
  mg_next_actor_epoch st = next + 1 →
  epoch_names st h (next + 1) ∧ ∀ h' e, epoch_names (cw_state (cy_world y)) h' e → epoch_names st h' e.
Proof.
  intros next Hy Ha He. split; [|intros h' e [Hle Hn]]; (split; [lia|]); intros r' en'; rewrite Ha.
  - intros [[<- <-]|[_ Hen']]%lookup_insert_Some; [done|]. cbn.
    pose proof (ep_actor _ Hy r' en' Hen') as Hle. lia.
  - intros [[<- <-]|[_ Hen']]%lookup_insert_Some; cbn; [lia|]. by apply (Hn r').
Qed.
Lemma epochs_assign y s adm sp y' :
  can_exec y (CvAssign s adm sp) = Some y' → epochs_ok y → epochs_ok y'.
Proof.
  cbn. intros (task & Ht & Hx)%bind_Some Hy. destruct (is_some _); [done|].
  unfold can_open_assign in Hx. set (r := ot_resource task) in *.
  pose proof (fewer_reconcile (cy_world y) r) as Hf. set (v := reconcile_finished_actor (cy_world y) r) in *.
  assert (epochs_ok (with_world y v)) as Hv by (apply (epochs_fewer y); auto).
  destruct (mg_actors (cw_state v) !! r) as [en|] eqn:Hen.
  - destruct adm as [[]|e]; cbn in Hx; injection Hx as <-.
    + pose proof (epochs_entry _ _ _ Hv Hen) as Hname. destruct Hv as [E1 E2 E3 E4].
      split; cbn; try done. intros s' task' h e [[<- <-]|[_ Ht']]%lookup_insert_Some Hact.
      * by injection Hact as <- <-.
      * by eapply E4.
    + apply (epochs_fewer (with_world y v)); [exact (fewer_guard_drop v s false)| |done].
      intros s' task' [_ ?]%lookup_delete_Some. by right.
  - assert (∀ w', fewer v w' → epochs_ok (with_can_opens (with_world y w') (delete s (cy_opens y)))) as Hfail.
    { intros w' Hw'. apply (epochs_fewer (with_world y v)); [done| |done].
      intros s' task' [_ ?]%lookup_delete_Some. by right. }
    destruct (checked_add _ _ _) as [ep|] eqn:Hep; cbn in Hx.
    2:{ injection Hx as <-. exact (Hfail _ (fewer_guard_drop v s false)). }
    apply checked_add_Some in Hep as [-> _].
    pose proof (λ st h, new_epoch_names (with_world y v) st r h Hv) as Hnew. cbn in Hnew.
    destruct sp as [[]|e]; cbn in Hx; injection Hx as <-.
    + destruct Hv as [E1 E2 E3 E4]. cbn in E1, E2, E3, E4.
      split; cbn.
      * intros r' en [[<- <-]|[_ Hen']]%lookup_insert_Some; cbn; [lia|]. specialize (E1 r' en Hen'). lia.
      * intros r1 r2 en1 en2 [[<- <-]|[_ H1]]%lookup_insert_Some [[<- <-]|[_ H2]]%lookup_insert_Some; cbn;
          [done| | |by apply E2].
        -- specialize (E1 _ _ H2). lia.
        -- specialize (E1 _ _ H1). lia.
      * intros s' a Ha. eapply Hnew; [done|done|]. by apply (E3 s').
      * intros s' task' h e [[<- <-]|[_ Ht']]%lookup_insert_Some Hact.
        -- injection Hact as <- <-. by apply Hnew.
        -- eapply Hnew; [done|done|]. by eapply E4.
    + set (v' := set_cw_state v (set_mg_actors (cw_state v) (mg_actors (cw_state v))
        (mg_next_actor_epoch (cw_state v) + 1))).
      assert (fewer v v') as Hv' by (split; cbn; [done|lia|intros s' a Ha; by exists a]).
      exact (Hfail _ (fewer_trans _ _ _ Hv' (fewer_guard_drop v' s false))).
Qed.
Lemma epochs_commit y s fresh y' :
  can_sys_inv y → can_exec y (CvCommit s fresh) = Some y' → epochs_ok y → epochs_ok y'.
Proof.
  cbn. intros [Hi _] (task & Ht & ([h ep] & Hact & Hx)%bind_Some)%bind_Some Hy.
  destruct (commit_outcomes _ s h ep fresh task _ _ Ht Hact Hi) as (w' & res & Hco & Hres).
  assert (fewer (cy_world y) (reconcile_finished_actor (cy_world y) (ot_resource task))) as Hf
    by apply fewer_reconcile.
  rewrite Hco in Hx. cbn in Hx. injection Hx as <-.
  assert (∀ s' t, delete s (cy_opens y) !! s' = Some t → ot_actor t = None ∨ cy_opens y !! s' = Some t) as Ho.
  { intros s' t [_ ?]%lookup_delete_Some. by right. }
  destruct res as [tok|e]; cbn.
  - destruct Hres as [[t ->] _].
    assert (epochs_ok (with_world y (reconcile_finished_actor (cy_world y) (ot_resource task)))) as Hv.
    { apply (epochs_fewer y); auto. }
    destruct Hv as [E1 E2 E3 E4]. split; cbn in *; [done|done| |].
    + intros s' a [[<- <-]|[_ Ha]]%lookup_insert_Some; [|by apply (E3 s')]. by eapply E4.
    + intros s' task' h' e [_ Ht']%lookup_delete_Some. by apply (E4 s').
  - apply (epochs_fewer y); [|done|done]. eapply fewer_trans; [|exact (fewer_guard_drop w' s true)].
    unfold can_open_commit in Hco.
    destruct (mg_pending _ !! s); [|by injection Hco as <- _].
    destruct (CanLeaseTable_commit _ _ _) as [t [tok|e']].
    + by apply bind_Some in Hco as (? & _ & [=]).
    + injection Hco as <- _. eapply fewer_trans; [exact Hf|].
      split; cbn; [done|done|intros s' a Ha; by exists a].
Qed.
Lemma epochs_step y ev y' : can_sys_inv y → can_exec y ev = Some y' → epochs_ok y → epochs_ok y'.
Proof.
  intros Hi Hx Hy. destruct ev as [r s o m fresh|s adm sp|s fresh|s|s tok mode op|s tok enq|n f fin|n|o|m].
  - cbn in Hx. case_bool_decide; [done|]. pose proof (fewer_reserve (cy_world y) r s o m fresh) as Hf.
    destruct (can_open_reserve _ _ _ _ _ _) as [w' res]. injection Hx as <-.
    apply (epochs_fewer y); [done| |done]. intros s' t. destruct (is_ok res); [|by right].
    intros [[<- <-]|[_ ?]]%lookup_insert_Some; [by left|by right].
  - by eapply epochs_assign.
  - by eapply epochs_commit.
  - apply bind_Some in Hx as (task & _ & [= <-]). apply (epochs_fewer y); [apply fewer_guard_drop| |done].
    intros s' t [_ ?]%lookup_delete_Some. by right.
  - injection Hx as <-. apply (epochs_fewer y); [apply fewer_reconcile_session|auto|done].
  - cbn in Hx. pose proof (fewer_close_begin (cy_world y) s tok enq) as Hf.
    destruct (can_close_begin _ _ _ _) as [w' [r|task]]; [|destruct (is_finished _ _); [done|]];
      injection Hx as <-; apply (epochs_fewer y); auto.
  - apply bind_Some in Hx as (task & Hn & [= <-]). apply (epochs_fewer y); [apply fewer_finish_close|auto|done].
  - apply bind_Some in Hx as (task & _ & [= <-]). apply (epochs_fewer y); [apply fewer_refl|auto|done].
  - injection Hx as <-. apply (epochs_fewer y); [|auto|done]. apply fewer_fold. intros; apply fewer_cancel.
  - injection Hx as <-. apply (epochs_fewer y); [apply fewer_actor_move|auto|done].
Qed.
Lemma both_steps y y' : rtc can_step y y' → can_sys_inv y ∧ epochs_ok y → can_sys_inv y' ∧ epochs_ok y'.
Proof. induction 1 as [|? ? ? [ev Hx]]; [done|]. intros []. eauto using sys_step, epochs_step. Qed.
Lemma epochs_init : epochs_ok CanSystem_init.
Proof. split; cbn; intros *; rewrite ?lookup_empty; done. Qed.
Lemma both_reachable y : can_reachable y → can_sys_inv y ∧ epochs_ok y.
Proof. intros Hr. eapply both_steps; [done|]. split; [apply can_sys_init|apply epochs_init]. Qed.

(** ** How a session ends *)
Definition active_of (y : CanSystem) : gmap SessionId ActiveSession := mg_active (cw_state (cy_world y)).
Definition finished_of (y : CanSystem) : gset Z := fg_finished (cw_flags (cy_world y)).
(** The actor of a session, still registered, has ended. *)
Definition actor_died (w : CanWorld) (a : ActiveSession) : Prop :=
  ∃ en, mg_actors (cw_state w) !! xs_resource_id a = Some en ∧ ae_epoch en = xs_actor_epoch a
        ∧ ae_handle en ∈ fg_finished (cw_flags w).
Lemma retires_keep w r l s :
  s ∉ l → mg_active (cw_state (foldl (λ w s, retire_session w r s) w l)) !! s
          = mg_active (cw_state w) !! s.
Proof.
  revert w. induction l as [|x l IH]; intros w Hs; cbn; [done|].
  apply not_elem_of_cons in Hs as [Hne Hs]. rewrite IH by done. unfold retire_session.
  destruct (mg_active (cw_state w) !! x) as [a|]; [|done]. unfold remember_closed.
  destruct (negb _ || _); [destruct (bool_decide (x ∈ fg_health _))|];
    cbn; destruct (can_evict_closed _ _); cbn; by rewrite lookup_delete_ne.
Qed.
Lemma cancels_keep w b l :
  mg_active (cw_state (foldl (λ w s, cancel_pending w b s) w l)) = mg_active (cw_state w).
Proof.
  revert w. induction l as [|x l IH]; intros w; cbn; [done|]. rewrite IH. unfold cancel_pending.
  by destruct (mg_pending _ !! x).
Qed.
Lemma reconcile_keeps w r s a :
  mg_active (cw_state w) !! s = Some a →
  mg_active (cw_state (reconcile_finished_actor w r)) !! s = Some a ∨ actor_died w a.
Proof.
  intros Ha. unfold reconcile_finished_actor. destruct (mg_actors (cw_state w) !! r) as [en|] eqn:Hen; [|by left].
  unfold is_finished. case_bool_decide as Hfin; cbn [negb]; [|by left]. rewrite cancels_keep.
  set (v := set_cw_state w _). destruct (decide (s ∈ actor_sessions (cw_state v) r (ae_epoch en))) as [Hin|Hno].
  - right. apply list_elem_of_fmap in Hin as ([s' a'] & -> & [[Hr He] Hin]%list_elem_of_filter).
    apply elem_of_map_to_list in Hin. cbn in *. rewrite Ha in Hin. injection Hin as <-. subst r.
    by exists en.
  - left. by rewrite retires_keep.
Qed.
Lemma reconcile_session_keeps w s' s a :
  mg_active (cw_state w) !! s = Some a →
  mg_active (cw_state (reconcile_session w s')) !! s = Some a ∨ actor_died w a.
Proof.
  unfold reconcile_session. destruct (mg_active (cw_state w) !! s'); [apply reconcile_keeps|by left].
Qed.
Lemma guard_drop_keeps w s b : mg_active (cw_state (can_guard_drop w s b)) = mg_active (cw_state w).
Proof. unfold can_guard_drop. cbn. by destruct (mg_pending _ !! s), b. Qed.
Lemma assign_keeps w r s adm sp h w' res :
  can_open_assign w r s adm sp h = (w', res) →
  mg_active (cw_state w') = mg_active (cw_state (reconcile_finished_actor w r)).
Proof.
  unfold can_open_assign. destruct (mg_actors _ !! r); [|destruct (checked_add _ _ _)];
    [destruct adm|destruct sp|]; by intros [= <- _].
Qed.
Lemma finish_close_keeps w s' tok r f fin e s :
  s ≠ s' → mg_active (cw_state (finish_close w s' tok r f fin e)) !! s = mg_active (cw_state w) !! s.
Proof.
  intros Hne. unfold finish_close. destruct (mg_active (cw_state w) !! s') as [a|]; [|done].
  unfold remember_closed. cbn. destruct (can_evict_closed _ _).
  destruct f; [destruct (bool_decide (s' ∈ fg_health _))|]; cbn; destruct (_ && _); cbn;
    by rewrite lookup_delete_ne.
Qed.
(** One step of the life of an active session. *)
Inductive session_move (y y' : CanSystem) (s : SessionId) (a : ActiveSession) : Prop :=
  | SessionStays : active_of y' !! s = Some a →
      (∀ task, task ∈ cy_closes y' → ct_session task = s → task ∈ cy_closes y) →
      session_move y y' s a
  | SessionCloses : xs_closing a = false → xs_actor a ∉ finished_of y → session_move y y' s a
  | SessionEnds task : task ∈ cy_closes y → ct_session task = s → session_move y y' s a
  | SessionDies : actor_died (cy_world y) a → session_move y y' s a.
Lemma stays_or_dies y y' s a :
  cy_closes y' = cy_closes y → active_of y' !! s = Some a ∨ actor_died (cy_world y) a →
  session_move y y' s a.
Proof. intros Hc [?|?]; [|by apply SessionDies]. apply SessionStays; [done|]. by rewrite Hc. Qed.
Lemma close_begin_move y s' tok enq w' next s a :
  can_close_begin (cy_world y) s' tok enq = (w', next) → active_of y !! s = Some a →
  (mg_active (cw_state w') !! s = Some a ∧
   match next with CloseReturns _ => True | CloseWaits task => ct_session task ≠ s end)
  ∨ actor_died (cy_world y) a
  ∨ ∃ task, next = CloseWaits task ∧ xs_closing a = false ∧ ct_actor task = xs_actor a.
Proof.
  unfold can_close_begin. intros Hb Ha.
  destruct (reconcile_session_keeps _ s' _ _ Ha) as [Hk|Hd]; [|by right; left].
  set (v := reconcile_session (cy_world y) s') in *.
  destruct (mg_active (cw_state v) !! s') as [a'|] eqn:Ha'; [|injection Hb as <- <-; by left].
  destruct (CanLeaseTable_validate _ _ _ _ _ _ _); [|injection Hb as <- <-; by left].
  destruct (xs_closing a') eqn:Hcl; [injection Hb as <- <-; by left|].
  destruct enq; [|injection Hb as <- <-; by left]. injection Hb as <- <-.
  destruct (decide (s' = s)) as [-> |Hne].
  - rewrite Hk in Ha'. injection Ha' as <-. right. right. by eexists.
  - left. cbn. by rewrite lookup_insert_ne.
Qed.
Lemma session_commit y s' fresh y' s a :
  can_sys_inv y → can_exec y (CvCommit s' fresh) = Some y' → active_of y !! s = Some a →
  session_move y y' s a.
Proof.
  intros Hi Hx Ha.
  apply bind_Some in Hx as (task & Ht & Hx). apply bind_Some in Hx as ([h ep] & Hact & Hx).
  apply bind_Some in Hx as ([w' res] & Hco & Hx). apply (inj Some) in Hx as <-. destruct Hi as [Hi _].
  destruct (commit_outcomes _ s' h ep fresh task _ _ Ht Hact Hi) as (w'' & res' & Hco' & Hres).
  rewrite Hco in Hco'. injection Hco' as <- <-.
  destruct (reconcile_keeps _ (ot_resource task) _ _ Ha) as [Hk|Hd]; [|by apply SessionDies].
  apply SessionStays; [|done]. unfold active_of. destruct res as [tok|e]; cbn [is_ok cy_world with_can_opens with_world].
  - destruct Hres as [[t ->] _]. cbn. rewrite lookup_insert_ne; [done|]. intros ->.
    destruct (co_opens _ _ _ Hi _ _ Ht) as (_ & Hn & _). unfold active_of in Ha. congruence.
  - rewrite guard_drop_keeps. unfold can_open_commit in Hco.
    destruct (mg_pending _ !! s'); [|by injection Hco as <- _].
    destruct (CanLeaseTable_commit _ _ _) as [t [tok|e']]; [by apply bind_Some in Hco as (? & _ & [=])|].
    by injection Hco as <- _.
Qed.
Lemma session_close y s' tok enq y' s a :
  can_exec y (CvClose s' tok enq) = Some y' → active_of y !! s = Some a → session_move y y' s a.
Proof.
  intros Hx Ha.
  cbn in Hx. destruct (can_close_begin _ _ _ _) as [w' next] eqn:Hb.
  destruct (close_begin_move _ _ _ _ _ _ _ _ Hb Ha) as [[Hk Hn]|[Hd|(task & -> & Hcl & Hact)]].
  + destruct next as [r|task]; [|destruct (is_finished _ _); [done|]]; injection Hx as <-.
    * by apply SessionStays.
    * apply SessionStays; [done|]. cbn. intros t [-> |?]%elem_of_cons Hs; done.
  + by apply SessionDies.
  + apply SessionCloses; [done|]. unfold is_finished in Hx. case_bool_decide as Hfin; [done|].
    intros Hin. apply Hfin. rewrite Hact.
    assert (fg_finished (cw_flags w') = finished_of y) as ->; [|done].
    pose proof (sh_finished _ _ (proj1 (tidies_reconcile_session (cy_world y) s'))) as Hf.
    unfold can_close_begin in Hb. destruct (mg_active _ !! s'); [|done].
    destruct (CanLeaseTable_validate _ _ _ _ _ _ _); [|done]. destruct (xs_closing _); [done|].
    destruct enq; [|done]. by injection Hb as <- _.
Qed.
Lemma session_step y ev y' s a :
  can_sys_inv y → can_exec y ev = Some y' → active_of y !! s = Some a → session_move y y' s a.
Proof.
  intros Hi Hx Ha. destruct ev as [r s' o m fresh|s' adm sp|s' fresh|s'|s' tok mode op|s' tok enq|n f fin|n|o|m].
  - cbn in Hx. case_bool_decide; [done|]. unfold can_open_reserve in Hx.
    destruct (CanLeaseTable_reserve _ _ _ _ _ _) as [t [rv|e]]; injection Hx as <-;
      (apply stays_or_dies; [done|]); by apply reconcile_keeps.
  - apply bind_Some in Hx as (task & Ht & Hx). destruct (is_some _); [done|].
    destruct (can_open_assign _ _ _ _ _ _) as [w' res] eqn:Has. apply assign_keeps in Has.
    destruct res; apply (inj Some) in Hx as <-; (apply stays_or_dies; [done|]); unfold active_of;
      cbn [cy_world with_can_opens with_world]; rewrite ?guard_drop_keeps, Has; by apply reconcile_keeps.
  - by eapply session_commit.
  - apply bind_Some in Hx as (task & _ & Hx). apply (inj Some) in Hx as <-.
    apply stays_or_dies; [done|]. left. unfold active_of. cbn [cy_world with_can_opens with_world].
    by rewrite guard_drop_keeps.
  - injection Hx as <-. apply stays_or_dies; [done|]. by apply reconcile_session_keeps.
  - by eapply session_close.
  - apply bind_Some in Hx as (task & Hn & [= <-]). destruct (decide (s = ct_session task)) as [-> |Hne].
    + eapply SessionEnds; [by eapply list_elem_of_lookup_2|done].
    + apply SessionStays; [unfold active_of; cbn; by rewrite finish_close_keeps|].
      cbn. intros t ?%list_elem_of_delete_inv _. done.
  - apply bind_Some in Hx as (task & _ & [= <-]). apply SessionStays; [done|].
    cbn. intros t ?%list_elem_of_delete_inv _. done.
  - injection Hx as <-. apply stays_or_dies; [done|]. left. unfold active_of. cbn. by rewrite cancels_keep.
  - injection Hx as <-. apply stays_or_dies; [done|]. left. by destruct m.
Qed.

(** ** What only grows *)
Record grows (w w' : CanWorld) : Prop := {
  gw_epoch : mg_next_actor_epoch (cw_state w) <= mg_next_actor_epoch (cw_state w');
  gw_actors r en : mg_actors (cw_state w') !! r = Some en →
    mg_actors (cw_state w) !! r = Some en ∨ mg_next_actor_epoch (cw_state w) < ae_epoch en;
  gw_finished : fg_finished (cw_flags w) ⊆ fg_finished (cw_flags w');
}.
Lemma grows_refl w : grows w w.
Proof. split; [done| |done]. intros; by left. Qed.
Lemma grows_trans w1 w2 w3 : grows w1 w2 → grows w2 w3 → grows w1 w3.
Proof.
  intros [E1 A1 F1] [E2 A2 F2]. split; [lia| |set_solver].
  intros r en [Hen|?]%A2; [by apply A1|]. right. lia.
Qed.
Lemma grows_fewer w w' : fewer w w' → fg_finished (cw_flags w) ⊆ fg_finished (cw_flags w') → grows w w'.
Proof.
  intros [Ha He _] Hf. split; [done| |done]. intros r en Hen. left. by eapply lookup_weaken.
Qed.
Lemma grows_tidies w w' : tidies w w' → fewer w w' → grows w w'.
Proof. intros [[_ _ Hf _] _] Hfw. apply grows_fewer; [done|by rewrite Hf]. Qed.
Lemma grows_reconcile w r : grows w (reconcile_finished_actor w r).
Proof. apply grows_tidies; [apply tidies_reconcile|apply fewer_reconcile]. Qed.
Lemma grows_reconcile_session w s : grows w (reconcile_session w s).
Proof. apply grows_tidies; [apply tidies_reconcile_session|apply fewer_reconcile_session]. Qed.
Lemma grows_guard_drop w s b : grows w (can_guard_drop w s b).
Proof. apply grows_tidies; [apply guard_drop_tidies|apply fewer_guard_drop]. Qed.
Lemma grows_finish_close w s tok r f fin e : grows w (finish_close w s tok r f fin e).
Proof.
  apply grows_fewer; [apply fewer_finish_close|]. unfold finish_close.
  destruct (mg_active _ !! s); [|done]. unfold remember_closed. cbn. destruct (can_evict_closed _ _).
  destruct f; [destruct (bool_decide (s ∈ fg_health _))|]; cbn; by destruct (_ && _).
Qed.
(** A world that agrees on actors, epoch and finished actors. *)
Lemma grows_same w w' v :
  grows w v → mg_actors (cw_state w') = mg_actors (cw_state v) →
  mg_next_actor_epoch (cw_state w') = mg_next_actor_epoch (cw_state v) →
  fg_finished (cw_flags w') = fg_finished (cw_flags v) → grows w w'.
Proof. intros [E A F] Ha He Hf. split; [by rewrite He|by rewrite Ha|by rewrite Hf]. Qed.
Lemma grows_assign w r s adm sp h w' res : can_open_assign w r s adm sp h = (w', res) → grows w w'.
Proof.
  unfold can_open_assign. intros Has. eapply grows_trans; [apply (grows_reconcile w r)|].
  set (v := reconcile_finished_actor w r) in *. destruct (mg_actors (cw_state v) !! r) eqn:Hr.
  - destruct adm; injection Has as <- _; by eapply grows_same; [apply grows_refl|..].
  - destruct (checked_add _ _ _) as [ep|] eqn:Hep; [|injection Has as <- _; apply grows_refl].
    apply checked_add_Some in Hep as [-> _]. destruct sp; injection Has as <- _; (split; cbn; [lia| |done]).
    + intros r' en [[<- <-]|[_ ?]]%lookup_insert_Some; [right; cbn; lia|by left].
    + intros r' en. by left.
Qed.
Lemma grows_close_begin w s tok enq : grows w (can_close_begin w s tok enq).1.
Proof.
  unfold can_close_begin. pose proof (grows_reconcile_session w s) as Hg.
  destruct (mg_active _ !! s); [|done]. destruct (CanLeaseTable_validate _ _ _ _ _ _ _); [|done].
  destruct (xs_closing _); [done|]. destruct enq; [|done]. by eapply grows_same; [exact Hg|..].
Qed.
Lemma exec_grows y ev y' : can_exec y ev = Some y' → grows (cy_world y) (cy_world y').
Proof.
  destruct ev as [r s o m fresh|s adm sp|s fresh|s|s tok mode op|s tok enq|n f fin|n|o|m]; intros Hx.
  - unfold can_exec, can_open_reserve in Hx. case_bool_decide; [done|].
    pose proof (grows_reconcile (cy_world y) r) as Hg.
    destruct (CanLeaseTable_reserve _ _ _ _ _ _) as [t [rv|e]]; injection Hx as <-;
      by eapply grows_same; [exact Hg|..].
  - apply bind_Some in Hx as (task & Ht & Hx). destruct (is_some _); [done|].
    destruct (can_open_assign _ _ _ _ _ _) as [w' res] eqn:Has. apply grows_assign in Has.
    destruct res; apply (inj Some) in Hx as <-; [done|]. eapply grows_trans; [done|].
    apply (grows_guard_drop w' s false).
  - apply bind_Some in Hx as (task & Ht & Hx). apply bind_Some in Hx as ([h ep] & Hact & Hx).
    apply bind_Some in Hx as ([w' res] & Hco & Hx). apply (inj Some) in Hx as <-.
    assert (grows (cy_world y) w') as Hw'.
    { pose proof (grows_reconcile (cy_world y) (ot_resource task)) as Hg. unfold can_open_commit in Hco.
      destruct (mg_pending _ !! s); [|by injection Hco as <- _].
      destruct (CanLeaseTable_commit _ _ _) as [t [tok|e]].
      - apply bind_Some in Hco as (? & _ & [= <- _]). by eapply grows_same; [exact Hg|..].
      - injection Hco as <- _. by eapply grows_same; [exact Hg|..]. }
    cbn [cy_world with_can_opens with_world]. destruct (is_ok res); [done|].
    eapply grows_trans; [done|]. apply (grows_guard_drop w' s true).
  - apply bind_Some in Hx as (task & _ & Hx). apply (inj Some) in Hx as <-. apply grows_guard_drop.
  - injection Hx as <-. apply grows_reconcile_session.
  - unfold can_exec in Hx. pose proof (grows_close_begin (cy_world y) s tok enq) as Hg.
    destruct (can_close_begin _ _ _ _) as [w' [r|task]]; [|destruct (is_finished _ _); [done|]];
      by injection Hx as <-.
  - apply bind_Some in Hx as (task & _ & [= <-]). apply grows_finish_close.
  - apply bind_Some in Hx as (task & _ & [= <-]). apply grows_refl.
  - injection Hx as <-. apply grows_tidies; [apply tidies_cancels|].
    apply fewer_fold. intros; apply fewer_cancel.
  - injection Hx as <-. apply grows_fewer; [apply fewer_actor_move|]. destruct m; cbn; set_solver.
Qed.
Lemma steps_grow y y' : rtc can_step y y' → grows (cy_world y) (cy_world y').
Proof.
  induction 1 as [|? ? ? [ev Hx]]; [apply grows_refl|]. eapply grows_trans; [by eapply exec_grows|done].
Qed.

(** ** Sessions that cannot end *)
Definition no_close (y : CanSystem) (s : SessionId) : Prop :=
  ∀ task, task ∈ cy_closes y → ct_session task ≠ s.
(** Its actor has ended and is no longer registered: reconciliation cannot find it, and an
    ended actor accepts no removal. *)
Record orphaned (y : CanSystem) (s : SessionId) (a : ActiveSession) : Prop := {
  or_active : active_of y !! s = Some a;
  or_finished : xs_actor a ∈ finished_of y;
  or_epoch : xs_actor_epoch a <= mg_next_actor_epoch (cw_state (cy_world y));
  or_forgotten en : mg_actors (cw_state (cy_world y)) !! xs_resource_id a = Some en →
    ae_epoch en ≠ xs_actor_epoch a;
  or_no_close : no_close y s;
}.
Lemma orphaned_step y ev y' s a :
  can_sys_inv y → can_exec y ev = Some y' → orphaned y s a → orphaned y' s a.
Proof.
  intros Hi Hx [Ha Hf He Hn Hc]. pose proof (exec_grows _ _ _ Hx) as [Ge Gx Gf].
  destruct (session_step _ _ _ _ _ Hi Hx Ha) as [Hstay Hnew|Hcl Hnf|task Hin Hs|(en & Hen & Heq & _)].
  - split; [done|set_solver|lia| |].
    + intros en [Hen|?]%Gx; [by apply Hn|lia].
    + intros task Hin Hs. by apply (Hc task (Hnew task Hin Hs)).
  - done.
  - by destruct (Hc task Hin).
  - by destruct (Hn en Hen).
Qed.
Lemma orphaned_steps y y' s a :
  rtc can_step y y' → can_sys_inv y → orphaned y s a → can_sys_inv y' ∧ orphaned y' s a.
Proof. induction 1 as [|? ? ? [ev Hx]]; [done|]. intros. eauto using sys_step, orphaned_step. Qed.
(** Its close was dropped after it had marked the session. *)
Record stranded (y : CanSystem) (s : SessionId) (a : ActiveSession) : Prop := {
  st_active : active_of y !! s = Some a;
  st_closing : xs_closing a = true;
  st_no_close : no_close y s;
}.
Lemma stranded_step y ev y' s a :
  can_sys_inv y → epochs_ok y → can_exec y ev = Some y' → stranded y s a →
  stranded y' s a ∨ xs_actor a ∈ finished_of y.
Proof.
  intros Hi He Hx [Ha Hcl Hc].
  destruct (session_step _ _ _ _ _ Hi Hx Ha) as [Hstay Hnew|Hcl' Hnf|task Hin Hs|(en & Hen & Heq & Hfin)].
  - left. split; [done|done|]. intros task Hin Hs. by apply (Hc task (Hnew task Hin Hs)).
  - congruence.
  - by destruct (Hc task Hin).
  - right. destruct (ep_active _ He _ _ Ha) as [_ Hname]. by rewrite <- (Hname _ _ Hen Heq).
Qed.
Lemma stranded_steps y y' s a :
  rtc can_step y y' → can_sys_inv y → epochs_ok y → stranded y s a →
  stranded y' s a ∨ xs_actor a ∈ finished_of y'.
Proof.
  induction 1 as [|y1 y2 y3 [ev Hx] Hr IH]; [by left|]. intros Hi He Hs.
  destruct (stranded_step _ _ _ _ _ Hi He Hx Hs) as [Hs'|Hfin].
  - apply IH; eauto using sys_step, epochs_step.
  - right. pose proof (exec_grows _ _ _ Hx) as [_ _ G1]. pose proof (steps_grow _ _ Hr) as [_ _ G2].
    unfold finished_of in *. set_solver.
Qed.

(** ** A revoked open *)
(** A session that was drawn and is neither pending nor active stays so. *)
Record gone (y : CanSystem) (s : SessionId) : Prop := {
  gn_used : s ∈ cy_used y;
  gn_pending : mg_pending (cw_state (cy_world y)) !! s = None;
  gn_active : active_of y !! s = None;
}.
Lemma gone_shrinks y y' s :
  cy_used y' = cy_used y → shrinks (cy_world y) (cy_world y') → gone y s → gone y' s.
Proof.
  intros Hu [Ha Hp _ _] [Hg1 Hg2 Hg3]. split; [by rewrite Hu| |].
  - eapply lookup_weaken_None; [exact Hg2|exact Hp].
  - eapply lookup_weaken_None; [exact Hg3|exact Ha].
Qed.
Lemma gone_reconciled y r s : gone y s →
  mg_pending (cw_state (reconcile_finished_actor (cy_world y) r)) !! s = None
  ∧ mg_active (cw_state (reconcile_finished_actor (cy_world y) r)) !! s = None.
Proof.
  intros [_ Hp Ha]. destruct (tidies_reconcile (cy_world y) r) as [[Sa Sp _ _] _].
  split; eapply lookup_weaken_None; [exact Hp|done|exact Ha|done].
Qed.
Lemma gone_close_begin y s' tok enq s :
  gone y s → let w' := (can_close_begin (cy_world y) s' tok enq).1 in
  mg_pending (cw_state w') !! s = None ∧ mg_active (cw_state w') !! s = None.
Proof.
  intros [_ Hp Ha]. cbn. unfold can_close_begin.
  destruct (tidies_reconcile_session (cy_world y) s') as [[Sa Sp _ _] _].
  assert (mg_pending (cw_state (reconcile_session (cy_world y) s')) !! s = None) as Hp'
    by (by eapply lookup_weaken_None).
  assert (mg_active (cw_state (reconcile_session (cy_world y) s')) !! s = None) as Ha'
    by (by eapply lookup_weaken_None).
  destruct (mg_active _ !! s') as [a|] eqn:Hs'; [|done].
  destruct (CanLeaseTable_validate _ _ _ _ _ _ _); [|done]. destruct (xs_closing a); [done|].
  destruct enq; [|done]. cbn. split; [done|]. rewrite lookup_insert_ne; [done|]. congruence.
Qed.
Lemma gone_assign y s' adm sp y' s :
  can_exec y (CvAssign s' adm sp) = Some y' → gone y s → gone y' s.
Proof.
  intros Hx Hg. pose proof (Hg) as [Hu Hp Ha].
  apply bind_Some in Hx as (task & Ht & Hx). destruct (is_some _); [done|].
  destruct (can_open_assign _ _ _ _ _ _) as [w' res] eqn:Has.
  destruct (gone_reconciled y (ot_resource task) s Hg) as [Hp' Ha'].
  pose proof (assign_keeps _ _ _ _ _ _ _ _ Has) as Hact.
  destruct res as [actor|e]; apply (inj Some) in Hx as <-.
  - split; [done| |unfold active_of; cbn; by rewrite Hact]. unfold can_open_assign in Has. cbn.
    assert (∀ ep, alter (λ p, mkPendingSession (ps_reservation p) (Some ep)) s'
      (mg_pending (cw_state (reconcile_finished_actor (cy_world y) (ot_resource task)))) !! s = None) as Halt.
    { intros ep. destruct (decide (s' = s)) as [-> |?];
        [by rewrite lookup_alter_eq, Hp'|by rewrite lookup_alter_ne]. }
    destruct (mg_actors _ !! _); [|destruct (checked_add _ _ _); [|done]];
      [destruct adm; [|done]|destruct sp; [|done]]; injection Has as <- _; apply Halt.
  - apply (gone_shrinks y); [| |exact Hg]; [done|]. cbn [cy_world with_can_opens with_world].
    eapply shrinks_trans; [by eapply (assign_Err (cy_world y))|apply guard_drop_tidies].
Qed.
Lemma gone_commit y s' fresh y' s :
  can_sys_inv y → can_exec y (CvCommit s' fresh) = Some y' → gone y s → gone y' s.
Proof.
  intros Hi Hx Hg. pose proof (Hg) as [Hu Hp Ha].
  apply bind_Some in Hx as (task & Ht & Hx). apply bind_Some in Hx as ([h ep] & Hact & Hx).
  apply bind_Some in Hx as ([w' res] & Hco & Hx). apply (inj Some) in Hx as <-.
  destruct Hi as [Hi _]. destruct (commit_outcomes _ s' h ep fresh task _ _ Ht Hact Hi) as (w'' & res' & Hco' & Hres).
  rewrite Hco in Hco'. injection Hco' as <- <-.
  destruct (gone_reconciled y (ot_resource task) s Hg) as [Hp' Ha'].
  destruct res as [tok|e]; cbn [is_ok].
  - destruct Hres as [[t ->] _]. assert (s' ≠ s) as Hne.
    { intros ->. unfold can_open_commit in Hco. by rewrite Hp' in Hco. }
    split; [done| |]; unfold active_of; cbn; [by rewrite lookup_delete_ne|by rewrite lookup_insert_ne].
  - apply (gone_shrinks y); [| |exact Hg]; [done|]. cbn [cy_world with_can_opens with_world].
    eapply shrinks_trans; [apply Hres|apply guard_drop_tidies].
Qed.
Lemma gone_step y ev y' s : can_sys_inv y → can_exec y ev = Some y' → gone y s → gone y' s.
Proof.
  intros Hi Hx Hg. pose proof (Hg) as [Hu Hp Ha].
  destruct ev as [r s' o m fresh|s' adm sp|s' fresh|s'|s' tok mode op|s' tok enq|n f fin|n|o|m].
  - unfold can_exec, can_open_reserve in Hx. case_bool_decide as Hu'; [done|].
    destruct (gone_reconciled y r s Hg) as [Hp' Ha'].
    destruct (CanLeaseTable_reserve _ _ _ _ _ _) as [t [rv|e]]; injection Hx as <-;
      (split; [set_solver| |done]); cbn; [|done]. rewrite lookup_insert_ne; [done|set_solver].
  - by eapply gone_assign.
  - by eapply gone_commit.
  - apply bind_Some in Hx as (task & _ & Hx). apply (inj Some) in Hx as <-.
    apply (gone_shrinks y); [done| |exact Hg]. apply guard_drop_tidies.
  - injection Hx as <-. apply (gone_shrinks y); [done| |exact Hg]. apply tidies_reconcile_session.
  - unfold can_exec in Hx. destruct (gone_close_begin y s' tok enq s Hg) as [Hp' Ha'].
    destruct (can_close_begin _ _ _ _) as [w' [r|task]]; [|destruct (is_finished _ _); [done|]];
      injection Hx as <-; by split.
  - apply bind_Some in Hx as (task & Hn & [= <-]).
    destruct (sys_close_end_shrinks y n task f (fin && is_finished (cy_world y) (ct_actor task)) Hn Hi) as [Hs _].
    by apply (gone_shrinks y); [|exact Hs|exact Hg].
  - apply bind_Some in Hx as (task & _ & [= <-]). by split.
  - injection Hx as <-. apply (gone_shrinks y); [done| |exact Hg]. apply tidies_cancels.
  - injection Hx as <-. destruct m; by split.
Qed.
Lemma gone_steps y y' s : rtc can_step y y' → can_sys_inv y → gone y s → can_sys_inv y' ∧ gone y' s.
Proof. induction 1 as [|? ? ? [ev Hx]]; [done|]. intros. eauto using sys_step, gone_step. Qed.
Lemma cancels_none w b l s :
  s ∈ l ∨ mg_pending (cw_state w) !! s = None →
  mg_pending (cw_state (foldl (λ w s, cancel_pending w b s) w l)) !! s = None.
Proof.
  revert w. induction l as [|x l IH]; intros w Hs; cbn.
  { destruct Hs as [?%elem_of_nil|?]; done. }
  apply IH. unfold cancel_pending. destruct (mg_pending (cw_state w) !! x) as [q|] eqn:Hx; cbn.
  - destruct (decide (s = x)) as [-> |Hne]; [right; apply lookup_delete_eq|].
    destruct Hs as [[?|?]%elem_of_cons|?]; [done|by left|right]. by rewrite lookup_delete_ne.
  - destruct (decide (s = x)) as [-> |Hne]; [by right|].
    destruct Hs as [[?|?]%elem_of_cons|?]; [done|by left|by right].
Qed.
Lemma revoke_gone y o y' s task :
  can_sys_inv y → cy_opens y !! s = Some task → ot_owner task = o →
  can_exec y (CvRevoke o) = Some y' → gone y' s.
Proof.
  intros [Hi _] Ht Hw [= <-]. destruct (co_opens _ _ _ Hi _ _ Ht) as (Hu & Hn & _).
  split; [done| |unfold active_of; cbn; by rewrite cancels_keep]. cbn. apply cancels_none.
  destruct (mg_pending (cw_state (cy_world y)) !! s) as [q|] eqn:Hq; [left|by right].
  destruct (co_pending _ _ _ Hi _ _ Hq) as (_ & task' & Ht' & _ & Hqo & _).
  apply list_elem_of_fmap. exists (s, q). split; [done|]. apply list_elem_of_filter.
  split; [congruence|]. by apply elem_of_map_to_list.
Qed.
Lemma not_held w opens used s r m ph :
  core_inv w opens used → mg_pending (cw_state w) !! s = None → mg_active (cw_state w) !! s = None →
  ¬ held (leases_of (mg_leases (cw_state w)) r) s m ph.
Proof.
  intros Hi Hp Ha. destruct (co_tracks _ _ _ Hi) as [Tp Tg]. destruct ph; cbn.
  - intros (p & (q & Hq & _)%Tp & _). congruence.
  - intros (e & (a & Ha' & _)%Tg). congruence.
Qed.
