(* ===== verification/CanManagerTheorems.v ===== *)
(** * The CAN manager: main theorems

    Theorems about [CanManager], with runs that show their hypotheses can hold. *)

From S2P Require Import Prelude Core Lifecycle CanLeaseTable CanTypes CanActor CanManager.
From S2P Require Import CanManagerInv CanManagerSpec.

(** ** Runs *)
Definition can_run (events : list CanEvent) : option CanSystem :=
  foldl (λ y ev, y ≫= λ y, can_exec y ev) (Some CanSystem_init) events.
Lemma can_run_reachable events y : can_run events = Some y → can_reachable y.
Proof.
  unfold can_run, can_reachable. generalize CanSystem_init. induction events as [|ev events IH]; cbn.
  - intros y0 [= ->]. apply rtc_refl.
  - intros y0 Hr. destruct (can_exec y0 ev) as [y1|] eqn:Hx.
    + eapply rtc_l; [by exists ev|]. by apply IH.
    + exfalso. clear IH. by induction events.
Qed.
Definition mx_resource : ResourceId := mkResourceId "can:0".
Definition mx_a : SessionId := mkSessionId "a".
Definition mx_b : SessionId := mkSessionId "b".
Definition mx_owner : OwnerId := mkOwnerId "owner".
Definition mx_lease : LeaseId := mkLeaseId "lease".
Definition mx_token (g : Z) (m : LeaseMode) : LeaseToken := mkLeaseToken mx_lease g m.
Definition mx_open (s : SessionId) (m : LeaseMode) : list CanEvent :=
  [CvReserve mx_resource s mx_owner m mx_lease; CvAssign s (Ok ()) (Ok ()); CvCommit s mx_lease].
(** An observer and a controller share one actor. *)
Definition mx_shared : list CanEvent := mx_open mx_a Observe ++ mx_open mx_b Control.
Definition mx_default (events : list CanEvent) : CanSystem := default CanSystem_init (can_run events).
(** The observer's close is under way when the actor dies. *)
Definition mx_orphan : list CanEvent :=
  mx_shared ++ [CvClose mx_a (mx_token 1 Observe) (Ok ()); CvActor (ActorEnds 0); CvCloseEnd 0 true true].
(** The controller's close is dropped. *)
Definition mx_stranded : list CanEvent :=
  mx_shared ++ [CvClose mx_b (mx_token 2 Control) (Ok ()); CvCloseDropped 0].
Definition mx_closed : list CanEvent :=
  mx_open mx_a Observe ++ [CvClose mx_a (mx_token 1 Observe) (Ok ()); CvCloseEnd 0 false false].
Lemma mx_reachable events : is_some (can_run events) = true → can_reachable (mx_default events).
Proof.
  unfold mx_default. destruct (can_run events) as [y|] eqn:Hr; [|done]. intros _.
  by eapply can_run_reachable.
Qed.
Ltac run_reachable := apply mx_reachable; vm_compute; reflexivity.
Definition mx_session (g : Z) (m : LeaseMode) (closing : bool) : ActiveSession :=
  mkActiveSession mx_resource mx_owner (mx_token g m) 0 1 closing.

(** ** Leases *)
(** The manager's books and the lease table agree in every interleaving of opens,
    closes, revocations, cancelled calls and actors that die: a lease is granted exactly for
    each active session, with its owner and token; a lease is reserved exactly for each open
    in progress that was not revoked; and two active sessions of one resource have
    compatible modes. *)
Theorem can_manager_leases y :
  can_reachable y →
  let st := cw_state (cy_world y) in
  (∀ r s m e, granted (leases_of (mg_leases st) r) s m e ↔
     ∃ a, mg_active st !! s = Some a ∧ xs_resource_id a = r
       ∧ e = mkLeaseEntry s (xs_owner_id a) (xs_token a) ∧ m = token_mode (xs_token a))
  ∧ (∀ r s, (∃ p, pending (leases_of (mg_leases st) r) !! s = Some p) ↔
       ∃ q task, mg_pending st !! s = Some q ∧ cy_opens y !! s = Some task ∧ ot_resource task = r)
  ∧ (∀ s s' a a', mg_active st !! s = Some a → mg_active st !! s' = Some a' → s ≠ s' →
       xs_resource_id a = xs_resource_id a' →
       compatible (token_mode (xs_token a)) (token_mode (xs_token a')) = true).
Proof.
  intros [Hi _]%sys_reachable st. destruct (co_tracks _ _ _ Hi) as [Tp Tg]. split_and!; [done|..].
  - intros r s. split.
    + intros (p & (q & Hq & Hrv)%Tp). destruct (co_pending _ _ _ Hi _ _ Hq) as (_ & task & Ht & Hr & _).
      exists q, task. split_and!; [done..|]. by rewrite <- Hr, Hrv.
    + intros (q & task & Hq & Ht & <-). destruct (co_pending _ _ _ Hi _ _ Hq) as (Hs & task' & Ht' & Hr & _).
      rewrite Ht in Ht'. injection Ht' as <-. rewrite <- Hr.
      pose proof (tracks_pending_entry _ _ _ _ _ (co_tracks _ _ _ Hi) Hq Hs) as Hp. by eexists.
  - intros s s' a a' Ha Ha' Hne Hr.
    destruct (lo_exclusive _ (table_ok_leases _ (xs_resource_id a) (co_table _ _ _ Hi))
      s (token_mode (xs_token a)) Granted s' (token_mode (xs_token a')) Granted) as [(? & _)|[_ ?]];
      [| |done|done]; eexists; apply Tg; by eexists.
Qed.
Lemma can_manager_leases_witness :
  active_of (mx_default mx_shared) !! mx_a = Some (mx_session 1 Observe false)
  ∧ active_of (mx_default mx_shared) !! mx_b = Some (mx_session 2 Control false)
  ∧ compatible Observe Control = true.
Proof.
  assert (can_reachable (mx_default mx_shared)) as Hr by run_reachable.
  assert (active_of (mx_default mx_shared) !! mx_a = Some (mx_session 1 Observe false)) as Ha
    by (vm_compute; reflexivity).
  assert (active_of (mx_default mx_shared) !! mx_b = Some (mx_session 2 Control false)) as Hb
    by (vm_compute; reflexivity).
  split; [exact Ha|]. split; [exact Hb|].
  destruct (can_manager_leases _ Hr) as (_ & _ & Hc).
  exact (Hc mx_a mx_b _ _ Ha Hb ltac:(discriminate) eq_refl).
Defined.

(** ** Events *)
(** Sessions are announced once: of the events of a session, those that tell of its
    opening and closing are, at any time, none, the opening, or the opening followed by the
    closing, with one lease generation; a session is active exactly between the two, and a
    session the manager remembers as closed was announced as closed with its token's
    generation. *)
Theorem can_session_announced y s :
  can_reachable y →
  let st := cw_state (cy_world y) in
  let announced := life_events (cw_events (cy_world y)) s in
  (∀ a, mg_active st !! s = Some a → announced = [(SessionOpened, token_generation (xs_token a))])
  ∧ (mg_active st !! s = None → announced = [] ∨ ∃ g, announced = open_close g)
  ∧ (∀ c, mg_closed st !! s = Some c → announced = open_close (token_generation (cc_token c))).
Proof.
  intros [Hi _]%sys_reachable. split_and!.
  - intros a Ha. by apply (co_active _ _ _ Hi).
  - apply (co_gone _ _ _ Hi).
  - apply (co_closed _ _ _ Hi).
Qed.
Lemma can_session_announced_witness :
  life_events (cw_events (cy_world (mx_default mx_closed))) mx_a = open_close 1.
Proof.
  assert (can_reachable (mx_default mx_closed)) as Hr by run_reachable.
  destruct (can_session_announced _ mx_a Hr) as (_ & _ & Hc).
  apply (Hc (mkClosedSession (mx_token 1 Observe) mx_resource)). vm_compute. reflexivity.
Defined.

(** ** I/O and closing *)
Lemma validate_granted t r s m e required op :
  leases_ok (leases_of t r) → granted (leases_of t r) s m e → mode_allows m required = true →
  CanLeaseTable_validate t r s (le_owner_id e) (le_token e) required op = Ok ().
Proof.
  intros Hok Hg Hm. unfold CanLeaseTable_validate. destruct (resources t !! r) as [l|] eqn:Hl.
  2:{ unfold leases_of in Hg. rewrite Hl in Hg. destruct m; cbn in Hg; rewrite ?lookup_empty in Hg;
      naive_solver. }
  apply leases_of_Some in Hl. rewrite Hl in *.
  rewrite (proj2 (active_entry_granted l s e Hok)) by eauto.
  destruct (lo_entries _ Hok _ _ _ Hg) as (_ & -> & _).
  rewrite !bool_decide_eq_false_2 by tauto. by rewrite Hm.
Qed.
(** I/O is fenced: a call gets at an actor exactly when, in the state it leaves, the
    session is active and not being closed, the token is the session's own and its mode
    allows the operation; the actor is then the session's. *)
Theorem can_io_fenced y s token mode operation handle r :
  can_reachable y →
  let outcome := session_actor (cy_world y) s token mode operation in
  outcome.2 = Ok (handle, r) ↔
  ∃ a, mg_active (cw_state outcome.1) !! s = Some a ∧ xs_token a = token
    ∧ mode_allows (token_mode token) mode = true ∧ xs_closing a = false
    ∧ xs_actor a = handle ∧ xs_resource_id a = r.
Proof.
  intros [Hi _]%sys_reachable. unfold session_actor. cbn [fst snd].
  apply (tidies_reconcile_session (cy_world y) s) in Hi. set (v := reconcile_session (cy_world y) s) in *.
  destruct (mg_active (cw_state v) !! s) as [a|] eqn:Ha.
  2:{ split; [done|]. by intros (? & ? & _). }
  assert (granted (leases_of (mg_leases (cw_state v)) (xs_resource_id a)) s (token_mode (xs_token a))
    (mkLeaseEntry s (xs_owner_id a) (xs_token a))) as Hg.
  { apply (tr_granted _ _ _ (co_tracks _ _ _ Hi)). by exists a. }
  rewrite bind_Ok. split.
  - intros ([] & Hv & Hres). destruct (validate_active _ _ _ _ _ _ _ _ Ha Hi Hv) as [<- Hm].
    destruct (xs_closing a) eqn:Hcl; [done|]. injection Hres as <- <-. by exists a.
  - intros (a' & [= <-] & <- & Hm & Hcl & <- & <-). exists (). rewrite Hcl. split; [|done].
    exact (validate_granted _ _ _ _ _ _ _ (table_ok_leases _ _ (co_table _ _ _ Hi)) Hg Hm).
Qed.
Lemma can_io_fenced_witness :
  (session_actor (cy_world (mx_default mx_shared)) mx_b (mx_token 2 Control) Control "can.send_batch").2
  = Ok (0, mx_resource).
Proof.
  assert (can_reachable (mx_default mx_shared)) as Hr by run_reachable.
  apply (can_io_fenced _ mx_b (mx_token 2 Control) Control "can.send_batch" 0 mx_resource Hr).
  exists (mx_session 2 Control false). split; [vm_compute; reflexivity|]. vm_compute. by repeat split.
Defined.

(** Closing is replayed exactly: for a session the manager remembers as closed (the last
    256), closing again changes nothing and succeeds with the session's token, reports a
    stale generation for an older one and an invalid token for any other. *)
Theorem can_close_replay y s c token enqueued :
  can_reachable y → mg_closed (cw_state (cy_world y)) !! s = Some c →
  ∃ result, can_close_begin (cy_world y) s token enqueued = (cy_world y, CloseReturns result)
    ∧ (result = Ok () ↔ token = cc_token c)
    ∧ (token ≠ cc_token c →
       rejected_with
         (if token_generation token <? token_generation (cc_token c)
          then "runtime.lease.stale_generation" else "runtime.lease.invalid_token")
         (cc_resource_id c) result).
Proof.
  intros [Hi _]%sys_reachable Hc.
  assert (mg_active (cw_state (cy_world y)) !! s = None) as Hn.
  { apply eq_None_not_Some. intros [a Ha]. destruct (co_active _ _ _ Hi _ _ Ha) as [_ Hl].
    rewrite (co_closed _ _ _ Hi _ _ Hc) in Hl. done. }
  unfold can_close_begin, reconcile_session. rewrite Hn, Hn. eexists. split; [reflexivity|].
  unfold closed_result. rewrite Hc. unfold validate_closed_token.
  destruct (_ <? _) eqn:Hg; cbn; bool_simp.
  - split; [split; [done|intros ->; lia]|]. intros _. apply rejected_with_intro; [solve_valid_identifier..].
  - case_bool_decide as Heq; cbn.
    + split; [done|]. intros _. apply rejected_with_intro; [solve_valid_identifier..].
    + done.
Qed.
Lemma can_close_replay_witness :
  ∃ result,
    can_close_begin (cy_world (mx_default mx_closed)) mx_a (mx_token 1 Observe) (Ok ())
    = (cy_world (mx_default mx_closed), CloseReturns result) ∧ result = Ok ().
Proof.
  assert (can_reachable (mx_default mx_closed)) as Hr by run_reachable.
  destruct (can_close_replay (mx_default mx_closed) mx_a (mkClosedSession (mx_token 1 Observe) mx_resource)
    (mx_token 1 Observe) (Ok ()) Hr ltac:(vm_compute; reflexivity)) as (result & Hc & Hok & _).
  exists result. split; [exact Hc|]. apply Hok. reflexivity.
Defined.

(** ** Revocation *)
(** A revoked open never succeeds: once the owner is revoked, an open of that owner that
    was in progress never becomes an active session and holds no lease, whatever the open
    itself, the actor and the other callers do next. *)
Theorem can_revoked_open_fails y owner y' y'' s task :
  can_reachable y → cy_opens y !! s = Some task → ot_owner task = owner →
  can_exec y (CvRevoke owner) = Some y' → rtc can_step y' y'' →
  mg_active (cw_state (cy_world y'')) !! s = None
  ∧ ∀ r m ph, ¬ held (leases_of (mg_leases (cw_state (cy_world y''))) r) s m ph.
Proof.
  intros Hy%sys_reachable Ht Hw Hx Hr. pose proof (revoke_gone _ _ _ _ _ Hy Ht Hw Hx) as Hg.
  destruct (gone_steps _ _ _ Hr (sys_step _ _ _ Hx Hy) Hg) as [[Hi _] [_ Hp Ha]].
  split; [done|]. intros r m ph. by eapply not_held.
Qed.
Definition mx_opening : list CanEvent :=
  [CvReserve mx_resource mx_a mx_owner Control mx_lease; CvAssign mx_a (Ok ()) (Ok ())].
Lemma can_revoked_open_fails_witness :
  mg_active (cw_state (cy_world (mx_default (mx_opening ++ [CvRevoke mx_owner; CvCommit mx_a mx_lease]))))
    !! mx_a = None.
Proof.
  assert (can_reachable (mx_default mx_opening)) as Hr by run_reachable.
  apply (can_revoked_open_fails (mx_default mx_opening) mx_owner
    (mx_default (mx_opening ++ [CvRevoke mx_owner])) _ mx_a
    (mkOpenTask mx_resource mx_owner (Some (0, 1)))); [exact Hr|vm_compute; reflexivity..|].
  apply rtc_once. exists (CvCommit mx_a mx_lease). vm_compute. reflexivity.
Defined.

(** ** Sessions that cannot end *)
(** A session whose actor died while another session of that actor was being closed can
    never be closed: [finish_close] unregisters the actor without retiring the actor's other
    sessions; such a session stays active for ever, its lease stays granted, and every
    attempt of its owner to close it fails, since the dead actor accepts no command. *)
Theorem can_orphan_is_stuck y y' s a :
  can_reachable y → orphaned y s a → rtc can_step y y' →
  mg_active (cw_state (cy_world y')) !! s = Some a
  ∧ granted (leases_of (mg_leases (cw_state (cy_world y'))) (xs_resource_id a)) s
      (token_mode (xs_token a)) (mkLeaseEntry s (xs_owner_id a) (xs_token a))
  ∧ ∀ token e, ∃ w e', can_close_begin (cy_world y') s token (Err e) = (w, CloseReturns (Err e')).
Proof.
  intros Hy%sys_reachable Ho Hr. destruct (orphaned_steps _ _ _ _ Hr Hy Ho) as [Hi [Ha _ _ Hn _]].
  destruct (Hi) as [Hc _]. split; [done|]. split.
  { apply (tr_granted _ _ _ (co_tracks _ _ _ Hc)). by exists a. }
  intros token e. unfold can_close_begin.
  destruct (reconcile_session_keeps _ s _ _ Ha) as [->|(en & Hen & Heq & _)]; [|by destruct (Hn en)].
  destruct (CanLeaseTable_validate _ _ _ _ _ _ _); [|by eexists _, _].
  destruct (xs_closing a); by eexists _, _.
Qed.
Lemma can_orphan_is_stuck_witness :
  mg_active (cw_state (cy_world (mx_default mx_orphan))) !! mx_b = Some (mx_session 2 Control false)
  ∧ ∀ token e, ∃ w e', can_close_begin (cy_world (mx_default mx_orphan)) mx_b token (Err e)
                       = (w, CloseReturns (Err e')).
Proof.
  assert (can_reachable (mx_default mx_orphan)) as Hr by run_reachable.
  assert (orphaned (mx_default mx_orphan) mx_b (mx_session 2 Control false)) as Ho.
  { split.
    - vm_compute. reflexivity.
    - refine (proj1 (bool_decide_eq_true _) _). vm_compute. reflexivity.
    - vm_compute. discriminate.
    - intros en Hen. vm_compute in Hen. discriminate.
    - intros task Hin. vm_compute in Hin. by apply elem_of_nil in Hin. }
  destruct (can_orphan_is_stuck _ _ mx_b (mx_session 2 Control false) Hr Ho (rtc_refl _ _)) as (Ha & _ & Hc).
  split; [exact Ha|exact Hc].
Defined.
(** A [close] that is dropped while it waits (the broker aborts the requests of a
    connection that ends) leaves its session behind: as long as the actor lives, the session
    stays active and its lease granted, and every later close or revocation is refused
    because the session is already closing. *)
Theorem can_dropped_close_strands y y' s a :
  can_reachable y → stranded y s a → rtc can_step y y' →
  xs_actor a ∉ fg_finished (cw_flags (cy_world y')) →
  mg_active (cw_state (cy_world y')) !! s = Some a
  ∧ granted (leases_of (mg_leases (cw_state (cy_world y'))) (xs_resource_id a)) s
      (token_mode (xs_token a)) (mkLeaseEntry s (xs_owner_id a) (xs_token a))
  ∧ ∀ token enqueued, ∃ w e, can_close_begin (cy_world y') s token enqueued = (w, CloseReturns (Err e)).
Proof.
  intros Hy Hs Hr Hf. destruct (both_reachable _ Hy) as [Hi He].
  destruct (stranded_steps _ _ _ _ Hr Hi He Hs) as [[Ha Hcl _]|?]; [|done].
  destruct (both_steps _ _ Hr (conj Hi He)) as [[Hc _] He']. split; [done|]. split.
  { apply (tr_granted _ _ _ (co_tracks _ _ _ Hc)). by exists a. }
  intros token enq. unfold can_close_begin.
  destruct (reconcile_session_keeps _ s _ _ Ha) as [->|(en & Hen & Heq & Hfin)].
  - destruct (CanLeaseTable_validate _ _ _ _ _ _ _); [|by eexists _, _]. rewrite Hcl. by eexists _, _.
  - destruct Hf. by rewrite <- (proj2 (ep_active _ He' _ _ Ha) _ _ Hen Heq).
Qed.
Lemma can_dropped_close_strands_witness :
  mg_active (cw_state (cy_world (mx_default mx_stranded))) !! mx_b = Some (mx_session 2 Control true).
Proof.
  assert (can_reachable (mx_default mx_stranded)) as Hr by run_reachable.
  assert (stranded (mx_default mx_stranded) mx_b (mx_session 2 Control true)) as Hs.
  { split; [vm_compute; reflexivity|reflexivity|].
    intros task Hin. vm_compute in Hin. by apply elem_of_nil in Hin. }
  apply (can_dropped_close_strands _ _ mx_b (mx_session 2 Control true) Hr Hs (rtc_refl _ _)).
  refine (proj1 (bool_decide_eq_false _) _). vm_compute. reflexivity.
Defined.
