(* ===== verification/CameraWorker.v ===== *)
(** * robot-hal-runtime: the thread that owns a camera

    Models [CameraCommand], [CameraWorker], [spawn_worker] and [RuntimeFrameSink] of
    crates/robot-hal-runtime/src/camera_manager.rs over the frame ring ([ShmRing]) and any
    native session ([CameraCaptureSession]).

    As in [Worker], a thread is a record of what it shares with its handles and of the
    place it has reached.  What it adds is the admission lock: the thread holds it during a
    native operation, the handles while they enqueue a command or ask to close, so that
    these happen while no operation runs.  The handles hold it for one step, so the lock is
    taken exactly in the phases [KPerform] and [KCapture]. *)

From S2P Require Import Prelude Core Lifecycle LeaseTable SerialRegistry Worker.
From S2P Require Import CameraTypes ShmLayout ShmRing.

(** ** The native session *)
(** A run of [capture_into]: the publications it makes, each depending on the outcome of
    those before, and its result. *)
Inductive CaptureRun (S : Type) :=
  | CaptureDone (session : S) (result : HalResult unit)
  | CapturePublish (metadata : CameraFrameMetadata) (copy : CopyPayload)
      (next : HalResult unit → CaptureRun S).
Global Arguments CaptureDone {S}.
Global Arguments CapturePublish {S}.
(** [copy_payload] is given a [&mut \[u8\]], whose length it cannot change. *)
Fixpoint copies_in_place {S} (run : CaptureRun S) : Prop :=
  match run with
  | CaptureDone _ _ => True
  | CapturePublish _ copy next => copier_in_place copy ∧ ∀ r, copies_in_place (next r)
  end.
Class CameraCaptureSession (S : Type) := {
  cam_format : S → CameraFormat;
  cam_capture_into : S → Z → CaptureRun S;
  cam_controls : S → S * HalResult (list CameraControlDescriptor);
  cam_get_control : S → CameraControlKind → S * HalResult CameraControlValue;
  cam_set_control : S → CameraControlKind → CameraControlValue → S * HalResult unit;
  cam_set_auto : S → CameraControlKind → bool → S * HalResult unit;
  cam_close : S → HalResult unit;
  (** dimensions are [u32] *)
  cam_format_u32 session : 0 <= cf_width (cam_format session) ∧ 0 <= cf_height (cam_format session);
  cam_in_place session timeout : copies_in_place (cam_capture_into session timeout);
}.
(** [CameraCaptureSession::capture_into], for sessions that only provide [capture]. *)
Definition default_copy (payload : list Z) : CopyPayload := λ destination,
  if (length destination <? length payload)%nat then
    (destination,
     Err (camera_invalid_frame "camera.capture_into"
            "camera frame payload exceeds the provided sink capacity"))
  else (payload ++ drop (length payload) destination, Ok (Z.of_nat (length payload))).
Definition default_capture_into {S} (captured : S * HalResult CameraFrame) : CaptureRun S :=
  match captured with
  | (session, Err error) => CaptureDone session (Err error)
  | (session, Ok frame) =>
      CapturePublish (frame_metadata frame) (default_copy (frame_payload frame))
        (λ published, CaptureDone session published)
  end.

(** ** Errors *)
Definition camera_actor_unavailable (op : string) : HalError :=
  runtime_error "runtime.actor.unavailable" Internal op false
    "the camera worker terminated before completing the operation".
Definition camera_session_closed (op : string) : HalError :=
  runtime_error "runtime.session.closed" Conflict op false "the camera session is closed".
Definition camera_queue_full (op : string) : HalError :=
  runtime_error "runtime.queue.full" Unavailable op true
    "the bounded camera command queue has reached its 64-command capacity".
Definition is_terminal (error : HalError) : bool := bool_decide (err_category error = Unavailable).
Definition terminal_of {T} (result : HalResult T) : option HalError :=
  match result with
  | Err error => if is_terminal error then Some error else None
  | Ok _ => None
  end.

(** ** Commands *)
Inductive CameraCommand :=
  | CmdCapture (timeout : Z)
  | CmdMappingDescriptor
  | CmdNextFrameLease
  | CmdDroppedCount
  | CmdControls
  | CmdGetControl (kind : CameraControlKind)
  | CmdSetControl (kind : CameraControlKind) (value : CameraControlValue)
  | CmdSetAuto (kind : CameraControlKind) (enabled : bool).
(** What the reply channel of a command carries. *)
Inductive CameraResponse :=
  | RespDone
  | RespDescriptor (descriptor : MappingDescriptor)
  | RespLease (lease : option FrameLease)
  | RespCount (count : Z)
  | RespControls (controls : list CameraControlDescriptor)
  | RespValue (value : CameraControlValue).
Definition camera_operation (command : CameraCommand) : string :=
  match command with
  | CmdCapture _ => "camera.capture"
  | CmdMappingDescriptor => "camera.mapping_descriptor"
  | CmdNextFrameLease => "camera.next_frame_lease"
  | CmdDroppedCount => "camera.dropped_count"
  | CmdControls => "camera.controls"
  | CmdGetControl _ => "camera.control.get"
  | CmdSetControl _ _ => "camera.control.set"
  | CmdSetAuto _ _ => "camera.control.auto"
  end.
Definition CameraCommand_reject_closed (command : CameraCommand) : HalResult CameraResponse :=
  Err (camera_session_closed (camera_operation command)).
Inductive EnqueueError := EnqueueFull (error : HalError) | EnqueueClosed.

(** ** The sink *)
(** The outcomes of the file locks a ring operation takes. *)
Record LockEnv := mkLockEnv {
  env_lock : LockOutcome;
  env_retry : LockOutcome;
  env_unlock : result string unit;
  env_unlink : result string unit;
}.
Definition RuntimeFrameSink_publish (mapping : BrokerMapping) (generation : Z)
    (metadata : CameraFrameMetadata) (copy_payload : CopyPayload) (env : LockEnv)
    : BrokerMapping * HalResult unit :=
  match collect (λ p, PlaneLayout_new (cp_offset p) (cp_length p) (cp_stride p)) (fm_planes metadata)
          ≫= λ planes,
        FrameMetadata_new (PixelFormat_from (cf_pixel_format (fm_format metadata)))
          (cf_width (fm_format metadata)) (cf_height (fm_format metadata)) (fm_sequence metadata)
          generation (fm_monotonic_timestamp_ns metadata) (fm_dropped_count metadata) planes with
  | Err e => (mapping, Err e)
  | Ok metadata =>
      publish_with mapping metadata copy_payload (env_lock env) (env_retry env) (env_unlock env)
  end.

(** ** The thread *)
(** Where the thread is: inside [adapter.open]; closing a session it could not map; at the
    head of its loop; holding a command it has not rechecked the shutdown flag for; waiting
    for the admission lock; inside a native operation other than, or in a [capture_into];
    closing the mapping, then the session; rejecting what is left; past [catch_unwind];
    having published its last error; completed; gone.  [terminal] is the local
    [terminal_error]. *)
Inductive CameraPhase (S : Type) :=
  | KOpening
  | KUnmapped (session : S) (error : HalError)
  | KLoop (session : S)
  | KTaken (session : S) (command : CameraCommand)
  | KAwait (session : S) (command : CameraCommand)
  | KPerform (session : S) (command : CameraCommand)
  | KCapture (timeout : Z) (run : CaptureRun S)
  | KUnmap (session : S) (terminal : option HalError)
  | KClosing (session : S) (terminal : option HalError) (mapping_result : HalResult unit)
  | KDraining (terminal : option HalError) (mapping_result close_result : HalResult unit)
  | KCompleting (result : HalResult unit)
  | KPublished (result : HalResult unit)
  | KCompleted
  | KExited.
Global Arguments KOpening {S}.
Global Arguments KUnmapped {S}.
Global Arguments KLoop {S}.
Global Arguments KTaken {S}.
Global Arguments KAwait {S}.
Global Arguments KPerform {S}.
Global Arguments KCapture {S}.
Global Arguments KUnmap {S}.
Global Arguments KClosing {S}.
Global Arguments KDraining {S}.
Global Arguments KCompleting {S}.
Global Arguments KPublished {S}.
Global Arguments KCompleted {S}.
Global Arguments KExited {S}.

(** [k_target] is the id of the selector, [k_generation] that of the lease, [k_slot_count]
    that of the request.  Ghost: the commands the queue admitted and the fate of those that
    left it ([None]: the reply was dropped unanswered). *)
Record CameraWorker (S : Type) := mkCameraWorker {
  k_target : ResourceId;
  k_generation : Z;
  k_slot_count : Z;
  k_phase : CameraPhase S;
  k_mapping : option BrokerMapping;
  k_queue : list CameraCommand;
  k_senders : bool;
  k_shutdown : bool;
  k_opened : OpenSignal;
  k_completion : option (HalResult unit);
  k_terminal : option HalError;
  k_admitted : list CameraCommand;
  k_resolved : list (CameraCommand * option (HalResult CameraResponse));
}.
Global Arguments mkCameraWorker {S}.
Global Arguments k_target {S}.
Global Arguments k_generation {S}.
Global Arguments k_slot_count {S}.
Global Arguments k_phase {S}.
Global Arguments k_mapping {S}.
Global Arguments k_queue {S}.
Global Arguments k_senders {S}.
Global Arguments k_shutdown {S}.
Global Arguments k_opened {S}.
Global Arguments k_completion {S}.
Global Arguments k_terminal {S}.
Global Arguments k_admitted {S}.
Global Arguments k_resolved {S}.

(** A mapping is created under a name, identity and token drawn by the adapter. *)
Record MappingNames := mkMappingNames {
  mn_name : string;
  mn_identity : list Z;
  mn_token : list Z;
}.
Inductive CameraMove (S : Type) :=
  | KmOpened (result : HalResult S) (created : HalResult MappingNames)
  | KmCloseUnmapped
  | KmIterate
  | KmRecheck
  | KmAdmit
  | KmPerform (reply_closed : bool) (env : LockEnv)
  | KmCapture (env : LockEnv)
  | KmUnmap (env : LockEnv)
  | KmClose
  | KmDrain
  | KmPanic
  | KmPublish
  | KmComplete
  | KmExit.
Global Arguments KmOpened {S}.
Global Arguments KmCloseUnmapped {S}.
Global Arguments KmIterate {S}.
Global Arguments KmRecheck {S}.
Global Arguments KmAdmit {S}.
Global Arguments KmPerform {S}.
Global Arguments KmCapture {S}.
Global Arguments KmUnmap {S}.
Global Arguments KmClose {S}.
Global Arguments KmDrain {S}.
Global Arguments KmPanic {S}.
Global Arguments KmPublish {S}.
Global Arguments KmComplete {S}.
Global Arguments KmExit {S}.

(** A new shared-memory object is zero-filled. *)
Definition fresh_memory : Mem := λ _, 0.

Section camera_worker.
Context {S : Type} `{!CameraCaptureSession S} (sha256 : list Z → list Z).
Implicit Types (w : CameraWorker S) (c : CameraCommand).

Definition camera_spawn (target : ResourceId) (generation slot_count : Z) : CameraWorker S :=
  mkCameraWorker target generation slot_count KOpening None [] true false OpenPending None None [] [].

(** *** The handle *)
(** The admission lock is free. *)
Definition admission_free w : bool :=
  match k_phase w with KPerform _ _ | KCapture _ _ => false | _ => true end.
Definition CameraWorker_try_enqueue w (command : CameraCommand) (operation : string)
    : result EnqueueError (CameraWorker S) :=
  match k_phase w with
  | KExited => Err EnqueueClosed
  | _ =>
      if COMMAND_QUEUE_CAPACITY <=? Z.of_nat (length (k_queue w))
      then Err (EnqueueFull (camera_queue_full operation))
      else Ok (mkCameraWorker (k_target w) (k_generation w) (k_slot_count w) (k_phase w) (k_mapping w)
                 (k_queue w ++ [command]) (k_senders w) (k_shutdown w) (k_opened w) (k_completion w)
                 (k_terminal w) (k_admitted w ++ [command]) (k_resolved w))
  end.
(** Possible once the lock is free. *)
Definition CameraWorker_request_close w : CameraWorker S :=
  mkCameraWorker (k_target w) (k_generation w) (k_slot_count w) (k_phase w) (k_mapping w) (k_queue w)
    (k_senders w) true (k_opened w) (k_completion w) (k_terminal w) (k_admitted w) (k_resolved w).
Definition CameraWorker_is_closing w : bool := k_shutdown w.
Definition CameraWorker_is_finished w : bool := is_some (k_completion w).
Definition CameraWorker_terminal_error w : option HalError := k_terminal w.
Definition camera_disconnect w : CameraWorker S :=
  mkCameraWorker (k_target w) (k_generation w) (k_slot_count w) (k_phase w) (k_mapping w) (k_queue w)
    false (k_shutdown w) (k_opened w) (k_completion w) (k_terminal w) (k_admitted w) (k_resolved w).
(** [CameraManager::request] once it holds the lock. *)
Definition camera_request w (command : CameraCommand) (resource : ResourceId)
    : CameraWorker S * HalResult unit :=
  let op := camera_operation command in
  if CameraWorker_is_closing w then
    (w, Err (HalError_with_resource_id (camera_session_closed op) resource))
  else
    match CameraWorker_terminal_error w with
    | Some error => (w, Err (HalError_with_resource_id error resource))
    | None =>
        match CameraWorker_try_enqueue w command op with
        | Ok w => (w, Ok ())
        | Err (EnqueueFull error) => (w, Err (HalError_with_resource_id error resource))
        | Err EnqueueClosed =>
            (w, Err (HalError_with_resource_id
                       (default (camera_actor_unavailable op) (CameraWorker_terminal_error w)) resource))
        end
    end.

(** *** Moves *)
Definition kgo w (phase : CameraPhase S) : CameraWorker S :=
  mkCameraWorker (k_target w) (k_generation w) (k_slot_count w) phase (k_mapping w) (k_queue w)
    (k_senders w) (k_shutdown w) (k_opened w) (k_completion w) (k_terminal w) (k_admitted w)
    (k_resolved w).
Definition kopen w (opened : OpenSignal) (mapping : option BrokerMapping) : CameraWorker S :=
  mkCameraWorker (k_target w) (k_generation w) (k_slot_count w) (k_phase w) mapping (k_queue w)
    (k_senders w) (k_shutdown w) opened (k_completion w) (k_terminal w) (k_admitted w) (k_resolved w).
Definition kmapping w (mapping : BrokerMapping) : CameraWorker S := kopen w (k_opened w) (Some mapping).
Definition kqueue w (queue : list CameraCommand)
    (fates : list (CameraCommand * option (HalResult CameraResponse))) : CameraWorker S :=
  mkCameraWorker (k_target w) (k_generation w) (k_slot_count w) (k_phase w) (k_mapping w) queue
    (k_senders w) (k_shutdown w) (k_opened w) (k_completion w) (k_terminal w) (k_admitted w)
    (k_resolved w ++ fates).
Definition kresolve w c (fate : option (HalResult CameraResponse)) : CameraWorker S :=
  kqueue w (k_queue w) [(c, fate)].
Definition publish_terminal w (error : HalError) : CameraWorker S :=
  mkCameraWorker (k_target w) (k_generation w) (k_slot_count w) (k_phase w) (k_mapping w) (k_queue w)
    (k_senders w) (k_shutdown w) (k_opened w) (k_completion w) (Some error) (k_admitted w) (k_resolved w).
Definition kcomplete w (result : HalResult unit) : CameraWorker S :=
  mkCameraWorker (k_target w) (k_generation w) (k_slot_count w) (k_phase w) (k_mapping w) (k_queue w)
    (k_senders w) (k_shutdown w) (k_opened w) (Some result) (k_terminal w) (k_admitted w) (k_resolved w).

(** The end of a native operation. *)
Definition command_done {T} w (session : S) c (result : HalResult T) (resp : T → CameraResponse)
    : CameraWorker S :=
  let w := kresolve w c (Some (resp <$> result)) in
  match terminal_of result with
  | Some error => kgo (publish_terminal w error) (KUnmap session (Some error))
  | None => kgo w (KLoop session)
  end.
(** From the native session to the loop: the ring's configuration, the mapping. *)
Definition camera_opened w (session : S) (created : HalResult MappingNames) : CameraWorker S :=
  match CameraFormat_worst_case_frame_bytes (cam_format session) ≫= λ capacity,
        RingConfig_new (cam_format session) (k_slot_count w) capacity with
  | Err error => kgo (kopen w OpenDropped None) (KCompleting (Err error))
  | Ok config =>
      match created with
      | Err error => kgo (kopen w (OpenSent (Err error)) None) (KUnmapped session error)
      | Ok names =>
          kgo (kopen w (OpenSent (Ok ()))
                 (Some (BrokerMapping_create sha256 fresh_memory config (mn_name names)
                          (mn_identity names) (mn_token names))))
            (KLoop session)
      end
  end.
Definition names_ok (created : HalResult MappingNames) : bool :=
  match created with Ok names => (length (mn_identity names) =? 32)%nat | Err _ => true end.
(** The command in the thread's hands, with the lock held; [None] without a mapping. *)
Definition camera_perform w (session : S) c (reply_closed : bool) (env : LockEnv)
    : option (CameraWorker S) :=
  b ← k_mapping w;
  Some match c with
       | CmdCapture timeout =>
           if reply_closed then kgo (kresolve w c None) (KLoop session)
           else kgo w (KCapture timeout (cam_capture_into session timeout))
       | CmdMappingDescriptor =>
           kgo (kresolve w c (Some (Ok (RespDescriptor (bm_descriptor b))))) (KLoop session)
       | CmdNextFrameLease =>
           let '(b, leased) := next_frame_lease b (env_lock env) (env_unlock env) in
           kgo (kresolve (kmapping w b) c (Some (RespLease <$> leased))) (KLoop session)
       | CmdDroppedCount =>
           kgo (kresolve w c (Some (Ok (RespCount (dropped_count b (env_lock env)))))) (KLoop session)
       | CmdControls => let '(s, r) := cam_controls session in command_done w s c r RespControls
       | CmdGetControl kind => let '(s, r) := cam_get_control session kind in command_done w s c r RespValue
       | CmdSetControl kind value =>
           let '(s, r) := cam_set_control session kind value in command_done w s c r (λ _, RespDone)
       | CmdSetAuto kind enabled =>
           let '(s, r) := cam_set_auto session kind enabled in command_done w s c r (λ _, RespDone)
       end.
Definition camera_panicked : HalResult unit := Err (camera_actor_unavailable "camera.worker").
(** What is left once the queue is empty. *)
Definition camera_cleanup w (terminal : option HalError) (mapping_result close_result : HalResult unit)
    : CameraWorker S :=
  match terminal with
  | Some error => kgo w (KCompleting (Err error))
  | None =>
      let cleanup := match close_result with Ok _ => mapping_result | Err e => Err e end in
      match cleanup with
      | Err error => kgo (publish_terminal w error) (KCompleting cleanup)
      | Ok _ => kgo w (KCompleting cleanup)
      end
  end.

Definition camera_move w (m : CameraMove S) : option (CameraWorker S) :=
  match k_phase w, m with
  | KOpening, KmOpened (Err error) _ => Some (kgo (kopen w (OpenSent (Err error)) None) (KCompleting (Err error)))
  | KOpening, KmOpened (Ok session) created =>
      if names_ok created then Some (camera_opened w session created) else None
  | KUnmapped _ error, KmCloseUnmapped => Some (kgo w (KCompleting (Err error)))
  | KLoop session, KmIterate =>
      if k_shutdown w then Some (kgo w (KUnmap session None))
      else match k_queue w with
           | command :: queue => Some (kgo (kqueue w queue []) (KTaken session command))
           | [] => Some (if k_senders w then w else kgo w (KUnmap session None))
           end
  | KTaken session command, KmRecheck =>
      if k_shutdown w then
        Some (kgo (kresolve w command (Some (CameraCommand_reject_closed command))) (KUnmap session None))
      else Some (kgo w (KAwait session command))
  | KAwait session command, KmAdmit =>
      if k_shutdown w then
        Some (kgo (kresolve w command (Some (CameraCommand_reject_closed command))) (KUnmap session None))
      else Some (kgo w (KPerform session command))
  | KPerform session command, KmPerform reply_closed env => camera_perform w session command reply_closed env
  | KCapture timeout (CapturePublish metadata copy next), KmCapture env =>
      b ← k_mapping w;
      let '(b, published) := RuntimeFrameSink_publish b (k_generation w) metadata copy env in
      Some (kgo (kmapping w b) (KCapture timeout (next published)))
  | KCapture timeout (CaptureDone session result), KmCapture _ =>
      Some (command_done w session (CmdCapture timeout) result (λ _, RespDone))
  | KUnmap session terminal, KmUnmap env =>
      b ← k_mapping w;
      let '(b, closed) := BrokerMapping_close b (env_lock env) (env_unlock env) (env_unlink env) in
      Some (kgo (kmapping w b) (KClosing session terminal closed))
  | KClosing session terminal mapping_result, KmClose =>
      Some (kgo w (KDraining terminal mapping_result (cam_close session)))
  | KDraining terminal mapping_result close_result, KmDrain =>
      match k_queue w with
      | command :: queue =>
          Some (kqueue w queue [(command, Some (CameraCommand_reject_closed command))])
      | [] => Some (camera_cleanup w terminal mapping_result close_result)
      end
  | KOpening, KmPanic => Some (kgo (kopen w OpenDropped None) (KCompleting camera_panicked))
  | KUnmapped _ _, KmPanic => Some (kgo w (KCompleting camera_panicked))
  | KPerform _ command, KmPanic => Some (kgo (kresolve w command None) (KCompleting camera_panicked))
  | KCapture timeout _, KmPanic =>
      Some (kgo (kresolve w (CmdCapture timeout) None) (KCompleting camera_panicked))
  | KClosing _ _ _, KmPanic => Some (kgo w (KCompleting camera_panicked))
  | KCompleting result, KmPublish =>
      Some (kgo match k_terminal w, result with
                | None, Err error => publish_terminal w error
                | _, _ => w
                end (KPublished result))
  | KPublished result, KmComplete => Some (kgo (kcomplete w result) KCompleted)
  | KCompleted, KmExit => Some (kgo (kqueue w [] ((λ c, (c, None)) <$> k_queue w)) KExited)
  | _, _ => None
  end.

(** What may happen to a worker: a move of its thread, or a call on one of its handles,
    which first takes the admission lock. *)
Inductive camera_step : CameraWorker S → CameraWorker S → Prop :=
  | camera_step_move w m w' : camera_move w m = Some w' → camera_step w w'
  | camera_step_request w c r :
      admission_free w = true → camera_step w (camera_request w c r).1
  | camera_step_close w :
      admission_free w = true → camera_step w (CameraWorker_request_close w)
  | camera_step_disconnect w : camera_step w (camera_disconnect w).
End camera_worker.
