(* ===== verification/CameraWorkerSpec.v ===== *)
(** * The camera thread: invariant, closing, terminal errors and the ring

    Theorems about [CameraWorker] in every state it can reach. *)

From S2P Require Import Prelude Core Lifecycle LeaseTable SerialRegistry Worker.
From S2P Require Import CameraTypes ShmLayout ShmRing CameraWorker.

Section camera_worker.
Context {S : Type} `{!CameraCaptureSession S} (sha256 : list Z → list Z).
Implicit Types (w : CameraWorker S) (c : CameraCommand).

(** ** Invariant *)
Definition camera_in_hand w : list CameraCommand :=
  match k_phase w with
  | KTaken _ c | KAwait _ c | KPerform _ c => [c]
  | KCapture timeout _ => [CmdCapture timeout]
  | _ => []
  end.
Definition camera_done w : bool := match k_phase w with KCompleted | KExited => true | _ => false end.
(** Past [catch_unwind]: the native session and the mapping are dropped. *)
Definition camera_past w : bool :=
  match k_phase w with
  | KCompleting _ | KPublished _ | KCompleted | KExited => true
  | _ => false
  end.
(** What the phase says about the published terminal error. *)
Definition terminal_agrees w : Prop :=
  match k_phase w with
  | KUnmap _ terminal | KClosing _ terminal _ | KDraining terminal _ _ => k_terminal w = terminal
  | KCompleting (Err _) => True
  | KCompleting (Ok _) => k_terminal w = None
  | KPublished (Err _) => k_terminal w ≠ None
  | KPublished (Ok _) => k_terminal w = None
  | KCompleted | KExited =>
      match k_completion w with
      | Some (Err _) => k_terminal w ≠ None
      | Some (Ok _) => k_terminal w = None
      | None => False
      end
  | _ => k_terminal w = None
  end.
(** What the phase says about the [opened] signal. *)
Definition opened_agrees w : bool :=
  match k_opened w, k_phase w with
  | OpenPending, KOpening => true
  | OpenSent (Ok _), (KOpening | KUnmapped _ _) => false
  | OpenSent (Ok _), _ => true
  | (OpenSent (Err _) | OpenDropped), KUnmapped _ _ => true
  | (OpenSent (Err _) | OpenDropped), _ => camera_past w
  | _, _ => false
  end.
Definition mapping_agrees w : bool :=
  match k_phase w with
  | KLoop _ | KTaken _ _ | KAwait _ _ | KPerform _ _ | KCapture _ _ | KUnmap _ _ => is_some (k_mapping w)
  | _ => true
  end.
Record camera_ok w : Prop := {
  ck_account : k_admitted w = (k_resolved w).*1 ++ camera_in_hand w ++ k_queue w;
  ck_completion : is_some (k_completion w) = camera_done w;
  ck_opened : opened_agrees w = true;
  ck_exited : k_phase w = KExited → k_queue w = [];
  ck_quiet : k_shutdown w = true → admission_free w = true;
  ck_terminal : terminal_agrees w;
  ck_mapping : mapping_agrees w = true;
}.
Lemma camera_spawn_ok target g n : camera_ok (camera_spawn target g n).
Proof. by split. Qed.
Lemma camera_enqueue_Ok w c op w' :
  CameraWorker_try_enqueue w c op = Ok w' →
  k_phase w ≠ KExited ∧
  w' = mkCameraWorker (k_target w) (k_generation w) (k_slot_count w) (k_phase w) (k_mapping w)
         (k_queue w ++ [c]) (k_senders w) (k_shutdown w) (k_opened w) (k_completion w)
         (k_terminal w) (k_admitted w ++ [c]) (k_resolved w).
Proof.
  unfold CameraWorker_try_enqueue. intros He.
  destruct (k_phase w); try done; (destruct (_ <=? _); [done|]); by injection He as <-.
Qed.
(** A request either enqueues its command or leaves the worker alone and fails. *)
Lemma camera_request_cases w c r :
  (∃ w', camera_request w c r = (w', Ok ()) ∧ CameraWorker_try_enqueue w c (camera_operation c) = Ok w'
     ∧ k_shutdown w = false ∧ k_terminal w = None)
  ∨ ∃ e, camera_request w c r = (w, Err e).
Proof.
  unfold camera_request, CameraWorker_is_closing, CameraWorker_terminal_error.
  destruct (k_shutdown w); [right; eauto|]. destruct (k_terminal w); [right; eauto|].
  destruct (CameraWorker_try_enqueue _ _ _) as [w'|[]]; [left; eauto|right; eauto..].
Qed.
Lemma camera_dropped_fst (q : list CameraCommand) :
  ((λ c, (c, None : option (HalResult CameraResponse))) <$> q).*1 = q.
Proof. rewrite <- list_fmap_compose. by apply list_fmap_id. Qed.

(** The end of a command, whatever it was: back to the loop, or stopped by a terminal error. *)
Lemma command_done_cases {T} w (session : S) c (result : HalResult T) resp :
  let w' := command_done w session c result resp in
  let done := kresolve w c (Some (resp <$> result)) in
  w' = kgo done (KLoop session) ∨
  ∃ e, w' = kgo (publish_terminal done e) (KUnmap session (Some e)).
Proof. unfold command_done. destruct (terminal_of result); [right; eauto|by left]. Qed.
(** Performing a command starts a capture or resolves the command. *)
Lemma camera_perform_cases w session c closed env w' :
  camera_perform w session c closed env = Some w' →
  ∃ b, k_mapping w = Some b ∧
  ((∃ timeout, c = CmdCapture timeout ∧ w' = kgo w (KCapture timeout (cam_capture_into session timeout)))
   ∨ ∃ b' fate session', (b' = b ∨ b' = (next_frame_lease b (env_lock env) (env_unlock env)).1) ∧
     let done := kresolve (kmapping w b') c fate in
     (w' = kgo done (KLoop session') ∨
      ∃ e, w' = kgo (publish_terminal done e) (KUnmap session' (Some e)))).
Proof.
  unfold camera_perform. destruct w as [tg g n ph mp q sd sh op co te ad re].
  intros (b & Hb & Hw)%bind_Some. cbn in Hb. subst mp. exists b. split; [done|].
  assert (∀ T s (r : HalResult T) resp w0,
    command_done (mkCameraWorker tg g n ph (Some b) q sd sh op co te ad re) s c r resp = w0 →
    ∃ b' fate s', (b' = b ∨ b' = (next_frame_lease b (env_lock env) (env_unlock env)).1) ∧
     let done := kresolve (kmapping (mkCameraWorker tg g n ph (Some b) q sd sh op co te ad re) b') c fate in
     (w0 = kgo done (KLoop s') ∨
      ∃ e, w0 = kgo (publish_terminal done e) (KUnmap s' (Some e)))) as Hdone.
  { intros T s r resp w0 <-. exists b. eexists _, _. split; [by left|]. apply command_done_cases. }
  destruct c; cbn [kgo] in Hw; injection Hw as <-.
  - destruct closed; [right|left; eauto]. exists b. eexists _, _. split; [by left|]. by left.
  - right. exists b. eexists _, _. split; [by left|]. by left.
  - destruct (next_frame_lease b _ _) as [b' r] eqn:Hn. right. exists b'. eexists _, _.
    split; [by right|]. by left.
  - right. exists b. eexists _, _. split; [by left|]. by left.
  - destruct (cam_controls _). right. by eapply Hdone.
  - destruct (cam_get_control _ _). right. by eapply Hdone.
  - destruct (cam_set_control _ _ _). right. by eapply Hdone.
  - destruct (cam_set_auto _ _ _). right. by eapply Hdone.
Qed.
Ltac solve_camera_ok :=
  split; cbn in *; unfold opened_agrees, mapping_agrees, terminal_agrees, camera_in_hand, camera_past, camera_done in *;
  cbn in *; repeat match goal with H : context [_ ++ []] |- _ => rewrite app_nil_r in H end;
  rewrite ?fmap_app, ?camera_dropped_fst, ?app_nil_r, <- ?app_assoc; cbn; try done; auto;
  try congruence.
Lemma camera_perform_ok w session c closed env w' :
  k_phase w = KPerform session c → camera_perform w session c closed env = Some w' →
  camera_ok w → camera_ok w'.
Proof.
  destruct w as [tg g n ph mp q sd sh op co te ad re]. cbn. intros -> Hp [H1 H2 H3 H4 H5 H6 H7].
  apply camera_perform_cases in Hp as (b & _ & [(t & -> & ->)|(b' & fate & s' & _ & [-> |[e ->]])]);
    solve_camera_ok; by destruct op as [|[[]|]|].
Qed.
Lemma camera_capture_ok w timeout session result w' :
  k_phase w = KCapture timeout (CaptureDone session result) →
  w' = command_done w session (CmdCapture timeout) result (λ _, RespDone) →
  camera_ok w → camera_ok w'.
Proof.
  destruct w as [tg g n ph mp q sd sh op co te ad re]. cbn. intros -> -> [H1 H2 H3 H4 H5 H6 H7].
  destruct (command_done_cases (mkCameraWorker tg g n (KCapture timeout (CaptureDone session result))
    mp q sd sh op co te ad re) session (CmdCapture timeout) result (λ _, RespDone)) as [-> |[e ->]];
    solve_camera_ok; by destruct op as [|[[]|]|].
Qed.
Lemma camera_move_ok w m w' : camera_move sha256 w m = Some w' → camera_ok w → camera_ok w'.
Proof.
  intros Hm Hok. destruct (k_phase w) eqn:Hph, m; unfold camera_move in Hm; rewrite Hph in Hm;
    try discriminate Hm; try (by eapply camera_perform_ok); try (destruct run; discriminate Hm);
    try (destruct run as [s r|md cp nx]; [injection Hm as <-; by eapply camera_capture_ok|]);
    destruct w as [tg g n ph mp q sd sh op co te ad re], Hok as [H1 H2 H3 H4 H5 H6 H7];
    cbn in Hph, Hm; subst ph;
    unfold camera_opened, camera_cleanup in Hm; cbn in Hm.
  all: repeat case_match; simplify_eq; try (apply bind_Some in Hm as (b & -> & Hm));
    repeat case_match; simplify_eq; try (destruct result); solve_camera_ok; try by destruct op as [|[[]|]|].
Qed.
Lemma camera_step_ok w w' : camera_step sha256 w w' → camera_ok w → camera_ok w'.
Proof.
  intros [? m ? Hm|? c r Hf|? Hf|?]; [by eapply camera_move_ok|..]; intros Hok.
  - destruct (camera_request_cases w0 c r) as [(w1 & -> & He & _)|[e ->]]; [|done].
    apply camera_enqueue_Ok in He as [Hp ->]. destruct Hok as [H1 H2 H3 H4 H5 H6 H7].
    split; cbn; try done. rewrite H1. unfold camera_in_hand. cbn. by rewrite <- !app_assoc.
  - by destruct Hok.
  - by destruct Hok.
Qed.
Lemma camera_steps_ok w w' : rtc (camera_step sha256) w w' → camera_ok w → camera_ok w'.
Proof. induction 1; eauto using camera_step_ok. Qed.

(** What the thread is for never changes. *)
Lemma camera_move_frame w m w' :
  camera_move sha256 w m = Some w' →
  k_generation w' = k_generation w ∧ k_target w' = k_target w ∧ k_shutdown w' = k_shutdown w.
Proof.
  intros Hm. unfold camera_move in Hm. destruct (k_phase w) eqn:Hph, m; try discriminate Hm;
    try (apply camera_perform_cases in Hm as (b & _ & [(t & -> & ->)|(b' & f & s' & _ & [-> |[e ->]])]); done);
    try (destruct run; discriminate Hm);
    unfold camera_cleanup, camera_opened, command_done in Hm; repeat case_match; simplify_eq; try done;
    apply bind_Some in Hm as (b & _ & Hm); repeat case_match; by simplify_eq.
Qed.
Lemma camera_step_frame w w' :
  camera_step sha256 w w' → k_generation w' = k_generation w ∧ k_target w' = k_target w.
Proof.
  intros [? m ? Hm|w0 c r Hf|? Hf|?]; [by destruct (camera_move_frame _ _ _ Hm) as (? & ? & _)|..]; [|done..].
  destruct (camera_request_cases w0 c r) as [(w1 & -> & He & _)|[e ->]]; [|done].
  by apply camera_enqueue_Ok in He as [_ ->].
Qed.

(** ** A stopped worker *)
Definition stopped w : Prop := k_shutdown w = true ∨ k_terminal w ≠ None.
Lemma stopped_free w : camera_ok w → stopped w → admission_free w = true.
Proof.
  intros Hok [Hs|Ht]; [by apply (ck_quiet _ Hok)|]. pose proof (ck_terminal _ Hok) as Hte.
  unfold terminal_agrees, admission_free in *. by destruct (k_phase w).
Qed.
(** What a stopped worker tells the callers still waiting. *)
Definition turned_away (fate : CameraCommand * option (HalResult CameraResponse)) : Prop :=
  fate.2 = Some (CameraCommand_reject_closed fate.1) ∨ fate.2 = None.
(** The published error stays, and what is resolved is turned away. *)
Record stays_stopped w w' : Prop := {
  ss_shutdown : k_shutdown w = true → k_shutdown w' = true;
  ss_terminal e : k_terminal w = Some e → k_terminal w' = Some e;
  ss_resolved : ∃ late, k_resolved w' = k_resolved w ++ late ∧ Forall turned_away late;
}.
Lemma stays_stopped_refl w : stays_stopped w w.
Proof. split; [done..|]. exists []. by rewrite app_nil_r. Qed.
Lemma stays_stopped_trans w1 w2 w3 : stays_stopped w1 w2 → stays_stopped w2 w3 → stays_stopped w1 w3.
Proof.
  intros [A1 A2 (l1 & A3 & A4)] [B1 B2 (l2 & B3 & B4)]. split; [by auto..|].
  exists (l1 ++ l2). rewrite B3, A3, app_assoc. split; [done|]. by apply Forall_app.
Qed.
Lemma stays_stopped_stopped w w' : stays_stopped w w' → stopped w → stopped w'.
Proof.
  intros [A1 A2 _] [Hs|Ht]; [left; auto|]. right. destruct (k_terminal w) eqn:E; [|done].
  by rewrite (A2 _ eq_refl).
Qed.
Lemma stopped_move w m w' :
  camera_ok w → stopped w → camera_move sha256 w m = Some w' → stays_stopped w w'.
Proof.
  intros Hok Hst Hm. pose proof (stopped_free _ Hok Hst) as Hf. destruct Hok as [_ _ _ _ _ Ht _].
  destruct w as [tg g n ph mp q sd sh op co te ad re]. unfold stopped in Hst. cbn in Hst.
  unfold camera_move, terminal_agrees, admission_free in *. cbn in *.
  destruct ph, m; try done; unfold camera_opened, camera_cleanup in Hm; cbn in Hm;
    repeat case_match; simplify_eq; try (by destruct Hst);
    try (apply bind_Some in Hm as (b & -> & Hm); repeat case_match); simplify_eq.
  all: split; cbn in *; auto; try congruence.
  all: try (exists []; rewrite ?app_nil_r; by split).
  all: eexists; split; [reflexivity|].
  all: try (apply Forall_cons; split; [by left|by constructor]).
  all: apply list.Forall_forall; intros x (c & -> & _)%list_elem_of_fmap; by right.
Qed.
Lemma stopped_step w w' :
  camera_ok w → stopped w → camera_step sha256 w w' → stays_stopped w w'.
Proof.
  intros Hok Hst Hs. destruct Hs as [w m w' Hm|w c r Hf|w Hf|w]; [by eapply stopped_move|..].
  - destruct (camera_request_cases w c r) as [(w1 & _ & _ & Hs & Ht)|[e ->]];
      [|apply stays_stopped_refl]. destruct Hst; congruence.
  - split; cbn; [done..|]. exists []. by rewrite app_nil_r.
  - split; cbn; [done..|]. exists []. by rewrite app_nil_r.
Qed.
Lemma stopped_steps w w' :
  rtc (camera_step sha256) w w' → camera_ok w → stopped w → stays_stopped w w'.
Proof.
  induction 1 as [|w1 w2 w3 Hs _ IH]; intros Hok Hst; [apply stays_stopped_refl|].
  pose proof (stopped_step _ _ Hok Hst Hs) as Hss. eapply stays_stopped_trans; [done|].
  apply IH; [by eapply camera_step_ok|by eapply stays_stopped_stopped].
Qed.

(** ** Shutting down *)
Fixpoint camera_run w (moves : list (CameraMove S)) : option (CameraWorker S) :=
  match moves with
  | [] => Some w
  | m :: moves => w ← camera_move sha256 w m; camera_run w moves
  end.
(** How many moves a worker that was told to stop can still make. *)
Definition camera_moves_left w : nat :=
  (match k_phase w with
   | KOpening => 12 | KPerform _ _ | KCapture _ _ => 11 | KLoop _ | KTaken _ _ => 10 | KAwait _ _ => 9
   | KUnmap _ _ => 8 | KClosing _ _ _ => 7 | KDraining _ _ _ => 6 | KUnmapped _ _ => 5
   | KCompleting _ => 4 | KPublished _ => 3 | KCompleted => 2 | KExited => 0
   end + length (k_queue w))%nat.
Lemma camera_move_decreases w m w' :
  camera_ok w → k_shutdown w = true → camera_move sha256 w m = Some w' →
  (camera_moves_left w' < camera_moves_left w)%nat ∧ k_shutdown w' = true.
Proof.
  intros Hok Hs Hm. pose proof (ck_quiet _ Hok Hs) as Hf. clear Hok.
  destruct w as [tg g n ph mp q sd sh op co te ad re].
  unfold camera_move, camera_moves_left, admission_free in *. cbn in *. subst sh.
  destruct ph, m; try done; unfold camera_opened, camera_cleanup in Hm; cbn in Hm;
    repeat case_match; simplify_eq; try (apply bind_Some in Hm as (b & -> & Hm); repeat case_match);
    simplify_eq; cbn; (split; [lia|done]).
Qed.
Lemma camera_move_enabled w :
  camera_ok w → k_phase w ≠ KExited → ∃ m w', camera_move sha256 w m = Some w'.
Proof.
  intros Hok Hne. pose proof (ck_mapping _ Hok) as Hmap. unfold camera_move, mapping_agrees in *.
  destruct (k_phase w) eqn:Hp; [..|done].
  - by exists KmPanic; eexists.
  - by exists KmPanic; eexists.
  - exists KmIterate. repeat case_match; eauto.
  - exists KmRecheck. repeat case_match; eauto.
  - exists KmAdmit. repeat case_match; eauto.
  - by exists KmPanic; eexists.
  - exists KmPanic. destruct run; by eexists.
  - exists (KmUnmap (mkLockEnv LockAcquired LockAcquired (Ok ()) (Ok ()))).
    destruct (k_mapping w) as [b|]; [|done]. cbn [mbind option_bind].
    destruct (BrokerMapping_close _ _ _ _). eauto.
  - by exists KmClose; eexists.
  - exists KmDrain. repeat case_match; eauto.
  - by exists KmPublish; eexists.
  - by exists KmComplete; eexists.
  - by exists KmExit; eexists.
Qed.
Lemma camera_run_bounded w moves w' :
  camera_ok w → k_shutdown w = true → camera_run w moves = Some w' →
  (length moves + camera_moves_left w' <= camera_moves_left w)%nat ∧ camera_ok w'.
Proof.
  revert w. induction moves as [|m moves IH]; intros w Hok Hs Hr.
  { injection Hr as ->. cbn. split; [lia|done]. }
  apply bind_Some in Hr as (w1 & Hm & Hr). destruct (camera_move_decreases _ _ _ Hok Hs Hm) as [Hl Hs1].
  destruct (IH w1) as [? ?]; [by eapply camera_move_ok|done|done|]. cbn. split; [lia|done].
Qed.

(** The session in the thread's hands, outside of a capture. *)
Definition camera_session w : option S :=
  match k_phase w with
  | KUnmapped session _ | KLoop session | KTaken session _ | KAwait session _ | KPerform session _
  | KUnmap session _ | KClosing session _ _ => Some session
  | _ => None
  end.
(** The thread is inside the session's close. *)
Definition camera_closing w : Prop :=
  match k_phase w with KUnmapped _ _ | KClosing _ _ _ => True | _ => False end.
Lemma stopped_session w m w' session :
  camera_ok w → stopped w → camera_move sha256 w m = Some w' → camera_session w = Some session →
  camera_session w' = Some session ∨ (camera_closing w ∧ camera_session w' = None).
Proof.
  intros Hok Hst Hm Hs. pose proof (stopped_free _ Hok Hst) as Hf. clear Hok.
  destruct w as [tg g n ph mp q sd sh op co te ad re].
  unfold camera_move, camera_session, camera_closing, admission_free in *. cbn in *.
  destruct ph, m; try done; cbn in Hm; repeat case_match; simplify_eq;
    try (apply bind_Some in Hm as (b & -> & Hm); repeat case_match); simplify_eq; cbn in *; simplify_eq; auto.
Qed.
Lemma opening_steps w w' :
  rtc (camera_step sha256) w w' → k_phase w' = KOpening → k_phase w = KOpening.
Proof.
  induction 1 as [w|w1 w2 w3 Hs _ IH]; [done|]. intros Hp%IH. clear IH.
  destruct Hs as [w m w' Hm|w c r _|w _|w]; [|..|done|done].
  - destruct w as [tg g n ph mp q sd sh op co te ad re]. unfold camera_move in Hm. cbn in *.
    destruct ph, m; try done; unfold camera_opened, camera_cleanup, camera_perform, command_done in Hm;
      cbn in Hm; repeat case_match; simplify_eq;
      try (apply bind_Some in Hm as (b & -> & Hm); repeat case_match); simplify_eq; cbn in *; congruence.
  - destruct (camera_request_cases w c r) as [(w1 & E & He & _)|[e E]]; rewrite E in Hp; [|done].
    by apply camera_enqueue_Ok in He as [_ ->].
Qed.

(** C13: once a camera's close request is accepted, or the camera has failed for good, the
    session is left alone: no operation of the session is running or ever runs again, and the
    session is not touched until its close.  The one native call that may still be running is
    the adapter's open, if it was when the request was accepted, as after an open that timed
    out; none is begun, and the session it may yet yield is held under the same terms.  The
    commands not yet answered are refused as closed or dropped, the published error never
    changes, and every later request fails, with that error unless the session is closing. *)
Theorem camera_stopped_quiet target g n w w' :
  rtc (camera_step sha256) (camera_spawn target g n) w →
  k_shutdown w = true ∨ k_terminal w ≠ None →
  rtc (camera_step sha256) w w' →
  (∀ session c, k_phase w' ≠ KPerform session c) ∧ (∀ timeout run, k_phase w' ≠ KCapture timeout run)
  ∧ (k_phase w' = KOpening → k_phase w = KOpening)
  ∧ (∀ m w'' session, camera_move sha256 w' m = Some w'' → camera_session w' = Some session →
       camera_session w'' = Some session ∨ (camera_closing w' ∧ camera_session w'' = None))
  ∧ (∀ e, k_terminal w = Some e → k_terminal w' = Some e)
  ∧ (∃ late, k_resolved w' = k_resolved w ++ late ∧ Forall turned_away late)
  ∧ (∀ c r, ∃ e, camera_request w' c r = (w', Err e)
       ∧ (k_shutdown w' = false → ∀ e0, k_terminal w = Some e0 → e = HalError_with_resource_id e0 r)).
Proof.
  intros Hr Hst Hs. pose proof (camera_steps_ok _ _ Hr (camera_spawn_ok _ _ _)) as Hok.
  pose proof (stopped_steps _ _ Hs Hok Hst) as Hss. pose proof (stays_stopped_stopped _ _ Hss Hst) as Hst'.
  pose proof (camera_steps_ok _ _ Hs Hok) as Hok'. pose proof (stopped_free _ Hok' Hst') as Hf.
  unfold admission_free in Hf.
  split; [by intros ? ? E; rewrite E in Hf|]. split; [by intros ? ? E; rewrite E in Hf|].
  split; [by apply opening_steps|]. split; [intros; by eapply stopped_session|].
  split; [apply (ss_terminal _ _ Hss)|]. split; [apply (ss_resolved _ _ Hss)|].
  intros c r. unfold camera_request, CameraWorker_is_closing, CameraWorker_terminal_error.
  destruct (k_shutdown w') eqn:Hs'; [by eexists|]. destruct (k_terminal w') as [e|] eqn:Ht'.
  - eexists. split; [done|]. intros _ e0 He0. apply (ss_terminal _ _ Hss) in He0. congruence.
  - exfalso. destruct Hst' as [?|?]; congruence.
Qed.
(** The commands of a camera are resolved once each and in order; a thread told to close
    ends after a bounded number of moves, whatever was queued, can always move until then
    (native calls that return or panic provided), and leaves no caller waiting. *)
Theorem camera_close_terminates target g n w moves w' :
  rtc (camera_step sha256) (camera_spawn target g n) w → k_shutdown w = true →
  camera_run w moves = Some w' →
  (length moves <= camera_moves_left w)%nat
  ∧ k_admitted w' = (k_resolved w').*1 ++ camera_in_hand w' ++ k_queue w'
  ∧ ((∃ m w'', camera_move sha256 w' m = Some w'')
     ∨ k_phase w' = KExited ∧ CameraWorker_is_finished w' = true ∧ (k_resolved w').*1 = k_admitted w').
Proof.
  intros Hr Hs Hrun. pose proof (camera_steps_ok _ _ Hr (camera_spawn_ok _ _ _)) as Hok.
  destruct (camera_run_bounded _ _ _ Hok Hs Hrun) as [Hl Hok']. split; [lia|].
  pose proof (ck_account _ Hok') as Hac. split; [done|].
  destruct (k_phase w') eqn:Hp; [left; apply camera_move_enabled; [done|by rewrite Hp]..|].
  right. pose proof (ck_completion _ Hok') as Hc. unfold camera_done in Hc. rewrite Hp in Hc.
  split_and!; [done|done|]. rewrite Hac, (ck_exited _ Hok' Hp). unfold camera_in_hand. rewrite Hp.
  by rewrite !app_nil_r.
Qed.
End camera_worker.
