(* ===== verification/CameraRing.v ===== *)
(** * The camera thread and its frame ring

    Whatever a camera's native session publishes, the ring it is given stays well formed
    ([shm_ok]) and holds only frames of the session's lease generation. *)

From S2P Require Import Prelude Core Lifecycle LeaseTable SerialRegistry Worker.
From S2P Require Import CameraTypes ShmLayout ShmRing CameraWorker CameraWorkerSpec.

(** ** Generations in the ring *)
(** Every frame that can be leased was published under generation [g]. *)
Definition ring_generation (b : BrokerMapping) (g : Z) : Prop :=
  ∀ i, in_ring (bm_config b) i → slot_state (bm_mem b) (bm_config b) i = Ok Ready →
    slot_generation (bm_mem b) (bm_config b) i = g.

Lemma metadata_generation m base md len :
  is_u64_value (md_generation md) → Z.of_nat (length (md_planes md)) <= MAX_PLANES →
  read_u64 (write_slot_metadata m base md len) (base + SLOT_GENERATION) = md_generation md.
Proof.
  intros Hg Hn. unfold write_slot_metadata.
  transitivity (read_u64 (write_u64 m (base + SLOT_GENERATION) (md_generation md))
    (base + SLOT_GENERATION)); [|by apply read_u64_same].
  apply read_u64_agree. layout_simpl. peel_writes.
  etransitivity; [apply write_planes_agree; layout_simpl; lia|]. peel_writes. done.
Qed.
Lemma fill_slot_generation cfg m i md copy m' r :
  ring_config_valid cfg → 0 <= i → is_u64_value (md_generation md) →
  fill_slot m cfg i md copy = (m', r) →
  slot_generation m' cfg i = if is_ok r then md_generation md else slot_generation m cfg i.
Proof.
  intros Hcfg Hi Hg. unfold fill_slot. destruct (copy _) as [bytes copied].
  assert (slot_generation (mem_store m (slot_base cfg i + SLOT_HEADER_BYTES) bytes) cfg i
          = slot_generation m cfg i) as Hstore.
  { apply read_u64_agree. layout_simpl. peel_writes. done. }
  destruct copied as [len|e]; [|by intros [= <- <-]].
  destruct (_ <? len); [by intros [= <- <-]|].
  destruct (validate_planes _ _ _ _ _) as [[]|] eqn:Hv; intros [= <- <-]; [|done].
  apply validate_planes_count in Hv. by apply metadata_generation.
Qed.
(** The slot a publication writes gets the frame's generation, or keeps its own. *)
Lemma publish_locked_generation cfg m md copy m' r i :
  ring_config_valid cfg → copier_in_place copy → is_u64_value (md_generation md) →
  publish_locked_with m cfg md copy = (m', r) → written_slot cfg m = Some i →
  slot_generation m' cfg i = if is_ok r then md_generation md else slot_generation m cfg i.
Proof.
  intros Hcfg Hcopy Hg Hp Hw. unfold written_slot, publish_locked_with in *.
  destruct (select_writable_slot m cfg) as [o|] eqn:Hsel; [|done]. subst o.
  apply select_writable_slot_Some in Hsel as [Hs [Hi _]].
  destruct (slot_state m cfg i) as [previous|] eqn:Hprev; [|naive_solver].
  destruct (if bool_decide _ then _ else _) as [m1|] eqn:Hm1; [|by injection Hp as <- <-].
  destruct (fill_slot _ _ _ _ _) as [m2 r2] eqn:Hfill.
  assert (∀ m s, slot_generation (write_slot_state m cfg i s) cfg i = slot_generation m cfg i) as Hws.
  { intros m0 s. apply read_u64_agree, write_slot_state_agree. layout_simpl. lia. }
  assert (slot_generation m1 cfg i = slot_generation m cfg i) as H1.
  { pose proof (slot_after_header cfg Hcfg i Hi). case_bool_decide; [|by injection Hm1 as <-].
    apply read_u64_agree. eapply increment_dropped_agree; [done|]. layout_simpl. lia. }
  apply fill_slot_generation in Hfill; [|done..]. rewrite Hws, H1 in Hfill.
  destruct (is_ok r2) eqn:E; injection Hp as <- <-; by rewrite Hws, Hfill, E.
Qed.
Lemma generation_agree cfg m m' i :
  ring_config_valid cfg → slot_agree cfg i m' m → slot_generation m' cfg i = slot_generation m cfg i.
Proof.
  intros Hcfg Ha. apply (slot_body_u64 cfg Hcfg); [by apply slot_agree_body|layout_simpl; lia].
Qed.
Lemma ring_generation_same b m' g :
  ring_config_valid (bm_config b) → (∀ i, 0 <= i → slot_agree (bm_config b) i m' (bm_mem b)) →
  ring_generation b g → ring_generation (set_mem b m') g.
Proof.
  intros Hcfg Ha Hg i [Hi Hi'] Hr. cbn [set_mem bm_mem bm_config] in *. rewrite (generation_agree _ _ _ _ Hcfg (Ha i Hi)).
  apply Hg; [done|]. by rewrite <- (slot_agree_state _ Hcfg _ _ _ (Ha i Hi)).
Qed.
Lemma publish_generation b md copy lock retry unlock g :
  shm_ok b → copier_in_place copy → md_generation md = g → is_u64_value g →
  ring_generation b g → ring_generation (publish_with b md copy lock retry unlock).1 g.
Proof.
  intros Hinv Hcopy Hmd Hg Hring. pose proof (ri_config _ Hinv) as Hcfg. unfold publish_with.
  destruct (validate_dimensions _ _ _); [|done]. destruct lock; [| |done].
  - destruct (publish_locked_with _ _ _ _) as [m' r] eqn:Hp. cbn [fst].
    destruct (publish_locked_frame _ Hcfg _ _ _ _ _ Hcopy Hp) as [Hw Ho _].
    intros i Hi Hr. cbn [set_mem bm_mem bm_config] in *. destruct (decide (written_slot (bm_config b) (bm_mem b) = Some i)) as [Hwi|Hne].
    + rewrite (publish_locked_generation _ _ _ _ _ _ _ Hcfg Hcopy ltac:(by rewrite Hmd) Hp Hwi).
      destruct (Hw i Hwi) as (_ & _ & Hst). destruct (is_ok r); [done|]. apply Hring; [done|congruence].
    + rewrite (generation_agree _ _ _ _ Hcfg (Ho i (proj1 Hi) Hne)). apply Hring; [done|].
      by rewrite <- (slot_agree_state _ Hcfg _ _ _ (Ho i (proj1 Hi) Hne)).
  - destruct retry; [|done..]. destruct (increment_dropped_locked _) as [m|] eqn:Hm; [|done].
    apply ring_generation_same; [done| |done]. intros i Hi.
    by apply (publish_frame_increment _ Hcfg _ _ (Ok ()) Hm).
Qed.
Lemma lease_generation b lock unlock g :
  shm_ok b → ring_generation b g →
  ring_generation (next_frame_lease b lock unlock).1 g
  ∧ ∀ lease, (next_frame_lease b lock unlock).2 = Ok (Some lease) → fl_generation lease = g.
Proof.
  intros Hinv Hring. unfold next_frame_lease, with_exclusive_lock. destruct lock; [|done..].
  destruct (next_frame_lease_locked_spec b Hinv) as (b' & o & -> & Hlo). cbn [fst snd]. split.
  - intros i Hi Hr. rewrite (lo_config _ _ _ Hlo) in *.
    pose proof (lo_bodies _ _ _ Hlo i Hi) as Hbody. unfold slot_generation.
    rewrite (slot_body_u64 _ (ri_config _ Hinv) _ _ _ _ Hbody) by (layout_simpl; lia).
    apply Hring; [done|]. by apply (lo_ready _ _ _ Hlo).
  - intros lease Hl. destruct unlock; [|done]. cbn in Hl. injection Hl as ->.
    destruct (lo_some _ _ _ Hlo lease eq_refl) as (Hi & Hs & _ & -> & _). by apply Hring.
Qed.

(** ** The thread's ring *)
Section camera_ring.
Context {S : Type} `{!CameraCaptureSession S} (sha256 : list Z → list Z).
Context (sha256_length : ∀ t, length (sha256 t) = 32%nat).
Implicit Types (w : CameraWorker S).

Record camera_ring w : Prop := {
  cr_generation : is_u64_value (k_generation w);
  cr_ring b : k_mapping w = Some b → shm_ok b ∧ ring_generation b (k_generation w);
  cr_run : match k_phase w with KCapture _ run => copies_in_place run | _ => True end;
  cr_leases c lease : (c, Some (Ok (RespLease (Some lease)))) ∈ k_resolved w →
    fl_generation lease = k_generation w;
}.
Lemma worst_case_nonneg f n :
  0 <= cf_width f → 0 <= cf_height f → CameraFormat_worst_case_frame_bytes f = Ok n → 0 <= n.
Proof.
  unfold CameraFormat_worst_case_frame_bytes. intros Hw Hh (p & Hp%ok_or_Ok & Hn)%bind_Ok.
  apply checked_mul_Some in Hp as [-> _]. destruct (cf_pixel_format f).
  - apply ok_or_Ok in Hn. destruct (checked_mul _ _ _) as [v|] eqn:Hv; [|done]. injection Hn as <-.
    apply checked_mul_Some in Hv as [-> _]. apply Z.div_pos; nia.
  - apply ok_or_Ok, checked_mul_Some in Hn as [-> _]. nia.
  - injection Hn as <-. unfold MAX_CAMERA_FRAME_BYTES. lia.
Qed.
Lemma created_ring session n capacity config names g :
  CameraFormat_worst_case_frame_bytes (cam_format session) = Ok capacity →
  RingConfig_new (cam_format session) n capacity = Ok config → length (mn_identity names) = 32%nat →
  let b := BrokerMapping_create sha256 fresh_memory config (mn_name names) (mn_identity names)
             (mn_token names) in
  shm_ok b ∧ ring_generation b g.
Proof.
  intros Hcap Hcfg Hid b. destruct (cam_format_u32 session) as [Hw Hh].
  assert (ring_config_valid config) as Hv.
  { pose proof (RingConfig_new_Ok _ _ _ _ Hcfg) as (Heq & _). rewrite Heq in Hcfg |- *.
    split; cbn; [by rewrite Hcfg, Heq|]. split; [|done]. by eapply worst_case_nonneg. }
  split; [by apply ring_inv_initial|]. intros i Hi Hr. exfalso.
  pose proof (slot_after_header config Hv i (proj1 Hi)) as Hbase. revert Hr. cbn.
  rewrite (slot_state_agree config _ fresh_memory) by (by apply write_header_agree).
  unfold slot_state, read_u64, mem_load, fresh_memory. by vm_compute.
Qed.
Lemma sink_publish_ring b g md copy env :
  shm_ok b → ring_generation b g → is_u64_value g → copier_in_place copy →
  let b' := (RuntimeFrameSink_publish b g md copy env).1 in shm_ok b' ∧ ring_generation b' g.
Proof.
  intros Hinv Hring Hg Hcopy. unfold RuntimeFrameSink_publish.
  destruct (_ ≫= _) as [fmd|] eqn:Hmd; [|done]. apply bind_Ok in Hmd as (planes & _ & Hnew).
  unfold FrameMetadata_new in Hnew. apply bind_Ok in Hnew as (_ & _ & Hnew).
  apply bind_Ok in Hnew as (_ & _ & [= <-]).
  split; [by apply publish_with_inv|by apply publish_generation].
Qed.
Lemma close_ring b g lock unlock unlink :
  shm_ok b → ring_generation b g →
  let b' := (BrokerMapping_close b lock unlock unlink).1 in shm_ok b' ∧ ring_generation b' g.
Proof.
  intros Hinv Hring. split; [by eapply ring_step_inv; [|constructor]|].
  pose proof (ri_config _ Hinv) as Hcfg.
  assert (ring_generation (set_mem b (write_u64 (bm_mem b) HEADER_TERMINAL_STATE TERMINAL_STATE_CLOSED)) g)
    as Hw.
  { apply ring_generation_same; [done| |done]. intros i Hi. apply write_u64_agree.
    pose proof (slot_after_header _ Hcfg i Hi). layout_simpl. lia. }
  unfold BrokerMapping_close. destruct (bm_closed b); [done|].
  destruct lock; [..|done]; (destruct unlock; [destruct unlink|]); exact Hw.
Qed.
Lemma fates_app w c fate g :
  (∀ c lease, (c, Some (Ok (RespLease (Some lease)))) ∈ k_resolved w → fl_generation lease = g) →
  (∀ lease, fate = Some (Ok (RespLease (Some lease))) → fl_generation lease = g) →
  ∀ c' lease, (c', Some (Ok (RespLease (Some lease)))) ∈ k_resolved w ++ [(c, fate)] →
    fl_generation lease = g.
Proof.
  intros Hold Hnew c' lease [Hin|Hin]%elem_of_app; [by eapply Hold|].
  apply list_elem_of_singleton in Hin. injection Hin as _ <-. by apply Hnew.
Qed.
Definition no_lease (f : CameraCommand * option (HalResult CameraResponse)) : Prop :=
  ∀ lease, f.2 ≠ Some (Ok (RespLease (Some lease))).
(** A change of the thread that leaves the ring alone and answers no lease. *)
Record ring_frame w w' : Prop := {
  rf_generation : k_generation w' = k_generation w;
  rf_mapping : k_mapping w' = k_mapping w ∨ k_mapping w' = None;
  rf_run : match k_phase w' with KCapture _ run => copies_in_place run | _ => True end;
  rf_resolved : ∃ l, k_resolved w' = k_resolved w ++ l ∧ Forall no_lease l;
}.
Lemma camera_ring_frame w w' : ring_frame w w' → camera_ring w → camera_ring w'.
Proof.
  intros [Hg Hm Hrun (l & Hl & Hno)] [A B _ D]. split; rewrite ?Hg; [done| |done|].
  - intros b Hb. apply B. destruct Hm; congruence.
  - intros c lease. rewrite Hl. intros [Hin|Hin]%elem_of_app; [by eapply D|].
    rewrite list.Forall_forall in Hno. by destruct (Hno _ Hin lease).
Qed.
Ltac frame_ring :=
  split; cbn; [done|first [by left|by right]|done|];
  first [exists []; rewrite app_nil_r; by split
        |eexists; split; [reflexivity|]; apply Forall_cons; split; [|by constructor]; intros lease; cbn].
Lemma command_done_frame {T} w session c (r : HalResult T) resp :
  (∀ x lease, resp x ≠ RespLease (Some lease)) → ring_frame w (command_done w session c r resp).
Proof. intros Hr. unfold command_done. destruct (terminal_of r), r; frame_ring; naive_solver. Qed.
Lemma camera_perform_ring w session c closed env w' :
  camera_perform w session c closed env = Some w' → camera_ring w → camera_ring w'.
Proof.
  unfold camera_perform. intros (b & Hb & Hw)%bind_Some Hr. apply (inj Some) in Hw as <-. destruct c.
  - destruct closed; (eapply camera_ring_frame; [|done]); [by frame_ring|].
    split; cbn; [done|by left|apply cam_in_place|exists []; rewrite app_nil_r; by split].
  - eapply camera_ring_frame; [|done]. by frame_ring.
  - destruct (next_frame_lease b _ _) as [b' leased] eqn:Hn. destruct Hr as [A B _ D].
    destruct (B b Hb) as [Hok Hgen]. destruct (lease_generation b (env_lock env) (env_unlock env) _ Hok Hgen)
      as [Hgen' Hlease]. rewrite Hn in Hgen', Hlease. split; cbn; [done| |done|].
    + intros b0 [= <-]. split; [|done].
      pose proof (ring_step_inv _ _ Hok (ring_lease b (env_lock env) (env_unlock env))) as H'.
      by rewrite Hn in H'.
    + apply fates_app; [done|]. intros lease. destruct leased; [|done]. intros [= ->]. by apply Hlease.
  - eapply camera_ring_frame; [|done]. by frame_ring.
  - destruct (cam_controls _). eapply camera_ring_frame; [|done]. by apply command_done_frame.
  - destruct (cam_get_control _ _). eapply camera_ring_frame; [|done]. by apply command_done_frame.
  - destruct (cam_set_control _ _ _). eapply camera_ring_frame; [|done]. by apply command_done_frame.
  - destruct (cam_set_auto _ _ _). eapply camera_ring_frame; [|done]. by apply command_done_frame.
Qed.
Lemma camera_opened_ring w session created :
  names_ok created = true → camera_ring w → camera_ring (camera_opened sha256 w session created).
Proof.
  intros Hn Hr. unfold camera_opened. destruct (_ ≫= _) as [config|] eqn:Hc.
  2:{ eapply camera_ring_frame; [|done]. by frame_ring. }
  destruct created as [names|e]; [|eapply camera_ring_frame; [|done]; by frame_ring].
  apply bind_Ok in Hc as (capacity & Hcap & Hcfg). apply Nat.eqb_eq in Hn. destruct Hr as [A B C D].
  split; cbn; [done| |done|by rewrite ?app_nil_r]. intros b [= <-]. by eapply created_ring.
Qed.
Lemma camera_move_ring w m w' : camera_move sha256 w m = Some w' → camera_ring w → camera_ring w'.
Proof.
  intros Hm Hr. unfold camera_move in Hm. destruct (k_phase w) eqn:Hph, m; try discriminate Hm;
    try (by eapply camera_perform_ring); try (destruct run; discriminate Hm);
    try (destruct run as [s r|md cp nx];
      [injection Hm as <-; eapply camera_ring_frame; [|done]; by apply command_done_frame|]);
    unfold camera_cleanup in Hm; repeat case_match; simplify_eq;
    try (eapply camera_ring_frame; [|exact Hr]; by frame_ring).
  - by apply camera_opened_ring.
  - done.
  - apply bind_Some in Hm as (b & Hb & Hm). destruct Hr as [A B C D]. rewrite Hph in C. destruct C as [C1 C2].
    destruct (B b Hb) as [Hok Hgen]. pose proof (sink_publish_ring b _ md cp env Hok Hgen A C1) as Hpub.
    destruct (RuntimeFrameSink_publish _ _ _ _ _) as [b' r]. injection Hm as <-.
    split; cbn; [done| |apply C2|done]. intros b0 [= <-]. done.
  - apply bind_Some in Hm as (b & Hb & Hm). destruct Hr as [A B C D]. destruct (B b Hb) as [Hok Hgen].
    pose proof (close_ring b _ (env_lock env) (env_unlock env) (env_unlink env) Hok Hgen) as Hcl.
    destruct (BrokerMapping_close _ _ _ _) as [b' r]. injection Hm as <-.
    split; cbn; [done| |done|done]. intros b0 [= <-]. done.
  - eapply camera_ring_frame; [|exact Hr]. split; cbn; [done|by left|by rewrite Hph|].
    eexists. split; [reflexivity|]. apply Forall_cons. split; [done|by constructor].
  - eapply camera_ring_frame; [|exact Hr]. split; cbn; [done|by left|done|].
    eexists. split; [reflexivity|]. apply list.Forall_forall. by intros x (c & -> & _)%list_elem_of_fmap.
Qed.
Lemma camera_step_ring w w' : camera_step sha256 w w' → camera_ring w → camera_ring w'.
Proof.
  intros [? m ? Hm|w0 c r Hf|? Hf|?]; [by eapply camera_move_ring|..]; intros Hr.
  - unfold camera_request. destruct (CameraWorker_is_closing w0), (CameraWorker_terminal_error w0); try done.
    destruct (CameraWorker_try_enqueue _ _ _) as [w1|[]] eqn:He; try done.
    unfold CameraWorker_try_enqueue in He. destruct Hr as [A B C D].
    destruct (k_phase w0) eqn:Hp; try done; (destruct (_ <=? _); [done|]); injection He as <-; by split.
  - by destruct Hr.
  - by destruct Hr.
Qed.

Lemma camera_ring_steps target g n w :
  is_u64_value g → rtc (camera_step sha256) (camera_spawn target g n) w → camera_ring w ∧ k_generation w = g.
Proof.
  intros Hg Hr.
  assert (camera_ring (camera_spawn (S:=S) target g n)) as Hinit by (by split; cbn; [..|intros ? ? ?%elem_of_nil]).
  assert (k_generation (camera_spawn (S:=S) target g n) = g) as Hgen by done.
  revert Hinit Hgen. induction Hr as [w|w1 w2 w3 Hs _ IH]; [done|]. intros H1 Hg1.
  apply IH; [by eapply camera_step_ring|]. rewrite <- Hg1. by eapply (proj1 (camera_step_frame _ _ _ Hs)).
Qed.
End camera_ring.

(** ** A concrete camera: each capture publishes one frame of its format *)
Definition kx_metadata : CameraFrameMetadata :=
  mkCameraFrameMetadata hx_format [mkCameraPlaneLayout 0 8 4] 7 100 "monotonic" 0.
Definition kx_frame : CameraFrame := mkCameraFrame kx_metadata (replicate 8 5).
Program Definition kx_camera : CameraCaptureSession unit := {|
  cam_format _ := hx_format;
  cam_capture_into session _ := default_capture_into (session, Ok kx_frame);
  cam_controls session := (session, Ok []);
  cam_get_control session _ := (session, Ok (ControlInteger 0));
  cam_set_control session _ _ :=
    (session, Err (runtime_error "camera.session.unplugged" Unavailable "camera.control.set" false "gone"));
  cam_set_auto session _ _ := (session, Ok ());
  cam_close _ := Ok ();
|}.
Next Obligation. done. Qed.
Next Obligation.
  intros s t. split; [|done]. intros d. unfold default_copy. destruct (_ <? _)%nat eqn:E; [done|].
  apply Nat.ltb_ge in E. cbn [fst]. rewrite length_app, length_drop. lia.
Qed.
#[local] Existing Instance kx_camera.
Lemma toy_hash_length t : length (toy_hash t) = 32%nat.
Proof. unfold toy_hash. rewrite length_take, length_app, length_replicate. lia. Qed.
Definition kx_target : ResourceId := mkResourceId "camera:1".
Definition kx_env : LockEnv := mkLockEnv LockAcquired LockAcquired (Ok ()) (Ok ()).
Inductive KxEvent := KxMove (m : CameraMove unit) | KxRequest (c : CameraCommand) | KxClose.
Definition kx_exec (w : CameraWorker unit) (ev : KxEvent) : option (CameraWorker unit) :=
  match ev with
  | KxMove m => camera_move toy_hash w m
  | KxRequest c => if admission_free w then Some (camera_request w c kx_target).1 else None
  | KxClose => if admission_free w then Some (CameraWorker_request_close w) else None
  end.
Definition kx_run (w : CameraWorker unit) (evs : list KxEvent) : option (CameraWorker unit) :=
  foldl (λ w ev, w ≫= λ w, kx_exec w ev) (Some w) evs.
Lemma kx_run_steps w evs w' : kx_run w evs = Some w' → rtc (camera_step toy_hash) w w'.
Proof.
  unfold kx_run. revert w. induction evs as [|ev evs IH]; cbn; intros w Hr; [injection Hr as ->; apply rtc_refl|].
  destruct (kx_exec w ev) as [w1|] eqn:Hx; [|exfalso; clear IH; by induction evs].
  eapply rtc_l; [|by apply IH]. destruct ev; cbn in Hx.
  - by eapply camera_step_move.
  - destruct (admission_free w) eqn:Hf; [|done]. injection Hx as <-. by apply camera_step_request.
  - destruct (admission_free w) eqn:Hf; [|done]. injection Hx as <-. by apply camera_step_close.
Qed.
Definition kx_spawned : CameraWorker unit := camera_spawn kx_target 1 4.
Definition kx_after (evs : list KxEvent) : CameraWorker unit := default kx_spawned (kx_run kx_spawned evs).
Lemma kx_reachable evs :
  is_some (kx_run kx_spawned evs) = true → rtc (camera_step toy_hash) kx_spawned (kx_after evs).
Proof. unfold kx_after. destruct (kx_run _ evs) eqn:Hr; [|done]. intros _. by apply kx_run_steps in Hr. Qed.
Definition kx_serve (c : CameraCommand) : list KxEvent :=
  KxRequest c :: (KxMove <$> [KmIterate; KmRecheck; KmAdmit; KmPerform false kx_env]).
(** A capture, a lease of its frame. *)
Definition kx_leased : list KxEvent :=
  KxMove (KmOpened (Ok ()) (Ok (mkMappingNames "ring" hx_identity hx_token))) ::
  kx_serve (CmdCapture 10) ++ [KxMove (KmCapture kx_env); KxMove (KmCapture kx_env)] ++
  kx_serve CmdNextFrameLease.
(** A close while two commands are queued. *)
Definition kx_closing : list KxEvent :=
  kx_leased ++ [KxRequest CmdControls; KxRequest CmdDroppedCount; KxClose].
(** A control call that finds the camera unplugged. *)
Definition kx_unplugged : list KxEvent := kx_leased ++ kx_serve (CmdSetControl Gain (ControlInteger 3)).
Definition kx_shut : list (CameraMove unit) :=
  [KmIterate; KmUnmap kx_env; KmClose; KmDrain; KmDrain; KmDrain; KmPublish; KmComplete; KmExit].

(** A close while the open is still running, which then yields a session; and the unplugged
    camera. *)
Definition kx_late : list KxEvent :=
  [KxClose; KxMove (KmOpened (Ok ()) (Ok (mkMappingNames "ring" hx_identity hx_token)))].
Lemma camera_stopped_quiet_witness :
  (camera_session (kx_after kx_late) = Some () ∧
   ∀ m w'', camera_move toy_hash (kx_after kx_late) m = Some w'' → camera_session w'' = Some ())
  ∧ ∃ e, camera_request (kx_after kx_unplugged) CmdControls kx_target = (kx_after kx_unplugged, Err e)
    ∧ err_name e = mkErrorName "camera.session.unplugged".
Proof.
  split.
  - assert (rtc (camera_step toy_hash) kx_spawned (kx_after [KxClose])) as Hr
      by (apply kx_reachable; vm_compute; reflexivity).
    assert (rtc (camera_step toy_hash) (kx_after [KxClose]) (kx_after kx_late)) as Hl
      by (apply (kx_run_steps _ [KxMove (KmOpened (Ok ()) (Ok (mkMappingNames "ring" hx_identity hx_token)))]);
          vm_compute; reflexivity).
    destruct (camera_stopped_quiet toy_hash kx_target 1 4 (kx_after [KxClose]) (kx_after kx_late) Hr
      ltac:(left; vm_compute; reflexivity) Hl) as (_ & _ & _ & Hs & _).
    split; [vm_compute; reflexivity|]. intros m w'' Hm.
    destruct (Hs m w'' () Hm) as [H|[Hc _]]; [vm_compute; reflexivity|exact H|destruct Hc].
  - assert (rtc (camera_step toy_hash) kx_spawned (kx_after kx_unplugged)) as Hr
      by (apply kx_reachable; vm_compute; reflexivity).
    assert (∃ e0, k_terminal (kx_after kx_unplugged) = Some e0
      ∧ err_name e0 = mkErrorName "camera.session.unplugged") as (e0 & Ht & Hname)
      by (eexists; split; vm_compute; reflexivity).
    destruct (camera_stopped_quiet toy_hash kx_target 1 4 (kx_after kx_unplugged) (kx_after kx_unplugged) Hr
      ltac:(right; rewrite Ht; discriminate) (rtc_refl _ _)) as (_ & _ & _ & _ & _ & _ & Hq).
    destruct (Hq CmdControls kx_target) as (e & He & Hterm). exists e. split; [exact He|].
    rewrite (Hterm ltac:(vm_compute; reflexivity) e0 Ht). exact Hname.
Defined.
Lemma camera_close_terminates_witness :
  (length kx_shut <= camera_moves_left (kx_after kx_closing))%nat
  ∧ is_some (camera_run toy_hash (kx_after kx_closing) kx_shut) = true.
Proof.
  assert (rtc (camera_step toy_hash) kx_spawned (kx_after kx_closing)) as Hr
    by (apply kx_reachable; vm_compute; reflexivity).
  assert (is_some (camera_run toy_hash (kx_after kx_closing) kx_shut) = true) as Hs
    by (vm_compute; reflexivity).
  split; [|exact Hs]. destruct (camera_run toy_hash (kx_after kx_closing) kx_shut) as [w'|] eqn:Hrun;
    [|discriminate Hs].
  exact (proj1 (camera_close_terminates toy_hash kx_target 1 4 (kx_after kx_closing) kx_shut w' Hr
    ltac:(vm_compute; reflexivity) Hrun)).
Defined.
