(* ===== verification/CameraManager.v ===== *)
(** * robot-hal-runtime: the camera manager

    Models [CameraManager] of crates/robot-hal-runtime/src/camera_manager.rs: the critical
    sections of [open], of the calls on a session, of [close] and of [revoke_owner], and the
    tasks that wait for a worker, over the threads of [CameraWorker].

    As in [WorkerManager], a critical section of the manager's mutex is one operation on
    [CameraState], and [CamSystem] adds the threads, the calls in progress and the waiting
    tasks.  A worker is named by its session; session and lease identifiers are arguments,
    the session identifiers being distinct. *)

From S2P Require Import Prelude Core Lifecycle LeaseTable SerialRegistry Worker WorkerManager.
From S2P Require Import CameraTypes ShmLayout ShmRing CameraWorker CameraWorkerSpec CameraRing.

(** ** State *)
Record CameraEntry := mkCameraEntry {
  nt_resource : ResourceId;
  nt_owner : OwnerId;
  nt_lease : LeaseToken;
}.
Record CameraClosed := mkCameraClosed {
  nc_resource : ResourceId;
  nc_lease : LeaseToken;
  nc_terminal_error : option HalError;
}.
Record CameraState := mkCameraState {
  cs_leases : LeaseTable;
  cs_sessions : gmap SessionId CameraEntry;
  cs_closed : gmap SessionId CameraClosed;
}.
Definition CameraState_default : CameraState := mkCameraState LeaseTable_default ∅ ∅.
Definition set_cs_leases (st : CameraState) (t : LeaseTable) : CameraState :=
  mkCameraState t (cs_sessions st) (cs_closed st).
Definition camera_release (st : CameraState) (resource : ResourceId) (id : SessionId) : CameraState :=
  set_cs_leases st (LeaseTable_release (cs_leases st) resource id).1.

(** ** Errors *)
Definition camera_not_configured (op : string) : HalError :=
  runtime_error "runtime.adapter.not_configured" Unavailable op false "no Camera adapter was registered".
Definition camera_close_timeout (op timeout : string) : HalError :=
  runtime_error "runtime.session.close_timeout" Unavailable op false
    ("camera worker did not release its native session within " +:+ timeout
     +:+ "; the resource remains quarantined").
Definition camera_open_timeout (op timeout : string) : HalError :=
  runtime_error "runtime.transport.timeout" Unavailable op true
    ("camera worker did not finish opening within " +:+ timeout +:+ "; the resource remains quarantined").

(** ** Critical sections *)
Definition camera_enumerate (adapter : option (HalResult (list ResourceDescriptor)))
    : HalResult (list ResourceDescriptor) :=
  ok_or (camera_not_configured "camera.enumerate") adapter ≫= λ enumerated, enumerated.
(** [open], up to the reservation. *)
Definition camera_open_reserve (st : CameraState) (adapter : option (HalResult (list ResourceDescriptor)))
    (owner : OwnerId) (selector : ResourceSelector) (id : SessionId) (fresh : LeaseId)
    : CameraState * HalResult (ResourceId * LeaseToken) :=
  match ok_or (camera_not_configured "camera.open") adapter ≫= λ enumerated,
        enumerated ≫= λ descriptors,
        resolve_resource descriptors selector camera_capture_capability "camera.open" with
  | Err e => (st, Err e)
  | Ok descriptor =>
      let '(leases, reserved) :=
        LeaseTable_reserve_control (cs_leases st) (desc_id descriptor) id owner fresh in
      (set_cs_leases st leases, (λ lease, (desc_id descriptor, lease)) <$> reserved)
  end.
(** [open], from the worker's answer or the failure to spawn it. *)
Definition camera_open_settle (st : CameraState) (id : SessionId) (open : MgrOpen) (wait : OpenWait)
    (timeout : string) : CameraState * OpenNext :=
  let resource := mo_resource open in
  match mo_stage open with
  | SpawnFailed error => (camera_release st resource id, OpenFail error)
  | Opened => (st, OpenProceed)
  | AwaitOpened =>
      match wait with
      | WaitOpened (Ok _) => (st, OpenProceed)
      | WaitOpened (Err error) => (camera_release st resource id, OpenFail error)
      | WaitDropped =>
          (camera_release st resource id, OpenFail (camera_actor_unavailable "camera.open"))
      | WaitTimeout =>
          (st, OpenQuarantine
                 (HalError_with_resource_id (camera_open_timeout "camera.open" timeout) resource))
      end
  end.
Definition camera_open_commit (st : CameraState) (id : SessionId) (open : MgrOpen)
    : CameraState * HalResult (SessionId * LeaseToken) :=
  let '(leases, committed) := LeaseTable_commit (cs_leases st) (mo_resource open) id (mo_lease open) in
  if negb committed then
    (set_cs_leases st leases,
     Err (HalError_with_resource_id (camera_session_closed "camera.open") (mo_resource open)))
  else
    (mkCameraState leases
       (<[id := mkCameraEntry (mo_resource open) (mo_owner open) (mo_lease open)]> (cs_sessions st))
       (cs_closed st),
     Ok (id, mo_lease open)).
(** The body of [finish_session]; [terminal] is the error its worker has published. *)
Definition camera_forget (st : CameraState) (id : SessionId) (entry : CameraEntry)
    (terminal : option HalError) : CameraState :=
  mkCameraState (LeaseTable_release (cs_leases st) (nt_resource entry) id).1 (delete id (cs_sessions st))
    (<[id := mkCameraClosed (nt_resource entry) (nt_lease entry) terminal]> (cs_closed st)).
Definition camera_finish_session (st : CameraState) (id : SessionId) (terminal : option HalError)
    : CameraState :=
  match cs_sessions st !! id with
  | None => st
  | Some entry => camera_forget st id entry terminal
  end.
(** [CameraManager::worker]; the last three arguments are what the entry's worker says. *)
Definition camera_worker (st : CameraState) (id : SessionId) (lease : LeaseToken) (op : string)
    (finished closing : bool) (terminal : option HalError) : CameraState * HalResult ResourceId :=
  match cs_sessions st !! id with
  | None =>
      (st, Err match cs_closed st !! id with
               | Some closed =>
                   let resource := nc_resource closed in
                   if token_generation lease <? LeaseTable_current_generation (cs_leases st) resource then
                     HalError_with_resource_id
                       (runtime_error "runtime.lease.stale_generation" Conflict op false
                          "lease generation is older than the closed camera session generation") resource
                   else if bool_decide (lease ≠ nc_lease closed) then
                     HalError_with_resource_id
                       (runtime_error "runtime.lease.invalid_token" Conflict op false
                          "the lease token does not match the closed camera session") resource
                   else
                     match nc_terminal_error closed with
                     | Some error => HalError_with_resource_id error resource
                     | None => camera_session_closed op
                     end
               | None => camera_session_closed op
               end)
  | Some entry =>
      let resource := nt_resource entry in
      match LeaseTable_validate (cs_leases st) resource id (nt_owner entry) lease op with
      | Err e => (st, Err e)
      | Ok _ =>
          if finished then
            (camera_forget st id entry terminal,
             Err (HalError_with_resource_id (default (camera_actor_unavailable op) terminal) resource))
          else if closing then (st, Err (HalError_with_resource_id (camera_session_closed op) resource))
          else (st, Ok resource)
      end
  end.
(** The [select!] at the end of [request]. *)
Definition camera_reply_result {T} (op : string) (resource : ResourceId) (event : ReplyEvent T)
    : HalResult T :=
  map_err (λ e, HalError_with_resource_id e resource)
    match event with
    | Answered result => result
    | ReplyDropped => Err (camera_actor_unavailable op)
    | ClosingSeen => Err (camera_session_closed op)
    end.
(** The end of [close]: the completion seen, or [None] when the wait timed out. *)
Definition camera_close_end (st : CameraState) (id : SessionId) (resource : ResourceId)
    (completion : option (HalResult unit)) (terminal : option HalError) (timeout : string)
    : CameraState * HalResult unit :=
  match completion with
  | Some result =>
      (camera_finish_session st id terminal, map_err (λ e, HalError_with_resource_id e resource) result)
  | None =>
      (st, Err (HalError_with_resource_id (camera_close_timeout "camera.close" timeout) resource))
  end.
(** [revoke_owner]: its targets, one wait of its loop, and its result. *)
Definition camera_owner_sessions (st : CameraState) (owner : OwnerId) : list (SessionId * ResourceId) :=
  (λ '(id, entry), (id, nt_resource entry)) <$>
    filter (λ '(_, entry), nt_owner entry = owner) (map_to_list (cs_sessions st)).
Definition camera_revoke_round (st : CameraState) (id : SessionId) (resource : ResourceId)
    (completion : option (HalResult unit)) (terminal : option HalError) (timeout : string)
    : CameraState * HalResult unit :=
  let result :=
    match completion with
    | Some result => map_err (λ e, HalError_with_resource_id e resource) result
    | None =>
        Err (HalError_with_resource_id (camera_close_timeout "camera.revoke_owner" timeout) resource)
    end in
  (if is_ok result then camera_finish_session st id terminal else st, result).
Definition camera_revoke_result (rounds : list (HalResult unit)) : HalResult unit :=
  match omap result_err rounds with
  | error :: _ => Err error
  | [] => Ok ()
  end.

(** ** The manager at work *)
Section camera_system.
Context {S : Type} `{!CameraCaptureSession S} (sha256 : list Z → list Z).

(** A call of [revoke_owner]: whom it has still to tell to close, and whom it waits for. *)
Record CamRevoke := mkCamRevoke {
  rk_tell : list SessionId;
  rk_targets : list (SessionId * ResourceId);
}.
(** [cm_callers]: requests that have a worker and wait for its admission lock;
    [cm_closers]: calls of [close] that do; [cm_reapers] and [cm_releasers]: the tasks of
    [reap_when_finished] and [release_reservation_when_finished]. *)
Record CamSystem := mkCamSystem {
  cm_state : CameraState;
  cm_workers : gmap SessionId (CameraWorker S);
  cm_opens : gmap SessionId MgrOpen;
  cm_callers : list (SessionId * ResourceId * CameraCommand);
  cm_closers : list SessionId;
  cm_reapers : list SessionId;
  cm_releasers : list (SessionId * ResourceId * LeaseToken);
  cm_revokes : list CamRevoke;
}.
Definition CamSystem_init : CamSystem := mkCamSystem CameraState_default ∅ ∅ [] [] [] [] [].
Implicit Types (y : CamSystem) (id : SessionId).
Definition cm_with_state y (st : CameraState) : CamSystem :=
  mkCamSystem st (cm_workers y) (cm_opens y) (cm_callers y) (cm_closers y) (cm_reapers y)
    (cm_releasers y) (cm_revokes y).
Definition cm_with_workers y (ws : gmap SessionId (CameraWorker S)) : CamSystem :=
  mkCamSystem (cm_state y) ws (cm_opens y) (cm_callers y) (cm_closers y) (cm_reapers y)
    (cm_releasers y) (cm_revokes y).
Definition cm_with_opens y (opens : gmap SessionId MgrOpen) : CamSystem :=
  mkCamSystem (cm_state y) (cm_workers y) opens (cm_callers y) (cm_closers y) (cm_reapers y)
    (cm_releasers y) (cm_revokes y).
Definition cm_with_callers y (callers : list (SessionId * ResourceId * CameraCommand)) : CamSystem :=
  mkCamSystem (cm_state y) (cm_workers y) (cm_opens y) callers (cm_closers y) (cm_reapers y)
    (cm_releasers y) (cm_revokes y).
Definition cm_with_closers y (closers : list SessionId) : CamSystem :=
  mkCamSystem (cm_state y) (cm_workers y) (cm_opens y) (cm_callers y) closers (cm_reapers y)
    (cm_releasers y) (cm_revokes y).
Definition cm_with_reapers y (reapers : list SessionId) : CamSystem :=
  mkCamSystem (cm_state y) (cm_workers y) (cm_opens y) (cm_callers y) (cm_closers y) reapers
    (cm_releasers y) (cm_revokes y).
Definition cm_with_releasers y (releasers : list (SessionId * ResourceId * LeaseToken)) : CamSystem :=
  mkCamSystem (cm_state y) (cm_workers y) (cm_opens y) (cm_callers y) (cm_closers y) (cm_reapers y)
    releasers (cm_revokes y).
Definition cm_with_revokes y (revokes : list CamRevoke) : CamSystem :=
  mkCamSystem (cm_state y) (cm_workers y) (cm_opens y) (cm_callers y) (cm_closers y) (cm_reapers y)
    (cm_releasers y) revokes.
Definition cm_alter y id (f : CameraWorker S → CameraWorker S) : CamSystem :=
  cm_with_workers y (alter f id (cm_workers y)).
Definition cm_finished y id : bool :=
  is_some_and CameraWorker_is_finished (cm_workers y !! id).
Definition cm_closing y id : bool := is_some_and CameraWorker_is_closing (cm_workers y !! id).
Definition cm_terminal y id : option HalError := cm_workers y !! id ≫= CameraWorker_terminal_error.
Definition cm_completion y id : option (HalResult unit) := cm_workers y !! id ≫= k_completion.
(** [request_close] can be made: its lock is free. *)
Definition cm_admits y id : bool := is_some_and admission_free (cm_workers y !! id).
Definition cm_wait_possible y id (wait : OpenWait) : bool :=
  match wait, k_opened <$> cm_workers y !! id with
  | WaitTimeout, _ => true
  | WaitOpened (Ok _), Some (OpenSent (Ok _)) => true
  | WaitOpened (Err e), Some (OpenSent (Err e')) => bool_decide (e = e')
  | WaitDropped, Some OpenDropped => true
  | _, _ => false
  end.

Inductive CamEvent :=
  | CkOpen (adapter : option (HalResult (list ResourceDescriptor))) (owner : OwnerId)
      (selector : ResourceSelector) (slot_count : Z) (id : SessionId) (fresh : LeaseId)
      (spawn : option HalError)
  | CkSettle (id : SessionId) (wait : OpenWait) (timeout : string)
  | CkCommit (id : SessionId)
  | CkCancel (id : SessionId)
  | CkCall (id : SessionId) (lease : LeaseToken) (command : CameraCommand)
  | CkRequest (n : nat)
  | CkClose (id : SessionId) (lease : LeaseToken)
  | CkCloseTell (n : nat)
  | CkFinish (id : SessionId)
  | CkRelease (n : nat)
  | CkRevoke (owner : OwnerId) (targets : list (SessionId * ResourceId))
  | CkRevokeTell (n : nat)
  | CkRevokeReap (n : nat)
  | CkRevokeEnd (n : nat) (timed_out : bool) (timeout : string)
  | CkMove (id : SessionId) (m : CameraMove S).

(** One critical section, task or thread move; [None] when it is not possible.  A [close]
    that sees the completion itself does what its reaper does. *)
Definition cam_exec y (ev : CamEvent) : option CamSystem :=
  let st := cm_state y in
  match ev with
  | CkOpen adapter owner selector slot_count id fresh spawn =>
      if is_some (cm_workers y !! id) || is_some (cm_opens y !! id) then None
      else
        let '(st, reserved) := camera_open_reserve st adapter owner selector id fresh in
        let y := cm_with_state y st in
        match reserved with
        | Err _ => Some y
        | Ok (resource, lease) =>
            match spawn with
            | Some error =>
                Some (cm_with_opens y
                        (<[id := mkMgrOpen owner resource lease (SpawnFailed error)]> (cm_opens y)))
            | None =>
                let worker := camera_spawn (sel_id selector) (token_generation lease) slot_count in
                Some (cm_with_opens (cm_with_workers y (<[id := worker]> (cm_workers y)))
                        (<[id := mkMgrOpen owner resource lease AwaitOpened]> (cm_opens y)))
            end
        end
  | CkSettle id wait timeout =>
      open ← cm_opens y !! id;
      if match mo_stage open with
         | SpawnFailed _ => true
         | AwaitOpened => cm_wait_possible y id wait
         | Opened => false
         end
      then
        let '(st, next) := camera_open_settle st id open wait timeout in
        let y := cm_with_state y st in
        let ended := cm_with_opens y (delete id (cm_opens y)) in
        match next with
        | OpenProceed =>
            Some (cm_with_opens y
                    (<[id := mkMgrOpen (mo_owner open) (mo_resource open) (mo_lease open) Opened]>
                       (cm_opens y)))
        | OpenFail _ => Some (cm_alter ended id camera_disconnect)
        | OpenQuarantine _ =>
            if cm_admits y id then
              Some (cm_with_releasers (cm_alter ended id CameraWorker_request_close)
                      ((id, mo_resource open, mo_lease open) :: cm_releasers y))
            else None
        end
      else None
  | CkCommit id =>
      open ← cm_opens y !! id;
      match mo_stage open with
      | Opened =>
          let '(st, res) := camera_open_commit st id open in
          let y := cm_with_opens (cm_with_state y st) (delete id (cm_opens y)) in
          match res with
          | Ok _ => Some (cm_with_reapers y (id :: cm_reapers y))
          | Err _ =>
              if cm_admits y id then
                Some (cm_with_releasers (cm_alter y id CameraWorker_request_close)
                        ((id, mo_resource open, mo_lease open) :: cm_releasers y))
              else None
          end
      | _ => None
      end
  | CkCancel id =>
      _ ← cm_opens y !! id;
      Some (cm_alter (cm_with_opens y (delete id (cm_opens y))) id camera_disconnect)
  | CkCall id lease command =>
      let '(st, res) := camera_worker st id lease (camera_operation command) (cm_finished y id)
                          (cm_closing y id) (cm_terminal y id) in
      let y := cm_with_state y st in
      Some match res with
           | Ok resource => cm_with_callers y ((id, resource, command) :: cm_callers y)
           | Err _ => y
           end
  | CkRequest n =>
      '(id, resource, command) ← cm_callers y !! n;
      if cm_admits y id then
        Some (cm_alter (cm_with_callers y (delete n (cm_callers y))) id
                (λ w, (camera_request w command resource).1))
      else None
  | CkClose id lease =>
      let '(st, res) := camera_worker st id lease "camera.close" (cm_finished y id) (cm_closing y id)
                          (cm_terminal y id) in
      let y := cm_with_state y st in
      Some match res with Ok _ => cm_with_closers y (id :: cm_closers y) | Err _ => y end
  | CkCloseTell n =>
      id ← cm_closers y !! n;
      if cm_admits y id then
        let y := cm_with_closers y (delete n (cm_closers y)) in
        Some (cm_with_reapers (cm_alter y id CameraWorker_request_close) (id :: cm_reapers y))
      else None
  | CkFinish id =>
      if bool_decide (id ∈ cm_reapers y) && cm_finished y id
      then Some (cm_with_state y (camera_finish_session st id (cm_terminal y id))) else None
  | CkRelease n =>
      '(id, resource, lease) ← cm_releasers y !! n;
      if cm_finished y id then
        let st := set_cs_leases st (LeaseTable_quarantine (cs_leases st) resource id lease).1 in
        Some (cm_with_releasers (cm_with_state y (camera_release st resource id))
                (delete n (cm_releasers y)))
      else None
  | CkRevoke owner targets =>
      if same_elements targets (camera_owner_sessions st owner)
      then Some (cm_with_revokes y (mkCamRevoke targets.*1 targets :: cm_revokes y)) else None
  | CkRevokeTell n =>
      revoke ← cm_revokes y !! n;
      id ← head (rk_tell revoke);
      if cm_admits y id then
        Some (cm_with_revokes (cm_alter y id CameraWorker_request_close)
                (<[n := mkCamRevoke (tail (rk_tell revoke)) (rk_targets revoke)]> (cm_revokes y)))
      else None
  | CkRevokeReap n =>
      revoke ← cm_revokes y !! n;
      if bool_decide (rk_tell revoke = [])
      then Some (cm_with_reapers y ((rk_targets revoke).*1 ++ cm_reapers y)) else None
  | CkRevokeEnd n timed_out timeout =>
      revoke ← cm_revokes y !! n;
      '(id, resource) ← head (rk_targets revoke);
      let completion := if timed_out then None else cm_completion y id in
      if bool_decide (id ∈ cm_reapers y) && (timed_out || is_some completion) then
        let '(st, _) := camera_revoke_round st id resource completion (cm_terminal y id) timeout in
        Some (cm_with_revokes (cm_with_state y st)
                (<[n := mkCamRevoke (rk_tell revoke) (tail (rk_targets revoke))]> (cm_revokes y)))
      else None
  | CkMove id m =>
      w ← cm_workers y !! id;
      w ← camera_move sha256 w m;
      Some (cm_with_workers y (<[id := w]> (cm_workers y)))
  end.
Definition cam_step y y' : Prop := ∃ ev, cam_exec y ev = Some y'.
Definition cam_run y (evs : list CamEvent) : option CamSystem :=
  foldl (λ o ev, o ≫= λ y, cam_exec y ev) (Some y) evs.
End camera_system.
