(* ===== verification/CameraManagerSpec.v ===== *)
(** * The camera manager: who uses the hardware

    The invariant of [CameraManager]'s system, and the theorems about it. *)

From S2P Require Import Prelude Core Lifecycle LeaseTable SerialRegistry Worker WorkerManager.
From S2P Require Import CameraTypes ShmLayout ShmRing CameraWorker CameraWorkerSpec CameraRing.
From S2P Require Import CameraManager.

Section camera_manager.
Context {S : Type} `{!CameraCaptureSession S} (sha256 : list Z → list Z).
Implicit Types (y : CamSystem (S := S)) (w : CameraWorker S) (id : SessionId).

(** The thread has, or may yet get, a native session it serves. *)
Definition camera_native w : bool :=
  match k_phase w with
  | KOpening | KLoop _ | KTaken _ _ | KAwait _ _ | KPerform _ _ | KCapture _ _ | KUnmap _ _
  | KClosing _ _ _ => true
  | _ => false
  end.
(** It has one it could not map and is still closing. *)
Definition camera_unmapped w : bool := match k_phase w with KUnmapped _ _ => true | _ => false end.
Definition camera_leased (t : LeaseTable) (r : ResourceId) id : Prop :=
  ∃ a, active t !! r = Some a ∧ al_session_id a = id.

Lemma camera_move_native w m w' :
  camera_move sha256 w m = Some w' → camera_native w' = true → camera_native w = true.
Proof.
  intros Hm. unfold camera_move, camera_native in *. destruct (k_phase w) eqn:Hph, m; try discriminate Hm;
    try done; unfold camera_cleanup in Hm; cbn in Hm; repeat case_match; simplify_eq; cbn in *; congruence.
Qed.
Lemma camera_request_frame w c r :
  let w' := (camera_request w c r).1 in k_phase w' = k_phase w ∧ k_target w' = k_target w.
Proof.
  destruct (camera_request_cases w c r) as [(w1 & -> & He & _)|[e ->]]; [|done].
  by apply camera_enqueue_Ok in He as [_ ->].
Qed.
Lemma not_native_opened w :
  camera_ok w → (∃ e, k_opened w = OpenSent (Err e)) ∨ k_opened w = OpenDropped → camera_native w = false.
Proof.
  intros Hok Ho. pose proof (ck_opened _ Hok) as Hag.
  unfold opened_agrees, camera_past, camera_native in *.
  destruct Ho as [[e He]|He]; rewrite He in Hag; by destruct (k_phase w).
Qed.
Lemma not_native_finished w :
  camera_ok w → CameraWorker_is_finished w = true → camera_native w = false.
Proof.
  unfold CameraWorker_is_finished. intros Hok. rewrite (ck_completion _ Hok).
  unfold camera_done, camera_native. by destruct (k_phase w).
Qed.

(** ** Invariant *)
Record cam_inv y : Prop := {
  ni_workers id w : cm_workers y !! id = Some w → camera_ok w;
  (** a thread that has, or may get, a native session to serve is covered by a lease; *)
  ni_native id w : cm_workers y !! id = Some w → camera_native w = true →
    camera_leased (cs_leases (cm_state y)) (k_target w) id;
  ni_spawn id o e : cm_opens y !! id = Some o → mo_stage o = SpawnFailed e → cm_workers y !! id = None;
}.
Lemma cam_inv_init : cam_inv CamSystem_init.
Proof. by split; cbn; intros *; rewrite lookup_empty. Qed.
(** The worker of [id] no longer uses the hardware under the lease. *)
Definition idle y id : Prop := ∀ w, cm_workers y !! id = Some w → camera_native w = false.
Lemma idle_finished y id : cam_inv y → cm_finished y id = true → idle y id.
Proof.
  unfold cm_finished. intros Hi Hf w Hw. rewrite Hw in Hf. apply not_native_finished; [|done].
  by eapply ni_workers.
Qed.
(** Changes of the state that keep the leases of workers in use. *)
Lemma cam_inv_state y st :
  (∀ id w, cm_workers y !! id = Some w → camera_native w = true →
     camera_leased (cs_leases (cm_state y)) (k_target w) id →
     camera_leased (cs_leases st) (k_target w) id) →
  cam_inv y → cam_inv (cm_with_state y st).
Proof. intros Hk [A B C]. split; cbn; [done| |done]. intros id w Hw Hn. eauto. Qed.
Lemma cam_inv_release y r id :
  idle y id → cam_inv y → cam_inv (cm_with_state y (camera_release (cm_state y) r id)).
Proof.
  intros Hid. apply cam_inv_state. intros id' w Hw Hn (a & Ha & <-). exists a. split; [|done]. cbn.
  apply release_other; [done|]. intros Heq. rewrite <- Heq in Hid. rewrite (Hid w Hw) in Hn. done.
Qed.
Lemma leased_commit t r id tok r' id' :
  camera_leased t r' id' → camera_leased (LeaseTable_commit t r id tok).1 r' id'.
Proof.
  intros (a & Ha & Hid). destruct (LeaseTable_commit t r id tok) as [t' ok] eqn:Hc. cbn.
  apply commit_inv in Hc as [[_ ->]|(b & _ & Hb & Hb' & _ & ->)]; [by exists a|]. unfold camera_leased. cbn.
  destruct (decide (r = r')) as [-> |Hne]; [|rewrite lookup_insert_ne by done; eauto].
  rewrite lookup_insert_eq. eexists. split; [done|]. rewrite Ha in Hb. injection Hb as <-. by destruct a.
Qed.
Lemma cam_inv_finish y id t :
  cam_inv y → cm_finished y id = true → cam_inv (cm_with_state y (camera_finish_session (cm_state y) id t)).
Proof.
  intros Hi Hf. unfold camera_finish_session. destruct (cs_sessions _ !! id) as [e|].
  - apply cam_inv_state; [|done]. intros id' w Hw Hn (a & Ha & <-). exists a. split; [|done]. cbn.
    apply release_other; [done|]. intros Heq. pose proof (idle_finished _ _ Hi Hf) as Hid.
    rewrite <- Heq in Hid. by rewrite (Hid w Hw) in Hn.
  - by apply cam_inv_state.
Qed.
(** Only workers of [id] change, and without taking hardware. *)
Lemma cam_inv_alter y id f :
  (∀ w, cm_workers y !! id = Some w → camera_ok w →
     camera_ok (f w) ∧ k_target (f w) = k_target w ∧ (camera_native (f w) = true → camera_native w = true)) →
  cam_inv y → cam_inv (cm_alter y id f).
Proof.
  intros Hf [A B C]. split; cbn.
  - intros id' w. destruct (decide (id = id')) as [<-|Hne]; [|rewrite lookup_alter_ne by done; apply A].
    rewrite lookup_alter_eq. intros (w0 & Hw & ->)%fmap_Some. eapply Hf; eauto.
  - intros id' w. destruct (decide (id = id')) as [<-|Hne]; [|rewrite lookup_alter_ne by done; apply B].
    rewrite lookup_alter_eq. intros (w0 & Hw & ->)%fmap_Some Hn.
    destruct (Hf w0 Hw) as (_ & -> & Hnn); [by eapply A|]. by apply B; [|apply Hnn].
  - intros id' o e Ho He. pose proof (C _ _ _ Ho He) as Hnone.
    destruct (decide (id = id')) as [<-|Hne]; [by rewrite lookup_alter_eq, Hnone|].
    by rewrite lookup_alter_ne.
Qed.
Lemma cam_inv_close y id : cm_admits y id = true → cam_inv y → cam_inv (cm_alter y id CameraWorker_request_close).
Proof.
  unfold cm_admits. intros Hf. apply cam_inv_alter. intros w Hw Hok. split; [|done].
  eapply (camera_step_ok sha256); [|done]. constructor. by rewrite Hw in Hf.
Qed.
Lemma cam_inv_disconnect y id : cam_inv y → cam_inv (cm_alter y id camera_disconnect).
Proof.
  apply cam_inv_alter. intros w Hw Hok. split; [|done]. eapply (camera_step_ok sha256); [|done]. constructor.
Qed.
Lemma cam_inv_opens y opens :
  (∀ id o e, opens !! id = Some o → mo_stage o = SpawnFailed e → cm_workers y !! id = None) →
  cam_inv y → cam_inv (cm_with_opens y opens).
Proof. intros Ho [A B C]. by split. Qed.
Lemma cam_inv_delete_open y id : cam_inv y → cam_inv (cm_with_opens y (delete id (cm_opens y))).
Proof.
  intros Hi. apply cam_inv_opens; [|done]. intros id' o e [_ Ho]%lookup_delete_Some He.
  by eapply ni_spawn.
Qed.
(** ** Steps *)
Lemma camera_open_reserve_cases st adapter owner selector id fresh st' res :
  camera_open_reserve st adapter owner selector id fresh = (st', res) →
  match res with
  | Ok (r, lease) =>
      r = sel_id selector ∧ active (cs_leases st) !! r = None ∧
      active (cs_leases st') = <[r := mkActiveLease id owner lease false]> (active (cs_leases st))
  | Err _ => active (cs_leases st') = active (cs_leases st)
  end.
Proof.
  unfold camera_open_reserve. destruct (_ ≫= _) as [d|] eqn:Hd; [|by intros [= <- <-]].
  apply bind_Ok in Hd as (en & _ & Hd). apply bind_Ok in Hd as (ds & _ & Hd%resolve_resource_id).
  destruct (LeaseTable_reserve_control _ _ _ _ _) as [t [tok|e]] eqn:Hr; intros [= <- <-]; cbn.
  - apply reserve_control_Ok in Hr as (Hnone & _ & _ & ->). by rewrite Hd in *.
  - revert Hr. unfold LeaseTable_reserve_control. destruct (is_some _); [by intros [= <- _]|].
    by destruct (checked_add _ _ _); intros [= <- _].
Qed.
Lemma cam_inv_open y adapter owner selector n id fresh spawn y' :
  cam_exec sha256 y (CkOpen adapter owner selector n id fresh spawn) = Some y' → cam_inv y → cam_inv y'.
Proof.
  cbn. destruct (cm_workers y !! id) as [?|] eqn:Hw; [done|]. destruct (cm_opens y !! id) eqn:Ho; [done|]. cbn.
  destruct (camera_open_reserve _ _ _ _ _ _) as [st res] eqn:Hres. apply camera_open_reserve_cases in Hres.
  intros Hx Hi. destruct res as [[r lease]|e].
  2:{ injection Hx as <-. apply cam_inv_state; [|done]. intros id' w Hw' _. unfold camera_leased. by rewrite Hres. }
  destruct Hres as (-> & Hnone & Hact).
  assert (cam_inv (cm_with_state y st)) as Hi'.
  { apply cam_inv_state; [|done]. intros id' w Hw' _ (a & Ha & <-). exists a. split; [|done].
    rewrite Hact, lookup_insert_ne; [done|]. intros Heq. rewrite Heq in Hnone. congruence. }
  destruct spawn as [e|]; injection Hx as <-.
  - apply cam_inv_opens; [|done]. intros id' o e' [[<- <-]|[Hne Ho']]%lookup_insert_Some Hst; [done|].
    by eapply (ni_spawn _ Hi').
  - destruct Hi' as [A B C]. split; cbn.
    + intros id' w [[<- <-]|[Hne Hw']]%lookup_insert_Some; [apply camera_spawn_ok|by eapply A].
    + intros id' w [[<- <-]|[Hne Hw']]%lookup_insert_Some Hn; [|by apply B].
      eexists. by rewrite Hact, lookup_insert_eq.
    + intros id' o e [[<- <-]|[Hne Ho']]%lookup_insert_Some Hst; [done|].
      rewrite lookup_insert_ne by done. by eapply (C id').
Qed.
Lemma cam_inv_releasers y l : cam_inv y → cam_inv (cm_with_releasers y l).
Proof. by intros [A B C]. Qed.
Lemma idle_settle y id open wait timeout st next :
  cam_inv y → cm_opens y !! id = Some open →
  match mo_stage open with
  | SpawnFailed _ => true | AwaitOpened => cm_wait_possible y id wait | Opened => false
  end = true →
  camera_open_settle (cm_state y) id open wait timeout = (st, next) →
  st = cm_state y ∨ (idle y id ∧ st = camera_release (cm_state y) (mo_resource open) id).
Proof.
  intros Hi Ho Hp Hs. unfold camera_open_settle in Hs. destruct (mo_stage open) eqn:Hst; [| |done].
  { injection Hs as <- <-. right. split; [|done]. intros w Hw. by rewrite (ni_spawn _ Hi _ _ _ Ho Hst) in Hw. }
  assert (∀ w, cm_workers y !! id = Some w → (∃ e, k_opened w = OpenSent (Err e)) ∨ k_opened w = OpenDropped →
    camera_native w = false) as Hnn by (intros w Hw; apply not_native_opened; by eapply ni_workers).
  unfold cm_wait_possible in Hp.
  destruct wait as [[[]|e]| |]; injection Hs as <- <-; [by left|right|right|by left];
    (split; [|done]); intros w Hw; apply Hnn; try done; rewrite Hw in Hp; cbn in Hp.
  - left. by destruct (k_opened w) as [|[]|]; try done; eexists.
  - right. by destruct (k_opened w) as [|[]|].
Qed.
Lemma cam_inv_settle y id wait timeout y' :
  cam_exec sha256 y (CkSettle id wait timeout) = Some y' → cam_inv y → cam_inv y'.
Proof.
  intros (open & Ho & Hx)%bind_Some Hi. destruct (match mo_stage open with
    | SpawnFailed _ => true | AwaitOpened => cm_wait_possible y id wait | Opened => false end) eqn:Hp; [|done].
  destruct (camera_open_settle _ _ _ _ _) as [st next] eqn:Hs.
  assert (cam_inv (cm_with_state y st)) as Hi'.
  { destruct (idle_settle _ _ _ _ _ _ _ Hi Ho Hp Hs) as [-> |[Hid ->]]; [by apply cam_inv_state|].
    by apply cam_inv_release. }
  cbv zeta in Hx.
  destruct next; [| |destruct (cm_admits (S := S) _ _) eqn:Ha; [|done]]; apply (inj Some) in Hx as <-.
  - apply cam_inv_opens; [|done]. intros id' o e [[<- <-]|[Hne Ho']]%lookup_insert_Some Hst; [done|].
    by eapply (ni_spawn _ Hi).
  - apply cam_inv_disconnect. by apply (cam_inv_delete_open (cm_with_state y st)).
  - apply cam_inv_releasers, cam_inv_close; [done|]. by apply (cam_inv_delete_open (cm_with_state y st)).
Qed.
Lemma cam_inv_commit y id y' :
  cam_exec sha256 y (CkCommit id) = Some y' → cam_inv y → cam_inv y'.
Proof.
  intros (open & Ho & Hx)%bind_Some Hi. destruct (mo_stage open); try done.
  unfold camera_open_commit in Hx.
  destruct (LeaseTable_commit _ _ _ _) as [t ok] eqn:Hc.
  assert (∀ st, cs_leases st = t → cam_inv (cm_with_opens (cm_with_state y st) (delete id (cm_opens y)))) as Hi'.
  { intros st Hst. apply (cam_inv_delete_open (cm_with_state y st)). apply cam_inv_state; [|done].
    intros id' w _ _ Hl. rewrite Hst. replace t with (LeaseTable_commit (cs_leases (cm_state y))
      (mo_resource open) id (mo_lease open)).1 by (by rewrite Hc). by apply leased_commit. }
  destruct ok; cbn in Hx; [|destruct (cm_admits (S := S) _ _) eqn:Ha; [|done]]; apply (inj Some) in Hx as <-.
  - destruct (Hi' (mkCameraState t (<[id := mkCameraEntry (mo_resource open) (mo_owner open) (mo_lease open)]>
      (cs_sessions (cm_state y))) (cs_closed (cm_state y))) eq_refl) as [A B C]. by split.
  - apply cam_inv_releasers, cam_inv_close; [done|]. by apply Hi'.
Qed.
Lemma cam_inv_worker y id lease op st res :
  camera_worker (cm_state y) id lease op (cm_finished y id) (cm_closing y id) (cm_terminal y id) = (st, res) →
  cam_inv y → cam_inv (cm_with_state y st).
Proof.
  unfold camera_worker. intros Hw Hi. destruct (cs_sessions (cm_state y) !! id) as [e|] eqn:He.
  2:{ injection Hw as <- _. by apply cam_inv_state. }
  destruct (LeaseTable_validate _ _ _ _ _ _); [|injection Hw as <- _; by apply cam_inv_state].
  destruct (cm_finished y id) eqn:Hf.
  - injection Hw as <- _. pose proof (cam_inv_finish y id (cm_terminal y id) Hi Hf) as Hfin.
    unfold camera_finish_session in Hfin. by rewrite He in Hfin.
  - destruct (cm_closing y id); injection Hw as <- _; by apply cam_inv_state.
Qed.
Lemma cam_inv_tasks y y' :
  cm_state y' = cm_state y → cm_workers y' = cm_workers y → cm_opens y' = cm_opens y → cam_inv y → cam_inv y'.
Proof. intros Hs Hw Ho [A B C]. by split; rewrite ?Hs, ?Hw, ?Ho. Qed.
Lemma cam_inv_request y id c r :
  cm_admits y id = true → cam_inv y → cam_inv (cm_alter y id (λ w, (camera_request w c r).1)).
Proof.
  unfold cm_admits. intros Hf. apply cam_inv_alter. intros w Hw Hok.
  destruct (camera_request_frame w c r) as [Hp Ht]. split_and!; [|done|by unfold camera_native; rewrite Hp].
  eapply (camera_step_ok sha256); [|done]. constructor. by rewrite Hw in Hf.
Qed.
Lemma cam_inv_move y id m y' :
  cam_exec sha256 y (CkMove id m) = Some y' → cam_inv y → cam_inv y'.
Proof.
  intros (w & Hw & Hx)%bind_Some [A B C]. apply bind_Some in Hx as (w' & Hm & Hx).
  apply (inj Some) in Hx as <-. destruct (camera_move_frame _ _ _ _ Hm) as (_ & Ht & _). split; cbn.
  - intros id' w1 [[<- <-]|[Hne Hw']]%lookup_insert_Some; [|by eapply A]. eapply camera_move_ok; eauto.
  - intros id' w1 [[<- <-]|[Hne Hw']]%lookup_insert_Some Hn; [|by apply B]. rewrite Ht. apply B; [done|].
    by eapply camera_move_native.
  - intros id' o e Ho He. pose proof (C _ _ _ Ho He) as Hnone. rewrite lookup_insert_ne; [done|]. congruence.
Qed.
Lemma completion_finished y id : is_some (cm_completion y id) = cm_finished y id.
Proof. unfold cm_completion, cm_finished. by destruct (cm_workers y !! id). Qed.
Lemma cam_inv_round y id r timed_out timeout :
  timed_out || is_some (cm_completion y id) = true → cam_inv y →
  cam_inv (cm_with_state y (camera_revoke_round (cm_state y) id r
    (if timed_out then None else cm_completion y id) (cm_terminal y id) timeout).1).
Proof.
  intros Hf Hi. unfold camera_revoke_round. cbn [fst]. destruct (is_ok _) eqn:Hok; [|by apply cam_inv_state].
  destruct timed_out; [done|]. apply cam_inv_finish; [done|]. by rewrite <- completion_finished.
Qed.
Lemma cam_inv_step y y' : cam_step sha256 y y' → cam_inv y → cam_inv y'.
Proof.
  intros [ev Hx] Hi. destruct ev.
  - by eapply cam_inv_open.
  - by eapply cam_inv_settle.
  - by eapply cam_inv_commit.
  - apply bind_Some in Hx as (open & _ & Hx). apply (inj Some) in Hx as <-.
    by apply cam_inv_disconnect, cam_inv_delete_open.
  - cbn in Hx. destruct (camera_worker _ _ _ _ _ _ _) as [st res] eqn:Hw. apply cam_inv_worker in Hw; [|done].
    injection Hx as <-. destruct res; [|done]. by eapply cam_inv_tasks; [..|exact Hw].
  - apply bind_Some in Hx as ([[id r] c] & _ & Hx). destruct (cm_admits y id) eqn:Ha; [|done].
    apply (inj Some) in Hx as <-. apply cam_inv_request; [done|]. by eapply cam_inv_tasks; [..|exact Hi].
  - cbn in Hx. destruct (camera_worker _ _ _ _ _ _ _) as [st res] eqn:Hw. apply cam_inv_worker in Hw; [|done].
    injection Hx as <-. destruct res; [|done]. by eapply cam_inv_tasks; [..|exact Hw].
  - apply bind_Some in Hx as (id & _ & Hx). destruct (cm_admits y id) eqn:Ha; [|done].
    apply (inj Some) in Hx as <-. eapply (cam_inv_tasks (cm_alter y id CameraWorker_request_close)); try done.
    by apply cam_inv_close.
  - cbn in Hx. destruct (bool_decide _ && cm_finished y id) eqn:Hf; [|done]. injection Hx as <-. bool_simp.
    by apply cam_inv_finish.
  - apply bind_Some in Hx as ([[id r] l] & _ & Hx). destruct (cm_finished y id) eqn:Hf; [|done].
    apply (inj Some) in Hx as <-. apply cam_inv_releasers.
    pose proof (LeaseTable_quarantine_commit (cs_leases (cm_state y)) r id l) as ->.
    apply (cam_inv_release (cm_with_state y (set_cs_leases (cm_state y)
      (LeaseTable_commit (cs_leases (cm_state y)) r id l).1))); [exact (idle_finished y id Hi Hf)|].
    apply cam_inv_state; [|done]. intros id' w _ _. apply leased_commit.
  - cbn in Hx. destruct (same_elements _ _); [|done]. injection Hx as <-. by eapply cam_inv_tasks; [..|exact Hi].
  - apply bind_Some in Hx as (rv & _ & Hx). apply bind_Some in Hx as (id & _ & Hx).
    destruct (cm_admits y id) eqn:Ha; [|done]. apply (inj Some) in Hx as <-.
    eapply (cam_inv_tasks (cm_alter y id CameraWorker_request_close)); try done. by apply cam_inv_close.
  - apply bind_Some in Hx as (rv & _ & Hx). destruct (bool_decide _); [|done]. apply (inj Some) in Hx as <-.
    by eapply cam_inv_tasks; [..|exact Hi].
  - apply bind_Some in Hx as (rv & _ & Hx). apply bind_Some in Hx as ([id r] & _ & Hx).
    cbv zeta in Hx. destruct (bool_decide (id ∈ cm_reapers y) && _) eqn:Hf; [|done].
    destruct (camera_revoke_round _ _ _ _ _ _) as [st res] eqn:Hrd. apply (inj Some) in Hx as <-.
    eapply (cam_inv_tasks (cm_with_state y (camera_revoke_round (cm_state y) id r
      (if timed_out then None else cm_completion y id) (cm_terminal y id) timeout).1)); try done; [by rewrite Hrd|].
    apply cam_inv_round; [|done]. apply andb_prop in Hf as [_ Hf]. by destruct timed_out.
  - by eapply cam_inv_move.
Qed.
Lemma cam_inv_reachable y : rtc (cam_step sha256) CamSystem_init y → cam_inv y.
Proof.
  intros Hr. pose proof cam_inv_init as Hi. revert Hi. induction Hr; eauto using cam_inv_step.
Qed.

(** C12: one camera thread at a time: in every interleaving of opens, timeouts, cancelled calls,
    closes, revocations and panics, a thread that has, or may still get, a native session to
    serve is covered by the active lease of its resource, so no two threads serve one camera. *)
Theorem camera_native_exclusive y :
  rtc (cam_step sha256) CamSystem_init y →
  (∀ id w, cm_workers y !! id = Some w → camera_native w = true →
     camera_leased (cs_leases (cm_state y)) (k_target w) id)
  ∧ ∀ id id' w w', cm_workers y !! id = Some w → cm_workers y !! id' = Some w' →
      camera_native w = true → camera_native w' = true → k_target w = k_target w' → id = id'.
Proof.
  intros Hr%cam_inv_reachable. split; [apply (ni_native _ Hr)|].
  intros id id' w w' Hw Hw' Hn Hn' Ht. destruct (ni_native _ Hr _ _ Hw Hn) as (a & Ha & <-).
  destruct (ni_native _ Hr _ _ Hw' Hn') as (a' & Ha' & <-). rewrite <- Ht, Ha in Ha'. by injection Ha' as ->.
Qed.

(** ** Sessions, their threads and their frames *)
Definition gens_ok (t : LeaseTable) : Prop := ∀ r g, current_generations t !! r = Some g → 1 <= g.
Lemma gens_commit t r id tok : gens_ok t → gens_ok (LeaseTable_commit t r id tok).1.
Proof. unfold LeaseTable_commit. intros Hg. by destruct (active t !! r); [destruct (_ || _)|]. Qed.
Lemma gens_release t r id : gens_ok t → gens_ok (LeaseTable_release t r id).1.
Proof.
  intros Hg. unfold LeaseTable_release. destruct (active t !! r) as [a|]; [|done].
  destruct (bool_decide _); [|done]. destruct (_ && _) eqn:Hc; [|done]. bool_simp.
  destruct (_ =? 1) eqn:H1; bool_simp; cbn.
  - intros r' g. cbn. intros [_ ?]%lookup_delete_Some. by eapply Hg.
  - rewrite H0. intros r' g. cbn. intros [[<- <-]|[_ ?]]%lookup_insert_Some; [|by eapply Hg]. apply Hg in H0. lia.
Qed.
Lemma gens_reserve t r id o fresh :
  gens_ok t →
  gens_ok (LeaseTable_reserve_control t r id o fresh).1
  ∧ ∀ tok, (LeaseTable_reserve_control t r id o fresh).2 = Ok tok → is_u64_value (token_generation tok).
Proof.
  intros Hg. destruct (LeaseTable_reserve_control t r id o fresh) as [t' [tok|e]] eqn:Hr; cbn.
  - apply reserve_control_Ok in Hr as (_ & Hmax & Htok & ->).
    assert (0 <= LeaseTable_current_generation t r) as H0.
    { unfold LeaseTable_current_generation. destruct (_ !! r) eqn:E; cbn; [|lia]. apply Hg in E. lia. }
    assert (1 <= token_generation tok <= u64_max) as Ht by (subst tok; cbn; lia). split.
    + intros r' g. cbn. intros [[<- <-]|[_ ?]]%lookup_insert_Some; [lia|by eapply Hg].
    + intros tok' [= <-]. split; lia.
  - split; [|done]. revert Hr. unfold LeaseTable_reserve_control. destruct (is_some _); [by intros [= <- _]|].
    destruct (checked_add _ _ _) eqn:Hc; [done|]. intros [= <- _] r' g. cbn.
    apply checked_add_None in Hc. intros [[<- <-]|[_ ?]]%lookup_insert_Some; [|by eapply Hg].
    destruct (_ !! r) as [g0|] eqn:E; cbn in *; [by eapply Hg|unfold u64_max in Hc; lia].
Qed.
(** The thread of [id] was started for this resource and lease. *)
Definition serves (ws : gmap SessionId (CameraWorker S)) id (r : ResourceId) (lease : LeaseToken) : Prop :=
  ∃ w, ws !! id = Some w ∧ k_target w = r ∧ k_generation w = token_generation lease.
Record cam_lineage y : Prop := {
  ln_generations : gens_ok (cs_leases (cm_state y));
  ln_workers id w : cm_workers y !! id = Some w → is_u64_value (k_generation w) ∧
    ∃ n, rtc (camera_step sha256) (camera_spawn (k_target w) (k_generation w) n) w;
  ln_sessions id e : cs_sessions (cm_state y) !! id = Some e →
    serves (cm_workers y) id (nt_resource e) (nt_lease e);
  ln_opens id o : cm_opens y !! id = Some o →
    (∃ e, mo_stage o = SpawnFailed e) ∨ serves (cm_workers y) id (mo_resource o) (mo_lease o);
}.
Lemma cam_lineage_init : cam_lineage CamSystem_init.
Proof. split; [intros r g; cbn; by rewrite lookup_empty|cbn; intros *; by rewrite lookup_empty..]. Qed.
(** Threads only move on. *)
Definition evolves (ws ws' : gmap SessionId (CameraWorker S)) : Prop :=
  ∀ id, option_Forall2 (rtc (camera_step sha256)) (ws !! id) (ws' !! id).
Lemma evolves_refl ws : evolves ws ws.
Proof. intros id. destruct (ws !! id); constructor. apply rtc_refl. Qed.
Lemma evolves_alter ws id f :
  (∀ w, ws !! id = Some w → camera_step sha256 w (f w)) → evolves ws (alter f id ws).
Proof.
  intros Hf id'. destruct (decide (id = id')) as [<-|Hne].
  - rewrite lookup_alter_eq. destruct (ws !! id) as [w|] eqn:Hw; constructor. apply rtc_once. by apply Hf.
  - rewrite lookup_alter_ne by done. apply evolves_refl.
Qed.
Lemma evolves_step_frame w w' :
  rtc (camera_step sha256) w w' → k_generation w' = k_generation w ∧ k_target w' = k_target w.
Proof.
  induction 1 as [|w1 w2 w3 Hs _ [IH1 IH2]]; [done|]. apply camera_step_frame in Hs as [<- <-]. done.
Qed.
Lemma serves_evolves ws ws' id r lease : evolves ws ws' → serves ws id r lease → serves ws' id r lease.
Proof.
  intros He (w & Hw & Ht & Hg). pose proof (He id) as H'. rewrite Hw in H'. inversion H' as [? w' Hs E1 E2|].
  subst. apply evolves_step_frame in Hs as [Hg' Ht']. exists w'. split_and!; congruence.
Qed.
(** The part of an [open] in progress that stays the same. *)
Definition same_open (o o' : MgrOpen) : Prop :=
  mo_resource o' = mo_resource o ∧ mo_lease o' = mo_lease o ∧ ∀ e, mo_stage o = SpawnFailed e → mo_stage o' = mo_stage o.
Lemma lineage_frame y y' :
  gens_ok (cs_leases (cm_state y')) → evolves (cm_workers y) (cm_workers y') →
  (∀ id e, cs_sessions (cm_state y') !! id = Some e → cs_sessions (cm_state y) !! id = Some e) →
  (∀ id o', cm_opens y' !! id = Some o' → ∃ o, cm_opens y !! id = Some o ∧ same_open o o') →
  cam_lineage y → cam_lineage y'.
Proof.
  intros Hg He Hs Ho [_ B C D]. split; [done|..].
  - intros id w' Hw'. pose proof (He id) as H'. rewrite Hw' in H'. inversion H' as [w ? Hst E1 E2|]. subst.
    destruct (B id w ltac:(done)) as (Hu & n & Hr). pose proof (evolves_step_frame _ _ Hst) as [-> ->].
    split; [done|]. exists n. by etrans.
  - intros id e Hse. eapply serves_evolves; [done|]. apply C. by apply Hs.
  - intros id o' Ho'. destruct (Ho _ _ Ho') as (o & Hopen & -> & -> & Hsp).
    destruct (D _ _ Hopen) as [[e Hst]|Hsv]; [|right; by eapply serves_evolves].
    left. exists e. by rewrite (Hsp e Hst).
Qed.
Lemma same_open_refl (opens : gmap SessionId MgrOpen) id o :
  opens !! id = Some o → ∃ o0, opens !! id = Some o0 ∧ same_open o0 o.
Proof. intros Ho. by exists o. Qed.
Lemma forgotten_sessions st id t id' e :
  cs_sessions (camera_finish_session st id t) !! id' = Some e → cs_sessions st !! id' = Some e.
Proof.
  unfold camera_finish_session. destruct (cs_sessions st !! id); [|done]. cbn.
  by intros [_ ?]%lookup_delete_Some.
Qed.
Lemma finish_gens st id t : gens_ok (cs_leases st) → gens_ok (cs_leases (camera_finish_session st id t)).
Proof.
  unfold camera_finish_session. destruct (cs_sessions st !! id); [|done]. by apply gens_release.
Qed.
Lemma camera_worker_frame st id lease op f cl t st' res :
  camera_worker st id lease op f cl t = (st', res) → st' = st ∨ st' = camera_finish_session st id t.
Proof.
  unfold camera_worker, camera_finish_session. destruct (cs_sessions st !! id); [|intros [= <- _]; by left].
  destruct (LeaseTable_validate _ _ _ _ _ _); [|intros [= <- _]; by left].
  destruct f; [intros [= <- _]; by right|]. destruct cl; intros [= <- _]; by left.
Qed.
Lemma lineage_open y adapter owner selector n id fresh spawn y' :
  cam_exec sha256 y (CkOpen adapter owner selector n id fresh spawn) = Some y' →
  cam_lineage y → cam_lineage y'.
Proof.
  cbn. destruct (cm_workers y !! id) as [?|] eqn:Hw; [done|]. destruct (cm_opens y !! id) eqn:Ho; [done|]. cbn.
  intros Hx Hl. destruct (camera_open_reserve _ _ _ _ _ _) as [st res] eqn:Hres.
  pose proof (camera_open_reserve_cases _ _ _ _ _ _ _ _ Hres) as Hcases.
  assert (gens_ok (cs_leases st) ∧ cs_sessions st = cs_sessions (cm_state y) ∧
    ∀ r lease, res = Ok (r, lease) → is_u64_value (token_generation lease)) as (Hg & Hss & Hu).
  { unfold camera_open_reserve in Hres. destruct (_ ≫= _) as [d|];
      [|injection Hres as <- <-; split_and!; [apply (ln_generations _ Hl)|done..]].
    destruct (gens_reserve _ (desc_id d) id owner fresh (ln_generations _ Hl)) as [Hg Hu].
    destruct (LeaseTable_reserve_control _ _ _ _ _) as [t rs]. injection Hres as <- <-. cbn in *.
    split_and!; [done..|]. intros r lease. destruct rs; [|done]. intros [= <- <-]. by apply Hu. }
  destruct Hl as [_ B C D]. destruct res as [[r lease]|e].
  2:{ injection Hx as <-. split; cbn; rewrite ?Hss; done. }
  destruct Hcases as (-> & _). destruct spawn as [e|]; injection Hx as <-.
  - split; cbn; rewrite ?Hss; [done..|].
    intros id' o [[<- <-]|[_ Ho']]%lookup_insert_Some; [left; by eexists|by apply D].
  - assert (∀ id' r l, serves (cm_workers y) id' r l →
      serves (<[id := camera_spawn (sel_id selector) (token_generation lease) n]> (cm_workers y)) id' r l) as Hsv.
    { intros id' r l (w & Hw' & ? & ?). exists w. split; [|done]. rewrite lookup_insert_ne; [done|congruence]. }
    split; cbn; rewrite ?Hss; [done|..].
    + intros id' w [[<- <-]|[_ Hw']]%lookup_insert_Some; [|by eapply B].
      split; [by apply (Hu _ lease eq_refl)|]. exists n. apply rtc_refl.
    + intros id' e He. by apply Hsv, C.
    + intros id' o [[<- <-]|[_ Ho']]%lookup_insert_Some.
      * right. eexists. by rewrite lookup_insert_eq.
      * destruct (D _ _ Ho') as [?|?]; [by left|right; by apply Hsv].
Qed.
Lemma deleted_open (opens : gmap SessionId MgrOpen) id id' o' :
  delete id opens !! id' = Some o' → ∃ o, opens !! id' = Some o ∧ same_open o o'.
Proof. intros [_ ?]%lookup_delete_Some. by apply same_open_refl. Qed.
Lemma evolves_close y id :
  cm_admits y id = true → evolves (cm_workers y) (alter CameraWorker_request_close id (cm_workers y)).
Proof.
  unfold cm_admits. intros Ha. apply evolves_alter. intros w Hw. rewrite Hw in Ha. by constructor.
Qed.
Lemma lineage_settle y id wait timeout y' :
  cam_exec sha256 y (CkSettle id wait timeout) = Some y' → cam_lineage y → cam_lineage y'.
Proof.
  intros (open & Ho & Hx)%bind_Some Hl. destruct (match mo_stage open with
    | SpawnFailed _ => true | AwaitOpened => cm_wait_possible y id wait | Opened => false end) eqn:Hp; [|done].
  destruct (camera_open_settle _ _ _ _ _) as [st next] eqn:Hs.
  assert ((st = cm_state y ∨ st = camera_release (cm_state y) (mo_resource open) id) ∧
    (next = OpenProceed → ∀ e, mo_stage open ≠ SpawnFailed e)) as [Hst Hnext].
  { unfold camera_open_settle in Hs. destruct (mo_stage open); [|destruct wait as [[]| |]|];
      injection Hs as <- <-; eauto. }
  assert (gens_ok (cs_leases st) ∧ cs_sessions st = cs_sessions (cm_state y)) as [Hg Hss].
  { destruct Hst as [-> | ->]; [split; [apply (ln_generations _ Hl)|done]|].
    split; [apply gens_release, (ln_generations _ Hl)|done]. }
  cbv zeta in Hx.
  destruct next; [| |destruct (cm_admits (S := S) _ _) eqn:Ha; [|done]]; apply (inj Some) in Hx as <-;
    (apply (lineage_frame y); [done| |cbn; by rewrite Hss| |done]); cbn.
  - apply evolves_refl.
  - intros id' o' [[<- <-]|[_ Ho']]%lookup_insert_Some; [|by apply same_open_refl].
    exists open. split; [done|]. split_and!; [done..|]. intros e He. by destruct (Hnext eq_refl e).
  - apply evolves_alter. intros w _. constructor.
  - apply deleted_open.
  - exact (evolves_close y id Ha).
  - apply deleted_open.
Qed.
Lemma lineage_commit y id y' :
  cam_exec sha256 y (CkCommit id) = Some y' → cam_lineage y → cam_lineage y'.
Proof.
  intros (open & Ho & Hx)%bind_Some Hl. destruct (mo_stage open) eqn:Hst; try done.
  unfold camera_open_commit in Hx.
  pose proof (gens_commit _ (mo_resource open) id (mo_lease open) (ln_generations _ Hl)) as Hg.
  destruct (LeaseTable_commit _ _ _ _) as [t ok] eqn:Hc. cbn in Hg. destruct ok; cbn in Hx.
  - injection Hx as <-. destruct Hl as [_ B C D]. split; cbn; [done|done|..].
    + intros id' e [[<- <-]|[_ He]]%lookup_insert_Some; [|by apply C].
      by destruct (D _ _ Ho) as [[e He]|?]; [congruence|].
    + intros id' o [_ Ho']%lookup_delete_Some. by apply D.
  - destruct (cm_admits (S := S) _ _) eqn:Ha; [|done]. injection Hx as <-.
    apply (lineage_frame y); [done|exact (evolves_close y id Ha)|done|apply deleted_open|done].
Qed.
Lemma lineage_state y st :
  gens_ok (cs_leases st) → (∀ id e, cs_sessions st !! id = Some e → cs_sessions (cm_state y) !! id = Some e) →
  cam_lineage y → cam_lineage (cm_with_state y st).
Proof. intros Hg Hs. by apply lineage_frame; [|apply evolves_refl| |apply same_open_refl]. Qed.
Lemma lineage_finish y id t :
  cam_lineage y → cam_lineage (cm_with_state y (camera_finish_session (cm_state y) id t)).
Proof.
  intros Hl. apply lineage_state; [by apply finish_gens, ln_generations|apply forgotten_sessions|done].
Qed.
Lemma lineage_worker y id lease op f cl t st res :
  camera_worker (cm_state y) id lease op f cl t = (st, res) → cam_lineage y → cam_lineage (cm_with_state y st).
Proof.
  intros [-> | ->]%camera_worker_frame Hl; [|by apply lineage_finish].
  by apply lineage_state; [apply ln_generations| |].
Qed.
Lemma lineage_tasks y y' :
  cm_state y' = cm_state y → cm_workers y' = cm_workers y → cm_opens y' = cm_opens y →
  cam_lineage y → cam_lineage y'.
Proof. intros Hs Hw Ho [A B C D]. by split; rewrite ?Hs, ?Hw, ?Ho. Qed.
Lemma lineage_alter y id f :
  (∀ w, cm_workers y !! id = Some w → camera_step sha256 w (f w)) → cam_lineage y → cam_lineage (cm_alter y id f).
Proof.
  intros Hf Hl. apply (lineage_frame y); [apply (ln_generations _ Hl)|by apply evolves_alter|done|
    apply same_open_refl|done].
Qed.
Lemma lineage_close y id :
  cm_admits y id = true → cam_lineage y → cam_lineage (cm_alter y id CameraWorker_request_close).
Proof. unfold cm_admits. intros Ha. apply lineage_alter. intros w Hw. rewrite Hw in Ha. by constructor. Qed.
Lemma lineage_step y y' : cam_step sha256 y y' → cam_lineage y → cam_lineage y'.
Proof.
  intros [ev Hx] Hl. destruct ev.
  - by eapply lineage_open.
  - by eapply lineage_settle.
  - by eapply lineage_commit.
  - apply bind_Some in Hx as (open & _ & Hx). apply (inj Some) in Hx as <-.
    apply (lineage_frame y); [apply (ln_generations _ Hl)| |done|apply deleted_open|done].
    apply evolves_alter. intros w _. constructor.
  - cbn in Hx. destruct (camera_worker _ _ _ _ _ _ _) as [st res] eqn:Hw. apply lineage_worker in Hw; [|done].
    injection Hx as <-. destruct res; [|done]. by eapply lineage_tasks; [..|exact Hw].
  - apply bind_Some in Hx as ([[id r] c] & _ & Hx). destruct (cm_admits y id) eqn:Ha; [|done].
    apply (inj Some) in Hx as <-. apply lineage_alter; [|by eapply lineage_tasks; [..|exact Hl]].
    intros w Hw. unfold cm_admits in Ha. cbn in Hw. rewrite Hw in Ha. by constructor.
  - cbn in Hx. destruct (camera_worker _ _ _ _ _ _ _) as [st res] eqn:Hw. apply lineage_worker in Hw; [|done].
    injection Hx as <-. destruct res; [|done]. by eapply lineage_tasks; [..|exact Hw].
  - apply bind_Some in Hx as (id & _ & Hx). destruct (cm_admits y id) eqn:Ha; [|done].
    apply (inj Some) in Hx as <-. eapply (lineage_tasks (cm_alter y id CameraWorker_request_close)); try done.
    by apply lineage_close.
  - cbn in Hx. destruct (bool_decide _ && cm_finished y id); [|done]. injection Hx as <-. by apply lineage_finish.
  - apply bind_Some in Hx as ([[id r] l] & _ & Hx). destruct (cm_finished y id); [|done].
    apply (inj Some) in Hx as <-. eapply (lineage_tasks (cm_with_state y (camera_release (set_cs_leases (cm_state y)
      (LeaseTable_commit (cs_leases (cm_state y)) r id l).1) r id))); [done..|].
    apply (lineage_state y); [|done|done]. cbn. apply gens_release, (gens_commit _ r id l), (ln_generations _ Hl).
  - cbn in Hx. destruct (same_elements _ _); [|done]. injection Hx as <-. by eapply lineage_tasks; [..|exact Hl].
  - apply bind_Some in Hx as (rv & _ & Hx). apply bind_Some in Hx as (id & _ & Hx).
    destruct (cm_admits y id) eqn:Ha; [|done]. apply (inj Some) in Hx as <-.
    eapply (lineage_tasks (cm_alter y id CameraWorker_request_close)); try done. by apply lineage_close.
  - apply bind_Some in Hx as (rv & _ & Hx). destruct (bool_decide _); [|done]. apply (inj Some) in Hx as <-.
    by eapply lineage_tasks; [..|exact Hl].
  - apply bind_Some in Hx as (rv & _ & Hx). apply bind_Some in Hx as ([id r] & _ & Hx).
    cbv zeta in Hx. destruct (bool_decide (id ∈ cm_reapers y) && _); [|done].
    unfold camera_revoke_round in Hx. apply (inj Some) in Hx as <-.
    match goal with |- cam_lineage (cm_with_revokes ?z _) => eapply (lineage_tasks z); [done..|] end.
    destruct (is_ok _); [by apply lineage_finish|].
    by apply lineage_state; [apply ln_generations| |].
  - apply bind_Some in Hx as (w & Hw & Hx). apply bind_Some in Hx as (w' & Hm & Hx). apply (inj Some) in Hx as <-.
    replace (<[id := w']> (cm_workers y)) with (alter (λ _, w') id (cm_workers y)).
    + apply (lineage_alter y id); [|done]. intros w0 Hw0. rewrite Hw in Hw0. injection Hw0 as <-. by econstructor.
    + apply map_eq. intros i. destruct (decide (id = i)) as [<-|Hne].
      * by rewrite lookup_alter_eq, lookup_insert_eq, Hw.
      * by rewrite lookup_alter_ne, lookup_insert_ne.
Qed.
Context (sha256_length : ∀ t, length (sha256 t) = 32%nat).
(** The frames of a camera session are the session's: an open session has a thread for its
    resource whose ring is well formed, and every frame lease that thread has answered, and
    every frame that can still be leased, carries the generation of the session's lease, so a
    reader can tell its frames from those of an earlier or later session. *)
Theorem camera_session_frames y id e :
  rtc (cam_step sha256) CamSystem_init y → cs_sessions (cm_state y) !! id = Some e →
  ∃ w, cm_workers y !! id = Some w ∧ k_target w = nt_resource e
    ∧ (∀ b, k_mapping w = Some b → shm_ok b ∧ ring_generation b (token_generation (nt_lease e)))
    ∧ ∀ c lease, (c, Some (Ok (RespLease (Some lease)))) ∈ k_resolved w →
        fl_generation lease = token_generation (nt_lease e).
Proof.
  intros Hr He. assert (cam_lineage y) as Hl.
  { pose proof cam_lineage_init as H0. revert H0. clear He. induction Hr; eauto using lineage_step. }
  destruct (ln_sessions _ Hl _ _ He) as (w & Hw & Ht & Hg). exists w. split_and!; [done|done|..];
    destruct (ln_workers _ Hl _ _ Hw) as (Hu & n & Hs); rewrite <- Hg;
    destruct (camera_ring_steps sha256 sha256_length _ _ _ _ Hu Hs) as [[A B C D] _]; [apply B|apply D].
Qed.
End camera_manager.

(** ** Concrete runs *)
#[local] Existing Instance kx_camera.
Definition KyEvent : Type := CamEvent (S := unit).
Definition KySystem : Type := CamSystem (S := unit).
Definition ky_run (evs : list KyEvent) : KySystem :=
  default CamSystem_init (cam_run toy_hash CamSystem_init evs).
Lemma cam_run_steps y evs y' :
  cam_run toy_hash y evs = Some y' → rtc (cam_step toy_hash) y y'.
Proof.
  unfold cam_run. revert y. induction evs as [|ev evs IH]; cbn; intros y Hr; [injection Hr as ->; apply rtc_refl|].
  destruct (cam_exec toy_hash y ev) as [y1|] eqn:Hx; [|exfalso; clear IH; by induction evs].
  eapply rtc_l; [by exists ev|by apply IH].
Qed.
Lemma ky_reachable evs :
  is_some (cam_run toy_hash CamSystem_init evs) = true → rtc (cam_step toy_hash) CamSystem_init (ky_run evs).
Proof. unfold ky_run. destruct (cam_run _ _ evs) eqn:Hr; [|done]. intros _. by apply cam_run_steps in Hr. Qed.
Definition ky_descriptor : ResourceDescriptor :=
  mkResourceDescriptor kx_target (mkEndpoint "video0") Strong Camera (mkResourceProperties ∅)
    (mkCapabilitySet [camera_capture_capability]).
Definition ky_id (n : Z) : SessionId := mkSessionId ("camera-" +:+ to_string n).
Definition ky_open (n : Z) : KyEvent :=
  CkOpen (Some (Ok [ky_descriptor])) (mkOwnerId "owner") (ResourceSelector_exact kx_target Medium Camera) 4
    (ky_id n) (mkLeaseId "lease") None.
Definition ky_names : MappingNames := mkMappingNames "ring" hx_identity hx_token.
Definition ky_token : LeaseToken := mkLeaseToken (mkLeaseId "lease") 1 Control.
Definition ky_opened (n : Z) : list KyEvent :=
  [ky_open n; CkMove (ky_id n) (KmOpened (Ok ()) (Ok ky_names));
   CkSettle (ky_id n) (WaitOpened (Ok ())) "2s"; CkCommit (ky_id n)].
Definition ky_serve (n : Z) (c : CameraCommand) : list KyEvent :=
  [CkCall (ky_id n) ky_token c; CkRequest 0] ++
  (CkMove (ky_id n) <$> [KmIterate; KmRecheck; KmAdmit; KmPerform false kx_env]).
(** A session that captures a frame and leases it. *)
Definition ky_leased : list KyEvent :=
  ky_opened 1 ++ ky_serve 1 (CmdCapture 10) ++
  (CkMove (ky_id 1) <$> [KmCapture kx_env; KmCapture kx_env]) ++ ky_serve 1 CmdNextFrameLease.
(** An open whose ring cannot be created, and another open of the same camera. *)
Definition ky_no_memory : HalError := shm_unavailable "shared_memory.create" "no memory".
Definition ky_overlap : list KyEvent :=
  [ky_open 1; CkMove (ky_id 1) (KmOpened (Ok ()) (Err ky_no_memory));
   CkSettle (ky_id 1) (WaitOpened (Err ky_no_memory)) "2s"] ++ ky_opened 2.

Lemma camera_native_exclusive_witness :
  camera_native <$> cm_workers (ky_run ky_leased) !! ky_id 1 = Some true ∧
  ∀ id w, cm_workers (ky_run ky_leased) !! id = Some w → camera_native w = true → k_target w = kx_target →
    id = ky_id 1.
Proof.
  assert (rtc (cam_step toy_hash) CamSystem_init (ky_run ky_leased)) as Hr
    by (apply ky_reachable; vm_compute; reflexivity).
  assert (match cm_workers (ky_run ky_leased) !! ky_id 1 with
          | Some w => camera_native w && bool_decide (k_target w = kx_target) | None => false end = true) as H1
    by (vm_compute; reflexivity).
  destruct (cm_workers (ky_run ky_leased) !! ky_id 1) as [w1|] eqn:Hw1; [|discriminate H1].
  apply andb_prop in H1 as [Hn Ht]. apply bool_decide_eq_true in Ht.
  split; [cbn; by rewrite Hn|]. intros id w Hw Hn' Ht'.
  destruct (camera_native_exclusive toy_hash _ Hr) as [_ Hex].
  apply (Hex id (ky_id 1) w w1 Hw Hw1 Hn' Hn). congruence.
Defined.
Lemma camera_session_frames_witness :
  ∃ w, cm_workers (ky_run ky_leased) !! ky_id 1 = Some w
    ∧ k_resolved w = [(CmdCapture 10, Some (Ok RespDone));
                      (CmdNextFrameLease, Some (Ok (RespLease (Some (mkFrameLease hx_identity 0 7 1)))))]
    ∧ ∀ c lease, (c, Some (Ok (RespLease (Some lease)))) ∈ k_resolved w → fl_generation lease = 1.
Proof.
  assert (rtc (cam_step toy_hash) CamSystem_init (ky_run ky_leased)) as Hr
    by (apply ky_reachable; vm_compute; reflexivity).
  assert (k_resolved <$> cm_workers (ky_run ky_leased) !! ky_id 1 =
    Some [(CmdCapture 10, Some (Ok RespDone));
          (CmdNextFrameLease, Some (Ok (RespLease (Some (mkFrameLease hx_identity 0 7 1)))))]) as Hres
    by (vm_compute; reflexivity).
  destruct (camera_session_frames toy_hash toy_hash_length (ky_run ky_leased) (ky_id 1)
    (mkCameraEntry kx_target (mkOwnerId "owner") ky_token) Hr ltac:(vm_compute; reflexivity))
    as (w & Hw & _ & _ & Hl).
  exists w. split; [exact Hw|]. rewrite Hw in Hres. split; [exact (inj Some _ _ Hres)|exact Hl].
Defined.
(** An open that fails at the mapping does not keep its camera to itself: the thread answers
    the failure before it closes the native session, [open] releases the lease at once, and
    another session of the same camera can be opened and served while the first thread still
    has the device open. *)
Theorem camera_unmapped_overlap :
  ∃ y id id' w w', rtc (cam_step toy_hash) CamSystem_init y ∧ id ≠ id'
    ∧ cm_workers y !! id = Some w ∧ camera_unmapped w = true
    ∧ cm_workers y !! id' = Some w' ∧ camera_native w' = true ∧ k_opened w' = OpenSent (Ok ())
    ∧ k_target w = k_target w'.
Proof.
  exists (ky_run ky_overlap), (ky_id 1), (ky_id 2).
  assert (match cm_workers (ky_run ky_overlap) !! ky_id 1, cm_workers (ky_run ky_overlap) !! ky_id 2 with
    | Some w, Some w' => camera_unmapped w && camera_native w' && bool_decide (k_target w = k_target w')
        && match k_opened w' with OpenSent (Ok _) => true | _ => false end
    | _, _ => false end = true) as H by (vm_compute; reflexivity).
  destruct (cm_workers _ !! ky_id 1) as [w|] eqn:Hw; [|done].
  destruct (cm_workers _ !! ky_id 2) as [w'|] eqn:Hw'; [|done]. exists w, w'.
  apply andb_prop in H as [[[H1 H2]%andb_prop H3%bool_decide_eq_true]%andb_prop H4].
  split_and!; try done; [apply ky_reachable; vm_compute; reflexivity|].
  by destruct (k_opened w') as [|[[]|]|].
Qed.
