(* ===== verification/ClientWire.v ===== *)
(** * robot-hal-client: the protobuf scanner

    Models [read_varint], [visit_fields] and [skip_group] of
    crates/robot-hal-client/src/connection.rs: the scan of an inbound frame that checks its
    size limits before the frame is decoded.  The visitor closure is a function on an
    accumulator; the loops run on fuel, more than the bytes left, of which each round uses at
    least one ([visit_fields_total]).

    [visit_fields_exact] compares the scanner with the wire format, given as a relation
    between byte strings and their fields ([wire_fields]): varints possibly padded,
    fixed-width and length-delimited fields, groups nested up to 64 deep. *)

From S2P Require Import Prelude Varint Core Lifecycle SerialRegistry.

Definition client_error (name : string) (category : ErrorCategory) (operation : string)
    (retryable : bool) (message : string) : HalError :=
  static_error name category operation retryable message.
Definition invalid_wire (message : string) : HalError :=
  client_error "runtime.protocol.invalid_message" InvalidArgument "runtime.protocol.decode" false message.

(** ** The scanner *)
Inductive WireValue := WVarint (value : Z) | WBytes (bytes : Bytes) | WFixed.

(** [index] counts the bytes read; the shift cannot leave 64 bits, since the tenth byte is at
    most one. *)
Fixpoint read_varint_loop (rounds : nat) (index value : Z) (input : Bytes) : HalResult (Z * Z) :=
  match rounds, input with
  | S rounds, byte :: rest =>
      if (index =? 9) && (1 <? byte) then Err (invalid_wire "protobuf varint overflows u64")
      else
        let value := Z.lor value (Z.shiftl (Z.land byte 0x7f) (index * 7)) in
        if Z.land byte 0x80 =? 0 then Ok (value, index + 1)
        else read_varint_loop rounds (index + 1) value rest
  | _, _ => Err (invalid_wire "truncated protobuf varint")
  end.
Definition read_varint (input : Bytes) : HalResult (Z * Z) := read_varint_loop 10 0 0 input.

(** [input.get(n..)] *)
Definition get_from (input : Bytes) (n : Z) (message : string) : HalResult Bytes :=
  if len input <? n then Err (invalid_wire message) else Ok (drop (Z.to_nat n) input).
(** [u32::try_from(key >> 3).unwrap_or(u32::MAX)] *)
Definition field_of (key : Z) : Z :=
  let field := Z.shiftr key 3 in if u32_max <? field then u32_max else field.
Definition MAX_PROTOBUF_GROUP_DEPTH : Z := 64.
(** A length is a [u64], which [usize] holds. *)
Definition read_length (input : Bytes) : HalResult (Z * Bytes) :=
  read_varint input ≫= λ '(n, used),
  let input := drop (Z.to_nat used) input in
  if len input <? n then Err (invalid_wire "truncated length-delimited protobuf field")
  else Ok (n, input).
(** The key of the next field. *)
Definition read_key (input : Bytes) : HalResult (Z * Z * Bytes) :=
  read_varint input ≫= λ '(key, used),
  let field := field_of key in
  if field =? 0 then Err (invalid_wire "protobuf field number zero is invalid")
  else Ok (field, Z.land key 0x07, drop (Z.to_nat used) input).

(** Out of fuel is [None]. *)
Fixpoint skip_group (fuel : nat) (input : Bytes) (expected_field depth : Z) : option (HalResult Bytes) :=
  match fuel with
  | O => None
  | S fuel =>
      if MAX_PROTOBUF_GROUP_DEPTH <? depth then Some (Err (invalid_wire "protobuf group nesting is too deep"))
      else
        match input with
        | [] => Some (Err (invalid_wire "unterminated protobuf group"))
        | _ =>
            match read_key input with
            | Err e => Some (Err e)
            | Ok (field, wire_type, input) =>
                let next r := match r with
                              | Err e => Some (Err e)
                              | Ok input => skip_group fuel input expected_field depth
                              end in
                if wire_type =? 0 then
                  next (read_varint input ≫= λ '(_, used), Ok (drop (Z.to_nat used) input))
                else if wire_type =? 1 then next (get_from input 8 "truncated fixed64 protobuf field")
                else if wire_type =? 2 then
                  next (read_length input ≫= λ '(n, input), Ok (drop (Z.to_nat n) input))
                else if wire_type =? 3 then
                  match skip_group fuel input field (depth + 1) with None => None | Some r => next r end
                else if wire_type =? 4 then
                  if field =? expected_field then Some (Ok input)
                  else Some (Err (invalid_wire "protobuf end-group field does not match start-group"))
                else if wire_type =? 5 then next (get_from input 4 "truncated fixed32 protobuf field")
                else Some (Err (invalid_wire "unsupported protobuf wire type"))
            end
        end
  end.
Fixpoint visit_fields_loop {A} (fuel : nat) (visitor : A → Z → WireValue → HalResult A) (acc : A)
    (input : Bytes) : option (HalResult A) :=
  match input with
  | [] => Some (Ok acc)
  | _ =>
      match fuel with
      | O => None
      | S fuel =>
          match read_key input with
          | Err e => Some (Err e)
          | Ok (field, wire_type, input) =>
              let visit value input :=
                match visitor acc field value with
                | Err e => Some (Err e)
                | Ok acc => visit_fields_loop fuel visitor acc input
                end in
              let next r value :=
                match r with Err e => Some (Err e) | Ok input => visit value input end in
              if wire_type =? 0 then
                match read_varint input with
                | Err e => Some (Err e)
                | Ok (value, used) => visit (WVarint value) (drop (Z.to_nat used) input)
                end
              else if wire_type =? 1 then
                next (get_from input 8 "truncated fixed64 protobuf field") WFixed
              else if wire_type =? 2 then
                match read_length input with
                | Err e => Some (Err e)
                | Ok (n, input) => visit (WBytes (take (Z.to_nat n) input)) (drop (Z.to_nat n) input)
                end
              else if wire_type =? 3 then
                match skip_group fuel input field 1 with
                | None => None
                | Some (Err e) => Some (Err e)
                | Some (Ok input) => visit_fields_loop fuel visitor acc input
                end
              else if wire_type =? 4 then Some (Err (invalid_wire "unexpected protobuf end-group field"))
              else if wire_type =? 5 then
                next (get_from input 4 "truncated fixed32 protobuf field") WFixed
              else Some (Err (invalid_wire "unsupported protobuf wire type"))
          end
      end
  end.
(** The fuel never runs out ([visit_fields_total]). *)
Definition visit_fields {A} (visitor : A → Z → WireValue → HalResult A) (acc : A) (input : Bytes)
    : HalResult A :=
  default (Err (invalid_wire "out of fuel")) (visit_fields_loop (S (length input)) visitor acc input).

(** ** The wire format, the reference

    Field numbers are the integers on the wire: a key is eight times the number plus the wire
    type.  Protobuf numbers end at 2^29 - 1, but a key has room for 2^61 - 1: the scanner
    accepts those too and reports the ones from 2^32 - 1 on as 2^32 - 1 ([seen]). *)
Definition is_byte (b : Z) : Prop := 0 <= b < 256.
Definition wire_key (bytes : Bytes) (field wire_type : Z) : Prop :=
  0 < field ∧ 0 <= wire_type < 8 ∧ varint bytes (field * 8 + wire_type).
Definition seen (field : Z) : Z := Z.min field u32_max.
(** A group is closed under its own number; the numbers that are not told apart close each
    other. *)
Definition closes (field field' : Z) : Prop :=
  field' = field ∨ (u32_max <= field ∧ u32_max <= field').
Inductive wire_scalar (field : Z) : WireValue → Bytes → Prop :=
  | wire_varint_field kb vb v :
      wire_key kb field 0 → varint vb v → wire_scalar field (WVarint v) (kb ++ vb)
  | wire_fixed64_field kb bs : wire_key kb field 1 → len bs = 8 → wire_scalar field WFixed (kb ++ bs)
  | wire_bytes_field kb lb bs :
      wire_key kb field 2 → varint lb (len bs) → wire_scalar field (WBytes bs) (kb ++ lb ++ bs)
  | wire_fixed32_field kb bs : wire_key kb field 5 → len bs = 4 → wire_scalar field WFixed (kb ++ bs).
(** [fields] are those outside of groups; [depth] counts the groups around. *)
Inductive wire_fields : Z → list (Z * WireValue) → Bytes → Prop :=
  | wire_nil depth : wire_fields depth [] []
  | wire_cons depth field value b fields bs :
      wire_scalar field value b → wire_fields depth fields bs →
      wire_fields depth ((field, value) :: fields) (b ++ bs)
  | wire_group depth field field' inner kb body eb fields bs :
      depth < MAX_PROTOBUF_GROUP_DEPTH → closes field field' →
      wire_key kb field 3 → wire_fields (depth + 1) inner body → wire_key eb field' 4 →
      wire_fields depth fields bs → wire_fields depth fields (kb ++ body ++ eb ++ bs).

(** ** Varints *)
Lemma byte_bits b : is_byte b →
  Z.land b 0x7f = b mod 128 ∧ ((Z.land b 0x80 =? 0) = (b <? 128)).
Proof.
  intros Hb. unfold is_byte in Hb. split.
  - change 0x7f with (Z.ones 7). by rewrite Z.land_ones.
  - assert (forallb (λ n, Bool.eqb (Z.land (Z.of_nat n) 0x80 =? 0) (Z.of_nat n <? 128)) (seq 0 256)
      = true) as H by (vm_compute; reflexivity).
    rewrite forallb_forall in H. specialize (H (Z.to_nat b)). rewrite Z2Nat.id in H by lia.
    apply eqb_prop, H, in_seq. lia.
Qed.
Lemma lor_shiftl_add value x i : 0 <= i → 0 <= value < 2 ^ i → Z.lor value (Z.shiftl x i) = value + x * 2 ^ i.
Proof.
  intros Hi Hv. rewrite <- (Z.shiftl_mul_pow2 x i) by done.
  rewrite <- Z.add_lor_land. enough (Z.land value (Z.shiftl x i) = 0) as -> by lia.
  apply Z.bits_inj'. intros n Hn. rewrite Z.land_spec, Z.bits_0.
  destruct (decide (n < i)) as [Hlt|Hge].
  - rewrite Z.shiftl_spec_low by done. apply andb_false_r.
  - apply andb_false_intro1. destruct (decide (value = 0)) as [->|]; [apply Z.bits_0|].
    apply Z.bits_above_log2; [lia|]. apply Z.lt_le_trans with i; [|lia]. apply Z.log2_lt_pow2; lia.
Qed.

Lemma read_varint_at rounds index value bs v rest :
  varint_at index bs v → 0 <= index → index + Z.of_nat rounds = 10 → 0 <= value < 2 ^ (index * 7) →
  read_varint_loop rounds index value (bs ++ rest) = Ok (value + v * 2 ^ (index * 7), index + len bs).
Proof.
  intros H. revert rounds value. induction H as [i b Hb Hi H9|i b bs v Hb Hi _ IH];
    intros rounds value Hi0 Hr Hv; (destruct rounds as [|rounds]; [lia|]); cbn [app read_varint_loop].
  - destruct (byte_bits b) as [-> ->]; [unfold is_byte; lia|].
    rewrite (lor_shiftl_add value) by lia. rewrite Z.mod_small by lia.
    destruct (Z.eqb_spec i 9), (Z.ltb_spec 1 b), (Z.ltb_spec b 128); cbn; try lia; done.
  - destruct (byte_bits b) as [-> ->]; [unfold is_byte; lia|].
    rewrite (lor_shiftl_add value) by lia.
    replace (b mod 128) with (b - 128) by (apply (Z.mod_unique b 128 1); lia).
    destruct (Z.eqb_spec i 9), (Z.ltb_spec b 128); [lia..|]; cbn [andb].
    assert (2 ^ ((i + 1) * 7) = 2 ^ (i * 7) * 128) as Hp
      by (replace ((i + 1) * 7) with (i * 7 + 7) by lia; rewrite Z.pow_add_r by lia; done).
    rewrite IH; [|lia|lia|].
    + f_equal. f_equal; [rewrite Hp; lia|]. unfold len. cbn [length]. lia.
    + rewrite Hp. assert (0 <= (b - 128) * 2 ^ (i * 7) <= 127 * 2 ^ (i * 7)); [|lia].
      split; [apply Z.mul_nonneg_nonneg; lia|apply Z.mul_le_mono_nonneg_r; lia].
Qed.
Lemma read_varint_loop_sound rounds index value input v n :
  Forall is_byte input → 0 <= index → index + Z.of_nat rounds = 10 →
  read_varint_loop rounds index value input = Ok (v, n) →
  ∃ bs x, varint_at index bs x ∧ n = index + len bs ∧ input = bs ++ drop (length bs) input.
Proof.
  revert index value input. induction rounds as [|rounds IH]; intros index value input Hb Hi Hr H; [done|].
  destruct input as [|b rest]; [done|]. cbn [read_varint_loop] in H.
  apply Forall_cons in Hb as [Hb Hrest]. destruct (byte_bits b Hb) as [_ Hh]. rewrite Hh in H.
  unfold is_byte in Hb. destruct (_ && _) eqn:H9 in H; [done|].
  destruct (Z.ltb_spec b 128).
  - injection H as _ <-. exists [b], b. split; [|done]. constructor; [lia|lia|].
    intros ->. bool_simp. destruct H9 as [?|?]; bool_simp; lia.
  - destruct (decide (index = 9)) as [->|].
    { bool_simp. destruct H9 as [?|?]; bool_simp; lia. }
    apply IH in H as (bs & x & Hx & -> & ->); [|done|lia|lia].
    exists (b :: bs), (b - 128 + 128 * x). split; [constructor; [lia|lia|done]|].
    split; [unfold len; cbn [length]; lia|]. cbn [app length drop]. by rewrite drop_app_length.
Qed.
Lemma read_varint_app bs v rest : varint bs v → read_varint (bs ++ rest) = Ok (v, len bs).
Proof.
  intros H. unfold read_varint. rewrite (read_varint_at 10 0 0 bs v rest) by (done || lia).
  do 2 f_equal; lia.
Qed.
Lemma read_varint_Ok input v n : Forall is_byte input → read_varint input = Ok (v, n) →
  ∃ bs rest, varint bs v ∧ n = len bs ∧ input = bs ++ rest.
Proof.
  intros Hb H. pose proof H as H'. unfold read_varint in H.
  apply read_varint_loop_sound in H as (bs & x & Hx & -> & Hin); [|done..].
  exists bs, (drop (length bs) input). rewrite Hin in H'. rewrite (read_varint_app bs x) in H' by done.
  injection H' as ->. done.
Qed.

(** ** Keys, lengths and fixed-width fields *)
Lemma drop_len_app {A} (a b : list A) : drop (Z.to_nat (len a)) (a ++ b) = b.
Proof. unfold len. rewrite Nat2Z.id. apply drop_app_length. Qed.
Lemma take_len_app {A} (a b : list A) : take (Z.to_nat (len a)) (a ++ b) = a.
Proof. unfold len. rewrite Nat2Z.id. apply take_app_length. Qed.

Lemma app_nonempty {A} (a b : list A) : (1 <= length a)%nat → a ++ b ≠ [].
Proof. destruct a; cbn; [lia|done]. Qed.

(** The scanner's shift and mask are the division of the key. *)
Lemma field_of_key field wire_type : 0 <= wire_type < 8 →
  field_of (field * 8 + wire_type) = seen field ∧ Z.land (field * 8 + wire_type) 0x07 = wire_type.
Proof.
  intros Hw. unfold field_of, seen. change 0x07 with (Z.ones 3).
  rewrite Z.shiftr_div_pow2, Z.land_ones by lia. change (2 ^ 3) with 8.
  rewrite (Z.add_comm (field * 8)), Z.div_add, Z.mod_add, Z.div_small, Z.mod_small by lia.
  split; [|done]. rewrite Z.add_0_l. destruct (Z.ltb_spec u32_max field); lia.
Qed.
Lemma key_split k : 0 <= k → k = Z.shiftr k 3 * 8 + Z.land k 0x07 ∧ 0 <= Z.land k 0x07 < 8.
Proof.
  intros Hk. change 0x07 with (Z.ones 3). rewrite Z.shiftr_div_pow2, Z.land_ones by lia.
  change (2 ^ 3) with 8. pose proof (Z.div_mod k 8). pose proof (Z.mod_pos_bound k 8). lia.
Qed.
Lemma seen_closes field field' : seen field' = seen field ↔ closes field field'.
Proof. unfold seen, closes. lia. Qed.
Lemma read_key_app kb field wt rest : wire_key kb field wt →
  read_key (kb ++ rest) = Ok (seen field, wt, rest).
Proof.
  intros (Hf & Hw & Hk). unfold read_key. rewrite (read_varint_app kb _) by done.
  cbn [mbind result_bind]. rewrite drop_len_app. destruct (field_of_key field wt Hw) as [-> ->].
  destruct (Z.eqb_spec (seen field) 0) as [H0|]; [|done]. unfold seen, u32_max in H0. lia.
Qed.
Lemma read_key_Ok input field wt rest : Forall is_byte input → read_key input = Ok (field, wt, rest) →
  ∃ kb n, wire_key kb n wt ∧ field = seen n ∧ input = kb ++ rest.
Proof.
  intros Hb H. unfold read_key in H. destruct (read_varint input) as [[k used]|] eqn:Hk; [|done].
  cbn [mbind result_bind] in H. apply read_varint_Ok in Hk as (kb & r & Hv & -> & ->); [|done].
  pose proof (varint_u64 kb k Hv). destruct (key_split k) as [Hsplit Hw]; [lia|].
  destruct (field_of_key (Z.shiftr k 3) _ Hw) as [Hfield _]. rewrite <- Hsplit in Hfield.
  rewrite drop_len_app, Hfield in H. destruct (Z.eqb_spec (seen (Z.shiftr k 3)) 0) as [|Hne]; [done|].
  injection H as <- <- <-. exists kb, (Z.shiftr k 3). split; [|done].
  split; [|by rewrite <- Hsplit]. assert (0 <= Z.shiftr k 3) by (apply Z.shiftr_nonneg; lia).
  unfold seen, u32_max in Hne. lia.
Qed.
Lemma read_length_app lb n rest : varint lb n → n <= len rest → read_length (lb ++ rest) = Ok (n, rest).
Proof.
  intros Hl Hn. unfold read_length. rewrite (read_varint_app lb n) by done. cbn [mbind result_bind].
  rewrite drop_len_app. destruct (Z.ltb_spec (len rest) n); [lia|done].
Qed.
Lemma read_length_Ok input n rest : Forall is_byte input → read_length input = Ok (n, rest) →
  ∃ lb bs r, varint lb (len bs) ∧ n = len bs ∧ rest = bs ++ r ∧ input = lb ++ bs ++ r.
Proof.
  intros Hb H. unfold read_length in H. destruct (read_varint input) as [[k used]|] eqn:Hk; [|done].
  cbn [mbind result_bind] in H. apply read_varint_Ok in Hk as (lb & r & Hv & -> & ->); [|done].
  rewrite drop_len_app in H. destruct (Z.ltb_spec (len r) k); [done|]. injection H as <- <-.
  pose proof (varint_u64 lb k Hv).
  assert (k = len (take (Z.to_nat k) r)) as Hk.
  { unfold len in *. rewrite length_take. lia. }
  exists lb, (take (Z.to_nat k) r), (drop (Z.to_nat k) r). rewrite take_drop, <- Hk. done.
Qed.
Lemma get_from_app bs rest n message : len bs = n → get_from (bs ++ rest) n message = Ok rest.
Proof.
  intros <-. unfold get_from. rewrite drop_len_app.
  destruct (Z.ltb_spec (len (bs ++ rest)) (len bs)) as [Hlt|]; [|done].
  rewrite len_app in Hlt. unfold len in Hlt. lia.
Qed.
Lemma get_from_Ok input n message rest : 0 <= n → get_from input n message = Ok rest →
  ∃ bs, len bs = n ∧ input = bs ++ rest.
Proof.
  unfold get_from. intros Hn H. destruct (Z.ltb_spec (len input) n); [done|]. injection H as <-.
  exists (take (Z.to_nat n) input). rewrite take_drop. split; [|done].
  unfold len in *. rewrite length_take. lia.
Qed.
Lemma wire_key_nonempty kb field wt : wire_key kb field wt → (1 <= length kb)%nat.
Proof. intros (_ & _ & Hk%varint_nonempty). destruct kb; [done|]. cbn. lia. Qed.
Lemma wire_scalar_nonempty field v b : wire_scalar field v b → (1 <= length b)%nat.
Proof.
  intros H. inversion H; subst; rewrite !length_app;
    match goal with K : wire_key _ _ _ |- _ => apply wire_key_nonempty in K end; lia.
Qed.

(** ** The loops take one field at a time *)
Definition scan_scalar (wire_type : Z) (input : Bytes) : option (HalResult (WireValue * Bytes)) :=
  if wire_type =? 0 then
    Some (read_varint input ≫= λ '(v, used), Ok (WVarint v, drop (Z.to_nat used) input))
  else if wire_type =? 1 then
    Some (get_from input 8 "truncated fixed64 protobuf field" ≫= λ r, Ok (WFixed, r))
  else if wire_type =? 2 then
    Some (read_length input ≫= λ '(n, input),
          Ok (WBytes (take (Z.to_nat n) input), drop (Z.to_nat n) input))
  else if wire_type =? 5 then
    Some (get_from input 4 "truncated fixed32 protobuf field" ≫= λ r, Ok (WFixed, r))
  else None.
Lemma wire_scalar_scan field v b rest : wire_scalar field v b →
  ∃ kb wt body, wire_key kb field wt ∧ b = kb ++ body ∧
    scan_scalar wt (body ++ rest) = Some (Ok (v, rest)).
Proof.
  destruct 1 as [kb vb v Hk Hv|kb bs Hk Hl|kb lb bs Hk Hl|kb bs Hk Hl]; unfold scan_scalar.
  - exists kb, 0, vb. split_and!; [done|done|]. cbn [Z.eqb Pos.eqb mbind result_bind]. rewrite (read_varint_app vb v) by done. cbn [mbind result_bind]. by rewrite drop_len_app.
  - exists kb, 1, bs. split_and!; [done|done|]. cbn [Z.eqb Pos.eqb mbind result_bind]. by rewrite get_from_app by done.
  - exists kb, 2, (lb ++ bs). split_and!; [done|done|]. cbn [Z.eqb Pos.eqb mbind result_bind]. rewrite <- app_assoc.
    rewrite (read_length_app lb (len bs)); [|done|rewrite len_app; unfold len; lia].
    cbn [mbind result_bind]. by rewrite take_len_app, drop_len_app.
  - exists kb, 5, bs. split_and!; [done|done|]. cbn [Z.eqb Pos.eqb mbind result_bind]. by rewrite get_from_app by done.
Qed.
Lemma scan_scalar_Ok kb field wt input v rest : Forall is_byte input → wire_key kb field wt →
  scan_scalar wt input = Some (Ok (v, rest)) →
  ∃ body, wire_scalar field v (kb ++ body) ∧ input = body ++ rest.
Proof.
  intros Hb Hk H. unfold scan_scalar in H.
  destruct (Z.eqb_spec wt 0) as [->|]; [|destruct (Z.eqb_spec wt 1) as [->|];
    [|destruct (Z.eqb_spec wt 2) as [->|]; [|destruct (Z.eqb_spec wt 5) as [->|]; [|done]]]];
    apply (inj Some) in H.
  - destruct (read_varint input) as [[x used]|] eqn:Hv; [|done]. cbn in H. injection H as <- <-.
    apply read_varint_Ok in Hv as (vb & r & Hv & -> & ->); [|done]. rewrite drop_len_app.
    exists vb. by split; [constructor|].
  - destruct (get_from _ _ _) as [r|] eqn:Hg; [|done]. cbn in H. injection H as <- <-.
    apply get_from_Ok in Hg as (bs & Hl & ->); [|done]. exists bs. by split; [constructor|].
  - destruct (read_length input) as [[k r]|] eqn:Hl; [|done]. cbn in H. injection H as <- <-.
    apply read_length_Ok in Hl as (lb & bs & r' & Hl & -> & -> & ->); [|done].
    rewrite take_len_app, drop_len_app. exists (lb ++ bs). rewrite <- app_assoc. by split; [constructor|].
  - destruct (get_from _ _ _) as [r|] eqn:Hg; [|done]. cbn in H. injection H as <- <-.
    apply get_from_Ok in Hg as (bs & Hl & ->); [|done]. exists bs. by split; [constructor|].
Qed.

Lemma skip_group_step fuel input expected_field depth :
  depth <= MAX_PROTOBUF_GROUP_DEPTH → input ≠ [] →
  skip_group (S fuel) input expected_field depth =
    match read_key input with
    | Err e => Some (Err e)
    | Ok (field, wt, input) =>
        let next r := match r with
                      | Err e => Some (Err e)
                      | Ok input => skip_group fuel input expected_field depth
                      end in
        match scan_scalar wt input with
        | Some r => next (snd <$> r)
        | None =>
            if wt =? 3 then
              match skip_group fuel input field (depth + 1) with None => None | Some r => next r end
            else if wt =? 4 then
              if field =? expected_field then Some (Ok input)
              else Some (Err (invalid_wire "protobuf end-group field does not match start-group"))
            else Some (Err (invalid_wire "unsupported protobuf wire type"))
        end
    end.
Proof.
  intros Hd Hi. cbn [skip_group]. destruct (Z.ltb_spec MAX_PROTOBUF_GROUP_DEPTH depth); [lia|].
  destruct input as [|b input]; [done|]. destruct (read_key _) as [[[field wt] r]|]; [|done].
  unfold scan_scalar. cbv zeta.
  destruct (Z.eqb_spec wt 0) as [->|]; [by destruct (read_varint r) as [[]|]|].
  destruct (Z.eqb_spec wt 1) as [->|]; [by destruct (get_from _ _ _)|].
  destruct (Z.eqb_spec wt 2) as [->|]; [by destruct (read_length r) as [[]|]|].
  destruct (Z.eqb_spec wt 3) as [->|]; [done|]. destruct (Z.eqb_spec wt 4) as [->|]; [done|].
  destruct (Z.eqb_spec wt 5) as [->|]; [by destruct (get_from _ _ _)|done].
Qed.
Lemma visit_fields_step {A} fuel (visitor : A → Z → WireValue → HalResult A) acc input :
  input ≠ [] →
  visit_fields_loop (S fuel) visitor acc input =
    match read_key input with
    | Err e => Some (Err e)
    | Ok (field, wt, input) =>
        match scan_scalar wt input with
        | Some (Err e) => Some (Err e)
        | Some (Ok (value, input)) =>
            match visitor acc field value with
            | Err e => Some (Err e)
            | Ok acc => visit_fields_loop fuel visitor acc input
            end
        | None =>
            if wt =? 3 then
              match skip_group fuel input field 1 with
              | None => None
              | Some (Err e) => Some (Err e)
              | Some (Ok input) => visit_fields_loop fuel visitor acc input
              end
            else if wt =? 4 then Some (Err (invalid_wire "unexpected protobuf end-group field"))
            else Some (Err (invalid_wire "unsupported protobuf wire type"))
        end
    end.
Proof.
  intros Hi. cbn [visit_fields_loop]. destruct input as [|b input]; [done|].
  destruct (read_key _) as [[[field wt] r]|]; [|done]. unfold scan_scalar. cbv zeta.
  destruct (Z.eqb_spec wt 0) as [->|]; [by destruct (read_varint r) as [[]|]|].
  destruct (Z.eqb_spec wt 1) as [->|]; [by destruct (get_from _ _ _)|].
  destruct (Z.eqb_spec wt 2) as [->|]; [by destruct (read_length r) as [[]|]|].
  destruct (Z.eqb_spec wt 3) as [->|]; [done|]. destruct (Z.eqb_spec wt 4) as [->|]; [done|].
  destruct (Z.eqb_spec wt 5) as [->|]; [by destruct (get_from _ _ _)|done].
Qed.

(** ** The scanner accepts the wire format *)
Lemma skip_group_complete d fields body : wire_fields d fields body →
  ∀ f eb rest fuel, wire_key eb f 4 → d <= MAX_PROTOBUF_GROUP_DEPTH →
  (length (body ++ eb ++ rest) < fuel)%nat →
  ∀ f', seen f = seen f' → skip_group fuel (body ++ eb ++ rest) (seen f') d = Some (Ok rest).
Proof.
  induction 1 as [d|d field v b fields bs Hs _ IH
                 |d field field' inner kb body eb' fields bs Hd Hc Hk _ IHi Hk' _ IH];
    intros f eb rest fuel He Hdm Hfuel f' Hff; (destruct fuel as [|fuel]; [lia|]).
  - pose proof (wire_key_nonempty _ _ _ He). cbn [app] in *.
    rewrite skip_group_step by (done || by apply app_nonempty). rewrite (read_key_app _ f 4) by done.
    cbn. by rewrite Hff, Z.eqb_refl.
  - pose proof (wire_scalar_nonempty _ _ _ Hs). rewrite <- app_assoc, length_app in *.
    rewrite skip_group_step by (done || by apply app_nonempty).
    destruct (wire_scalar_scan field v b (bs ++ eb ++ rest) Hs) as (kb & wt & sb & Hk & -> & Hscan).
    rewrite <- app_assoc, (read_key_app _ field wt) by done. cbv zeta. rewrite Hscan. cbn.
    eapply IH; [done|done|lia|done].
  - pose proof (wire_key_nonempty _ _ _ Hk). rewrite <- !app_assoc, !length_app in *.
    rewrite skip_group_step by (done || by apply app_nonempty). rewrite (read_key_app _ field 3) by done.
    cbn. rewrite (IHi field' eb' (bs ++ eb ++ rest))
      by (done || by apply seen_closes || (rewrite ?length_app; lia)).
    eapply IH; [done|done|rewrite !length_app; lia|done].
Qed.
Lemma visit_fields_complete {A} (visitor : A → Z → WireValue → HalResult A) d fields input :
  wire_fields d fields input → d = 0 → ∀ acc fuel, (length input < fuel)%nat →
  visit_fields_loop fuel visitor acc input
  = Some (try_fold (λ acc '(f, v), visitor acc (seen f) v) acc fields).
Proof.
  induction 1 as [d|d field v b fields bs Hs _ IH
                 |d field field' inner kb body eb fields bs Hd Hc Hk Hi _ Hk' _ IH];
    intros Hd0 acc fuel Hfuel; (destruct fuel as [|fuel]; [lia|]).
  - done.
  - pose proof (wire_scalar_nonempty _ _ _ Hs). rewrite length_app in Hfuel.
    rewrite visit_fields_step by by apply app_nonempty.
    destruct (wire_scalar_scan field v b bs Hs) as (kb & wt & sb & Hk & -> & Hscan).
    rewrite <- app_assoc, (read_key_app _ field wt) by done. rewrite Hscan. cbn [try_fold].
    destruct (visitor acc (seen field) v) as [acc'|]; [|done]. apply IH; [done|lia].
  - pose proof (wire_key_nonempty _ _ _ Hk). rewrite !length_app in Hfuel.
    rewrite visit_fields_step by by apply app_nonempty. rewrite (read_key_app _ field 3) by done.
    cbn [scan_scalar Z.eqb Pos.eqb]. subst d. unfold scan_scalar. cbn [Z.eqb Pos.eqb].
    rewrite (skip_group_complete 1 inner body Hi field')
      by (done || by apply seen_closes || (rewrite ?length_app; lia)).
    apply IH; [done|lia].
Qed.

(** ** What the scanner accepts is the wire format *)
Lemma is_byte_app a b : Forall is_byte (a ++ b) → Forall is_byte b.
Proof. by intros [_ H]%Forall_app. Qed.
#[local] Hint Resolve is_byte_app : core.

Lemma skip_group_sound fuel input f d rest : Forall is_byte input →
  skip_group fuel input f d = Some (Ok rest) →
  ∃ fields body eb n, d <= MAX_PROTOBUF_GROUP_DEPTH ∧ wire_fields d fields body ∧ wire_key eb n 4 ∧
    seen n = f ∧ input = body ++ eb ++ rest.
Proof.
  revert input f d rest. induction fuel as [|fuel IH]; intros input f d rest Hb H; [done|].
  destruct (decide (d <= MAX_PROTOBUF_GROUP_DEPTH)) as [Hd|Hd].
  2: { cbn [skip_group] in H. destruct (Z.ltb_spec MAX_PROTOBUF_GROUP_DEPTH d); [done|lia]. }
  destruct (decide (input = [])) as [->|Hne].
  { cbn [skip_group] in H. by destruct (_ <? _). }
  rewrite skip_group_step in H by done.
  destruct (read_key input) as [[[field wt] r]|] eqn:Hk; [|done].
  apply read_key_Ok in Hk as (kb & n & Hk & -> & ->); [|done]. cbv zeta in H.
  destruct (scan_scalar wt r) as [[[v r']|]|] eqn:Hs; [|done|].
  - eapply scan_scalar_Ok in Hs as (sb & Hs & ->); [|by eauto|done]. cbn in H.
    apply IH in H as (fields & body & eb & m & _ & Hf & He & <- & ->); [|by eauto].
    exists ((n, v) :: fields), ((kb ++ sb) ++ body), eb, m. rewrite <- !app_assoc.
    split_and!; [done| |done|done|done]. rewrite app_assoc. by constructor.
  - destruct (Z.eqb_spec wt 3) as [->|].
    + destruct (skip_group fuel r (seen n) (d + 1)) as [[r'|]|] eqn:Hg; [|done..].
      apply IH in Hg as (inner & ib & eb' & m' & Hd' & Hi & He' & Hc & ->); [|by eauto].
      apply IH in H as (fields & body & eb & m & _ & Hf & He & <- & ->); [|by eauto].
      exists fields, (kb ++ ib ++ eb' ++ body), eb, m. rewrite <- !app_assoc.
      split_and!; [done| |done|done|done]. eapply wire_group; [lia|by apply seen_closes|done..].
    + destruct (Z.eqb_spec wt 4) as [->|]; [|done]. destruct (Z.eqb_spec (seen n) f) as [<-|]; [|done].
      injection H as <-. exists [], [], kb, n. split_and!; [done|constructor|done|done|done].
Qed.
Lemma visit_fields_sound {A} (visitor : A → Z → WireValue → HalResult A) fuel input acc acc' :
  Forall is_byte input → visit_fields_loop fuel visitor acc input = Some (Ok acc') →
  ∃ fields, wire_fields 0 fields input.
Proof.
  revert input acc. induction fuel as [|fuel IH]; intros input acc Hb H.
  { destruct input; [|done]. exists []. constructor. }
  destruct (decide (input = [])) as [->|Hne]; [exists []; constructor|].
  rewrite visit_fields_step in H by done.
  destruct (read_key input) as [[[field wt] r]|] eqn:Hk; [|done].
  apply read_key_Ok in Hk as (kb & n & Hk & -> & ->); [|done].
  destruct (scan_scalar wt r) as [[[v r']|]|] eqn:Hs; [|done|].
  - eapply scan_scalar_Ok in Hs as (sb & Hs & ->); [|by eauto|done].
    destruct (visitor acc (seen n) v); [|done]. apply IH in H as (fields & Hf); [|by eauto].
    exists ((n, v) :: fields). rewrite app_assoc. by constructor.
  - destruct (Z.eqb_spec wt 3) as [->|]; [|by destruct (_ =? _)].
    destruct (skip_group fuel r (seen n) 1) as [[r'|]|] eqn:Hg; [|done..].
    apply skip_group_sound in Hg as (inner & ib & eb & m & Hd & Hi & He & Hc & ->); [|by eauto].
    apply IH in H as (fields & Hf); [|by eauto]. exists fields.
    eapply wire_group; [|by apply seen_closes|done..]. unfold MAX_PROTOBUF_GROUP_DEPTH. lia.
Qed.

(** ** The fuel never runs out *)
Lemma scan_scalar_shorter kb field wt input v rest : Forall is_byte input → wire_key kb field wt →
  scan_scalar wt input = Some (Ok (v, rest)) → (length rest <= length input)%nat.
Proof.
  intros Hb Hk H. eapply scan_scalar_Ok in H as (sb & _ & ->); [|done..]. rewrite length_app. lia.
Qed.
Lemma skip_group_shorter fuel input f d rest : Forall is_byte input →
  skip_group fuel input f d = Some (Ok rest) → (length rest <= length input)%nat ∧ Forall is_byte rest.
Proof.
  intros Hb (fields & body & eb & n & _ & _ & _ & _ & ->)%skip_group_sound; [|done].
  rewrite !length_app. split; [lia|eauto].
Qed.
Lemma skip_group_total fuel input f d : Forall is_byte input → (length input < fuel)%nat →
  skip_group fuel input f d ≠ None.
Proof.
  revert input f d. induction fuel as [|fuel IH]; intros input f d Hb Hfuel; [lia|].
  destruct (decide (d <= MAX_PROTOBUF_GROUP_DEPTH)) as [Hd|Hd].
  2: { cbn [skip_group]. destruct (Z.ltb_spec MAX_PROTOBUF_GROUP_DEPTH d); [done|lia]. }
  destruct (decide (input = [])) as [->|Hne]; [cbn [skip_group]; by destruct (_ <? _)|].
  rewrite skip_group_step by done.
  destruct (read_key input) as [[[field wt] r]|] eqn:Hk; [|done].
  apply read_key_Ok in Hk as (kb & n & Hk & -> & ->); [|done]. pose proof (wire_key_nonempty _ _ _ Hk).
  rewrite length_app in Hfuel. cbv zeta. assert (Forall is_byte r) by eauto.
  destruct (scan_scalar wt r) as [[[v r']|]|] eqn:Hs; cbn; [|done|].
  - pose proof (scan_scalar_shorter _ _ _ _ _ _ ltac:(done) Hk Hs).
    eapply scan_scalar_Ok in Hs as (sb & _ & ->); [|done..]. apply IH; [eauto|lia].
  - destruct (wt =? 3); [|by repeat case_match].
    destruct (skip_group fuel r (seen n) (d + 1)) as [[r'|]|] eqn:Hg; [|done|by eapply IH in Hg; [|done|lia]].
    apply skip_group_shorter in Hg as [? ?]; [|done]. apply IH; [done|lia].
Qed.
Lemma visit_fields_total {A} (visitor : A → Z → WireValue → HalResult A) fuel input acc :
  Forall is_byte input → (length input < fuel)%nat → visit_fields_loop fuel visitor acc input ≠ None.
Proof.
  revert input acc. induction fuel as [|fuel IH]; intros input acc Hb Hfuel; [lia|].
  destruct (decide (input = [])) as [->|Hne]; [done|]. rewrite visit_fields_step by done.
  destruct (read_key input) as [[[field wt] r]|] eqn:Hk; [|done].
  apply read_key_Ok in Hk as (kb & n & Hk & -> & ->); [|done]. pose proof (wire_key_nonempty _ _ _ Hk).
  rewrite length_app in Hfuel. assert (Forall is_byte r) by eauto.
  destruct (scan_scalar wt r) as [[[v r']|]|] eqn:Hs; [|done|].
  - pose proof (scan_scalar_shorter _ _ _ _ _ _ ltac:(done) Hk Hs).
    eapply scan_scalar_Ok in Hs as (sb & _ & ->); [|done..].
    destruct (visitor acc (seen n) v); [|done]. apply IH; [eauto|lia].
  - destruct (wt =? 3); [|by repeat case_match].
    destruct (skip_group fuel r (seen n) 1) as [[r'|]|] eqn:Hg;
      [|done|by eapply skip_group_total in Hg; [|done|lia]].
    apply skip_group_shorter in Hg as [? ?]; [|done]. apply IH; [done|lia].
Qed.

Lemma visit_fields_wire {A} (visitor : A → Z → WireValue → HalResult A) acc fields input :
  wire_fields 0 fields input →
  visit_fields visitor acc input = try_fold (λ acc '(f, v), visitor acc (seen f) v) acc fields.
Proof. intros H. unfold visit_fields. by rewrite (visit_fields_complete _ 0 fields) by (done || lia). Qed.
Lemma visit_fields_Ok {A} (visitor : A → Z → WireValue → HalResult A) acc input acc' :
  Forall is_byte input → visit_fields visitor acc input = Ok acc' →
  ∃ fields, wire_fields 0 fields input ∧
    try_fold (λ acc '(f, v), visitor acc (seen f) v) acc fields = Ok acc'.
Proof.
  intros Hb H. unfold visit_fields in H.
  destruct (visit_fields_loop _ _ _ _) as [r|] eqn:Hl; [|done]. cbn in H. subst r. pose proof Hl as Hs.
  apply visit_fields_sound in Hs as [fields Hf]; [|done]. exists fields. split; [done|].
  rewrite (visit_fields_complete _ 0 fields) in Hl by (done || lia). by injection Hl.
Qed.
(** The values of the fields numbered [n]. *)
Definition wire_bytes_of (n : Z) (fields : list (Z * WireValue)) : list Bytes :=
  omap (λ '(f, v), match v with WBytes b => if f =? n then Some b else None | _ => None end) fields.

(** The fields as the visitor is told of them. *)
Definition told (fields : list (Z * WireValue)) : list (Z * WireValue) := prod_map seen id <$> fields.
Lemma try_fold_told (acc fields : list (Z * WireValue)) :
  try_fold (E := HalError) (λ acc '(f, v), Ok (acc ++ [(seen f, v)])) acc fields
  = Ok (acc ++ told fields).
Proof.
  revert acc. induction fields as [|[f v] l IH]; intros acc; cbn [try_fold told fmap list_fmap].
  - by rewrite app_nil_r.
  - by rewrite IH, <- app_assoc.
Qed.
(** Numbers below 2^32 - 1 are told as they are. *)
Lemma wire_bytes_of_told n fields : n < u32_max → wire_bytes_of n (told fields) = wire_bytes_of n fields.
Proof.
  intros Hn. induction fields as [|[f [v|b|]] fields IH]; [done|by apply IH| |by apply IH].
  unfold wire_bytes_of, told in *. cbn [fmap list_fmap prod_map omap list_omap fst snd]. unfold id at 1.
  assert ((seen f =? n) = (f =? n)) as -> by (unfold seen; lia).
  destruct (f =? n); [by f_equal|exact IH].
Qed.

(** C36: the scanner is exact: it always finishes, and it succeeds on a byte string exactly when
    the string is a sequence of protobuf fields (varints within 64 bits, padded or not,
    fixed-width and length-delimited fields, matched groups at most 64 deep) whose values
    outside of groups the visitor accepts one after the other.  The field numbers are those of
    the wire, key divided by eight; the visitor is told each number, except that those of
    2^32 - 1 and above, which protobuf does not have, are all told as 2^32 - 1, and a group
    opened under one of these may be closed under another. *)
Theorem visit_fields_exact {A} (visitor : A → Z → WireValue → HalResult A) acc acc' input :
  Forall is_byte input →
  visit_fields_loop (S (length input)) visitor acc input ≠ None ∧
  (visit_fields visitor acc input = Ok acc' ↔
   ∃ fields, wire_fields 0 fields input ∧
     try_fold (λ acc '(f, v), visitor acc (seen f) v) acc fields = Ok acc').
Proof.
  intros Hb. split; [apply visit_fields_total; [done|lia]|]. split; [by apply visit_fields_Ok|].
  intros (fields & Hf & H). by rewrite (visit_fields_wire _ _ fields).
Qed.
(** Field 1 is 150, field 3 a group around a fixed32 field, field 2 the string of one byte 7. *)
Definition wire_sample : Bytes := [8; 150; 1; 27; 13; 1; 2; 3; 4; 28; 18; 1; 7].
Lemma visit_fields_exact_witness :
  Forall is_byte wire_sample ∧
  ∃ fields, wire_fields 0 fields wire_sample ∧ told fields = [(1, WVarint 150); (2, WBytes [7])].
Proof.
  assert (Forall is_byte wire_sample) as Hb by (repeat constructor; unfold is_byte; lia).
  split; [done|].
  destruct (proj1 (proj2 (visit_fields_exact (λ acc f v, Ok (acc ++ [(f, v)])) []
    [(1, WVarint 150); (2, WBytes [7])] wire_sample Hb)) eq_refl) as (fields & Hf & Hfold).
  exists fields. split; [done|]. rewrite try_fold_told in Hfold. by injection Hfold.
Defined.

(** Field numbers that protobuf does not have are not refused, and those of 2^32 - 1 and above
    are confused: a group that opens as field 2^32 is closed by the end of field 2^33, and a
    varint field 2^35 is told as field 2^32 - 1. *)
Definition oversized_sample : Bytes :=
  varint_encode (2 ^ 32 * 8 + 3) ++ varint_encode (2 ^ 33 * 8 + 4)
  ++ varint_encode (2 ^ 35 * 8) ++ [7].
Theorem oversized_fields_confused :
  visit_fields (λ acc f v, Ok (acc ++ [(f, v)])) [] oversized_sample = Ok [(u32_max, WVarint 7)].
Proof. reflexivity. Qed.
