(* ===== verification/ClientValidate.v ===== *)
(** * robot-hal-client: what a response may be

    Models the checks of crates/robot-hal-client/src/connection.rs on what the broker
    sends: the size limits of an inbound frame ([preflight_inbound]), the response that a
    request expects ([ExpectedResponse], [validate_response]), the negotiated limits
    ([validate_handshake_response]) and what they allow the client to ask. *)

From S2P Require Import Prelude Varint Core Lifecycle SerialRegistry CanTypes CameraTypes UsbTypes.
From S2P Require Import GpioTypes WireCore WireCan WireUsbGpio WireCamera Envelope ClientWire.

(** ** Errors *)
Definition client_frame_too_large (message : string) : HalError :=
  client_error "runtime.protocol.frame_too_large" InvalidArgument "runtime.protocol.frame" false message.
Definition disconnected_error (operation message : string) : HalError :=
  client_error "runtime.broker.disconnected" Unavailable operation true message.
Definition closed_error : HalError :=
  client_error "runtime.client.closed" Conflict "runtime.client.close" false "client is closed".
Definition unexpected_response : HalError :=
  client_error "runtime.protocol.unexpected_response" InvalidArgument "runtime.protocol.read" false
    "response payload does not match its request".
Definition attach_resource (error : HalError) (resource_id : ResourceId) : HalError :=
  match err_resource_id error with
  | Some _ => error
  | None => HalError_with_resource_id error resource_id
  end.
(** [resource_id.map_or(error.clone(), |id| ..)] *)
Definition for_resource (error : HalError) (resource_id : option ResourceId) : HalError :=
  match resource_id with Some id => HalError_with_resource_id error id | None => error end.

(** ** What a request expects *)
Record CanSessionProfile := mkCanSessionProfile {
  sp_mode : CanMode;
  sp_classic_frames : bool;
  sp_fd_frames : bool;
  sp_error_frames : bool;
  sp_timestamps : bool;
  sp_resource_id : ResourceId;
  sp_session_id : SessionId;
}.
Inductive ExpectedResponse :=
  | ExpEnumerateSerial
  | ExpOpenSerial
  | ExpSerialRead (max_bytes : Z)
  | ExpSerialWrite
  | ExpSerialFlush
  | ExpSetControlLines
  | ExpCloseSession
  | ExpCloseCan (profile : CanSessionProfile)
  | ExpEnumerateCan
  | ExpOpenCan (mode : LeaseMode) (resource_id : ResourceId)
  | ExpCanSend (input_count : Z) (profile : CanSessionProfile)
  | ExpCanReceive (max_frames max_read_bytes : Z) (profile : CanSessionProfile)
  | ExpReplaceCanFilters (profile : CanSessionProfile)
  | ExpCanBusStatus (profile : CanSessionProfile)
  | ExpEnumerateUsb
  | ExpOpenUsb (resource_id : ResourceId)
  | ExpUsbTransfer (max_read_bytes : Z) (resource_id : ResourceId)
  | ExpCloseUsb (resource_id : ResourceId)
  | ExpEnumerateGpio
  | ExpOpenGpio (line_count : Z) (resource_id : ResourceId)
  | ExpGpioRead (line_count : Z) (resource_id : ResourceId)
  | ExpGpioWrite (resource_id : ResourceId)
  | ExpGpioNextEdge (resource_id : ResourceId)
  | ExpCloseGpio (resource_id : ResourceId)
  | ExpEnumerateCamera
  | ExpOpenCamera (resource_id : ResourceId)
  | ExpCaptureCamera (resource_id : ResourceId)
  | ExpCameraMappingDescriptor (resource_id : ResourceId)
  | ExpCameraNextFrameLease (resource_id : ResourceId)
  | ExpCameraDroppedCount (resource_id : ResourceId)
  | ExpCameraControls (resource_id : ResourceId)
  | ExpCameraGetControl (resource_id : ResourceId)
  | ExpCameraSetControl (resource_id : ResourceId)
  | ExpCameraSetAuto (resource_id : ResourceId)
  | ExpCloseCamera (resource_id : ResourceId).
Definition ExpectedResponse_resource_id (e : ExpectedResponse) : option ResourceId :=
  match e with
  | ExpOpenCan _ resource_id => Some resource_id
  | ExpCanSend _ profile | ExpCanReceive _ _ profile | ExpReplaceCanFilters profile
  | ExpCanBusStatus profile | ExpCloseCan profile => Some (sp_resource_id profile)
  | ExpOpenUsb resource_id | ExpUsbTransfer _ resource_id | ExpCloseUsb resource_id
  | ExpOpenGpio _ resource_id | ExpGpioRead _ resource_id | ExpGpioWrite resource_id
  | ExpGpioNextEdge resource_id | ExpCloseGpio resource_id | ExpOpenCamera resource_id
  | ExpCaptureCamera resource_id | ExpCameraMappingDescriptor resource_id
  | ExpCameraNextFrameLease resource_id | ExpCameraDroppedCount resource_id
  | ExpCameraControls resource_id | ExpCameraGetControl resource_id
  | ExpCameraSetControl resource_id | ExpCameraSetAuto resource_id
  | ExpCloseCamera resource_id => Some resource_id
  | _ => None
  end.
Definition attach_profile (error : HalError) (profile : CanSessionProfile) : HalError :=
  attach_resource error (sp_resource_id profile).
Definition attach_expected (error : HalError) (expected : ExpectedResponse) : HalError :=
  match ExpectedResponse_resource_id expected with
  | Some resource_id => attach_resource error resource_id
  | None => error
  end.
Definition invalid_profile_message (profile : CanSessionProfile) (message : string) : HalError :=
  attach_profile
    (invalid_message (message +:+ " for correlated session "
                        +:+ SessionId_as_str (sp_session_id profile))) profile.

(** ** The size limits of an inbound frame

    [expected] is what the request of the frame's id expects, when it is pending or
    cancelled.  Each pass folds over the fields; the counters are the accumulators. *)
Definition preflight_request_id (frame : Bytes) : HalResult Z :=
  visit_fields (λ request_id field wire,
    match wire with
    | WVarint value => Ok (if field =? 1 then value else request_id)
    | _ => Ok request_id
    end) 0 frame.
(** A visitor that looks at the byte fields of one number. *)
Definition on_bytes {A} (number : Z) (f : A → Bytes → HalResult A) (acc : A) (field : Z)
    (wire : WireValue) : HalResult A :=
  match wire with
  | WBytes b => if field =? number then f acc b else Ok acc
  | _ => Ok acc
  end.
Definition preflight_read (frame : Bytes) (negotiated_read : Z) (requested_read : option Z)
    : HalResult unit :=
  visit_fields (on_bytes 25 (λ _ read_response,
    visit_fields (on_bytes 1 (λ _ data,
      if (negotiated_read <? len data) || is_some_and (λ max, max <? len data) requested_read then
        Err (client_frame_too_large
               "serial read response exceeds the negotiated or requested byte limit")
      else Ok tt)) tt read_response)) tt frame.
(** Frames seen, bytes of payload seen, a timestamp seen. *)
Definition ReceiveCounts : Type := Z * Z * bool.
Definition preflight_can_data (payload_bytes : Z) (can_frame : Bytes) : HalResult Z :=
  visit_fields (on_bytes 3 (λ payload_bytes data,
    ok_or (invalid_wire "CAN receive response payload overflows usize")
      (checked_add usize_max payload_bytes (len data)))) payload_bytes can_frame.
Definition preflight_received (counts : ReceiveCounts) (received : Bytes) : HalResult ReceiveCounts :=
  let '(frame_count, payload_bytes, has_timestamp) := counts in
  ok_or (invalid_wire "CAN receive response frame count overflows usize")
    (checked_add usize_max frame_count 1) ≫= λ frame_count,
  visit_fields (λ '(frame_count, payload_bytes, has_timestamp) field wire,
    match wire with
    | WBytes b =>
        if field =? 1 then
          preflight_can_data payload_bytes b ≫= λ payload_bytes,
          Ok (frame_count, payload_bytes, has_timestamp)
        else if field =? 2 then Ok (frame_count, payload_bytes, true)
        else Ok (frame_count, payload_bytes, has_timestamp)
    | _ => Ok (frame_count, payload_bytes, has_timestamp)
    end) (frame_count, payload_bytes, has_timestamp) received.
Definition preflight_can (frame : Bytes) (requested_can : option (Z * Z * CanSessionProfile))
    : HalResult unit :=
  visit_fields (on_bytes 57 (λ _ receive_response,
    visit_fields (on_bytes 1 preflight_received) (0, 0, false) receive_response
    ≫= λ '(frame_count, payload_bytes, has_timestamp),
    match requested_can with
    | None => Ok tt
    | Some (max_frames, max_read_bytes, profile) =>
        if (max_frames <? frame_count) || (max_read_bytes <? payload_bytes) then
          Err (attach_profile
                 (invalid_wire "CAN receive response exceeds the requested frame or byte bound")
                 profile)
        else if has_timestamp && negb (sp_timestamps profile) then
          Err (attach_profile
                 (invalid_wire "CAN receive response contains an unadvertised timestamp") profile)
        else Ok tt
    end)) tt frame.
(** [expected_of] looks an id up among the pending and the cancelled requests. *)
Definition preflight_inbound (frame : Bytes) (negotiated_read : Z)
    (expected_of : Z → option ExpectedResponse) : HalResult unit :=
  preflight_request_id frame ≫= λ request_id,
  let expected := expected_of request_id in
  let requested_read :=
    match expected with Some (ExpSerialRead max_bytes) => Some max_bytes | _ => None end in
  preflight_read frame negotiated_read requested_read ≫= λ _,
  let requested_can :=
    match expected with
    | Some (ExpCanReceive max_frames max_read_bytes profile) =>
        Some (max_frames, max_read_bytes, profile)
    | _ => None
    end in
  preflight_can frame requested_can.

(** ** The response a request expects *)
Definition received_allowed (profile : CanSessionProfile) (frame : CanFrame) : bool :=
  match frame with
  | ClassicData _ _ | ClassicRemote _ _ => sp_classic_frames profile
  | FdData _ _ _ _ => sp_fd_frames profile && bool_decide (sp_mode profile = Fd)
  | ErrorFrame _ _ => sp_error_frames profile
  end.
Fixpoint validate_received_profile (frames : list ReceivedCanFrame) (profile : CanSessionProfile)
    : HalResult unit :=
  match frames with
  | [] => Ok tt
  | received :: frames =>
      if negb (received_allowed profile (rcv_frame received)) then
        Err (invalid_profile_message profile
               "CAN receive response contains a frame outside the active session profile")
      else if is_some (rcv_timestamp received) && negb (sp_timestamps profile) then
        Err (invalid_profile_message profile
               "CAN receive response contains an unadvertised timestamp")
      else validate_received_profile frames profile
  end.
Definition received_payload_bytes (frames : list ReceivedCanFrame) (profile : CanSessionProfile)
    : HalResult Z :=
  try_fold (λ total received,
    ok_or (invalid_profile_message profile
             "CAN receive response payload byte count overflows usize")
      (checked_add usize_max total (len (CanFrame_data (rcv_frame received))))) 0 frames.
(** The check of the three enumerations that the client does not share with the protocol crate. *)
Definition validate_enumeration (transport : TransportKind) (message : string)
    (resources : list v1_ResourceDescriptor) : HalResult unit :=
  try_fold (λ _ resource,
    ResourceDescriptor_try_from resource ≫= λ descriptor,
    if bool_decide (desc_transport descriptor = transport) then Ok tt
    else Err (invalid_message message)) tt resources.
(** [.map(|_| ()).map_err(|error| attach_resource(error, &resource_id))] *)
Definition checked {A} (resource_id : ResourceId) (r : HalResult A) : HalResult unit :=
  map_err (λ error, attach_resource error resource_id) ((λ _, tt) <$> r).
Definition validate_response (expected : ExpectedResponse) (payload : Payload) : HalResult unit :=
  match expected, payload with
  | ExpEnumerateSerial, EnumerateSerialResponse _
  | ExpOpenSerial, OpenSerialResponse _
  | ExpSerialRead _, SerialReadResponse _
  | ExpSerialWrite, SerialWriteResponse
  | ExpSerialFlush, SerialFlushResponse
  | ExpSetControlLines, SetSerialControlLinesResponse
  | ExpCloseSession, CloseSessionResponse
  | ExpCloseCan _, CloseSessionResponse
  | ExpReplaceCanFilters _, ReplaceCanFiltersResponse => Ok tt
  | ExpEnumerateCan, EnumerateCanResponse response =>
      (λ _, tt) <$> enumerate_can_response_from_proto response
  | ExpOpenCan mode resource_id, OpenCanResponse response =>
      checked resource_id (open_can_response_from_proto response mode)
  | ExpCanSend input_count profile, CanSendResponse response =>
      checked (sp_resource_id profile) (can_send_response_from_proto response input_count)
  | ExpCanReceive max_frames max_read_bytes profile, CanReceiveResponse response =>
      map_err (λ error, attach_profile error profile)
        (can_receive_response_from_proto response max_frames) ≫= λ frames,
      received_payload_bytes frames profile ≫= λ payload_bytes,
      if max_read_bytes <? payload_bytes then
        Err (invalid_profile_message profile
               "CAN receive response exceeds the negotiated read maximum")
      else validate_received_profile frames profile
  | ExpCanBusStatus profile, GetCanBusStatusResponse response =>
      checked (sp_resource_id profile) (get_can_bus_status_response_from_proto response)
  | ExpEnumerateUsb, EnumerateUsbResponse response =>
      validate_enumeration Usb "USB enumeration returned a non-USB descriptor" response
  | ExpOpenUsb resource_id, OpenUsbResponse response =>
      checked resource_id (open_usb_response_from_proto response)
  | ExpUsbTransfer max_read_bytes resource_id, UsbTransferResponse response =>
      map_err (λ error, attach_resource error resource_id)
        (usb_transfer_response_from_proto response) ≫= λ data,
      if len data <=? max_read_bytes then Ok tt
      else Err (attach_resource (invalid_message "USB response exceeds negotiated read maximum")
                  resource_id)
  | ExpCloseUsb _, CloseUsbResponse => Ok tt
  | ExpEnumerateGpio, EnumerateGpioResponse response =>
      validate_enumeration Gpio "GPIO enumeration returned a non-GPIO descriptor" response
  | ExpOpenGpio line_count resource_id, OpenGpioResponse response =>
      if 0 <? line_count then checked resource_id (open_gpio_response_from_proto response)
      else Err (attach_resource (invalid_message "GPIO open line count is invalid") resource_id)
  | ExpGpioRead line_count resource_id, GpioReadResponse response =>
      map_err (λ error, attach_resource error resource_id)
        (gpio_read_response_from_proto response) ≫= λ values,
      if len values =? line_count then Ok tt
      else Err (attach_resource
                  (invalid_message "GPIO read response length does not match opened lines")
                  resource_id)
  | ExpGpioWrite _, GpioWriteResponse => Ok tt
  | ExpGpioNextEdge resource_id, GpioNextEdgeResponse response =>
      checked resource_id (gpio_next_edge_response_from_proto response)
  | ExpCloseGpio _, CloseGpioResponse => Ok tt
  | ExpEnumerateCamera, EnumerateCameraResponse response =>
      validate_enumeration Camera "Camera enumeration returned a non-Camera descriptor" response
  | ExpOpenCamera resource_id, OpenCameraResponse response =>
      checked resource_id (camera_open_response_from_proto response)
  | ExpCaptureCamera _, CaptureCameraResponse
  | ExpCameraDroppedCount _, CameraDroppedCountResponse _
  | ExpCameraSetControl _, CameraSetControlResponse
  | ExpCameraSetAuto _, CameraSetAutoResponse
  | ExpCloseCamera _, CloseCameraResponse => Ok tt
  | ExpCameraMappingDescriptor resource_id, CameraMappingDescriptorResponse response =>
      checked resource_id
        (ok_or (invalid_message "camera mapping descriptor is missing") response
         ≫= camera_mapping_descriptor_from_proto)
  | ExpCameraNextFrameLease resource_id, CameraNextFrameLeaseResponse response =>
      checked resource_id (camera_next_frame_lease_response_from_proto response)
  | ExpCameraControls resource_id, CameraControlsResponse response =>
      checked resource_id (camera_controls_response_from_proto response)
  | ExpCameraGetControl resource_id, CameraGetControlResponse response =>
      checked resource_id
        (ok_or (invalid_message "camera control value is missing") response
         ≫= camera_control_value_from_proto)
  | _, _ => Err (for_resource unexpected_response (ExpectedResponse_resource_id expected))
  end.

(** ** Limits *)
Record Limits := mkLimits {
  lim_minor : Z;
  lim_frame : Z;
  lim_read : Z;
  lim_write : Z;
  lim_can_classic : bool;
  lim_can_fd : bool;
  lim_can_configure : bool;
  lim_can_error_frames : bool;
  lim_can_rx_timestamp : bool;
  lim_usb_control : bool;
  lim_usb_bulk : bool;
  lim_usb_interrupt : bool;
  lim_gpio_lines : bool;
  lim_gpio_edges : bool;
  lim_camera_capture : bool;
  lim_camera_frames_shm : bool;
  lim_camera_controls : bool;
}.
(** The endpoint apart. *)
Record ConnectionOptions := mkConnectionOptions {
  co_startup_token : list Z;
  co_max_frame_bytes : Z;
  co_max_read_bytes : Z;
  co_max_write_bytes : Z;
  co_pending_capacity : Z;
  co_writer_capacity : Z;
  co_event_capacity : Z;
}.
Definition DEFAULT_IO_CAPACITY : Z := 32.
Definition DEFAULT_EVENT_CAPACITY : Z := 64.
Definition DEFAULT_TRANSFER_BYTES : Z := 64 * 1024.
Definition ConnectionOptions_new (startup_token : list Z) : ConnectionOptions :=
  mkConnectionOptions startup_token MAX_FRAME_BYTES DEFAULT_TRANSFER_BYTES DEFAULT_TRANSFER_BYTES
    DEFAULT_IO_CAPACITY DEFAULT_IO_CAPACITY DEFAULT_EVENT_CAPACITY.
Definition with_byte_limits (o : ConnectionOptions) (frame read write : Z) : ConnectionOptions :=
  mkConnectionOptions (co_startup_token o) frame read write (co_pending_capacity o)
    (co_writer_capacity o) (co_event_capacity o).
Definition with_queue_capacities (o : ConnectionOptions) (pending writer event : Z)
    : ConnectionOptions :=
  mkConnectionOptions (co_startup_token o) (co_max_frame_bytes o) (co_max_read_bytes o)
    (co_max_write_bytes o) (Z.max pending 1) (Z.max writer 1) (Z.max event 1).
Definition validate_options (o : ConnectionOptions) : HalResult unit :=
  if (co_max_frame_bytes o =? 0) || (MAX_FRAME_BYTES <? co_max_frame_bytes o)
     || (co_max_read_bytes o =? 0) || (co_max_write_bytes o =? 0)
     || (u32_max <? co_max_frame_bytes o) || (u32_max <? co_max_read_bytes o)
     || (u32_max <? co_max_write_bytes o) then
    Err (client_error "runtime.argument.invalid" InvalidArgument "runtime.broker.connect" false
           "connection byte limits are invalid")
  else Ok tt.
(** [from_io]: what the handshake offers. *)
Definition requested_limits (o : ConnectionOptions) : Limits :=
  mkLimits PROTOCOL_MINOR_MAXIMUM (co_max_frame_bytes o) (co_max_read_bytes o)
    (co_max_write_bytes o) false false false false false false false false false false false false
    false.

(** ** The handshake *)
Definition has_capability (response : v1_HandshakeResponse) (capability : string) : bool :=
  bool_decide (capability ∈ hsr_capabilities response).
Definition validate_handshake_response (response : v1_HandshakeResponse) (requested : Limits)
    : HalResult unit :=
  let invalid message :=
    client_error "runtime.protocol.invalid_handshake" Conflict "runtime.protocol.handshake" false
      message in
  map_err (λ _, invalid "broker returned an invalid supported protocol minor range")
    (handshake_response_minor_range response) ≫= λ broker_range,
  let minor := hsr_protocol_minor response in
  if negb (hsr_protocol_major response =? PROTOCOL_MAJOR)
     || negb ((PROTOCOL_MINOR_MINIMUM <=? minor) && (minor <=? PROTOCOL_MINOR_MAXIMUM))
     || negb ((broker_range.1 <=? minor) && (minor <=? broker_range.2))
     || (hsr_max_frame_bytes response =? 0) || (lim_frame requested <? hsr_max_frame_bytes response)
     || (hsr_max_read_bytes response =? 0) || (lim_read requested <? hsr_max_read_bytes response)
     || (hsr_max_write_bytes response =? 0) || (lim_write requested <? hsr_max_write_bytes response)
     || negb (has_capability response SERIAL_CAPABILITY) then
    Err (invalid "broker returned invalid negotiated settings")
  else Ok tt.
Definition negotiated_limits (response : v1_HandshakeResponse) : Limits :=
  let has := has_capability response in
  mkLimits (hsr_protocol_minor response) (hsr_max_frame_bytes response)
    (hsr_max_read_bytes response) (hsr_max_write_bytes response)
    (has CAN_CLASSIC_CAPABILITY) (has CAN_FD_CAPABILITY) (has CAN_CONFIGURE_CAPABILITY)
    (has CAN_ERROR_FRAMES_CAPABILITY) (has CAN_RX_TIMESTAMP_CAPABILITY)
    (has USB_CONTROL_CAPABILITY) (has USB_BULK_CAPABILITY) (has USB_INTERRUPT_CAPABILITY)
    (has GPIO_LINES_CAPABILITY) (has GPIO_EDGES_CAPABILITY) (has CAMERA_CAPTURE_CAPABILITY)
    (has CAMERA_FRAMES_SHM_CAPABILITY) (has CAMERA_CONTROLS_CAPABILITY).
(** The handshake of [perform_handshake], with the token exposed to the message. *)
Definition handshake_request (o : ConnectionOptions) (requested : Limits) : Envelope :=
  mkEnvelope 1 (Some (HandshakeRequest (mk_v1_HandshakeRequest (co_startup_token o)
    PROTOCOL_MAJOR PROTOCOL_MINOR [SERIAL_CAPABILITY] (lim_frame requested mod 2 ^ 32)
    (lim_read requested mod 2 ^ 32) (lim_write requested mod 2 ^ 32)
    PROTOCOL_MINOR_MINIMUM PROTOCOL_MINOR_MAXIMUM))).
(** [std::io::Error]: its kind is [InvalidData], and its text. *)
Record IoError := mkIoError { io_invalid_data : bool; io_message : string }.
Definition frame_read_error (operation : string) (error : IoError) : HalError :=
  if io_invalid_data error then
    client_frame_too_large "inbound frame length prefix exceeds the active limit"
  else disconnected_error operation (io_message error).
(** The answer of the broker, once its frame is decoded. *)
Definition handshake_settle (requested : Limits) (response : Envelope) : HalResult Limits :=
  if negb (env_request_id response =? 1) then
    Err (client_error "runtime.protocol.unknown_response" Conflict "runtime.protocol.handshake" false
           "handshake response has an unknown request ID")
  else
    match env_payload response with
    | Some (HandshakeResponse response) =>
        validate_handshake_response response requested ≫= λ _, Ok (negotiated_limits response)
    | Some (PError error) => error_from_proto error ≫= λ error, Err error
    | _ =>
        Err (client_error "runtime.protocol.unexpected_response" InvalidArgument
               "runtime.protocol.handshake" false
               "broker returned a non-handshake response during negotiation")
    end.
Definition handshake_failed (name : string) (category : ErrorCategory) (message : string) : HalError :=
  client_error name category "runtime.protocol.handshake" false message.
(** Encoding and decoding are protobuf's; [sent] and [next] are what the socket answers. *)
Definition perform_handshake (encoded_len : Envelope → Z) (encode : Envelope → result string Bytes)
    (decode : Bytes → result string Envelope) (o : ConnectionOptions) (requested : Limits)
    (sent : result IoError unit) (next : option (result IoError Bytes)) : HalResult Limits :=
  let envelope := handshake_request o requested in
  if (lim_frame requested <? encoded_len envelope) || (MAX_FRAME_BYTES <? encoded_len envelope) then
    Err (client_frame_too_large "handshake envelope exceeds the offered frame limit")
  else
    map_err (handshake_failed "runtime.protocol.encode_failed" Internal) (encode envelope) ≫= λ _,
    map_err (λ e, disconnected_error "runtime.protocol.handshake" (io_message e)) sent ≫= λ _,
    ok_or (disconnected_error "runtime.protocol.handshake" "broker closed before handshake response")
      next ≫= λ frame,
    map_err (frame_read_error "runtime.protocol.handshake") frame ≫= λ frame,
    if (lim_frame requested <? len frame) || (MAX_FRAME_BYTES <? len frame) then
      Err (client_frame_too_large "handshake response exceeds the offered frame limit")
    else
      map_err (handshake_failed "runtime.protocol.invalid_message" InvalidArgument) (decode frame)
      ≫= handshake_settle requested.

(** ** What the negotiated capabilities allow *)
Definition client_require_capability (limits : Limits) (minor : Z) (message operation : string)
    (resource_id : option ResourceId) (supported : bool) : HalResult unit :=
  if (minor <=? lim_minor limits) && supported then Ok tt
  else Err (for_resource (client_error "runtime.protocol.capability_unsupported" Conflict operation
                            false message) resource_id).
Definition require_can_capability (limits : Limits) (operation : string)
    (resource_id : option ResourceId) (supported : Limits → bool) : HalResult unit :=
  client_require_capability limits 1
    "the negotiated broker protocol does not support this CAN operation" operation resource_id
    (supported limits).
Definition require_minor_two (limits : Limits) (operation : string)
    (resource_id : option ResourceId) (supported : Limits → bool) : HalResult unit :=
  client_require_capability limits 2
    "the negotiated broker protocol does not support this USB/GPIO operation" operation resource_id
    (supported limits).
Definition require_camera_capability (limits : Limits) (operation : string)
    (resource_id : option ResourceId) (supported : Limits → bool) : HalResult unit :=
  client_require_capability limits 3
    "the negotiated broker protocol does not support this Camera operation" operation resource_id
    (supported limits).
Definition require_usb_transfer (limits : Limits) (operation : string) (resource_id : ResourceId)
    (transfer : UsbTransfer) : HalResult unit :=
  require_minor_two limits operation (Some resource_id) (λ limits,
    match transfer with
    | ControlOut _ _ _ _ _ | ControlIn _ _ _ _ _ => lim_usb_control limits
    | BulkOut _ _ | BulkIn _ _ => lim_usb_bulk limits
    | InterruptOut _ _ | InterruptIn _ _ => lim_usb_interrupt limits
    end).
Definition require_gpio_edges (limits : Limits) (operation : string) (resource_id : ResourceId)
    : HalResult unit := require_minor_two limits operation (Some resource_id) lim_gpio_edges.
Definition require_camera_capture (limits : Limits) (operation : string) (resource_id : ResourceId)
    : HalResult unit := require_camera_capability limits operation (Some resource_id) lim_camera_capture.
Definition require_camera_frames_shm (limits : Limits) (operation : string) (resource_id : ResourceId)
    : HalResult unit :=
  require_camera_capability limits operation (Some resource_id) lim_camera_frames_shm.
Definition require_camera_controls (limits : Limits) (operation : string) (resource_id : ResourceId)
    : HalResult unit :=
  require_camera_capability limits operation (Some resource_id) lim_camera_controls.
(** The largest request id, so that the estimate holds for any. *)
Definition ensure_payload_fits (encoded_len : Envelope → Z) (limits : Limits) (payload : Payload)
    (operation : string) (resource_id : option ResourceId) : HalResult unit :=
  let envelope := mkEnvelope u64_max (Some payload) in
  if (encoded_len envelope <=? lim_frame limits) && (encoded_len envelope <=? MAX_FRAME_BYTES) then
    Ok tt
  else Err (for_resource (client_error "runtime.protocol.frame_too_large" InvalidArgument operation
              false "CAN request envelope exceeds the negotiated frame maximum") resource_id).

(** ** Opening a CAN session *)
Definition can_filters_supported (filters : CanFilterSet) (error_frames : bool) : bool :=
  negb (existsb (λ filter, cls_error (filter_classes filter)) (CanFilterSet_as_slice filters))
  || error_frames.
Definition can_mode_supported (config : CanOpenConfig) (configure classic fd : bool) : bool :=
  match config with
  | Attach expectation =>
      match exp_mode expectation with
      | Some Classic => classic
      | Some Fd => fd
      | None => classic || fd
      end
  | Configure config =>
      configure && match cfg_mode config with Classic => classic | Fd => fd end
  end.
Definition select_can_descriptor (resources : list ResourceDescriptor) (selector : ResourceSelector)
    : HalResult ResourceDescriptor :=
  let matches :=
    filter (λ resource, desc_id resource = sel_id selector ∧ desc_transport resource = Can ∧
              IdentityQuality_satisfies (desc_minimum_identity_quality resource)
                (sel_minimum_identity_quality selector) = true) resources in
  let error name category message :=
    Err (HalError_with_resource_id (client_error name category "can.open" false message)
           (sel_id selector)) in
  match matches with
  | [] => error "runtime.resource.not_found" NotFound
            "CAN resource selector did not match an enumerated descriptor"
  | [selected] => Ok selected
  | _ => error "runtime.resource.ambiguous" Conflict
           "CAN resource selector matched more than one enumerated descriptor"
  end.
Definition client_validate_can_open_capabilities (descriptor : ResourceDescriptor)
    (config : CanOpenConfig) (filters : CanFilterSet) : HalResult unit :=
  let has := CapabilitySet_contains (desc_capabilities descriptor) in
  if can_mode_supported config (has can_configure_capability) (has can_classic_capability)
       (has can_fd_capability)
     && can_filters_supported filters (has can_error_frames_capability) then Ok tt
  else Err (HalError_with_resource_id
              (client_error "runtime.protocol.capability_unsupported" Conflict "can.open" false
                 "the selected CAN resource does not support the requested configuration or filters")
              (desc_id descriptor)).
