(* ===== verification/ClientPreflight.v ===== *)
(** * robot-hal-client: what the preflight of a frame guarantees

    A frame that [preflight_inbound] lets through to the decoder is well formed down to the
    data of its serial and CAN messages, and within the limits negotiated and requested; and
    whatever it refuses is refused before anything is decoded. *)

From S2P Require Import Prelude Varint Core Lifecycle SerialRegistry CanTypes WireCore.
From S2P Require Import ClientWire ClientValidate.

(** ** Visitors of byte fields *)
Lemma wire_scalar_bytes field b input :
  wire_scalar field (WBytes b) input → Forall is_byte input → Forall is_byte b.
Proof. intros H. inversion H; subst. rewrite !Forall_app. tauto. Qed.
Lemma wire_fields_bytes d fields input :
  wire_fields d fields input → Forall is_byte input →
  ∀ f b, (f, WBytes b) ∈ fields → Forall is_byte b.
Proof.
  induction 1 as [d|d f v b fs bs Hs _ IH|d f f2 inner kb body eb fs bs _ _ _ _ _ _ _ IH];
    intros Hb f' b' Hin.
  - by apply not_elem_of_nil in Hin.
  - apply Forall_app in Hb as [Hb Hbs]. apply elem_of_cons in Hin as [[= -> <-]|Hin]; [|by eapply IH].
    by eapply wire_scalar_bytes.
  - rewrite !Forall_app in Hb. by eapply IH; [|done]; tauto.
Qed.
Lemma wire_bytes_of_elem n fields b : b ∈ wire_bytes_of n fields ↔ (n, WBytes b) ∈ fields.
Proof.
  unfold wire_bytes_of. rewrite list_elem_of_omap. split.
  - intros ([f v] & Hin & Hv). destruct v; try done. destruct (Z.eqb_spec f n) as [->|]; [|done].
    by injection Hv as <-.
  - intros Hin. exists (n, WBytes b). by rewrite Z.eqb_refl.
Qed.
Lemma on_bytes_fold {A} n (f : A → Bytes → HalResult A) acc fields :
  n < u32_max →
  try_fold (λ acc '(field, v), on_bytes n f acc (seen field) v) acc fields
  = try_fold f acc (wire_bytes_of n fields).
Proof.
  intros Hn. revert acc. induction fields as [|[field v] fields IH]; intros acc; [done|]. cbn [try_fold wire_bytes_of omap list_omap].
  destruct v as [v|b|]; cbn [on_bytes]; [apply IH| |apply IH].
  assert ((seen field =? n) = (field =? n)) as -> by (unfold seen; lia).
  destruct (Z.eqb_spec field n); cbn [try_fold]; [|apply IH]. destruct (f acc b); [apply IH|done].
Qed.
Lemma visit_bytes_Ok {A} n (f : A → Bytes → HalResult A) acc input acc' :
  n < u32_max → Forall is_byte input → visit_fields (on_bytes n f) acc input = Ok acc' →
  ∃ fields, wire_fields 0 fields input ∧ (∀ b, b ∈ wire_bytes_of n fields → Forall is_byte b) ∧
    try_fold f acc (wire_bytes_of n fields) = Ok acc'.
Proof.
  intros Hn Hb H. apply visit_fields_Ok in H as (fields & Hf & H); [|done]. exists fields.
  split_and!; [done| |by rewrite <- on_bytes_fold].
  intros b Hin%wire_bytes_of_elem. by eapply wire_fields_bytes.
Qed.
Lemma try_fold_unit {B} (f : unit → B → HalResult unit) l :
  try_fold f tt l = Ok tt → ∀ x, x ∈ l → f tt x = Ok tt.
Proof.
  induction l as [|y l IH]; intros H x Hx; [by apply not_elem_of_nil in Hx|]. cbn [try_fold] in H.
  destruct (f tt y) as [[]|] eqn:Hy; [|done]. apply elem_of_cons in Hx as [->|Hx]; [done|by apply IH].
Qed.

(** ** The data of a CAN receive response, from the wire format *)
Inductive can_frame_data : Bytes → list Bytes → Prop :=
  | can_frame_data_fields fields frame :
      wire_fields 0 fields frame → can_frame_data frame (wire_bytes_of 3 fields).
(** The data of a received frame (of each of its [frame] fields), and that it has a timestamp. *)
Inductive received_data : Bytes → list Bytes → bool → Prop :=
  | received_data_fields fields datas received :
      wire_fields 0 fields received → Forall2 can_frame_data (wire_bytes_of 1 fields) datas →
      received_data received (concat datas) (bool_decide (wire_bytes_of 2 fields ≠ [])).
Definition total_len (l : list Bytes) : Z := Z.of_nat (sum_list_with length l).
Lemma total_len_app a b : total_len (a ++ b) = total_len a + total_len b.
Proof. unfold total_len. rewrite sum_list_with_app. lia. Qed.

Lemma preflight_can_data_Ok n frame m : Forall is_byte frame → preflight_can_data n frame = Ok m →
  ∃ data, can_frame_data frame data ∧ m = n + total_len data.
Proof.
  intros Hb H. apply visit_bytes_Ok in H as (fields & Hf & _ & Hfold); [|done|done].
  exists (wire_bytes_of 3 fields). split; [by constructor|]. revert n Hfold. clear Hf Hb.
  induction (wire_bytes_of 3 fields) as [|b l IH]; intros n Hfold; cbn [try_fold] in Hfold.
  - injection Hfold as <-. unfold total_len. cbn. lia.
  - destruct (checked_add _ _ _) as [k|] eqn:Hk; [|done]. cbn [ok_or] in Hfold. apply IH in Hfold.
    unfold checked_add in Hk. case_match; [|done]. injection Hk as <-.
    unfold total_len, len in *. cbn [sum_list_with]. lia.
Qed.
Lemma preflight_received_Ok counts received counts' :
  Forall is_byte received → preflight_received counts received = Ok counts' →
  ∃ data stamped, received_data received data stamped ∧
    counts' = (counts.1.1 + 1, counts.1.2 + total_len data, counts.2 || stamped).
Proof.
  destruct counts as [[n p] t]. intros Hb H. unfold preflight_received in H.
  destruct (checked_add usize_max n 1) as [n'|] eqn:Hn; [|done]. cbn [ok_or mbind result_bind] in H.
  unfold checked_add in Hn. case_match; [|done]. injection Hn as <-.
  apply visit_fields_Ok in H as (fields & Hf & H); [|done]. cbn [fst snd].
  pose proof (wire_fields_bytes _ _ _ Hf Hb) as Hbytes.
  enough (∃ datas, Forall2 can_frame_data (wire_bytes_of 1 fields) datas ∧
    counts' = (n + 1, p + total_len (concat datas), t || bool_decide (wire_bytes_of 2 fields ≠ [])))
    as (datas & Hd & ->) by (eexists _, _; split; [by econstructor|done]).
  clear Hf Hb. revert p t H. induction fields as [|[f v] fields IH]; intros p t H; cbn [try_fold] in H.
  { injection H as <-. exists []. split; [constructor|]. unfold total_len. cbn. by rewrite orb_false_r, Z.add_0_r. }
  specialize (IH (λ f b Hin, Hbytes f b (list_elem_of_further _ _ _ Hin))).
  cbn [wire_bytes_of omap list_omap]. fold (wire_bytes_of 1 fields). fold (wire_bytes_of 2 fields).
  destruct v as [v|b|]; [by apply IH| |by apply IH].
  assert ((seen f =? 1) = (f =? 1)) as Hs1 by (unfold seen, u32_max; lia).
  assert ((seen f =? 2) = (f =? 2)) as Hs2 by (unfold seen, u32_max; lia).
  rewrite Hs1, Hs2 in H. clear Hs1 Hs2.
  destruct (Z.eqb_spec f 1) as [->|Hf1]; [|destruct (Z.eqb_spec f 2) as [->|Hf2]; [|by apply IH]].
  - destruct (preflight_can_data p b) as [p'|] eqn:Hp; [|done]. cbn [mbind result_bind] in H.
    apply preflight_can_data_Ok in Hp as (data & Hdata & ->); [|by eapply Hbytes; left].
    apply IH in H as (datas & Hds & ->). exists (data :: datas). split; [by constructor|].
    cbn [concat]. rewrite total_len_app. f_equal. f_equal. lia.
  - apply IH in H as (datas & Hds & ->). exists datas. split; [done|].
    f_equal. cbn. by rewrite orb_true_r.
Qed.
Lemma preflight_receive_Ok counts l counts' :
  (∀ b, b ∈ l → Forall is_byte b) → try_fold preflight_received counts l = Ok counts' →
  ∃ received, Forall2 (λ b r, received_data b r.1 r.2) l received ∧
    counts' = (counts.1.1 + len received, counts.1.2 + total_len (concat (fst <$> received)),
               counts.2 || existsb snd received).
Proof.
  revert counts. induction l as [|b l IH]; intros counts Hb H; cbn [try_fold] in H.
  - injection H as <-. exists []. split; [constructor|]. destruct counts as [[n p] t]. unfold total_len, len.
    cbn. by rewrite !Z.add_0_r, orb_false_r.
  - destruct (preflight_received counts b) as [c1|] eqn:H1; [|done].
    apply preflight_received_Ok in H1 as (data & stamped & Hd & ->); [|by apply Hb; left].
    apply IH in H as (received & Hr & ->); [|intros; apply Hb; by right].
    exists ((data, stamped) :: received). split; [by constructor|]. cbn [fst snd fmap list_fmap concat existsb].
    rewrite total_len_app, orb_assoc. f_equal; try done.
    f_equal; [unfold len; cbn [length]; lia|lia].
Qed.

(** A frame that passes the preflight has, in the wire format, only serial data within
    the negotiated limit and, when it answers a read, within what the read asked; and when it
    answers a CAN receive, no more frames and bytes of payload than were asked for, and no
    timestamp on a session without timestamps. *)
Theorem preflight_bounds frame negotiated_read expected_of :
  Forall is_byte frame → preflight_inbound frame negotiated_read expected_of = Ok tt →
  ∃ id fields, preflight_request_id frame = Ok id ∧ wire_fields 0 fields frame ∧
  (∀ read, read ∈ wire_bytes_of 25 fields →
     ∃ inner, wire_fields 0 inner read ∧ ∀ data, data ∈ wire_bytes_of 1 inner →
       len data <= negotiated_read ∧
       ∀ max, expected_of id = Some (ExpSerialRead max) → len data <= max) ∧
  (∀ response, response ∈ wire_bytes_of 57 fields →
     ∃ inner received, wire_fields 0 inner response ∧
       Forall2 (λ b r, received_data b r.1 r.2) (wire_bytes_of 1 inner) received ∧
       ∀ max_frames max_bytes profile,
         expected_of id = Some (ExpCanReceive max_frames max_bytes profile) →
         len received <= max_frames ∧ total_len (concat (fst <$> received)) <= max_bytes ∧
         (existsb snd received = true → sp_timestamps profile = true)).
Proof.
  intros Hb H. unfold preflight_inbound in H.
  destruct (preflight_request_id frame) as [id|] eqn:Hid; [|done]. cbn [mbind result_bind] in H.
  destruct (preflight_read _ _ _) as [[]|] eqn:Hread; [|done]. cbn [mbind result_bind] in H.
  apply visit_bytes_Ok in Hread as (fields & Hf & Hbytes & Hread); [|done|done].
  apply visit_bytes_Ok in H as (fields' & Hf' & Hbytes' & H); [|done|done].
  pose proof (visit_fields_wire (λ acc f v, Ok (acc ++ [(f, v)])) [] fields frame Hf) as Hv.
  rewrite (visit_fields_wire _ _ fields' frame Hf') in Hv.
  rewrite !try_fold_told in Hv. injection Hv as Hv.
  assert (wire_bytes_of 57 fields' = wire_bytes_of 57 fields) as E57
    by (rewrite <- (wire_bytes_of_told 57 fields'), <- (wire_bytes_of_told 57 fields), Hv by done; done).
  rewrite E57 in *. exists id, fields. split_and!; try done.
  - intros read Hin. pose proof (try_fold_unit _ _ Hread _ Hin) as Hr.
    apply visit_bytes_Ok in Hr as (inner & Hi & _ & Hr); [|done|by apply Hbytes].
    exists inner. split; [done|]. intros data Hd. pose proof (try_fold_unit _ _ Hr _ Hd) as Hdata. cbv beta in Hdata.
    destruct (_ || _) eqn:Hor in Hdata; [done|]. bool_simp. split; [lia|]. intros max Hmax.
    rewrite Hmax in *. cbn [is_some_and] in *. bool_simp. lia.
  - intros response Hin. pose proof (try_fold_unit _ _ H _ Hin) as Hr. cbv beta in Hr.
    destruct (visit_fields _ _ response) as [[[n p] t]|] eqn:Hc; [|done]. cbn [mbind result_bind] in Hr.
    apply visit_bytes_Ok in Hc as (inner & Hi & Hib & Hc); [|done|by apply Hbytes'].
    apply preflight_receive_Ok in Hc as (received & Hrc & Heq); [|done]. cbn [fst snd] in Heq.
    exists inner, received. split_and!; [done|done|]. intros mf mb profile Hexp. rewrite Hexp in Hr.
    injection Heq as -> -> ->. rewrite ?orb_false_l, ?Z.add_0_l in Hr.
    destruct (_ || _) eqn:Hor in Hr; [done|]. bool_simp. split_and!; [lia|lia|].
    intros Hst. rewrite Hst in Hr. by destruct (sp_timestamps profile).
Qed.
(** The answer to a serial read of at most two bytes. *)
Lemma preflight_bounds_witness :
  ∃ id fields, preflight_request_id [8; 7; 202; 1; 4; 10; 2; 65; 66] = Ok id ∧
    wire_fields 0 fields [8; 7; 202; 1; 4; 10; 2; 65; 66].
Proof.
  destruct (preflight_bounds [8; 7; 202; 1; 4; 10; 2; 65; 66] 4 (λ _, Some (ExpSerialRead 2)))
    as (id & fields & Hid & Hf & _).
  - refine (proj1 (bool_decide_eq_true _) _). vm_compute. reflexivity.
  - vm_compute. reflexivity.
  - exists id, fields. exact (conj Hid Hf).
Defined.
