(* ===== verification/ClientConnection.v ===== *)
(** * robot-hal-client: the connection

    Models the request correlation of crates/robot-hal-client/src/connection.rs: requests
    of any number of callers, their cancellation, the reader and writer tasks and the
    termination of the connection.  A critical section under the [requests] mutex is one
    step, as is each channel operation; between them anything may happen ([client_exec]).

    A oneshot reply channel is named by the number of the call that made it.  The protobuf
    codec is a parameter, as are the answers of the socket. *)

From S2P Require Import Prelude Core Lifecycle SerialRegistry CanTypes WireCore Envelope.
From S2P Require Import ClientWire ClientValidate.

(** ** The state of the requests *)
Record PendingRequest := mkPendingRequest { pr_expected : ExpectedResponse; pr_reply : nat }.
Inductive CorrelatedResponse :=
  | CorrelatedPending (pending : PendingRequest)
  | CorrelatedCancelled (expected : ExpectedResponse).
Record RequestState := mkRequestState {
  rs_next_request_id : Z;
  rs_pending : gmap Z PendingRequest;
  rs_cancelled : gmap Z ExpectedResponse;
  rs_completed : gset Z;
  rs_completed_order : list Z;
  rs_terminal : option HalError;
}.
Definition RequestState_initial : RequestState := mkRequestState 2 ∅ ∅ {[1]} [1] None.
Definition take_request_id (s : RequestState) : RequestState * HalResult Z :=
  let request_id := rs_next_request_id s in
  if request_id =? 0 then
    (s, Err (client_error "runtime.protocol.request_id_exhausted" Internal "runtime.client.request"
               false "request ID space is exhausted"))
  else
    (mkRequestState (default 0 (checked_add u64_max request_id 1)) (rs_pending s) (rs_cancelled s)
       (rs_completed s) (rs_completed_order s) (rs_terminal s), Ok request_id).
Definition rs_set_pending (s : RequestState) (pending : gmap Z PendingRequest) : RequestState :=
  mkRequestState (rs_next_request_id s) pending (rs_cancelled s) (rs_completed s)
    (rs_completed_order s) (rs_terminal s).
Definition rs_set_cancelled (s : RequestState) (cancelled : gmap Z ExpectedResponse) : RequestState :=
  mkRequestState (rs_next_request_id s) (rs_pending s) cancelled (rs_completed s)
    (rs_completed_order s) (rs_terminal s).
(** The first critical section of [request]. *)
Definition request_admit (pending_capacity : Z) (s : RequestState) (expected : ExpectedResponse)
    (reply : nat) : RequestState * HalResult Z :=
  match rs_terminal s with
  | Some error => (s, Err error)
  | None =>
      if pending_capacity <=? Z.of_nat (size (rs_pending s)) then
        (s, Err (client_error "runtime.queue.full" Unavailable "runtime.client.request" true
                   "client pending request storage is full"))
      else
        match take_request_id s with
        | (s, Err e) => (s, Err e)
        | (s, Ok request_id) =>
            (rs_set_pending s (<[request_id := mkPendingRequest expected reply]> (rs_pending s)),
             Ok request_id)
        end
  end.
Definition remove_pending (s : RequestState) (request_id : Z) : RequestState :=
  rs_set_pending s (delete request_id (rs_pending s)).
Fixpoint evict_completed (capacity : Z) (completed : gset Z) (order : list Z) : gset Z * list Z :=
  match order with
  | [] => (completed, [])
  | oldest :: rest =>
      if capacity <? len order then evict_completed capacity (completed ∖ {[oldest]}) rest
      else (completed, order)
  end.
Definition remember_completed (s : RequestState) (request_id capacity : Z) : RequestState :=
  let order :=
    if bool_decide (request_id ∈ rs_completed s) then rs_completed_order s
    else rs_completed_order s ++ [request_id] in
  let '(completed, order) := evict_completed capacity ({[request_id]} ∪ rs_completed s) order in
  mkRequestState (rs_next_request_id s) (rs_pending s) (rs_cancelled s) completed order
    (rs_terminal s).
(** The replies come in the order of a [HashMap]'s [drain]; they are sent in any order
    below. *)
Definition begin_termination (s : RequestState) (error : HalError)
    (extra : option (Z * PendingRequest)) : RequestState * option (list nat) :=
  match rs_terminal s with
  | Some _ => (s, None)
  | None =>
      let pending := map_to_list (rs_pending s) ++ option_list extra in
      (mkRequestState (rs_next_request_id s) ∅
         (foldl (λ cancelled '(id, p), <[id := pr_expected p]> cancelled) (rs_cancelled s) pending)
         (rs_completed s) (rs_completed_order s) (Some error),
       Some ((λ p, pr_reply p.2) <$> pending))
  end.
Definition cancelled_full : HalError :=
  client_error "runtime.queue.cancelled_full" Unavailable "runtime.client.cancel" false
    "cancelled request tracking is full".
(** [CancellationGuard::drop]: the state, and the termination it has begun. *)
Definition guard_drop (tombstone_capacity : Z) (s : RequestState) (request_id : Z)
    : RequestState * option (HalError * list nat) :=
  match rs_pending s !! request_id with
  | None => (s, None)
  | Some pending =>
      let s := remove_pending s request_id in
      if tombstone_capacity <=? Z.of_nat (size (rs_cancelled s)) then
        match begin_termination s cancelled_full (Some (request_id, pending)) with
        | (s, Some replies) => (s, Some (cancelled_full, replies))
        | (s, None) => (s, None)
        end
      else (rs_set_cancelled s (<[request_id := pr_expected pending]> (rs_cancelled s)), None)
  end.
(** The reader's critical section for a response. *)
Definition correlate (tombstone_capacity : Z) (s : RequestState) (request_id : Z)
    : RequestState * HalResult CorrelatedResponse :=
  match rs_pending s !! request_id with
  | Some pending =>
      (remember_completed (remove_pending s request_id) request_id tombstone_capacity,
       Ok (CorrelatedPending pending))
  | None =>
      match rs_cancelled s !! request_id with
      | Some expected =>
          (remember_completed (rs_set_cancelled s (delete request_id (rs_cancelled s))) request_id
             tombstone_capacity, Ok (CorrelatedCancelled expected))
      | None =>
          (s, Err (if bool_decide (request_id ∈ rs_completed s) then
                     client_error "runtime.protocol.duplicate_response" Conflict
                       "runtime.protocol.read" false "broker sent a duplicate response"
                   else
                     client_error "runtime.protocol.unknown_response" Conflict
                       "runtime.protocol.read" false "broker sent an unknown response ID"))
      end
  end.
Definition expected_of (s : RequestState) (request_id : Z) : option ExpectedResponse :=
  match rs_pending s !! request_id with
  | Some pending => Some (pr_expected pending)
  | None => rs_cancelled s !! request_id
  end.

(** ** What the reader makes of a response *)
(** The result for a waiting caller. *)
Definition settle_pending (expected : ExpectedResponse) (payload : option Payload)
    : HalResult Payload :=
  match payload with
  | Some (PError error) =>
      error_from_proto error ≫= λ error, Err (attach_expected error expected)
  | Some payload => validate_response expected payload ≫= λ _, Ok payload
  | None => Err unexpected_response
  end.
(** The errors of a result that end the connection. *)
Definition settle_terminal (result : HalResult Payload) : option HalError :=
  match result with
  | Err error =>
      if bool_decide (ErrorName_as_str (err_name error) ∈
           ["runtime.protocol.unexpected_response"; "runtime.protocol.invalid_message"])
      then Some error else None
  | Ok _ => None
  end.
Definition settle_cancelled (expected : ExpectedResponse) (payload : option Payload)
    : HalResult unit :=
  match payload with
  | Some (PError error) =>
      map_err (λ error, attach_expected error expected) ((λ _, tt) <$> error_from_proto error)
  | Some payload => validate_response expected payload
  | None => Err (for_resource unexpected_response (ExpectedResponse_resource_id expected))
  end.
Record ClientEvent := mkClientEvent {
  ce_sequence : Z;
  ce_name : string;
  ce_resource_id : string;
  ce_session_id : string;
  ce_lease_generation : Z;
}.
(** A message with request id zero: what is broadcast. *)
Definition client_event (payload : option Payload) : HalResult (HalResult ClientEvent) :=
  match payload with
  | Some (PRuntimeEvent event) =>
      if (wev_sequence event =? 0) || negb ((1 <=? wev_kind event) && (wev_kind event <=? 8)) then
        Err (client_error "runtime.protocol.invalid_message" InvalidArgument
               "runtime.protocol.decode" false "runtime event metadata is invalid")
      else
        Ok (Ok (mkClientEvent (wev_sequence event) (wev_name event) (wev_resource_id event)
                  (wev_session_id event) (wev_lease_generation event)))
  | Some (PError error) => error_from_proto error ≫= λ error, Ok (Err error)
  | _ =>
      Err (client_error "runtime.protocol.invalid_message" InvalidArgument "runtime.protocol.read"
             false "request ID zero is reserved for events")
  end.

(** One turn of [EventSubscription::recv]: [tried] and [selected] are the answers of tokio's
    broadcast channel, to [try_recv] ([None]: empty) and in the [select!] ([None]: the shutdown
    signal has changed); [None] is another turn. *)
Inductive RecvAnswer :=
  | RecvValue (value : HalResult ClientEvent) | RecvLagged (skipped : Z) | RecvClosed.
Definition event_lagged_error (skipped : Z) : HalError :=
  client_error "runtime.event.lagged" Unavailable "runtime.event.receive" true
    ("event subscriber fell behind by " +:+ to_string skipped +:+ " events").
Definition event_closed_error : HalError :=
  client_error "runtime.event.closed" Unavailable "runtime.event.receive" false
    "the client event stream is closed".
Definition recv_result (answer : RecvAnswer) : HalResult ClientEvent :=
  match answer with
  | RecvValue value => value
  | RecvLagged skipped => Err (event_lagged_error skipped)
  | RecvClosed => Err event_closed_error
  end.
Definition subscription_turn (tried : option RecvAnswer) (shutdown : bool)
    (selected : option RecvAnswer) : option (HalResult ClientEvent) :=
  match tried with
  | Some answer => Some (recv_result answer)
  | None => if shutdown then Some (Err event_closed_error) else recv_result <$> selected
  end.

(** ** The tasks of a connection *)
Record Outbound := mkOutbound { ob_envelope : Envelope; ob_frame_limit : Z }.
Inductive ReaderPhase :=
  | RTop | RWait
  | RGot (frame : Bytes)
  | RPreflight (frame : Bytes)
  | RDecode (frame : Bytes)
  | REnvelope (envelope : Envelope)
  | RSettle (pending : PendingRequest) (payload : option Payload)
  | RLate (expected : ExpectedResponse) (payload : option Payload)
  | RTerminate (error : HalError)
  | RDone.
Inductive WriterPhase :=
  | WIdle
  | WGot (outbound : Outbound)
  | WSend (wire : Bytes)
  | WTerminate (error : HalError)
  | WDone.
(** Where a call of [request] stands; [CallWait] holds its [CancellationGuard]. *)
Inductive CallPhase :=
  | CallSubmit (request_id frame_limit : Z) (payload : Payload)
  | CallRemove (request_id : Z) (error : HalError)
  | CallWait (request_id : Z)
  | CallDone (result : HalResult Payload)
  | CallDropped.
(** [cl_replies] are the oneshot channels that hold a value, [cl_finishing] the replies a
    termination has still to send.  Ghost: [cl_asked], what each call asked, with the request id it was
    given; [cl_events], all that was broadcast; [cl_wire], all that was written;
    [cl_correlated], the responses matched with a request. *)
Record Client := mkClient {
  cl_limits : Limits;
  cl_capacity : Z;
  cl_writer_capacity : Z;
  cl_requests : RequestState;
  cl_writer : list Outbound;
  cl_writer_phase : WriterPhase;
  cl_reader : ReaderPhase;
  cl_shutdown : bool;
  cl_finishing : list (HalError * list nat);
  cl_calls : list CallPhase;
  cl_replies : gmap nat (HalResult Payload);
  cl_asked : list (option Z * Payload * ExpectedResponse);
  cl_events : list (HalResult ClientEvent);
  cl_wire : list Bytes;
  cl_correlated : list (Z * option Payload);
}.
Definition with_requests (c : Client) (s : RequestState) : Client :=
  mkClient (cl_limits c) (cl_capacity c) (cl_writer_capacity c) s (cl_writer c)
    (cl_writer_phase c) (cl_reader c) (cl_shutdown c) (cl_finishing c) (cl_calls c) (cl_replies c)
    (cl_asked c) (cl_events c) (cl_wire c) (cl_correlated c).
Definition with_queue (c : Client) (queue : list Outbound) : Client :=
  mkClient (cl_limits c) (cl_capacity c) (cl_writer_capacity c) (cl_requests c) queue
    (cl_writer_phase c) (cl_reader c) (cl_shutdown c) (cl_finishing c) (cl_calls c) (cl_replies c)
    (cl_asked c) (cl_events c) (cl_wire c) (cl_correlated c).
Definition with_writer (c : Client) (phase : WriterPhase) : Client :=
  mkClient (cl_limits c) (cl_capacity c) (cl_writer_capacity c) (cl_requests c) (cl_writer c)
    phase (cl_reader c) (cl_shutdown c) (cl_finishing c) (cl_calls c) (cl_replies c)
    (cl_asked c) (cl_events c) (cl_wire c) (cl_correlated c).
Definition with_reader (c : Client) (phase : ReaderPhase) : Client :=
  mkClient (cl_limits c) (cl_capacity c) (cl_writer_capacity c) (cl_requests c) (cl_writer c)
    (cl_writer_phase c) phase (cl_shutdown c) (cl_finishing c) (cl_calls c) (cl_replies c)
    (cl_asked c) (cl_events c) (cl_wire c) (cl_correlated c).
Definition with_shutdown (c : Client) : Client :=
  mkClient (cl_limits c) (cl_capacity c) (cl_writer_capacity c) (cl_requests c) (cl_writer c)
    (cl_writer_phase c) (cl_reader c) true (cl_finishing c) (cl_calls c) (cl_replies c)
    (cl_asked c) (cl_events c) (cl_wire c) (cl_correlated c).
Definition with_finishing (c : Client) (finishing : list (HalError * list nat)) : Client :=
  mkClient (cl_limits c) (cl_capacity c) (cl_writer_capacity c) (cl_requests c) (cl_writer c)
    (cl_writer_phase c) (cl_reader c) (cl_shutdown c) finishing (cl_calls c) (cl_replies c)
    (cl_asked c) (cl_events c) (cl_wire c) (cl_correlated c).
Definition with_calls (c : Client) (calls : list CallPhase) : Client :=
  mkClient (cl_limits c) (cl_capacity c) (cl_writer_capacity c) (cl_requests c) (cl_writer c)
    (cl_writer_phase c) (cl_reader c) (cl_shutdown c) (cl_finishing c) calls (cl_replies c)
    (cl_asked c) (cl_events c) (cl_wire c) (cl_correlated c).
(** A oneshot channel takes one value; [send] on a dropped receiver is ignored. *)
Definition send_reply (c : Client) (reply : nat) (result : HalResult Payload) : Client :=
  mkClient (cl_limits c) (cl_capacity c) (cl_writer_capacity c) (cl_requests c) (cl_writer c)
    (cl_writer_phase c) (cl_reader c) (cl_shutdown c) (cl_finishing c) (cl_calls c)
    (<[reply := result]> (cl_replies c)) (cl_asked c) (cl_events c) (cl_wire c) (cl_correlated c).
Definition new_call (c : Client) (phase : CallPhase)
    (asked : option Z * Payload * ExpectedResponse) : Client :=
  mkClient (cl_limits c) (cl_capacity c) (cl_writer_capacity c) (cl_requests c) (cl_writer c)
    (cl_writer_phase c) (cl_reader c) (cl_shutdown c) (cl_finishing c) (cl_calls c ++ [phase])
    (cl_replies c) (cl_asked c ++ [asked]) (cl_events c) (cl_wire c) (cl_correlated c).
Definition broadcast (c : Client) (event : HalResult ClientEvent) : Client :=
  mkClient (cl_limits c) (cl_capacity c) (cl_writer_capacity c) (cl_requests c) (cl_writer c)
    (cl_writer_phase c) (cl_reader c) (cl_shutdown c) (cl_finishing c) (cl_calls c) (cl_replies c)
    (cl_asked c) (cl_events c ++ [event]) (cl_wire c) (cl_correlated c).
Definition write_wire (c : Client) (wire : Bytes) : Client :=
  mkClient (cl_limits c) (cl_capacity c) (cl_writer_capacity c) (cl_requests c) (cl_writer c)
    (cl_writer_phase c) (cl_reader c) (cl_shutdown c) (cl_finishing c) (cl_calls c) (cl_replies c)
    (cl_asked c) (cl_events c) (cl_wire c ++ [wire]) (cl_correlated c).
Definition note_correlated (c : Client) (response : Z * option Payload) : Client :=
  mkClient (cl_limits c) (cl_capacity c) (cl_writer_capacity c) (cl_requests c) (cl_writer c)
    (cl_writer_phase c) (cl_reader c) (cl_shutdown c) (cl_finishing c) (cl_calls c) (cl_replies c)
    (cl_asked c) (cl_events c) (cl_wire c) (cl_correlated c ++ [response]).
(** [from_io], after the handshake. *)
Definition Client_new (options : ConnectionOptions) (negotiated : Limits) : Client :=
  mkClient negotiated (co_pending_capacity options) (co_writer_capacity options)
    RequestState_initial [] WIdle RTop false [] [] ∅ [] [] [] [].

(** [connect]; [connected] is what the socket or pipe answers. *)
Definition connect (encoded_len : Envelope → Z) (encode : Envelope → result string Bytes)
    (decode : Bytes → result string Envelope) (options : ConnectionOptions)
    (connected : result string unit) (sent : result IoError unit)
    (next : option (result IoError Bytes)) : HalResult Client :=
  validate_options options ≫= λ _,
  map_err (disconnected_error "runtime.broker.connect") connected ≫= λ _,
  perform_handshake encoded_len encode decode options (requested_limits options) sent next
  ≫= λ negotiated, Ok (Client_new options negotiated).

(** [terminate], up to the replies it has to send. *)
Definition client_terminate (c : Client) (error : HalError) : Client :=
  match begin_termination (cl_requests c) error None with
  | (s, Some replies) =>
      with_finishing (with_requests c s) (cl_finishing c ++ [(error, replies)])
  | (s, None) => with_requests c s
  end.
Definition set_call (c : Client) (call : nat) (phase : CallPhase) : Client :=
  with_calls c (<[call := phase]> (cl_calls c)).

(** [HalClient::request] up to its first critical section. *)
Definition request_begin (c : Client) (payload : Payload) (expected : ExpectedResponse) : Client :=
  let call := length (cl_calls c) in
  match request_admit (cl_capacity c) (cl_requests c) expected call with
  | (s, Err error) => new_call (with_requests c s) (CallDone (Err error)) (None, payload, expected)
  | (s, Ok request_id) =>
      new_call (with_requests c s) (CallSubmit request_id (lim_frame (cl_limits c)) payload)
        (Some request_id, payload, expected)
  end.

Section codec.
  Context (encoded_len : Envelope → Z) (encode : Envelope → result string Bytes)
    (decode : Bytes → result string Envelope).

(** The length check of [request] and its [try_send]. *)
Definition request_submit (c : Client) (call : nat) : option Client :=
  match cl_calls c !! call with
  | Some (CallSubmit request_id frame_limit payload) =>
      let envelope := mkEnvelope request_id (Some payload) in
      if (frame_limit <? encoded_len envelope) || (MAX_FRAME_BYTES <? encoded_len envelope) then
        Some (set_call c call (CallRemove request_id
          (client_frame_too_large "outbound envelope exceeds the active frame limit")))
      else
        match cl_writer_phase c with
        | WDone =>
            Some (set_call c call (CallRemove request_id
              (disconnected_error "runtime.protocol.write" "client writer task is not available")))
        | _ =>
            if cl_writer_capacity c <=? len (cl_writer c) then
              Some (set_call c call (CallRemove request_id
                (client_error "runtime.queue.full" Unavailable "runtime.protocol.write" true
                   "client writer queue is full")))
            else
              Some (set_call (with_queue c (cl_writer c ++ [mkOutbound envelope frame_limit])) call
                      (CallWait request_id))
        end
  | _ => None
  end.
Definition request_remove (c : Client) (call : nat) : option Client :=
  match cl_calls c !! call with
  | Some (CallRemove request_id error) =>
      Some (set_call (with_requests c (remove_pending (cl_requests c) request_id)) call
              (CallDone (Err error)))
  | _ => None
  end.
(** [reply_rx.await]: [None] while the channel holds no value. *)
Definition request_receive (c : Client) (call : nat) : option Client :=
  match cl_calls c !! call with
  | Some (CallWait _) =>
      match cl_replies c !! call with
      | Some result => Some (set_call c call (CallDone result))
      | None => None
      end
  | _ => None
  end.
(** The caller drops the future while it waits. *)
Definition request_cancel (c : Client) (call : nat) : option Client :=
  match cl_calls c !! call with
  | Some (CallWait request_id) =>
      match guard_drop (cl_capacity c) (cl_requests c) request_id with
      | (s, finishing) =>
          Some (with_finishing (set_call (with_requests c s) call CallDropped)
                  (cl_finishing c ++ option_list finishing))
      end
  | _ => None
  end.
(** [finish_termination]: one of its replies, in any order, then the shutdown signal. *)
Definition finish_step (c : Client) (job reply : nat) : option Client :=
  match cl_finishing c !! job with
  | Some (error, replies) =>
      match replies with
      | [] => Some (with_shutdown (with_finishing c (delete job (cl_finishing c))))
      | _ =>
          match replies !! reply with
          | Some call =>
              Some (send_reply (with_finishing c
                (<[job := (error, delete reply replies)]> (cl_finishing c))) call (Err error))
          | None => None
          end
      end
  | None => None
  end.

Inductive ReaderInput := FrameIn (frame : Bytes) | FrameError (error : IoError) | FrameEnd.
(** [reader_task] between two points where it may be interleaved. *)
Definition reader_step (c : Client) (input : ReaderInput) : option Client :=
  let s := cl_requests c in
  match cl_reader c with
  | RTop => Some (with_reader c (if is_some (rs_terminal s) then RDone else RWait))
  | RWait =>
      if cl_shutdown c then Some (with_reader c RDone)
      else
        Some (with_reader c
          match input with
          | FrameIn frame => RGot frame
          | FrameError error => RTerminate (frame_read_error "runtime.protocol.read" error)
          | FrameEnd =>
              RTerminate (disconnected_error "runtime.protocol.read" "broker closed the connection")
          end)
  | RGot frame => Some (with_reader c (if is_some (rs_terminal s) then RDone else RPreflight frame))
  | RPreflight frame =>
      Some (with_reader c
        (if (lim_frame (cl_limits c) <? len frame) || (MAX_FRAME_BYTES <? len frame) then
           RTerminate (client_frame_too_large "inbound frame exceeds the active frame limit")
         else
           match preflight_inbound frame (lim_read (cl_limits c)) (expected_of s) with
           | Ok _ => RDecode frame
           | Err error => RTerminate error
           end))
  | RDecode frame =>
      Some (with_reader c
        match rs_terminal s with
        | Some _ => RDone
        | None =>
            match decode frame with
            | Ok envelope => REnvelope envelope
            | Err message =>
                RTerminate (client_error "runtime.protocol.invalid_message" InvalidArgument
                              "runtime.protocol.decode" false message)
            end
        end)
  | REnvelope envelope =>
      let request_id := env_request_id envelope in
      if request_id =? 0 then
        match client_event (env_payload envelope) with
        | Ok event => Some (with_reader (broadcast c event) RTop)
        | Err error => Some (with_reader c (RTerminate error))
        end
      else
        match rs_terminal s with
        | Some _ => Some (with_reader c RDone)
        | None =>
            let payload := env_payload envelope in
            match correlate (cl_capacity c) s request_id with
            | (s, Ok correlated) =>
                Some (with_reader (note_correlated (with_requests c s) (request_id, payload))
                  match correlated with
                  | CorrelatedPending pending => RSettle pending payload
                  | CorrelatedCancelled expected => RLate expected payload
                  end)
            | (s, Err error) => Some (with_reader (with_requests c s) (RTerminate error))
            end
        end
  | RSettle pending payload =>
      let result := settle_pending (pr_expected pending) payload in
      Some (with_reader (send_reply c (pr_reply pending) result)
        match settle_terminal result with Some error => RTerminate error | None => RTop end)
  | RLate expected payload =>
      Some (with_reader c
        match settle_cancelled expected payload with Ok _ => RTop | Err error => RTerminate error end)
  | RTerminate error => Some (with_reader (client_terminate c error) RDone)
  | RDone => None
  end.

(** [writer_task]; [sent] is the answer of the socket, [stop] that the shutdown branch of a
    [select!] is taken.  On leaving its loop the task drops the queue. *)
Definition writer_stop (c : Client) : Client := with_writer (with_queue c []) WDone.
Definition writer_step (c : Client) (stop : bool) (sent : result IoError unit) : option Client :=
  match cl_writer_phase c with
  | WIdle =>
      if stop then if cl_shutdown c then Some (writer_stop c) else None
      else match cl_writer c with
           | outbound :: queue => Some (with_writer (with_queue c queue) (WGot outbound))
           | [] => None
           end
  | WGot outbound =>
      let length := encoded_len (ob_envelope outbound) in
      Some (with_writer c
        (if (ob_frame_limit outbound <? length) || (MAX_FRAME_BYTES <? length) then
           WTerminate (client_frame_too_large "writer rejected an oversized envelope")
         else
           match encode (ob_envelope outbound) with
           | Ok wire => WSend wire
           | Err message =>
               WTerminate (client_error "runtime.protocol.encode_failed" Internal
                             "runtime.protocol.write" false message)
           end))
  | WSend wire =>
      if stop then if cl_shutdown c then Some (writer_stop c) else None
      else match sent with
           | Ok _ => Some (with_writer (write_wire c wire) WIdle)
           | Err error =>
               Some (with_writer c
                 (WTerminate (disconnected_error "runtime.protocol.write" (io_message error))))
           end
  | WTerminate error => Some (writer_stop (client_terminate c error))
  | WDone => None
  end.

(** [abort] takes effect at an [await] of the task: where it waits for a frame, a request or
    the socket. *)
Definition abort_reader (c : Client) : option Client :=
  match cl_reader c with RWait => Some (with_reader c RDone) | _ => None end.
Definition abort_writer (c : Client) : option Client :=
  match cl_writer_phase c with WIdle | WSend _ => Some (writer_stop c) | _ => None end.

Inductive ClientOp :=
  | OpRequest (payload : Payload) (expected : ExpectedResponse)
  | OpSubmit (call : nat)
  | OpRemove (call : nat)
  | OpReceive (call : nat)
  | OpCancel (call : nat)
  | OpFinish (job reply : nat)
  | OpReader (input : ReaderInput)
  | OpWriter (stop : bool) (sent : result IoError unit)
  | OpFail (error : HalError)
  | OpClose
  | OpAbortReader
  | OpAbortWriter.
(** [close] and the drop of the last clone of a client terminate with [closed_error] and
    abort the tasks, which only happens after that; [fail] is any other termination by a caller. *)
Definition client_exec (op : ClientOp) (c : Client) : option Client :=
  match op with
  | OpRequest payload expected => Some (request_begin c payload expected)
  | OpSubmit call => request_submit c call
  | OpRemove call => request_remove c call
  | OpReceive call => request_receive c call
  | OpCancel call => request_cancel c call
  | OpFinish job reply => finish_step c job reply
  | OpReader input => reader_step c input
  | OpWriter stop sent => writer_step c stop sent
  | OpFail error => Some (client_terminate c error)
  | OpClose => Some (client_terminate c closed_error)
  | OpAbortReader => if is_some (rs_terminal (cl_requests c)) then abort_reader c else None
  | OpAbortWriter => if is_some (rs_terminal (cl_requests c)) then abort_writer c else None
  end.
Definition client_step (c c' : Client) : Prop := ∃ op, client_exec op c = Some c'.
Definition client_reachable (c : Client) : Prop :=
  ∃ options negotiated,
    1 <= co_pending_capacity options ∧ 1 <= co_writer_capacity options ∧
    rtc client_step (Client_new options negotiated) c.
End codec.
