(* ===== verification/ClientInv.v ===== *)
(** * robot-hal-client: the invariant of a connection

    What holds of the requests of a client in every reachable state, and that every step
    keeps it: [requests_ok] for the state under the mutex, [client_ok] for the whole. *)

From S2P Require Import Prelude Core Lifecycle SerialRegistry CanTypes WireCore Envelope.
From S2P Require Import ClientWire ClientValidate ClientConnection.

Definition Asked : Type := list (option Z * Payload * ExpectedResponse).
(** Call [k] was given request id [i] and expects [e]. *)
Definition owns (asked : Asked) (k : nat) (i : Z) (e : ExpectedResponse) : Prop :=
  ∃ payload, asked !! k = Some (Some i, payload, e).
Lemma owns_id asked k i e i' e' : owns asked k i e → owns asked k i' e' → i = i' ∧ e = e'.
Proof. intros [p Hp] [p' Hp']. rewrite Hp in Hp'. by injection Hp' as -> _ ->. Qed.
Lemma owns_app asked x k i e : owns asked k i e → owns (asked ++ [x]) k i e.
Proof. intros [p Hp]. exists p. by apply lookup_app_l_Some. Qed.
Lemma owns_app_inv asked x k i e : owns (asked ++ [x]) k i e →
  owns asked k i e ∨ k = length asked ∧ ∃ p, x = (Some i, p, e).
Proof.
  intros [p Hp]. apply lookup_app_Some in Hp as [Hp|[Hl Hp]]; [left; by exists p|].
  apply list_lookup_singleton_Some in Hp as [Hk ->]. right. split; [lia|by exists p].
Qed.
#[export] Hint Resolve owns_app : hal.

Record requests_ok (capacity : Z) (asked : Asked) (correlated : list Z) (s : RequestState) : Prop := {
  ro_next : rs_next_request_id s = 0 ∨ 2 <= rs_next_request_id s <= u64_max;
  ro_ids k i e : owns asked k i e →
    2 <= i <= u64_max ∧ (rs_next_request_id s = 0 ∨ i < rs_next_request_id s);
  ro_inj k k' i e e' : owns asked k i e → owns asked k' i e' → k = k';
  ro_pending i p : rs_pending s !! i = Some p → owns asked (pr_reply p) i (pr_expected p);
  ro_cancelled i e : rs_cancelled s !! i = Some e → ∃ k, owns asked k i e;
  ro_disjoint i : is_Some (rs_pending s !! i) → rs_cancelled s !! i = None;
  ro_correlated i : i ∈ correlated →
    (∃ k e, owns asked k i e) ∧ rs_pending s !! i = None ∧ rs_cancelled s !! i = None;
  ro_once : NoDup correlated;
  ro_completed : rs_completed s = list_to_set (rs_completed_order s);
  ro_order : NoDup (rs_completed_order s);
  ro_order_from i : i ∈ rs_completed_order s → i = 1 ∨ i ∈ correlated;
  ro_order_len : len (rs_completed_order s) <= capacity;
  ro_capacity : 1 <= capacity;
  ro_pending_size : Z.of_nat (size (rs_pending s)) <= capacity;
  ro_cancelled_size : rs_terminal s = None → Z.of_nat (size (rs_cancelled s)) <= capacity;
  ro_size : Z.of_nat (size (rs_pending s)) + Z.of_nat (size (rs_cancelled s)) <= 2 * capacity;
  ro_terminal : is_Some (rs_terminal s) → rs_pending s = ∅;
}.

Lemma requests_ok_init capacity : 1 <= capacity → requests_ok capacity [] [] RequestState_initial.
Proof.
  intros Hc. assert (∀ k i e, ¬ owns [] k i e) as Hno by (intros k i e [p Hp]; done).
  split; cbn; try done; try (intros; by exfalso; eapply Hno); unfold u64_max, len; cbn; try lia.
  all: try apply NoDup_nil_2; try apply NoDup_singleton. all: try set_solver. all: rewrite ?map_size_empty; lia.
Qed.

Lemma map_size_insert_le {A} (i : Z) (x : A) (m : gmap Z A) :
  Z.of_nat (size (<[i := x]> m)) <= Z.of_nat (size m) + 1.
Proof. rewrite map_size_insert. destruct (m !! i); unfold id; lia. Qed.
Lemma map_size_delete_le {A} (i : Z) (m : gmap Z A) :
  Z.of_nat (size (delete i m)) <= Z.of_nat (size m).
Proof. rewrite map_size_delete. destruct (m !! i); unfold id; lia. Qed.

(** ** Allocating an id *)
Lemma take_request_id_Ok s s' i : take_request_id s = (s', Ok i) →
  i = rs_next_request_id s ∧ i ≠ 0 ∧
  s' = mkRequestState (default 0 (checked_add u64_max i 1)) (rs_pending s) (rs_cancelled s)
         (rs_completed s) (rs_completed_order s) (rs_terminal s).
Proof.
  unfold take_request_id. destruct (Z.eqb_spec (rs_next_request_id s) 0); [done|].
  by intros [= <- <-].
Qed.
Lemma take_request_id_Err s s' e : take_request_id s = (s', Err e) → s' = s.
Proof. unfold take_request_id. destruct (_ =? 0); by intros [= <-]. Qed.
Lemma next_id_spec i : 2 <= i <= u64_max →
  let next := default 0 (checked_add u64_max i 1) in next = 0 ∨ i < next ∧ 2 <= next <= u64_max.
Proof.
  intros Hi. cbv zeta. unfold checked_add. destruct (Z.leb_spec (i + 1) u64_max); cbn; [right|left]; lia.
Qed.

(** A call that was refused: nothing but its record. *)
Lemma requests_ok_refused capacity asked correlated s payload e :
  requests_ok capacity asked correlated s →
  requests_ok capacity (asked ++ [(None, payload, e)]) correlated s.
Proof.
  intros H. assert (∀ k i e', owns (asked ++ [(None, payload, e)]) k i e' → owns asked k i e') as Hinv.
  { intros k i e' [Ho|[_ [p [=]]]]%owns_app_inv. done. }
  destruct H. split; eauto.
  - intros i p Hp. apply owns_app. eauto.
  - intros i e' Hc. destruct (ro_cancelled0 _ _ Hc) as [k Hk]. exists k. by apply owns_app.
  - intros i Hi. destruct (ro_correlated0 i Hi) as [(k & e' & Hk) ?]. split; [|done].
    exists k, e'. by apply owns_app.
Qed.
Lemma request_admit_ok capacity asked correlated s expected payload s' r :
  requests_ok capacity asked correlated s →
  request_admit capacity s expected (length asked) = (s', r) →
  requests_ok capacity (asked ++ [(result_ok r, payload, expected)]) correlated s' ∧
  rs_terminal s' = rs_terminal s ∧ rs_cancelled s' = rs_cancelled s ∧
  match r with
  | Ok i => rs_terminal s = None ∧
            rs_pending s' = <[i := mkPendingRequest expected (length asked)]> (rs_pending s)
  | Err _ => s' = s
  end.
Proof.
  intros H Ha. unfold request_admit in Ha.
  destruct (rs_terminal s) as [t|] eqn:Ht.
  { injection Ha as <- <-. cbn [result_ok]. split_and!; [by apply requests_ok_refused|done..]. }
  destruct (Z.leb_spec capacity (Z.of_nat (size (rs_pending s)))) as [|Hsz].
  { injection Ha as <- <-. cbn [result_ok]. split_and!; [by apply requests_ok_refused|done..]. }
  destruct (take_request_id s) as [s1 [i|e]] eqn:Htk; injection Ha as <- <-; cbn [result_ok].
  2: { apply take_request_id_Err in Htk as ->. split_and!; [by apply requests_ok_refused|done..]. }
  apply take_request_id_Ok in Htk as (Hi & Hi0 & ->). cbn.
  assert (2 <= i <= u64_max) as Hib by (destruct (ro_next _ _ _ _ H); lia).
  pose proof (next_id_spec i Hib) as Hn. cbv zeta in Hn.
  assert (∀ k e, ¬ owns asked k i e) as Hfresh.
  { intros k e Ho. destruct (ro_ids _ _ _ _ H k i e Ho) as [_ [?|?]]; lia. }
  split_and!; [|done..]. split; cbn.
  - lia.
  - intros k j e [Ho|[-> [p [= <- _ _]]]]%owns_app_inv; [|lia].
    destruct (ro_ids _ _ _ _ H k j e Ho) as [? [?|?]]; lia.
  - intros k k' j e e' [Ho|[-> [p [= <- _ _]]]]%owns_app_inv [Ho'|[-> [p' Hp]]]%owns_app_inv; [|..|done].
    + by eapply (ro_inj _ _ _ _ H).
    + injection Hp as <- _ _. by exfalso; eapply Hfresh.
    + by exfalso; eapply Hfresh.
  - intros j p. destruct (decide (i = j)) as [<-|Hne].
    + rewrite lookup_insert_eq. intros [= <-]. exists payload. by apply list_lookup_middle.
    + rewrite lookup_insert_ne by done. intros Hp. apply owns_app. by apply (ro_pending _ _ _ _ H).
  - intros j e Hc. destruct (ro_cancelled _ _ _ _ H j e Hc) as [k Hk]. exists k. by apply owns_app.
  - intros j. destruct (decide (i = j)) as [<-|Hne].
    + intros _. destruct (rs_cancelled s !! i) as [e|] eqn:Hc; [|done].
      destruct (ro_cancelled _ _ _ _ H i e Hc) as [k Hk]. by exfalso; eapply Hfresh.
    + rewrite lookup_insert_ne by done. apply (ro_disjoint _ _ _ _ H).
  - intros j Hj. destruct (ro_correlated _ _ _ _ H j Hj) as [(k & e & Hk) [Hp Hc]].
    split; [exists k, e; by apply owns_app|]. split; [|done].
    rewrite lookup_insert_ne; [done|]. intros ->. by eapply Hfresh.
  - apply (ro_once _ _ _ _ H).
  - apply (ro_completed _ _ _ _ H).
  - apply (ro_order _ _ _ _ H).
  - apply (ro_order_from _ _ _ _ H).
  - apply (ro_order_len _ _ _ _ H).
  - apply (ro_capacity _ _ _ _ H).
  - pose proof (map_size_insert_le i (mkPendingRequest expected (length asked)) (rs_pending s)). lia.
  - intros _. apply (ro_cancelled_size _ _ _ _ H Ht).
  - pose proof (ro_cancelled_size _ _ _ _ H Ht).
    pose proof (map_size_insert_le i (mkPendingRequest expected (length asked)) (rs_pending s)). lia.
  - intros [? ?]. congruence.
Qed.

(** ** Forgetting a pending request *)
Lemma remove_pending_ok capacity asked correlated s i :
  requests_ok capacity asked correlated s → requests_ok capacity asked correlated (remove_pending s i).
Proof.
  intros H. pose proof (map_size_delete_le i (rs_pending s)). destruct H. split; cbn; try done.
  - intros j p [_ Hp]%lookup_delete_Some. eauto.
  - intros j [p [_ Hp]%lookup_delete_Some]. apply ro_disjoint0. by exists p.
  - intros j Hj. destruct (ro_correlated0 j Hj) as (Ho & Hp & Hc). split_and!; [done| |done].
    by apply lookup_delete_None; right.
  - lia.
  - lia.
  - intros Ht. rewrite (ro_terminal0 Ht). apply delete_id, lookup_empty.
Qed.

(** ** Termination *)
Definition cancel_all (cancelled : gmap Z ExpectedResponse) (l : list (Z * PendingRequest)) :
  gmap Z ExpectedResponse := foldl (λ cancelled '(id, p), <[id := pr_expected p]> cancelled) cancelled l.
Lemma cancel_all_inv cancelled l j e :
  cancel_all cancelled l !! j = Some e →
  cancelled !! j = Some e ∨ ∃ p, (j, p) ∈ l ∧ e = pr_expected p.
Proof.
  revert cancelled. induction l as [|[i p] l IH]; intros cancelled H; [by left|].
  apply IH in H as [H|(q & Hq & ->)]; [|right; exists q; split; [by right|done]].
  destruct (decide (i = j)) as [->|Hne].
  - rewrite lookup_insert_eq in H. injection H as <-. right. exists p. split; [by left|done].
  - rewrite lookup_insert_ne in H by done. by left.
Qed.
Lemma cancel_all_is_Some cancelled l j : is_Some (cancelled !! j) → is_Some (cancel_all cancelled l !! j).
Proof.
  revert cancelled. induction l as [|[i p] l IH]; intros cancelled H; [done|]. apply IH.
  destruct (decide (i = j)) as [->|Hne]; [rewrite lookup_insert_eq; by eexists|by rewrite lookup_insert_ne].
Qed.
Lemma cancel_all_size cancelled l :
  Z.of_nat (size (cancel_all cancelled l)) <= Z.of_nat (size cancelled) + len l.
Proof.
  revert cancelled. induction l as [|[i p] l IH]; intros cancelled; [unfold len; cbn; lia|].
  specialize (IH (<[i := pr_expected p]> cancelled)).
  pose proof (map_size_insert_le i (pr_expected p) cancelled). unfold len, cancel_all in *.
  cbn [foldl length] in *. lia.
Qed.
(** [l] holds the pending requests, in any order. *)
Lemma terminated_ok capacity asked correlated s l error :
  requests_ok capacity asked correlated s →
  (∀ i p, (i, p) ∈ l → rs_pending s !! i = Some p) → length l = size (rs_pending s) →
  requests_ok capacity asked correlated
    (mkRequestState (rs_next_request_id s) ∅ (cancel_all (rs_cancelled s) l) (rs_completed s)
       (rs_completed_order s) (Some error)).
Proof.
  intros H Hl Hlen. pose proof (cancel_all_size (rs_cancelled s) l) as Hsz.
  destruct H. split; cbn; try done.
  - intros i e [Hc|(p & Hp & ->)]%cancel_all_inv; [by eauto|]. exists (pr_reply p). eauto.
  - intros i [? ?]. done.
  - intros i Hi. destruct (ro_correlated0 i Hi) as (Ho & Hp & Hc). split_and!; [done|done|].
    destruct (cancel_all _ _ !! i) as [e|] eqn:He; [|done].
    apply cancel_all_inv in He as [He|(p & Hp' & _)]; [congruence|]. apply Hl in Hp'. congruence.
  - rewrite map_size_empty. lia.
  - rewrite map_size_empty. unfold len in *. rewrite Hlen in Hsz. lia.
Qed.
(** What a termination begins: the calls it is to answer are those of the pending requests. *)
Definition terminates (s s' : RequestState) (error : HalError) (replies : list nat) : Prop :=
  rs_terminal s = None ∧ rs_terminal s' = Some error ∧ rs_pending s' = ∅ ∧
  replies ≡ₚ (λ p, pr_reply p.2) <$> map_to_list (rs_pending s).
Lemma begin_termination_ok capacity asked correlated s error s' replies :
  requests_ok capacity asked correlated s → begin_termination s error None = (s', replies) →
  requests_ok capacity asked correlated s' ∧
  match replies with
  | Some replies => terminates s s' error replies
  | None => s' = s ∧ is_Some (rs_terminal s)
  end.
Proof.
  intros H Hb. unfold begin_termination in Hb. destruct (rs_terminal s) as [t|] eqn:Ht.
  { injection Hb as <- <-. by split; [|split; [|exists t]]. }
  cbn [option_list] in Hb. rewrite app_nil_r in Hb. injection Hb as <- <-. split.
  - apply terminated_ok; [done| |by rewrite length_map_to_list]. intros i p. by rewrite elem_of_map_to_list.
  - by split_and!.
Qed.
Lemma guard_drop_ok capacity asked correlated s i s' finishing :
  requests_ok capacity asked correlated s → guard_drop capacity s i = (s', finishing) →
  requests_ok capacity asked correlated s' ∧
  match finishing with
  | Some (error, replies) => terminates s s' error replies
  | None => rs_terminal s' = rs_terminal s ∧ rs_pending s' = delete i (rs_pending s)
  end.
Proof.
  intros H Hg. unfold guard_drop in Hg. destruct (rs_pending s !! i) as [p|] eqn:Hp.
  2: { injection Hg as <- <-. split_and!; [done|done|]. by rewrite delete_id. }
  assert (rs_terminal s = None) as Ht.
  { apply eq_None_ne_Some_2. intros t Ht. rewrite (ro_terminal _ _ _ _ H) in Hp by by exists t. done. }
  destruct (Z.leb_spec capacity (Z.of_nat (size (rs_cancelled (remove_pending s i))))) as [|Hsz].
  - unfold begin_termination in Hg. cbn [remove_pending rs_set_pending rs_terminal] in Hg. rewrite Ht in Hg.
    injection Hg as <- <-. cbn [rs_pending rs_cancelled rs_next_request_id rs_completed rs_completed_order
      remove_pending rs_set_pending option_list].
    assert (map_to_list (delete i (rs_pending s)) ++ [(i, p)] ≡ₚ map_to_list (rs_pending s)) as Hperm.
    { rewrite <- (map_to_list_delete (rs_pending s) i p Hp). by rewrite Permutation_app_comm. }
    split.
    + apply terminated_ok; [done| |].
      * intros j q. rewrite Hperm. by rewrite elem_of_map_to_list.
      * by rewrite Hperm, length_map_to_list.
    + split_and!; [done..|]. by rewrite Hperm.
  - injection Hg as <- <-. split; [|done].
    pose proof (remove_pending_ok _ _ _ _ i H) as Hr. pose proof (ro_size _ _ _ _ H) as Hs.
    pose proof (ro_pending _ _ _ _ H i p Hp) as Ho.
    pose proof (map_size_insert_le i (pr_expected p) (rs_cancelled s)) as Hi.
    assert (Z.of_nat (size (delete i (rs_pending s))) = Z.of_nat (size (rs_pending s)) - 1) as Hd.
    { rewrite map_size_delete_Some by by exists p.
      assert (size (rs_pending s) ≠ 0%nat) by (intros Hz%map_size_empty_inv; by rewrite Hz in Hp). lia. }
    assert (∀ k e, i ∈ correlated → ¬ owns asked k i e) as Hnc.
    { intros k e Hin _. destruct (ro_correlated _ _ _ _ H i Hin) as (_ & Hn & _). congruence. }
    destruct Hr. split; cbn in *; try done; try lia.
    + intros j e [[<- <-]|[_ Hc]]%lookup_insert_Some; [by eexists|by eauto].
    + intros j [q [Hne Hq]%lookup_delete_Some]. rewrite lookup_insert_ne by done.
      apply ro_disjoint0. exists q. by apply lookup_delete_Some.
    + intros j Hj. destruct (ro_correlated0 j Hj) as (Hoj & Hpj & Hcj). split_and!; [done|done|].
      rewrite lookup_insert_ne; [done|]. intros ->. by eapply Hnc.
Qed.

(** ** Correlating a response *)
Lemma evict_completed_spec capacity completed order completed' order' :
  1 <= capacity → completed = list_to_set order → NoDup order →
  evict_completed capacity completed order = (completed', order') →
  completed' = list_to_set order' ∧ NoDup order' ∧ order' ⊆ order ∧ len order' <= capacity.
Proof.
  intros Hc. revert completed. induction order as [|x order IH]; intros completed -> Hnd He.
  { injection He as <- <-. split_and!; [done|done|done|unfold len; cbn; lia]. }
  cbn [evict_completed] in He. destruct (Z.ltb_spec capacity (len (x :: order))) as [|Hle].
  2: { injection He as <- <-. by split_and!. }
  apply NoDup_cons in Hnd as [Hx Hnd]. apply IH in He as (-> & Hnd' & Hsub & Hlen); [|set_solver|done].
  split_and!; [done|done|set_solver|done].
Qed.
Lemma remember_completed_ok capacity asked correlated s i k e :
  requests_ok capacity asked correlated s → owns asked k i e → i ∉ correlated →
  rs_pending s !! i = None → rs_cancelled s !! i = None →
  requests_ok capacity asked (correlated ++ [i]) (remember_completed s i capacity).
Proof.
  intros H Ho Hni Hp Hc. unfold remember_completed.
  set (order := if bool_decide _ then _ else _).
  destruct (evict_completed capacity ({[i]} ∪ rs_completed s) order) as [completed order'] eqn:He.
  destruct H.
  assert (2 <= i) by (apply (ro_ids0 k i e Ho)).
  assert (i ∉ rs_completed_order s) as Hnew.
  { intros [->|Hin]%ro_order_from0; [lia|done]. }
  assert (order = rs_completed_order s ++ [i]) as Hord.
  { unfold order. rewrite bool_decide_eq_false_2; [done|]. rewrite ro_completed0. set_solver. }
  apply evict_completed_spec in He as (-> & Hnd & Hsub & Hlen); [|done|..].
  2: { rewrite Hord, ro_completed0, list_to_set_app_L. cbn. set_solver. }
  2: { rewrite Hord. apply NoDup_app. split_and!; [done| |apply NoDup_singleton].
       intros x Hx ->%list_elem_of_singleton. done. }
  split; cbn; try done.
  - intros j [Hj| ->%list_elem_of_singleton]%elem_of_app; [by apply ro_correlated0|].
    split_and!; [by exists k, e|done|done].
  - apply NoDup_app. split_and!; [done| |apply NoDup_singleton].
    intros x Hx ->%list_elem_of_singleton. done.
  - intros j Hj%Hsub. rewrite Hord in Hj. apply elem_of_app in Hj as [Hj| ->%list_elem_of_singleton].
    + destruct (ro_order_from0 j Hj) as [?|?]; [by left|right; set_solver].
    + right. set_solver.
Qed.
Lemma set_cancelled_delete_ok capacity asked correlated s i :
  requests_ok capacity asked correlated s →
  requests_ok capacity asked correlated (rs_set_cancelled s (delete i (rs_cancelled s))).
Proof.
  intros H. pose proof (map_size_delete_le i (rs_cancelled s)) as Hd. destruct H. split; cbn; try done.
  - intros j e [_ Hc]%lookup_delete_Some. eauto.
  - intros j Hj. apply lookup_delete_None. right. by apply ro_disjoint0.
  - intros j Hj. destruct (ro_correlated0 j Hj) as (Ho & Hp & Hc). split_and!; [done|done|].
    apply lookup_delete_None. by right.
  - intros Ht. specialize (ro_cancelled_size0 Ht). lia.
  - lia.
Qed.
Lemma remember_completed_frame s i capacity :
  let s' := remember_completed s i capacity in
  rs_pending s' = rs_pending s ∧ rs_cancelled s' = rs_cancelled s ∧ rs_terminal s' = rs_terminal s.
Proof. cbv zeta. unfold remember_completed. by destruct (evict_completed _ _ _). Qed.
Lemma correlate_ok capacity asked correlated s i s' r :
  requests_ok capacity asked correlated s → correlate capacity s i = (s', r) →
  match r with
  | Ok c =>
      requests_ok capacity asked (correlated ++ [i]) s' ∧ i ∉ correlated ∧
      rs_terminal s' = rs_terminal s ∧
      match c with
      | CorrelatedPending p => rs_pending s !! i = Some p ∧ rs_pending s' = delete i (rs_pending s)
      | CorrelatedCancelled e => rs_cancelled s !! i = Some e ∧ rs_pending s' = rs_pending s
      end
  | Err _ => s' = s ∧ rs_pending s !! i = None ∧ rs_cancelled s !! i = None
  end.
Proof.
  intros H Hc. unfold correlate in Hc.
  assert (rs_pending s !! i ≠ None ∨ rs_cancelled s !! i ≠ None → i ∉ correlated) as Hni.
  { intros Hin Hi. destruct (ro_correlated _ _ _ _ H i Hi) as (_ & ? & ?). naive_solver. }
  destruct (rs_pending s !! i) as [p|] eqn:Hp; [|destruct (rs_cancelled s !! i) as [e|] eqn:He];
    injection Hc as <- <-.
  - destruct (remember_completed_frame (remove_pending s i) i capacity) as (Hfp & _ & Hft).
    specialize (Hni ltac:(by left)). rewrite Hft. split_and!; [|done|done|done|by rewrite Hfp].
    eapply remember_completed_ok; [by apply remove_pending_ok|by eapply ro_pending|done|..].
    + apply lookup_delete_eq.
    + cbn. apply (ro_disjoint _ _ _ _ H). by exists p.
  - destruct (remember_completed_frame (rs_set_cancelled s (delete i (rs_cancelled s))) i capacity)
      as (Hfp & _ & Hft).
    destruct (ro_cancelled _ _ _ _ H i e He) as [k Hk].
    specialize (Hni ltac:(by right)). rewrite Hft. split_and!; [|done|done|done|by rewrite Hfp].
    eapply remember_completed_ok; [by apply set_cancelled_delete_ok|done|done|done|].
    cbn. apply lookup_delete_eq.
  - done.
Qed.

(** ** The invariant of a connection *)
Definition cl_ids (c : Client) : list Z := fst <$> cl_correlated c.
(** Call [k], which waits for [i], will be answered: its request is pending, or its reply is
    in the hand of the reader or of a termination, or sent. *)
Definition request_held (c : Client) (k : nat) (i : Z) : Prop :=
  (∃ e, rs_pending (cl_requests c) !! i = Some (mkPendingRequest e k)) ∨
  (∃ e payload, cl_reader c = RSettle (mkPendingRequest e k) payload) ∨
  (∃ error replies, (error, replies) ∈ cl_finishing c ∧ k ∈ replies) ∨
  is_Some (cl_replies c !! k).
Definition client_call_ok (c : Client) (k : nat) (phase : CallPhase) : Prop :=
  match phase with
  | CallSubmit i _ payload => (∃ e, cl_asked c !! k = Some (Some i, payload, e)) ∧ request_held c k i
  | CallRemove i _ => ∃ e, owns (cl_asked c) k i e
  | CallWait i => (∃ e, owns (cl_asked c) k i e) ∧ request_held c k i
  | CallDone (Ok payload) => cl_replies c !! k = Some (Ok payload)
  | CallDone (Err _) | CallDropped => True
  end.
(** Where a reply comes from: a response to the call's own request, or the termination. *)
Definition reply_ok (c : Client) (k : nat) (r : HalResult Payload) : Prop :=
  ∃ i e, owns (cl_asked c) k i e ∧
    ((∃ payload, (i, payload) ∈ cl_correlated c ∧ r = settle_pending e payload) ∨
     (∃ error, rs_terminal (cl_requests c) = Some error ∧ r = Err error)).
Record client_ok (c : Client) : Prop := {
  co_requests : requests_ok (cl_capacity c) (cl_asked c) (cl_ids c) (cl_requests c);
  co_len : length (cl_asked c) = length (cl_calls c);
  co_calls k phase : cl_calls c !! k = Some phase → client_call_ok c k phase;
  co_replies k r : cl_replies c !! k = Some r → reply_ok c k r;
  co_reader p payload : cl_reader c = RSettle p payload →
    (∃ i, owns (cl_asked c) (pr_reply p) i (pr_expected p) ∧ (i, payload) ∈ cl_correlated c) ∧
    cl_replies c !! pr_reply p = None;
  co_finishing : cl_finishing c = [] ∨
    ∃ error replies, cl_finishing c = [(error, replies)] ∧
      rs_terminal (cl_requests c) = Some error ∧ NoDup replies ∧
      ∀ k, k ∈ replies →
        (∃ i e, owns (cl_asked c) k i e ∧ i ∉ cl_ids c) ∧ cl_replies c !! k = None;
  co_terminal : is_Some (rs_terminal (cl_requests c)) ↔ cl_finishing c ≠ [] ∨ cl_shutdown c = true;
  co_writer_len : len (cl_writer c) <= cl_writer_capacity c;
}.

Lemma client_ok_init options negotiated :
  1 <= co_pending_capacity options → 1 <= co_writer_capacity options →
  client_ok (Client_new options negotiated).
Proof.
  intros Hp Hw. split; cbn; try done.
  - by apply requests_ok_init.
  - by left.
  - split; [by intros [? ?]|]. by intros [?|?].
  - unfold len. cbn. lia.
Qed.
Lemma pending_unanswered c i p :
  client_ok c → rs_pending (cl_requests c) !! i = Some p → cl_replies c !! pr_reply p = None.
Proof.
  intros H Hp. destruct (cl_replies c !! pr_reply p) as [r|] eqn:Hr; [|done]. exfalso.
  apply (co_replies _ H) in Hr as (j & e & Ho & Hcase).
  pose proof (ro_pending _ _ _ _ (co_requests _ H) i p Hp) as Ho'.
  destruct (owns_id _ _ _ _ _ _ Ho Ho') as [-> _].
  destruct Hcase as [(pl & Hin & _)|(t & Ht & _)].
  - destruct (ro_correlated _ _ _ _ (co_requests _ H) i) as (_ & Hn & _); [|congruence].
    apply list_elem_of_fmap. by exists (i, pl).
  - rewrite (ro_terminal _ _ _ _ (co_requests _ H)) in Hp; [done|by exists t].
Qed.

(** ** Steps that touch one part *)
Lemma client_call_ok_mono c c' k phase :
  cl_asked c' = cl_asked c → (∀ i, request_held c k i → request_held c' k i) →
  (∀ r, cl_replies c !! k = Some r → cl_replies c' !! k = Some r) →
  client_call_ok c k phase → client_call_ok c' k phase.
Proof.
  intros Ha Hh Hr. destruct phase as [i fl pl|i e|i|[p|e]|]; cbn; rewrite ?Ha; [|done| |by apply Hr|done..].
  - intros [Ho Hk]. split; [done|by apply Hh].
  - intros [Ho Hk]. split; [done|by apply Hh].
Qed.
Lemma client_ok_reader c phase :
  (∀ p payload, cl_reader c ≠ RSettle p payload) → (∀ p payload, phase ≠ RSettle p payload) →
  client_ok c → client_ok (with_reader c phase).
Proof.
  intros Hold Hnew H. destruct H. split; cbn; try done.
  - intros k ph Hk. eapply (client_call_ok_mono c); [done| |done|by apply co_calls0].
    intros i [Hh|[(e & pl & Hr)|Hh]]; [by left|by apply Hold in Hr|by right; right].
  - intros p pl Hr. by apply Hnew in Hr.
Qed.
Lemma client_ok_queue c queue :
  len queue <= cl_writer_capacity c → client_ok c → client_ok (with_queue c queue).
Proof. intros Hq H. by destruct H; split. Qed.
Lemma client_ok_writer c phase : client_ok c → client_ok (with_writer c phase).
Proof. intros H. by destruct H; split. Qed.
Lemma client_ok_broadcast c event : client_ok c → client_ok (broadcast c event).
Proof. intros H. by destruct H; split. Qed.
Lemma client_ok_wire c wire : client_ok c → client_ok (write_wire c wire).
Proof. intros H. by destruct H; split. Qed.
Lemma client_ok_call c k phase : client_call_ok c k phase → client_ok c → client_ok (set_call c k phase).
Proof.
  intros Hp H. destruct H. split; cbn; try done; [by rewrite length_insert|].
  intros k' ph. destruct (decide (k = k')) as [<-|Hne].
  - intros [(_ & <- & _)|[Hbad _]]%list_lookup_insert_Some; [done|done].
  - rewrite list_lookup_insert_ne by done. apply co_calls0.
Qed.
Lemma writer_stop_ok c : client_ok c → client_ok (writer_stop c).
Proof.
  intros H. pose proof (co_writer_len _ H). apply client_ok_writer, client_ok_queue; [|done].
  unfold len in *. cbn. lia.
Qed.

(** ** A new call *)
Lemma request_begin_ok c payload expected : client_ok c → client_ok (request_begin c payload expected).
Proof.
  intros H. unfold request_begin. rewrite <- (co_len _ H).
  destruct (request_admit _ _ _ _) as [s r] eqn:Ha.
  destruct (request_admit_ok _ _ _ _ _ payload _ _ (co_requests _ H) Ha) as (Hs & Ht & Hc & Hr).
  pose proof (co_len _ H) as Hlen.
  assert (∀ phase, client_call_ok (new_call (with_requests c s) phase (result_ok r, payload, expected))
            (length (cl_asked c)) phase →
          client_ok (new_call (with_requests c s) phase (result_ok r, payload, expected))) as Hgoal.
  { intros phase Hph. destruct H. split; cbn; try done.
    - rewrite !length_app. cbn. lia.
    - intros k ph [Hk|[Hk Hph']]%lookup_app_Some.
      + pose proof (co_calls0 k ph Hk) as Hok. apply lookup_lt_Some in Hk. clear Hph.
        assert (∀ i, request_held c k i → request_held (new_call (with_requests c s) phase (result_ok r, payload, expected)) k i) as Hheld.
        { intros i [[e Hp]|Hh]; [left|by right]. exists e. cbn. destruct r as [j|]; [|by subst s].
          destruct Hr as [_ ->]. rewrite lookup_insert_ne; [done|]. intros ->.
          pose proof (ro_ids _ _ _ _ co_requests0 _ _ _ (ro_pending _ _ _ _ co_requests0 _ _ Hp)).
          pose proof (ro_pending _ _ _ _ co_requests0 _ _ Hp) as Hown. cbn in Hown.
          pose proof (ro_inj _ _ _ _ Hs k (length (cl_asked c)) i e expected) as Hinj.
          rewrite Hlen in Hinj. enough (k = length (cl_calls c)) by lia. apply Hinj; [by apply owns_app|].
          exists payload. rewrite <- Hlen. by apply list_lookup_middle. }
        destruct ph as [i fl pl|i err|i|[p|err]|]; cbn in *; try done.
        * destruct Hok as [[e He] Hh]. split; [exists e; by apply lookup_app_l_Some|by apply Hheld].
        * destruct Hok as [e He]. exists e. by apply owns_app.
        * destruct Hok as [[e He] Hh]. split; [exists e; by apply owns_app|by apply Hheld].
      + apply list_lookup_singleton_Some in Hph' as [Hk' <-].
        replace k with (length (cl_asked c)) by lia. done.
    - intros k r' Hk. destruct (co_replies0 k r' Hk) as (i & e & Ho & Hcase). exists i, e.
      split; [by apply owns_app|]. cbn. by rewrite Ht.
    - intros p pl Hrd. destruct (co_reader0 p pl Hrd) as [(i & Ho & Hin) Hn].
      split; [|done]. exists i. split; [by apply owns_app|done].
    - destruct co_finishing0 as [->|(e & l & -> & Hte & Hnd & Hl)]; [by left|]. right. exists e, l.
      rewrite Ht. split_and!; [done|done|done|]. intros k Hk. destruct (Hl k Hk) as [(i & e' & Ho & Hi) Hn].
      split; [|done]. exists i, e'. split; [by apply owns_app|done].
    - by rewrite Ht. }
  destruct r as [i|e]; cbn [result_ok] in Hgoal; apply Hgoal; cbn; [|done].
  destruct Hr as [_ Hr]. split.
  - exists expected. by apply list_lookup_middle.
  - left. exists expected. cbn. by rewrite Hr, lookup_insert_eq.
Qed.

(** ** Terminations *)
Lemma NoDup_replies capacity asked correlated s :
  requests_ok capacity asked correlated s →
  NoDup ((λ p, pr_reply p.2) <$> map_to_list (rs_pending s)).
Proof.
  intros H. apply NoDup_fmap_2_strong; [|apply NoDup_map_to_list].
  intros [i p] [j q] Hp%elem_of_map_to_list Hq%elem_of_map_to_list Heq. cbn in *.
  pose proof (ro_pending _ _ _ _ H i p Hp) as Ho. pose proof (ro_pending _ _ _ _ H j q Hq) as Ho'.
  rewrite Heq in Ho. destruct (owns_id _ _ _ _ _ _ Ho Ho') as [-> _]. congruence.
Qed.
Lemma client_ok_terminated c s error replies :
  client_ok c → requests_ok (cl_capacity c) (cl_asked c) (cl_ids c) s →
  terminates (cl_requests c) s error replies →
  client_ok (with_finishing (with_requests c s) (cl_finishing c ++ [(error, replies)])).
Proof.
  intros H Hs (Ht & Ht' & Hp & Hperm).
  assert (cl_finishing c = [] ∧ cl_shutdown c = false) as [Hf Hsd].
  { pose proof (co_terminal _ H) as Hct. rewrite Ht in Hct. destruct (cl_finishing c), (cl_shutdown c);
      try done; exfalso; (destruct (proj2 Hct) as [? ?]; [by auto|done]). }
  rewrite Hf. assert (∀ k, k ∈ replies ↔ ∃ i p, rs_pending (cl_requests c) !! i = Some p ∧ pr_reply p = k) as Hin.
  { intros k. rewrite Hperm, list_elem_of_fmap. split.
    - intros ([i p] & -> & Hm%elem_of_map_to_list). by exists i, p.
    - intros (i & p & Hm & <-). exists (i, p). by rewrite elem_of_map_to_list. }
  pose proof (NoDup_replies _ _ _ _ (co_requests _ H)) as Hnd. rewrite <- Hperm in Hnd.
  pose proof (λ i p, pending_unanswered c i p H) as Hun.
  destruct H. split; cbn; try done.
  - intros k ph Hk. eapply (client_call_ok_mono c); [done| |done|by apply co_calls0].
    intros i [[e He]|[Hh|[(e' & l & Hl & _)|Hh]]].
    + right. right. left. exists error, replies. split; [by left|]. apply Hin. by exists i, (mkPendingRequest e k).
    + right. by left.
    + rewrite Hf in Hl. set_solver.
    + by right; right; right.
  - intros k r Hk. destruct (co_replies0 k r Hk) as (i & e & Ho & [Hc|(t & Htt & _)]); [|congruence].
    exists i, e. split; [done|by left].
  - right. exists error, replies. split_and!; [done|done|done|]. intros k (i & p & Hm & <-)%Hin. split.
    + exists i, (pr_expected p). split; [by eapply (ro_pending _ _ _ _ co_requests0)|].
      intros Hi. destruct (ro_correlated _ _ _ _ co_requests0 i Hi) as (_ & Hn & _). congruence.
    + eauto.
  - rewrite Ht'. split; [by left|by eexists].
Qed.
Lemma client_ok_requests_same c s :
  requests_ok (cl_capacity c) (cl_asked c) (cl_ids c) s → rs_terminal s = rs_terminal (cl_requests c) →
  (∀ k i, (∃ e, rs_pending (cl_requests c) !! i = Some (mkPendingRequest e k)) →
     (∃ ph, cl_calls c !! k = Some ph ∧ match ph with CallSubmit j _ _ | CallWait j => j = i | _ => False end) →
     ∃ e, rs_pending s !! i = Some (mkPendingRequest e k)) →
  client_ok c → client_ok (with_requests c s).
Proof.
  intros Hs Ht Hp H. destruct H. split; cbn; try done; [| |by rewrite Ht|by rewrite Ht].
  - intros k ph Hk. pose proof (co_calls0 k ph Hk) as Hok.
    destruct ph as [i fl pl|i e|i|[p|e]|]; cbn in *; try done; destruct Hok as [Ho Hh]; (split; [done|]);
      (destruct Hh as [Hh|Hh]; [left|by right]); cbn; apply Hp; try done; eexists; split; done.
  - intros k r Hk. destruct (co_replies0 k r Hk) as (i & e & Ho & Hc). exists i, e.
    split; [done|]. cbn. by rewrite Ht.
Qed.
Lemma client_terminate_ok c error : client_ok c → client_ok (client_terminate c error).
Proof.
  intros H. unfold client_terminate. destruct (begin_termination _ _ _) as [s [replies|]] eqn:Hb;
    destruct (begin_termination_ok _ _ _ _ _ _ _ (co_requests _ H) Hb) as [Hs Hr].
  - by apply client_ok_terminated.
  - destruct Hr as [-> _]. destruct c. exact H.
Qed.
(** Removing the pending request of a call that no longer waits. *)
Lemma client_ok_remove c k i phase :
  cl_calls c !! k = Some phase → match phase with CallSubmit _ _ _ | CallWait _ => False | _ => True end →
  (∃ e, owns (cl_asked c) k i e) → client_ok c →
  client_ok (with_requests c (remove_pending (cl_requests c) i)).
Proof.
  intros Hk Hph [e Ho] H. apply client_ok_requests_same; [by apply remove_pending_ok, co_requests|done| |done].
  intros k' i' [e' He'] (ph & Hk' & Hph'). exists e'. cbn. rewrite lookup_delete_ne; [done|].
  intros <-. pose proof (ro_pending _ _ _ _ (co_requests _ H) _ _ He') as Ho'. cbn in Ho'.
  rewrite (ro_inj _ _ _ _ (co_requests _ H) _ _ _ _ _ Ho' Ho) in Hk'. rewrite Hk in Hk'.
  injection Hk' as <-. by destruct phase.
Qed.

(** ** Callers *)
Lemma with_finishing_same c : with_finishing c (cl_finishing c) = c.
Proof. by destruct c. Qed.
Lemma request_cancel_ok c k c' : client_ok c → request_cancel c k = Some c' → client_ok c'.
Proof.
  intros H Hc. unfold request_cancel in Hc. destruct (cl_calls c !! k) as [ph|] eqn:Hk; [|done].
  destruct ph as [| |i| |]; try done. destruct (guard_drop _ _ _) as [s fin] eqn:Hg. injection Hc as <-.
  pose proof (co_calls _ H k _ Hk) as [Ho _].
  apply (client_ok_call c k CallDropped I) in H.
  destruct (guard_drop_ok _ _ _ _ _ _ _ (co_requests _ H) Hg) as [Hs Hfin]. destruct fin as [[error replies]|].
  - exact (client_ok_terminated (set_call c k CallDropped) s error replies H Hs Hfin).
  - cbn [option_list]. rewrite app_nil_r. destruct Hfin as [Ht Hp].
    change (set_call (with_requests c s) k CallDropped) with (with_requests (set_call c k CallDropped) s).
    change (cl_finishing c) with (cl_finishing (with_requests (set_call c k CallDropped) s)).
    rewrite with_finishing_same. apply client_ok_requests_same; [done|done| |done].
    intros k' i' [e' He'] (ph & Hk' & Hph). exists e'. rewrite Hp, lookup_delete_ne; [done|].
    intros <-. pose proof (ro_pending _ _ _ _ (co_requests _ H) _ _ He') as Ho'. cbn in Ho'.
    destruct Ho as [e Ho]. rewrite (ro_inj _ _ _ _ (co_requests _ H) _ _ _ _ _ Ho' Ho) in Hk'.
    cbn in Hk'. rewrite list_lookup_insert_eq in Hk' by (by eapply lookup_lt_Some). by injection Hk' as <-.
Qed.
Lemma request_submit_ok encoded_len c k c' :
  client_ok c → request_submit encoded_len c k = Some c' → client_ok c'.
Proof.
  intros H Hc. unfold request_submit in Hc. destruct (cl_calls c !! k) as [ph|] eqn:Hk; [|done].
  destruct ph as [i fl pl| | | |]; try done. pose proof (co_calls _ H k _ Hk) as [[e He] Hh].
  assert (∀ error, client_call_ok c k (CallRemove i error)) as Hrm by (intros error; exists e; by exists pl).
  destruct (_ || _); [injection Hc as <-; by apply client_ok_call|].
  assert (∀ out, cl_writer_capacity c <= len (cl_writer c) ∨
    client_ok (set_call (with_queue c (cl_writer c ++ [out])) k (CallWait i))) as Hq.
  { intros out. destruct (decide (cl_writer_capacity c <= len (cl_writer c))) as [|Hlt]; [by left|right].
    apply client_ok_call; [split; [exists e; by exists pl|done]|]. apply client_ok_queue; [|done].
    rewrite len_app. unfold len in *. cbn. lia. }
  destruct (cl_writer_phase c); try (injection Hc as <-; by apply client_ok_call);
    (destruct (Z.leb_spec (cl_writer_capacity c) (len (cl_writer c)));
     [injection Hc as <-; by apply client_ok_call|]);
    injection Hc as <-; (destruct (Hq (mkOutbound (mkEnvelope i (Some pl)) fl)) as [?|?]; [lia|done]).
Qed.
Lemma request_remove_ok c k c' : client_ok c → request_remove c k = Some c' → client_ok c'.
Proof.
  intros H Hc. unfold request_remove in Hc. destruct (cl_calls c !! k) as [ph|] eqn:Hk; [|done].
  destruct ph as [|i e| | |]; try done. injection Hc as <-. pose proof (co_calls _ H k _ Hk) as Ho.
  apply client_ok_call; [done|]. by apply (client_ok_remove c k i (CallRemove i e)).
Qed.
Lemma request_receive_ok c k c' : client_ok c → request_receive c k = Some c' → client_ok c'.
Proof.
  intros H Hc. unfold request_receive in Hc. destruct (cl_calls c !! k) as [ph|] eqn:Hk; [|done].
  destruct ph as [| |i| |]; try done. destruct (cl_replies c !! k) as [r|] eqn:Hr; [|done].
  injection Hc as <-. apply client_ok_call; [|done]. by destruct r.
Qed.

(** ** Replies *)
Lemma finish_step_ok c job reply c' : client_ok c → finish_step c job reply = Some c' → client_ok c'.
Proof.
  intros H Hc. unfold finish_step in Hc.
  destruct (co_finishing _ H) as [Hf|(error & replies & Hf & Ht & Hnd & Hl)]; rewrite Hf in Hc; [done|].
  destruct job as [|job]; [|done]. cbn in Hc.
  destruct replies as [|x replies']; [|set (replies := x :: replies') in *].
  { injection Hc as <-. destruct H. split; cbn; try done; [| |].
    - intros k ph Hk. eapply (client_call_ok_mono c); [done| |done|by apply co_calls0].
      intros i [Hh|[Hh|[(e' & l & Hin & Hk')|Hh]]]; [by left|by right; left| |by right; right; right].
      rewrite Hf in Hin. apply list_elem_of_singleton in Hin as [= -> ->]. by apply not_elem_of_nil in Hk'.
    - by left.
    - rewrite Ht. split; [by right|by eexists]. }
  destruct (replies !! reply) as [call|] eqn:Hr; [|done]. injection Hc as <-.
  assert (call ∈ replies) as Hcall by (by eapply list_elem_of_lookup_2).
  assert (replies ≡ₚ call :: delete reply replies) as Hperm by (by apply delete_Permutation).
  rewrite Hperm in Hnd. apply NoDup_cons in Hnd as [Hni Hnd].
  destruct (Hl call Hcall) as [(i & e & Ho & Hi) Hnone].
  destruct H. split; cbn; try done.
  - intros k ph Hk. eapply (client_call_ok_mono c); [done| | |by apply co_calls0].
    + intros i' [Hh|[Hh|[(e' & l & Hin & Hk')|Hh]]]; [by left|by right; left| |].
      * rewrite Hf in Hin. apply list_elem_of_singleton in Hin as [= -> ->]. rewrite Hperm in Hk'.
        apply elem_of_cons in Hk' as [->|Hk'].
        -- right. right. right. cbn. rewrite lookup_insert_eq. by eexists.
        -- right. right. left. exists error, (delete reply replies). cbn. split; [by left|done].
      * right. right. right. cbn. rewrite lookup_insert_is_Some. destruct (decide (call = k)); auto.
    + intros r Hkr. cbn. rewrite lookup_insert_ne; [done|]. intros ->. congruence.
  - intros k r [[<- <-]|[_ Hk]]%lookup_insert_Some; [|by apply co_replies0].
    exists i, e. split; [done|]. right. by exists error.
  - intros p pl Hrd. destruct (co_reader0 p pl Hrd) as [(j & Hoj & Hin) Hn]. split; [by exists j|].
    rewrite lookup_insert_ne; [done|]. intros ->. destruct (owns_id _ _ _ _ _ _ Ho Hoj) as [-> _].
    apply Hi, list_elem_of_fmap. by exists (j, pl).
  - right. exists error, (delete reply replies). split_and!; [done|done|done|]. intros k Hk.
    destruct (Hl k) as [Hk1 Hk2]; [rewrite Hperm; by right|]. split; [done|].
    rewrite lookup_insert_ne; [done|]. by intros ->.
  - rewrite Ht. split; [by left|by eexists].
Qed.

(** ** The reader *)
Lemma running_state c : client_ok c → rs_terminal (cl_requests c) = None →
  cl_finishing c = [] ∧ cl_shutdown c = false.
Proof.
  intros H Ht. pose proof (co_terminal _ H) as Hct. rewrite Ht in Hct.
  destruct (cl_finishing c), (cl_shutdown c); try done; exfalso; (destruct (proj2 Hct) as [? ?]; [by auto|done]).
Qed.
Lemma correlate_step_ok c s i payload r :
  client_ok c → rs_terminal (cl_requests c) = None →
  (∀ p pl, cl_reader c ≠ RSettle p pl) →
  correlate (cl_capacity c) (cl_requests c) i = (s, Ok r) →
  client_ok (with_reader (note_correlated (with_requests c s) (i, payload))
    match r with
    | CorrelatedPending p => RSettle p payload
    | CorrelatedCancelled e => RLate e payload
    end).
Proof.
  intros H Ht Hnr Hc. destruct (running_state c H Ht) as [Hf Hsd].
  destruct (correlate_ok _ _ _ _ _ _ _ (co_requests _ H) Hc) as (Hs & Hni & Hts & Hr).
  pose proof (λ p, pending_unanswered c i p H) as Hun. pose proof (ro_pending _ _ _ _ (co_requests _ H) i) as Hop.
  destruct H. split; cbn; try done.
  - unfold cl_ids. cbn. by rewrite fmap_app.
  - intros k ph Hk. eapply (client_call_ok_mono c); [done| |done|by apply co_calls0].
    intros j [[e Hp]|[(e & pl & Hrd)|[(e' & l & Hl & _)|Hh]]].
    + destruct r as [p|e'], Hr as [Hr Hs'].
      * destruct (decide (i = j)) as [<-|Hne].
        -- right. left. exists e, payload. cbn. rewrite Hr in Hp. by injection Hp as ->.
        -- left. exists e. cbn. by rewrite Hs', lookup_delete_ne.
      * left. exists e. cbn. by rewrite Hs'.
    + by apply Hnr in Hrd.
    + rewrite Hf in Hl. set_solver.
    + by right; right; right.
  - intros k r' Hk. destruct (co_replies0 k r' Hk) as (j & e & Ho & [(pl & Hin & ->)|(t & Htt & _)]); [|congruence].
    exists j, e. split; [done|]. left. exists pl. split; [|done]. cbn. set_solver.
  - intros p pl Hrd. destruct r as [p'|e]; [|done]. injection Hrd as -> ->. destruct Hr as [Hr _].
    split; [|by eapply Hun]. exists i. split; [by apply Hop|]. set_solver.
  - by left.
  - rewrite Hts, Ht, Hf, Hsd. split; [by intros [? ?]|by intros [?|?]].
Qed.
Lemma settle_step_ok c p payload phase :
  client_ok c → cl_reader c = RSettle p payload → (∀ p pl, phase ≠ RSettle p pl) →
  client_ok (with_reader (send_reply c (pr_reply p) (settle_pending (pr_expected p) payload)) phase).
Proof.
  intros H Hrd Hph. pose proof (co_reader _ H p payload Hrd) as [(i & Ho & Hin) Hn].
  destruct H. split; cbn; try done.
  - intros k ph Hk. eapply (client_call_ok_mono c); [done| | |by apply co_calls0].
    + intros j [Hh|[(e & pl & Hr)|[Hh|Hh]]]; [by left| |by right; right; left|].
      * right. right. right. cbn. rewrite Hrd in Hr. injection Hr as -> ->. cbn. rewrite lookup_insert_eq. by eexists.
      * right. right. right. cbn. rewrite lookup_insert_is_Some. destruct (decide (pr_reply p = k)); auto.
    + intros r Hkr. cbn. rewrite lookup_insert_ne; [done|]. intros <-. congruence.
  - intros k r [[<- <-]|[_ Hk]]%lookup_insert_Some; [|by apply co_replies0].
    exists i, (pr_expected p). split; [done|]. left. by exists payload.
  - intros q pl Hr. by apply Hph in Hr.
  - destruct co_finishing0 as [->|(e & l & -> & Hte & Hnd & Hl)]; [by left|right]. exists e, l.
    split_and!; [done..|]. intros k Hk. destruct (Hl k Hk) as [(j & e' & Hoj & Hj) Hnone].
    split; [by exists j, e'|]. rewrite lookup_insert_ne; [done|]. intros <-.
    destruct (owns_id _ _ _ _ _ _ Ho Hoj) as [<- _]. apply Hj, list_elem_of_fmap. by exists (i, payload).
Qed.
Lemma reader_step_ok decode c input c' : client_ok c → reader_step decode c input = Some c' → client_ok c'.
Proof.
  intros H Hr. unfold reader_step in Hr. destruct (cl_reader c) as [| |f|f|f|env|p pl|e pl|err|] eqn:Hrd.
  all: try (assert (∀ p pl, cl_reader c ≠ RSettle p pl) as Hns by (intros ? ?; congruence)).
  - injection Hr as <-. apply client_ok_reader; [done|by destruct (rs_terminal _)|done].
  - destruct (cl_shutdown c); injection Hr as <-; (apply client_ok_reader; [done| |done]); [done|by destruct input].
  - injection Hr as <-. apply client_ok_reader; [done|by destruct (rs_terminal _)|done].
  - injection Hr as <-. apply client_ok_reader; [done|by repeat case_match|done].
  - injection Hr as <-. apply client_ok_reader; [done|by repeat case_match|done].
  - destruct (_ =? 0).
    + destruct (client_event _); injection Hr as <-; [|by apply client_ok_reader].
      apply client_ok_reader; [done|done|]. by apply client_ok_broadcast.
    + destruct (rs_terminal _) eqn:Ht; [injection Hr as <-; by apply client_ok_reader|].
      destruct (correlate _ _ _) as [s [r|e]] eqn:Hc; injection Hr as <-.
      * by apply correlate_step_ok.
      * destruct (correlate_ok _ _ _ _ _ _ _ (co_requests _ H) Hc) as [-> _].
        apply client_ok_reader; [done|done|]. by destruct c.
  - injection Hr as <-. apply settle_step_ok; [done|done|by case_match].
  - injection Hr as <-. apply client_ok_reader; [done|by case_match|done].
  - injection Hr as <-. apply client_ok_reader; [|done|by apply client_terminate_ok].
    intros p pl. unfold client_terminate. repeat case_match; cbn; by rewrite Hrd.
  - done.
Qed.
Lemma writer_step_ok encoded_len encode c stop sent c' :
  client_ok c → writer_step encoded_len encode c stop sent = Some c' → client_ok c'.
Proof.
  intros H Hw. unfold writer_step in Hw. destruct (cl_writer_phase c) as [|out|wire|err|]; try done.
  - destruct stop; [destruct (cl_shutdown c); [|done]; injection Hw as <-; by apply writer_stop_ok|].
    destruct (cl_writer c) as [|out queue] eqn:Hq; [done|]. injection Hw as <-.
    apply client_ok_writer, client_ok_queue; [|done]. pose proof (co_writer_len _ H) as Hl.
    rewrite Hq in Hl. unfold len in *. cbn in Hl. lia.
  - injection Hw as <-. by apply client_ok_writer.
  - destruct stop; [destruct (cl_shutdown c); [|done]; injection Hw as <-; by apply writer_stop_ok|].
    destruct sent; injection Hw as <-; [|by apply client_ok_writer]. by apply client_ok_writer, client_ok_wire.
  - injection Hw as <-. by apply writer_stop_ok, client_terminate_ok.
Qed.

Section codec.
Context (encoded_len : Envelope → Z) (encode : Envelope → result string Bytes)
  (decode : Bytes → result string Envelope).
Lemma client_exec_ok op c c' :
  client_ok c → client_exec encoded_len encode decode op c = Some c' → client_ok c'.
Proof.
  intros H He. destruct op; cbn [client_exec] in He.
  - injection He as <-. by apply request_begin_ok.
  - by eapply request_submit_ok.
  - by eapply request_remove_ok.
  - by eapply request_receive_ok.
  - by eapply request_cancel_ok.
  - by eapply finish_step_ok.
  - by eapply reader_step_ok.
  - by eapply writer_step_ok.
  - injection He as <-. by apply client_terminate_ok.
  - injection He as <-. by apply client_terminate_ok.
  - destruct (rs_terminal _); [|done]. unfold abort_reader in He. destruct (cl_reader c) eqn:Hr; try done.
    injection He as <-. apply client_ok_reader; [intros ? ?; congruence|done|done].
  - destruct (rs_terminal _); [|done]. unfold abort_writer in He.
    destruct (cl_writer_phase c); try done; injection He as <-; by apply writer_stop_ok.
Qed.
Lemma client_reachable_ok c : client_reachable encoded_len encode decode c → client_ok c.
Proof.
  intros (o & l & Hp & Hw & Hr). pose proof (client_ok_init o l Hp Hw) as Hi.
  induction Hr as [|c c1 c2 [op Hop] _ IH]; [done|]. apply IH. by eapply client_exec_ok.
Qed.
End codec.
