(* ===== verification/ClientSpec.v ===== *)
(** * robot-hal-client: what a connection guarantees

    The theorems about [ClientConnection]'s system: whose answer a caller gets, that it gets
    one, what a termination does, and the bounds of the bookkeeping. *)

From S2P Require Import Prelude Core Lifecycle SerialRegistry CanTypes WireCore Envelope.
From S2P Require Import ClientWire ClientValidate ClientConnection ClientInv.

Section codec.
Context (encoded_len : Envelope → Z) (encode : Envelope → result string Bytes)
  (decode : Bytes → result string Envelope).
Implicit Types c : Client.
Abbreviation exec := (client_exec encoded_len encode decode).
Abbreviation step := (client_step encoded_len encode decode).
Abbreviation reachable := (client_reachable encoded_len encode decode).

(** ** What only grows *)
Lemma client_terminate_frame c error :
  let c' := client_terminate c error in
  cl_replies c' = cl_replies c ∧ cl_asked c' = cl_asked c ∧ cl_correlated c' = cl_correlated c ∧
  cl_reader c' = cl_reader c ∧ cl_calls c' = cl_calls c ∧
  (is_Some (rs_terminal (cl_requests c)) → c' = c).
Proof.
  cbv zeta. unfold client_terminate, begin_termination.
  destruct (rs_terminal (cl_requests c)) eqn:Ht; split_and!; try done.
  - intros _. by destruct c.
Qed.
(** What a step does once the connection has terminated, or is to keep anyway. *)
Record keeps c c' : Prop := {
  ke_replies k r : cl_replies c !! k = Some r → cl_replies c' !! k = Some r;
  ke_asked : cl_asked c `prefix_of` cl_asked c';
  ke_correlated : cl_correlated c `prefix_of` cl_correlated c';
  ke_terminal e : rs_terminal (cl_requests c) = Some e →
    rs_terminal (cl_requests c') = Some e ∧ cl_correlated c' = cl_correlated c;
}.
Lemma keeps_frame c c' :
  cl_replies c' = cl_replies c → cl_asked c' = cl_asked c → cl_correlated c' = cl_correlated c →
  (∀ e, rs_terminal (cl_requests c) = Some e → rs_terminal (cl_requests c') = Some e) → keeps c c'.
Proof. intros Hr Ha Hc Ht. split; rewrite ?Hr, ?Ha, ?Hc; [done|done|done|by auto]. Qed.
Lemma keeps_terminate c error : keeps c (client_terminate c error).
Proof.
  destruct (client_terminate_frame c error) as (Hr & Ha & Hc & _ & _ & Ht).
  apply keeps_frame; try done. intros e He. rewrite Ht; [done|by eexists].
Qed.
Lemma keeps_reply c k r : cl_replies c !! k = None → keeps c (send_reply c k r).
Proof.
  intros Hn. split; cbn; try done. intros k' r' Hk'. rewrite lookup_insert_ne; [done|]. intros <-. congruence.
Qed.
Lemma request_admit_terminal cap s expected k :
  rs_terminal (request_admit cap s expected k).1 = rs_terminal s.
Proof.
  unfold request_admit. destruct (rs_terminal s) eqn:Ht; [done|]. destruct (_ <=? _); [done|].
  unfold take_request_id. by destruct (_ =? 0).
Qed.
Lemma guard_drop_terminal cap s i e :
  rs_terminal s = Some e → rs_terminal (guard_drop cap s i).1 = Some e.
Proof.
  intros Ht. unfold guard_drop. destruct (rs_pending s !! i); [|done].
  destruct (_ <=? _); [|done]. unfold begin_termination. cbn. by rewrite Ht.
Qed.
Lemma exec_keeps op c c' : client_ok c → exec op c = Some c' → keeps c c'.
Proof.
  intros H He. destruct op; cbn [client_exec] in He.
  - injection He as <-. unfold request_begin. pose proof (request_admit_terminal (cl_capacity c)
      (cl_requests c) expected (length (cl_calls c))) as Ht.
    destruct (request_admit _ _ _ _) as [s [i|e]]; cbn in Ht; (split; cbn; [done| |done|by rewrite Ht]);
      by eexists.
  - unfold request_submit in He. repeat case_match; simplify_eq; by apply keeps_frame.
  - unfold request_remove in He. repeat case_match; simplify_eq; by apply keeps_frame.
  - unfold request_receive in He. repeat case_match; simplify_eq; by apply keeps_frame.
  - unfold request_cancel in He. destruct (cl_calls c !! call) as [[]|]; try done.
    pose proof (guard_drop_terminal (cl_capacity c) (cl_requests c) request_id) as Ht.
    destruct (guard_drop _ _ _) as [s f]. injection He as <-. by apply keeps_frame.
  - unfold finish_step in He. destruct (cl_finishing c !! job) as [[error [|x l]]|] eqn:Hf; [..|done].
    { injection He as <-. by apply keeps_frame. }
    destruct ((x :: l) !! reply) as [k|] eqn:Hk; [|done]. injection He as <-.
    assert (cl_replies c !! k = None) as Hn.
    { destruct (co_finishing _ H) as [Hf0|(e & l' & Hf0 & _ & _ & Hl)]; rewrite Hf0 in Hf; [done|].
      apply list_lookup_singleton_Some in Hf as [_ [= -> ->]]. apply Hl. by eapply list_elem_of_lookup_2. }
    split; cbn; try done. intros k' r' Hk'. rewrite lookup_insert_ne; [done|]. intros <-. congruence.
  - unfold reader_step in He. destruct (cl_reader c) as [| |f|f|f|env|p pl|e pl|err|] eqn:Hr.
    all: try (repeat case_match; simplify_eq; by apply keeps_frame).
    + destruct (_ =? 0).
      { destruct (client_event _); injection He as <-; by apply keeps_frame. }
      destruct (rs_terminal (cl_requests c)) eqn:Ht; [injection He as <-; by apply keeps_frame|].
      destruct (correlate _ _ _) as [s [r|e]] eqn:Hc; injection He as <-.
      * split; cbn; [done|done|by eexists|]. intros e. congruence.
      * apply keeps_frame; try done. cbn. intros e'. congruence.
    + injection He as <-. destruct (co_reader _ H p pl Hr) as [_ Hn].
      destruct (keeps_reply c (pr_reply p) (settle_pending (pr_expected p) pl) Hn) as [A B C D].
      by split.
    + injection He as <-. by destruct (keeps_terminate c err).
  - unfold writer_step in He. destruct (cl_writer_phase c); repeat case_match; simplify_eq;
      try (by apply keeps_frame). by destruct (keeps_terminate c error).
  - injection He as <-. apply keeps_terminate.
  - injection He as <-. apply keeps_terminate.
  - unfold abort_reader in He. repeat case_match; simplify_eq; by apply keeps_frame.
  - unfold abort_writer in He. repeat case_match; simplify_eq; by apply keeps_frame.
Qed.
Lemma steps_keep c c' : client_ok c → rtc step c c' → keeps c c' ∧ client_ok c'.
Proof.
  intros H Hr. induction Hr as [c|c c1 c2 [op Hop] _ IH].
  - split; [|done]. by apply keeps_frame.
  - pose proof (exec_keeps op c c1 H Hop) as [A B C D]. pose proof (client_exec_ok _ _ _ _ _ _ H Hop) as H1.
    destruct (IH H1) as [[A' B' C' D'] H2]. split; [|done]. split; [eauto|by etrans|by etrans|].
    intros e He. destruct (D e He) as [He1 Hc1]. destruct (D' e He1) as [He2 Hc2]. by rewrite Hc2.
Qed.

(** ** Answers *)
Lemma settle_pending_Ok e payload p :
  settle_pending e payload = Ok p → payload = Some p ∧ validate_response e p = Ok tt.
Proof.
  unfold settle_pending. destruct payload as [q|]; [|done].
  assert (validate_response e q ≫= (λ _, Ok q) = Ok p → Some q = Some p ∧ validate_response e p = Ok tt) as Hv.
  { destruct (validate_response e q) as [[]|] eqn:Hr; [|done]. cbn. intros [= <-]. done. }
  destruct q; try exact Hv. clear Hv. destruct (error_from_proto m); cbn; done.
Qed.
(** C7: a caller of [request] gets a payload only if it is the payload of a response that
    bore the id of its own request, an id that no other request had; the response is the only one
    taken for that id, and it has passed the validation for what the caller asked; and the
    answer stands whatever happens later. *)
Theorem client_answer_is_own c k p :
  reachable c → cl_calls c !! k = Some (CallDone (Ok p)) →
  ∃ i asked e,
    cl_asked c !! k = Some (Some i, asked, e) ∧ (i, Some p) ∈ cl_correlated c ∧
    validate_response e p = Ok tt ∧
    (∀ k' asked' e', cl_asked c !! k' = Some (Some i, asked', e') → k' = k) ∧
    NoDup (fst <$> cl_correlated c) ∧
    (∀ c', rtc step c c' → cl_replies c' !! k = Some (Ok p)).
Proof.
  intros Hr%client_reachable_ok Hk. pose proof (co_calls _ Hr k _ Hk) as Hrep. cbn in Hrep.
  destruct (co_replies _ Hr k _ Hrep) as (i & e & [asked Ho] & [(pl & Hin & Hs)|(t & _ & [=])]).
  symmetry in Hs. apply settle_pending_Ok in Hs as [-> Hv]. exists i, asked, e. split_and!; try done.
  - intros k' asked' e' Hk'. by eapply (ro_inj _ _ _ _ (co_requests _ Hr)); eexists.
  - apply (ro_once _ _ _ _ (co_requests _ Hr)).
  - intros c' Hc'. destruct (steps_keep c c' Hr Hc') as [[Hke _ _ _] _]. by apply Hke.
Qed.

(** C8: a waiting caller is never forgotten: its request is pending, or its answer is in the
    hand of the reader, with a termination, or in its channel; a termination leaves none
    waiting, since one step answers each; and while the connection runs, the response that the
    reader holds for the request becomes the caller's answer. *)
Theorem client_waiters_answered c k i :
  reachable c → cl_calls c !! k = Some (CallWait i) →
  request_held c k i ∧
  (is_Some (rs_terminal (cl_requests c)) →
     is_Some (cl_replies c !! k) ∨
     ∃ op c', exec op c = Some c' ∧ is_Some (cl_replies c' !! k)) ∧
  (∀ payload e, rs_terminal (cl_requests c) = None →
     cl_reader c = REnvelope (mkEnvelope i payload) →
     rs_pending (cl_requests c) !! i = Some (mkPendingRequest e k) →
     ∃ c1 c2, exec (OpReader FrameEnd) c = Some c1 ∧ exec (OpReader FrameEnd) c1 = Some c2 ∧
       cl_replies c2 !! k = Some (settle_pending e payload)).
Proof.
  intros Hr%client_reachable_ok Hk. pose proof (co_calls _ Hr k _ Hk) as [[e0 Ho] Hh]. split; [done|]. split.
  - intros Ht. destruct Hh as [[e He]|[(e & pl & Hrd)|[(error & l & Hl & Hkl)|Hs]]]; [..|by left].
    + rewrite (ro_terminal _ _ _ _ (co_requests _ Hr) Ht) in He. done.
    + right. exists (OpReader FrameEnd). eexists. cbn [client_exec]. unfold reader_step. rewrite Hrd.
      split; [done|]. cbn. rewrite lookup_insert_eq. by eexists.
    + right. apply list_elem_of_lookup in Hl as [j Hj]. apply list_elem_of_lookup in Hkl as [n Hn].
      exists (OpFinish j n). cbn [client_exec]. unfold finish_step. rewrite Hj.
      destruct l as [|x l]; [done|]. rewrite Hn. eexists. split; [done|]. cbn.
      rewrite lookup_insert_eq. by eexists.
  - intros payload e Ht Hrd Hp.
    assert (i ≠ 0) as Hi0.
    { destruct (ro_ids _ _ _ _ (co_requests _ Hr) k i e0 Ho). lia. }
    cbn [client_exec]. unfold reader_step at 1. rewrite Hrd. cbn [env_request_id env_payload].
    destruct (Z.eqb_spec i 0); [done|]. rewrite Ht. unfold correlate. rewrite Hp.
    eexists. eexists. split; [done|]. cbn. split; [done|]. cbn. by rewrite lookup_insert_eq.
Qed.

(** A termination is final: its error stays the connection's, no request is admitted or
    pending any more, no response is taken, and answers already given stand. *)
Theorem client_termination_final c c' error :
  reachable c → rs_terminal (cl_requests c) = Some error → rtc step c c' →
  rs_terminal (cl_requests c') = Some error ∧ rs_pending (cl_requests c') = ∅ ∧
  cl_correlated c' = cl_correlated c ∧
  (∀ k r, cl_replies c !! k = Some r → cl_replies c' !! k = Some r) ∧
  (∀ payload expected,
     cl_calls (request_begin c' payload expected) = cl_calls c' ++ [CallDone (Err error)]).
Proof.
  intros Hr%client_reachable_ok Ht Hs. destruct (steps_keep c c' Hr Hs) as [[Hk _ _ Hke] H'].
  destruct (Hke error Ht) as [Ht' Hc']. split_and!; try done.
  - apply (ro_terminal _ _ _ _ (co_requests _ H')). by eexists.
  - intros payload expected. unfold request_begin, request_admit. by rewrite Ht'.
Qed.

(** The bookkeeping is bounded: pending requests, cancelled ones and the ids remembered as
    completed by the capacity, the writer's queue by its own; after a termination at most twice
    the capacity of cancelled ones; and every id handed out is above 1, within 64 bits and
    unique. *)
Theorem client_bounded c :
  reachable c →
  let s := cl_requests c in
  Z.of_nat (size (rs_pending s)) <= cl_capacity c ∧
  Z.of_nat (size (rs_cancelled s)) <= (if is_some (rs_terminal s) then 2 else 1) * cl_capacity c ∧
  Z.of_nat (size (rs_completed s)) <= cl_capacity c ∧
  len (rs_completed_order s) <= cl_capacity c ∧
  len (cl_writer c) <= cl_writer_capacity c ∧
  (∀ k i p e, cl_asked c !! k = Some (Some i, p, e) → 2 <= i <= u64_max) ∧
  (∀ k k' i p p' e e', cl_asked c !! k = Some (Some i, p, e) →
     cl_asked c !! k' = Some (Some i, p', e') → k = k').
Proof.
  intros Hr%client_reachable_ok s. pose proof (co_requests _ Hr) as H. fold s in H.
  pose proof (ro_size _ _ _ _ H). pose proof (ro_cancelled_size _ _ _ _ H).
  pose proof (ro_order_len _ _ _ _ H). split_and!.
  - apply (ro_pending_size _ _ _ _ H).
  - destruct (rs_terminal s); cbn [is_some]; [lia|]. rewrite Z.mul_1_l. auto.
  - rewrite (ro_completed _ _ _ _ H), size_list_to_set by apply (ro_order _ _ _ _ H). done.
  - done.
  - apply (co_writer_len _ Hr).
  - intros k i p e Hk. by eapply (ro_ids _ _ _ _ H k); eexists.
  - intros k k' i p p' e e' Hk Hk'. by eapply (ro_inj _ _ _ _ H); eexists.
Qed.

(** ** Late, stray and hostile responses *)
(** The response to a cancelled request is consumed in silence when it is one the request
    could have had: no caller is answered, nothing is pending less, the connection stays up
    and the id is not expected again. *)
Theorem client_late_response_quiet c i e payload :
  reachable c → rs_terminal (cl_requests c) = None → i ≠ 0 →
  cl_reader c = REnvelope (mkEnvelope i payload) → rs_cancelled (cl_requests c) !! i = Some e →
  settle_cancelled e payload = Ok tt →
  ∃ c1 c2, exec (OpReader FrameEnd) c = Some c1 ∧ exec (OpReader FrameEnd) c1 = Some c2 ∧
    cl_reader c2 = RTop ∧ rs_terminal (cl_requests c2) = None ∧ cl_replies c2 = cl_replies c ∧
    rs_pending (cl_requests c2) = rs_pending (cl_requests c) ∧
    rs_cancelled (cl_requests c2) = delete i (rs_cancelled (cl_requests c)).
Proof.
  intros Hr%client_reachable_ok Ht Hi Hrd Hc Hs. pose proof (co_requests _ Hr) as H.
  assert (rs_pending (cl_requests c) !! i = None) as Hp.
  { apply eq_None_ne_Some_2. intros p Hp. rewrite (ro_disjoint _ _ _ _ H i) in Hc; [done|by exists p]. }
  cbn [client_exec]. unfold reader_step at 1. rewrite Hrd. cbn [env_request_id env_payload].
  destruct (Z.eqb_spec i 0); [done|]. rewrite Ht. unfold correlate. rewrite Hp, Hc.
  destruct (remember_completed_frame (rs_set_cancelled (cl_requests c) (delete i (rs_cancelled (cl_requests c))))
    i (cl_capacity c)) as (Hf1 & Hf2 & Hf3).
  eexists. eexists. split; [done|]. cbn. rewrite Hs. split; [done|]. cbn. by rewrite Hf1, Hf2, Hf3.
Qed.
(** A termination of a running connection: the answer of every pending request is under way. *)
Lemma client_terminate_running c error :
  client_ok c → rs_terminal (cl_requests c) = None →
  let c' := client_terminate c error in
  rs_terminal (cl_requests c') = Some error ∧
  ∃ replies, cl_finishing c' = [(error, replies)] ∧
    ∀ j q, rs_pending (cl_requests c) !! j = Some q → pr_reply q ∈ replies.
Proof.
  intros H Ht. destruct (running_state c H Ht) as [Hf _]. cbv zeta. unfold client_terminate.
  destruct (begin_termination _ _ _) as [s replies] eqn:Hb.
  destruct (begin_termination_ok _ _ _ _ _ _ _ (co_requests _ H) Hb) as [_ Hr].
  destruct replies as [replies|]; [|destruct Hr as [_ [? ?]]; congruence].
  destruct Hr as (_ & Ht' & _ & Hperm). cbn. split; [done|]. exists replies. rewrite Hf. split; [done|].
  intros j q Hq. rewrite Hperm. apply list_elem_of_fmap. exists (j, q). by rewrite elem_of_map_to_list.
Qed.
(** A response whose id belongs to no pending or cancelled request (one never given out, or
    one that has had its response) answers nobody: it ends the connection with a conflict, which
    becomes the answer of every request then pending. *)
Theorem client_stray_response_disconnects c i payload :
  reachable c → rs_terminal (cl_requests c) = None → i ≠ 0 →
  cl_reader c = REnvelope (mkEnvelope i payload) →
  (i ∈ (fst <$> cl_correlated c) ∨ ∀ k asked e, cl_asked c !! k ≠ Some (Some i, asked, e)) →
  ∃ c1 c2 error, exec (OpReader FrameEnd) c = Some c1 ∧ exec (OpReader FrameEnd) c1 = Some c2 ∧
    cl_reader c2 = RDone ∧ cl_replies c2 = cl_replies c ∧
    rs_terminal (cl_requests c2) = Some error ∧ err_category error = Conflict ∧
    ∃ replies, cl_finishing c2 = [(error, replies)] ∧
      ∀ j q, rs_pending (cl_requests c) !! j = Some q → pr_reply q ∈ replies.
Proof.
  intros Hr%client_reachable_ok Ht Hi Hrd Hstray. pose proof (co_requests _ Hr) as H.
  assert (rs_pending (cl_requests c) !! i = None ∧ rs_cancelled (cl_requests c) !! i = None) as [Hp Hc].
  { destruct Hstray as [Hin|Hno].
    - apply (ro_correlated _ _ _ _ H i) in Hin. tauto.
    - split; apply eq_None_ne_Some_2; intros x Hx.
      + destruct (ro_pending _ _ _ _ H i x Hx) as [a Ha]. by apply Hno in Ha.
      + destruct (ro_cancelled _ _ _ _ H i x Hx) as (k & a & Ha). by apply Hno in Ha. }
  cbn [client_exec]. unfold reader_step at 1. rewrite Hrd. cbn [env_request_id env_payload].
  destruct (Z.eqb_spec i 0); [done|]. rewrite Ht. unfold correlate. rewrite Hp, Hc.
  set (error := if bool_decide _ then _ else _).
  assert (with_requests c (cl_requests c) = c) as Hsame by (by destruct c).
  eexists. eexists. exists error. split; [done|]. unfold reader_step. cbn [cl_reader with_reader].
  split; [done|]. rewrite Hsame.
  assert (client_ok (with_reader c (RTerminate error))) as Hok
    by (apply client_ok_reader; [intros ? ?; congruence|done|done]).
  destruct (client_terminate_running _ error Hok Ht) as [Ht' Hreplies].
  destruct (client_terminate_frame (with_reader c (RTerminate error)) error) as (Hrep & _).
  split_and!; [done|exact Hrep|exact Ht'| |exact Hreplies].
  unfold error. by case_bool_decide.
Qed.
(** An error response that the broker sends to refuse one request as malformed
    ([runtime.protocol.invalid_message]) ends the whole connection: every other pending request
    is answered with that refusal. *)
Theorem client_refusal_disconnects c p e :
  reachable c → rs_terminal (cl_requests c) = None →
  cl_reader c = RSettle p (Some (PError (HalError_to_proto e))) → error_wf e →
  err_name e = mkErrorName "runtime.protocol.invalid_message" →
  ∃ c1 c2, exec (OpReader FrameEnd) c = Some c1 ∧ exec (OpReader FrameEnd) c1 = Some c2 ∧
    let error := attach_expected e (pr_expected p) in
    cl_reader c2 = RDone ∧ rs_terminal (cl_requests c2) = Some error ∧
    ∃ replies, cl_finishing c2 = [(error, replies)] ∧
      ∀ j q, rs_pending (cl_requests c) !! j = Some q → pr_reply q ∈ replies.
Proof.
  intros Hr%client_reachable_ok Ht Hrd Hwf Hname.
  assert (settle_pending (pr_expected p) (Some (PError (HalError_to_proto e)))
          = Err (attach_expected e (pr_expected p))) as Hs.
  { unfold settle_pending. by rewrite error_from_to. }
  set (error := attach_expected e (pr_expected p)) in *.
  assert (settle_terminal (Err error) = Some error) as Hterm.
  { unfold settle_terminal. rewrite bool_decide_eq_true_2; [done|].
    assert (err_name error = err_name e) as ->; [|rewrite Hname; cbn; set_solver].
    unfold error, attach_expected, attach_resource. by repeat case_match. }
  cbn [client_exec]. unfold reader_step at 1. rewrite Hrd, Hs, Hterm.
  eexists. eexists. split; [done|]. unfold reader_step. cbn [cl_reader with_reader]. split; [done|].
  pose proof (settle_step_ok c p _ (RTerminate error) Hr Hrd ltac:(done)) as Hok. rewrite Hs in Hok.
  destruct (client_terminate_running _ error Hok Ht) as [Ht' Hreplies].
  split_and!; [done|exact Ht'|exact Hreplies].
Qed.
End codec.

(** ** Runs

    A codec of four bytes stands for protobuf's: the id of the envelope and which of two
    responses it has. *)
Definition cx_resource : ResourceId := mkResourceId "usb:0".
Definition cx_refusal : HalError :=
  client_error "runtime.protocol.invalid_message" InvalidArgument "runtime.protocol.decode" false "refused".
Definition cx_decode (frame : Bytes) : result string Envelope :=
  Ok (mkEnvelope (nth 1 frame 0)
        (Some (if nth 3 frame 0 =? 0 then CloseUsbResponse else PError (HalError_to_proto cx_refusal)))).
Definition cx_exec : ClientOp → Client → option Client :=
  client_exec (λ _, 10) (λ _, Ok []) cx_decode.
Definition cx_init : Client :=
  let options := ConnectionOptions_new [] in Client_new options (requested_limits options).
Definition client_run (ops : list ClientOp) : option Client :=
  foldl (λ c op, c ≫= cx_exec op) (Some cx_init) ops.
Definition cx_default (ops : list ClientOp) : Client := default cx_init (client_run ops).
Abbreviation cx_reachable := (client_reachable (λ _, 10) (λ _, Ok []) cx_decode).
Lemma client_run_reachable ops : is_some (client_run ops) = true → cx_reachable (cx_default ops).
Proof.
  unfold cx_default. destruct (client_run ops) as [c|] eqn:Hr; [|done]. intros _.
  exists (ConnectionOptions_new []), (requested_limits (ConnectionOptions_new [])). split; [done|]. split; [done|].
  fold cx_init. revert Hr. unfold client_run. generalize cx_init. induction ops as [|op ops IH]; cbn.
  - intros c0 [= ->]. apply rtc_refl.
  - intros c0 Hr. destruct (cx_exec op c0) as [c1|] eqn:Hx.
    + eapply rtc_l; [by exists op|]. by apply IH.
    + exfalso. clear IH. by induction ops.
Qed.
Lemma cx_refusal_wf : error_wf cx_refusal.
Proof.
  split_and!; try done; try (by repeat split).
  split_and!; [vm_compute; congruence|constructor|constructor|vm_compute; congruence].
Qed.
Ltac client_run_reachable := apply client_run_reachable; vm_compute; reflexivity.
Definition cx_request : list ClientOp :=
  [OpRequest CloseUsbResponse (ExpCloseUsb cx_resource)].
Definition cx_wait (k : nat) : list ClientOp := cx_request ++ [OpSubmit k].
(** The reader takes a frame up to its envelope; then what it makes of it. *)
Definition cx_read (id tag : Z) : list ClientOp :=
  [OpReader FrameEnd; OpReader (FrameIn [8; id; 16; tag]); OpReader FrameEnd; OpReader FrameEnd;
   OpReader FrameEnd].
Definition cx_settle : list ClientOp := [OpReader FrameEnd; OpReader FrameEnd].
Definition cx_two : list ClientOp := cx_wait 0 ++ cx_wait 1.
Definition cx_answered : list ClientOp := cx_two ++ cx_read 3 0 ++ cx_settle ++ [OpReceive 1].
Definition cx_cancelled : list ClientOp := cx_two ++ [OpCancel 0] ++ cx_read 2 0.
Definition cx_stray : list ClientOp := cx_answered ++ cx_read 3 0.
Definition cx_refused : list ClientOp := cx_two ++ cx_read 3 1 ++ [OpReader FrameEnd].
Definition cx_failed : list ClientOp := cx_two ++ [OpFail cx_refusal].

Lemma client_answer_is_own_witness :
  ∃ i asked e, cl_asked (cx_default cx_answered) !! 1%nat = Some (Some i, asked, e) ∧ i = 3.
Proof.
  assert (cx_reachable (cx_default cx_answered)) as Hr by client_run_reachable.
  assert (cl_calls (cx_default cx_answered) !! 1%nat = Some (CallDone (Ok CloseUsbResponse))) as Hk
    by (vm_compute; reflexivity).
  destruct (client_answer_is_own _ _ _ _ 1%nat CloseUsbResponse Hr Hk) as (i & asked & e & Ha & _).
  exists i, asked, e. split; [exact Ha|].
  assert (fst <$> (fst <$> (cl_asked (cx_default cx_answered) !! 1%nat)) = Some (Some 3)) as H3
    by (vm_compute; reflexivity).
  rewrite Ha in H3. by injection H3.
Defined.
Lemma client_waiters_answered_witness :
  ∃ c1 c2, cx_exec (OpReader FrameEnd) (cx_default (cx_two ++ cx_read 3 0)) = Some c1 ∧
    cx_exec (OpReader FrameEnd) c1 = Some c2 ∧ cl_replies c2 !! 1%nat = Some (Ok CloseUsbResponse).
Proof.
  assert (cx_reachable (cx_default (cx_two ++ cx_read 3 0))) as Hr by client_run_reachable.
  assert (cl_calls (cx_default (cx_two ++ cx_read 3 0)) !! 1%nat = Some (CallWait 3)) as Hk
    by (vm_compute; reflexivity).
  destruct (client_waiters_answered _ _ _ _ 1%nat 3 Hr Hk) as (_ & _ & Ha).
  apply (Ha (Some CloseUsbResponse) (ExpCloseUsb cx_resource)); vm_compute; reflexivity.
Defined.
Lemma client_termination_final_witness :
  rs_pending (cl_requests (cx_default cx_failed)) = ∅.
Proof.
  assert (cx_reachable (cx_default cx_failed)) as Hr by client_run_reachable.
  assert (rs_terminal (cl_requests (cx_default cx_failed)) = Some cx_refusal) as Ht
    by (vm_compute; reflexivity).
  exact (proj1 (proj2 (client_termination_final _ _ _ _ _ cx_refusal Hr Ht (rtc_refl _ _)))).
Defined.
Lemma client_bounded_witness :
  Z.of_nat (size (rs_pending (cl_requests (cx_default cx_two)))) <= 32.
Proof.
  assert (cx_reachable (cx_default cx_two)) as Hr by client_run_reachable.
  exact (proj1 (client_bounded _ _ _ _ Hr)).
Defined.
Lemma client_late_response_quiet_witness :
  ∃ c1 c2, cx_exec (OpReader FrameEnd) (cx_default cx_cancelled) = Some c1 ∧
    cx_exec (OpReader FrameEnd) c1 = Some c2 ∧ cl_replies c2 = cl_replies (cx_default cx_cancelled).
Proof.
  assert (cx_reachable (cx_default cx_cancelled)) as Hr by client_run_reachable.
  assert (rs_terminal (cl_requests (cx_default cx_cancelled)) = None) as Ht by (vm_compute; reflexivity).
  assert (cl_reader (cx_default cx_cancelled) = REnvelope (mkEnvelope 2 (Some CloseUsbResponse))) as Hrd
    by (vm_compute; reflexivity).
  assert (rs_cancelled (cl_requests (cx_default cx_cancelled)) !! 2 = Some (ExpCloseUsb cx_resource)) as Hc
    by (vm_compute; reflexivity).
  destruct (client_late_response_quiet _ _ _ _ 2 _ _ Hr Ht ltac:(lia) Hrd Hc eq_refl)
    as (c1 & c2 & H1 & H2 & _ & _ & H3 & _).
  exists c1, c2. exact (conj H1 (conj H2 H3)).
Defined.
Lemma client_stray_response_disconnects_witness :
  ∃ c1 c2 error, cx_exec (OpReader FrameEnd) (cx_default cx_stray) = Some c1 ∧
    cx_exec (OpReader FrameEnd) c1 = Some c2 ∧ cl_reader c2 = RDone ∧
    rs_terminal (cl_requests c2) = Some error ∧ err_category error = Conflict.
Proof.
  assert (cx_reachable (cx_default cx_stray)) as Hr by client_run_reachable.
  assert (rs_terminal (cl_requests (cx_default cx_stray)) = None) as Ht by (vm_compute; reflexivity).
  assert (cl_reader (cx_default cx_stray) = REnvelope (mkEnvelope 3 (Some CloseUsbResponse))) as Hrd
    by (vm_compute; reflexivity).
  assert (3 ∈ (fst <$> cl_correlated (cx_default cx_stray))) as Hin
    by (refine (proj1 (bool_decide_eq_true _) _); vm_compute; reflexivity).
  destruct (client_stray_response_disconnects _ _ _ _ 3 _ Hr Ht ltac:(lia) Hrd (or_introl Hin))
    as (c1 & c2 & error & H1 & H2 & H3 & _ & H4 & H5 & _).
  exists c1, c2, error. exact (conj H1 (conj H2 (conj H3 (conj H4 H5)))).
Defined.
Lemma client_refusal_disconnects_witness :
  ∃ c1 c2, cx_exec (OpReader FrameEnd) (cx_default cx_refused) = Some c1 ∧
    cx_exec (OpReader FrameEnd) c1 = Some c2 ∧ cl_reader c2 = RDone ∧
    rs_terminal (cl_requests c2) = Some (attach_resource cx_refusal cx_resource).
Proof.
  assert (cx_reachable (cx_default cx_refused)) as Hr by client_run_reachable.
  assert (rs_terminal (cl_requests (cx_default cx_refused)) = None) as Ht by (vm_compute; reflexivity).
  assert (cl_reader (cx_default cx_refused) = RSettle (mkPendingRequest (ExpCloseUsb cx_resource) 1)
            (Some (PError (HalError_to_proto cx_refusal)))) as Hrd by (vm_compute; reflexivity).
  destruct (client_refusal_disconnects _ _ _ _ _ _ Hr Ht Hrd cx_refusal_wf eq_refl)
    as (c1 & c2 & H1 & H2 & H3 & H4 & _).
  exists c1, c2. exact (conj H1 (conj H2 (conj H3 H4))).
Defined.
