(* ===== verification/ClientHandles.v ===== *)
(** * robot-hal-client: the operations of a client and of its handles

    Models the methods of [HalClient] that open and enumerate (connection.rs) and those of
    the remote handles (serial.rs, usb.rs, gpio.rs, can.rs, camera.rs of
    crates/robot-hal-client/src).  A method is two functions around the request it sends:
    [.._prepare] gives the request, with the response it expects, or the local error;
    [.._settle] makes its result from the answer of [HalClient::request].  Handles change only
    in [closed] and, for cameras, in the mapping descriptor they keep. *)

From S2P Require Import Prelude Varint Core Lifecycle SerialRegistry CanTypes CameraTypes UsbTypes.
From S2P Require Import GpioTypes ShmLayout ShmRing WireCore WireCan WireUsbGpio WireCamera Envelope.
From S2P Require Import ClientWire ClientValidate.

(** What a method does with its answer: the value it returns, with the error for which it ends
    the connection ([fail]), or the [unreachable!()] of its [let .. else]. *)
Inductive Settled (A : Type) := SReturn (r : HalResult A) (fail : option HalError) | SUnreachable.
Global Arguments SReturn {A} r fail.
Global Arguments SUnreachable {A}.
Definition settle {A B} (attach : HalError → HalError) (extract : Payload → option B)
    (finish : B → Settled A) (reply : HalResult Payload) : Settled A :=
  match reply with
  | Err e => SReturn (Err (attach e)) None
  | Ok payload => match extract payload with Some b => finish b | None => SUnreachable end
  end.
(** [send(..).await?; Ok(())] *)
Definition settle_unit (attach : HalError → HalError) (reply : HalResult Payload) : Settled unit :=
  SReturn (map_err attach ((λ _, tt) <$> reply)) None.
(** A conversion whose error ends the connection. *)
Definition or_fail {A} (r : HalResult A) : Settled A := SReturn r (result_err r).
Definition or_fail_with {A} (attach : HalError → HalError) (r : HalResult A) : Settled A :=
  or_fail (map_err attach r).
Definition Prepared : Type := HalResult (Payload * ExpectedResponse).

(** ** [HalClient]: enumerating *)
Definition enumerate_serial_prepare : Prepared := Ok (EnumerateSerialRequest, ExpEnumerateSerial).
Definition enumerate_serial_settle : HalResult Payload → Settled (list ResourceDescriptor) :=
  settle id (λ p, match p with EnumerateSerialResponse r => Some r | _ => None end)
    (λ r, or_fail (enumerate_serial_response_from_proto r)).
Definition enumerate_can_prepare (limits : Limits) : Prepared :=
  require_can_capability limits "can.enumerate" None (λ l, lim_can_classic l || lim_can_fd l) ≫= λ _,
  Ok (EnumerateCanRequest, ExpEnumerateCan).
Definition enumerate_can_settle : HalResult Payload → Settled (list ResourceDescriptor) :=
  settle id (λ p, match p with EnumerateCanResponse r => Some r | _ => None end)
    (λ r, or_fail (enumerate_can_response_from_proto r)).
Definition enumerate_usb_prepare (limits : Limits) : Prepared :=
  require_minor_two limits "usb.enumerate" None lim_usb_control ≫= λ _,
  Ok (EnumerateUsbRequest, ExpEnumerateUsb).
Definition enumerate_usb_settle : HalResult Payload → Settled (list ResourceDescriptor) :=
  settle id (λ p, match p with EnumerateUsbResponse r => Some r | _ => None end)
    (λ r, or_fail (collect ResourceDescriptor_try_from r)).
Definition enumerate_gpio_prepare (limits : Limits) : Prepared :=
  require_minor_two limits "gpio.enumerate" None lim_gpio_lines ≫= λ _,
  Ok (EnumerateGpioRequest, ExpEnumerateGpio).
Definition enumerate_gpio_settle : HalResult Payload → Settled (list ResourceDescriptor) :=
  settle id (λ p, match p with EnumerateGpioResponse r => Some r | _ => None end)
    (λ r, or_fail (collect ResourceDescriptor_try_from r)).
Definition enumerate_camera_prepare (limits : Limits) : Prepared :=
  require_camera_capability limits "camera.enumerate" None lim_camera_capture ≫= λ _,
  Ok (EnumerateCameraRequest, ExpEnumerateCamera).
Definition enumerate_camera_settle : HalResult Payload → Settled (list ResourceDescriptor) :=
  settle id (λ p, match p with EnumerateCameraResponse r => Some r | _ => None end)
    (λ r, or_fail (collect ResourceDescriptor_try_from r)).

(** ** Handles *)
Record RemoteHandle := mkRemoteHandle {
  rh_resource_id : ResourceId;
  rh_session_id : SessionId;
  rh_lease : LeaseToken;
  rh_closed : bool;
}.
(** [local_error], the same in the five modules. *)
Definition local_error (h : RemoteHandle) (name : string) (category : ErrorCategory)
    (operation : string) (message : string) : HalError :=
  HalError_with_resource_id (static_error name category operation false message) (rh_resource_id h).
Definition argument_invalid (h : RemoteHandle) (operation message : string) : HalError :=
  local_error h "runtime.argument.invalid" InvalidArgument operation message.
Definition handle_ensure_open (message : string) (h : RemoteHandle) (operation : string) : HalResult unit :=
  if rh_closed h then Err (local_error h "runtime.session.closed" Conflict operation message) else Ok tt.
Definition resource_error (h : RemoteHandle) (error : HalError) : HalError :=
  attach_resource error (rh_resource_id h).
(** The session and the lease of every request. *)
Definition handle_session (h : RemoteHandle) : string := SessionId_as_str (rh_session_id h).
Definition handle_lease (h : RemoteHandle) : option v1_LeaseToken := Some (LeaseToken_to_proto (rh_lease h)).
Definition handle_request (h : RemoteHandle) : v1_SessionLease :=
  session_request (rh_session_id h) (rh_lease h).
Definition handle_close (h : RemoteHandle) : RemoteHandle :=
  mkRemoteHandle (rh_resource_id h) (rh_session_id h) (rh_lease h) true.
(** [closed] is set only once the broker has acknowledged. *)
Definition close_settle (h : RemoteHandle) (reply : HalResult Payload) : RemoteHandle * Settled unit :=
  (if is_ok reply then handle_close h else h, settle_unit (resource_error h) reply).
(** [u64::try_from(timeout.as_millis())] *)
Definition timeout_millis (h : RemoteHandle) (operation message : string) (timeout : Z) : HalResult Z :=
  ok_or (argument_invalid h operation message) (try_from u64_max (timeout / 1000000)).
Definition nonzero_millis (h : RemoteHandle) (operation message : string) (timeout_ms : Z)
    : HalResult unit :=
  if timeout_ms =? 0 then Err (argument_invalid h operation message) else Ok tt.

(** ** serial.rs *)
Definition open_serial_prepare (selector : ResourceSelector) (config : SerialConfig) : Prepared :=
  if bool_decide (sel_transport selector ≠ Serial) then
    Err (HalError_with_resource_id
           (client_error "runtime.argument.invalid" InvalidArgument "serial.open" false
              "serial resource selector transport must be Serial") (sel_id selector))
  else
    Ok (OpenSerialRequest (mk_v1_OpenSerialRequest (Some (ResourceSelector_to_proto selector))
          (Some (SerialConfig_to_proto config))), ExpOpenSerial).
Definition serial_from_response (resource_id : ResourceId) (response : v1_SessionLease)
    : HalResult RemoteHandle :=
  map_err (λ e, HalError_with_resource_id e resource_id) (open_serial_response_from_proto response)
  ≫= λ '(session_id, lease), Ok (mkRemoteHandle resource_id session_id lease false).
Definition open_serial_settle (selector : ResourceSelector)
    : HalResult Payload → Settled RemoteHandle :=
  settle id (λ p, match p with OpenSerialResponse r => Some r | _ => None end)
    (λ r, or_fail (serial_from_response (sel_id selector) r)).
Definition serial_ensure_open := handle_ensure_open "the remote serial handle is closed".
Definition limit_error (operation message : string) : HalError :=
  static_error "runtime.argument.invalid" InvalidArgument operation false message.
Definition serial_read_prepare (limits : Limits) (h : RemoteHandle) (max_bytes : Z) : Prepared :=
  serial_ensure_open h "serial.read" ≫= λ _,
  if (max_bytes =? 0) || (lim_read limits <? max_bytes) || (u32_max <? max_bytes) then
    Err (resource_error h (limit_error "serial.read" "read size exceeds the negotiated maximum"))
  else
    Ok (SerialReadRequest (mk_v1_SerialReadRequest (handle_session h) (handle_lease h)
          (max_bytes mod 2 ^ 32)), ExpSerialRead max_bytes).
Definition serial_read_settle (limits : Limits) (h : RemoteHandle) (max_bytes : Z)
    : HalResult Payload → Settled Bytes :=
  settle (resource_error h) (λ p, match p with SerialReadResponse data => Some data | _ => None end)
    (λ data,
      or_fail
        (if (max_bytes <? len data) || (lim_read limits <? len data) then
           Err (resource_error h
                  (limit_error "serial.read" "response exceeds the requested read size"))
         else Ok data)).
Fixpoint varint_len_rounds (rounds : nat) (value length : Z) : Z :=
  match rounds with
  | O => length
  | S rounds =>
      if 0x80 <=? value then varint_len_rounds rounds (Z.shiftr value 7) (length + 1) else length
  end.
(** A [u64] takes at most nine rounds. *)
Definition varint_len (value : Z) : Z := varint_len_rounds 10 value 1.
(** [request_len] is the [encoded_len] of the request without its data. *)
Definition serial_write_envelope_len (request_len data_len : Z) : Z :=
  let data_field_len := if data_len =? 0 then 0 else 1 + varint_len data_len + data_len in
  let request_len := request_len + data_field_len in
  11 + 2 + varint_len request_len + request_len.
Definition serial_write_prepare (request_encoded_len : v1_SerialWriteRequest → Z) (limits : Limits)
    (h : RemoteHandle) (bytes : Bytes) : Prepared :=
  serial_ensure_open h "serial.write" ≫= λ _,
  if lim_write limits <? len bytes then
    Err (resource_error h (limit_error "serial.write" "write size exceeds the negotiated maximum"))
  else
    let request := mk_v1_SerialWriteRequest (handle_session h) (handle_lease h) [] in
    if lim_frame limits <? serial_write_envelope_len (request_encoded_len request) (len bytes) then
      Err (resource_error h
             (limit_error "serial.write" "write envelope exceeds the negotiated frame maximum"))
    else
      Ok (SerialWriteRequest (mk_v1_SerialWriteRequest (handle_session h) (handle_lease h) bytes),
          ExpSerialWrite).
Definition serial_flush_prepare (h : RemoteHandle) : Prepared :=
  serial_ensure_open h "serial.flush" ≫= λ _,
  Ok (SerialFlushRequest (handle_request h), ExpSerialFlush).
Definition serial_set_control_lines_prepare (h : RemoteHandle) (lines : ControlLines) : Prepared :=
  serial_ensure_open h "serial.set_control_lines" ≫= λ _,
  Ok (SetSerialControlLinesRequest
        (mk_v1_SetSerialControlLinesRequest (handle_session h) (handle_lease h)
           (data_terminal_ready lines) (request_to_send lines)), ExpSetControlLines).
Definition serial_close_prepare (h : RemoteHandle) : Prepared :=
  serial_ensure_open h "serial.close" ≫= λ _,
  Ok (CloseSessionRequest (handle_request h), ExpCloseSession).

(** The length of an encoded envelope and of an encoded CAN frame are protobuf's. *)
Section encoded.
Context (encoded_len : Envelope → Z) (can_frame_encoded_len : v1_CanFrame → Z).
Definition ensure_payload_for_resource (limits : Limits) (payload : Payload) (operation : string)
    (resource_id : ResourceId) : HalResult unit :=
  ensure_payload_fits encoded_len limits payload operation (Some resource_id).
(** [ensure_payload_for_resource] on the request built last. *)
Definition fitted (limits : Limits) (operation : string) (resource_id : ResourceId)
    (request : Payload * ExpectedResponse) : Prepared :=
  ensure_payload_for_resource limits request.1 operation resource_id ≫= λ _, Ok request.

(** ** usb.rs *)
Definition open_usb_prepare (limits : Limits) (selector : ResourceSelector)
    (claim : UsbInterfaceClaim) : Prepared :=
  if bool_decide (sel_transport selector ≠ Usb) then
    Err (HalError_with_resource_id
           (client_error "runtime.argument.invalid" InvalidArgument "usb.open" false
              "USB resource selector transport must be Usb") (sel_id selector))
  else
    require_minor_two limits "usb.open" (Some (sel_id selector)) lim_usb_control ≫= λ _,
    fitted limits "usb.open" (sel_id selector)
      (OpenUsbRequest (open_usb_request selector claim), ExpOpenUsb (sel_id selector)).
Definition usb_from_response (resource_id : ResourceId) (response : v1_SessionLease)
    : HalResult RemoteHandle :=
  map_err (λ e, attach_resource e resource_id) (open_usb_response_from_proto response)
  ≫= λ '(session_id, lease), Ok (mkRemoteHandle resource_id session_id lease false).
Definition open_usb_settle (selector : ResourceSelector) : HalResult Payload → Settled RemoteHandle :=
  settle id (λ p, match p with OpenUsbResponse r => Some r | _ => None end)
    (λ r, or_fail (usb_from_response (sel_id selector) r)).
Definition usb_ensure_open := handle_ensure_open "the remote USB handle is closed".
Definition usb_transfer_prepare (limits : Limits) (h : RemoteHandle) (transfer : UsbTransfer)
    (timeout : Z) : Prepared :=
  usb_ensure_open h "usb.transfer" ≫= λ _,
  map_err (resource_error h) (UsbTransfer_validate transfer) ≫= λ _,
  timeout_millis h "usb.transfer" "USB transfer timeout exceeds the wire range" timeout
  ≫= λ timeout_ms,
  nonzero_millis h "usb.transfer" "USB transfer timeout must be non-zero" timeout_ms ≫= λ _,
  require_usb_transfer limits "usb.transfer" (rh_resource_id h) transfer ≫= λ _,
  fitted limits "usb.transfer" (rh_resource_id h)
    (UsbTransferRequest (transfer_to_proto (rh_session_id h) (rh_lease h) transfer timeout_ms),
     ExpUsbTransfer (lim_read limits) (rh_resource_id h)).
Definition usb_transfer_settle (h : RemoteHandle) : HalResult Payload → Settled Bytes :=
  settle (resource_error h) (λ p, match p with UsbTransferResponse r => Some r | _ => None end)
    (λ r, or_fail_with (resource_error h) (usb_transfer_response_from_proto r)).
Definition usb_close_prepare (limits : Limits) (h : RemoteHandle) : Prepared :=
  usb_ensure_open h "usb.close" ≫= λ _,
  fitted limits "usb.close" (rh_resource_id h)
    (CloseUsbRequest (handle_request h), ExpCloseUsb (rh_resource_id h)).

(** ** gpio.rs *)
Record RemoteGpioHandle := mkRemoteGpioHandle { rg_handle : RemoteHandle; rg_line_count : Z }.
(** [None] when the configuration is an output without drive, which its constructors rule out. *)
Definition open_gpio_prepare (limits : Limits) (selector : ResourceSelector) (lines : list Z)
    (config : GpioLineConfig) : option Prepared :=
  if bool_decide (sel_transport selector ≠ Gpio) || bool_decide (lines = [])
     || (MAX_GPIO_EVENTS <? len lines) then
    Some (Err (HalError_with_resource_id
                 (client_error "runtime.argument.invalid" InvalidArgument "gpio.open" false
                    "GPIO selector or lines are invalid") (sel_id selector)))
  else
    match require_minor_two limits "gpio.open" (Some (sel_id selector)) lim_gpio_lines with
    | Err e => Some (Err e)
    | Ok _ =>
        request ← open_gpio_request selector lines config;
        Some (fitted limits "gpio.open" (sel_id selector)
                (OpenGpioRequest request, ExpOpenGpio (len lines) (sel_id selector)))
    end.
Definition gpio_from_response (resource_id : ResourceId) (line_count : Z)
    (response : v1_SessionLease) : HalResult RemoteGpioHandle :=
  map_err (λ e, attach_resource e resource_id) (open_gpio_response_from_proto response)
  ≫= λ '(session_id, lease),
  Ok (mkRemoteGpioHandle (mkRemoteHandle resource_id session_id lease false) line_count).
Definition open_gpio_settle (selector : ResourceSelector) (lines : list Z)
    : HalResult Payload → Settled RemoteGpioHandle :=
  settle id (λ p, match p with OpenGpioResponse r => Some r | _ => None end)
    (λ r, or_fail (gpio_from_response (sel_id selector) (len lines) r)).
Definition gpio_ensure_open := handle_ensure_open "the remote GPIO handle is closed".
Definition gpio_read_prepare (g : RemoteGpioHandle) : Prepared :=
  let h := rg_handle g in
  gpio_ensure_open h "gpio.read" ≫= λ _,
  Ok (GpioReadRequest (handle_request h), ExpGpioRead (rg_line_count g) (rh_resource_id h)).
Definition gpio_read_settle (g : RemoteGpioHandle) : HalResult Payload → Settled (list bool) :=
  settle (resource_error (rg_handle g)) (λ p, match p with GpioReadResponse r => Some r | _ => None end)
    (λ r, or_fail (gpio_read_response_from_proto r ≫= λ values,
      if len values =? rg_line_count g then Ok values
      else Err (local_error (rg_handle g) "runtime.protocol.invalid_message" InvalidArgument "gpio.read"
                  "GPIO read response length does not match opened lines"))).
Definition gpio_write_prepare (limits : Limits) (g : RemoteGpioHandle) (values : list bool) : Prepared :=
  let h := rg_handle g in
  gpio_ensure_open h "gpio.write" ≫= λ _,
  if negb (len values =? rg_line_count g) || (MAX_GPIO_EVENTS <? len values) then
    Err (argument_invalid h "gpio.write" "GPIO write values must match opened lines")
  else
    fitted limits "gpio.write" (rh_resource_id h)
      (GpioWriteRequest (gpio_write_request (rh_session_id h) (rh_lease h) values),
       ExpGpioWrite (rh_resource_id h)).
Definition gpio_next_edge_prepare (limits : Limits) (g : RemoteGpioHandle) (request : GpioEdgeRequest)
    (timeout : Z) : Prepared :=
  let h := rg_handle g in
  gpio_ensure_open h "gpio.next_edge" ≫= λ _,
  timeout_millis h "gpio.next_edge" "GPIO edge timeout exceeds the wire range" timeout
  ≫= λ timeout_ms,
  nonzero_millis h "gpio.next_edge" "GPIO edge timeout must be non-zero" timeout_ms ≫= λ _,
  require_gpio_edges limits "gpio.next_edge" (rh_resource_id h) ≫= λ _,
  fitted limits "gpio.next_edge" (rh_resource_id h)
    (GpioNextEdgeRequest (gpio_next_edge_request (rh_session_id h) (rh_lease h) request timeout_ms),
     ExpGpioNextEdge (rh_resource_id h)).
Definition gpio_next_edge_settle (g : RemoteGpioHandle)
    : HalResult Payload → Settled (option GpioEdgeEvent) :=
  settle (resource_error (rg_handle g)) (λ p, match p with GpioNextEdgeResponse r => Some r | _ => None end)
    (λ r, or_fail_with (resource_error (rg_handle g)) (gpio_next_edge_response_from_proto r)).
Definition gpio_close_prepare (g : RemoteGpioHandle) : Prepared :=
  let h := rg_handle g in
  gpio_ensure_open h "gpio.close" ≫= λ _,
  Ok (CloseGpioRequest (handle_request h), ExpCloseGpio (rh_resource_id h)).

(** ** can.rs *)
Record RemoteCanHandle := mkRemoteCanHandle { rc_handle : RemoteHandle; rc_profile : CanSessionProfile }.
(** [open_can] up to its enumeration, and from the descriptors it has enumerated. *)
Definition open_can_require (limits : Limits) (selector : ResourceSelector) (config : CanOpenConfig)
    (filters : CanFilterSet) : HalResult unit :=
  if bool_decide (sel_transport selector ≠ Can) then
    Err (HalError_with_resource_id
           (client_error "runtime.argument.invalid" InvalidArgument "can.open" false
              "CAN resource selector transport must be Can") (sel_id selector))
  else
    require_can_capability limits "can.open" (Some (sel_id selector)) (λ l,
      can_mode_supported config (lim_can_configure l) (lim_can_classic l) (lim_can_fd l)
      && can_filters_supported filters (lim_can_error_frames l)).
Definition open_can_prepare (limits : Limits) (selector : ResourceSelector) (mode : LeaseMode)
    (config : CanOpenConfig) (filters : CanFilterSet) (resources : list ResourceDescriptor)
    : HalResult (ResourceDescriptor * (Payload * ExpectedResponse)) :=
  select_can_descriptor resources selector ≫= λ descriptor,
  client_validate_can_open_capabilities descriptor config filters ≫= λ _,
  let request :=
    mk_v1_OpenCanRequest (Some (ResourceSelector_to_proto selector)) (proto_number mode)
      (Some (CanOpenConfig_to_proto config)) (Some (CanFilterSet_to_proto filters)) in
  fitted limits "can.open" (sel_id selector)
    (OpenCanRequest request, ExpOpenCan mode (sel_id selector)) ≫= λ request,
  Ok (descriptor, request).
Definition can_from_response (resource_id : ResourceId) (expected_mode : LeaseMode)
    (config : CanOpenConfig) (descriptor : ResourceDescriptor) (response : v1_SessionLease)
    : HalResult RemoteCanHandle :=
  map_err (λ e, attach_resource e resource_id) (open_can_response_from_proto response expected_mode)
  ≫= λ '(session_id, lease),
  let has := CapabilitySet_contains (desc_capabilities descriptor) in
  let mode :=
    match config with
    | Attach expectation =>
        default (if has can_fd_capability then Fd else Classic) (exp_mode expectation)
    | Configure config => cfg_mode config
    end in
  Ok (mkRemoteCanHandle (mkRemoteHandle resource_id session_id lease false)
        (mkCanSessionProfile mode (has can_classic_capability) (has can_fd_capability)
           (has can_error_frames_capability) (has can_rx_timestamp_capability) resource_id session_id)).
Definition open_can_settle (selector : ResourceSelector) (mode : LeaseMode) (config : CanOpenConfig)
    (descriptor : ResourceDescriptor) : HalResult Payload → Settled RemoteCanHandle :=
  settle (λ e, attach_resource e (sel_id selector))
    (λ p, match p with OpenCanResponse r => Some r | _ => None end)
    (λ r, or_fail (can_from_response (sel_id selector) mode config descriptor r)).
Definition can_ensure_open := handle_ensure_open "the remote CAN handle is closed".
(** The loop of [send_batch] over its frames: the payload bytes so far. *)
Definition send_batch_check (c : RemoteCanHandle) (payload_bytes : Z) (frame : CanFrame) : HalResult Z :=
  map_err (resource_error (rc_handle c)) (CanFrame_validate frame) ≫= λ _,
  if negb (received_allowed (rc_profile c) frame) then
    Err (local_error (rc_handle c) "runtime.protocol.capability_unsupported" Conflict "can.send_batch"
           "the negotiated broker protocol does not advertise the frame capability")
  else
    ok_or (argument_invalid (rc_handle c) "can.send_batch" "CAN send payload byte count overflows usize")
      (checked_add usize_max payload_bytes (len (CanFrame_data frame))).
Definition can_send_batch_prepare (limits : Limits) (c : RemoteCanHandle) (frames : list CanFrame)
    : Prepared :=
  let h := rc_handle c in
  can_ensure_open h "can.send_batch" ≫= λ _,
  if negb ((1 <=? len frames) && (len frames <=? MAX_CAN_BATCH_FRAMES)) then
    Err (argument_invalid h "can.send_batch" "CAN send batch must contain 1..=64 frames")
  else
    try_fold (send_batch_check c) 0 frames ≫= λ payload_bytes,
    if lim_write limits <? payload_bytes then
      Err (argument_invalid h "can.send_batch"
             "CAN send payload exceeds the negotiated write maximum")
    else
      fitted limits "can.send_batch" (rh_resource_id h)
        (CanSendRequest (mk_v1_CanSendRequest (handle_session h) (handle_lease h)
           (CanFrame_to_proto <$> frames)), ExpCanSend (len frames) (rc_profile c)).
(** The errors of [send_batch] are [CanBatchSendError]s; a local one has committed nothing. *)
Definition can_send_batch_settle (c : RemoteCanHandle) (input_count : Z) (reply : HalResult Payload)
    : Settled (result CanBatchSendError unit) :=
  match reply with
  | Err e => SReturn (Ok (Err (CanBatchSendError_new (resource_error (rc_handle c) e)))) None
  | Ok (CanSendResponse response) =>
      match can_send_response_from_proto response input_count with
      | Err e =>
          let e := resource_error (rc_handle c) e in
          SReturn (Ok (Err (CanBatchSendError_new e))) (Some e)
      | Ok result =>
          SReturn (Ok (map_err (λ e,
            CanBatchSendError_backend_prefix (resource_error (rc_handle c) (batch_error e))
              (batch_committed e)) result)) None
      end
  | Ok _ => SUnreachable
  end.
(** The largest response to a receive, to be measured. *)
Definition maximum_receive_envelope (max_frames : Z) (profile : CanSessionProfile) : Envelope :=
  let id := Some (mk_v1_CanId 0x1fffffff (proto_number FmtExtended)) in
  let zeros n := repeat 0 (Z.to_nat n) in
  let fd := mk_v1_CanFrame id (proto_number KindFdData) (zeros MAX_FD_DATA_BYTES) 0 true true [] in
  let error :=
    mk_v1_CanFrame None (proto_number KindError) (zeros MAX_CLASSIC_DATA_BYTES) 0 false false
      (Z.of_nat <$> seq 1 (Z.to_nat MAX_CAN_ERROR_CLASSES)) in
  let classic :=
    mk_v1_CanFrame id (proto_number KindClassicData) (zeros MAX_CLASSIC_DATA_BYTES) 0 false false [] in
  let frame :=
    if bool_decide (sp_mode profile = Fd) then fd
    else if sp_error_frames profile
            && (can_frame_encoded_len classic <? can_frame_encoded_len error) then error
    else classic in
  let timestamp :=
    if sp_timestamps profile then
      Some (mk_v1_CanTimestamp u64_max (proto_number Hardware)
              (String.string_of_list_ascii (repeat (Ascii.ascii_of_nat 120) 255)))
    else None in
  mkEnvelope u64_max (Some (CanReceiveResponse
    (repeat (mk_v1_ReceivedCanFrame (Some frame) timestamp) (Z.to_nat max_frames)))).
Definition maximum_receive_envelope_len (max_frames : Z) (profile : CanSessionProfile) : Z :=
  encoded_len (maximum_receive_envelope max_frames profile).
Definition can_receive_prepare (limits : Limits) (c : RemoteCanHandle) (max_frames timeout : Z)
    : Prepared :=
  let h := rc_handle c in
  can_ensure_open h "can.receive" ≫= λ _,
  if negb ((1 <=? max_frames) && (max_frames <=? MAX_CAN_BATCH_FRAMES)) then
    Err (argument_invalid h "can.receive" "CAN receive maximum must be 1..=64 frames")
  else
    timeout_millis h "can.receive" "CAN receive timeout exceeds the wire range" timeout
    ≫= λ timeout_ms,
    let max_data_bytes :=
      if bool_decide (sp_mode (rc_profile c) = Fd) then MAX_FD_DATA_BYTES else MAX_CLASSIC_DATA_BYTES in
    if is_none_or (λ bytes, lim_read limits <? bytes) (checked_mul usize_max max_frames max_data_bytes) then
      Err (argument_invalid h "can.receive"
             "CAN receive payload bound exceeds the negotiated read maximum")
    else if lim_frame limits <? maximum_receive_envelope_len max_frames (rc_profile c) then
      Err (local_error h "runtime.protocol.frame_too_large" InvalidArgument "can.receive"
             "CAN receive response bound exceeds the negotiated frame maximum")
    else
      fitted limits "can.receive" (rh_resource_id h)
        (CanReceiveRequest (mk_v1_CanReceiveRequest (handle_session h) (handle_lease h)
           (max_frames mod 2 ^ 32) timeout_ms),
         ExpCanReceive max_frames (lim_read limits) (rc_profile c)).
Definition can_receive_settle (c : RemoteCanHandle) (max_frames : Z)
    : HalResult Payload → Settled (list ReceivedCanFrame) :=
  settle (resource_error (rc_handle c)) (λ p, match p with CanReceiveResponse r => Some r | _ => None end)
    (λ r, or_fail_with (resource_error (rc_handle c)) (can_receive_response_from_proto r max_frames)).
Definition can_replace_filters_prepare (limits : Limits) (c : RemoteCanHandle) (filters : CanFilterSet)
    : Prepared :=
  let h := rc_handle c in
  can_ensure_open h "can.replace_filters" ≫= λ _,
  if existsb (λ filter, cls_error (filter_classes filter)) (CanFilterSet_as_slice filters)
     && negb (sp_error_frames (rc_profile c)) then
    Err (local_error h "runtime.protocol.capability_unsupported" Conflict "can.replace_filters"
           "the negotiated broker protocol does not advertise CAN error frames")
  else
    fitted limits "can.replace_filters" (rh_resource_id h)
      (ReplaceCanFiltersRequest (mk_v1_ReplaceCanFiltersRequest (handle_session h) (handle_lease h)
         (Some (CanFilterSet_to_proto filters))), ExpReplaceCanFilters (rc_profile c)).
Definition can_bus_status_prepare (limits : Limits) (c : RemoteCanHandle) : Prepared :=
  let h := rc_handle c in
  can_ensure_open h "can.status" ≫= λ _,
  fitted limits "can.status" (rh_resource_id h)
    (GetCanBusStatusRequest (handle_request h), ExpCanBusStatus (rc_profile c)).
Definition can_bus_status_settle (c : RemoteCanHandle) : HalResult Payload → Settled CanBusStatus :=
  settle (resource_error (rc_handle c))
    (λ p, match p with GetCanBusStatusResponse r => Some r | _ => None end)
    (λ r, or_fail_with (resource_error (rc_handle c)) (get_can_bus_status_response_from_proto r)).
Definition can_close_prepare (limits : Limits) (c : RemoteCanHandle) : Prepared :=
  let h := rc_handle c in
  can_ensure_open h "can.close" ≫= λ _,
  fitted limits "can.close" (rh_resource_id h)
    (CloseSessionRequest (handle_request h), ExpCloseCan (rc_profile c)).

(** ** camera.rs *)
Record RemoteCameraHandle := mkRemoteCameraHandle {
  rk_handle : RemoteHandle;
  rk_mapping_descriptor : option MappingDescriptor;
}.
Definition open_camera_prepare (limits : Limits) (selector : ResourceSelector)
    (request : CameraRequest) : Prepared :=
  if bool_decide (sel_transport selector ≠ Camera) then
    Err (HalError_with_resource_id
           (client_error "runtime.argument.invalid" InvalidArgument "camera.open" false
              "camera resource selector transport must be Camera") (sel_id selector))
  else
    require_camera_capability limits "camera.open" (Some (sel_id selector)) lim_camera_capture ≫= λ _,
    fitted limits "camera.open" (sel_id selector)
      (OpenCameraRequest (open_camera_request selector request), ExpOpenCamera (sel_id selector)).
Definition camera_from_response (resource_id : ResourceId) (response : v1_SessionLease)
    : HalResult RemoteCameraHandle :=
  map_err (λ e, attach_resource e resource_id) (camera_open_response_from_proto response)
  ≫= λ '(session_id, lease),
  Ok (mkRemoteCameraHandle (mkRemoteHandle resource_id session_id lease false) None).
Definition open_camera_settle (selector : ResourceSelector)
    : HalResult Payload → Settled RemoteCameraHandle :=
  settle id (λ p, match p with OpenCameraResponse r => Some r | _ => None end)
    (λ r, or_fail (camera_from_response (sel_id selector) r)).
Definition camera_ensure_open := handle_ensure_open "the remote Camera handle is closed".
Definition camera_capture_prepare (limits : Limits) (k : RemoteCameraHandle) (timeout : Z) : Prepared :=
  let h := rk_handle k in
  camera_ensure_open h "camera.capture" ≫= λ _,
  timeout_millis h "camera.capture" "camera capture timeout exceeds the wire range" timeout
  ≫= λ timeout_ms,
  nonzero_millis h "camera.capture" "camera capture timeout must be non-zero" timeout_ms ≫= λ _,
  require_camera_capture limits "camera.capture" (rh_resource_id h) ≫= λ _,
  fitted limits "camera.capture" (rh_resource_id h)
    (CaptureCameraRequest (capture_camera_request (rh_session_id h) (rh_lease h) timeout_ms),
     ExpCaptureCamera (rh_resource_id h)).
Definition camera_mapping_descriptor_prepare (limits : Limits) (k : RemoteCameraHandle) : Prepared :=
  let h := rk_handle k in
  camera_ensure_open h "camera.mapping_descriptor" ≫= λ _,
  require_camera_frames_shm limits "camera.mapping_descriptor" (rh_resource_id h) ≫= λ _,
  fitted limits "camera.mapping_descriptor" (rh_resource_id h)
    (CameraMappingDescriptorRequest (handle_request h), ExpCameraMappingDescriptor (rh_resource_id h)).
(** The handle keeps the descriptor. *)
Definition camera_mapping_descriptor_settle (k : RemoteCameraHandle) (reply : HalResult Payload)
    : RemoteCameraHandle * Settled MappingDescriptor :=
  let h := rk_handle k in
  let settled :=
    settle (resource_error h)
      (λ p, match p with CameraMappingDescriptorResponse r => Some r | _ => None end)
      (λ r, or_fail_with (resource_error h)
         (ok_or (invalid_message "camera mapping descriptor is missing") r
          ≫= camera_mapping_descriptor_from_proto)) reply in
  (match settled with
   | SReturn (Ok descriptor) _ => mkRemoteCameraHandle h (Some descriptor)
   | _ => k
   end, settled).
Definition ensure_current_mapping (k : RemoteCameraHandle) (descriptor : MappingDescriptor)
    (operation : string) : HalResult unit :=
  if is_some_and (λ current,
       bool_decide (mapd_name current = mapd_name descriptor)
       && bool_decide (mapd_identity current = mapd_identity descriptor)
       && bool_decide (mapd_token current = mapd_token descriptor)
       && (mapd_total_length current =? mapd_total_length descriptor)) (rk_mapping_descriptor k)
  then Ok tt
  else Err (argument_invalid (rk_handle k) operation
              "camera mapping descriptor does not belong to this session").
(** [ReadOnlyMapping] with what its header says; opening it is the operating system's. *)
Record ReadOnlyMapping := mkReadOnlyMapping { rom_identity : list Z; rom_slot_count : Z }.
Definition camera_open_mapping (limits : Limits) (k : RemoteCameraHandle)
    (ReadOnlyMapping_open : MappingDescriptor → HalResult ReadOnlyMapping)
    (descriptor : MappingDescriptor) : HalResult ReadOnlyMapping :=
  let h := rk_handle k in
  camera_ensure_open h "camera.mapping.open" ≫= λ _,
  require_camera_frames_shm limits "camera.mapping.open" (rh_resource_id h) ≫= λ _,
  ensure_current_mapping k descriptor "camera.mapping.open" ≫= λ _,
  map_err (resource_error h) (ReadOnlyMapping_open descriptor).
Definition camera_next_frame_lease_prepare (limits : Limits) (k : RemoteCameraHandle)
    (descriptor : MappingDescriptor) : Prepared :=
  let h := rk_handle k in
  camera_ensure_open h "camera.next_frame_lease" ≫= λ _,
  require_camera_frames_shm limits "camera.next_frame_lease" (rh_resource_id h) ≫= λ _,
  ensure_current_mapping k descriptor "camera.next_frame_lease" ≫= λ _,
  fitted limits "camera.next_frame_lease" (rh_resource_id h)
    (CameraNextFrameLeaseRequest (handle_request h), ExpCameraNextFrameLease (rh_resource_id h)).
Definition camera_next_frame_lease_settle (limits : Limits) (k : RemoteCameraHandle)
    (ReadOnlyMapping_open : MappingDescriptor → HalResult ReadOnlyMapping)
    (descriptor : MappingDescriptor) : HalResult Payload → Settled (option FrameLease) :=
  let h := rk_handle k in
  settle (resource_error h) (λ p, match p with CameraNextFrameLeaseResponse r => Some r | _ => None end)
    (λ r,
      match map_err (resource_error h) (camera_next_frame_lease_response_from_proto r) with
      | Err e => SReturn (Err e) (Some e)
      | Ok None => SReturn (Ok None) None
      | Ok (Some wire_lease) =>
          match camera_open_mapping limits k ReadOnlyMapping_open descriptor with
          | Err e => SReturn (Err e) None
          | Ok mapping =>
              if bool_decide (rom_identity mapping ≠ mapd_identity descriptor)
                 || (rom_slot_count mapping <=? wire_slot_index wire_lease) then
                let e := local_error h "runtime.protocol.invalid_message" InvalidArgument
                           "camera.next_frame_lease"
                           "camera frame lease does not match the opened mapping layout" in
                SReturn (Err e) (Some e)
              else SReturn (Ok (Some (WireFrameLease_bind wire_lease descriptor))) None
          end
      end).
Definition camera_dropped_count_prepare (limits : Limits) (k : RemoteCameraHandle) : Prepared :=
  let h := rk_handle k in
  camera_ensure_open h "camera.dropped_count" ≫= λ _,
  require_camera_capture limits "camera.dropped_count" (rh_resource_id h) ≫= λ _,
  fitted limits "camera.dropped_count" (rh_resource_id h)
    (CameraDroppedCountRequest (handle_request h), ExpCameraDroppedCount (rh_resource_id h)).
Definition camera_dropped_count_settle (k : RemoteCameraHandle) : HalResult Payload → Settled Z :=
  settle (resource_error (rk_handle k))
    (λ p, match p with CameraDroppedCountResponse n => Some n | _ => None end)
    (λ n, SReturn (Ok n) None).
Definition camera_controls_prepare (limits : Limits) (k : RemoteCameraHandle) : Prepared :=
  let h := rk_handle k in
  camera_ensure_open h "camera.controls" ≫= λ _,
  require_camera_controls limits "camera.controls" (rh_resource_id h) ≫= λ _,
  fitted limits "camera.controls" (rh_resource_id h)
    (CameraControlsRequest (handle_request h), ExpCameraControls (rh_resource_id h)).
Definition camera_controls_settle (k : RemoteCameraHandle)
    : HalResult Payload → Settled (list CameraControlDescriptor) :=
  settle (resource_error (rk_handle k))
    (λ p, match p with CameraControlsResponse r => Some r | _ => None end)
    (λ r, SReturn (map_err (resource_error (rk_handle k)) (camera_controls_response_from_proto r)) None).
Definition camera_get_control_prepare (limits : Limits) (k : RemoteCameraHandle)
    (kind : CameraControlKind) : Prepared :=
  let h := rk_handle k in
  camera_ensure_open h "camera.control.get" ≫= λ _,
  require_camera_controls limits "camera.control.get" (rh_resource_id h) ≫= λ _,
  fitted limits "camera.control.get" (rh_resource_id h)
    (CameraGetControlRequest (mk_v1_CameraGetControlRequest (handle_session h) (handle_lease h)
       (control_kind_to_proto kind)), ExpCameraGetControl (rh_resource_id h)).
Definition camera_get_control_settle (k : RemoteCameraHandle)
    : HalResult Payload → Settled CameraControlValue :=
  settle (resource_error (rk_handle k))
    (λ p, match p with CameraGetControlResponse r => Some r | _ => None end)
    (λ r, or_fail_with (resource_error (rk_handle k))
       (ok_or (invalid_message "camera control value is missing") r
        ≫= camera_control_value_from_proto)).
Definition camera_set_control_prepare (limits : Limits) (k : RemoteCameraHandle)
    (kind : CameraControlKind) (value : CameraControlValue) : Prepared :=
  let h := rk_handle k in
  camera_ensure_open h "camera.control.set" ≫= λ _,
  require_camera_controls limits "camera.control.set" (rh_resource_id h) ≫= λ _,
  fitted limits "camera.control.set" (rh_resource_id h)
    (CameraSetControlRequest (mk_v1_CameraSetControlRequest (handle_session h) (handle_lease h)
       (control_kind_to_proto kind) (Some (camera_control_value_to_proto value))),
     ExpCameraSetControl (rh_resource_id h)).
Definition camera_set_auto_prepare (limits : Limits) (k : RemoteCameraHandle)
    (kind : CameraControlKind) (enabled : bool) : Prepared :=
  let h := rk_handle k in
  camera_ensure_open h "camera.control.auto" ≫= λ _,
  require_camera_controls limits "camera.control.auto" (rh_resource_id h) ≫= λ _,
  fitted limits "camera.control.auto" (rh_resource_id h)
    (CameraSetAutoRequest (mk_v1_CameraSetAutoRequest (handle_session h) (handle_lease h)
       (control_kind_to_proto kind) enabled), ExpCameraSetAuto (rh_resource_id h)).
Definition camera_close_prepare (limits : Limits) (k : RemoteCameraHandle) : Prepared :=
  let h := rk_handle k in
  camera_ensure_open h "camera.close" ≫= λ _,
  fitted limits "camera.close" (rh_resource_id h)
    (CloseCameraRequest (handle_request h), ExpCloseCamera (rh_resource_id h)).
End encoded.
