(* ===== verification/ClientHandlesSpec.v ===== *)
(** * robot-hal-client: what the methods of a client guarantee

    A method never meets a response it cannot handle ([client_methods_total]); the request it
    sends is decoded into the session, the lease and the arguments of the call (the lemmas
    [.._decoded], from which [ClientCalls] follows a call to the broker's runtime); and the
    length estimate of a serial write covers its envelope ([serial_write_fits]). *)

From S2P Require Import Prelude Varint Core Lifecycle SerialRegistry CanTypes CameraTypes UsbTypes.
From S2P Require Import GpioTypes ShmLayout ShmRing WireCore WireCan WireUsbGpio WireCamera Envelope.
From S2P Require Import ClientWire ClientValidate ClientHandles.

(** ** Results of the settling functions *)
Lemma checked_Ok {A} r (x : HalResult A) : checked r x = Ok tt → ∃ a, x = Ok a.
Proof. destruct x as [a|]; [by exists a|done]. Qed.
Lemma fmap_unit_Ok {A} (x : HalResult A) : (λ _, tt) <$> x = Ok tt → ∃ a, x = Ok a.
Proof. destruct x as [a|]; [by exists a|done]. Qed.
Lemma validate_enumeration_Ok t msg rs :
  validate_enumeration t msg rs = Ok tt → ∃ ds, collect ResourceDescriptor_try_from rs = Ok ds.
Proof.
  unfold validate_enumeration. induction rs as [|r rs IH]; intros H; [by exists []|]. cbn [try_fold] in H.
  cbn [collect]. destruct (ResourceDescriptor_try_from r) as [d|]; [|done]. cbn [mbind result_bind] in H.
  case_bool_decide; [|done]. destruct (IH H) as [ds ->]. by exists (d :: ds).
Qed.
(** The result of a method, with no error and without ending the connection. *)
Definition succeeds {A} (s : Settled A) : Prop := ∃ a, s = SReturn (Ok a) None.
Lemma settle_Ok {A B} attach (extract : Payload → option B) (finish : B → Settled A) p b :
  extract p = Some b → settle attach extract finish (Ok p) = finish b.
Proof. intros He. cbn. by rewrite He. Qed.
Ltac expected_payload p H :=
  destruct p; try discriminate H; cbn [validate_response] in H.

(** A response that the reader lets through to a caller is one its method can use: no
    method reaches the [unreachable!()] of its [let .. else]; and but for the three methods
    whose response is not fully validated, the conversion of the response cannot fail, so the
    method succeeds and the connection stays up. *)
Theorem client_methods_total (p : Payload) (limits : Limits) (h : RemoteHandle) (selector : ResourceSelector) :
  let id := rh_resource_id h in
  (validate_response ExpEnumerateSerial p = Ok tt → enumerate_serial_settle (Ok p) ≠ SUnreachable) ∧
  (validate_response ExpOpenSerial p = Ok tt → open_serial_settle selector (Ok p) ≠ SUnreachable) ∧
  (∀ k open descriptor, validate_response (ExpCameraNextFrameLease id) p = Ok tt →
     camera_next_frame_lease_settle limits k open descriptor (Ok p) ≠ SUnreachable) ∧
  (∀ max, validate_response (ExpSerialRead max) p = Ok tt → serial_read_settle limits h max (Ok p) ≠ SUnreachable) ∧
  (validate_response ExpEnumerateCan p = Ok tt → succeeds (enumerate_can_settle (Ok p))) ∧
  (validate_response ExpEnumerateUsb p = Ok tt → succeeds (enumerate_usb_settle (Ok p))) ∧
  (validate_response ExpEnumerateGpio p = Ok tt → succeeds (enumerate_gpio_settle (Ok p))) ∧
  (validate_response ExpEnumerateCamera p = Ok tt → succeeds (enumerate_camera_settle (Ok p))) ∧
  (validate_response (ExpOpenUsb id) p = Ok tt → succeeds (open_usb_settle selector (Ok p))) ∧
  (∀ lines, validate_response (ExpOpenGpio (len lines) id) p = Ok tt →
     succeeds (open_gpio_settle selector lines (Ok p))) ∧
  (validate_response (ExpOpenCamera id) p = Ok tt → succeeds (open_camera_settle selector (Ok p))) ∧
  (∀ mode config d, validate_response (ExpOpenCan mode id) p = Ok tt →
     succeeds (open_can_settle selector mode config d (Ok p))) ∧
  (∀ max, validate_response (ExpUsbTransfer max id) p = Ok tt → succeeds (usb_transfer_settle h (Ok p))) ∧
  (∀ g, validate_response (ExpGpioRead (rg_line_count g) id) p = Ok tt → succeeds (gpio_read_settle g (Ok p))) ∧
  (∀ g, validate_response (ExpGpioNextEdge id) p = Ok tt → succeeds (gpio_next_edge_settle g (Ok p))) ∧
  (∀ c n, validate_response (ExpCanSend n (rc_profile c)) p = Ok tt → succeeds (can_send_batch_settle c n (Ok p))) ∧
  (∀ c n m, validate_response (ExpCanReceive n m (rc_profile c)) p = Ok tt →
     succeeds (can_receive_settle c n (Ok p))) ∧
  (∀ c, validate_response (ExpCanBusStatus (rc_profile c)) p = Ok tt → succeeds (can_bus_status_settle c (Ok p))) ∧
  (∀ k, validate_response (ExpCameraMappingDescriptor id) p = Ok tt →
     succeeds (camera_mapping_descriptor_settle k (Ok p)).2) ∧
  (∀ k, validate_response (ExpCameraDroppedCount id) p = Ok tt → succeeds (camera_dropped_count_settle k (Ok p))) ∧
  (∀ k, validate_response (ExpCameraControls id) p = Ok tt → succeeds (camera_controls_settle k (Ok p))) ∧
  (∀ k, validate_response (ExpCameraGetControl id) p = Ok tt → succeeds (camera_get_control_settle k (Ok p))).
Proof.
  cbv zeta. split_and!.
  - intros H. by expected_payload p H.
  - intros H. by expected_payload p H.
  - intros k open d H. expected_payload p H. cbn. by repeat case_match.
  - intros max H. by expected_payload p H.
  - intros H. expected_payload p H. apply fmap_unit_Ok in H as [a Ha]. exists a. cbn. by rewrite Ha.
  - intros H. expected_payload p H. apply validate_enumeration_Ok in H as [a Ha]. exists a. cbn. by rewrite Ha.
  - intros H. expected_payload p H. apply validate_enumeration_Ok in H as [a Ha]. exists a. cbn. by rewrite Ha.
  - intros H. expected_payload p H. apply validate_enumeration_Ok in H as [a Ha]. exists a. cbn. by rewrite Ha.
  - intros H. expected_payload p H. apply checked_Ok in H as [[s l] Ha]. eexists. cbn. unfold usb_from_response. by rewrite Ha.
  - intros lines H. expected_payload p H. destruct (0 <? _); [|done]. apply checked_Ok in H as [[s l] Ha].
    eexists. cbn. unfold gpio_from_response. by rewrite Ha.
  - intros H. expected_payload p H. apply checked_Ok in H as [[s l] Ha]. eexists. cbn. unfold camera_from_response. by rewrite Ha.
  - intros mode config d H. expected_payload p H. apply checked_Ok in H as [[s l] Ha]. eexists. cbn.
    unfold can_from_response. by rewrite Ha.
  - intros max H. expected_payload p H. cbn. destruct (usb_transfer_response_from_proto _) as [a|]; [|done]. by exists a.
  - intros g H. expected_payload p H. destruct (gpio_read_response_from_proto _) as [a|] eqn:Ha; [|done].
    cbn in H. exists a. cbn. rewrite Ha. cbn. by destruct (len a =? rg_line_count g).
  - intros g H. expected_payload p H. apply checked_Ok in H as [a Ha]. exists a. cbn. by rewrite Ha.
  - intros c n H. expected_payload p H. apply checked_Ok in H as [a Ha]. eexists. cbn. by rewrite Ha.
  - intros c n m H. expected_payload p H. destruct (can_receive_response_from_proto _ _) as [a|] eqn:Ha; [|done].
    exists a. cbn. by rewrite Ha.
  - intros c H. expected_payload p H. apply checked_Ok in H as [a Ha]. exists a. cbn. by rewrite Ha.
  - intros k H. expected_payload p H. apply checked_Ok in H as [a Ha]. exists a. cbn. by rewrite Ha.
  - intros k H. expected_payload p H. by eexists.
  - intros k H. expected_payload p H. apply checked_Ok in H as [a Ha]. exists a. cbn. by rewrite Ha.
  - intros k H. expected_payload p H. apply checked_Ok in H as [a Ha]. exists a. cbn. by rewrite Ha.
Qed.

(** ** Requests *)
Lemma parse_session_lease_encode s l :
  valid_identifier (SessionId_as_str s) → token_wf l →
  parse_session_lease (SessionId_as_str s) (Some (LeaseToken_to_proto l)) = Ok (s, l).
Proof.
  intros Hs Hl. destruct s as [s]. unfold parse_session_lease. cbn [SessionId_as_str] in *.
  rewrite (proj2 (SessionId_parse_Ok s _) (conj Hs eq_refl)). cbn.
  by rewrite (exact_encode LeaseToken_try_from LeaseToken_to_proto token_wf l Hl).
Qed.
Section requests.
Context (encoded_len : Envelope → Z) (can_frame_encoded_len : v1_CanFrame → Z) (limits : Limits).
Lemma fitted_Ok op id r x : fitted encoded_len limits op id r = Ok x → x = r.
Proof. unfold fitted. by destruct (ensure_payload_for_resource _ _ _ _ _); cbn; [intros [= <-]|]. Qed.
Lemma ensure_open_Ok msg h op : handle_ensure_open msg h op = Ok tt → rh_closed h = false.
Proof. unfold handle_ensure_open. by destruct (rh_closed h). Qed.
Lemma timeout_Ok h op msg msg' t ms :
  timeout_millis h op msg t = Ok ms → nonzero_millis h op msg' ms = Ok tt →
  ms = t / 1000000 ∧ ms ≠ 0 ∧ from_millis ms / 1000000 = ms.
Proof.
  unfold timeout_millis, nonzero_millis, try_from. case_match; [|done]. cbn. intros [= <-].
  destruct (Z.eqb_spec (t / 1000000) 0); [done|]. intros _. unfold from_millis. by rewrite Z.div_mul.
Qed.
Lemma usb_transfer_decoded h t timeout request e :
  lease_wf (rh_session_id h) (rh_lease h) → transfer_typed t →
  usb_transfer_prepare encoded_len limits h t timeout = Ok (request, e) →
  let m := transfer_to_proto (rh_session_id h) (rh_lease h) t (timeout / 1000000) in
  request = UsbTransferRequest m ∧ UsbTransfer_validate t = Ok tt ∧
  usb_transfer_request_from_proto m
  = Ok (rh_session_id h, rh_lease h, t, from_millis (timeout / 1000000)).
Proof.
  cbv zeta. intros Hl Ht H. unfold usb_transfer_prepare in H. apply bind_Ok in H as ([] & _ & H).
  apply bind_Ok in H as ([] & Hv%map_err_Ok & H). apply bind_Ok in H as (ms & Hms & H).
  apply bind_Ok in H as ([] & Hnz & H). apply bind_Ok in H as ([] & _ & H).
  apply fitted_Ok in H as [= -> _]. destruct (timeout_Ok _ _ _ _ _ _ Hms Hnz) as (-> & Hne & Heq).
  split; [done|]. split; [by destruct (UsbTransfer_validate t) as [[]|]|].
  destruct (codec_roundtrip transfer_message_typed usb_transfer_request_from_proto usb_request_encode
    usb_request_wf (rh_session_id h, rh_lease h, t, from_millis (timeout / 1000000))) as [Hd _].
  { split_and!; [done..|by eexists]. }
  unfold usb_request_encode in Hd. by rewrite Heq in Hd.
Qed.
Lemma gpio_write_decoded g values request e :
  let h := rg_handle g in
  lease_wf (rh_session_id h) (rh_lease h) → 0 < rg_line_count g →
  gpio_write_prepare encoded_len limits g values = Ok (request, e) →
  let m := gpio_write_request (rh_session_id h) (rh_lease h) values in
  request = GpioWriteRequest m ∧ gpio_write_request_from_proto m = Ok (rh_session_id h, rh_lease h, values).
Proof.
  cbv zeta. intros Hl Hg H. unfold gpio_write_prepare in H. apply bind_Ok in H as ([] & _ & H).
  destruct (_ || _) eqn:Hor; [done|]. bool_simp. apply fitted_Ok in H as [= -> _]. split; [done|].
  apply (exact_encode gpio_write_request_from_proto (λ '(s, l, values), gpio_write_request s l values)
    gpio_write_wf (_, _, values)). split; [done|]. split; [|lia]. intros ->. unfold len in *. cbn in *. lia.
Qed.
Lemma gpio_next_edge_decoded g r timeout request e :
  let h := rg_handle g in
  lease_wf (rh_session_id h) (rh_lease h) → edge_request_wf r →
  gpio_next_edge_prepare encoded_len limits g r timeout = Ok (request, e) →
  ∃ m, request = GpioNextEdgeRequest m ∧
    gpio_next_edge_request_from_proto m
    = Ok (rh_session_id h, rh_lease h, r, from_millis (timeout / 1000000)).
Proof.
  cbv zeta. intros Hl Hr H. unfold gpio_next_edge_prepare in H. apply bind_Ok in H as ([] & _ & H).
  apply bind_Ok in H as (ms & Hms & H). apply bind_Ok in H as ([] & Hnz & H).
  apply bind_Ok in H as ([] & _ & H). apply fitted_Ok in H as [= -> _].
  destruct (timeout_Ok _ _ _ _ _ _ Hms Hnz) as (-> & Hne & Heq). eexists. split; [done|].
  destruct (codec_roundtrip _ gpio_next_edge_request_from_proto next_edge_encode next_edge_wf
    (rh_session_id (rg_handle g), rh_lease (rg_handle g), r, from_millis (timeout / 1000000))) as [Hd _].
  { split_and!; [done..|by eexists]. }
  unfold next_edge_encode in Hd. by rewrite Heq in Hd.
Qed.
Lemma camera_capture_decoded k timeout request e :
  let h := rk_handle k in
  lease_wf (rh_session_id h) (rh_lease h) →
  camera_capture_prepare encoded_len limits k timeout = Ok (request, e) →
  ∃ m, request = CaptureCameraRequest m ∧
    camera_capture_request_from_proto m
    = Ok (rh_session_id h, rh_lease h, from_millis (timeout / 1000000)).
Proof.
  cbv zeta. intros Hl H. unfold camera_capture_prepare in H. apply bind_Ok in H as ([] & _ & H).
  apply bind_Ok in H as (ms & Hms & H). apply bind_Ok in H as ([] & Hnz & H).
  apply bind_Ok in H as ([] & _ & H). apply fitted_Ok in H as [= -> _].
  destruct (timeout_Ok _ _ _ _ _ _ Hms Hnz) as (-> & Hne & Heq). eexists. split; [done|].
  pose proof (exact_encode camera_capture_request_from_proto
    (λ '(s, l, d), capture_camera_request s l (d / 1000000)) capture_wf
    (rh_session_id (rk_handle k), rh_lease (rk_handle k), from_millis (timeout / 1000000))) as Hd.
  cbv beta iota in Hd. rewrite Heq in Hd. apply Hd. split; [done|by eexists].
Qed.
Lemma send_batch_check_wf c frames n m :
  try_fold (send_batch_check c) n frames = Ok m → Forall frame_wf frames.
Proof.
  revert n. induction frames as [|f frames IH]; intros n H; [done|]. cbn [try_fold] in H.
  destruct (send_batch_check c n f) as [n'|] eqn:Hf; [|done]. constructor; [|by eapply IH].
  unfold send_batch_check in Hf. apply bind_Ok in Hf as ([] & Hv%map_err_Ok & _). done.
Qed.
Lemma can_send_batch_decoded c frames request e :
  let h := rc_handle c in
  valid_identifier (SessionId_as_str (rh_session_id h)) ∧ token_wf (rh_lease h) →
  can_send_batch_prepare encoded_len limits c frames = Ok (request, e) →
  let m := mk_v1_CanSendRequest (handle_session h) (handle_lease h) (CanFrame_to_proto <$> frames) in
  request = CanSendRequest m ∧ in_batch (len frames) = true ∧
  (∃ n, try_fold (send_batch_check c) 0 frames = Ok n ∧ n <= lim_write limits) ∧
  can_send_request_from_proto m = Ok (rh_session_id h, rh_lease h, frames).
Proof.
  cbv zeta. intros (Hs & Hl) H. unfold can_send_batch_prepare in H. apply bind_Ok in H as ([] & _ & H).
  destruct (negb _) eqn:Hb; [done|]. apply bind_Ok in H as (n & Hn & H). destruct (_ <? _) eqn:Hw; [done|].
  apply fitted_Ok in H as [= -> _]. split; [done|]. split; [by apply negb_false_iff|].
  split; [exists n; bool_simp; done|]. unfold can_send_request_from_proto.
  cbn [wsr_session_id wsr_lease wsr_frames]. unfold handle_session, handle_lease.
  rewrite parse_session_lease_encode by done. cbn [mbind result_bind].
  unfold send_can_frames_from_proto, in_batch. unfold len in *. rewrite length_fmap, Hb.
  pose proof (exact_collect CanFrame_try_from CanFrame_to_proto frame_wf) as Hx.
  rewrite (exact_encode _ _ _ frames (ExactCodec0 := Hx)); [done|].
  by eapply send_batch_check_wf.
Qed.
Lemma can_receive_decoded c n timeout request e :
  let h := rc_handle c in
  valid_identifier (SessionId_as_str (rh_session_id h)) ∧ token_wf (rh_lease h) →
  can_receive_prepare encoded_len can_frame_encoded_len limits c n timeout = Ok (request, e) →
  ∃ m, request = CanReceiveRequest m ∧
    can_receive_request_from_proto m
    = Ok (rh_session_id h, rh_lease h, n, from_millis (timeout / 1000000)).
Proof.
  cbv zeta. intros (Hs & Hl) H. unfold can_receive_prepare in H. apply bind_Ok in H as ([] & _ & H).
  destruct (negb _) eqn:Hb; [done|]. apply bind_Ok in H as (ms & Hms & H).
  destruct (is_none_or _ _); [done|]. destruct (_ <? _); [done|].
  apply fitted_Ok in H as [= -> _]. eexists. split; [done|]. unfold can_receive_request_from_proto.
  cbn [wrr_session_id wrr_lease wrr_max_frames wrr_timeout_ms]. unfold handle_session, handle_lease.
  rewrite parse_session_lease_encode by done. cbn [mbind result_bind]. unfold can_receive_parameters, in_batch.
  assert (n mod 2 ^ 32 = n) as ->.
  { bool_simp. unfold MAX_CAN_BATCH_FRAMES in *. rewrite Z.mod_small by lia. done. }
  rewrite Hb. cbn [mbind result_bind]. unfold timeout_millis, try_from in Hms. case_match; [|done].
  by injection Hms as <-.
Qed.
Lemma can_replace_filters_decoded c filters request e :
  let h := rc_handle c in
  valid_identifier (SessionId_as_str (rh_session_id h)) ∧ token_wf (rh_lease h) → filter_set_wf filters →
  can_replace_filters_prepare encoded_len limits c filters = Ok (request, e) →
  ∃ m, request = ReplaceCanFiltersRequest m ∧
    replace_can_filters_request_from_proto m = Ok (rh_session_id h, rh_lease h, filters).
Proof.
  cbv zeta. intros (Hs & Hl) Hf H. unfold can_replace_filters_prepare in H.
  apply bind_Ok in H as ([] & _ & H). destruct (_ && _); [done|].
  apply fitted_Ok in H as [= -> _]. eexists. split; [done|]. unfold replace_can_filters_request_from_proto.
  cbn [wrp_session_id wrp_lease wrp_filters]. unfold handle_session, handle_lease.
  rewrite parse_session_lease_encode by done. cbn [mbind result_bind required ok_or].
  by rewrite (exact_encode CanFilterSet_try_from CanFilterSet_to_proto filter_set_wf).
Qed.
Lemma camera_set_control_decoded k kind value request e :
  camera_set_control_prepare encoded_len limits k kind value = Ok (request, e) →
  ∃ m v, request = CameraSetControlRequest m ∧ wsc_value m = Some v ∧
    (camera_control_value_from_proto v = Ok value ↔ control_value_wf value).
Proof.
  intros H. unfold camera_set_control_prepare in H. apply bind_Ok in H as ([] & _ & H).
  apply bind_Ok in H as ([] & _ & H). apply fitted_Ok in H as [= -> _].
  eexists. eexists. split; [done|]. split; [done|]. split.
  - by intros [_ ?]%(exact_decode camera_control_value_from_proto camera_control_value_to_proto control_value_wf).
  - by intros ?%(exact_encode camera_control_value_from_proto camera_control_value_to_proto control_value_wf).
Qed.
End requests.

(** ** The length of a serial write *)
Lemma varint_len_rounds_encode n v k :
  varint_len_rounds n v k = k + len (varint_encode_loop n v) - 1.
Proof.
  revert v k. induction n as [|n IH]; intros v k; cbn [varint_len_rounds varint_encode_loop].
  - unfold len. cbn. lia.
  - rewrite Z.shiftr_div_pow2 by done. change (2 ^ 7) with 128.
    destruct (Z.leb_spec 128 v), (Z.ltb_spec v 128); try lia.
    + rewrite IH. unfold len. cbn [length]. lia.
    + unfold len. cbn. lia.
Qed.
Lemma varint_len_bytes v : varint_len v = varint_bytes v.
Proof. unfold varint_len, varint_bytes, varint_encode. rewrite varint_len_rounds_encode. lia. Qed.
(** SerialWriteRequest { session_id = 1, lease = 2 { lease_id = 1, generation = 2, mode = 3 },
    data = 3 }, on the wire. *)
Definition serial_write_wire_len (m : v1_SerialWriteRequest) : Z :=
  wire_bytes 1 (str_len (wsw_session_id m))
  + match wsw_lease m with
    | Some t => wire_message 2 (wire_bytes 1 (str_len (wlease_id t))
                                + wire_varint 2 (wlease_generation t) + wire_varint 3 (wlease_mode t))
    | None => 0
    end
  + wire_bytes 3 (len (wsw_data m)).
(** A serial write that passes the local estimate fits: whatever request id it is given, its
    envelope, as protobuf writes it, is within the negotiated frame limit. *)
Theorem serial_write_fits limits h bytes request e :
  serial_write_prepare serial_write_wire_len limits h bytes = Ok (request, e) →
  ∃ m, request = SerialWriteRequest m ∧ wsw_data m = bytes ∧
    ∀ id, 0 <= id <= u64_max →
      wire_varint 1 id + wire_message 26 (serial_write_wire_len m) <= lim_frame limits.
Proof.
  intros H. unfold serial_write_prepare in H. apply bind_Ok in H as ([] & _ & H).
  destruct (_ <? _); [done|]. destruct (_ <? _) eqn:Hlen in H; [done|]. injection H as <- _.
  eexists. split; [done|]. split; [done|]. intros id Hid. bool_simp.
  pose proof (wire_varint_u64 1 id ltac:(lia) Hid).
  unfold serial_write_envelope_len in Hlen. rewrite !varint_len_bytes in Hlen.
  set (r := serial_write_wire_len _) in Hlen.
  set (d := if len bytes =? 0 then 0 else 1 + varint_bytes (len bytes) + len bytes) in Hlen.
  assert (serial_write_wire_len (mk_v1_SerialWriteRequest (handle_session h) (handle_lease h) bytes) = r + d) as ->.
  { unfold r, d, serial_write_wire_len. cbn [wsw_session_id wsw_lease wsw_data].
    change (wire_bytes 3 (len [])) with 0. assert (wire_bytes 3 (len bytes) = d) as ->; [|lia].
    unfold d, wire_bytes, wire_message. change (wire_tag 3 2) with 1. destruct (_ =? 0); lia. }
  unfold wire_message. change (wire_tag 26 2) with 2. lia.
Qed.

(** ** Requests the client does not check *)
(** [open_serial] sends a configuration that the broker is bound to refuse as malformed (no
    baud rate, or a read timeout under a millisecond), though the connection ends with such an
    answer ([ClientSpec.client_refusal_disconnects]). *)
Theorem open_serial_sends_malformed selector config :
  sel_transport selector = Serial → selector_wf selector →
  baud_rate config = 0 ∨ 0 <= read_timeout config < 1000000 →
  ∃ m error, open_serial_prepare selector config = Ok (OpenSerialRequest m, ExpOpenSerial) ∧
    open_serial_request_from_proto m = Err error ∧
    err_name error = mkErrorName "runtime.protocol.invalid_message".
Proof.
  intros Ht Hs Hc. unfold open_serial_prepare. rewrite bool_decide_eq_false_2 by (intros ?; done).
  eexists. eexists. split; [reflexivity|]. unfold open_serial_request_from_proto. cbn [wos_selector wos_config ok_or mbind result_bind].
  unfold serial_selector_from_proto.
  rewrite (exact_encode ResourceSelector_try_from ResourceSelector_to_proto selector_wf selector Hs).
  cbn [mbind result_bind]. rewrite bool_decide_eq_false_2 by (intros ?; done). cbn [mbind result_bind].
  unfold SerialConfig_try_from, SerialConfig_to_proto. cbn [wser_baud_rate wser_read_timeout_ms].
  assert ((baud_rate config =? 0) || (default u64_max (try_from u64_max (read_timeout config / 1000000)) =? 0)
    = true) as ->.
  { destruct Hc as [-> |Hr]; [done|]. rewrite Z.div_small by lia. apply orb_true_r. }
  split; reflexivity.
Qed.

(** ** Examples *)
Definition hx_handle : RemoteHandle :=
  mkRemoteHandle (mkResourceId "usb:0") (mkSessionId "s") (mkLeaseToken (mkLeaseId "l") 1 Control) false.
Definition hx_limits : Limits :=
  mkLimits 3 1024 64 64 true true true true true true true true true true true true true.
Definition hx_selector : ResourceSelector :=
  mkResourceSelector (mkResourceId "serial:0") Strong Serial.
Definition hx_serial_config : SerialConfig :=
  mkSerialConfig 0 Eight ParityNone StopOne FlowNone (from_millis 5).
Lemma client_methods_total_witness :
  succeeds (usb_transfer_settle hx_handle (Ok (UsbTransferResponse [65; 66]))).
Proof.
  destruct (client_methods_total (UsbTransferResponse [65; 66]) hx_limits hx_handle hx_selector)
    as (_ & _ & _ & _ & _ & _ & _ & _ & _ & _ & _ & _ & H & _).
  apply (H 2). vm_compute. reflexivity.
Defined.
Lemma serial_write_fits_witness :
  ∃ request e, serial_write_prepare serial_write_wire_len hx_limits hx_handle [1; 2; 3] = Ok (request, e) ∧
    ∃ m, request = SerialWriteRequest m ∧ wire_varint 1 2 + wire_message 26 (serial_write_wire_len m) <= 1024.
Proof.
  destruct (serial_write_prepare serial_write_wire_len hx_limits hx_handle [1; 2; 3])
    as [[request e]|] eqn:Hp; [|exfalso; vm_compute in Hp; discriminate Hp].
  destruct (serial_write_fits hx_limits hx_handle [1; 2; 3] request e Hp) as (m & Hm & _ & Hfit).
  exists request, e. split; [exact eq_refl|]. exists m. split; [exact Hm|]. apply (Hfit 2). unfold u64_max. lia.
Defined.
Lemma open_serial_sends_malformed_witness :
  ∃ m error, open_serial_prepare hx_selector hx_serial_config = Ok (OpenSerialRequest m, ExpOpenSerial) ∧
    open_serial_request_from_proto m = Err error ∧
    err_name error = mkErrorName "runtime.protocol.invalid_message".
Proof.
  apply (open_serial_sends_malformed hx_selector hx_serial_config);
    [reflexivity|repeat split; vm_compute; congruence|left; reflexivity].
Defined.
