(* ===== verification/ClientBroker.v ===== *)
(** * robot-hal-client and robot-hal-broker: the handshake

    The two ends of a connection agree on what they negotiate: [BrokerConnection]'s
    [validate_handshake] answers the handshake of [ClientValidate]. *)

From S2P Require Import Prelude Varint Core Lifecycle WireCore WireCan Envelope BrokerCore BrokerDispatch.
From S2P Require Import BrokerConnection BrokerLimits ClientValidate.

Definition options_in_range (o : ConnectionOptions) : Prop :=
  0 <= co_max_frame_bytes o ∧ 0 <= co_max_read_bytes o ∧ 0 <= co_max_write_bytes o.
Definition offered (o : ConnectionOptions) : v1_HandshakeRequest :=
  match env_payload (handshake_request o (requested_limits o)) with
  | Some (HandshakeRequest m) => m
  | _ => mk_v1_HandshakeRequest [] 0 0 [] 0 0 0 0 0
  end.
Lemma offered_eq o :
  options_in_range o → validate_options o = Ok tt →
  offered o = mk_v1_HandshakeRequest (co_startup_token o) PROTOCOL_MAJOR PROTOCOL_MINOR
    [SERIAL_CAPABILITY] (co_max_frame_bytes o) (co_max_read_bytes o) (co_max_write_bytes o)
    PROTOCOL_MINOR_MINIMUM PROTOCOL_MINOR_MAXIMUM.
Proof.
  intros (Hf & Hr & Hw) Hv. unfold validate_options in Hv. destruct (_ || _) eqn:Hor; [done|]. bool_simp.
  unfold offered, handshake_request, requested_limits, u32_max in *.
  cbn [env_payload lim_frame lim_read lim_write]. rewrite !Z.mod_small by lia. done.
Qed.
Lemma offered_u32 o : options_in_range o → validate_options o = Ok tt → handshake_u32 (offered o).
Proof.
  intros Ho Hv. rewrite offered_eq by done. destruct Ho as (Hf & Hr & Hw).
  unfold validate_options in Hv. destruct (_ || _) eqn:Hor; [done|]. bool_simp.
  unfold handshake_u32. repeat constructor; cbn; try lia; vm_compute; congruence.
Qed.
(** The broker's selection, from the offer of a client. *)
Lemma offered_selected encoded_len token o response limits :
  options_in_range o → validate_options o = Ok tt →
  validate_handshake encoded_len token (offered o) = Ok (response, limits) →
  response = handshake_response_for (offered o) PROTOCOL_MINOR_MAXIMUM ∧
  limits = handshake_limits (offered o) PROTOCOL_MINOR_MAXIMUM ∧
  0 < co_max_frame_bytes o ∧ 0 < co_max_read_bytes o ∧ 0 < co_max_write_bytes o.
Proof.
  intros Ho Hv Hb.
  destruct (validate_handshake_Ok _ _ _ _ _ (offered_u32 o Ho Hv) Hb)
    as (lo & hi & minor & Hrange & _ & _ & Hm & _ & _ & _ & -> & -> & Hacc).
  rewrite offered_eq in Hrange by done. injection Hrange as <- <-.
  assert (minor = PROTOCOL_MINOR_MAXIMUM) as -> by exact Hm.
  split_and!; try done; unfold limits_acceptable, handshake_limits in Hacc; rewrite offered_eq in Hacc by done;
    cbn [lim_max_frame_bytes lim_max_read_bytes lim_max_write_bytes hsq_max_frame_bytes
         hsq_max_read_bytes hsq_max_write_bytes] in Hacc; lia.
Qed.
Lemma handshake_answer_valid o (h : v1_HandshakeRequest) :
  0 < co_max_frame_bytes o → 0 < co_max_read_bytes o → 0 < co_max_write_bytes o →
  hsq_max_frame_bytes h = co_max_frame_bytes o → hsq_max_read_bytes h = co_max_read_bytes o →
  hsq_max_write_bytes h = co_max_write_bytes o →
  handshake_settle (requested_limits o)
    (mkEnvelope 1 (Some (HandshakeResponse (handshake_response_for h PROTOCOL_MINOR_MAXIMUM))))
  = Ok (mkLimits PROTOCOL_MINOR_MAXIMUM (co_max_frame_bytes o) (co_max_read_bytes o)
          (co_max_write_bytes o) true true true true true true true true true true true true true).
Proof.
  intros Hf Hr Hw Ef Er Ew. unfold handshake_settle, handshake_response_for. rewrite Ef, Er, Ew.
  cbn [env_request_id env_payload]. set (response := mk_v1_HandshakeResponse _ _ _ _ _ _ _ _).
  assert (validate_handshake_response response (requested_limits o) = Ok tt) as ->; [|reflexivity].
  unfold validate_handshake_response. assert (handshake_response_minor_range response = Ok (0, 3)) as -> by done.
  cbn [map_err mbind result_bind fst snd]. assert (has_capability response SERIAL_CAPABILITY = true) as -> by done.
  subst response. unfold requested_limits. cbn [hsr_protocol_major hsr_protocol_minor hsr_max_frame_bytes
    hsr_max_read_bytes hsr_max_write_bytes lim_frame lim_read lim_write].
  rewrite !Z.ltb_irrefl, !(proj2 (Z.eqb_neq _ 0)) by lia. reflexivity.
Qed.
(** C14: client and broker agree: the broker accepts the handshake of a client exactly when the
    client has its startup token and the byte limits are acceptable; and then the client accepts
    the broker's answer and both ends hold the same minor, the highest there is, and the same
    frame, read and write limits, the ones the client asked for, within which the longest serial
    read and write fit; every capability of the client is on. *)
Theorem handshake_agreement encoded_len token o :
  options_in_range o → validate_options o = Ok tt →
  ((∃ answer, validate_handshake encoded_len token (offered o) = Ok answer) ↔
     co_startup_token o = token_bytes token ∧
     limits_acceptable (handshake_limits (offered o) PROTOCOL_MINOR_MAXIMUM)
       (encoded_len (mkEnvelope u64_max (Some (HandshakeResponse
          (handshake_response_for (offered o) PROTOCOL_MINOR_MAXIMUM)))))) ∧
  ∀ response limits,
    validate_handshake encoded_len token (offered o) = Ok (response, limits) →
    ∃ l, handshake_settle (requested_limits o) (mkEnvelope 1 (Some (HandshakeResponse response))) = Ok l ∧
      l = mkLimits PROTOCOL_MINOR_MAXIMUM (co_max_frame_bytes o) (co_max_read_bytes o)
            (co_max_write_bytes o) true true true true true true true true true true true true true ∧
      limits = mkNegotiatedLimits (lim_minor l) (lim_frame l) (lim_read l) (lim_write l) ∧
      read_response_encoded_len (lim_read l) <= lim_frame l ∧
      write_request_encoded_len (lim_write l) <= lim_frame l.
Proof.
  intros Ho Hv. pose proof (offered_u32 o Ho Hv) as Hu. split.
  - split.
    + intros [[response limits] Hb]. pose proof (offered_selected _ _ _ _ _ Ho Hv Hb) as (-> & -> & _).
      split; [|by eapply validate_handshake_limits]. apply validate_handshake_token in Hb.
      by rewrite offered_eq in Hb.
    + intros [Ht Hacc].
      exists (handshake_response_for (offered o) PROTOCOL_MINOR_MAXIMUM,
              handshake_limits (offered o) PROTOCOL_MINOR_MAXIMUM).
      apply validate_handshake_accepts; [done|]. rewrite offered_eq in * by done. split; [done|].
      exists PROTOCOL_MINOR_MINIMUM, PROTOCOL_MINOR_MAXIMUM, PROTOCOL_MINOR_MAXIMUM.
      split_and!; try done. intros c ->%list_elem_of_singleton.
      refine (proj1 (bool_decide_eq_true _) _). reflexivity.
  - intros response limits Hb.
    pose proof (validate_handshake_limits _ _ _ _ _ Hu Hb) as Hacc.
    pose proof (offered_selected _ _ _ _ _ Ho Hv Hb) as (-> & -> & Hf & Hr & Hw).
    unfold handshake_limits, limits_acceptable in *. rewrite offered_eq in * by done.
    cbn [hsq_max_frame_bytes hsq_max_read_bytes hsq_max_write_bytes lim_max_frame_bytes
         lim_max_read_bytes lim_max_write_bytes] in *.
    eexists. split; [|split_and!; [done|done|apply Hacc|apply Hacc]].
    by apply handshake_answer_valid.
Qed.
(** The default options, with an answer to the handshake of 1000 bytes. *)
Lemma handshake_agreement_witness :
  ∃ answer, validate_handshake (λ _, 1000) demo_token
    (offered (ConnectionOptions_new (token_bytes demo_token))) = Ok answer.
Proof.
  apply (handshake_agreement (λ _, 1000) demo_token (ConnectionOptions_new (token_bytes demo_token))).
  - repeat split; vm_compute; congruence.
  - reflexivity.
  - split; [reflexivity|]. repeat split; vm_compute; congruence.
Defined.
