(* ===== verification/ClientAccepts.v ===== *)
(** * robot-hal-client and robot-hal-broker: answers

    The broker's answer to a request that the client makes passes the client's validation,
    whatever the runtime answers, as long as what it answers is well formed: no honest broker
    is taken for a broken one.  [accepts] is a logic for the tasks of [BrokerCore] in the
    style of [BrokerSafety]'s. *)

From S2P Require Import Prelude Core Lifecycle SerialRegistry CanTypes CameraTypes UsbTypes.
From S2P Require Import GpioTypes ShmLayout ShmRing WireCore WireCan WireUsbGpio WireCamera Envelope.
From S2P Require Import BrokerCore BrokerDispatch ClientWire ClientValidate ClientHandles ClientHandlesSpec.
From S2P Require Import ClientConnection.

(** ** Well-formed answers of the runtime *)
Definition ok_answer {A} (P : A → Prop) (r : HalResult A) : Prop := ∀ a, r = Ok a → P a.
Definition descriptors_of (t : TransportKind) (ds : list ResourceDescriptor) : Prop :=
  Forall (λ d, descriptor_wf d ∧ desc_transport d = t) ds.
Definition grant_wf (mode : LeaseMode) (g : SessionId * LeaseToken) : Prop :=
  valid_identifier (SessionId_as_str g.1) ∧ token_wf g.2 ∧ token_mode g.2 = mode.
Section answers.
(** The number of lines each GPIO session was opened with. *)
Context (lines : SessionId → Z).
Definition answer_wf {X} (e : RtE X) : X → Prop :=
  match e in RtE X return X → Prop with
  | REnumerateSerial => ok_answer (descriptors_of Serial)
  | REnumerateCan => ok_answer (descriptors_of Can)
  | REnumerateUsb => ok_answer (descriptors_of Usb)
  | REnumerateGpio => ok_answer (descriptors_of Gpio)
  | REnumerateCamera => ok_answer (descriptors_of Camera)
  | ROpenSerial _ _ _ | ROpenUsb _ _ _ | ROpenGpio _ _ _ _ | ROpenCamera _ _ _ =>
      ok_answer (grant_wf Control)
  | ROpenCan _ _ mode _ _ => ok_answer (grant_wf mode)
  | RReadSerial _ _ n => ok_answer (λ data, len data <= n)
  | RSendCan _ _ _ => λ r, ∀ e, r = Err e → error_wf (batch_error e)
  | RReceiveCan _ _ n _ => ok_answer (λ frames, len frames <= n ∧ Forall received_wf frames)
  | RUsbTransfer _ _ _ _ => ok_answer (λ data, len data <= MAX_USB_TRANSFER_BYTES)
  | RGpioRead s _ => ok_answer (λ values, len values = lines s)
  | RGpioNextEdge _ _ _ _ => ok_answer (λ event, ∀ ev, event = Some ev → edge_event_wf ev)
  | RMappingDescriptor _ _ => ok_answer mapping_wf
  | RNextFrameLease _ _ => ok_answer (λ frame, ∀ f, frame = Some f → frame_lease_wf f)
  | RControls _ _ => ok_answer (λ controls, len controls <= 4 ∧ Forall control_wf controls)
  | RGetControl _ _ _ => ok_answer control_value_wf
  | _ => λ _, True
  end.

(** ** A logic for the answers of tasks *)
Section logic.
(** What is known of the sessions whenever the task looks at them. *)
Context (known : BrokerSessions → Prop).
Fixpoint yields {A} (m : prog A) (Q : A → Prop) : Prop :=
  match m with
  | Done a => Q a
  | Call X e k => ∀ x, answer_wf e x → yields (k x) Q
  | Atomic X f k => ∀ s, known s → yields (k (f s).2) Q
  end.
Definition accepts {A} (m : task A) (Q : A → Prop) : Prop := yields m (λ r, ∀ a, r = Ok a → Q a).
Lemma yields_mono {A} (m : prog A) (P Q : A → Prop) :
  (∀ a, P a → Q a) → yields m P → yields m Q.
Proof. intros HPQ. induction m; cbn; eauto. Qed.
Lemma yields_and {A} (m : prog A) (P Q : A → Prop) :
  yields m P → yields m Q → yields m (λ a, P a ∧ Q a).
Proof. induction m; cbn; eauto. Qed.
Lemma yields_pbind {A B} (m : prog A) (f : A → prog B) Q :
  yields m (λ a, yields (f a) Q) → yields (pbind m f) Q.
Proof. induction m; cbn; eauto. Qed.
Lemma accepts_bind {A B} (m : task A) (f : A → task B) Q :
  accepts m (λ a, accepts (f a) Q) → accepts (m ≫= f) Q.
Proof.
  intros H. apply yields_pbind. eapply yields_mono; [|exact H]. intros [a|e] Ha; [by apply Ha|].
  cbn. by intros a [=].
Qed.
Lemma accepts_lift {A} (r : HalResult A) (Q : A → Prop) : (∀ a, r = Ok a → Q a) → accepts (lift r) Q.
Proof. done. Qed.
Lemma accepts_call {A} (e : RtE (HalResult A)) (Q : A → Prop) :
  (∀ a, answer_wf e (Ok a) → Q a) → accepts (call e) Q.
Proof. intros H x Hx a ->. by apply H. Qed.
Lemma accepts_inspect {A} (f : BrokerSessions → HalResult A) (Q : A → Prop) :
  (∀ s a, known s → f s = Ok a → Q a) → accepts (inspect f) Q.
Proof. intros H s Hs a Ha. by eapply H. Qed.
Lemma accepts_update f (Q : unit → Prop) : Q tt → accepts (update f) Q.
Proof. intros H s _ [] _. exact H. Qed.
End logic.
(** ** What the client expects of each request *)
Context (limits : Limits).
(** The profile the client holds of each CAN session. *)
Context (profiles : SessionId → CanSessionProfile).
(** The broker's record of a CAN session agrees with the client's profile of it. *)
Record agrees (p : CanSessionProfile) (r : SessionRecord CanReceiveWireProfile) : Prop := {
  ag_mode : rp_mode (sr_extra r) = sp_mode p;
  ag_data : rp_max_data_bytes (sr_extra r)
            = match sp_mode p with Classic => MAX_CLASSIC_DATA_BYTES | Fd => MAX_FD_DATA_BYTES end;
  ag_classic : CapabilitySet_contains (sr_capabilities r) can_classic_capability = sp_classic_frames p;
  ag_fd : CapabilitySet_contains (sr_capabilities r) can_fd_capability = sp_fd_frames p;
  ag_error : CapabilitySet_contains (sr_capabilities r) can_error_frames_capability = sp_error_frames p;
  ag_stamp : CapabilitySet_contains (sr_capabilities r) can_rx_timestamp_capability = sp_timestamps p;
}.
Definition can_known (s : BrokerSessions) : Prop :=
  ∀ session r, rg_sessions (bs_can s) !! session = Some r → agrees (profiles session) r.
(** The requests of the methods of [ClientHandles], with what they expect. *)
Inductive asks : Payload → ExpectedResponse → Prop :=
  | asks_enumerate_serial : asks EnumerateSerialRequest ExpEnumerateSerial
  | asks_open_serial m : asks (OpenSerialRequest m) ExpOpenSerial
  | asks_serial_read m : asks (SerialReadRequest m) (ExpSerialRead (wsrr_max_bytes m))
  | asks_serial_write m : asks (SerialWriteRequest m) ExpSerialWrite
  | asks_serial_flush m : asks (SerialFlushRequest m) ExpSerialFlush
  | asks_control_lines m : asks (SetSerialControlLinesRequest m) ExpSetControlLines
  | asks_close_session m : asks (CloseSessionRequest m) ExpCloseSession
  | asks_close_can m p : asks (CloseSessionRequest m) (ExpCloseCan p)
  | asks_enumerate_can : asks EnumerateCanRequest ExpEnumerateCan
  | asks_open_can m mode id : wor_mode m = proto_number mode → asks (OpenCanRequest m) (ExpOpenCan mode id)
  | asks_can_send m p : asks (CanSendRequest m) (ExpCanSend (len (wsr_frames m)) p)
  | asks_can_receive m s l : parse_session_lease (wrr_session_id m) (wrr_lease m) = Ok (s, l) →
      asks (CanReceiveRequest m) (ExpCanReceive (wrr_max_frames m) (lim_read limits) (profiles s))
  | asks_replace_filters m p : asks (ReplaceCanFiltersRequest m) (ExpReplaceCanFilters p)
  | asks_bus_status m p : asks (GetCanBusStatusRequest m) (ExpCanBusStatus p)
  | asks_enumerate_usb : asks EnumerateUsbRequest ExpEnumerateUsb
  | asks_open_usb m id : asks (OpenUsbRequest m) (ExpOpenUsb id)
  | asks_usb_transfer m id : asks (UsbTransferRequest m) (ExpUsbTransfer (lim_read limits) id)
  | asks_close_usb m id : asks (CloseUsbRequest m) (ExpCloseUsb id)
  | asks_enumerate_gpio : asks EnumerateGpioRequest ExpEnumerateGpio
  | asks_open_gpio m id : 0 < len (wog_lines m) → asks (OpenGpioRequest m) (ExpOpenGpio (len (wog_lines m)) id)
  | asks_gpio_read m s l id : gpio_read_request_from_proto m = Ok (s, l) →
      asks (GpioReadRequest m) (ExpGpioRead (lines s) id)
  | asks_gpio_write m id : asks (GpioWriteRequest m) (ExpGpioWrite id)
  | asks_next_edge m id : asks (GpioNextEdgeRequest m) (ExpGpioNextEdge id)
  | asks_close_gpio m id : asks (CloseGpioRequest m) (ExpCloseGpio id)
  | asks_enumerate_camera : asks EnumerateCameraRequest ExpEnumerateCamera
  | asks_open_camera m id : asks (OpenCameraRequest m) (ExpOpenCamera id)
  | asks_capture m id : asks (CaptureCameraRequest m) (ExpCaptureCamera id)
  | asks_mapping m id : asks (CameraMappingDescriptorRequest m) (ExpCameraMappingDescriptor id)
  | asks_frame m id : asks (CameraNextFrameLeaseRequest m) (ExpCameraNextFrameLease id)
  | asks_dropped m id : asks (CameraDroppedCountRequest m) (ExpCameraDroppedCount id)
  | asks_controls m id : asks (CameraControlsRequest m) (ExpCameraControls id)
  | asks_get_control m id : asks (CameraGetControlRequest m) (ExpCameraGetControl id)
  | asks_set_control m id : asks (CameraSetControlRequest m) (ExpCameraSetControl id)
  | asks_set_auto m id : asks (CameraSetAutoRequest m) (ExpCameraSetAuto id)
  | asks_close_camera m id : asks (CloseCameraRequest m) (ExpCloseCamera id).

(** ** Responses *)
Lemma parse_session_lease_grant mode s l :
  grant_wf mode (s, l) →
  parse_session_lease (SessionId_as_str s) (Some (LeaseToken_to_proto l)) = Ok (s, l).
Proof.
  intros (Hs & Hl & _). destruct s as [s]. unfold parse_session_lease. cbn [SessionId_as_str fst snd] in *.
  rewrite (proj2 (SessionId_parse_Ok s _) (conj Hs eq_refl)). cbn.
  by rewrite (exact_encode LeaseToken_try_from LeaseToken_to_proto token_wf l Hl).
Qed.
Lemma descriptor_round_trip d :
  descriptor_wf d → ResourceDescriptor_try_from (ResourceDescriptor_to_proto d) = Ok d.
Proof. intros H. apply (codec_roundtrip _ _ _ _ d H). Qed.
Lemma enumeration_valid t msg ds :
  descriptors_of t ds → validate_enumeration t msg (resources_to_proto ds) = Ok tt.
Proof.
  unfold validate_enumeration, resources_to_proto. induction 1 as [|d ds [Hd Ht] _ IH]; [done|].
  cbn [fmap list_fmap try_fold]. rewrite descriptor_round_trip by done. cbn [mbind result_bind].
  by rewrite bool_decide_eq_true_2.
Qed.
Lemma checked_valid {A} r (x : HalResult A) a : x = Ok a → checked r x = Ok tt.
Proof. by intros ->. Qed.
Lemma control_grant_decoded s l class :
  grant_wf Control (s, l) →
  parse_control_session_lease (SessionId_as_str s) (Some (LeaseToken_to_proto l)) class = Ok (s, l).
Proof.
  intros H. unfold parse_control_session_lease. rewrite (parse_session_lease_grant _ _ _ H).
  destruct H as (_ & _ & Hm). cbn [mbind result_bind fst snd] in *. by rewrite bool_decide_eq_false_2 by (by intros []).
Qed.
Lemma frame_lease_decoded f :
  (∀ l, f = Some l → frame_lease_wf l) →
  ∃ w, camera_next_frame_lease_response_from_proto (frame_lease_to_proto <$> f) = Ok w.
Proof.
  intros Hf. destruct f as [l|]; [|by exists None].
  pose proof (frame_lease_path l (mkMappingDescriptor "" (fl_identity l) [] 0) (Hf _ eq_refl) eq_refl) as H.
  apply bind_Ok in H as (w & Hw & _). by exists w.
Qed.

(** ** The tasks *)
Context (owner : OwnerId) (broker : NegotiatedLimits).
Hypothesis read_agrees : lim_max_read_bytes broker = lim_read limits.
Abbreviation answered e m := (accepts can_known m (λ p, validate_response e p = Ok tt)).
Ltac accept_step :=
  match goal with
  | |- accepts _ (mbind _ _) _ => apply accepts_bind
  | |- accepts _ (lift (Ok _)) _ => apply accepts_lift; intros ? [= <-]
  | |- accepts _ (lift (Err _)) _ => apply accepts_lift; intros ? [=]
  | |- accepts _ (lift _) _ => apply accepts_lift; intros ? ?
  | |- accepts _ (call _) _ => apply accepts_call; intros ? ?
  | |- accepts _ (inspect _) _ => apply accepts_inspect; intros ? ? ? ?
  | |- accepts _ (update _) _ => apply accepts_update
  | |- accepts _ (if ?b then _ else _) _ => destruct b eqn:?
  | |- accepts _ (match ?x with (_, _) => _ end) _ => destruct x
  end.
Ltac accept := repeat accept_step.
Lemma serial_answered p e : asks p e →
  is_can_payload p = false → is_usb_gpio_payload p = false → is_camera_payload p = false →
  answered e (dispatch_operation_inner owner (Some p) broker).
Proof.
  intros [] ? ? ?; try done; cbn [dispatch_operation_inner]; cbv zeta; unfold can_close; accept; done.
Qed.
Ltac by_answer := match goal with H : answer_wf _ _ |- _ => by apply H end.
Lemma usb_gpio_answered p e : asks p e → is_usb_gpio_payload p = true →
  answered e (usb_gpio_dispatch owner p broker).
Proof.
  intros [] ?; try done; cbn [usb_gpio_dispatch];
    unfold open_usb, open_gpio, transfer, read_gpio, write_gpio, next_edge, close_usb, close_gpio;
    cbv zeta; accept; try done; cbn [validate_response].
  - apply enumeration_valid. by_answer.
  - eapply checked_valid, control_grant_decoded. by_answer.
  - unfold usb_transfer_response_from_proto, usb_transfer_response_to_proto. bool_simp.
    rewrite (proj2 (Z.ltb_ge _ _)) by by_answer. cbn [map_err mbind result_bind].
    by rewrite (proj2 (Z.leb_le _ _)) by lia.
  - apply enumeration_valid. by_answer.
  - rewrite (proj2 (Z.ltb_lt _ _)) by done. eapply checked_valid, control_grant_decoded. by_answer.
  - assert (s0 = s) as -> by congruence.
    unfold gpio_read_response_from_proto, gpio_read_response_to_proto. match goal with H : (bool_decide _ || _) = false |- _ => rewrite H end.
    cbn [map_err mbind result_bind]. assert (len a1 = lines s) as -> by by_answer. by rewrite Z.eqb_refl.
  - eapply checked_valid. apply (exact_encode gpio_next_edge_response_from_proto
      gpio_next_edge_response_to_proto (λ o, ∀ ev, o = Some ev → edge_event_wf ev)). by_answer.
Qed.
Lemma camera_answered p e : asks p e → is_camera_payload p = true → answered e (camera_dispatch owner p).
Proof.
  intros [] ?; try done; cbn [camera_dispatch]; unfold camera_open, camera_admit; accept; try done;
    cbn [validate_response ok_or mbind result_bind].
  - apply enumeration_valid. by_answer.
  - eapply checked_valid. match goal with H : answer_wf _ (Ok (?s, ?l)) |- _ =>
      exact (control_grant_decoded s l "Camera" (H _ eq_refl)) end.
  - eapply checked_valid. apply (exact_encode camera_mapping_descriptor_from_proto
      camera_mapping_descriptor_to_proto mapping_wf). by_answer.
  - match goal with |- context [frame_lease_to_proto <$> ?f] =>
      destruct (frame_lease_decoded f) as [w Hw]; [by_answer|] end. by eapply checked_valid.
  - eapply checked_valid. apply (exact_encode camera_controls_response_from_proto
      (fmap camera_control_descriptor_to_proto) (λ l, len l <= 4 ∧ Forall control_wf l)). by_answer.
  - eapply checked_valid. apply (exact_encode camera_control_value_from_proto
      camera_control_value_to_proto control_value_wf). by_answer.
Qed.
(** *** CAN *)
Lemma frame_data_bound f : frame_wf f →
  len (CanFrame_data f) <= match f with FdData _ _ _ _ => MAX_FD_DATA_BYTES | _ => MAX_CLASSIC_DATA_BYTES end.
Proof.
  unfold frame_wf. destruct f as [id data|id dlc|id data brs esi|classes data]; cbn [CanFrame_validate CanFrame_data];
    intros H; try (apply bind_Ok in H as ([] & _ & H)); repeat case_match; bool_simp; try done.
  match goal with H : valid_fd_data_length _ = true |- _ => rename H into Hfd end.
  unfold valid_fd_data_length in Hfd. unfold MAX_FD_DATA_BYTES.
  repeat (apply orb_prop in Hfd as [Hfd|Hfd]); bool_simp; lia.
Qed.
(** What the broker lets through of a received frame, the client takes. *)
Lemma received_step x frames r p : received_wf x → agrees p r →
  validate_received_capabilities (x :: frames) (sr_capabilities r) (sr_resource_id r) (sr_extra r) = Ok tt →
  received_allowed p (rcv_frame x) = true ∧ (is_some (rcv_timestamp x) && negb (sp_timestamps p)) = false ∧
  len (CanFrame_data (rcv_frame x)) <= rp_max_data_bytes (sr_extra r) ∧
  validate_received_capabilities frames (sr_capabilities r) (sr_resource_id r) (sr_extra r) = Ok tt.
Proof.
  intros [Hwf _] [Hm Hd Hc Hf He Hs] H. pose proof (frame_data_bound _ Hwf) as Hlen. cbn [validate_received_capabilities] in H.
  destruct (match rp_mode (sr_extra r) with Classic => _ | Fd => _ end) eqn:Hmode; [done|].
  apply bind_Ok in H as ([] & Hcap & H). apply bind_Ok in H as ([] & Hstamp & H).
  cbn [validate_frame_capabilities] in Hcap. apply bind_Ok in Hcap as ([] & _ & Hcap).
  apply bind_Ok in Hcap as ([] & Hcap & _). unfold require_capability in Hcap, Hstamp.
  destruct (CapabilitySet_contains _ (frame_capability _).1) eqn:Hcon; [|done]. clear Hcap.
  split_and!; [| | |done].
  - destruct (rcv_frame x); cbn [received_allowed frame_capability fst] in *; try congruence.
    destruct (rp_mode (sr_extra r)); [done|]. rewrite <- Hm, <- Hf, Hcon. by rewrite bool_decide_eq_true_2.
  - destruct (is_some (rcv_timestamp x)); [|done]. rewrite <- Hs.
    by destruct (CapabilitySet_contains (sr_capabilities r) can_rx_timestamp_capability).
  - rewrite Hd, <- Hm. unfold MAX_FD_DATA_BYTES, MAX_CLASSIC_DATA_BYTES in *.
    destruct (rp_mode (sr_extra r)), (rcv_frame x); try done; lia.
Qed.
Lemma received_valid frames r p : Forall received_wf frames → agrees p r →
  validate_received_capabilities frames (sr_capabilities r) (sr_resource_id r) (sr_extra r) = Ok tt →
  len frames * rp_max_data_bytes (sr_extra r) <= usize_max →
  validate_received_profile frames p = Ok tt ∧
  ∃ n, received_payload_bytes frames p = Ok n ∧ n <= len frames * rp_max_data_bytes (sr_extra r).
Proof.
  intros Hwf Hag H Hmax. unfold received_payload_bytes. set (f := λ (total : Z) received, _).
  enough (∀ total, 0 <= total → total + len frames * rp_max_data_bytes (sr_extra r) <= usize_max →
    validate_received_profile frames p = Ok tt ∧ ∃ n, try_fold f total frames = Ok n ∧
      n <= total + len frames * rp_max_data_bytes (sr_extra r)) as Hall by (by apply (Hall 0)).
  clear Hmax. induction Hwf as [|x frames Hx Hwf IH]; intros total Ht Hmax.
  - split; [done|]. exists total. split; [done|]. unfold len. cbn. lia.
  - destruct (received_step _ _ _ _ Hx Hag H) as (Hal & Hst & Hlen & Hrest).
    cbn [validate_received_profile try_fold]. rewrite Hal, Hst. cbn [negb].
    assert (len (x :: frames) = 1 + len frames) as Hcons by (unfold len; cbn [length]; lia).
    pose proof (len_nonneg (CanFrame_data (rcv_frame x))). pose proof (len_nonneg frames).
    assert (0 <= rp_max_data_bytes (sr_extra r)) by lia. rewrite Hcons in *.
    assert (f total x = Ok (total + len (CanFrame_data (rcv_frame x)))) as ->.
    { unfold f, checked_add. rewrite (proj2 (Z.leb_le _ _)); [done|]. nia. }
    destruct (IH Hrest (total + len (CanFrame_data (rcv_frame x)))) as (Hp & n & Hn & Hb); [lia|nia|].
    split; [done|]. exists n. split; [done|]. nia.
Qed.
Lemma enumerate_can_valid ds : descriptors_of Can ds →
  ∃ l, enumerate_can_response_from_proto (resources_to_proto ds) = Ok l.
Proof.
  unfold enumerate_can_response_from_proto, resources_to_proto. induction 1 as [|d ds [Hd Ht] _ [l IH]]; [by exists []|].
  cbn [fmap list_fmap collect]. rewrite descriptor_round_trip by done. cbn [mbind result_bind].
  rewrite bool_decide_eq_false_2 by (by intros []). rewrite IH. by eexists.
Qed.
Lemma open_can_mode m selector mode' config filters mode :
  open_can_request_from_proto m = Ok (selector, mode', config, filters) →
  wor_mode m = proto_number mode → mode' = mode.
Proof.
  intros H Hm. unfold open_can_request_from_proto in H. apply bind_Ok in H as (? & _ & H).
  apply bind_Ok in H as (? & _ & H). destruct (bool_decide _); [done|].
  apply bind_Ok in H as (m0 & Hmode%enum_field_Ok & H). repeat (apply bind_Ok in H as (? & _ & H)).
  injection H as _ -> _ _. apply (inj proto_number). congruence.
Qed.
Lemma can_send_frames m s l frames :
  can_send_request_from_proto m = Ok (s, l, frames) → len (wsr_frames m) = len frames.
Proof.
  intros H. apply bind_Ok in H as ([] & _ & H). apply bind_Ok in H as (f & Hf & [= -> -> ->]).
  destruct (can_batches_exact (wsr_frames m) frames [] 1 []) as [[Hs _] _].
  destruct (Hs Hf) as [-> _]. unfold len. by rewrite length_fmap.
Qed.
Lemma can_receive_session m s l s' l' n t :
  parse_session_lease (wrr_session_id m) (wrr_lease m) = Ok (s, l) →
  can_receive_request_from_proto m = Ok (s', l', n, t) → s' = s.
Proof.
  intros H Hm. unfold can_receive_request_from_proto in Hm. rewrite H in Hm. cbn [mbind result_bind] in Hm.
  by apply bind_Ok in Hm as ([] & _ & [= -> _ _ _]).
Qed.
Lemma session_known s l mode op closed st r :
  can_known st → validate_session s l mode op closed st = Ok r → agrees (profiles s) r.
Proof.
  intros Hk H. apply Hk. unfold validate_session in H. destruct (rg_sessions (bs_can st) !! s); [|done].
  by repeat case_match; simplify_eq.
Qed.
Lemma can_receive_valid m s l n timeout frames r (a : Z) :
  can_receive_request_from_proto m = Ok (s, l, n, timeout) →
  checked_mul usize_max n (rp_max_data_bytes (sr_extra r)) = Some a → a <= lim_read limits →
  len frames <= n → Forall received_wf frames → agrees (profiles s) r →
  validate_received_capabilities frames (sr_capabilities r) (sr_resource_id r) (sr_extra r) = Ok tt →
  validate_response (ExpCanReceive (wrr_max_frames m) (lim_read limits) (profiles s))
    (CanReceiveResponse (ReceivedCanFrame_to_proto <$> frames)) = Ok tt.
Proof.
  intros Hm Ha Hread Hlen Hwf Hag Hcap. cbn [validate_response].
  apply bind_Ok in Hm as ([] & _ & Hm). apply bind_Ok in Hm as ([n' t'] & Hp & Heq).
  unfold can_receive_parameters in Hp. destruct (negb _) eqn:Hb in Hp; [done|]. injection Hp as <- _.
  injection Heq as -> -> <- _.
  apply negb_false_iff, in_batch_true in Hb. change MAX_CAN_BATCH_FRAMES with 64 in Hb.
  unfold checked_mul in Ha. destruct (_ <=? _) eqn:Hle in Ha; [|done]. injection Ha as <-. bool_simp.
  destruct (can_batches_exact [] [] (ReceivedCanFrame_to_proto <$> frames) (wrr_max_frames m) frames)
    as [_ [_ Hr]].
  rewrite Hr by (split_and!; [done|done|lia|lia|lia]). cbn [map_err mbind result_bind].
  assert (0 <= rp_max_data_bytes (sr_extra r)) as Hpos by (rewrite (ag_data _ _ Hag); by destruct (sp_mode _)).
  destruct (received_valid frames r (profiles s) Hwf Hag Hcap) as (Hv & k & Hk & Hbound); [nia|].
  rewrite Hk. cbn [mbind result_bind]. rewrite (proj2 (Z.ltb_ge _ _)) by nia. exact Hv.
Qed.
Lemma can_answered p e : asks p e → is_can_payload p = true → answered e (can_dispatch owner p broker).
Proof.
  intros [] ?; try done; unfold can_dispatch; cbn [can_dispatch];
    unfold can_open, can_send, can_receive, can_replace_filters, can_status; accept; try done;
    cbn [validate_response].
  - destruct (enumerate_can_valid a) as [l Hl]; [by_answer|]. by rewrite Hl.
  - eapply checked_valid. unfold open_can_response_from_proto, open_response. cbn [wsl_session_id wsl_lease].
    match goal with H : answer_wf _ (Ok (?s, ?l)) |- _ => pose proof (H _ eq_refl) as Hg end.
    rewrite (parse_session_lease_grant _ _ _ Hg). cbn [mbind result_bind].
    destruct Hg as (_ & _ & Hg). cbn [snd] in Hg. rewrite bool_decide_eq_false_2; [done|].
    intros Hne. apply Hne. rewrite Hg. by eapply open_can_mode.
  - intros r Hr x [= ->]. accept. cbn [validate_response].
    match goal with H : can_send_request_from_proto _ = _ |- _ => apply can_send_frames in H as -> end.
    eapply checked_valid, can_send_response_exact. by split; [|exact Hr].
  - match goal with H : answer_wf _ (Ok ?frames) |- _ => destruct (H _ eq_refl) as [Hlen Hwf] end.
    match goal with H : ok_or _ _ = Ok ?a, H' : (_ <? ?a) = false |- _ =>
      apply ok_or_Ok in H; eapply (can_receive_valid _ _ _ _ _ _ _ a); [|exact H|bool_simp; lia|done|done|..] end.
    + match goal with H : can_receive_request_from_proto _ = _ |- _ => rewrite H end.
      assert (s0 = s) as -> by (by eapply can_receive_session). done.
    + assert (s0 = s) as -> by (by eapply can_receive_session). by eapply session_known.
    + by match goal with x : unit |- _ => destruct x end.
  - eapply checked_valid. cbn [get_can_bus_status_response_from_proto required ok_or mbind result_bind].
    by apply (exact_encode CanBusStatus_try_from CanBusStatus_to_proto (λ _, True)).
Qed.
(** ** What the methods prepare *)
Context (encoded_len : Envelope → Z) (can_frame_encoded_len : v1_CanFrame → Z).
Ltac prepared :=
  repeat match goal with
  | H : (if ?b then _ else _) = Ok _ |- _ => destruct b eqn:?; [done|]
  | H : mbind _ _ = Ok _ |- _ => apply bind_Ok in H as (? & _ & H)
  | H : fitted _ _ _ _ _ = Ok _ |- _ => apply fitted_Ok in H
  end; simplify_eq; try by constructor.
(** The handle of a session as the broker granted it, with what the client knows of it. *)
Definition handle_ok (h : RemoteHandle) : Prop :=
  grant_wf (token_mode (rh_lease h)) (rh_session_id h, rh_lease h).
Lemma prepared_serial h selector config n bytes len control request e :
  (enumerate_serial_prepare = Ok (request, e) → asks request e) ∧
  (open_serial_prepare selector config = Ok (request, e) → asks request e) ∧
  (0 <= n → serial_read_prepare limits h n = Ok (request, e) → asks request e) ∧
  (serial_write_prepare len limits h bytes = Ok (request, e) → asks request e) ∧
  (serial_flush_prepare h = Ok (request, e) → asks request e) ∧
  (serial_set_control_lines_prepare h control = Ok (request, e) → asks request e) ∧
  (serial_close_prepare h = Ok (request, e) → asks request e).
Proof.
  unfold enumerate_serial_prepare, open_serial_prepare, serial_read_prepare, serial_write_prepare,
    serial_flush_prepare, serial_set_control_lines_prepare, serial_close_prepare.
  split_and!; try by (intros; prepared).
  intros Hn H. prepared. bool_simp.
  match goal with |- asks (SerialReadRequest ?m) (ExpSerialRead n) =>
    replace n with (wsrr_max_bytes m) at 2 by (cbn; apply Z.mod_small; unfold u32_max in *; lia) end.
  constructor.
Qed.
Lemma prepared_usb h selector claim transfer timeout request e :
  (enumerate_usb_prepare limits = Ok (request, e) → asks request e) ∧
  (open_usb_prepare encoded_len limits selector claim = Ok (request, e) → asks request e) ∧
  (usb_transfer_prepare encoded_len limits h transfer timeout = Ok (request, e) → asks request e) ∧
  (usb_close_prepare encoded_len limits h = Ok (request, e) → asks request e).
Proof.
  unfold enumerate_usb_prepare, open_usb_prepare, usb_transfer_prepare, usb_close_prepare.
  split_and!; intros; prepared.
Qed.
Lemma prepared_gpio g selector opened config values edges timeout request e :
  (enumerate_gpio_prepare limits = Ok (request, e) → asks request e) ∧
  (open_gpio_prepare encoded_len limits selector opened config = Some (Ok (request, e)) → asks request e) ∧
  (lease_wf (rh_session_id (rg_handle g)) (rh_lease (rg_handle g)) →
   rg_line_count g = lines (rh_session_id (rg_handle g)) →
   gpio_read_prepare g = Ok (request, e) → asks request e) ∧
  (gpio_write_prepare encoded_len limits g values = Ok (request, e) → asks request e) ∧
  (gpio_next_edge_prepare encoded_len limits g edges timeout = Ok (request, e) → asks request e) ∧
  (gpio_close_prepare g = Ok (request, e) → asks request e).
Proof.
  unfold enumerate_gpio_prepare, gpio_read_prepare, gpio_write_prepare, gpio_next_edge_prepare,
    gpio_close_prepare.
  split_and!; try by (intros; prepared).
  - unfold open_gpio_prepare. intros H. destruct (_ || _) eqn:Hor; [done|]. bool_simp.
    destruct (require_minor_two _ _ _ _); [|done]. apply bind_Some in H as (m & Hm & [= H]).
    apply fitted_Ok in H as [= -> ->].
    assert (wog_lines m = opened) as <- by (by apply bind_Some in Hm as (? & _ & [= <-])).
    constructor. destruct (wog_lines m); [done|]. unfold len. cbn [length]. lia.
  - intros Hl Hn H. prepared. rewrite Hn. econstructor. exact (control_grant_decoded _ _ "GPIO" Hl).
Qed.
Lemma prepared_can c selector mode config filters resources d frames n timeout request e :
  (enumerate_can_prepare limits = Ok (request, e) → asks request e) ∧
  (open_can_prepare encoded_len limits selector mode config filters resources = Ok (d, (request, e)) →
   asks request e) ∧
  (can_send_batch_prepare encoded_len limits c frames = Ok (request, e) → asks request e) ∧
  (handle_ok (rc_handle c) → rc_profile c = profiles (rh_session_id (rc_handle c)) →
   can_receive_prepare encoded_len can_frame_encoded_len limits c n timeout = Ok (request, e) → asks request e) ∧
  (can_replace_filters_prepare encoded_len limits c filters = Ok (request, e) → asks request e) ∧
  (can_bus_status_prepare encoded_len limits c = Ok (request, e) → asks request e) ∧
  (can_close_prepare encoded_len limits c = Ok (request, e) → asks request e).
Proof.
  unfold enumerate_can_prepare, open_can_prepare, can_send_batch_prepare, can_receive_prepare,
    can_replace_filters_prepare, can_bus_status_prepare, can_close_prepare.
  split_and!; try by (intros; prepared).
  - intros H. do 3 (apply bind_Ok in H as (? & ? & H)). injection H as -> ->.
    match goal with H : fitted _ _ _ _ _ = Ok _ |- _ => apply fitted_Ok in H as [= -> ->] end. by constructor.
  - intros H. prepared. match goal with |- asks (CanSendRequest ?m) (ExpCanSend ?n _) =>
      assert (n = len (wsr_frames m)) as -> by (unfold len; cbn; by rewrite length_fmap) end. constructor.
  - intros Hok Hp H. prepared. rewrite Hp.
    assert (n mod 2 ^ 32 = n) as ->.
    { bool_simp. unfold MAX_CAN_BATCH_FRAMES in *. rewrite Z.mod_small; lia. }
    match goal with |- asks (CanReceiveRequest ?m) _ => eapply (asks_can_receive m) end.
    by apply (parse_session_lease_grant (token_mode (rh_lease (rc_handle c)))).
Qed.
Lemma prepared_camera k selector camera descriptor kind value enabled timeout request e :
  (enumerate_camera_prepare limits = Ok (request, e) → asks request e) ∧
  (open_camera_prepare encoded_len limits selector camera = Ok (request, e) → asks request e) ∧
  (camera_capture_prepare encoded_len limits k timeout = Ok (request, e) → asks request e) ∧
  (camera_mapping_descriptor_prepare encoded_len limits k = Ok (request, e) → asks request e) ∧
  (camera_next_frame_lease_prepare encoded_len limits k descriptor = Ok (request, e) → asks request e) ∧
  (camera_dropped_count_prepare encoded_len limits k = Ok (request, e) → asks request e) ∧
  (camera_controls_prepare encoded_len limits k = Ok (request, e) → asks request e) ∧
  (camera_get_control_prepare encoded_len limits k kind = Ok (request, e) → asks request e) ∧
  (camera_set_control_prepare encoded_len limits k kind value = Ok (request, e) → asks request e) ∧
  (camera_set_auto_prepare encoded_len limits k kind enabled = Ok (request, e) → asks request e) ∧
  (camera_close_prepare encoded_len limits k = Ok (request, e) → asks request e).
Proof.
  unfold enumerate_camera_prepare, open_camera_prepare, camera_capture_prepare,
    camera_mapping_descriptor_prepare, camera_next_frame_lease_prepare, camera_dropped_count_prepare,
    camera_controls_prepare, camera_get_control_prepare, camera_set_control_prepare,
    camera_set_auto_prepare, camera_close_prepare.
  split_and!; intros; prepared.
Qed.

(** ** The answers of a broker *)
Lemma dispatch_answered p e : asks p e → answered e (dispatch_payload owner (Some p) broker).
Proof.
  intros H. cbn [dispatch_payload]. destruct (_ && _); [by apply accepts_lift|].
  destruct (_ && _); [by apply accepts_lift|].
  destruct (is_can_payload p) eqn:?; [by apply can_answered|].
  destruct (is_usb_gpio_payload p) eqn:?; [by apply usb_gpio_answered|].
  destruct (is_camera_payload p) eqn:?; [by apply camera_answered|by apply serial_answered].
Qed.
(** A serial read is answered with no more than was asked for and may be read. *)
Lemma serial_read_answered m :
  accepts can_known (dispatch_payload owner (Some (SerialReadRequest m)) broker) (λ p,
    ∃ data, p = SerialReadResponse data ∧ len data <= wsrr_max_bytes m ∧ len data <= lim_read limits).
Proof.
  cbn [dispatch_payload is_camera_payload is_usb_gpio_payload is_can_payload andb
       dispatch_operation_inner]. cbv zeta. accept. eexists. split; [done|].
  match goal with H : answer_wf _ (Ok ?d) |- _ => pose proof (H d eq_refl) as Hlen end.
  bool_simp. unfold try_from in *. destruct (Z.leb_spec (wsrr_max_bytes m) usize_max); cbn in *; lia.
Qed.
Lemma settle_valid e p : validate_response e p = Ok tt → settle_pending e (Some p) = Ok p.
Proof.
  intros H. unfold settle_pending. rewrite H. destruct p; try done. by destruct e.
Qed.
End answers.
(** The client's profile of a CAN session and the broker's record of it, made from the same
    descriptor and configuration. *)
Lemma can_open_agrees id mode config d response c lease closed :
  can_from_response id mode config d response = Ok c →
  agrees (rc_profile c) (mkSessionRecord (desc_id d) (desc_capabilities d) lease
    (receive_wire_profile config (desc_capabilities d)) closed).
Proof.
  intros H. unfold can_from_response in H. apply bind_Ok in H as ([s l] & _ & [= <-]).
  split; try done; cbn; destruct config as [expectation|config]; try done.
Qed.
(** Within the limits that the client's reader enforces before it decodes a frame. *)
Definition read_within (limits : Limits) (e : ExpectedResponse) (answer : Payload) : Prop :=
  ∀ data, answer = SerialReadResponse data →
    len data <= lim_read limits ∧ ∀ max, e = ExpSerialRead max → len data <= max.
(** Whatever the runtime answers, as long as it is well formed, the envelope with which the
    broker answers a request of the client bears the request's id and is an error or a response
    that the client's validation accepts. *)
Lemma broker_answers_valid lines limits profiles owner broker id p e :
  lim_max_read_bytes broker = lim_read limits → asks lines limits profiles p e →
  yields lines (can_known profiles) (dispatch_operation owner id (Some p) broker) (λ envelope,
    env_request_id envelope = id ∧
    ((∃ error, env_payload envelope = Some (PError (HalError_to_proto error))) ∨
     ∃ answer, env_payload envelope = Some answer ∧ validate_response e answer = Ok tt ∧
       read_within limits e answer)).
Proof.
  intros Hread Hask. unfold dispatch_operation. apply yields_pbind.
  assert (accepts lines (can_known profiles) (dispatch_payload owner (Some p) broker)
    (λ a, validate_response e a = Ok tt ∧ read_within limits e a)) as H.
  { eapply yields_mono; [|apply (yields_and _ _ _ (λ r, ∀ a, r = Ok a → validate_response e a = Ok tt)
      (λ r, ∀ a, r = Ok a → read_within limits e a)); [by eapply dispatch_answered|]].
    - intros r Hr a ->. destruct Hr as [Hv Hw]. exact (conj (Hv a eq_refl) (Hw a eq_refl)).
    - assert ((∃ m, p = SerialReadRequest m) ∨
        ∀ data, validate_response e (SerialReadResponse data) ≠ Ok tt) as [[m ->]|Hno]
        by (destruct Hask; first [by left; eexists|by right]).
      + inversion Hask; subst. eapply yields_mono; [|by eapply serial_read_answered].
        intros r Hr a ->. destruct (Hr a eq_refl) as (d & -> & ? & ?).
        intros data [= ->]. split; [done|]. by intros max [= <-].
      + eapply yields_mono; [|by eapply dispatch_answered]. intros r Hr a -> data ->.
        by destruct (Hno data (Hr _ eq_refl)). }
  eapply yields_mono; [|exact H]. intros [a|error] Ha; cbn; (split; [done|]).
  - right. exists a. split; [done|]. by apply Ha.
  - left. by exists error.
Qed.
