(* ===== verification/ClientCalls.v ===== *)
(** * robot-hal-client and robot-hal-broker: calls

    A method of a remote handle, followed through the broker: the request it sends is
    dispatched to the very operation of the runtime, on the session, with the lease and with
    the arguments of the call ([client_calls_reach_runtime]); the exceptions are values that
    the client sends unchecked and the broker refuses as malformed. *)

From S2P Require Import Prelude Varint Core Lifecycle SerialRegistry CanTypes CameraTypes UsbTypes.
From S2P Require Import GpioTypes ShmLayout ShmRing WireCore WireCan WireUsbGpio WireCamera Envelope.
From S2P Require Import BrokerCore BrokerDispatch BrokerLimits BrokerSafety ClientWire ClientValidate.
From S2P Require Import ClientHandles ClientHandlesSpec ClientAccepts.

(** ** What a task asks first *)
Inductive FirstAsk (A : Type) : Type :=
  | Answers (a : A)
  | Asks (X : Type) (e : RtE X).
Global Arguments Answers {A}.
Global Arguments Asks {A}.
(** The first call of a task that starts with the given sessions, or its answer if it makes
    none.  Until then a task only looks at the sessions. *)
Fixpoint first_ask {A} (m : prog A) (s : BrokerSessions) : FirstAsk A :=
  match m with
  | Done a => Answers a
  | Call X e _ => Asks X e
  | Atomic X f k => first_ask (k (f s).2) (f s).1
  end.
Lemma first_ask_lift {A B} (a : A) (f : A → task B) s : first_ask (lift (Ok a) ≫= f) s = first_ask (f a) s.
Proof. done. Qed.
Lemma first_ask_inspect {A B} g (a : A) (f : A → task B) s :
  g s = Ok a → first_ask (inspect g ≫= f) s = first_ask (f a) s.
Proof. intros H. cbn. by rewrite H. Qed.

(** ** The longest answer to a CAN receive, as protobuf writes it *)
Definition can_id_wire_len (i : v1_CanId) : Z := wire_varint 1 (wid_value i) + wire_varint 2 (wid_format i).
Definition packed_wire_len (field : Z) (values : list Z) : Z :=
  wire_bytes field (foldr (λ v n, varint_bytes v + n) 0 values).
Definition can_frame_wire_len (f : v1_CanFrame) : Z :=
  match wfr_id f with Some i => wire_message 1 (can_id_wire_len i) | None => 0 end
  + wire_varint 2 (wfr_kind f) + wire_bytes 3 (len (wfr_data f)) + wire_varint 4 (wfr_remote_dlc f)
  + wire_varint 5 (Z.b2z (wfr_bitrate_switch f)) + wire_varint 6 (Z.b2z (wfr_error_state_indicator f))
  + packed_wire_len 7 (wfr_error_classes f).
Definition can_timestamp_wire_len (t : v1_CanTimestamp) : Z :=
  wire_varint 1 (wts_timestamp_ns t) + wire_varint 2 (wts_source t) + wire_bytes 3 (str_len (wts_clock_domain t)).
Definition received_wire_len (r : v1_ReceivedCanFrame) : Z :=
  match wrf_frame r with Some f => wire_message 1 (can_frame_wire_len f) | None => 0 end
  + match wrf_timestamp r with Some t => wire_message 2 (can_timestamp_wire_len t) | None => 0 end.
Definition receive_response_wire_len (id : Z) (frames : list v1_ReceivedCanFrame) : Z :=
  wire_varint 1 id + wire_message 57 (foldr (λ r n, wire_message 1 (received_wire_len r) + n) 0 frames).
(** What is asked of protobuf: the length of an envelope that answers a receive. *)
Definition measures_receives (encoded_len : Envelope → Z) : Prop :=
  ∀ id frames, encoded_len (mkEnvelope id (Some (CanReceiveResponse frames))) = receive_response_wire_len id frames.

Lemma repeated_wire_len r n :
  foldr (λ r n, wire_message 1 (received_wire_len r) + n) 0 (repeat r n)
  = Z.of_nat n * wire_message 1 (received_wire_len r).
Proof. induction n as [|n IH]; cbn [repeat foldr]; lia. Qed.
Lemma receive_envelope_is_message R n :
  0 <= R <= 400 → 1 <= n <= 64 →
  (payload ← checked_mul usize_max (length_delimited_field_len 1 R) n;
   Some (envelope_encoded_len CAN_RECEIVE_RESPONSE_FIELD_NUMBER payload))
  = Some (wire_varint 1 u64_max + wire_message 57 (n * wire_message 1 R)).
Proof.
  intros HR Hn. rewrite length_delimited_is_message by (clear; set_solver).
  assert (0 <= wire_message 1 R <= 406) as Hw.
  { pose proof (wire_message_mono 1 R 400 ltac:(lia)) as H. change (wire_message 1 400) with 403 in H.
    pose proof (wire_message_nonneg 1 R). lia. }
  unfold checked_mul. rewrite (proj2 (Z.leb_le _ _)) by (unfold usize_max, u64_max; nia).
  cbn [mbind option_bind]. f_equal. rewrite (Z.mul_comm n). generalize (wire_message 1 R * n) as x.
  intros x. unfold envelope_encoded_len, wire_message. rewrite !prost_varint_len_bytes. change (wire_varint 1 u64_max) with 11. change (wire_tag 57 2) with 2.
  change (varint_bytes (Z.lor (Z.shiftl CAN_RECEIVE_RESPONSE_FIELD_NUMBER 3) 2)) with 2.
  lia.
Qed.
(** The broker's record of a CAN session was made by its open from a configuration. *)
Definition profiled (p : CanSessionProfile) (r : SessionRecord CanReceiveWireProfile) : Prop :=
  agrees p r ∧ ∃ config, sr_extra r = receive_wire_profile config (sr_capabilities r).
(** The longest answer the client allows for is the one the broker reckons with. *)
Lemma receive_bound_exact encoded_len p r n :
  measures_receives encoded_len → profiled p r → 1 <= n <= MAX_CAN_BATCH_FRAMES →
  can_receive_response_envelope_bound n (sr_extra r)
  = Some (maximum_receive_envelope_len encoded_len can_frame_wire_len n p).
Proof.
  intros Hm [Hag [config Hc]] Hn. unfold maximum_receive_envelope_len, maximum_receive_envelope. cbv zeta.
  rewrite Hm. unfold receive_response_wire_len. rewrite repeated_wire_len.
  pose proof (ag_mode _ _ Hag) as Hmode. pose proof (ag_error _ _ Hag) as He. pose proof (ag_stamp _ _ Hag) as Ht.
  assert (rp_max_frame_proto_bytes (sr_extra r) = 
    let b := match sp_mode p with Classic => 22 | Fd => 82 end in if sp_error_frames p then Z.max b 24 else b) as Hb.
  { rewrite <- Hmode, <- He, Hc. cbn. by destruct (match config with Attach _ => _ | Configure _ => _ end). }
  assert (rp_timestamp (sr_extra r) = sp_timestamps p) as Hts by (by rewrite <- Ht, Hc).
  unfold can_receive_response_envelope_bound. rewrite Hb, Hts. rewrite Z2Nat.id by lia.
  unfold MAX_CAN_BATCH_FRAMES in Hn.
  rewrite <- receive_envelope_is_message; [|destruct (sp_mode p), (sp_error_frames p), (sp_timestamps p);
    vm_compute; split; congruence|lia].
  destruct (sp_mode p), (sp_error_frames p), (sp_timestamps p); reflexivity.
Qed.

Section calls.
Context (encoded_len : Envelope → Z) (measured : measures_receives encoded_len).
(** The connection: what was negotiated, as both ends hold it, and the sessions the broker
    has recorded when it serves the request. *)
Context (owner : OwnerId) (limits : Limits) (s : BrokerSessions).
Definition negotiated : NegotiatedLimits :=
  mkNegotiatedLimits (lim_minor limits) (lim_frame limits) (lim_read limits) (lim_write limits).
Definition limits_sound : Prop :=
  PROTOCOL_MINOR_MAXIMUM <= lim_minor limits ∧ 0 <= lim_read limits ∧ 0 <= lim_write limits.
(** The request of a method is dispatched to this call of the runtime. *)
Definition reaches {X} (prepared : Prepared) (e : RtE X) : Prop :=
  ∀ request expected, prepared = Ok (request, expected) →
    first_ask (dispatch_payload owner (Some request) negotiated) s = Asks X e.
(** The request of a method is refused as malformed, before the runtime is asked anything. *)
Definition malformed (prepared : Prepared) : Prop :=
  ∀ request expected, prepared = Ok (request, expected) →
    ∃ error, first_ask (dispatch_payload owner (Some request) negotiated) s = Answers (Err error) ∧
      err_name error = mkErrorName "runtime.protocol.invalid_message".
(** The session of a handle is recorded, open and under its lease. *)
Record recorded {X} (reg : SessionRegistry X) (h : RemoteHandle) (r : SessionRecord X) : Prop := {
  recorded_found : rg_sessions reg !! rh_session_id h = Some r;
  recorded_lease : sr_lease r = rh_lease h;
  recorded_open : sr_closed r = false;
}.
Definition advertises {X} (r : SessionRecord X) (c : CapabilityId) : Prop :=
  CapabilitySet_contains (sr_capabilities r) c = true.
Implicit Types (h : RemoteHandle).
Hypothesis sound : limits_sound.

Lemma minor_camera : (lim_protocol_minor negotiated <? CAMERA_WIRE_MINOR) = false.
Proof. destruct sound as [? _]. by apply Z.ltb_ge. Qed.
Lemma minor_usb : (lim_protocol_minor negotiated <? 2) = false.
Proof. destruct sound as [? _]. apply Z.ltb_ge. cbn. unfold PROTOCOL_MINOR_MAXIMUM in *. lia. Qed.
Lemma minor_can : (lim_protocol_minor negotiated <? CAN_WIRE_MINOR) = false.
Proof. destruct sound as [? _]. apply Z.ltb_ge. unfold CAN_WIRE_MINOR. cbn. unfold PROTOCOL_MINOR_MAXIMUM in *. lia. Qed.
Lemma dispatch_camera p : is_camera_payload p = true → is_usb_gpio_payload p = false → is_can_payload p = false →
  dispatch_payload owner (Some p) negotiated = camera_dispatch owner p.
Proof. intros Hc Hu Hn. cbn [dispatch_payload]. by rewrite Hc, Hu, Hn, minor_camera. Qed.
Lemma dispatch_usb_gpio p : is_camera_payload p = false → is_usb_gpio_payload p = true → is_can_payload p = false →
  dispatch_payload owner (Some p) negotiated = usb_gpio_dispatch owner p negotiated.
Proof. intros Hc Hu Hn. cbn [dispatch_payload]. by rewrite Hc, Hu, Hn, minor_usb. Qed.
Lemma dispatch_can p : is_camera_payload p = false → is_usb_gpio_payload p = false → is_can_payload p = true →
  dispatch_payload owner (Some p) negotiated = can_dispatch owner p negotiated.
Proof. intros Hc Hu Hn. cbn [dispatch_payload]. by rewrite Hc, Hu, Hn. Qed.

(** The checks of the broker on a recorded session. *)
Lemma usb_gpio_validate_recorded h r kind operation closed :
  recorded (bs_usb_gpio s) h r → sr_extra r = kind →
  usb_gpio_validate (rh_session_id h) (rh_lease h) kind operation closed s = Ok r.
Proof.
  intros [Hf Hl Ho] <-. unfold usb_gpio_validate. rewrite Hf, Ho.
  by rewrite !bool_decide_eq_false_2 by (intros E; by apply E).
Qed.
Lemma camera_validate_recorded h r operation closed :
  recorded (bs_camera s) h r → camera_validate (rh_session_id h) (rh_lease h) operation closed s = Ok r.
Proof.
  intros [Hf Hl Ho]. unfold camera_validate. rewrite Hf, Ho.
  by rewrite bool_decide_eq_false_2 by (intros E; by apply E).
Qed.
Lemma can_validate_recorded h r mode operation closed :
  recorded (bs_can s) h r → lease_mode_allows (token_mode (rh_lease h)) mode = true →
  validate_session (rh_session_id h) (rh_lease h) mode operation closed s = Ok r.
Proof.
  intros [Hf Hl Ho] Hm. unfold validate_session. rewrite Hf, Ho, Hl, Hm.
  by rewrite bool_decide_eq_false_2 by (intros E; by apply E).
Qed.
Lemma observe_allowed m : lease_mode_allows m Observe = true.
Proof. by destruct m. Qed.
Lemma require_advertised {X} (r : SessionRecord X) c name : advertises r c → require (sr_capabilities r) c name (sr_resource_id r) = Ok ().
Proof. intros H. unfold require. by rewrite H. Qed.
(** What a request of a handle carries is read back. *)
Lemma request_decoded h :
  valid_identifier (SessionId_as_str (rh_session_id h)) ∧ token_wf (rh_lease h) →
  parse_session_lease (wsl_session_id (handle_request h)) (wsl_lease (handle_request h))
  = Ok (rh_session_id h, rh_lease h).
Proof. intros [Hs Hl]. by apply parse_session_lease_encode. Qed.
Lemma control_request_decoded h class :
  lease_wf (rh_session_id h) (rh_lease h) →
  parse_control_session_lease (wsl_session_id (handle_request h)) (wsl_lease (handle_request h)) class
  = Ok (rh_session_id h, rh_lease h).
Proof. exact (control_grant_decoded (rh_session_id h) (rh_lease h) class). Qed.
Lemma camera_request_decoded h :
  lease_wf (rh_session_id h) (rh_lease h) →
  camera_session_lease_from_proto (handle_session h) (handle_lease h) = Ok (rh_session_id h, rh_lease h).
Proof.
  intros (Hs & Hl & Hm). unfold camera_session_lease_from_proto, handle_session, handle_lease.
  rewrite parse_session_lease_encode by done. cbn. by rewrite bool_decide_eq_false_2 by (by intros []).
Qed.

(** *** Serial *)
Lemma serial_lease_decoded h :
  lease_wf (rh_session_id h) (rh_lease h) →
  parse_serial_session_lease (handle_session h) (handle_lease h) = Ok (rh_session_id h, rh_lease h).
Proof.
  intros (Hs & Hl & Hm). unfold parse_serial_session_lease, handle_session, handle_lease.
  rewrite parse_session_lease_encode by done. cbn. by rewrite bool_decide_eq_false_2 by (by intros []).
Qed.
Ltac serve_serial :=
  cbn [dispatch_payload is_camera_payload is_usb_gpio_payload is_can_payload andb dispatch_operation_inner
       wsrr_max_bytes wsrr_session_id wsrr_lease wsw_data wsw_session_id wsw_lease wsl_session_id wsl_lease
       wcl_session_id wcl_lease wcl_data_terminal_ready wcl_request_to_send handle_request session_request
       lim_max_write_bytes negotiated]; cbv zeta.
Lemma serial_calls wire_len h :
  let sid := rh_session_id h in let l := rh_lease h in
  lease_wf sid l →
  (∀ n, 0 <= n → reaches (serial_read_prepare limits h n) (RReadSerial sid l n)) ∧
  (∀ data, reaches (serial_write_prepare wire_len limits h data) (RWriteSerial sid l data)) ∧
  reaches (serial_flush_prepare h) (RFlushSerial sid l) ∧
  (∀ lines, reaches (serial_set_control_lines_prepare h lines) (RSetControlLines sid l lines)) ∧
  (rg_sessions (bs_can s) !! sid = None → is_serial_session sid (bs_serial s) = true →
   reaches (serial_close_prepare h) (RCloseSerial sid l)).
Proof.
  cbv zeta. intros Hl. pose proof (serial_lease_decoded h Hl) as Hd. split_and!.
  - intros n Hn request e H. apply bind_Ok in H as ([] & _ & H). destruct (_ || _) eqn:Hb; [done|].
    injection H as <- _. bool_simp. serve_serial.
    assert (n mod 2 ^ 32 = n) as -> by (apply Z.mod_small; unfold u32_max in *; lia).
    rewrite limit_u32 by done. cbn [lim_max_read_bytes negotiated]. rewrite (proj2 (Z.eqb_neq n 0)) by done.
    rewrite (proj2 (Z.ltb_ge _ _)) by done. cbn [orb]. by rewrite Hd.
  - intros data request e H. apply bind_Ok in H as ([] & _ & H). destruct (_ <? _) eqn:Hb; [done|].
    cbv zeta in H. destruct (lim_frame limits <? _); [done|]. injection H as <- _.
    serve_serial. by rewrite Hb, Hd.
  - intros request e H. apply bind_Ok in H as ([] & _ & H). injection H as <- _. serve_serial. unfold handle_request, session_request; cbn [wsl_session_id wsl_lease].
    unfold handle_session, handle_lease in Hd. by rewrite Hd.
  - intros lines request e H. apply bind_Ok in H as ([] & _ & H). injection H as <- _. serve_serial. rewrite Hd.
    by destruct lines.
  - intros Hc Hs request e H. apply bind_Ok in H as ([] & _ & H). injection H as <- _.
    destruct Hl as (Hv & Ht & _). cbn. unfold is_can_session.
    destruct (rh_session_id h) as [sid] eqn:Hsid. cbn [SessionId_as_str] in *.
    rewrite (proj2 (SessionId_parse_Ok sid _) (conj Hv eq_refl)), Hc. cbn.
    change sid with (SessionId_as_str (mkSessionId sid)). rewrite parse_session_lease_encode by done. cbn.
    by rewrite Hs.
Qed.

(** *** USB *)
Lemma transfer_checked sid l t ms :
  0 <= lim_read limits → 0 <= lim_write limits → UsbTransfer_validate t = Ok tt → transfer_typed t →
  let m := transfer_to_proto sid l t ms in
  transfer_bounded negotiated t ↔
    (lim_max_write_bytes negotiated <? len (wut_data m))
    || (lim_max_read_bytes negotiated <? default usize_max (try_from usize_max (wut_max_bytes m))) = false.
Proof.
  intros Hr Hw Hv Ht. cbv zeta. rewrite orb_false_iff, !Z.ltb_ge.
  assert (∀ n, 0 <= n → validate_size n = Ok tt →
    default usize_max (try_from usize_max (n mod 2 ^ 32)) = n) as Hn.
  { intros n Hn H. unfold validate_size in H. case_match; [done|].
    bool_simp. unfold MAX_USB_TRANSFER_BYTES in *. rewrite Z.mod_small by lia. apply limit_u32.
    unfold u32_max. lia. }
  destruct t; cbn in Hv, Ht; apply bind_Ok in Hv as ([] & _ & Hv);
    cbn [transfer_to_proto wut_data wut_max_bytes transfer_bounded lim_max_write_bytes lim_max_read_bytes negotiated].
  all: try (change (default usize_max (try_from usize_max (0 mod 2 ^ 32))) with 0).
  all: try (rewrite Hn by (tauto || done)).
  all: try (change (len []) with 0). all: intuition lia.
Qed.
Lemma usb_calls h timeout :
  let sid := rh_session_id h in let l := rh_lease h in
  let whole := from_millis (timeout / 1000000) in
  lease_wf sid l →
  (∀ t, transfer_typed t →
    (∀ r, recorded (bs_usb_gpio s) h r → sr_extra r = KindUsb → advertises r (transfer_capability t).1 →
       transfer_bounded negotiated t →
       reaches (usb_transfer_prepare encoded_len limits h t timeout) (RUsbTransfer sid l t whole)) ∧
    (¬ transfer_bounded negotiated t → malformed (usb_transfer_prepare encoded_len limits h t timeout))) ∧
  (∀ r, recorded (bs_usb_gpio s) h r → sr_extra r = KindUsb →
     reaches (usb_close_prepare encoded_len limits h) (RCloseUsb sid l)).
Proof.
  cbv zeta. intros Hl. split.
  - intros t Ht.
    assert (∀ request e, usb_transfer_prepare encoded_len limits h t timeout = Ok (request, e) →
      ∃ m, request = UsbTransferRequest m ∧
        usb_transfer_request_from_proto m
        = Ok (rh_session_id h, rh_lease h, t, from_millis (timeout / 1000000)) ∧
        (transfer_bounded negotiated t ↔
           (lim_max_write_bytes negotiated <? len (wut_data m))
           || (lim_max_read_bytes negotiated <? default usize_max (try_from usize_max (wut_max_bytes m))) = false))
      as Hprep.
    { intros request e H. destruct (usb_transfer_decoded encoded_len limits h t timeout request e Hl Ht H) as (-> & Hv & Hd).
      eexists. split; [done|]. split; [exact Hd|]. destruct sound as (_ & Hr & Hw).
      exact (transfer_checked _ _ _ _ Hr Hw Hv Ht). }
    split.
    + intros r Hh Hk Hc Hb request e H. destruct (Hprep request e H) as (m & -> & Hd & Hbd).
      rewrite dispatch_usb_gpio by done. cbn [usb_gpio_dispatch]. unfold transfer. cbv zeta.
      rewrite (proj1 Hbd Hb), Hd, first_ask_lift.
      rewrite (first_ask_inspect _ r) by (by apply usb_gpio_validate_recorded).
      by rewrite require_advertised.
    + intros Hb request e H. destruct (Hprep request e H) as (m & -> & Hd & Hbd).
      rewrite dispatch_usb_gpio by done. cbn [usb_gpio_dispatch]. unfold transfer. cbv zeta.
      destruct (_ || _); [|by destruct Hb; apply Hbd]. by eexists.
  - intros r Hh Hk request e H. apply bind_Ok in H as ([] & _ & H). apply fitted_Ok in H as [= -> _].
    rewrite dispatch_usb_gpio by done. cbn [usb_gpio_dispatch]. unfold close_usb, usb_close_request_from_proto.
    rewrite (control_request_decoded h "USB" Hl), first_ask_lift.
    rewrite (first_ask_inspect _ r) by (by apply usb_gpio_validate_recorded). by rewrite (recorded_open _ _ _ Hh).
Qed.

(** *** GPIO *)
Lemma gpio_calls g timeout :
  let h := rg_handle g in let sid := rh_session_id h in let l := rh_lease h in
  let whole := from_millis (timeout / 1000000) in
  lease_wf sid l → 0 < rg_line_count g →
  (∀ r, recorded (bs_usb_gpio s) h r → sr_extra r = KindGpio →
     (advertises r gpio_lines_capability → reaches (gpio_read_prepare g) (RGpioRead sid l)) ∧
     (∀ values, advertises r gpio_lines_capability → len values <= lim_write limits →
        reaches (gpio_write_prepare encoded_len limits g values) (RGpioWrite sid l values)) ∧
     (∀ edges, edge_request_wf edges → advertises r gpio_edges_capability → response_bound 24 <= lim_frame limits →
        reaches (gpio_next_edge_prepare encoded_len limits g edges timeout) (RGpioNextEdge sid l edges whole)) ∧
     reaches (gpio_close_prepare g) (RCloseGpio sid l)) ∧
  (∀ values, lim_write limits < len values → malformed (gpio_write_prepare encoded_len limits g values)).
Proof.
  cbv zeta. intros Hl Hg. split.
  - intros r Hh Hk. split_and!.
    + intros Hc request e H. apply bind_Ok in H as ([] & _ & H). injection H as <- _.
      rewrite dispatch_usb_gpio by done. cbn [usb_gpio_dispatch]. unfold read_gpio, gpio_read_request_from_proto.
      rewrite (control_request_decoded _ "GPIO" Hl), first_ask_lift.
      rewrite (first_ask_inspect _ r) by (by apply usb_gpio_validate_recorded). by rewrite require_advertised.
    + intros values Hc Hv request e H.
      destruct (gpio_write_decoded encoded_len limits g values request e Hl Hg H) as [-> Hd].
      rewrite dispatch_usb_gpio by done. cbn [usb_gpio_dispatch]. unfold write_gpio.
      rewrite (proj2 (Z.ltb_ge _ _)) by (exact Hv). rewrite Hd, first_ask_lift.
      rewrite (first_ask_inspect _ r) by (by apply usb_gpio_validate_recorded). by rewrite require_advertised.
    + intros edges He Hc Hf request e H.
      destruct (gpio_next_edge_decoded encoded_len limits g edges timeout request e Hl He H) as (m & -> & Hd).
      rewrite dispatch_usb_gpio by done. cbn [usb_gpio_dispatch]. unfold next_edge. rewrite Hd, first_ask_lift.
      rewrite (first_ask_inspect _ r) by (by apply usb_gpio_validate_recorded). rewrite require_advertised by done.
      rewrite first_ask_lift, (proj2 (Z.ltb_ge _ _)) by (exact Hf). done.
    + intros request e H. apply bind_Ok in H as ([] & _ & H). injection H as <- _.
      rewrite dispatch_usb_gpio by done. cbn [usb_gpio_dispatch]. unfold close_gpio, gpio_close_request_from_proto.
      rewrite (control_request_decoded _ "GPIO" Hl), first_ask_lift.
      rewrite (first_ask_inspect _ r) by (by apply usb_gpio_validate_recorded). by rewrite (recorded_open _ _ _ Hh).
  - intros values Hv request e H.
    destruct (gpio_write_decoded encoded_len limits g values request e Hl Hg H) as [-> Hd].
    rewrite dispatch_usb_gpio by done. cbn [usb_gpio_dispatch]. unfold write_gpio.
    rewrite (proj2 (Z.ltb_lt _ _)) by (exact Hv). by eexists.
Qed.

(** *** Cameras *)
Lemma camera_capture_reaches k timeout r :
  let h := rk_handle k in
  lease_wf (rh_session_id h) (rh_lease h) → recorded (bs_camera s) h r → advertises r camera_capture_capability →
  reaches (camera_capture_prepare encoded_len limits k timeout)
    (RCapture (rh_session_id h) (rh_lease h) (from_millis (timeout / 1000000))).
Proof.
  cbv zeta. intros Hl Hh Hc request e H.
  destruct (camera_capture_decoded encoded_len limits k timeout request e Hl H) as (m & -> & Hd).
  rewrite dispatch_camera by done. cbn [camera_dispatch]. rewrite Hd, first_ask_lift.
  rewrite (first_ask_inspect _ r) by (by apply camera_validate_recorded). by rewrite require_advertised.
Qed.
Lemma camera_admit_recorded {B} h r operation capability name (f : SessionId * LeaseToken → task B) :
  lease_wf (rh_session_id h) (rh_lease h) → recorded (bs_camera s) h r → advertises r capability →
  first_ask (camera_admit (handle_session h) (handle_lease h) operation capability name ≫= f) s
  = first_ask (f (rh_session_id h, rh_lease h)) s.
Proof.
  intros Hl Hh Hc. unfold camera_admit. rewrite camera_request_decoded by done. cbn.
  rewrite (camera_validate_recorded h r) by done. cbn. by rewrite require_advertised.
Qed.
Lemma control_kind_decoded kind : camera_control_kind_from_proto (control_kind_to_proto kind) = Ok kind.
Proof. by destruct kind. Qed.
Ltac camera_prepared H :=
  unfold camera_mapping_descriptor_prepare, camera_next_frame_lease_prepare, camera_dropped_count_prepare,
    camera_controls_prepare, camera_get_control_prepare, camera_set_control_prepare, camera_set_auto_prepare,
    camera_close_prepare in H; cbv zeta in H;
  repeat match type of H with mbind _ _ = Ok _ => apply bind_Ok in H as ([] & _ & H) end;
  apply fitted_Ok in H as [= -> _];
  rewrite dispatch_camera by done;
  cbn [camera_dispatch wgc_session_id wgc_lease wsc_session_id wsc_lease wsa_session_id wsa_lease];
  repeat match goal with
  | |- context [wsl_session_id (handle_request ?h)] =>
      change (wsl_session_id (handle_request h)) with (handle_session h)
  | |- context [wsl_lease (handle_request ?h)] => change (wsl_lease (handle_request h)) with (handle_lease h)
  end.
Lemma camera_calls k timeout :
  let h := rk_handle k in let sid := rh_session_id h in let l := rh_lease h in
  let whole := from_millis (timeout / 1000000) in
  lease_wf sid l →
  ∀ r, recorded (bs_camera s) h r →
    (advertises r camera_capture_capability →
       reaches (camera_capture_prepare encoded_len limits k timeout) (RCapture sid l whole)) ∧
    (advertises r camera_frames_shm_capability →
       reaches (camera_mapping_descriptor_prepare encoded_len limits k) (RMappingDescriptor sid l) ∧
       (∀ d, reaches (camera_next_frame_lease_prepare encoded_len limits k d) (RNextFrameLease sid l)) ∧
       reaches (camera_dropped_count_prepare encoded_len limits k) (RDroppedCount sid l)) ∧
    (advertises r camera_controls_capability →
       reaches (camera_controls_prepare encoded_len limits k) (RControls sid l) ∧
       (∀ kind, reaches (camera_get_control_prepare encoded_len limits k kind) (RGetControl sid l kind)) ∧
       (∀ kind value, control_value_wf value →
          reaches (camera_set_control_prepare encoded_len limits k kind value) (RSetControl sid l kind value)) ∧
       (∀ kind value, ¬ control_value_wf value →
          malformed (camera_set_control_prepare encoded_len limits k kind value)) ∧
       (∀ kind enabled, reaches (camera_set_auto_prepare encoded_len limits k kind enabled)
          (RSetAuto sid l kind enabled))) ∧
    reaches (camera_close_prepare encoded_len limits k) (RCloseCamera sid l).
Proof.
  cbv zeta. intros Hl r Hh. split_and!.
  - by apply camera_capture_reaches.
  - intros Hc. split_and!.
    + intros request e H. camera_prepared H. by rewrite (camera_admit_recorded _ r).
    + intros d request e H. camera_prepared H. by rewrite (camera_admit_recorded _ r).
    + intros request e H. camera_prepared H. by rewrite (camera_admit_recorded _ r).
  - intros Hc. split_and!.
    + intros request e H. camera_prepared H. by rewrite (camera_admit_recorded _ r).
    + intros kind request e H. camera_prepared H. rewrite (camera_admit_recorded _ r) by done. cbn [wgc_kind].
      by rewrite control_kind_decoded.
    + intros kind value Hv request e H. camera_prepared H. rewrite (camera_admit_recorded _ r) by done.
      cbn [wsc_kind wsc_value ok_or]. rewrite first_ask_lift, control_kind_decoded, first_ask_lift.
      by rewrite (exact_encode camera_control_value_from_proto camera_control_value_to_proto control_value_wf).
    + intros kind value Hv request e H. camera_prepared H. rewrite (camera_admit_recorded _ r) by done.
      cbn [wsc_kind wsc_value ok_or]. rewrite first_ask_lift, control_kind_decoded, first_ask_lift.
      destruct value as [|v]; [by destruct Hv|]. cbn [camera_control_value_to_proto camera_control_value_from_proto].
      destruct (_ && _ && _) eqn:Hb; [|by eexists]. destruct Hv. bool_simp. by split_and!.
    + intros kind enabled request e H. camera_prepared H. rewrite (camera_admit_recorded _ r) by done. cbn [wsa_kind wsa_enabled].
      by rewrite control_kind_decoded.
  - intros request e H. camera_prepared H. rewrite camera_request_decoded, first_ask_lift by done.
    rewrite (first_ask_inspect _ r) by (by apply camera_validate_recorded). by rewrite (recorded_open _ _ _ Hh).
Qed.

(** *** CAN *)
Lemma frame_can p r frame :
  agrees p r → received_allowed p frame = true →
  CapabilitySet_contains (sr_capabilities r) (frame_capability frame).1 = true.
Proof.
  intros Hag. destruct frame; cbn; rewrite ?(ag_classic _ _ Hag), ?(ag_fd _ _ Hag), ?(ag_error _ _ Hag); try done.
  by intros [? _]%andb_prop.
Qed.
Lemma send_checked c r frames n m :
  agrees (rc_profile c) r → try_fold (send_batch_check c) n frames = Ok m →
  payload_bytes n (CanFrame_to_proto <$> frames) = Ok m ∧
  validate_frame_capabilities frames (sr_capabilities r) (Some (sr_resource_id r)) = Ok ().
Proof.
  intros Hag. revert n. induction frames as [|f frames IH]; intros n H; [done|]. cbn [try_fold] in H.
  apply bind_Ok in H as (n' & Hf & H). unfold send_batch_check in Hf.
  apply bind_Ok in Hf as ([] & Hv%map_err_Ok & Hf). destruct (negb _) eqn:Ha; [done|]. bool_simp.
  assert (wfr_data (CanFrame_to_proto f) = CanFrame_data f) as Hdata by (by destruct f as [[]|[]|[]|]).
  cbn [fmap list_fmap payload_bytes validate_frame_capabilities]. rewrite Hdata, Hv.
  unfold ok_or in *. destruct (checked_add _ _ _) as [k|]; [|done]. injection Hf as ->.
  destruct (IH _ H) as [Hp Hc]. split; [exact Hp|]. cbn [map_err mbind result_bind].
  unfold require_capability. by rewrite (frame_can _ _ _ Hag Ha), Hc.
Qed.
Lemma can_close_reaches c r :
  let h := rc_handle c in
  valid_identifier (SessionId_as_str (rh_session_id h)) ∧ token_wf (rh_lease h) →
  recorded (bs_can s) h r → reaches (can_close_prepare encoded_len limits c) (RCloseCan (rh_session_id h) (rh_lease h)).
Proof.
  cbv zeta. intros Hg Hh request e H. apply bind_Ok in H as ([] & _ & H). apply fitted_Ok in H as [= -> _].
  serve_serial. unfold can_close. rewrite (first_ask_inspect _ true).
  - rewrite request_decoded, first_ask_lift by done.
    rewrite (first_ask_inspect _ r) by (apply can_validate_recorded; [done|apply observe_allowed]).
    by rewrite (recorded_open _ _ _ Hh).
  - unfold is_can_session. destruct Hg as [Hv _]. cbn. pose proof (recorded_found _ _ _ Hh) as Hf.
    destruct (rh_session_id (rc_handle c)) as [sid]. cbn [SessionId_as_str] in *.
    by rewrite (proj2 (SessionId_parse_Ok sid _) (conj Hv eq_refl)), Hf.
Qed.
Lemma can_receive_reaches c n timeout r :
  let h := rc_handle c in
  valid_identifier (SessionId_as_str (rh_session_id h)) ∧ token_wf (rh_lease h) →
  recorded (bs_can s) h r → profiled (rc_profile c) r →
  reaches (can_receive_prepare encoded_len can_frame_wire_len limits c n timeout)
    (RReceiveCan (rh_session_id h) (rh_lease h) n (from_millis (timeout / 1000000))).
Proof.
  cbv zeta. intros Hg Hh Hp request e H.
  destruct (can_receive_decoded _ _ _ _ _ _ _ _ Hg H) as (m & -> & Hd).
  rewrite dispatch_can by done. unfold can_dispatch. rewrite minor_can. unfold can_receive.
  rewrite Hd, first_ask_lift.
  rewrite (first_ask_inspect _ r) by (apply can_validate_recorded; [done|apply observe_allowed]).
  unfold can_receive_prepare in H. apply bind_Ok in H as ([] & _ & H). destruct (negb _) eqn:Hn; [done|].
  apply bind_Ok in H as (ms & _ & H). destruct (is_none_or _ _) eqn:Hm; [done|]. destruct (_ <? _) eqn:Hf; [done|].
  bool_simp. destruct Hp as [Hag Hc].
  rewrite (receive_bound_exact encoded_len (rc_profile c)) by done.
  assert (rp_max_data_bytes (sr_extra r)
    = if bool_decide (sp_mode (rc_profile c) = Fd) then MAX_FD_DATA_BYTES else MAX_CLASSIC_DATA_BYTES) as ->.
  { rewrite (ag_data _ _ Hag). by destruct (sp_mode (rc_profile c)). }
  destruct (checked_mul _ _ _) as [b|]; [|done]. cbn [is_none_or ok_or] in *. rewrite first_ask_lift.
  cbn [lim_max_read_bytes lim_max_frame_bytes negotiated]. rewrite Hm, first_ask_lift.
  by rewrite (proj2 (Z.ltb_ge _ _)) by done.
Qed.
Lemma can_calls c timeout :
  let h := rc_handle c in let sid := rh_session_id h in let l := rh_lease h in
  let whole := from_millis (timeout / 1000000) in
  valid_identifier (SessionId_as_str sid) ∧ token_wf l →
  ∀ r, recorded (bs_can s) h r → profiled (rc_profile c) r →
    (∀ frames, lease_mode_allows (token_mode l) Control = true →
       reaches (can_send_batch_prepare encoded_len limits c frames) (RSendCan sid l frames)) ∧
    (∀ n, reaches (can_receive_prepare encoded_len can_frame_wire_len limits c n timeout)
            (RReceiveCan sid l n whole)) ∧
    (∀ filters, filter_set_wf filters →
       reaches (can_replace_filters_prepare encoded_len limits c filters) (RReplaceFilters sid l filters)) ∧
    reaches (can_bus_status_prepare encoded_len limits c) (RBusStatus sid l) ∧
    reaches (can_close_prepare encoded_len limits c) (RCloseCan sid l).
Proof.
  cbv zeta. intros Hg r Hh Hp. split_and!.
  - intros frames Hm request e H.
    destruct (can_send_batch_decoded _ _ _ _ _ _ Hg H) as (-> & Hb & (n & Hn & Hw) & Hd).
    destruct (send_checked _ _ _ _ _ (proj1 Hp) Hn) as [Hpay Hcap].
    rewrite dispatch_can by done. unfold can_dispatch. rewrite minor_can. unfold can_send, validate_send_bounds.
    cbn [wsr_frames].
    assert (len (CanFrame_to_proto <$> frames) = len frames) as -> by (unfold len; by rewrite length_fmap).
    rewrite Hb, Hpay. cbn [negb mbind result_bind].
    rewrite (proj2 (Z.ltb_ge _ _)) by done. rewrite first_ask_lift, Hd, first_ask_lift.
    rewrite (first_ask_inspect _ r) by (by apply can_validate_recorded). by rewrite Hcap.
  - intros n. by apply (can_receive_reaches c n timeout r).
  - intros filters Hf request e H.
    destruct (can_replace_filters_decoded _ _ _ _ _ _ Hg Hf H) as (m & -> & Hd).
    rewrite dispatch_can by done. unfold can_dispatch. rewrite minor_can. unfold can_replace_filters.
    rewrite Hd, first_ask_lift.
    rewrite (first_ask_inspect _ r) by (apply can_validate_recorded; [done|apply observe_allowed]).
    unfold can_replace_filters_prepare in H. apply bind_Ok in H as ([] & _ & H). unfold validate_filter_capabilities.
    rewrite <- (ag_error _ _ (proj1 Hp)) in H. destruct (existsb _ _); [|done]. cbn [andb] in H.
    unfold require_capability. by destruct (CapabilitySet_contains _ _).
  - intros request e H. apply bind_Ok in H as ([] & _ & H). apply fitted_Ok in H as [= -> _].
    rewrite dispatch_can by done. unfold can_dispatch. rewrite minor_can.
    unfold can_status, get_can_bus_status_request_from_proto. rewrite request_decoded, first_ask_lift by done.
    by rewrite (first_ask_inspect _ r) by (apply can_validate_recorded; [done|apply observe_allowed]).
  - by apply (can_close_reaches c r).
Qed.

(** C34: what the methods of an open handle ask reaches the runtime.  Whenever a method passes
    its local checks, its request, dispatched by a broker that has negotiated the same limits
    and has the handle's session recorded, open, under its lease and with the capability,
    leads to that very call of the runtime, on the session, with the lease and the arguments
    of the method (timeouts in whole milliseconds; arguments as their types' constructors make
    them); of the longest answer to a CAN receive,
    client and broker have the same measure.  Three values are sent unchecked and refused as
    malformed, which ends the connection: a USB transfer or a GPIO write beyond the negotiated
    read or write limit, and a control value that is not an integer or an ASCII string of 1 to
    255 bytes.  (Serial sessions are checked by the runtime; a CAN send needs a lease that
    controls; the wait for an edge needs a frame limit of 48 bytes.) *)
Theorem client_calls_reach_runtime h timeout :
  let sid := rh_session_id h in let l := rh_lease h in
  let whole := from_millis (timeout / 1000000) in
  valid_identifier (SessionId_as_str sid) ∧ token_wf l →
  (token_mode l = Control →
    (∀ n, 0 <= n → reaches (serial_read_prepare limits h n) (RReadSerial sid l n)) ∧
    (∀ wire_len data, reaches (serial_write_prepare wire_len limits h data) (RWriteSerial sid l data)) ∧
    reaches (serial_flush_prepare h) (RFlushSerial sid l) ∧
    (∀ lines, reaches (serial_set_control_lines_prepare h lines) (RSetControlLines sid l lines)) ∧
    (rg_sessions (bs_can s) !! sid = None → is_serial_session sid (bs_serial s) = true →
     reaches (serial_close_prepare h) (RCloseSerial sid l)) ∧
    (∀ t, transfer_typed t →
      (∀ r, recorded (bs_usb_gpio s) h r → sr_extra r = KindUsb → advertises r (transfer_capability t).1 →
         transfer_bounded negotiated t →
         reaches (usb_transfer_prepare encoded_len limits h t timeout) (RUsbTransfer sid l t whole)) ∧
      (¬ transfer_bounded negotiated t → malformed (usb_transfer_prepare encoded_len limits h t timeout))) ∧
    (∀ r, recorded (bs_usb_gpio s) h r → sr_extra r = KindUsb →
       reaches (usb_close_prepare encoded_len limits h) (RCloseUsb sid l)) ∧
    (∀ g, rg_handle g = h → 0 < rg_line_count g →
      (∀ r, recorded (bs_usb_gpio s) h r → sr_extra r = KindGpio →
         (advertises r gpio_lines_capability → reaches (gpio_read_prepare g) (RGpioRead sid l)) ∧
         (∀ values, advertises r gpio_lines_capability → len values <= lim_write limits →
            reaches (gpio_write_prepare encoded_len limits g values) (RGpioWrite sid l values)) ∧
         (∀ edges, edge_request_wf edges → advertises r gpio_edges_capability → response_bound 24 <= lim_frame limits →
            reaches (gpio_next_edge_prepare encoded_len limits g edges timeout) (RGpioNextEdge sid l edges whole)) ∧
         reaches (gpio_close_prepare g) (RCloseGpio sid l)) ∧
      (∀ values, lim_write limits < len values → malformed (gpio_write_prepare encoded_len limits g values))) ∧
    (∀ k r, rk_handle k = h → recorded (bs_camera s) h r →
      (advertises r camera_capture_capability →
         reaches (camera_capture_prepare encoded_len limits k timeout) (RCapture sid l whole)) ∧
      (advertises r camera_frames_shm_capability →
         reaches (camera_mapping_descriptor_prepare encoded_len limits k) (RMappingDescriptor sid l) ∧
         (∀ d, reaches (camera_next_frame_lease_prepare encoded_len limits k d) (RNextFrameLease sid l)) ∧
         reaches (camera_dropped_count_prepare encoded_len limits k) (RDroppedCount sid l)) ∧
      (advertises r camera_controls_capability →
         reaches (camera_controls_prepare encoded_len limits k) (RControls sid l) ∧
         (∀ kind, reaches (camera_get_control_prepare encoded_len limits k kind) (RGetControl sid l kind)) ∧
         (∀ kind value, control_value_wf value →
            reaches (camera_set_control_prepare encoded_len limits k kind value) (RSetControl sid l kind value)) ∧
         (∀ kind value, ¬ control_value_wf value →
            malformed (camera_set_control_prepare encoded_len limits k kind value)) ∧
         (∀ kind enabled, reaches (camera_set_auto_prepare encoded_len limits k kind enabled)
            (RSetAuto sid l kind enabled))) ∧
      reaches (camera_close_prepare encoded_len limits k) (RCloseCamera sid l))) ∧
  (∀ c r, rc_handle c = h → recorded (bs_can s) h r → profiled (rc_profile c) r →
    (∀ frames, lease_mode_allows (token_mode l) Control = true →
       reaches (can_send_batch_prepare encoded_len limits c frames) (RSendCan sid l frames)) ∧
    (∀ n, reaches (can_receive_prepare encoded_len can_frame_wire_len limits c n timeout)
            (RReceiveCan sid l n whole)) ∧
    (∀ filters, filter_set_wf filters →
       reaches (can_replace_filters_prepare encoded_len limits c filters) (RReplaceFilters sid l filters)) ∧
    reaches (can_bus_status_prepare encoded_len limits c) (RBusStatus sid l) ∧
    reaches (can_close_prepare encoded_len limits c) (RCloseCan sid l)).
Proof.
  cbv zeta. intros [Hs Ht]. split.
  - intros Hm. assert (lease_wf (rh_session_id h) (rh_lease h)) as Hl by done.
    pose proof (λ wire_len, serial_calls wire_len h Hl) as Hserial.
    destruct (Hserial (λ _, 0)) as (H1 & _ & H3 & H4 & H5). destruct (usb_calls h timeout Hl) as [H6 H7].
    split_and!; [exact H1|intros wire_len; apply (Hserial wire_len)|exact H3|exact H4|exact H5|exact H6|exact H7|..].
    + intros g <-. by apply gpio_calls.
    + intros k r <-. by apply camera_calls.
  - intros c r <-. by apply can_calls.
Qed.
End calls.

(** ** Examples *)
Definition cx_encoded_len (envelope : Envelope) : Z :=
  match env_payload envelope with
  | Some (CanReceiveResponse frames) => receive_response_wire_len (env_request_id envelope) frames
  | _ => 100
  end.
Definition cx_record {X} (extra : X) (capability : CapabilityId) : SessionRecord X :=
  mkSessionRecord (rh_resource_id hx_handle) (mkCapabilitySet [capability]) (rh_lease hx_handle) extra false.
Definition cx_config : CanOpenConfig := Attach (mkCanLinkExpectation (Some Classic) None None None None).
Definition cx_can : SessionRecord CanReceiveWireProfile :=
  cx_record (receive_wire_profile cx_config (mkCapabilitySet [can_classic_capability])) can_classic_capability.
(** The handle's session, as a USB session and, on another connection, as one of CAN. *)
Definition cx_sessions : BrokerSessions :=
  mkBrokerSessions SerialSessionRegistry_default
    (record_session (rh_session_id hx_handle) cx_can SessionRegistry_default)
    (record_session (rh_session_id hx_handle) (cx_record KindUsb usb_bulk_capability) SessionRegistry_default)
    SessionRegistry_default.
Definition cx_profile : CanSessionProfile :=
  mkCanSessionProfile Classic true false false false (rh_resource_id hx_handle) (rh_session_id hx_handle).
(** A bulk read of 8 bytes reaches the runtime, one of 65, over the read limit, is refused, and
    a receive of two CAN frames reaches the runtime. *)
Lemma client_calls_reach_runtime_witness :
  (∃ request e, usb_transfer_prepare cx_encoded_len hx_limits hx_handle (BulkIn 129 8) (from_millis 5) = Ok (request, e) ∧
     first_ask (dispatch_payload (mkOwnerId "o") (Some request) (negotiated hx_limits)) cx_sessions
     = Asks _ (RUsbTransfer (rh_session_id hx_handle) (rh_lease hx_handle) (BulkIn 129 8) (from_millis 5))) ∧
  (∃ request e, usb_transfer_prepare cx_encoded_len hx_limits hx_handle (BulkIn 129 65) (from_millis 5) = Ok (request, e) ∧
     ∃ error, first_ask (dispatch_payload (mkOwnerId "o") (Some request) (negotiated hx_limits)) cx_sessions
              = Answers (Err error)) ∧
  (∃ request e, can_receive_prepare cx_encoded_len can_frame_wire_len hx_limits
                  (mkRemoteCanHandle hx_handle cx_profile) 2 (from_millis 5) = Ok (request, e) ∧
     first_ask (dispatch_payload (mkOwnerId "o") (Some request) (negotiated hx_limits)) cx_sessions
     = Asks _ (RReceiveCan (rh_session_id hx_handle) (rh_lease hx_handle) 2 (from_millis 5))).
Proof.
  assert (measures_receives cx_encoded_len) as Hm by (intros ? ?; reflexivity).
  assert (limits_sound hx_limits) as Hl by (repeat split; vm_compute; congruence).
  destruct (client_calls_reach_runtime cx_encoded_len Hm (mkOwnerId "o") hx_limits cx_sessions Hl
    hx_handle (from_millis 5)) as [H Hcan]; [repeat split; vm_compute; congruence|].
  destruct (H eq_refl) as (_ & _ & _ & _ & _ & Husb & _). split; [|split].
  - destruct (Husb (BulkIn 129 8)) as [Hok _]; [repeat split; vm_compute; congruence|].
    assert (∃ x, usb_transfer_prepare cx_encoded_len hx_limits hx_handle (BulkIn 129 8) (from_millis 5) = Ok x)
      as [[request e] Hp] by (eexists; vm_compute; reflexivity).
    exists request, e. split; [exact Hp|].
    refine (Hok (cx_record KindUsb usb_bulk_capability) _ eq_refl eq_refl _ request e Hp).
    + split; vm_compute; reflexivity.
    + vm_compute. congruence.
  - destruct (Husb (BulkIn 129 65)) as [_ Hbad]; [repeat split; vm_compute; congruence|].
    assert (∃ x, usb_transfer_prepare cx_encoded_len hx_limits hx_handle (BulkIn 129 65) (from_millis 5) = Ok x)
      as [[request e] Hp] by (eexists; vm_compute; reflexivity).
    exists request, e. split; [exact Hp|].
    destruct (Hbad (λ Hb, Hb eq_refl) request e Hp) as (error & Herr & _). exists error. exact Herr.
  - assert (∃ x, can_receive_prepare cx_encoded_len can_frame_wire_len hx_limits
      (mkRemoteCanHandle hx_handle cx_profile) 2 (from_millis 5) = Ok x) as [[request e] Hp]
      by (eexists; vm_compute; reflexivity).
    exists request, e. split; [exact Hp|].
    refine (proj1 (proj2 (Hcan (mkRemoteCanHandle hx_handle cx_profile) cx_can eq_refl _ _)) 2 request e Hp).
    + split; vm_compute; reflexivity.
    + split; [split; vm_compute; reflexivity|]. exists cx_config. reflexivity.
Defined.
