(* ===== verification/ClientInbound.v ===== *)
(** * robot-hal-client and robot-hal-broker: an answer's way through the client

    From the frame that carries the broker's answer to the caller: the frame limit, the
    preflight, the decoder, the correlation and the validation of [reader_task].  What a frame
    that encodes an answer holds is said in terms of the wire format of [ClientWire]; that the
    broker's frames do, and that the decoder inverts it, is what protobuf promises. *)

From S2P Require Import Prelude Varint Core Lifecycle SerialRegistry CanTypes CameraTypes UsbTypes.
From S2P Require Import GpioTypes ShmLayout ShmRing WireCore WireCan WireUsbGpio WireCamera Envelope.
From S2P Require Import BrokerCore BrokerDispatch ClientWire ClientValidate ClientPreflight.
From S2P Require Import ClientConnection ClientInv ClientSpec ClientHandles ClientHandlesSpec ClientAccepts.

(** ** Frames that encode an envelope *)
(** A bytes field is left out when it is empty. *)
Definition proto_bytes (data : Bytes) : list Bytes := match data with [] => [] | _ => [data] end.
Definition wire_varints_of (n : Z) (fields : list (Z * WireValue)) : list Z :=
  omap (λ '(f, v), match v with WVarint x => if f =? n then Some x else None | _ => None end) fields.
Definition can_frame_wire (f : v1_CanFrame) (b : Bytes) : Prop :=
  ∃ fields, wire_fields 0 fields b ∧ wire_bytes_of 3 fields = proto_bytes (wfr_data f).
Definition received_wire (r : v1_ReceivedCanFrame) (b : Bytes) : Prop :=
  ∃ fields, wire_fields 0 fields b
    ∧ Forall2 can_frame_wire (option_list (wrf_frame r)) (wire_bytes_of 1 fields)
    ∧ (wire_bytes_of 2 fields = [] ↔ wrf_timestamp r = None).
Definition serial_read_wire (data b : Bytes) : Prop :=
  ∃ fields, wire_fields 0 fields b ∧ wire_bytes_of 1 fields = proto_bytes data.
Definition can_receive_wire (frames : list v1_ReceivedCanFrame) (b : Bytes) : Prop :=
  ∃ fields, wire_fields 0 fields b ∧ Forall2 received_wire frames (wire_bytes_of 1 fields).
(** An envelope of a request: the id, and the fields of the two responses that the preflight
    looks into. *)
Definition envelope_wire (env : Envelope) (frame : Bytes) : Prop :=
  ∃ fields, wire_fields 0 fields frame ∧ wire_varints_of 1 fields = [env_request_id env]
    ∧ Forall2 serial_read_wire
        (match env_payload env with Some (SerialReadResponse data) => [data] | _ => [] end)
        (wire_bytes_of 25 fields)
    ∧ Forall2 can_receive_wire
        (match env_payload env with Some (CanReceiveResponse frames) => [frames] | _ => [] end)
        (wire_bytes_of 57 fields).

(** ** The preflight of such a frame *)
Definition received_bytes (r : v1_ReceivedCanFrame) : Z :=
  match wrf_frame r with Some f => len (wfr_data f) | None => 0 end.
Definition receive_bytes (l : list v1_ReceivedCanFrame) : Z := foldr (λ r n, received_bytes r + n) 0 l.
Lemma received_bytes_nonneg r : 0 <= received_bytes r.
Proof. unfold received_bytes. destruct (wrf_frame r); [apply len_nonneg|done]. Qed.
Lemma receive_bytes_nonneg l : 0 <= receive_bytes l.
Proof.
  unfold receive_bytes. induction l as [|r l IH]; cbn [foldr]; [done|].
  pose proof (received_bytes_nonneg r). lia.
Qed.

Lemma visit_bytes_wire {A} n (f : A → Bytes → HalResult A) acc fields b :
  n < u32_max → wire_fields 0 fields b →
  visit_fields (on_bytes n f) acc b = try_fold f acc (wire_bytes_of n fields).
Proof. intros Hn Hb. rewrite (visit_fields_wire _ _ fields) by done. by apply on_bytes_fold. Qed.
Lemma preflight_request_id_wire fields b id :
  wire_fields 0 fields b → wire_varints_of 1 fields = [id] → preflight_request_id b = Ok id.
Proof.
  intros Hb Hid. unfold preflight_request_id. rewrite (visit_fields_wire _ _ fields) by done.
  enough (∀ acc, try_fold (E := HalError) (λ acc '(f, v), match v with
      | WVarint value => Ok (if seen f =? 1 then value else acc) | _ => Ok acc end) acc fields
      = Ok (List.last (wire_varints_of 1 fields) acc)) as H.
  { specialize (H 0). rewrite Hid in H. exact H. }
  clear Hid Hb. induction fields as [|[f v] fields IH]; intros acc; [done|]. cbn [try_fold].
  cbn [wire_varints_of omap list_omap]. fold (wire_varints_of 1 fields).
  destruct v as [x|x|]; [|apply IH|apply IH].
  assert ((seen f =? 1) = (f =? 1)) as -> by (unfold seen, u32_max; lia).
  destruct (f =? 1); rewrite IH; [|done]. f_equal. destruct (wire_varints_of 1 fields) as [|y l]; [done|].
  cbn [List.last]. clear. revert y. induction l as [|z l IH]; intros y; [done|]. apply IH.
Qed.
Lemma preflight_can_data_wire f b n :
  can_frame_wire f b → n + len (wfr_data f) <= usize_max →
  preflight_can_data n b = Ok (n + len (wfr_data f)).
Proof.
  intros (fields & Hb & Hd) Hn. unfold preflight_can_data. rewrite (visit_bytes_wire 3 _ _ fields) by done.
  rewrite Hd. destruct (wfr_data f) as [|x l] eqn:Hf; cbn [proto_bytes try_fold].
  - unfold len. cbn. by rewrite Z.add_0_r.
  - unfold checked_add. destruct (Z.leb_spec (n + len (x :: l)) usize_max); [done|lia].
Qed.
Lemma received_fields_wire fields frames c p t :
  Forall2 can_frame_wire frames (wire_bytes_of 1 fields) →
  p + foldr (λ f n, len (wfr_data f) + n) 0 frames <= usize_max →
  try_fold (λ acc '(f, v), (λ '(frame_count, payload_bytes, has_timestamp) field wire,
    match wire with
    | WBytes b =>
        if field =? 1 then
          preflight_can_data payload_bytes b ≫= λ payload_bytes,
          Ok (frame_count, payload_bytes, has_timestamp)
        else if field =? 2 then Ok (frame_count, payload_bytes, true)
        else Ok (frame_count, payload_bytes, has_timestamp)
    | _ => Ok (frame_count, payload_bytes, has_timestamp)
    end) acc (seen f) v) (c, p, t) fields
  = Ok (c : Z, p + foldr (λ f n, len (wfr_data f) + n) 0 frames,
        t || bool_decide (wire_bytes_of 2 fields ≠ [])).
Proof.
  assert (∀ frames, 0 <= foldr (λ f n, len (wfr_data f) + n) 0 frames) as Hpos.
  { intros l. induction l as [|f l IH]; cbn; [done|]. pose proof (len_nonneg (wfr_data f)). lia. }
  revert frames p t. induction fields as [|[f v] fields IH]; intros frames p t Hf Hp; cbn [try_fold].
  { inversion Hf; subst. cbn. by rewrite orb_false_r, Z.add_0_r. }
  assert ((seen f =? 1) = (f =? 1)) as Hs1 by (unfold seen, u32_max; lia).
  assert ((seen f =? 2) = (f =? 2)) as Hs2 by (unfold seen, u32_max; lia).
  cbn [wire_bytes_of omap list_omap] in *. fold (wire_bytes_of 1 fields) in *. fold (wire_bytes_of 2 fields).
  destruct v as [v|b|]; [by apply IH| |by apply IH]. cbv beta iota. rewrite Hs1, Hs2.
  destruct (Z.eqb_spec f 1) as [->|]; [|destruct (f =? 2)].
  - inversion Hf as [|fr ? frs ? Hfr Hfrs]; subst. cbn [foldr] in *. pose proof (Hpos frs).
    rewrite (preflight_can_data_wire fr) by (done || lia). cbn [mbind result_bind]. cbn [Z.eqb Pos.eqb].
    rewrite (IH frs) by (done || lia). do 3 f_equal. lia.
  - rewrite (IH frames) by done. f_equal. f_equal. cbn. by rewrite orb_true_r.
  - by apply IH.
Qed.
Lemma preflight_received_wire r b c p t :
  received_wire r b → c + 1 <= usize_max → p + received_bytes r <= usize_max →
  preflight_received (c, p, t) b = Ok (c + 1, p + received_bytes r, t || is_some (wrf_timestamp r)).
Proof.
  intros (fields & Hb & Hf & Ht) Hc Hp. unfold preflight_received. unfold checked_add at 1.
  destruct (Z.leb_spec (c + 1) usize_max); [|lia]. cbn [ok_or mbind result_bind].
  rewrite (visit_fields_wire _ _ fields) by done.
  assert (foldr (λ f n, len (wfr_data f) + n) 0 (option_list (wrf_frame r)) = received_bytes r) as Hr.
  { unfold received_bytes. destruct (wrf_frame r); cbn; lia. }
  rewrite (received_fields_wire fields (option_list (wrf_frame r))) by (done || by rewrite Hr).
  rewrite Hr. do 3 f_equal. destruct (wrf_timestamp r); cbn.
  - apply bool_decide_eq_true. intros Hno. by apply Ht in Hno.
  - apply bool_decide_eq_false. intros Hno. by apply Hno, Ht.
Qed.
Lemma preflight_receive_wire l bs c p t :
  Forall2 received_wire l bs → c + len l <= usize_max → p + receive_bytes l <= usize_max →
  try_fold preflight_received (c, p, t) bs
  = Ok (c + len l, p + receive_bytes l, t || existsb (λ r, is_some (wrf_timestamp r)) l).
Proof.
  intros H. revert c p t. induction H as [|r b l bs Hr _ IH]; intros c p t Hc Hp; cbn [try_fold].
  { unfold len. cbn. by rewrite !Z.add_0_r, orb_false_r. }
  assert (len (r :: l) = 1 + len l) as Hlen by (unfold len; cbn [length]; lia). rewrite Hlen in *.
  cbn [receive_bytes foldr existsb] in *. fold (receive_bytes l) in *.
  pose proof (len_nonneg l). pose proof (receive_bytes_nonneg l). pose proof (received_bytes_nonneg r).
  rewrite (preflight_received_wire r) by (done || lia). rewrite IH by lia. rewrite orb_assoc.
  f_equal. f_equal. f_equal; lia.
Qed.

(** ** Valid answers pass the preflight *)
Lemma received_payload_sum frames profile n :
  received_payload_bytes frames profile = Ok n →
  n = receive_bytes (ReceivedCanFrame_to_proto <$> frames) ∧ n <= usize_max.
Proof.
  unfold received_payload_bytes. set (f := λ (total : Z) received, _).
  enough (∀ total, total <= usize_max → try_fold f total frames = Ok n →
    n = total + receive_bytes (ReceivedCanFrame_to_proto <$> frames) ∧ n <= usize_max) as H
    by (intros Hn; by apply (H 0)).
  induction frames as [|x frames IH]; intros total Ht H; cbn [try_fold] in H.
  { injection H as <-. cbn. lia. }
  destruct (f total x) as [t|] eqn:Hx; [|done]. unfold f in Hx.
  apply ok_or_Ok, checked_add_Some in Hx as [-> Hle]. apply IH in H as [-> ?]; [|done].
  split; [|done]. cbn [fmap list_fmap receive_bytes foldr].
  assert (received_bytes (ReceivedCanFrame_to_proto x) = len (CanFrame_data (rcv_frame x))) as ->.
  { unfold received_bytes. cbn. by destruct (rcv_frame x). }
  fold (receive_bytes (ReceivedCanFrame_to_proto <$> frames)). unfold receive_bytes. lia.
Qed.
Lemma received_stamped frames profile :
  validate_received_profile frames profile = Ok tt →
  existsb (λ r, is_some (wrf_timestamp r)) (ReceivedCanFrame_to_proto <$> frames) && negb (sp_timestamps profile)
  = false.
Proof.
  induction frames as [|x frames IH]; [done|]. cbn [validate_received_profile fmap list_fmap existsb].
  destruct (negb (received_allowed _ _)); [done|]. destruct (is_some (rcv_timestamp x) && _) eqn:Hs; [done|]. intros H%IH.
  cbn [ReceivedCanFrame_to_proto wrf_timestamp].
  destruct (rcv_timestamp x), (sp_timestamps profile); cbn in *; done || by rewrite ?andb_false_r.
Qed.
Lemma preflight_can_valid mf mb profile response fields frame :
  validate_response (ExpCanReceive mf mb profile) (CanReceiveResponse response) = Ok tt →
  wire_fields 0 fields frame → Forall2 can_receive_wire [response] (wire_bytes_of 57 fields) →
  preflight_can frame (Some (mf, mb, profile)) = Ok tt.
Proof.
  intros Hv Hb Hw. unfold preflight_can. rewrite (visit_bytes_wire 57 _ _ fields) by done.
  inversion Hw as [|? b ? l (inner & Hin & Hr) Hnil]; subst. inversion Hnil; subst. cbn [try_fold].
  cbn [validate_response] in Hv. apply bind_Ok in Hv as (got & Hgot%map_err_Ok & Hv).
  apply can_batches_exact in Hgot as (-> & _ & Hreq & Hlen); [|exact []|exact []].
  apply bind_Ok in Hv as (n & [-> Hn]%received_payload_sum & Hv). destruct (mb <? _) eqn:Hmb; [done|].
  rewrite (visit_bytes_wire 1 _ _ inner) by done.
  rewrite (preflight_receive_wire (ReceivedCanFrame_to_proto <$> got)); [|done| |lia].
  2: { rewrite len_map. unfold usize_max, u64_max. lia. }
  cbn [mbind result_bind]. rewrite len_map, !Z.add_0_l, orb_false_l, Hmb.
  destruct (Z.ltb_spec mf (len got)); [lia|]. cbn [orb].
  by rewrite (received_stamped _ _ Hv).
Qed.
Lemma preflight_valid limits expected_of env e answer frame :
  env_payload env = Some answer → expected_of (env_request_id env) = Some e →
  validate_response e answer = Ok tt → read_within limits e answer → envelope_wire env frame →
  preflight_inbound frame (lim_read limits) expected_of = Ok tt.
Proof.
  intros Hp He Hv Hw (fields & Hb & Hid & Hread & Hcan). unfold preflight_inbound. rewrite Hp in Hread, Hcan.
  rewrite (preflight_request_id_wire fields frame (env_request_id env)) by done.
  cbn [mbind result_bind]. rewrite He.
  assert (preflight_read frame (lim_read limits)
    (match e with ExpSerialRead max_bytes => Some max_bytes | _ => None end) = Ok tt) as ->.
  { unfold preflight_read. rewrite (visit_bytes_wire 25 _ _ fields) by done.
    destruct answer; try by (inversion Hread; subst).
    inversion Hread as [|? b ? l (inner & Hin & Hd) Hnil]; subst. inversion Hnil; subst. cbn [try_fold].
    rewrite (visit_bytes_wire 1 _ _ inner) by done. rewrite Hd. destruct (Hw _ eq_refl) as [Hlim Hmax].
    match goal with |- context [proto_bytes ?d] => destruct d as [|x data] end; [done|].
    cbn [proto_bytes try_fold]. destruct (Z.ltb_spec (lim_read limits) (len (x :: data))); [lia|].
    cbn [orb]. destruct e; try done. cbn [is_some_and]. specialize (Hmax _ eq_refl).
    destruct (Z.ltb_spec max_bytes (len (x :: data))); [lia|done]. }
  cbn [mbind result_bind]. destruct answer; try by (inversion Hcan; subst; unfold preflight_can;
    rewrite (visit_bytes_wire 57 _ _ fields) by done;
    match goal with H : [] = wire_bytes_of 57 fields |- _ => rewrite <- H end).
  destruct e; try done. by eapply preflight_can_valid.
Qed.
Lemma preflight_error env error negotiated_read expected_of frame :
  env_payload env = Some (PError error) → envelope_wire env frame →
  preflight_inbound frame negotiated_read expected_of = Ok tt.
Proof.
  intros Hp (fields & Hb & Hid & Hread & Hcan). rewrite Hp in Hread, Hcan.
  apply Forall2_nil_inv_l in Hread, Hcan.
  unfold preflight_inbound. rewrite (preflight_request_id_wire fields frame (env_request_id env)) by done.
  cbn [mbind result_bind]. unfold preflight_read. rewrite (visit_bytes_wire 25 _ _ fields) by done.
  rewrite Hread. cbn [try_fold mbind result_bind]. unfold preflight_can.
  rewrite (visit_bytes_wire 57 _ _ fields) by done. by rewrite Hcan.
Qed.

(** ** The reader's way from a frame to the caller *)
Definition reads (decode : Bytes → result string Envelope) (c c' : Client) : Prop :=
  ∃ input, reader_step decode c input = Some c'.
(** A frame within the limits that passes the preflight: its payload is the answer of the
    pending request it names, and the reader goes on or terminates as that says. *)
Lemma reader_settles decode c frame id payload e k :
  rs_terminal (cl_requests c) = None → id ≠ 0 →
  rs_pending (cl_requests c) !! id = Some (mkPendingRequest e k) → cl_reader c = RGot frame →
  len frame <= lim_frame (cl_limits c) → len frame <= MAX_FRAME_BYTES →
  preflight_inbound frame (lim_read (cl_limits c)) (expected_of (cl_requests c)) = Ok tt →
  decode frame = Ok (mkEnvelope id payload) →
  ∃ c', rtc (reads decode) c c' ∧ rs_terminal (cl_requests c') = None ∧
    cl_replies c' !! k = Some (settle_pending e payload) ∧
    cl_reader c' = match settle_terminal (settle_pending e payload) with
                   | Some error => RTerminate error | None => RTop end.
Proof.
  intros Ht Hid Hp Hrd Hlim Hmax Hpre Hdec.
  pose proof (remember_completed_frame (remove_pending (cl_requests c) id) id (cl_capacity c)) as (_ & _ & Hterm).
  eexists. split.
  - eapply rtc_l; [exists FrameEnd; unfold reader_step; rewrite Hrd, Ht; reflexivity|].
    eapply rtc_l.
    { exists FrameEnd. unfold reader_step. cbn [cl_reader with_reader cl_limits cl_requests is_some].
      rewrite (proj2 (Z.ltb_ge _ _) Hlim), (proj2 (Z.ltb_ge _ _) Hmax), Hpre. reflexivity. }
    eapply rtc_l.
    { exists FrameEnd. unfold reader_step. cbn [cl_reader with_reader cl_limits cl_requests orb].
       rewrite Ht, Hdec. reflexivity. }
    eapply rtc_l.
    { exists FrameEnd. unfold reader_step. cbn [cl_reader with_reader cl_limits cl_requests cl_capacity
        orb env_request_id env_payload].
      destruct (Z.eqb_spec id 0); [done|]. rewrite Ht. unfold correlate. rewrite Hp. reflexivity. }
    eapply rtc_once. exists FrameEnd. unfold reader_step. cbn [cl_reader with_reader pr_expected pr_reply orb].
    reflexivity.
  - cbn. rewrite lookup_insert_eq. split_and!; [|done|done]. etrans; [exact Hterm|exact Ht].
Qed.

Lemma settle_terminal_attached error e :
  ErrorName_as_str (err_name error) ∉
    ["runtime.protocol.unexpected_response"; "runtime.protocol.invalid_message"] →
  settle_terminal (Err (attach_expected error e)) = None.
Proof.
  intros Hno. unfold settle_terminal. rewrite bool_decide_eq_false_2; [done|].
  unfold attach_expected, attach_resource. by repeat case_match.
Qed.
(** The errors that end the connection of the client that receives them: those that are not
    well formed, and those that say that a message was invalid or a response unexpected. *)
Definition ends_connection (error : HalError) : Prop :=
  ¬ error_wf error ∨
  ErrorName_as_str (err_name error)
    ∈ ["runtime.protocol.unexpected_response"; "runtime.protocol.invalid_message"].
(** C6: an honest broker's responses are never taken for a broken one's: whatever the runtime
    answers, as long as it is well formed, the envelope with which the broker answers a request
    of the client bears the request's id, and a frame that encodes it, no longer than the
    negotiated frame limit, passes the client's preflight, is correlated with the request and
    settles it, after which the connection runs on: a response is handed to the waiting caller
    as it is, an error as the caller's error.  The exceptions are the errors that end the
    connection by their name or for not being well formed.  The broker's records of CAN
    sessions are to agree with what the client knows of them; they do when both saw the same
    descriptor. *)
Theorem client_accepts_broker lines limits profiles owner broker id p e :
  lim_max_read_bytes broker = lim_read limits → asks lines limits profiles p e → id ≠ 0 →
  yields lines (can_known profiles) (dispatch_operation owner id (Some p) broker) (λ env,
    env_request_id env = id ∧
    ∀ decode c frame k,
      cl_limits c = limits → rs_terminal (cl_requests c) = None →
      rs_pending (cl_requests c) !! id = Some (mkPendingRequest e k) → cl_reader c = RGot frame →
      len frame <= lim_frame limits → len frame <= MAX_FRAME_BYTES →
      envelope_wire env frame → decode frame = Ok env →
      (∃ error, env_payload env = Some (PError (HalError_to_proto error)) ∧ ends_connection error) ∨
      ∃ c', rtc (reads decode) c c' ∧ cl_reader c' = RTop ∧ rs_terminal (cl_requests c') = None ∧
        ((∃ error, env_payload env = Some (PError (HalError_to_proto error)) ∧
            cl_replies c' !! k = Some (Err (attach_expected error e))) ∨
         ∃ answer, env_payload env = Some answer ∧ cl_replies c' !! k = Some (Ok answer))) ∧
  ∀ resource mode config d response c lease closed,
    can_from_response resource mode config d response = Ok c →
    agrees (rc_profile c) (mkSessionRecord (desc_id d) (desc_capabilities d) lease
      (receive_wire_profile config (desc_capabilities d)) closed).
Proof.
  intros Hread Hask Hid. split; [|intros; by eapply can_open_agrees].
  eapply yields_mono; [|by eapply broker_answers_valid].
  intros [id' payload] [Hreq Hans]. cbn [env_request_id env_payload] in *. subst id'. split; [done|].
  intros decode c frame k Hl Ht Hp Hrd Hlim Hmax Hwire Hdec. rewrite <- Hl in Hlim.
  assert (expected_of (cl_requests c) id = Some e) as Hexp by (unfold expected_of; by rewrite Hp).
  destruct Hans as [[error ->]|(answer & -> & Hv & Hw)].
  - destruct (decide (error_from_proto (HalError_to_proto error) = Ok error)) as [Hwf|Hno].
    2: { left. exists error. split; [done|]. left. intros Hwf. by apply Hno, error_from_to. }
    destruct (decide (ErrorName_as_str (err_name error) ∈
      ["runtime.protocol.unexpected_response"; "runtime.protocol.invalid_message"])) as [Hin|Hno].
    { left. exists error. split; [done|]. by right. }
    right. destruct (reader_settles decode c frame id (Some (PError (HalError_to_proto error))) e k
      Ht Hid Hp Hrd Hlim Hmax) with (2 := Hdec) as (c' & Hs & Ht' & Hk & Hr); [
      by apply (preflight_error (mkEnvelope id (Some (PError (HalError_to_proto error)))) (HalError_to_proto error))|].
    unfold settle_pending in Hk, Hr. rewrite Hwf in Hk, Hr. cbn [mbind result_bind] in Hk, Hr.
    rewrite settle_terminal_attached in Hr by done.
    exists c'. split_and!; [done..|]. left. by exists error.
  - right. destruct (reader_settles decode c frame id (Some answer) e k Ht Hid Hp Hrd Hlim Hmax)
      with (2 := Hdec) as (c' & Hs & Ht' & Hk & Hr); [rewrite Hl;
      by apply (preflight_valid limits _ (mkEnvelope id (Some answer)) e answer)|].
    rewrite (settle_valid _ _ Hv) in Hk, Hr. exists c'. split_and!; [done..|]. right. by exists answer.
Qed.

(** ** A run

    A client has a serial read of two bytes pending, as request 2, and its reader has taken the
    frame with the answer: field 1 is the id, field 25 the response, whose field 1 is the data. *)
Definition ix_request : v1_SerialReadRequest :=
  mk_v1_SerialReadRequest (handle_session hx_handle) (handle_lease hx_handle) 2.
Definition ix_frame : Bytes := [8; 2; 202; 1; 4; 10; 2; 65; 66].
Definition ix_answer : Envelope := mkEnvelope 2 (Some (SerialReadResponse [65; 66])).
Definition ix_client : Client :=
  cx_default [OpRequest (SerialReadRequest ix_request) (ExpSerialRead 2); OpSubmit 0;
              OpReader FrameEnd; OpReader (FrameIn ix_frame)].
Lemma ix_key bytes field wire_type :
  0 < field → 0 <= wire_type < 8 → varint bytes (field * 8 + wire_type) → wire_key bytes field wire_type.
Proof. done. Qed.
Lemma ix_byte b : 0 <= b < 128 → varint [b] b.
Proof. intros Hb. by constructor; [| |lia]. Qed.
Lemma ix_wire : envelope_wire ix_answer ix_frame.
Proof.
  assert (wire_fields 0 [(1, WBytes [65; 66])] [10; 2; 65; 66]) as Hread.
  { apply (wire_cons 0 1 (WBytes [65; 66]) [10; 2; 65; 66] [] []); [|constructor].
    apply (wire_bytes_field 1 [10] [2] [65; 66]); [apply ix_key; [done|done|]|]; by apply ix_byte. }
  exists [(1, WVarint 2); (25, WBytes [10; 2; 65; 66])]. split_and!; [|done| |constructor].
  - apply (wire_cons 0 1 (WVarint 2) [8; 2] _ [202; 1; 4; 10; 2; 65; 66]).
    + apply (wire_varint_field 1 [8] [2]); [apply ix_key; [done|done|]|]; by apply ix_byte.
    + apply (wire_cons 0 25 (WBytes [10; 2; 65; 66]) [202; 1; 4; 10; 2; 65; 66] [] []); [|constructor].
      apply (wire_bytes_field 25 [202; 1] [4] [10; 2; 65; 66]); [apply ix_key; [done|done|]|by apply ix_byte].
      apply (varint_more 0 202 [1] 1); [done|done|]. by constructor.
  - constructor; [|constructor]. by exists [(1, WBytes [65; 66])].
Qed.
Lemma client_accepts_broker_witness :
  ∃ c', rtc (reads (λ _, Ok ix_answer)) ix_client c' ∧ cl_reader c' = RTop ∧
    cl_replies c' !! 0%nat = Some (Ok (SerialReadResponse [65; 66])).
Proof.
  set (limits := requested_limits (ConnectionOptions_new [])).
  destruct (client_accepts_broker (λ _, 1) limits
    (λ s, mkCanSessionProfile Classic true false false false (mkResourceId "can:0") s)
    (mkOwnerId "owner") (mkNegotiatedLimits 3 (lim_frame limits) (lim_read limits) (lim_write limits)) 2
    (SerialReadRequest ix_request) (ExpSerialRead 2) eq_refl (asks_serial_read _ _ _ ix_request) ltac:(done))
    as [H _].
  destruct (H (Ok [65; 66])) as [_ Hrun]; [by intros data [= <-]|].
  destruct (Hrun (λ _, Ok ix_answer) ix_client ix_frame 0%nat) as [[error [He _]]|Hc];
    [vm_compute; reflexivity..|vm_compute; congruence|vm_compute; congruence|exact ix_wire|reflexivity| |].
  - discriminate He.
  - destruct Hc as (c' & Hs & Hr & _ & [[error [He _]]|(answer & Ha & Hk)]); [discriminate He|].
    exists c'. injection Ha as <-. exact (conj Hs (conj Hr Hk)).
Defined.
