(* ===== verification/Native.v ===== *)
(** * What the native adapters share

    The adapters (crates under adapters/) call the operating system and vendor libraries.
    Their calls are a state-and-error monad over the state [S] of the world they act on;
    which calls there are, and what they answer, is a class of each adapter.  This file also
    holds the parts of the Rust standard library that several adapters use: [io::Error],
    [str::trim] and the hexadecimal formats. *)

From S2P Require Import Prelude Core.
From stdpp Require Import pretty.
From Stdlib Require Import Ascii.
Open Scope Z_scope.

(** ** Calls that change the world and may fail *)
Definition native (S E A : Type) : Type := S → S * result E A.
Global Instance native_ret {S E} : MRet (native S E) := λ A x s, (s, Ok x).
Global Instance native_bind {S E} : MBind (native S E) := λ A B f m s,
  match m s with (s, Ok x) => f x s | (s, Err e) => (s, Err e) end.

(** A pure result, a failure, [Result::map_err], and a [match] on the outcome. *)
Definition native_lift {S E A} (r : result E A) : native S E A := λ s, (s, r).
Definition throw {S E A} (e : E) : native S E A := λ s, (s, Err e).
Definition native_map_err {S E F A} (f : E → F) (m : native S E A) : native S F A := λ s,
  let '(s, r) := m s in (s, map_err f r).
Definition attempt {S E F A} (m : native S E A) : native S F (result E A) := λ s,
  let '(s, r) := m s in (s, Ok r).
Definition native_when {S E} (b : bool) (m : native S E unit) : native S E unit :=
  if b then m else mret ().
(** [if b { return Err(e) }], and the clean-up that a failure of [m] leaves to its caller or to
    a [Drop]. *)
Definition refuse_when {S E} (b : bool) (e : E) : native S E unit := native_when b (throw e).
Definition or_undo {S E A} (undo : S → S) (m : native S E A) : native S E A := λ s,
  match m s with
  | (s, Err e) => (undo s, Err e)
  | r => r
  end.

Section run.
Context {S E A B : Type}.
Implicit Types (m : native S E A) (f : A → native S E B).

Lemma native_bind_Ok m f s s' y :
  (m ≫= f) s = (s', Ok y) ↔ ∃ s1 x, m s = (s1, Ok x) ∧ f x s1 = (s', Ok y).
Proof. unfold mbind, native_bind. destruct (m s) as [? []]; naive_solver. Qed.

Lemma native_bind_Err m f s s' e :
  (m ≫= f) s = (s', Err e) ↔
  m s = (s', Err e) ∨ ∃ s1 x, m s = (s1, Ok x) ∧ f x s1 = (s', Err e).
Proof. unfold mbind, native_bind. destruct (m s) as [? []]; naive_solver. Qed.

Lemma native_map_err_Ok {F} (g : E → F) m s s' x :
  native_map_err g m s = (s', Ok x) ↔ m s = (s', Ok x).
Proof. unfold native_map_err. destruct (m s) as [? []]; naive_solver. Qed.

Lemma native_map_err_Err {F} (g : E → F) m s s' e :
  native_map_err g m s = (s', Err e) ↔ ∃ e', m s = (s', Err e') ∧ e = g e'.
Proof. unfold native_map_err. destruct (m s) as [? []]; naive_solver. Qed.

(** A call that never touches the world. *)
Definition reads_only m : Prop := ∀ s, (m s).1 = s.

Lemma reads_only_map_err {F} (g : E → F) m :
  reads_only m → ∀ s, (native_map_err g m s).1 = s.
Proof. intros H s. unfold native_map_err. specialize (H s). by destruct (m s). Qed.
End run.

(** A resolved descriptor is one of those enumerated. *)
Lemma resolve_resource_elem descriptors selector capability operation d :
  resolve_resource descriptors selector capability operation = Ok d →
  d ∈ descriptors ∧ descriptor_matches selector capability d = true.
Proof.
  unfold resolve_resource.
  destruct (List.filter _ descriptors) as [|x [|y l]] eqn:E;
    [by destruct (HalError_new _ _ _ _ _)|intros [= ->]|by destruct (HalError_new _ _ _ _ _)].
  assert (In d (List.filter (descriptor_matches selector capability) descriptors)) as Hin
    by (rewrite E; by left).
  apply filter_In in Hin as [Hin Hm]. split; [by apply list_elem_of_In|done].
Qed.


(** ** std::io::Error: the kinds the adapters tell apart, the code of the system, the text *)
Inductive ErrorKind :=
  | KindNotFound | KindPermissionDenied | KindWouldBlock | KindTimedOut | KindInterrupted
  | KindInvalidInput | KindInvalidData | KindBrokenPipe | KindConnectionAborted
  | KindConnectionReset | KindNotConnected | KindUnexpectedEof | KindAddrInUse
  | KindAlreadyExists
  | KindOther (debug : string).
Global Instance ErrorKind_eq_dec : EqDecision ErrorKind.
Proof. solve_decision. Defined.
Record OsError := mkOsError {
  kind : ErrorKind;
  raw_os_error : option Z;
  os_message : string;
}.

(** The [Debug] name of a kind. *)
Definition ErrorKind_debug (k : ErrorKind) : string :=
  match k with
  | KindNotFound => "NotFound" | KindPermissionDenied => "PermissionDenied"
  | KindWouldBlock => "WouldBlock" | KindTimedOut => "TimedOut" | KindInterrupted => "Interrupted"
  | KindInvalidInput => "InvalidInput" | KindInvalidData => "InvalidData"
  | KindBrokenPipe => "BrokenPipe" | KindConnectionAborted => "ConnectionAborted"
  | KindConnectionReset => "ConnectionReset" | KindNotConnected => "NotConnected"
  | KindUnexpectedEof => "UnexpectedEof" | KindAddrInUse => "AddrInUse"
  | KindAlreadyExists => "AlreadyExists" | KindOther debug => debug
  end.

(** [i32::to_string]. *)
Definition i32_to_string (x : Z) : string := pretty x.

(** [.with_platform_code(..).expect(..)] and [.with_vendor_code(..).expect(..)]. *)
Definition expect_error (r : HalResult HalError) : HalError :=
  match r with Ok e => e | Err panic => panic end.

(** ** Hexadecimal formats: [{:02X}], [{:04X}], [{:08X}], [{:04x}] *)
Definition hex_digit (upper : bool) (d : Z) : ascii :=
  ascii_of_nat (Z.to_nat ((if d <? 10 then 48 else if upper then 55 else 87) + d)).
Fixpoint hex_loop (upper : bool) (fuel : nat) (x : Z) (acc : string) : string :=
  match fuel with
  | O => acc
  | S fuel =>
      let acc := String (hex_digit upper (x mod 16)) acc in
      if x / 16 =? 0 then acc else hex_loop upper fuel (x / 16) acc
  end.
Fixpoint pad_zero (n : nat) (s : string) : string :=
  match n with O => s | S n => String "0" (pad_zero n s) end.
(** Sixteen digits hold every 64-bit value. *)
Definition hex (upper : bool) (width : nat) (x : Z) : string :=
  let digits := hex_loop upper 16 x EmptyString in
  pad_zero (width - String.length digits) digits.

(** ** [str::trim]: the White_Space characters of Unicode, in UTF-8 *)
Definition bytes_string (l : list nat) : string :=
  foldr (λ b s, String (ascii_of_nat b) s) EmptyString l.
Definition white_space : list string :=
  map bytes_string
    ([[9]; [10]; [11]; [12]; [13]; [32];
      [194; 133]; [194; 160]; [225; 154; 128]; [226; 128; 168]; [226; 128; 169];
      [226; 128; 175]; [226; 129; 159]; [227; 128; 128]]
     ++ map (λ b, [226; 128; b]) (seq 128 11))%nat%list.
Fixpoint strip_prefix (p s : string) : option string :=
  match p, s with
  | EmptyString, _ => Some s
  | String c p, String d s => if decide (c = d) then strip_prefix p s else None
  | String _ _, EmptyString => None
  end.
Definition strip_any (ps : list string) (s : string) : option string :=
  foldr (λ p found, match strip_prefix p s with Some rest => Some rest | None => found end)
    None ps.
Fixpoint strip_loop (ps : list string) (fuel : nat) (s : string) : string :=
  match fuel with
  | O => s
  | S fuel => match strip_any ps s with Some rest => strip_loop ps fuel rest | None => s end
  end.
Definition str_rev (s : string) : string :=
  String.string_of_list_ascii (rev (String.list_ascii_of_string s)).
Definition trim_start (s : string) : string := strip_loop white_space (String.length s) s.
Definition trim_end (s : string) : string :=
  str_rev (strip_loop (map str_rev white_space) (String.length s) (str_rev s)).
Definition str_trim (s : string) : string := trim_end (trim_start s).

Example trim_ascii : str_trim "  a b	 " = "a b".
Proof. reflexivity. Qed.
Example hex_upper : hex true 4 0x51 = "0051".
Proof. reflexivity. Qed.

(** ** [String::from_utf8] and [String::from_utf8_lossy]

    The decoder of the standard library: [utf8_step] looks at the first character of a
    nonempty byte sequence and says whether it is valid and how many bytes it spans; of an
    invalid one, how many bytes form the part that is replaced. *)
Definition in_range (lo hi : Z) (b : option Z) : bool :=
  is_some_and (λ x, (lo <=? x) && (x <=? hi)) b.
Definition is_continuation : option Z → bool := in_range 0x80 0xBF.
Definition utf8_step (first : Z) (rest : list Z) : bool * nat :=
  let second := rest !! 0%nat in let third := rest !! 1%nat in let fourth := rest !! 2%nat in
  if first <? 0x80 then (true, 1%nat)
  else if in_range 0xC2 0xDF (Some first) then
    if is_continuation second then (true, 2%nat) else (false, 1%nat)
  else if in_range 0xE0 0xEF (Some first) then
    let ok :=
      if first =? 0xE0 then in_range 0xA0 0xBF second
      else if first =? 0xED then in_range 0x80 0x9F second else is_continuation second in
    if negb ok then (false, 1%nat)
    else if negb (is_continuation third) then (false, 2%nat) else (true, 3%nat)
  else if in_range 0xF0 0xF4 (Some first) then
    let ok :=
      if first =? 0xF0 then in_range 0x90 0xBF second
      else if first =? 0xF4 then in_range 0x80 0x8F second else is_continuation second in
    if negb ok then (false, 1%nat)
    else if negb (is_continuation third) then (false, 2%nat)
    else if negb (is_continuation fourth) then (false, 3%nat) else (true, 4%nat)
  else (false, 1%nat).

Definition ascii_of_byte (b : Z) : ascii := ascii_of_nat (Z.to_nat b).
Definition string_of_bytes (l : list Z) : string :=
  String.string_of_list_ascii (map ascii_of_byte l).

(** [Utf8Error]'s text. *)
Definition utf8_error (index first : Z) (rest : list Z) (n : nat) : string :=
  if in_range 0xC2 0xF4 (Some first) && is_none (rest !! (n - 1)%nat) then
    "incomplete utf-8 byte sequence from index " +:+ to_string index
  else
    "invalid utf-8 sequence of " +:+ to_string (Z.of_nat n) +:+ " bytes from index "
    +:+ to_string index.

(** Each round takes at least one byte, so the length of the sequence is enough fuel. *)
Fixpoint utf8_check (fuel : nat) (index : Z) (l : list Z) : option string :=
  match fuel, l with
  | _, [] => None
  | O, _ => None
  | S fuel, first :: rest =>
      let '(ok, n) := utf8_step first rest in
      if ok then utf8_check fuel (index + Z.of_nat n) (drop n l)
      else Some (utf8_error index first rest n)
  end.
Definition from_utf8 (l : list Z) : result string string :=
  match utf8_check (length l) 0 l with
  | None => Ok (string_of_bytes l)
  | Some e => Err e
  end.

(** U+FFFD in UTF-8. *)
Definition replacement : list Z := [0xEF; 0xBF; 0xBD].
Fixpoint lossy_loop (fuel : nat) (l : list Z) : list Z :=
  match fuel, l with
  | _, [] => []
  | O, _ => []
  | S fuel, first :: rest =>
      let '(ok, n) := utf8_step first rest in
      (if ok then take n l else replacement) ++ lossy_loop fuel (drop n l)
  end.
Definition from_utf8_lossy (l : list Z) : string :=
  string_of_bytes (lossy_loop (length l) l).

Lemma utf8_step_positive first rest : (1 <= (utf8_step first rest).2)%nat.
Proof. unfold utf8_step. repeat case_match; simpl; lia. Qed.

(** Valid text is its own lossy decoding. *)
Lemma from_utf8_lossy_valid l s : from_utf8 l = Ok s → from_utf8_lossy l = s.
Proof.
  unfold from_utf8, from_utf8_lossy. destruct (utf8_check _ _ _) eqn:E; [done|].
  intros [= <-]. f_equal.
  enough (∀ fuel index l, (length l <= fuel)%nat → utf8_check fuel index l = None →
    lossy_loop fuel l = l) as Hloop by by eapply Hloop.
  clear. induction fuel as [|fuel IH]; intros index [|first rest] Hl; try done; simpl in Hl; [lia|].
  simpl. pose proof (utf8_step_positive first rest) as Hn.
  destruct (utf8_step first rest) as [[] n]; [|done]. simpl in *. intros Hc.
  rewrite (IH (index + Z.of_nat n)); [by rewrite (take_drop n (first :: rest))| |done].
  rewrite length_drop. simpl. lia.
Qed.

(** ** Error numbers of Linux, as the crate libc names them *)
Module Errno.
Definition EPERM : Z := 1.
Definition ENOENT : Z := 2.
Definition ENXIO : Z := 6.
Definition EACCES : Z := 13.
Definition EBUSY : Z := 16.
Definition ENODEV : Z := 19.
Definition EINVAL : Z := 22.
Definition EPIPE : Z := 32.
Definition ERANGE : Z := 34.
Definition EMSGSIZE : Z := 90.
Definition EOPNOTSUPP : Z := 95.
Definition ENETDOWN : Z := 100.
Definition ENETUNREACH : Z := 101.
Definition ECONNABORTED : Z := 103.
Definition ECONNRESET : Z := 104.
Definition ENOBUFS : Z := 105.
Definition ENOTCONN : Z := 107.
End Errno.
(** A [match] arm of several numbers. *)
Definition is_one_of (x : Z) (l : list Z) : bool := existsb (Z.eqb x) l.
