(* ===== verification/PcanTiming.v ===== *)
(** * adapters/pcan: bit timings

    Models the timing part of adapters/pcan/src/channel.rs: the search for a register
    setting that represents a requested bit timing exactly, the way back from a setting to
    the public timing, and the text in which the driver reports the active setting.  The
    clock of the controllers and the two default sample points are constants of the crate
    can-hal-pcan, hence parameters. *)

From S2P Require Import Prelude Core CanTypes Native.
From Stdlib Require Import Ascii.
Open Scope Z_scope.

(** ** DriverError *)
Inductive DriverError :=
  | DriverUnavailable (message : string)
  | DriverStatus (status : Z)
  | DriverUnsupported (message : string)
  | DriverUnsupportedFrame (message : string)
  | DriverConfigurationMismatch (message : string)
  | DriverInvalidFrame (message : string)
  | DriverClosed
  | DriverPlatform (message : string).

Definition DriverError_fmt (e : DriverError) : string :=
  match e with
  | DriverUnavailable message | DriverUnsupported message | DriverUnsupportedFrame message
  | DriverConfigurationMismatch message | DriverInvalidFrame message
  | DriverPlatform message => message
  | DriverClosed => "PCAN channel is closed"
  | DriverStatus status => "PCAN status 0x" +:+ hex true 8 status
  end.

(** ** The settings of one phase, and of the two phases of CAN FD *)
Record PcanPhaseTiming := mkPcanPhaseTiming { brp : Z; tseg1 : Z; tseg2 : Z; phase_sjw : Z }.
Record PcanFdTiming := mkPcanFdTiming {
  fd_nominal : PcanPhaseTiming; fd_data : PcanPhaseTiming }.
Inductive TimingPhase := PhaseNominal | PhaseData.

(** [u32] arithmetic of a release build. *)
Definition wrap_u32 (x : Z) : Z := x mod 2 ^ 32.

Section timing.
Context (PCAN_CLOCK_HZ NOMINAL_DEFAULT DATA_DEFAULT : Z).

Definition phase_limits (phase : TimingPhase) : Z * Z * Z :=
  match phase with PhaseNominal => (256, 128, 20) | PhaseData => (32, 16, 10) end.

(** The sample point that is asked for, with the default of the phase. *)
Definition phase_sample_point (timing : CanBitTiming) (phase : TimingPhase) : Z :=
  default (match phase with PhaseNominal => NOMINAL_DEFAULT | PhaseData => DATA_DEFAULT end)
    (sample_point_permill timing).

(** One round of the inner loop: the candidate of [total_tq] and [tseg2], [None] where the
    code continues with the next one. *)
Definition phase_candidate (timing : CanBitTiming) (max_tseg1 sample_point brp total_tq tseg2 : Z)
    : option PcanPhaseTiming :=
  let tseg1 := total_tq - 1 - tseg2 in
  if (tseg1 =? 0) || (max_tseg1 <? tseg1) then None
  else if negb ((1 + tseg1) * 1000 =? sample_point * total_tq) then None
  else
    let sjw := default (Z.min (Z.min tseg1 tseg2) 4) (sjw timing) in
    if (sjw =? 0) || (tseg1 <? sjw) || (tseg2 <? sjw) then None
    else Some (mkPcanPhaseTiming brp tseg1 tseg2 sjw).

(** [best] keeps the first of the nearest candidates. *)
Definition keep_best {A} (best : option (Z * A)) (distance : Z) (candidate : option A)
    : option (Z * A) :=
  match candidate with
  | None => best
  | Some c => if is_none_or (λ b, distance <? b.1) best then Some (distance, c) else best
  end.

(** [lo..=hi]. *)
Definition range_inclusive (lo hi : Z) : list Z := seqZ lo (hi - lo + 1).

Definition exact_phase (timing : CanBitTiming) (phase : TimingPhase)
    : result DriverError PcanPhaseTiming :=
  let sample_point := phase_sample_point timing phase in
  if negb ((500 <=? sample_point) && (sample_point <=? 950)) then
    Err (DriverUnsupported ("PCAN sample point " +:+ to_string sample_point
                            +:+ " permill is outside 500..=950"))
  else
    let rate := bitrate timing in
    if (rate =? 0) || negb (PCAN_CLOCK_HZ mod rate =? 0) then
      Err (DriverUnsupported ("PCAN cannot represent bitrate " +:+ to_string rate
                              +:+ " exactly at 80 MHz"))
    else
      let divisor := PCAN_CLOCK_HZ / rate in
      let '(max_tseg1, max_tseg2, preferred_tq) := phase_limits phase in
      let best :=
        foldl (λ best total_tq,
          if negb (divisor mod total_tq =? 0) then best
          else
            let brp := divisor / total_tq in
            if (brp =? 0) || (1024 <? brp) then best
            else
              foldl (λ best tseg2,
                keep_best best (Z.abs (total_tq - preferred_tq))
                  (phase_candidate timing max_tseg1 sample_point brp total_tq tseg2))
                best (range_inclusive 2 (Z.min max_tseg2 (total_tq - 2))))
          None (range_inclusive 3 (Z.min (1 + max_tseg1 + max_tseg2) divisor)) in
      match best with
      | Some (_, timing) => Ok timing
      | None =>
          Err (DriverUnsupported
                 ("PCAN cannot represent bitrate " +:+ to_string rate +:+ ", sample point "
                  +:+ to_string sample_point +:+ " permill, and SJW "
                  +:+ match sjw timing with
                      | Some v => "Some(" +:+ to_string v +:+ ")" | None => "None" end
                  +:+ " exactly"))
      end.

Definition timing_to_public (timing : PcanPhaseTiming) : result DriverError CanBitTiming :=
  let total_tq := wrap_u32 (1 + tseg1 timing + tseg2 timing) in
  match checked_mul u32_max (brp timing) total_tq with
  | None => Err (DriverUnsupported "PCAN FD timing divisor overflowed")
  | Some divisor =>
      if (divisor =? 0) || negb (PCAN_CLOCK_HZ mod divisor =? 0) then
        Err (DriverUnsupported "PCAN FD timing does not represent an exact bitrate")
      else
        let sample_numerator := wrap_u32 (wrap_u32 (1 + tseg1 timing) * 1000) in
        let sample_point :=
          if sample_numerator mod total_tq =? 0
          then try_from u16_max (sample_numerator / total_tq) else None in
        map_err (λ e, DriverUnsupported (HalError_display e))
          (CanBitTiming_new (PCAN_CLOCK_HZ / divisor) sample_point
             (try_from u16_max (phase_sjw timing)))
  end.

(** ** The text of the active timing: [key=value] pairs separated by commas *)
Definition parse_u32 (s : string) : option Z :=
  parse_u64 s ≫= λ v, if v <=? u32_max then Some v else None.

(** A [BTreeMap] of the pairs: a later pair replaces an earlier one of the same key. *)
Definition timing_fields (value : string) : gmap string string :=
  foldl (λ fields item,
    match split_once "="%char (str_trim item) with
    | Some (key, value) => <[str_trim key := str_trim value]> fields
    | None => fields
    end) ∅ (str_split ","%char value).

Definition timing_field (fields : gmap string string) (name : string)
    : result DriverError Z :=
  ok_or (DriverUnsupported ("active PCAN FD timing is missing or invalid: " +:+ name))
    (fields !! name ≫= parse_u32).

Definition parse_fd_timing (value : string) : result DriverError PcanFdTiming :=
  let fields := timing_fields value in
  let clock_ok :=
    bool_decide (fields !! "f_clock_mhz" = Some "80")
    || bool_decide (fields !! "f_clock" = Some "80000000") in
  if negb clock_ok then
    Err (DriverUnsupported "active PCAN FD timing does not use the supported 80 MHz clock")
  else
    timing_field fields "nom_brp" ≫= λ nom_brp,
    timing_field fields "nom_tseg1" ≫= λ nom_tseg1,
    timing_field fields "nom_tseg2" ≫= λ nom_tseg2,
    timing_field fields "nom_sjw" ≫= λ nom_sjw,
    timing_field fields "data_brp" ≫= λ data_brp,
    timing_field fields "data_tseg1" ≫= λ data_tseg1,
    timing_field fields "data_tseg2" ≫= λ data_tseg2,
    timing_field fields "data_sjw" ≫= λ data_sjw,
    Ok (mkPcanFdTiming (mkPcanPhaseTiming nom_brp nom_tseg1 nom_tseg2 nom_sjw)
          (mkPcanPhaseTiming data_brp data_tseg1 data_tseg2 data_sjw)).

(** ** The search is exact, complete and optimal *)

(** What it means that a setting represents a timing within the limits of a phase. *)
Definition represents (timing : CanBitTiming) (phase : TimingPhase) (p : PcanPhaseTiming) : Prop :=
  let '(max_tseg1, max_tseg2, _) := phase_limits phase in
  let total_tq := 1 + tseg1 p + tseg2 p in
  1 <= brp p <= 1024 ∧ 1 <= tseg1 p <= max_tseg1 ∧ 2 <= tseg2 p <= max_tseg2 ∧
  PCAN_CLOCK_HZ = bitrate timing * (brp p * total_tq) ∧
  (1 + tseg1 p) * 1000 = phase_sample_point timing phase * total_tq ∧
  phase_sjw p = default (Z.min (Z.min (tseg1 p) (tseg2 p)) 4) (sjw timing) ∧
  1 <= phase_sjw p <= Z.min (tseg1 p) (tseg2 p).
Definition phase_distance (phase : TimingPhase) (p : PcanPhaseTiming) : Z :=
  Z.abs (1 + tseg1 p + tseg2 p - (phase_limits phase).2).
End timing.

(** [r] is the nearest of the elements of [P], [None] when there is none. *)
Definition nearest {A} (r : option (Z * A)) (P : Z → A → Prop) : Prop :=
  match r with
  | None => ∀ d a, ¬ P d a
  | Some (d, a) => P d a ∧ ∀ d' a', P d' a' → d <= d'
  end.

Section nearest.
Context {A : Type}.
Implicit Types (r : option (Z * A)) (P Q : Z → A → Prop).

Lemma nearest_ext r P Q : (∀ d a, P d a ↔ Q d a) → nearest r P → nearest r Q.
Proof. intros E. destruct r as [[d a]|]; simpl; setoid_rewrite E; done. Qed.

Lemma keep_best_nearest r P distance candidate :
  nearest r P →
  nearest (keep_best r distance candidate)
    (λ d a, P d a ∨ (d = distance ∧ candidate = Some a)).
Proof.
  destruct candidate as [c|]; simpl.
  2:{ apply nearest_ext. naive_solver. }
  destruct r as [[d a]|]; simpl.
  - intros [Hd Hmin]. destruct (distance <? d) eqn:?; simpl; bool_simp;
      (split; [auto|]; intros d' a' [?%Hmin|[-> _]]; lia).
  - intros H. split; [naive_solver|]. intros d' a' [[]%H|[-> _]]. lia.
Qed.

Lemma nearest_foldl {X} (g : option (Z * A) → X → option (Z * A)) (T : X → Z → A → Prop) l r P :
  (∀ x r P, x ∈ l → nearest r P → nearest (g r x) (λ d a, P d a ∨ T x d a)) →
  nearest r P → nearest (foldl g r l) (λ d a, P d a ∨ ∃ x, x ∈ l ∧ T x d a).
Proof.
  intros Hg. revert r P. induction l as [|x l IH]; intros r P Hr; simpl.
  - eapply nearest_ext, Hr. intros d a. set_solver.
  - eapply nearest_ext, IH; [|intros; apply Hg; [set_solver|done]|apply Hg; [set_solver|done]].
    intros d a. set_solver.
Qed.
End nearest.

Lemma elem_of_range lo hi x : x ∈ range_inclusive lo hi ↔ lo <= x <= hi.
Proof. unfold range_inclusive. rewrite elem_of_seqZ. lia. Qed.

Section exact.
Context (clock ndef ddef : Z).
Implicit Types (timing : CanBitTiming) (phase : TimingPhase).

Lemma phase_candidate_Some timing max1 sp b total t2 p :
  phase_candidate timing max1 sp b total t2 = Some p ↔
  p = mkPcanPhaseTiming b (total - 1 - t2) t2
        (default (Z.min (Z.min (total - 1 - t2) t2) 4) (sjw timing)) ∧
  tseg1 p ≠ 0 ∧ tseg1 p <= max1 ∧ (1 + tseg1 p) * 1000 = sp * total ∧
  phase_sjw p ≠ 0 ∧ phase_sjw p <= tseg1 p ∧ phase_sjw p <= t2.
Proof.
  unfold phase_candidate. split.
  - intros H. repeat (break_match_in H; [done|]). simplify_eq/=. bool_simp.
    repeat match goal with H : _ ∧ _ |- _ => destruct H end. bool_simp.
    split_and!; try done; lia.
  - intros (-> & H1 & H2 & H3 & H4 & H5 & H6). simpl in *.
    repeat (case_match; [exfalso; bool_simp; naive_solver lia|]). done.
Qed.

(** What the two loops look for. *)
Definition found timing (max1 max2 pref sp divisor : Z) (d : Z) (p : PcanPhaseTiming) : Prop :=
  ∃ total, total ∈ range_inclusive 3 (Z.min (1 + max1 + max2) divisor) ∧
    divisor mod total = 0 ∧ 1 <= divisor / total <= 1024 ∧
    ∃ t2, t2 ∈ range_inclusive 2 (Z.min max2 (total - 2)) ∧
      d = Z.abs (total - pref) ∧
      phase_candidate timing max1 sp (divisor / total) total t2 = Some p.

Lemma search_nearest timing max1 max2 pref sp divisor :
  0 < divisor →
  nearest
    (foldl (λ best total_tq,
       if negb (divisor mod total_tq =? 0) then best
       else
         let brp := divisor / total_tq in
         if (brp =? 0) || (1024 <? brp) then best
         else
           foldl (λ best tseg2,
             keep_best best (Z.abs (total_tq - pref))
               (phase_candidate timing max1 sp brp total_tq tseg2))
             best (range_inclusive 2 (Z.min max2 (total_tq - 2))))
       None (range_inclusive 3 (Z.min (1 + max1 + max2) divisor)))
    (found timing max1 max2 pref sp divisor).
Proof.
  intros Hdiv.
  eapply nearest_ext; [|eapply (nearest_foldl _ (λ total d p,
    divisor mod total = 0 ∧ 1 <= divisor / total <= 1024 ∧
    ∃ t2, t2 ∈ range_inclusive 2 (Z.min max2 (total - 2)) ∧ d = Z.abs (total - pref) ∧
      phase_candidate timing max1 sp (divisor / total) total t2 = Some p) _ None
    (λ _ _, False))].
  - intros d p. unfold found. naive_solver.
  - intros total r P Htot%elem_of_range Hr. simpl.
    assert (0 <= divisor / total) by (apply Z.div_pos; lia).
    destruct (divisor mod total =? 0) eqn:E; simpl; bool_simp.
    2:{ eapply nearest_ext, Hr. naive_solver. }
    destruct ((divisor / total =? 0) || (1024 <? divisor / total)) eqn:E'; bool_simp.
    { eapply nearest_ext, Hr. intros d p. split; [by left|]. intros [|(_ & ? & _)]; [done|].
      destruct E'; bool_simp; lia. }
    eapply nearest_ext; [|apply (nearest_foldl _ (λ t2 d p, d = Z.abs (total - pref) ∧
      phase_candidate timing max1 sp (divisor / total) total t2 = Some p)); [|exact Hr]].
    + intros d p. split; [intros [|(t2 & ? & ? & ?)]; [by left|right]
        |intros [|(_ & _ & t2 & ? & ? & ?)]; [by left|right]]; [split_and!; eauto; lia|eauto].
    + intros t2 r' P' _ Hr'. by apply keep_best_nearest.
  - simpl. naive_solver.
Qed.

(** The settings that the loops reach are those that represent the timing. *)
Lemma found_iff timing phase d p :
  0 < clock → 0 < bitrate timing → clock mod bitrate timing = 0 →
  (∀ w, sjw timing = Some w → 0 <= w) →
  let '(max1, max2, pref) := phase_limits phase in
  found timing max1 max2 pref (phase_sample_point ndef ddef timing phase)
    (clock / bitrate timing) d p ↔
  d = phase_distance phase p ∧ represents clock ndef ddef timing phase p.
Proof.
  intros Hc Hb Hmod Hw. apply Z.div_exact in Hmod; [|lia].
  set (q := clock / bitrate timing) in *. assert (Hq0 : 0 < q) by nia.
  unfold phase_distance, represents.
  destruct (phase_limits phase) as [[max1 max2] pref]. simpl.
  unfold found. setoid_rewrite elem_of_range. setoid_rewrite phase_candidate_Some.
  set (sp := phase_sample_point _ _ _ _). clearbody sp. split.
  - intros (total & Htot & Hm & Hbrp & t2 & Ht2 & -> & -> & H). simpl in *.
    replace (1 + (total - 1 - t2) + t2) with total by lia.
    apply Z.div_exact in Hm; [|lia].
    assert (0 <= default (Z.min (Z.min (total - 1 - t2) t2) 4) (sjw timing)).
    { destruct (sjw timing) eqn:E; simpl; [by apply Hw|lia]. }
    destruct H as (? & ? & ? & ? & ? & ?). split_and!; lia.
  - destruct p as [b t1 t2 w]. simpl. intros (-> & Hbrp & Ht1 & Ht2 & Hclk & Hsp & Hsjw & Hwb).
    assert (Hq : q = b * (1 + t1 + t2)).
    { apply (Z.mul_reg_l _ _ (bitrate timing)); [lia|]. by rewrite <- Hmod, <- Hclk. }
    exists (1 + t1 + t2). rewrite Hq, Z.div_mul, Z.mod_mul by lia.
    split_and!; try lia; try nia. exists t2.
    replace (1 + t1 + t2 - 1 - t2) with t1 by lia. simpl.
    split_and!; try lia. by rewrite Hsjw.
Qed.

Section theorems.
Context (timing : CanBitTiming) (phase : TimingPhase).
Hypothesis clock_pos : 0 < clock.
Hypothesis rate_nonneg : 0 <= bitrate timing.
Hypothesis sjw_nonneg : ∀ w, sjw timing = Some w → 0 <= w.

(** A setting that represents a timing has the bit rate of that timing. *)
Lemma represents_divides p :
  represents clock ndef ddef timing phase p →
  0 < bitrate timing ∧ clock mod bitrate timing = 0.
Proof.
  unfold represents. destruct (phase_limits phase) as [[max1 max2] pref].
  intros (Hb & H1 & H2 & Hc & _).
  assert (bitrate timing ≠ 0) by (intros E; rewrite E in Hc; lia).
  split; [lia|]. rewrite Hc at 1. rewrite Z.mul_comm. apply Z.mod_mul. lia.
Qed.

Lemma exact_phase_nearest :
  500 <= phase_sample_point ndef ddef timing phase <= 950 →
  match exact_phase clock ndef ddef timing phase with
  | Ok p => represents clock ndef ddef timing phase p ∧
      ∀ q, represents clock ndef ddef timing phase q →
        phase_distance phase p <= phase_distance phase q
  | Err _ => ∀ q, ¬ represents clock ndef ddef timing phase q
  end.
Proof.
  intros Hsp. unfold exact_phase. rewrite (proj2 (Z.leb_le 500 _)), (proj2 (Z.leb_le _ 950)) by lia.
  simpl. destruct ((bitrate timing =? 0) || negb (clock mod bitrate timing =? 0)) eqn:E.
  { intros q [? ?]%represents_divides. bool_simp. destruct E; bool_simp; lia. }
  bool_simp. pose proof (found_iff timing phase) as Hf.
  destruct (phase_limits phase) as [[max1 max2] pref].
  assert (0 < clock / bitrate timing).
  { apply Z.div_str_pos. split; [lia|].
    apply Z.divide_pos_le; [lia|]. apply Z.mod_divide; lia. }
  pose proof (search_nearest timing max1 max2 pref (phase_sample_point ndef ddef timing phase)
    (clock / bitrate timing) ltac:(done)) as Hn.
  simpl in Hn. destruct (foldl _ None _) as [[d p]|]; simpl in *.
  - destruct Hn as [Hp Hmin]. apply Hf in Hp as [-> Hp]; try lia; [|done].
    split; [done|]. intros q Hq. apply (Hmin _ q). apply Hf; try lia; done.
  - intros q Hq. apply (Hn (phase_distance phase q) q). apply Hf; try lia; done.
Qed.

(** C21: The timing search of the PCAN adapter is exact, complete and optimal.  The setting it
    returns divides the controller clock into exactly the requested bit rate, puts the sample
    point exactly where it was requested, has the requested (or the default) jump width and
    respects every register limit of the phase; of all settings that do, it is one nearest to
    the preferred number of time quanta; and when the search fails, no register setting
    within the limits and the admitted sample points represents the request. *)
Theorem exact_phase_correct :
  match exact_phase clock ndef ddef timing phase with
  | Ok p =>
      500 <= phase_sample_point ndef ddef timing phase <= 950 ∧
      represents clock ndef ddef timing phase p ∧
      ∀ q, represents clock ndef ddef timing phase q →
        phase_distance phase p <= phase_distance phase q
  | Err _ =>
      500 <= phase_sample_point ndef ddef timing phase <= 950 →
      ∀ q, ¬ represents clock ndef ddef timing phase q
  end.
Proof.
  destruct (decide (500 <= phase_sample_point ndef ddef timing phase <= 950)) as [Hsp|Hsp].
  { pose proof (exact_phase_nearest Hsp). by destruct (exact_phase _ _ _ _ _). }
  unfold exact_phase. destruct ((500 <=? _) && (_ <=? 950)) eqn:E; simpl; bool_simp; lia.
Qed.
End theorems.

(** The public timing of a setting that represents a request is that request, with the
    defaults filled in. *)
Lemma represents_public timing phase p :
  0 < clock <= u32_max → 0 < bitrate timing →
  500 <= phase_sample_point ndef ddef timing phase <= 950 →
  represents clock ndef ddef timing phase p →
  timing_to_public clock p =
    Ok (mkCanBitTiming (bitrate timing) (Some (phase_sample_point ndef ddef timing phase))
          (Some (phase_sjw p))).
Proof.
  intros Hc Hr Hsp. unfold represents, timing_to_public.
  destruct phase; simpl; (intros (Hb & H1 & H2 & Hclk & Hs & _ & Hw)).
  all: unfold wrap_u32; rewrite !(Z.mod_small _ (2 ^ 32)) by (rewrite ?Z.mod_small; lia).
  all: set (total := 1 + tseg1 p + tseg2 p) in *.
  all: assert (0 < brp p * total) by nia.
  all: assert (brp p * total <= clock) by nia.
  all: unfold checked_mul; rewrite (proj2 (Z.leb_le _ _)) by lia.
  all: rewrite (proj2 (Z.eqb_neq _ _)) by lia.
  all: rewrite Hclk, Z.mod_mul, Z.div_mul, Hs, Z.mod_mul, Z.div_mul by lia; simpl.
  all: unfold try_from, u16_max; rewrite !(proj2 (Z.leb_le _ _)) by lia.
  all: unfold CanBitTiming_new; rewrite (proj2 (Z.eqb_neq (bitrate timing) _)) by lia; simpl.
  all: rewrite (proj2 (Z.leb_le 1 _)), (proj2 (Z.leb_le _ 999)) by lia; simpl.
  all: by rewrite (proj2 (Z.eqb_neq _ _)) by lia.
Qed.

(** A bit timing survives the way to the registers of a PCAN controller and back: the
    public timing computed from the setting that the search finds has the requested bit
    rate, the requested sample point and the requested jump width, where the request leaves
    a value open the default that was used. *)
Theorem exact_phase_roundtrip timing phase p :
  0 < clock <= u32_max → 0 <= bitrate timing →
  (∀ w, sjw timing = Some w → 0 <= w) →
  exact_phase clock ndef ddef timing phase = Ok p →
  timing_to_public clock p =
    Ok (mkCanBitTiming (bitrate timing) (Some (phase_sample_point ndef ddef timing phase))
          (Some (default (Z.min (Z.min (tseg1 p) (tseg2 p)) 4) (sjw timing)))).
Proof.
  intros Hc Hr Hw H.
  destruct (decide (500 <= phase_sample_point ndef ddef timing phase <= 950)) as [Hsp|Hsp].
  2:{ unfold exact_phase in H. destruct ((500 <=? _) && (_ <=? 950)) eqn:E; simpl in H;
      bool_simp; [lia|done]. }
  pose proof (exact_phase_nearest timing phase ltac:(lia) Hr Hw Hsp) as Hn.
  rewrite H in Hn. destruct Hn as [Hp _].
  rewrite (represents_public timing phase p) by
    (done || by eapply (represents_divides _ _ ltac:(lia))).
  repeat f_equal. revert Hp. unfold represents.
  destruct (phase_limits phase) as [[??]?]. by intros (_ & _ & _ & _ & _ & -> & _).
Qed.
End exact.

(** 500 kbit/s sampled at 70 % on the 80 MHz clock: 20 quanta of 8 ticks. *)
Definition example_timing : CanBitTiming := mkCanBitTiming 500000 (Some 700) (Some 4).
Definition example_setting : PcanPhaseTiming := mkPcanPhaseTiming 8 13 6 4.

Example exact_phase_example :
  exact_phase 80000000 875 800 example_timing PhaseNominal = Ok example_setting.
Proof. vm_compute. reflexivity. Qed.

Lemma exact_phase_correct_witness :
  represents 80000000 875 800 example_timing PhaseNominal example_setting ∧
  ∀ q, represents 80000000 875 800 example_timing PhaseNominal q →
    phase_distance PhaseNominal example_setting <= phase_distance PhaseNominal q.
Proof.
  assert (Hrun : exact_phase 80000000 875 800 example_timing PhaseNominal = Ok example_setting)
    by (vm_compute; reflexivity).
  pose proof (exact_phase_correct 80000000 875 800 example_timing PhaseNominal
    ltac:(lia) ltac:(simpl; lia) ltac:(intros w [= <-]; lia)) as H.
  rewrite Hrun in H. destruct H as (_ & H1 & H2). split; [exact H1|exact H2].
Defined.

Lemma exact_phase_roundtrip_witness :
  timing_to_public 80000000 example_setting = Ok (mkCanBitTiming 500000 (Some 700) (Some 4)).
Proof.
  apply (exact_phase_roundtrip 80000000 875 800 example_timing PhaseNominal).
  - unfold u32_max. lia.
  - simpl. lia.
  - intros w [= <-]. lia.
  - vm_compute. reflexivity.
Defined.

(** The text that PCAN-Basic reports for such a setting. *)
Example parse_fd_timing_example :
  parse_fd_timing ("f_clock_mhz=80, nom_brp=8,nom_tseg1=13,nom_tseg2=6,nom_sjw=4,"
    +:+ " data_brp=2, data_tseg1=15, data_tseg2=4, data_sjw=2") =
  Ok (mkPcanFdTiming example_setting (mkPcanPhaseTiming 2 15 4 2)).
Proof. vm_compute. reflexivity. Qed.

(** Every register value that the parser accepts is a [u32], whatever the driver reports. *)
Lemma timing_field_u32 fields name v :
  timing_field fields name = Ok v → v <= u32_max.
Proof.
  unfold timing_field, parse_u32. rewrite ok_or_Ok.
  intros (s & _ & (u & _ & H)%bind_Some)%bind_Some. destruct (u <=? u32_max) eqn:?; [|done].
  simplify_eq. by bool_simp.
Qed.
