(* ===== verification/PcanChannel.v ===== *)
(** * adapters/pcan: frames, statuses, the driver and the channel

    Models adapters/pcan/src/channel.rs but for its timings (PcanTiming.v) and the loading
    of the vendor library.  The functions of PCAN-Basic and of the crate can-hal-pcan, the
    clock and the random identifiers are a class over the world [W]. *)

From S2P Require Import Prelude Core CanTypes Native PcanTiming.

(** ** Constants of PCAN-Basic that channel.rs writes out *)
Definition PCAN_BUSSPEED_NOMINAL : Z := 0x1A.
Definition PCAN_BUSSPEED_DATA : Z := 0x1B.
Definition PCAN_BITRATE_INFO_FD : Z := 0x19.
Definition PCAN_LISTEN_ONLY : Z := 0x08.
Definition PCAN_ALLOW_RTR_FRAMES : Z := 0x1F.
Definition PCAN_NONEBUS : Z := 0.
Definition PCAN_ATTACHED_CHANNELS_COUNT : Z := 0x2A.
Definition PCAN_PARAMETER_OFF : Z := 0.
Definition PCAN_PARAMETER_ON : Z := 1.
Definition FEATURE_FD_CAPABLE : Z := 0x01.

Definition PCAN_MESSAGE_RTR : Z := 0x01.
Definition PCAN_MESSAGE_EXTENDED : Z := 0x02.
Definition PCAN_MESSAGE_FD : Z := 0x04.
Definition PCAN_MESSAGE_BRS : Z := 0x08.
Definition PCAN_MESSAGE_ESI : Z := 0x10.
Definition PCAN_MESSAGE_ERRFRAME : Z := 0x40.
Definition PCAN_MESSAGE_STATUS : Z := 0x80.

Definition PCAN_ERROR_OK : Z := 0x00000.
Definition PCAN_ERROR_XMTFULL : Z := 0x00001.
Definition PCAN_ERROR_OVERRUN : Z := 0x00002.
Definition PCAN_ERROR_BUSLIGHT : Z := 0x00004.
Definition PCAN_ERROR_BUSHEAVY : Z := 0x00008.
Definition PCAN_ERROR_BUSOFF : Z := 0x00010.
Definition PCAN_ERROR_QRCVEMPTY : Z := 0x00020.
Definition PCAN_ERROR_QOVERRUN : Z := 0x00040.
Definition PCAN_ERROR_QXMTFULL : Z := 0x00080.
Definition PCAN_ERROR_REGTEST : Z := 0x00100.
Definition PCAN_ERROR_NODRIVER : Z := 0x00200.
Definition PCAN_ERROR_HWINUSE : Z := 0x00400.
Definition PCAN_ERROR_NETINUSE : Z := 0x00800.
Definition PCAN_ERROR_ILLHW : Z := 0x01400.
Definition PCAN_ERROR_ILLNET : Z := 0x01800.
Definition PCAN_ERROR_ILLCLIENT : Z := 0x01C00.
Definition PCAN_ERROR_RESOURCE : Z := 0x02000.
Definition PCAN_ERROR_ILLPARAMTYPE : Z := 0x04000.
Definition PCAN_ERROR_ILLPARAMVAL : Z := 0x08000.
Definition PCAN_ERROR_ILLDATA : Z := 0x20000.
Definition PCAN_ERROR_BUSPASSIVE : Z := 0x40000.
Definition PCAN_ERROR_INITIALIZE : Z := 0x4000000.
Definition PCAN_ERROR_ILLOPERATION : Z := 0x8000000.

Definition MAX_FD_BITRATE_STRING : Z := 256.
Definition MAX_SKIPPED_DIAGNOSTICS : nat := 64.
(** One millisecond; durations and instants are nanoseconds. *)
Definition RECEIVE_POLL_INTERVAL : Z := 1000000.
Definition PREPARED_CLOCK_DOMAIN : string := "pcan-basic.pending".

(** [x & mask != 0]. *)
Definition has_bits (x mask : Z) : bool := negb (Z.land x mask =? 0).

(** ** Statuses *)
Definition check_status (status : Z) : result DriverError unit :=
  if status =? PCAN_ERROR_OK then Ok () else Err (DriverStatus status).

Definition status_decision (status : Z) (operation : string) : string * ErrorCategory * bool :=
  if has_bits status PCAN_ERROR_BUSOFF then ("can.bus.off", Unavailable, false)
  else if has_bits status (Z.lor PCAN_ERROR_BUSPASSIVE PCAN_ERROR_BUSHEAVY) then
    ("can.bus.passive", Unavailable, true)
  else if has_bits status (Z.lor PCAN_ERROR_XMTFULL PCAN_ERROR_QXMTFULL) then
    ("runtime.queue.full", Unavailable, true)
  else if has_bits status (Z.lor PCAN_ERROR_OVERRUN PCAN_ERROR_QOVERRUN) then
    ("can.receive.lagged", Unavailable, true)
  else if has_bits status PCAN_ERROR_NODRIVER then ("can.adapter.unavailable", Unavailable, false)
  else if existsb (λ invalid, Z.land status invalid =? invalid)
            [PCAN_ERROR_ILLHW; PCAN_ERROR_ILLNET; PCAN_ERROR_ILLCLIENT]
          || has_bits status (Z.lor PCAN_ERROR_REGTEST PCAN_ERROR_INITIALIZE) then
    ("runtime.resource.not_found", NotFound, false)
  else if has_bits status
            (Z.lor (Z.lor PCAN_ERROR_HWINUSE PCAN_ERROR_NETINUSE) PCAN_ERROR_RESOURCE) then
    ("runtime.adapter.conflict", Conflict, false)
  else if has_bits status
            (Z.lor (Z.lor (Z.lor PCAN_ERROR_ILLPARAMTYPE PCAN_ERROR_ILLPARAMVAL)
                      PCAN_ERROR_ILLDATA) PCAN_ERROR_ILLOPERATION) then
    if bool_decide (operation = "can.send") then ("can.frame.invalid", InvalidArgument, false)
    else ("can.configuration.unsupported", InvalidArgument, false)
  else ("runtime.transport.unavailable", Unavailable, true).

Definition map_driver_error (operation : string) (error : DriverError)
    (resource_id : option ResourceId) : HalError :=
  let '(name, category, retryable, message, vendor_code) :=
    match error with
    | DriverUnavailable message => ("can.adapter.unavailable", Unavailable, false, message, None)
    | DriverUnsupported message =>
        ("can.configuration.unsupported", InvalidArgument, false, message, None)
    | DriverUnsupportedFrame message =>
        ("runtime.transport.unsupported_configuration", InvalidArgument, false, message, None)
    | DriverInvalidFrame message => ("can.frame.invalid", InvalidArgument, false, message, None)
    | DriverConfigurationMismatch message =>
        ("can.configuration.mismatch", Conflict, false, message, None)
    | DriverClosed => ("runtime.session.closed", Conflict, false, "PCAN channel is closed", None)
    | DriverPlatform message =>
        ("runtime.transport.unavailable", Unavailable, true, message, None)
    | DriverStatus status =>
        let '(name, category, retryable) := status_decision status operation in
        (name, category, retryable, "PCAN-Basic returned status 0x" +:+ hex true 8 status,
         Some ("0x" +:+ hex true 8 status))
    end in
  let mapped := static_error name category operation retryable message in
  let mapped :=
    match vendor_code with
    | Some code => expect_error (HalError_with_vendor_code mapped code)
    | None => mapped
    end in
  match resource_id with
  | Some id => HalError_with_resource_id mapped id
  | None => mapped
  end.

Definition pcan_closed (operation : string) (descriptor : ResourceDescriptor) : HalError :=
  HalError_with_resource_id
    (static_error "runtime.session.closed" Conflict operation false "PCAN channel is closed")
    (desc_id descriptor).

(** ** Messages *)
Record PcanMessage := mkPcanMessage {
  msg_id : Z; message_type : Z; msg_len : Z; msg_data : list Z }.
Record PcanMessageFd := mkPcanMessageFd {
  fd_msg_id : Z; fd_message_type : Z; fd_dlc : Z; fd_msg_data : list Z }.
Record PcanTimestamp := mkPcanTimestamp { millis : Z; millis_overflow : Z; micros : Z }.

(** A conversion error of the CAN interface becomes an invalid frame. *)
Definition invalid_from (e : HalError) : DriverError := DriverInvalidFrame (HalError_display e).

Definition raw_id (id : CanId) : Z * Z :=
  match id with
  | IdStandard value => (value, 0)
  | IdExtended value => (value, PCAN_MESSAGE_EXTENDED)
  end.
Definition from_raw_id (id message_type : Z) : result DriverError CanId :=
  if has_bits message_type PCAN_MESSAGE_EXTENDED then map_err invalid_from (CanId_extended id)
  else
    ok_or (DriverInvalidFrame ("PCAN standard identifier 0x" +:+ hex true 0 id +:+ " exceeds u16"))
      (try_from u16_max id) ≫= λ id,
    map_err invalid_from (CanId_standard id).

Definition len_to_dlc (length : Z) : option Z :=
  if (0 <=? length) && (length <=? 8) then Some length
  else if length =? 12 then Some 9
  else if length =? 16 then Some 10
  else if length =? 20 then Some 11
  else if length =? 24 then Some 12
  else if length =? 32 then Some 13
  else if length =? 48 then Some 14
  else if length =? 64 then Some 15
  else None.
Definition dlc_to_len (dlc : Z) : option Z :=
  if (0 <=? dlc) && (dlc <=? 8) then Some dlc
  else if dlc =? 9 then Some 12
  else if dlc =? 10 then Some 16
  else if dlc =? 11 then Some 20
  else if dlc =? 12 then Some 24
  else if dlc =? 13 then Some 32
  else if dlc =? 14 then Some 48
  else if dlc =? 15 then Some 64
  else None.

(** [array[..data.len()].copy_from_slice(data)] on an array of [n] zeros. *)
Definition fill (n : nat) (data : list Z) : list Z :=
  data ++ repeat 0 (n - length data).

Definition from_classic_message (message : PcanMessage) : result DriverError (option CanFrame) :=
  let mt := message_type message in
  if has_bits mt (Z.lor PCAN_MESSAGE_STATUS PCAN_MESSAGE_ERRFRAME) then Ok None
  else
    from_raw_id (msg_id message) mt ≫= λ id,
    if has_bits mt PCAN_MESSAGE_RTR then
      if has_bits mt PCAN_MESSAGE_FD then
        Err (DriverInvalidFrame "PCAN FD remote frames are invalid")
      else map_err invalid_from (Some <$> CanFrame_classic_remote id (msg_len message))
    else if len (msg_data message) <? msg_len message then
      Err (DriverInvalidFrame ("PCAN Classical DLC " +:+ to_string (msg_len message)
                               +:+ " exceeds 8"))
    else
      map_err invalid_from
        (Some <$> CanFrame_classic_data id (take (Z.to_nat (msg_len message)) (msg_data message))).

Definition from_fd_message (message : PcanMessageFd) : result DriverError (option CanFrame) :=
  let mt := fd_message_type message in
  if has_bits mt (Z.lor PCAN_MESSAGE_STATUS PCAN_MESSAGE_ERRFRAME) then Ok None
  else
    from_raw_id (fd_msg_id message) mt ≫= λ id,
    if has_bits mt PCAN_MESSAGE_RTR then
      map_err invalid_from (Some <$> CanFrame_classic_remote id (fd_dlc message))
    else if has_bits mt PCAN_MESSAGE_FD then
      ok_or (DriverInvalidFrame ("PCAN FD DLC " +:+ to_string (fd_dlc message) +:+ " exceeds 15"))
        (dlc_to_len (fd_dlc message)) ≫= λ len,
      map_err invalid_from
        (Some <$> CanFrame_fd_data id (take (Z.to_nat len) (fd_msg_data message))
                    (has_bits mt PCAN_MESSAGE_BRS) (has_bits mt PCAN_MESSAGE_ESI))
    else if 8 <? fd_dlc message then
      Err (DriverInvalidFrame ("PCAN Classical DLC " +:+ to_string (fd_dlc message)
                               +:+ " exceeds 8"))
    else
      map_err invalid_from
        (Some <$> CanFrame_classic_data id (take (Z.to_nat (fd_dlc message)) (fd_msg_data message))).

Definition no_transmit : DriverError :=
  DriverUnsupportedFrame "PCAN error frames are receive diagnostics and cannot be transmitted".
Definition frame_raw_id (frame : CanFrame) : result DriverError (Z * Z) :=
  raw_id <$> ok_or (DriverUnsupportedFrame "PCAN cannot transmit HAL error frames") (CanFrame_id frame).

Definition to_classic_message (frame : CanFrame) : result DriverError PcanMessage :=
  frame_raw_id frame ≫= λ '(id, id_type),
  match frame with
  | ClassicData _ data => Ok (mkPcanMessage id id_type (len data) (fill 8 data))
  | ClassicRemote _ dlc =>
      Ok (mkPcanMessage id (Z.lor id_type PCAN_MESSAGE_RTR) dlc (fill 8 []))
  | FdData _ _ _ _ =>
      Err (DriverUnsupportedFrame "CAN FD frame requires an FD-configured PCAN channel")
  | ErrorFrame _ _ => Err no_transmit
  end.

(** [message_type |= flag] under a condition. *)
Definition or_flag (b : bool) (flag x : Z) : Z := if b then Z.lor x flag else x.

Definition to_fd_message (frame : CanFrame) : result DriverError PcanMessageFd :=
  frame_raw_id frame ≫= λ '(id, id_type),
  match frame with
  | ClassicData _ data => Ok (mkPcanMessageFd id id_type (len data) (fill 64 data))
  | ClassicRemote _ dlc =>
      Ok (mkPcanMessageFd id (Z.lor id_type PCAN_MESSAGE_RTR) dlc (fill 64 []))
  | FdData _ data bitrate_switch error_state_indicator =>
      let mt := Z.lor id_type PCAN_MESSAGE_FD in
      let mt := or_flag bitrate_switch PCAN_MESSAGE_BRS mt in
      let mt := or_flag error_state_indicator PCAN_MESSAGE_ESI mt in
      ok_or (DriverInvalidFrame "invalid CAN FD payload length") (len_to_dlc (len data)) ≫= λ dlc,
      Ok (mkPcanMessageFd id mt dlc (fill 64 data))
  | ErrorFrame _ _ => Err no_transmit
  end.

(** ** Bit rates and buses of the crate can-hal-pcan *)
Inductive ClassicBitrate :=
  | Br1M | Br800K | Br500K | Br250K | Br125K | Br100K | Br50K | Br20K | Br10K | Br5K.
Inductive PcanBusType := BusUsb | BusPci | BusLan.

Definition classic_bitrate (bitrate : Z) : option ClassicBitrate :=
  if bitrate =? 1000000 then Some Br1M
  else if bitrate =? 800000 then Some Br800K
  else if bitrate =? 500000 then Some Br500K
  else if bitrate =? 250000 then Some Br250K
  else if bitrate =? 125000 then Some Br125K
  else if bitrate =? 100000 then Some Br100K
  else if bitrate =? 50000 then Some Br50K
  else if bitrate =? 20000 then Some Br20K
  else if bitrate =? 10000 then Some Br10K
  else if bitrate =? 5000 then Some Br5K
  else None.

Definition bus_and_index (handle : Z) : option (PcanBusType * Z) :=
  if (0x51 <=? handle) && (handle <=? 0x60) then Some (BusUsb, handle - 0x51)
  else if (0x41 <=? handle) && (handle <=? 0x50) then Some (BusPci, handle - 0x41)
  else if (0x801 <=? handle) && (handle <=? 0x810) then Some (BusLan, handle - 0x801)
  else None.

(** The errors of that crate. *)
Inductive PcanError :=
  | PcanLibraryLoad (message : string)
  | PcanStatus (status : Z)
  | PcanInvalidFrame (message : string)
  | PcanInvalidChannel (index : Z)
  | PcanUnsupportedBitrate (bitrate : Z)
  | PcanUnsupportedTiming (message : string)
  | PcanPlatform (message : string)
  | PcanOther (message : string).
Definition DriverError_from (error : PcanError) : DriverError :=
  match error with
  | PcanLibraryLoad message => DriverUnavailable message
  | PcanStatus status => DriverStatus status
  | PcanInvalidFrame message => DriverInvalidFrame message
  | PcanInvalidChannel index =>
      DriverUnsupported ("invalid PCAN channel index " +:+ to_string index)
  | PcanUnsupportedBitrate bitrate =>
      DriverUnsupported ("unsupported PCAN bitrate " +:+ to_string bitrate)
  | PcanUnsupportedTiming message => DriverUnsupported message
  | PcanPlatform message | PcanOther message => DriverPlatform message
  end.

(** ** The vendor library, the driver crate, the clock and the random source *)
Record PcanChannelInformation := mkPcanChannelInformation {
  channel_handle : Z;
  info_device_type : Z;
  info_controller_number : Z;
  device_features : Z;
  info_device_name : list Z;
  info_device_id : Z;
  info_channel_condition : Z;
}.
Class PcanBasic (W : Type) := {
  can_get_value_u32 (handle parameter : Z) : W → W * (Z * Z);
  can_get_value_text (handle parameter capacity : Z) : W → W * (Z * list Z);
  can_get_value_channels (count : Z) : W → W * (Z * list PcanChannelInformation);
  can_set_value_u32 (handle parameter value : Z) : W → W * Z;
  can_get_status (handle : Z) : W → W * Z;
  can_read (handle : Z) : W → W * (Z * (PcanMessage * PcanTimestamp));
  can_read_fd (handle : Z) : W → W * (Z * (PcanMessageFd * Z));
  can_write (handle : Z) (message : PcanMessage) : W → W * Z;
  can_write_fd (handle : Z) (message : PcanMessageFd) : W → W * Z;
  can_uninitialize (handle : Z) : W → W * Z;
  channel_on_bus (bus : PcanBusType) (index : Z) : W → W * result PcanError unit;
  connect_classic (bus : PcanBusType) (index : Z) (bitrate : ClassicBitrate) :
    W → W * result PcanError unit;
  connect_fd (bus : PcanBusType) (index : Z) (timing : PcanFdTiming) :
    W → W * result PcanError unit;
  drop_owner (handle : Z) : W → W;
  instant_now : W → W * Z;
  thread_sleep (duration : Z) : W → W;
  uuid_new_v4 : W → W * string;
}.

Record DriverDevice := mkDriverDevice {
  dev_handle : Z;
  dev_type : Z;
  dev_controller_number : Z;
  dev_name : option string;
  dev_id : option Z;
  dev_channel_condition : Z;
  dev_fd_capable : bool;
}.

Inductive PreparedKind := PreparedClassic (bitrate : ClassicBitrate) | PreparedFd (timing : PcanFdTiming).
Record PreparedOpen := mkPreparedOpen { prepared_kind : PreparedKind; prepared_active : CanActiveConfig }.
Definition PreparedOpen_mode (p : PreparedOpen) : CanMode := act_mode (prepared_active p).

Inductive Connected := ConnectedClassic | ConnectedFd.
Definition Connected_mode (c : Connected) : CanMode :=
  match c with ConnectedClassic => Classic | ConnectedFd => Fd end.
Record RealChannel := mkRealChannel {
  rc_handle : Z;
  rc_mode : CanMode;
  rc_clock_domain : string;
  rc_owner : option Connected;
}.
Inductive RawReceive := RawFrame (frame : CanFrame) (timestamp_ns : Z) | RawSkipped | RawEmpty.

Definition saturating_mul (max a b : Z) : Z := Z.min max (a * b).

(** The name is the bytes up to the first zero. *)
Fixpoint until_zero (l : list Z) : list Z :=
  match l with
  | [] => []
  | b :: l => if b =? 0 then [] else b :: until_zero l
  end.
Definition decode_name (value : list Z) : option string :=
  let bytes := until_zero value in
  match bytes with [] => None | _ => Some (str_trim (from_utf8_lossy bytes)) end.

Section driver.
Context {W : Type} `{PcanBasic W} (PCAN_CLOCK_HZ NOMINAL_DEFAULT DATA_DEFAULT : Z).
Abbreviation driver := (native W DriverError).

(** A foreign call that answers with a value, and one that answers with a status. *)
Definition ffi {A} (call : W → W * A) : driver A := λ w, let '(w, a) := call w in (w, Ok a).
Definition ffi_status (call : W → W * Z) : driver unit :=
  ffi call ≫= λ status, native_lift (check_status status).

Definition get_u32 (handle parameter : Z) : driver Z :=
  ffi (can_get_value_u32 handle parameter) ≫= λ '(status, value),
  native_lift (check_status status) ≫= λ _, mret value.
Definition get_string (handle parameter capacity : Z) : driver string :=
  ffi (can_get_value_text handle parameter capacity) ≫= λ '(status, value),
  native_lift (check_status status) ≫= λ _,
  native_lift (map_err (λ error, DriverPlatform ("PCAN returned non-UTF-8 timing text: " +:+ error))
          (from_utf8 (until_zero value))).
Definition set_u32 (handle parameter value : Z) : driver unit :=
  ffi_status (can_set_value_u32 handle parameter value).
Definition uninitialize (handle : Z) : driver unit := ffi_status (can_uninitialize handle).
Definition verify_configured (handle : Z) : driver unit := ffi_status (can_get_status handle).
Definition backend_connect (call : W → W * result PcanError unit) : driver unit := λ w,
  let '(w, r) := call w in (w, map_err DriverError_from r).
Definition drop_connected (handle : Z) : driver unit := ffi (λ w, (drop_owner handle w, ())).

Definition attached_channels : driver (list DriverDevice) :=
  get_u32 PCAN_NONEBUS PCAN_ATTACHED_CHANNELS_COUNT ≫= λ count,
  if count =? 0 then mret []
  else
    (* size_of::<PcanChannelInformation>() is 52 *)
    native_lift (ok_or (DriverPlatform "PCAN discovery buffer length overflowed")
            (try_from u32_max (count * 52))) ≫= λ _,
    ffi (can_get_value_channels count) ≫= λ '(status, channels),
    native_lift (check_status status) ≫= λ _,
    mret (map (λ channel,
        mkDriverDevice (channel_handle channel) (info_device_type channel)
          (info_controller_number channel) (decode_name (info_device_name channel))
          (if info_device_id channel =? 0 then None else Some (info_device_id channel))
          (info_channel_condition channel) (has_bits (device_features channel) FEATURE_FD_CAPABLE))
      (List.filter (λ channel,
        is_some (bus_and_index (channel_handle channel))
        && has_bits (info_channel_condition channel) 0x03) channels)).

Definition read_classic (handle : Z) : driver RawReceive :=
  ffi (can_read handle) ≫= λ '(status, (message, timestamp)),
  if status =? PCAN_ERROR_QRCVEMPTY then mret RawEmpty
  else
    native_lift (check_status status) ≫= λ _,
    native_lift (from_classic_message message) ≫= λ frame,
    let us := saturating_add u64_max
                (saturating_mul u64_max
                   (Z.lor (Z.shiftl (millis_overflow timestamp) 32) (millis timestamp)) 1000)
                (micros timestamp) in
    mret (match frame with
          | None => RawSkipped
          | Some frame => RawFrame frame (saturating_mul u64_max us 1000)
          end).
Definition read_fd (handle : Z) : driver RawReceive :=
  ffi (can_read_fd handle) ≫= λ '(status, (message, timestamp)),
  if status =? PCAN_ERROR_QRCVEMPTY then mret RawEmpty
  else
    native_lift (check_status status) ≫= λ _,
    native_lift (from_fd_message message) ≫= λ frame,
    mret (match frame with
          | None => RawSkipped
          | Some frame => RawFrame frame (saturating_mul u64_max timestamp 1000)
          end).
Definition write_classic (handle : Z) (frame : CanFrame) : driver unit :=
  native_lift (to_classic_message frame) ≫= λ message, ffi_status (can_write handle message).
Definition write_fd (handle : Z) (frame : CanFrame) : driver unit :=
  native_lift (to_fd_message frame) ≫= λ message, ffi_status (can_write_fd handle message).

(** ** Preparing to open *)
Definition unsupported_by (e : HalError) : DriverError := DriverUnsupported (HalError_display e).

Definition prepare_configure (request : CanConfigureConfig) : result DriverError PreparedOpen :=
  if cfg_loopback request then
    Err (DriverUnsupported "PCAN-Basic does not expose controller loopback configuration")
  else if is_some (cfg_restart_ms request) then
    Err (DriverUnsupported "PCAN-Basic auto-reset has no representable restart delay")
  else
    map_err unsupported_by
      (CanActiveConfig_new (cfg_mode request) (cfg_nominal request) (cfg_data request)
         (cfg_listen_only request) false PREPARED_CLOCK_DOMAIN) ≫= λ active,
    match cfg_mode request with
    | Classic =>
        if is_some (sample_point_permill (cfg_nominal request))
           || is_some (sjw (cfg_nominal request)) then
          Err (DriverUnsupported
                 "PCAN Classical CAN supports only predefined bitrates, not timing overrides")
        else
          PreparedClassic <$>
            ok_or (DriverUnsupported ("PCAN Classical CAN cannot represent "
                     +:+ to_string (bitrate (cfg_nominal request)) +:+ " bit/s"))
              (classic_bitrate (bitrate (cfg_nominal request)))
    | Fd =>
        ok_or (DriverUnsupported "CAN FD requires data-phase timing") (cfg_data request) ≫= λ data,
        exact_phase PCAN_CLOCK_HZ NOMINAL_DEFAULT DATA_DEFAULT (cfg_nominal request) PhaseNominal
          ≫= λ nominal,
        exact_phase PCAN_CLOCK_HZ NOMINAL_DEFAULT DATA_DEFAULT data PhaseData ≫= λ data,
        Ok (PreparedFd (mkPcanFdTiming nominal data))
    end ≫= λ kind,
    Ok (mkPreparedOpen kind active).

Definition pcan_verify_expectation (expectation : CanLinkExpectation) (mode : CanMode)
    (nominal_bitrate : Z) (data_bitrate : option Z) (listen_only : bool)
    : result DriverError unit :=
  if bool_decide (exp_loopback expectation = Some true) then
    Err (DriverUnsupported "PCAN-Basic cannot query controller loopback state")
  else
    let mismatch :=
      is_some_and (λ value, negb (bool_decide (value = mode))) (exp_mode expectation)
      || is_some_and (λ value, negb (value =? nominal_bitrate)) (exp_nominal_bitrate expectation)
      || is_some_and (λ value, negb (bool_decide (Some value = data_bitrate)))
           (exp_data_bitrate expectation)
      || is_some_and (λ value, negb (Bool.eqb value listen_only)) (exp_listen_only expectation) in
    if mismatch then
      Err (DriverConfigurationMismatch
             "PCAN channel configuration does not match Attach expectations")
    else Ok ().

(** The statuses of a channel without a data phase. *)
Definition no_data_phase : Z :=
  Z.lor (Z.lor (Z.lor PCAN_ERROR_INITIALIZE PCAN_ERROR_ILLPARAMTYPE) PCAN_ERROR_ILLPARAMVAL)
    PCAN_ERROR_ILLOPERATION.

Definition prepare_attach (device : DriverDevice) (expectation : CanLinkExpectation)
    : driver PreparedOpen :=
  native_map_err (λ _, DriverUnsupported
      "PCAN Attach requires an already initialized, queryable channel")
    (get_u32 (dev_handle device) PCAN_BUSSPEED_NOMINAL) ≫= λ nominal_bitrate,
  attempt (get_u32 (dev_handle device) PCAN_BUSSPEED_DATA) ≫= λ data_speed,
  match data_speed with
  | Ok value => mret (if negb (value =? 0) then Some value else None)
  | Err (DriverStatus status) =>
      if has_bits status no_data_phase then mret None else throw (DriverStatus status)
  | Err error => throw error
  end ≫= λ data_bitrate,
  get_u32 (dev_handle device) PCAN_LISTEN_ONLY ≫= λ listen_only,
  let listen_only := negb (listen_only =? 0) in
  let mode := if is_some data_bitrate then Fd else Classic in
  native_lift (pcan_verify_expectation expectation mode nominal_bitrate data_bitrate listen_only) ≫= λ _,
  match data_bitrate with
  | Some _ =>
      get_string (dev_handle device) PCAN_BITRATE_INFO_FD MAX_FD_BITRATE_STRING ≫= λ text,
      native_lift (parse_fd_timing text) ≫= λ timing,
      native_lift (timing_to_public PCAN_CLOCK_HZ (fd_nominal timing)) ≫= λ nominal,
      native_lift (timing_to_public PCAN_CLOCK_HZ (fd_data timing)) ≫= λ data,
      if negb (bitrate nominal =? nominal_bitrate)
         || negb (bool_decide (Some (bitrate data) = data_bitrate)) then
        throw (DriverUnsupported "PCAN FD bitrate metadata disagrees with active timing")
      else mret (nominal, Some data, PreparedFd timing)
  | None =>
      native_lift (ok_or (DriverUnsupported ("active PCAN Classical bitrate " +:+ to_string nominal_bitrate
                     +:+ " is not representable by can-hal-pcan"))
              (classic_bitrate nominal_bitrate)) ≫= λ rate,
      native_lift (map_err unsupported_by (CanBitTiming_new nominal_bitrate None None)) ≫= λ nominal,
      mret (nominal, None, PreparedClassic rate)
  end ≫= λ '(nominal, data, kind),
  native_lift (map_err unsupported_by
          (CanActiveConfig_new mode nominal data listen_only false PREPARED_CLOCK_DOMAIN)) ≫= λ active,
  mret (mkPreparedOpen kind active).

Definition active_with_clock_domain (active : CanActiveConfig) (clock_domain : string)
    : result DriverError CanActiveConfig :=
  map_err (λ error, DriverPlatform (HalError_display error))
    (CanActiveConfig_new (act_mode active) (act_nominal active) (act_data active)
       (act_listen_only active) (act_loopback active) clock_domain).

(** ** [RealDriver::open] *)
Definition connect_prepared (bus : PcanBusType) (index : Z) (kind : PreparedKind)
    : driver Connected :=
  match kind with
  | PreparedClassic rate =>
      backend_connect (connect_classic bus index rate) ≫= λ _, mret ConnectedClassic
  | PreparedFd timing => backend_connect (connect_fd bus index timing) ≫= λ _, mret ConnectedFd
  end.

(** A failure after connecting: drop the owner, put the listen-only flag back. *)
Definition undo_connect (handle prior_listen_only : Z) {A} (error : DriverError) : driver A :=
  drop_connected handle ≫= λ _,
  attempt (F := DriverError) (set_u32 handle PCAN_LISTEN_ONLY prior_listen_only) ≫= λ _, throw error.

Definition RealDriver_open (device : DriverDevice) (config : CanOpenConfig)
    : driver (RealChannel * CanActiveConfig) :=
  let handle := dev_handle device in
  match config with
  | Attach expectation => prepare_attach device expectation
  | Configure request => native_lift (prepare_configure request)
  end ≫= λ prepared,
  if bool_decide (PreparedOpen_mode prepared = Fd) && negb (dev_fd_capable device) then
    throw (DriverUnsupported "selected PCAN channel does not support CAN FD")
  else
    get_u32 handle PCAN_LISTEN_ONLY ≫= λ prior_listen_only,
    set_u32 handle PCAN_LISTEN_ONLY
      (if act_listen_only (prepared_active prepared) then PCAN_PARAMETER_ON
       else PCAN_PARAMETER_OFF) ≫= λ _,
    native_lift (ok_or (DriverUnsupported ("PCAN handle 0x" +:+ hex true 4 handle
                   +:+ " is outside can-hal-pcan USB/PCI/LAN ranges"))
            (bus_and_index handle)) ≫= λ '(bus_type, index),
    backend_connect (channel_on_bus bus_type index) ≫= λ _,
    attempt (connect_prepared bus_type index (prepared_kind prepared)) ≫= λ connected,
    match connected with
    | Err error =>
        attempt (F := DriverError) (set_u32 handle PCAN_LISTEN_ONLY prior_listen_only) ≫= λ _,
        throw error
    | Ok owner =>
        match config with
        | Configure _ =>
            attempt (verify_configured handle) ≫= λ verified,
            match verified with
            | Err error => undo_connect handle prior_listen_only error
            | Ok _ => mret ()
            end
        | Attach _ => mret ()
        end ≫= λ _,
        attempt (set_u32 handle PCAN_ALLOW_RTR_FRAMES PCAN_PARAMETER_ON) ≫= λ allowed,
        match allowed with
        | Err error => undo_connect handle prior_listen_only error
        | Ok _ =>
            ffi uuid_new_v4 ≫= λ uuid,
            let clock_domain := "pcan-basic:" +:+ hex true 4 handle +:+ ":" +:+ uuid in
            match active_with_clock_domain (prepared_active prepared) clock_domain with
            | Err error => drop_connected handle ≫= λ _, throw error
            | Ok active =>
                mret (mkRealChannel handle (Connected_mode owner) clock_domain (Some owner), active)
            end
        end
    end.

(** ** [RealChannel] *)
(** An [Instant] of Linux is a signed 64-bit count of seconds with nanoseconds. *)
Definition instant_max : Z := (2 ^ 63 - 1) * 1000000000 + 999999999.

(** The bounded round over the receive queue: the first frame, [None] when the queue is
    empty or the round has skipped its share of diagnostics. *)
Fixpoint receive_round (n : nat) (channel : RealChannel) : driver (option (CanFrame * Z)) :=
  match n with
  | O => mret None
  | S n =>
      match rc_mode channel with
      | Classic => read_classic (rc_handle channel)
      | Fd => read_fd (rc_handle channel)
      end ≫= λ received,
      match received with
      | RawFrame frame timestamp_ns => mret (Some (frame, timestamp_ns))
      | RawSkipped => receive_round n channel
      | RawEmpty => mret None
      end
  end.

(** The outer loop, [None] when the fuel does not suffice. *)
Fixpoint receive_loop (fuel : nat) (channel : RealChannel) (timeout : Z) (deadline : option Z)
    (w : W) : option (W * result DriverError (option ReceivedCanFrame)) :=
  match fuel with
  | O => None
  | S fuel =>
      match receive_round MAX_SKIPPED_DIAGNOSTICS channel w with
      | (w, Err e) => Some (w, Err e)
      | (w, Ok (Some (frame, timestamp_ns))) =>
          Some (w, (λ timestamp, Some (mkReceivedCanFrame frame (Some timestamp)))
                   <$> map_err invalid_from
                         (CanTimestamp_new timestamp_ns HostMonotonic (rc_clock_domain channel)))
      | (w, Ok None) =>
          let '(w, now) := instant_now w in
          if (timeout =? 0) || is_some_and (λ deadline, deadline <=? now) deadline then
            Some (w, Ok None)
          else
            let remaining :=
              match deadline with
              | Some deadline => Z.max 0 (deadline - now)
              | None => RECEIVE_POLL_INTERVAL
              end in
            receive_loop fuel channel timeout deadline
              (thread_sleep (Z.min remaining RECEIVE_POLL_INTERVAL) w)
      end
  end.

(** One round per millisecond of the timeout, and two more; see [receive_returns]. *)
Definition receive_fuel (timeout : Z) : nat :=
  Z.to_nat (timeout / RECEIVE_POLL_INTERVAL) + 2.

Definition RealChannel_receive (channel : RealChannel) (timeout : Z) (w : W)
    : option (W * result DriverError (option ReceivedCanFrame)) :=
  match rc_owner channel with
  | None => Some (w, Err DriverClosed)
  | Some _ =>
      let '(w, now) := instant_now w in
      receive_loop (receive_fuel timeout) channel timeout
        (checked_add instant_max now timeout) w
  end.

Definition ensure_owned (channel : RealChannel) : driver unit :=
  match rc_owner channel with None => throw DriverClosed | Some _ => mret () end.

Definition RealChannel_send (channel : RealChannel) (frame : CanFrame) : driver unit :=
  ensure_owned channel ≫= λ _,
  native_lift (map_err invalid_from (CanFrame_validate frame)) ≫= λ _,
  match rc_mode channel with
  | Classic => write_classic (rc_handle channel) frame
  | Fd => write_fd (rc_handle channel) frame
  end.

Definition pcan_bus_state (status : Z) : result DriverError CanBusState :=
  if has_bits status PCAN_ERROR_BUSOFF then Ok BusOff
  else if has_bits status PCAN_ERROR_BUSPASSIVE then Ok BusPassive
  else if has_bits status (Z.lor PCAN_ERROR_BUSHEAVY PCAN_ERROR_BUSLIGHT) then Ok BusWarning
  else if status =? PCAN_ERROR_OK then Ok BusActive
  else Err (DriverStatus status).
Definition RealChannel_bus_status (channel : RealChannel) : driver CanBusStatus :=
  ensure_owned channel ≫= λ _,
  ffi (can_get_status (rc_handle channel)) ≫= λ status,
  native_lift (pcan_bus_state status) ≫= λ state,
  mret (mkCanBusStatus state None None).

(** [close] takes the owner, uninitializes, and drops the owner whatever the status was. *)
Definition RealChannel_close (channel : RealChannel) (w : W)
    : RealChannel * W * result DriverError unit :=
  match rc_owner channel with
  | None => (channel, w, Ok ())
  | Some _ =>
      let '(w, status) := can_uninitialize (rc_handle channel) w in
      (mkRealChannel (rc_handle channel) (rc_mode channel) (rc_clock_domain channel) None,
       drop_owner (rc_handle channel) w, check_status status)
  end.
(** [Drop]: the owner is dropped, which uninitializes a second time at most. *)
Definition RealChannel_drop (channel : RealChannel) (w : W) : W :=
  match rc_owner channel with
  | None => w
  | Some _ => drop_owner (rc_handle channel) w
  end.
End driver.

(** ** [NativePcanChannel]: the channel of the adapter, over any driver channel *)
Class DriverChannel (B : Type) := {
  driver_receive : Z → B → B * result DriverError (option ReceivedCanFrame);
  driver_send : CanFrame → B → B * result DriverError unit;
  driver_bus_status : B → B * result DriverError CanBusStatus;
  driver_close : B → B * result DriverError unit;
}.
Record NativePcanChannel (B : Type) := mkNativePcanChannel {
  npc_descriptor : ResourceDescriptor;
  npc_active : CanActiveConfig;
  npc_backend : B;
  npc_closed : bool;
}.
Global Arguments mkNativePcanChannel {B}.
Global Arguments npc_descriptor {B}.
Global Arguments npc_active {B}.
Global Arguments npc_backend {B}.
Global Arguments npc_closed {B}.

Section native_channel.
Context {B : Type} `{DriverChannel B}.
Implicit Types (c : NativePcanChannel B).

Definition NativePcanChannel_new (descriptor : ResourceDescriptor) (active : CanActiveConfig)
    (backend : B) : NativePcanChannel B := mkNativePcanChannel descriptor active backend false.
Definition npc_set c (backend : B) (closed : bool) : NativePcanChannel B :=
  mkNativePcanChannel (npc_descriptor c) (npc_active c) backend closed.

(** [ensure_open], then the call to the backend with its error mapped. *)
Definition npc_call {A} (operation : string) (call : B → B * result DriverError A) c
    : NativePcanChannel B * HalResult A :=
  if npc_closed c then (c, Err (pcan_closed operation (npc_descriptor c)))
  else
    let '(b, r) := call (npc_backend c) in
    (npc_set c b (npc_closed c),
     map_err (λ e, map_driver_error operation e (Some (desc_id (npc_descriptor c)))) r).
Definition NativePcanChannel_receive (timeout : Z) c := npc_call "can.receive" (driver_receive timeout) c.
Definition NativePcanChannel_send c (frame : CanFrame) := npc_call "can.send" (driver_send frame) c.
Definition NativePcanChannel_bus_status c := npc_call "can.status" driver_bus_status c.
Definition NativePcanChannel_close c : NativePcanChannel B * HalResult unit :=
  if npc_closed c then (c, Ok ())
  else
    let '(b, r) := driver_close (npc_backend c) in
    (npc_set c b true,
     map_err (λ e, map_driver_error "can.close" e (Some (desc_id (npc_descriptor c)))) r).
Definition NativePcanChannel_drop c : NativePcanChannel B :=
  if npc_closed c then c else npc_set c (driver_close (npc_backend c)).1 true.

(** The adapter's channel is what the runtime's actor drives, [timeout] being the one of
    its receive. *)
Definition pcan_can_channel (timeout : Z) : CanChannel (NativePcanChannel B) := {|
  channel_receive := NativePcanChannel_receive timeout;
  channel_send := NativePcanChannel_send;
  channel_bus_status := NativePcanChannel_bus_status;
  channel_close := NativePcanChannel_close;
|}.
End native_channel.

(** The vendor channel is a driver channel over its world.  The fuel of [receive] suffices
    (see [pcan_receive_returns]), so the [None] of its loop is not reached. *)
Definition with_channel {W A} (channel : RealChannel) (r : W * A) : (RealChannel * W) * A :=
  ((channel, r.1), r.2).
Global Instance real_driver_channel {W} `{PcanBasic W} : DriverChannel (RealChannel * W) := {|
  driver_receive timeout b :=
    with_channel b.1 (default (b.2, Ok None) (RealChannel_receive b.1 timeout b.2));
  driver_send frame b := with_channel b.1 (RealChannel_send b.1 frame b.2);
  driver_bus_status b := with_channel b.1 (RealChannel_bus_status b.1 b.2);
  driver_close b := RealChannel_close b.1 b.2;
|}.
