(* ===== verification/PcanSpec.v ===== *)
(** * adapters/pcan: what the channel promises

    Frames survive the conversion to PCAN messages and back, what is received is valid, the
    receive loop ends, closing is final, and a prepared configuration is the requested one. *)

From S2P Require Import Prelude Core CanTypes Native PcanTiming PcanChannel.

(** ** Frames *)
(** The values a frame of the Rust type can hold. *)
Definition frame_nonneg (f : CanFrame) : Prop :=
  match f with
  | ClassicData id _ | FdData id _ _ _ => 0 <= CanId_value id
  | ClassicRemote id dlc => 0 <= CanId_value id ∧ 0 <= dlc
  | ErrorFrame _ _ => True
  end.

Lemma from_raw_id_raw_id id mt :
  validate_id id = Ok () → 0 <= CanId_value id →
  has_bits mt PCAN_MESSAGE_EXTENDED = CanId_is_extended id →
  from_raw_id (raw_id id).1 mt = Ok id.
Proof.
  unfold from_raw_id. intros Hv Hn ->. destruct id as [v|v]; simpl in *;
    destruct (_ <=? _) eqn:E in Hv; try done; bool_simp.
  - unfold try_from, u16_max. rewrite (proj2 (Z.leb_le _ _)) by lia. simpl.
    unfold CanId_standard. by rewrite (proj2 (Z.ltb_ge _ _)) by lia.
  - unfold CanId_extended. by rewrite (proj2 (Z.ltb_ge _ _)) by lia.
Qed.

Lemma take_fill n data : take (length data) (fill n data) = data.
Proof. unfold fill. by rewrite take_app_length. Qed.
Lemma len_fill n data : (length data <= n)%nat → len (fill n data) = Z.of_nat n.
Proof. intros. unfold fill, len. rewrite length_app, repeat_length. lia. Qed.

Lemma take_len_fill n data : take (Z.to_nat (len data)) (fill n data) = data.
Proof. unfold len. rewrite Nat2Z.id. apply take_fill. Qed.

Lemma dlc_of_len n d : len_to_dlc n = Some d → dlc_to_len d = Some n.
Proof.
  unfold len_to_dlc. destruct ((0 <=? n) && (n <=? 8)) eqn:E.
  { intros [= <-]. unfold dlc_to_len. by rewrite E. }
  repeat case_match; intros [= <-]; bool_simp; by subst.
Qed.

Lemma valid_fd_has_dlc n : valid_fd_data_length n = true → is_Some (len_to_dlc n).
Proof.
  unfold valid_fd_data_length, len_to_dlc. intros.
  repeat (case_match; [by eexists|]). exfalso. by bool_simp; naive_solver.
Qed.


(** A validated frame is what its constructor builds. *)
Lemma rebuild_valid f : CanFrame_validate f = Ok () → CanFrame_rebuild f = Ok f.
Proof. intros H. pose proof (frame_validate_iff_constructor f) as E. by rewrite H in E. Qed.

Lemma validate_id_of f id :
  CanFrame_validate f = Ok () → CanFrame_id f = Some id → validate_id id = Ok ().
Proof.
  destruct f; simpl; intros H [= <-]; apply bind_Ok in H as ([] & H & _); done.
Qed.

Lemma classic_len id data : CanFrame_validate (ClassicData id data) = Ok () → len data <= 8.
Proof.
  simpl. intros (_ & _ & H)%bind_Ok. destruct (_ <? _) eqn:E; [done|].
  unfold MAX_CLASSIC_DATA_BYTES in E. by bool_simp.
Qed.

(** Decide the tests of a concrete message type. *)
Ltac compute_bits :=
  repeat match goal with
  | |- context [has_bits ?a ?b] =>
      let v := eval vm_compute in (has_bits a b) in change (has_bits a b) with v
  end; cbv iota.

(** C27: frames survive the vendor's message formats.  A valid frame that the adapter turns
    into a CAN FD message is read back from that message as the same frame, identifier
    format, remote flag, bit-rate switch, error indicator and payload included, and so is
    one that it turns into a Classical message; only error frames have no FD message, and
    only error frames and FD frames have no Classical message. *)
Theorem pcan_frame_roundtrip f :
  CanFrame_validate f = Ok () → frame_nonneg f →
  match to_fd_message f with
  | Ok message => from_fd_message message = Ok (Some f)
  | Err _ => CanFrame_is_error f = true
  end ∧
  match to_classic_message f with
  | Ok message => from_classic_message message = Ok (Some f)
  | Err _ => CanFrame_is_error f = true ∨ is_some (CanFrame_bitrate_switch f) = true
  end.
Proof.
  intros Hv Hn. pose proof (rebuild_valid f Hv) as Hr.
  destruct f as [id data|id dlc|id data brs esi|classes data]; simpl in Hr; [| | |by simpl; auto];
    pose proof (validate_id_of _ id Hv eq_refl) as Hid.
  - pose proof (classic_len _ _ Hv) as Hlen.
    split; cbn; [unfold from_fd_message|unfold from_classic_message];
      destruct id; simpl; compute_bits; rewrite (from_raw_id_raw_id _ _ Hid Hn) by reflexivity; simpl.
    all: rewrite ?(len_fill 8 data) by (unfold len in Hlen; lia).
    all: rewrite (proj2 (Z.ltb_ge _ _)) by lia; by rewrite take_len_fill, Hr.
  - simpl in Hn. destruct Hn as [Hn ?].
    split; cbn; [unfold from_fd_message|unfold from_classic_message];
      destruct id; simpl; compute_bits; rewrite (from_raw_id_raw_id _ _ Hid Hn) by reflexivity; simpl;
      by rewrite Hr.
  - split; [|by destruct id; cbn; right].
    assert (valid_fd_data_length (len data) = true) as [dlc Hdlc]%valid_fd_has_dlc.
    { simpl in Hv. apply bind_Ok in Hv as (_ & _ & Hv). by destruct (valid_fd_data_length _). }
    cbn. rewrite (surjective_pairing (raw_id id)). simpl. rewrite Hdlc. simpl.
    unfold from_fd_message. simpl. rewrite (dlc_of_len _ _ Hdlc).
    destruct id, brs, esi; simpl; compute_bits;
      rewrite (from_raw_id_raw_id _ _ Hid Hn) by reflexivity; simpl;
      by rewrite take_len_fill, Hr.
Qed.

(** ** What is received *)
Lemma invalid_from_Ok (r : HalResult CanFrame) f :
  map_err invalid_from (Some <$> r) = Ok (Some f) → r = Ok f.
Proof. destruct r as [x|e]; simpl; congruence. Qed.

Lemma constructed_valid g f : CanFrame_rebuild g = Ok f → CanFrame_validate f = Ok ().
Proof.
  rewrite frame_validate_iff_constructor. destruct (CanFrame_validate g) as [[]|] eqn:E; [|done].
  simpl. by intros [= <-].
Qed.

Lemma from_fd_message_valid m f :
  from_fd_message m = Ok (Some f) → CanFrame_validate f = Ok ().
Proof.
  unfold from_fd_message. destruct (has_bits _ _); [done|].
  intros (id & _ & H)%bind_Ok. repeat case_match; try done.
  - apply (constructed_valid (ClassicRemote id (fd_dlc m))). by apply invalid_from_Ok.
  - apply bind_Ok in H as (n & _ & H). apply invalid_from_Ok in H.
    by apply (constructed_valid (FdData id (take (Z.to_nat n) (fd_msg_data m))
      (has_bits (fd_message_type m) PCAN_MESSAGE_BRS)
      (has_bits (fd_message_type m) PCAN_MESSAGE_ESI))).
  - apply invalid_from_Ok in H.
    by apply (constructed_valid (ClassicData id (take (Z.to_nat (fd_dlc m)) (fd_msg_data m)))).
Qed.

Lemma from_classic_message_valid m f :
  from_classic_message m = Ok (Some f) → CanFrame_validate f = Ok ().
Proof.
  unfold from_classic_message. destruct (has_bits _ _); [done|].
  intros (id & _ & H)%bind_Ok. repeat case_match; try done.
  - apply (constructed_valid (ClassicRemote id (msg_len m))). by apply invalid_from_Ok.
  - apply invalid_from_Ok in H.
    by apply (constructed_valid (ClassicData id (take (Z.to_nat (msg_len m)) (msg_data m)))).
Qed.

(** ** Receiving *)
Section receiving.
Context {W : Type} `{PcanBasic W} (clock : W → Z).
(** The clock never runs backwards, reading it returns it, and sleeping takes at least the
    duration that was asked for: what the standard library documents of [Instant] and
    [thread::sleep]. *)
Hypothesis now_reads : ∀ w w' t, instant_now w = (w', t) → t = clock w' ∧ clock w <= clock w'.
Hypothesis sleep_takes : ∀ d w, clock w + d <= clock (thread_sleep d w).
Hypothesis read_takes : ∀ h w, clock w <= clock (can_read h w).1.
Hypothesis read_fd_takes : ∀ h w, clock w <= clock (can_read_fd h w).1.

Lemma read_classic_spec h w w' r :
  read_classic h w = (w', r) →
  clock w <= clock w' ∧ ∀ f t, r = Ok (RawFrame f t) → CanFrame_validate f = Ok ().
Proof.
  unfold read_classic, mbind, native_bind, ffi, native_lift, mret, native_ret.
  pose proof (read_takes h w). destruct (can_read h w) as [w1 [status [m ts]]]. simpl in *.
  destruct (status =? _); [by intros [= <- <-]|].
  destruct (check_status status); [|by intros [= <- <-]].
  destruct (from_classic_message m) as [[f|]|] eqn:E; intros [= <- <-]; (split; [done|]);
    try done. intros f' t [= <- _]. by eapply from_classic_message_valid.
Qed.

Lemma read_fd_spec h w w' r :
  read_fd h w = (w', r) →
  clock w <= clock w' ∧ ∀ f t, r = Ok (RawFrame f t) → CanFrame_validate f = Ok ().
Proof.
  unfold read_fd, mbind, native_bind, ffi, native_lift, mret, native_ret.
  pose proof (read_fd_takes h w). destruct (can_read_fd h w) as [w1 [status [m ts]]]. simpl in *.
  destruct (status =? _); [by intros [= <- <-]|].
  destruct (check_status status); [|by intros [= <- <-]].
  destruct (from_fd_message m) as [[f|]|] eqn:E; intros [= <- <-]; (split; [done|]);
    try done. intros f' t [= <- _]. by eapply from_fd_message_valid.
Qed.

Lemma receive_round_spec n channel w w' r :
  receive_round n channel w = (w', r) →
  clock w <= clock w' ∧ ∀ f t, r = Ok (Some (f, t)) → CanFrame_validate f = Ok ().
Proof.
  revert w. induction n as [|n IH]; intros w; simpl.
  { intros [= <- <-]. split; [lia|done]. }
  unfold mbind at 1, native_bind at 1.
  set (read := match rc_mode channel with Classic => _ | Fd => _ end).
  destruct (read w) as [w1 [received|e]] eqn:E.
  2:{ intros [= <- <-]. split; [|done]. subst read.
      destruct (rc_mode channel); [by apply read_classic_spec in E as [? _]
        |by apply read_fd_spec in E as [? _]]. }
  assert (clock w <= clock w1 ∧ ∀ f t, received = RawFrame f t → CanFrame_validate f = Ok ())
    as [Hw1 Hf].
  { subst read. destruct (rc_mode channel);
      [apply read_classic_spec in E as [? Hf]|apply read_fd_spec in E as [? Hf]];
      (split; [done|]; intros f t ->; by eapply Hf). }
  destruct received as [f t| |].
  - intros [= <- <-]. split; [done|]. intros f' t' [= <- <-]. by eapply Hf.
  - intros [? ?]%IH. split; [lia|done].
  - intros [= <- <-]. by split.
Qed.

(** What one receive may answer. *)
Definition receive_outcome (channel : RealChannel) (timeout deadline : Z) (w : W)
    (r : result DriverError (option ReceivedCanFrame)) : Prop :=
  match r with
  | Ok (Some received) =>
      CanFrame_validate (rcv_frame received) = Ok () ∧
      ∃ ns, rcv_timestamp received =
              Some (mkCanTimestamp ns HostMonotonic (rc_clock_domain channel))
  | Ok None => timeout = 0 ∨ deadline <= clock w
  | Err _ => True
  end.

Lemma receive_loop_returns n channel timeout deadline w :
  deadline - clock w <= Z.of_nat n * RECEIVE_POLL_INTERVAL →
  ∃ w' r, receive_loop (S n) channel timeout (Some deadline) w = Some (w', r) ∧
    receive_outcome channel timeout deadline w' r.
Proof.
  revert w. induction n as [|n IH]; intros w Hn;
    (cbn [receive_loop]; destruct (receive_round _ channel w) as [w1 r] eqn:E;
     pose proof (receive_round_spec _ _ _ _ _ E) as [Hw1 Hf];
     destruct r as [[[f ns]|]|e]; [|destruct (instant_now w1) as [w2 now] eqn:En;
       pose proof (now_reads _ _ _ En) as [-> Hw2];
       destruct ((timeout =? 0) || is_some_and _ _) eqn:Ed|by eexists _, _]).
  1, 4: eexists _, _; split; [done|]; unfold CanTimestamp_new; repeat case_match; try done;
    by (split; [by eapply Hf|eexists]).
  1, 3: eexists _, _; split; [done|]; simpl in *; bool_simp; destruct Ed as [Ed|Ed];
    bool_simp; [by left|by right].
  - simpl in *. bool_simp. lia.
  - simpl in Ed. bool_simp. apply IH. unfold RECEIVE_POLL_INTERVAL in *.
    pose proof (sleep_takes (Z.min (Z.max 0 (deadline - clock w2)) 1000000) w2). lia.
Qed.

(** A receive on a PCAN channel always ends, and not early.  The rounds that the timeout
    allows are enough for the loop: over a clock that does not run backwards it returns
    whatever the driver answers; it returns empty-handed only when the caller did not want
    to wait or the deadline has passed, and a frame that it returns is a valid frame with
    a timestamp of the channel's own clock domain. *)
Theorem pcan_receive_returns channel timeout w :
  0 <= timeout → clock (instant_now w).1 + timeout <= instant_max →
  ∃ w' r, RealChannel_receive channel timeout w = Some (w', r) ∧
    (rc_owner channel = None → w' = w ∧ r = Err DriverClosed) ∧
    (is_Some (rc_owner channel) →
       receive_outcome channel timeout (clock (instant_now w).1 + timeout) w' r).
Proof.
  intros Ht Hmax. unfold RealChannel_receive.
  destruct (rc_owner channel) as [owner|] eqn:Eo.
  2:{ eexists _, _. split_and!; [done|done|]. by intros []. }
  destruct (instant_now w) as [w1 now] eqn:En. pose proof (now_reads _ _ _ En) as [-> _].
  simpl in *. unfold checked_add. rewrite (proj2 (Z.leb_le _ _)) by lia.
  unfold receive_fuel. rewrite Nat.add_comm. cbn [Nat.add].
  destruct (receive_loop_returns (S (Z.to_nat (timeout / RECEIVE_POLL_INTERVAL))) channel timeout
    (clock w1 + timeout) w1) as (w' & r & Hr & Hout).
  - unfold RECEIVE_POLL_INTERVAL. pose proof (Z.mul_succ_div_gt timeout 1000000).
    assert (0 <= timeout / 1000000) by (apply Z.div_pos; lia). lia.
  - eexists w', r. split_and!; [done|done|done].
Qed.
End receiving.

(** ** Preparing *)
Definition bitrate_of (rate : ClassicBitrate) : Z :=
  match rate with
  | Br1M => 1000000 | Br800K => 800000 | Br500K => 500000 | Br250K => 250000
  | Br125K => 125000 | Br100K => 100000 | Br50K => 50000 | Br20K => 20000
  | Br10K => 10000 | Br5K => 5000
  end.
Lemma classic_bitrate_iff b rate : classic_bitrate b = Some rate ↔ b = bitrate_of rate.
Proof.
  unfold classic_bitrate. split.
  - repeat case_match; intros [= <-]; bool_simp; done.
  - intros ->. by destruct rate.
Qed.

Section preparing.
Context (clock_hz ndef ddef : Z).

(** The controller is set up as [request] says. *)
Definition prepared_as (request : CanConfigureConfig) (p : PreparedOpen) : Prop :=
  prepared_active p = mkCanActiveConfig (cfg_mode request) (cfg_nominal request)
    (cfg_data request) (cfg_listen_only request) false PREPARED_CLOCK_DOMAIN ∧
  match prepared_kind p with
  | PreparedClassic rate =>
      cfg_mode request = Classic ∧ cfg_nominal request = mkCanBitTiming (bitrate_of rate) None None
  | PreparedFd timing =>
      cfg_mode request = Fd ∧ ∃ data, cfg_data request = Some data ∧
        represents clock_hz ndef ddef (cfg_nominal request) PhaseNominal (fd_nominal timing) ∧
        represents clock_hz ndef ddef data PhaseData (fd_data timing)
  end.

Lemma exact_phase_represents timing phase p :
  0 < clock_hz → 0 <= bitrate timing → (∀ w, sjw timing = Some w → 0 <= w) →
  exact_phase clock_hz ndef ddef timing phase = Ok p →
  represents clock_hz ndef ddef timing phase p.
Proof.
  intros Hc Hr Hw H.
  destruct (decide (500 <= phase_sample_point ndef ddef timing phase <= 950)) as [Hsp|Hsp].
  - pose proof (exact_phase_nearest clock_hz ndef ddef timing phase Hc Hr Hw Hsp) as Hn.
    rewrite H in Hn. apply Hn.
  - unfold exact_phase in H. destruct ((500 <=? _) && (_ <=? 950)) eqn:E; simpl in H;
      bool_simp; [lia|done].
Qed.

(** The values a timing of the Rust type can hold. *)
Definition timing_nonneg (t : CanBitTiming) : Prop :=
  0 <= bitrate t ∧ ∀ w, sjw t = Some w → 0 <= w.

(** The adapter never opens a channel with other settings than were asked for.  When it
    accepts a configuration request, the mode, the timings and the listen-only flag it
    reports are those of the request, no loopback and no restart delay was asked for, and
    the settings for the controller give exactly the requested bit rate (Classical CAN:
    one of the ten predefined ones, without timing overrides) or represent both phases of
    the requested CAN FD timing exactly; everything else is refused. *)
Theorem prepare_configure_exact request p :
  0 < clock_hz →
  timing_nonneg (cfg_nominal request) →
  (∀ data, cfg_data request = Some data → timing_nonneg data) →
  prepare_configure clock_hz ndef ddef request = Ok p →
  prepared_as request p ∧ cfg_loopback request = false ∧ cfg_restart_ms request = None.
Proof.
  intros Hc [Hn Hns] Hd. unfold prepare_configure.
  destruct (cfg_loopback request); [done|].
  destruct (cfg_restart_ms request); [done|]. simpl.
  intros (active & Ha%map_err_Ok & H)%bind_Ok. apply bind_Ok in H as (kind & Hk & [= <-]).
  split; [|done]. split; simpl.
  { unfold CanActiveConfig_new in Ha. destruct (_ || _) in Ha; [done|].
    destruct (_ || _) in Ha; [done|]. by injection Ha. }
  destruct (cfg_mode request) eqn:Em.
  - destruct (cfg_nominal request) as [b [sp|] [w|]]; simpl in Hk; try done.
    destruct (classic_bitrate b) eqn:Eb; [|done]. injection Hk as <-.
    apply classic_bitrate_iff in Eb as ->. done.
  - apply bind_Ok in Hk as (data & Hdata%ok_or_Ok & Hk).
    apply bind_Ok in Hk as (tn & Htn & Hk). apply bind_Ok in Hk as (td & Htd & [= <-]).
    split; [done|]. exists data. split; [done|]. simpl.
    split; [|destruct (Hd _ Hdata)]; by apply exact_phase_represents.
Qed.
End preparing.

(** ** Closing *)
Section closing.
Context {B : Type} `{DriverChannel B}.

(** Closing a PCAN channel is final.  After [close], failed or not, a second close
    succeeds without touching the backend again, and every other operation is refused
    with [runtime.session.closed] for that resource, again without touching the backend;
    the first close calls the backend's close exactly once and reports its outcome. *)
Theorem pcan_close_final (c c' : NativePcanChannel B) r :
  npc_closed c = false → NativePcanChannel_close c = (c', r) →
  (is_ok r = is_ok (driver_close (npc_backend c)).2 ∧
   npc_backend c' = (driver_close (npc_backend c)).1) ∧
  NativePcanChannel_close c' = (c', Ok ()) ∧
  (∀ t, NativePcanChannel_receive t c' = (c', Err (pcan_closed "can.receive" (npc_descriptor c)))) ∧
  (∀ f, NativePcanChannel_send c' f = (c', Err (pcan_closed "can.send" (npc_descriptor c)))) ∧
  NativePcanChannel_bus_status c' = (c', Err (pcan_closed "can.status" (npc_descriptor c))) ∧
  NativePcanChannel_drop c' = c'.
Proof.
  unfold NativePcanChannel_close at 1. intros ->.
  destruct (driver_close (npc_backend c)) as [b res]. intros [= <- <-]. simpl.
  split; [by destruct res|done].
Qed.
End closing.

Lemma pcan_closed_name op d :
  valid_identifier op →
  err_name (pcan_closed op d) = mkErrorName "runtime.session.closed" ∧
  err_resource_id (pcan_closed op d) = Some (desc_id d).
Proof.
  intros. unfold pcan_closed. by rewrite static_error_eq by (done || solve_valid_identifier).
Qed.

(** ** Witnesses *)
Lemma pcan_frame_roundtrip_witness :
  let f := FdData (IdStandard 0x123) (repeat 0x5a 12) true true in
  from_fd_message (mkPcanMessageFd 0x123 0x1C 9 (fill 64 (repeat 0x5a 12))) = Ok (Some f).
Proof.
  intros f.
  assert (Hv : CanFrame_validate f = Ok ()) by (vm_compute; reflexivity).
  assert (Hn : frame_nonneg f) by (simpl; lia).
  exact (proj1 (pcan_frame_roundtrip f Hv Hn)).
Defined.

(** A driver without traffic whose world is a clock in nanoseconds. *)
Definition quiet_driver : PcanBasic Z := {|
  can_get_value_u32 _ _ w := (w, (PCAN_ERROR_OK, 0));
  can_get_value_text _ _ _ w := (w, (PCAN_ERROR_OK, []));
  can_get_value_channels _ w := (w, (PCAN_ERROR_OK, []));
  can_set_value_u32 _ _ _ w := (w, PCAN_ERROR_OK);
  can_get_status _ w := (w, PCAN_ERROR_OK);
  can_read _ w := (w, (PCAN_ERROR_QRCVEMPTY, (mkPcanMessage 0 0 0 [], mkPcanTimestamp 0 0 0)));
  can_read_fd _ w := (w, (PCAN_ERROR_QRCVEMPTY, (mkPcanMessageFd 0 0 0 [], 0)));
  can_write _ _ w := (w, PCAN_ERROR_OK);
  can_write_fd _ _ w := (w, PCAN_ERROR_OK);
  can_uninitialize _ w := (w, PCAN_ERROR_OK);
  channel_on_bus _ _ w := (w, Ok ());
  connect_classic _ _ _ w := (w, Ok ());
  connect_fd _ _ _ w := (w, Ok ());
  drop_owner _ w := w;
  instant_now w := (w + 1, w + 1);
  thread_sleep d w := w + d;
  uuid_new_v4 w := (w, "00000000-0000-4000-8000-000000000000");
|}.
Definition quiet_channel : RealChannel := mkRealChannel 0x51 Classic "pcan" (Some ConnectedClassic).

(** Ten milliseconds without a frame. *)
Lemma pcan_receive_returns_witness :
  ∃ w' r, RealChannel_receive (H := quiet_driver) quiet_channel 10000000 5 = Some (w', r) ∧
    (rc_owner quiet_channel = None → w' = 5 ∧ r = Err DriverClosed) ∧
    (is_Some (rc_owner quiet_channel) →
       receive_outcome (λ w : Z, w) quiet_channel 10000000 10000006 w' r).
Proof.
  apply (pcan_receive_returns (H := quiet_driver) (λ w : Z, w)).
  - intros w w' t [= <- <-]. split; [done|]. lia.
  - intros d w. simpl. lia.
  - intros h w. simpl. lia.
  - intros h w. simpl. lia.
  - lia.
  - unfold instant_max. simpl. lia.
Defined.

Definition example_request : CanConfigureConfig :=
  mkCanConfigureConfig Fd example_timing (Some (mkCanBitTiming 2000000 (Some 800) (Some 2)))
    true false None.

Lemma prepare_configure_exact_witness :
  ∃ p, prepare_configure 80000000 875 800 example_request = Ok p ∧
    prepared_as 80000000 875 800 example_request p.
Proof.
  assert (Hrun : is_ok (prepare_configure 80000000 875 800 example_request) = true)
    by (vm_compute; reflexivity).
  destruct (prepare_configure 80000000 875 800 example_request) as [p|] eqn:E; [|discriminate].
  exists p. split; [reflexivity|].
  apply (prepare_configure_exact 80000000 875 800 example_request p).
  - lia.
  - split; [simpl; lia|]. intros w [= <-]. lia.
  - intros data [= <-]. split; [simpl; lia|]. intros w [= <-]. lia.
  - exact E.
Defined.

Definition example_pcan_channel : NativePcanChannel (RealChannel * Z) :=
  NativePcanChannel_new example_descriptor
    (mkCanActiveConfig Classic (mkCanBitTiming 500000 None None) None false false "pcan")
    (quiet_channel, 0).

Lemma pcan_close_final_witness :
  let c' := (NativePcanChannel_close (H := @real_driver_channel _ quiet_driver)
               example_pcan_channel).1 in
  NativePcanChannel_close (H := @real_driver_channel _ quiet_driver) c' = (c', Ok ()).
Proof.
  intros c'.
  assert (Hrun : NativePcanChannel_close (H := @real_driver_channel _ quiet_driver)
    example_pcan_channel = (c', Ok ())) by (vm_compute; reflexivity).
  exact (proj1 (proj2 (pcan_close_final (H := @real_driver_channel _ quiet_driver)
    example_pcan_channel c' (Ok ()) eq_refl Hrun))).
Defined.
