(* ===== verification/AdapterIdentity.v ===== *)
(** * Identities of the native adapters

    Models the identity.rs of adapters/{pcan,serialport,socketcan,linux-gpio,nusb}: how the
    metadata of a device becomes the identifier under which the HAL knows it, and how much
    that identifier is worth.  The percent encoding of the crate percent-encoding is a
    parameter: a function of the set of characters to encode and of the text. *)

From S2P Require Import Prelude Core Native.
From Stdlib Require Import Ascii.
Open Scope Z_scope.

(** [AsciiSet]: the characters to encode. *)
Definition AsciiSet : Type := ascii → bool.
Definition AsciiSet_add (s : AsciiSet) (c : ascii) : AsciiSet := λ d, bool_decide (d = c) || s d.
Definition CONTROLS : AsciiSet := λ c, (byte_of c <? 32) || (byte_of c =? 127).
(** serialport and socketcan; gpio and nusb. *)
Definition IDENTITY_ENCODE_SET : AsciiSet :=
  foldl AsciiSet_add CONTROLS
    [" "; "%"; "/"; "?"; "#"; "["; "]"; "@"; "!"; "$"; "&"; "'"; "("; ")"; "*"; "+"; ","; ";";
     "="; ":"]%char.
Definition ENCODE_SET : AsciiSet :=
  foldl AsciiSet_add CONTROLS [" "; "%"; "/"; "?"; "#"; ":"]%char.

(** [value.map(str::trim).filter(|v| !v.is_empty())]. *)
Definition non_empty (value : option string) : option string :=
  value ≫= λ v, let v := str_trim v in if str_is_empty v then None else Some v.

(** What every adapter's identity is. *)
Record Identity := mkIdentity { ident_id : ResourceId; ident_quality : IdentityQuality }.
Definition identity (id : string) (quality : IdentityQuality) : HalResult Identity :=
  ResourceId_parse id ≫= λ id, Ok (mkIdentity id quality).

(** ** adapters/pcan *)
Record PcanChannelMetadata := mkPcanChannelMetadata {
  pcan_handle : Z;
  pcan_device_type : Z;
  pcan_controller_number : Z;
  pcan_device_name : option string;
  pcan_device_id : option Z;
}.
Definition pcan_endpoint (handle : Z) : string := "pcan://0x" +:+ hex true 4 handle.
Definition pcan_device_identity (device_type device_id controller_number : Z) : string :=
  "can:pcan:device:" +:+ hex true 2 device_type +:+ ":" +:+ hex true 8 device_id +:+ ":"
  +:+ hex true 2 controller_number.
Definition pcan_identity_from_metadata (metadata : PcanChannelMetadata) : HalResult Identity :=
  Endpoint_new (pcan_endpoint (pcan_handle metadata)) ≫= λ _,
  match pcan_device_id metadata with
  | Some device_id =>
      if negb (device_id =? 0) then
        identity (pcan_device_identity (pcan_device_type metadata) device_id
                    (pcan_controller_number metadata)) Strong
      else identity ("can:pcan:handle:" +:+ hex true 4 (pcan_handle metadata)) Weak
  | None => identity ("can:pcan:handle:" +:+ hex true 4 (pcan_handle metadata)) Weak
  end.

Section encoded.
Context (utf8_percent_encode : AsciiSet → string → string).

Definition encode_segment (value : string) : string := utf8_percent_encode IDENTITY_ENCODE_SET value.
Definition identity_encode (value : string) : string := utf8_percent_encode ENCODE_SET value.

(** ** adapters/serialport *)
Record UsbPortMetadata := mkUsbPortMetadata {
  port_vid : Z;
  port_pid : Z;
  port_serial_number : option string;
  port_manufacturer : option string;
  port_product : option string;
}.
Definition identity_from_endpoint (endpoint : string) : HalResult Identity :=
  Endpoint_new endpoint ≫= λ _,
  identity ("serial:endpoint:" +:+ encode_segment endpoint) Weak.
Definition identity_from_usb_metadata (endpoint : string) (metadata : UsbPortMetadata)
    : HalResult Identity :=
  match non_empty (port_serial_number metadata) with
  | Some serial_number =>
      identity ("serial:usb:" +:+ hex false 4 (port_vid metadata) +:+ ":"
                +:+ hex false 4 (port_pid metadata) +:+ ":" +:+ encode_segment serial_number) Strong
  | None => identity_from_endpoint endpoint
  end.

(** ** adapters/socketcan *)
Record CanInterfaceMetadata := mkCanInterfaceMetadata {
  if_interface : string;
  if_serial : option string;
  if_stable_path : option string;
  if_topology : option string;
  if_virtual : bool;
}.
Definition endpoint_identity (interface : string) : HalResult Identity :=
  identity ("can:endpoint:" +:+ encode_segment interface) Weak.
Definition can_identity_from_metadata (metadata : CanInterfaceMetadata) : HalResult Identity :=
  Endpoint_new (if_interface metadata) ≫= λ _,
  if if_virtual metadata then endpoint_identity (if_interface metadata)
  else match non_empty (if_serial metadata) with
  | Some serial => identity ("can:serial:" +:+ encode_segment serial) Strong
  | None =>
  match non_empty (if_stable_path metadata) with
  | Some path => identity ("can:path:" +:+ encode_segment path) Medium
  | None =>
  match non_empty (if_topology metadata) with
  | Some topology => identity ("can:topology:" +:+ encode_segment topology) Medium
  | None => endpoint_identity (if_interface metadata)
  end end end.

(** ** adapters/linux-gpio *)
Record GpioChipMetadata := mkGpioChipMetadata {
  chip_path : string;
  chip_kernel_name : string;
  chip_label : option string;
  chip_line_count : Z;
}.
Definition gpio_identity_from_metadata (metadata : GpioChipMetadata) : HalResult Identity :=
  identity ("gpio:chip:" +:+ identity_encode (chip_kernel_name metadata)) Strong.

(** ** adapters/nusb *)
Record UsbDeviceMetadata := mkUsbDeviceMetadata {
  usb_vendor_id : Z;
  usb_product_id : Z;
  usb_serial_number : option string;
  usb_topology : string;
}.
Definition usb_identity_from_metadata (metadata : UsbDeviceMetadata) : HalResult Identity :=
  let '(id, quality) :=
    match non_empty (usb_serial_number metadata) with
    | Some serial =>
        ("usb:device:" +:+ hex false 4 (usb_vendor_id metadata) +:+ ":"
         +:+ hex false 4 (usb_product_id metadata) +:+ ":" +:+ identity_encode serial, Strong)
    | None => ("usb:topology:" +:+ identity_encode (usb_topology metadata), Weak)
    end in
  identity id quality.
End encoded.

(** ** Hexadecimal numerals are injective *)
Definition hex_digit_value (c : ascii) : Z :=
  let b := byte_of c in if b <? 58 then b - 48 else if b <? 97 then b - 55 else b - 87.
Fixpoint unhex (acc : Z) (s : string) : Z :=
  match s with EmptyString => acc | String c s => unhex (acc * 16 + hex_digit_value c) s end.

Lemma hex_digit_spec up d :
  0 <= d < 16 → hex_digit_value (hex_digit up d) = d ∧ hex_digit up d ≠ ":"%char.
Proof.
  intros Hd. assert (d ∈ seqZ 0 16) as Hin by (apply elem_of_seqZ; lia). clear Hd.
  revert d Hin. apply Forall_forall.
  destruct up; repeat constructor; by vm_compute.
Qed.

Lemma hex_digit_inj up d e :
  hex_digit up d = hex_digit up e → 0 <= d < 16 → 0 <= e < 16 → d = e.
Proof. intros E [<- _]%(hex_digit_spec up) [<- _]%(hex_digit_spec up). by rewrite E. Qed.

Lemma unhex_loop up fuel x s :
  0 <= x < 16 ^ Z.of_nat fuel → unhex 0 (hex_loop up fuel x s) = unhex x s.
Proof.
  revert x s. induction fuel as [|fuel IH]; intros x s Hx; cbn [hex_loop].
  { change (16 ^ Z.of_nat 0) with 1 in Hx. by replace x with 0 by lia. }
  rewrite Nat2Z.inj_succ, Z.pow_succ_r in Hx by lia.
  pose proof (Z.mod_pos_bound x 16). pose proof (Z.div_mod x 16).
  destruct (hex_digit_spec up (x mod 16)) as [Hv _]; [lia|].
  destruct (x / 16 =? 0) eqn:E; bool_simp.
  - simpl. rewrite Hv. f_equal. lia.
  - rewrite IH by (split; [apply Z.div_pos; lia|apply Z.div_lt_upper_bound; lia]).
    simpl. rewrite Hv. f_equal. lia.
Qed.

Lemma unhex_pad n s : unhex 0 (pad_zero n s) = unhex 0 s.
Proof. induction n as [|n IH]; [done|]. by cbn. Qed.

Lemma unhex_hex up w x : 0 <= x < 2 ^ 64 → unhex 0 (hex up w x) = x.
Proof. intros. unfold hex. by rewrite unhex_pad, unhex_loop. Qed.

Lemma hex_inj up w x y : 0 <= x < 2 ^ 64 → 0 <= y < 2 ^ 64 → hex up w x = hex up w y → x = y.
Proof. intros Hx Hy E. by rewrite <- (unhex_hex up w x), <- (unhex_hex up w y), E by done. Qed.

Lemma hex_free up w x : 0 <= x → str_free ":"%char (hex up w x).
Proof.
  intros Hx. unfold hex. generalize (w - String.length (hex_loop up 16 x EmptyString))%nat as n.
  induction n as [|n IHn]; cbn [pad_zero]; [|by apply str_free_cons].
  assert (str_free ":"%char EmptyString) as Hs by done. revert x Hx Hs. generalize EmptyString as s.
  generalize 16%nat as fuel. induction fuel as [|fuel IH]; intros s x Hx Hs; cbn [hex_loop]; [done|].
  pose proof (Z.mod_pos_bound x 16 ltac:(lia)).
  assert (str_free ":"%char (String (hex_digit up (x mod 16)) s)).
  { apply str_free_cons. split; [by apply hex_digit_spec|done]. }
  destruct (x / 16 =? 0); [done|]. apply IH; [apply Z.div_pos; lia|done].
Qed.

(** ** Identities tell devices apart *)

(** What an identity is made of, whichever adapter made it. *)
Inductive IdentityKey :=
  | KeyPcanDevice (device_type device_id controller_number : Z)
  | KeyPcanHandle (handle : Z)
  | KeySerialUsb (vid pid : Z) (serial : string)
  | KeySerialEndpoint (endpoint : string)
  | KeyCanSerial (serial : string) | KeyCanPath (path : string)
  | KeyCanTopology (topology : string) | KeyCanEndpoint (interface : string)
  | KeyGpioChip (name : string)
  | KeyUsbDevice (vendor product : Z) (serial : string) | KeyUsbTopology (topology : string).
Inductive AdapterMetadata :=
  | MetaPcan (metadata : PcanChannelMetadata)
  | MetaSerial (endpoint : string) (metadata : option UsbPortMetadata)
  | MetaCan (metadata : CanInterfaceMetadata)
  | MetaGpio (metadata : GpioChipMetadata)
  | MetaUsb (metadata : UsbDeviceMetadata).

Definition identity_key (m : AdapterMetadata) : IdentityKey :=
  match m with
  | MetaPcan m =>
      match pcan_device_id m with
      | Some id =>
          if id =? 0 then KeyPcanHandle (pcan_handle m)
          else KeyPcanDevice (pcan_device_type m) id (pcan_controller_number m)
      | None => KeyPcanHandle (pcan_handle m)
      end
  | MetaSerial endpoint m =>
      match m ≫= λ m, (λ serial, (m, serial)) <$> non_empty (port_serial_number m) with
      | Some (m, serial) => KeySerialUsb (port_vid m) (port_pid m) serial
      | None => KeySerialEndpoint endpoint
      end
  | MetaCan m =>
      if if_virtual m then KeyCanEndpoint (if_interface m)
      else match non_empty (if_serial m), non_empty (if_stable_path m), non_empty (if_topology m) with
           | Some serial, _, _ => KeyCanSerial serial
           | None, Some path, _ => KeyCanPath path
           | None, None, Some topology => KeyCanTopology topology
           | None, None, None => KeyCanEndpoint (if_interface m)
           end
  | MetaGpio m => KeyGpioChip (chip_kernel_name m)
  | MetaUsb m =>
      match non_empty (usb_serial_number m) with
      | Some serial => KeyUsbDevice (usb_vendor_id m) (usb_product_id m) serial
      | None => KeyUsbTopology (usb_topology m)
      end
  end.

(** The quality that the adapters state for each kind of evidence. *)
Definition key_quality (k : IdentityKey) : IdentityQuality :=
  match k with
  | KeyPcanDevice _ _ _ | KeySerialUsb _ _ _ | KeyCanSerial _ | KeyGpioChip _
  | KeyUsbDevice _ _ _ => Strong
  | KeyCanPath _ | KeyCanTopology _ => Medium
  | KeyPcanHandle _ | KeySerialEndpoint _ | KeyCanEndpoint _ | KeyUsbTopology _ => Weak
  end.

(** The evidence is stored in the device itself: a serial number, or the device number that a
    PCAN device keeps in its memory. *)
Definition device_borne (k : IdentityKey) : bool :=
  match k with
  | KeyPcanDevice _ _ _ | KeySerialUsb _ _ _ | KeyCanSerial _ | KeyUsbDevice _ _ _ => true
  | _ => false
  end.
(** The numbers of a key are those of the Rust fields: [u8], [u16] and [u32] values. *)
Definition key_bounded (k : IdentityKey) : Prop :=
  let ok x := 0 <= x < 2 ^ 64 in
  match k with
  | KeyPcanDevice t d c => ok t ∧ ok d ∧ ok c
  | KeyPcanHandle h => ok h
  | KeySerialUsb a b _ | KeyUsbDevice a b _ => ok a ∧ ok b
  | _ => True
  end.

Section distinct.
Context (encode : AsciiSet → string → string).

Definition adapter_identity (m : AdapterMetadata) : HalResult Identity :=
  match m with
  | MetaPcan m => pcan_identity_from_metadata m
  | MetaSerial endpoint (Some m) => identity_from_usb_metadata encode endpoint m
  | MetaSerial endpoint None => identity_from_endpoint encode endpoint
  | MetaCan m => can_identity_from_metadata encode m
  | MetaGpio m => gpio_identity_from_metadata encode m
  | MetaUsb m => usb_identity_from_metadata encode m
  end.

Definition render_key (k : IdentityKey) : string :=
  match k with
  | KeyPcanDevice t d c => pcan_device_identity t d c
  | KeyPcanHandle h => "can:pcan:handle:" +:+ hex true 4 h
  | KeySerialUsb vid pid serial =>
      "serial:usb:" +:+ hex false 4 vid +:+ ":" +:+ hex false 4 pid +:+ ":"
      +:+ encode_segment encode serial
  | KeySerialEndpoint endpoint => "serial:endpoint:" +:+ encode_segment encode endpoint
  | KeyCanSerial serial => "can:serial:" +:+ encode_segment encode serial
  | KeyCanPath path => "can:path:" +:+ encode_segment encode path
  | KeyCanTopology topology => "can:topology:" +:+ encode_segment encode topology
  | KeyCanEndpoint interface => "can:endpoint:" +:+ encode_segment encode interface
  | KeyGpioChip name => "gpio:chip:" +:+ identity_encode encode name
  | KeyUsbDevice vendor product serial =>
      "usb:device:" +:+ hex false 4 vendor +:+ ":" +:+ hex false 4 product +:+ ":"
      +:+ identity_encode encode serial
  | KeyUsbTopology topology => "usb:topology:" +:+ identity_encode encode topology
  end.

Lemma identity_Ok id q i :
  identity id q = Ok i ↔ validate_identifier "resource.id" id = Ok () ∧ i = mkIdentity (mkResourceId id) q.
Proof.
  unfold identity, ResourceId_parse. destruct (validate_identifier _ _) as [[]|]; simpl; naive_solver.
Qed.

Lemma adapter_identity_key m i :
  adapter_identity m = Ok i →
  i = mkIdentity (mkResourceId (render_key (identity_key m))) (key_quality (identity_key m)).
Proof.
  destruct m as [m|endpoint [m|]|m|m|m]; simpl.
  - unfold pcan_identity_from_metadata. intros (_ & _ & H)%bind_Ok.
    destruct (pcan_device_id m) as [d|]; [destruct (d =? 0)|]; simpl in *; by apply identity_Ok in H as [_ ->].
  - unfold identity_from_usb_metadata. destruct (non_empty _); simpl; [by intros [??]%identity_Ok|].
    by intros (_ & _ & [??]%identity_Ok)%bind_Ok.
  - by intros (_ & _ & [??]%identity_Ok)%bind_Ok.
  - unfold can_identity_from_metadata, endpoint_identity. intros (_ & _ & H)%bind_Ok.
    repeat case_match; by apply identity_Ok in H as [_ ->].
  - by intros [??]%identity_Ok.
  - unfold usb_identity_from_metadata. destruct (non_empty _); by intros [??]%identity_Ok.
Qed.

Lemma str_app_cons c s t : String c s +:+ t = String c (s +:+ t).
Proof. done. Qed.
Lemma str_app_nil t : EmptyString +:+ t = t.
Proof. done. Qed.

Lemma separated_inj c a b x y :
  str_free c a → str_free c b → a +:+ String c x = b +:+ String c y → a = b ∧ x = y.
Proof.
  intros Ha Hb E.
  assert (split_once c (a +:+ String c x) = Some (a, x)) as E1 by by apply split_once_Some.
  assert (split_once c (b +:+ String c y) = Some (b, y)) as E2 by by apply split_once_Some.
  rewrite E, E2 in E1. by injection E1.
Qed.

(** The documented property of percent encoding with a set that contains the percent sign. *)
Hypothesis encode_inj : ∀ s a b, s "%"%char = true → encode s a = encode s b → a = b.

Lemma encode_segment_inj a b : encode_segment encode a = encode_segment encode b → a = b.
Proof. by apply encode_inj. Qed.
Lemma identity_encode_inj a b : identity_encode encode a = identity_encode encode b → a = b.
Proof. by apply encode_inj. Qed.

(** Peel off a common prefix, then the numerals before each separator. *)
Ltac peel := repeat match goal with
  | H : String _ _ = String _ _ |- _ => injection H as H
  | H : _ +:+ String ?c _ = _ +:+ String ?c _ |- _ =>
      let E := fresh in
      apply separated_inj in H as [E H]; [apply hex_inj in E; [|lia..]|apply hex_free; lia..]
  | H : encode_segment _ _ = encode_segment _ _ |- _ => apply encode_segment_inj in H
  | H : identity_encode _ _ = identity_encode _ _ |- _ => apply identity_encode_inj in H
  | H : hex _ _ _ = hex _ _ _ |- _ => apply hex_inj in H; [|lia..]
  end.

Lemma render_key_inj k k' :
  key_bounded k → key_bounded k' → render_key k = render_key k' → k = k'.
Proof.
  destruct k, k'; simpl; unfold pcan_device_identity; rewrite ?str_app_cons, ?str_app_nil;
    intros Hk Hk' E; try discriminate E; peel. all: naive_solver.
Qed.

(** C22: Identifiers tell devices apart, within an adapter and across adapters.  Two devices
    whose identities are accepted and equal were identified by the same evidence with the
    same value: the same PCAN device number, type and controller, the same vendor, product
    and trimmed serial number, the same path, the same endpoint, the same kernel name of a GPIO
    chip; and the identities then have the same quality.  The quality is strong exactly for
    evidence that the device itself carries and for GPIO chips, though a chip is known only by
    the name that the kernel gave it. *)
Theorem adapter_identities_distinct m m' i i' :
  key_bounded (identity_key m) → key_bounded (identity_key m') →
  adapter_identity m = Ok i → adapter_identity m' = Ok i' →
  (ident_id i = ident_id i' ↔ identity_key m = identity_key m') ∧
  (ident_id i = ident_id i' → ident_quality i = ident_quality i') ∧
  (ident_quality i = Strong ↔
     device_borne (identity_key m) = true ∨ ∃ name, identity_key m = KeyGpioChip name).
Proof.
  intros Hb Hb' ->%adapter_identity_key ->%adapter_identity_key. simpl.
  assert (mkResourceId (render_key (identity_key m)) = mkResourceId (render_key (identity_key m'))
    ↔ identity_key m = identity_key m') as Hid.
  { split; [|by intros ->]. intros [= E]. by apply render_key_inj. }
  split; [done|]. split; [by intros ->%Hid|].
  destruct (identity_key m); simpl; naive_solver.
Qed.
End distinct.

(** ** A percent encoder, for the witness *)
Fixpoint example_encode (set : AsciiSet) (value : string) : string :=
  match value with
  | EmptyString => EmptyString
  | String c value =>
      if set c || (128 <=? byte_of c) then
        String "%" (String (hex_digit true (byte_of c / 16)) (String (hex_digit true (byte_of c mod 16))
          (example_encode set value)))
      else String c (example_encode set value)
  end.

Lemma example_encode_inj set a b :
  set "%"%char = true → example_encode set a = example_encode set b → a = b.
Proof.
  intros Hp. revert b. induction a as [|c a IH]; intros [|d b]; cbn; repeat case_match; try done.
  - intros [= E1 E2 E%IH]. f_equal; [|done]. apply byte_of_inj.
    pose proof (byte_of_bounds c). pose proof (byte_of_bounds d).
    apply hex_digit_inj in E1;
      [|split; [apply Z.div_pos; lia|apply Z.div_lt_upper_bound; lia]..].
    apply hex_digit_inj in E2; [|apply Z.mod_pos_bound; lia..].
    pose proof (Z.div_mod (byte_of c) 16). pose proof (Z.div_mod (byte_of d) 16). lia.
  - intros [= <- _]. by rewrite Hp in *.
  - intros [= -> _]. by rewrite Hp in *.
  - intros [= -> E%IH]. by f_equal.
Qed.

Definition example_usb : AdapterMetadata :=
  MetaUsb (mkUsbDeviceMetadata 0x2341 0x43 (Some " A:1 ") "1-2").
Definition example_usb_untrimmed : AdapterMetadata :=
  MetaUsb (mkUsbDeviceMetadata 0x2341 0x43 (Some "A:1") "1-3").

Lemma adapter_identities_distinct_witness :
  ∃ i i', adapter_identity example_encode example_usb = Ok i ∧
    adapter_identity example_encode example_usb_untrimmed = Ok i' ∧ ident_id i = ident_id i'.
Proof.
  set (i := mkIdentity (mkResourceId "usb:device:2341:0043:A%3A1") Strong).
  assert (H1 : adapter_identity example_encode example_usb = Ok i) by (vm_compute; reflexivity).
  assert (H2 : adapter_identity example_encode example_usb_untrimmed = Ok i)
    by (vm_compute; reflexivity).
  exists i, i. split; [exact H1|]. split; [exact H2|].
  apply (proj2 (proj1 (adapter_identities_distinct example_encode example_encode_inj
    example_usb example_usb_untrimmed i i
    ltac:(vm_compute; intuition congruence) ltac:(vm_compute; intuition congruence) H1 H2))).
  vm_compute. reflexivity.
Defined.
