(* ===== verification/PcanAdapter.v ===== *)
(** * adapters/pcan: discovery and opening

    Models adapters/pcan/src/lib.rs for the platforms that have PCAN-Basic: the descriptors
    of the attached channels and the opening of the one that a selector names.  The
    blocking worker that the two run on is the scheduler's. *)

From S2P Require Import Prelude Core CanTypes Native PcanTiming PcanChannel AdapterIdentity.

Definition bool_to_string (b : bool) : string := if b then "true" else "false".

Definition pcan_metadata (device : DriverDevice) : PcanChannelMetadata :=
  mkPcanChannelMetadata (dev_handle device) (dev_type device) (dev_controller_number device)
    (dev_name device) (dev_id device).
Definition pcan_properties (device : DriverDevice) : gmap string string :=
  let properties : gmap string string :=
    <["channel_condition" := "0x" +:+ hex true 8 (dev_channel_condition device)]>
    (<["fd_capable" := bool_to_string (dev_fd_capable device)]>
    (<["controller_number" := to_string (dev_controller_number device)]>
    (<["device_type" := "0x" +:+ hex true 2 (dev_type device)]>
    (<["handle" := "0x" +:+ hex true 4 (dev_handle device)]>
    (<["adapter" := "pcan"]> ∅))))) in
  let properties :=
    match dev_name device with
    | Some name => <["hardware_name" := name]> properties
    | None => properties
    end in
  match dev_id device with
  | Some id => <["vendor_device_id" := "0x" +:+ hex true 8 id]> properties
  | None => properties
  end.
Definition descriptor_from_device (device : DriverDevice) : HalResult ResourceDescriptor :=
  pcan_identity_from_metadata (pcan_metadata device) ≫= λ identity,
  let capabilities :=
    [can_classic_capability; can_configure_capability; can_rx_timestamp_capability]
    ++ (if dev_fd_capable device then [can_fd_capability] else []) in
  Endpoint_new (pcan_endpoint (dev_handle device)) ≫= λ endpoint,
  Ok (mkResourceDescriptor (ident_id identity) endpoint (ident_quality identity) Can
        (mkResourceProperties (pcan_properties device)) (mkCapabilitySet capabilities)).

(** The [Driver] trait: discovery, and opening a device as a channel [B]. *)
Class Driver (D B : Type) := {
  driver_discover : D → D * result DriverError (list DriverDevice);
  driver_open (device : DriverDevice) (config : CanOpenConfig) :
    D → D * result DriverError (B * CanActiveConfig);
}.

Section adapter.
Context {D B : Type} `{Driver D B}.

Definition pcan_enumerate_sync : native D HalError (list ResourceDescriptor) :=
  native_map_err (λ error, map_driver_error "can.enumerate" error None) driver_discover
    ≫= λ devices, native_lift (collect descriptor_from_device devices).

Definition paired_descriptor (device : DriverDevice) : HalResult (ResourceDescriptor * DriverDevice) :=
  (λ descriptor, (descriptor, device)) <$> descriptor_from_device device.

(** The descriptor that the selector resolves to, with its device; [None] is the panic of
    the [expect], which [pcan_select_total] rules out. *)
Definition pcan_select (devices : list DriverDevice) (selector : ResourceSelector)
    : option (HalResult (ResourceDescriptor * DriverDevice)) :=
  match collect paired_descriptor devices with
  | Err e => Some (Err e)
  | Ok paired =>
      match resolve_resource paired.*1 selector can_classic_capability "can.open" with
      | Err e => Some (Err e)
      | Ok descriptor =>
          match List.find
                  (λ p, bool_decide (desc_endpoint p.1 = desc_endpoint descriptor)) paired with
          | Some (_, device) => Some (Ok (descriptor, device))
          | None => None
          end
      end
  end.

Definition pcan_open_sync (selector : ResourceSelector) (config : CanOpenConfig) (w : D)
    : option (D * HalResult (NativePcanChannel B)) :=
  match driver_discover w with
  | (w, Err error) => Some (w, Err (map_driver_error "can.open" error (Some (sel_id selector))))
  | (w, Ok devices) =>
      match pcan_select devices selector with
      | None => None
      | Some (Err e) => Some (w, Err e)
      | Some (Ok (descriptor, device)) =>
          let '(w, opened) := driver_open device config w in
          Some (w, match opened with
                   | Err error =>
                       Err (map_driver_error "can.open" error (Some (desc_id descriptor)))
                   | Ok (backend, active) => Ok (NativePcanChannel_new descriptor active backend)
                   end)
      end
  end.
End adapter.

(** ** Selecting *)
Lemma paired_elem devices paired d dev :
  collect paired_descriptor devices = Ok paired → (d, dev) ∈ paired →
  dev ∈ devices ∧ descriptor_from_device dev = Ok d.
Proof.
  intros Hc%collect_Ok Hin. apply list_elem_of_lookup in Hin as [i Hi].
  destruct (Forall2_lookup_r _ _ _ _ _ Hc Hi) as (x & Hx & Hp).
  unfold paired_descriptor in Hp. destruct (descriptor_from_device x) eqn:E; [|done].
  injection Hp as <- <-. split; [by eapply list_elem_of_lookup_2|done].
Qed.

(** Opening a PCAN channel opens the device that was selected.  Whatever the driver
    discovers, the selection never panics; when it succeeds, the descriptor is the unique
    discovered one with the selector's identifier, transport and quality, and, provided that
    no two discovered devices share a handle, the device that is opened is the very one
    that this descriptor describes. *)
Theorem pcan_select_correct devices selector :
  ∃ r, pcan_select devices selector = Some r ∧
    ∀ descriptor device, r = Ok (descriptor, device) →
      device ∈ devices ∧ descriptor_matches selector can_classic_capability descriptor = true ∧
      ((∀ a b, a ∈ devices → b ∈ devices → pcan_endpoint (dev_handle a) = pcan_endpoint (dev_handle b) →
          a = b) → descriptor_from_device device = Ok descriptor).
Proof.
  unfold pcan_select. destruct (collect _ devices) as [paired|e] eqn:Ec; [|by eexists].
  destruct (resolve_resource _ _ _ _) as [d|e] eqn:Er; [|by eexists].
  apply resolve_resource_elem in Er as [Hd Hm].
  apply list_elem_of_fmap in Hd as ([d' dev] & -> & Hin). simpl in *.
  destruct (List.find _ paired) as [[d2 dev2]|] eqn:Ef.
  2:{ exfalso. pose proof (find_none _ _ Ef _ (proj1 (list_elem_of_In _ _) Hin)) as Hn.
      simpl in Hn. by bool_simp. }
  eexists. split; [done|]. intros descriptor device [= <- <-].
  apply find_some in Ef as [Hin2%list_elem_of_In He]. simpl in He. bool_simp.
  destruct (paired_elem _ _ _ _ Ec Hin) as [Hdev Hdd].
  destruct (paired_elem _ _ _ _ Ec Hin2) as [Hdev2 Hdd2].
  split; [done|]. split; [done|]. intros Huniq.
  rewrite (Huniq dev2 dev Hdev2 Hdev); [done|].
  unfold descriptor_from_device in Hdd, Hdd2.
  apply bind_Ok in Hdd as (? & _ & (? & He1 & [= <-])%bind_Ok).
  apply bind_Ok in Hdd2 as (? & _ & (? & He2 & [= <-])%bind_Ok). simpl in He.
  unfold Endpoint_new in He1, He2. repeat case_match; simplify_eq; unfold pcan_endpoint; congruence.
Qed.
