(* ===== verification/SocketcanLink.v ===== *)
(** * adapters/socketcan: the link and its configuration lease

    Models adapters/socketcan/src/link.rs and the part of identity.rs that reads sysfs.  The
    kernel's netlink interface (the crate socketcan), the control-mode sets of that crate and
    the file system are classes over the state [K] of the kernel; a lease acts on one
    interface, so the handle that the code keeps is not part of the lease. *)

From S2P Require Import Prelude Core CanTypes Native AdapterIdentity.
From Stdlib Require Import Ascii.
Open Scope Z_scope.

Definition CLOCK_DOMAIN : string := "host-monotonic".

(** ** The types of the crate socketcan that link.rs reads *)
Inductive CanCtrlMode :=
  | CtrlLoopback | CtrlListenOnly | CtrlTripleSampling | CtrlOneShot | CtrlBerrReporting
  | CtrlFd | CtrlPresumeAck | CtrlNonIso | CtrlCcLen8Dlc.
Global Instance CanCtrlMode_eq_dec : EqDecision CanCtrlMode.
Proof. solve_decision. Defined.
(** A set of control modes is opaque: it is built and queried mode by mode. *)
Class CanCtrlModes (M : Type) := {
  modes_default : M;
  modes_add : M → CanCtrlMode → bool → M;
  has_mode : M → CanCtrlMode → bool;
}.
Inductive Mtu := MtuStandard | MtuFd.
Global Instance Mtu_eq_dec : EqDecision Mtu.
Proof. solve_decision. Defined.
Inductive CanState :=
  | StateErrorActive | StateErrorWarning | StateErrorPassive | StateBusOff | StateStopped
  | StateSleeping.
Record KernelTiming := mkKernelTiming {
  kt_bitrate : Z; kt_sample_point : Z; kt_tq : Z; kt_prop_seg : Z;
  kt_phase_seg1 : Z; kt_phase_seg2 : Z; kt_sjw : Z; kt_brp : Z;
}.
Global Instance KernelTiming_eq_dec : EqDecision KernelTiming.
Proof. solve_decision. Defined.
Definition KernelTiming_default : KernelTiming := mkKernelTiming 0 0 0 0 0 0 0 0.
(** Of the constants of a controller only their presence is read. *)
Record InterfaceCanParams (M : Type) := mkInterfaceCanParams {
  can_bit_timing : option KernelTiming;
  can_data_bit_timing : option KernelTiming;
  can_ctrl_mode : option M;
  can_restart_ms : option Z;
  can_termination : option Z;
  can_state : option CanState;
  can_berr_counter : option (Z * Z);
  has_bit_timing_const : bool;
  has_data_bit_timing_const : bool;
}.
Global Arguments mkInterfaceCanParams {M}.
Global Arguments can_bit_timing {M}.
Global Arguments can_data_bit_timing {M}.
Global Arguments can_ctrl_mode {M}.
Global Arguments can_restart_ms {M}.
Global Arguments can_termination {M}.
Global Arguments can_state {M}.
Global Arguments can_berr_counter {M}.
Global Arguments has_bit_timing_const {M}.
Global Arguments has_data_bit_timing_const {M}.
Record InterfaceDetails (M : Type) := mkInterfaceDetails {
  if_name : option string;
  if_index : Z;
  if_is_up : bool;
  if_mtu : option Mtu;
  if_can : InterfaceCanParams M;
}.
Global Arguments mkInterfaceDetails {M}.
Global Arguments if_name {M}.
Global Arguments if_index {M}.
Global Arguments if_is_up {M}.
Global Arguments if_mtu {M}.
Global Arguments if_can {M}.
(** A netlink error: one the kernel answered with, one of the socket, or another. *)
Inductive NlError :=
  | NlMsgErr (error : Z) (text : string)
  | NlWrappedIo (error : OsError)
  | NlOther (text : string).

(** The kernel: netlink requests on the interface, and the files of sysfs. *)
Class Netlink (K M : Type) := {
  nl_open : string → K → K * result OsError unit;
  nl_details : K → K * result NlError (InterfaceDetails M);
  nl_bring_down : K → K * result NlError unit;
  nl_bring_up : K → K * result NlError unit;
  nl_set_mtu : Mtu → K → K * result NlError unit;
  nl_set_can_params : InterfaceCanParams M → K → K * result NlError unit;
  fs_canonicalize : K → string → option string;
  fs_read_to_string : K → string → option string;
}.

(** ** Errors *)
Definition i32_saturating_neg (x : Z) : Z := if x =? - 2 ^ 31 then 2 ^ 31 - 1 else - x.

Definition os_link_error (operation : string) (raw_code : Z) (message : string) : HalError :=
  let '(name, category, retryable) :=
    if is_one_of raw_code [Errno.EPERM; Errno.EACCES] then
      ("runtime.transport.permission_denied", Conflict, false)
    else if is_one_of raw_code [Errno.EINVAL; Errno.EOPNOTSUPP; Errno.ERANGE] then
      ("runtime.transport.unsupported_configuration", InvalidArgument, false)
    else if is_one_of raw_code [Errno.ENODEV; Errno.ENOENT] then
      ("runtime.resource.not_found", NotFound, false)
    else if raw_code =? Errno.EBUSY then ("runtime.transport.busy", Conflict, true)
    else ("runtime.transport.unavailable", Unavailable, true) in
  expect_error
    (HalError_with_platform_code
       (static_error name category operation retryable
          ("SocketCAN netlink failed raw_os_error=" +:+ i32_to_string raw_code +:+ ": "
           +:+ message))
       (i32_to_string raw_code)).
Definition generic_link_error (operation error : string) : HalError :=
  static_error "runtime.transport.unavailable" Unavailable operation true
    ("SocketCAN netlink operation failed: " +:+ error).
Definition map_link_io_error (operation : string) (error : OsError)
    (descriptor : ResourceDescriptor) : HalError :=
  HalError_with_resource_id
    (match raw_os_error error with
     | Some raw_code => os_link_error operation raw_code (os_message error)
     | None => generic_link_error operation (os_message error)
     end) (desc_id descriptor).
Definition map_nl_error_unscoped (operation : string) (error : NlError) : HalError :=
  match error with
  | NlMsgErr code text => os_link_error operation (i32_saturating_neg code) text
  | NlWrappedIo error =>
      match raw_os_error error with
      | Some raw_code => os_link_error operation raw_code (os_message error)
      | None => generic_link_error operation (os_message error)
      end
  | NlOther text => generic_link_error operation text
  end.
Definition map_nl_error (operation : string) (error : NlError) (descriptor : ResourceDescriptor)
    : HalError := HalError_with_resource_id (map_nl_error_unscoped operation error) (desc_id descriptor).

(** ** Timings *)
Definition timing_matches (expected : CanBitTiming) (actual : KernelTiming) : bool :=
  (kt_bitrate actual =? bitrate expected)
  && is_none_or (λ sample_point, kt_sample_point actual =? sample_point)
       (sample_point_permill expected)
  && is_none_or (λ sjw, kt_sjw actual =? sjw) (sjw expected).
Definition to_socketcan_timing (timing : CanBitTiming) : KernelTiming :=
  mkKernelTiming (bitrate timing) (default 0 (sample_point_permill timing)) 0 0 0 0
    (default 0 (sjw timing)) 0.
Definition invalid_kernel_timing (operation timing_kind reason : string) : HalError :=
  static_error "runtime.transport.unavailable" Unavailable operation true
    ("SocketCAN reported invalid " +:+ timing_kind +:+ " timing: " +:+ reason).
Definition nonzero_u16 (value : Z) : option (option Z) :=
  (λ value, if value =? 0 then None else Some value) <$> try_from u16_max value.
Definition from_socketcan_timing (timing : KernelTiming) (operation timing_kind : string)
    : HalResult CanBitTiming :=
  ok_or (invalid_kernel_timing operation timing_kind "sample point exceeds u16")
    (nonzero_u16 (kt_sample_point timing)) ≫= λ sample_point,
  ok_or (invalid_kernel_timing operation timing_kind "SJW exceeds u16")
    (nonzero_u16 (kt_sjw timing)) ≫= λ sjw,
  map_err (λ error, invalid_kernel_timing operation timing_kind (err_debug_message error))
    (CanBitTiming_new (kt_bitrate timing) sample_point sjw).

Definition map_bus_state (state : CanState) : CanBusState :=
  match state with
  | StateErrorActive => BusActive
  | StateErrorWarning => BusWarning
  | StateErrorPassive => BusPassive
  | StateBusOff => BusOff
  | StateStopped | StateSleeping => BusStopped
  end.

(** ** Fingerprints and snapshots *)
Record LinkFingerprint := mkLinkFingerprint {
  fp_interface_index : Z;
  fp_interface_name : string;
  fp_physical_identity : ResourceId;
  fp_is_up : bool;
  fp_mtu : option Mtu;
  fp_nominal : option KernelTiming;
  fp_data : option KernelTiming;
  fp_restart_ms : option Z;
  fp_control_modes : list bool;
  fp_termination : option Z;
}.
Global Instance LinkFingerprint_eq_dec : EqDecision LinkFingerprint.
Proof. solve_decision. Defined.
(** The control modes that [configure] may have changed and must put back. *)
Definition RestoreEvidence_default : list bool := [false; false; false].
Record LinkSnapshot (M : Type) := mkLinkSnapshot {
  snap_details : InterfaceDetails M;
  snap_fingerprint : LinkFingerprint;
  snap_restore_evidence : list bool;
}.
Global Arguments mkLinkSnapshot {M}.
Global Arguments snap_details {M}.
Global Arguments snap_fingerprint {M}.
Global Arguments snap_restore_evidence {M}.
Record LinkLease (M : Type) := mkLinkLease {
  ll_descriptor : ResourceDescriptor;
  ll_snapshot : option (LinkSnapshot M);
  ll_applied : option LinkFingerprint;
  ll_active : CanActiveConfig;
}.
Global Arguments mkLinkLease {M}.
Global Arguments ll_descriptor {M}.
Global Arguments ll_snapshot {M}.
Global Arguments ll_applied {M}.
Global Arguments ll_active {M}.
Record ConfigureFailure := mkConfigureFailure {
  failure_error : HalError;
  failure_rollback_required : bool;
  failure_restore_evidence : list bool;
}.

Definition control_modes : list CanCtrlMode :=
  [CtrlLoopback; CtrlListenOnly; CtrlTripleSampling; CtrlOneShot; CtrlBerrReporting; CtrlFd;
   CtrlPresumeAck; CtrlNonIso; CtrlCcLen8Dlc].
Definition configured_control_modes : list CanCtrlMode := [CtrlFd; CtrlListenOnly; CtrlLoopback].
Definition requested_control_modes (request : CanConfigureConfig) : list bool :=
  [bool_decide (cfg_mode request = Fd); cfg_listen_only request; cfg_loopback request].

(** ** identity.rs: what sysfs says of an interface *)
(** [Path::join] and the component-wise [Path::starts_with] on canonical paths. *)
Definition path_join (base rest : string) : string :=
  match rest with
  | String "/" _ => rest
  | _ => base +:+ "/" +:+ rest
  end.
Definition path_starts_with (path prefix : string) : bool :=
  match strip_prefix prefix path with
  | Some EmptyString | Some (String "/" _) => true
  | _ => false
  end.

Section link.
Context {K M : Type} `{CanCtrlModes M} `{Netlink K M}.
Context (utf8_percent_encode : AsciiSet → string → string).
Abbreviation link := (native K HalError).
Implicit Types (details : InterfaceDetails M) (descriptor : ResourceDescriptor)
  (snapshot : LinkSnapshot M).

Definition read_trimmed (k : K) (path : string) : option string :=
  fs_read_to_string k path ≫= λ value,
  let value := str_trim value in if str_is_empty value then None else Some value.
Definition metadata_from_sysfs (k : K) (interface : string) : CanInterfaceMetadata :=
  let network_path := path_join "/sys/class/net" interface in
  let device_path := path_join network_path "device" in
  mkCanInterfaceMetadata interface
    (read_trimmed k (path_join device_path "serial"))
    (fs_canonicalize k device_path ≫= λ path,
       if path_starts_with path "/sys/devices/virtual" then None else Some path)
    (read_trimmed k (path_join device_path "devpath"))
    (is_some_and (λ path, path_starts_with path "/sys/devices/virtual")
       (fs_canonicalize k network_path)).

(** ** Fingerprints *)
Definition control_fingerprint (modes : option M) : list bool :=
  let modes := default modes_default modes in map (has_mode modes) control_modes.
Definition fingerprint_for_identity details (physical_identity : ResourceId) : LinkFingerprint :=
  mkLinkFingerprint (if_index details) (default "" (if_name details)) physical_identity
    (if_is_up details) (if_mtu details) (can_bit_timing (if_can details))
    (can_data_bit_timing (if_can details)) (can_restart_ms (if_can details))
    (control_fingerprint (can_ctrl_mode (if_can details))) (can_termination (if_can details)).
Definition link_unavailable (operation : string) descriptor (message : string) : HalError :=
  HalError_with_resource_id
    (static_error "runtime.transport.unavailable" Unavailable operation true message)
    (desc_id descriptor).
Definition fingerprint details (operation : string) descriptor : link LinkFingerprint := λ k,
  (k,
   ok_or (link_unavailable operation descriptor
            "SocketCAN netlink details omitted the interface name") (if_name details)
     ≫= λ interface_name,
   map_err (λ error, link_unavailable operation descriptor
              ("SocketCAN physical identity could not be resolved: " +:+ HalError_display error))
     (can_identity_from_metadata utf8_percent_encode (metadata_from_sysfs k interface_name))
     ≫= λ physical_identity,
   Ok (fingerprint_for_identity details (ident_id physical_identity))).
Definition verify_physical_identity (f : LinkFingerprint) descriptor (operation : string)
    : HalResult unit :=
  if negb (bool_decide (fp_physical_identity f = desc_id descriptor)) then
    HalError_new "runtime.resource.not_found" NotFound operation false
      "SocketCAN endpoint no longer resolves to the selected physical identity" ≫= λ error,
    Err (HalError_with_resource_id error (desc_id descriptor))
  else Ok ().

(** ** The active configuration *)
Definition details_has_mode details (mode : CanCtrlMode) : bool :=
  is_some_and (λ modes, has_mode modes mode) (can_ctrl_mode (if_can details)).
Definition no_timing (operation message : string) : HalError :=
  static_error "runtime.transport.unsupported_configuration" InvalidArgument operation false message.
Definition active_config details descriptor (operation : string) : HalResult CanActiveConfig :=
  map_err (λ error, HalError_with_resource_id error (desc_id descriptor))
    (match bool_decide (if_mtu details = Some MtuFd), details_has_mode details CtrlFd with
     | true, true => Ok Fd
     | false, false => Ok Classic
     | _, _ =>
         Err (static_error "runtime.transport.unavailable" Unavailable operation true
                "SocketCAN MTU and FD control mode disagree")
     end ≫= λ mode,
     transpose (λ timing, from_socketcan_timing timing operation "nominal")
       (can_bit_timing (if_can details)) ≫= λ nominal,
     ok_or (no_timing operation
       "SocketCAN did not report nominal bit timing; no active timing is fabricated") nominal
       ≫= λ nominal,
     (if bool_decide (mode = Fd) then
        transpose (λ timing, from_socketcan_timing timing operation "data")
          (can_data_bit_timing (if_can details)) ≫= λ data,
        Some <$> ok_or (no_timing operation "SocketCAN FD link did not report data bit timing") data
      else Ok None) ≫= λ data,
     CanActiveConfig_new mode nominal data (details_has_mode details CtrlListenOnly)
       (details_has_mode details CtrlLoopback) CLOCK_DOMAIN).

Definition config_mismatch (operation message : string) descriptor : HalResult unit :=
  HalError_new "can.configuration.mismatch" Conflict operation false message ≫= λ error,
  Err (HalError_with_resource_id error (desc_id descriptor)).
Definition verify_expectation (expectation : CanLinkExpectation) (active : CanActiveConfig)
    descriptor : HalResult unit :=
  let mismatch :=
    is_some_and (λ mode, negb (bool_decide (mode = act_mode active))) (exp_mode expectation)
    || is_some_and (λ rate, negb (rate =? bitrate (act_nominal active)))
         (exp_nominal_bitrate expectation)
    || is_some_and (λ rate, is_none_or (λ timing, negb (bitrate timing =? rate)) (act_data active))
         (exp_data_bitrate expectation)
    || is_some_and (λ value, negb (Bool.eqb value (act_listen_only active)))
         (exp_listen_only expectation)
    || is_some_and (λ value, negb (Bool.eqb value (act_loopback active)))
         (exp_loopback expectation) in
  if mismatch then
    config_mismatch "can.open" "Attach expectations do not match active SocketCAN link state" descriptor
  else Ok ().

Definition config_matches (request : CanConfigureConfig) details (active : CanActiveConfig) : bool :=
  let nominal := can_bit_timing (if_can details) in
  let data := can_data_bit_timing (if_can details) in
  let data_mismatch :=
    match cfg_data request with
    | Some expected => negb (is_some_and (timing_matches expected) data)
    | None => is_some data
    end in
  bool_decide (cfg_mode request = act_mode active)
  && is_some_and (timing_matches (cfg_nominal request)) nominal
  && negb data_mismatch
  && Bool.eqb (details_has_mode details CtrlFd) (bool_decide (cfg_mode request = Fd))
  && Bool.eqb (cfg_listen_only request) (act_listen_only active)
  && Bool.eqb (cfg_loopback request) (act_loopback active)
  && bool_decide (can_restart_ms (if_can details) = Some (default 0 (cfg_restart_ms request))).
Definition verify_config (request : CanConfigureConfig) details (active : CanActiveConfig)
    descriptor : HalResult unit :=
  if negb (config_matches request details active) then
    config_mismatch "can.configure"
      "SocketCAN link did not expose the requested configuration after netlink apply" descriptor
  else Ok ().

(** ** Changing the link *)
Definition restore_evidence_for_configure details (request : CanConfigureConfig) : list bool :=
  let before_modes := default modes_default (can_ctrl_mode (if_can details)) in
  zip_with (λ mode requested, negb (Bool.eqb (has_mode before_modes mode) requested))
    configured_control_modes (requested_control_modes request).
(** A set of the modes with their values, in order. *)
Definition modes_of (l : list (CanCtrlMode * bool)) : M :=
  foldl (λ modes '(mode, enabled), modes_add modes mode enabled) modes_default l.

Definition configure_params (request : CanConfigureConfig) : InterfaceCanParams M :=
  mkInterfaceCanParams (Some (to_socketcan_timing (cfg_nominal request)))
    (to_socketcan_timing <$> cfg_data request)
    (Some (modes_of (zip configured_control_modes (requested_control_modes request))))
    (Some (default 0 (cfg_restart_ms request))) None None None false false.

Definition configure_link (before : InterfaceDetails M) (request : CanConfigureConfig) descriptor
    : native K ConfigureFailure (list bool) :=
  let failing rollback_required restore_evidence :=
    native_map_err (λ error, mkConfigureFailure (map_nl_error "can.configure" error descriptor)
                               rollback_required restore_evidence) in
  let pending_restore_evidence := restore_evidence_for_configure before request in
  native_when (if_is_up before) (failing false RestoreEvidence_default nl_bring_down) ≫= λ _,
  failing (if_is_up before) RestoreEvidence_default (nl_set_can_params (configure_params request))
    ≫= λ _,
  failing true pending_restore_evidence
    (nl_set_mtu (if bool_decide (cfg_mode request = Fd) then MtuFd else MtuStandard)) ≫= λ _,
  native_when (if_is_up before) (failing true pending_restore_evidence nl_bring_up) ≫= λ _,
  mret pending_restore_evidence.

Definition restore_params details (restore_evidence : list bool) : InterfaceCanParams M :=
  let ctrl_mode :=
    if existsb (λ restore, restore) restore_evidence then
      let snapshot_modes := default modes_default (can_ctrl_mode (if_can details)) in
      Some (modes_of
        (omap (λ mode : CanCtrlMode * bool,
           if mode.2 then Some (mode.1, has_mode snapshot_modes mode.1) else None)
           (zip configured_control_modes restore_evidence)))
    else None in
  mkInterfaceCanParams (can_bit_timing (if_can details)) (can_data_bit_timing (if_can details))
    ctrl_mode (can_restart_ms (if_can details)) (can_termination (if_can details))
    None None false false.

Definition link_close_error {A} descriptor (m : native K NlError A) : link A :=
  native_map_err (λ error, map_nl_error "can.close" error descriptor) m.
Definition restore_snapshot snapshot descriptor : link unit :=
  let details := snap_details snapshot in
  link_close_error descriptor nl_bring_down ≫= λ _,
  match if_mtu details with
  | Some mtu => link_close_error descriptor (nl_set_mtu mtu)
  | None => mret ()
  end ≫= λ _,
  link_close_error descriptor (nl_set_can_params (restore_params details (snap_restore_evidence snapshot)))
    ≫= λ _,
  native_when (if_is_up details) (link_close_error descriptor nl_bring_up).

Definition restore_and_verify snapshot descriptor : link unit :=
  restore_snapshot snapshot descriptor ≫= λ _,
  link_close_error descriptor nl_details ≫= λ restored,
  fingerprint restored "can.close" descriptor ≫= λ restored,
  if negb (bool_decide (restored = snap_fingerprint snapshot)) then
    native_lift (HalError_new "can.configuration.rollback_failed" Internal "can.close" true
            "SocketCAN link did not match its snapshot after restore" ≫= λ error,
          Err (HalError_with_resource_id error (desc_id descriptor)))
  else mret ().

Definition rollback_failure (primary rollback : HalError) descriptor : HalError :=
  let error :=
    static_error "can.configuration.rollback_failed" Internal
      (OperationName_as_str (err_operation primary)) true
      ("SocketCAN rollback failed after " +:+ ErrorName_as_str (err_name primary) +:+ ": "
       +:+ ErrorName_as_str (err_name rollback)) in
  HalError_with_resource_id
    (match ErrorContext_new [("primary_error", ErrorName_as_str (err_name primary));
                             ("rollback_error", ErrorName_as_str (err_name rollback))] with
     | Ok context => HalError_with_context error context
     | Err panic => panic
     end) (desc_id descriptor).
Definition rollback_after_failure snapshot descriptor (primary : HalError) : native K HalError HalError :=
  attempt (restore_and_verify snapshot descriptor) ≫= λ restored,
  mret (match restored with
        | Ok _ => primary
        | Err rollback => rollback_failure primary rollback descriptor
        end).

(** ** The lease *)
Definition LinkLease_attach (interface : string) (expectation : CanLinkExpectation) descriptor
    : link (LinkLease M) :=
  native_map_err (λ error, map_link_io_error "can.open" error descriptor) (nl_open interface)
    ≫= λ _,
  native_map_err (λ error, map_nl_error "can.open" error descriptor) nl_details ≫= λ details,
  fingerprint details "can.open" descriptor ≫= λ current,
  native_lift (verify_physical_identity current descriptor "can.open") ≫= λ _,
  native_lift (active_config details descriptor "can.open") ≫= λ active,
  native_lift (verify_expectation expectation active descriptor) ≫= λ _,
  mret (mkLinkLease descriptor None None active).

(** A failure once the link has been changed: roll back and report. *)
Definition or_rollback {A} snapshot descriptor (m : link A) : link A :=
  attempt m ≫= λ r,
  match r with
  | Ok x => mret x
  | Err error => rollback_after_failure snapshot descriptor error ≫= λ error, throw error
  end.

(** The link is configured: read it back and check it. *)
Definition verify_applied (request : CanConfigureConfig) snapshot descriptor : link (LinkLease M) :=
  or_rollback snapshot descriptor
    (native_map_err (λ error, map_nl_error "can.configure" error descriptor) nl_details)
    ≫= λ after,
  or_rollback snapshot descriptor (native_lift (active_config after descriptor "can.configure"))
    ≫= λ active,
  or_rollback snapshot descriptor (native_lift (verify_config request after active descriptor)) ≫= λ _,
  or_rollback snapshot descriptor (fingerprint after "can.configure" descriptor) ≫= λ applied,
  or_rollback snapshot descriptor
    (native_lift (verify_physical_identity applied descriptor "can.configure")) ≫= λ _,
  mret (mkLinkLease descriptor (Some snapshot) (Some applied) active).

Definition LinkLease_configure (interface : string) (request : CanConfigureConfig) descriptor
    : link (LinkLease M) :=
  native_map_err (λ error, map_link_io_error "can.configure" error descriptor) (nl_open interface)
    ≫= λ _,
  native_map_err (λ error, map_nl_error "can.configure" error descriptor) nl_details ≫= λ before,
  fingerprint before "can.configure" descriptor ≫= λ snapshot_fingerprint,
  native_lift (verify_physical_identity snapshot_fingerprint descriptor "can.configure") ≫= λ _,
  attempt (configure_link before request descriptor) ≫= λ configured,
  match configured with
  | Ok restore_evidence =>
      verify_applied request (mkLinkSnapshot before snapshot_fingerprint restore_evidence) descriptor
  | Err failure =>
      let snapshot :=
        mkLinkSnapshot before snapshot_fingerprint (failure_restore_evidence failure) in
      if failure_rollback_required failure then
        rollback_after_failure snapshot descriptor (failure_error failure) ≫= λ error, throw error
      else throw (failure_error failure)
  end.

Definition bus_status descriptor : link CanBusStatus :=
  native_map_err (λ error, map_nl_error "can.status" error descriptor) nl_details ≫= λ details,
  fingerprint details "can.status" descriptor ≫= λ current,
  native_lift (verify_physical_identity current descriptor "can.status") ≫= λ _,
  mret (mkCanBusStatus
          (match can_state (if_can details) with
           | Some state => map_bus_state state
           | None => BusUnknown
           end)
          (fst <$> can_berr_counter (if_can details))
          (snd <$> can_berr_counter (if_can details))).

(** [close]: restore the snapshot, unless somebody else has changed the link since. *)
Definition close_link (lease : LinkLease M) descriptor snapshot : link unit :=
  link_close_error descriptor nl_details ≫= λ current,
  fingerprint current "can.close" descriptor ≫= λ current,
  if is_some_and (λ applied, negb (bool_decide (current = applied))) (ll_applied lease) then
    native_lift (HalError_new "can.configuration.conflict" Conflict "can.close" false
            "SocketCAN link changed externally; refusing to overwrite current state" ≫= λ error,
          Err (HalError_with_resource_id error (desc_id descriptor)))
  else restore_and_verify snapshot descriptor.
Definition LinkLease_close (lease : LinkLease M) descriptor (k : K)
    : LinkLease M * K * HalResult unit :=
  match ll_snapshot lease with
  | None => (lease, k, Ok ())
  | Some snapshot =>
      match close_link lease descriptor snapshot k with
      | (k, Ok _) => (mkLinkLease (ll_descriptor lease) None None (ll_active lease), k, Ok ())
      | (k, Err error) => (lease, k, Err error)
      end
  end.
Definition LinkLease_rollback_after_open_failure (lease : LinkLease M) descriptor
    (primary : HalError) (k : K) : LinkLease M * K * HalError :=
  let '(lease, k, closed) := LinkLease_close lease descriptor k in
  (lease, k, match closed with
             | Ok _ => primary
             | Err rollback => rollback_failure primary rollback descriptor
             end).
Definition LinkLease_drop (lease : LinkLease M) (k : K) : K :=
  match ll_snapshot lease with
  | None => k
  | Some _ => (LinkLease_close lease (ll_descriptor lease) k).1.2
  end.

Definition is_fd_active details : bool :=
  bool_decide (if_mtu details = Some MtuFd) && details_has_mode details CtrlFd.
Definition capabilities_for_details details (nonvirtual_sysfs_evidence : bool) : bool * bool :=
  (is_fd_active details || has_data_bit_timing_const (if_can details),
   nonvirtual_sysfs_evidence && has_bit_timing_const (if_can details)).
End link.
