(* ===== verification/SocketcanSpec.v ===== *)
(** * adapters/socketcan: the configuration lease is a transaction

    What the lease of SocketcanLink.v promises: a configured link has the requested
    configuration, a failed configuration leaves the link as it was or says that it could
    not, and closing puts the link back unless somebody else has changed it. *)

From S2P Require Import Prelude Core CanTypes Native AdapterIdentity SocketcanLink.
From Stdlib Require Import Ascii.
Open Scope Z_scope.

(** ** Every error has a valid name and a valid operation *)
Definition well_named (e : HalError) : Prop :=
  valid_identifier (ErrorName_as_str (err_name e)) ∧
  valid_identifier (OperationName_as_str (err_operation e)).
Definition named {A} (r : HalResult A) : Prop := ∀ e, r = Err e → well_named e.
Create HintDb named.

Lemma named_Ok {A} (x : A) : named (Ok x).
Proof. by intros e. Qed.
Lemma named_Err {A} e : well_named e → named (A := A) (Err e).
Proof. by intros ? ? [= <-]. Qed.
Lemma named_bind {A B} (r : HalResult A) (f : A → HalResult B) :
  named r → (∀ x, named (f x)) → named (r ≫= f).
Proof. intros Hr Hf e [?|(x & _ & ?)]%bind_Err; [by apply Hr|by eapply Hf]. Qed.
Lemma named_map_err {A E} (f : E → HalError) (r : result E A) :
  (∀ e, r = Err e → well_named (f e)) → named (map_err f r).
Proof. intros H e. destruct r; simpl; [done|]. intros [= <-]. by apply H. Qed.
Lemma named_map_error {A} (f : HalError → HalError) (r : HalResult A) :
  named r → (∀ e, well_named e → well_named (f e)) → named (map_err f r).
Proof. intros Hr Hf. apply named_map_err. intros e He. by apply Hf, Hr. Qed.
Lemma named_fmap {A B} (f : A → B) (r : HalResult A) : named r → named (f <$> r).
Proof. intros H e. destruct r; simpl; [done|]. intros [= <-]. by apply H. Qed.
Lemma named_ok_or {A} e (o : option A) : well_named e → named (ok_or e o).
Proof. intros H e'. destruct o; simpl; [done|]. by intros [= <-]. Qed.
Lemma named_transpose {A B} (f : A → HalResult B) o :
  (∀ x, named (f x)) → named (transpose f o).
Proof. intros H e. destruct o as [x|]; simpl; [|done]. destruct (f x) eqn:E; [done|].
  intros [= <-]. by eapply H. Qed.

Lemma well_named_static name category op retryable message :
  valid_identifier name → valid_identifier op →
  well_named (static_error name category op retryable message).
Proof. intros. unfold well_named. by rewrite static_error_eq. Qed.
Lemma well_named_resource e r : well_named e → well_named (HalError_with_resource_id e r).
Proof. done. Qed.
Lemma well_named_new {A} name category op retryable message (f : HalError → HalResult A) :
  valid_identifier name → valid_identifier op → (∀ e, well_named e → named (f e)) →
  named (HalError_new name category op retryable message ≫= f).
Proof.
  intros Hn Ho Hf. unfold HalError_new, ErrorName_parse, OperationName_parse.
  rewrite !(proj2 (validate_identifier_Ok _ _)) by done. simpl. by apply Hf.
Qed.
Lemma well_named_platform e code :
  well_named e → well_named (expect_error (HalError_with_platform_code e code)).
Proof.
  intros He. unfold HalError_with_platform_code, validate_identifier, HalError_invalid_argument_error.
  repeat case_match; simpl; try done; split; solve_valid_identifier.
Qed.
#[export] Hint Extern 1 (valid_identifier _) => solve_valid_identifier : named.

Ltac solve_named :=
  repeat (intros; lazymatch goal with
  | |- named (HalError_new _ _ _ _ _ ≫= _) => apply well_named_new
  | |- named (_ ≫= _) => apply named_bind
  | |- named (_ <$> _) => apply named_fmap
  | |- named (ok_or _ _) => apply named_ok_or
  | |- named (map_err _ _) => apply named_map_err
  | |- named (transpose _ _) => apply named_transpose
  | |- named (Ok _) => apply named_Ok
  | |- named (Err _) => apply named_Err
  | |- named (match ?x with _ => _ end) => destruct x
  | |- named _ => solve [eauto with named]
  | |- well_named (HalError_with_resource_id _ _) => apply well_named_resource
  | |- well_named (expect_error (HalError_with_platform_code _ _)) => apply well_named_platform
  | |- well_named (static_error _ _ _ _ _) => apply well_named_static
  | |- well_named _ => solve [eauto with named]
  | |- valid_identifier _ => first [assumption | solve_valid_identifier]
  end).

(** The operations of the adapter. *)
Lemma well_named_os_link op code text : valid_identifier op → well_named (os_link_error op code text).
Proof. intros. unfold os_link_error. repeat case_match; simplify_eq; solve_named. Qed.
Lemma well_named_generic op text : valid_identifier op → well_named (generic_link_error op text).
Proof. intros. unfold generic_link_error. solve_named. Qed.
#[export] Hint Resolve well_named_os_link well_named_generic : named.
Lemma well_named_nl op e d : valid_identifier op → well_named (map_nl_error op e d).
Proof.
  intros. unfold map_nl_error, map_nl_error_unscoped. apply well_named_resource.
  destruct e as [|e|]; [|destruct (raw_os_error e)|]; eauto with named.
Qed.
Lemma named_active_timing op kind t : valid_identifier op → named (from_socketcan_timing t op kind).
Proof. intros. unfold from_socketcan_timing, invalid_kernel_timing. solve_named. Qed.
Lemma named_CanActiveConfig m n data lo lb dom : named (CanActiveConfig_new m n data lo lb dom).
Proof. unfold CanActiveConfig_new. solve_named. Qed.
#[export] Hint Resolve well_named_nl named_active_timing named_CanActiveConfig : named.

Section spec.
Context {K M : Type} `{CanCtrlModes M} `{Netlink K M}.
Context (encode : AsciiSet → string → string).
Implicit Types (d : ResourceDescriptor) (k : K).

(** What a reader of the link sees: its fingerprint, when it can be taken. *)
Definition observed (k : K) : option LinkFingerprint :=
  match nl_details k with
  | (k, Ok details) =>
      result_ok (fingerprint encode details "can.close" example_descriptor k).2
  | (_, Err _) => None
  end.

(** Queries do not change the kernel. *)
Hypothesis details_reads : ∀ k, (nl_details k).1 = k.
Hypothesis open_reads : ∀ i k, (nl_open i k).1 = k.

Lemma nl_details_eq k k' r : nl_details k = (k', r) → k' = k.
Proof. intros E. pose proof (details_reads k) as Hk. by rewrite E in Hk. Qed.

Lemma fingerprint_keeps details op d k k' r : fingerprint encode details op d k = (k', r) → k' = k.
Proof. by intros [= <- _]. Qed.

(** The operation and the descriptor only appear in the errors. *)
Lemma fingerprint_observed details op d k f :
  nl_details k = (k, Ok details) → fingerprint encode details op d k = (k, Ok f) →
  observed k = Some f.
Proof.
  unfold observed, fingerprint. intros ->. simpl. intros [= E].
  apply bind_Ok in E as (name & Hn%ok_or_Ok & E). apply bind_Ok in E as (i & Hi%map_err_Ok & [= <-]).
  rewrite Hn. simpl. by rewrite Hi.
Qed.

Lemma verify_identity_Ok f d op :
  verify_physical_identity f d op = Ok () → fp_physical_identity f = desc_id d.
Proof.
  unfold verify_physical_identity. case_bool_decide; [done|]. simpl.
  by intros (? & _ & ?)%bind_Ok.
Qed.

(** A restore that verifies has put the fingerprint back. *)
Lemma restore_and_verify_Ok snapshot d k k' :
  restore_and_verify encode snapshot d k = (k', Ok ()) →
  observed k' = Some (snap_fingerprint snapshot).
Proof.
  unfold restore_and_verify. intros (k1 & _ & _ & E)%native_bind_Ok.
  apply native_bind_Ok in E as (k2 & details & Hd%native_map_err_Ok & E).
  pose proof (nl_details_eq _ _ _ Hd) as ->.
  apply native_bind_Ok in E as (k3 & f & Hf & E). pose proof (fingerprint_keeps _ _ _ _ _ _ Hf) as ->.
  case_bool_decide; simpl in E.
  - injection E as <-. subst f. by eapply fingerprint_observed.
  - by injection E as _ E.
Qed.

Definition native_named {A} (m : native K HalError A) : Prop := ∀ k, named (m k).2.

Lemma native_named_bind {A B} (m : native K HalError A) (f : A → native K HalError B) :
  native_named m → (∀ x, native_named (f x)) → native_named (m ≫= f).
Proof.
  intros Hm Hf k. specialize (Hm k). unfold mbind, native_bind.
  destruct (m k) as [k1 [x|e]]; simpl in *; [apply Hf|]. intros ? [= <-]. by apply Hm.
Qed.
Lemma native_named_lift {A} (r : HalResult A) : named r → native_named (native_lift r).
Proof. intros Hr k. exact Hr. Qed.
Lemma native_named_ret {A} (x : A) : native_named (mret x).
Proof. intros k. apply named_Ok. Qed.
Lemma native_named_closing {A} d (m : native K NlError A) : native_named (link_close_error d m).
Proof.
  intros k. unfold link_close_error, native_map_err. destruct (m k) as [k1 r]. simpl.
  apply named_map_err. intros e _. apply well_named_nl. solve_valid_identifier.
Qed.
Lemma native_named_fingerprint details op d :
  valid_identifier op → native_named (fingerprint encode details op d).
Proof. intros Ho k. simpl. unfold link_unavailable. solve_named. Qed.

Lemma native_named_restore snapshot d : native_named (restore_and_verify encode snapshot d).
Proof.
  unfold restore_and_verify, restore_snapshot, native_when.
  repeat (first [apply native_named_bind; [|intros ?] | apply native_named_closing
    | apply native_named_fingerprint; solve_valid_identifier | apply native_named_ret
    | apply native_named_lift; solve_named | case_match]).
Qed.

Lemma named_active_config details d op : valid_identifier op → named (active_config details d op).
Proof. intros Ho. unfold active_config, no_timing.
  apply named_map_error; [|done].
  solve_named.
Qed.
Lemma named_verify_config request details active d : named (verify_config request details active d).
Proof. unfold verify_config, config_mismatch. solve_named. Qed.
Lemma named_verify_identity f d op :
  valid_identifier op → named (verify_physical_identity f d op).
Proof. intros Ho. unfold verify_physical_identity. solve_named. Qed.

(** Rolling back either restores the snapshot or reports that it did not. *)
Definition rolled_back (f : LinkFingerprint) (k' : K) (e : HalError) : Prop :=
  observed k' = Some f ∨ err_name e = mkErrorName "can.configuration.rollback_failed".

Lemma rollback_context a b :
  valid_identifier a → valid_identifier b →
  is_ok (ErrorContext_new [("primary_error", a); ("rollback_error", b)]) = true.
Proof.
  intros [Ha _] [Hb _].
  assert (ErrorContext_new [("primary_error", a); ("rollback_error", b)] =
    Ok (mkErrorContext (list_to_map [("primary_error", a); ("rollback_error", b)]))) as ->; [|done].
  apply ErrorContext_new_iff. split; [|done]. split_and!.
  - vm_compute. congruence.
  - repeat constructor; simpl; try (vm_compute; reflexivity);
      unfold ERROR_CONTEXT_MAX_VALUE_BYTES; lia.
  - by vm_compute; repeat constructor; set_solver.
  - unfold ERROR_CONTEXT_MAX_TOTAL_BYTES, context_bytes. simpl.
    change (str_len "primary_error") with 13. change (str_len "rollback_error") with 14. lia.
Qed.

Lemma rollback_failure_name primary rollback d :
  well_named primary → well_named rollback →
  err_name (rollback_failure primary rollback d) = mkErrorName "can.configuration.rollback_failed".
Proof.
  intros [Hpn Hpo] [Hrn _]. unfold rollback_failure.
  pose proof (rollback_context _ _ Hpn Hrn) as Hc.
  destruct (ErrorContext_new _); [|done]. simpl. rewrite static_error_eq; [done| |done].
  solve_valid_identifier.
Qed.

Lemma rollback_after_failure_spec {A} snapshot d primary k k' e :
  well_named primary →
  (rollback_after_failure encode snapshot d primary ≫= λ e, throw (A := A) e) k = (k', Err e) →
  rolled_back (snap_fingerprint snapshot) k' e.
Proof.
  intros Hp. unfold rollback_after_failure, attempt, mbind, native_bind, mret, native_ret, throw.
  pose proof (native_named_restore snapshot d k) as Hn.
  destruct (restore_and_verify encode snapshot d k) as [k1 [[]|r]] eqn:E; simpl; intros [= <- <-].
  - left. by apply restore_and_verify_Ok in E.
  - right. apply rollback_failure_name; [done|]. by apply Hn.
Qed.

Lemma or_rollback_Err {A} snapshot d (m : native K HalError A) k k' e :
  native_named m → (m k).1 = k →
  or_rollback encode snapshot d m k = (k', Err e) → rolled_back (snap_fingerprint snapshot) k' e.
Proof.
  intros Hn Hr. unfold or_rollback, attempt. unfold mbind at 1, native_bind at 1.
  specialize (Hn k). destruct (m k) as [k1 [x|e1]]; simpl; [by intros [= ]|].
  apply rollback_after_failure_spec. by apply Hn.
Qed.

Lemma or_rollback_Ok {A} snapshot d (m : native K HalError A) k k' x :
  or_rollback encode snapshot d m k = (k', Ok x) → m k = (k', Ok x).
Proof.
  unfold or_rollback, attempt, rollback_after_failure. unfold mbind, native_bind.
  destruct (m k) as [k1 [y|e1]]; simpl; [by intros [= <- <-]|].
  unfold attempt. destruct (restore_and_verify _ _ _ _) as [? []]; done.
Qed.

(** ** Configuring *)
(** What the first queries of [configure] establish. *)
Lemma configure_snapshot details op d k k' f :
  nl_details k = (k', Ok details) → fingerprint encode details op d k' = (k', Ok f) →
  k' = k ∧ observed k = Some f.
Proof. intros Hd Hf. pose proof (nl_details_eq _ _ _ Hd) as ->. eauto using fingerprint_observed. Qed.

Lemma verify_applied_Err request snapshot d k k' e :
  verify_applied encode request snapshot d k = (k', Err e) →
  rolled_back (snap_fingerprint snapshot) k' e.
Proof.
  unfold verify_applied.
  repeat first
    [ intros [E|(? & ? & _ & E)]%native_bind_Err; [|revert E]
    | done ].
  - apply or_rollback_Err in E; [done| |].
    + intros k0. unfold native_map_err. destruct (nl_details k0). simpl.
      apply named_map_err. intros ? _. apply well_named_nl. solve_valid_identifier.
    + unfold native_map_err. pose proof (details_reads k) as Hr. by destruct (nl_details k).
  - apply or_rollback_Err in E; [done| |done]. apply native_named_lift, named_active_config.
    solve_valid_identifier.
  - apply or_rollback_Err in E; [done| |done]. apply native_named_lift, named_verify_config.
  - apply or_rollback_Err in E; [done| |done]. apply native_named_fingerprint.
    solve_valid_identifier.
  - apply or_rollback_Err in E; [done| |done]. apply native_named_lift, named_verify_identity.
    solve_valid_identifier.
Qed.

(** The request with which [configure] starts to change the link, to take it down or, when
    it is down already, to set its parameters, is refused: the link is as the kernel leaves
    it after that one request. *)
Definition first_change_refused (before : InterfaceDetails M) (request : CanConfigureConfig)
    (k k' : K) (error : NlError) : Prop :=
  if if_is_up before then nl_bring_down k = (k', Err error)
  else nl_set_can_params (configure_params request) k = (k', Err error).
Lemma configure_link_Err before request d k k' failure :
  configure_link before request d k = (k', Err failure) →
  well_named (failure_error failure) ∧
  (failure_rollback_required failure = false → ∃ error,
     first_change_refused before request k k' error ∧
     failure_error failure = map_nl_error "can.configure" error d).
Proof.
  unfold configure_link, native_when, first_change_refused. intros E.
  assert (∀ b ev m k0 k1, native_map_err (λ error, mkConfigureFailure
      (map_nl_error "can.configure" error d) b ev) m k0 = (k1, Err failure) →
    well_named (failure_error failure) ∧ failure_rollback_required failure = b ∧
    ∃ e0, m k0 = (k1, Err (T := unit) e0) ∧ failure_error failure = map_nl_error "can.configure" e0 d) as Hf.
  { intros b ev m k0 k1 (e0 & ? & ->)%native_map_err_Err. split; [|eauto].
    apply well_named_nl. solve_valid_identifier. }
  apply native_bind_Err in E as [E|(k1 & [] & E1 & E)].
  { destruct (if_is_up before); [|done]. apply Hf in E as (? & ? & e0 & E & ?).
    split; [done|]. intros _. by exists e0. }
  apply native_bind_Err in E as [E|(k2 & [] & _ & E)].
  { apply Hf in E as (? & -> & e0 & E & ?). split; [done|]. intros Hup. rewrite Hup in *.
    injection E1 as ->. by exists e0. }
  apply native_bind_Err in E as [(? & -> & _)%Hf|(k3 & [] & _ & E)]; [done|].
  apply native_bind_Err in E as [E|(k4 & [] & _ & E)]; [|done].
  destruct (if_is_up before); [|done]. by apply Hf in E as (? & -> & _).
Qed.

(** C15: Configuring a SocketCAN link is a transaction from the first change on.  When
    [configure] fails, at whichever step, then the link has the fingerprint it had before,
    that is the same interface, the same up or down state, MTU, timings, restart delay,
    control modes and termination; or the error that the caller gets says
    [can.configuration.rollback_failed]; or the kernel has refused the very first request that
    was to change the link (to take it down, or, of a link that was down, to set its
    parameters), whose error the caller gets, and nothing was sent after it.  Of the kernel
    only that queries change nothing is assumed; in particular a refused request may have
    had effects. *)
Theorem configure_is_transactional interface request d k k' e :
  LinkLease_configure encode interface request d k = (k', Err e) →
  observed k' = observed k
  ∨ err_name e = mkErrorName "can.configuration.rollback_failed"
  ∨ ∃ before error, nl_details k = (k, Ok before) ∧ first_change_refused before request k k' error ∧
      e = map_nl_error "can.configure" error d.
Proof.
  unfold LinkLease_configure. intros E.
  apply native_bind_Err in E as [E|(k0 & [] & E0 & E)].
  { left. apply native_map_err_Err in E as (? & E & _). pose proof (open_reads interface k) as Ho.
    by rewrite E in Ho; simpl in Ho; subst. }
  apply native_map_err_Ok in E0. assert (k0 = k) as ->
    by (pose proof (open_reads interface k) as Ho; by rewrite E0 in Ho).
  apply native_bind_Err in E as [E|(k1 & before & Hd & E)].
  { left. apply native_map_err_Err in E as (? & E & _). by rewrite (nl_details_eq _ _ _ E). }
  apply native_map_err_Ok in Hd. pose proof (nl_details_eq _ _ _ Hd) as ->.
  apply native_bind_Err in E as [E|(k2 & f & Hf & E)].
  { left. by rewrite (fingerprint_keeps _ _ _ _ _ _ E). }
  pose proof (fingerprint_keeps _ _ _ _ _ _ Hf) as ->.
  destruct (configure_snapshot _ _ _ _ _ _ Hd Hf) as [_ Hobs].
  apply native_bind_Err in E as [E|(k3 & [] & E3 & E)].
  { left. by injection E as ->. }
  injection E3 as -> _. apply native_bind_Err in E as [E|(k4 & r & Hc & E)].
  { unfold attempt in E. by destruct (configure_link _ _ _ _). }
  unfold attempt in Hc. destruct (configure_link _ _ _ _) as [k5 [ev|failure]] eqn:Hl;
    injection Hc as -> <-; rewrite Hobs.
  { apply verify_applied_Err in E as [?|?]; [by left|by right; left]. }
  apply configure_link_Err in Hl as [Hw Hk].
  destruct (failure_rollback_required failure).
  - apply rollback_after_failure_spec in E as [?|?]; [by left|by right; left|done].
  - right. right. injection E as <- <-. destruct (Hk eq_refl) as (error & Hr & He). by exists before, error.
Qed.

(** ** What a lease of a configured link knows *)
Definition lease_of (request : CanConfigureConfig) d (f : LinkFingerprint) (k' : K)
    (lease : LinkLease M) : Prop :=
  ∃ after applied snapshot,
    nl_details k' = (k', Ok after) ∧
    active_config after d "can.configure" = Ok (ll_active lease) ∧
    config_matches request after (ll_active lease) = true ∧
    observed k' = Some applied ∧ fp_physical_identity applied = desc_id d ∧
    ll_applied lease = Some applied ∧ ll_snapshot lease = Some snapshot ∧
    snap_fingerprint snapshot = f.

Lemma verify_applied_Ok request snapshot d k k' lease :
  verify_applied encode request snapshot d k = (k', Ok lease) →
  lease_of request d (snap_fingerprint snapshot) k' lease.
Proof.
  unfold verify_applied.
  intros (k1 & after & Hd%or_rollback_Ok%native_map_err_Ok & E)%native_bind_Ok.
  pose proof (nl_details_eq _ _ _ Hd) as ->.
  apply native_bind_Ok in E as (k2 & active & Ha%or_rollback_Ok & E). injection Ha as <- Ha.
  apply native_bind_Ok in E as (k3 & [] & Hv%or_rollback_Ok & E). injection Hv as <- Hv.
  apply native_bind_Ok in E as (k4 & applied & Hf%or_rollback_Ok & E).
  pose proof (fingerprint_keeps _ _ _ _ _ _ Hf) as ->.
  apply native_bind_Ok in E as (k5 & [] & Hi%or_rollback_Ok & E). injection Hi as <- Hi.
  injection E as <- <-. exists after, applied, snapshot. split_and!; try done.
  - unfold verify_config in Hv. destruct (config_matches _ _ _); [done|]. simpl in Hv.
    unfold config_mismatch in Hv. by apply bind_Ok in Hv as (? & _ & ?).
  - by eapply fingerprint_observed.
  - by eapply verify_identity_Ok.
Qed.

Lemma configure_Ok interface request d k k' lease :
  LinkLease_configure encode interface request d k = (k', Ok lease) →
  ∃ f, observed k = Some f ∧ fp_physical_identity f = desc_id d ∧ lease_of request d f k' lease.
Proof.
  unfold LinkLease_configure. intros E.
  apply native_bind_Ok in E as (k0 & [] & E0%native_map_err_Ok & E). assert (k0 = k) as ->
    by (pose proof (open_reads interface k) as Ho; by rewrite E0 in Ho).
  apply native_bind_Ok in E as (k1 & before & Hd%native_map_err_Ok & E).
  pose proof (nl_details_eq _ _ _ Hd) as ->.
  apply native_bind_Ok in E as (k2 & f & Hf & E).
  pose proof (fingerprint_keeps _ _ _ _ _ _ Hf) as ->.
  apply native_bind_Ok in E as (k3 & [] & E3 & E). injection E3 as <- Hi.
  exists f. split; [by eapply fingerprint_observed|]. split; [by eapply verify_identity_Ok|].
  apply native_bind_Ok in E as (k4 & r & Hc & E). unfold attempt in Hc.
  destruct (configure_link _ _ _ _) as [k5 [ev|failure]]; injection Hc as -> <-.
  - by apply verify_applied_Ok in E.
  - destruct (failure_rollback_required failure); [|done].
    apply native_bind_Ok in E as (? & ? & _ & ?). done.
Qed.

(** What it means that the link is configured as requested. *)
Definition configured_as (request : CanConfigureConfig) (details : InterfaceDetails M)
    (active : CanActiveConfig) : Prop :=
  act_mode active = cfg_mode request ∧
  act_listen_only active = cfg_listen_only request ∧ act_loopback active = cfg_loopback request ∧
  can_restart_ms (if_can details) = Some (default 0 (cfg_restart_ms request)) ∧
  details_has_mode details CtrlFd = bool_decide (cfg_mode request = Fd) ∧
  (∃ timing, can_bit_timing (if_can details) = Some timing ∧
     timing_matches (cfg_nominal request) timing = true) ∧
  match cfg_data request with
  | Some expected => ∃ timing, can_data_bit_timing (if_can details) = Some timing ∧
      timing_matches expected timing = true
  | None => can_data_bit_timing (if_can details) = None
  end.

Lemma config_matches_spec request details active :
  config_matches request details active = true → configured_as request details active.
Proof.
  unfold config_matches, configured_as. intros. bool_simp.
  repeat match goal with H : _ ∧ _ |- _ => destruct H end. bool_simp.
  repeat match goal with H : Bool.eqb _ _ = true |- _ => apply Bool.eqb_prop in H end.
  split_and!; try congruence.
  - destruct (can_bit_timing _); [by eexists|done].
  - destruct (cfg_data request).
    + destruct (can_data_bit_timing _); [|done]. simpl in *. by eexists; bool_simp.
    + by destruct (can_data_bit_timing _).
Qed.

(** A lease is only given for a link that really has the requested configuration.  When
    [configure] succeeds, reading the link back shows the requested mode, bit rates, sample
    points, jump widths, restart delay, listen-only and loopback flags, the interface is
    still the selected physical device, and the lease remembers the link's fingerprint
    before and after. *)
Theorem configure_applies_request interface request d k k' lease :
  LinkLease_configure encode interface request d k = (k', Ok lease) →
  ∃ details, nl_details k' = (k', Ok details) ∧
    configured_as request details (ll_active lease) ∧
    ll_applied lease = observed k' ∧ is_Some (observed k') ∧
    (snap_fingerprint <$> ll_snapshot lease) = observed k ∧
    (fp_physical_identity <$> observed k') = Some (desc_id d).
Proof.
  intros (f & Hf & _ & after & applied & snapshot & Hd & _ & Hm & Ho & Hi & Ha & Hs & Hsf)%configure_Ok.
  exists after. rewrite Ho, Ha, Hs, Hf. simpl. rewrite Hsf, Hi.
  split_and!; try done. by apply config_matches_spec.
Qed.

(** ** Closing *)
Lemma close_link_Ok lease d snapshot k k' :
  close_link encode lease d snapshot k = (k', Ok ()) →
  observed k' = Some (snap_fingerprint snapshot).
Proof.
  unfold close_link. intros (k1 & ? & _ & E)%native_bind_Ok.
  apply native_bind_Ok in E as (k2 & ? & _ & E). case_match; [|by eapply restore_and_verify_Ok].
  by injection E as _ E.
Qed.

(** A link that does not look as it was left is not touched. *)
Lemma close_link_changed lease d snapshot k applied :
  ll_applied lease = Some applied → observed k ≠ Some applied →
  ∃ e, close_link encode lease d snapshot k = (k, Err e) ∧
    (is_Some (observed k) → err_name e = mkErrorName "can.configuration.conflict" ∧
       err_retryable e = false).
Proof.
  intros Ha Hne. unfold close_link, link_close_error, native_map_err. unfold mbind at 1, native_bind at 1.
  destruct (nl_details k) as [k1 r] eqn:Ed. pose proof (nl_details_eq _ _ _ Ed) as ->.
  destruct r as [details|e]; simpl.
  2:{ eexists. split; [done|]. unfold observed. rewrite Ed. by intros []. }
  unfold mbind at 1, native_bind at 1.
  destruct (fingerprint encode details "can.close" d k) as [k2 [f|e]] eqn:Ef.
  - pose proof (fingerprint_keeps _ _ _ _ _ _ Ef) as ->.
    rewrite (fingerprint_observed _ _ _ _ _ Ed Ef) in *. rewrite Ha. simpl.
    rewrite bool_decide_false by congruence. simpl. eexists. split; [done|]. done.
  - pose proof (fingerprint_keeps _ _ _ _ _ _ Ef) as ->. eexists. split; [done|].
    unfold observed. rewrite Ed. unfold fingerprint in *. injection Ef as Ef.
    intros [f Hf]. exfalso. destruct (if_name details); simpl in *; [|done].
    destruct (can_identity_from_metadata _ _); done.
Qed.

(** C16: A configuration lease gives the link back as it was, and only if it is still as the
    lease left it.  After a successful [configure] and whatever happens in between, a
    [close] that succeeds leaves the link with the fingerprint it had before [configure]
    and ends the lease; if the link has been changed in between, [close] refuses and
    changes nothing. *)
Theorem lease_close_roundtrip interface request d k k1 lease k2 lease' k3 r :
  LinkLease_configure encode interface request d k = (k1, Ok lease) →
  LinkLease_close encode lease d k2 = (lease', k3, r) →
  (r = Ok () → observed k3 = observed k ∧ ll_snapshot lease' = None) ∧
  (observed k2 ≠ observed k1 → k3 = k2 ∧ lease' = lease ∧ is_ok r = false).
Proof.
  intros (f & Hf & _ & after & applied & snapshot & _ & _ & _ & Ho & _ & Ha & Hs & Hsf)%configure_Ok.
  unfold LinkLease_close. rewrite Hs, Hf, Ho. split.
  - intros ->. destruct (close_link _ _ _ _ _) as [k4 [[]|e]] eqn:E; simplify_eq.
    apply close_link_Ok in E. by rewrite E.
  - intros Hne. destruct (close_link_changed lease d snapshot k2 applied Ha Hne) as (e & E & _).
    rewrite E in *. by simplify_eq.
Qed.

(** A close that fails half-way cannot be completed.  When the restore changes the link and
    then fails, the lease keeps its snapshot but the link no longer has the fingerprint that
    the lease applied; a later close, as long as nobody brings the applied fingerprint back,
    takes the adapter's own half-finished restore for a change by somebody else, refuses
    with a non-retryable conflict and leaves the link as it is. *)
Theorem failed_close_is_stuck lease applied d k lease' k' e :
  ll_applied lease = Some applied →
  LinkLease_close encode lease d k = (lease', k', Err e) →
  observed k' ≠ Some applied → is_Some (observed k') →
  ∃ e', (∀ n : nat, Nat.iter n (λ '(l, k, _), LinkLease_close encode l d k)
             (LinkLease_close encode lease' d k') = (lease', k', Err e')) ∧
    err_name e' = mkErrorName "can.configuration.conflict" ∧ err_retryable e' = false.
Proof.
  intros Ha. unfold LinkLease_close at 1. destruct (ll_snapshot lease) as [snapshot|] eqn:Hs; [|done].
  destruct (close_link _ _ _ _ _) as [k4 [[]|e4]]; [done|]. intros [= <- <- <-] Hne Hsome.
  destruct (close_link_changed lease d snapshot k4 applied Ha Hne) as (e' & E & Hname).
  exists e'. split; [|by apply Hname].
  assert (LinkLease_close encode lease d k4 = (lease, k4, Err e')) as Hc
    by (unfold LinkLease_close; by rewrite Hs, E).
  induction n as [|n IH]; simpl; [done|]. by rewrite IH.
Qed.

(** Attaching only looks: the link is never changed, neither by [attach] nor by closing what
    it returned, and the lease is only given when the link meets the expectations. *)
Theorem attach_only_reads interface expectation d k k' r :
  LinkLease_attach encode interface expectation d k = (k', r) →
  k' = k ∧
  ∀ lease, r = Ok lease →
    verify_expectation expectation (ll_active lease) d = Ok () ∧
    ∀ d' k2, LinkLease_close encode lease d' k2 = (lease, k2, Ok ()).
Proof.
  unfold LinkLease_attach. intros E.
  assert (k' = k) as ->.
  { revert E. unfold mbind, native_bind, native_map_err, native_lift.
    pose proof (open_reads interface k) as Ho. destruct (nl_open interface k) as [k1 [[]|]];
      simpl in *; subst k1; [|by intros [= <- _]].
    pose proof (details_reads k) as Hd. destruct (nl_details k) as [k1 [details|]];
      simpl in *; subst k1; [|by intros [= <- _]].
    repeat case_match; try (by intros [= <- _]);
      simplify_eq; unfold mret, native_ret; by intros [= <- _]. }
  split; [done|]. intros lease ->.
  apply native_bind_Ok in E as (? & ? & _ & E). apply native_bind_Ok in E as (? & ? & _ & E).
  apply native_bind_Ok in E as (? & ? & _ & E). apply native_bind_Ok in E as (? & ? & _ & E).
  apply native_bind_Ok in E as (? & ? & _ & E).
  apply native_bind_Ok in E as (? & [] & [= _ Hv] & E). injection E as _ <-. by split.
Qed.
End spec.

(** ** Timings *)
(** What the adapter writes to the kernel it reads back: for every timing that the HAL
    accepts, within the width of its fields, the kernel's structure built from it converts
    back to it. *)
Theorem kernel_timing_roundtrip t operation kind :
  CanBitTiming_new (bitrate t) (sample_point_permill t) (sjw t) = Ok t →
  (∀ v, sample_point_permill t = Some v → 0 <= v <= u16_max) →
  (∀ v, sjw t = Some v → 0 <= v <= u16_max) →
  from_socketcan_timing (to_socketcan_timing t) operation kind = Ok t ∧
  timing_matches t (to_socketcan_timing t) = true.
Proof.
  destruct t as [b sp w]. simpl. intros Hnew Hsp Hw.
  assert (∀ v, sp = Some v → v ≠ 0) as Hsp0.
  { intros v ->. intros ->. unfold CanBitTiming_new in Hnew. by destruct (b =? 0). }
  assert (∀ v, w = Some v → v ≠ 0) as Hw0.
  { intros v ->. intros ->. unfold CanBitTiming_new in Hnew. simpl in Hnew.
    destruct (b =? 0); [done|]. by destruct (is_some_and _ _). }
  assert (∀ o, (∀ v, o = Some v → 0 <= v <= u16_max) → (∀ v, o = Some v → v ≠ 0) →
    nonzero_u16 (default 0 o) = Some o) as Hz.
  { intros [v|] Hv Hv0; [|done]. unfold nonzero_u16, try_from. simpl.
    rewrite (proj2 (Z.leb_le _ _)) by naive_solver. simpl.
    by rewrite (proj2 (Z.eqb_neq _ _)) by naive_solver. }
  split.
  - unfold from_socketcan_timing. simpl. rewrite !Hz by done. simpl. by rewrite Hnew.
  - unfold timing_matches. simpl. rewrite Z.eqb_refl. simpl.
    destruct sp, w; simpl; by rewrite ?Z.eqb_refl.
Qed.

(** ** A kernel, for the witnesses: it does what it is asked, but refuses to bring the
    interface up [failures] times, and may refuse parameters after setting some of them *)
Abbreviation ModeList := (list (CanCtrlMode * bool)).
Global Instance example_modes : CanCtrlModes ModeList := {|
  modes_default := [];
  modes_add modes mode enabled := (mode, enabled) :: modes;
  has_mode modes mode :=
    match List.find (λ p, bool_decide (p.1 = mode)) modes with Some p => p.2 | None => false end;
|}.
Record ExampleKernel := mkExampleKernel {
  ek_details : InterfaceDetails ModeList;
  ek_failures : nat;
  ek_refuses : bool;
}.
Definition ek_set (f : InterfaceDetails ModeList → InterfaceDetails ModeList) (k : ExampleKernel)
    : ExampleKernel :=
  mkExampleKernel (f (ek_details k)) (ek_failures k) (ek_refuses k).
Definition ek_up (up : bool) (i : InterfaceDetails ModeList) : InterfaceDetails ModeList :=
  mkInterfaceDetails (if_name i) (if_index i) up (if_mtu i) (if_can i).
Definition ek_params (p : InterfaceCanParams ModeList) (i : InterfaceDetails ModeList)
    : InterfaceDetails ModeList :=
  mkInterfaceDetails (if_name i) (if_index i) (if_is_up i) (if_mtu i)
    (mkInterfaceCanParams (can_bit_timing p) (can_data_bit_timing p)
       (match can_ctrl_mode p with
        | Some modes => Some (modes ++ default [] (can_ctrl_mode (if_can i)))
        | None => can_ctrl_mode (if_can i)
        end)
       (can_restart_ms p) (can_termination (if_can i)) None None true true).
(** The attributes are set one by one: the nominal timing, then a control mode is refused. *)
Definition ek_nominal (p : InterfaceCanParams ModeList) (i : InterfaceDetails ModeList)
    : InterfaceDetails ModeList :=
  mkInterfaceDetails (if_name i) (if_index i) (if_is_up i) (if_mtu i)
    (mkInterfaceCanParams (can_bit_timing p) (can_data_bit_timing (if_can i)) (can_ctrl_mode (if_can i))
       (can_restart_ms (if_can i)) (can_termination (if_can i)) None None true true).
Definition ek_mtu (mtu : Mtu) (i : InterfaceDetails ModeList) : InterfaceDetails ModeList :=
  mkInterfaceDetails (if_name i) (if_index i) (if_is_up i) (Some mtu) (if_can i).
Global Instance example_kernel : Netlink ExampleKernel ModeList := {|
  nl_open _ k := (k, Ok ());
  nl_details k := (k, Ok (ek_details k));
  nl_bring_down k := (ek_set (ek_up false) k, Ok ());
  nl_bring_up k :=
    match ek_failures k with
    | O => (ek_set (ek_up true) k, Ok ())
    | S n => (mkExampleKernel (ek_details k) n (ek_refuses k), Err (NlMsgErr (- 16) "busy"))
    end;
  nl_set_mtu mtu k := (ek_set (ek_mtu mtu) k, Ok ());
  nl_set_can_params p k :=
    if ek_refuses k then (ek_set (ek_nominal p) k, Err (NlMsgErr (- 95) "not supported"))
    else (ek_set (ek_params p) k, Ok ());
  fs_canonicalize _ path := Some "/sys/devices/pci/can0";
  fs_read_to_string _ _ := None;
|}.
Lemma example_details_reads (k : ExampleKernel) : (nl_details (M := ModeList) k).1 = k.
Proof. reflexivity. Qed.
Lemma example_open_reads i (k : ExampleKernel) : (nl_open (M := ModeList) i k).1 = k.
Proof. reflexivity. Qed.
Definition example_details : InterfaceDetails ModeList :=
  mkInterfaceDetails (Some "can0") 3 true (Some MtuStandard)
    (mkInterfaceCanParams (Some (mkKernelTiming 250000 875 250 6 7 2 1 2)) None (Some []) (Some 0)
       None None None true true).
Definition example_link : ResourceDescriptor :=
  mkResourceDescriptor (mkResourceId "can:path:%2Fsys%2Fdevices%2Fpci%2Fcan0") (mkEndpoint "can0")
    Medium Can (mkResourceProperties ∅) (mkCapabilitySet []).
Definition example_fd_request : CanConfigureConfig :=
  mkCanConfigureConfig Fd (mkCanBitTiming 500000 (Some 875) None)
    (Some (mkCanBitTiming 2000000 (Some 800) None)) true false (Some 100).

Definition example_configure (failures : nat) :=
  LinkLease_configure (K := ExampleKernel) example_encode "can0" example_fd_request example_link
    (mkExampleKernel example_details failures false).
Example example_configure_ok : is_ok (example_configure 0).2 = true.
Proof. vm_compute. reflexivity. Qed.
Example example_configure_rolls_back : is_ok (example_configure 1).2 = false.
Proof. vm_compute. reflexivity. Qed.

Definition example_lease : LinkLease ModeList :=
  match (example_configure 0).2 with
  | Ok lease => lease
  | Err _ => mkLinkLease example_link None None (mkCanActiveConfig Classic
               (mkCanBitTiming 0 None None) None false false CLOCK_DOMAIN)
  end.
Definition example_configured : ExampleKernel := (example_configure 0).1.

(** The link is down and the kernel refuses its parameters. *)
Definition example_down : ExampleKernel := mkExampleKernel (ek_up false example_details) 0 true.
Definition example_refused :=
  LinkLease_configure (K := ExampleKernel) example_encode "can0" example_fd_request example_link example_down.
(** Bringing the interface up fails once while configuring: the link is as it was.  The
    parameters of a link that is up are refused: what was set of them is undone.  Those of a link
    that is down: what was set stays. *)
Lemma configure_is_transactional_witness :
  (observed (K := ExampleKernel) example_encode (example_configure 1).1 =
    observed (K := ExampleKernel) example_encode (mkExampleKernel example_details 1 false) ∨
  ∃ e, (example_configure 1).2 = Err e ∧ err_name e = mkErrorName "can.configuration.rollback_failed")
  ∧ ∃ before error, first_change_refused before example_fd_request example_down example_refused.1 error.
Proof.
  split.
  - destruct (example_configure 1) as [k' [lease|e]] eqn:E.
    + assert (H : is_ok (example_configure 1).2 = false) by (vm_compute; reflexivity).
      rewrite E in H. discriminate H.
    + destruct (configure_is_transactional (K := ExampleKernel) (M := ModeList) example_encode
        example_details_reads example_open_reads "can0" example_fd_request example_link
        (mkExampleKernel example_details 1 false) k' e E) as [H|[H|(before & error & Hd & Hr & _)]].
      * left. exact H.
      * right. exists e. split; [reflexivity|exact H].
      * injection Hd as <-. discriminate Hr.
  - destruct example_refused as [k' [lease|e]] eqn:E.
    + assert (H : is_ok example_refused.2 = false) by (vm_compute; reflexivity).
      rewrite E in H. discriminate H.
    + destruct (configure_is_transactional (K := ExampleKernel) (M := ModeList) example_encode
        example_details_reads example_open_reads "can0" example_fd_request example_link
        example_down k' e E) as [H|[H|(before & error & _ & Hr & _)]].
      * assert (bool_decide (observed (K := ExampleKernel) example_encode example_refused.1
          = observed (K := ExampleKernel) example_encode example_down) = false) as Hne by (vm_compute; reflexivity).
        rewrite E in Hne. apply bool_decide_eq_false in Hne. destruct (Hne H).
      * assert (match example_refused.2 with
                | Err e => bool_decide (err_name e = mkErrorName "can.configuration.rollback_failed")
                | Ok _ => true end = false) as Hne by (vm_compute; reflexivity).
        rewrite E in Hne. apply bool_decide_eq_false in Hne. destruct (Hne H).
      * exists before, error. exact Hr.
Defined.
(** A link that is down is left half-configured, under an error that does not say so: no
    rollback is tried. *)
Theorem configure_down_half_applied :
  is_ok example_refused.2 = false ∧
  observed (K := ExampleKernel) example_encode example_refused.1
    ≠ observed (K := ExampleKernel) example_encode example_down ∧
  match example_refused.2 with
  | Err e => err_name e ≠ mkErrorName "can.configuration.rollback_failed"
  | Ok _ => False
  end.
Proof.
  split; [vm_compute; reflexivity|]. split.
  - apply (bool_decide_eq_false (observed example_encode example_refused.1 = _)). vm_compute. reflexivity.
  - vm_compute. discriminate.
Qed.

Lemma configure_applies_request_witness :
  ∃ details, nl_details example_configured = (example_configured, Ok details) ∧
    configured_as example_fd_request details (ll_active example_lease).
Proof.
  assert (E : example_configure 0 = (example_configured, Ok example_lease))
    by (vm_compute; reflexivity).
  destruct (configure_applies_request (K := ExampleKernel) (M := ModeList) example_encode
    example_details_reads example_open_reads "can0" example_fd_request example_link
    (mkExampleKernel example_details 0 false) example_configured example_lease E)
    as (details & H1 & H2 & _).
  exists details. split; [exact H1|exact H2].
Defined.

Definition example_closed (k : ExampleKernel) :=
  LinkLease_close (K := ExampleKernel) example_encode example_lease example_link k.

Lemma lease_close_roundtrip_witness :
  observed (K := ExampleKernel) example_encode (example_closed example_configured).1.2 =
  observed (K := ExampleKernel) example_encode (mkExampleKernel example_details 0 false).
Proof.
  assert (E : example_configure 0 = (example_configured, Ok example_lease))
    by (vm_compute; reflexivity).
  assert (Hok : is_ok (example_closed example_configured).2 = true) by (vm_compute; reflexivity).
  destruct (example_closed example_configured) as [[lease' k3] r] eqn:Ec.
  destruct r as [[]|]; [|discriminate Hok].
  exact (proj1 (proj1 (lease_close_roundtrip (K := ExampleKernel) (M := ModeList) example_encode
    example_details_reads example_open_reads "can0" example_fd_request example_link
    (mkExampleKernel example_details 0 false) example_configured example_lease
    example_configured lease' k3 (Ok ()) E Ec) eq_refl)).
Defined.

(** The interface cannot be brought up once while closing: from then on every close of the
    lease is refused. *)
Definition example_stuck : ExampleKernel := mkExampleKernel (ek_details example_configured) 1 false.

Lemma failed_close_is_stuck_witness :
  ∃ e', LinkLease_close (K := ExampleKernel) example_encode example_lease example_link
          (example_closed example_stuck).1.2
        = (example_lease, (example_closed example_stuck).1.2, Err e') ∧
    err_name e' = mkErrorName "can.configuration.conflict".
Proof.
  assert (Ha : ll_applied example_lease = observed (K := ExampleKernel) example_encode example_configured)
    by (vm_compute; reflexivity).
  destruct (observed (K := ExampleKernel) example_encode example_configured) as [applied|] eqn:Eo;
    [|vm_compute in Eo; discriminate Eo].
  assert (Hl : (example_closed example_stuck).1.1 = example_lease) by (vm_compute; reflexivity).
  assert (Hr : is_ok (example_closed example_stuck).2 = false) by (vm_compute; reflexivity).
  assert (Hup : fp_is_up <$> observed (K := ExampleKernel) (M := ModeList) example_encode
    (example_closed example_stuck).1.2 = Some false) by (vm_compute; reflexivity).
  assert (Hup0 : fp_is_up <$> observed (K := ExampleKernel) example_encode example_configured
    = Some true) by (vm_compute; reflexivity).
  rewrite Eo in Hup0.
  destruct (example_closed example_stuck) as [[lease' k'] [[]|e]] eqn:Ec; [discriminate Hr|].
  simpl in Hl, Hup |- *. subst lease'.
  destruct (failed_close_is_stuck (K := ExampleKernel) (M := ModeList) example_encode example_details_reads
    example_lease applied example_link example_stuck example_lease k' e Ha Ec) as (e' & H1 & H2 & _).
  - intros H. rewrite H in Hup. simpl in Hup, Hup0. congruence.
  - destruct (observed example_encode k'); [eexists; reflexivity|discriminate Hup].
  - exists e'. split; [exact (H1 0%nat)|exact H2].
Defined.
