(* ===== verification/SocketcanChannel.v ===== *)
(** * adapters/socketcan: sockets, the channel, discovery and opening

    Models adapters/socketcan/src/channel.rs and the Linux part of lib.rs.  The sockets of
    the crates socketcan and can-hal-socketcan are a class over the world [W], which is also
    the kernel of SocketcanLink.v; their frame types are opaque except for what the code
    reads of a received frame. *)

From S2P Require Import Prelude Core CanTypes Native AdapterIdentity SocketcanLink PcanChannel PcanAdapter.
From Stdlib Require Import Ascii.
Open Scope Z_scope.

(** Durations are nanoseconds; 100 ms. *)
Definition MAX_RECEIVE_POLL : Z := 100000000.

(** ** Errors *)
Inductive SocketCanError :=
  | BackendIo (error : OsError)
  | BackendInvalidFrame (message : string)
  | BackendInvalidInterface (message : string)
  | BackendOther.

Definition socket_kind_decision (k : ErrorKind) : string * ErrorCategory * bool :=
  match k with
  | KindNotFound => ("runtime.resource.not_found", NotFound, false)
  | KindPermissionDenied => ("runtime.transport.permission_denied", Conflict, false)
  | KindWouldBlock | KindTimedOut => ("runtime.transport.timeout", Unavailable, true)
  | KindInvalidInput | KindInvalidData =>
      ("runtime.transport.unsupported_configuration", InvalidArgument, false)
  | KindBrokenPipe | KindConnectionAborted | KindConnectionReset | KindNotConnected
  | KindUnexpectedEof => ("runtime.transport.disconnected", Unavailable, true)
  | _ => ("runtime.transport.unavailable", Unavailable, true)
  end.
Definition socket_error_decision (error : OsError) : string * ErrorCategory * bool :=
  match raw_os_error error with
  | Some code =>
      if is_one_of code [Errno.ENODEV; Errno.ENOENT; Errno.ENXIO] then
        ("runtime.resource.not_found", NotFound, false)
      else if is_one_of code [Errno.EPERM; Errno.EACCES] then
        ("runtime.transport.permission_denied", Conflict, false)
      else if is_one_of code [Errno.EINVAL; Errno.EOPNOTSUPP; Errno.ERANGE; Errno.EMSGSIZE] then
        ("runtime.transport.unsupported_configuration", InvalidArgument, false)
      else if is_one_of code [Errno.ENETDOWN; Errno.ENETUNREACH; Errno.ENOTCONN; Errno.EPIPE;
                              Errno.ECONNABORTED; Errno.ECONNRESET] then
        ("runtime.transport.disconnected", Unavailable, true)
      else socket_kind_decision (kind error)
  | None => socket_kind_decision (kind error)
  end.
Definition with_raw_code (raw_code : option Z) (e : HalError) : HalError :=
  match raw_code with
  | Some code => expect_error (HalError_with_platform_code e (i32_to_string code))
  | None => e
  end.
Definition map_socket_error (operation : string) (error : OsError) : HalError :=
  let '(name, category, retryable) := socket_error_decision error in
  with_raw_code (raw_os_error error)
    (static_error name category operation retryable
       ("SocketCAN I/O failed kind=" +:+ ErrorKind_debug (kind error) +:+ " raw_os_error="
        +:+ match raw_os_error error with Some code => i32_to_string code | None => "none" end
        +:+ ": " +:+ os_message error)).

Definition socket_invalid_frame (operation message : string) : HalError :=
  static_error "can.frame.invalid" InvalidArgument operation false message.
Definition scoped (descriptor : ResourceDescriptor) (e : HalError) : HalError :=
  HalError_with_resource_id e (desc_id descriptor).
Definition unsupported_frame (operation message : string) (descriptor : ResourceDescriptor)
    : HalError :=
  scoped descriptor
    (static_error "runtime.transport.unsupported_configuration" InvalidArgument operation false message).
Definition socket_queue_full (raw_code : option Z) (descriptor : ResourceDescriptor) : HalError :=
  with_raw_code raw_code
    (scoped descriptor
       (static_error "runtime.queue.full" Unavailable "can.send" true
          "SocketCAN transmit queue is full")).
Definition socket_closed (operation : string) (descriptor : ResourceDescriptor) : HalError :=
  scoped descriptor
    (static_error "runtime.session.closed" Conflict operation false
       "SocketCAN channel is already closed").

Definition map_backend_error (operation : string) (error : SocketCanError)
    (descriptor : ResourceDescriptor) : HalError :=
  scoped descriptor
    (match error with
     | BackendIo error => map_socket_error operation error
     | BackendInvalidFrame message => socket_invalid_frame operation message
     | BackendInvalidInterface message =>
         static_error "runtime.resource.not_found" NotFound operation false
           ("SocketCAN interface is unavailable: " +:+ message)
     | BackendOther =>
         static_error "runtime.transport.unavailable" Unavailable operation true
           "SocketCAN backend returned an unknown error"
     end).
Definition map_send_io_error (error : OsError) (descriptor : ResourceDescriptor) : HalError :=
  if bool_decide (kind error = KindWouldBlock)
     || bool_decide (raw_os_error error = Some Errno.ENOBUFS) then
    socket_queue_full (raw_os_error error) descriptor
  else scoped descriptor (map_socket_error "can.send" error).
Definition map_send_backend_error (error : SocketCanError) (descriptor : ResourceDescriptor)
    : HalError :=
  match error with
  | BackendIo error => map_send_io_error error descriptor
  | error => map_backend_error "can.send" error descriptor
  end.

(** ** Received frames *)
Inductive EmbeddedId := EmbeddedStandard (raw : Z) | EmbeddedExtended (raw : Z).
Inductive CanAnyFrame :=
  | AnyNormal (id : EmbeddedId) (data : list Z)
  | AnyFd (id : EmbeddedId) (data : list Z) (is_brs is_esi : bool)
  | AnyRemote (id : EmbeddedId) (dlc : Z)
  | AnyError (error_bits : Z) (data : list Z).
Definition from_embedded_id (id : EmbeddedId) : HalResult CanId :=
  match id with
  | EmbeddedStandard value => CanId_standard value
  | EmbeddedExtended value => CanId_extended value
  end.
Definition error_masks : list (Z * CanErrorClass) :=
  [(0x0001, TxTimeout); (0x0002, LostArbitration); (0x0004, Controller); (0x0008, Protocol);
   (0x0010, Transceiver); (0x0020, NoAcknowledgement); (0x0040, ClassBusOff);
   (0x0080, BusError); (0x0100, Restarted)].
Definition error_classes_of (bits : Z) : list CanErrorClass :=
  let classes := (List.filter (λ mask, has_bits bits mask.1) error_masks).*2 in
  match classes with [] => [ClassOther] | _ => classes end.
Definition from_socketcan_frame (frame : CanAnyFrame) : HalResult CanFrame :=
  match frame with
  | AnyNormal id data => from_embedded_id id ≫= λ id, CanFrame_classic_data id data
  | AnyFd id data brs esi => from_embedded_id id ≫= λ id, CanFrame_fd_data id data brs esi
  | AnyRemote id dlc =>
      from_embedded_id id ≫= λ id,
      ok_or (socket_invalid_frame "can.receive" "remote DLC exceeds u8") (try_from u8_max dlc)
        ≫= λ dlc, CanFrame_classic_remote id dlc
  | AnyError bits data => CanFrame_error (error_classes_of bits) data
  end.

(** ** The sockets *)
Inductive BackendId := BackendStandard (value : Z) | BackendExtended (value : Z).
Definition to_backend_id (id : CanId) : BackendId :=
  match id with
  | IdStandard value => BackendStandard value
  | IdExtended value => BackendExtended value
  end.
(** Which of the two sockets of the crate socketcan. *)
Inductive SocketRole := Receiver | RemoteSender.

(** [F], [FD] and [R] are the frame types of the crates: Classical, FD and remote. *)
Class Sockets (W F FD R : Type) := {
  backend_classic_new : BackendId → list Z → option F;
  backend_fd_new : BackendId → list Z → bool → bool → option FD;
  standard_id_new : Z → option EmbeddedId;
  extended_id_new : Z → option EmbeddedId;
  remote_frame_new : EmbeddedId → Z → option R;
  driver_connect : string → W → W * result SocketCanError unit;
  backend_try_receive_fd : W → W * result SocketCanError unit;
  backend_transmit : F → W → W * result SocketCanError unit;
  backend_transmit_fd : FD → W → W * result SocketCanError unit;
  socket_open : SocketRole → string → W → W * result OsError unit;
  set_nonblocking : SocketRole → bool → W → W * result OsError unit;
  read_frame : W → W * result OsError CanAnyFrame;
  read_frame_timeout : Z → W → W * result OsError CanAnyFrame;
  write_remote_frame : R → W → W * result OsError unit;
  sockets_drop : W → W;
  available_interfaces : W → W * result string (list string);
}.

Section channel.
Context {W M F FD R : Type} `{CanCtrlModes M} `{Netlink W M} `{Sockets W F FD R}.
Context (utf8_percent_encode : AsciiSet → string → string).
Abbreviation sock := (native W HalError).
Implicit Types descriptor : ResourceDescriptor.

Definition mapping {A} operation descriptor (m : native W OsError A) : sock A :=
  native_map_err (λ error, scoped descriptor (map_socket_error operation error)) m.
Definition mapping_backend {A} operation descriptor (m : native W SocketCanError A) : sock A :=
  native_map_err (λ error, map_backend_error operation error descriptor) m.

(** [NativeSockets::open]; a failure drops the sockets that are open already. *)
Definition NativeSockets_open (interface : string) descriptor : sock unit :=
  mapping_backend "can.open" descriptor (driver_connect interface) ≫= λ _,
  mapping_backend "can.open" descriptor backend_try_receive_fd ≫= λ _,
  mapping "can.open" descriptor (socket_open Receiver interface) ≫= λ _,
  mapping "can.open" descriptor (socket_open RemoteSender interface) ≫= λ _,
  mapping "can.open" descriptor (set_nonblocking RemoteSender true).

Definition receive_from_socket (timeout : Z) descriptor : sock (option ReceivedCanFrame) :=
  let poll := Z.min timeout MAX_RECEIVE_POLL in
  (if poll =? 0 then
     mapping "can.receive" descriptor (set_nonblocking Receiver true) ≫= λ _,
     attempt read_frame ≫= λ result,
     mapping "can.receive" descriptor (set_nonblocking Receiver false) ≫= λ _,
     mret result
   else attempt (read_frame_timeout poll)) ≫= λ frame,
  match frame with
  | Ok frame =>
      native_lift (map_err (scoped descriptor)
              ((λ frame, Some (mkReceivedCanFrame frame None)) <$> from_socketcan_frame frame))
  | Err error =>
      if bool_decide (kind error = KindWouldBlock) || bool_decide (kind error = KindTimedOut)
      then mret None
      else throw (scoped descriptor (map_socket_error "can.receive" error))
  end.

(** [StandardId::new(..).expect(..)] and [ExtendedId::new(..).expect(..)]; [None] is the
    panic. *)
Definition to_socketcan_id (id : CanId) : option EmbeddedId :=
  match id with
  | IdStandard value => standard_id_new value
  | IdExtended value => extended_id_new value
  end.

Definition conversion_failed {A} descriptor (message : string) (o : option A) : HalResult A :=
  ok_or (scoped descriptor (socket_invalid_frame "can.send" message)) o.
(** [None] is the panic of [to_socketcan_id]. *)
Definition send_with_mode (frame : CanFrame) (mode : CanMode) descriptor (w : W)
    : option (W * HalResult unit) :=
  match map_err (scoped descriptor) (CanFrame_validate frame) with
  | Err error => Some (w, Err error)
  | Ok _ =>
      match frame with
      | ClassicData id data =>
          Some ((native_lift (conversion_failed descriptor
                   "failed to convert a validated Classical CAN frame"
                   (backend_classic_new (to_backend_id id) data)) ≫= λ frame,
                 native_map_err (λ error, map_send_backend_error error descriptor)
                   (backend_transmit frame)) w)
      | FdData id data bitrate_switch error_state_indicator =>
          if negb (bool_decide (mode = Fd)) then
            Some (w, Err (unsupported_frame "can.send"
                            "CAN FD transmission requires an FD-configured link" descriptor))
          else
            Some ((native_lift (conversion_failed descriptor "failed to convert a validated CAN FD frame"
                     (backend_fd_new (to_backend_id id) data bitrate_switch
                        error_state_indicator)) ≫= λ frame,
                   native_map_err (λ error, map_send_backend_error error descriptor)
                     (backend_transmit_fd frame)) w)
      | ClassicRemote id dlc =>
          match to_socketcan_id id with
          | None => None
          | Some remote_id =>
              Some ((native_lift (conversion_failed descriptor "failed to convert remote frame"
                       (remote_frame_new remote_id dlc)) ≫= λ remote,
                     native_map_err (λ error, map_send_io_error error descriptor)
                       (write_remote_frame remote)) w)
          end
      | ErrorFrame _ _ =>
          Some (w, Err (unsupported_frame "can.send"
                     "SocketCAN error frames are receive diagnostics and cannot be transmitted"
                     descriptor))
      end
  end.

(** ** [NativeSocketCanChannel], with the world its sockets and its link act on *)
Record NativeSocketCanChannel := mkNativeSocketCanChannel {
  nsc_descriptor : ResourceDescriptor;
  nsc_sockets : bool;
  nsc_link : LinkLease M;
  nsc_closed : bool;
}.
Definition NativeSocketCanChannel_open descriptor (lease : LinkLease M) (w : W)
    : W * HalResult NativeSocketCanChannel :=
  match NativeSockets_open (Endpoint_as_str (desc_endpoint descriptor)) descriptor w with
  | (w, Ok _) => (w, Ok (mkNativeSocketCanChannel descriptor true lease false))
  | (w, Err primary) =>
      let '(lease, w, error) :=
        LinkLease_rollback_after_open_failure utf8_percent_encode lease descriptor primary
          (sockets_drop w) in
      (* the lease is dropped with the error *)
      (LinkLease_drop utf8_percent_encode lease w, Err error)
  end.

Definition nsc_sockets_ready (c : NativeSocketCanChannel) (operation : string) : HalResult unit :=
  if nsc_closed c then Err (socket_closed operation (nsc_descriptor c))
  else if nsc_sockets c then Ok ()
  else Err (socket_closed operation (nsc_descriptor c)).
Definition NativeSocketCanChannel_receive (timeout : Z) (c : NativeSocketCanChannel)
    : sock (option ReceivedCanFrame) :=
  native_lift (nsc_sockets_ready c "can.receive") ≫= λ _,
  receive_from_socket timeout (nsc_descriptor c).
Definition NativeSocketCanChannel_send (c : NativeSocketCanChannel) (frame : CanFrame) (w : W)
    : option (W * HalResult unit) :=
  match nsc_sockets_ready c "can.send" with
  | Err error => Some (w, Err error)
  | Ok _ => send_with_mode frame (act_mode (ll_active (nsc_link c))) (nsc_descriptor c) w
  end.
Definition NativeSocketCanChannel_bus_status (c : NativeSocketCanChannel) : sock CanBusStatus :=
  if nsc_closed c then throw (socket_closed "can.status" (nsc_descriptor c))
  else bus_status utf8_percent_encode (nsc_descriptor c).
(** [self.sockets.take()]: the sockets are dropped, once. *)
Definition take_sockets (c : NativeSocketCanChannel) (w : W) : W :=
  if nsc_sockets c then sockets_drop w else w.
Definition NativeSocketCanChannel_close (c : NativeSocketCanChannel) (w : W)
    : NativeSocketCanChannel * W * HalResult unit :=
  if nsc_closed c then (c, w, Ok ())
  else
    let '(lease, w, result) :=
      LinkLease_close utf8_percent_encode (nsc_link c) (nsc_descriptor c) (take_sockets c w) in
    (mkNativeSocketCanChannel (nsc_descriptor c) false lease (is_ok result), w, result).
(** [Drop] of the channel, then that of its lease. *)
Definition NativeSocketCanChannel_drop (c : NativeSocketCanChannel) (w : W) : W :=
  let w := take_sockets c w in
  if nsc_closed c then LinkLease_drop utf8_percent_encode (nsc_link c) w
  else
    let '(lease, w, _) :=
      LinkLease_close utf8_percent_encode (nsc_link c) (nsc_descriptor c) w in
    LinkLease_drop utf8_percent_encode lease w.

(** ** lib.rs *)
Definition discovery_error (operation error : string) : HalError :=
  static_error "runtime.transport.unavailable" Unavailable operation true
    ("SocketCAN discovery failed: " +:+ error).

(** [details_for_descriptor]: the two error types are told apart by their text only. *)
Context (NlError_display : NlError → string).
Definition details_for_descriptor (interface : string) : native W string (InterfaceDetails M) :=
  native_map_err os_message (nl_open interface) ≫= λ _,
  native_map_err NlError_display nl_details.

Definition interface_properties (metadata : CanInterfaceMetadata) (interface : string)
    (details : InterfaceDetails M) : gmap string string :=
  <["mode" := if is_fd_active details then "fd" else "classic"]>
  (<["link_state" := if if_is_up details then "up" else "down"]>
  (<["virtual" := bool_to_string (if_virtual metadata)]>
  (<["interface" := interface]>
  (<["adapter" := "socketcan"]> ∅)))).
Definition descriptor_from_interface (interface : string) : sock ResourceDescriptor := λ w,
  let metadata := metadata_from_sysfs w interface in
  (native_lift (can_identity_from_metadata utf8_percent_encode metadata) ≫= λ identity,
   native_map_err (discovery_error "can.enumerate") (details_for_descriptor interface) ≫= λ details,
   let nonvirtual_sysfs_evidence :=
     negb (if_virtual metadata) && is_some (if_stable_path metadata) in
   let '(supports_fd, supports_configure) :=
     capabilities_for_details details nonvirtual_sysfs_evidence in
   let capabilities :=
     [can_classic_capability] ++ (if supports_fd then [can_fd_capability] else [])
     ++ (if supports_configure then [can_configure_capability] else []) in
   native_lift (Endpoint_new interface) ≫= λ endpoint,
   mret (mkResourceDescriptor (ident_id identity) endpoint (ident_quality identity) Can
           (mkResourceProperties (interface_properties metadata interface details))
           (mkCapabilitySet capabilities))) w.

(** [interfaces.into_iter().map(..).collect()]: the first failure ends it. *)
Fixpoint native_collect {A B} (f : A → sock B) (l : list A) : sock (list B) :=
  match l with
  | [] => mret []
  | x :: l => f x ≫= λ y, native_collect f l ≫= λ ys, mret (y :: ys)
  end.
Definition socketcan_enumerate_sync : sock (list ResourceDescriptor) :=
  native_map_err (discovery_error "can.enumerate") available_interfaces ≫= λ interfaces,
  native_collect descriptor_from_interface interfaces.

Definition socketcan_open_sync (selector : ResourceSelector) (config : CanOpenConfig)
    : sock NativeSocketCanChannel :=
  native_map_err (λ error, HalError_with_resource_id error (sel_id selector))
    socketcan_enumerate_sync ≫= λ descriptors,
  native_lift (resolve_resource descriptors selector can_classic_capability "can.open") ≫= λ descriptor,
  let interface := Endpoint_as_str (desc_endpoint descriptor) in
  match config with
  | Attach expectation => LinkLease_attach utf8_percent_encode interface expectation descriptor
  | Configure request =>
      if negb (CapabilitySet_contains (desc_capabilities descriptor) can_configure_capability) then
        native_lift (HalError_new "runtime.protocol.capability_unsupported" Conflict "can.configure" false
                "SocketCAN configuration is unavailable for this interface" ≫= λ error,
              Err (scoped descriptor error))
      else LinkLease_configure utf8_percent_encode interface request descriptor
  end ≫= λ lease,
  NativeSocketCanChannel_open descriptor lease.
End channel.
