(* ===== verification/SocketcanChannelSpec.v ===== *)
(** * adapters/socketcan: what the channel promises

    Received frames are valid, frames that the link cannot carry never reach a socket,
    a failed open leaves the link as it was, and closing is final once it has succeeded. *)

From S2P Require Import Prelude Core CanTypes Native AdapterIdentity SocketcanLink PcanChannel SocketcanChannel PcanSpec SocketcanSpec.
From Stdlib Require Import Ascii.
Open Scope Z_scope.

(** ** Error classes *)
Lemma error_classes_mask bits c :
  c ≠ ClassOther →
  (c ∈ error_classes_of bits ↔ ∃ mask, (mask, c) ∈ error_masks ∧ has_bits bits mask = true).
Proof.
  intros Hc. unfold error_classes_of.
  assert (Hf : c ∈ (List.filter (λ m : Z * CanErrorClass, has_bits bits m.1) error_masks).*2 ↔
    ∃ mask, (mask, c) ∈ error_masks ∧ has_bits bits mask = true).
  { rewrite list_elem_of_fmap. split.
    - intros ([mask c'] & -> & Hin). apply list_elem_of_In, filter_In in Hin as [Hin Hb].
      exists mask. split; [by apply list_elem_of_In|done].
    - intros (mask & Hin & Hb). exists (mask, c). split; [done|].
      apply list_elem_of_In, filter_In. split; [by apply list_elem_of_In|done]. }
  rewrite <- Hf. destruct ((List.filter _ _).*2); [|done]. set_solver.
Qed.

Lemma error_classes_count bits : 1 <= len (error_classes_of bits) <= 9.
Proof.
  unfold error_classes_of, len.
  assert (length (List.filter (λ m : Z * CanErrorClass, has_bits bits m.1) error_masks) <= 9)%nat.
  { apply (filter_length_le _ error_masks). }
  assert (length ((List.filter (λ m : Z * CanErrorClass, has_bits bits m.1) error_masks).*2) <= 9)%nat
    by by rewrite length_fmap.
  destruct ((List.filter _ _).*2); simpl in *; lia.
Qed.

(** An error frame of the kernel is reported with exactly its causes.  The HAL frame has
    a class for each of the nine error bits that is set and for no other, [Other] when none
    is, and so always between one and nine classes: the conversion fails only when the
    diagnostic payload is longer than the kernel's eight bytes. *)
Theorem error_frame_classes bits data :
  len data <= 8 →
  ∃ classes, from_socketcan_frame (AnyError bits data) = Ok (ErrorFrame classes data) ∧
    (∀ c, c ∈ classes ↔
       (∃ mask, (mask, c) ∈ error_masks ∧ has_bits bits mask = true) ∨
       (c = ClassOther ∧ ∀ mask c', (mask, c') ∈ error_masks → has_bits bits mask = false)).
Proof.
  intros Hd. exists (error_classes_of bits). split.
  - simpl. unfold CanFrame_error, MAX_CAN_ERROR_CLASSES, MAX_CLASSIC_DATA_BYTES.
    pose proof (error_classes_count bits).
    rewrite (proj2 (Z.eqb_neq _ _)), !(proj2 (Z.ltb_ge _ _)) by lia. done.
  - intros c. destruct (decide (c = ClassOther)) as [->|Hc].
    + assert (Hno : ∀ mask, (mask, ClassOther) ∉ error_masks)
        by (intros mask H; unfold error_masks in H; set_solver).
      assert (Hno' : ClassOther ∉ (List.filter (λ m : Z * CanErrorClass, has_bits bits m.1)
        error_masks).*2).
      { intros ([mask c'] & Heq & Hin)%list_elem_of_fmap. simpl in Heq. subst c'.
        apply list_elem_of_In, filter_In in Hin as [Hin _]. eapply Hno, list_elem_of_In, Hin. }
      unfold error_classes_of. destruct ((List.filter _ _).*2) as [|c l] eqn:E.
      * split; [|intros _; by left]. intros _. right. split; [done|]. intros mask c' Hin.
        destruct (has_bits bits mask) eqn:Eb; [|done].
        apply fmap_nil_inv in E. exfalso.
        assert (In (mask, c') (List.filter (λ m : Z * CanErrorClass, has_bits bits m.1) error_masks))
          as Hf by (apply filter_In; split; [by apply list_elem_of_In|done]).
        by rewrite E in Hf.
      * split; [done|]. intros [(mask & H & _)|[_ H]]; [by apply Hno in H|].
        exfalso. assert (c ∈ c :: l) as Hin by by left. rewrite <- E in Hin.
        apply list_elem_of_fmap in Hin as ([mask c'] & _ & Hin).
        apply list_elem_of_In, filter_In in Hin as [Hin Hb]. simpl in Hb.
        rewrite (H mask c') in Hb; [done|by apply list_elem_of_In].
    + rewrite (error_classes_mask bits c Hc). naive_solver.
Qed.

(** ** Received frames *)
Lemma from_socketcan_frame_valid frame f :
  from_socketcan_frame frame = Ok f → CanFrame_validate f = Ok ().
Proof.
  destruct frame as [id data|id data brs esi|id dlc|bits data]; simpl.
  - intros (i & _ & H)%bind_Ok. by apply (constructed_valid (ClassicData i data)).
  - intros (i & _ & H)%bind_Ok. by apply (constructed_valid (FdData i data brs esi)).
  - intros (i & _ & H)%bind_Ok. apply bind_Ok in H as (n & _ & H).
    by apply (constructed_valid (ClassicRemote i n)).
  - apply (constructed_valid (ErrorFrame (error_classes_of bits) data)).
Qed.

Section channel.
Context {W M F FD R : Type} `{CanCtrlModes M} `{Netlink W M} `{Sockets W F FD R}.
Context (encode : AsciiSet → string → string).
Implicit Types (d : ResourceDescriptor) (w : W) (c : NativeSocketCanChannel (M := M)).

Lemma receive_from_socket_valid timeout d w w' received :
  receive_from_socket timeout d w = (w', Ok (Some received)) →
  CanFrame_validate (rcv_frame received) = Ok ().
Proof.
  unfold receive_from_socket. intros (w1 & [frame|error] & _ & E)%native_bind_Ok.
  - injection E as <- E. apply map_err_Ok in E.
    destruct (from_socketcan_frame frame) as [f|] eqn:Ef; [|done]. injection E as <-. simpl.
    by eapply from_socketcan_frame_valid.
  - by destruct (_ || _) in E.
Qed.

(** ** Sending *)
(** The frames that a link in [mode] carries. *)
Definition sendable (mode : CanMode) (frame : CanFrame) : Prop :=
  match frame with
  | ClassicData _ _ | ClassicRemote _ _ => True
  | FdData _ _ _ _ => mode = Fd
  | ErrorFrame _ _ => False
  end.

(** Only valid frames that the link can carry reach a socket.  Sending an invalid frame,
    a CAN FD frame on a link that is not configured for CAN FD, or an error frame is
    refused for the resource without touching any socket, and so is every send on a
    channel whose sockets are gone. *)
Theorem socketcan_send_guarded c frame w :
  nsc_closed c = true ∨ nsc_sockets c = false ∨ is_ok (CanFrame_validate frame) = false ∨
    ¬ sendable (act_mode (ll_active (nsc_link c))) frame →
  ∃ e, NativeSocketCanChannel_send c frame w = Some (w, Err e) ∧
    err_resource_id e = Some (desc_id (nsc_descriptor c)).
Proof.
  intros Hg. unfold NativeSocketCanChannel_send, nsc_sockets_ready.
  destruct (nsc_closed c); [by eexists|]. destruct (nsc_sockets c); [|by eexists].
  unfold send_with_mode. destruct (CanFrame_validate frame); simpl; [|by eexists].
  destruct Hg as [?|[?|[?|Hs]]]; [done..|].
  destruct frame; simpl in Hs; try (by exfalso); [|by eexists].
  rewrite bool_decide_false by done. by eexists.
Qed.

(** ** Closing *)
(** Closing a SocketCAN channel takes its sockets at once and is final when the link
    could be given back.  After a close, failed or not, receives and sends are refused
    without touching a socket; after a successful one every later close succeeds without
    doing anything, the status is refused too, and dropping the channel changes nothing. *)
Theorem socketcan_close_final c w c' w' r :
  NativeSocketCanChannel_close encode c w = (c', w', r) →
  (nsc_closed c = false →
   (∀ t w2, NativeSocketCanChannel_receive t c' w2 =
      (w2, Err (socket_closed "can.receive" (nsc_descriptor c)))) ∧
   (∀ f w2, NativeSocketCanChannel_send c' f w2 =
      Some (w2, Err (socket_closed "can.send" (nsc_descriptor c))))) ∧
  (r = Ok () →
   (∀ w2, NativeSocketCanChannel_close encode c' w2 = (c', w2, Ok ())) ∧
   (∀ w2, NativeSocketCanChannel_bus_status encode c' w2 =
      (w2, Err (socket_closed "can.status" (nsc_descriptor c)))) ∧
   (nsc_closed c = false → ∀ w2, NativeSocketCanChannel_drop encode c' w2 = w2)).
Proof.
  unfold NativeSocketCanChannel_close at 1. destruct (nsc_closed c) eqn:Ec.
  - intros [= <- <- <-]. split; [done|]. intros _.
    unfold NativeSocketCanChannel_close, NativeSocketCanChannel_bus_status. by rewrite Ec.
  - destruct (LinkLease_close _ _ _ _) as [[lease w1] res] eqn:El. intros [= <- <- <-].
    split.
    + intros _. unfold NativeSocketCanChannel_receive, NativeSocketCanChannel_send, nsc_sockets_ready.
      simpl. by destruct (is_ok res).
    + intros ->. split; [done|]. split; [done|]. intros _ w2.
      unfold NativeSocketCanChannel_drop, take_sockets, LinkLease_drop. simpl.
      enough (ll_snapshot lease = None) as -> by done.
      unfold LinkLease_close in El. destruct (ll_snapshot (nsc_link c)) eqn:Es.
      * destruct (close_link _ _ _ _ _) as [? []]; by simplify_eq.
      * by simplify_eq.
Qed.

(** ** Opening *)
Hypothesis details_reads : ∀ w, (nl_details w).1 = w.
Hypothesis open_reads : ∀ i w, (nl_open i w).1 = w.
Lemma well_named_socket op e : valid_identifier op → well_named (map_socket_error op e).
Proof.
  intros Ho. unfold map_socket_error.
  assert (∀ n k r, socket_error_decision e = (n, k, r) → valid_identifier n) as Hn.
  { intros n k r. unfold socket_error_decision, socket_kind_decision.
    repeat case_match; intros [= <- _ _]; solve_valid_identifier. }
  destruct (socket_error_decision e) as [[n k] r]. specialize (Hn n k r eq_refl).
  unfold with_raw_code. destruct (raw_os_error e); solve_named.
Qed.
Lemma well_named_backend op e d : valid_identifier op → well_named (map_backend_error op e d).
Proof.
  intros Ho. unfold map_backend_error, scoped, socket_invalid_frame. apply well_named_resource.
  destruct e; [by apply well_named_socket|solve_named..].
Qed.
Lemma NativeSockets_open_named i d : native_named (NativeSockets_open i d).
Proof.
  unfold NativeSockets_open, mapping, mapping_backend.
  repeat (apply native_named_bind; [|intros ?]); intros w; unfold native_map_err;
    match goal with |- context [?m w] => destruct (m w) as [w1 r] end; simpl;
    apply named_map_err; intros e _;
    first [apply well_named_backend; solve_valid_identifier
          | apply well_named_resource, well_named_socket; solve_valid_identifier].
Qed.
Lemma close_link_named lease d snapshot : native_named (close_link encode lease d snapshot).
Proof.
  unfold close_link.
  repeat (first [apply native_named_restore | apply native_named_bind; [|intros ?]
    | apply native_named_closing | apply native_named_fingerprint; solve_valid_identifier
    | apply native_named_lift; solve_named | case_match]).
Qed.

(** Opening a SocketCAN channel is a transaction, sockets included.  When the link has
    been configured and the sockets then cannot be opened, either the link is left with the
    fingerprint it had before the whole open, or the error says
    [can.configuration.rollback_failed]. *)
Theorem socketcan_open_transactional interface request d w w1 lease w2 e :
  LinkLease_configure encode interface request d w = (w1, Ok lease) →
  NativeSocketCanChannel_open encode d lease w1 = (w2, Err e) →
  observed encode w2 = observed encode w ∨
  err_name e = mkErrorName "can.configuration.rollback_failed".
Proof.
  intros Hc. apply configure_Ok in Hc as (f & Hf & _ & after & applied & snapshot & _ & _ & _ & _ & _
    & _ & Hs & Hsf); [|done..].
  unfold NativeSocketCanChannel_open, LinkLease_rollback_after_open_failure, LinkLease_close.
  pose proof (NativeSockets_open_named (Endpoint_as_str (desc_endpoint d)) d w1) as Hn.
  destruct (NativeSockets_open _ d w1) as [w3 [[]|primary]]; [done|]. rewrite Hs.
  pose proof (close_link_named lease d snapshot (sockets_drop w3)) as Hn2.
  destruct (close_link encode lease d snapshot (sockets_drop w3)) as [w4 [[]|rollback]] eqn:El;
    simpl; intros [= <- <-].
  - left. pose proof (close_link_Ok encode details_reads _ _ _ _ _ El) as Ho.
    unfold LinkLease_drop. simpl. by rewrite Ho, Hf, Hsf.
  - right. apply rollback_failure_name; [done|done|exact (Hn _ eq_refl)|exact (Hn2 _ eq_refl)].
Qed.
End channel.

(** ** Witnesses: the kernel of SocketcanSpec.v, on which no socket can be connected *)
Global Instance example_sockets : Sockets ExampleKernel unit unit unit := {|
  backend_classic_new _ _ := Some tt;
  backend_fd_new _ _ _ _ := Some tt;
  standard_id_new v := Some (EmbeddedStandard v);
  extended_id_new v := Some (EmbeddedExtended v);
  remote_frame_new _ _ := Some tt;
  driver_connect _ k := (k, Err (BackendIo (mkOsError KindPermissionDenied (Some 1) "denied")));
  backend_try_receive_fd k := (k, Ok ());
  backend_transmit _ k := (k, Ok ());
  backend_transmit_fd _ k := (k, Ok ());
  socket_open _ _ k := (k, Ok ());
  set_nonblocking _ _ k := (k, Ok ());
  read_frame k := (k, Err (mkOsError KindWouldBlock (Some 11) "empty"));
  read_frame_timeout _ k := (k, Err (mkOsError KindTimedOut None "timeout"));
  write_remote_frame _ k := (k, Ok ());
  sockets_drop k := k;
  available_interfaces k := (k, Ok ["can0"]);
|}.

Lemma error_frame_classes_witness :
  ∃ classes, from_socketcan_frame (AnyError 0x42 [0; 0; 1]) = Ok (ErrorFrame classes [0; 0; 1]) ∧
    (∀ c, c ∈ classes ↔
       (∃ mask, (mask, c) ∈ error_masks ∧ has_bits 0x42 mask = true) ∨
       (c = ClassOther ∧ ∀ mask c', (mask, c') ∈ error_masks → has_bits 0x42 mask = false)).
Proof. apply (error_frame_classes 0x42 [0; 0; 1]). vm_compute. discriminate. Defined.

Definition example_classic_channel : NativeSocketCanChannel (M := ModeList) :=
  mkNativeSocketCanChannel (M := ModeList) example_link true
    (mkLinkLease example_link None None
       (mkCanActiveConfig Classic (mkCanBitTiming 500000 None None) None false false CLOCK_DOMAIN))
    false.

(** A CAN FD frame on a Classical link. *)
Lemma socketcan_send_guarded_witness :
  ∃ e, NativeSocketCanChannel_send (W := ExampleKernel) (M := ModeList) example_classic_channel
         (FdData (IdStandard 1) [] false false) (mkExampleKernel example_details 0 false)
       = Some (mkExampleKernel example_details 0 false, Err e) ∧
    err_resource_id e = Some (desc_id example_link).
Proof.
  apply (socketcan_send_guarded (W := ExampleKernel) (M := ModeList) example_classic_channel
    (FdData (IdStandard 1) [] false false)).
  right. right. right. simpl. discriminate.
Defined.

Lemma socketcan_close_final_witness :
  let c' := (NativeSocketCanChannel_close (W := ExampleKernel) (M := ModeList) example_encode
               example_classic_channel (mkExampleKernel example_details 0 false)).1.1 in
  ∀ w2, NativeSocketCanChannel_close (W := ExampleKernel) (M := ModeList) example_encode c' w2
        = (c', w2, Ok ()).
Proof.
  intros c'.
  assert (E : NativeSocketCanChannel_close (W := ExampleKernel) (M := ModeList) example_encode
    example_classic_channel (mkExampleKernel example_details 0 false)
    = (c', mkExampleKernel example_details 0 false, Ok ())) by (vm_compute; reflexivity).
  exact (proj1 (proj2 (socketcan_close_final (W := ExampleKernel) (M := ModeList) example_encode
    example_classic_channel (mkExampleKernel example_details 0 false) c' _ (Ok ()) E) eq_refl)).
Defined.

Lemma socketcan_open_transactional_witness :
  ∃ w2 e, NativeSocketCanChannel_open (W := ExampleKernel) (M := ModeList) example_encode example_link
            example_lease example_configured = (w2, Err e) ∧
    (observed (K := ExampleKernel) example_encode w2 =
       observed (K := ExampleKernel) example_encode (mkExampleKernel example_details 0 false) ∨
     err_name e = mkErrorName "can.configuration.rollback_failed").
Proof.
  assert (Ec : example_configure 0 = (example_configured, Ok example_lease))
    by (vm_compute; reflexivity).
  destruct (NativeSocketCanChannel_open (W := ExampleKernel) (M := ModeList) example_encode
    example_link example_lease example_configured) as [w2 [c|e]] eqn:Eo.
  - exfalso. apply (f_equal (λ p, is_ok p.2)) in Eo. vm_compute in Eo. discriminate Eo.
  - exists w2, e. split; [reflexivity|].
    exact (socketcan_open_transactional (W := ExampleKernel) (M := ModeList) example_encode
      example_details_reads example_open_reads "can0" example_fd_request example_link
      (mkExampleKernel example_details 0 false) example_configured example_lease w2 e Ec Eo).
Defined.
