(* ===== verification/SerialIo.v ===== *)
(** * adapters/serialport: bounded input and output

    Models the errors of adapters/serialport/src/lib.rs and the loops of session.rs that
    read, write and flush under a deadline.  The port (the trait [SerialIo] of the code), the
    clock and the life-cycle flag that other threads may change at any time are a class
    over the world [W]. *)

From S2P Require Import Prelude Core Native SerialRegistry.
From Stdlib Require Import Ascii.
Open Scope Z_scope.

(** Durations and instants are nanoseconds. *)
Definition IDLE_CLOSE_POLL : Z := 5000000.
Definition FLUSH_POLL_INTERVAL : Z := 5000000.
Definition MAX_NATIVE_IO_TIMEOUT : Z := 100000000.

(** ** lib.rs: errors *)
Definition io_error_decision (k : ErrorKind) : string * ErrorCategory * bool :=
  match k with
  | KindNotFound => ("runtime.resource.not_found", NotFound, false)
  | KindPermissionDenied => ("runtime.transport.permission_denied", Conflict, false)
  | KindTimedOut | KindWouldBlock => ("runtime.transport.timeout", Unavailable, true)
  | KindAddrInUse | KindAlreadyExists => ("runtime.transport.busy", Conflict, true)
  | KindConnectionAborted | KindConnectionReset | KindBrokenPipe | KindNotConnected
  | KindUnexpectedEof => ("runtime.transport.disconnected", Unavailable, true)
  | KindInvalidInput | KindInvalidData =>
      ("runtime.transport.unsupported_configuration", InvalidArgument, false)
  | _ => ("runtime.transport.disconnected", Unavailable, true)
  end.
Definition map_io_error (operation : string) (error : OsError) : HalError :=
  let '(name, category, retryable) := io_error_decision (kind error) in
  let mapped :=
    static_error name category operation retryable
      ("io error kind=" +:+ ErrorKind_debug (kind error) +:+ " raw_os_error="
       +:+ match raw_os_error error with Some code => i32_to_string code | None => "none" end
       +:+ ": " +:+ os_message error) in
  match raw_os_error error with
  | Some code => expect_error (HalError_with_platform_code mapped (i32_to_string code))
  | None => mapped
  end.

(** The errors of the crate serialport. *)
Inductive SerialportErrorKind := SpNoDevice | SpInvalidInput | SpIo (kind : ErrorKind) | SpUnknown.
Record SerialportError := mkSerialportError { sp_kind : SerialportErrorKind; sp_description : string }.
Definition SerialportErrorKind_debug (k : SerialportErrorKind) : string :=
  match k with
  | SpNoDevice => "NoDevice" | SpInvalidInput => "InvalidInput" | SpUnknown => "Unknown"
  | SpIo k => "Io(" +:+ ErrorKind_debug k +:+ ")"
  end.
Fixpoint to_ascii_lowercase (s : string) : string :=
  match s with
  | EmptyString => EmptyString
  | String c s =>
      String (if is_ascii_uppercase c then ascii_of_nat (nat_of_ascii c + 32) else c)
        (to_ascii_lowercase s)
  end.
(** [str::contains] of a string pattern. *)
Fixpoint contains_str (pattern s : string) : bool :=
  match strip_prefix pattern s, s with
  | Some _, _ => true
  | None, String _ s => contains_str pattern s
  | None, EmptyString => false
  end.
Definition no_device_decision (operation description : string) : string * ErrorCategory * bool :=
  let normalized := to_ascii_lowercase description in
  if contains_str "busy" normalized || contains_str "lock" normalized then
    ("runtime.transport.busy", Conflict, true)
  else if contains_str "access is denied" normalized || contains_str "permission denied" normalized
  then ("runtime.transport.permission_denied", Conflict, false)
  else if bool_decide (operation = "serial.open") || bool_decide (operation = "serial.enumerate")
  then ("runtime.resource.not_found", NotFound, false)
  else ("runtime.transport.disconnected", Unavailable, true).
Definition map_serialport_error (operation : string) (error : SerialportError) : HalError :=
  let '(name, category, retryable) :=
    match sp_kind error with
    | SpNoDevice => no_device_decision operation (sp_description error)
    | SpInvalidInput => ("runtime.transport.unsupported_configuration", InvalidArgument, false)
    | SpIo kind => io_error_decision kind
    | SpUnknown => ("runtime.transport.disconnected", Unavailable, true)
    end in
  static_error name category operation retryable
    ("serialport error kind=" +:+ SerialportErrorKind_debug (sp_kind error)
     +:+ " raw_os_error=unavailable: " +:+ sp_description error).

Definition sp_invalid_argument (operation message : string) : HalError :=
  static_error "runtime.argument.invalid" InvalidArgument operation false message.
Definition sp_unsupported_configuration (operation message : string) : HalError :=
  static_error "runtime.transport.unsupported_configuration" InvalidArgument operation false message.
Definition sp_timeout (operation message : string) : HalError :=
  static_error "runtime.transport.timeout" Unavailable operation true message.
Definition sp_session_closed (operation message : string) : HalError :=
  static_error "runtime.session.closed" Conflict operation false message.
Definition sp_internal (operation message : string) : HalError :=
  static_error "runtime.internal" Internal operation true message.
Definition sp_queue_full (operation message : string) : HalError :=
  static_error "runtime.queue.full" Unavailable operation true message.
Definition sp_disconnected (operation message : string) : HalError :=
  static_error "runtime.transport.disconnected" Unavailable operation true message.

(** ** session.rs: the life cycle flag and the port *)
Inductive WorkerLifecycle := LifecycleOpen | LifecycleClosing | LifecycleClosed.
Global Instance WorkerLifecycle_eq_dec : EqDecision WorkerLifecycle.
Proof. solve_decision. Defined.

(** A read answers with the bytes it put into the buffer. *)
Class SerialIo (W : Type) := {
  io_read : Z → W → W * result OsError Bytes;
  io_write : Bytes → W → W * result OsError Z;
  io_set_read_timeout : Z → W → W * result OsError unit;
  io_set_write_timeout : Z → W → W * result OsError unit;
  io_set_control_lines : ControlLines → W → W * result OsError unit;
  io_pending_output_bytes : W → W * result OsError Z;
  lifecycle_load : W → W * WorkerLifecycle;
  io_now : W → W * Z;
  io_wait : Z → W → W;
}.

Definition normalize_native_timeout (timeout : Z) : Z :=
  let rounded_millis :=
    timeout / 1000000 + (if timeout mod 1000000 =? 0 then 0 else 1) in
  Z.max 1 (Z.min (MAX_NATIVE_IO_TIMEOUT / 1000000) rounded_millis) * 1000000.

Section loops.
Context {W : Type} `{SerialIo W}.

(** [deadline.checked_duration_since(now())] with the zero remainder refused: what every
    round of a loop starts with, after the life cycle.  [Err] ends the loop. *)
Definition round_start (operation deadline_message : string) (deadline : Z) : native W HalError Z := λ w,
  let '(w, lifecycle) := lifecycle_load w in
  if negb (bool_decide (lifecycle = LifecycleOpen)) then
    (w, Err (sp_session_closed operation "serial session is closing"))
  else
    let '(w, now) := io_now w in
    if deadline <=? now then (w, Err (sp_timeout operation deadline_message))
    else (w, Ok (deadline - now)).

Definition is_retry (error : OsError) : bool :=
  bool_decide (kind error = KindInterrupted) || bool_decide (kind error = KindTimedOut).

(** The loops; [None] when the fuel does not suffice. *)
Fixpoint read_bounded (fuel : nat) (max_bytes deadline : Z) (w : W)
    : option (W * HalResult Bytes) :=
  match fuel with
  | O => None
  | S fuel =>
      match (round_start "serial.read" "read exceeded its configured operation deadline" deadline
               ≫= λ remaining,
             native_map_err (map_io_error "serial.read")
               (io_set_read_timeout (normalize_native_timeout remaining))) w with
      | (w, Err e) => Some (w, Err e)
      | (w, Ok _) =>
          match io_read max_bytes w with
          | (w, Ok []) =>
              Some (w, Err (sp_disconnected "serial.read" "serial port returned end of stream"))
          | (w, Ok bytes) => Some (w, Ok bytes)
          | (w, Err error) =>
              if is_retry error then read_bounded fuel max_bytes deadline w
              else Some (w, Err (map_io_error "serial.read" error))
          end
      end
  end.

Fixpoint write_all_bounded (fuel : nat) (bytes : Bytes) (deadline : Z) (w : W)
    : option (W * HalResult unit) :=
  match bytes with
  | [] => Some (w, Ok ())
  | _ =>
      match fuel with
      | O => None
      | S fuel =>
          match (round_start "serial.write" "write exceeded its configured operation deadline"
                   deadline ≫= λ remaining,
                 native_map_err (map_io_error "serial.write")
                   (io_set_write_timeout (normalize_native_timeout remaining))) w with
          | (w, Err e) => Some (w, Err e)
          | (w, Ok _) =>
              match io_write bytes w with
              | (w, Ok written) =>
                  if written =? 0 then
                    Some (w, Err (sp_disconnected "serial.write"
                                    "serial port made no progress while writing"))
                  else write_all_bounded fuel (drop (Z.to_nat written) bytes) deadline w
              | (w, Err error) =>
                  if is_retry error then write_all_bounded fuel bytes deadline w
                  else Some (w, Err (map_io_error "serial.write" error))
              end
          end
      end
  end.

Fixpoint flush_bounded (fuel : nat) (deadline : Z) (w : W) : option (W * HalResult unit) :=
  match fuel with
  | O => None
  | S fuel =>
      match round_start "serial.flush" "flush exceeded its configured operation deadline" deadline w with
      | (w, Err e) => Some (w, Err e)
      | (w, Ok remaining) =>
          match native_map_err (map_io_error "serial.flush") io_pending_output_bytes w with
          | (w, Err e) => Some (w, Err e)
          | (w, Ok pending) =>
              if pending =? 0 then Some (w, Ok ())
              else flush_bounded fuel deadline (io_wait (Z.min remaining FLUSH_POLL_INTERVAL) w)
          end
      end
  end.
End loops.
