(* ===== verification/SerialIoSpec.v ===== *)
(** * adapters/serialport: what the bounded loops promise

    The loops end by their deadline, a write puts a prefix of its bytes on the line in order
    and all of them when it succeeds, a read loses nothing, and a flush that succeeds has
    seen an empty output queue. *)

From S2P Require Import Prelude Core Native SerialRegistry SerialIo.

(** The timeout handed to the port: at least a millisecond, at most 100, and not shorter
    than what is left unless it is capped. *)
Lemma normalize_native_timeout_bounds t :
  0 < t → 1000000 <= normalize_native_timeout t <= MAX_NATIVE_IO_TIMEOUT ∧
    Z.min t MAX_NATIVE_IO_TIMEOUT <= normalize_native_timeout t.
Proof.
  intros Ht. unfold normalize_native_timeout, MAX_NATIVE_IO_TIMEOUT.
  change (100000000 / 1000000) with 100.
  pose proof (Z.div_mod t 1000000). pose proof (Z.mod_pos_bound t 1000000).
  destruct (t mod 1000000 =? 0) eqn:E; bool_simp; lia.
Qed.

(** ** What the code relies on of the port and of the operating system *)
Section laws.
Context {W : Type} `{SerialIo W}.
(** The clock of the machine, the bytes the port has accepted for transmission and those it
    has handed out. *)
Context (clock : W → Z) (sent received : W → Bytes).
Implicit Types w : W.

(** A step that moves no byte and does not turn the clock back. *)
Definition port_quiet (w w' : W) : Prop :=
  clock w <= clock w' ∧ sent w' = sent w ∧ received w' = received w.
Global Instance port_quiet_po : PreOrder port_quiet.
Proof. split; [intros w; split_and!; lia || done|]. intros w1 w2 w3 (?&?&?) (?&?&?).
  split_and!; [lia|congruence..]. Qed.

(** A native call takes time; a read fills at most the buffer; a write accepts a prefix. *)
Class SerialIoLaws : Prop := {
  lifecycle_quiet w : port_quiet w (lifecycle_load w).1;
  now_quiet w : port_quiet w (io_now w).1 ∧ (io_now w).2 = clock (io_now w).1;
  read_timeout_quiet t w : port_quiet w (io_set_read_timeout t w).1;
  write_timeout_quiet t w : port_quiet w (io_set_write_timeout t w).1;
  control_lines_quiet l w : port_quiet w (io_set_control_lines l w).1;
  pending_quiet w : port_quiet w (io_pending_output_bytes w).1;
  wait_takes t w : port_quiet w (io_wait t w) ∧ clock w + t <= clock (io_wait t w);
  io_read_spec n w w' r : io_read n w = (w', r) →
    clock w + 1 <= clock w' ∧ sent w' = sent w ∧
    match r with
    | Ok bytes => len bytes <= n ∧ received w' = received w ++ bytes
    | Err _ => received w' = received w
    end;
  io_write_spec bytes w w' r : io_write bytes w = (w', r) →
    clock w + 1 <= clock w' ∧ received w' = received w ∧
    match r with
    | Ok n => 0 <= n <= len bytes ∧ sent w' = sent w ++ take (Z.to_nat n) bytes
    | Err _ => sent w' = sent w
    end;
}.
End laws.
Global Arguments lifecycle_quiet {W _ clock sent received _}.
Global Arguments now_quiet {W _ clock sent received _}.
Global Arguments read_timeout_quiet {W _ clock sent received _}.
Global Arguments write_timeout_quiet {W _ clock sent received _}.
Global Arguments control_lines_quiet {W _ clock sent received _}.
Global Arguments pending_quiet {W _ clock sent received _}.
Global Arguments wait_takes {W _ clock sent received _}.
Global Arguments io_read_spec {W _ clock sent received _}.
Global Arguments io_write_spec {W _ clock sent received _}.

Section loops.
Context {W : Type} `{SerialIo W} (clock : W → Z) (sent received : W → Bytes).
Context `{!SerialIoLaws clock sent received}.
Implicit Types w : W.

Lemma round_start_spec op message deadline w w' r :
  round_start op message deadline w = (w', r) →
  port_quiet clock sent received w w' ∧ (∀ remaining, r = Ok remaining → remaining = deadline - clock w' ∧ 0 < remaining).
Proof.
  unfold round_start. pose proof (lifecycle_quiet w) as Hl.
  destruct (lifecycle_load w) as [w1 lifecycle]. simpl in Hl.
  destruct (negb _); [by intros [= <- <-]|].
  pose proof (now_quiet w1) as [Hn Ht]. destruct (io_now w1) as [w2 now]. simpl in *. subst now.
  assert (port_quiet clock sent received w w2) by by etrans.
  destruct (deadline <=? clock w2) eqn:E; intros [= <- <-]; (split; [done|]); [done|].
  intros ? [= <-]. bool_simp. lia.
Qed.

(** The start of a round, with the timeout set. *)
Lemma round_spec op message deadline w w' r (set : Z → native W OsError unit) (f : OsError → HalError) :
  (∀ t w, port_quiet clock sent received w (set t w).1) →
  (round_start op message deadline ≫= λ remaining,
     native_map_err f (set (normalize_native_timeout remaining))) w = (w', r) →
  port_quiet clock sent received w w' ∧ (r = Ok () → ∃ w1, port_quiet clock sent received w1 w' ∧ clock w1 < deadline ∧ clock w <= clock w1).
Proof.
  intros Hset E. unfold mbind, native_bind in E.
  destruct (round_start op message deadline w) as [w1 [remaining|e]] eqn:Es;
    apply round_start_spec in Es as [Hq Hrem]; [|by injection E as <- <-].
  destruct (Hrem _ eq_refl) as [Hr Hpos]. unfold native_map_err in E.
  pose proof (Hset (normalize_native_timeout remaining) w1) as Hs.
  destruct (set _ w1) as [w2 res]. injection E as <- <-. simpl in Hs.
  split; [by etrans|]. intros _. exists w1. split_and!; [done|lia|apply Hq].
Qed.

(** ** Reading *)
Lemma read_bounded_returns n max_bytes deadline w :
  deadline - clock w <= Z.of_nat n →
  ∃ w' r, read_bounded (S n) max_bytes deadline w = Some (w', r) ∧
    sent w' = sent w ∧
    match r with
    | Ok bytes => 1 <= len bytes <= max_bytes ∧ received w' = received w ++ bytes
    | Err _ => received w' = received w
    end.
Proof.
  revert w. induction n as [|n IH]; intros w Hn; cbn [read_bounded];
    match goal with |- context [(?m ≫= ?f) w] => destruct ((m ≫= f) w) as [w1 r] eqn:E end;
    apply (round_spec _ _ _ _ _ _ io_set_read_timeout) in E as [Hq Hok]; [|apply read_timeout_quiet| |apply read_timeout_quiet];
    (destruct r as [[]|e]; [|eexists _, _; split; [done|]; apply Hq]);
    destruct (Hok eq_refl) as (w0 & Hq0 & Hlt & Hle); [exfalso; lia|].
  destruct (io_read max_bytes w1) as [w2 [bytes|error]] eqn:Er;
    apply io_read_spec in Er as (Hc & Hs & Hb); destruct Hq as (? & Hqs & Hqr).
  - destruct bytes as [|b bytes]; eexists _, _; (split; [done|]); rewrite Hs, Hqs.
    + split; [done|]. destruct Hb as [_ Hb]. by rewrite app_nil_r in Hb; rewrite Hb.
    + split; [done|]. destruct Hb as [Hl Hb]. rewrite Hb, Hqr. split; [|done].
      unfold len in *. simpl in *. lia.
  - destruct (is_retry error).
    + destruct (IH w2) as (w' & r & Hrun & Hs' & Hr'); [destruct Hq0; lia|].
      exists w', r. split; [exact Hrun|]. rewrite Hs', Hs, Hqs, <- Hqr, <- Hb. done.
    + eexists _, _. split; [done|]. by rewrite Hs, Hqs, Hb, Hqr.
Qed.

(** ** Writing *)
Lemma write_all_bounded_returns n bytes deadline w :
  deadline - clock w <= Z.of_nat n →
  ∃ w' r k, write_all_bounded (S n) bytes deadline w = Some (w', r) ∧
    received w' = received w ∧ sent w' = sent w ++ take k bytes ∧
    (r = Ok () → take k bytes = bytes).
Proof.
  revert bytes w. induction n as [|n IH]; intros bytes w Hn;
    (destruct bytes as [|b bytes];
     [exists w, (Ok ()), 0%nat; cbn; by rewrite app_nil_r|]); cbn [write_all_bounded];
    match goal with |- context [(?m ≫= ?f) w] => destruct ((m ≫= f) w) as [w1 r] eqn:E end;
    apply (round_spec _ _ _ _ _ _ io_set_write_timeout) in E as [Hq Hok]; [|apply write_timeout_quiet| |apply write_timeout_quiet];
    destruct Hq as (Hqc & Hqs & Hqr);
    (destruct r as [[]|e]; [|exists w1, (Err e), 0%nat; cbn; by rewrite app_nil_r]);
    destruct (Hok eq_refl) as (w0 & Hq0 & Hlt & Hle); [exfalso; lia|].
  set (l := b :: bytes) in *.
  destruct (io_write l w1) as [w2 [written|error]] eqn:Er;
    apply io_write_spec in Er as (Hc & Hrc & Hb).
  - destruct Hb as [Hl Hb]. destruct (written =? 0) eqn:E0; bool_simp.
    { eexists w2, _, 0%nat. split; [done|]. subst written. rewrite Hrc, Hqr, Hb, Hqs. done. }
    destruct (IH (drop (Z.to_nat written) l) w2) as (w' & r & k & Hrun & Hr' & Hs' & Hok');
      [destruct Hq0; lia|].
    assert (Ht : take (Z.to_nat written) l ++ take k (drop (Z.to_nat written) l)
      = take (Z.to_nat written + k) l) by by rewrite take_take_drop.
    exists w', r, (Z.to_nat written + k)%nat. split; [exact Hrun|].
    rewrite Hr', Hrc, Hqr, Hs', Hb, Hqs, <- app_assoc, Ht. split_and!; [done..|].
    intros ->. rewrite <- Ht, (Hok' eq_refl). apply take_drop.
  - destruct (is_retry error).
    + destruct (IH l w2) as (w' & r & k & Hrun & Hr' & Hs' & Hok'); [destruct Hq0; lia|].
      exists w', r, k. split; [exact Hrun|]. by rewrite Hr', Hrc, Hqr, Hs', Hb, Hqs.
    + eexists w2, _, 0%nat. split; [done|]. rewrite Hrc, Hqr, Hb, Hqs. cbn. by rewrite app_nil_r.
Qed.

(** ** Flushing *)
Lemma flush_bounded_returns n deadline w :
  deadline - clock w <= Z.of_nat n →
  ∃ w' r, flush_bounded (S n) deadline w = Some (w', r) ∧
    sent w' = sent w ∧ received w' = received w ∧
    (r = Ok () → ∃ w1, io_pending_output_bytes w1 = (w', Ok 0)).
Proof.
  revert w. induction n as [|n IH]; intros w Hn; cbn [flush_bounded];
    destruct (round_start _ _ _ _) as [w1 [remaining|e]] eqn:E;
    apply round_start_spec in E as [(Hqc & Hqs & Hqr) Hok];
    try (by eexists _, _; split; [done|]);
    destruct (Hok _ eq_refl) as [Hrem Hpos]; [exfalso; lia|].
  unfold native_map_err. pose proof (pending_quiet w1) as (Hpc & Hps & Hpr).
  destruct (io_pending_output_bytes w1) as [w2 [pending|e]] eqn:Ep; simpl in *;
    [|by eexists _, _; split; [done|]; rewrite Hps, Hpr].
  destruct (pending =? 0) eqn:E0; bool_simp.
  - subst pending. eexists _, _. split; [done|]. rewrite Hps, Hpr. split_and!; [done..|].
    intros _. by exists w1.
  - destruct (wait_takes (Z.min remaining FLUSH_POLL_INTERVAL) w2) as [(?&Hws&Hwr) Hwt].
    destruct (IH (io_wait (Z.min remaining FLUSH_POLL_INTERVAL) w2))
      as (w' & r & Hrun & Hs' & Hr' & Hend).
    { unfold FLUSH_POLL_INTERVAL in *. lia. }
    exists w', r. split; [exact Hrun|]. rewrite Hs', Hr', Hws, Hwr, Hps, Hpr. done.
Qed.
End loops.
