(* ===== verification/SerialSession.v ===== *)
(** * adapters/serialport: the session and the thread that owns its port

    Models the worker of adapters/serialport/src/session.rs: a queue of one command, the
    life cycle that the session and the thread share, the guard that closes the session
    when the future of a call is dropped, and the thread itself.  The session is borrowed
    mutably by every call, so at most one call is in progress; the thread runs beside it.
    What a command's native operation answers is an input of the step that ends it; the
    loops that compute it are those of SerialIo. *)

From S2P Require Import Prelude Core Native SerialRegistry SerialIo.
From Stdlib Require Import Ascii.
Open Scope Z_scope.

Definition SP_COMMAND_QUEUE_CAPACITY : nat := 1.

Inductive SerialWorkerCommand :=
  | SpRead (max_bytes : Z)
  | SpWrite (bytes : Bytes)
  | SpFlush
  | SpSetControlLines (lines : ControlLines).
Inductive SerialReply := SpBytes (bytes : Bytes) | SpUnit.

Definition sp_operation (c : SerialWorkerCommand) : string :=
  match c with
  | SpRead _ => "serial.read"
  | SpWrite _ => "serial.write"
  | SpFlush => "serial.flush"
  | SpSetControlLines _ => "serial.set_control_lines"
  end.
(** The message of a call whose reply channel was dropped. *)
Definition sp_dropped_message (c : SerialWorkerCommand) : string :=
  "serial adapter worker dropped the "
  +:+ match c with
      | SpRead _ => "read" | SpWrite _ => "write" | SpFlush => "flush"
      | SpSetControlLines _ => "control-line"
      end +:+ " response".
Definition sp_reject_closed (c : SerialWorkerCommand) : HalResult SerialReply :=
  Err (sp_session_closed (sp_operation c) "serial session is closing").

(** ** What session and thread share *)
Record SerialControl := mkSerialControl {
  sc_lifecycle : WorkerLifecycle;
  sc_terminal_error : option HalError;
  sc_completion : option (HalResult unit);
}.
Definition SerialControl_new : SerialControl := mkSerialControl LifecycleOpen None None.
Definition sc_is_open (c : SerialControl) : bool := bool_decide (sc_lifecycle c = LifecycleOpen).
Definition sc_request_close (c : SerialControl) : SerialControl :=
  if sc_is_open c then mkSerialControl LifecycleClosing (sc_terminal_error c) (sc_completion c)
  else c.
(** A session that is closing keeps_ports the first error of a command that was still running,
    unless the error says no more than that the session ended. *)
Definition is_terminal_error (e : HalError) : bool :=
  negb (bool_decide (ErrorName_as_str (err_name e) = "runtime.session.closed")
        || bool_decide (ErrorName_as_str (err_name e) = "runtime.transport.disconnected")).
Definition sc_record_terminal_error {T} (result : HalResult T) (c : SerialControl) : SerialControl :=
  if sc_is_open c then c
  else match result with
       | Ok _ => c
       | Err e =>
           if is_terminal_error e && bool_decide (sc_terminal_error c = None)
           then mkSerialControl (sc_lifecycle c) (Some e) (sc_completion c)
           else c
       end.
Definition sc_take_terminal_error (c : SerialControl) : SerialControl * option HalError :=
  (mkSerialControl (sc_lifecycle c) None (sc_completion c), sc_terminal_error c).
Definition sc_finish_actor (result : HalResult unit) (c : SerialControl) : SerialControl :=
  mkSerialControl LifecycleClosed (sc_terminal_error c) (Some result).

(** ** The thread *)

(** What the native operation of a command computes, from [execute_command]; [None] when
    the fuel of its loop does not suffice. *)
Definition perform {W} `{SerialIo W} (fuel : nat) (operation_timeout : Z)
    (command : SerialWorkerCommand) (w : W) : option (W * HalResult SerialReply) :=
  let unit_reply r := (λ p : W * HalResult unit, (p.1, (λ _, SpUnit) <$> p.2)) <$> r in
  match command with
  | SpRead max_bytes =>
      let '(w, now) := io_now w in
      (λ p : W * HalResult Bytes, (p.1, SpBytes <$> p.2))
        <$> read_bounded fuel max_bytes (now + operation_timeout) w
  | SpWrite bytes =>
      let '(w, now) := io_now w in
      unit_reply (write_all_bounded fuel bytes (now + operation_timeout) w)
  | SpFlush =>
      let '(w, now) := io_now w in unit_reply (flush_bounded fuel (now + operation_timeout) w)
  | SpSetControlLines lines =>
      unit_reply (Some (native_map_err (map_io_error "serial.set_control_lines")
                          (io_set_control_lines lines) w))
  end.
(** The rest of [execute_command], before the reply is sent. *)
Definition settle_command (command : SerialWorkerCommand) (result : HalResult SerialReply)
    (c : SerialControl) : SerialControl :=
  let c :=
    match command, result with
    | SpFlush, Err e =>
        if bool_decide (ErrorName_as_str (err_name e) = "runtime.transport.timeout") then sc_request_close c else c
    | _, _ => c
    end in
  sc_record_terminal_error result c.

(** Where the thread is: at the head of its loop; in [recv_timeout]; holding a command
    whose session it has not rechecked; inside the native operation; about to reply;
    rejecting what is left; past the last [try_recv]; past [run_actor], normally or by a
    panic; about to publish its result; gone. *)
Inductive SerialPhase :=
  | SLoop
  | SReceive
  | SReceived (id : nat) (command : SerialWorkerCommand)
  | SExecute (id : nat) (command : SerialWorkerCommand)
  | SReplying (id : nat) (command : SerialWorkerCommand) (result : HalResult SerialReply)
  | SDrain
  | SDropping
  | SReturned (panicked : bool)
  | SFinishing (result : HalResult unit)
  | SDone.
(** What the session is doing: nothing; past [ensure_open]; waiting for the reply to its
    command; in [wait_closed]; dropped. *)
Inductive SerialCall :=
  | CallIdle
  | CallChecked (command : SerialWorkerCommand)
  | CallWaiting (id : nat) (command : SerialWorkerCommand)
  | CallClosing
  | CallDropped.
Inductive SerialMethod := MethodCommand (command : SerialWorkerCommand) | MethodClose.

(** [st_fates]: the commands that left the queue, with what was sent on their reply
    channel, [None] when the channel was dropped.  [st_results]: what the methods returned.
    [st_next] numbers the commands. *)
Record SpState := mkSpState {
  st_control : SerialControl;
  st_queue : list (nat * SerialWorkerCommand);
  st_receiver : bool;
  st_phase : SerialPhase;
  st_call : SerialCall;
  st_next : nat;
  st_fates : list (nat * option (HalResult SerialReply));
  st_results : list (SerialMethod * HalResult SerialReply);
}.
Definition spawn_session_worker : SpState :=
  mkSpState SerialControl_new [] true SLoop CallIdle 0 [] [].

Definition sp_is_done (p : SerialPhase) : bool := match p with SDone => true | _ => false end.
(** The command end of the channel is alive. *)
Definition st_sender (s : SpState) : bool :=
  match st_call s with CallDropped => false | _ => true end.

Section moves.
Context (descriptor : ResourceDescriptor).

Definition sp_resource_result {T} (result : HalResult T) : HalResult T :=
  map_err (λ error, HalError_with_resource_id error (desc_id descriptor)) result.

(** *** The session *)
Definition sp_ensure_open (operation : string) (c : SerialControl) : HalResult unit :=
  if sc_is_open c then Ok ()
  else Err (sp_session_closed operation "serial session is closing or already closed").
Definition sp_enqueue (command : SerialWorkerCommand) (s : SpState)
    : HalResult (list (nat * SerialWorkerCommand)) :=
  if negb (st_receiver s) then
    Err (sp_session_closed (sp_operation command) "the serial adapter worker is no longer available")
  else if (SP_COMMAND_QUEUE_CAPACITY <=? length (st_queue s))%nat then
    Err (sp_queue_full (sp_operation command)
           "the serial adapter worker queue has reached its one-command capacity")
  else Ok (st_queue s ++ [(st_next s, command)]).
(** What a call checks before it has a command to send; [inr] answers at once. *)
Definition sp_check (command : SerialWorkerCommand) (s : SpState)
    : SerialWorkerCommand + HalResult SerialReply :=
  match sp_ensure_open (sp_operation command) (st_control s) with
  | Err e => inr (Err e)
  | Ok _ =>
      match command with
      | SpRead max_bytes =>
          if max_bytes =? 0
          then inr (Err (sp_invalid_argument "serial.read" "max_bytes must be greater than zero"))
          else inl command
      | SpWrite [] => inr (Ok SpUnit)
      | _ => inl command
      end
  end.
Definition with_call (call : SerialCall) (s : SpState) : SpState :=
  mkSpState (st_control s) (st_queue s) (st_receiver s) (st_phase s) call (st_next s)
    (st_fates s) (st_results s).
Definition with_control (f : SerialControl → SerialControl) (s : SpState) : SpState :=
  mkSpState (f (st_control s)) (st_queue s) (st_receiver s) (st_phase s) (st_call s)
    (st_next s) (st_fates s) (st_results s).
Definition method_return (method : SerialMethod) (result : HalResult SerialReply) (s : SpState)
    : SpState :=
  mkSpState (st_control s) (st_queue s) (st_receiver s) (st_phase s) CallIdle (st_next s)
    (st_fates s) (st_results s ++ [(method, sp_resource_result result)]).

Inductive SessionMove :=
  | CallMethod (command : SerialWorkerCommand)
  | CallEnqueue
  | CallAnswered
  | CallCancelled
  | CloseMethod
  | CloseReturned
  | CloseCancelled
  | DropSession.
Definition sp_session_move (m : SessionMove) (s : SpState) : option SpState :=
  match m, st_call s with
  | CallMethod command, CallIdle =>
      Some (match sp_check command s with
            | inr result => method_return (MethodCommand command) result s
            | inl command => with_call (CallChecked command) s
            end)
  | CallEnqueue, CallChecked command =>
      Some (match sp_enqueue command s with
            | Err e => method_return (MethodCommand command) (Err e) s
            | Ok queue =>
                mkSpState (st_control s) queue (st_receiver s) (st_phase s)
                  (CallWaiting (st_next s) command) (S (st_next s)) (st_fates s) (st_results s)
            end)
  | CallAnswered, CallWaiting id command =>
      match List.find (λ f, (f.1 =? id)%nat) (st_fates s) with
      | Some (_, Some result) => Some (method_return (MethodCommand command) result s)
      | Some (_, None) =>
          Some (method_return (MethodCommand command)
                  (Err (sp_internal (sp_operation command)
                          (sp_dropped_message command)))
                  (with_control sc_request_close s))
      | None => None
      end
  | CallCancelled, CallWaiting _ _ => Some (with_control sc_request_close (with_call CallIdle s))
  | CloseMethod, CallIdle => Some (with_control sc_request_close (with_call CallClosing s))
  | CloseReturned, CallClosing =>
      (λ result : HalResult unit, method_return MethodClose ((λ _, SpUnit) <$> result) s)
        <$> sc_completion (st_control s)
  | CloseCancelled, CallClosing => Some (with_call CallIdle s)
  | DropSession, (CallIdle | CallWaiting _ _ | CallClosing) =>
      Some (with_control sc_request_close (with_call CallDropped s))
  | _, _ => None
  end.

(** *** The thread *)
Definition with_phase (phase : SerialPhase) (s : SpState) : SpState :=
  mkSpState (st_control s) (st_queue s) (st_receiver s) phase (st_call s) (st_next s)
    (st_fates s) (st_results s).
Definition sp_send_reply (id : nat) (fate : option (HalResult SerialReply)) (s : SpState)
    : SpState :=
  mkSpState (st_control s) (st_queue s) (st_receiver s) (st_phase s) (st_call s) (st_next s)
    (st_fates s ++ [(id, fate)]) (st_results s).
Definition pop_command (s : SpState) : SpState :=
  mkSpState (st_control s) (tail (st_queue s)) (st_receiver s) (st_phase s) (st_call s)
    (st_next s) (st_fates s) (st_results s).
(** The receiver is dropped with whatever is still queued. *)
Definition drop_receiver (s : SpState) : SpState :=
  mkSpState (st_control s) [] false (st_phase s) (st_call s) (st_next s)
    (st_fates s ++ ((λ c, (c.1, None)) <$> st_queue s)) (st_results s).

(** [SPerformed] ends a native operation with its result, [SPanicked] by a panic;
    [SAdvance] is every other step. *)
Inductive ThreadMove :=
  | SAdvance
  | SPerformed (result : HalResult SerialReply)
  | SPanicked.
Definition thread_move (m : ThreadMove) (s : SpState) : option SpState :=
  match m, st_phase s with
  | SAdvance, SLoop =>
      Some (with_phase (if sc_is_open (st_control s) then SReceive else SDrain) s)
  | SAdvance, SReceive =>
      Some (match st_queue s with
            | (id, command) :: _ => with_phase (SReceived id command) (pop_command s)
            | [] =>
                if st_sender s then with_phase SLoop s
                else with_phase SDrain (with_control sc_request_close s)
            end)
  | SAdvance, SReceived id command =>
      Some (if sc_is_open (st_control s) then with_phase (SExecute id command) s
            else with_phase SDrain (sp_send_reply id (Some (sp_reject_closed command)) s))
  | SPerformed result, SExecute id command =>
      Some (with_phase (SReplying id command result)
              (with_control (settle_command command result) s))
  | SPanicked, SExecute id command =>
      Some (with_phase (SReturned true) (drop_receiver (sp_send_reply id None s)))
  | SAdvance, SReplying id command result =>
      Some (with_phase SLoop (sp_send_reply id (Some result) s))
  | SAdvance, SDrain =>
      Some (match st_queue s with
            | (id, command) :: _ => sp_send_reply id (Some (sp_reject_closed command)) (pop_command s)
            | [] => with_phase SDropping s
            end)
  | SAdvance, SDropping => Some (with_phase (SReturned false) (drop_receiver s))
  | SAdvance, SReturned panicked =>
      Some (if panicked : bool then
              with_phase (SFinishing (Err (sp_internal "serial.close" "serial worker panicked")))
                (with_control sc_request_close s)
            else
              let result :=
                match sc_terminal_error (st_control s) with Some e => Err e | None => Ok () end in
              with_phase (SFinishing result)
                (with_control sc_request_close
                   (with_control (λ c, (sc_take_terminal_error c).1) s)))
  | SAdvance, SFinishing result =>
      Some (with_phase SDone (with_control (sc_finish_actor result) s))
  | _, _ => None
  end.

(** ** Their interleavings *)
Inductive SerialMove := SerialSessionMove (m : SessionMove) | SerialThreadMove (m : ThreadMove).
Definition serial_move (m : SerialMove) (s : SpState) : option SpState :=
  match m with
  | SerialSessionMove m => sp_session_move m s
  | SerialThreadMove m => thread_move m s
  end.
Fixpoint serial_run (ms : list SerialMove) (s : SpState) : option SpState :=
  match ms with [] => Some s | m :: ms => serial_move m s ≫= serial_run ms end.
Inductive serial_reachable : SpState → Prop :=
  | serial_reach_spawn : serial_reachable spawn_session_worker
  | serial_reach_move m s s' :
      serial_reachable s → serial_move m s = Some s' → serial_reachable s'.
End moves.
