(* ===== verification/SerialSessionSpec.v ===== *)
(** * adapters/serialport: what a session promises

    The session and its thread as an interleaving: one command at a time, every call
    answered, a close that ends in bounded time, and a result that keeps_ports the error of the
    command it interrupted. *)

From S2P Require Import Prelude Core Native SerialRegistry SerialIo SerialIoSpec SerialSession.

(** The command that the thread holds. *)
Definition in_thread (p : SerialPhase) : list (nat * SerialWorkerCommand) :=
  match p with
  | SReceived id command | SExecute id command | SReplying id command _ => [(id, command)]
  | _ => []
  end.
(** The thread is in its loop, between two commands. *)
Definition between (p : SerialPhase) : bool :=
  match p with SLoop | SReceive => true | _ => false end.
(** The thread has left its loop other than by a panic. *)
Definition past_loop (p : SerialPhase) : bool :=
  match p with SDrain | SDropping | SReturned false | SFinishing _ | SDone => true | _ => false end.
Definition st_open (s : SpState) : bool := sc_is_open (st_control s).
Definition holds_receiver (p : SerialPhase) : bool :=
  match p with SReturned _ | SFinishing _ | SDone => false | _ => true end.
(** Past the last [try_recv]. *)
Definition drained (p : SerialPhase) : bool :=
  match p with SDropping | SReturned _ | SFinishing _ | SDone => true | _ => false end.
Definition is_execute (p : SerialPhase) : bool := match p with SExecute _ _ => true | _ => false end.

Record session_inv (s : SpState) : Prop := {
  (** every command that was sent is answered, in progress or queued, once and in order *)
  si_order : (st_fates s).*1 ++ (in_thread (st_phase s)).*1 ++ (st_queue s).*1 = seq 0 (st_next s);
  (** an open session between two calls has no command, and its thread waits *)
  si_rest : st_open s = true →
    match st_call s with
    | CallWaiting _ _ => True
    | CallIdle | CallChecked _ =>
        st_queue s = [] ∧ between (st_phase s) = true ∧ st_receiver s = true
    | _ => False
    end;
  si_checked : ∀ c, st_call s = CallChecked c → st_open s = true;
  si_one : (length (in_thread (st_phase s)) + length (st_queue s) <= 1)%nat;
  si_waiting : ∀ id c, st_call s = CallWaiting id c →
    S id = st_next s ∧
    (∀ c', (id, c') ∈ in_thread (st_phase s) ++ st_queue s → c' = c);
  si_panic : st_phase s = SReturned true → st_open s = true →
    ∃ fates id, st_fates s = fates ++ [(id, None)];
  si_past : past_loop (st_phase s) = true → st_open s = false;
  si_receiver : st_receiver s = holds_receiver (st_phase s);
  si_received : drained (st_phase s) = true → st_queue s = [];
  si_completion : is_some (sc_completion (st_control s)) = sp_is_done (st_phase s);
  si_closed : sc_lifecycle (st_control s) = LifecycleClosed ↔ st_phase s = SDone;
  si_error : st_open s = true ∨ is_execute (st_phase s) = true →
    sc_terminal_error (st_control s) = None;
}.

Lemma session_inv_spawn : session_inv spawn_session_worker.
Proof. split; cbn; try done; try lia. Qed.

Lemma open_request_close c : sc_is_open (sc_request_close c) = false.
Proof. unfold sc_request_close. destruct (sc_is_open c) eqn:E; [done|exact E]. Qed.
Lemma request_close_rest c :
  sc_terminal_error (sc_request_close c) = sc_terminal_error c ∧
  sc_completion (sc_request_close c) = sc_completion c ∧
  (sc_lifecycle (sc_request_close c) = LifecycleClosed ↔ sc_lifecycle c = LifecycleClosed).
Proof.
  unfold sc_request_close. destruct (sc_is_open c) eqn:E; [|done]. cbn.
  apply bool_decide_eq_true in E. by rewrite E.
Qed.
Lemma settle_command_spec command result c :
  let c' := settle_command command result c in
  sc_completion c' = sc_completion c ∧
  (sc_lifecycle c' = LifecycleClosed ↔ sc_lifecycle c = LifecycleClosed) ∧
  (sc_is_open c' = true → c' = c) ∧
  (sc_is_open c = false → sc_is_open c' = false).
Proof.
  assert (Hrec : ∀ T (r : HalResult T) c0, let c1 := sc_record_terminal_error r c0 in
    sc_completion c1 = sc_completion c0 ∧ sc_lifecycle c1 = sc_lifecycle c0 ∧
    (sc_is_open c0 = true → c1 = c0)).
  { intros T r c0. unfold sc_record_terminal_error. repeat case_match; done. }
  assert (Hsame : ∀ c0 c1, sc_lifecycle c1 = sc_lifecycle c0 → sc_is_open c1 = sc_is_open c0)
    by (unfold sc_is_open; by intros ?? ->).
  unfold settle_command.
  match goal with |- context [sc_record_terminal_error _ ?c1] => set (c0 := c1) end.
  assert (Hc0 : c0 = c ∨ c0 = sc_request_close c) by (unfold c0; repeat case_match; auto).
  destruct (Hrec _ result c0) as (H1 & H2 & H3). rewrite H1, H2, (Hsame _ _ H2).
  destruct (request_close_rest c) as (_ & Hc & Hl). pose proof (open_request_close c).
  destruct Hc0 as [Hc0|Hc0]; rewrite Hc0 in *; split_and!; auto; congruence.
Qed.

Section session.
Context (descriptor : ResourceDescriptor).
Implicit Types s : SpState.

(** Closing keeps_ports the invariant, whatever the session does next. *)
Lemma session_inv_close call s :
  session_inv s → (∀ c, call ≠ CallChecked c) →
  (∀ id c, call = CallWaiting id c → st_call s = CallWaiting id c) →
  session_inv (with_control sc_request_close (with_call call s)).
Proof.
  intros [] Hnc Hw. destruct (request_close_rest (st_control s)) as (Ht & Hc & Hl).
  pose proof (open_request_close (st_control s)) as Ho.
  split; unfold st_open in *; cbn in *; rewrite ?Ht, ?Hc, ?Hl, ?Ho; try done.
  - intros c ->. by destruct (Hnc c).
  - intros id c E. apply (si_waiting0 id c), Hw, E.
  - intros [?|He]; [done|]. apply si_error0. by right.
Qed.
Lemma session_inv_return method result s :
  session_inv s → (st_open s = true → match st_call s with CallIdle | CallChecked _ => True
                                       | CallWaiting _ _ => st_queue s = [] ∧ between (st_phase s) = true ∧ st_receiver s = true
                                       | _ => False end) →
  session_inv (method_return descriptor method result s).
Proof.
  intros [] Hr. split; unfold st_open in *; cbn in *; try done.
  intros Ho. specialize (si_rest0 Ho). specialize (Hr Ho). by destruct (st_call s).
Qed.

Lemma in_thread_between p : between p = true → in_thread p = [].
Proof. by destruct p. Qed.

(** When the last command is answered, no command is left. *)
Lemma answered_last s id fate :
  session_inv s → (id, fate) ∈ st_fates s → S id = st_next s →
  st_queue s = [] ∧ in_thread (st_phase s) = [].
Proof.
  intros [] Hf Hn. apply (f_equal length) in si_order0 as Hlen.
  rewrite !length_app, !length_fmap, length_seq in Hlen.
  assert (id < length (st_fates s))%nat.
  { apply list_elem_of_lookup in Hf as [i Hi].
    assert (((st_fates s).*1 ++ (in_thread (st_phase s)).*1 ++ (st_queue s).*1) !! i = Some id) as Hs.
    { apply lookup_app_l_Some. by rewrite list_lookup_fmap, Hi. }
    rewrite si_order0 in Hs. apply lookup_seq in Hs as [Hs _]. simpl in Hs. subst i.
    by apply lookup_lt_Some in Hi. }
  split; apply nil_length_inv; lia.
Qed.
Lemma fate_unique s id fate fate' :
  session_inv s → (id, fate) ∈ st_fates s → (id, fate') ∈ st_fates s → fate = fate'.
Proof.
  intros [] H1 H2. assert (Hnd : NoDup (st_fates s).*1).
  { assert (NoDup ((st_fates s).*1 ++ ((in_thread (st_phase s)).*1 ++ (st_queue s).*1))) as Hnd
      by (rewrite si_order0; apply NoDup_seq). apply NoDup_app in Hnd. tauto. }
  apply (elem_of_list_to_map_1 (M := gmap nat)) in H1, H2; [congruence|done..].
Qed.
Lemma find_fate s id f :
  List.find (λ f, (f.1 =? id)%nat) (st_fates s) = Some f → f.1 = id ∧ f ∈ st_fates s.
Proof.
  intros [Hin He]%find_some. by apply Nat.eqb_eq in He; apply list_elem_of_In in Hin.
Qed.
(** An answered call leaves an open session at rest. *)
Lemma answered_at_rest s id c result :
  session_inv s → st_call s = CallWaiting id c → (id, Some result) ∈ st_fates s →
  st_open s = true →
  st_queue s = [] ∧ between (st_phase s) = true ∧ st_receiver s = true.
Proof.
  intros Hinv Hc Hf Ho. destruct (si_waiting _ Hinv _ _ Hc) as [Hn _].
  destruct (answered_last _ _ _ Hinv Hf Hn) as [Hq Ht]. rewrite (si_receiver _ Hinv).
  pose proof (si_past _ Hinv) as Hp. rewrite Ho in Hp.
  destruct (st_phase s) as [| | | | | | |[]| |] eqn:E; try done; try (by specialize (Hp eq_refl)).
  exfalso. destruct (si_panic _ Hinv E Ho) as (fates & id' & Hl).
  assert (id' = id) as ->.
  { pose proof (si_order _ Hinv) as Hs. rewrite E, Hq, Hl in Hs. simpl in Hs.
    rewrite app_nil_r, fmap_app, <- Hn, seq_S in Hs. simpl in Hs.
    by apply app_inj_tail in Hs as [_ ->]. }
  assert ((id, None) ∈ st_fates s) as Hf' by (rewrite Hl; apply elem_of_app; right; by left).
  by pose proof (fate_unique _ _ _ _ Hinv Hf Hf').
Qed.

Lemma with_call_same s : with_call (st_call s) s = s.
Proof. by destruct s. Qed.
Lemma session_move_inv m s s' :
  session_inv s → sp_session_move descriptor m s = Some s' → session_inv s'.
Proof.
  intros Hinv E. destruct m; unfold sp_session_move in E;
    destruct (st_call s) as [|c|id c| |] eqn:Hc; try discriminate E.
  - injection E as <-. unfold sp_check, sp_ensure_open.
    destruct (sc_is_open (st_control s)) eqn:Ho;
      [|apply session_inv_return; [done|]; unfold st_open; by rewrite Ho].
    assert (Hret : ∀ m r, session_inv (method_return descriptor m r s))
      by (intros; apply session_inv_return; [done|]; by rewrite Hc).
    assert (Hchk : ∀ c, session_inv (with_call (CallChecked c) s)).
    { intros c. destruct Hinv. split; cbn; try done. rewrite Hc in si_rest0. exact si_rest0. }
    destruct command as [|[]| |]; try done. by destruct (_ =? 0).
  - injection E as <-. pose proof (si_checked _ Hinv _ Hc) as Ho.
    pose proof (si_rest _ Hinv Ho) as Hr. rewrite Hc in Hr. destruct Hr as (Hq & Hb & Hr).
    unfold sp_enqueue. rewrite Hr, Hq. simpl. pose proof (in_thread_between _ Hb) as Ht.
    destruct Hinv. split; cbn in *; rewrite ?Ht in *; try done.
    + rewrite Hq in si_order0. simpl in *. rewrite ?app_nil_r in si_order0.
      rewrite si_order0. exact (eq_sym (seq_S (st_next s) 0)).
    + intros id c' [= <- <-]. split; [done|]. intros c'. simpl.
      intros [[= ->]|?]%elem_of_cons; [done|by apply not_elem_of_nil in H].
    + by destruct (st_phase s).
    + by destruct (st_phase s).
  - destruct (List.find _ _) as [[id' [result|]]|] eqn:Ef; [| |done]; injection E as <-;
      apply find_fate in Ef as [Hid Hin]; simpl in Hid; subst id'.
    + apply session_inv_return; [done|]. intros Ho. rewrite Hc. exact (answered_at_rest _ _ _ _ Hinv Hc Hin Ho).
    + apply session_inv_return.
      * rewrite <- (with_call_same s), Hc. apply session_inv_close; [done..|].
        intros ?? <-. exact Hc.
      * unfold st_open. cbn. by rewrite open_request_close.
  - injection E as <-. by apply session_inv_close.
  - injection E as <-. by apply session_inv_close.
  - destruct (sc_completion _) eqn:Ec; [|done]. simpl in E. injection E as <-.
    apply session_inv_return; [done|]. intros Ho.
    pose proof (si_completion _ Hinv) as Hd. rewrite Ec in Hd.
    rewrite (si_past _ Hinv) in Ho; [done|]. by destruct (st_phase s).
  - injection E as <-. assert (Ho : st_open s = false).
    { destruct (st_open s) eqn:Ho; [|done]. pose proof (si_rest _ Hinv Ho) as Hr. by rewrite Hc in Hr. }
    destruct Hinv. split; unfold st_open in *; cbn in *; rewrite ?Ho in *; done.
  - injection E as <-. by apply session_inv_close.
  - injection E as <-. by apply session_inv_close.
  - injection E as <-. by apply session_inv_close.
Qed.

(** What holds of an open session whose thread is past its first step on a command. *)
Lemma waiting_of_command s id c :
  session_inv s → st_open s = true → (id, c) ∈ in_thread (st_phase s) ++ st_queue s →
  ∃ id' c', st_call s = CallWaiting id' c'.
Proof.
  intros Hinv Ho Hin. pose proof (si_rest _ Hinv Ho) as Hr.
  destruct (st_call s); try done; try (by eexists _, _);
    destruct Hr as (Hq & Hb & _); rewrite Hq, (in_thread_between _ Hb) in Hin;
    by apply not_elem_of_nil in Hin.
Qed.
Lemma open_waiting s : session_inv s → st_open s = true → between (st_phase s) = false →
  ∃ id c, st_call s = CallWaiting id c.
Proof.
  intros Hinv Ho Hb. pose proof (si_rest _ Hinv Ho) as Hr.
  destruct (st_call s); try done; try (by eexists _, _); by destruct Hr as (_ & Hr & _); rewrite Hr in Hb.
Qed.

(** A step of the thread that only changes its place, on a session that is closing. *)
Lemma session_inv_phase p s :
  session_inv s → st_open s = false → in_thread p = in_thread (st_phase s) →
  holds_receiver p = holds_receiver (st_phase s) → is_execute p = false →
  sp_is_done p = false → sp_is_done (st_phase s) = false → (drained p = true → st_queue s = []) →
  session_inv (with_phase p s).
Proof.
  intros [] Ho Ht Hr He Hd Hd' Hdr. split; unfold st_open in *; cbn in *; rewrite ?Ht, ?Hr, ?Ho in *; try done.
  - by rewrite Hd, <- Hd'.
  - split; [|by intros ->]. intros Hc. apply si_closed0 in Hc. by rewrite Hc in Hd'.
  - rewrite He. by intros [?|?].
Qed.
Lemma session_inv_request_close s :
  session_inv s → (∀ c, st_call s ≠ CallChecked c) → session_inv (with_control sc_request_close s).
Proof. intros Hinv Hc. rewrite <- (with_call_same s). by apply session_inv_close. Qed.

(** The thread answers the command it holds and goes on. *)
Lemma session_inv_reply p s id c result :
  session_inv s → in_thread (st_phase s) = [(id, c)] → in_thread p = [] →
  holds_receiver p = true → is_execute p = false → (past_loop p = true → st_open s = false) →
  (drained p = true → st_queue s = []) →
  session_inv (with_phase p (sp_send_reply id (Some result) s)).
Proof.
  intros [] Ht Hp Hr He Hpast Hdr. assert (Hph : holds_receiver (st_phase s) = true ∧ between (st_phase s) = false
    ∧ sp_is_done (st_phase s) = false ∧ sp_is_done p = false).
  { by destruct (st_phase s), p. }
  destruct Hph as (Hh & Hb & Hd & Hd').
  split; unfold st_open in *; cbn in *; rewrite ?Ht, ?Hp, ?Hr, ?Hh, ?He, ?Hd, ?Hd', ?Hb in *; try done.
  - rewrite fmap_app, <- app_assoc. exact si_order0.
  - intros Ho. specialize (si_rest0 Ho). destruct (st_call s); naive_solver.
  - simpl in *. lia.
  - intros id' c' Hw. destruct (si_waiting0 _ _ Hw) as [? Hc]. split; [done|].
    intros c2 H2. apply Hc. simpl. by right.
  - intros ->. done.
  - split; [intros Hc; apply si_closed0 in Hc; by rewrite Hc in Hd|by intros ->].
  - intros [Ho|?]; [apply si_error0; by left|done].
Qed.
(** The receiver goes, with what is left in the queue. *)
Lemma session_inv_drop_receiver panicked s :
  session_inv s → st_phase s = SDropping → session_inv (with_phase (SReturned panicked) (drop_receiver s)).
Proof.
  intros [] Hp. assert (Ho : st_open s = false) by (apply si_past0; by rewrite Hp).
  split; unfold st_open in *; cbn in *; rewrite ?Hp, ?Ho in *; try done.
  - rewrite app_nil_r, fmap_app, <- list_fmap_compose. exact si_order0.
  - lia.
  - intros id c Hw. destruct (si_waiting0 _ _ Hw) as [? _]. split; [done|]. by intros ? ?%not_elem_of_nil.
  - split; [intros Hc; by apply si_closed0 in Hc|done].
Qed.
Lemma session_inv_panic s id c :
  session_inv s → st_phase s = SExecute id c →
  session_inv (with_phase (SReturned true) (drop_receiver (sp_send_reply id None s))).
Proof.
  intros [] Hp. rewrite Hp in si_one0. simpl in si_one0.
  assert (Hq : st_queue s = []) by (apply nil_length_inv; lia).
  split; unfold st_open in *; cbn in *; rewrite ?Hp, ?Hq in *; try done.
  - simpl. by rewrite !app_nil_r, fmap_app.
  - intros Ho. specialize (si_rest0 Ho). destruct (st_call s); naive_solver.
  - lia.
  - intros id' c' Hw. destruct (si_waiting0 _ _ Hw) as [? _]. split; [done|]. by intros ? ?%not_elem_of_nil.
  - intros _ _. exists (st_fates s), id. simpl. by rewrite app_nil_r.
  - split; [intros Hc; by apply si_closed0 in Hc|done].
  - intros [Ho|?]; [apply si_error0; by left|done].
Qed.

Lemma session_inv_take s :
  session_inv s → session_inv (with_control (λ c, (sc_take_terminal_error c).1) s).
Proof. intros []. split; done. Qed.

Lemma thread_move_inv m s s' :
  session_inv s → thread_move m s = Some s' → session_inv s'.
Proof.
  intros Hinv E. destruct m; unfold thread_move in E;
    destruct (st_phase s) as [| |id c|id c|id c r| | |panicked|r|] eqn:Hp; try discriminate E;
    injection E as <-.
  - destruct (sc_is_open (st_control s)) eqn:Ho; destruct Hinv;
      split; unfold st_open in *; cbn in *; rewrite ?Hp, ?Ho in *; try done; naive_solver.
  - destruct (st_queue s) as [|[id c] queue] eqn:Hq.
    + destruct (st_sender s) eqn:Hs.
      * destruct Hinv; split; unfold st_open in *; cbn in *; rewrite ?Hp, ?Hq in *; try done; naive_solver.
      * apply session_inv_phase; cbn; rewrite ?Hp; try done; [|apply open_request_close].
        apply session_inv_request_close; [done|]. intros c Hc. unfold st_sender in Hs. by rewrite Hc in Hs.
    + destruct Hinv; split; unfold st_open in *; cbn in *; rewrite ?Hp, ?Hq in *; try done.
      * intros Ho. specialize (si_rest0 Ho). destruct (st_call s); naive_solver.
      * split; [intros Hc; by apply si_closed0 in Hc|done].
  - destruct (sc_is_open (st_control s)) eqn:Ho.
    + destruct Hinv. split; unfold st_open in *; cbn in *; rewrite ?Hp in *; try done.
      * split; [intros Hc; by apply si_closed0 in Hc|done].
      * intros _. apply si_error0. by left.
    + eapply session_inv_reply; [done|by rewrite Hp|done..].
  - eapply session_inv_reply; [done|by rewrite Hp|done..].
  - destruct (st_queue s) as [|[id c] queue] eqn:Hq.
    + apply session_inv_phase; rewrite ?Hp; try done. apply (si_past _ Hinv). by rewrite Hp.
    + assert (Ho : st_open s = false) by (apply (si_past _ Hinv); by rewrite Hp).
      destruct Hinv. split; unfold st_open in *; cbn in *; rewrite ?Hp, ?Hq, ?Ho in *; try done.
      * rewrite fmap_app, <- app_assoc. exact si_order0.
      * simpl in *. lia.
      * intros id' c' Hw. destruct (si_waiting0 _ _ Hw) as [? Hc]. split; [done|].
        intros c2 H2. apply Hc. by right.
  - by apply session_inv_drop_receiver.
  - assert (Hnc : ∀ c, st_call s ≠ CallChecked c).
    { intros c Hc. pose proof (si_rest _ Hinv (si_checked _ Hinv _ Hc)) as Hr. rewrite Hc, Hp in Hr. naive_solver. }
    destruct panicked; (apply session_inv_phase; cbn; rewrite ?Hp; try done;
      [|apply open_request_close|intros _; apply (si_received _ Hinv); by rewrite Hp]);
      apply session_inv_request_close; try done.
    by apply session_inv_take.
  - assert (Ho : st_open s = false) by (apply (si_past _ Hinv); by rewrite Hp).
    destruct Hinv. split; unfold st_open in *; cbn in *; rewrite ?Hp, ?Ho in *; try done; naive_solver.
  - destruct (settle_command_spec c result (st_control s)) as (Hcomp & Hlife & Hopen & Hclosed).
    destruct Hinv. split; unfold st_open in *; cbn in *; rewrite ?Hp, ?Hcomp, ?Hlife in *; try done.
    + intros Ho. apply si_rest0. by rewrite <- (Hopen Ho).
    + intros c' Hc. specialize (si_rest0 (si_checked0 _ Hc)). rewrite Hc in si_rest0. naive_solver.
    + split; [intros Hc; by apply si_closed0 in Hc|done].
    + intros [Ho|?]; [|done]. rewrite (Hopen Ho). apply si_error0. by right.
  - by eapply session_inv_panic.
Qed.

Lemma serial_move_inv m s s' : session_inv s → serial_move descriptor m s = Some s' → session_inv s'.
Proof. destruct m; [apply session_move_inv|apply thread_move_inv]. Qed.
Lemma serial_reachable_inv s : serial_reachable descriptor s → session_inv s.
Proof. induction 1; [apply session_inv_spawn|by eapply serial_move_inv]. Qed.
Lemma serial_run_inv ms s s' :
  session_inv s → serial_run descriptor ms s = Some s' → session_inv s'.
Proof.
  revert s. induction ms as [|m ms IH]; cbn; intros s Hinv E; [by injection E as <-|].
  destruct (serial_move descriptor m s) as [s1|] eqn:Em; [|done].
  simpl in E. by eapply IH; [eapply serial_move_inv|].
Qed.

(** One command at a time is all a serial session ever needs.  Whatever the caller calls,
    cancels or closes and whatever the thread is doing, a call that has found the session
    open finds the queue of one command empty and the thread waiting for it, so its command
    is accepted: the refusals "queue full" and "worker no longer available" are never
    given. *)
Theorem serial_one_command s c :
  serial_reachable descriptor s → st_call s = CallChecked c →
  sp_enqueue c s = Ok [(st_next s, c)] ∧ between (st_phase s) = true.
Proof.
  intros Hinv%serial_reachable_inv Hc.
  pose proof (si_rest _ Hinv (si_checked _ Hinv _ Hc)) as Hr. rewrite Hc in Hr.
  destruct Hr as (Hq & Hb & Hr). unfold sp_enqueue. by rewrite Hr, Hq.
Qed.

(** ** Closing *)
Definition is_thread_move (m : SerialMove) : bool :=
  match m with SerialThreadMove _ => true | _ => false end.
Definition thread_moves (ms : list SerialMove) : nat := length (List.filter is_thread_move ms).
Definition phase_rank (p : SerialPhase) : nat :=
  match p with
  | SExecute _ _ => 12 | SReplying _ _ _ => 11 | SReceive => 10 | SLoop => 9 | SReceived _ _ => 9
  | SDrain => 5 | SDropping => 4 | SReturned _ => 3 | SFinishing _ => 2 | SDone => 0
  end.
Definition closing_measure (s : SpState) : nat := phase_rank (st_phase s) + 2 * length (st_queue s).

Lemma closing_thread_move m s s' :
  session_inv s → st_open s = false → thread_move m s = Some s' →
  (closing_measure s' < closing_measure s)%nat ∧ st_open s' = false ∧ is_execute (st_phase s') = false.
Proof.
  intros Hinv Ho E. pose proof (si_received _ Hinv) as Hq. unfold closing_measure, st_open in *.
  destruct m; unfold thread_move in E;
    destruct (st_phase s) as [| |id c|id c|id c r| | |panicked|r|] eqn:Hp; try discriminate E;
    injection E as <-; rewrite ?Ho.
  - cbn. split_and!; [lia|done..].
  - destruct (st_queue s) as [|[id c] queue] eqn:Eq; [destruct (st_sender s)|]; cbn;
      rewrite ?Eq; cbn; (split_and!; [lia| |done]); rewrite ?open_request_close; done.
  - cbn. split_and!; [lia|done..].
  - cbn. split_and!; [lia|done..].
  - destruct (st_queue s) as [|[id c] queue] eqn:Eq; cbn; rewrite ?Eq; cbn; rewrite ?Hp; cbn;
      split_and!; try lia; done.
  - cbn. split_and!; [lia|done..].
  - destruct panicked; cbn; (split_and!; [lia|apply open_request_close|done]).
  - cbn. split_and!; [lia|done..].
  - cbn. split_and!; [lia| |done]. by apply settle_command_spec.
  - cbn. split_and!; [lia|done..].
Qed.
Lemma closing_session_move m s s' :
  session_inv s → st_open s = false → sp_session_move descriptor m s = Some s' →
  closing_measure s' = closing_measure s ∧ st_open s' = false ∧ st_phase s' = st_phase s.
Proof.
  intros Hinv Ho E. assert (Hnc : ∀ c, st_call s ≠ CallChecked c)
    by (intros c Hc; apply (si_checked _ Hinv) in Hc; congruence).
  unfold st_open, closing_measure in *. destruct m; unfold sp_session_move in E;
    destruct (st_call s) as [|c|id c| |] eqn:Hc; try discriminate E; try (by destruct (Hnc c)).
  - injection E as <-. unfold sp_check, sp_ensure_open. rewrite Ho. done.
  - destruct (List.find _ _) as [[id' [result|]]|]; [| |done]; injection E as <-; cbn;
      rewrite ?open_request_close; done.
  - injection E as <-. cbn. by rewrite open_request_close.
  - injection E as <-. cbn. by rewrite open_request_close.
  - destruct (sc_completion _); [|done]. simpl in E. by injection E as <-.
  - by injection E as <-.
  - injection E as <-. cbn. by rewrite open_request_close.
  - injection E as <-. cbn. by rewrite open_request_close.
  - injection E as <-. cbn. by rewrite open_request_close.
Qed.

Lemma closing_run ms s s' :
  session_inv s → st_open s = false → serial_run descriptor ms s = Some s' →
  (thread_moves ms + closing_measure s' <= closing_measure s)%nat ∧ st_open s' = false ∧
  (is_execute (st_phase s') = true → is_execute (st_phase s) = true ∧ thread_moves ms = 0%nat).
Proof.
  revert s. induction ms as [|m ms IH]; cbn; intros s Hinv Ho E; [injection E as <-; auto|].
  destruct (serial_move descriptor m s) as [s1|] eqn:Em; [|done]. simpl in E.
  destruct (IH s1 (serial_move_inv _ _ _ Hinv Em)) as (Hm & Ho' & He); [|done|].
  - destruct m; [by eapply closing_session_move|by eapply closing_thread_move].
  - destruct m as [m|m]; cbn.
    + destruct (closing_session_move _ _ _ Hinv Ho Em) as (Hk & _ & Hp). rewrite Hp in He.
      rewrite Hk in Hm. by split_and!.
    + destruct (closing_thread_move _ _ _ Hinv Ho Em) as (Hk & _ & Hne). unfold thread_moves in *.
      split_and!; [cbn; lia|done|]. intros Hx. destruct (He Hx) as [Hx' _]. congruence.
Qed.
Lemma thread_can_move s : sp_is_done (st_phase s) = false → ∃ m s', thread_move m s = Some s'.
Proof.
  destruct (st_phase s) eqn:Hp; try done; intros _;
    try (exists SAdvance; unfold thread_move; rewrite Hp; by eexists).
  exists (SPerformed (Ok SpUnit)). unfold thread_move. rewrite Hp. by eexists.
Qed.

(** C20: Closing a serial session ends its thread.  Once the session is no longer open (a close, a
    dropped session, a call whose future was dropped, a flush that timed out), whatever is
    interleaved: the session never opens again, no command starts executing any more, the
    thread takes at most 13 more steps, it can always take one until it has published how
    it ended, and then a caller in [close] gets that answer. *)
Theorem serial_session_close_terminates ms s s' :
  serial_reachable descriptor s → st_open s = false → serial_run descriptor ms s = Some s' →
  st_open s' = false ∧
  (is_execute (st_phase s') = true → is_execute (st_phase s) = true ∧ thread_moves ms = 0%nat) ∧
  (thread_moves ms <= 13)%nat ∧
  match sc_completion (st_control s') with
  | None => ∃ m s'', thread_move m s' = Some s''
  | Some result =>
      sc_lifecycle (st_control s') = LifecycleClosed ∧
      (st_call s' = CallClosing → ∃ s'', sp_session_move descriptor CloseReturned s' = Some s'' ∧
         st_results s'' = st_results s'
           ++ [(MethodClose, sp_resource_result descriptor ((λ _, SpUnit) <$> result))])
  end.
Proof.
  intros Hinv%serial_reachable_inv Ho E. destruct (closing_run _ _ _ Hinv Ho E) as (Hm & Ho' & He).
  pose proof (serial_run_inv _ _ _ Hinv E) as Hinv'. split_and!; [done|done| |].
  - assert (closing_measure s <= 13)%nat; [|lia]. pose proof (si_one _ Hinv). unfold closing_measure.
    destruct (st_phase s); cbn in *; lia.
  - pose proof (si_completion _ Hinv') as Hd. pose proof (si_closed _ Hinv') as Hl.
    destruct (sc_completion (st_control s')) as [result|] eqn:Hc; simpl in Hd.
    + split; [apply Hl; by destruct (st_phase s')|]. intros Hcall. unfold sp_session_move.
      rewrite Hcall, Hc. by eexists.
    + by apply thread_can_move.
Qed.

(** The error of the last command, once recorded, stays until it is the answer of [close]. *)
Definition kept_error (e : HalError) (s : SpState) : Prop :=
  st_open s = false ∧
  match st_phase s with
  | SDone => sc_completion (st_control s) = Some (Err e)
  | SFinishing result => result = Err e
  | SReturned panicked => panicked = false ∧ sc_terminal_error (st_control s) = Some e
  | SExecute _ _ => False
  | _ => sc_terminal_error (st_control s) = Some e
  end.
Lemma kept_error_move e m s s' :
  session_inv s → serial_move descriptor m s = Some s' → kept_error e s → kept_error e s'.
Proof.
  intros Hinv Em [Ho Hk]. unfold kept_error. destruct m as [m|m]; simpl in Em.
  - destruct (closing_session_move _ _ _ Hinv Ho Em) as (_ & Ho' & Hp). split; [done|]. rewrite Hp.
    assert (Hsame : sc_terminal_error (st_control s') = sc_terminal_error (st_control s) ∧
                    sc_completion (st_control s') = sc_completion (st_control s)).
    { destruct (request_close_rest (st_control s)) as (Ht & Hc & _).
      unfold sp_session_move in Em. repeat case_match; simplify_option_eq; done. }
    destruct Hsame as [-> ->]. exact Hk.
  - destruct (closing_thread_move _ _ _ Hinv Ho Em) as (_ & Ho' & _). split; [done|].
    destruct (request_close_rest (st_control s)) as (Ht & _ & _). unfold st_open in Ho.
    unfold thread_move in Em. repeat case_match; simplify_eq; cbn in *; try congruence; try tauto.
    all: try (by destruct Hk).
    all: destruct_and?; try (split; congruence); congruence.
Qed.

Lemma kept_error_run e ms s s' :
  session_inv s → serial_run descriptor ms s = Some s' → kept_error e s → kept_error e s'.
Proof.
  revert s. induction ms as [|m ms IH]; cbn; intros s Hinv E Hk; [by injection E as <-|].
  destruct (serial_move descriptor m s) as [s1|] eqn:Em; [|done]. simpl in E.
  eapply IH; [by eapply serial_move_inv|done|by eapply kept_error_move].
Qed.

(** A close reports what went wrong in the command it interrupted.  When the native
    operation of a command fails and the session is closing at that moment, or is closed
    because a flush timed out, then, unless the error only says that the session ended,
    it is exactly that error that the thread publishes and [close] returns, whatever
    happens in between. *)
Theorem serial_close_keeps_error s id c e s1 ms s' r :
  serial_reachable descriptor s → st_phase s = SExecute id c →
  thread_move (SPerformed (Err e)) s = Some s1 → st_open s1 = false → is_terminal_error e = true →
  serial_run descriptor ms s1 = Some s' → sc_completion (st_control s') = Some r → r = Err e.
Proof.
  intros Hinv%serial_reachable_inv Hp Em Ho He E Hr.
  pose proof (thread_move_inv _ _ _ Hinv Em) as Hinv1.
  assert (kept_error e s') as [_ Hk].
  { eapply kept_error_run; [exact Hinv1|exact E|]. split; [done|].
    unfold thread_move in Em. rewrite Hp in Em. injection Em as <-. unfold st_open in Ho. cbn in *.
    assert (Ht : sc_terminal_error (st_control s) = None)
      by (apply (si_error _ Hinv); right; by rewrite Hp).
    destruct (request_close_rest (st_control s)) as (Htc & _ & _).
    unfold settle_command, sc_record_terminal_error in *. rewrite He in *.
    repeat case_match; simplify_eq; cbn in *; bool_simp; congruence. }
  pose proof (si_completion _ (serial_run_inv _ _ _ Hinv1 E)) as Hd. rewrite Hr in Hd. simpl in Hd.
  destruct (st_phase s'); try done. by simplify_eq.
Qed.

(** ** Answers *)
Definition fate_of (s : SpState) (id : nat) : option (nat * option (HalResult SerialReply)) :=
  List.find (λ f, (f.1 =? id)%nat) (st_fates s).
(** What a waiting call will be told when the native operation, if it still has to end,
    answers [result]. *)
Definition expected_answer (s : SpState) (id : nat) (c : SerialWorkerCommand)
    (result : HalResult SerialReply) : HalResult SerialReply :=
  match fate_of s id with
  | Some (_, Some r) => r
  | Some (_, None) => Err (sp_internal (sp_operation c) (sp_dropped_message c))
  | None =>
      match st_phase s with
      | SExecute _ _ => result
      | SReplying _ _ r => r
      | _ => if st_open s then result else sp_reject_closed c
      end
  end.

Lemma waiting_placed s id c :
  session_inv s → st_call s = CallWaiting id c → fate_of s id = None →
  in_thread (st_phase s) ++ st_queue s = [(id, c)].
Proof.
  intros Hinv Hc Hf. destruct (si_waiting _ Hinv _ _ Hc) as [Hn Hcmd].
  assert (Hin : id ∈ (in_thread (st_phase s) ++ st_queue s).*1).
  { assert (id ∈ (st_fates s).*1 ++ (in_thread (st_phase s)).*1 ++ (st_queue s).*1) as Hin
      by (rewrite (si_order _ Hinv); apply elem_of_seq; lia).
    rewrite fmap_app. apply elem_of_app in Hin as [Hin|Hin]; [|done].
    apply list_elem_of_fmap in Hin as ([id' f] & -> & Hin). apply list_elem_of_In in Hin.
    pose proof (find_none _ _ Hf _ Hin) as Hx. simpl in Hx. by rewrite Nat.eqb_refl in Hx. }
  pose proof (si_one _ Hinv) as Hone. rewrite <- length_app in Hone.
  apply list_elem_of_fmap in Hin as ([id' c'] & Hid & Hin). simpl in Hid. subst id'.
  rewrite (Hcmd _ Hin) in Hin. destruct (_ ++ _) as [|x [|]]; [by apply not_elem_of_nil in Hin| |simpl in Hone; lia].
  by apply list_elem_of_singleton in Hin as <-.
Qed.
Lemma fate_snoc s id r :
  fate_of s id = None → List.find (λ f, (f.1 =? id)%nat) (st_fates s ++ [(id, r)]) = Some (id, r).
Proof.
  unfold fate_of. induction (st_fates s) as [|f l IH]; simpl; [by rewrite Nat.eqb_refl|].
  by destruct (_ =? _)%nat.
Qed.

(** The moves of the thread that bring a waiting call its answer. *)
Definition moves_to_answer (s : SpState) (id : nat) (result : HalResult SerialReply)
    : list ThreadMove :=
  match fate_of s id, st_phase s with
  | Some _, _ => []
  | None, SLoop =>
      if st_open s then [SAdvance; SAdvance; SAdvance; SPerformed result; SAdvance]
      else [SAdvance; SAdvance]
  | None, SReceive =>
      if st_open s then [SAdvance; SAdvance; SPerformed result; SAdvance] else [SAdvance; SAdvance]
  | None, SReceived _ _ =>
      if st_open s then [SAdvance; SPerformed result; SAdvance] else [SAdvance]
  | None, SExecute _ _ => [SPerformed result; SAdvance]
  | None, _ => [SAdvance]
  end.

(** C19: Every call on a serial session is answered, with the answer to its own command.  In
    whatever state a call is waiting, at most five steps of the thread, none of which
    waits for the caller, let it return: with what its native operation answered; or,
    where the session closed before the operation began, with "session is closing"; or,
    where the thread panicked in it, with an internal error. *)
Theorem serial_call_answered s id c result :
  serial_reachable descriptor s → st_call s = CallWaiting id c →
  ∃ s', serial_run descriptor
          ((SerialThreadMove <$> moves_to_answer s id result) ++ [SerialSessionMove CallAnswered]) s
          = Some s' ∧
    (length (moves_to_answer s id result) <= 5)%nat ∧ st_call s' = CallIdle ∧
    st_results s' = st_results s
      ++ [(MethodCommand c, sp_resource_result descriptor (expected_answer s id c result))].
Proof.
  intros Hinv%serial_reachable_inv Hc.
  pose proof (waiting_placed _ _ _ Hinv Hc) as Hplace. pose proof (fate_snoc s id) as Hsnoc.
  pose proof (si_past _ Hinv) as Hpast. pose proof (si_received _ Hinv) as Hq.
  unfold moves_to_answer, expected_answer. destruct (fate_of s id) as [[id' fate]|] eqn:Hf.
  - unfold fate_of in Hf. destruct fate; cbn; rewrite Hc, Hf; simpl; eexists;
      (split; [done|]); split_and!; done || (simpl; lia).
  - specialize (Hplace eq_refl). assert (Hs := λ r, Hsnoc r eq_refl). clear Hsnoc Hinv.
    destruct s as [ctl queue recv phase call next fates results]. unfold st_open in *. cbn in *. subst call.
    destruct phase; simpl in *; simplify_eq; try (by specialize (Hq eq_refl)).
    all: try (destruct (sc_is_open ctl) eqn:Ho; [|try (by specialize (Hpast eq_refl))]).
    all: repeat (cbn; rewrite ?Ho); rewrite Hs; cbn; eexists; (split; [done|]); split_and!;
      done || (simpl; lia).
Qed.
End session.

(** ** The native operations *)
Section perform.
Context {W : Type} `{SerialIo W} (clock : W → Z) (sent received : W → Bytes).
Context `{!SerialIoLaws clock sent received}.
Implicit Types w : W.

(** C17: The native operation of every serial command ends, and moves exactly the bytes it
    reports.  On a machine whose native calls take time, a command whose timeout is at most
    [n] clock ticks ends within [n] rounds.  A read gives the bytes it took from the port,
    at least one and at most as many as asked for, and takes none when it fails.  A write
    sends a prefix of its bytes in order, all of them when it succeeds.  A flush and a
    change of the control lines move none, and a flush that succeeds has seen an empty
    output queue. *)
Theorem serial_perform_exact n timeout c w :
  timeout <= Z.of_nat n →
  ∃ w' r, perform (S n) timeout c w = Some (w', r) ∧
    match c with
    | SpRead max_bytes =>
        sent w' = sent w ∧
        match r with
        | Ok (SpBytes bytes) => 1 <= len bytes <= max_bytes ∧ received w' = received w ++ bytes
        | Ok SpUnit => False
        | Err _ => received w' = received w
        end
    | SpWrite bytes =>
        received w' = received w ∧
        ∃ k, sent w' = sent w ++ take k bytes ∧ (r = Ok SpUnit → take k bytes = bytes)
    | SpFlush =>
        sent w' = sent w ∧ received w' = received w ∧
        (r = Ok SpUnit → ∃ w1, io_pending_output_bytes w1 = (w', Ok 0))
    | SpSetControlLines lines =>
        sent w' = sent w ∧ received w' = received w ∧
        (r = Ok SpUnit → ∃ u, io_set_control_lines lines w = (w', Ok u))
    end.
Proof.
  intros Ht. pose proof (now_quiet (clock := clock) (sent := sent) (received := received) w) as [Hq Hn].
  unfold perform. destruct c as [max_bytes|bytes| |lines]; cbn beta iota zeta.
  - destruct (io_now w) as [w1 now]. destruct Hq as (? & Hs & Hr). cbn [fst snd] in *.
    destruct (read_bounded_returns clock sent received n max_bytes (now + timeout) w1)
      as (w' & r & -> & Hs' & Hb); [lia|].
    eexists w', _. split; [done|]. rewrite Hs', Hs. split; [done|]. rewrite Hr in Hb. by destruct r.
  - destruct (io_now w) as [w1 now]. destruct Hq as (? & Hs & Hr). cbn [fst snd] in *.
    destruct (write_all_bounded_returns clock sent received n bytes (now + timeout) w1)
      as (w' & r & k & -> & Hr' & Hs' & Hok); [lia|].
    eexists w', _. split; [done|]. rewrite Hr', Hr, Hs', Hs. split; [done|]. exists k. split; [done|].
    intros E. apply Hok. by destruct r as [[]|].
  - destruct (io_now w) as [w1 now]. destruct Hq as (? & Hs & Hr). cbn [fst snd] in *.
    destruct (flush_bounded_returns clock sent received n (now + timeout) w1)
      as (w' & r & -> & Hs' & Hr' & Hok); [lia|].
    eexists w', _. split; [done|]. rewrite Hr', Hr, Hs', Hs. split_and!; [done..|].
    intros E. apply Hok. by destruct r as [[]|].
  - pose proof (control_lines_quiet (clock := clock) (sent := sent) (received := received) lines w) as (_ & Hs & Hr).
    unfold native_map_err. destruct (io_set_control_lines lines w) as [w' r]. cbn [fst snd] in *.
    eexists w', _. split; [done|]. split_and!; [done..|]. destruct r as [u|]; [|done]. intros _. by exists u.
Qed.
End perform.

(** ** Runs *)
Definition example_port : ResourceDescriptor :=
  mkResourceDescriptor (mkResourceId "serial:endpoint:ttyUSB0") (mkEndpoint "/dev/ttyUSB0") Weak
    Serial (mkResourceProperties ∅) (mkCapabilitySet []).
Definition run_from_spawn (ms : list SerialMove) : SpState :=
  default spawn_session_worker (serial_run example_port ms spawn_session_worker).
Lemma serial_run_reachable d ms s s' :
  serial_reachable d s → serial_run d ms s = Some s' → serial_reachable d s'.
Proof.
  revert s. induction ms as [|m ms IH]; cbn; intros s Hr E; [by injection E as <-|].
  destruct (serial_move d m s) as [s1|] eqn:Em; [|done].
  by apply (IH s1); [eapply serial_reach_move|].
Qed.
Lemma run_reachable ms s :
  serial_run example_port ms spawn_session_worker = Some s → serial_reachable example_port s.
Proof. apply serial_run_reachable, serial_reach_spawn. Qed.

(** A write has passed its check; it is queued; the thread executes it. *)
Definition example_checked : list SerialMove :=
  [SerialThreadMove SAdvance; SerialSessionMove (CallMethod (SpWrite [104; 105]))].
Definition example_queued : list SerialMove := example_checked ++ [SerialSessionMove CallEnqueue].
Definition example_executing : list SerialMove :=
  example_queued ++ [SerialThreadMove SAdvance; SerialThreadMove SAdvance].

Lemma serial_one_command_witness :
  sp_enqueue (SpWrite [104; 105]) (run_from_spawn example_checked) = Ok [(0%nat, SpWrite [104; 105])]
  ∧ between (st_phase (run_from_spawn example_checked)) = true.
Proof.
  apply (serial_one_command example_port); [|by vm_compute].
  apply (run_reachable example_checked). by vm_compute.
Defined.

Lemma serial_call_answered_witness :
  ∃ s', serial_run example_port
          ((SerialThreadMove <$> moves_to_answer (run_from_spawn example_queued) 0 (Ok SpUnit))
             ++ [SerialSessionMove CallAnswered]) (run_from_spawn example_queued) = Some s' ∧
    (length (moves_to_answer (run_from_spawn example_queued) 0 (Ok SpUnit)) <= 5)%nat ∧
    st_call s' = CallIdle ∧
    st_results s' = st_results (run_from_spawn example_queued)
      ++ [(MethodCommand (SpWrite [104; 105]),
           sp_resource_result example_port
             (expected_answer (run_from_spawn example_queued) 0 (SpWrite [104; 105]) (Ok SpUnit)))].
Proof.
  apply (serial_call_answered example_port); [|by vm_compute].
  apply (run_reachable example_queued). by vm_compute.
Defined.

(** The session is dropped while the write is executed. *)
Definition example_dropped : SpState :=
  run_from_spawn (example_executing ++ [SerialSessionMove DropSession]).
Definition example_rest : list SerialMove :=
  SerialThreadMove (SPerformed (Ok SpUnit)) :: repeat (SerialThreadMove SAdvance) 6.
Lemma serial_session_close_terminates_witness :
  st_open (default example_dropped (serial_run example_port example_rest example_dropped)) = false.
Proof.
  apply (serial_session_close_terminates example_port example_rest example_dropped);
    [|by vm_compute|by vm_compute].
  apply (run_reachable (example_executing ++ [SerialSessionMove DropSession])). by vm_compute.
Defined.

(** The write that the drop interrupted times out. *)
Definition example_failure : HalError := sp_timeout "serial.write" "write exceeded its deadline".
Definition example_failed : SpState :=
  default example_dropped
    (serial_move example_port (SerialThreadMove (SPerformed (Err example_failure))) example_dropped).
Definition example_ended : SpState :=
  default example_dropped
    (serial_run example_port (repeat (SerialThreadMove SAdvance) 6) example_failed).
Lemma serial_close_keeps_error_witness :
  sc_completion (st_control example_ended) = Some (Err example_failure)
  ∧ Err (T := unit) example_failure = Err example_failure.
Proof.
  assert (H : sc_completion (st_control example_ended) = Some (Err example_failure)) by (by vm_compute).
  split; [exact H|].
  apply (serial_close_keeps_error example_port example_dropped 0 (SpWrite [104; 105]) example_failure
           example_failed (repeat (SerialThreadMove SAdvance) 6) example_ended); try (by vm_compute).
  apply (run_reachable (example_executing ++ [SerialSessionMove DropSession])). by vm_compute.
Defined.

(** A port that sends one byte per call and always has a seven to read. *)
Record ExamplePort := mkExamplePort { ep_clock : Z; ep_sent : Bytes; ep_received : Bytes }.
Definition ep_tick (p : ExamplePort) (t : Z) : ExamplePort :=
  mkExamplePort (ep_clock p + Z.max 0 t) (ep_sent p) (ep_received p).
Definition example_serial_io : SerialIo ExamplePort := {|
  io_read n p :=
    if n <=? 0 then (ep_tick p 1, Err (mkOsError KindTimedOut None "timed out"))
    else (mkExamplePort (ep_clock p + 1) (ep_sent p) (ep_received p ++ [7]), Ok [7]);
  io_write bytes p :=
    (mkExamplePort (ep_clock p + 1) (ep_sent p ++ take 1 bytes) (ep_received p),
     Ok (len (take 1 bytes)));
  io_set_read_timeout _ p := (p, Ok ());
  io_set_write_timeout _ p := (p, Ok ());
  io_set_control_lines _ p := (p, Ok ());
  io_pending_output_bytes p := (p, Ok 0);
  lifecycle_load p := (p, LifecycleOpen);
  io_now p := (p, ep_clock p);
  io_wait t p := ep_tick p t;
|}.
Lemma example_serial_laws : SerialIoLaws (H := example_serial_io) ep_clock ep_sent ep_received.
Proof.
  split; cbn; try done.
  - intros t w. unfold port_quiet. cbn. split_and!; lia || done.
  - intros n w w' r. destruct (Z.leb_spec n 0); intros [= <- <-]; cbn; split_and!; try lia; try done.
    unfold len. simpl. lia.
  - intros bytes w w' r [= <- <-]. cbn. split_and!; try lia; try done.
    + unfold len. lia.
    + unfold len. rewrite length_take. lia.
    + by destruct bytes.
Qed.
Lemma serial_perform_exact_witness :
  10 <= Z.of_nat 10 ∧
  ∃ w' r, perform (H := example_serial_io) 11 10 (SpWrite [104; 105]) (mkExamplePort 0 [] []) = Some (w', r)
    ∧ ep_received w' = [] ∧
    ∃ k, ep_sent w' = [] ++ take k [104; 105] ∧ (r = Ok SpUnit → take k [104; 105] = [104; 105]).
Proof.
  split; [lia|].
  apply (serial_perform_exact (H := example_serial_io) (SerialIoLaws0 := example_serial_laws)
           ep_clock ep_sent ep_received 10 10 (SpWrite [104; 105]) (mkExamplePort 0 [] [])). lia.
Defined.
