(* ===== verification/SerialAdapter.v ===== *)
(** * adapters/serialport: discovery and opening

    Models the adapter of adapters/serialport/src/lib.rs and the opening of a session in
    session.rs.  The crates serialport (discovery) and serial2 (the port) and the start of
    threads are a class over the state of the machine; a task of [spawn_blocking] that
    fails is an outcome of the task. *)

From S2P Require Import Prelude Core Native SerialRegistry AdapterIdentity SerialIo SerialSession.
From Stdlib Require Import Ascii.
Open Scope Z_scope.

(** ** What the crate serialport knows of a port *)
Inductive SerialPortType :=
  | UsbPort (info : UsbPortMetadata)
  | PciPort
  | BluetoothPort
  | UnknownPort.
Record SerialPortInfo := mkSerialPortInfo { port_name : string; port_type : SerialPortType }.


Definition insert_optional (properties : gmap string string) (key : string) (value : option string)
    : gmap string string :=
  match value with
  | Some value => if str_is_empty value then properties else <[key := value]> properties
  | None => properties
  end.
Definition properties_from_port (port : SerialPortInfo) : gmap string string :=
  let properties : gmap string string :=
    <["endpoint" := port_name port]> (<["adapter" := "serialport"]> ∅) in
  match port_type port with
  | UsbPort info =>
      let properties :=
        <["usb.pid" := hex false 4 (port_pid info)]>
        (<["usb.vid" := hex false 4 (port_vid info)]>
        (<["port_type" := "usb"]> properties)) in
      let properties := insert_optional properties "usb.serial_number" (port_serial_number info) in
      let properties := insert_optional properties "usb.manufacturer" (port_manufacturer info) in
      insert_optional properties "usb.product" (port_product info)
  | PciPort => <["port_type" := "pci"]> properties
  | BluetoothPort => <["port_type" := "bluetooth"]> properties
  | UnknownPort => <["port_type" := "unknown"]> properties
  end.

Section identities.
Context (utf8_percent_encode : AsciiSet → string → string).
Definition identity_from_port (port : SerialPortInfo) : HalResult Identity :=
  match port_type port with
  | UsbPort info => identity_from_usb_metadata utf8_percent_encode (port_name port) info
  | PciPort | BluetoothPort | UnknownPort =>
      identity_from_endpoint utf8_percent_encode (port_name port)
  end.
Definition descriptor_from_port (port : SerialPortInfo) : HalResult ResourceDescriptor :=
  Endpoint_new (port_name port) ≫= λ endpoint,
  identity_from_port port ≫= λ identity,
  Ok (mkResourceDescriptor (ident_id identity) endpoint (ident_quality identity) Serial
        (mkResourceProperties (properties_from_port port))
        (mkCapabilitySet [serial_bytes_capability])).
End identities.

(** ** The settings of the crate serial2 *)
Inductive CharSize := Bits5 | Bits6 | Bits7 | Bits8.
Inductive Serial2Parity := Parity2None | Parity2Odd | Parity2Even.
Inductive Serial2StopBits := Stop2One | Stop2Two.
Inductive Serial2FlowControl := Flow2None | XonXoff | RtsCts.
Record Serial2Settings := mkSerial2Settings {
  s2_raw : bool;
  s2_baud_rate : Z;
  s2_char_size : CharSize;
  s2_parity : Serial2Parity;
  s2_stop_bits : Serial2StopBits;
  s2_flow_control : Serial2FlowControl;
}.
Definition map_data_bits (d : DataBits) : CharSize :=
  match d with Five => Bits5 | Six => Bits6 | Seven => Bits7 | Eight => Bits8 end.
Definition map_parity (p : Parity) : Serial2Parity :=
  match p with ParityNone => Parity2None | ParityOdd => Parity2Odd | ParityEven => Parity2Even end.
Definition map_stop_bits (s : StopBits) : Serial2StopBits :=
  match s with StopOne => Stop2One | StopTwo => Stop2Two end.
Definition map_flow_control (f : FlowControl) : Serial2FlowControl :=
  match f with FlowNone => Flow2None | FlowSoftware => XonXoff | FlowHardware => RtsCts end.

(** [task_failed] is the outcome of the next [spawn_blocking] task: the text of its
    [JoinError], if it fails.  [s2_open] gives the settings of the port to the closure and
    applies what it answers.  [INSTANT_MAX] is the last instant of the clock. *)
Class SerialMachine (W : Type) := {
  available_ports : W → W * result SerialportError (list SerialPortInfo);
  s2_check_baud_rate : Z → result OsError unit;
  s2_open : string → (Serial2Settings → result OsError Serial2Settings) → W → W * result OsError unit;
  s2_set_read_timeout : Z → W → W * result OsError unit;
  s2_set_write_timeout : Z → W → W * result OsError unit;
  s2_close : W → W;
  thread_spawn : W → W * result string unit;
  task_failed : W → W * option string;
  machine_now : W → W * Z;
  INSTANT_MAX : Z;
}.

Section adapter.
Context {W : Type} `{SerialMachine W} (utf8_percent_encode : AsciiSet → string → string).
Notation machine := (native W HalError) (only parsing).

(** The settings closure of [open_serial_stream]. *)
Definition apply_serial_config (config : SerialConfig) (settings : Serial2Settings)
    : result OsError Serial2Settings :=
  s2_check_baud_rate (baud_rate config) ≫= λ _,
  Ok (mkSerial2Settings true (baud_rate config) (map_data_bits (data_bits config))
        (map_parity (parity config)) (map_stop_bits (stop_bits config))
        (map_flow_control (flow_control config))).
(** The stream is dropped, and its port closed, when a timeout cannot be set. *)
Definition or_close {A} (m : machine A) : machine A := λ w,
  match m w with
  | (w, Err e) => (s2_close w, Err e)
  | r => r
  end.
Definition open_serial_stream (endpoint : string) (config : SerialConfig) : machine unit :=
  native_map_err (map_io_error "serial.open") (s2_open endpoint (apply_serial_config config)) ≫= λ _,
  or_close
    (native_map_err (map_io_error "serial.open")
       (s2_set_read_timeout (normalize_native_timeout (read_timeout config))) ≫= λ _,
     native_map_err (map_io_error "serial.open")
       (s2_set_write_timeout (normalize_native_timeout (read_timeout config)))).

Definition validate_config (config : SerialConfig) : machine unit := λ w,
  if baud_rate config =? 0 then
    (w, Err (sp_invalid_argument "serial.open" "baud_rate must be greater than zero"))
  else if read_timeout config =? 0 then
    (w, Err (sp_invalid_argument "serial.open" "read_timeout must be greater than zero"))
  else
    let '(w, now) := machine_now w in
    (w, if INSTANT_MAX <? now + read_timeout config then
          Err (sp_invalid_argument "serial.open" "read_timeout is too large for the platform clock")
        else Ok ()).
(** [spawn_session_worker]: a thread that cannot be started drops the port. *)
Definition start_session_worker : machine SpState :=
  or_close
    (native_map_err (λ error, sp_internal "serial.open" ("failed to start serial worker: " +:+ error))
       thread_spawn) ≫= λ _, mret spawn_session_worker.

(** [spawn_blocking(task).await] with its failure mapped. *)
Definition blocking_task {A} (failed : string → HalError) (task : machine A) : machine A := λ w,
  match task_failed w with
  | (w, Some error) => (w, Err (failed error))
  | (w, None) => task w
  end.

Definition NativeSerialSession_open (descriptor : ResourceDescriptor) (config : SerialConfig)
    : machine (ResourceDescriptor * SpState) :=
  native_map_err (λ error, HalError_with_resource_id error (desc_id descriptor))
    (validate_config config ≫= λ _,
     blocking_task
       (λ error, sp_internal "serial.open" ("serial open blocking worker failed: " +:+ error))
       (open_serial_stream (Endpoint_as_str (desc_endpoint descriptor)) config ≫= λ _,
        start_session_worker) ≫= λ state, mret (descriptor, state)).

Definition SerialPortAdapter_enumerate : machine (list ResourceDescriptor) :=
  blocking_task
    (λ error, sp_internal "serial.enumerate" ("serialport enumeration task failed: " +:+ error))
    (native_map_err (map_serialport_error "serial.enumerate") available_ports) ≫= λ ports,
  native_lift (collect (descriptor_from_port utf8_percent_encode) ports).
Definition SerialPortAdapter_open (selector : ResourceSelector) (config : SerialConfig)
    : machine (ResourceDescriptor * SpState) :=
  if negb (bool_decide (sel_transport selector = Serial)) then
    throw (sp_unsupported_configuration "serial.open" "selector transport is not serial")
  else
    SerialPortAdapter_enumerate ≫= λ descriptors,
    native_lift (resolve_resource descriptors selector serial_bytes_capability "serial.open")
      ≫= λ descriptor,
    NativeSerialSession_open descriptor config.

(** ** What opening promises *)

(** The ports that are open, by endpoint, with the settings they were given. *)
Context (open_ports : W → list (string * Serial2Settings)).
Definition ports_same (w w' : W) : Prop := open_ports w' = open_ports w.
(** What the code relies on: only opening and closing a port change what is open, opening
    applies what the closure answers to some settings, and closing takes the port opened
    last. *)
Class SerialMachineLaws : Prop := {
  ports_available w : ports_same w (available_ports w).1;
  ports_read_timeout t w : ports_same w (s2_set_read_timeout t w).1;
  ports_write_timeout t w : ports_same w (s2_set_write_timeout t w).1;
  ports_spawn w : ports_same w (thread_spawn w).1;
  ports_task w : ports_same w (task_failed w).1;
  ports_now w : ports_same w (machine_now w).1;
  ports_open endpoint f w w' r : s2_open endpoint f w = (w', r) →
    match r with
    | Err _ => ports_same w w'
    | Ok _ => ∃ before after, f before = Ok after ∧ open_ports w' = (endpoint, after) :: open_ports w
    end;
  ports_close w : open_ports (s2_close w) = tail (open_ports w);
}.
Context `{!SerialMachineLaws}.
Implicit Types w : W.

(** A computation that either fails with the ports as they were or leaves one more. *)
Definition opens {A} (P : string * Serial2Settings → Prop) (m : machine A) : Prop :=
  ∀ w w' r, m w = (w', r) →
    match r with
    | Err _ => ports_same w w'
    | Ok _ => ∃ p, P p ∧ open_ports w' = p :: open_ports w
    end.
Definition keeps_ports {A} (m : machine A) : Prop := ∀ w, ports_same w (m w).1.

Lemma keeps_bind {A B} (m : machine A) (f : A → machine B) :
  keeps_ports m → (∀ x, keeps_ports (f x)) → keeps_ports (m ≫= f).
Proof.
  intros Hm Hf w. unfold mbind, native_bind. specialize (Hm w).
  destruct (m w) as [w1 [x|e]]; [|done]. unfold ports_same in *. by rewrite Hf.
Qed.
Lemma keeps_map_err {A E} (g : E → HalError) (m : native W E A) :
  (∀ w, ports_same w (m w).1) → keeps_ports (native_map_err g m).
Proof. intros Hm w. specialize (Hm w). unfold native_map_err. by destruct (m w). Qed.
Lemma opens_bind_l {A B} P (m : machine A) (f : A → machine B) :
  keeps_ports m → (∀ x, opens P (f x)) → opens P (m ≫= f).
Proof.
  intros Hm Hf w w' r E. unfold mbind, native_bind in E. specialize (Hm w).
  destruct (m w) as [w1 [x|e]]; [|by injection E as <- <-]. apply Hf in E.
  unfold ports_same in *. simpl in Hm. by rewrite Hm in E.
Qed.
Lemma opens_map_err {A} P (g : HalError → HalError) (m : machine A) :
  opens P m → opens P (native_map_err g m).
Proof.
  intros Hm w w' r E. unfold native_map_err in E. specialize (Hm w).
  destruct (m w) as [w1 r1]. specialize (Hm _ _ eq_refl). injection E as <- <-. by destruct r1.
Qed.
(** What fails after the port was opened closes it. *)
Lemma opens_bind_r {A B} P (m : machine A) (f : A → machine B) :
  opens P m → (∀ x, keeps_ports (f x)) → opens P (m ≫= λ x, or_close (f x)).
Proof.
  intros Hm Hf w w' r E. unfold mbind, native_bind in E.
  destruct (m w) as [w1 [x|e]] eqn:Em; apply Hm in Em; [|by injection E as <- <-].
  destruct Em as (p & Hp & Ho). unfold or_close in E. specialize (Hf x w1).
  destruct (f x w1) as [w2 [y|e]]; injection E as <- <-; unfold ports_same in *; simpl in Hf.
  - exists p. split; [done|]. congruence.
  - by rewrite ports_close, Hf, Ho.
Qed.
Lemma opens_ret {A B} P (m : machine A) (g : A → B) :
  opens P m → opens P (m ≫= λ x, mret (g x)).
Proof.
  intros Hm w w' r E. unfold mbind, native_bind in E.
  destruct (m w) as [w1 [x|e]] eqn:Em; apply Hm in Em; by injection E as <- <-.
Qed.

(** The settings that a configuration asks for. *)
Definition requested_settings (config : SerialConfig) : Serial2Settings :=
  mkSerial2Settings true (baud_rate config) (map_data_bits (data_bits config))
    (map_parity (parity config)) (map_stop_bits (stop_bits config))
    (map_flow_control (flow_control config)).

Lemma open_serial_stream_opens endpoint config :
  opens (λ p, p = (endpoint, requested_settings config)) (open_serial_stream endpoint config).
Proof.
  apply opens_bind_r.
  - intros w w' r E. unfold native_map_err in E.
    destruct (s2_open endpoint (apply_serial_config config) w) as [w1 r1] eqn:Eo.
    apply ports_open in Eo. injection E as <- <-. destruct r1 as [u|e]; [|done].
    destruct Eo as (before & after & Hf & Ho). exists (endpoint, after). split; [|done].
    unfold apply_serial_config in Hf. apply bind_Ok in Hf as (? & _ & [= <-]). done.
  - intros _. apply keeps_bind; [|intros _]; apply keeps_map_err; intros w;
      [apply ports_read_timeout|apply ports_write_timeout].
Qed.
Lemma keeps_blocking {A} failed (m : machine A) : keeps_ports m → keeps_ports (blocking_task failed m).
Proof.
  intros Hm w. unfold blocking_task. pose proof (ports_task w) as Ht.
  destruct (task_failed w) as [w1 [e|]]; [done|]. specialize (Hm w1). unfold ports_same in *. simpl in Ht. congruence.
Qed.
Lemma opens_blocking {A} P failed (m : machine A) : opens P m → opens P (blocking_task failed m).
Proof.
  intros Hm w w' r E. unfold blocking_task in E. pose proof (ports_task w) as Ht.
  destruct (task_failed w) as [w1 [e|]]; [by injection E as <- <-|]. apply Hm in E.
  unfold ports_same in *. simpl in Ht. by rewrite Ht in E.
Qed.
Lemma validate_keeps config : keeps_ports (validate_config config).
Proof.
  intros w. unfold validate_config. destruct (baud_rate config =? 0); [done|]. destruct (read_timeout config =? 0); [done|].
  pose proof (ports_now w) as Hn. by destruct (machine_now w).
Qed.
Lemma session_open_opens d config :
  opens (λ p, p = (Endpoint_as_str (desc_endpoint d), requested_settings config))
    (NativeSerialSession_open d config).
Proof.
  unfold NativeSerialSession_open, start_session_worker. apply opens_map_err.
  apply opens_bind_l; [apply validate_keeps|intros _]. apply opens_ret, opens_blocking.
  intros w w' r E. revert E.
  assert (Hs : opens (λ p, p = (Endpoint_as_str (desc_endpoint d), requested_settings config))
    ((open_serial_stream (Endpoint_as_str (desc_endpoint d)) config ≫= λ _, or_close
       (native_map_err (λ error, sp_internal "serial.open" ("failed to start serial worker: " +:+ error))
          thread_spawn)) ≫= λ _, mret spawn_session_worker)).
  { apply opens_ret, opens_bind_r; [apply open_serial_stream_opens|].
    intros _. apply keeps_map_err, ports_spawn. }
  intros E. apply (Hs w w' r). rewrite <- E. unfold mbind, native_bind.
  by destruct (open_serial_stream _ _ w) as [? []].
Qed.
Lemma session_open_valid d config w w' d' st :
  NativeSerialSession_open d config w = (w', Ok (d', st)) →
  d' = d ∧ st = spawn_session_worker ∧ baud_rate config ≠ 0 ∧ read_timeout config ≠ 0.
Proof.
  unfold NativeSerialSession_open, start_session_worker.
  intros (w1 & ? & Hv & (w2 & st' & Hb & [= _ <- <-])%native_bind_Ok)%native_map_err_Ok%native_bind_Ok.
  unfold blocking_task in Hb. destruct (task_failed w1) as [w3 [e|]]; [done|].
  apply native_bind_Ok in Hb as (w4 & ? & _ & (w5 & ? & _ & [= _ <-])%native_bind_Ok).
  unfold validate_config in Hv. repeat case_match; bool_simp; done.
Qed.

(** C18: Opening a serial port is a transaction on the port that was selected.  When
    [SerialPortAdapter::open] fails, at whichever step (the selection, the settings, a
    timeout that cannot be set, a thread that cannot be started), exactly the ports are open
    that were open before.  When it succeeds, one more is: that of the one discovered
    descriptor the selector resolves to, with exactly the settings asked for, in raw mode,
    after a valid configuration, and its session is fresh. *)
Theorem serial_open_transactional selector config w w' r :
  SerialPortAdapter_open selector config w = (w', r) →
  match r with
  | Err _ => open_ports w' = open_ports w
  | Ok (d, st) =>
      open_ports w' = (Endpoint_as_str (desc_endpoint d), requested_settings config) :: open_ports w ∧
      st = spawn_session_worker ∧ sel_transport selector = Serial ∧
      baud_rate config ≠ 0 ∧ read_timeout config ≠ 0 ∧
      ∃ w1 descriptors, SerialPortAdapter_enumerate w = (w1, Ok descriptors) ∧
        resolve_resource descriptors selector serial_bytes_capability "serial.open" = Ok d
  end.
Proof.
  unfold SerialPortAdapter_open. destruct (bool_decide (sel_transport selector = Serial)) eqn:Et;
    simpl; [|by intros [= <- <-]]. bool_simp.
  assert (Henum : keeps_ports SerialPortAdapter_enumerate).
  { apply keeps_bind; [|by intros]. apply keeps_blocking, keeps_map_err. intros; apply ports_available. }
  intros E. assert (Hopens : opens (λ p, True) (SerialPortAdapter_enumerate ≫= λ descriptors,
      native_lift (resolve_resource descriptors selector serial_bytes_capability "serial.open") ≫= λ d,
      NativeSerialSession_open d config)).
  { apply opens_bind_l; [done|]. intros ds. apply opens_bind_l; [by intros|]. intros d w1 w2 r1 E1.
    apply session_open_opens in E1. destruct r1; [|done]. destruct E1 as (p & _ & ?). by exists p. }
  destruct r as [[d st]|e]; [|by apply Hopens in E].
  apply native_bind_Ok in E as (w1 & ds & Eenum & (w2 & d' & [= -> Er] & Eo)%native_bind_Ok).
  pose proof (session_open_valid _ _ _ _ _ _ Eo) as (-> & Hst & Hb & Ht).
  apply session_open_opens in Eo as (p & -> & Hp).
  pose proof (Henum w) as Hk. rewrite Eenum in Hk. unfold ports_same in Hk. simpl in Hk. rewrite Hp, Hk.
  split_and!; try done. by exists w2, ds.
Qed.
End adapter.

(** A machine with one port, whose state is what is open. *)
Definition example_tty : SerialPortInfo := mkSerialPortInfo "/dev/ttyUSB0" PciPort.
Definition example_settings : Serial2Settings :=
  mkSerial2Settings false 9600 Bits8 Parity2None Stop2One Flow2None.
Definition example_machine : SerialMachine (list (string * Serial2Settings)) := {|
  available_ports w := (w, Ok [example_tty]);
  s2_check_baud_rate _ := Ok ();
  s2_open endpoint f w :=
    match f example_settings with
    | Ok after => ((endpoint, after) :: w, Ok ())
    | Err e => (w, Err e)
    end;
  s2_set_read_timeout _ w := (w, Ok ());
  s2_set_write_timeout _ w := (w, Ok ());
  s2_close w := tail w;
  thread_spawn w := (w, Ok ());
  task_failed w := (w, None);
  machine_now w := (w, 0);
  INSTANT_MAX := 2 ^ 63;
|}.
Lemma example_machine_laws : SerialMachineLaws (H := example_machine) (λ w, w).
Proof.
  split; try done. intros endpoint f w w' r. cbn.
  destruct (f example_settings) as [after|e] eqn:Ef; intros [= <- <-]; [|done].
  by exists example_settings, after.
Qed.
Definition example_tty_selector : ResourceSelector :=
  mkResourceSelector (mkResourceId "serial:endpoint:/dev/ttyUSB0") Weak Serial.
Definition example_tty_opened :=
  SerialPortAdapter_open (H := example_machine) (λ _ s, s) example_tty_selector SerialConfig_default [].
Lemma serial_open_transactional_witness :
  ∃ d, example_tty_opened.2 = Ok (d, spawn_session_worker) ∧
    example_tty_opened.1 = [("/dev/ttyUSB0", requested_settings SerialConfig_default)].
Proof.
  destruct example_tty_opened as [w' r] eqn:E.
  assert (Hr : ∃ d, r = Ok (d, spawn_session_worker)
    ∧ Endpoint_as_str (desc_endpoint d) = "/dev/ttyUSB0").
  { revert E. vm_compute. intros [= <- <-]. by eexists. }
  destruct Hr as (d & -> & He). exists d. split; [done|].
  pose proof (serial_open_transactional (H := example_machine) (λ _ s, s) (λ w, w)
    (H0 := example_machine_laws) example_tty_selector SerialConfig_default [] w'
    (Ok (d, spawn_session_worker)) E) as (Hp & _). by rewrite He in Hp.
Defined.
