(* ===== verification/LinuxGpio.v ===== *)
(** * adapters/linux-gpio

    Models adapters/linux-gpio/src/lib.rs on Linux: discovery of the GPIO chips, the request
    of a group of lines, and the session on them.  The crate libgpiod, with the directory
    /dev, is a class over the state of the machine; its errors are their [Display] texts. *)

From S2P Require Import Prelude Core Native Lifecycle SerialRegistry GpioTypes AdapterIdentity.
From Stdlib Require Import Ascii.
Open Scope Z_scope.

(** ** Errors *)
Definition lg_invalid (operation message : string) : HalError :=
  static_error "runtime.argument.invalid" InvalidArgument operation false message.
Definition lg_unsupported (operation message : string) : HalError :=
  static_error "runtime.protocol.capability_unsupported" Conflict operation false message.
Definition lg_session_closed (operation : string) : HalError :=
  static_error "runtime.session.closed" Conflict operation false "GPIO session is closed".
Definition lg_platform_error (operation error : string) : HalError :=
  static_error "runtime.transport.unavailable" Unavailable operation true
    ("libgpiod error: " +:+ error).
Definition lg_worker_failed (operation error : string) : HalError :=
  static_error "runtime.internal.worker_failed" Internal operation false
    ("GPIO worker failed: " +:+ error).

(** ** The crate libgpiod *)
Inductive NativeDirection := NativeInput | NativeOutput.
Inductive NativeBias := NativeBiasDisabled | NativePullUp | NativePullDown.
Inductive NativeDrive := NativePushPull | NativeOpenDrain | NativeOpenSource.
Inductive NativeEdge := NativeBoth | NativeRising | NativeFalling.
Inductive NativeValue := ValueActive | ValueInActive.
(** [None]: not set. *)
Record LineSettings := mkLineSettings {
  ls_direction : option NativeDirection;
  ls_bias : option NativeBias;
  ls_active_low : bool;
  ls_drive : option NativeDrive;
  ls_output_value : option NativeValue;
  ls_edge_detection : option NativeEdge;
  ls_monotonic_clock : bool;
}.
Definition LineSettings_new : LineSettings := mkLineSettings None None false None None None false.
Record ChipInfo := mkChipInfo {
  chip_name : result string string;
  chip_info_label : result string string;
  chip_num_lines : Z;
}.
(** An event read from the kernel; its type is decoded when asked for. *)
Record RawEdgeEvent := mkRawEdgeEvent {
  raw_event_type : result string GpioEdge;
  raw_event_ns : Z;
  raw_event_seqno : Z;
}.

(** [line_config_add] and [request_config_new] create an object and set it up.
    [None] is an entry that cannot be read or whose name is not UTF-8.  A setter may refuse
    the settings it would make ([settings_check]).  A line request is named by the chip. *)
Class Libgpiod (W : Type) := {
  read_dev : W → W * result string (list (option string));
  chip_open : string → W → W * result string unit;
  chip_info : string → W → W * result string ChipInfo;
  settings_new : W → W * result string unit;
  settings_check : LineSettings → result string unit;
  line_config_add : list Z → LineSettings → W → W * result string unit;
  request_config_new : W → W * result string unit;
  chip_request_lines : string → list Z → LineSettings → W → W * result string unit;
  request_values : W → W * result string (gmap Z NativeValue);
  request_set_values : list NativeValue → W → W * result string unit;
  request_reconfigure : list Z → LineSettings → W → W * result string unit;
  request_wait_edge_events : Z → W → W * result string bool;
  buffer_new : Z → W → W * result string unit;
  request_read_edge_events : Z → W → W * result string (list (result string RawEdgeEvent));
  lg_task_failed : W → W * option string;
}.

Definition value_to_native (value : bool) : NativeValue := if value then ValueActive else ValueInActive.
Definition native_to_value (value : NativeValue) : bool :=
  match value with ValueActive => true | ValueInActive => false end.

Record LinuxGpioSession := mkLinuxGpioSession {
  lgs_descriptor : ResourceDescriptor;
  lgs_lines : list Z;
  lgs_config : GpioLineConfig;
  lgs_closed : bool;
}.

Section adapter.
Context {W : Type} `{Libgpiod W} (utf8_percent_encode : AsciiSet → string → string).
Notation machine := (native W HalError) (only parsing).

Definition gpiod {A} (operation : string) (m : native W string A) : machine A :=
  native_map_err (lg_platform_error operation) m.
Definition setter (operation : string) (settings : LineSettings) : machine LineSettings :=
  native_lift (map_err (lg_platform_error operation) (settings_check settings)) ≫= λ _, mret settings.

(** ** Discovery *)
Definition chip_paths (entries : list (option string)) : list string :=
  omap (λ entry, entry ≫= λ name,
    if is_some (strip_prefix "gpiochip" name) then Some ("/dev/" +:+ name) else None) entries.
Definition descriptor_from_path (path : string) : machine ResourceDescriptor :=
  gpiod "gpio.enumerate" (chip_open path) ≫= λ _,
  gpiod "gpio.enumerate" (chip_info path) ≫= λ info,
  native_lift (map_err (lg_platform_error "gpio.enumerate") (chip_name info)) ≫= λ kernel_name,
  let label := match chip_info_label info with Ok label => Some label | Err _ => None end in
  let metadata := mkGpioChipMetadata path kernel_name label (chip_num_lines info) in
  native_lift
    (gpio_identity_from_metadata utf8_percent_encode metadata ≫= λ identity,
     Endpoint_new path ≫= λ endpoint,
     let properties : gmap string string :=
       <["gpio.line_count" := to_string (chip_num_lines info)]>
       (<["gpio.chip_name" := kernel_name]>
       (<["endpoint" := path]> (<["adapter" := "linux-gpio"]> ∅))) in
     let properties :=
       match label with Some label => <["gpio.label" := label]> properties | None => properties end in
     Ok (mkResourceDescriptor (ident_id identity) endpoint (ident_quality identity) Gpio
           (mkResourceProperties properties)
           (mkCapabilitySet [gpio_lines_capability; gpio_edges_capability]))).
(** [collect] of the descriptors: the first failure ends it. *)
Fixpoint collect_descriptors (paths : list string) : machine (list ResourceDescriptor) :=
  match paths with
  | [] => mret []
  | path :: paths =>
      descriptor_from_path path ≫= λ d, collect_descriptors paths ≫= λ ds, mret (d :: ds)
  end.
Definition gpio_enumerate_sync : machine (list ResourceDescriptor) :=
  gpiod "gpio.enumerate" read_dev ≫= λ entries, collect_descriptors (chip_paths entries).
Definition LinuxGpioAdapter_enumerate : machine (list ResourceDescriptor) := λ w,
  match lg_task_failed w with
  | (w, Some error) => (w, Err (lg_worker_failed "gpio.enumerate" error))
  | (w, None) => gpio_enumerate_sync w
  end.

(** ** The request *)
Definition request_settings (config : GpioLineConfig) : machine LineSettings :=
  gpiod "gpio.open" settings_new ≫= λ _,
  let direction := match gpio_direction config with Input => NativeInput | Output => NativeOutput end in
  setter "gpio.open" (mkLineSettings (Some direction) None false None None None false) ≫= λ _,
  let bias :=
    match gpio_bias config with
    | BiasDisabled => NativeBiasDisabled | PullUp => NativePullUp | PullDown => NativePullDown
    end in
  setter "gpio.open" (mkLineSettings (Some direction) (Some bias) false None None None false) ≫= λ _,
  let active_low := gpio_active_low config in
  let drive :=
    (λ drive, match drive with
              | PushPull => NativePushPull | OpenDrain => NativeOpenDrain | OpenSource => NativeOpenSource
              end) <$> gpio_drive config in
  native_when (is_some drive)
    (setter "gpio.open" (mkLineSettings (Some direction) (Some bias) active_low drive None None false)
       ≫= λ _, mret ()) ≫= λ _,
  let value := value_to_native <$> gpio_initial_value config in
  native_when (is_some value)
    (setter "gpio.open" (mkLineSettings (Some direction) (Some bias) active_low drive value None false)
       ≫= λ _, mret ()) ≫= λ _,
  mret (mkLineSettings (Some direction) (Some bias) active_low drive value None false).
Definition request_lines (chip : string) (lines : list Z) (config : GpioLineConfig) : machine unit :=
  request_settings config ≫= λ settings,
  gpiod "gpio.open" (line_config_add lines settings) ≫= λ _,
  gpiod "gpio.open" request_config_new ≫= λ _,
  gpiod "gpio.open" (chip_request_lines chip lines settings).
Definition gpio_open_sync (selector : ResourceSelector) (lines : list Z) (config : GpioLineConfig)
    : machine LinuxGpioSession :=
  match lines with
  | [] => throw (lg_invalid "gpio.open" "at least one GPIO line is required")
  | _ =>
      gpio_enumerate_sync ≫= λ descriptors,
      native_lift (resolve_resource descriptors selector gpio_lines_capability "gpio.open")
        ≫= λ descriptor,
      let path := Endpoint_as_str (desc_endpoint descriptor) in
      native_map_err (λ error, HalError_with_resource_id error (desc_id descriptor))
        (gpiod "gpio.open" (chip_open path) ≫= λ _, request_lines path lines config) ≫= λ _,
      mret (mkLinuxGpioSession descriptor lines config false)
  end.

(** ** The session *)
Definition lg_ensure_open (closed : bool) (operation : string) : HalResult unit :=
  if closed then Err (lg_session_closed operation) else Ok ().
Definition LinuxGpioSession_read (s : LinuxGpioSession) : machine (list bool) :=
  native_lift (lg_ensure_open (lgs_closed s) "gpio.read") ≫= λ _,
  gpiod "gpio.read" request_values ≫= λ values,
  native_lift (collect (λ line,
    ok_or (lg_invalid "gpio.read" "requested GPIO line disappeared")
      (native_to_value <$> values !! line)) (lgs_lines s)).
Definition LinuxGpioSession_write (s : LinuxGpioSession) (values : list bool) : machine unit :=
  native_lift (lg_ensure_open (lgs_closed s) "gpio.write") ≫= λ _,
  match gpio_direction (lgs_config s) with
  | Input => throw (lg_unsupported "gpio.write" "GPIO lines were requested as inputs")
  | Output =>
      if negb (len values =? len (lgs_lines s)) then
        throw (lg_invalid "gpio.write" "value count must equal requested line count")
      else gpiod "gpio.write" (request_set_values (value_to_native <$> values))
  end.
Definition requested_edges (mask : EdgeMask) : HalResult NativeEdge :=
  match EdgeMask_contains mask Rising, EdgeMask_contains mask Falling with
  | true, true => Ok NativeBoth
  | true, false => Ok NativeRising
  | false, true => Ok NativeFalling
  | false, false => Err (lg_invalid "gpio.next_edge" "no edge selected")
  end.
Definition edge_settings (active_low : bool) (mask : EdgeMask) : machine LineSettings :=
  let op := "gpio.next_edge" in
  gpiod op settings_new ≫= λ _,
  setter op (mkLineSettings (Some NativeInput) None false None None None false) ≫= λ _,
  setter op (mkLineSettings (Some NativeInput) None active_low None None None true) ≫= λ _,
  native_lift (requested_edges mask) ≫= λ edge,
  setter op (mkLineSettings (Some NativeInput) None active_low None None (Some edge) true).
Definition edge_event (event : RawEdgeEvent) : HalResult GpioEdgeEvent :=
  map_err (lg_platform_error "gpio.next_edge") (raw_event_type event) ≫= λ edge,
  Ok (mkGpioEdgeEvent edge (Z.min u64_max (raw_event_ns event)) (raw_event_seqno event)).
Definition LinuxGpioSession_next_edge (s : LinuxGpioSession) (request : GpioEdgeRequest) (timeout : Z)
    : machine (option GpioEdgeEvent) :=
  let op := "gpio.next_edge" in
  native_lift (lg_ensure_open (lgs_closed s) op) ≫= λ _,
  match gpio_direction (lgs_config s) with
  | Output => throw (lg_unsupported op "GPIO edges require input lines")
  | Input =>
      edge_settings (gpio_active_low (lgs_config s)) (edge_mask request) ≫= λ settings,
      gpiod op (line_config_add (lgs_lines s) settings) ≫= λ _,
      gpiod op (request_reconfigure (lgs_lines s) settings) ≫= λ _,
      gpiod op (request_wait_edge_events timeout) ≫= λ ready,
      if negb ready then mret None
      else
        gpiod op (buffer_new (edge_capacity request)) ≫= λ _,
        gpiod op (request_read_edge_events (edge_capacity request)) ≫= λ events,
        match events with
        | [] => throw (lg_platform_error op "edge wakeup without event")
        | event :: _ =>
            native_lift (map_err (lg_platform_error op) event ≫= λ event,
                         Some <$> edge_event event)
        end
  end.
Definition LinuxGpioSession_close (s : LinuxGpioSession) : LinuxGpioSession * HalResult unit :=
  (mkLinuxGpioSession (lgs_descriptor s) (lgs_lines s) (lgs_config s) true, Ok ()).

(** ** What the adapter promises *)

(** The line requests that are held, and the edge events the kernel has queued. *)
Context (requests : W → list (string * list Z * LineSettings)).
Context (pending : W → list (result string RawEdgeEvent)).
Definition lg_same (w w' : W) : Prop := requests w' = requests w ∧ pending w' = pending w.
(** What the code relies on: only a granted request changes what is held, events arrive at
    the end of the queue while the code waits, and reading takes them from its front. *)
Class LibgpiodLaws : Prop := {
  same_read_dev w : lg_same w (read_dev w).1;
  same_chip_open path w : lg_same w (chip_open path w).1;
  same_chip_info path w : lg_same w (chip_info path w).1;
  same_settings_new w : lg_same w (settings_new w).1;
  same_line_config lines settings w : lg_same w (line_config_add lines settings w).1;
  same_request_config w : lg_same w (request_config_new w).1;
  same_reconfigure lines settings w : lg_same w (request_reconfigure lines settings w).1;
  same_buffer n w : lg_same w (buffer_new n w).1;
  request_law chip lines settings w w' r : chip_request_lines chip lines settings w = (w', r) →
    requests w' = (if is_ok r then [(chip, lines, settings)] else []) ++ requests w;
  wait_law timeout w : ∃ more, pending (request_wait_edge_events timeout w).1 = pending w ++ more;
  read_law n w w' r : request_read_edge_events n w = (w', r) →
    match r with
    | Ok events => events = take (Z.to_nat n) (pending w) ∧ pending w' = drop (Z.to_nat n) (pending w)
    | Err _ => pending w' = pending w
    end;
}.
Context `{!LibgpiodLaws}.

Lemma native_bind_run {A B} (m : machine A) (f : A → machine B) w :
  (m ≫= f) w = match m w with (w, Ok x) => f x w | (w, Err e) => (w, Err e) end.
Proof. reflexivity. Qed.
Definition lg_keeps {A} (m : machine A) : Prop := ∀ w, lg_same w (m w).1.
Lemma lg_keeps_bind {A B} (m : machine A) (f : A → machine B) :
  lg_keeps m → (∀ x, lg_keeps (f x)) → lg_keeps (m ≫= f).
Proof.
  intros Hm Hf w. unfold mbind, native_bind. specialize (Hm w) as [Hr Hp].
  destruct (m w) as [w1 [x|e]]; [|done]. specialize (Hf x w1) as [Hr' Hp'].
  unfold lg_same. simpl in *. by rewrite Hr', Hp', Hr, Hp.
Qed.
Lemma lg_keeps_lift {A} (r : HalResult A) : lg_keeps (native_lift r).
Proof. by intros w. Qed.
Lemma lg_keeps_gpiod {A} op (m : native W string A) : (∀ w, lg_same w (m w).1) → lg_keeps (gpiod op m).
Proof. intros Hm w. specialize (Hm w). unfold gpiod, native_map_err. by destruct (m w). Qed.
Lemma lg_keeps_setter op settings : lg_keeps (setter op settings).
Proof. apply lg_keeps_bind; [apply lg_keeps_lift|by intros x w]. Qed.
Lemma lg_keeps_when b (m : machine unit) : lg_keeps m → lg_keeps (native_when b m).
Proof. by destruct b. Qed.
Ltac lg_keeps_tac :=
  repeat first
    [ apply lg_keeps_bind; [|intros ?] | apply lg_keeps_setter | apply lg_keeps_lift
    | apply lg_keeps_when | apply lg_keeps_gpiod; intros ? ].

Lemma request_settings_keeps config : lg_keeps (request_settings config).
Proof. unfold request_settings. lg_keeps_tac; [apply same_settings_new|done..]. Qed.
Lemma enumerate_keeps : lg_keeps gpio_enumerate_sync.
Proof.
  apply lg_keeps_bind; [apply lg_keeps_gpiod; intros; apply same_read_dev|intros entries].
  induction (chip_paths entries) as [|path paths IH]; [done|]. cbn.
  apply lg_keeps_bind; [|intros d; apply lg_keeps_bind; [done|by intros ds w]].
  unfold descriptor_from_path. lg_keeps_tac; [apply same_chip_open|apply same_chip_info].
Qed.
Lemma edge_settings_keeps active_low mask : lg_keeps (edge_settings active_low mask).
Proof. unfold edge_settings. lg_keeps_tac. apply same_settings_new. Qed.

(** The settings that a configuration asks for. *)
Definition wanted_settings (config : GpioLineConfig) : LineSettings :=
  mkLineSettings
    (Some match gpio_direction config with Input => NativeInput | Output => NativeOutput end)
    (Some match gpio_bias config with
          | BiasDisabled => NativeBiasDisabled | PullUp => NativePullUp | PullDown => NativePullDown
          end)
    (gpio_active_low config)
    ((λ drive, match drive with
               | PushPull => NativePushPull | OpenDrain => NativeOpenDrain | OpenSource => NativeOpenSource
               end) <$> gpio_drive config)
    (value_to_native <$> gpio_initial_value config) None false.
Lemma request_settings_wanted config w w' settings :
  request_settings config w = (w', Ok settings) → settings = wanted_settings config.
Proof.
  unfold request_settings. intros E. repeat (apply native_bind_Ok in E as (? & ? & _ & E)).
  by injection E as _ <-.
Qed.

(** Everything before the request itself. *)
Definition request_prefix (path : string) (lines : list Z) (config : GpioLineConfig)
    : machine LineSettings :=
  gpiod "gpio.open" (chip_open path) ≫= λ _, request_settings config ≫= λ settings,
  gpiod "gpio.open" (line_config_add lines settings) ≫= λ _,
  gpiod "gpio.open" request_config_new ≫= λ _, mret settings.
Lemma request_prefix_run path lines config w :
  requests (request_prefix path lines config w).1 = requests w ∧
  (gpiod "gpio.open" (chip_open path) ≫= λ _, request_lines path lines config) w
  = (request_prefix path lines config ≫= λ settings,
     gpiod "gpio.open" (chip_request_lines path lines settings)) w.
Proof.
  split.
  - assert (lg_keeps (request_prefix path lines config)) as Hk; [|by apply (Hk w)].
    apply lg_keeps_bind; [lg_keeps_tac; apply same_chip_open|intros _].
    apply lg_keeps_bind; [apply request_settings_keeps|intros settings].
    lg_keeps_tac; first [apply same_line_config|apply same_request_config|done].
  - unfold request_prefix, request_lines, mbind, native_bind.
    destruct (gpiod "gpio.open" (chip_open path) w) as [w1 [u|e]]; [|done].
    destruct (request_settings config w1) as [w2 [settings|e]]; [|done].
    destruct (gpiod "gpio.open" (line_config_add lines settings) w2) as [w3 [u3|e]]; [|done].
    by destruct (gpiod "gpio.open" request_config_new w3) as [w4 [u4|e]].
Qed.
Lemma request_prefix_wanted path lines config w w' settings :
  request_prefix path lines config w = (w', Ok settings) → settings = wanted_settings config.
Proof.
  intros (w1 & ? & _ & (w2 & s & Hs%request_settings_wanted & E)%native_bind_Ok)%native_bind_Ok.
  apply native_bind_Ok in E as (? & ? & _ & E). apply native_bind_Ok in E as (? & ? & _ & E).
  injection E as _ <-. exact Hs.
Qed.

(** Opening GPIO lines requests them as configured, or holds nothing.  When the open fails,
    at whichever call of the library, no line request is held that was not held before;
    when it succeeds, one more is: for exactly the lines asked for, on the chip the selector
    resolves to, with direction, bias, polarity, drive and initial value of the
    configuration. *)
Theorem gpio_open_requests_config selector lines config w w' r :
  gpio_open_sync selector lines config w = (w', r) →
  match r with
  | Err _ => requests w' = requests w
  | Ok s =>
      requests w' = (Endpoint_as_str (desc_endpoint (lgs_descriptor s)), lines, wanted_settings config)
                      :: requests w ∧
      lines ≠ [] ∧ lgs_lines s = lines ∧ lgs_config s = config ∧ lgs_closed s = false ∧
      ∃ w1 descriptors, gpio_enumerate_sync w = (w1, Ok descriptors) ∧
        resolve_resource descriptors selector gpio_lines_capability "gpio.open" = Ok (lgs_descriptor s)
  end.
Proof.
  unfold gpio_open_sync. destruct lines as [|line lines]; [by intros [= <- <-]|].
  set (ls := line :: lines). rewrite native_bind_run. pose proof (enumerate_keeps w) as [Hk _].
  destruct (gpio_enumerate_sync w) as [w1 [ds|e]] eqn:Een; [|by intros [= <- <-]]. simpl in Hk.
  rewrite native_bind_run. unfold native_lift at 1. destruct (resolve_resource ds _ _ _) as [d|e] eqn:Er; [|by intros [= <- <-]].
  rewrite native_bind_run.
  set (path := Endpoint_as_str (desc_endpoint d)).
  pose proof (request_prefix_run path ls config w1) as [Hpre Hrun].
  unfold native_map_err at 1. rewrite Hrun, native_bind_run.
  destruct (request_prefix path ls config w1) as [w2 [settings|e]] eqn:Ep; simpl in *;
    [|intros [= <- <-]; by rewrite Hpre].
  apply request_prefix_wanted in Ep as ->. unfold gpiod, native_map_err.
  destruct (chip_request_lines path ls _ w2) as [w3 [u|e]] eqn:Eq; simpl;
    apply request_law in Eq; simpl in Eq; intros [= <- <-]; rewrite Eq, Hpre, Hk; [|done].
  split_and!; try done. by exists w1, ds.
Qed.

(** Waiting for an edge returns the first event queued, and discards those read with it.
    When [next_edge] returns an event, it is the first of those that the kernel had queued
    and then received while the code waited; of the others, as many as the capacity of the
    request has room for are taken from the kernel as well and reported to nobody.  No event
    is lost with a capacity of one. *)
Theorem gpio_next_edge_discards s request timeout w w' e :
  0 < edge_capacity request →
  LinuxGpioSession_next_edge s request timeout w = (w', Ok (Some e)) →
  ∃ more event lost,
    pending w ++ more = Ok event :: lost ++ pending w' ∧
    edge_event event = Ok e ∧
    length lost = (Nat.min (Z.to_nat (edge_capacity request)) (length (pending w ++ more)) - 1)%nat.
Proof.
  intros Hcap E. unfold LinuxGpioSession_next_edge in E.
  apply native_bind_Ok in E as (w0 & ? & [= <- Hopen] & E).
  destruct (gpio_direction (lgs_config s)); [|done].
  apply native_bind_Ok in E as (w1 & settings & E1 & E).
  pose proof (edge_settings_keeps (gpio_active_low (lgs_config s)) (edge_mask request) w) as [_ H1].
  rewrite E1 in H1. simpl in H1.
  apply native_bind_Ok in E as (w2 & ? & E2%native_map_err_Ok & E).
  pose proof (same_line_config (lgs_lines s) settings w1) as [_ H2]. rewrite E2 in H2. simpl in H2.
  apply native_bind_Ok in E as (w3 & ? & E3%native_map_err_Ok & E).
  pose proof (same_reconfigure (lgs_lines s) settings w2) as [_ H3]. rewrite E3 in H3. simpl in H3.
  apply native_bind_Ok in E as (w4 & ready & E4%native_map_err_Ok & E).
  destruct (wait_law timeout w3) as [more H4]. rewrite E4 in H4. simpl in H4.
  destruct ready; [|done]. simpl in E.
  apply native_bind_Ok in E as (w5 & ? & E5%native_map_err_Ok & E).
  pose proof (same_buffer (edge_capacity request) w4) as [_ H5]. rewrite E5 in H5. simpl in H5.
  apply native_bind_Ok in E as (w6 & events & E6%native_map_err_Ok & E).
  apply read_law in E6 as [He Hp]. rewrite H5, H4, H3, H2, H1 in He, Hp.
  destruct events as [|event rest]; [done|]. injection E as <- E.
  apply bind_Ok in E as (event' & He' & E). destruct event as [event|]; [|done]. injection He' as ->.
  destruct (edge_event event') as [e'|] eqn:Ee; [|done]. injection E as ->.
  exists more, event', rest. split_and!; [|done|].
  - rewrite Hp, app_comm_cons, He. by rewrite take_drop.
  - assert (length (Ok (E := string) event' :: rest)
      = length (take (Z.to_nat (edge_capacity request)) (pending w ++ more))) as Hlen by (by rewrite He).
    rewrite length_take in Hlen. simpl in Hlen. lia.
Qed.

(** A closed session makes no call of the library. *)
Lemma gpio_closed_final s w :
  lgs_closed s = true →
  (LinuxGpioSession_read s w).1 = w ∧ (∀ values, (LinuxGpioSession_write s values w).1 = w) ∧
  (∀ request timeout, (LinuxGpioSession_next_edge s request timeout w).1 = w).
Proof.
  intros Hc. unfold LinuxGpioSession_read, LinuxGpioSession_write, LinuxGpioSession_next_edge,
    lg_ensure_open. by rewrite Hc.
Qed.
(** Inputs are never driven, and a write has one value per line. *)
Lemma gpio_write_guarded s values w :
  gpio_direction (lgs_config s) = Input ∨ len values ≠ len (lgs_lines s) →
  (LinuxGpioSession_write s values w).1 = w ∧ is_ok (LinuxGpioSession_write s values w).2 = false.
Proof.
  intros Hg. unfold LinuxGpioSession_write, lg_ensure_open. destruct (lgs_closed s); [done|]. simpl.
  rewrite native_bind_run. simpl. destruct (gpio_direction (lgs_config s)); [done|].
  destruct Hg as [?|Hl]; [done|]. by rewrite (proj2 (Z.eqb_neq _ _) Hl).
Qed.
End adapter.

(** A machine with one chip, whose requests are granted and whose events are queued. *)
Record ExampleGpio := mkExampleGpio {
  eg_requests : list (string * list Z * LineSettings);
  eg_pending : list (result string RawEdgeEvent);
}.
Definition example_libgpiod : Libgpiod ExampleGpio := {|
  read_dev w := (w, Ok [Some "tty0"; Some "gpiochip0"; None]);
  chip_open _ w := (w, Ok ());
  chip_info _ w := (w, Ok (mkChipInfo (Ok "gpiochip0") (Err "none") 8));
  settings_new w := (w, Ok ());
  settings_check _ := Ok ();
  line_config_add _ _ w := (w, Ok ());
  request_config_new w := (w, Ok ());
  chip_request_lines chip lines settings w :=
    (mkExampleGpio ((chip, lines, settings) :: eg_requests w) (eg_pending w), Ok ());
  request_values w := (w, Ok ∅);
  request_set_values _ w := (w, Ok ());
  request_reconfigure _ _ w := (w, Ok ());
  request_wait_edge_events _ w := (w, Ok true);
  buffer_new _ w := (w, Ok ());
  request_read_edge_events n w :=
    (mkExampleGpio (eg_requests w) (drop (Z.to_nat n) (eg_pending w)),
     Ok (take (Z.to_nat n) (eg_pending w)));
  lg_task_failed w := (w, None);
|}.
Lemma example_libgpiod_laws : LibgpiodLaws (H := example_libgpiod) eg_requests eg_pending.
Proof.
  split; try done.
  - by intros chip lines settings w w' r [= <- <-].
  - intros timeout w. exists []. by rewrite app_nil_r.
  - by intros n w w' r [= <- <-].
Qed.
Definition example_gpio_config : GpioLineConfig := mkGpioLineConfig Input false PullUp None None.
Definition example_gpio_selector : ResourceSelector :=
  mkResourceSelector (mkResourceId "gpio:chip:gpiochip0") Strong Gpio.
Definition example_gpio_opened :=
  gpio_open_sync (H := example_libgpiod) (λ _ s, s) example_gpio_selector [3; 5] example_gpio_config
    (mkExampleGpio [] []).
Lemma gpio_open_requests_config_witness :
  eg_requests example_gpio_opened.1 = [("/dev/gpiochip0", [3; 5], wanted_settings example_gpio_config)].
Proof.
  destruct example_gpio_opened as [w' r] eqn:E.
  assert (Hr : ∃ s, r = Ok s ∧ Endpoint_as_str (desc_endpoint (lgs_descriptor s)) = "/dev/gpiochip0").
  { revert E. vm_compute. intros [= <- <-]. by eexists. }
  destruct Hr as (s & -> & He).
  pose proof (gpio_open_requests_config (H := example_libgpiod) (λ _ s, s) eg_requests eg_pending
    (H0 := example_libgpiod_laws) example_gpio_selector [3; 5] example_gpio_config
    (mkExampleGpio [] []) w' (Ok s) E) as (Hp & _). by rewrite He in Hp.
Defined.

(** Three edges are queued; with a capacity of two, the second is lost. *)
Definition example_edge (n : Z) : RawEdgeEvent := mkRawEdgeEvent (Ok Rising) n n.
Definition example_gpio_session : LinuxGpioSession :=
  mkLinuxGpioSession
    (mkResourceDescriptor (mkResourceId "gpio:chip:gpiochip0") (mkEndpoint "/dev/gpiochip0") Strong Gpio
       (mkResourceProperties ∅) (mkCapabilitySet [])) [3] example_gpio_config false.
Definition example_gpio_edges : ExampleGpio :=
  mkExampleGpio [] [Ok (example_edge 1); Ok (example_edge 2); Ok (example_edge 3)].
Lemma gpio_next_edge_discards_witness :
  LinuxGpioSession_next_edge (H := example_libgpiod) example_gpio_session
    (mkGpioEdgeRequest EdgeMask_BOTH 2) 0 example_gpio_edges
    = (mkExampleGpio [] [Ok (example_edge 3)], Ok (Some (mkGpioEdgeEvent Rising 1 1))) ∧
  ∃ more event lost,
    eg_pending example_gpio_edges ++ more = Ok event :: lost ++ [Ok (example_edge 3)] ∧
    edge_event event = Ok (mkGpioEdgeEvent Rising 1 1) ∧
    length lost = (Nat.min 2 (length (eg_pending example_gpio_edges ++ more)) - 1)%nat.
Proof.
  assert (E : LinuxGpioSession_next_edge (H := example_libgpiod) example_gpio_session
    (mkGpioEdgeRequest EdgeMask_BOTH 2) 0 example_gpio_edges
    = (mkExampleGpio [] [Ok (example_edge 3)], Ok (Some (mkGpioEdgeEvent Rising 1 1))))
    by (vm_compute; reflexivity).
  split; [exact E|].
  apply (gpio_next_edge_discards (H := example_libgpiod) eg_requests eg_pending
    (H0 := example_libgpiod_laws) example_gpio_session (mkGpioEdgeRequest EdgeMask_BOTH 2) 0
    example_gpio_edges _ _ (eq_refl : 0 < 2) E).
Defined.
