(* ===== verification/Nusb.v ===== *)
(** * adapters/nusb

    Models adapters/nusb/src/lib.rs on the systems it supports: discovery of USB devices, the
    claim of an interface, and the transfers of the session on it.  The crate nusb is a class
    over the state of the machine; its errors are their [Display] texts, except for those of
    transfers, which the adapter tells apart. *)

From S2P Require Import Prelude Core Native Lifecycle SerialRegistry UsbTypes AdapterIdentity.
From stdpp Require Import pretty.
From Stdlib Require Import Ascii.
Open Scope Z_scope.

(** ** The crate nusb *)
Record DeviceInfo := mkDeviceInfo {
  di_bus_id : string;
  di_port_chain : list Z;
  di_device_address : Z;
  di_vendor_id : Z;
  di_product_id : Z;
  di_serial_number : option string;
}.
Inductive ControlType := TypeStandard | TypeClass | TypeVendor.
Inductive Recipient := RecipientDevice | RecipientInterface | RecipientEndpoint | RecipientOther.
Inductive EndpointType := Bulk | Interrupt.
(** The structs [ControlOut] and [ControlIn], up to the data or the length. *)
Record ControlSetup := mkControlSetup {
  cs_control_type : ControlType;
  cs_recipient : Recipient;
  cs_request : Z;
  cs_value : Z;
  cs_index : Z;
}.
(** [Display] is the text of the error. *)
Inductive TransferErrorKind := Cancelled | Disconnected | TransferInvalidArgument | TransferOther.
Record TransferError := mkTransferError { te_kind : TransferErrorKind; te_display : string }.
(** The buffer that comes back, how much of it was transferred, and the status. *)
Record Completion := mkCompletion {
  completion_buffer : Bytes;
  completion_actual_len : Z;
  completion_status : result TransferError unit;
}.

(** An interface is named by its device and number.  [endpoint_open] gives access to an endpoint
    of a type and direction ([true]: in); [out_blocking] and [in_blocking] are the
    [transfer_blocking] of such an endpoint. *)
Class NusbMachine (W : Type) := {
  list_devices : W → W * result string (list DeviceInfo);
  device_open : DeviceInfo → W → W * result string unit;
  device_claim : DeviceInfo → Z → W → W * result string unit;
  native_control_out : DeviceInfo * Z → ControlSetup → Bytes → Z → W → W * result TransferError unit;
  native_control_in : DeviceInfo * Z → ControlSetup → Z → Z → W → W * result TransferError Bytes;
  endpoint_open : DeviceInfo * Z → EndpointType → bool → Z → W → W * result string unit;
  out_blocking : DeviceInfo * Z → EndpointType → Z → Bytes → Z → W → W * Completion;
  in_blocking : DeviceInfo * Z → EndpointType → Z → Z → Z → W → W * Completion;
  usb_task_failed : W → W * option string;
}.

(** ** Errors *)
Definition usb_platform_error (operation error : string) : HalError :=
  static_error "runtime.transport.unavailable" Unavailable operation true
    ("nusb platform error: " +:+ error).
Definition transfer_error (operation : string) (error : TransferError) : HalError :=
  let '(name, category, retryable) :=
    match te_kind error with
    | Cancelled => ("runtime.transport.timeout", Unavailable, true)
    | Disconnected => ("runtime.transport.disconnected", Unavailable, true)
    | TransferInvalidArgument =>
        ("runtime.transport.unsupported_configuration", InvalidArgument, false)
    | TransferOther => ("runtime.transport.unavailable", Unavailable, true)
    end in
  static_error name category operation retryable ("nusb transfer error: " +:+ te_display error).
Definition usb_invalid (operation message : string) : HalError :=
  static_error "usb.transfer.invalid" InvalidArgument operation false message.
Definition usb_session_closed (operation : string) : HalError :=
  static_error "runtime.session.closed" Conflict operation false "USB session is closed".
Definition usb_worker_failed (operation error : string) : HalError :=
  static_error "runtime.internal.worker_failed" Internal operation false
    ("nusb worker failed: " +:+ error).

(** ** The request type of a control transfer *)
Definition control_type (request_type : Z) : HalResult ControlType :=
  match Z.land (Z.shiftr request_type 5) 0x03 with
  | 0 => Ok TypeStandard
  | 1 => Ok TypeClass
  | 2 => Ok TypeVendor
  | _ => Err (usb_invalid "usb.transfer" "reserved USB control type")
  end.
Definition recipient (request_type : Z) : HalResult Recipient :=
  match Z.land request_type 0x1f with
  | 0 => Ok RecipientDevice
  | 1 => Ok RecipientInterface
  | 2 => Ok RecipientEndpoint
  | 3 => Ok RecipientOther
  | _ => Err (usb_invalid "usb.transfer" "reserved USB control recipient")
  end.

(** The arguments of [identity_from_metadata] and the parts of a descriptor. *)
Definition device_port_chain (device : DeviceInfo) : string :=
  str_join "."%char (to_string <$> di_port_chain device).
Definition device_metadata (device : DeviceInfo) : UsbDeviceMetadata :=
  mkUsbDeviceMetadata (di_vendor_id device) (di_product_id device) (di_serial_number device)
    (di_bus_id device +:+ "-" +:+ device_port_chain device).
Definition device_endpoint (device : DeviceInfo) : string :=
  di_bus_id device +:+ "/" +:+ to_string (di_device_address device).
Definition device_properties (device : DeviceInfo) : gmap string string :=
  <["usb.device_address" := to_string (di_device_address device)]>
  (<["usb.port_chain" := device_port_chain device]>
  (<["usb.bus_id" := di_bus_id device]>
  (<["usb.pid" := hex false 4 (di_product_id device)]>
  (<["usb.vid" := hex false 4 (di_vendor_id device)]>
  (<["endpoint" := device_endpoint device]> (<["adapter" := "nusb"]> ∅)))))).

Record NusbSession := mkNusbSession {
  nus_descriptor : ResourceDescriptor;
  nus_claim : UsbInterfaceClaim;
  nus_interface : DeviceInfo * Z;
  nus_closed : bool;
}.

(** ** Numerals and the endpoints of devices *)
Lemma pretty_char_not_slash x : (x < 10)%N → pretty_N_char x ≠ "/"%char.
Proof.
  intros Hx. assert (Forall (λ n, pretty_N_char (N.of_nat n) ≠ "/"%char) (seq 0 10)) as Hall
    by (repeat constructor; done).
  rewrite Forall_forall in Hall. rewrite <- (N2Nat.id x). apply Hall, elem_of_seq. lia.
Qed.
Lemma pretty_go_free n x s : (x < 10 ^ N.of_nat n)%N → str_free "/" s → str_free "/" (pretty_N_go x s).
Proof.
  revert x s. induction n as [|n IH]; intros x s Hx Hs.
  { assert (x = 0%N) as -> by (simpl in Hx; lia). by rewrite pretty_N_go_0. }
  destruct (decide (x = 0)%N) as [->|Hne]; [by rewrite pretty_N_go_0|].
  rewrite pretty_N_go_step by lia. apply IH.
  - apply N.Div0.div_lt_upper_bound. by rewrite <- N.pow_succ_r', <- Nat2N.inj_succ.
  - apply str_free_cons. split; [|done]. apply pretty_char_not_slash. by apply N.mod_lt.
Qed.
Lemma to_string_free x : str_free "/" (to_string x).
Proof.
  unfold to_string, pretty, pretty_N. case_decide; [done|].
  apply (pretty_go_free (N.to_nat (Z.to_N x))); [|done]. rewrite N2Nat.id.
  apply N.pow_gt_lin_r. lia.
Qed.
Lemma to_string_inj x y : 0 <= x → 0 <= y → to_string x = to_string y → x = y.
Proof. unfold to_string. intros ?? E. apply (inj (pretty (A := N))) in E. lia. Qed.
Lemma last_split_inj a b x y :
  str_free "/" x → str_free "/" y → a +:+ String "/" x = b +:+ String "/" y → a = b ∧ x = y.
Proof.
  intros Hx Hy. revert b. induction a as [|c a IH]; intros [|d b] E; simpl in E.
  - by injection E.
  - injection E as <- ->. apply str_free_app in Hx as [_ Hx]. by apply str_free_cons in Hx as [].
  - injection E as -> <-. apply str_free_app in Hy as [_ Hy]. by apply str_free_cons in Hy as [].
  - injection E as -> E. by apply IH in E as [-> ->].
Qed.
Lemma device_endpoint_inj a b :
  0 <= di_device_address a → 0 <= di_device_address b → device_endpoint a = device_endpoint b →
  di_bus_id a = di_bus_id b ∧ di_device_address a = di_device_address b.
Proof.
  intros ?? (E1 & E2%to_string_inj)%last_split_inj; [done..| |]; apply to_string_free.
Qed.

(** ** The request type survives *)

(** The byte that the crate puts on the bus: direction, type, recipient, as the USB
    specification numbers them. *)
Definition native_request_type (type : ControlType) (to : Recipient) (input : bool) : Z :=
  (if input then 128 else 0)
  + 32 * match type with TypeStandard => 0 | TypeClass => 1 | TypeVendor => 2 end
  + match to with
    | RecipientDevice => 0 | RecipientInterface => 1 | RecipientEndpoint => 2 | RecipientOther => 3
    end.
Definition request_type_survives (rt : Z) : bool :=
  match control_type rt, recipient rt with
  | Ok type, Ok to => native_request_type type to (Z.testbit rt 7) =? rt
  | _, _ => true
  end.
Lemma request_types_survive : forallb request_type_survives (Z.of_nat <$> seq 0 256) = true.
Proof. vm_compute. reflexivity. Qed.
Lemma request_type_exact rt type to :
  is_u8 rt = true → control_type rt = Ok type → recipient rt = Ok to →
  native_request_type type to (Z.testbit rt 7) = rt.
Proof.
  unfold is_u8, u8_max. intros Hb Ht Hr. bool_simp.
  pose proof (proj1 (forallb_forall _ _) request_types_survive rt) as Hs.
  unfold request_type_survives in Hs. rewrite Ht, Hr in Hs. apply Z.eqb_eq, Hs.
  apply list_elem_of_In, list_elem_of_fmap. exists (Z.to_nat rt). split; [lia|].
  apply elem_of_seq. lia.
Qed.

Section adapter.
Context {W : Type} `{NusbMachine W} (utf8_percent_encode : AsciiSet → string → string).
Notation machine := (native W HalError) (only parsing).

(** ** Discovery *)
Definition descriptor_from_usb_device (device : DeviceInfo) : HalResult ResourceDescriptor :=
  usb_identity_from_metadata utf8_percent_encode (device_metadata device) ≫= λ identity,
  Endpoint_new (device_endpoint device) ≫= λ endpoint,
  Ok (mkResourceDescriptor (ident_id identity) endpoint (ident_quality identity) Usb
        (mkResourceProperties (device_properties device))
        (mkCapabilitySet [usb_control_capability; usb_bulk_capability; usb_interrupt_capability])).
Definition usb_enumerate_sync : machine (list ResourceDescriptor) :=
  native_map_err (usb_platform_error "usb.enumerate") list_devices ≫= λ devices,
  native_lift (collect descriptor_from_usb_device devices).
Definition NusbAdapter_enumerate : machine (list ResourceDescriptor) := λ w,
  match usb_task_failed w with
  | (w, Some error) => (w, Err (usb_worker_failed "usb.enumerate" error))
  | (w, None) => usb_enumerate_sync w
  end.

(** ** Opening *)
Definition usb_paired (device : DeviceInfo) : HalResult (ResourceDescriptor * DeviceInfo) :=
  (λ descriptor, (descriptor, device)) <$> descriptor_from_usb_device device.
(** The resolved descriptor with its device; [None] is the panic of the [expect], which
    [usb_select_total] rules out. *)
Definition usb_select (devices : list DeviceInfo) (selector : ResourceSelector)
    : HalResult (ResourceDescriptor * option DeviceInfo) :=
  collect usb_paired devices ≫= λ paired,
  resolve_resource paired.*1 selector usb_control_capability "usb.open" ≫= λ descriptor,
  Ok (descriptor,
      snd <$> List.find (λ p, bool_decide (desc_endpoint p.1 = desc_endpoint descriptor)) paired).
(** [None] is the panic. *)
Definition usb_open_sync (selector : ResourceSelector) (claim : UsbInterfaceClaim)
    : machine (option NusbSession) :=
  native_map_err (usb_platform_error "usb.open") list_devices ≫= λ devices,
  native_lift (usb_select devices selector) ≫= λ '(descriptor, device),
  match device with
  | None => mret None
  | Some device =>
      native_map_err (λ error, HalError_with_resource_id error (desc_id descriptor))
        (native_map_err (usb_platform_error "usb.open") (device_open device) ≫= λ _,
         native_map_err (usb_platform_error "usb.open") (device_claim device (claim_number claim)))
        ≫= λ _,
      mret (Some (mkNusbSession descriptor claim (device, claim_number claim) false))
  end.

(** ** Transfers *)
Definition completed (m : W → W * Completion) : machine Completion := λ w,
  let '(w, completion) := m w in (w, Ok completion).
Definition endpoint_out (type : EndpointType) (interface : DeviceInfo * Z) (endpoint : Z)
    (data : Bytes) (timeout : Z) : machine Bytes :=
  native_map_err (usb_platform_error "usb.transfer") (endpoint_open interface type false endpoint)
    ≫= λ _,
  completed (out_blocking interface type endpoint data timeout) ≫= λ completion,
  native_lift (map_err (transfer_error "usb.transfer") (completion_status completion)) ≫= λ _,
  mret [].
(** The slice [buffer[..actual_len]] panics when fewer bytes came back; [read_bounds] says that
    the crate does not report more than it read. *)
Definition endpoint_in (type : EndpointType) (interface : DeviceInfo * Z) (endpoint max_bytes : Z)
    (timeout : Z) : machine Bytes :=
  native_map_err (usb_platform_error "usb.transfer") (endpoint_open interface type true endpoint)
    ≫= λ _,
  completed (in_blocking interface type endpoint max_bytes timeout) ≫= λ completion,
  native_lift (map_err (transfer_error "usb.transfer") (completion_status completion)) ≫= λ _,
  mret (take (Z.to_nat (completion_actual_len completion)) (completion_buffer completion)).
Definition execute_transfer (interface : DeviceInfo * Z) (transfer : UsbTransfer) (timeout : Z)
    : machine Bytes :=
  match transfer with
  | ControlOut request_type request value index data =>
      native_lift (control_type request_type) ≫= λ control_type,
      native_lift (recipient request_type) ≫= λ recipient,
      native_map_err (transfer_error "usb.transfer")
        (native_control_out interface
           (mkControlSetup control_type recipient request value index) data timeout) ≫= λ _,
      mret []
  | ControlIn request_type request value index max_bytes =>
      native_when (u16_max <? max_bytes)
        (throw (usb_invalid "usb.transfer" "control length exceeds u16")) ≫= λ _,
      native_lift (control_type request_type) ≫= λ control_type,
      native_lift (recipient request_type) ≫= λ recipient,
      native_map_err (transfer_error "usb.transfer")
        (native_control_in interface
           (mkControlSetup control_type recipient request value index) max_bytes timeout)
  | BulkOut endpoint data => endpoint_out Bulk interface endpoint data timeout
  | BulkIn endpoint max_bytes => endpoint_in Bulk interface endpoint max_bytes timeout
  | InterruptOut endpoint data => endpoint_out Interrupt interface endpoint data timeout
  | InterruptIn endpoint max_bytes => endpoint_in Interrupt interface endpoint max_bytes timeout
  end.
Definition NusbSession_transfer (s : NusbSession) (transfer : UsbTransfer) (timeout : Z)
    : machine Bytes :=
  if nus_closed s then throw (usb_session_closed "usb.transfer")
  else
    native_lift (UsbTransfer_validate transfer) ≫= λ _,
    native_map_err (λ error, HalError_with_resource_id error (desc_id (nus_descriptor s)))
      (execute_transfer (nus_interface s) transfer timeout).
Definition NusbSession_close (s : NusbSession) : NusbSession * HalResult unit :=
  (mkNusbSession (nus_descriptor s) (nus_claim s) (nus_interface s) true, Ok ()).

(** ** What the adapter promises *)

(** The interfaces that are claimed, and the transfers carried out on the bus. *)
Context (claims : W → list (DeviceInfo * Z)) (bus : W → list ((DeviceInfo * Z) * UsbTransfer)).
(** A transfer that succeeds was carried out; one that fails may have been. *)
Definition carries (interface : DeviceInfo * Z) (transfer : UsbTransfer) (ok : bool) (w w' : W) : Prop :=
  bus w' = bus w ++ [(interface, transfer)] ∨ ok = false ∧ bus w' = bus w.
(** What the code relies on: only a granted claim changes what is claimed, only transfers use
    the bus, and a read reports no more bytes than it was asked for and than it read. *)
Class NusbLaws : Prop := {
  claims_list w : claims (list_devices w).1 = claims w;
  claims_open device w : claims (device_open device w).1 = claims w;
  claims_claim device n w w' r : device_claim device n w = (w', r) →
    claims w' = (if is_ok r then [(device, n)] else []) ++ claims w;
  bus_endpoint i type input e w : bus (endpoint_open i type input e w).1 = bus w;
  bus_control_out i s data timeout w w' r : native_control_out i s data timeout w = (w', r) →
    carries i (ControlOut (native_request_type (cs_control_type s) (cs_recipient s) false)
                 (cs_request s) (cs_value s) (cs_index s) data) (is_ok r) w w';
  bus_control_in i s n timeout w w' r : native_control_in i s n timeout w = (w', r) →
    carries i (ControlIn (native_request_type (cs_control_type s) (cs_recipient s) true)
                 (cs_request s) (cs_value s) (cs_index s) n) (is_ok r) w w' ∧
    ∀ bytes, 0 <= n → r = Ok bytes → len bytes <= n;
  bus_out i type e data timeout w w' c : out_blocking i type e data timeout w = (w', c) →
    carries i (match type with Bulk => BulkOut e data | Interrupt => InterruptOut e data end)
      (is_ok (completion_status c)) w w';
  bus_in i type e n timeout w w' c : in_blocking i type e n timeout w = (w', c) →
    carries i (match type with Bulk => BulkIn e n | Interrupt => InterruptIn e n end)
      (is_ok (completion_status c)) w w' ∧
    (0 <= n → 0 <= completion_actual_len c <= n ∧ completion_actual_len c <= len (completion_buffer c));
}.
Context `{!NusbLaws}.

(** The request type of a control transfer is a [u8], the bound of a read a [usize]. *)
Definition transfer_widths (t : UsbTransfer) : bool :=
  match t with
  | ControlOut rt _ _ _ _ => is_u8 rt
  | ControlIn rt _ _ _ n => is_u8 rt && (0 <=? n)
  | BulkIn _ n | InterruptIn _ n => 0 <=? n
  | BulkOut _ _ | InterruptOut _ _ => true
  end.
(** What a transfer may bring back. *)
Definition transfer_in_size (t : UsbTransfer) : Z :=
  if (transfer_direction t).2 then transfer_size t else 0.
(** A run of [execute_transfer] on an accepted transfer. *)
Definition executes (i : DeviceInfo * Z) (t : UsbTransfer) (w w' : W) (r : HalResult Bytes) : Prop :=
  carries i t (is_ok r) w w' ∧ ∀ bytes, r = Ok bytes → len bytes <= transfer_in_size t.

Lemma endpoint_out_executes type i e data timeout w w' r :
  endpoint_out type i e data timeout w = (w', r) →
  executes i (match type with Bulk => BulkOut e data | Interrupt => InterruptOut e data end) w w' r.
Proof.
  unfold endpoint_out, native_map_err, completed, mbind, native_bind, native_lift.
  pose proof (bus_endpoint i type false e w) as Hb.
  destruct (endpoint_open i type false e w) as [w1 [u|err]]; simpl in *.
  2:{ intros [= <- <-]. split; [by right|done]. }
  destruct (out_blocking i type e data timeout w1) as [w2 c] eqn:Ec. apply bus_out in Ec.
  unfold carries in Ec. rewrite Hb in Ec.
  destruct (completion_status c) as [u'|err]; simpl in *; intros [= <- <-]; (split; [done|]); [|done].
  intros ? [= <-]. by destruct type.
Qed.
Lemma endpoint_in_executes type i e n timeout w w' r :
  0 <= n →
  endpoint_in type i e n timeout w = (w', r) →
  executes i (match type with Bulk => BulkIn e n | Interrupt => InterruptIn e n end) w w' r.
Proof.
  intros Hn. unfold endpoint_in, native_map_err, completed, mbind, native_bind, native_lift.
  pose proof (bus_endpoint i type true e w) as Hb.
  destruct (endpoint_open i type true e w) as [w1 [u|err]]; simpl in *.
  2:{ intros [= <- <-]. split; [by right|done]. }
  destruct (in_blocking i type e n timeout w1) as [w2 c] eqn:Ec.
  apply bus_in in Ec as [Ec [Hlen Hbuf]%(λ f, f Hn)].
  unfold carries in Ec. rewrite Hb in Ec.
  destruct (completion_status c) as [u'|err]; simpl in *; intros [= <- <-]; (split; [done|]); [|done].
  intros ? [= <-]. unfold len in *. rewrite length_take.
  transitivity (completion_actual_len c); [lia|]. by destruct type; apply Hlen.
Qed.
Lemma execute_transfer_executes i t timeout w w' r :
  transfer_widths t = true → UsbTransfer_validate t = Ok () →
  execute_transfer i t timeout w = (w', r) → executes i t w w' r.
Proof.
  intros Hb Hv. apply UsbTransfer_validate_iff in Hv as (Hdir & _ & Hsize).
  destruct t as [rt rq v ix data|rt rq v ix n|e data|e n|e data|e n];
    cbn [transfer_direction transfer_size fst snd transfer_widths execute_transfer] in *;
    [|apply andb_prop in Hb as [Hb Hn]|apply (endpoint_out_executes Bulk)
     |apply (endpoint_in_executes Bulk); lia|apply (endpoint_out_executes Interrupt)
     |apply (endpoint_in_executes Interrupt); lia].
  - unfold native_map_err, mbind, native_bind, native_lift.
    destruct (control_type rt) as [ty|e] eqn:Et; [|intros [= <- <-]; split; [by right|done]].
    destruct (recipient rt) as [to|e] eqn:Er; [|intros [= <- <-]; split; [by right|done]].
    pose proof (request_type_exact rt ty to Hb Et Er) as Hrt. rewrite Hdir in Hrt.
    destruct (native_control_out _ _ _ _ _) as [w1 r1] eqn:Ec. apply bus_control_out in Ec.
    simpl in Ec. rewrite Hrt in Ec.
    destruct r1; simpl in *; intros [= <- <-]; (split; [done|]); [by intros ? [= <-]|done].
  - unfold native_when. rewrite (proj2 (Z.ltb_ge _ _)) by (unfold u16_max, MAX_USB_TRANSFER_BYTES in *; lia).
    unfold native_map_err, mbind, native_bind, native_lift. simpl.
    destruct (control_type rt) as [ty|e] eqn:Et; [|intros [= <- <-]; split; [by right|done]].
    destruct (recipient rt) as [to|e] eqn:Er; [|intros [= <- <-]; split; [by right|done]].
    pose proof (request_type_exact rt ty to Hb Et Er) as Hrt. rewrite Hdir in Hrt.
    destruct (native_control_in _ _ _ _ _) as [w1 r1] eqn:Ec. apply bus_control_in in Ec as [Ec Hl].
    simpl in Ec. rewrite Hrt in Ec.
    destruct r1; simpl in *; intros [= <- <-]; (split; [done|]); [|done].
    intros ? [= <-]. by apply Hl; [lia|].
Qed.

(** C28: A USB transfer puts on the bus exactly what was asked for.  A session carries out at most
    one transfer per call, on its own interface, and it is the caller's: the request type that
    the code takes apart into type and recipient arrives as the same byte.  A call that succeeds
    carried it out and returns no more bytes than a read asked for, none for a write; a closed
    session and an invalid transfer never reach the device; and a transfer that fails names the
    resource of the session. *)
Theorem nusb_transfer_exact s t timeout w w' r :
  transfer_widths t = true →
  NusbSession_transfer s t timeout w = (w', r) →
  carries (nus_interface s) t (is_ok r) w w' ∧
  (nus_closed s = true ∨ UsbTransfer_validate t ≠ Ok () → w' = w ∧ is_ok r = false) ∧
  match r with
  | Ok bytes => len bytes <= transfer_in_size t
  | Err e => nus_closed s = false → UsbTransfer_validate t = Ok () →
             err_resource_id e = Some (desc_id (nus_descriptor s))
  end.
Proof.
  intros Hb. unfold NusbSession_transfer. destruct (nus_closed s) eqn:Hc.
  { intros [= <- <-]. split_and!; [by right|done|done]. }
  unfold mbind, native_bind, native_lift. destruct (UsbTransfer_validate t) as [[]|e] eqn:Hv.
  2:{ intros [= <- <-]. split_and!; [by right|done|done]. }
  unfold native_map_err. destruct (execute_transfer _ _ _ _) as [w1 r1] eqn:Ex.
  apply execute_transfer_executes in Ex as [Hcar Hlen]; [|done..].
  intros [= <- <-]. split_and!.
  - by destruct r1.
  - by intros [?|?].
  - destruct r1; simpl; [by apply Hlen|done].
Qed.

(** The selection never panics. *)
Lemma usb_select_total devices selector d device :
  usb_select devices selector = Ok (d, device) →
  ∃ dev, device = Some dev ∧ dev ∈ devices ∧ descriptor_matches selector usb_control_capability d = true ∧
    ((∀ a b, a ∈ devices → b ∈ devices → device_endpoint a = device_endpoint b → a = b) →
     descriptor_from_usb_device dev = Ok d).
Proof.
  unfold usb_select. intros (paired & Ec & (d' & Er & [= -> <-])%bind_Ok)%bind_Ok.
  apply resolve_resource_elem in Er as [Hd Hm].
  apply list_elem_of_fmap in Hd as ([d' dev] & -> & Hin). simpl in *.
  destruct (List.find _ paired) as [[d2 dev2]|] eqn:Ef.
  2:{ exfalso. pose proof (find_none _ _ Ef _ (proj1 (list_elem_of_In _ _) Hin)) as Hn.
      simpl in Hn. by bool_simp. }
  apply find_some in Ef as [Hin2%list_elem_of_In He]. simpl in He. bool_simp.
  assert (∀ d dev, (d, dev) ∈ paired → dev ∈ devices ∧ descriptor_from_usb_device dev = Ok d ∧
    desc_endpoint d = mkEndpoint (device_endpoint dev)) as Hpair.
  { clear -Ec. intros d dev Hin. apply collect_Ok in Ec. apply list_elem_of_lookup in Hin as [i Hi].
    destruct (Forall2_lookup_r _ _ _ _ _ Ec Hi) as (x & Hx & Hp). unfold usb_paired in Hp.
    destruct (descriptor_from_usb_device x) eqn:E; [|done]. injection Hp as <- <-.
    split_and!; [by eapply list_elem_of_lookup_2|done|].
    unfold descriptor_from_usb_device in E. apply bind_Ok in E as (? & _ & (ep & He & [= <-])%bind_Ok).
    simpl. unfold Endpoint_new in He. repeat case_match; congruence. }
  apply Hpair in Hin as (Hdev & Hdd & Hep), Hin2 as (Hdev2 & Hdd2 & Hep2).
  exists dev2. split_and!; try done. intros Huniq.
  rewrite (Huniq dev2 dev); [done..|congruence].
Qed.

(** Opening a USB interface claims it on the device that was selected, or claims nothing.
    The code never panics.  When the open fails, no interface is claimed that was not claimed
    before; when it succeeds, one more is: the number asked for, on a device of the current
    enumeration.  Provided no two devices share a bus and an address, that device is the one
    described by the descriptor the selector resolves to. *)
Theorem nusb_open_claims selector claim w w' r :
  usb_open_sync selector claim w = (w', r) →
  match r with
  | Err _ => claims w' = claims w
  | Ok None => False
  | Ok (Some s) =>
      nus_claim s = claim ∧ nus_closed s = false ∧
      claims w' = nus_interface s :: claims w ∧ (nus_interface s).2 = claim_number claim ∧
      ∃ w1 devices, list_devices w = (w1, Ok devices) ∧ (nus_interface s).1 ∈ devices ∧
        descriptor_matches selector usb_control_capability (nus_descriptor s) = true ∧
        ((∀ a, a ∈ devices → 0 <= di_device_address a) →
         (∀ a b, a ∈ devices → b ∈ devices → di_bus_id a = di_bus_id b →
            di_device_address a = di_device_address b → a = b) →
         descriptor_from_usb_device (nus_interface s).1 = Ok (nus_descriptor s))
  end.
Proof.
  unfold usb_open_sync, native_map_err, mbind, native_bind, native_lift. pose proof (claims_list w) as Hl.
  destruct (list_devices w) as [w1 [devices|e]]; simpl in *; [|by intros [= <- <-]].
  destruct (usb_select devices selector) as [[d device]|e] eqn:Es; [|by intros [= <- <-]].
  apply usb_select_total in Es as (dev & -> & Hdev & Hm & Huniq).
  pose proof (claims_open dev w1) as Ho.
  destruct (device_open dev w1) as [w2 [u|e]]; simpl in *; [|intros [= <- <-]; congruence].
  destruct (device_claim dev (claim_number claim) w2) as [w3 r3] eqn:Ec. apply claims_claim in Ec.
  destruct r3 as [u3|e]; simpl in *; intros [= <- <-]; [|congruence].
  simpl. split_and!; try done; [by rewrite Ec, Ho, Hl|]. exists w1, devices. split_and!; try done.
  intros Hpos Hinj. apply Huniq. intros a b Ha Hb E.
  apply device_endpoint_inj in E as [??]; [by apply Hinj|by apply Hpos..].
Qed.
End adapter.

(** A machine with one device, whose reads bring four bytes. *)
Record ExampleUsb := mkExampleUsb {
  eu_claims : list (DeviceInfo * Z);
  eu_bus : list ((DeviceInfo * Z) * UsbTransfer);
}.
Definition example_usb_device : DeviceInfo := mkDeviceInfo "003" [1; 4] 9 0x2341 0x43 (Some "A1").
Definition example_on_bus (i : DeviceInfo * Z) (t : UsbTransfer) (w : ExampleUsb) : ExampleUsb :=
  mkExampleUsb (eu_claims w) (eu_bus w ++ [(i, t)]).
Definition example_usb_bytes : Bytes := [1; 2; 3; 4].
Definition example_nusb : NusbMachine ExampleUsb := {|
  list_devices w := (w, Ok [example_usb_device]);
  device_open _ w := (w, Ok ());
  device_claim device n w := (mkExampleUsb ((device, n) :: eu_claims w) (eu_bus w), Ok ());
  native_control_out i s data _ w :=
    (example_on_bus i (ControlOut (native_request_type (cs_control_type s) (cs_recipient s) false)
       (cs_request s) (cs_value s) (cs_index s) data) w, Ok ());
  native_control_in i s n _ w :=
    (example_on_bus i (ControlIn (native_request_type (cs_control_type s) (cs_recipient s) true)
       (cs_request s) (cs_value s) (cs_index s) n) w, Ok (take (Z.to_nat n) example_usb_bytes));
  endpoint_open _ _ _ _ w := (w, Ok ());
  out_blocking i type e data _ w :=
    (example_on_bus i (match type with Bulk => BulkOut e data | Interrupt => InterruptOut e data end) w,
     mkCompletion [] 0 (Ok ()));
  in_blocking i type e n _ w :=
    (example_on_bus i (match type with Bulk => BulkIn e n | Interrupt => InterruptIn e n end) w,
     mkCompletion example_usb_bytes (Z.max 0 (Z.min n 4)) (if 0 <=? n then Ok () else Err (mkTransferError TransferInvalidArgument "")));
  usb_task_failed w := (w, None);
|}.
Lemma example_nusb_laws : NusbLaws (H := example_nusb) eu_claims eu_bus.
Proof.
  split; try done.
  - by intros device n w w' r [= <- <-].
  - intros i s data timeout w w' r [= <- <-]. by left.
  - intros i s n timeout w w' r [= <- <-]. split; [by left|]. intros bytes Hn [= <-].
    unfold len. rewrite length_take. lia.
  - intros i type e data timeout w w' c [= <- <-]. by left.
  - intros i type e n timeout w w' c [= <- <-]. split; [by left|]. simpl. intros Hn. unfold len. simpl. lia.
Qed.
Definition example_usb_session : NusbSession :=
  mkNusbSession
    (mkResourceDescriptor (mkResourceId "usb:device:2341:0043:A1") (mkEndpoint "003/9") Strong Usb
       (mkResourceProperties ∅) (mkCapabilitySet [usb_control_capability]))
    (mkUsbInterfaceClaim 1) (example_usb_device, 1) false.
(** A vendor request to the interface, inwards. *)
Definition example_usb_read : UsbTransfer := ControlIn 0xC1 7 0 1 3.
Lemma nusb_transfer_exact_witness :
  eu_bus (NusbSession_transfer (H := example_nusb) example_usb_session example_usb_read 1000
            (mkExampleUsb [] [])).1 = [((example_usb_device, 1), example_usb_read)].
Proof.
  destruct (NusbSession_transfer (H := example_nusb) example_usb_session example_usb_read 1000
              (mkExampleUsb [] [])) as [w' r] eqn:E.
  pose proof (nusb_transfer_exact (H := example_nusb) eu_claims eu_bus (H0 := example_nusb_laws)
    example_usb_session example_usb_read 1000 (mkExampleUsb [] []) w' r eq_refl E) as ([Hc|[Hok _]] & _).
  - exact Hc.
  - exfalso. revert E. vm_compute in Hok |- *. intros [= <- <-]. discriminate Hok.
Defined.
Definition example_usb_selector : ResourceSelector :=
  mkResourceSelector (mkResourceId "usb:device:2341:0043:A1") Strong Usb.
Lemma nusb_open_claims_witness :
  eu_claims (usb_open_sync (H := example_nusb) (λ _ s, s) example_usb_selector
    (mkUsbInterfaceClaim 1) (mkExampleUsb [] [])).1 = [(example_usb_device, 1)].
Proof.
  destruct (usb_open_sync (H := example_nusb) (λ _ s, s) example_usb_selector
    (mkUsbInterfaceClaim 1) (mkExampleUsb [] [])) as [w' r] eqn:E.
  assert (Hr : ∃ s, r = Ok (Some s) ∧ nus_interface s = (example_usb_device, 1)).
  { revert E. vm_compute. intros [= <- <-]. by eexists. }
  destruct Hr as (s & -> & Hi).
  pose proof (nusb_open_claims (H := example_nusb) (λ _ s, s) eu_claims eu_bus
    (H0 := example_nusb_laws) example_usb_selector (mkUsbInterfaceClaim 1) (mkExampleUsb [] [])
    w' (Ok (Some s)) E) as (_ & _ & Hc & _). by rewrite Hi in Hc.
Defined.
