(* ===== verification/Facade.v ===== *)
(** * robot-hal-runtime: the facade

    Models HalRuntimeBuilder, the methods of HalRuntime that forward to the managers, the
    per-transport views and the handles of crates/robot-hal-runtime/src/lib.rs.  The
    managers are a class: [SerialRegistry], [CanManager], [UsbManager], [GpioManager] and
    [CameraManager] model what is behind it.  [rt_exec] interprets the calls that the broker
    makes ([RtE]). *)

From S2P Require Import Prelude Core Native Lifecycle SerialRegistry CanTypes CanActor CameraTypes UsbTypes.
From S2P Require Import GpioTypes ShmLayout ShmRing BrokerCore.

(** ** The builder *)
Record HalRuntimeBuilder (Serial Can Usb Gpio Camera : Type) := mkHalRuntimeBuilder {
  hb_serial_adapter : option Serial;
  hb_serial_close_timeout : Z;
  hb_can_adapters : list Can;
  hb_can_rx_capacity : Z;
  hb_can_tx_capacity : Z;
  hb_can_close_timeout : Z;
  hb_usb_adapter : option Usb;
  hb_usb_close_timeout : Z;
  hb_gpio_adapter : option Gpio;
  hb_gpio_close_timeout : Z;
  hb_camera_adapter : option Camera;
  hb_camera_close_timeout : Z;
}.
Global Arguments mkHalRuntimeBuilder {Serial Can Usb Gpio Camera}.
Global Arguments hb_serial_adapter {Serial Can Usb Gpio Camera}.
Global Arguments hb_serial_close_timeout {Serial Can Usb Gpio Camera}.
Global Arguments hb_can_adapters {Serial Can Usb Gpio Camera}.
Global Arguments hb_can_rx_capacity {Serial Can Usb Gpio Camera}.
Global Arguments hb_can_tx_capacity {Serial Can Usb Gpio Camera}.
Global Arguments hb_can_close_timeout {Serial Can Usb Gpio Camera}.
Global Arguments hb_usb_adapter {Serial Can Usb Gpio Camera}.
Global Arguments hb_usb_close_timeout {Serial Can Usb Gpio Camera}.
Global Arguments hb_gpio_adapter {Serial Can Usb Gpio Camera}.
Global Arguments hb_gpio_close_timeout {Serial Can Usb Gpio Camera}.
Global Arguments hb_camera_adapter {Serial Can Usb Gpio Camera}.
Global Arguments hb_camera_close_timeout {Serial Can Usb Gpio Camera}.

(** A setting of the builder, and what it changes; [build] hands the result over. *)
Inductive BuilderSetting (Serial Can Usb Gpio Camera : Type) :=
  | SetSerialAdapter (adapter : Serial)
  | SetSerialCloseTimeout (timeout : Z)
  | AddCanAdapter (adapter : Can)
  | SetCanRxCapacity (capacity : Z)
  | SetCanTxCapacity (capacity : Z)
  | SetCanCloseTimeout (timeout : Z)
  | SetUsbAdapter (adapter : Usb)
  | SetUsbCloseTimeout (timeout : Z)
  | SetGpioAdapter (adapter : Gpio)
  | SetGpioCloseTimeout (timeout : Z)
  | SetCameraAdapter (adapter : Camera)
  | SetCameraCloseTimeout (timeout : Z).
Global Arguments SetSerialAdapter {Serial Can Usb Gpio Camera}.
Global Arguments SetSerialCloseTimeout {Serial Can Usb Gpio Camera}.
Global Arguments AddCanAdapter {Serial Can Usb Gpio Camera}.
Global Arguments SetCanRxCapacity {Serial Can Usb Gpio Camera}.
Global Arguments SetCanTxCapacity {Serial Can Usb Gpio Camera}.
Global Arguments SetCanCloseTimeout {Serial Can Usb Gpio Camera}.
Global Arguments SetUsbAdapter {Serial Can Usb Gpio Camera}.
Global Arguments SetUsbCloseTimeout {Serial Can Usb Gpio Camera}.
Global Arguments SetGpioAdapter {Serial Can Usb Gpio Camera}.
Global Arguments SetGpioCloseTimeout {Serial Can Usb Gpio Camera}.
Global Arguments SetCameraAdapter {Serial Can Usb Gpio Camera}.
Global Arguments SetCameraCloseTimeout {Serial Can Usb Gpio Camera}.

Section builder.
Context {Serial Can Usb Gpio Camera : Type}.
Implicit Types b : HalRuntimeBuilder Serial Can Usb Gpio Camera.

(** Timeouts in nanoseconds: two seconds. *)
Definition HalRuntimeBuilder_default : HalRuntimeBuilder Serial Can Usb Gpio Camera :=
  mkHalRuntimeBuilder None 2000000000 [] DEFAULT_CAN_RX_CAPACITY DEFAULT_CAN_TX_CAPACITY 2000000000
    None 2000000000 None 2000000000 None 2000000000.
Definition builder_set b (setting : BuilderSetting Serial Can Usb Gpio Camera)
    : HalRuntimeBuilder Serial Can Usb Gpio Camera :=
  let 'mkHalRuntimeBuilder sa st ca rx tx ct ua ut ga gt ma mt := b in
  match setting with
  | SetSerialAdapter a => mkHalRuntimeBuilder (Some a) st ca rx tx ct ua ut ga gt ma mt
  | SetSerialCloseTimeout t => mkHalRuntimeBuilder sa t ca rx tx ct ua ut ga gt ma mt
  | AddCanAdapter a => mkHalRuntimeBuilder sa st (ca ++ [a]) rx tx ct ua ut ga gt ma mt
  | SetCanRxCapacity c =>
      mkHalRuntimeBuilder sa st ca (HalRuntimeBuilder_can_rx_capacity c) tx ct ua ut ga gt ma mt
  | SetCanTxCapacity c =>
      mkHalRuntimeBuilder sa st ca rx (HalRuntimeBuilder_can_tx_capacity c) ct ua ut ga gt ma mt
  | SetCanCloseTimeout t => mkHalRuntimeBuilder sa st ca rx tx t ua ut ga gt ma mt
  | SetUsbAdapter a => mkHalRuntimeBuilder sa st ca rx tx ct (Some a) ut ga gt ma mt
  | SetUsbCloseTimeout t => mkHalRuntimeBuilder sa st ca rx tx ct ua t ga gt ma mt
  | SetGpioAdapter a => mkHalRuntimeBuilder sa st ca rx tx ct ua ut (Some a) gt ma mt
  | SetGpioCloseTimeout t => mkHalRuntimeBuilder sa st ca rx tx ct ua ut ga t ma mt
  | SetCameraAdapter a => mkHalRuntimeBuilder sa st ca rx tx ct ua ut ga gt (Some a) mt
  | SetCameraCloseTimeout t => mkHalRuntimeBuilder sa st ca rx tx ct ua ut ga gt ma t
  end.
Definition builder_run (settings : list (BuilderSetting Serial Can Usb Gpio Camera))
    : HalRuntimeBuilder Serial Can Usb Gpio Camera :=
  foldl builder_set HalRuntimeBuilder_default settings.

(** Whatever is set and however often: CAN adapters are kept in the order of their
    registration, every other setting is the last one given, and the CAN capacities
    stay within their bounds. *)
Lemma builder_run_spec settings :
  let b := builder_run settings in
  hb_can_adapters b = omap (λ s, match s with AddCanAdapter a => Some a | _ => None end) settings ∧
  hb_serial_adapter b
    = last (omap (λ s, match s with SetSerialAdapter a => Some a | _ => None end) settings) ∧
  hb_usb_adapter b
    = last (omap (λ s, match s with SetUsbAdapter a => Some a | _ => None end) settings) ∧
  hb_gpio_adapter b
    = last (omap (λ s, match s with SetGpioAdapter a => Some a | _ => None end) settings) ∧
  hb_camera_adapter b
    = last (omap (λ s, match s with SetCameraAdapter a => Some a | _ => None end) settings) ∧
  1 <= hb_can_rx_capacity b <= MAX_RUNTIME_CAN_RX_CAPACITY ∧
  1 <= hb_can_tx_capacity b <= MAX_RUNTIME_CAN_TX_CAPACITY.
Proof.
  unfold builder_run. induction settings as [|s settings IH] using rev_ind; [by cbn|].
  rewrite foldl_snoc, !omap_app. cbn zeta in IH |- *.
  destruct (foldl builder_set _ settings) as [sa st ca rx tx ct ua ut ga gt ma mt].
  unfold HalRuntimeBuilder_can_rx_capacity, HalRuntimeBuilder_can_tx_capacity,
    MAX_RUNTIME_CAN_RX_CAPACITY, MAX_RUNTIME_CAN_TX_CAPACITY in *.
  destruct IH as (H1 & H2 & H3 & H4 & H5 & H6 & H7). cbn in H1, H2, H3, H4, H5, H6, H7.
  destruct s; cbn; rewrite ?app_nil_r, ?last_snoc, <- ?H1; split_and!; try done; try lia.
  all: try (unfold HalRuntimeBuilder_can_rx_capacity, HalRuntimeBuilder_can_tx_capacity,
    MAX_RUNTIME_CAN_RX_CAPACITY, MAX_RUNTIME_CAN_TX_CAPACITY; lia).
Qed.
End builder.

(** ** The managers behind the facade *)
Class RuntimeManagers (R : Type) := {
  serial_enumerate : native R HalError (list ResourceDescriptor);
  serial_open : OwnerId → ResourceSelector → SerialConfig → native R HalError (SessionId * LeaseToken);
  serial_request : SessionId → LeaseToken → string → SerialCommand → R → R * CommandResult;
  serial_close : SessionId → LeaseToken → native R HalError unit;
  serial_revoke_owner : OwnerId → native R HalError unit;
  serial_retained : R → Z;
  can_enumerate : native R HalError (list ResourceDescriptor);
  can_open : OwnerId → ResourceSelector → LeaseMode → CanOpenConfig → CanFilterSet →
    native R HalError (SessionId * LeaseToken);
  can_send_batch : SessionId → LeaseToken → list CanFrame → native R CanBatchSendError unit;
  can_receive : SessionId → LeaseToken → Z → Z → native R HalError (list ReceivedCanFrame);
  can_replace_filters : SessionId → LeaseToken → CanFilterSet → native R HalError unit;
  can_bus_status : SessionId → LeaseToken → native R HalError CanBusStatus;
  can_close : SessionId → LeaseToken → native R HalError unit;
  can_close_reliably : SessionId → LeaseToken → native R HalError unit;
  can_revoke_owner : OwnerId → native R HalError unit;
  can_retained : R → Z;
  usb_enumerate : native R HalError (list ResourceDescriptor);
  usb_open : OwnerId → ResourceSelector → UsbInterfaceClaim → native R HalError (SessionId * LeaseToken);
  usb_transfer : SessionId → LeaseToken → UsbTransfer → Z → native R HalError Bytes;
  usb_close : SessionId → LeaseToken → native R HalError unit;
  usb_revoke_owner : OwnerId → native R HalError unit;
  gpio_enumerate : native R HalError (list ResourceDescriptor);
  gpio_open : OwnerId → ResourceSelector → list Z → GpioLineConfig →
    native R HalError (SessionId * LeaseToken);
  gpio_read : SessionId → LeaseToken → native R HalError (list bool);
  gpio_write : SessionId → LeaseToken → list bool → native R HalError unit;
  gpio_next_edge : SessionId → LeaseToken → GpioEdgeRequest → Z →
    native R HalError (option GpioEdgeEvent);
  gpio_close : SessionId → LeaseToken → native R HalError unit;
  gpio_revoke_owner : OwnerId → native R HalError unit;
  camera_enumerate : native R HalError (list ResourceDescriptor);
  camera_open : OwnerId → ResourceSelector → CameraRequest → native R HalError (SessionId * LeaseToken);
  camera_capture : SessionId → LeaseToken → Z → native R HalError unit;
  camera_mapping_descriptor : SessionId → LeaseToken → native R HalError MappingDescriptor;
  camera_next_frame_lease : SessionId → LeaseToken → native R HalError (option FrameLease);
  camera_dropped_count : SessionId → LeaseToken → native R HalError Z;
  camera_controls : SessionId → LeaseToken → native R HalError (list CameraControlDescriptor);
  camera_get_control : SessionId → LeaseToken → CameraControlKind → native R HalError CameraControlValue;
  camera_set_control : SessionId → LeaseToken → CameraControlKind → CameraControlValue →
    native R HalError unit;
  camera_set_auto : SessionId → LeaseToken → CameraControlKind → bool → native R HalError unit;
  camera_close : SessionId → LeaseToken → native R HalError unit;
  camera_revoke_owner : OwnerId → native R HalError unit;
}.

(** ** Handles *)
Inductive HandleKind := SerialHandle | CanHandle | UsbHandle | GpioHandle | CameraHandle.
Global Instance HandleKind_eq_dec : EqDecision HandleKind.
Proof. solve_decision. Defined.
Record RuntimeHandle := mkRuntimeHandle {
  rth_kind : HandleKind;
  rth_session : SessionId;
  rth_lease : LeaseToken;
  rth_closed : bool;
}.
Definition handle_opened (kind : HandleKind) (opened : SessionId * LeaseToken) : RuntimeHandle :=
  mkRuntimeHandle kind opened.1 opened.2 false.
Definition set_closed (h : RuntimeHandle) : RuntimeHandle :=
  mkRuntimeHandle (rth_kind h) (rth_session h) (rth_lease h) true.

Section facade.
Context {R : Type} `{RuntimeManagers R}.

(** What [HalRuntime] adds to the managers. *)
Definition HalRuntime_open_usb (owner : OwnerId) (selector : ResourceSelector) (interface : Z)
    : native R HalError (SessionId * LeaseToken) :=
  native_lift (UsbInterfaceClaim_new interface) ≫= λ claim, usb_open owner selector claim.
(** The reply number of a command is chosen by the registry's model. *)
Definition bytes_result (r : CommandResult) : HalResult Bytes :=
  match r with ResBytes r => r | ResUnit r => (λ _, []) <$> r end.
Definition unit_result (r : CommandResult) : HalResult unit :=
  match r with ResUnit r => r | ResBytes r => (λ _, ()) <$> r end.
Definition HalRuntime_read_serial session lease (max_bytes : Z) : native R HalError Bytes := λ r,
  let '(r, result) := serial_request session lease "serial.read" (CmdRead max_bytes 0) r in
  (r, bytes_result result).
Definition HalRuntime_write_serial session lease (bytes : Bytes) : native R HalError unit := λ r,
  let '(r, result) := serial_request session lease "serial.write" (CmdWrite bytes 0) r in
  (r, unit_result result).
Definition HalRuntime_flush_serial session lease : native R HalError unit := λ r,
  let '(r, result) := serial_request session lease "serial.flush" (CmdFlush 0) r in
  (r, unit_result result).
Definition HalRuntime_set_serial_control_lines session lease (lines : ControlLines)
    : native R HalError unit := λ r,
  let '(r, result) :=
    serial_request session lease "serial.set_control_lines" (CmdSetControlLines lines 0) r in
  (r, unit_result result).
Definition HalRuntime_send_can session lease (frame : CanFrame) : native R CanBatchSendError unit :=
  can_send_batch session lease [frame].

(** Every manager is asked, in this order, whatever the others answered. *)
Definition HalRuntime_revoke_owner (owner : OwnerId) : native R HalError unit := λ r,
  let '(r, serial) := serial_revoke_owner owner r in
  let '(r, can) := can_revoke_owner owner r in
  let '(r, usb) := usb_revoke_owner owner r in
  let '(r, gpio) := gpio_revoke_owner owner r in
  let '(r, camera) := camera_revoke_owner owner r in
  (r, revoke_owner_result serial can usb gpio camera).
Definition HalRuntime_retained_generation_count (r : R) : Z := serial_retained r + can_retained r.

(** The calls of the broker. *)
Definition rt_exec {X} (e : RtE X) : R → R * X :=
  match e in RtE X return R → R * X with
  | REnumerateSerial => serial_enumerate
  | ROpenSerial owner selector config => serial_open owner selector config
  | RReadSerial s l max_bytes => HalRuntime_read_serial s l max_bytes
  | RWriteSerial s l data => HalRuntime_write_serial s l data
  | RFlushSerial s l => HalRuntime_flush_serial s l
  | RSetControlLines s l lines => HalRuntime_set_serial_control_lines s l lines
  | RCloseSerial s l => serial_close s l
  | REnumerateCan => can_enumerate
  | ROpenCan owner selector mode config filters => can_open owner selector mode config filters
  | RSendCan s l frames => can_send_batch s l frames
  | RReceiveCan s l max_frames timeout => can_receive s l max_frames timeout
  | RReplaceFilters s l filters => can_replace_filters s l filters
  | RBusStatus s l => can_bus_status s l
  | RCloseCan s l => can_close s l
  | REnumerateUsb => usb_enumerate
  | ROpenUsb owner selector interface => HalRuntime_open_usb owner selector interface
  | RUsbTransfer s l transfer timeout => usb_transfer s l transfer timeout
  | RCloseUsb s l => usb_close s l
  | REnumerateGpio => gpio_enumerate
  | ROpenGpio owner selector lines config => gpio_open owner selector lines config
  | RGpioRead s l => gpio_read s l
  | RGpioWrite s l values => gpio_write s l values
  | RGpioNextEdge s l request timeout => gpio_next_edge s l request timeout
  | RCloseGpio s l => gpio_close s l
  | REnumerateCamera => camera_enumerate
  | ROpenCamera owner selector request => camera_open owner selector request
  | RCapture s l timeout => camera_capture s l timeout
  | RMappingDescriptor s l => camera_mapping_descriptor s l
  | RNextFrameLease s l => camera_next_frame_lease s l
  | RDroppedCount s l => camera_dropped_count s l
  | RControls s l => camera_controls s l
  | RGetControl s l kind => camera_get_control s l kind
  | RSetControl s l kind value => camera_set_control s l kind value
  | RSetAuto s l kind enabled => camera_set_auto s l kind enabled
  | RCloseCamera s l => camera_close s l
  end.

(** *** Their methods *)
Definition HalRuntime_close (h : RuntimeHandle) : native R HalError unit :=
  match rth_kind h with
  | SerialHandle => serial_close (rth_session h) (rth_lease h)
  | CanHandle => can_close (rth_session h) (rth_lease h)
  | UsbHandle => usb_close (rth_session h) (rth_lease h)
  | GpioHandle => gpio_close (rth_session h) (rth_lease h)
  | CameraHandle => camera_close (rth_session h) (rth_lease h)
  end.
Definition RuntimeHandle_close (h : RuntimeHandle) (r : R) : RuntimeHandle * R * HalResult unit :=
  let '(r, result) := HalRuntime_close h r in
  (if is_ok result then set_closed h else h, r, result).
Definition RuntimeHandle_into_parts (h : RuntimeHandle) : RuntimeHandle * (SessionId * LeaseToken) :=
  (set_closed h, (rth_session h, rth_lease h)).
(** [Drop]: only serial and CAN handles have one.  [in_tokio] says whether
    [Handle::try_current] finds a tokio runtime; the drop itself asks nothing of the managers:
    it spawns a task that will, or nothing. *)
Definition SpawnedClose : Type := option (native R HalError unit).
Definition RuntimeHandle_drop (in_tokio : bool) (h : RuntimeHandle) : SpawnedClose :=
  match rth_kind h with
  | SerialHandle =>
      if rth_closed h then None
      else if in_tokio then Some (serial_close (rth_session h) (rth_lease h)) else None
  | CanHandle =>
      if rth_closed h then None
      else if in_tokio then Some (can_close_reliably (rth_session h) (rth_lease h)) else None
  | UsbHandle | GpioHandle | CameraHandle => None
  end.
(** What happens after a drop: others use the runtime, or tokio runs the spawned task, which
    it does once. *)
Inductive AfterDrop := OtherUse (effect : R → R) | RunSpawned.
Fixpoint run_after_drop (task : SpawnedClose) (events : list AfterDrop) (r : R) : SpawnedClose * R :=
  match events with
  | [] => (task, r)
  | OtherUse effect :: events => run_after_drop task events (effect r)
  | RunSpawned :: events =>
      match task with
      | Some close => run_after_drop None events (close r).1
      | None => run_after_drop None events r
      end
  end.
Definition CanHandle_send h (frame : CanFrame) := HalRuntime_send_can (rth_session h) (rth_lease h) frame.
Definition CanHandle_send_batch h frames := can_send_batch (rth_session h) (rth_lease h) frames.
Definition CanHandle_receive h max_frames timeout :=
  can_receive (rth_session h) (rth_lease h) max_frames timeout.
Definition CanHandle_replace_filters h filters := can_replace_filters (rth_session h) (rth_lease h) filters.
Definition CanHandle_bus_status h := can_bus_status (rth_session h) (rth_lease h).
Definition SerialHandle_read h max_bytes := HalRuntime_read_serial (rth_session h) (rth_lease h) max_bytes.
Definition SerialHandle_write h bytes := HalRuntime_write_serial (rth_session h) (rth_lease h) bytes.
Definition SerialHandle_flush h := HalRuntime_flush_serial (rth_session h) (rth_lease h).
Definition SerialHandle_set_control_lines h lines :=
  HalRuntime_set_serial_control_lines (rth_session h) (rth_lease h) lines.
Definition UsbHandle_transfer h transfer timeout :=
  usb_transfer (rth_session h) (rth_lease h) transfer timeout.
Definition GpioHandle_read h := gpio_read (rth_session h) (rth_lease h).
Definition GpioHandle_write h values := gpio_write (rth_session h) (rth_lease h) values.
Definition GpioHandle_next_edge h request timeout :=
  gpio_next_edge (rth_session h) (rth_lease h) request timeout.
Definition CameraHandle_capture h timeout := camera_capture (rth_session h) (rth_lease h) timeout.
Definition CameraHandle_mapping_descriptor h := camera_mapping_descriptor (rth_session h) (rth_lease h).
Definition CameraHandle_next_frame_lease h := camera_next_frame_lease (rth_session h) (rth_lease h).
Definition CameraHandle_dropped_count h := camera_dropped_count (rth_session h) (rth_lease h).
Definition CameraHandle_controls h := camera_controls (rth_session h) (rth_lease h).
Definition CameraHandle_get_control h kind := camera_get_control (rth_session h) (rth_lease h) kind.
Definition CameraHandle_set_control h kind value :=
  camera_set_control (rth_session h) (rth_lease h) kind value.
Definition CameraHandle_set_auto h kind enabled :=
  camera_set_auto (rth_session h) (rth_lease h) kind enabled.

(** *** The life of a handle *)

(** A use of a handle: a method that does not close it, with any effect on the runtime, or
    a close. *)
Inductive HandleUse := UseMethod (effect : R → R) | UseClose.
(** The handle and the runtime afterwards, with the answers of the closes. *)
Fixpoint run_uses (uses : list HandleUse) (h : RuntimeHandle) (r : R)
    : RuntimeHandle * R * list (HalResult unit) :=
  match uses with
  | [] => (h, r, [])
  | UseMethod effect :: uses => run_uses uses h (effect r)
  | UseClose :: uses =>
      let '(h, r, result) := RuntimeHandle_close h r in
      let '(h, r, closes) := run_uses uses h r in (h, r, result :: closes)
  end.

Lemma run_uses_spec uses h r h' r' closes :
  run_uses uses h r = (h', r', closes) →
  rth_kind h' = rth_kind h ∧ rth_session h' = rth_session h ∧ rth_lease h' = rth_lease h ∧
  rth_closed h' = rth_closed h || existsb is_ok closes.
Proof.
  revert h r closes. induction uses as [|[effect|] uses IH]; cbn; intros h r closes E.
  - injection E as <- <- <-. cbn. by rewrite orb_false_r.
  - by eapply IH.
  - unfold RuntimeHandle_close in E. destruct (HalRuntime_close h r) as [r1 result].
    destruct (run_uses uses _ r1) as [[h2 r2] closes2] eqn:E2. injection E as <- <- <-.
    apply IH in E2 as (-> & -> & -> & ->). cbn.
    destruct (is_ok result); cbn; split_and!; try done; by rewrite orb_true_r.
Qed.

(** What others do with the runtime in the meantime. *)
Definition other_uses (events : list AfterDrop) (r : R) : R := (run_after_drop None events r).2.
Lemma run_after_drop_none events r : run_after_drop None events r = (None, other_uses events r).
Proof.
  unfold other_uses. revert r. induction events as [|[effect|] events IH]; intros r; cbn; [done|by rewrite IH..].
Qed.
Lemma run_after_drop_pending close events r :
  RunSpawned ∉ events → run_after_drop (Some close) events r = (Some close, other_uses events r).
Proof.
  unfold other_uses. revert r. induction events as [|[effect|] events IH]; cbn; intros r Hin; [done|..].
  - apply IH. intros ?. apply Hin. by right.
  - destruct Hin. by left.
Qed.
Lemma run_after_drop_app task before after r :
  run_after_drop task (before ++ after) r
  = run_after_drop (run_after_drop task before r).1 after (run_after_drop task before r).2.
Proof.
  revert task r. induction before as [|[effect|] before IH]; intros task r; cbn.
  - done.
  - by rewrite IH.
  - destruct task; by rewrite IH.
Qed.

(** A dropped serial or CAN handle closes its own session, under its own lease, exactly once
    and later, when tokio gets to the task that the drop spawned, provided that no close has
    succeeded and that the drop happened within a tokio runtime; until then, and without one,
    and after a close or [into_parts], it does nothing.  USB, GPIO and camera handles never
    close anything: dropped before a close has succeeded, they leave their session and its
    lease behind. *)
Theorem handle_drop_closes_once kind opened uses r h r' closes in_tokio :
  run_uses uses (handle_opened kind opened) r = (h, r', closes) →
  let close :=
    match kind with
    | SerialHandle => Some (serial_close opened.1 opened.2)
    | CanHandle => Some (can_close_reliably opened.1 opened.2)
    | UsbHandle | GpioHandle | CameraHandle => None
    end in
  RuntimeHandle_drop in_tokio h = (if existsb is_ok closes || negb in_tokio then None else close) ∧
  (∀ before after, RunSpawned ∉ before →
     run_after_drop (RuntimeHandle_drop in_tokio h) before r'
     = (RuntimeHandle_drop in_tokio h, other_uses before r') ∧
     run_after_drop (RuntimeHandle_drop in_tokio h) (before ++ RunSpawned :: after) r'
     = (None, other_uses after
                (match RuntimeHandle_drop in_tokio h with
                 | Some close => (close (other_uses before r')).1
                 | None => other_uses before r'
                 end))) ∧
  RuntimeHandle_drop in_tokio (RuntimeHandle_into_parts h).1 = None ∧
  (RuntimeHandle_into_parts h).2 = opened.
Proof.
  intros (Hk & Hs & Hl & Hc)%run_uses_spec close. cbn in *. split; [|split; [|split]].
  - unfold RuntimeHandle_drop, close. rewrite Hk, Hs, Hl, Hc.
    by destruct kind, (existsb is_ok closes), in_tokio.
  - intros before after Hno. destruct (RuntimeHandle_drop in_tokio h) as [task|].
    + rewrite run_after_drop_app, run_after_drop_pending by done. cbn. by rewrite run_after_drop_none.
    + by rewrite run_after_drop_app, !run_after_drop_none.
  - unfold RuntimeHandle_drop. cbn. by destruct (rth_kind h).
  - unfold RuntimeHandle_into_parts. rewrite Hs, Hl. by destruct opened.
Qed.
End facade.

(** A runtime that records whose sessions it was asked to close. *)
Definition example_managers : RuntimeManagers (list SessionId) :=
  let fails {A} : native (list SessionId) HalError A :=
    λ r, (r, Err (runtime_error "runtime.session.not_found" NotFound "test" false "none")) in
  let close (s : SessionId) (_ : LeaseToken) : native (list SessionId) HalError unit :=
    λ r, (r ++ [s], Ok ()) in
  {| serial_enumerate := fails; serial_open _ _ _ := fails;
     serial_request _ _ _ _ r := (r, ResUnit (Ok ())); serial_close := close;
     serial_revoke_owner _ := fails; serial_retained _ := 0;
     can_enumerate := fails; can_open _ _ _ _ _ := fails; can_send_batch _ _ _ r := (r, Ok ());
     can_receive _ _ _ _ := fails; can_replace_filters _ _ _ := fails; can_bus_status _ _ := fails;
     can_close := close; can_close_reliably := close; can_revoke_owner _ := fails; can_retained _ := 0;
     usb_enumerate := fails; usb_open _ _ _ := fails; usb_transfer _ _ _ _ := fails;
     usb_close := close; usb_revoke_owner _ := fails;
     gpio_enumerate := fails; gpio_open _ _ _ _ := fails; gpio_read _ _ := fails;
     gpio_write _ _ _ := fails; gpio_next_edge _ _ _ _ := fails; gpio_close := close;
     gpio_revoke_owner _ := fails;
     camera_enumerate := fails; camera_open _ _ _ := fails; camera_capture _ _ _ := fails;
     camera_mapping_descriptor _ _ := fails; camera_next_frame_lease _ _ := fails;
     camera_dropped_count _ _ := fails; camera_controls _ _ := fails;
     camera_get_control _ _ _ := fails; camera_set_control _ _ _ _ := fails;
     camera_set_auto _ _ _ _ := fails; camera_close := close; camera_revoke_owner _ := fails |}.
Definition example_opened : SessionId * LeaseToken :=
  (mkSessionId "s", mkLeaseToken (mkLeaseId "l") 1 Control).
(** A CAN handle that was used and dropped: one close, when tokio runs the task. *)
Lemma handle_drop_closes_once_witness :
  let spawned := RuntimeHandle_drop (H := example_managers) true (handle_opened CanHandle example_opened) in
  run_after_drop spawned [OtherUse (λ r, mkSessionId "other" :: r); RunSpawned; RunSpawned] []
    = (None, [mkSessionId "other"; mkSessionId "s"]).
Proof.
  destruct (handle_drop_closes_once (H := example_managers) CanHandle example_opened
              [UseMethod (λ r, r)] [] (handle_opened CanHandle example_opened) [] [] true eq_refl)
    as (_ & Hrun & _).
  destruct (Hrun [OtherUse (λ r, mkSessionId "other" :: r)] [RunSpawned]) as [_ H].
  - intros Hin. apply list_elem_of_singleton in Hin. discriminate Hin.
  - exact H.
Defined.
(** The others leave it, and so does every handle that is dropped outside of tokio. *)
Lemma dropped_handle_leaks :
  RuntimeHandle_drop (H := example_managers) true (handle_opened CameraHandle example_opened) = None ∧
  ∀ kind, RuntimeHandle_drop (H := example_managers) false (handle_opened kind example_opened) = None.
Proof. split; [reflexivity|]. by intros []. Qed.
