(* ===== verification/BrokerToken.v ===== *)
(** * apps/robot-hal-broker: the startup token

    Models apps/robot-hal-broker/src/token.rs on Unix: the file that holds the secret is
    opened, checked, read, checked again and deleted.  The system calls (crate rustix) are a
    class over the state of the machine, which other processes may change at any of them. *)

From S2P Require Import Prelude Core Native BrokerConnection.
Open Scope Z_scope.

(** [libc]'s numbers, and the fields of a [Stat] that the code reads. *)
Definition S_IFMT : Z := 0xF000.
Definition S_IFDIR : Z := 0x4000.
Definition S_IFREG : Z := 0x8000.
Definition ELOOP : Z := 40.
Definition EMLINK : Z := 31.
Record FileStat := mkFileStat {
  st_dev : Z;
  st_ino : Z;
  st_uid : Z;
  st_mode : Z;
  st_nlink : Z;
}.
(** [Mode::RWXU], [RWXG | RWXO], [RUSR]. *)
Definition MODE_RWXU : Z := 0x1C0.
Definition MODE_RWXG_RWXO : Z := 0x3F.
Definition MODE_RUSR : Z := 0x100.

Record FileIdentity := mkFileIdentity { fid_device : Z; fid_inode : Z; fid_owner : Z }.
Global Instance FileIdentity_eq_dec : EqDecision FileIdentity.
Proof. solve_decision. Defined.
Definition FileIdentity_from (metadata : FileStat) : FileIdentity :=
  mkFileIdentity (st_dev metadata) (st_ino metadata) (st_uid metadata).

Definition policy_error (message : string) : OsError :=
  mkOsError KindPermissionDenied None message.

(** A [Path], as the standard library takes it apart. *)
Record TokenPath := mkTokenPath { path_file_name : option string; path_parent : option string }.
Definition parent_and_name (path : TokenPath) : result OsError (string * string) :=
  ok_or (policy_error "token path must name a file") (path_file_name path) ≫= λ name,
  let parent := default "." (path_parent path) in
  let parent := if str_is_empty parent then "." else parent in
  Ok (parent, name).

Definition validate_parent (metadata : FileStat) (effective_uid : Z) : result OsError unit :=
  if negb (Z.land (st_mode metadata) S_IFMT =? S_IFDIR) then
    Err (policy_error "token parent must be a real directory")
  else if negb (Z.land (st_mode metadata) (Z.lor MODE_RWXU MODE_RWXG_RWXO) =? MODE_RWXU) then
    Err (policy_error "token parent directory must have mode 0700")
  else if negb (st_uid metadata =? effective_uid) then
    Err (policy_error "token parent directory must be owned by the effective user")
  else Ok ().
Definition validate_file (metadata : FileStat) (effective_uid : Z) : result OsError unit :=
  if negb (Z.land (st_mode metadata) S_IFMT =? S_IFREG) then
    Err (policy_error "token path must name a regular file")
  else if negb (Z.land (st_mode metadata) MODE_RUSR =? MODE_RUSR)
          || negb (Z.land (st_mode metadata) MODE_RWXG_RWXO =? 0) then
    Err (policy_error "token file must be owner-readable and inaccessible to group/other")
  else if negb (st_uid metadata =? effective_uid) then
    Err (policy_error "token file must be owned by the effective user")
  else if negb (st_nlink metadata =? 1) then
    Err (policy_error "token file must have exactly one hard link")
  else Ok ().
Definition normalize_open_error (error : OsError) : OsError :=
  match raw_os_error error with
  | Some code =>
      if is_one_of code [ELOOP; EMLINK] then policy_error "token file must not be a symbolic link"
      else error
  | None => error
  end.

(** The system calls.  Directories and files are opened for reading, without following a
    symbolic link in the last component; [token_read_exact] is [Read::read_exact] into 32 bytes and
    [token_read_extra] a [Read::read] into one.  [token_task_failed] is the outcome of the
    [spawn_blocking] task. *)
Class TokenFs (Handle W : Type) := {
  token_task_failed : W → W * option string;
  geteuid : W → W * Z;
  open_directory : string → W → W * result OsError Handle;
  token_fstat : Handle → W → W * result OsError FileStat;
  token_statat : Handle → string → W → W * result OsError FileStat;
  token_openat : Handle → string → W → W * result OsError Handle;
  token_read_exact : Handle → W → W * result OsError (list Z);
  token_read_extra : Handle → W → W * result OsError (list Z);
  token_unlinkat : Handle → string → W → W * result OsError unit;
}.

Record TrustedTokenFile (Handle : Type) := mkTrustedTokenFile {
  ttf_name : string;
  ttf_file : Handle;
  ttf_file_identity : FileIdentity;
  ttf_parent_file : Handle;
  ttf_parent_identity : FileIdentity;
  ttf_effective_uid : Z;
}.
Global Arguments mkTrustedTokenFile {Handle}.
Global Arguments ttf_name {Handle}.
Global Arguments ttf_file {Handle}.
Global Arguments ttf_file_identity {Handle}.
Global Arguments ttf_parent_file {Handle}.
Global Arguments ttf_parent_identity {Handle}.
Global Arguments ttf_effective_uid {Handle}.

Section token.
Context {Handle W : Type} `{TokenFs Handle W}.
Notation machine := (native W OsError) (only parsing).

Definition effective_user : machine Z := λ w, let '(w, euid) := geteuid w in (w, Ok euid).
Definition TrustedTokenFile_open (path : TokenPath) : machine (TrustedTokenFile Handle) :=
  native_lift (parent_and_name path) ≫= λ '(parent, name),
  effective_user ≫= λ effective_uid,
  native_map_err normalize_open_error (open_directory parent) ≫= λ parent_file,
  token_fstat parent_file ≫= λ parent_metadata,
  native_lift (validate_parent parent_metadata effective_uid) ≫= λ _,
  let parent_identity := FileIdentity_from parent_metadata in
  token_statat parent_file name ≫= λ path_metadata,
  native_map_err normalize_open_error (token_openat parent_file name) ≫= λ file,
  token_fstat file ≫= λ metadata,
  native_lift (validate_file metadata effective_uid) ≫= λ _,
  let file_identity := FileIdentity_from metadata in
  refuse_when (negb (bool_decide (file_identity = FileIdentity_from path_metadata)))
    (policy_error "token path changed while it was being opened") ≫= λ _,
  mret (mkTrustedTokenFile name file file_identity parent_file parent_identity effective_uid).
(** Everything that [consume] does before it deletes. *)
Definition consume_checks (t : TrustedTokenFile Handle) : machine (list Z) :=
  token_read_exact (ttf_file t) ≫= λ token,
  token_read_extra (ttf_file t) ≫= λ extra,
  refuse_when (negb (len extra =? 0))
    (mkOsError KindInvalidData None "authentication token file must contain exactly 32 bytes")
    ≫= λ _,
  token_fstat (ttf_parent_file t) ≫= λ parent_metadata,
  native_lift (validate_parent parent_metadata (ttf_effective_uid t)) ≫= λ _,
  refuse_when (negb (bool_decide (FileIdentity_from parent_metadata = ttf_parent_identity t)))
    (policy_error "token parent directory changed before deletion") ≫= λ _,
  token_fstat (ttf_file t) ≫= λ metadata,
  native_lift (validate_file metadata (ttf_effective_uid t)) ≫= λ _,
  token_statat (ttf_parent_file t) (ttf_name t) ≫= λ path_metadata,
  native_lift (validate_file path_metadata (ttf_effective_uid t)) ≫= λ _,
  refuse_when (negb (bool_decide (FileIdentity_from path_metadata = ttf_file_identity t)))
    (policy_error "token path changed before deletion") ≫= λ _, mret token.
Definition TrustedTokenFile_consume (t : TrustedTokenFile Handle) : machine (list Z) :=
  consume_checks t ≫= λ token,
  token_unlinkat (ttf_parent_file t) (ttf_name t) ≫= λ _, mret token.
Definition read_and_remove_token (path : TokenPath) : machine StartupToken := λ w,
  match token_task_failed w with
  | (w, Some error) =>
      (w, Err (mkOsError (KindOther "Other") None ("token file task failed: " +:+ error)))
  | (w, None) =>
      ((TrustedTokenFile_open path ≫= TrustedTokenFile_consume) ≫= λ token, mret (mkStartupToken token)) w
  end.

(** ** What a token is worth *)

(** What the successful calls answered. *)
Inductive TokenEvent :=
  | EvUser (effective_uid : Z)
  | EvOpenDirectory (path : string) (h : Handle)
  | EvStat (h : Handle) (metadata : FileStat)
  | EvStatAt (h : Handle) (name : string) (metadata : FileStat)
  | EvOpenAt (h : Handle) (name : string) (file : Handle)
  | EvReadExact (h : Handle) (bytes : list Z)
  | EvReadExtra (h : Handle) (bytes : list Z)
  | EvUnlink (h : Handle) (name : string).
Definition logged {A} (event : A → TokenEvent) (r : result OsError A) : list TokenEvent :=
  match r with Ok x => [event x] | Err _ => [] end.
(** What the code relies on: [log] records the calls made, and an exact read fills the buffer.
    What the calls answer is left open. *)
Context (log : W → list TokenEvent).
Class TokenFsLaws : Prop := {
  log_task w : log (token_task_failed w).1 = log w;
  log_user w : log (geteuid w).1 = log w ++ [EvUser (geteuid w).2];
  log_open_directory path w w' r : open_directory path w = (w', r) →
    log w' = log w ++ logged (EvOpenDirectory path) r;
  log_fstat h w w' r : token_fstat h w = (w', r) → log w' = log w ++ logged (EvStat h) r;
  log_statat h name w w' r : token_statat h name w = (w', r) → log w' = log w ++ logged (EvStatAt h name) r;
  log_openat h name w w' r : token_openat h name w = (w', r) → log w' = log w ++ logged (EvOpenAt h name) r;
  log_read_exact h w w' r : token_read_exact h w = (w', r) →
    log w' = log w ++ logged (EvReadExact h) r ∧ ∀ bytes, r = Ok bytes → len bytes = 32;
  log_read_extra h w w' r : token_read_extra h w = (w', r) → log w' = log w ++ logged (EvReadExtra h) r;
  log_unlinkat h name w w' r : token_unlinkat h name w = (w', r) →
    log w' = log w ++ logged (λ _ : unit, EvUnlink h name) r;
}.
Context `{!TokenFsLaws}.

(** A directory that only its owner may use; a file that only its owner may read and that
    has no other name. *)
Definition private_directory (euid : Z) (d : FileStat) : Prop :=
  Z.land (st_mode d) S_IFMT = S_IFDIR ∧ st_mode d mod 2 ^ 9 = 7 * 2 ^ 6 ∧ st_uid d = euid.
Definition private_file (euid : Z) (f : FileStat) : Prop :=
  Z.land (st_mode f) S_IFMT = S_IFREG ∧ Z.testbit (st_mode f) 8 = true ∧ st_mode f mod 2 ^ 6 = 0 ∧
  st_uid f = euid ∧ st_nlink f = 1.
Lemma validate_parent_Ok d euid u : validate_parent d euid = Ok u → private_directory euid d.
Proof.
  unfold validate_parent, private_directory. intros E.
  change (Z.lor MODE_RWXU MODE_RWXG_RWXO) with (Z.ones 9) in E. rewrite Z.land_ones in E by done.
  change MODE_RWXU with (7 * 2 ^ 6) in E. repeat case_match; by bool_simp.
Qed.
Lemma validate_file_Ok f euid u : validate_file f euid = Ok u → private_file euid f.
Proof.
  unfold validate_file, private_file. intros E.
  change MODE_RWXG_RWXO with (Z.ones 6) in E. rewrite Z.land_ones in E by done.
  repeat case_match; bool_simp; [done..|]. split_and!; try done.
  match goal with Hm : Z.land _ MODE_RUSR = _ |- _ =>
    apply (f_equal (λ z, Z.testbit z 8)) in Hm; rewrite Z.land_spec in Hm end.
  by destruct (Z.testbit (st_mode f) 8).
Qed.

(** Only the last step deletes. *)
Definition is_unlink (e : TokenEvent) : bool := match e with EvUnlink _ _ => true | _ => false end.
Definition no_unlink (w w' : W) : Prop :=
  ∃ events, log w' = log w ++ events ∧ existsb is_unlink events = false.
Lemma no_unlink_trans w w1 w2 : no_unlink w w1 → no_unlink w1 w2 → no_unlink w w2.
Proof.
  intros (e1 & E1 & H1) (e2 & E2 & H2). exists (e1 ++ e2).
  rewrite E2, E1, existsb_app, H1, H2. by rewrite app_assoc.
Qed.
Definition deletes_nothing {A} (m : machine A) : Prop := ∀ w, no_unlink w (m w).1.
Lemma quiet_bind {A B} (m : machine A) (f : A → machine B) :
  deletes_nothing m → (∀ x, deletes_nothing (f x)) → deletes_nothing (m ≫= f).
Proof.
  intros Hm Hf w. unfold mbind, native_bind. specialize (Hm w).
  destruct (m w) as [w1 [x|e]]; [|done]. eapply no_unlink_trans; [done|apply Hf].
Qed.
Lemma quiet_lift {A} (r : result OsError A) : deletes_nothing (native_lift r).
Proof. intros w. exists []. by rewrite app_nil_r. Qed.
Lemma quiet_refuse b e : deletes_nothing (refuse_when b e).
Proof. destruct b; intros w; exists []; by rewrite app_nil_r. Qed.
Lemma quiet_logged {A} (m : machine A) (event : A → TokenEvent) :
  (∀ x, is_unlink (event x) = false) →
  (∀ w w' r, m w = (w', r) → log w' = log w ++ logged event r) → deletes_nothing m.
Proof.
  intros He Hlog w. destruct (m w) as [w' r] eqn:E. apply Hlog in E. exists (logged event r).
  split; [done|]. destruct r; simpl; [by rewrite He|done].
Qed.
Lemma quiet_map_err {A} g (m : machine A) : deletes_nothing m → deletes_nothing (native_map_err g m).
Proof. intros Hm w. specialize (Hm w). unfold native_map_err. by destruct (m w). Qed.
Lemma quiet_calls :
  deletes_nothing effective_user ∧ (∀ p, deletes_nothing (open_directory p)) ∧ (∀ h, deletes_nothing (token_fstat h)) ∧
  (∀ h n, deletes_nothing (token_statat h n)) ∧ (∀ h n, deletes_nothing (token_openat h n)) ∧
  (∀ h, deletes_nothing (token_read_exact h)) ∧ (∀ h, deletes_nothing (token_read_extra h)).
Proof.
  split_and!; intros; try by (eapply quiet_logged; [|eauto using log_open_directory, log_fstat,
    log_statat, log_openat, log_read_extra]).
  - intros w. unfold effective_user. pose proof (log_user w) as Hl.
    destruct (geteuid w) as [w' euid]. by exists [EvUser euid].
  - eapply quiet_logged; [|intros * E; apply log_read_exact in E as [E _]; exact E]; done.
Qed.
Ltac quiet_tac :=
  destruct quiet_calls as (? & ? & ? & ? & ? & ? & ?);
  repeat first [apply quiet_bind; [|intros ?] | apply quiet_lift | apply quiet_refuse
    | apply quiet_map_err | done | intros ?; apply quiet_lift].
Lemma quiet_open path : deletes_nothing (TrustedTokenFile_open path).
Proof.
  unfold TrustedTokenFile_open. quiet_tac. match goal with x : string * string |- _ => destruct x end.
  quiet_tac.
Qed.

(** What a successful [open] and a successful check have seen. *)
Definition sound_open (euid : Z) (parent name : string) (t : TrustedTokenFile Handle)
    (events : list TokenEvent) : Prop :=
  ∃ d f0 f1,
    events = [EvUser euid; EvOpenDirectory parent (ttf_parent_file t); EvStat (ttf_parent_file t) d;
              EvStatAt (ttf_parent_file t) name f0; EvOpenAt (ttf_parent_file t) name (ttf_file t);
              EvStat (ttf_file t) f1] ∧
    private_directory euid d ∧ private_file euid f1 ∧
    FileIdentity_from f0 = FileIdentity_from f1 ∧
    ttf_name t = name ∧ ttf_effective_uid t = euid ∧
    ttf_parent_identity t = FileIdentity_from d ∧ ttf_file_identity t = FileIdentity_from f1.
Definition sound_check (t : TrustedTokenFile Handle) (token : list Z) (events : list TokenEvent) : Prop :=
  ∃ d f1 f2,
    events = [EvReadExact (ttf_file t) token; EvReadExtra (ttf_file t) [];
              EvStat (ttf_parent_file t) d; EvStat (ttf_file t) f1;
              EvStatAt (ttf_parent_file t) (ttf_name t) f2] ∧
    len token = 32 ∧ private_directory (ttf_effective_uid t) d ∧
    private_file (ttf_effective_uid t) f1 ∧ private_file (ttf_effective_uid t) f2 ∧
    FileIdentity_from d = ttf_parent_identity t ∧ FileIdentity_from f2 = ttf_file_identity t.

Lemma refuse_Ok b (e : OsError) (w w' : W) u : refuse_when b e w = (w', Ok u) → w' = w ∧ b = false.
Proof. destruct b; [done|]. by intros [= ->]. Qed.
Lemma open_sound path w w' t :
  TrustedTokenFile_open path w = (w', Ok t) →
  ∃ parent name euid events, parent_and_name path = Ok (parent, name) ∧
    log w' = log w ++ events ∧ sound_open euid parent name t events.
Proof.
  unfold TrustedTokenFile_open. intros (w0 & [parent name] & [= <- Hn] & E)%native_bind_Ok.
  apply native_bind_Ok in E as (w1 & euid & E1 & E).
  pose proof (log_user w) as L1. unfold effective_user in E1.
  destruct (geteuid w) as [w1' euid'] eqn:Eu. injection E1 as -> ->. simpl in L1.
  apply native_bind_Ok in E as (w2 & dir & L2%native_map_err_Ok%log_open_directory & E).
  apply native_bind_Ok in E as (w3 & d & L3%log_fstat & E).
  apply native_bind_Ok in E as (? & ? & [= <- Hd%validate_parent_Ok] & E).
  apply native_bind_Ok in E as (w4 & f0 & L4%log_statat & E).
  apply native_bind_Ok in E as (w5 & file & L5%native_map_err_Ok%log_openat & E).
  apply native_bind_Ok in E as (w6 & f1 & L6%log_fstat & E).
  apply native_bind_Ok in E as (? & ? & [= <- Hf%validate_file_Ok] & E).
  apply native_bind_Ok in E as (? & ? & [-> Hid]%refuse_Ok & E). injection E as <- <-. bool_simp.
  eexists parent, name, euid, _. split_and!; [done|rewrite L6, L5, L4, L3, L2, L1, <- !app_assoc; reflexivity|].
  by exists d, f0, f1.
Qed.
Lemma checks_sound t w w' token :
  consume_checks t w = (w', Ok token) →
  ∃ events, log w' = log w ++ events ∧ sound_check t token events.
Proof.
  unfold consume_checks. intros (w1 & bytes & [L1 Hlen]%log_read_exact & E)%native_bind_Ok.
  apply native_bind_Ok in E as (w2 & extra & L2%log_read_extra & E).
  apply native_bind_Ok in E as (? & ? & [-> Hx]%refuse_Ok & E).
  apply native_bind_Ok in E as (w3 & d & L3%log_fstat & E).
  apply native_bind_Ok in E as (? & ? & [= <- Hd%validate_parent_Ok] & E).
  apply native_bind_Ok in E as (? & ? & [-> Hid]%refuse_Ok & E).
  apply native_bind_Ok in E as (w4 & f1 & L4%log_fstat & E).
  apply native_bind_Ok in E as (? & ? & [= <- Hf1%validate_file_Ok] & E).
  apply native_bind_Ok in E as (w5 & f2 & L5%log_statat & E).
  apply native_bind_Ok in E as (? & ? & [= <- Hf2%validate_file_Ok] & E).
  apply native_bind_Ok in E as (? & ? & [-> Hid2]%refuse_Ok & E). injection E as <- <-. bool_simp.
  assert (extra = []) as -> by (destruct extra; [done|unfold len in *; simpl in *; lia]).
  eexists. split; [rewrite L5, L4, L3, L2, L1, <- !app_assoc; reflexivity|].
  exists d, f1, f2. split_and!; try done. by apply Hlen.
Qed.
Lemma quiet_checks t : deletes_nothing (consume_checks t).
Proof. unfold consume_checks. quiet_tac. Qed.

(** C23: The startup token is taken only from a private file, and its name is deleted.  When the
    broker obtains a token, these are all its successful calls, in this order: it opened a
    directory of the effective user with mode 0700 and in it, by name, a regular file of that
    user, unreadable to others and without a second name, which was the file that the name
    led to in the call before; it read exactly 32 bytes from it and found the end of the
    file; it saw the directory once more, the same and still private, and the file, still
    private, and in the last call before the deletion the name led to this very file; then it
    deleted that name in that directory.  When it obtains none, it deleted nothing.  Each call is
    answered by a world that other processes may have changed since the last one: a name
    that is replaced between the last look at it and the deletion is deleted, whatever it
    then leads to. *)
Theorem token_consumed_safely path w w' r :
  read_and_remove_token path w = (w', r) →
  match r with
  | Err _ => no_unlink w w'
  | Ok token => ∃ parent name euid t opened checked,
      parent_and_name path = Ok (parent, name) ∧
      log w' = log w ++ opened ++ checked ++ [EvUnlink (ttf_parent_file t) name] ∧
      sound_open euid parent name t opened ∧ sound_check t (token_bytes token) checked
  end.
Proof.
  unfold read_and_remove_token. pose proof (log_task w) as Ht.
  destruct (token_task_failed w) as [w0 [error|]]; simpl in Ht.
  { intros [= <- <-]. exists []. by rewrite app_nil_r. }
  unfold no_unlink. rewrite <- Ht. fold (no_unlink w0 w').
  unfold mbind at 1 2, native_bind. pose proof (quiet_open path w0) as Hq.
  destruct (TrustedTokenFile_open path w0) as [w1 [t|e]] eqn:Eo; [|by intros [= <- <-]].
  apply open_sound in Eo as (parent & name & euid & opened & Hn & Lo & Hopen).
  unfold TrustedTokenFile_consume, mbind, native_bind. pose proof (quiet_checks t w1) as Hc.
  destruct (consume_checks t w1) as [w2 [token|e]] eqn:Ec; simpl in Hq, Hc;
    [|intros [= <- <-]; by eapply no_unlink_trans].
  apply checks_sound in Ec as (checked & Lc & Hcheck).
  destruct (token_unlinkat _ _ w2) as [w3 [u|e]] eqn:Eu; apply log_unlinkat in Eu; simpl in Eu;
    intros [= <- <-].
  2:{ eapply no_unlink_trans; [done|]. eapply no_unlink_trans; [done|]. by exists []. }
  exists parent, name, euid, t, opened, checked. split_and!; try done.
  pose proof Hopen as (d & f0 & f1 & _ & _ & _ & _ & <- & _).
  by rewrite Eu, Lc, Lo, <- !app_assoc.
Qed.
End token.

(** A machine that records the calls, with a private token file; handle 1 is the directory,
    2 the file. *)
Definition example_directory : FileStat := mkFileStat 1 10 1000 0x41C0 2.
Definition example_token_file : FileStat := mkFileStat 1 11 1000 0x8180 1.
Definition example_token : list Z := repeat 51 32.
Definition example_token_fs (file : FileStat) : TokenFs Z (list (TokenEvent (Handle := Z))) := {|
  token_task_failed w := (w, None);
  geteuid w := (w ++ [EvUser 1000], 1000);
  open_directory p w := (w ++ [EvOpenDirectory p 1], Ok 1);
  token_fstat h w :=
    let st := if h =? 1 then example_directory else file in (w ++ [EvStat h st], Ok st);
  token_statat h name w := (w ++ [EvStatAt h name file], Ok file);
  token_openat h name w := (w ++ [EvOpenAt h name 2], Ok 2);
  token_read_exact h w := (w ++ [EvReadExact h example_token], Ok example_token);
  token_read_extra h w := (w ++ [EvReadExtra h []], Ok []);
  token_unlinkat h name w := (w ++ [EvUnlink h name], Ok ());
|}.
Lemma example_token_laws file : TokenFsLaws (H := example_token_fs file) id.
Proof.
  split; try done; try (by intros * [= <- <-]).
  - intros * [= <- <-]. split; [done|]. by intros bytes [= <-].
Qed.
Definition example_token_path : TokenPath := mkTokenPath (Some "token") (Some "/run/hal").
Lemma token_consumed_safely_witness :
  (read_and_remove_token (H := example_token_fs example_token_file) example_token_path []).2
    = Ok (mkStartupToken example_token) ∧
  ∃ t, last (read_and_remove_token (H := example_token_fs example_token_file) example_token_path []).1
    = Some (EvUnlink (ttf_parent_file t) "token").
Proof.
  destruct (read_and_remove_token (H := example_token_fs example_token_file) example_token_path [])
    as [w' r] eqn:E.
  assert (Hr : r = Ok (mkStartupToken example_token)) by (revert E; vm_compute; by intros [= _ <-]).
  subst r. split; [reflexivity|].
  destruct (token_consumed_safely (H := example_token_fs example_token_file) id
    (H0 := example_token_laws example_token_file) example_token_path [] w' _ E)
    as (parent & name & euid & t & opened & checked & Hn & Hl & _).
  exists t. injection Hn as <- <-. cbn in Hl |- *. rewrite Hl, app_assoc. apply last_snoc.
Defined.
(** A token that others may read is refused, and left where it is. *)
Example token_of_others_refused :
  let w := read_and_remove_token (H := example_token_fs (mkFileStat 1 11 1000 0x81A4 1)) example_token_path [] in
  existsb is_unlink w.1 = false ∧
  w.2 = Err (policy_error "token file must be owner-readable and inaccessible to group/other").
Proof. vm_compute. done. Qed.
