(* ===== verification/BrokerServe.v ===== *)
(** * apps/robot-hal-broker: composition and the accept loop

    Models apps/robot-hal-broker/src/main.rs and manifest.rs on Unix, and
    crates/robot-hal-broker/src/listener/unix.rs: which adapters a build registers and
    reports, the socket, the loop that accepts connections, and shutdown.  A connection is
    its task; what happens in it is [BrokerConnection]. *)

From S2P Require Import Prelude Core Native BrokerConnection CanTypes Facade.
From stdpp Require Import sorting.
Open Scope Z_scope.

(** ** The adapters of a build *)
Inductive TargetOs := TargetLinux | TargetMacos | TargetWindows | TargetOther.
Record Features := mkFeatures {
  f_avfoundation : bool;
  f_mediafoundation : bool;
  f_pcan : bool;
  f_serialport : bool;
  f_socketcan : bool;
  f_v4l2 : bool;
  f_nusb : bool;
  f_linux_gpio : bool;
  f_windows_gpio : bool;
  f_virtual_adapters : bool;
}.
Definition is_linux (os : TargetOs) : bool := match os with TargetLinux => true | _ => false end.
Definition is_macos (os : TargetOs) : bool := match os with TargetMacos => true | _ => false end.
Definition is_windows (os : TargetOs) : bool := match os with TargetWindows => true | _ => false end.
(** The [cfg] conditions that main.rs and manifest.rs share. *)
Definition cfg_avfoundation os f := f_avfoundation f && is_macos os && negb (f_virtual_adapters f).
Definition cfg_mediafoundation os f := f_mediafoundation f && is_windows os && negb (f_virtual_adapters f).
Definition cfg_nusb f := f_nusb f && negb (f_virtual_adapters f).
Definition cfg_linux_gpio os f := f_linux_gpio f && is_linux os && negb (f_virtual_adapters f).
Definition cfg_windows_gpio os f := f_windows_gpio f && is_windows os && negb (f_virtual_adapters f).
Definition cfg_v4l2 os f := f_v4l2 f && is_linux os && negb (f_virtual_adapters f).

Inductive Adapter :=
  | SerialPortAdapter | SocketCanAdapter | NusbAdapter | LinuxGpioAdapter | WindowsGpioAdapter
  | AvFoundationAdapter | V4l2Adapter | MediaFoundationAdapter | PcanAdapter
  | VirtualSerialAdapter (id : string) | VirtualCanAdapter (id : string) (fd : bool)
  | VirtualUsbAdapter (id : string) | VirtualGpioAdapter (id : string) (lines : Z)
  | VirtualCameraAdapter (id : string).
Inductive RequiredAdapter := RequiredPcan.
(** A [Box<dyn Error>]. *)
Inductive BrokerAppError := AppHal (e : HalError) | AppIo (e : OsError) | AppText (text : string).

Definition cfg {A} (b : bool) (l : list A) : list A := if b then l else [].
Definition AppBuilder : Type := HalRuntimeBuilder Adapter Adapter Adapter Adapter Adapter.
Definition app_settings (os : TargetOs) (f : Features)
    : list (BuilderSetting Adapter Adapter Adapter Adapter Adapter) :=
  cfg (f_serialport f) [SetSerialAdapter SerialPortAdapter]
  ++ cfg (f_socketcan f) [AddCanAdapter SocketCanAdapter]
  ++ cfg (cfg_nusb f) [SetUsbAdapter NusbAdapter]
  ++ cfg (cfg_linux_gpio os f) [SetGpioAdapter LinuxGpioAdapter]
  ++ cfg (cfg_windows_gpio os f) [SetGpioAdapter WindowsGpioAdapter]
  ++ cfg (cfg_avfoundation os f) [SetCameraAdapter AvFoundationAdapter]
  ++ cfg (cfg_v4l2 os f) [SetCameraAdapter V4l2Adapter]
  ++ cfg (cfg_mediafoundation os f) [SetCameraAdapter MediaFoundationAdapter]
  ++ cfg (f_virtual_adapters f)
       [SetSerialAdapter (VirtualSerialAdapter "serial:virtual:broker-app");
        AddCanAdapter (VirtualCanAdapter "can:virtual:broker-app:classic" false);
        AddCanAdapter (VirtualCanAdapter "can:virtual:broker-app:fd" true);
        SetUsbAdapter (VirtualUsbAdapter "usb:virtual:broker-app");
        SetGpioAdapter (VirtualGpioAdapter "gpio:virtual:broker-app" 2);
        SetCameraAdapter (VirtualCameraAdapter "camera:virtual:broker-app")].
(** [load] is the outcome of [PcanAdapter::load], which loads the vendor's library. *)
Definition build_runtime (os : TargetOs) (f : Features) (load : HalResult unit)
    (required : list RequiredAdapter) : result BrokerAppError AppBuilder :=
  let requires_pcan := existsb (λ r, match r with RequiredPcan => true end) required in
  let builder := builder_run (app_settings os f) in
  if f_pcan f then
    match load with
    | Ok _ => Ok (builder_set builder (AddCanAdapter PcanAdapter))
    | Err error => if requires_pcan then Err (AppHal error) else Ok builder
    end
  else if requires_pcan then Err (AppText "the broker was built without the pcan adapter feature")
  else Ok builder.

(** manifest.rs; [sort_unstable] of ASCII names. *)
Definition sort_names : list string → list string := merge_sort (λ a b, Is_true (String.leb a b)).
Definition enabled_adapters (os : TargetOs) (f : Features) : list string :=
  sort_names
    (["serialport"]
     ++ cfg (cfg_avfoundation os f) ["avfoundation"]
     ++ cfg (cfg_mediafoundation os f) ["mediafoundation"]
     ++ cfg (f_pcan f) ["pcan"]
     ++ cfg (f_socketcan f) ["socketcan"]
     ++ cfg (cfg_nusb f) ["nusb"]
     ++ cfg (cfg_linux_gpio os f) ["linux-gpio"]
     ++ cfg (cfg_windows_gpio os f) ["windows-gpio"]
     ++ cfg (cfg_v4l2 os f) ["v4l2"]
     ++ cfg (f_virtual_adapters f)
          ["virtual-can"; "virtual-camera"; "virtual-gpio"; "virtual-serial"; "virtual-usb"]).
Definition enabled_features (os : TargetOs) (f : Features) : list string :=
  sort_names
    (cfg (f_serialport f) ["serialport"]
     ++ cfg (cfg_avfoundation os f) ["avfoundation"]
     ++ cfg (cfg_mediafoundation os f) ["mediafoundation"]
     ++ cfg (f_pcan f) ["pcan"]
     ++ cfg (f_socketcan f) ["socketcan"]
     ++ cfg (cfg_nusb f) ["nusb"]
     ++ cfg (cfg_linux_gpio os f) ["linux-gpio"]
     ++ cfg (cfg_windows_gpio os f) ["windows-gpio"]
     ++ cfg (cfg_v4l2 os f) ["v4l2"]
     ++ cfg (f_virtual_adapters f) ["virtual-adapters"]).
Definition required_vendor_runtime_libraries (f : Features) : list string :=
  cfg (f_pcan f) ["PCAN-Basic"].

(** The names under which the manifest reports the adapters. *)
Definition manifest_name (a : Adapter) : string :=
  match a with
  | SerialPortAdapter => "serialport" | SocketCanAdapter => "socketcan" | NusbAdapter => "nusb"
  | LinuxGpioAdapter => "linux-gpio" | WindowsGpioAdapter => "windows-gpio"
  | AvFoundationAdapter => "avfoundation" | V4l2Adapter => "v4l2"
  | MediaFoundationAdapter => "mediafoundation" | PcanAdapter => "pcan"
  | VirtualSerialAdapter _ => "virtual-serial" | VirtualCanAdapter _ _ => "virtual-can"
  | VirtualUsbAdapter _ => "virtual-usb" | VirtualGpioAdapter _ _ => "virtual-gpio"
  | VirtualCameraAdapter _ => "virtual-camera"
  end.
Definition registered_adapters (b : AppBuilder) : list Adapter :=
  option_list (hb_serial_adapter b) ++ hb_can_adapters b ++ option_list (hb_usb_adapter b)
  ++ option_list (hb_gpio_adapter b) ++ option_list (hb_camera_adapter b).

(** A statement about every build is checked by evaluation. *)
Definition all_bool (p : bool → bool) : bool := p true && p false.
Lemma all_bool_spec p b : all_bool p = true → p b = true.
Proof. unfold all_bool. intros [??]%andb_prop. by destruct b. Qed.
Definition all_builds (p : TargetOs → Features → bool) : bool :=
  forallb (λ os,
    all_bool (λ a, all_bool (λ b, all_bool (λ c, all_bool (λ d, all_bool (λ e,
    all_bool (λ g, all_bool (λ h, all_bool (λ i, all_bool (λ j, all_bool (λ k,
      p os (mkFeatures a b c d e g h i j k))))))))))))
    [TargetLinux; TargetMacos; TargetWindows; TargetOther].
Lemma all_builds_spec p os f : all_builds p = true → p os f = true.
Proof.
  unfold all_builds. intros Hall. apply (proj1 (forallb_forall _ _)) with (x := os) in Hall.
  2:{ destruct os; simpl; tauto. }
  destruct f as [a b c d e g h i j k].
  apply all_bool_spec with (b := a) in Hall. apply all_bool_spec with (b := b) in Hall.
  apply all_bool_spec with (b := c) in Hall. apply all_bool_spec with (b := d) in Hall.
  apply all_bool_spec with (b := e) in Hall. apply all_bool_spec with (b := g) in Hall.
  apply all_bool_spec with (b := h) in Hall. apply all_bool_spec with (b := i) in Hall.
  apply all_bool_spec with (b := j) in Hall. by apply all_bool_spec with (b := k) in Hall.
Qed.

Definition name_in (name : string) (l : list string) : bool := existsb (String.eqb name) l.
Lemma name_in_spec name l : name_in name l = true ↔ name ∈ l.
Proof.
  unfold name_in. rewrite existsb_exists. split.
  - intros (x & Hin%list_elem_of_In & ->%String.eqb_eq). done.
  - intros Hin%list_elem_of_In. exists name. split; [done|]. apply String.eqb_refl.
Qed.
(** What is built once PCAN is loaded. *)
Definition built (os : TargetOs) (f : Features) : list string :=
  manifest_name <$> registered_adapters
    (builder_run (app_settings os f ++ cfg (f_pcan f) [AddCanAdapter PcanAdapter])).
Definition manifest_agrees (os : TargetOs) (f : Features) : bool :=
  let reported := enabled_adapters os f in
  forallb (λ n, String.eqb n "serialport" || name_in n (built os f)) reported
  && forallb (λ n, name_in n reported) (built os f)
  && name_in "serialport" reported
  && Bool.eqb (name_in "serialport" (built os f)) (f_serialport f && negb (f_virtual_adapters f)).
Lemma manifest_agrees_all os f : manifest_agrees os f = true.
Proof. apply all_builds_spec. vm_compute. reflexivity. Qed.

(** The manifest names the adapters of the runtime, but for the serial one: whatever is built
    for whichever system, every other adapter is named iff the runtime it builds has it, once
    PCAN is loaded; [serialport] is always named, and registered iff its feature is on and
    the virtual adapters do not take its place. *)
Lemma manifest_names_adapters os f required b :
  build_runtime os f (Ok ()) required = Ok b →
  (∀ name, name ≠ "serialport" →
     name ∈ enabled_adapters os f ↔ name ∈ manifest_name <$> registered_adapters b) ∧
  "serialport" ∈ enabled_adapters os f ∧
  ("serialport" ∈ manifest_name <$> registered_adapters b ↔
     f_serialport f = true ∧ f_virtual_adapters f = false).
Proof.
  intros E. assert (manifest_name <$> registered_adapters b = built os f) as ->.
  { unfold built, builder_run. rewrite foldl_app. unfold build_runtime in E.
    destruct (f_pcan f); [by injection E as <-|]. destruct (existsb _ required); [done|].
    by injection E as <-. }
  pose proof (manifest_agrees_all os f) as Ha. unfold manifest_agrees in Ha.
  apply andb_prop in Ha as [Ha H4]. apply andb_prop in Ha as [Ha H3]. apply andb_prop in Ha as [H1 H2].
  rewrite forallb_forall in H1, H2. split_and!.
  - intros name Hne. split; intros Hin%list_elem_of_In.
    + apply H1 in Hin. apply orb_prop in Hin as [->%String.eqb_eq|Hin]; [done|by apply name_in_spec].
    + by apply H2, name_in_spec in Hin.
  - by apply name_in_spec.
  - rewrite <- name_in_spec. apply Bool.eqb_prop in H4. rewrite H4, andb_true_iff, negb_true_iff. done.
Qed.
(** A build without the serial adapter still reports it. *)
Lemma manifest_reports_missing_serial :
  let f := mkFeatures false false false false true false false false false false in
  enabled_adapters TargetLinux f = ["serialport"; "socketcan"] ∧
  built TargetLinux f = ["socketcan"].
Proof. vm_compute. done. Qed.

(** ** Sockets *)

(** What main.rs and listener/unix.rs ask of the system; removing the socket file ignores
    failures.  Readiness is a line of JSON on the standard output. *)
Class ServeOs (W : Type) := {
  directory_mode : string → W → W * result OsError Z;
  create_dir_all : string → W → W * result OsError unit;
  set_permissions : string → Z → W → W * result OsError unit;
  unix_bind : string → W → W * result OsError unit;
  remove_socket : string → W → W;
  print_readiness : string → W → W * result string unit;
}.
Section sockets.
Context {W : Type} `{ServeOs W}.
(** [UnixSocketCleanup]: the file is removed when the guard is dropped, here by a failure. *)
Definition armed {E A} (endpoint : string) (m : native W E A) : native W E A := λ w,
  match m w with
  | (w, Err e) => (remove_socket endpoint w, Err e)
  | r => r
  end.
(** [serve_unix_until] up to its loop; [parent] is [endpoint.parent()]. *)
Definition serve_unix_start (endpoint : string) (parent : option string) : native W BrokerAppError unit :=
  native_lift (ok_or (AppIo (mkOsError KindInvalidInput None "endpoint must have a parent directory"))
                 parent) ≫= λ parent,
  native_map_err AppIo (directory_mode parent) ≫= λ parent_mode,
  native_when (negb (Z.land parent_mode 0x3F =? 0))
    (throw (AppIo (mkOsError KindPermissionDenied None
       "endpoint parent directory must not be accessible by group or other users"))) ≫= λ _,
  native_map_err AppIo (unix_bind endpoint) ≫= λ _,
  armed endpoint
    (native_map_err AppIo (set_permissions endpoint 0x180) ≫= λ _,
     native_map_err AppText (print_readiness endpoint)).
(** [UnixBroker::bind], with the UUID of the socket's name. *)
Definition UnixBroker_bind (private_directory uuid : string) : native W OsError string :=
  create_dir_all private_directory ≫= λ _,
  set_permissions private_directory 0x1C0 ≫= λ _,
  let socket_path := private_directory +:+ "/robot-hal-" +:+ uuid +:+ ".sock" in
  unix_bind socket_path ≫= λ _,
  armed socket_path (set_permissions socket_path 0x180) ≫= λ _,
  mret socket_path.

(** The socket files that the process has bound and not removed, with their permissions, and
    the endpoints announced as ready. *)
Context (sockets : W → gmap string (option Z)) (announced : W → list string).
Definition sockets_same (w w' : W) : Prop := sockets w' = sockets w ∧ announced w' = announced w.
(** What the code relies on: a socket's file is new when it is bound, has the permissions it
    was last given, and is gone once removed. *)
Class ServeOsLaws : Prop := {
  sockets_mode p w : sockets_same w (directory_mode p w).1;
  sockets_create p w : sockets_same w (create_dir_all p w).1;
  sockets_permissions p m w w' r : set_permissions p m w = (w', r) →
    announced w' = announced w ∧
    sockets w' = match r with
                 | Ok _ => alter (λ _, Some m) p (sockets w)
                 | Err _ => sockets w
                 end;
  sockets_bind p w w' r : unix_bind p w = (w', r) →
    announced w' = announced w ∧
    match r with
    | Ok _ => sockets w !! p = None ∧ sockets w' = <[p := None]> (sockets w)
    | Err _ => sockets w' = sockets w
    end;
  sockets_remove p w : announced (remove_socket p w) = announced w ∧
    sockets (remove_socket p w) = delete p (sockets w);
  sockets_readiness p w w' r : print_readiness p w = (w', r) →
    sockets w' = sockets w ∧
    announced w' = announced w ++ (if is_ok r then [p] else []);
}.
Context `{!ServeOsLaws}.

(** Starting to serve is a transaction.  When it fails, whichever call fails, no socket is
    left behind that was not there before and nothing was announced; when it succeeds, the
    parent directory was closed to group and others, the socket has mode 0600, and it was
    announced as ready after that. *)
Lemma serve_start_transactional endpoint parent w w' r :
  serve_unix_start endpoint parent w = (w', r) →
  match r with
  | Err _ => sockets w' = sockets w ∧ announced w' = announced w
  | Ok _ =>
      sockets w' = <[endpoint := Some 0x180]> (sockets w) ∧ sockets w !! endpoint = None ∧
      announced w' = announced w ++ [endpoint] ∧
      ∃ p w1 mode, parent = Some p ∧ directory_mode p w = (w1, Ok mode) ∧ mode mod 2 ^ 6 = 0
  end.
Proof.
  unfold serve_unix_start. destruct parent as [p|]; [|by intros [= <- <-]].
  unfold native_lift, native_map_err, mbind, native_bind. simpl.
  pose proof (sockets_mode p w) as [Hs Ha].
  destruct (directory_mode p w) as [w1 [mode|e]] eqn:Em; simpl in *; [|by intros [= <- <-]].
  destruct (Z.land mode 63 =? 0) eqn:Hm; simpl; [|by intros [= <- <-]].
  destruct (unix_bind endpoint w1) as [w2 [u|e]] eqn:Eb; apply sockets_bind in Eb; simpl.
  2:{ intros [= <- <-]. by destruct Eb as [-> ->]. }
  destruct Eb as (Ha2 & Hn & Hs2). rewrite Hs in Hn, Hs2. rewrite Ha in Ha2. unfold armed.
  assert (delete endpoint (sockets w2) = sockets w) as Hdel by (by rewrite Hs2, delete_insert_id).
  destruct (set_permissions endpoint 384 w2) as [w3 [u3|e]] eqn:Ep; apply sockets_permissions in Ep;
    destruct Ep as [Ha3 Hs3]; simpl.
  2:{ intros [= <- <-]. destruct (sockets_remove endpoint w3) as [-> ->]. by rewrite Hs3, Hdel, Ha3. }
  destruct (print_readiness endpoint w3) as [w4 [u4|e]] eqn:Er; apply sockets_readiness in Er;
    destruct Er as [Hs4 Ha4]; simpl in *; intros [= <- <-].
  - rewrite Hs4, Ha4, Hs3, Hs2, Ha3, Ha2. split_and!; try done.
    + by rewrite alter_insert_eq.
    + exists p, w1, mode. split_and!; try done. apply Z.eqb_eq in Hm.
      change 63 with (Z.ones 6) in Hm. by rewrite Z.land_ones in Hm.
  - destruct (sockets_remove endpoint w4) as [-> ->]. rewrite Hs4, Ha4, Hs3, app_nil_r, Ha3.
    split; [|done]. by rewrite Hs2, delete_alter_eq, <- Hs2.
Qed.
End sockets.

(** ** The loop *)

(** What a connection's task ends with; [Err] is a [JoinError]'s text. *)
Definition TaskResult : Type := result string ConnectionOutcome.
Record StructuredErrorFields := mkStructuredErrorFields {
  sef_kind : string;
  sef_name : ErrorName;
  sef_category : ErrorCategory;
  sef_operation : OperationName;
  sef_retryable : bool;
}.
Definition structured_error_fields (kind : string) (error : HalError) : StructuredErrorFields :=
  mkStructuredErrorFields kind (err_name error) (err_category error) (err_operation error)
    (err_retryable error).
Inductive LogRecord := LogError (fields : StructuredErrorFields) | LogTaskFailed (text : string).
Definition log_connection_result (r : TaskResult) : list LogRecord :=
  match r with
  | Ok outcome =>
      option_list (LogError ∘ structured_error_fields "connection" <$> co_connection_error outcome)
      ++ option_list (LogError ∘ structured_error_fields "cleanup" <$> co_cleanup_error outcome)
  | Err error => [LogTaskFailed error]
  end.

(** A connection is running ([None]) or finished and not yet joined.  [sv_result] is the value
    the loop was left with; from then on the connections see the shutdown.  [sv_joined], a
    ghost, records the tasks joined. *)
Record ServeState := mkServeState {
  sv_connections : list (nat * option TaskResult);
  sv_next : nat;
  sv_max_retained_tasks : Z;
  sv_result : option (result OsError unit);
  sv_joined : list (nat * TaskResult);
}.
Definition serve_init : ServeState := mkServeState [] 0 0 None [].
(** The branches of the [select!], and the end of a task. *)
Inductive ServeMove :=
  | ServeSignal (r : result OsError unit)
  | ServeAccepted (r : result OsError unit)
  | ServeJoined (id : nat)
  | ServeTaskEnds (id : nat) (r : TaskResult).

Definition finished_tasks (connections : list (nat * option TaskResult)) : list (nat * TaskResult) :=
  omap (λ c, (λ r, (c.1, r)) <$> c.2) connections.
Definition running_tasks (connections : list (nat * option TaskResult)) : list (nat * option TaskResult) :=
  List.filter (λ c, is_none c.2) connections.
Definition reap_finished (s : ServeState) : ServeState :=
  mkServeState (running_tasks (sv_connections s)) (sv_next s) (sv_max_retained_tasks s) (sv_result s)
    (sv_joined s ++ finished_tasks (sv_connections s)).
Definition leave_loop (s : ServeState) (r : result OsError unit) : ServeState :=
  mkServeState (sv_connections s) (sv_next s) (sv_max_retained_tasks s) (Some r) (sv_joined s).
Definition spawn_connection (s : ServeState) : ServeState :=
  let connections := sv_connections s ++ [(sv_next s, None)] in
  mkServeState connections (S (sv_next s)) (Z.max (sv_max_retained_tasks s) (len connections))
    (sv_result s) (sv_joined s).
Definition serve_move (max_connections : Z) (s : ServeState) (m : ServeMove) : option ServeState :=
  match m with
  | ServeSignal r => if is_some (sv_result s) then None else Some (leave_loop s r)
  | ServeAccepted r =>
      if is_some (sv_result s) then None
      else match r with
      | Err error => Some (leave_loop s (Err error))
      | Ok _ =>
          let s := reap_finished s in
          if max_connections <=? len (sv_connections s) then Some s else Some (spawn_connection s)
      end
  | ServeJoined id =>
      match List.find (λ c, (c.1 =? id)%nat && is_some c.2) (sv_connections s) with
      | Some (_, Some r) =>
          Some (mkServeState (List.filter (λ c, negb (c.1 =? id)%nat) (sv_connections s)) (sv_next s)
                  (sv_max_retained_tasks s) (sv_result s) (sv_joined s ++ [(id, r)]))
      | _ => None
      end
  | ServeTaskEnds id r =>
      if existsb (λ c, (c.1 =? id)%nat && is_none c.2) (sv_connections s) then
        Some (mkServeState
                (map (λ c, if (c.1 =? id)%nat then (id, Some r) else c) (sv_connections s)) (sv_next s)
                (sv_max_retained_tasks s) (sv_result s) (sv_joined s))
      else None
  end.
(** After the loop the connections are joined; then the function returns. *)
Definition serve_returned (s : ServeState) : option (result OsError Z) :=
  match sv_result s, sv_connections s with
  | Some r, [] => Some (r ≫= λ _, Ok (sv_max_retained_tasks s))
  | _, _ => None
  end.
Fixpoint serve_run (max_connections : Z) (s : ServeState) (moves : list ServeMove) : option ServeState :=
  match moves with
  | [] => Some s
  | m :: moves => serve_move max_connections s m ≫= λ s, serve_run max_connections s moves
  end.

Lemma len_filter_le {A} (p : A → bool) l : len (List.filter p l) <= len l.
Proof. unfold len. induction l as [|x l IH]; simpl; [lia|]. destruct (p x); simpl; lia. Qed.
Lemma reaped_ids (l : list (nat * option TaskResult)) :
  (finished_tasks l).*1 ++ (running_tasks l).*1 ≡ₚ l.*1.
Proof.
  unfold finished_tasks, running_tasks. induction l as [|[id [r|]] l IH]; simpl; [done| |].
  - by rewrite <- IH.
  - by rewrite <- Permutation_middle, <- IH.
Qed.
(** The task of an identifier is one. *)
Lemma find_task l id c :
  NoDup (l.*1) → List.find (λ c : nat * option TaskResult, (c.1 =? id)%nat && is_some c.2) l = Some c →
  c.1 = id ∧ l ≡ₚ c :: List.filter (λ c, negb (c.1 =? id)%nat) l.
Proof.
  intros Hnd Hf. pose proof (find_some _ _ Hf) as [Hin [Hid%Nat.eqb_eq _]%andb_prop].
  split; [done|]. clear Hf. induction l as [|d l IH]; [done|]. cbn in Hnd.
  apply NoDup_cons in Hnd as [Hd Hnd]. simpl. destruct Hin as [->|Hin].
  - rewrite (proj2 (Nat.eqb_eq _ _) Hid). simpl. f_equiv. clear IH. rewrite Hid in Hd.
    induction l as [|e l IH]; [done|]. cbn in Hd, Hnd. apply not_elem_of_cons in Hd as [??].
    apply NoDup_cons in Hnd as [_ Hnd]. simpl. rewrite (proj2 (Nat.eqb_neq _ _)) by done. simpl.
    by rewrite <- IH.
  - rewrite (proj2 (Nat.eqb_neq d.1 id)).
    + simpl. rewrite Permutation_swap. f_equiv. by apply IH.
    + intros Heq. apply Hd. rewrite Heq, <- Hid. apply list_elem_of_fmap. exists c.
      split; [done|]. by apply list_elem_of_In.
Qed.

Record serve_inv (max_connections : Z) (s : ServeState) : Prop := {
  vi_len : len (sv_connections s) <= sv_max_retained_tasks s;
  vi_max : sv_max_retained_tasks s <= max_connections;
  vi_ids : (sv_joined s).*1 ++ (sv_connections s).*1 ≡ₚ seq 0 (sv_next s);
}.
Lemma serve_inv_nodup max s : serve_inv max s → NoDup (sv_connections s).*1.
Proof.
  intros [_ _ Hids]. pose proof (NoDup_seq 0 (sv_next s)) as Hnd. rewrite <- Hids in Hnd.
  by apply NoDup_app in Hnd as (_ & _ & ?).
Qed.
Lemma serve_inv_reap max s : serve_inv max s → serve_inv max (reap_finished s).
Proof.
  intros [H1 H2 H3]. split; simpl; [|done|].
  - pose proof (len_filter_le (λ c : nat * option TaskResult, is_none c.2) (sv_connections s)).
    unfold running_tasks. lia.
  - by rewrite fmap_app, <- app_assoc, reaped_ids.
Qed.
Lemma serve_inv_spawn max s :
  serve_inv max s → len (sv_connections s) < max → serve_inv max (spawn_connection s).
Proof.
  intros [H1 H2 H3] Hlt. split; simpl.
  - lia.
  - unfold len in *. rewrite length_app. simpl. lia.
  - rewrite fmap_app, app_assoc, H3. simpl.
    change (0%nat :: seq 1 (sv_next s)) with (seq 0 (S (sv_next s))). by rewrite seq_S.
Qed.
Lemma ended_ids (l : list (nat * option TaskResult)) id r :
  (map (λ c, if (c.1 =? id)%nat then (id, Some r) else c) l).*1 = l.*1.
Proof.
  induction l as [|c l IH]; [done|]. cbn. rewrite IH. f_equal.
  destruct (Nat.eqb_spec c.1 id); [done|done].
Qed.
Lemma serve_move_inv max s m s' :
  serve_inv max s → serve_move max s m = Some s' → serve_inv max s'.
Proof.
  intros Hi. pose proof Hi as [H1 H2 H3]. destruct m as [r|r|id|id r]; simpl.
  - destruct (sv_result s); [done|]. by intros [= <-].
  - destruct (sv_result s); [done|]. simpl. apply serve_inv_reap in Hi.
    destruct r; [|by intros [= <-]]. simpl in *.
    destruct (_ <=? _) eqn:Hle; intros [= <-]; [done|]. apply serve_inv_spawn; [done|].
    bool_simp. simpl in *. lia.
  - destruct (List.find _ _) as [[id' [r|]]|] eqn:Hf; [|done..]. intros [= <-].
    apply find_task in Hf as [Hid Hperm]; [|by eapply serve_inv_nodup]. simpl in Hid. subst id'.
    split; simpl; [|done|].
    + pose proof (len_filter_le (λ c : nat * option TaskResult, negb (c.1 =? id)%nat) (sv_connections s)).
      lia.
    + apply (fmap_Permutation fst) in Hperm. rewrite fmap_app, <- app_assoc. simpl. by rewrite <- H3, Hperm.
  - destruct (existsb _ _); [|done]. intros [= <-]. split; simpl; [|done|by rewrite ended_ids].
    unfold len in *. by rewrite length_map.
Qed.

(** What is left to do once the loop has ended. *)
Definition serve_measure (s : ServeState) : nat :=
  length (sv_connections s) + length (running_tasks (sv_connections s)).
Lemma running_ends l id r :
  existsb (λ c : nat * option TaskResult, (c.1 =? id)%nat && is_none c.2) l = true →
  (length (running_tasks (map (λ c, if (c.1 =? id)%nat then (id, Some r) else c) l))
   < length (running_tasks l))%nat.
Proof.
  assert (∀ l, length (running_tasks (map (λ c, if (c.1 =? id)%nat then (id, Some r) else c) l))
    <= length (running_tasks l))%nat as Hle.
  { clear l. unfold running_tasks. induction l as [|c l IH]; [done|]. simpl.
    destruct (_ =? _)%nat, c as [? [?|]]; simpl in *; lia. }
  induction l as [|c l IH]; [done|]. simpl. specialize (Hle l). unfold running_tasks in *.
  destruct (Nat.eqb_spec c.1 id) as [Hc|Hc]; simpl.
  - destruct c as [? [?|]]; simpl in *; [intros ?%IH; lia|lia].
  - intros ?%IH. destruct c as [? [?|]]; simpl in *; lia.
Qed.
Lemma joined_shrinks (l : list (nat * option TaskResult)) id c :
  List.find (λ c : nat * option TaskResult, (c.1 =? id)%nat && is_some c.2) l = Some c →
  (length (List.filter (λ c, negb (c.1 =? id)%nat) l) < length l ∧
   length (running_tasks (List.filter (λ c, negb (c.1 =? id)%nat) l)) <= length (running_tasks l))%nat.
Proof.
  assert (∀ l : list (nat * option TaskResult),
    length (List.filter (λ c, negb (c.1 =? id)%nat) l) <= length l ∧
    length (running_tasks (List.filter (λ c, negb (c.1 =? id)%nat) l)) <= length (running_tasks l))%nat as Hle.
  { clear l. unfold running_tasks. induction l as [|d l IH]; [done|]. simpl.
    destruct (_ =? _)%nat, d as [? [?|]]; simpl in *; lia. }
  induction l as [|d l IH]; [done|]. simpl. specialize (Hle l). unfold running_tasks in *.
  destruct (Nat.eqb_spec d.1 id) as [Hd|Hd]; simpl.
  - destruct d as [? [?|]]; simpl in *; [intros _; lia|intros [??]%IH; lia].
  - intros [??]%IH. destruct d as [? [?|]]; simpl in *; lia.
Qed.
Lemma serve_drain_step max s m s' r :
  sv_result s = Some r → serve_move max s m = Some s' →
  sv_result s' = Some r ∧ sv_next s' = sv_next s ∧ (serve_measure s' < serve_measure s)%nat.
Proof.
  intros Hr. unfold serve_measure. destruct m as [?|?|id|id r']; simpl; rewrite ?Hr; try done.
  - destruct (List.find _ _) as [[? [?|]]|] eqn:Hf; [|done..]. intros [= <-]. simpl.
    apply joined_shrinks in Hf as [??]. split_and!; [done..|lia].
  - destruct (existsb _ _) eqn:Hx; [|done]. intros [= <-]. simpl. rewrite length_map.
    apply (running_ends _ _ r') in Hx. split_and!; [done..|lia].
Qed.
Lemma serve_drain_progress max s r :
  sv_result s = Some r → serve_returned s = None → ∃ m s', serve_move max s m = Some s'.
Proof.
  unfold serve_returned. intros -> Hc. destruct (sv_connections s) as [|[id [res|]] l] eqn:E; [done| |].
  - exists (ServeJoined id). simpl. rewrite E. simpl. rewrite Nat.eqb_refl. simpl. by eexists.
  - exists (ServeTaskEnds id (Err "")). simpl. rewrite E. simpl. rewrite Nat.eqb_refl. simpl. by eexists.
Qed.

(** C24: The broker serves a bounded number of connections, each to its end.  However connections
    come, end and are joined, at most the maximum are kept, and every connection that was
    accepted is either kept or was joined, once.  After a shutdown signal or a failure of
    the listener no connection is accepted; each further step brings the end nearer, there
    always is one, and when the broker returns, with what the loop ended with, every
    connection has been joined. *)
Theorem serve_loop_correct max moves s :
  0 <= max → serve_run max serve_init moves = Some s →
  len (sv_connections s) <= max ∧ sv_max_retained_tasks s <= max ∧
  (sv_joined s).*1 ++ (sv_connections s).*1 ≡ₚ seq 0 (sv_next s) ∧
  (∀ r, sv_result s = Some r →
     (∀ m s', serve_move max s m = Some s' →
        sv_result s' = Some r ∧ sv_next s' = sv_next s ∧ (serve_measure s' < serve_measure s)%nat) ∧
     (serve_returned s = None → ∃ m s', serve_move max s m = Some s') ∧
     (∀ result, serve_returned s = Some result →
        result = (r ≫= λ _, Ok (sv_max_retained_tasks s)) ∧ (sv_joined s).*1 ≡ₚ seq 0 (sv_next s))).
Proof.
  intros Hmax Hrun. assert (serve_inv max s) as [H1 H2 H3].
  { assert (serve_inv max serve_init) as Hi by (by split).
    revert Hi Hrun. generalize serve_init. induction moves as [|m moves IH]; intros s0 Hi; simpl.
    - by intros [= <-].
    - destruct (serve_move max s0 m) as [s1|] eqn:Em; [|done]. simpl. apply IH.
      by eapply serve_move_inv. }
  split_and!; [lia|done|done|]. intros r Hr. split_and!.
  - intros m s'. by apply serve_drain_step.
  - by eapply serve_drain_progress.
  - intros result. unfold serve_returned. rewrite Hr. destruct (sv_connections s); [|done].
    intros [= <-]. split; [done|]. by rewrite <- H3, app_nil_r.
Qed.
(** Two places; the third client is turned away, a finished connection makes room. *)
Definition example_serve_moves : list ServeMove :=
  [ServeAccepted (Ok ()); ServeAccepted (Ok ()); ServeAccepted (Ok ());
   ServeTaskEnds 0 (Err "task 0 panicked"); ServeAccepted (Ok ()); ServeSignal (Ok ());
   ServeTaskEnds 2 (Err "cancelled")].
Lemma serve_loop_correct_witness :
  ∃ s, serve_run 2 serve_init example_serve_moves = Some s ∧
    (sv_joined s).*1 ++ (sv_connections s).*1 ≡ₚ [0; 1; 2]%nat ∧
    ∃ m s', serve_move 2 s m = Some s'.
Proof.
  destruct (serve_run 2 serve_init example_serve_moves) as [s|] eqn:E; [|by vm_compute in E].
  exists s. destruct (serve_loop_correct 2 example_serve_moves s ltac:(lia) E)
    as (_ & _ & Hids & Hdrain).
  vm_compute in E. injection E as <-. split; [reflexivity|]. split; [exact Hids|].
  destruct (Hdrain (Ok ()) eq_refl) as (_ & Hprog & _). exact (Hprog eq_refl).
Defined.

(** Logs carry no message: errors that differ in nothing else are logged alike. *)
Lemma log_hides_message kind e e' :
  err_name e = err_name e' → err_category e = err_category e' → err_operation e = err_operation e' →
  err_retryable e = err_retryable e' →
  structured_error_fields kind e = structured_error_fields kind e'.
Proof. unfold structured_error_fields. by intros -> -> -> ->. Qed.
