(* ===== verification/V4l2.v ===== *)
(** * adapters/v4l2

    Models adapters/v4l2/src/lib.rs, wait.rs and native.rs on Linux: discovery and identities
    of cameras, the exact format that opening insists on, the frames that capturing makes of
    buffers, the bounded wait of a capture, and the life of sessions and their threads with
    the claims that keep one thread per camera.  The crate v4l, sysfs and the clock are a
    class over the state of the machine.  [V4l2Spec] has the theorems. *)

From S2P Require Import Prelude Core Native SerialRegistry CanTypes CameraTypes.
From Stdlib Require Import Ascii.
Open Scope Z_scope.

(** ** Errors *)
Definition v4_invalid (operation message : string) : HalError :=
  static_error "camera.frame.invalid" InvalidArgument operation false message.
Definition v4_named (descriptor : ResourceDescriptor) (error : HalError) : HalError :=
  HalError_with_resource_id error (desc_id descriptor).
Definition v4_closed (operation : string) (d : ResourceDescriptor) : HalError :=
  v4_named d (static_error "runtime.session.closed" Conflict operation false
    "V4L2 camera session is closed").
Definition adapter_conflict (operation : string) (d : ResourceDescriptor) : HalError :=
  v4_named d (static_error "runtime.adapter.conflict" Conflict operation false
    "V4L2 camera is already claimed by an active session").
Definition format_unsupported (operation : string) (d : ResourceDescriptor) : HalError :=
  v4_named d (static_error "camera.format.unsupported" InvalidArgument operation false
    "V4L2 did not negotiate the requested exact camera format").
Definition control_unsupported (operation : string) (d : ResourceDescriptor) : HalError :=
  v4_named d (static_error "camera.control.unsupported" InvalidArgument operation false
    "V4L2 camera controls are not advertised by this adapter slice").
Definition v4_timeout_error (operation : string) (d : ResourceDescriptor) : HalError :=
  v4_named d (static_error "runtime.transport.timeout" Unavailable operation true
    "timed out waiting for a V4L2 video frame").
Definition v4_close_timeout_error (d : ResourceDescriptor) : HalError :=
  v4_named d (static_error "runtime.adapter.close_timeout" Unavailable "camera.close" true
    "V4L2 worker did not release the camera before close timed out").
Definition v4_platform_error (operation error : string) : HalError :=
  static_error "runtime.transport.unavailable" Unavailable operation true ("V4L2 error: " +:+ error).
Definition v4_task_failed_error (operation error : string) : HalError :=
  static_error "runtime.internal.worker_failed" Internal operation false
    ("V4L2 worker failed: " +:+ error).
Definition v4_worker_failed (operation error : string) : HalError :=
  static_error "runtime.internal.worker_failed" Internal operation false
    ("V4L2 capture worker failed: " +:+ error).
Definition v4_ensure_open (closed : bool) (operation : string) (d : ResourceDescriptor) : HalResult unit :=
  if closed then Err (v4_closed operation d) else Ok ().

(** ** Identities *)
Definition v4_hex (nibble : Z) : ascii :=
  ascii_of_nat (Z.to_nat (if nibble <=? 9 then 48 + nibble else 65 + (nibble - 10))).
Definition v4_unreserved (c : ascii) : bool :=
  is_ascii_alphanumeric c || bool_decide (c ∈ ["-"; "_"; "."; "~"]%char).
Definition v4_encode_byte (c : ascii) : string :=
  if v4_unreserved c then String c EmptyString
  else
    let byte := Z.of_nat (nat_of_ascii c) in
    String "%" (String (v4_hex (Z.shiftr byte 4)) (String (v4_hex (Z.land byte 0x0f)) EmptyString)).
Fixpoint v4_encode (s : string) : string :=
  match s with EmptyString => EmptyString | String c s => v4_encode_byte c +:+ v4_encode s end.
Definition encode_resource_id (evidence : string) : HalResult ResourceId :=
  if str_is_empty evidence then
    HalError_new "runtime.resource.invalid" InvalidArgument "camera.identity" false
      "V4L2 identity evidence must not be empty" ≫= λ e, Err e
  else ResourceId_parse ("camera:v4l2:" +:+ v4_encode evidence).

Record IdentityEvidence := mkIdentityEvidence {
  ie_value : string;
  ie_source : string;
  ie_quality : IdentityQuality;
}.
Definition identity_from_serial_or_sysfs_path (serial canonical_device_path : string)
    : option IdentityEvidence :=
  if negb (str_is_empty serial) then
    Some (mkIdentityEvidence ("serial:" +:+ serial) "sysfs.serial" Strong)
  else if negb (str_is_empty canonical_device_path) then
    Some (mkIdentityEvidence ("sysfs:" +:+ canonical_device_path) "sysfs.canonical_device_path" Medium)
  else None.

(** An absolute canonical path, by its components. *)
Definition SysPath : Type := list string.
Definition syspath_text (p : SysPath) : string := "/" +:+ str_join "/" p.

Record V4lCapabilities := mkV4lCapabilities {
  vc_video_capture : bool;
  vc_streaming : bool;
  vc_driver : string;
  vc_card : string;
  vc_bus : string;
}.
Record V4lFormat := mkV4lFormat {
  vf_width : Z;
  vf_height : Z;
  vf_fourcc : string;
  vf_stride : Z;
  vf_size : Z;
}.
Record V4lMetadata := mkV4lMetadata { vm_bytesused : Z; vm_error : bool }.

(** A path of /dev is its file name, [None] when it is not UTF-8; its text is the lossy one.
    [v4_canonical] resolves /sys/class/video4linux/NAME/device, [v4_serial] reads the file
    [serial] in a directory.  [v4_next], [v4_stop] and [v4_set_timeout] act on the stream of
    the capturing thread, [v4_shutdown] reads its flag. *)
Class V4l2Os (W : Type) := {
  v4_read_dev : W → W * result string (list (option (option string * string)));
  v4_query_caps : string → W → W * result string V4lCapabilities;
  v4_canonical : string → W → W * result string SysPath;
  v4_serial : SysPath → W → W * result string string;
  v4_task_failed : W → W * option string;
  v4_device_open : string → W → W * result string unit;
  v4_set_format : Z → Z → string → W → W * result string V4lFormat;
  v4_with_buffers : Z → W → W * result string unit;
  v4_now : W → W * Z;
  v4_shutdown : W → W * bool;
  v4_set_timeout : Z → W → W;
  v4_next : W → W * result OsError (Bytes * V4lMetadata);
  v4_stop : W → W * result OsError unit;
}.

(** ** Formats and frames *)
Definition V4L2_CLOCK_DOMAIN : string := "v4l2.receipt.monotonic".
Definition V4L2_BUFFER_COUNT : Z := 4.
(** 20 milliseconds, in nanoseconds. *)
Definition V4L2_WAIT_QUANTUM : Z := 20 * 1000000.
Definition fourcc (format : CameraPixelFormat) : string :=
  match format with CamNv12 => "NV12" | CamYuyv => "YUYV" | CamMjpeg => "MJPG" end.
Definition ensure_exact_format (requested : CameraFormat) (actual : V4lFormat) (d : ResourceDescriptor)
    : HalResult unit :=
  if negb (vf_width actual =? cf_width requested) || negb (vf_height actual =? cf_height requested)
     || negb (bool_decide (vf_fourcc actual = fourcc (cf_pixel_format requested)))
     || (MAX_CAMERA_FRAME_BYTES <? default usize_max (try_from usize_max (vf_size actual)))
  then Err (format_unsupported "camera.open" d)
  else match cf_pixel_format requested with
  | CamNv12 =>
      if vf_stride actual <? cf_width requested then Err (format_unsupported "camera.open" d) else Ok ()
  | CamYuyv =>
      ok_or (format_unsupported "camera.open" d) (checked_mul u32_max (cf_width requested) 2)
        ≫= λ minimum,
      if vf_stride actual <? minimum then Err (format_unsupported "camera.open" d) else Ok ()
  | CamMjpeg => if vf_size actual =? 0 then Err (format_unsupported "camera.open" d) else Ok ()
  end.

(** [height.div_ceil(2)]. *)
Definition div_ceil_2 (height : Z) : Z := (height + 1) `div` 2.
Definition validate_payload_layout (format : CameraFormat) (stride native used : Z)
    (d : ResourceDescriptor) : HalResult unit :=
  let width := cf_width format in
  let height := cf_height format in
  match cf_pixel_format format with
  | CamNv12 =>
      ok_or (v4_invalid "camera.capture" "NV12 layout arithmetic overflows")
        (checked_mul usize_max stride height ≫= λ y,
         checked_mul usize_max stride (div_ceil_2 height) ≫= λ uv, checked_add usize_max y uv)
        ≫= λ minimum,
      if (stride <? width) || (used <? minimum) || (native <? minimum) then
        Err (v4_named d (v4_invalid "camera.capture" "V4L2 NV12 payload is shorter than its format"))
      else Ok ()
  | CamYuyv =>
      ok_or (v4_invalid "camera.capture" "YUYV stride overflows") (checked_mul usize_max width 2)
        ≫= λ minimum_stride,
      ok_or (v4_invalid "camera.capture" "YUYV layout arithmetic overflows")
        (checked_mul usize_max stride height) ≫= λ minimum,
      if (stride <? minimum_stride) || (used <? minimum) || (native <? minimum) then
        Err (v4_named d (v4_invalid "camera.capture" "V4L2 YUYV payload is shorter than its format"))
      else Ok ()
  | CamMjpeg => Ok ()
  end.
Definition plane_layout (format : CameraFormat) (stride payload_length : Z) (d : ResourceDescriptor)
    : HalResult (list CameraPlaneLayout) :=
  let height := cf_height format in
  match cf_pixel_format format with
  | CamNv12 =>
      ok_or (v4_invalid "camera.capture" "V4L2 NV12 Y layout overflows")
        (checked_mul usize_max stride height) ≫= λ y_length,
      ok_or (v4_invalid "camera.capture" "V4L2 NV12 UV layout overflows")
        (checked_mul usize_max stride (div_ceil_2 height)) ≫= λ uv_length,
      ok_or (v4_invalid "camera.capture" "V4L2 NV12 layout overflows")
        (checked_add usize_max y_length uv_length) ≫= λ end_,
      if payload_length <? end_ then
        Err (v4_named d (v4_invalid "camera.capture" "V4L2 NV12 planes exceed payload"))
      else
        CameraPlaneLayout_new 0 y_length stride ≫= λ y,
        CameraPlaneLayout_new y_length uv_length stride ≫= λ uv, Ok [y; uv]
  | CamYuyv | CamMjpeg => CameraPlaneLayout_new 0 payload_length stride ≫= λ p, Ok [p]
  end.
(** [capture_one] once the stream has given a buffer, [elapsed] nanoseconds after the start. *)
Definition frame_of_buffer (format : CameraFormat) (stride : Z) (d : ResourceDescriptor)
    (sequence elapsed : Z) (native : Bytes) (metadata : V4lMetadata) : HalResult CameraFrame :=
  if vm_error metadata then
    Err (v4_named d (v4_platform_error "camera.capture" "V4L2 returned a corrupt frame"))
  else
    ok_or (v4_invalid "camera.capture" "V4L2 bytesused does not fit usize")
      (try_from usize_max (vm_bytesused metadata)) ≫= λ used,
    CameraFormat_worst_case_frame_bytes format ≫= λ worst,
    ok_or (v4_invalid "camera.capture" "camera frame maximum does not fit usize")
      (try_from usize_max worst) ≫= λ expected_maximum,
    if (used =? 0) || (len native <? used) || (expected_maximum <? used)
       || (MAX_CAMERA_FRAME_BYTES <? used)
    then Err (v4_named d (v4_invalid "camera.capture"
                "V4L2 frame payload exceeds negotiated or mapped bounds"))
    else
      validate_payload_layout format stride (len native) used d ≫= λ _,
      plane_layout format stride used d ≫= λ planes,
      CameraFrameMetadata_new format planes sequence (Z.min u64_max elapsed) V4L2_CLOCK_DOMAIN 0
        ≫= λ frame_metadata,
      map_err (v4_named d) (CameraFrame_new frame_metadata (take (Z.to_nat used) native)).

(** ** Discovery *)
Definition is_video_endpoint (name : option string) : bool :=
  match name ≫= strip_prefix "video" with
  | Some digits => str_all is_ascii_digit digits
  | None => false
  end.
Section machine.
Context {W : Type} `{V4l2Os W}.
Notation machine := (native W HalError) (only parsing).

(** The 16 levels of [identity_evidence]: the directory itself and its parents, as far as
    there are any ([PathBuf::pop]). *)
Fixpoint serial_evidence (levels : nat) (current : SysPath) (w : W) : W * option IdentityEvidence :=
  match levels with
  | O => (w, None)
  | S levels =>
      let '(w, serial) := v4_serial current w in
      let found :=
        match serial with
        | Ok value => identity_from_serial_or_sysfs_path (str_trim value) (syspath_text current)
        | Err _ => None
        end in
      match found, current with
      | Some evidence, _ => (w, Some evidence)
      | None, [] => (w, None)
      | None, _ => serial_evidence levels (removelast current) w
      end
  end.
Definition serial_lookup (current : SysPath) : machine (option IdentityEvidence) := λ w,
  let '(w, evidence) := serial_evidence 16 current w in (w, Ok evidence).
Definition identity_evidence (name : option string) : machine IdentityEvidence :=
  native_lift (ok_or (v4_invalid "camera.identity" "V4L2 endpoint has no UTF-8 filename") name)
    ≫= λ name,
  native_map_err (v4_platform_error "camera.identity") (v4_canonical name) ≫= λ current,
  serial_lookup current ≫= λ found,
  match found with
  | Some evidence => mret evidence
  | None =>
      native_map_err (v4_platform_error "camera.identity") (v4_canonical name) ≫= λ canonical,
      native_lift
        (ok_or (v4_invalid "camera.identity" "V4L2 sysfs device path must not be empty")
           (identity_from_serial_or_sysfs_path "" (syspath_text canonical)))
  end.
Definition v4_properties (endpoint : string) (caps : V4lCapabilities) (evidence : IdentityEvidence)
    : gmap string string :=
  <["camera.identity_source" := ie_source evidence]>
  (<["camera.identity_evidence" := ie_value evidence]>
  (<["camera.bus" := vc_bus caps]>
  (<["camera.card" := vc_card caps]>
  (<["camera.driver" := vc_driver caps]>
  (<["endpoint" := endpoint]> (<["adapter" := "v4l2"]> ∅)))))).
Definition v4_descriptor_from_path (path : option string * string) : machine (option ResourceDescriptor) :=
  let '(name, endpoint) := path in
  native_map_err (v4_platform_error "camera.enumerate") (v4_query_caps endpoint) ≫= λ caps,
  if negb (vc_video_capture caps) || negb (vc_streaming caps) then mret None
  else
    identity_evidence name ≫= λ evidence,
    native_lift
      (encode_resource_id (ie_value evidence) ≫= λ id,
       Endpoint_new endpoint ≫= λ endpoint',
       Ok (Some (mkResourceDescriptor id endpoint' (ie_quality evidence) Camera
                   (mkResourceProperties (v4_properties endpoint caps evidence))
                   (mkCapabilitySet [camera_capture_capability; camera_frames_shm_capability])))).
Fixpoint v4_descriptors (paths : list (option string * string)) : machine (list ResourceDescriptor) :=
  match paths with
  | [] => mret []
  | path :: paths =>
      v4_descriptor_from_path path ≫= λ d, v4_descriptors paths ≫= λ ds, mret (option_list d ++ ds)
  end.
Definition v4_enumerate_sync : machine (list ResourceDescriptor) :=
  native_map_err (v4_platform_error "camera.enumerate") v4_read_dev ≫= λ entries,
  v4_descriptors (List.filter (λ path, is_video_endpoint path.1) (omap id entries)).
Definition v4_blocking {A} (operation : string) (task : machine A) : machine A := λ w,
  match v4_task_failed w with
  | (w, Some error) => (w, Err (v4_task_failed_error operation error))
  | (w, None) => task w
  end.
Definition V4l2Adapter_enumerate : machine (list ResourceDescriptor) :=
  v4_blocking "camera.enumerate" v4_enumerate_sync.

(** ** The capturing thread *)

(** What the thread does before it reports that it is ready, with the stride. *)
Definition capture_worker_setup (format : CameraFormat) (d : ResourceDescriptor) : machine Z :=
  native_map_err (v4_platform_error "camera.open") (v4_device_open (Endpoint_as_str (desc_endpoint d)))
    ≫= λ _,
  native_map_err (v4_platform_error "camera.open")
    (v4_set_format (cf_width format) (cf_height format) (fourcc (cf_pixel_format format)))
    ≫= λ actual,
  native_lift (ensure_exact_format format actual d) ≫= λ _,
  native_lift (ok_or (v4_invalid "camera.open" "V4L2 stride does not fit usize")
                 (try_from usize_max (vf_stride actual))) ≫= λ stride,
  native_map_err (v4_platform_error "camera.open") (v4_with_buffers V4L2_BUFFER_COUNT) ≫= λ _,
  mret stride.
(** [open_sync] up to the claim, with [request.format().validate()]. *)
Definition v4_resolve (selector : ResourceSelector) (format : CameraFormat) : machine ResourceDescriptor :=
  native_lift (CameraFormat_validate format) ≫= λ _,
  v4_enumerate_sync ≫= λ descriptors,
  native_lift (resolve_resource descriptors selector camera_capture_capability "camera.open").

(** wait.rs; [None] when the fuel does not suffice. *)
Inductive WaitResult (T : Type) := WaitReady (value : T) | WaitTimedOut | WaitShutdown.
Arguments WaitReady {T}.
Arguments WaitTimedOut {T}.
Arguments WaitShutdown {T}.
Fixpoint bounded_wait {T E} (fuel : nat) (deadline maximum_wait : Z) (wait_once : Z → native W E T)
    (is_timeout : E → bool) (w : W) : option (W * result E (WaitResult T)) :=
  match fuel with
  | O => None
  | S fuel =>
      let '(w, shutdown) := v4_shutdown w in
      if shutdown then Some (w, Ok WaitShutdown)
      else
        let '(w, now) := v4_now w in
        let remaining := Z.max 0 (deadline - now) in
        if remaining =? 0 then Some (w, Ok WaitTimedOut)
        else match wait_once (Z.min remaining maximum_wait) w with
        | (w, Ok value) => Some (w, Ok (WaitReady value))
        | (w, Err error) =>
            if is_timeout error then
              bounded_wait fuel deadline maximum_wait wait_once is_timeout w
            else Some (w, Err error)
        end
  end.

(** [started.elapsed()]; read when the layout is known, which no call can tell. *)
Definition v4_elapsed (started : Z) : machine Z := λ w, let '(w, now) := v4_now w in (w, Ok (now - started)).
Definition capture_one (format : CameraFormat) (stride : Z) (d : ResourceDescriptor)
    (sequence started : Z) : machine CameraFrame :=
  native_map_err
    (λ error, if bool_decide (kind error = KindTimedOut) then v4_timeout_error "camera.capture" d
              else v4_named d (v4_platform_error "camera.capture" (os_message error)))
    v4_next ≫= λ '(native, metadata),
  v4_elapsed started ≫= λ elapsed,
  native_lift (frame_of_buffer format stride d sequence elapsed native metadata).
Definition is_timeout_error (e : HalError) : bool :=
  bool_decide (err_name e = mkErrorName "runtime.transport.timeout").
(** A wait of the capture: after a timeout the stream is stopped, to be started again by the
    next one. *)
Definition capture_wait (format : CameraFormat) (stride : Z) (d : ResourceDescriptor)
    (sequence started wait_for : Z) : machine CameraFrame := λ w,
  match capture_one format stride d sequence started (v4_set_timeout wait_for w) with
  | (w, Err error) =>
      if is_timeout_error error then
        match v4_stop w with
        | (w, Err stop) => (w, Err (v4_named d (v4_platform_error "camera.capture" (os_message stop))))
        | (w, Ok _) => (w, Err error)
        end
      else (w, Err error)
  | r => r
  end.
(** A [Command::Capture]: the next sequence number and the response, or the end of the loop. *)
Definition capture_command (fuel : nat) (format : CameraFormat) (stride : Z) (d : ResourceDescriptor)
    (sequence started deadline : Z) (w : W) : option (W * option (Z * HalResult CameraFrame)) :=
  match bounded_wait fuel deadline V4L2_WAIT_QUANTUM (capture_wait format stride d sequence started)
          is_timeout_error w with
  | None => None
  | Some (w, Ok (WaitReady frame)) => Some (w, Some (Z.min u64_max (sequence + 1), Ok frame))
  | Some (w, Ok WaitTimedOut) => Some (w, Some (sequence, Err (v4_timeout_error "camera.capture" d)))
  | Some (w, Ok WaitShutdown) => Some (w, None)
  | Some (w, Err error) => Some (w, Some (sequence, Err error))
  end.
End machine.
Global Arguments WaitReady {T}.
Global Arguments WaitTimedOut {T}.
Global Arguments WaitShutdown {T}.

(** ** Sessions *)
Record V4l2Session := mkV4l2Session {
  v4s_worker : bool;
  v4s_claim_quarantined : bool;
  v4s_closed : bool;
}.
(** What [try_send] answers, and what becomes of the response. *)
Inductive SendOutcome := SendAccepted | SendFull | SendDisconnected.
Inductive ResponseOutcome := ResponseElapsed | ResponseDropped | ResponseIs (r : HalResult CameraFrame).
Definition V4l2Session_capture (s : V4l2Session) (d : ResourceDescriptor) (send : SendOutcome)
    (response : ResponseOutcome) : HalResult CameraFrame :=
  v4_ensure_open (v4s_closed s) "camera.capture" d ≫= λ _,
  match send with
  | SendFull | SendDisconnected => Err (v4_closed "camera.capture" d)
  | SendAccepted =>
      match response with
      | ResponseElapsed => Err (v4_timeout_error "camera.capture" d)
      | ResponseDropped => Err (v4_closed "camera.capture" d)
      | ResponseIs r => r
      end
  end.
(** [controls], [get_control], [set_control] and [set_auto]. *)
Definition V4l2Session_control (s : V4l2Session) (d : ResourceDescriptor) (operation : string)
    : HalResult unit :=
  v4_ensure_open (v4s_closed s) operation d ≫= λ _, Err (control_unsupported operation d).
(** How long [close] saw of its reaper. *)
Inductive ReapOutcome := ReapExited | ReapPanicked | ReapTaskFailed (error : string) | ReapTimedOut.
Definition close_result (d : ResourceDescriptor) (outcome : ReapOutcome) : HalResult unit :=
  match outcome with
  | ReapExited => Ok ()
  | ReapPanicked => Err (v4_platform_error "camera.close" "V4L2 capture worker panicked")
  | ReapTaskFailed error => Err (v4_worker_failed "camera.close" error)
  | ReapTimedOut => Err (v4_close_timeout_error d)
  end.

(** ** Claims

    The claims of an adapter, and what was made of each call of [open_sync] that claimed a
    camera: whether its thread is being started, runs or has exited ([HoldsWorker true]), or is gone, its
    session unless dropped, and whether a task waits to join the thread. *)
Inductive Holding := HoldsOpening | HoldsWorker (exited : bool) | HoldsNothing.
Record V4Entry := mkV4Entry {
  ve_resource : ResourceId;
  ve_holds : Holding;
  ve_session : option V4l2Session;
  ve_reaper : bool;
}.
Record V4System := mkV4System {
  v4_claims : gset ResourceId;
  v4_entries : gmap nat V4Entry;
}.
(** Steps: the claim of an open and the outcome of starting its thread, [close] up to its
    wait, [Drop], the exit of a thread, and the task that has joined it. *)
Inductive V4Move :=
  | V4Claim (n : nat) (resource : ResourceId)
  | V4Started (n : nat)
  | V4StartFailed (n : nat)
  | V4Close (n : nat)
  | V4Drop (n : nat)
  | V4WorkerExits (n : nat)
  | V4Reaped (n : nat).
Definition v4_init : V4System := mkV4System ∅ ∅.
Definition v4_put_entry (s : V4System) (n : nat) (e : V4Entry) : V4System :=
  mkV4System (v4_claims s) (<[n := e]> (v4_entries s)).
Definition unclaim (s : V4System) (resource : ResourceId) : V4System :=
  mkV4System (v4_claims s ∖ {[resource]}) (v4_entries s).
(** [V4l2Session::close] on an open session, and [drop]. *)
Definition V4l2Session_close (s : V4System) (n : nat) (e : V4Entry) (session : V4l2Session) : V4System :=
  if v4s_closed session then s
  else if v4s_worker session then
    v4_put_entry s n (mkV4Entry (ve_resource e) (ve_holds e) (Some (mkV4l2Session false true true)) true)
  else
    unclaim (v4_put_entry s n (mkV4Entry (ve_resource e) (ve_holds e)
               (Some (mkV4l2Session false (v4s_claim_quarantined session) true)) (ve_reaper e)))
      (ve_resource e).
Definition V4l2Session_drop (s : V4System) (n : nat) (e : V4Entry) (session : V4l2Session) : V4System :=
  if v4s_worker session then v4_put_entry s n (mkV4Entry (ve_resource e) (ve_holds e) None true)
  else
    let s := v4_put_entry s n (mkV4Entry (ve_resource e) (ve_holds e) None (ve_reaper e)) in
    if v4s_claim_quarantined session then s else unclaim s (ve_resource e).
Definition v4_move (s : V4System) (m : V4Move) : option V4System :=
  match m with
  | V4Claim n resource =>
      if is_some (v4_entries s !! n) || bool_decide (resource ∈ v4_claims s) then None
      else Some (mkV4System ({[resource]} ∪ v4_claims s)
                   (<[n := mkV4Entry resource HoldsOpening None false]> (v4_entries s)))
  | V4Started n =>
      e ← v4_entries s !! n;
      match ve_holds e with
      | HoldsOpening =>
          Some (v4_put_entry s n (mkV4Entry (ve_resource e) (HoldsWorker false)
                  (Some (mkV4l2Session true false false)) false))
      | _ => None
      end
  | V4StartFailed n =>
      e ← v4_entries s !! n;
      match ve_holds e with
      | HoldsOpening =>
          Some (unclaim (v4_put_entry s n (mkV4Entry (ve_resource e) HoldsNothing None false)) (ve_resource e))
      | _ => None
      end
  | V4Close n => e ← v4_entries s !! n; session ← ve_session e; Some (V4l2Session_close s n e session)
  | V4Drop n => e ← v4_entries s !! n; session ← ve_session e; Some (V4l2Session_drop s n e session)
  | V4WorkerExits n =>
      e ← v4_entries s !! n;
      match ve_holds e with
      | HoldsWorker false =>
          Some (v4_put_entry s n (mkV4Entry (ve_resource e) (HoldsWorker true) (ve_session e) (ve_reaper e)))
      | _ => None
      end
  | V4Reaped n =>
      e ← v4_entries s !! n;
      match ve_holds e, ve_reaper e with
      | HoldsWorker true, true =>
          Some (unclaim (v4_put_entry s n (mkV4Entry (ve_resource e) HoldsNothing (ve_session e) false))
                  (ve_resource e))
      | _, _ => None
      end
  end.
Fixpoint v4_run (s : V4System) (moves : list V4Move) : option V4System :=
  match moves with
  | [] => Some s
  | m :: moves => s ← v4_move s m; v4_run s moves
  end.
