(* ===== verification/V4l2Spec.v ===== *)
(** * adapters/v4l2: theorems

    Which buffers become frames; which formats are opened although no buffer ever does; the
    bounded wait ends by its deadline; one thread at a time serves a camera. *)

From S2P Require Import Prelude Core Native SerialRegistry CanTypes CameraTypes CameraWorker V4l2.
From stdpp Require Import sorting.
From Stdlib Require Import Ascii.
Open Scope Z_scope.

(** ** Frames *)
Lemma plane_new offset length stride :
  0 < length → 0 < stride → offset + length <= usize_max →
  CameraPlaneLayout_new offset length stride = Ok (mkCameraPlaneLayout offset length stride).
Proof.
  intros ???. unfold CameraPlaneLayout_new. rewrite !(proj2 (Z.eqb_neq _ _)) by lia. simpl.
  unfold checked_add. by rewrite (proj2 (Z.leb_le _ _)).
Qed.
Lemma plane_new_zero offset length : is_ok (CameraPlaneLayout_new offset length 0) = false.
Proof. unfold CameraPlaneLayout_new. rewrite orb_true_r. by destruct (HalError_new _ _ _ _ _). Qed.

Lemma sort_one a : sort_ranges [a] = [a].
Proof. apply Permutation_singleton_r. unfold sort_ranges. by rewrite merge_sort_Permutation. Qed.
Lemma sort_two a b : a.1 < b.1 → sort_ranges [a; b] = [a; b].
Proof.
  intros Hlt. pose proof (merge_sort_Permutation range_le [a; b]) as Hp.
  assert (Sorted range_le (sort_ranges [a; b])) as Hs.
  { apply Sorted_merge_sort. intros ? ?. unfold range_le. lia. }
  unfold sort_ranges in *. revert Hp Hs. generalize (merge_sort range_le [a; b]). intros l Hp Hs.
  apply Permutation_sym, Permutation_length_2_inv in Hp as [->| ->]; [done|].
  apply Sorted_inv in Hs as [_ Hs]. inversion Hs as [|? ? Hle]; subst. unfold range_le in Hle. lia.
Qed.

(** The dimensions of a valid format. *)
Lemma valid_format f :
  0 <= cf_width f → 0 <= cf_height f → CameraFormat_validate f = Ok () →
  1 <= cf_width f <= 4096 ∧ 1 <= cf_height f <= 2160.
Proof.
  unfold CameraFormat_validate, MAX_CAMERA_WIDTH, MAX_CAMERA_HEIGHT. intros ??.
  destruct (_ || _) eqn:Hb; [done|]. bool_simp. lia.
Qed.

(** The buffers that become frames. *)
Definition capturable (f : CameraFormat) (stride used : Z) : bool :=
  let w := cf_width f in
  let h := cf_height f in
  match cf_pixel_format f with
  | CamNv12 => (stride =? w) && Z.even h && (used =? w * h + w * (h / 2))
  | CamYuyv => (stride =? 2 * w) && (used =? 2 * w * h)
  | CamMjpeg => (0 <? stride) && (0 <? used) && (used <=? MAX_CAMERA_FRAME_BYTES)
  end.
Definition capture_planes (f : CameraFormat) (stride used : Z) : list CameraPlaneLayout :=
  match cf_pixel_format f with
  | CamNv12 =>
      [mkCameraPlaneLayout 0 (stride * cf_height f) stride;
       mkCameraPlaneLayout (stride * cf_height f) (stride * (cf_height f / 2)) stride]
  | CamYuyv | CamMjpeg => [mkCameraPlaneLayout 0 used stride]
  end.
Definition captured (f : CameraFormat) (stride used sequence elapsed : Z) (native : Bytes) : CameraFrame :=
  mkCameraFrame
    (mkCameraFrameMetadata f (capture_planes f stride used) sequence (Z.min u64_max elapsed) V4L2_CLOCK_DOMAIN 0)
    (take (Z.to_nat used) native).

Lemma metadata_new f planes sequence timestamp :
  CameraFormat_validate f = Ok () → planes ≠ [] → validate_plane_layouts f planes = Ok () →
  CameraFrameMetadata_new f planes sequence timestamp V4L2_CLOCK_DOMAIN 0
  = Ok (mkCameraFrameMetadata f planes sequence timestamp V4L2_CLOCK_DOMAIN 0).
Proof.
  intros Hv Hne Hp. unfold CameraFrameMetadata_new. rewrite Hv. simpl.
  destruct planes; [done|]. by rewrite Hp.
Qed.
Lemma frame_new metadata payload :
  Z.of_nat (length payload) <= MAX_CAMERA_FRAME_BYTES →
  Forall (λ p, (plane_range p).2 <= Z.of_nat (length payload)) (fm_planes metadata) →
  validate_plane_layouts (fm_format metadata) (fm_planes metadata) = Ok () →
  CameraFrame_new metadata payload = Ok (mkCameraFrame metadata payload).
Proof.
  intros Hmax Hin Hv. unfold CameraFrame_new, validate_plane_layouts_against_payload.
  assert (existsb (plane_escapes (Z.of_nat (length payload))) (fm_planes metadata) = false) as ->.
  { apply not_true_is_false. intros (p & Hp%list_elem_of_In & He)%existsb_exists.
    rewrite Forall_forall in Hin. apply Hin in Hp. unfold plane_escapes, checked_add, plane_range in *.
    unfold MAX_CAMERA_FRAME_BYTES, usize_max in *. cbn [snd] in Hp.
    destruct (_ <=? _) eqn:Hle in He; cbn [is_none_or] in He; bool_simp.
    all: unfold u64_max in *; lia. }
  rewrite (proj2 (Z.ltb_ge _ _)) by done. simpl. by rewrite Hv.
Qed.
Lemma checked_mul_le max a b : a * b <= max → checked_mul max a b = Some (a * b).
Proof. intros. by apply checked_mul_Some. Qed.
Lemma checked_add_le max a b : a + b <= max → checked_add max a b = Some (a + b).
Proof. intros. by apply checked_add_Some. Qed.
Ltac in_usize := unfold usize_max, u64_max in *; nia.
(** Products of dimensions stay far below the width of [usize]. *)
Ltac checked :=
  repeat (match goal with
    | |- context [checked_mul ?m ?a ?b] => rewrite (checked_mul_le m a b) by in_usize
    | |- context [checked_add ?m ?a ?b] => rewrite (checked_add_le m a b) by in_usize
    | |- context [?a <? ?b] => rewrite (proj2 (Z.ltb_ge a b)) by nia
    end; cbn [ok_or mbind result_bind fmap option_fmap option_map option_bind fst snd cp_offset cp_length cp_stride orb collect]).
Lemma layouts_yuyv f stride used :
  cf_pixel_format f = CamYuyv → 1 <= cf_width f <= 4096 → 1 <= cf_height f <= 2160 →
  stride = 2 * cf_width f → used = 2 * cf_width f * cf_height f →
  validate_plane_layouts f [mkCameraPlaneLayout 0 used stride] = Ok ().
Proof.
  intros Hf ?? -> ->. unfold validate_plane_layouts, plane_size. rewrite Hf. simpl.
  checked.
  by rewrite sort_one.
Qed.
Lemma layouts_mjpeg f stride used :
  cf_pixel_format f = CamMjpeg → used <= usize_max →
  validate_plane_layouts f [mkCameraPlaneLayout 0 used stride] = Ok ().
Proof.
  intros Hf ?. unfold validate_plane_layouts. rewrite Hf. simpl.
  checked. by rewrite sort_one.
Qed.
Lemma layouts_nv12 f stride y uv :
  cf_pixel_format f = CamNv12 → 1 <= cf_width f <= 4096 → 1 <= cf_height f <= 2160 →
  stride = cf_width f → y = stride * cf_height f → uv = stride * ((cf_height f + 1) `div` 2) →
  validate_plane_layouts f [mkCameraPlaneLayout 0 y stride; mkCameraPlaneLayout y uv stride] = Ok ().
Proof.
  intros Hf Hw Hh -> -> ->.
  assert (0 <= (cf_height f + 1) `div` 2 <= 2160) as Hd
    by (split; [apply Z.div_pos|apply Z.div_le_upper_bound]; lia).
  unfold validate_plane_layouts, plane_size. rewrite Hf. simpl. checked.
  rewrite sort_two by (simpl; nia). simpl. by rewrite Z.ltb_irrefl.
Qed.

Definition worst_case (f : CameraFormat) : Z :=
  match cf_pixel_format f with
  | CamNv12 => cf_width f * cf_height f * 3 / 2
  | CamYuyv => cf_width f * cf_height f * 2
  | CamMjpeg => MAX_CAMERA_FRAME_BYTES
  end.
Lemma worst_case_spec f :
  1 <= cf_width f <= 4096 → 1 <= cf_height f <= 2160 →
  CameraFormat_worst_case_frame_bytes f = Ok (worst_case f).
Proof.
  intros ??. unfold CameraFormat_worst_case_frame_bytes, worst_case. checked.
  destruct (cf_pixel_format f); checked; done.
Qed.
Lemma worst_case_bounded f :
  1 <= cf_width f <= 4096 → 1 <= cf_height f <= 2160 → CameraFormat_validate f = Ok () →
  0 <= worst_case f <= MAX_CAMERA_FRAME_BYTES.
Proof.
  intros Hw Hh. unfold CameraFormat_validate. rewrite worst_case_spec by done.
  destruct (_ || _); [done|]. cbn [mbind result_bind]. destruct (_ <? _) eqn:Hb; [done|]. bool_simp.
  intros _. split; [|done]. unfold worst_case. destruct (cf_pixel_format f); [|nia|done].
  apply Z.div_pos; nia.
Qed.
Lemma div_ceil_even h : Z.even h = true → div_ceil_2 h = h / 2.
Proof.
  intros (k & ->)%Z.even_spec. unfold div_ceil_2.
  rewrite (Z.mul_comm 2 k), Z.div_mul, Z.add_comm, Z.div_add by done. done.
Qed.
(** Capturable buffers fit the bounds that [capture_one] checks. *)
Lemma capturable_bounds f stride used :
  1 <= cf_width f <= 4096 → 1 <= cf_height f <= 2160 → CameraFormat_validate f = Ok () →
  capturable f stride used = true →
  0 < used <= worst_case f ∧ 0 < stride ∧
  match cf_pixel_format f with
  | CamNv12 => stride = cf_width f ∧ Z.even (cf_height f) = true ∧
               used = stride * cf_height f + stride * div_ceil_2 (cf_height f)
  | CamYuyv => stride = 2 * cf_width f ∧ used = stride * cf_height f
  | CamMjpeg => True
  end.
Proof.
  intros Hw Hh Hv. unfold capturable, worst_case.
  destruct (cf_pixel_format f); intros Hc; repeat (apply andb_prop in Hc as [Hc ?]); bool_simp;
    [|nia|lia].
  rewrite div_ceil_even by done.
  match goal with He : Z.even _ = true |- _ => pose proof (proj1 (Z.even_spec _) He) as (k & Hk) end.
  rewrite Hk in *. rewrite (Z.mul_comm 2 k), Z.div_mul in * by done.
  assert (cf_width f * (k * 2) * 3 / 2 = cf_width f * k * 3) as ->
    by (replace (cf_width f * (k * 2) * 3) with (cf_width f * k * 3 * 2) by lia; by rewrite Z.div_mul).
  split_and!; try done; nia.
Qed.
Lemma div_ceil_bounds h : 1 <= h <= 2160 → 1 <= div_ceil_2 h <= 1080.
Proof.
  unfold div_ceil_2. intros Hh. pose proof (Z.div_mod (h + 1) 2). pose proof (Z.mod_pos_bound (h + 1) 2).
  lia.
Qed.
Lemma payload_layout_capturable f stride used native d :
  1 <= cf_width f <= 4096 → 1 <= cf_height f <= 2160 → CameraFormat_validate f = Ok () →
  capturable f stride used = true → used <= native →
  validate_payload_layout f stride native used d = Ok () ∧
  plane_layout f stride used d = Ok (capture_planes f stride used) ∧
  validate_plane_layouts f (capture_planes f stride used) = Ok () ∧
  Forall (λ p, (plane_range p).2 <= used) (capture_planes f stride used).
Proof.
  intros Hw Hh Hv Hc Hn. destruct (capturable_bounds f stride _ Hw Hh Hv Hc) as ([Hpos Hle] & Hs & Hf).
  pose proof (worst_case_bounded f Hw Hh Hv) as [_ Hmax]. pose proof (div_ceil_bounds _ Hh) as Hd.
  unfold MAX_CAMERA_FRAME_BYTES in *.
  unfold validate_payload_layout, plane_layout, capture_planes. destruct (cf_pixel_format f) eqn:Ef.
  - destruct Hf as (-> & He & ->). rewrite <- (div_ceil_even _ He). split_and!.
    + by checked.
    + checked. rewrite !plane_new by in_usize. done.
    + by apply layouts_nv12.
    + unfold plane_range. repeat constructor; simpl; nia.
  - destruct Hf as (-> & ->). split_and!.
    + by checked.
    + by rewrite plane_new by in_usize.
    + apply layouts_yuyv; done || lia.
    + unfold plane_range. repeat constructor; simpl; nia.
  - split_and!; [done|by rewrite plane_new by in_usize|apply layouts_mjpeg; done || in_usize|].
    unfold plane_range. repeat constructor; simpl; lia.
Qed.
Lemma try_from_small x : x <= MAX_CAMERA_FRAME_BYTES → try_from usize_max x = Some x.
Proof.
  intros Hx. unfold try_from. rewrite (proj2 (Z.leb_le _ _)); [done|].
  unfold usize_max, u64_max, MAX_CAMERA_FRAME_BYTES in *. lia.
Qed.
Lemma frame_captured f stride d sequence elapsed native metadata :
  1 <= cf_width f <= 4096 → 1 <= cf_height f <= 2160 → CameraFormat_validate f = Ok () →
  vm_error metadata = false → vm_bytesused metadata <= len native →
  capturable f stride (vm_bytesused metadata) = true →
  frame_of_buffer f stride d sequence elapsed native metadata
  = Ok (captured f stride (vm_bytesused metadata) sequence elapsed native).
Proof.
  intros Hw Hh Hv He Hn Hc. destruct (capturable_bounds f stride _ Hw Hh Hv Hc) as ([Hpos Hle] & Hs & _).
  pose proof (worst_case_bounded f Hw Hh Hv) as [_ Hmax].
  set (used := vm_bytesused metadata) in *.
  unfold frame_of_buffer. rewrite He. fold used. rewrite (try_from_small used) by lia.
  cbn [ok_or mbind result_bind]. rewrite worst_case_spec by done. cbn [mbind result_bind].
  rewrite (try_from_small (worst_case f)) by done. cbn [ok_or mbind result_bind].
  rewrite (proj2 (Z.eqb_neq _ _)) by lia. rewrite !(proj2 (Z.ltb_ge _ _)) by lia. cbn [orb].
  destruct (payload_layout_capturable f stride used (len native) d Hw Hh Hv Hc Hn) as (-> & -> & Hpl & Hin).
  cbn [mbind result_bind]. rewrite metadata_new; [|done| |done].
  2:{ unfold capture_planes. by destruct (cf_pixel_format f). }
  cbn [mbind result_bind].
  assert (Z.of_nat (length (take (Z.to_nat used) native)) = used) as Hlen
    by (rewrite length_take; unfold len in *; lia).
  rewrite frame_new; [done|by rewrite Hlen; lia|by rewrite Hlen|done].
Qed.
(** A payload between the least its stride allows and the most its format allows. *)
Lemma nv12_squeeze w h stride used :
  1 <= w → 1 <= h → w <= stride → stride * h + stride * div_ceil_2 h <= used → used <= w * h * 3 / 2 →
  stride = w ∧ Z.even h = true ∧ used = w * h + w * (h / 2).
Proof.
  intros Hw Hh Hs Hmin Hmax. unfold div_ceil_2 in Hmin.
  pose proof (Z.div_mod (h + 1) 2 ltac:(lia)) as Hc. pose proof (Z.mod_pos_bound (h + 1) 2 ltac:(lia)) as Hm.
  set (c := (h + 1) / 2) in *.
  assert (2 * used <= 3 * (w * h)) as Hu by (pose proof (Z.mul_div_le (w * h * 3) 2); lia).
  assert (h <= 2 * c) as Hhc by lia.
  assert (w * h <= stride * h) by nia. assert (stride * h <= stride * (2 * c)) by nia.
  assert (stride * h = w * h) as Heq by lia. apply Z.mul_reg_r in Heq as ->; [|lia].
  assert (w * (2 * c) = w * h) as Hceq by lia. apply Z.mul_reg_l in Hceq; [|lia].
  assert (h / 2 = c) as -> by (rewrite <- Hceq, Z.mul_comm; by apply Z.div_mul).
  split_and!; [done|rewrite <- Hceq; apply Z.even_spec; by exists c|lia].
Qed.
Lemma frame_refused f stride d sequence elapsed native metadata frame :
  1 <= cf_width f <= 4096 → 1 <= cf_height f <= 2160 → CameraFormat_validate f = Ok () →
  0 <= stride → 0 <= vm_bytesused metadata →
  frame_of_buffer f stride d sequence elapsed native metadata = Ok frame →
  vm_error metadata = false ∧ vm_bytesused metadata <= len native ∧
  capturable f stride (vm_bytesused metadata) = true.
Proof.
  intros Hw Hh Hv Hst Hu. unfold frame_of_buffer. destruct (vm_error metadata); [done|].
  set (used := vm_bytesused metadata) in *. intros E.
  apply bind_Ok in E as (used' & Ht & E). apply ok_or_Ok in Ht. unfold try_from in Ht.
  destruct (_ <=? _) in Ht; [|done]. injection Ht as <-.
  rewrite worst_case_spec in E by done. cbn [mbind result_bind] in E.
  apply bind_Ok in E as (worst & Ht & E). apply ok_or_Ok in Ht. unfold try_from in Ht.
  destruct (_ <=? _) in Ht; [|done]. injection Ht as <-.
  destruct (_ || _) eqn:Hb in E; [done|]. bool_simp.
  split; [done|]. split; [done|].
  apply bind_Ok in E as ([] & Hpl & E). apply bind_Ok in E as (planes & Hp & _).
  unfold validate_payload_layout, plane_layout, capturable, worst_case in *.
  destruct (cf_pixel_format f).
  - apply bind_Ok in Hpl as (minimum & Hm%ok_or_Ok & Hpl).
    apply bind_Some in Hm as (y & [-> _]%checked_mul_Some & Hm).
    apply bind_Some in Hm as (uv & [-> _]%checked_mul_Some & [-> _]%checked_add_Some).
    destruct (_ || _) eqn:Hb in Hpl; [done|]. bool_simp.
    destruct (nv12_squeeze (cf_width f) (cf_height f) stride used) as (-> & -> & ->); [lia..|].
    by rewrite !Z.eqb_refl.
  - apply bind_Ok in Hpl as (minimum_stride & [-> _]%ok_or_Ok%checked_mul_Some & Hpl).
    apply bind_Ok in Hpl as (minimum & [-> _]%ok_or_Ok%checked_mul_Some & Hpl).
    destruct (_ || _) eqn:Hb in Hpl; [done|]. bool_simp. apply andb_true_intro. rewrite !Z.eqb_eq. nia.
  - apply bind_Ok in Hp as (p & Hp & _). bool_simp.
    assert (0 < stride) by (destruct (decide (stride = 0)) as [->|];
      [pose proof (plane_new_zero 0 used) as Hz; by rewrite Hp in Hz|lia]).
    rewrite !(proj2 (Z.ltb_lt _ _)) by lia. by rewrite (proj2 (Z.leb_le _ _)) by done.
Qed.

(** C25: A buffer becomes a frame exactly when it has the layout that its format prescribes.  For a
    valid format, capturing succeeds iff the driver reports no error, the payload lies within
    the mapped buffer, and it is capturable: NV12 with the width for its stride, an even
    height and exactly its three halves of a byte per pixel; YUYV with two bytes per pixel
    and no padding; MJPEG with any payload up to the frame bound, and a stride that is not
    zero.  The frame then is these bytes, unchanged, with the planes of the format. *)
Theorem v4l2_capture_exact f stride d sequence elapsed native metadata :
  0 <= cf_width f → 0 <= cf_height f → CameraFormat_validate f = Ok () →
  0 <= stride → 0 <= vm_bytesused metadata →
  is_ok (frame_of_buffer f stride d sequence elapsed native metadata)
    = negb (vm_error metadata) && (vm_bytesused metadata <=? len native)
      && capturable f stride (vm_bytesused metadata) ∧
  ∀ frame, frame_of_buffer f stride d sequence elapsed native metadata = Ok frame →
    frame = captured f stride (vm_bytesused metadata) sequence elapsed native.
Proof.
  intros Hw0 Hh0 Hv Hs Hu. destruct (valid_format f Hw0 Hh0 Hv) as [Hw Hh].
  destruct (frame_of_buffer f stride d sequence elapsed native metadata) as [frame|e] eqn:E.
  - destruct (frame_refused _ _ _ _ _ _ _ _ Hw Hh Hv Hs Hu E) as (He & Hn & Hc).
    rewrite He, Hc, (proj2 (Z.leb_le _ _)) by done. split; [done|]. intros ? [= ->].
    rewrite frame_captured in E by done. by injection E as <-.
  - split; [|done]. symmetry. apply not_true_is_false. intros Ht.
    apply andb_prop in Ht as [Ht Hc]. apply andb_prop in Ht as [He%negb_true_iff Hn%Z.leb_le].
    by rewrite frame_captured in E.
Qed.
Definition v4_example_descriptor : ResourceDescriptor :=
  mkResourceDescriptor (mkResourceId "camera:v4l2:serial%3AA1") (mkEndpoint "/dev/video0") Strong Camera
    (mkResourceProperties ∅) (mkCapabilitySet [camera_capture_capability]).
Lemma v4l2_capture_exact_witness :
  is_ok (frame_of_buffer (mkCameraFormat CamYuyv 2 1) 4 v4_example_descriptor 1 5 [1; 2; 3; 4; 0]
    (mkV4lMetadata 4 false)) = true.
Proof.
  destruct (v4l2_capture_exact (mkCameraFormat CamYuyv 2 1) 4 v4_example_descriptor 1 5 [1; 2; 3; 4; 0]
    (mkV4lMetadata 4 false)) as [E _]; [simpl; lia|simpl; lia|reflexivity|lia|simpl; lia|].
  rewrite E. reflexivity.
Defined.

(** Opening accepts formats that no buffer can satisfy: a padded stride, an NV12 format with
    an odd height, and MJPEG with the stride 0 that V4L2 prescribes for compressed formats.
    Every capture of such a session fails. *)
Lemma v4l2_opens_uncapturable :
  (∀ d, ensure_exact_format (mkCameraFormat CamMjpeg 640 480) (mkV4lFormat 640 480 "MJPG" 0 614400) d = Ok ()) ∧
  (∀ d, ensure_exact_format (mkCameraFormat CamYuyv 642 480) (mkV4lFormat 642 480 "YUYV" 1344 645120) d = Ok ()) ∧
  (∀ d, ensure_exact_format (mkCameraFormat CamNv12 640 481) (mkV4lFormat 640 481 "NV12" 640 462080) d = Ok ()) ∧
  ∀ used, capturable (mkCameraFormat CamMjpeg 640 480) 0 used = false ∧
    capturable (mkCameraFormat CamYuyv 642 480) 1344 used = false ∧
    capturable (mkCameraFormat CamNv12 640 481) 640 used = false.
Proof. split_and!; intros; by vm_compute. Qed.

(** A timeout is marked retryable, and the stream is stopped for the next capture, but the
    thread that owns the session takes it for the end of the camera. *)
Lemma v4l2_timeout_ends_session d :
  err_retryable (v4_timeout_error "camera.capture" d) = true ∧
  is_terminal (v4_timeout_error "camera.capture" d) = true.
Proof. by vm_compute. Qed.

(** ** Identifiers *)
Definition v4_unhex (c : ascii) : nat :=
  let n := nat_of_ascii c in if decide (n <= 57)%nat then n - 48 else n - 55.
Lemma v4_byte_decodes c :
  let byte := Z.of_nat (nat_of_ascii c) in
  ascii_of_nat (16 * v4_unhex (v4_hex (Z.shiftr byte 4)) + v4_unhex (v4_hex (Z.land byte 0x0f))) = c.
Proof. destruct c as [[][][][][][][][]]; reflexivity. Qed.
Lemma v4_encode_inj s t : v4_encode s = v4_encode t → s = t.
Proof.
  revert t. induction s as [|c s IH]; intros [|d t]; simpl; [done| | |].
  - unfold v4_encode_byte. by destruct (v4_unreserved d).
  - unfold v4_encode_byte. by destruct (v4_unreserved c).
  - unfold v4_encode_byte. destruct (v4_unreserved c) eqn:Hc, (v4_unreserved d) eqn:Hd; simpl; intros E.
    + injection E as -> E. by apply IH in E as ->.
    + injection E as -> _. done.
    + injection E as <- _. done.
    + injection E as E1 E2 E. apply IH in E as ->. f_equal.
      rewrite <- (v4_byte_decodes c), <- (v4_byte_decodes d). cbn zeta. by rewrite E1, E2.
Qed.
(** Cameras with different evidence have different identifiers, and a serial number is never
    taken for a path. *)
Lemma v4l2_identities_distinct evidence evidence' id :
  encode_resource_id evidence = Ok id → encode_resource_id evidence' = Ok id → evidence = evidence'.
Proof.
  unfold encode_resource_id. intros E E'.
  destruct (str_is_empty evidence); [by destruct (HalError_new _ _ _ _ _)|].
  destruct (str_is_empty evidence'); [by destruct (HalError_new _ _ _ _ _)|].
  apply v4_encode_inj. unfold ResourceId_parse in *.
  apply bind_Ok in E as (? & _ & [= <-]). apply bind_Ok in E' as (? & _ & [= E']). done.
Qed.
Lemma v4l2_serial_not_path serial path e :
  identity_from_serial_or_sysfs_path serial path = Some e →
  ie_value e = (if str_is_empty serial then "sysfs:" +:+ path else "serial:" +:+ serial).
Proof.
  unfold identity_from_serial_or_sysfs_path. destruct (str_is_empty serial); simpl; [|by intros [= <-]].
  destruct (str_is_empty path); [done|]. by intros [= <-].
Qed.

(** ** The bounded wait *)
Section wait.
Context {W T E : Type} `{V4l2Os W} (clock : W → Z) (wait_once : Z → native W E T) (is_timeout : E → bool).
(** What the code relies on: the clock does not run backwards, the time read is that of the
    clock, and a native wait takes time. *)
Class V4WaitLaws : Prop := {
  clock_shutdown w : clock w <= clock (v4_shutdown w).1;
  clock_now w : clock w <= clock (v4_now w).1 ∧ (v4_now w).2 = clock (v4_now w).1;
  clock_wait wait_for w : clock w + 1 <= clock (wait_once wait_for w).1;
}.
Context `{!V4WaitLaws}.
(** The wait of a capture ends by its deadline.  Whatever the stream answers, fuel for the time
    left suffices; the wait reports a timeout only once the deadline has passed; and a
    shutdown that is requested when it begins ends it before any native wait. *)
Lemma bounded_wait_returns fuel deadline maximum_wait w :
  Z.max 0 (deadline - clock w) < Z.of_nat fuel →
  ∃ w' r, bounded_wait fuel deadline maximum_wait wait_once is_timeout w = Some (w', r) ∧
    (r = Ok WaitTimedOut → deadline <= clock w') ∧
    ((v4_shutdown w).2 = true → r = Ok WaitShutdown ∧ w' = (v4_shutdown w).1).
Proof.
  revert w. induction fuel as [|fuel IH]; intros w Hf; [lia|]. simpl.
  pose proof (clock_shutdown w) as Hs. destruct (v4_shutdown w) as [w1 shutdown]. simpl in Hs |- *.
  destruct shutdown; [by eexists _, _|].
  pose proof (clock_now w1) as [Hn Hnow]. destruct (v4_now w1) as [w2 now]. simpl in Hn, Hnow. subst now.
  destruct (Z.max 0 (deadline - clock w2) =? 0) eqn:Hr; bool_simp.
  { eexists _, _. split_and!; [done|lia|done]. }
  set (wait_for := Z.min _ maximum_wait). pose proof (clock_wait wait_for w2) as Hw.
  destruct (wait_once wait_for w2) as [w3 [value|error]]; simpl in Hw; [by eexists _, _|].
  destruct (is_timeout error); [|by eexists _, _].
  destruct (IH w3) as (w' & r & Hrun & Hto & _); [lia|]. by exists w', r.
Qed.
End wait.

(** ** Claims *)
Implicit Types (s : V4System) (e : V4Entry) (rid : ResourceId).
Definition holds_camera (e : V4Entry) : Prop := ve_holds e ≠ HoldsNothing.
(** A session whose thread another task joins keeps no right to the claim. *)
Definition surrendered (session : option V4l2Session) : Prop :=
  ∀ v, session = Some v → v4s_worker v = false ∧ v4s_claim_quarantined v = true ∧ v4s_closed v = true.
Definition entry_ok (e : V4Entry) : Prop :=
  match ve_holds e, ve_reaper e with
  | HoldsOpening, r => ve_session e = None ∧ r = false
  | HoldsWorker _, false =>
      ∃ v, ve_session e = Some v ∧ v4s_worker v = true ∧ v4s_claim_quarantined v = false ∧
        v4s_closed v = false
  | HoldsWorker _, true | HoldsNothing, false => surrendered (ve_session e)
  | HoldsNothing, true => False
  end.
Record v4_inv (s : V4System) : Prop := {
  vi_entries n e : v4_entries s !! n = Some e → entry_ok e;
  vi_claims rid : rid ∈ v4_claims s ↔
    ∃ n e, v4_entries s !! n = Some e ∧ ve_resource e = rid ∧ holds_camera e;
  vi_unique n m e e' : v4_entries s !! n = Some e → v4_entries s !! m = Some e' →
    ve_resource e = ve_resource e' → holds_camera e → holds_camera e' → n = m;
}.
(** An entry that keeps its camera, or has none, changes nothing else. *)
Lemma v4_put_inv s n e e' :
  v4_inv s → v4_entries s !! n = Some e → ve_resource e' = ve_resource e →
  (holds_camera e' ↔ holds_camera e) → entry_ok e' → v4_inv (v4_put_entry s n e').
Proof.
  intros [H1 H2 H3] Hn Hr Hh Hok. split; simpl.
  - intros m e0 [[<- <-]|[Hne Hm]]%lookup_insert_Some; [done|by eapply H1].
  - intros rid. rewrite H2. split.
    + intros (m & e0 & Hm & <- & Hc). destruct (decide (n = m)) as [<-|Hne].
      * exists n, e'. rewrite Hn in Hm. injection Hm as <-. rewrite lookup_insert_eq. naive_solver.
      * exists m, e0. by rewrite lookup_insert_ne.
    + intros (m & e0 & [[<- <-]|[Hne Hm]]%lookup_insert_Some & <- & Hc).
      * exists n, e. naive_solver.
      * by exists m, e0.
  - intros m1 m2 e1 e2 E1%lookup_insert_Some E2%lookup_insert_Some Heq Hc1 Hc2.
    destruct E1 as [[<- <-]|[? E1]], E2 as [[<- <-]|[? E2]]; [done|..].
    + eapply (H3 n m2 e e2); [done|done|congruence|by apply Hh|done].
    + eapply (H3 m1 n e1 e); [done|done|congruence|done|by apply Hh].
    + by eapply H3.
Qed.
(** The camera is given back. *)
Lemma v4_release_inv s n e e' :
  v4_inv s → v4_entries s !! n = Some e → ve_resource e' = ve_resource e →
  holds_camera e → ve_holds e' = HoldsNothing → entry_ok e' →
  v4_inv (unclaim (v4_put_entry s n e') (ve_resource e)).
Proof.
  intros [H1 H2 H3] Hn Hr Hh Hno Hok. split; simpl.
  - intros m e0 [[<- <-]|[Hne Hm]]%lookup_insert_Some; [done|by eapply H1].
  - intros rid. rewrite elem_of_difference, elem_of_singleton, H2. split.
    + intros [(m & e0 & Hm & <- & Hc) Hne]. exists m, e0. rewrite lookup_insert_ne; [done|].
      intros <-. rewrite Hn in Hm. by injection Hm as <-.
    + intros (m & e0 & [[<- <-]|[Hne Hm]]%lookup_insert_Some & <- & Hc); [by destruct Hc|].
      split; [by exists m, e0|]. intros Heq. destruct Hne. by eapply H3.
  - intros m1 m2 e1 e2 E1%lookup_insert_Some E2%lookup_insert_Some Heq Hc1 Hc2.
    destruct E1 as [[<- <-]|[? E1]], E2 as [[<- <-]|[? E2]]; [by destruct Hc1..|by destruct Hc2|by eapply H3].
Qed.
Lemma v4_claim_inv s n rid :
  v4_inv s → v4_entries s !! n = None → rid ∉ v4_claims s →
  v4_inv (mkV4System ({[rid]} ∪ v4_claims s) (<[n := mkV4Entry rid HoldsOpening None false]> (v4_entries s))).
Proof.
  intros [H1 H2 H3] Hn Hc. split; simpl.
  - intros m e0 [[<- <-]|[Hne Hm]]%lookup_insert_Some; [done|by eapply H1].
  - intros rid'. rewrite elem_of_union, elem_of_singleton, H2. split.
    + intros [->|(m & e0 & Hm & <- & Hh)].
      * eexists n, _. by rewrite lookup_insert_eq.
      * exists m, e0. rewrite lookup_insert_ne; [done|]. intros <-. by rewrite Hn in Hm.
    + intros (m & e0 & [[<- <-]|[Hne Hm]]%lookup_insert_Some & <- & Hh); [by left|right; by exists m, e0].
  - assert (∀ m e0, v4_entries s !! m = Some e0 → holds_camera e0 → ve_resource e0 ≠ rid) as Hnew.
    { intros m e0 Hm Hh Heq. apply Hc, H2. by exists m, e0. }
    intros m1 m2 e1 e2 E1%lookup_insert_Some E2%lookup_insert_Some Heq Hc1 Hc2.
    destruct E1 as [[<- <-]|[? E1]], E2 as [[<- <-]|[? E2]]; [done| | |by eapply H3].
    + by destruct (Hnew m2 e2 E2 Hc2).
    + by destruct (Hnew m1 e1 E1 Hc1).
Qed.
Lemma entry_session_worker e v :
  entry_ok e → ve_session e = Some v → v4s_worker v = true → (∃ x, ve_holds e = HoldsWorker x) ∧ ve_reaper e = false.
Proof.
  unfold entry_ok. intros Hok Hv Hw.
  destruct (ve_holds e), (ve_reaper e);
    first [by eauto | by destruct Hok | destruct Hok as [Hs _]; congruence
          | destruct (Hok v Hv) as [? _]; congruence].
Qed.
Lemma entry_session_gone e v :
  entry_ok e → ve_session e = Some v → v4s_worker v = false →
  v4s_claim_quarantined v = true ∧ v4s_closed v = true ∧
  entry_ok (mkV4Entry (ve_resource e) (ve_holds e) None (ve_reaper e)).
Proof.
  unfold entry_ok. intros Hok Hv Hw. destruct (ve_holds e), (ve_reaper e); simpl.
  all: first [by destruct Hok | destruct Hok as [Hs _]; congruence
    | destruct Hok as (v' & Hv' & ? & _); congruence | idtac].
  all: destruct (Hok v Hv) as (_ & ? & ?); split_and!; try done.
Qed.
Lemma v4_move_inv s m s' : v4_inv s → v4_move s m = Some s' → v4_inv s'.
Proof.
  intros Hi. pose proof (vi_entries s Hi) as Hok. destruct m as [n rid|n|n|n|n|n|n]; simpl.
  1: { destruct (v4_entries s !! n) eqn:En; [done|]. simpl. case_bool_decide; [done|].
       intros [= <-]. by apply v4_claim_inv. }
  all: destruct (v4_entries s !! n) as [e|] eqn:En; [|done]; specialize (Hok n e En); simpl.
  - destruct (ve_holds e) eqn:Eh; [|done..]. intros [= <-]. eapply v4_put_inv; [done|done|done| |].
    + unfold holds_camera. by rewrite Eh.
    + by eexists.
  - destruct (ve_holds e) eqn:Eh; [|done..]. intros [= <-]. apply v4_release_inv; try done.
    unfold holds_camera. by rewrite Eh.
  - destruct (ve_session e) as [v|] eqn:Ev; [|done]. simpl. intros [= <-]. unfold V4l2Session_close.
    destruct (v4s_closed v) eqn:Ec; [done|]. destruct (v4s_worker v) eqn:Ew.
    + destruct (entry_session_worker e v Hok Ev Ew) as [[x Eh] _].
      eapply v4_put_inv; [done|done|done|done|]. unfold entry_ok. simpl. rewrite Eh. by intros ? [= <-].
    + by destruct (entry_session_gone e v Hok Ev Ew) as (_ & ? & _); congruence.
  - destruct (ve_session e) as [v|] eqn:Ev; [|done]. simpl. intros [= <-]. unfold V4l2Session_drop.
    destruct (v4s_worker v) eqn:Ew.
    + destruct (entry_session_worker e v Hok Ev Ew) as [[x Eh] _].
      eapply v4_put_inv; [done|done|done|done|]. unfold entry_ok. simpl. by rewrite Eh.
    + destruct (entry_session_gone e v Hok Ev Ew) as (-> & _ & Hok'). by eapply v4_put_inv.
  - destruct (ve_holds e) as [|[]|] eqn:Eh; [done|done| |done]. intros [= <-].
    eapply v4_put_inv; [done|done|done| |].
    + unfold holds_camera. simpl. by rewrite Eh.
    + unfold entry_ok in *. by rewrite Eh in Hok.
  - destruct (ve_holds e) as [|[]|] eqn:Eh, (ve_reaper e) eqn:Er; try done. intros [= <-].
    apply v4_release_inv; try done.
    + unfold holds_camera. by rewrite Eh.
    + unfold entry_ok in *. by rewrite Eh, Er in Hok.
Qed.
Lemma v4_reachable_inv moves s : v4_run v4_init moves = Some s → v4_inv s.
Proof.
  assert (v4_inv v4_init) as Hi.
  { split; simpl; [by intros n e ?%lookup_empty_Some| |by intros n m e e' ?%lookup_empty_Some].
    intros rid. split; [by intros ?%elem_of_empty|by intros (n & e & ?%lookup_empty_Some & _)]. }
  revert Hi. generalize v4_init. induction moves as [|m moves IH]; intros s0 Hi; simpl.
  - by intros [= <-].
  - destruct (v4_move s0 m) as [s1|] eqn:Em; [|done]. simpl. apply IH. by eapply v4_move_inv.
Qed.

(** C26: A camera is claimed exactly while somebody uses it.  However sessions are opened, closed
    and dropped, their threads end, and the tasks that join them run: a camera is claimed iff
    it is being opened or some session's thread has not been joined, and there is only one
    such session, even after its close gave up waiting; opening is refused iff there is one; and the claim of a closed or dropped session is released once its
    thread ends. *)
Theorem v4l2_claims_exact moves s :
  v4_run v4_init moves = Some s →
  (∀ rid, rid ∈ v4_claims s ↔ ∃ n e, v4_entries s !! n = Some e ∧ ve_resource e = rid ∧ holds_camera e) ∧
  (∀ n m e e', v4_entries s !! n = Some e → v4_entries s !! m = Some e' →
     ve_resource e = ve_resource e' → holds_camera e → holds_camera e' → n = m) ∧
  (∀ n rid, v4_entries s !! n = None →
     (v4_move s (V4Claim n rid) = None ↔
        ∃ m e, v4_entries s !! m = Some e ∧ ve_resource e = rid ∧ holds_camera e)) ∧
  (∀ n e x, v4_entries s !! n = Some e → ve_holds e = HoldsWorker x →
     (∀ v, ve_session e = Some v → v4s_closed v = true) →
     ∃ s', v4_run s ((if x then [] else [V4WorkerExits n]) ++ [V4Reaped n]) = Some s' ∧
       ve_resource e ∉ v4_claims s').
Proof.
  intros Hi%v4_reachable_inv. pose proof Hi as [H1 H2 H3]. split_and!; [done|done| |].
  - intros n rid Hn. simpl. rewrite Hn. simpl. rewrite <- H2. by case_bool_decide.
  - intros n e x Hn Hx Hc. assert (ve_reaper e = true) as Hr.
    { specialize (H1 n e Hn). unfold entry_ok in H1. rewrite Hx in H1. destruct (ve_reaper e); [done|].
      destruct H1 as (v & Hv & _ & _ & Hcl). rewrite (Hc v Hv) in Hcl. done. }
    destruct x; simpl; rewrite Hn; simpl; rewrite Hx; simpl; rewrite ?lookup_insert_eq; simpl; rewrite Hr;
      (eexists; split; [reflexivity|]); set_solver.
Qed.
(** A close that gave up keeps the claim; a second session waits for the thread. *)
Definition example_camera : ResourceId := mkResourceId "camera:v4l2:serial%3AA1".
Definition example_v4_moves : list V4Move := [V4Claim 0 example_camera; V4Started 0; V4Close 0; V4Drop 0].
Lemma v4l2_claims_exact_witness :
  ∃ s s', v4_run v4_init example_v4_moves = Some s ∧ v4_move s (V4Claim 1 example_camera) = None ∧
    v4_run s [V4WorkerExits 0; V4Reaped 0] = Some s' ∧ example_camera ∉ v4_claims s'.
Proof.
  destruct (v4_run v4_init example_v4_moves) as [s|] eqn:E; [|by vm_compute in E].
  destruct (v4l2_claims_exact example_v4_moves s E) as (_ & _ & Hopen & Hrel).
  vm_compute in E. injection E as <-.
  destruct (Hrel 0%nat (mkV4Entry example_camera (HoldsWorker false) None true) false)
    as (s' & Hrun & Hnot); [reflexivity|reflexivity|done|].
  eexists _, s'. split; [reflexivity|]. split_and!; [|exact Hrun|exact Hnot].
  apply Hopen; [reflexivity|]. eexists 0%nat, _. split; [reflexivity|]. by split.
Defined.
