(* ===== verification/ShmPlatform.v ===== *)
(** * adapters/shared-memory: the mapping on Unix

    Models the Unix half of adapters/shared-memory/src/platform.rs: how a mapping's object,
    descriptors, view and lock file are made, checked, opened for reading, locked, unlinked
    and dropped.  The system calls (crate libc) are a class over the state of the machine.
    What the ring does with the bytes is [ShmRing]. *)

From S2P Require Import Prelude Core Native.
From Stdlib Require Import Ascii.
Open Scope Z_scope.

(** [libc]'s numbers: the type of a regular file, 0600 and 0777. *)
Definition SHM_S_IFMT : Z := 0xF000.
Definition SHM_S_IFREG : Z := 0x8000.
Definition MODE_0600 : Z := 0x180.
Definition MODE_0777 : Z := 0x1FF.
Record ShmStat := mkShmStat {
  shm_uid : Z;
  shm_mode : Z;
  shm_size : Z;
  shm_nlink : Z;
}.
Inductive FlockOperation := LockShared | LockExclusive | LockUnlock.

(** [object_create] and [lock_create] are exclusive creations, [lock_open] and [lock_create] do
    not follow symbolic links; locks do not block; [release_view] is [munmap].  Failures of
    [close] and [munmap] are ignored by the code. *)
Class PosixShm (W : Type) := {
  object_create : string → W → W * result OsError Z;
  object_open : string → W → W * result OsError Z;
  object_unlink : string → W → W * result OsError unit;
  fd_chmod : Z → Z → W → W * result OsError unit;
  fd_stat : Z → W → W * result OsError ShmStat;
  fd_truncate : Z → Z → W → W * result OsError unit;
  fd_close : Z → W → W;
  shm_geteuid : W → Z;
  map_view : Z → Z → bool → W → W * result OsError Z;
  release_view : Z → Z → W → W;
  lock_create : string → W → W * result OsError Z;
  lock_open : string → W → W * result OsError Z;
  lock_unlink : string → W → W * result OsError unit;
  fd_flock : Z → FlockOperation → W → W * result OsError unit;
}.

Record Mapping := mkMapping {
  map_address : Z;
  map_length : Z;
  map_fd : Z;
  map_lock_fd : Z;
}.

Definition MAPPING_PREFIX : string := "/robot-hal-".
Definition is_ascii_hexdigit (c : ascii) : bool :=
  is_ascii_digit c
  || ((nat_of_ascii "a" <=? nat_of_ascii c)%nat && (nat_of_ascii c <=? nat_of_ascii "f")%nat)
  || ((nat_of_ascii "A" <=? nat_of_ascii c)%nat && (nat_of_ascii c <=? nat_of_ascii "F")%nat).
(** A name of the accepted form is not changed by [escape_ascii]. *)
Definition lock_path (name : string) : result OsError string :=
  let invalid := mkOsError KindInvalidInput None "invalid private shared-memory mapping name" in
  match strip_prefix MAPPING_PREFIX name with
  | Some digits =>
      if (str_len digits =? 18) && str_all is_ascii_hexdigit digits
      then Ok ("/tmp/robot-hal-" +:+ digits +:+ ".lock") else Err invalid
  | None => Err invalid
  end.
(** [CString::new]. *)
Definition shm_name (name : string) : result OsError string :=
  if str_all (λ c, negb (bool_decide (c = Ascii.zero))) name then Ok name
  else Err (mkOsError KindInvalidInput None "shared-memory name contains an interior NUL").

Section mapping.
Context {W : Type} `{PosixShm W} (apple : bool).
Notation machine := (native W OsError) (only parsing).

Definition effective_uid : machine Z := λ w, (w, Ok (shm_geteuid w)).

Definition verify_private_lock_file (fd : Z) : machine unit :=
  fd_stat fd ≫= λ stat,
  effective_uid ≫= λ uid,
  refuse_when
    (negb (Z.land (shm_mode stat) SHM_S_IFMT =? SHM_S_IFREG) || negb (shm_uid stat =? uid)
     || negb (Z.land (shm_mode stat) MODE_0777 =? MODE_0600) || negb (shm_nlink stat =? 1))
    (mkOsError KindPermissionDenied None "lock file ownership, mode, or type verification failed").
Definition create_lock_file (name : string) : machine Z :=
  native_lift (lock_path name) ≫= λ path,
  lock_create path ≫= λ fd,
  or_undo (fd_close fd) (verify_private_lock_file fd) ≫= λ _, mret fd.
Definition open_lock_file (name : string) : machine Z :=
  native_lift (lock_path name) ≫= λ path,
  lock_open path ≫= λ fd,
  or_undo (fd_close fd) (verify_private_lock_file fd) ≫= λ _, mret fd.

Definition discard_object (name : string) (fd : Z) : W → W := λ w,
  (object_unlink name (fd_close fd w)).1.
(** What is done to a new object before it is mapped: apple's objects refuse [fchmod]. *)
Definition private_object (fd length : Z) : machine unit :=
  (attempt (fd_chmod fd MODE_0600) : machine (result OsError unit)) ≫= λ changed,
  native_lift (if apple then Ok () else changed) ≫= λ _,
  fd_stat fd ≫= λ stat,
  effective_uid ≫= λ uid,
  refuse_when (negb (shm_uid stat =? uid) || negb (Z.land (shm_mode stat) MODE_0777 =? MODE_0600))
    (mkOsError KindPermissionDenied None
       "shared-memory object ownership or mode verification failed") ≫= λ _,
  fd_truncate fd length.
Definition checked_view (checks : machine unit) (fd length : Z) (writable : bool) : machine Z :=
  checks ≫= λ _, map_view fd length writable.
Definition Mapping_create (name : string) (length : Z) : machine Mapping :=
  native_lift (shm_name name) ≫= λ name,
  object_create name ≫= λ fd,
  or_undo (discard_object name fd)
    (checked_view (private_object fd length) fd length true) ≫= λ address,
  or_undo (λ w, discard_object name fd (release_view address length w)) (create_lock_file name) ≫= λ lock_fd,
  mret (mkMapping address length fd lock_fd).
Definition large_enough (fd length : Z) : machine unit :=
  fd_stat fd ≫= λ stat,
  refuse_when ((shm_size stat <? 0) || (shm_size stat <? length))
    (mkOsError KindInvalidData None "shared-memory object length does not match descriptor").
Definition Mapping_open_read_only (name : string) (length : Z) : machine Mapping :=
  native_lift (shm_name name) ≫= λ name,
  object_open name ≫= λ fd,
  or_undo (fd_close fd)
    (checked_view (large_enough fd length) fd length false) ≫= λ address,
  or_undo (λ w, fd_close fd (release_view address length w)) (open_lock_file name) ≫= λ lock_fd,
  mret (mkMapping address length fd lock_fd).
Definition Mapping_try_lock (m : Mapping) (operation : FlockOperation) : machine unit :=
  fd_flock (map_lock_fd m) operation.
Definition Mapping_try_lock_shared (m : Mapping) : machine unit := Mapping_try_lock m LockShared.
Definition Mapping_try_lock_exclusive (m : Mapping) : machine unit := Mapping_try_lock m LockExclusive.
Definition Mapping_try_lock_exclusive_for_teardown (m : Mapping) : machine unit := Mapping_try_lock_exclusive m.
Definition Mapping_unlock (m : Mapping) : machine unit := Mapping_try_lock m LockUnlock.
(** A name that is gone already is no failure. *)
Definition unless_missing (m : machine unit) : machine unit := λ w,
  match m w with
  | (w, Err e) => (w, if bool_decide (kind e = KindNotFound) then Ok () else Err e)
  | r => r
  end.
(** Both names are removed before either failure is returned. *)
Definition Mapping_unlink (name : string) : machine unit :=
  native_lift (shm_name name) ≫= λ name,
  attempt (unless_missing (object_unlink name)) ≫= λ shm_result,
  attempt (native_lift (lock_path name) ≫= λ path, unless_missing (lock_unlink path)) ≫= λ lock_result,
  native_lift shm_result ≫= λ _, native_lift lock_result.
Definition Mapping_drop (m : Mapping) (w : W) : W :=
  fd_close (map_lock_fd m) (fd_close (map_fd m) (release_view (map_address m) (map_length m) w)).

(** ** What the process holds *)

(** Its descriptors and views (address and length), and the names that exist. *)
Record ShmResources := mkShmResources {
  r_fds : gset Z;
  r_views : gset (Z * Z);
  r_objects : gset string;
  r_locks : gset string;
}.
Definition with_fd (fd : Z) (r : ShmResources) : ShmResources :=
  mkShmResources ({[fd]} ∪ r_fds r) (r_views r) (r_objects r) (r_locks r).
Definition with_view (a : Z * Z) (r : ShmResources) : ShmResources :=
  mkShmResources (r_fds r) ({[a]} ∪ r_views r) (r_objects r) (r_locks r).
Definition with_object (name : string) (r : ShmResources) : ShmResources :=
  mkShmResources (r_fds r) (r_views r) ({[name]} ∪ r_objects r) (r_locks r).
Definition with_lock (path : string) (r : ShmResources) : ShmResources :=
  mkShmResources (r_fds r) (r_views r) (r_objects r) ({[path]} ∪ r_locks r).
Context (res : W → ShmResources).
(** What the code relies on: what is created or opened is new, closing and unlinking take it
    away again, and a name that exists can be unlinked. *)
Class PosixShmLaws : Prop := {
  law_object_create name w w' r : object_create name w = (w', r) →
    match r with
    | Ok fd => fd ∉ r_fds (res w) ∧ name ∉ r_objects (res w) ∧ res w' = with_object name (with_fd fd (res w))
    | Err _ => res w' = res w
    end;
  law_object_open name w w' r : object_open name w = (w', r) →
    match r with Ok fd => fd ∉ r_fds (res w) ∧ res w' = with_fd fd (res w) | Err _ => res w' = res w end;
  law_object_unlink name w w' r : object_unlink name w = (w', r) →
    res w' = mkShmResources (r_fds (res w)) (r_views (res w)) (r_objects (res w) ∖ {[name]}) (r_locks (res w)) ∧
    (name ∈ r_objects (res w) → r = Ok ());
  law_chmod fd mode w : res (fd_chmod fd mode w).1 = res w;
  law_stat fd w : res (fd_stat fd w).1 = res w;
  law_truncate fd n w : res (fd_truncate fd n w).1 = res w;
  law_close fd w :
    res (fd_close fd w) = mkShmResources (r_fds (res w) ∖ {[fd]}) (r_views (res w)) (r_objects (res w)) (r_locks (res w));
  law_map fd n writable w w' r : map_view fd n writable w = (w', r) →
    match r with Ok a => (a, n) ∉ r_views (res w) ∧ res w' = with_view (a, n) (res w) | Err _ => res w' = res w end;
  law_release a n w :
    res (release_view a n w) = mkShmResources (r_fds (res w)) (r_views (res w) ∖ {[(a, n)]}) (r_objects (res w)) (r_locks (res w));
  law_lock_create path w w' r : lock_create path w = (w', r) →
    match r with
    | Ok fd => fd ∉ r_fds (res w) ∧ path ∉ r_locks (res w) ∧ res w' = with_lock path (with_fd fd (res w))
    | Err _ => res w' = res w
    end;
  law_lock_open path w w' r : lock_open path w = (w', r) →
    match r with Ok fd => fd ∉ r_fds (res w) ∧ res w' = with_fd fd (res w) | Err _ => res w' = res w end;
  law_lock_unlink path w w' r : lock_unlink path w = (w', r) →
    res w' = mkShmResources (r_fds (res w)) (r_views (res w)) (r_objects (res w)) (r_locks (res w) ∖ {[path]}) ∧
    (path ∈ r_locks (res w) → r = Ok ());
}.
Context `{!PosixShmLaws}.

(** Calls that hold nothing more afterwards. *)
Definition res_keeps {A} (m : machine A) : Prop := ∀ w, res (m w).1 = res w.
Lemma res_keeps_bind {A B} (m : machine A) (f : A → machine B) :
  res_keeps m → (∀ x, res_keeps (f x)) → res_keeps (m ≫= f).
Proof.
  intros Hm Hf w. unfold mbind, native_bind. specialize (Hm w).
  destruct (m w) as [w1 [x|e]]; [|done]. by rewrite Hf.
Qed.
Lemma verify_keeps fd : res_keeps (verify_private_lock_file fd).
Proof.
  apply res_keeps_bind; [exact (law_stat fd)|intros stat].
  apply res_keeps_bind; [|intros uid w; by destruct (_ || _)].
  done.
Qed.
Lemma resources_eq r r' :
  r_fds r = r_fds r' → r_views r = r_views r' → r_objects r = r_objects r' → r_locks r = r_locks r' → r = r'.
Proof. destruct r, r'. simpl. by intros -> -> -> ->. Qed.
Ltac resources := apply resources_eq; simpl; try done; set_solver.

Lemma create_lock_spec name w w' r :
  create_lock_file name w = (w', r) →
  match r with
  | Ok fd => fd ∉ r_fds (res w) ∧ ∃ path, lock_path name = Ok path ∧ path ∉ r_locks (res w) ∧
      res w' = with_lock path (with_fd fd (res w))
  | Err _ => res w' = res w ∨ ∃ path, lock_path name = Ok path ∧ res w' = with_lock path (res w)
  end.
Proof.
  unfold create_lock_file, mbind, native_bind, native_lift, or_undo.
  destruct (lock_path name) as [path|e]; [|intros [= <- <-]; by left].
  destruct (lock_create path w) as [w1 [fd|e]] eqn:Ec; apply law_lock_create in Ec;
    [|intros [= <- <-]; by left].
  destruct Ec as (Hfd & Hp & Hr). pose proof (verify_keeps fd w1) as Hk.
  destruct (verify_private_lock_file fd w1) as [w2 [u|e]]; simpl in Hk; intros [= <- <-].
  - split; [done|]. exists path. by rewrite Hk.
  - right. exists path. split; [done|]. rewrite law_close, Hk, Hr. resources.
Qed.
Lemma open_lock_spec name w w' r :
  open_lock_file name w = (w', r) →
  match r with
  | Ok fd => fd ∉ r_fds (res w) ∧ res w' = with_fd fd (res w)
  | Err _ => res w' = res w
  end.
Proof.
  unfold open_lock_file, mbind, native_bind, native_lift, or_undo.
  destruct (lock_path name) as [path|e]; [|by intros [= <- <-]].
  destruct (lock_open path w) as [w1 [fd|e]] eqn:Ec; apply law_lock_open in Ec; [|by intros [= <- <-]].
  destruct Ec as (Hfd & Hr). pose proof (verify_keeps fd w1) as Hk.
  destruct (verify_private_lock_file fd w1) as [w2 [u|e]]; simpl in Hk; intros [= <- <-].
  - by rewrite Hk.
  - rewrite law_close, Hk, Hr. resources.
Qed.
(** What a checked sequence of calls on one descriptor maps. *)
Lemma checked_view_spec (m : machine unit) fd n writable w w' r :
  res_keeps m → checked_view m fd n writable w = (w', r) →
  match r with
  | Ok a => (a, n) ∉ r_views (res w) ∧ res w' = with_view (a, n) (res w)
  | Err _ => res w' = res w
  end.
Proof.
  intros Hm. unfold checked_view, mbind, native_bind. specialize (Hm w).
  destruct (m w) as [w1 [[]|e]]; simpl in Hm; [|by intros [= <- <-]].
  intros Ha. apply law_map in Ha. by rewrite <- Hm.
Qed.
Lemma res_keeps_refuse b e : res_keeps (refuse_when b e).
Proof. intros w. by destruct b. Qed.
Lemma res_keeps_lift {A} (r : result OsError A) : res_keeps (native_lift r).
Proof. done. Qed.
Lemma res_keeps_attempt {A} (m : machine A) : res_keeps m → res_keeps (attempt m : machine (result OsError A)).
Proof. intros Hm w. unfold attempt. specialize (Hm w). by destruct (m w). Qed.
Lemma private_object_keeps fd length : res_keeps (private_object fd length).
Proof.
  apply res_keeps_bind; [apply res_keeps_attempt; exact (law_chmod fd _)|intros changed].
  apply res_keeps_bind; [apply res_keeps_lift|intros _].
  apply res_keeps_bind; [exact (law_stat fd)|intros stat].
  apply res_keeps_bind; [done|intros uid].
  apply res_keeps_bind; [apply res_keeps_refuse|intros _; exact (law_truncate fd length)].
Qed.
Lemma large_enough_keeps fd length : res_keeps (large_enough fd length).
Proof. apply res_keeps_bind; [exact (law_stat fd)|intros stat; apply res_keeps_refuse]. Qed.

(** What the process holds with a mapping. *)
Definition with_mapping (m : Mapping) (r : ShmResources) : ShmResources :=
  with_fd (map_lock_fd m) (with_view (map_address m, map_length m) (with_fd (map_fd m) r)).
Definition fresh_mapping (m : Mapping) (r : ShmResources) : Prop :=
  map_fd m ∉ r_fds r ∧ map_lock_fd m ∉ {[map_fd m]} ∪ r_fds r ∧ (map_address m, map_length m) ∉ r_views r.

Lemma drop_mapping m w r :
  res w = with_mapping m r → fresh_mapping m r → res (Mapping_drop m w) = r.
Proof.
  intros Hw (H1 & H2 & H3). unfold Mapping_drop. rewrite !law_close, law_release, Hw.
  resources.
Qed.

Lemma shm_name_Ok name name' : shm_name name = Ok name' → name' = name.
Proof. unfold shm_name. destruct (str_all _ _); congruence. Qed.

Lemma res_discard name fd w :
  res (discard_object name fd w) =
  mkShmResources (r_fds (res w) ∖ {[fd]}) (r_views (res w)) (r_objects (res w) ∖ {[name]}) (r_locks (res w)).
Proof.
  unfold discard_object. destruct (object_unlink name (fd_close fd w)) as [w1 r] eqn:E.
  apply law_object_unlink in E as [E _]. simpl. by rewrite E, law_close.
Qed.

Lemma create_spec name length w w' r :
  Mapping_create name length w = (w', r) →
  match r with
  | Ok m => map_length m = length ∧ fresh_mapping m (res w) ∧ ∃ path,
      lock_path name = Ok path ∧ shm_name name = Ok name ∧
      name ∉ r_objects (res w) ∧ path ∉ r_locks (res w) ∧
      res w' = with_lock path (with_object name (with_mapping m (res w)))
  | Err _ => res w' = res w ∨ ∃ path, lock_path name = Ok path ∧ res w' = with_lock path (res w)
  end.
Proof.
  unfold Mapping_create, mbind, native_bind, native_lift, or_undo.
  destruct (shm_name name) as [name'|e] eqn:En; [|intros [= <- <-]; by left].
  pose proof (shm_name_Ok _ _ En) as ->.
  destruct (object_create name w) as [w1 [fd|e]] eqn:E1; apply law_object_create in E1;
    [|intros [= <- <-]; by left].
  destruct E1 as (F1 & F2 & R1).
  destruct (checked_view _ _ _ _ w1) as [w2 [a|e]] eqn:E2;
    apply (checked_view_spec _ _ _ _ _ _ _ (private_object_keeps _ _)) in E2.
  2:{ intros [= <- <-]. left. rewrite res_discard, E2, R1. resources. }
  destruct E2 as (F3 & R2).
  destruct (create_lock_file name w2) as [w3 [lfd|e]] eqn:E3; apply create_lock_spec in E3;
    intros [= <- <-].
  - destruct E3 as (F4 & path & Hp & F5 & R3). rewrite R2, R1 in *. simpl in *.
    repeat split; try done. exists path. rewrite R3. repeat split; try done.
  - rewrite res_discard, law_release. destruct E3 as [->|(path & Hp & ->)].
    + left. rewrite R2, R1 in *. simpl in *. resources.
    + right. exists path. split; [done|]. rewrite R2, R1 in *. simpl in *. resources.
Qed.

Lemma open_spec name length w w' r :
  Mapping_open_read_only name length w = (w', r) →
  match r with
  | Ok m => map_length m = length ∧ fresh_mapping m (res w) ∧ res w' = with_mapping m (res w)
  | Err _ => res w' = res w
  end.
Proof.
  unfold Mapping_open_read_only, mbind, native_bind, native_lift, or_undo.
  destruct (shm_name name) as [name'|e] eqn:En; [|by intros [= <- <-]].
  destruct (object_open name' w) as [w1 [fd|e]] eqn:E1; apply law_object_open in E1;
    [|by intros [= <- <-]].
  destruct E1 as (F1 & R1).
  destruct (checked_view _ _ _ _ w1) as [w2 [a|e]] eqn:E2;
    apply (checked_view_spec _ _ _ _ _ _ _ (large_enough_keeps _ _)) in E2.
  2:{ intros [= <- <-]. rewrite law_close, E2, R1. resources. }
  destruct E2 as (F3 & R2).
  destruct (open_lock_file name' w2) as [w3 [lfd|e]] eqn:E3; apply open_lock_spec in E3;
    intros [= <- <-]; rewrite R2, R1 in *; simpl in *.
  - destruct E3 as (F4 & R3). rewrite R3. done.
  - rewrite law_close, law_release, E3. resources.
Qed.

(** Dropping a mapping leaves the names. *)
Lemma drop_created m name path w r :
  res w = with_lock path (with_object name (with_mapping m r)) → fresh_mapping m r →
  res (Mapping_drop m w) = with_lock path (with_object name r).
Proof.
  intros Hw (H1 & H2 & H3). unfold Mapping_drop. rewrite !law_close, law_release, Hw.
  resources.
Qed.

Lemma unless_missing_spec (m : machine unit) w :
  unless_missing m w = ((m w).1, match (m w).2 with
    | Err e => if bool_decide (kind e = KindNotFound) then Ok () else Err e | r => r end).
Proof. unfold unless_missing. by destruct (m w) as [? []]. Qed.

(** Unlinking takes both names away, and succeeds where both exist. *)
Lemma unlink_spec name path w :
  shm_name name = Ok name → lock_path name = Ok path →
  name ∈ r_objects (res w) → path ∈ r_locks (res w) →
  (Mapping_unlink name w).2 = Ok () ∧
  res (Mapping_unlink name w).1 = mkShmResources (r_fds (res w)) (r_views (res w))
    (r_objects (res w) ∖ {[name]}) (r_locks (res w) ∖ {[path]}).
Proof.
  intros Hn Hp Ho Hl. unfold Mapping_unlink, mbind, native_bind, native_lift, attempt.
  rewrite Hn, Hp, unless_missing_spec. destruct (object_unlink name w) as [w1 r1] eqn:E1.
  apply law_object_unlink in E1 as [R1 ->]; [|done]. simpl.
  rewrite unless_missing_spec. destruct (lock_unlink path w1) as [w2 r2] eqn:E2.
  apply law_lock_unlink in E2 as [R2 ->]; [|by rewrite R1]. simpl.
  split; [done|]. by rewrite R2, R1.
Qed.
End mapping.

(** ** A machine in which the laws hold *)
Module SmallMachine.
Record machine := mkMachine {
  umask : Z;
  open_fds : list (Z * ShmStat);
  mapped : list (Z * Z);
  objects : list string;
  locks : list string;
}.
Definition resources (w : machine) : ShmResources :=
  mkShmResources (list_to_set (open_fds w).*1) (list_to_set (mapped w))
    (list_to_set (objects w)) (list_to_set (locks w)).
Definition set_fds (f : list (Z * ShmStat) → list (Z * ShmStat)) (w : machine) : machine :=
  mkMachine (umask w) (f (open_fds w)) (mapped w) (objects w) (locks w).
Definition set_mapped (f : list (Z * Z) → list (Z * Z)) (w : machine) : machine :=
  mkMachine (umask w) (open_fds w) (f (mapped w)) (objects w) (locks w).
Definition set_objects (f : list string → list string) (w : machine) : machine :=
  mkMachine (umask w) (open_fds w) (mapped w) (f (objects w)) (locks w).
Definition set_locks (f : list string → list string) (w : machine) : machine :=
  mkMachine (umask w) (open_fds w) (mapped w) (objects w) (f (locks w)).
Definition next (used : list Z) : Z := 1 + foldr Z.max 0 used.
Definition without {A} `{EqDecision A} (x : A) : list A → list A := List.filter (λ y, negb (bool_decide (y = x))).
Definition without_fd (fd : Z) : list (Z * ShmStat) → list (Z * ShmStat) :=
  List.filter (λ p, negb (bool_decide (p.1 = fd))).
Definition os_error (k : ErrorKind) (code : Z) : OsError := mkOsError k (Some code) "".
Definition new_fd (mode size : Z) (w : machine) : machine * result OsError Z :=
  let fd := next (open_fds w).*1 in
  (set_fds (λ l, (fd, mkShmStat 1000 (Z.lor SHM_S_IFREG (Z.land mode (Z.lnot (umask w)))) size 1) :: l) w, Ok fd).
Definition change_stat (f : ShmStat → ShmStat) (fd : Z) (w : machine) : machine * result OsError unit :=
  (set_fds (map (λ p, if p.1 =? fd then (p.1, f p.2) else p)) w, Ok ()).
Definition remove_name (names : machine → list string)
    (set : (list string → list string) → machine → machine) (name : string) (w : machine)
    : machine * result OsError unit :=
  if bool_decide (name ∈ names w) then (set (without name) w, Ok ())
  else (w, Err (os_error KindNotFound Errno.ENOENT)).
Global Instance small_machine : PosixShm machine := {
  object_create name w :=
    if bool_decide (name ∈ objects w) then (w, Err (os_error KindAlreadyExists 17))
    else new_fd MODE_0600 0 (set_objects (cons name) w);
  object_open name w :=
    if bool_decide (name ∈ objects w) then new_fd MODE_0600 4096 w
    else (w, Err (os_error KindNotFound Errno.ENOENT));
  object_unlink := remove_name objects set_objects;
  fd_chmod fd mode := change_stat (λ s, mkShmStat (shm_uid s) (Z.lor SHM_S_IFREG mode) (shm_size s) (shm_nlink s)) fd;
  fd_stat fd w :=
    (w, match list_find (λ p, p.1 = fd) (open_fds w) with
        | Some (_, (_, s)) => Ok s | None => Err (os_error KindInvalidInput 9) end);
  fd_truncate fd n := change_stat (λ s, mkShmStat (shm_uid s) (shm_mode s) n (shm_nlink s)) fd;
  fd_close fd := set_fds (without_fd fd);
  shm_geteuid w := 1000;
  map_view fd n writable w :=
    let address := next (mapped w).*1 in (set_mapped (cons (address, n)) w, Ok address);
  release_view address n := set_mapped (without (address, n));
  lock_create path w :=
    if bool_decide (path ∈ locks w) then (w, Err (os_error KindAlreadyExists 17))
    else new_fd MODE_0600 0 (set_locks (cons path) w);
  lock_open path w :=
    if bool_decide (path ∈ locks w) then new_fd MODE_0600 0 w
    else (w, Err (os_error KindNotFound Errno.ENOENT));
  lock_unlink := remove_name locks set_locks;
  fd_flock fd operation w := (w, Ok ());
}.

Lemma next_above l x : x ∈ l → x < next l.
Proof.
  unfold next. induction l as [|y l IH]; [by intros ?%not_elem_of_nil|].
  simpl. intros [->|Hx]%elem_of_cons; [lia|]. specialize (IH Hx). lia.
Qed.
Lemma next_fresh l : next l ∉ (list_to_set l : gset Z).
Proof. rewrite elem_of_list_to_set. intros H%next_above. lia. Qed.
Lemma next_mapped w n : (next (mapped w).*1, n) ∉ (list_to_set (mapped w) : gset (Z * Z)).
Proof.
  rewrite elem_of_list_to_set. intros H.
  pose proof (next_above (mapped w).*1 (next (mapped w).*1)) as Hn.
  enough (next (mapped w).*1 ∈ (mapped w).*1) by (specialize (Hn H0); lia).
  apply list_elem_of_fmap. by eexists (_, n).
Qed.
Lemma set_without {A} `{Countable A} (x : A) l :
  (list_to_set (without x l) : gset A) = list_to_set l ∖ {[x]}.
Proof.
  unfold without. induction l as [|y l IH]; simpl; [set_solver|].
  case_bool_decide as E; simpl; rewrite IH; set_solver.
Qed.
Lemma set_without_fd fd l :
  (list_to_set (without_fd fd l).*1 : gset Z) = list_to_set l.*1 ∖ {[fd]}.
Proof.
  unfold without_fd. induction l as [|y l IH]; [set_solver|].
  simpl. case_bool_decide as E; simpl; set_solver.
Qed.
Lemma change_stat_keeps f fd w : resources (change_stat f fd w).1 = resources w.
Proof.
  unfold resources. simpl. f_equal. f_equal. unfold set_fds. simpl.
  induction (open_fds w) as [|p l IH]; [done|].
  cbn. f_equal; [by destruct (_ =? _)|exact IH].
Qed.
Lemma new_fd_spec mode size w w' r :
  new_fd mode size w = (w', r) → ∃ fd, r = Ok fd ∧ fd ∉ r_fds (resources w) ∧ resources w' = with_fd fd (resources w).
Proof. intros [= <- <-]. eexists. split; [done|]. split; [apply next_fresh|done]. Qed.

Global Instance small_machine_laws : PosixShmLaws resources.
Proof.
  split.
  - intros name w w' r. simpl. case_bool_decide as E; [by intros [= <- <-]|].
    intros (fd & -> & Hf & ->)%new_fd_spec. split; [done|]. split; [|done].
    simpl. by rewrite elem_of_list_to_set.
  - intros name w w' r. simpl. case_bool_decide as E; [|by intros [= <- <-]].
    by intros (fd & -> & Hf & ->)%new_fd_spec.
  - intros name w w' r. simpl. unfold remove_name. case_bool_decide as E; intros [= <- <-]; split; try done.
    + unfold resources. simpl. by rewrite set_without.
    + apply resources_eq; try done. simpl. set_solver.
    + simpl. by rewrite elem_of_list_to_set.
  - intros fd mode w. apply change_stat_keeps.
  - done.
  - intros fd n w. apply change_stat_keeps.
  - intros fd w. unfold resources. simpl. by rewrite set_without_fd.
  - intros fd n b w w' r [= <- <-]. split; [apply next_mapped|done].
  - intros a n w. unfold resources. simpl. by rewrite set_without.
  - intros name w w' r. simpl. case_bool_decide as E; [by intros [= <- <-]|].
    intros (fd & -> & Hf & ->)%new_fd_spec. split; [done|]. split; [|done].
    simpl. by rewrite elem_of_list_to_set.
  - intros name w w' r. simpl. case_bool_decide as E; [|by intros [= <- <-]].
    by intros (fd & -> & Hf & ->)%new_fd_spec.
  - intros name w w' r. simpl. unfold remove_name. case_bool_decide as E; intros [= <- <-]; split; try done.
    + unfold resources. simpl. by rewrite set_without.
    + apply resources_eq; try done. simpl. set_solver.
    + simpl. by rewrite elem_of_list_to_set.
Qed.

Definition empty_machine (mask : Z) : machine := mkMachine mask [] [] [] [].
Definition a_name : string := "/robot-hal-0123456789abcdef01".
Definition a_lock : string := "/tmp/robot-hal-0123456789abcdef01.lock".
End SmallMachine.
Import SmallMachine.

Example creates_and_gives_back :
  match Mapping_create false a_name 4096 (empty_machine 0x12) with
  | (w, Ok m) => (Mapping_unlink a_name (Mapping_drop m w)) = (empty_machine 0x12, Ok ())
                 ∧ map_length m = 4096
  | _ => False
  end.
Proof. by vm_compute. Qed.

(** The lock file's mode is not set after its creation, as the object's is: under a umask that
    takes the owner's permission the check fails, and its file stays. *)
Example lock_file_left_behind :
  let '(w, r) := Mapping_create false a_name 4096 (empty_machine 0x80) in
  is_ok r = false ∧ open_fds w = [] ∧ mapped w = [] ∧ objects w = [] ∧ locks w = [a_lock].
Proof. by vm_compute. Qed.

(** C29: Mapping::create is all or nothing, except that a lock file it made and then refused is
    left behind: on success it holds exactly one new descriptor for the object, one for the
    lock, one view of the requested length, and the two new names, and dropping the mapping
    and unlinking the name succeed and give all of it back; open_read_only holds two
    descriptors and a view, which its drop gives back, and nothing when it fails. *)
Theorem mapping_transactional {W} `{PosixShm W} (apple : bool) (res : W → ShmResources)
    `{!PosixShmLaws res} name length w :
  (match Mapping_create apple name length w with
   | (w', Ok m) =>
       (∃ path, lock_path name = Ok path ∧ name ∉ r_objects (res w) ∧ path ∉ r_locks (res w) ∧
          res w' = with_lock path (with_object name (with_mapping m (res w)))) ∧
       map_length m = length ∧ fresh_mapping m (res w) ∧
       (Mapping_unlink name (Mapping_drop m w')).2 = Ok () ∧
       res (Mapping_unlink name (Mapping_drop m w')).1 = res w
   | (w', Err _) =>
       res w' = res w ∨ ∃ path, lock_path name = Ok path ∧ res w' = with_lock path (res w)
   end) ∧
  (match Mapping_open_read_only name length w with
   | (w', Ok m) =>
       res w' = with_mapping m (res w) ∧ map_length m = length ∧ res (Mapping_drop m w') = res w
   | (w', Err _) => res w' = res w
   end).
Proof.
  split.
  - destruct (Mapping_create _ _ _ _) as [w' r] eqn:E. apply (create_spec _ res) in E.
    destruct r as [m|e]; [|done].
    destruct E as (E1 & E2 & path & E3 & E4 & E5 & E6 & E7).
    split; [by exists path|]. split; [done|]. split; [done|].
    pose proof (drop_created _ _ _ _ _ _ E7 E2) as Hd.
    destruct (unlink_spec res name path (Mapping_drop m w')) as [-> ->];
      [done|done|rewrite Hd; set_solver|rewrite Hd; set_solver|].
    split; [done|]. rewrite Hd. apply resources_eq; simpl; try done; set_solver.
  - destruct (Mapping_open_read_only _ _ _) as [w' r] eqn:E. apply (open_spec res) in E.
    destruct r as [m|e]; [|done]. destruct E as (E1 & E2 & E3).
    split; [done|]. split; [done|]. by apply drop_mapping.
Qed.

Lemma mapping_transactional_witness :
  ∃ w m, Mapping_create false a_name 4096 (empty_machine 0x12) = (w, Ok m) ∧
    resources w = with_lock a_lock (with_object a_name (with_mapping m (resources (empty_machine 0x12)))).
Proof.
  pose proof (mapping_transactional false resources a_name 4096 (empty_machine 0x12)) as [H _].
  destruct (Mapping_create false a_name 4096 (empty_machine 0x12)) as [w r] eqn:E.
  vm_compute in E. injection E as <- <-.
  destruct H as ((path & [= <-] & _ & _ & Hw) & _). by eexists _, _.
Defined.
