(* ===== verification/TestkitUsbGpio.v ===== *)
(** * robot-hal-testkit: the virtual USB device and the virtual GPIO bank

    Models crates/robot-hal-testkit/src/{virtual_usb,virtual_gpio}.rs.  An adapter and its
    sessions share one state behind a mutex; every method is one atomic step on it.  A
    [Condvar] or lock is not modelled beyond that. *)

From S2P Require Import Prelude Core SerialRegistry CanTypes CanActor UsbTypes GpioTypes CameraTypes.
From stdpp Require Import sorting.
Open Scope Z_scope.

(** What the constructors of the virtual adapters build: [Err] carries the error that
    [expect] panics with, for an invalid resource id. *)
Definition virtual_descriptor (prefix id : string) (transport : TransportKind)
    (properties : list (string * string)) (capabilities : list CapabilityId)
    : HalResult ResourceDescriptor :=
  ResourceId_parse id ≫= λ id,
  Endpoint_new (prefix +:+ ResourceId_as_str id) ≫= λ endpoint,
  Ok (mkResourceDescriptor id endpoint Strong transport
        (mkResourceProperties (list_to_map properties)) (mkCapabilitySet capabilities)).

Lemma virtual_descriptor_valid prefix id transport properties capabilities :
  0 < str_len prefix <= 100 → valid_identifier id →
  virtual_descriptor prefix id transport properties capabilities
  = Ok (mkResourceDescriptor (mkResourceId id) (mkEndpoint (prefix +:+ id)) Strong transport
          (mkResourceProperties (list_to_map properties)) (mkCapabilitySet capabilities)).
Proof.
  intros Hp Hid. unfold virtual_descriptor.
  rewrite (proj2 (ResourceId_parse_Ok id _) (conj Hid eq_refl)). simpl.
  destruct Hid as [Hid _]. unfold Endpoint_new. rewrite str_len_app.
  destruct (str_is_empty _) eqn:E.
  { destruct prefix; [|done]. vm_compute in Hp. naive_solver. }
  by rewrite (proj2 (Z.ltb_ge _ _)) by lia.
Qed.

(** Its own selector finds a descriptor among itself. *)
Lemma resolve_self d capability operation :
  CapabilitySet_contains (desc_capabilities d) capability = true →
  resolve_resource [d] (ResourceDescriptor_selector d) capability operation = Ok d.
Proof.
  intros Hc. unfold resolve_resource. simpl. unfold descriptor_matches. simpl.
  rewrite !bool_decide_eq_true_2, Hc by done. unfold IdentityQuality_satisfies.
  by rewrite Z.leb_refl.
Qed.

(** [Option::take] on an injected failure. *)
Definition injected (failure : option HalError) (d : ResourceDescriptor) : option HalError :=
  (λ e, HalError_with_resource_id e (desc_id d)) <$> failure.

(** ** virtual_usb.rs *)
Record VirtualUsbState := mkVirtualUsbState {
  vu_claims : gset Z;
  vu_data : gmap Z Bytes;
  vu_control : Bytes;
  vu_next_transfer : option HalError;
}.
Record VirtualUsbAdapter := mkVirtualUsbAdapter { vu_descriptor : ResourceDescriptor }.
Record VirtualUsbSession := mkVirtualUsbSession {
  vus_descriptor : ResourceDescriptor;
  vus_claim : UsbInterfaceClaim;
  vus_closed : bool;
}.
Definition vu_set_claims (f : gset Z → gset Z) (s : VirtualUsbState) : VirtualUsbState :=
  mkVirtualUsbState (f (vu_claims s)) (vu_data s) (vu_control s) (vu_next_transfer s).

Definition VirtualUsbAdapter_loopback (resource_id : string)
    : HalResult (VirtualUsbAdapter * VirtualUsbState) :=
  (λ d, (mkVirtualUsbAdapter d, mkVirtualUsbState ∅ ∅ [] None)) <$>
  virtual_descriptor "virtual://usb/" resource_id Usb [("adapter", "virtual"); ("mode", "loopback")]
    [usb_control_capability; usb_bulk_capability; usb_interrupt_capability].
(** [sort_unstable] on distinct numbers. *)
Definition VirtualUsbAdapter_claimed_interfaces (s : VirtualUsbState) : list Z :=
  merge_sort Z.le (elements (vu_claims s)).
Definition VirtualUsbAdapter_fail_next_transfer (error : HalError) (s : VirtualUsbState)
    : VirtualUsbState :=
  mkVirtualUsbState (vu_claims s) (vu_data s) (vu_control s) (Some error).
Definition VirtualUsbAdapter_enumerate (a : VirtualUsbAdapter) : HalResult (list ResourceDescriptor) :=
  Ok [vu_descriptor a].
Definition vu_conflict (operation : string) : HalError :=
  static_error "runtime.adapter.conflict" Conflict operation false "USB interface is already claimed".
Definition vu_closed (operation : string) : HalError :=
  static_error "runtime.session.closed" Unavailable operation false "USB session is closed".
Definition VirtualUsbAdapter_open (a : VirtualUsbAdapter) (selector : ResourceSelector)
    (claim : UsbInterfaceClaim) (s : VirtualUsbState)
    : VirtualUsbState * HalResult VirtualUsbSession :=
  match resolve_resource [vu_descriptor a] selector usb_control_capability "usb.open" with
  | Err e => (s, Err e)
  | Ok descriptor =>
      if bool_decide (claim_number claim ∈ vu_claims s) then (s, Err (vu_conflict "usb.open"))
      else (vu_set_claims (λ c, {[claim_number claim]} ∪ c) s,
            Ok (mkVirtualUsbSession descriptor claim false))
  end.

(** [data.slice(..data.len().min(max_bytes))]. *)
Definition slice_to (max_bytes : Z) (data : Bytes) : Bytes :=
  take (Z.to_nat (Z.min (len data) max_bytes)) data.
Definition vu_perform (transfer : UsbTransfer) (s : VirtualUsbState) : VirtualUsbState * Bytes :=
  match transfer with
  | ControlOut _ _ _ _ data => (mkVirtualUsbState (vu_claims s) (vu_data s) data (vu_next_transfer s), [])
  | ControlIn _ _ _ _ max_bytes => (s, slice_to max_bytes (vu_control s))
  | BulkOut endpoint data | InterruptOut endpoint data =>
      (mkVirtualUsbState (vu_claims s) (<[Z.land endpoint 0x7f := data]> (vu_data s))
         (vu_control s) (vu_next_transfer s), [])
  | BulkIn endpoint max_bytes | InterruptIn endpoint max_bytes =>
      (s, slice_to max_bytes (default [] (vu_data s !! Z.land endpoint 0x7f)))
  end.
Definition VirtualUsbSession_transfer (session : VirtualUsbSession) (transfer : UsbTransfer)
    (s : VirtualUsbState) : VirtualUsbState * HalResult Bytes :=
  if vus_closed session then (s, Err (vu_closed "usb.transfer"))
  else
    match UsbTransfer_validate transfer with
    | Err e => (s, Err e)
    | Ok _ =>
        match injected (vu_next_transfer s) (vus_descriptor session) with
        | Some e => (mkVirtualUsbState (vu_claims s) (vu_data s) (vu_control s) None, Err e)
        | None => let '(s, bytes) := vu_perform transfer s in (s, Ok bytes)
        end
    end.
Definition vu_release (session : VirtualUsbSession) (s : VirtualUsbState) : VirtualUsbState :=
  if vus_closed session then s
  else vu_set_claims (λ c, c ∖ {[claim_number (vus_claim session)]}) s.
Definition VirtualUsbSession_close (session : VirtualUsbSession) (s : VirtualUsbState)
    : VirtualUsbSession * VirtualUsbState * HalResult unit :=
  (mkVirtualUsbSession (vus_descriptor session) (vus_claim session) true, vu_release session s, Ok ()).
Definition VirtualUsbSession_drop (session : VirtualUsbSession) (s : VirtualUsbState)
    : VirtualUsbState := vu_release session s.

(** A session with the state it shares is a native session of the USB manager. *)
Global Instance virtual_usb_session : UsbInterfaceSession (VirtualUsbSession * VirtualUsbState) := {
  usb_session_transfer '(session, s) transfer timeout :=
    let '(s, r) := VirtualUsbSession_transfer session transfer s in ((session, s), r);
  usb_session_close '(session, s) :=
    let '(session, s, r) := VirtualUsbSession_close session s in ((session, s), r);
}.

(** ** virtual_gpio.rs *)
Record VgSessionState := mkVgSessionState {
  vgs_state_lines : list Z;
  vgs_events : list (Z * GpioEdge * Z);
  vgs_dropped_events : Z;
  vgs_sequence : Z;
}.
Record VirtualGpioState := mkVirtualGpioState {
  vg_values : list bool;
  vg_claimed : gset Z;
  vg_sessions : gmap Z VgSessionState;
  vg_event_capacity : Z;
  vg_next_session : Z;
  vg_next_read : option HalError;
}.
Record VirtualGpioSession := mkVirtualGpioSession {
  vgs_descriptor : ResourceDescriptor;
  vgs_lines : list Z;
  vgs_config : GpioLineConfig;
  vgs_session_id : Z;
  vgs_closed : bool;
}.
Definition vg_set_values (f : list bool → list bool) (s : VirtualGpioState) : VirtualGpioState :=
  mkVirtualGpioState (f (vg_values s)) (vg_claimed s) (vg_sessions s) (vg_event_capacity s)
    (vg_next_session s) (vg_next_read s).
Definition vg_set_claimed (f : gset Z → gset Z) (s : VirtualGpioState) : VirtualGpioState :=
  mkVirtualGpioState (vg_values s) (f (vg_claimed s)) (vg_sessions s) (vg_event_capacity s)
    (vg_next_session s) (vg_next_read s).
Definition vg_set_sessions (f : gmap Z VgSessionState → gmap Z VgSessionState) (s : VirtualGpioState)
    : VirtualGpioState :=
  mkVirtualGpioState (vg_values s) (vg_claimed s) (f (vg_sessions s)) (vg_event_capacity s)
    (vg_next_session s) (vg_next_read s).
Definition VirtualGpioAdapter_fail_next_read (error : HalError) (s : VirtualGpioState)
    : VirtualGpioState :=
  mkVirtualGpioState (vg_values s) (vg_claimed s) (vg_sessions s) (vg_event_capacity s)
    (vg_next_session s) (Some error).

(** [None]: the capacity fails the assertion. *)
Definition VirtualGpioAdapter_line_bank_with_event_capacity (resource_id : string) (lines capacity : Z)
    : option (HalResult (ResourceDescriptor * VirtualGpioState)) :=
  if (1 <=? capacity) && (capacity <=? MAX_GPIO_EVENTS) then
    Some ((λ d, (d, mkVirtualGpioState (replicate (Z.to_nat lines) false) ∅ ∅ capacity 0 None)) <$>
          virtual_descriptor "virtual://gpio/" resource_id Gpio []
            [gpio_lines_capability; gpio_edges_capability])
  else None.
Definition VirtualGpioAdapter_line_bank (resource_id : string) (lines : Z) :=
  VirtualGpioAdapter_line_bank_with_event_capacity resource_id lines DEFAULT_GPIO_EVENT_CAPACITY.
Definition vg_invalid (operation : string) : HalError :=
  static_error "runtime.argument.invalid" InvalidArgument operation false "invalid virtual GPIO request".
Definition vg_conflict (operation : string) : HalError :=
  static_error "runtime.adapter.conflict" Conflict operation false "GPIO line is already claimed".
Definition vg_direction (operation : string) : HalError :=
  static_error "gpio.direction.invalid" InvalidArgument operation false
    "GPIO line is not configured for output".
Definition vg_lagged (dropped_count : Z) : HalError :=
  HalError_with_context
    (static_error "gpio.edge.lagged" Unavailable "gpio.next_edge" true
       "the bounded virtual GPIO edge queue dropped oldest events")
    (lag_context dropped_count).

Definition vgs_push (capacity : Z) (event : Z * GpioEdge * Z) (s : VgSessionState) : VgSessionState :=
  if bool_decide (event.1.1 ∈ vgs_state_lines s) then
    if len (vgs_events s) =? capacity then
      mkVgSessionState (vgs_state_lines s) (tail (vgs_events s) ++ [event])
        (saturating_add u64_max (vgs_dropped_events s) 1) (vgs_sequence s)
    else
      mkVgSessionState (vgs_state_lines s) (vgs_events s ++ [event]) (vgs_dropped_events s) (vgs_sequence s)
  else s.
Definition VirtualGpioAdapter_inject_edge (line : Z) (edge : GpioEdge) (monotonic_ns : Z)
    (s : VirtualGpioState) : VirtualGpioState * HalResult unit :=
  if len (vg_values s) <=? line then (s, Err (vg_invalid "gpio.inject_edge"))
  else (vg_set_sessions (fmap (vgs_push (vg_event_capacity s) (line, edge, monotonic_ns))) s, Ok ()).
Definition VirtualGpioAdapter_claimed_lines (s : VirtualGpioState) : list Z :=
  merge_sort Z.le (elements (vg_claimed s)).

(** [values[l] = v]: the line is in range. *)
Definition set_line (l : Z) (v : bool) (values : list bool) : list bool := <[Z.to_nat l := v]> values.
Definition claim_line (config : GpioLineConfig) (s : VirtualGpioState) (l : Z) : VirtualGpioState :=
  let s := vg_set_claimed (λ c, {[l]} ∪ c) s in
  match gpio_initial_value config with Some v => vg_set_values (set_line l v) s | None => s end.
Definition VirtualGpioAdapter_open (descriptor : ResourceDescriptor) (selector : ResourceSelector)
    (lines : list Z) (config : GpioLineConfig) (s : VirtualGpioState)
    : VirtualGpioState * HalResult VirtualGpioSession :=
  match resolve_resource [descriptor] selector gpio_lines_capability "gpio.open" with
  | Err e => (s, Err e)
  | Ok d =>
      if (len lines =? 0)
         || existsb (λ l, (len (vg_values s) <=? l) || bool_decide (l ∈ vg_claimed s)) lines
      then (s, Err (vg_conflict "gpio.open"))
      else
        let s := foldl (claim_line config) s lines in
        let session_id := vg_next_session s in
        (mkVirtualGpioState (vg_values s) (vg_claimed s)
           (<[session_id := mkVgSessionState lines [] 0 0]> (vg_sessions s)) (vg_event_capacity s)
           (saturating_add u64_max (vg_next_session s) 1) (vg_next_read s),
         Ok (mkVirtualGpioSession d lines config session_id false))
  end.

(** [values[l]]: the line is in range ([vg_inv]). *)
Definition line_value (values : list bool) (l : Z) : bool := default false (values !! Z.to_nat l).
Definition VirtualGpioSession_read (session : VirtualGpioSession) (s : VirtualGpioState)
    : VirtualGpioState * HalResult (list bool) :=
  match injected (vg_next_read s) (vgs_descriptor session) with
  | Some e =>
      (mkVirtualGpioState (vg_values s) (vg_claimed s) (vg_sessions s) (vg_event_capacity s)
         (vg_next_session s) None, Err e)
  | None => (s, Ok (map (line_value (vg_values s)) (vgs_lines session)))
  end.
Definition VirtualGpioSession_write (session : VirtualGpioSession) (values : list bool)
    (s : VirtualGpioState) : VirtualGpioState * HalResult unit :=
  match gpio_direction (vgs_config session) with
  | Input => (s, Err (vg_direction "gpio.write"))
  | Output =>
      if negb (len values =? len (vgs_lines session)) then (s, Err (vg_invalid "gpio.write"))
      else
        (vg_set_values (λ vs, foldl (λ vs lv, set_line lv.1 lv.2 vs) vs (zip (vgs_lines session) values)) s,
         Ok ())
  end.
Definition vgs_next_edge (request : GpioEdgeRequest) (q : VgSessionState)
    : VgSessionState * HalResult (option GpioEdgeEvent) :=
  if 0 <? vgs_dropped_events q then
    (mkVgSessionState (vgs_state_lines q) (vgs_events q) 0 (vgs_sequence q),
     Err (vg_lagged (vgs_dropped_events q)))
  else
    match list_find (λ e, EdgeMask_contains (edge_mask request) e.1.2 = true) (vgs_events q) with
    | Some (i, (_, e, t)) =>
        let sequence := vgs_sequence q + 1 in
        (mkVgSessionState (vgs_state_lines q) (delete i (vgs_events q)) (vgs_dropped_events q) sequence,
         Ok (Some (mkGpioEdgeEvent e t sequence)))
    | None => (q, Ok None)
    end.
(** [None]: the queue is gone, and [expect] panics.  The timeout is ignored. *)
Definition VirtualGpioSession_next_edge (session : VirtualGpioSession) (request : GpioEdgeRequest)
    (s : VirtualGpioState) : option (VirtualGpioState * HalResult (option GpioEdgeEvent)) :=
  q ← vg_sessions s !! vgs_session_id session;
  let '(q, r) := vgs_next_edge request q in
  Some (vg_set_sessions (<[vgs_session_id session := q]>) s, r).
Definition vg_release (session : VirtualGpioSession) (s : VirtualGpioState) : VirtualGpioState :=
  if vgs_closed session then s
  else
    vg_set_sessions (delete (vgs_session_id session))
      (vg_set_claimed (λ c, c ∖ list_to_set (vgs_lines session)) s).
Definition VirtualGpioSession_close (session : VirtualGpioSession) (s : VirtualGpioState)
    : VirtualGpioSession * VirtualGpioState * HalResult unit :=
  (mkVirtualGpioSession (vgs_descriptor session) (vgs_lines session) (vgs_config session)
     (vgs_session_id session) true, vg_release session s, Ok ()).
Definition VirtualGpioSession_drop (session : VirtualGpioSession) (s : VirtualGpioState)
    : VirtualGpioState := vg_release session s.

(** ** Exclusive claims *)

(** What is claimed is what the open sessions hold, and no two hold the same. *)
Definition exclusive_claims (claims : gset Z) (held : list (gset Z)) : Prop :=
  claims = ⋃ held ∧ ForallOrdPairs disjoint held.
Lemma disjoint_all (x : gset Z) held : x ## ⋃ held ↔ Forall (disjoint x) held.
Proof.
  induction held as [|y held IH]; simpl; [split; [constructor|set_solver]|].
  rewrite Forall_cons, <- IH. set_solver.
Qed.
Lemma exclusive_perm claims held held' :
  held ≡ₚ held' → exclusive_claims claims held → exclusive_claims claims held'.
Proof.
  intros Hp [-> Hd]. split; [by apply leibniz_equiv; rewrite Hp|].
  apply (ForallOrdPairs_perm _ held); [|done|done]. by intros x y ?; symmetry.
Qed.
Lemma exclusive_claim claims held x :
  x ## claims → exclusive_claims claims held → exclusive_claims (x ∪ claims) (x :: held).
Proof.
  intros Hx [-> Hd]. split; [done|]. constructor; [|done].
  by apply disjoint_all.
Qed.
Lemma exclusive_release claims held x :
  exclusive_claims claims (x :: held) → exclusive_claims (claims ∖ x) held.
Proof.
  intros [-> Hd]. inversion Hd as [|? ? Hx Hd']; subst. split; [|done].
  assert (x ## ⋃ held) as Hx'.
  { by apply disjoint_all. }
  simpl. set_solver.
Qed.
(** What the open sessions of a list hold. *)
Definition held_claims {A} (closed : A → bool) (holds : A → gset Z) (sessions : list A) : list (gset Z) :=
  map holds (List.filter (λ a, negb (closed a)) sessions).
Section held_claims.
Context {A : Type} (closed : A → bool) (holds : A → gset Z).
Lemma held_perm l l' : l ≡ₚ l' → held_claims closed holds l ≡ₚ held_claims closed holds l'.
Proof.
  intros Hp. unfold held_claims. apply Permutation_map.
  induction Hp; simpl; repeat case_match; try econstructor; eauto.
Qed.
Lemma exclusive_open claims l x :
  closed x = false → holds x ## claims → exclusive_claims claims (held_claims closed holds l) →
  exclusive_claims (holds x ∪ claims) (held_claims closed holds (l ++ [x])).
Proof.
  intros Hc Hx He. eapply exclusive_perm; [apply held_perm, Permutation_cons_append|].
  unfold held_claims. simpl. rewrite Hc. by apply exclusive_claim.
Qed.
Lemma delete_insert_same (l : list A) i y : delete i (<[i := y]> l) = delete i l.
Proof. revert i. induction l as [|x l IH]; intros [|i]; try done. cbn. f_equal. apply IH. Qed.
Lemma insert_perm (l : list A) i y : (i < length l)%nat → <[i := y]> l ≡ₚ y :: delete i l.
Proof.
  intros Hi. rewrite (delete_Permutation (<[i := y]> l) i y) by by apply list_lookup_insert_eq.
  by rewrite delete_insert_same.
Qed.
(** Closing or dropping one of them. *)
Lemma exclusive_gone claims l i x :
  l !! i = Some x → exclusive_claims claims (held_claims closed holds l) →
  exclusive_claims (if closed x then claims else claims ∖ holds x) (held_claims closed holds (delete i l)).
Proof.
  intros Hi He. apply (exclusive_perm _ _ (held_claims closed holds (x :: delete i l))) in He;
    [|by apply held_perm, delete_Permutation].
  unfold held_claims in *. simpl in He. destruct (closed x); [done|]. by apply exclusive_release.
Qed.
Lemma exclusive_close claims l i x y :
  l !! i = Some x → closed y = true → exclusive_claims claims (held_claims closed holds l) →
  exclusive_claims (if closed x then claims else claims ∖ holds x) (held_claims closed holds (<[i := y]> l)).
Proof.
  intros Hi Hy He. eapply exclusive_perm;
    [symmetry; apply held_perm, insert_perm; by eapply lookup_lt_Some|].
  unfold held_claims at 1. simpl. rewrite Hy. by apply exclusive_gone.
Qed.
Lemma exclusive_update claims l i x y :
  l !! i = Some x → closed y = closed x → holds y = holds x →
  exclusive_claims claims (held_claims closed holds l) →
  exclusive_claims claims (held_claims closed holds (<[i := y]> l)).
Proof.
  intros Hi Hc Hh He. eapply exclusive_perm; [symmetry; apply held_perm, insert_perm;
    by eapply lookup_lt_Some|].
  apply (exclusive_perm _ _ (held_claims closed holds (x :: delete i l))) in He;
    [|by apply held_perm, delete_Permutation].
  unfold held_claims in *. simpl in *. rewrite Hc. destruct (closed x); [done|]. simpl in *. by rewrite Hh.
Qed.
End held_claims.

(** *** USB *)
Definition vus_holds (session : VirtualUsbSession) : gset Z := {[claim_number (vus_claim session)]}.
Inductive vu_step (a : VirtualUsbAdapter)
    : VirtualUsbState * list VirtualUsbSession → VirtualUsbState * list VirtualUsbSession → Prop :=
  | VuOpen s l selector claim s' session :
      VirtualUsbAdapter_open a selector claim s = (s', Ok session) → vu_step a (s, l) (s', l ++ [session])
  | VuOpenFails s l selector claim s' e :
      VirtualUsbAdapter_open a selector claim s = (s', Err e) → vu_step a (s, l) (s', l)
  | VuTransfer s l i session transfer s' r :
      l !! i = Some session → VirtualUsbSession_transfer session transfer s = (s', r) →
      vu_step a (s, l) (s', l)
  | VuClose s l i session session' s' r :
      l !! i = Some session → VirtualUsbSession_close session s = (session', s', r) →
      vu_step a (s, l) (s', <[i := session']> l)
  | VuDrop s l i session :
      l !! i = Some session → vu_step a (s, l) (VirtualUsbSession_drop session s, delete i l)
  | VuFail s l error : vu_step a (s, l) (VirtualUsbAdapter_fail_next_transfer error s, l).

Lemma vu_transfer_claims session transfer s s' r :
  VirtualUsbSession_transfer session transfer s = (s', r) → vu_claims s' = vu_claims s.
Proof.
  unfold VirtualUsbSession_transfer. destruct (vus_closed session); [by intros [= <- <-]|].
  destruct (UsbTransfer_validate transfer); [|by intros [= <- <-]].
  destruct (injected _ _); [by intros [= <- <-]|]. by destruct transfer; intros [= <- <-].
Qed.
Lemma vu_release_claims session s :
  vu_claims (vu_release session s)
  = if vus_closed session then vu_claims s else vu_claims s ∖ vus_holds session.
Proof. unfold vu_release. by destruct (vus_closed session). Qed.
Lemma vu_open_claims a selector claim s s' session :
  VirtualUsbAdapter_open a selector claim s = (s', Ok session) →
  vus_closed session = false ∧ vus_claim session = claim ∧ claim_number claim ∉ vu_claims s ∧
  vu_claims s' = vus_holds session ∪ vu_claims s.
Proof.
  unfold VirtualUsbAdapter_open. destruct (resolve_resource _ _ _ _); [|done].
  case_bool_decide; [done|]. by intros [= <- <-].
Qed.
Lemma vu_open_Err a selector claim s s' e :
  VirtualUsbAdapter_open a selector claim s = (s', Err e) → s' = s.
Proof.
  unfold VirtualUsbAdapter_open. destruct (resolve_resource _ _ _ _); [|by intros [= <- <-]].
  case_bool_decide; [by intros [= <- <-]|done].
Qed.

(** Each virtual USB interface has at most one open session, and is claimed exactly while it
    has one, under any order of opens, transfers, closes and drops. *)
Theorem vu_claims_exclusive a s l s' l' :
  rtc (vu_step a) (s, l) (s', l') →
  exclusive_claims (vu_claims s) (held_claims vus_closed vus_holds l) →
  exclusive_claims (vu_claims s') (held_claims vus_closed vus_holds l').
Proof.
  intros Hr. remember (s, l) as x. remember (s', l') as y. revert s l Heqx.
  induction Hr as [x|x [s1 l1] y Hs _ IH]; intros s l -> He; [by injection Heqy as <- <-|].
  apply (IH Heqy _ _ eq_refl). clear IH.
  inversion Hs as [? ? ? ? ? ? Ho|? ? ? ? ? ? Ho|? ? ? ? ? ? ? Hi Ho|? ? ? ? ? ? ? Hi Ho|? ? ? ? Hi|];
    subst; [| | | | |done].
  - apply vu_open_claims in Ho as (Hc & <- & Hn & ->). apply exclusive_open; [done|unfold vus_holds; set_solver|done].
  - by apply vu_open_Err in Ho as ->.
  - by apply vu_transfer_claims in Ho as ->.
  - injection Ho as <- <- <-. rewrite vu_release_claims. by eapply exclusive_close.
  - unfold VirtualUsbSession_drop. rewrite vu_release_claims. by eapply exclusive_gone.
Qed.

(** What is written to an OUT endpoint is what the IN endpoint of the same number reads, up to
    its bound; likewise for control transfers. *)
Definition reads_back (out in_ : UsbTransfer) : Prop :=
  match out, in_ with
  | ControlOut _ _ _ _ _, ControlIn _ _ _ _ _ => True
  | (BulkOut e _ | InterruptOut e _), (BulkIn e' _ | InterruptIn e' _) =>
      Z.land e 0x7f = Z.land e' 0x7f
  | _, _ => False
  end.
Definition out_data (t : UsbTransfer) : Bytes :=
  match t with ControlOut _ _ _ _ d | BulkOut _ d | InterruptOut _ d => d | _ => [] end.
Theorem vu_loopback session out in_ s :
  vus_closed session = false → vu_next_transfer s = None →
  UsbTransfer_validate out = Ok () → UsbTransfer_validate in_ = Ok () → reads_back out in_ →
  ∃ s', VirtualUsbSession_transfer session out s = (s', Ok []) ∧
    VirtualUsbSession_transfer session in_ s'
    = (s', Ok (take (Z.to_nat (Z.min (len (out_data out)) (transfer_size in_))) (out_data out))).
Proof.
  intros Hc Hn Ho Hi Hr. unfold VirtualUsbSession_transfer. rewrite Hc, Ho, Hi, Hn. simpl.
  destruct out, in_; simpl in Hr; try done; eexists; (split; [done|]); simpl; rewrite Hn; simpl;
    rewrite <- ?Hr, ?lookup_insert_eq; done.
Qed.

(** *** GPIO *)
Definition vgs_holds (session : VirtualGpioSession) : gset Z := list_to_set (vgs_lines session).
Definition vg_fits (s : VirtualGpioState) (q : VgSessionState) : Prop :=
  len (vgs_events q) <= vg_event_capacity s.
Definition vg_serves (s : VirtualGpioState) (session : VirtualGpioSession) : Prop :=
  Forall (λ l, 0 <= l < len (vg_values s)) (vgs_lines session) ∧
  ∃ q, vg_sessions s !! vgs_session_id session = Some q ∧ vgs_state_lines q = vgs_lines session.
Record vg_inv (s : VirtualGpioState) (l : list VirtualGpioSession) : Prop := {
  vgi_claims : exclusive_claims (vg_claimed s) (held_claims vgs_closed vgs_holds l);
  vgi_served : ∀ session, session ∈ l → vgs_closed session = false → vg_serves s session;
  vgi_ids : NoDup (vgs_session_id <$> l);
  vgi_below : Forall (λ session, vgs_session_id session < vg_next_session s) l;
  vgi_fits : ∀ id q, vg_sessions s !! id = Some q → vg_fits s q;
  vgi_capacity : 1 <= vg_event_capacity s;
}.
(** The session ids of 2^64 opens are distinct; the lines of a request are [u32]. *)
Inductive vg_step (d : ResourceDescriptor)
    : VirtualGpioState * list VirtualGpioSession → VirtualGpioState * list VirtualGpioSession → Prop :=
  | VgOpen s l selector lines config s' session :
      vg_next_session s < u64_max → Forall (λ line, 0 <= line) lines →
      VirtualGpioAdapter_open d selector lines config s = (s', Ok session) →
      vg_step d (s, l) (s', l ++ [session])
  | VgOpenFails s l selector lines config s' e :
      VirtualGpioAdapter_open d selector lines config s = (s', Err e) → vg_step d (s, l) (s', l)
  | VgInject s l line edge ns s' r :
      VirtualGpioAdapter_inject_edge line edge ns s = (s', r) → vg_step d (s, l) (s', l)
  | VgRead s l i session s' r :
      l !! i = Some session → VirtualGpioSession_read session s = (s', r) → vg_step d (s, l) (s', l)
  | VgWrite s l i session values s' r :
      l !! i = Some session → VirtualGpioSession_write session values s = (s', r) →
      vg_step d (s, l) (s', l)
  | VgNextEdge s l i session request s' r :
      l !! i = Some session → VirtualGpioSession_next_edge session request s = Some (s', r) →
      vg_step d (s, l) (s', l)
  | VgClose s l i session session' s' r :
      l !! i = Some session → VirtualGpioSession_close session s = (session', s', r) →
      vg_step d (s, l) (s', <[i := session']> l)
  | VgDrop s l i session :
      l !! i = Some session → vg_step d (s, l) (VirtualGpioSession_drop session s, delete i l)
  | VgFail s l error : vg_step d (s, l) (VirtualGpioAdapter_fail_next_read error s, l).

(** What a step that only touches values and queues leaves alone. *)
Record vg_same (s s' : VirtualGpioState) : Prop := {
  vgm_claimed : vg_claimed s' = vg_claimed s;
  vgm_next : vg_next_session s' = vg_next_session s;
  vgm_capacity : vg_event_capacity s' = vg_event_capacity s;
  vgm_values : length (vg_values s') = length (vg_values s);
  vgm_sessions : ∀ id, match vg_sessions s !! id, vg_sessions s' !! id with
    | Some q, Some q' => vgs_state_lines q' = vgs_state_lines q ∧ (vg_fits s q → vg_fits s q')
    | None, None => True
    | _, _ => False
    end;
}.
Lemma vg_same_refl s : vg_same s s.
Proof. split; try done. intros id. by destruct (_ !! _). Qed.
Lemma vg_inv_same s s' l : vg_same s s' → vg_inv s l → vg_inv s' l.
Proof.
  intros [H1 H2 H3 H4 H5] [I1 I2 I3 I4 I5 I6]. split; rewrite ?H1, ?H2, ?H3; try done.
  - intros session Hin Hc. destruct (I2 session Hin Hc) as (Hf & q & Hq & Hl).
    split; [unfold len in *; by rewrite H4|]. specialize (H5 (vgs_session_id session)). rewrite Hq in H5.
    destruct (vg_sessions s' !! _) as [q'|]; [|done]. exists q'. split; [done|]. by destruct H5 as [-> _].
  - intros id q' Hq'. specialize (H5 id). rewrite Hq' in H5.
    destruct (vg_sessions s !! id) as [q|] eqn:Hq; [|done]. unfold vg_fits. rewrite H3.
    apply H5. by eapply I5.
Qed.
Lemma vgs_push_spec capacity event q :
  1 <= capacity → vgs_state_lines (vgs_push capacity event q) = vgs_state_lines q ∧
  (len (vgs_events q) <= capacity → len (vgs_events (vgs_push capacity event q)) <= capacity).
Proof.
  intros Hc. unfold vgs_push. case_bool_decide; [|done].
  destruct (_ =? _) eqn:He; bool_simp; split; try done; simpl; intros Hl;
    unfold len in *; rewrite length_app; simpl; [|lia].
  destruct (vgs_events q); simpl in *; lia.
Qed.
Lemma vgs_next_edge_spec request q :
  vgs_state_lines (vgs_next_edge request q).1 = vgs_state_lines q ∧
  len (vgs_events (vgs_next_edge request q).1) <= len (vgs_events q).
Proof.
  unfold vgs_next_edge. destruct (0 <? _); [done|].
  destruct (list_find _ _) as [[i [[x e] t]]|] eqn:Hf; [|done].
  apply list_find_Some in Hf as (Hi & _). split; [done|]. simpl.
  unfold len. rewrite length_delete by done. lia.
Qed.
Lemma set_lines_length lvs values :
  length (foldl (λ vs lv, set_line lv.1 lv.2 vs) values lvs) = length values.
Proof.
  revert values. induction lvs as [|lv lvs IH]; intros values; [done|].
  simpl. rewrite IH. apply length_insert.
Qed.
Lemma vg_same_inject s s' line edge ns r :
  1 <= vg_event_capacity s →
  VirtualGpioAdapter_inject_edge line edge ns s = (s', r) → vg_same s s'.
Proof.
  intros Hc. unfold VirtualGpioAdapter_inject_edge.
  destruct (_ <=? _); intros [= <- <-]; [apply vg_same_refl|]. split; try done.
  intros id. simpl. rewrite lookup_fmap. destruct (vg_sessions s !! id) as [q|]; [|done].
  by apply vgs_push_spec.
Qed.
Lemma vg_same_next_edge s s' session request r :
  VirtualGpioSession_next_edge session request s = Some (s', r) → vg_same s s'.
Proof.
  unfold VirtualGpioSession_next_edge. destruct (vg_sessions s !! _) as [q|] eqn:Hq; [|done]. simpl.
  pose proof (vgs_next_edge_spec request q) as [H1 H2].
  destruct (vgs_next_edge request q) as [q' r'] eqn:He. intros [= <- <-]. split; try done.
  intros id. simpl in *. destruct (decide (id = vgs_session_id session)) as [->|Hne].
  - rewrite Hq, lookup_insert_eq. split; [done|]. unfold vg_fits. lia.
  - rewrite lookup_insert_ne by done. by destruct (_ !! id).
Qed.

Lemma claim_lines config s lines :
  let s' := foldl (claim_line config) s lines in
  vg_claimed s' = list_to_set lines ∪ vg_claimed s ∧ len (vg_values s') = len (vg_values s) ∧
  vg_sessions s' = vg_sessions s ∧ vg_next_session s' = vg_next_session s ∧
  vg_event_capacity s' = vg_event_capacity s.
Proof.
  revert s. induction lines as [|l lines IH]; intros s; simpl.
  { repeat split. set_solver. }
  destruct (IH (claim_line config s l)) as (-> & -> & -> & -> & ->). unfold claim_line.
  destruct (gpio_initial_value config); simpl; (split; [set_solver|]); repeat split.
  unfold len, set_line. by rewrite length_insert.
Qed.
Lemma open_guard s lines :
  (len lines =? 0) || existsb (λ l, (len (vg_values s) <=? l) || bool_decide (l ∈ vg_claimed s)) lines = false →
  lines ≠ [] ∧ Forall (λ l, l < len (vg_values s)) lines ∧ list_to_set lines ## vg_claimed s.
Proof.
  intros [H1 H2]%orb_false_iff. split; [by destruct lines|]. clear H1.
  induction lines as [|l lines IH]; simpl in *; [split; [constructor|set_solver]|].
  apply orb_false_iff in H2 as [[H2 H3]%orb_false_iff H4]. destruct (IH H4).
  bool_simp. split; [by constructor|]. set_solver.
Qed.

Lemma vg_open_inv d s selector lines config s' session l :
  vg_next_session s < u64_max → Forall (λ line, 0 <= line) lines →
  VirtualGpioAdapter_open d selector lines config s = (s', Ok session) →
  vg_inv s l → vg_inv s' (l ++ [session]).
Proof.
  intros Hn Hl. unfold VirtualGpioAdapter_open. destruct (resolve_resource _ _ _ _) as [d'|]; [|done].
  destruct (_ || _) eqn:Hb; [done|]. intros [= <- <-]. apply open_guard in Hb as (_ & Hr & Hd).
  destruct (claim_lines config s lines) as (-> & Hv & -> & -> & ->).
  intros [I1 I2 I3 I4 I5 I6].
  assert (saturating_add u64_max (vg_next_session s) 1 = vg_next_session s + 1) as Hs
    
    by (unfold saturating_add; rewrite Z.min_r; lia).
  split; simpl; rewrite ?Hs; try done.
  - by apply (exclusive_open vgs_closed vgs_holds (vg_claimed s) l
        (mkVirtualGpioSession d' lines config (vg_next_session s) false)).
  - intros session [Hin| ->%list_elem_of_singleton]%elem_of_app Hc; unfold vg_serves; simpl; rewrite Hv.
    + destruct (I2 session Hin Hc) as (Hf & q & Hq & Hql). split; [done|]. exists q.
      rewrite lookup_insert_ne; [done|]. rewrite Forall_forall in I4. specialize (I4 _ Hin). lia.
    + split; [apply Forall_and; by split|]. exists (mkVgSessionState lines [] 0 0).
      split; [apply lookup_insert_eq|done].
  - rewrite fmap_app. apply NoDup_app. split; [done|]. split; [|apply NoDup_singleton].
    intros id (x & Hx & Hin)%list_elem_of_fmap Hid%list_elem_of_singleton.
    rewrite Forall_forall in I4. specialize (I4 _ Hin). simpl in *. lia.
  - apply Forall_app. split; [|repeat constructor; simpl; lia].
    eapply Forall_impl; [exact I4|]. simpl. lia.
  - intros id q. destruct (decide (id = vg_next_session s)) as [->|Hne].
    + rewrite lookup_insert_eq. intros [= <-]. unfold vg_fits. simpl. unfold len. simpl. lia.
    + rewrite lookup_insert_ne by done. apply I5.
Qed.

(** One of the sessions is gone; [l'] is what is left, with what stays of it. *)
Lemma vg_release_inv s l l' i session :
  l !! i = Some session → vg_inv s l →
  exclusive_claims (if vgs_closed session then vg_claimed s else vg_claimed s ∖ vgs_holds session)
    (held_claims vgs_closed vgs_holds l') →
  (∀ x, x ∈ l' → vgs_closed x = false → x ∈ delete i l) →
  NoDup (vgs_session_id <$> l') →
  Forall (λ x, vgs_session_id x < vg_next_session s) l' →
  vg_inv (vg_release session s) l'.
Proof.
  intros Hi [I1 I2 I3 I4 I5 I6] He Hin Hnd Hb. pose proof (delete_Permutation l i session Hi) as Hp.
  unfold vg_release. destruct (vgs_closed session) eqn:Hc; split; simpl; try done.
  - intros x Hx Hxc. apply I2; [|done]. rewrite Hp. right. by apply Hin.
  - intros x Hx Hxc. specialize (Hin x Hx Hxc).
    destruct (I2 x) as (Hf & q & Hq & Hl); [rewrite Hp; by right|done|].
    split; [done|]. exists q. simpl. rewrite lookup_delete_ne; [done|].
    intros Heq. rewrite Hp in I3. inversion I3 as [|? ? Hn _]; subst. apply Hn.
    rewrite Heq. by apply list_elem_of_fmap_2.
  - intros id q [Hne Hq]%lookup_delete_Some. by apply (I5 id).
Qed.
Lemma vg_drop_inv s l i session :
  l !! i = Some session → vg_inv s l → vg_inv (vg_release session s) (delete i l).
Proof.
  intros Hi HI. pose proof (delete_Permutation l i session Hi) as Hp.
  destruct HI as [I1 I2 I3 I4 I5 I6]. apply (vg_release_inv s l _ i session); try done.
  - by apply exclusive_gone.
  - rewrite Hp in I3. by inversion I3.
  - rewrite Hp in I4. by apply Forall_cons in I4 as [_ ?].
Qed.
Lemma vg_close_inv s l i session y :
  l !! i = Some session → vgs_closed y = true → vgs_session_id y = vgs_session_id session →
  vg_inv s l → vg_inv (vg_release session s) (<[i := y]> l).
Proof.
  intros Hi Hy Hid HI. pose proof HI as [I1 I2 I3 I4 I5 I6].
  assert (vgs_session_id <$> <[i := y]> l = vgs_session_id <$> l) as Hids.
  { rewrite list_fmap_insert. apply list_insert_id. by rewrite list_lookup_fmap, Hi, Hid. }
  apply (vg_release_inv s l _ i session); try done.
  - by apply exclusive_close.
  - intros x Hx Hc. rewrite (insert_perm l i y) in Hx by by eapply lookup_lt_Some.
    apply elem_of_cons in Hx as [->|Hx]; [congruence|done].
  - by rewrite Hids.
  - apply Forall_insert; [done|]. rewrite Hid. by eapply (Forall_lookup_1 _ _ _ _ I4).
Qed.

(** Under any order of opens, edges, reads, writes, closes and drops of up to 2^64 sessions:
    the lines claimed are those of the open sessions, no line has two; every open session has
    its queue, at most as long as the capacity, and reads lines that exist; so that neither
    its [read] nor its [next_edge] can panic. *)
Theorem vg_reachable d s l s' l' :
  rtc (vg_step d) (s, l) (s', l') → vg_inv s l → vg_inv s' l'.
Proof.
  intros Hr. remember (s, l) as x. remember (s', l') as y. revert s l Heqx.
  induction Hr as [x|x [s1 l1] y Hs _ IH]; intros s l -> HI; [by injection Heqy as <- <-|].
  apply (IH Heqy _ _ eq_refl). clear IH.
  inversion Hs as [? ? ? ? ? ? ? Hn Hl Ho|? ? ? ? ? ? ? Ho|? ? ? ? ? ? ? Ho|? ? ? ? ? ? Hi Ho
    |? ? ? ? ? ? ? Hi Ho|? ? ? ? ? ? ? Hi Ho|? ? ? ? ? ? ? Hi Ho|? ? ? ? Hi|]; subst.
  - by eapply vg_open_inv.
  - apply (vg_inv_same s); [|done]. revert Ho. unfold VirtualGpioAdapter_open.
    destruct (resolve_resource _ _ _ _); [|intros [= <- <-]; apply vg_same_refl].
    destruct (_ || _); [intros [= <- <-]; apply vg_same_refl|done].
  - apply (vg_inv_same s); [|done]. eapply vg_same_inject; [|done]. by destruct HI.
  - apply (vg_inv_same s); [|done]. revert Ho. unfold VirtualGpioSession_read.
    destruct (injected _ _); intros [= <- <-]; [|apply vg_same_refl]. by destruct (vg_same_refl s); split.
  - apply (vg_inv_same s); [|done]. revert Ho. unfold VirtualGpioSession_write.
    destruct (gpio_direction _); [intros [= <- <-]; apply vg_same_refl|].
    destruct (negb _); intros [= <- <-]; [apply vg_same_refl|].
    destruct (vg_same_refl s); split; try done. simpl. apply set_lines_length.
  - apply (vg_inv_same s); [|done]. by eapply vg_same_next_edge.
  - injection Ho as <- <- <-. by apply vg_close_inv with (session := session).
  - by apply vg_drop_inv.
  - apply (vg_inv_same s); [|done]. by destruct (vg_same_refl s); split.
Qed.

(** *** Edge queues *)
Inductive VgQueueOp := QInject (event : Z * GpioEdge * Z) | QNext (request : GpioEdgeRequest).
Definition vgs_op (capacity : Z) (op : VgQueueOp) (q : VgSessionState)
    : VgSessionState * option (HalResult (option GpioEdgeEvent)) :=
  match op with
  | QInject event => (vgs_push capacity event q, None)
  | QNext request => let '(q, r) := vgs_next_edge request q in (q, Some r)
  end.
Fixpoint vgs_run (capacity : Z) (ops : list VgQueueOp) (q : VgSessionState)
    : VgSessionState * list (HalResult (option GpioEdgeEvent)) :=
  match ops with
  | [] => (q, [])
  | op :: ops =>
      let '(q, r) := vgs_op capacity op q in
      let '(q, rs) := vgs_run capacity ops q in (q, option_list r ++ rs)
  end.
Definition on_lines (lines : list Z) (op : VgQueueOp) : list (GpioEdge * Z) :=
  match op with
  | QInject (line, e, t) => if bool_decide (line ∈ lines) then [(e, t)] else []
  | QNext _ => []
  end.
Definition edge_delivered (r : HalResult (option GpioEdgeEvent)) : list GpioEdgeEvent :=
  match r with Ok (Some e) => [e] | _ => [] end.
(** What the calls reported as lost: a lag error is [vg_lagged n] for what was lost so far. *)
Fixpoint reported (capacity : Z) (ops : list VgQueueOp) (q : VgSessionState) : Z :=
  match ops with
  | [] => 0
  | op :: ops =>
      match op with
      | QNext request => if is_ok (vgs_next_edge request q).2 then 0 else vgs_dropped_events q
      | QInject _ => 0
      end + reported capacity ops (vgs_op capacity op q).1
  end.

Lemma vgs_op_counts capacity op q :
  1 <= capacity → 0 <= vgs_dropped_events q < u64_max → len (vgs_events q) <= capacity →
  let '(q', r) := vgs_op capacity op q in
  vgs_state_lines q' = vgs_state_lines q ∧ len (vgs_events q') <= capacity ∧
  0 <= vgs_dropped_events q' <= vgs_dropped_events q + 1 ∧
  vgs_sequence q' = vgs_sequence q + len (mjoin (edge_delivered <$> option_list r)) ∧
  len (on_lines (vgs_state_lines q) op) + vgs_dropped_events q + len (vgs_events q)
  = len (mjoin (edge_delivered <$> option_list r)) + reported capacity [op] q
    + vgs_dropped_events q' + len (vgs_events q') ∧
  event_sequence <$> mjoin (edge_delivered <$> option_list r)
  = seqZ (vgs_sequence q + 1) (len (mjoin (edge_delivered <$> option_list r))).
Proof.
  intros Hc Hd Hl. destruct op as [[[line e] t]|request]; simpl.
  - unfold vgs_push. simpl. case_bool_decide; simpl; [|split_and!; unfold len in *; simpl; first [done|lia]].
    destruct (_ =? _) eqn:He; bool_simp; simpl; rewrite len_app.
    + unfold saturating_add. rewrite Z.min_r by lia.
      destruct (vgs_events q); unfold len in *; simpl in *; [lia|]. split_and!; first [done|lia].
    + unfold len in *. simpl in *. split_and!; first [done|lia].
  - unfold vgs_next_edge. destruct (0 <? _) eqn:H0; bool_simp; simpl.
    + unfold len in *. simpl. split_and!; first [done|lia].
    + destruct (list_find _ _) as [[i [[x e] t]]|] eqn:Hf; simpl; [|unfold len in *; simpl; split_and!; first [done|lia]].
      apply list_find_Some in Hf as (Hi & _). pose proof (lookup_lt_Some _ _ _ Hi).
      unfold len in *. rewrite length_delete by done. simpl. split_and!; first [done|lia].
Qed.

(** No edge disappears: of what was queued and what is injected on its lines, a session is
    handed each or told how many were lost, but for those still queued or still to report. *)
Theorem vg_edges_conserved capacity ops q :
  1 <= capacity → 0 <= vgs_dropped_events q → len (vgs_events q) <= capacity →
  vgs_dropped_events q + len ops <= u64_max →
  let '(q', rs) := vgs_run capacity ops q in
  len (mjoin (on_lines (vgs_state_lines q) <$> ops)) + vgs_dropped_events q + len (vgs_events q)
  = len (mjoin (edge_delivered <$> rs)) + reported capacity ops q
    + vgs_dropped_events q' + len (vgs_events q') ∧
  len (vgs_events q') <= capacity ∧
  event_sequence <$> mjoin (edge_delivered <$> rs) = seqZ (vgs_sequence q + 1) (len (mjoin (edge_delivered <$> rs))).
Proof.
  intros Hc. revert q. induction ops as [|op ops IH]; intros q Hd Hl Hm; simpl.
  { split_and!; [unfold len; simpl; lia|done|done]. }
  assert (len (op :: ops) = 1 + len ops) as Hn by (unfold len; simpl; lia).
  assert (0 <= len ops) by (unfold len; lia).
  pose proof (vgs_op_counts capacity op q) as Hop. simpl in Hop.
  destruct (vgs_op capacity op q) as [q1 r].
  destruct Hop as (Hs & Hl1 & Hd1 & Hq1 & Hc1 & Hv); [done|lia|done|].
  specialize (IH q1). destruct (vgs_run capacity ops q1) as [q' rs].
  destruct IH as (I1 & I2 & I3); [lia|done|lia|].
  change (list_fmap _ _ (on_lines (vgs_state_lines q)) ops) with (on_lines (vgs_state_lines q) <$> ops).
  rewrite fmap_app, join_app, !len_app. rewrite Hs in I1. simpl. split_and!; [lia|done|].
  rewrite fmap_app, Hv, I3, Hq1, seqZ_app by (unfold len; lia). do 2 f_equal. lia.
Qed.

Lemma vg_edges_conserved_witness :
  let q := mkVgSessionState [3] [] 0 0 in
  let ops := [QInject (3, Rising, 1); QInject (4, Rising, 2); QInject (3, Falling, 3);
              QNext (mkGpioEdgeRequest EdgeMask_BOTH 1); QNext (mkGpioEdgeRequest EdgeMask_BOTH 1)] in
  (vgs_run 1 ops q).2 = [Err (vg_lagged 1); Ok (Some (mkGpioEdgeEvent Falling 3 1))] ∧
  len (mjoin (on_lines [3] <$> ops)) = 2.
Proof.
  pose proof (vg_edges_conserved 1
    [QInject (3, Rising, 1); QInject (4, Rising, 2); QInject (3, Falling, 3);
     QNext (mkGpioEdgeRequest EdgeMask_BOTH 1); QNext (mkGpioEdgeRequest EdgeMask_BOTH 1)]
    (mkVgSessionState [3] [] 0 0)) as H.
  destruct H as [_ _]; [done|done|done|done|]. split; reflexivity.
Defined.

(** A closed session is not checked by [write], [read] or [next_edge]: its [write] sets lines
    that another session holds by then, and its [next_edge] panics. *)
Example closed_gpio_session_acts :
  let d := mkResourceDescriptor (mkResourceId "g") (mkEndpoint "virtual://gpio/g") Strong Gpio
    (mkResourceProperties ∅) (mkCapabilitySet [gpio_lines_capability; gpio_edges_capability]) in
  let output v := mkGpioLineConfig Output false BiasDisabled (Some PushPull) (Some v) in
  let selector := ResourceDescriptor_selector d in
  let s := mkVirtualGpioState [false; false] ∅ ∅ 4 0 None in
  match VirtualGpioAdapter_open d selector [0] (output false) s with
  | (s, Ok first) =>
      let '(first, s, _) := VirtualGpioSession_close first s in
      match VirtualGpioAdapter_open d selector [0] (output true) s with
      | (s, Ok second) =>
          let '(s', r) := VirtualGpioSession_write first [false] s in
          (r, (VirtualGpioSession_read second s').2,
           VirtualGpioSession_next_edge first (mkGpioEdgeRequest EdgeMask_BOTH 1) s')
          = (Ok (), Ok [false], None)
      | _ => False
      end
  | _ => False
  end.
Proof. by vm_compute. Qed.

(** An open session's calls do not panic. *)
Theorem vg_open_session_safe s l session request :
  vg_inv s l → session ∈ l → vgs_closed session = false →
  is_Some (VirtualGpioSession_next_edge session request s) ∧
  Forall (λ line, is_Some (vg_values s !! Z.to_nat line)) (vgs_lines session).
Proof.
  intros HI Hin Hc. destruct (vgi_served _ _ HI session Hin Hc) as (Hf & q & Hq & _). split.
  - unfold VirtualGpioSession_next_edge. rewrite Hq. simpl.
    by destruct (vgs_next_edge request q).
  - eapply Forall_impl; [exact Hf|]. simpl. intros line [??].
    apply lookup_lt_is_Some. unfold len in *. lia.
Qed.

(** A new bank satisfies the invariant. *)
Lemma vg_bank_inv resource_id lines capacity d s :
  VirtualGpioAdapter_line_bank_with_event_capacity resource_id lines capacity = Some (Ok (d, s)) →
  vg_inv s [].
Proof.
  unfold VirtualGpioAdapter_line_bank_with_event_capacity. destruct (_ && _) eqn:Hc; [|done].
  destruct (virtual_descriptor _ _ _ _ _); [|done]. bool_simp. intros [= <- <-].
  split; simpl; [by split; [|constructor]|by intros ? ?%not_elem_of_nil|constructor|constructor|done|lia].
Qed.
