(* ===== verification/TestkitCan.v ===== *)
(** * robot-hal-testkit: the virtual CAN bus and the conformance check

    Models crates/robot-hal-testkit/src/virtual_can.rs.  An adapter and its channels share
    one bus behind a mutex; every method is one atomic step on it, except that a wait on the
    [Condvar] gives the lock away: [wakes] is what the others do to the bus before each time
    the waiter has the lock again, and its end is the deadline.  The conformance check is a
    program over any adapter ([CanAdapterUnderTest]), which the virtual one is shown to pass. *)

From S2P Require Import Prelude Core CanTypes CanActor Native TestkitUsbGpio.
Open Scope Z_scope.

Definition VC_RX_CAPACITY : Z := 256.
Definition VC_TX_CAPACITY : Z := 64.
Definition VC_CLOCK_DOMAIN : string := "virtual-can".

Record BusInner := mkBusInner {
  vc_rx : list ReceivedCanFrame;
  vc_rx_dropped : Z;
  vc_tx : list CanFrame;
  vc_active : CanActiveConfig;
  vc_status : CanBusStatus;
  vc_configure_open : bool;
  vc_open_count : Z;
  vc_close_count : Z;
  vc_next_send : option HalError;
  vc_next_receive : option HalError;
  vc_next_status : option HalError;
  vc_next_close : option HalError;
}.
Record VirtualCanChannel := mkVirtualCanChannel {
  vcc_descriptor : ResourceDescriptor;
  vcc_active : CanActiveConfig;
  vcc_restore : option CanActiveConfig;
  vcc_closed : bool;
}.
Definition vc_set_queues (rx : list ReceivedCanFrame) (dropped : Z) (tx : list CanFrame) (b : BusInner)
    : BusInner :=
  mkBusInner rx dropped tx (vc_active b) (vc_status b) (vc_configure_open b) (vc_open_count b)
    (vc_close_count b) (vc_next_send b) (vc_next_receive b) (vc_next_status b) (vc_next_close b).
Definition vc_set_link (active : CanActiveConfig) (configure_open : bool) (opened closed : Z) (b : BusInner)
    : BusInner :=
  mkBusInner (vc_rx b) (vc_rx_dropped b) (vc_tx b) active (vc_status b) configure_open opened closed
    (vc_next_send b) (vc_next_receive b) (vc_next_status b) (vc_next_close b).
Definition vc_set_failures (send receive status close : option HalError) (b : BusInner) : BusInner :=
  mkBusInner (vc_rx b) (vc_rx_dropped b) (vc_tx b) (vc_active b) (vc_status b) (vc_configure_open b)
    (vc_open_count b) (vc_close_count b) send receive status close.

(** ** The adapter *)
Definition VirtualCanAdapter_loopback_with_mode (resource_id : string) (mode : CanMode)
    : HalResult (ResourceDescriptor * BusInner) :=
  virtual_descriptor "virtual://can/" resource_id Can [("adapter", "virtual"); ("mode", "loopback")]
    [can_classic_capability; can_fd_capability; can_configure_capability;
     can_error_frames_capability; can_rx_timestamp_capability] ≫= λ descriptor,
  CanBitTiming_new 500000 None None ≫= λ nominal,
  match mode with
  | Fd => Some <$> CanBitTiming_new 2000000 None None
  | Classic => Ok None
  end ≫= λ data,
  CanActiveConfig_new mode nominal data false true VC_CLOCK_DOMAIN ≫= λ active,
  Ok (descriptor,
      mkBusInner [] 0 [] active (mkCanBusStatus BusActive (Some 0) (Some 0)) false 0 0 None None None None).
Definition VirtualCanAdapter_loopback (resource_id : string) :=
  VirtualCanAdapter_loopback_with_mode resource_id Classic.
Definition VirtualCanAdapter_loopback_fd (resource_id : string) :=
  VirtualCanAdapter_loopback_with_mode resource_id Fd.

(** The bounded receive queue, shared by [inject_received] and [send]. *)
Definition vc_deliver (frame : ReceivedCanFrame) (b : BusInner) : BusInner :=
  if len (vc_rx b) =? VC_RX_CAPACITY then
    vc_set_queues (tail (vc_rx b) ++ [frame]) (saturating_add u64_max (vc_rx_dropped b) 1) (vc_tx b) b
  else vc_set_queues (vc_rx b ++ [frame]) (vc_rx_dropped b) (vc_tx b) b.
Definition VirtualCanAdapter_inject_received (frame : CanFrame) (timestamp : option CanTimestamp)
    (b : BusInner) : BusInner * HalResult unit :=
  (vc_deliver (mkReceivedCanFrame frame timestamp) b, Ok ()).
Definition VirtualCanAdapter_transmitted_frames (b : BusInner) : list CanFrame := vc_tx b.
Definition VirtualCanAdapter_take_transmitted_frames (b : BusInner) : BusInner * list CanFrame :=
  (vc_set_queues (vc_rx b) (vc_rx_dropped b) [] b, vc_tx b).
Definition VirtualCanAdapter_set_bus_status (status : CanBusStatus) (b : BusInner) : BusInner :=
  mkBusInner (vc_rx b) (vc_rx_dropped b) (vc_tx b) (vc_active b) status (vc_configure_open b)
    (vc_open_count b) (vc_close_count b) (vc_next_send b) (vc_next_receive b) (vc_next_status b)
    (vc_next_close b).
Definition VirtualCanAdapter_fail_next_send (e : HalError) (b : BusInner) : BusInner :=
  vc_set_failures (Some e) (vc_next_receive b) (vc_next_status b) (vc_next_close b) b.
Definition VirtualCanAdapter_fail_next_receive (e : HalError) (b : BusInner) : BusInner :=
  vc_set_failures (vc_next_send b) (Some e) (vc_next_status b) (vc_next_close b) b.
Definition VirtualCanAdapter_fail_next_status (e : HalError) (b : BusInner) : BusInner :=
  vc_set_failures (vc_next_send b) (vc_next_receive b) (Some e) (vc_next_close b) b.
Definition VirtualCanAdapter_fail_next_close (e : HalError) (b : BusInner) : BusInner :=
  vc_set_failures (vc_next_send b) (vc_next_receive b) (vc_next_status b) (Some e) b.

Definition vc_transitions (opening : bool) (b : BusInner) : Z :=
  if opening then vc_open_count b else vc_close_count b.
Definition VirtualCanAdapter_open_transition (b : BusInner) : Z := vc_open_count b.
Definition VirtualCanAdapter_close_transition (b : BusInner) : Z := vc_close_count b.
Fixpoint wait_for_transition_after (transition : Z) (opening : bool) (wakes : list (BusInner → BusInner))
    (b : BusInner) : BusInner * bool :=
  if transition <? vc_transitions opening b then (b, true)
  else match wakes with
       | [] => (b, false)
       | wake :: wakes => wait_for_transition_after transition opening wakes (wake b)
       end.
(** Between reading the counter and waiting the lock is free, which [before] stands for. *)
Definition wait_transition (opening : bool) (before : BusInner → BusInner)
    (wakes : list (BusInner → BusInner)) (b : BusInner) : BusInner * bool :=
  wait_for_transition_after (vc_transitions opening b) opening wakes (before b).
Definition VirtualCanAdapter_wait_for_open := wait_transition true.
Definition VirtualCanAdapter_wait_for_close := wait_transition false.
Definition VirtualCanAdapter_wait_for_open_after (transition : Z) := wait_for_transition_after transition true.
Definition VirtualCanAdapter_wait_for_close_after (transition : Z) := wait_for_transition_after transition false.

(** ** Errors *)
Definition vc_error (name : string) (category : ErrorCategory) (operation : string) (retryable : bool)
    (message : string) (d : ResourceDescriptor) : HalError :=
  HalError_with_resource_id (static_error name category operation retryable message) (desc_id d).
Definition vc_conflict (operation message : string) (d : ResourceDescriptor) : HalError :=
  vc_error "runtime.adapter.conflict" Conflict operation false message d.
Definition vc_queue_full (operation : string) (d : ResourceDescriptor) : HalError :=
  vc_error "runtime.queue.full" Unavailable operation true "virtual CAN transmit queue is full" d.
Definition vc_closed (operation : string) (d : ResourceDescriptor) : HalError :=
  vc_error "runtime.session.closed" Conflict operation false "CAN channel is closed" d.
Definition vc_lagged (dropped : Z) (d : ResourceDescriptor) : HalError :=
  HalError_with_resource_id
    (HalError_with_context
       (static_error "can.receive.lagged" Unavailable "can.receive" true
          "bounded CAN receive queue dropped frames") (lag_context dropped))
    (desc_id d).

Definition vc_verify_expectation (e : CanLinkExpectation) (active : CanActiveConfig)
    (d : ResourceDescriptor) : HalResult unit :=
  if is_some_and (λ v, negb (bool_decide (v = act_mode active))) (exp_mode e)
     || is_some_and (λ v, negb (v =? bitrate (act_nominal active))) (exp_nominal_bitrate e)
     || is_some_and (λ v, is_none_or (λ t, negb (bitrate t =? v)) (act_data active)) (exp_data_bitrate e)
     || is_some_and (λ v, negb (eqb v (act_listen_only active))) (exp_listen_only e)
     || is_some_and (λ v, negb (eqb v (act_loopback active))) (exp_loopback e)
  then Err (vc_error "can.configuration.mismatch" Conflict "can.open" false
              "Attach expectations do not match active configuration" d)
  else Ok ().

(** [resolved]: what the selector finds. *)
Definition vc_open_resolved (resolved : HalResult ResourceDescriptor) (config : CanOpenConfig) (b : BusInner)
    : BusInner * HalResult VirtualCanChannel :=
  match resolved with
  | Err e => (b, Err e)
  | Ok d =>
      let opened := saturating_add usize_max (vc_open_count b) 1 in
      match config with
      | Attach expectation =>
          match vc_verify_expectation expectation (vc_active b) d with
          | Err e => (b, Err e)
          | Ok _ =>
              (vc_set_link (vc_active b) (vc_configure_open b) opened (vc_close_count b) b,
               Ok (mkVirtualCanChannel d (vc_active b) None false))
          end
      | Configure request =>
          if vc_configure_open b then
            (b, Err (vc_conflict "can.open" "another Configure channel is open" d))
          else
            match CanActiveConfig_new (cfg_mode request) (cfg_nominal request) (cfg_data request)
                    (cfg_listen_only request) (cfg_loopback request) VC_CLOCK_DOMAIN with
            | Err e => (b, Err (HalError_with_resource_id e (desc_id d)))
            | Ok requested =>
                (vc_set_link requested true opened (vc_close_count b) b,
                 Ok (mkVirtualCanChannel d requested (Some (vc_active b)) false))
            end
      end
  end.
Definition VirtualCanAdapter_open (d : ResourceDescriptor) (selector : ResourceSelector)
    : CanOpenConfig → BusInner → BusInner * HalResult VirtualCanChannel :=
  vc_open_resolved (resolve_resource [d] selector can_classic_capability "can.open").

(** ** The channel *)
Fixpoint vc_receive_loop (d : ResourceDescriptor) (zero_timeout : bool)
    (wakes : list (BusInner → BusInner)) (b : BusInner)
    : BusInner * HalResult (option ReceivedCanFrame) :=
  if 0 <? vc_rx_dropped b then
    (vc_set_queues (vc_rx b) 0 (vc_tx b) b, Err (vc_lagged (vc_rx_dropped b) d))
  else
    match vc_rx b with
    | frame :: rx => (vc_set_queues rx (vc_rx_dropped b) (vc_tx b) b, Ok (Some frame))
    | [] =>
        if zero_timeout then (b, Ok None)
        else match wakes with
             | [] => (b, Ok None)
             | wake :: wakes => vc_receive_loop d zero_timeout wakes (wake b)
             end
    end.
Definition VirtualCanChannel_receive (c : VirtualCanChannel) (timeout : Z)
    (wakes : list (BusInner → BusInner)) (b : BusInner)
    : BusInner * HalResult (option ReceivedCanFrame) :=
  if vcc_closed c then (b, Err (vc_closed "can.receive" (vcc_descriptor c)))
  else
    match injected (vc_next_receive b) (vcc_descriptor c) with
    | Some e => (vc_set_failures (vc_next_send b) None (vc_next_status b) (vc_next_close b) b, Err e)
    | None => vc_receive_loop (vcc_descriptor c) (timeout =? 0) wakes b
    end.
Definition vc_timestamp : CanTimestamp := mkCanTimestamp 0 HostMonotonic VC_CLOCK_DOMAIN.
Definition VirtualCanChannel_send (c : VirtualCanChannel) (frame : CanFrame) (b : BusInner)
    : BusInner * HalResult unit :=
  if vcc_closed c then (b, Err (vc_closed "can.send" (vcc_descriptor c)))
  else
    match injected (vc_next_send b) (vcc_descriptor c) with
    | Some e => (vc_set_failures None (vc_next_receive b) (vc_next_status b) (vc_next_close b) b, Err e)
    | None =>
        if VC_TX_CAPACITY <=? len (vc_tx b) then (b, Err (vc_queue_full "can.send" (vcc_descriptor c)))
        else
          (vc_deliver (mkReceivedCanFrame frame (Some vc_timestamp))
             (vc_set_queues (vc_rx b) (vc_rx_dropped b) (vc_tx b ++ [frame]) b), Ok ())
    end.
Definition VirtualCanChannel_bus_status (c : VirtualCanChannel) (b : BusInner)
    : BusInner * HalResult CanBusStatus :=
  if vcc_closed c then (b, Err (vc_closed "can.status" (vcc_descriptor c)))
  else
    match injected (vc_next_status b) (vcc_descriptor c) with
    | Some e => (vc_set_failures (vc_next_send b) (vc_next_receive b) None (vc_next_close b) b, Err e)
    | None => (b, Ok (vc_status b))
    end.
Definition VirtualCanChannel_close (c : VirtualCanChannel) (b : BusInner)
    : VirtualCanChannel * BusInner * HalResult unit :=
  if vcc_closed c then (c, b, Ok ())
  else
    let failure := injected (vc_next_close b) (vcc_descriptor c) in
    let b := vc_set_failures (vc_next_send b) (vc_next_receive b) (vc_next_status b) None b in
    let '(active, configure_open) :=
      match vcc_restore c with
      | Some snapshot => (snapshot, false)
      | None => (vc_active b, vc_configure_open b)
      end in
    (mkVirtualCanChannel (vcc_descriptor c) (vcc_active c) None true,
     vc_set_link active configure_open (vc_open_count b) (saturating_add usize_max (vc_close_count b) 1) b,
     match failure with Some e => Err e | None => Ok () end).

(** A channel with its bus is a native channel of the CAN actor; nobody else acts on the bus
    while the actor waits in [receive]. *)
Global Instance virtual_can_channel : CanChannel (VirtualCanChannel * BusInner) := {
  channel_receive '(c, b) := let '(b, r) := VirtualCanChannel_receive c 1 [] b in ((c, b), r);
  channel_send '(c, b) frame := let '(b, r) := VirtualCanChannel_send c frame b in ((c, b), r);
  channel_bus_status '(c, b) := let '(b, r) := VirtualCanChannel_bus_status c b in ((c, b), r);
  channel_close '(c, b) := VirtualCanChannel_close c b;
}.

(** ** One Configure channel, and what it restores *)
Inductive vc_step (d : ResourceDescriptor)
    : BusInner * list VirtualCanChannel → BusInner * list VirtualCanChannel → Prop :=
  | VcOpen b l selector config b' c :
      VirtualCanAdapter_open d selector config b = (b', Ok c) → vc_step d (b, l) (b', l ++ [c])
  | VcOpenFails b l selector config b' e :
      VirtualCanAdapter_open d selector config b = (b', Err e) → vc_step d (b, l) (b', l)
  | VcReceive b l i c timeout wakes b' r :
      l !! i = Some c → Forall (λ wake, ∀ b, vc_active (wake b) = vc_active b ∧
        vc_configure_open (wake b) = vc_configure_open b) wakes →
      VirtualCanChannel_receive c timeout wakes b = (b', r) → vc_step d (b, l) (b', l)
  | VcSend b l i c frame b' r :
      l !! i = Some c → VirtualCanChannel_send c frame b = (b', r) → vc_step d (b, l) (b', l)
  | VcStatus b l i c b' r :
      l !! i = Some c → VirtualCanChannel_bus_status c b = (b', r) → vc_step d (b, l) (b', l)
  | VcClose b l i c c' b' r :
      l !! i = Some c → VirtualCanChannel_close c b = (c', b', r) → vc_step d (b, l) (b', <[i := c']> l)
  | VcInject b l frame timestamp b' r :
      VirtualCanAdapter_inject_received frame timestamp b = (b', r) → vc_step d (b, l) (b', l)
  | VcTake b l b' frames :
      VirtualCanAdapter_take_transmitted_frames b = (b', frames) → vc_step d (b, l) (b', l)
  | VcSetStatus b l status : vc_step d (b, l) (VirtualCanAdapter_set_bus_status status b, l)
  | VcFailSend b l e : vc_step d (b, l) (VirtualCanAdapter_fail_next_send e b, l)
  | VcFailReceive b l e : vc_step d (b, l) (VirtualCanAdapter_fail_next_receive e b, l)
  | VcFailStatus b l e : vc_step d (b, l) (VirtualCanAdapter_fail_next_status e b, l)
  | VcFailClose b l e : vc_step d (b, l) (VirtualCanAdapter_fail_next_close e b, l).

(** The channels that have a configuration to restore. *)
Definition restoring (l : list VirtualCanChannel) : list VirtualCanChannel :=
  List.filter (λ c, is_some (vcc_restore c)) l.
Record vc_link (baseline : CanActiveConfig) (b : BusInner) (l : list VirtualCanChannel) : Prop := {
  vcl_one : match restoring l with
    | [] => vc_configure_open b = false ∧ vc_active b = baseline
    | [c] => vc_configure_open b = true ∧ vcc_restore c = Some baseline ∧ vc_active b = vcc_active c
    | _ => False
    end;
  vcl_closed : Forall (λ c, vcc_closed c = true → vcc_restore c = None) l;
}.
Definition same_link (b b' : BusInner) : Prop :=
  vc_active b' = vc_active b ∧ vc_configure_open b' = vc_configure_open b.
Lemma vc_link_same baseline b b' l : same_link b b' → vc_link baseline b l → vc_link baseline b' l.
Proof. intros [H1 H2] [? ?]. split; [|done]. by rewrite H1, H2. Qed.
Lemma vc_deliver_link frame b : same_link b (vc_deliver frame b).
Proof. unfold vc_deliver. by destruct (_ =? _). Qed.
Lemma vc_receive_link c timeout wakes b b' r :
  Forall (λ wake, ∀ b, same_link b (wake b)) wakes →
  VirtualCanChannel_receive c timeout wakes b = (b', r) → same_link b b'.
Proof.
  intros Hw. unfold VirtualCanChannel_receive. destruct (vcc_closed c); [by intros [= <- <-]|].
  destruct (injected _ _); [by intros [= <- <-]|].
  revert b. induction Hw as [|wake wakes Hwake _ IH]; intros b; simpl;
    (destruct (0 <? _); [by intros [= <- <-]|]);
    (destruct (vc_rx b); [|by intros [= <- <-]]); (destruct (_ =? 0); [by intros [= <- <-]|]);
    [by intros [= <- <-]|].
  intros [H1 H2]%IH. destruct (Hwake b) as [H3 H4]. split; congruence.
Qed.
Lemma vc_send_link c frame b b' r : VirtualCanChannel_send c frame b = (b', r) → same_link b b'.
Proof.
  unfold VirtualCanChannel_send. destruct (vcc_closed c); [by intros [= <- <-]|].
  destruct (injected _ _); [by intros [= <- <-]|]. destruct (_ <=? _); intros [= <- <-]; [done|].
  by destruct (vc_deliver_link (mkReceivedCanFrame frame (Some vc_timestamp))
    (vc_set_queues (vc_rx b) (vc_rx_dropped b) (vc_tx b ++ [frame]) b)).
Qed.
Lemma restoring_app l l' : restoring (l ++ l') = restoring l ++ restoring l'.
Proof. apply List.filter_app. Qed.
Lemma vc_open_link d selector config b b' c l baseline :
  VirtualCanAdapter_open d selector config b = (b', Ok c) → vc_link baseline b l →
  vc_link baseline b' (l ++ [c]).
Proof.
  unfold VirtualCanAdapter_open, vc_open_resolved. destruct (resolve_resource _ _ _ _) as [d'|]; [|done].
  intros H [L1 L2]. destruct config as [expectation|request].
  - destruct (vc_verify_expectation _ _ _); [|done]. injection H as <- <-.
    split; [|apply Forall_app; split; [done|by repeat constructor]].
    rewrite restoring_app. simpl. by rewrite app_nil_r.
  - destruct (vc_configure_open b) eqn:Ho; [done|].
    destruct (CanActiveConfig_new _ _ _ _ _ _) as [requested|]; [|done]. injection H as <- <-.
    split; [|apply Forall_app; split; [done|by repeat constructor]].
    rewrite restoring_app. destruct (restoring l) as [|x [|y r]]; simpl; [|by destruct L1|done].
    destruct L1 as [_ ->]. done.
Qed.
Lemma vc_open_fails d selector config b b' e :
  VirtualCanAdapter_open d selector config b = (b', Err e) → b' = b.
Proof.
  unfold VirtualCanAdapter_open, vc_open_resolved. destruct (resolve_resource _ _ _ _); [|by intros [= <- <-]].
  destruct config; [destruct (vc_verify_expectation _ _ _)|
    destruct (vc_configure_open b); [|destruct (CanActiveConfig_new _ _ _ _ _ _)]];
    (done || by intros [= <- <-]).
Qed.
Lemma vc_close_link c c' b b' r l i baseline :
  l !! i = Some c → VirtualCanChannel_close c b = (c', b', r) → vc_link baseline b l →
  vc_link baseline b' (<[i := c']> l).
Proof.
  unfold VirtualCanChannel_close. intros Hi. destruct (vcc_closed c) eqn:Hc.
  { intros [= <- <- <-]. by rewrite list_insert_id. }
  intros H [L1 L2].
  assert (vcc_restore c' = None) as Hc' by (by destruct (vcc_restore c); injection H as <- <- <-).
  split; [|apply Forall_insert; done].
  pose proof (take_drop_middle l i c Hi) as Hl.
  rewrite insert_take_drop by (by eapply lookup_lt_Some).
  rewrite <- Hl in L1. rewrite restoring_app in L1 |- *. simpl in L1 |- *.
  rewrite Hc'. simpl. destruct (vcc_restore c) as [snapshot|] eqn:Hs; simpl in L1;
    injection H as <- <- <-; simpl; [|done].
  destruct (restoring (take i l)) as [|x [|y q]]; simpl in *; [|done|done].
  destruct (restoring (drop (S i) l)); [|done]. destruct L1 as (_ & Hb & _).
  rewrite Hs in Hb. by injection Hb as ->.
Qed.

(** Whatever the order of opens, failures, traffic and closes: at most one Configure channel
    is open, the bus says so, and runs what that channel asked for; when none is open the
    bus is configured as it was at first. *)
Theorem vc_configure_restored d baseline b l b' l' :
  rtc (vc_step d) (b, l) (b', l') → vc_link baseline b l → vc_link baseline b' l'.
Proof.
  intros Hr. remember (b, l) as x. remember (b', l') as y. revert b l Heqx.
  induction Hr as [x|x [b1 l1] y Hs _ IH]; intros b l -> HI; [by injection Heqy as <- <-|].
  apply (IH Heqy _ _ eq_refl). clear IH.
  inversion Hs as [? ? ? ? ? ? Ho|? ? ? ? ? ? Ho|? ? ? ? ? ? ? ? Hi Hw Ho|? ? ? ? ? ? ? Hi Ho
    |? ? ? ? ? ? Hi Ho|? ? ? ? ? ? ? Hi Ho|? ? ? ? ? ? Ho|? ? ? ? Ho| | | | |]; subst;
    try (eapply vc_link_same; [|exact HI]; done).
  - by eapply vc_open_link.
  - by apply vc_open_fails in Ho as ->.
  - eapply vc_link_same; [|exact HI]. by eapply vc_receive_link.
  - eapply vc_link_same; [|exact HI]. by eapply vc_send_link.
  - eapply vc_link_same; [|exact HI]. unfold VirtualCanChannel_bus_status in Ho.
    destruct (vcc_closed _); [by injection Ho as <- <-|].
    destruct (injected _ _); by injection Ho as <- <-.
  - by eapply vc_close_link.
  - eapply vc_link_same; [|exact HI]. injection Ho as <- <-. apply vc_deliver_link.
  - eapply vc_link_same; [|exact HI]. by injection Ho as <- <-.
Qed.

(** A Configure channel that is dropped without [close] (it has no [Drop]) leaves the bus
    configured, and no other can be opened. *)
Example dropped_configure_channel :
  match VirtualCanAdapter_loopback "bus" with
  | Ok (d, b) =>
      let request := Configure (mkCanConfigureConfig Fd (mkCanBitTiming 500000 None None)
        (Some (mkCanBitTiming 500000 None None)) false true None) in
      let '(b', _) := VirtualCanAdapter_open d (ResourceDescriptor_selector d) request b in
      vc_active b' ≠ vc_active b ∧
      (VirtualCanAdapter_open d (ResourceDescriptor_selector d) request b').2
      = Err (vc_conflict "can.open" "another Configure channel is open" d)
  | Err _ => False
  end.
Proof. vm_compute. split; congruence. Qed.

(** ** No frame disappears *)
Inductive VcOp :=
  | OpInject (frame : CanFrame) (timestamp : option CanTimestamp)
  | OpSend (frame : CanFrame)
  | OpReceive.
Inductive VcOut := OutUnit (r : HalResult unit) | OutFrame (r : HalResult (option ReceivedCanFrame)).
Definition vc_op (c : VirtualCanChannel) (op : VcOp) (b : BusInner) : BusInner * VcOut :=
  match op with
  | OpInject frame timestamp =>
      let '(b, r) := VirtualCanAdapter_inject_received frame timestamp b in (b, OutUnit r)
  | OpSend frame => let '(b, r) := VirtualCanChannel_send c frame b in (b, OutUnit r)
  | OpReceive => let '(b, r) := VirtualCanChannel_receive c 0 [] b in (b, OutFrame r)
  end.
Definition op_accepted (op : VcOp) (out : VcOut) : list ReceivedCanFrame :=
  match op, out with
  | OpInject frame timestamp, OutUnit (Ok _) => [mkReceivedCanFrame frame timestamp]
  | OpSend frame, OutUnit (Ok _) => [mkReceivedCanFrame frame (Some vc_timestamp)]
  | _, _ => []
  end.
Definition op_received (out : VcOut) : list ReceivedCanFrame :=
  match out with OutFrame (Ok (Some frame)) => [frame] | _ => [] end.
(** How many frames a call says are lost. *)
Definition op_lost (c : VirtualCanChannel) (b : BusInner) (out : VcOut) : Z :=
  match out with
  | OutFrame (Err e) => if bool_decide (e = vc_lagged (vc_rx_dropped b) (vcc_descriptor c))
                        then vc_rx_dropped b else 0
  | _ => 0
  end.
Record VcTotals := mkVcTotals {
  tot_accepted : list ReceivedCanFrame;
  tot_received : list ReceivedCanFrame;
  tot_lost : Z;
}.
Fixpoint vc_run (c : VirtualCanChannel) (ops : list VcOp) (b : BusInner) : BusInner * VcTotals :=
  match ops with
  | [] => (b, mkVcTotals [] [] 0)
  | op :: ops =>
      let '(b1, out) := vc_op c op b in
      let '(b2, t) := vc_run c ops b1 in
      (b2, mkVcTotals (op_accepted op out ++ tot_accepted t) (op_received out ++ tot_received t)
             (op_lost c b out + tot_lost t))
  end.
Definition vc_bounded (b : BusInner) : Prop :=
  len (vc_rx b) <= VC_RX_CAPACITY ∧ len (vc_tx b) <= VC_TX_CAPACITY ∧ 0 <= vc_rx_dropped b.

Lemma vc_deliver_counts frame b :
  vc_bounded b → vc_rx_dropped b < u64_max →
  let b' := vc_deliver frame b in
  vc_bounded b' ∧ vc_rx_dropped b' <= vc_rx_dropped b + 1 ∧
  1 + vc_rx_dropped b + len (vc_rx b) = vc_rx_dropped b' + len (vc_rx b') ∧
  vc_rx b' `sublist_of` vc_rx b ++ [frame].
Proof.
  intros (H1 & H2 & H3) Hd. unfold vc_deliver, vc_bounded. destruct (_ =? _) eqn:He; bool_simp; simpl; rewrite len_app.
  - unfold saturating_add. rewrite Z.min_r by lia. unfold VC_RX_CAPACITY in *.
    destruct (vc_rx b) as [|f rx]; unfold len in *; simpl in *; [lia|]. split_and!; try lia.
    by constructor.
  - unfold VC_RX_CAPACITY in *. unfold len in *. simpl. split_and!; try lia. done.
Qed.

Lemma vc_op_counts c op b :
  vcc_closed c = false → vc_next_receive b = None → vc_bounded b → vc_rx_dropped b < u64_max →
  let '(b', out) := vc_op c op b in
  vc_next_receive b' = None ∧ vc_bounded b' ∧ vc_rx_dropped b' <= vc_rx_dropped b + 1 ∧
  len (op_accepted op out) + vc_rx_dropped b + len (vc_rx b)
  = len (op_received out) + op_lost c b out + vc_rx_dropped b' + len (vc_rx b') ∧
  op_received out ++ vc_rx b' `sublist_of` vc_rx b ++ op_accepted op out.
Proof.
  intros Hc Hn Hb Hd. destruct op as [frame timestamp|frame|]; simpl.
  - destruct (vc_deliver_counts (mkReceivedCanFrame frame timestamp) b Hb Hd) as (H1 & H2 & H3 & H4).
    split_and!; try done; try (by unfold vc_deliver; destruct (_ =? _)); try (by simpl in *; unfold len at 1 3; simpl; lia).
  - unfold VirtualCanChannel_send. rewrite Hc. destruct (injected (vc_next_send b) _).
    { simpl. rewrite app_nil_r. split_and!; try done; unfold len; simpl; lia. }
    destruct (_ <=? _) eqn:Ht; bool_simp.
    { simpl. rewrite app_nil_r. split_and!; try done; unfold len; simpl; lia. }
    set (b1 := vc_set_queues (vc_rx b) (vc_rx_dropped b) (vc_tx b ++ [frame]) b).
    assert (vc_bounded b1) as Hb1.
    { destruct Hb as (? & ? & ?). split_and!; try done. simpl. rewrite len_app.
      unfold len at 2. simpl. lia. }
    destruct (vc_deliver_counts (mkReceivedCanFrame frame (Some vc_timestamp)) b1 Hb1 Hd)
      as (H1 & H2 & H3 & H4).
    split_and!; try done; try (by unfold vc_deliver; destruct (_ =? _)); try (by simpl in *; unfold len at 1 3; simpl; lia).
  - unfold VirtualCanChannel_receive. rewrite Hc, Hn. simpl.
    destruct (0 <? _) eqn:H0; bool_simp; simpl.
    + rewrite bool_decide_eq_true_2 by done. rewrite app_nil_r.
      destruct Hb as (? & ? & ?). split_and!; try done; try (unfold len; simpl; lia).
    + destruct (vc_rx b) as [|f rx] eqn:Hr; simpl; rewrite ?Hr, ?app_nil_r.
      * split_and!; try done; unfold len; simpl; lia.
      * destruct Hb as (? & ? & ?). rewrite Hr in *. split_and!; try done; unfold vc_bounded; simpl;
          unfold len in *; simpl in *; split_and?; try done; lia.
Qed.

(** A bus never queues more than its bounds, and no frame disappears: of what was queued and
    what is injected or sent, a channel receives each, in order, or is told how many are
    lost, but for those still queued or still to report. *)
Theorem vc_frames_conserved c ops b :
  vcc_closed c = false → vc_next_receive b = None → vc_bounded b →
  vc_rx_dropped b + len ops <= u64_max →
  let '(b', t) := vc_run c ops b in
  vc_bounded b' ∧
  len (tot_accepted t) + vc_rx_dropped b + len (vc_rx b)
  = len (tot_received t) + tot_lost t + vc_rx_dropped b' + len (vc_rx b') ∧
  tot_received t ++ vc_rx b' `sublist_of` vc_rx b ++ tot_accepted t.
Proof.
  intros Hc. revert b. induction ops as [|op ops IH]; intros b Hn Hb Hd; simpl.
  { rewrite app_nil_r. split_and!; try done; unfold len; simpl; lia. }
  assert (len (op :: ops) = 1 + len ops) as Hl by (unfold len; simpl; lia).
  assert (0 <= len ops) by (unfold len; lia).
  pose proof (vc_op_counts c op b Hc Hn Hb) as Hop.
  destruct (vc_op c op b) as [b1 out]. destruct Hop as (Hn1 & Hb1 & Hd1 & Hc1 & Hs1); [lia|].
  specialize (IH b1 Hn1 Hb1). destruct (vc_run c ops b1) as [b' t].
  destruct IH as (I1 & I2 & I3); [lia|]. simpl. rewrite !len_app. split_and!; [done|lia|].
  rewrite <- !app_assoc. etrans; [apply sublist_app; [reflexivity|exact I3]|].
  rewrite !app_assoc. by apply sublist_app.
Qed.

Lemma vc_frames_conserved_witness :
  match VirtualCanAdapter_loopback "bus" with
  | Ok (d, b) =>
      match VirtualCanAdapter_open d (ResourceDescriptor_selector d)
              (Attach (mkCanLinkExpectation None None None None None)) b with
      | (b, Ok c) =>
          let frame := ClassicData (IdStandard 1) [7] in
          let '(b', t) := vc_run c ([OpSend frame; OpInject frame None; OpReceive]) b in
          len (tot_accepted t) = 2 ∧ len (tot_received t) = 1 ∧ len (vc_rx b') = 1
      | _ => False
      end
  | Err _ => False
  end.
Proof.
  destruct (VirtualCanAdapter_loopback "bus") as [[d b]|] eqn:E; vm_compute in E; [|done].
  injection E as <- <-.
  match goal with |- context [VirtualCanAdapter_open ?d ?s ?e ?b] =>
    destruct (VirtualCanAdapter_open d s e b) as [b1 [c|]] eqn:Eo end;
    vm_compute in Eo; [|done]. injection Eo as <- <-. cbv zeta.
  match goal with |- context [vc_run ?c ?ops ?b] =>
    pose proof (vc_frames_conserved c ops b) as H end.
  destruct (vc_run _ _ _) as [b' t] eqn:E. vm_compute in E. injection E as <- <-.
  destruct H as [_ _]; [done|done|by vm_compute|by vm_compute|]. by vm_compute.
Defined.

Global Instance CanBitTiming_eq_dec : EqDecision CanBitTiming.
Proof. solve_decision. Defined.
Global Instance CanActiveConfig_eq_dec : EqDecision CanActiveConfig.
Proof. solve_decision. Defined.

(** ** The conformance check *)

(** It returns an error of the adapter, an assertion fails, or a call never returns. *)
Inductive Nonconformance := Returned (error : HalError) | AssertionFailed | NeverReturns.
Class CanAdapterUnderTest (W C : Type) := {
  ca_channel :: CanChannel (C * W);
  ca_adapter_name : string;
  ca_enumerate : native W HalError (list ResourceDescriptor);
  ca_open : ResourceSelector → CanOpenConfig → native W HalError C;
  ca_active_config : C → CanActiveConfig;
}.
Definition conf_assert {S} (b : bool) : native S Nonconformance unit :=
  native_when (negb b) (throw AssertionFailed).
Definition returning {S A} (m : native S HalError A) : native S Nonconformance A :=
  native_map_err Returned m.
Definition conf_lift {S A} (r : HalResult A) : native S Nonconformance A := returning (native_lift r).
(** [expect_err]. *)
Definition expect_err {S A} (m : native S Nonconformance A) : native S Nonconformance HalError :=
  attempt m ≫= λ r,
  match r with Ok _ => throw AssertionFailed | Err (Returned e) => mret e | Err x => throw x end.
Definition CONFORMANCE_CAPABILITIES : list CapabilityId :=
  [can_classic_capability; can_fd_capability; can_configure_capability;
   can_error_frames_capability; can_rx_timestamp_capability].

Definition assert_timestamp_if_advertised {S} (received : ReceivedCanFrame) (advertised : bool)
    : native S Nonconformance unit :=
  conf_assert (negb advertised
               || is_some_and (λ t, negb (str_is_empty (CanTypes.clock_domain t))) (rcv_timestamp received)).
Fixpoint for_each {S A} (f : A → native S Nonconformance unit) (l : list A)
    : native S Nonconformance unit :=
  match l with [] => mret () | x :: l => f x ≫= λ _, for_each f l end.

Section conformance.
Context {W C : Type} `{CanAdapterUnderTest W C}.
Notation check := (native W Nonconformance).
Notation channel_check := (native (C * W) Nonconformance).

Definition on_channel {A} (c : C) (body : channel_check A) : check A := λ w,
  let '((_, w), r) := body (c, w) in (w, r).
Definition expect_frame (supports : CapabilityId → bool) (missing : HalError) (expected : CanFrame)
    : channel_check unit :=
  returning channel_receive ≫= λ received,
  conf_lift (ok_or missing received) ≫= λ received,
  conf_assert (bool_decide (rcv_frame received = expected)) ≫= λ _,
  assert_timestamp_if_advertised received (supports can_rx_timestamp_capability).
Definition missing_frame (message : string) : HalError :=
  static_error "runtime.transport.timeout" Unavailable "can.conformance" true message.
Definition conformance_fd_frame : HalResult CanFrame :=
  CanId_extended 0x12345 ≫= λ id, CanFrame_fd_data id (replicate 12 4) true true.
Definition conformance_frames (supports : CapabilityId → bool) (baseline : CanActiveConfig)
    (fd_frame : CanFrame) : HalResult (list CanFrame) :=
  (if supports can_classic_capability then
     CanId_standard 0x123 ≫= λ id, CanFrame_classic_data id [1; 2; 3] ≫= λ data,
     CanId_standard 0x124 ≫= λ id, CanFrame_classic_remote id 2 ≫= λ remote, Ok [data; remote]
   else Ok []) ≫= λ classic,
  (if supports can_error_frames_capability then
     CanFrame_error [BusError] [5] ≫= λ error, Ok [error]
   else Ok []) ≫= λ errors,
  Ok (classic
      ++ (if supports can_fd_capability && bool_decide (act_mode baseline = Fd) then [fd_frame] else [])
      ++ errors).

(** Traffic on a channel attached without expectations, and its end. *)
Definition check_traffic (supports : CapabilityId → bool) (frames : list CanFrame) : channel_check unit :=
  for_each (λ frame, returning (λ s, channel_send s frame)) frames ≫= λ _,
  for_each (expect_frame supports (missing_frame "loopback frame was not received")) frames ≫= λ _,
  returning channel_bus_status ≫= λ _,
  returning channel_close ≫= λ _,
  expect_err (returning channel_receive) ≫= λ e,
  conf_assert (bool_decide (err_name e = mkErrorName "runtime.session.closed")).
Definition exact_expectation (baseline : CanActiveConfig) : HalResult CanLinkExpectation :=
  CanLinkExpectation_new (Some (act_mode baseline)) (Some (bitrate (act_nominal baseline)))
    (bitrate <$> act_data baseline) (Some (act_listen_only baseline)) (Some (act_loopback baseline)).
(** An attach with the exact expectations finds the baseline. *)
Definition check_baseline (open : CanOpenConfig → native W HalError C) (baseline : CanActiveConfig)
    : check unit :=
  conf_lift (exact_expectation baseline) ≫= λ expectation,
  returning (open (Attach expectation)) ≫= λ c,
  conf_assert (bool_decide (ca_active_config c = baseline)) ≫= λ _,
  on_channel c (returning channel_close).
Definition check_incompatible (open : CanOpenConfig → native W HalError C)
    (descriptor : ResourceDescriptor) (baseline : CanActiveConfig) : check unit :=
  conf_lift (CanLinkExpectation_new
    (Some (match act_mode baseline with Classic => Fd | Fd => Classic end)) None None None None)
  ≫= λ incompatible,
  expect_err (returning (open (Attach incompatible))) ≫= λ e,
  conf_assert (bool_decide (err_name e = mkErrorName "can.configuration.mismatch")) ≫= λ _,
  conf_assert (bool_decide (err_resource_id e = Some (desc_id descriptor))).
Definition configure_request (supports : CapabilityId → bool) (baseline : CanActiveConfig)
    : HalResult CanConfigureConfig :=
  let '(mode, data) :=
    if supports can_fd_capability then
      (Fd, match act_data baseline with
           | Some data => Some data
           | None => result_ok (CanBitTiming_new (bitrate (act_nominal baseline)) None None)
           end)
    else (act_mode baseline, act_data baseline) in
  CanConfigureConfig_new mode (act_nominal baseline) data
    (if bool_decide (mode = act_mode baseline) then negb (act_listen_only baseline)
     else act_listen_only baseline)
    (act_loopback baseline).
Definition check_configure (open : CanOpenConfig → native W HalError C)
    (supports : CapabilityId → bool) (baseline : CanActiveConfig) (fd_frame : CanFrame) : check unit :=
  conf_lift (configure_request supports baseline) ≫= λ request,
  returning (open (Configure request)) ≫= λ c,
  conf_assert (negb (bool_decide (ca_active_config c = baseline))) ≫= λ _,
  on_channel c
    (native_when (bool_decide (cfg_mode request = Fd))
       (returning (λ s, channel_send s fd_frame) ≫= λ _,
        expect_frame supports (missing_frame "configured FD frame was not received") fd_frame) ≫= λ _,
     returning channel_close) ≫= λ _,
  check_baseline open baseline.
Definition check_descriptor (descriptor : ResourceDescriptor)
    (open : CanOpenConfig → native W HalError C) : check unit :=
  conf_assert (negb (bool_decide (ca_adapter_name = "virtual.can.loopback"))
               || bool_decide (CapabilitySet_as_slice (desc_capabilities descriptor) = CONFORMANCE_CAPABILITIES))
  ≫= λ _,
  conf_lift (CanLinkExpectation_new None None None None None) ≫= λ any,
  returning (open (Attach any)) ≫= λ c,
  let baseline := ca_active_config c in
  let supports := CapabilitySet_contains (desc_capabilities descriptor) in
  conf_lift conformance_fd_frame ≫= λ fd_frame,
  conf_lift (conformance_frames supports baseline fd_frame) ≫= λ frames,
  on_channel c (check_traffic supports frames) ≫= λ _,
  check_incompatible open descriptor baseline ≫= λ _,
  check_baseline open baseline ≫= λ _,
  native_when (supports can_configure_capability) (check_configure open supports baseline fd_frame).
Definition run_can_adapter_conformance : check unit :=
  returning ca_enumerate ≫= λ descriptors,
  match descriptors with
  | [] => conf_lift (HalError_new "runtime.resource.not_found" NotFound "can.conformance" false
                       "adapter enumerated no CAN resources" ≫= λ e, Err e)
  | descriptor :: _ => check_descriptor descriptor (ca_open (ResourceDescriptor_selector descriptor))
  end.
End conformance.

(** The virtual adapter, with its bus as the state of the world. *)
Definition virtual_can_adapter (d : ResourceDescriptor) : CanAdapterUnderTest BusInner VirtualCanChannel := {|
  ca_channel := virtual_can_channel;
  ca_adapter_name := "virtual.can.loopback";
  ca_enumerate := mret [d];
  ca_open := VirtualCanAdapter_open d;
  ca_active_config := vcc_active;
|}.

(** Running a check part by part. *)
Lemma native_step {S E A B} (m : native S E A) (f : A → native S E B) s s1 x r :
  m s = (s1, Ok x) → f x s1 = r → (m ≫= f) s = r.
Proof. unfold mbind, native_bind. by intros ->. Qed.
Lemma incompatible_refused d b :
  check_incompatible (vc_open_resolved (Ok d)) d (vc_active b) b = (b, Ok ()).
Proof.
  unfold check_incompatible. destruct (act_mode (vc_active b)) eqn:Hm;
    (eapply native_step; [reflexivity|]);
    (eapply native_step;
      [unfold expect_err, returning, native_map_err, attempt, mbind, native_bind, vc_open_resolved, vc_verify_expectation;
       simpl; rewrite Hm; reflexivity|]);
    (eapply native_step; [vm_compute; reflexivity|]);
    unfold conf_assert; by rewrite bool_decide_eq_true_2.
Qed.

(** C30: Every virtual CAN adapter, in either mode, passes the conformance check: frames of all
    its classes come back unchanged, in order and with timestamps; a closed channel refuses to
    receive; an attach with wrong expectations is refused, naming the resource; one with the
    right ones finds the configuration; a Configure channel gets what it asks for and its
    close restores the configuration; and no channel is left open. *)
Theorem virtual_can_conforms resource_id mode :
  valid_identifier resource_id →
  ∃ d b, VirtualCanAdapter_loopback_with_mode resource_id mode = Ok (d, b) ∧
    ∃ b', @run_can_adapter_conformance _ _ (virtual_can_adapter d) b = (b', Ok ()) ∧
      vc_active b' = vc_active b ∧ vc_configure_open b' = false ∧ vc_open_count b' = vc_close_count b'.
Proof.
  intros Hid. unfold VirtualCanAdapter_loopback_with_mode.
  rewrite virtual_descriptor_valid by (by vm_compute || done).
  set (d := mkResourceDescriptor _ _ _ _ _ _). simpl.
  assert (VirtualCanAdapter_open d (ResourceDescriptor_selector d) = vc_open_resolved (Ok d)) as Hopen.
  { unfold VirtualCanAdapter_open. by rewrite resolve_self. }
  assert (∀ b, @run_can_adapter_conformance _ _ (virtual_can_adapter d) b
    = @check_descriptor _ _ (virtual_can_adapter d) d (vc_open_resolved (Ok d)) b) as Hrun.
  { intros b. by rewrite <- Hopen. }
  clear Hopen.
  destruct mode; eexists d, _; (split; [reflexivity|]); rewrite Hrun; clear Hrun; subst d;
    generalize (mkResourceId resource_id), (mkEndpoint ("virtual://can/" +:+ resource_id));
    intros id endpoint; clear Hid; eexists; (split; [unfold check_descriptor|]).
  1, 3: do 6 (eapply native_step; [vm_compute; reflexivity|]);
    eapply native_step; [apply incompatible_refused|];
    eapply native_step; [vm_compute; reflexivity|]; vm_compute; reflexivity.
  all: done.
Qed.

Lemma virtual_can_conforms_witness :
  ∃ d b, VirtualCanAdapter_loopback_with_mode "bus" Fd = Ok (d, b) ∧
    ∃ b', @run_can_adapter_conformance _ _ (virtual_can_adapter d) b = (b', Ok ()).
Proof.
  destruct (virtual_can_conforms "bus" Fd) as (d & b & H & b' & Hr & _).
  - apply valid_identifier_compute. vm_compute. reflexivity.
  - exists d, b. split; [exact H|]. exists b'. exact Hr.
Defined.
