(* ===== verification/TestkitSerial.v ===== *)
(** * robot-hal-testkit: the virtual serial port

    Models crates/robot-hal-testkit/src/virtual_serial.rs.  A session owns both ends of its
    queue, and every method borrows it exclusively, so that nothing can arrive while a [read]
    waits. *)

From S2P Require Import Prelude Core SerialRegistry TestkitUsbGpio.
Open Scope Z_scope.

Definition VS_QUEUE_CAPACITY : Z := 64.
Record VirtualSerialSession := mkVirtualSerialSession {
  vss_descriptor : ResourceDescriptor;
  vss_config : SerialConfig;
  vss_closed : bool;
  vss_queue : list Bytes;
  vss_pending : list Bytes;
  vss_control_lines : ControlLines;
}.
Definition vss_with (closed : bool) (queue pending : list Bytes) (lines : ControlLines)
    (s : VirtualSerialSession) : VirtualSerialSession :=
  mkVirtualSerialSession (vss_descriptor s) (vss_config s) closed queue pending lines.

Definition vs_invalid_argument (operation message : string) : HalError :=
  static_error "runtime.argument.invalid" InvalidArgument operation false message.
Definition vs_unsupported_configuration (operation message : string) : HalError :=
  static_error "runtime.transport.unsupported_configuration" InvalidArgument operation false message.
Definition vs_timeout (operation message : string) : HalError :=
  static_error "runtime.transport.timeout" Unavailable operation true message.
Definition vs_queue_full (operation : string) : HalError :=
  static_error "runtime.queue.full" Unavailable operation true
    "the bounded virtual receive queue has reached capacity".
Definition vs_session_closed (operation : string) : HalError :=
  static_error "runtime.session.closed" Conflict operation false "serial session is already closed".

Definition VirtualSerialAdapter_loopback (resource_id : string) : HalResult (list ResourceDescriptor) :=
  (λ d, [d]) <$>
  virtual_descriptor "virtual://serial/" resource_id Serial [("adapter", "virtual"); ("mode", "loopback")]
    [serial_bytes_capability].
Definition VirtualSerialAdapter_from_descriptors (descriptors : list ResourceDescriptor)
    : HalResult (list ResourceDescriptor) :=
  if len descriptors =? 0 then
    Err (vs_invalid_argument "serial.adapter.configure" "virtual adapter requires at least one descriptor")
  else Ok descriptors.
Definition vs_default_framing (c : SerialConfig) : bool :=
  match data_bits c, parity c, stop_bits c, flow_control c with
  | Eight, ParityNone, StopOne, FlowNone => true
  | _, _, _, _ => false
  end.
Definition vs_validate_config (c : SerialConfig) : HalResult unit :=
  if baud_rate c =? 0 then
    Err (vs_invalid_argument "serial.open" "baud_rate must be greater than zero")
  else if read_timeout c =? 0 then
    Err (vs_invalid_argument "serial.open" "read_timeout must be greater than zero")
  else if negb (vs_default_framing c) then
    Err (vs_unsupported_configuration "serial.open"
           "virtual loopback only accepts the default framing configuration")
  else Ok ().
Definition VirtualSerialAdapter_open (descriptors : list ResourceDescriptor) (selector : ResourceSelector)
    (config : SerialConfig) : HalResult VirtualSerialSession :=
  resolve_resource descriptors selector serial_bytes_capability "serial.open" ≫= λ descriptor,
  vs_validate_config config ≫= λ _,
  Ok (mkVirtualSerialSession descriptor config false [] [] (mkControlLines false false)).

Section serial.
(** [{:?}] of a duration. *)
Context (duration_debug : Z → string).

Definition vss_next_bytes (s : VirtualSerialSession) : VirtualSerialSession * HalResult Bytes :=
  match vss_pending s with
  | bytes :: pending => (vss_with (vss_closed s) (vss_queue s) pending (vss_control_lines s) s, Ok bytes)
  | [] =>
      match vss_queue s with
      | bytes :: queue => (vss_with (vss_closed s) queue [] (vss_control_lines s) s, Ok bytes)
      | [] => (s, Err (vs_timeout "serial.read"
                         ("no bytes were available within " +:+ duration_debug (read_timeout (vss_config s)))))
      end
  end.
Definition vss_split_and_store_remainder (bytes : Bytes) (max_bytes : Z) (s : VirtualSerialSession)
    : VirtualSerialSession * Bytes :=
  if len bytes <=? max_bytes then (s, bytes)
  else (vss_with (vss_closed s) (vss_queue s) (drop (Z.to_nat max_bytes) bytes :: vss_pending s)
          (vss_control_lines s) s, take (Z.to_nat max_bytes) bytes).
Definition VirtualSerialSession_read (max_bytes : Z) (s : VirtualSerialSession)
    : VirtualSerialSession * HalResult Bytes :=
  if vss_closed s then (s, Err (vs_session_closed "serial.read"))
  else if max_bytes =? 0 then
    (s, Err (vs_invalid_argument "serial.read" "max_bytes must be greater than zero"))
  else
    match vss_next_bytes s with
    | (s, Err e) => (s, Err e)
    | (s, Ok bytes) => let '(s, head) := vss_split_and_store_remainder bytes max_bytes s in (s, Ok head)
    end.
Definition VirtualSerialSession_write_all (bytes : Bytes) (s : VirtualSerialSession)
    : VirtualSerialSession * HalResult unit :=
  if vss_closed s then (s, Err (vs_session_closed "serial.write"))
  else if len bytes =? 0 then (s, Ok ())
  else if len (vss_queue s) =? VS_QUEUE_CAPACITY then (s, Err (vs_queue_full "serial.write"))
  else (vss_with (vss_closed s) (vss_queue s ++ [bytes]) (vss_pending s) (vss_control_lines s) s, Ok ()).
Definition VirtualSerialSession_flush (s : VirtualSerialSession) : VirtualSerialSession * HalResult unit :=
  (s, if vss_closed s then Err (vs_session_closed "serial.flush") else Ok ()).
Definition VirtualSerialSession_set_control_lines (lines : ControlLines) (s : VirtualSerialSession)
    : VirtualSerialSession * HalResult unit :=
  if vss_closed s then (s, Err (vs_session_closed "serial.set_control_lines"))
  else (vss_with (vss_closed s) (vss_queue s) (vss_pending s) lines s, Ok ()).
Definition VirtualSerialSession_close (s : VirtualSerialSession) : VirtualSerialSession * HalResult unit :=
  (vss_with true (vss_queue s) (vss_pending s) (vss_control_lines s) s, Ok ()).

Local Instance virtual_serial_session : SerialSession VirtualSerialSession := {
  session_read s max_bytes := VirtualSerialSession_read max_bytes s;
  session_write_all s bytes := VirtualSerialSession_write_all bytes s;
  session_flush := VirtualSerialSession_flush;
  session_set_control_lines s lines := VirtualSerialSession_set_control_lines lines s;
}.

(** ** A byte stream *)
(** What is written and not read yet, and that every message holds at least a byte. *)
Definition vss_contents (s : VirtualSerialSession) : Bytes := mjoin (vss_pending s) ++ mjoin (vss_queue s).
Definition vss_inv (s : VirtualSerialSession) : Prop :=
  Forall (λ b, b ≠ []) (vss_pending s ++ vss_queue s) ∧ len (vss_queue s) <= VS_QUEUE_CAPACITY.

(** What an operation puts into the stream and takes from it. *)
Definition bytes_in (c : SerialCommand) (r : CommandResult) : Bytes :=
  match c, r with CmdWrite bytes _, ResUnit (Ok _) => bytes | _, _ => [] end.
Definition bytes_out (r : CommandResult) : Bytes :=
  match r with ResBytes (Ok bytes) => bytes | _ => [] end.
(** The commands that the actor of a session runs, one after the other. *)
Fixpoint vs_run_commands (cs : list SerialCommand) (s : VirtualSerialSession)
    : VirtualSerialSession * list (VirtualSerialSession * CommandResult) :=
  match cs with
  | [] => (s, [])
  | c :: cs =>
      let '(s', r) := run_command s c in
      let '(s', rs) := vs_run_commands cs s' in (s', (s, r) :: rs)
  end.
Definition valid_read (c : SerialCommand) : Prop :=
  match c with CmdRead max_bytes _ => 0 <= max_bytes | _ => True end.

Lemma queue_join (queue : list Bytes) (bytes : Bytes) : mjoin (queue ++ [bytes]) = mjoin queue ++ bytes.
Proof. induction queue as [|b q IH]; simpl; [by rewrite app_nil_r|]. by rewrite IH, app_assoc. Qed.

(** What a command answers from a session [s]. *)
Definition answers (c : SerialCommand) (s : VirtualSerialSession) (r : CommandResult) : Prop :=
  match c, r with
  | CmdRead max_bytes _, ResBytes (Ok bytes) => bytes ≠ [] ∧ len bytes <= max_bytes
  | CmdRead max_bytes _, ResBytes (Err _) => vss_closed s = true ∨ max_bytes = 0 ∨ vss_contents s = []
  | CmdWrite bytes _, ResUnit (Err _) =>
      vss_closed s = true ∨ len (vss_queue s) = VS_QUEUE_CAPACITY
  | CmdRead _ _, _ | CmdWrite _ _, ResBytes _ => False
  | _, _ => True
  end.

Lemma vss_next_bytes_spec s s' r :
  vss_inv s → vss_next_bytes s = (s', r) →
  vss_inv s' ∧ vss_closed s' = vss_closed s ∧
  match r with
  | Ok bytes => bytes ≠ [] ∧ vss_contents s = bytes ++ vss_contents s'
  | Err _ => vss_contents s = [] ∧ s' = s
  end.
Proof.
  intros [HI HQ]. unfold vss_next_bytes, vss_inv, vss_contents in *.
  destruct (vss_pending s) as [|b pending] eqn:Hp; [destruct (vss_queue s) as [|b queue] eqn:Hq|];
    intros [= <- <-]; simpl in *; rewrite ?Hp, ?Hq; simpl.
  - done.
  - apply Forall_cons in HI as [? ?]. split; [split; [done|unfold len in *; simpl in *; lia]|].
    done.
  - apply Forall_cons in HI as [? ?]. split; [done|]. split; [done|]. split; [done|].
    by rewrite app_assoc.
Qed.
Lemma vss_split_spec bytes n s s' head :
  0 < n → bytes ≠ [] → vss_inv s → vss_split_and_store_remainder bytes n s = (s', head) →
  vss_inv s' ∧ vss_closed s' = vss_closed s ∧ head ≠ [] ∧ len head <= n ∧
  head ++ vss_contents s' = bytes ++ vss_contents s.
Proof.
  intros Hn Hb [HI HQ]. unfold vss_split_and_store_remainder.
  destruct (_ <=? _) eqn:Hl; bool_simp; intros [= <- <-]; [done|].
  unfold vss_inv, vss_contents. simpl. unfold len in *. split_and!; try done.
  - constructor; [|done]. intros He%(f_equal length). rewrite length_drop in He. simpl in He. lia.
  - intros He%(f_equal length). rewrite length_take in He. simpl in He. lia.
  - rewrite length_take. lia.
  - by rewrite <- app_assoc, app_assoc, take_drop.
Qed.
Lemma vss_command_stream c s s' r :
  vss_inv s → valid_read c → run_command s c = (s', r) →
  vss_inv s' ∧ vss_closed s' = vss_closed s ∧
  bytes_out r ++ vss_contents s' = vss_contents s ++ bytes_in c r ∧
  answers c s r.
Proof.
  intros HI Hv. unfold run_command.
  destruct c as [max_bytes reply|bytes reply|reply|lines reply]; simpl in *.
  - unfold VirtualSerialSession_read. destruct (vss_closed s) eqn:Hc.
    { intros [= <- <-]. simpl. rewrite app_nil_r. auto 9. }
    destruct (max_bytes =? 0) eqn:Hm; bool_simp.
    { intros [= <- <-]. simpl. rewrite app_nil_r. auto 9. }
    destruct (vss_next_bytes s) as [s1 [b|e]] eqn:Hb; apply vss_next_bytes_spec in Hb as (H1 & H2 & H3); try done.
    2:{ intros [= <- <-]. destruct H3 as [H3 ->]. simpl. rewrite app_nil_r. auto 9. }
    destruct H3 as [Hne Hs].
    destruct (vss_split_and_store_remainder b max_bytes s1) as [s2 head] eqn:Hsp.
    apply vss_split_spec in Hsp as (H4 & H5 & H6 & H7 & H8); try done; [|lia].
    intros [= <- <-]. simpl. rewrite app_nil_r, Hs. split_and!; congruence.
  - unfold VirtualSerialSession_write_all. destruct (vss_closed s) eqn:Hc.
    { intros [= <- <-]. simpl. rewrite app_nil_r. auto 9. }
    destruct (len bytes =? 0) eqn:Hl; bool_simp.
    { intros [= <- <-]. simpl. destruct bytes; [|unfold len in Hl; simpl in Hl; lia].
      rewrite app_nil_r. auto 9. }
    destruct (_ =? _) eqn:Hq; bool_simp; intros [= <- <-]; cbn [bytes_out bytes_in].
    { simpl. rewrite app_nil_r. auto 9. }
    destruct HI as [HI HQ]. unfold vss_inv, vss_contents. cbn [vss_with vss_pending vss_queue].
    split_and!; try done.
    + rewrite app_assoc. apply Forall_app. split; [done|]. repeat constructor.
      intros ->. done.
    + unfold len in *. rewrite length_app. simpl. unfold VS_QUEUE_CAPACITY in *. lia.
    + rewrite queue_join. exact (app_assoc (mjoin (vss_pending s)) _ _).
  - intros [= <- <-]. rewrite app_nil_r. destruct (vss_closed s); auto 9.
  - unfold VirtualSerialSession_set_control_lines.
    destruct (vss_closed s) eqn:Hc; intros [= <- <-]; simpl; rewrite app_nil_r; auto 9.
Qed.

(** A session is a bounded byte stream: whatever commands it runs, the bytes read, followed by
    those still inside, are those that were inside, followed by the bytes written by the
    writes that succeeded; a read takes at least one byte and at most what was asked for, and
    fails only on a closed session, for a zero bound or when nothing is there; a write fails
    only on a closed session or when 64 messages wait. *)
Theorem virtual_serial_stream cs s s' rs :
  vss_inv s → Forall valid_read cs → vs_run_commands cs s = (s', rs) →
  vss_inv s' ∧
  mjoin (bytes_out <$> rs.*2) ++ vss_contents s' = vss_contents s ++ mjoin (zip_with bytes_in cs rs.*2) ∧
  Forall2 (λ c sr, answers c sr.1 sr.2) cs rs.
Proof.
  intros HI Hv. revert s s' rs HI. induction Hv as [|c cs Hc Hv IH]; intros s s' rs HI; simpl.
  { intros [= <- <-]. simpl. rewrite app_nil_r. repeat split; try constructor; apply HI. }
  destruct (run_command s c) as [s1 r] eqn:Hr.
  apply vss_command_stream in Hr as (H1 & _ & H3 & H4); [|done|done].
  destruct (vs_run_commands cs s1) as [s2 rs'] eqn:Hrs. intros [= <- <-].
  apply IH in Hrs as (I1 & I2 & I3); [|done]. simpl. split_and!; [done| |by constructor].
  change ((bytes_out r ++ mjoin (bytes_out <$> rs'.*2)) ++ vss_contents s2
          = vss_contents s ++ bytes_in c r ++ mjoin (zip_with bytes_in cs rs'.*2)).
  by rewrite <- app_assoc, I2, app_assoc, H3, app_assoc.
Qed.
End serial.
