(* ===== verification/TestkitCamera.v ===== *)
(** * robot-hal-testkit: the virtual camera

    Models crates/robot-hal-testkit/src/virtual_camera.rs.  An adapter and its sessions share
    a state behind a mutex; every method is one atomic step on it, but for a capture that
    waits at its gate: [wakes] is what others do to the state before each time the waiter
    has the gate's lock again.  Gates are named by their place in [vcam_gates], since a
    waiter keeps the gate it entered when another is installed. *)

From S2P Require Import Prelude Core SerialRegistry CameraTypes ShmRing CameraWorker.
From S2P Require Import Native TestkitUsbGpio TestkitCan.
Open Scope Z_scope.

Global Instance CameraControlKind_eq_dec : EqDecision CameraControlKind.
Proof. solve_decision. Defined.

Definition VCAM_CLOCK_DOMAIN : string := "virtual-camera".
Record CaptureGate := mkCaptureGate { gate_entered : bool; gate_released : bool }.
Record ControlState := mkControlState {
  ctl_descriptor : CameraControlDescriptor;
  ctl_value : CameraControlValue;
  ctl_auto : bool;
}.
(** [vcam_controls]: a [BTreeMap], in the order of its keys. *)
Record VirtualCameraState := mkVirtualCameraState {
  vcam_present : bool;
  vcam_claimed : bool;
  vcam_next_capture : option HalError;
  vcam_next_close_error : bool;
  vcam_unplug_next : bool;
  vcam_blocked : option nat;
  vcam_gates : list CaptureGate;
  vcam_control_set_count : Z;
  vcam_controls : list (CameraControlKind * ControlState);
}.
Record VirtualCameraSession := mkVirtualCameraSession {
  vcs_descriptor : ResourceDescriptor;
  vcs_format : CameraFormat;
  vcs_next_sequence : Z;
  vcs_closed : bool;
}.
Definition vcam_presence (present claimed unplug_next : bool) (s : VirtualCameraState) : VirtualCameraState :=
  mkVirtualCameraState present claimed (vcam_next_capture s) (vcam_next_close_error s) unplug_next
    (vcam_blocked s) (vcam_gates s) (vcam_control_set_count s) (vcam_controls s).
Definition vcam_failures (capture : option HalError) (close : bool) (s : VirtualCameraState)
    : VirtualCameraState :=
  mkVirtualCameraState (vcam_present s) (vcam_claimed s) capture close (vcam_unplug_next s)
    (vcam_blocked s) (vcam_gates s) (vcam_control_set_count s) (vcam_controls s).
Definition vcam_gating (blocked : option nat) (gates : list CaptureGate) (s : VirtualCameraState)
    : VirtualCameraState :=
  mkVirtualCameraState (vcam_present s) (vcam_claimed s) (vcam_next_capture s) (vcam_next_close_error s)
    (vcam_unplug_next s) blocked gates (vcam_control_set_count s) (vcam_controls s).
Definition vcam_control (count : Z) (controls : list (CameraControlKind * ControlState))
    (s : VirtualCameraState) : VirtualCameraState :=
  mkVirtualCameraState (vcam_present s) (vcam_claimed s) (vcam_next_capture s) (vcam_next_close_error s)
    (vcam_unplug_next s) (vcam_blocked s) (vcam_gates s) count controls.

(** ** Errors *)
Definition vcam_error (name : string) (category : ErrorCategory) (operation message : string)
    (d : ResourceDescriptor) : HalError :=
  HalError_with_resource_id (static_error name category operation false message) (desc_id d).
Definition vcam_conflict (operation : string) : ResourceDescriptor → HalError :=
  vcam_error "runtime.adapter.conflict" Conflict operation "camera capture session is already open".
Definition vcam_closed (operation : string) : ResourceDescriptor → HalError :=
  vcam_error "runtime.session.closed" Conflict operation "camera session is closed".
Definition vcam_unplugged (operation : string) : ResourceDescriptor → HalError :=
  vcam_error "camera.session.unplugged" Unavailable operation "camera was unplugged".
Definition vcam_unsupported (operation : string) : ResourceDescriptor → HalError :=
  vcam_error "camera.control.unsupported" InvalidArgument operation
    "camera control or operation is unsupported".

(** ** The adapter *)
Definition integer_control (kind : CameraControlKind) (minimum maximum step value : Z)
    : HalResult (CameraControlKind * ControlState) :=
  CameraControlValues_range minimum maximum step ≫= λ values,
  CameraControlDescriptor_new kind true true true values true None ≫= λ descriptor,
  Ok (kind, mkControlState descriptor (ControlInteger value) false).
Definition enum_control (kind : CameraControlKind) (values : list string) (value : string)
    : HalResult (CameraControlKind * ControlState) :=
  CameraControlValues_enumerated (map ControlEnum values) ≫= λ values,
  CameraControlDescriptor_new kind true true true values true None ≫= λ descriptor,
  Ok (kind, mkControlState descriptor (ControlEnum value) false).
Definition virtual_controls : HalResult (list (CameraControlKind * ControlState)) :=
  collect id
    [integer_control Exposure 1 1000 1 100; integer_control Gain 0 100 1 0;
     enum_control WhiteBalance ["auto"; "daylight"; "tungsten"] "auto";
     integer_control Focus 0 255 1 0].
Definition VirtualCameraAdapter_new (resource_id : string) (controls_supported : bool)
    : HalResult (ResourceDescriptor * VirtualCameraState) :=
  virtual_descriptor "virtual://camera/" resource_id Camera [("adapter", "virtual"); ("mode", "pattern")]
    ([camera_capture_capability; camera_frames_shm_capability]
     ++ (if controls_supported then [camera_controls_capability] else [])) ≫= λ descriptor,
  (if controls_supported then virtual_controls else Ok []) ≫= λ controls,
  Ok (descriptor, mkVirtualCameraState true false None false false None [] 0 controls).
Definition VirtualCameraAdapter_pattern (resource_id : string) := VirtualCameraAdapter_new resource_id true.
Definition VirtualCameraAdapter_capture_only (resource_id : string) := VirtualCameraAdapter_new resource_id false.

Definition VirtualCameraAdapter_fail_next_capture (e : HalError) (s : VirtualCameraState) :=
  vcam_failures (Some e) (vcam_next_close_error s) s.
Definition VirtualCameraAdapter_fail_next_close (s : VirtualCameraState) :=
  vcam_failures (vcam_next_capture s) true s.
Definition VirtualCameraAdapter_unplug (s : VirtualCameraState) :=
  vcam_presence false (vcam_claimed s) (vcam_unplug_next s) s.
Definition VirtualCameraAdapter_plug (s : VirtualCameraState) :=
  vcam_presence true (vcam_claimed s) (vcam_unplug_next s) s.
Definition VirtualCameraAdapter_unplug_before_next_publication (s : VirtualCameraState) :=
  vcam_presence (vcam_present s) (vcam_claimed s) true s.
Definition VirtualCameraAdapter_block_next_capture_until_released (s : VirtualCameraState) :=
  vcam_gating (Some (length (vcam_gates s))) (vcam_gates s ++ [mkCaptureGate false false]) s.
(** [None]: no gate is installed, and [expect] panics. *)
Definition VirtualCameraAdapter_release_blocked_capture (s : VirtualCameraState)
    : option VirtualCameraState :=
  gate ← vcam_blocked s;
  Some (vcam_gating (vcam_blocked s) (alter (λ g, mkCaptureGate (gate_entered g) true) gate (vcam_gates s)) s).
(** The outer [None] is the panic; the inner one, that the capture never enters. *)
Fixpoint wait_entered (gate : nat) (wakes : list (VirtualCameraState → VirtualCameraState))
    (s : VirtualCameraState) : option VirtualCameraState :=
  if is_some_and gate_entered (vcam_gates s !! gate) then Some s
  else match wakes with [] => None | wake :: wakes => wait_entered gate wakes (wake s) end.
Definition VirtualCameraAdapter_wait_for_blocked_capture
    (wakes : list (VirtualCameraState → VirtualCameraState)) (s : VirtualCameraState)
    : option (option VirtualCameraState) :=
  (λ gate, wait_entered gate wakes s) <$> vcam_blocked s.
Definition VirtualCameraAdapter_control_set_count (s : VirtualCameraState) : Z := vcam_control_set_count s.

Definition VirtualCameraAdapter_enumerate (d : ResourceDescriptor) (s : VirtualCameraState)
    : HalResult (list ResourceDescriptor) := Ok (if vcam_present s then [d] else []).
Definition vcam_is_supported (f : CameraFormat) : bool :=
  match cf_pixel_format f with CamNv12 | CamYuyv => true | CamMjpeg => false end
  && (((cf_width f =? 640) && (cf_height f =? 480)) || ((cf_width f =? 320) && (cf_height f =? 240))).
(** [resolved]: what the selector finds. *)
Definition vcam_open_resolved (d : ResourceDescriptor) (resolved : HalResult ResourceDescriptor)
    (request : CameraRequest) (s : VirtualCameraState) : VirtualCameraState * HalResult VirtualCameraSession :=
  match CameraFormat_validate (req_format request) with
  | Err e => (s, Err e)
  | Ok _ =>
      if negb (vcam_is_supported (req_format request)) then
        (s, Err (static_error "camera.format.unsupported" InvalidArgument "camera.open" false
                   "virtual camera does not support the requested format"))
      else if negb (vcam_present s) then (s, Err (vcam_unplugged "camera.open" d))
      else
        match resolved with
        | Err e => (s, Err e)
        | Ok d =>
            if vcam_claimed s then (s, Err (vcam_conflict "camera.open" d))
            else (vcam_presence (vcam_present s) true (vcam_unplug_next s) s,
                  Ok (mkVirtualCameraSession d (req_format request) 1 false))
        end
  end.
Definition VirtualCameraAdapter_open (d : ResourceDescriptor) (selector : ResourceSelector)
    : CameraRequest → VirtualCameraState → VirtualCameraState * HalResult VirtualCameraSession :=
  vcam_open_resolved d (resolve_resource [d] selector camera_capture_capability "camera.open").

(** ** The session *)
Definition vcam_payload_length (f : CameraFormat) : HalResult Z := CameraFormat_worst_case_frame_bytes f.
Definition vcam_plane_layout (f : CameraFormat) (payload_length : Z) : HalResult (list CameraPlaneLayout) :=
  match cf_pixel_format f with
  | CamNv12 =>
      let y_length := cf_width f * cf_height f in
      CameraPlaneLayout_new 0 y_length (cf_width f) ≫= λ y,
      CameraPlaneLayout_new y_length (payload_length - y_length) (cf_width f) ≫= λ uv, Ok [y; uv]
  | CamYuyv | CamMjpeg =>
      CameraPlaneLayout_new 0 payload_length (cf_width f * 2) ≫= λ plane, Ok [plane]
  end.
Definition vcam_pattern (n : Z) : list Z := map (λ i, i mod 251) (seqZ 0 n).
Definition vcam_ensure_active (session : VirtualCameraSession) (operation : string) (s : VirtualCameraState)
    : HalResult unit :=
  if vcs_closed session then Err (vcam_closed operation (vcs_descriptor session))
  else if negb (vcam_present s) then Err (vcam_unplugged operation (vcs_descriptor session))
  else Ok ().
Definition vcam_unplug_before_publication (s : VirtualCameraState) : VirtualCameraState :=
  if vcam_unplug_next s then vcam_presence false (vcam_claimed s) false s else s.
Definition vcam_ensure_controls (d : ResourceDescriptor) (operation : string) : HalResult unit :=
  if CapabilitySet_contains (desc_capabilities d) camera_controls_capability then Ok ()
  else Err (vcam_unsupported operation d).

(** [None]: nobody releases the gate. *)
Fixpoint wait_released (gate : nat) (wakes : list (VirtualCameraState → VirtualCameraState))
    (s : VirtualCameraState) : option VirtualCameraState :=
  if is_some_and gate_released (vcam_gates s !! gate) then Some s
  else match wakes with [] => None | wake :: wakes => wait_released gate wakes (wake s) end.
Definition vcam_pass_gate (wakes : list (VirtualCameraState → VirtualCameraState)) (s : VirtualCameraState)
    : option VirtualCameraState :=
  match vcam_blocked s with
  | None => Some s
  | Some gate =>
      wait_released gate wakes
        (vcam_gating (vcam_blocked s) (alter (λ g, mkCaptureGate true (gate_released g)) gate (vcam_gates s)) s)
  end.
Definition vcam_frame (session : VirtualCameraSession) : HalResult (VirtualCameraSession * HalResult CameraFrame) :=
  let f := vcs_format session in
  vcam_payload_length f ≫= λ n,
  vcam_plane_layout f n ≫= λ planes,
  CameraFrameMetadata_new f planes (vcs_next_sequence session) (vcs_next_sequence session)
    VCAM_CLOCK_DOMAIN 0 ≫= λ metadata,
  Ok (mkVirtualCameraSession (vcs_descriptor session) f
        (saturating_add u64_max (vcs_next_sequence session) 1) (vcs_closed session),
      CameraFrame_new metadata (vcam_pattern n)).
Definition VirtualCameraSession_capture (wakes : list (VirtualCameraState → VirtualCameraState))
    (session : VirtualCameraSession) (s : VirtualCameraState)
    : option (VirtualCameraSession * VirtualCameraState * HalResult CameraFrame) :=
  s ← vcam_pass_gate wakes s;
  Some match vcam_ensure_active session "camera.capture" s with
  | Err e => (session, s, Err e)
  | Ok _ =>
      let s := vcam_unplug_before_publication s in
      match vcam_ensure_active session "camera.capture" s with
      | Err e => (session, s, Err e)
      | Ok _ =>
          match injected (vcam_next_capture s) (vcs_descriptor session) with
          | Some e => (session, vcam_failures None (vcam_next_close_error s) s, Err e)
          | None =>
              match vcam_frame session with
              | Err e => (session, s, Err e)
              | Ok (session, frame) => (session, s, frame)
              end
          end
      end
  end.
Definition vcam_active_controls (operation : string) (session : VirtualCameraSession) (s : VirtualCameraState)
    : HalResult unit :=
  vcam_ensure_active session operation s ≫= λ _, vcam_ensure_controls (vcs_descriptor session) operation.
Definition VirtualCameraSession_controls (session : VirtualCameraSession) (s : VirtualCameraState)
    : VirtualCameraState * HalResult (list CameraControlDescriptor) :=
  match vcam_active_controls "camera.controls" session s with
  | Err e => (s, Err e)
  | Ok _ =>
      let s := vcam_unplug_before_publication s in
      (s, vcam_ensure_active session "camera.controls" s ≫= λ _,
          Ok (map (λ kc, ctl_descriptor kc.2) (vcam_controls s)))
  end.
Definition find_control (kind : CameraControlKind) (s : VirtualCameraState) : option (nat * ControlState) :=
  (λ x, (x.1, x.2.2)) <$> list_find (λ kc, kc.1 = kind) (vcam_controls s).
Definition control_or_unsupported (operation : string) (session : VirtualCameraSession)
    (kind : CameraControlKind) (s : VirtualCameraState) : HalResult (nat * ControlState) :=
  vcam_active_controls operation session s ≫= λ _,
  ok_or (vcam_unsupported operation (vcs_descriptor session)) (find_control kind s).
Definition VirtualCameraSession_get_control (session : VirtualCameraSession) (kind : CameraControlKind)
    (s : VirtualCameraState) : HalResult CameraControlValue :=
  control_or_unsupported "camera.control.get" session kind s ≫= λ '(_, control),
  if cd_readable (ctl_descriptor control) then Ok (ctl_value control)
  else Err (vcam_unsupported "camera.control.get" (vcs_descriptor session)).
Definition VirtualCameraSession_set_control (session : VirtualCameraSession) (kind : CameraControlKind)
    (value : CameraControlValue) (s : VirtualCameraState) : VirtualCameraState * HalResult unit :=
  match control_or_unsupported "camera.control.set" session kind s with
  | Err e => (s, Err e)
  | Ok (i, control) =>
      let d := ctl_descriptor control in
      if negb (cd_writable d) || negb (CameraControlValues_contains (cd_values d) value) then
        (s, Err (vcam_error "camera.control.invalid" InvalidArgument "camera.control.set"
                   "camera control value is unsupported" (vcs_descriptor session)))
      else (vcam_control (saturating_add u64_max (vcam_control_set_count s) 1)
              (<[i := (kind, mkControlState d value false)]> (vcam_controls s)) s, Ok ())
  end.
Definition VirtualCameraSession_set_auto (session : VirtualCameraSession) (kind : CameraControlKind)
    (enabled : bool) (s : VirtualCameraState) : VirtualCameraState * HalResult unit :=
  match control_or_unsupported "camera.control.auto" session kind s with
  | Err e => (s, Err e)
  | Ok (i, control) =>
      let d := ctl_descriptor control in
      if negb (cd_auto_supported d) then
        (s, Err (vcam_unsupported "camera.control.auto" (vcs_descriptor session)))
      else (vcam_control (vcam_control_set_count s)
              (<[i := (kind, mkControlState d (ctl_value control) enabled)]> (vcam_controls s)) s, Ok ())
  end.
Definition VirtualCameraSession_close (session : VirtualCameraSession) (s : VirtualCameraState)
    : VirtualCameraSession * VirtualCameraState * HalResult unit :=
  if vcs_closed session then (session, s, Ok ())
  else
    let s := vcam_presence (vcam_present s) false (vcam_unplug_next s) s in
    let session := mkVirtualCameraSession (vcs_descriptor session) (vcs_format session)
                     (vcs_next_sequence session) true in
    if vcam_next_close_error s then
      (session, vcam_failures (vcam_next_capture s) false s,
       Err (vcam_error "camera.session.close_failed" Unavailable "camera.close"
              "virtual camera close failed" (vcs_descriptor session)))
    else (session, s, Ok ()).
Definition VirtualCameraSession_drop (session : VirtualCameraSession) (s : VirtualCameraState)
    : VirtualCameraState :=
  if vcs_closed session then s else vcam_presence (vcam_present s) false (vcam_unplug_next s) s.

(** ** Frames *)
Lemma pattern_length n : 0 <= n → Z.of_nat (length (vcam_pattern n)) = n.
Proof. intros Hn. unfold vcam_pattern. rewrite length_map, length_seqZ. lia. Qed.
Definition vcam_planes (f : CameraFormat) : list CameraPlaneLayout :=
  let pixels := cf_width f * cf_height f in
  match cf_pixel_format f with
  | CamNv12 => [mkCameraPlaneLayout 0 pixels (cf_width f);
                mkCameraPlaneLayout pixels (pixels `div` 2) (cf_width f)]
  | _ => [mkCameraPlaneLayout 0 (pixels * 2) (cf_width f * 2)]
  end.
Definition vcam_size (f : CameraFormat) : Z :=
  match cf_pixel_format f with
  | CamNv12 => (cf_width f * cf_height f * 3) `div` 2
  | _ => cf_width f * cf_height f * 2
  end.
Lemma supported_formats f :
  vcam_is_supported f = true →
  f ∈ [mkCameraFormat CamNv12 640 480; mkCameraFormat CamNv12 320 240;
       mkCameraFormat CamYuyv 640 480; mkCameraFormat CamYuyv 320 240].
Proof.
  destruct f as [p w h]. unfold vcam_is_supported. simpl. rewrite andb_true_iff, orb_true_iff, !andb_true_iff.
  intros [Hp [[Hw Hh]|[Hw Hh]]]; bool_simp; subst; destruct p; try done; set_solver.
Qed.
Lemma bind_step {A B} (m : HalResult A) (f : A → HalResult B) x r :
  m = Ok x → f x = r → (m ≫= f) = r.
Proof. by intros ->. Qed.
Lemma vcam_frame_ok session :
  vcam_is_supported (vcs_format session) = true →
  let f := vcs_format session in
  vcam_frame session
  = Ok (mkVirtualCameraSession (vcs_descriptor session) f
          (saturating_add u64_max (vcs_next_sequence session) 1) (vcs_closed session),
        Ok (mkCameraFrame (mkCameraFrameMetadata f (vcam_planes f) (vcs_next_sequence session)
                             (vcs_next_sequence session) VCAM_CLOCK_DOMAIN 0) (vcam_pattern (vcam_size f)))).
Proof.
  intros Hs%supported_formats. destruct session as [d f sequence closed]. simpl in *.
  assert (∀ metadata n, 0 <= n → CameraFrame_new metadata (vcam_pattern n)
    = (if (MAX_CAMERA_FRAME_BYTES <? n) || existsb (plane_escapes n) (fm_planes metadata) then
         Err (camera_invalid_frame "camera.frame"
                "camera frame payload or plane layout exceeds public bounds")
       else validate_plane_layouts_against_payload (fm_format metadata) (fm_planes metadata) n ≫= λ _,
            Ok (mkCameraFrame metadata (vcam_pattern n)))) as Hnew.
  { intros metadata n Hn. unfold CameraFrame_new. by rewrite pattern_length. }
  set_unfold in Hs. unfold vcam_frame.
  destruct Hs as [->|[->|[->|[->|[]]]]]; do 3 (eapply bind_step; [vm_compute; reflexivity|]);
    (rewrite Hnew; [|lia]); clear Hnew;
    cbn [vcs_next_sequence vcs_format vcs_descriptor vcs_closed];
    generalize vcam_pattern, (saturating_add u64_max sequence 1); intros pattern next;
    vm_compute; reflexivity.
Qed.

(** *** Captures *)
Definition vcam_ready (session : VirtualCameraSession) (s : VirtualCameraState) : Prop :=
  vcs_closed session = false ∧ vcam_present s = true ∧ vcam_unplug_next s = false ∧
  vcam_next_capture s = None ∧ is_none_or (λ g, is_some_and gate_released (vcam_gates s !! g)) (vcam_blocked s) = true.

(** An opened session of a plugged camera, with no failure asked for and no gate shut, always
    captures: the frame has the format asked for and the next sequence number, its planes
    hold the whole image one after the other, and the payload is the test pattern of exactly
    that size. *)
Theorem virtual_camera_captures d selector request s s' session wakes :
  VirtualCameraAdapter_open d selector request s = (s', Ok session) →
  ∀ session' s1, vcs_format session' = vcs_format session → vcam_ready session' s1 →
  let f := req_format request in
  ∃ s2, VirtualCameraSession_capture wakes session' s1
  = Some (mkVirtualCameraSession (vcs_descriptor session') f
            (saturating_add u64_max (vcs_next_sequence session') 1) false, s2,
          Ok (mkCameraFrame (mkCameraFrameMetadata f (vcam_planes f) (vcs_next_sequence session')
                (vcs_next_sequence session') VCAM_CLOCK_DOMAIN 0) (vcam_pattern (vcam_size f)))) ∧
  vcam_ready (mkVirtualCameraSession (vcs_descriptor session') f
            (saturating_add u64_max (vcs_next_sequence session') 1) false) s2.
Proof.
  intros Ho session' s1 Hf (Hc & Hp & Hu & Hn & Hg).
  assert (vcs_format session = req_format request ∧ vcam_is_supported (req_format request) = true) as [Hf' Hs].
  { revert Ho. unfold VirtualCameraAdapter_open, vcam_open_resolved. destruct (CameraFormat_validate _); [|done].
    destruct (vcam_is_supported _); [|done]. destruct (vcam_present s); [|done]. simpl.
    destruct (resolve_resource _ _ _ _); [|done]. destruct (vcam_claimed s); [done|].
    by intros [= <- <-]. }
  rewrite Hf' in Hf. rewrite <- Hf in *.
  assert (∃ s2, vcam_pass_gate wakes s1 = Some s2 ∧ vcam_ready session' s2) as (s2 & Hpass & Hr).
  { unfold vcam_pass_gate. destruct (vcam_blocked s1) as [gate|] eqn:Hb.
    2:{ exists s1. split; [done|]. unfold vcam_ready. rewrite Hb. done. }
    simpl in Hg. set (s2 := vcam_gating _ _ _).
    assert (is_some_and gate_released (vcam_gates s2 !! gate) = true) as Hg2.
    { subst s2. simpl. rewrite list_lookup_alter_eq. by destruct (vcam_gates s1 !! gate). }
    exists s2. split; [by destruct wakes; cbn [wait_released]; rewrite Hg2|].
    unfold vcam_ready. subst s2. cbn [vcam_gating vcam_blocked vcam_present vcam_unplug_next vcam_next_capture].
    done. }
  destruct Hr as (_ & Hp2 & Hu2 & Hn2 & Hg2).
  unfold VirtualCameraSession_capture. rewrite Hpass. simpl.
  unfold vcam_ensure_active. rewrite Hc, Hp2. simpl. unfold vcam_unplug_before_publication.
  rewrite Hu2, Hp2, Hn2. simpl. rewrite vcam_frame_ok by done. rewrite Hc.
  eexists. split; [done|]. done.
Qed.

(** ** Claims *)
Inductive vcam_step (d : ResourceDescriptor)
    : VirtualCameraState * list VirtualCameraSession → VirtualCameraState * list VirtualCameraSession → Prop :=
  | VcamOpen s l selector request s' session :
      VirtualCameraAdapter_open d selector request s = (s', Ok session) →
      vcam_step d (s, l) (s', l ++ [session])
  | VcamOpenFails s l selector request s' e :
      VirtualCameraAdapter_open d selector request s = (s', Err e) → vcam_step d (s, l) (s', l)
  | VcamCapture s l i session session' s' r :
      l !! i = Some session → VirtualCameraSession_capture [] session s = Some (session', s', r) →
      vcam_step d (s, l) (s', <[i := session']> l)
  | VcamControls s l i session s' r :
      l !! i = Some session → VirtualCameraSession_controls session s = (s', r) → vcam_step d (s, l) (s', l)
  | VcamSet s l i session kind value s' r :
      l !! i = Some session → VirtualCameraSession_set_control session kind value s = (s', r) →
      vcam_step d (s, l) (s', l)
  | VcamAuto s l i session kind enabled s' r :
      l !! i = Some session → VirtualCameraSession_set_auto session kind enabled s = (s', r) →
      vcam_step d (s, l) (s', l)
  | VcamClose s l i session session' s' r :
      l !! i = Some session → VirtualCameraSession_close session s = (session', s', r) →
      vcam_step d (s, l) (s', <[i := session']> l)
  | VcamDrop s l i session :
      l !! i = Some session → vcam_step d (s, l) (VirtualCameraSession_drop session s, delete i l)
  | VcamPlug s l : vcam_step d (s, l) (VirtualCameraAdapter_plug s, l)
  | VcamUnplug s l : vcam_step d (s, l) (VirtualCameraAdapter_unplug s, l)
  | VcamUnplugNext s l : vcam_step d (s, l) (VirtualCameraAdapter_unplug_before_next_publication s, l)
  | VcamFailCapture s l e : vcam_step d (s, l) (VirtualCameraAdapter_fail_next_capture e s, l)
  | VcamFailClose s l : vcam_step d (s, l) (VirtualCameraAdapter_fail_next_close s, l)
  | VcamBlock s l : vcam_step d (s, l) (VirtualCameraAdapter_block_next_capture_until_released s, l)
  | VcamRelease s l s' :
      VirtualCameraAdapter_release_blocked_capture s = Some s' → vcam_step d (s, l) (s', l).

(** The claim, as a set with at most one element. *)
Definition vcam_claims (s : VirtualCameraState) : gset Z := if vcam_claimed s then {[0]} else ∅.
Definition vcs_holds (_ : VirtualCameraSession) : gset Z := {[0]}.

Lemma vcam_pass_gate_claimed s s' : vcam_pass_gate [] s = Some s' → vcam_claimed s' = vcam_claimed s.
Proof.
  unfold vcam_pass_gate. destruct (vcam_blocked s); [|by intros [= <-]].
  simpl. by destruct (is_some_and _ _); intros [= <-].
Qed.
Lemma vcam_unplug_claimed s : vcam_claimed (vcam_unplug_before_publication s) = vcam_claimed s.
Proof. unfold vcam_unplug_before_publication. by destruct (vcam_unplug_next s). Qed.
Lemma vcam_capture_claims session s session' s' r :
  VirtualCameraSession_capture [] session s = Some (session', s', r) →
  vcs_closed session' = vcs_closed session ∧ vcam_claimed s' = vcam_claimed s.
Proof.
  unfold VirtualCameraSession_capture. destruct (vcam_pass_gate [] s) as [s1|] eqn:Hp; [|done].
  apply vcam_pass_gate_claimed in Hp. simpl.
  destruct (vcam_ensure_active session _ s1); [|by intros [= <- <- <-]].
  destruct (vcam_ensure_active session _ _); [|by intros [= <- <- <-]; rewrite vcam_unplug_claimed].
  destruct (injected _ _); [by intros [= <- <- <-]; simpl; rewrite vcam_unplug_claimed|].
  destruct (vcam_frame session) as [[session1 frame]|] eqn:Hf;
    intros [= <- <- <-]; (split; [|by rewrite vcam_unplug_claimed]); [|done].
  unfold vcam_frame in Hf. apply bind_Ok in Hf as (n & _ & Hf). apply bind_Ok in Hf as (planes & _ & Hf).
  apply bind_Ok in Hf as (metadata & _ & [= <- _]). done.
Qed.
Lemma vcam_open_claims d selector request s s' session :
  VirtualCameraAdapter_open d selector request s = (s', Ok session) →
  vcs_closed session = false ∧ vcam_claimed s = false ∧ vcam_claimed s' = true.
Proof.
  unfold VirtualCameraAdapter_open, vcam_open_resolved. destruct (CameraFormat_validate _); [|done].
  destruct (vcam_is_supported _); [|done]. destruct (vcam_present s); [|done]. simpl.
  destruct (resolve_resource _ _ _ _); [|done]. destruct (vcam_claimed s); [done|].
  by intros [= <- <-].
Qed.
Lemma vcam_open_Err d selector request s s' e :
  VirtualCameraAdapter_open d selector request s = (s', Err e) → s' = s.
Proof.
  unfold VirtualCameraAdapter_open, vcam_open_resolved. destruct (CameraFormat_validate _); [|by intros [= <- <-]].
  destruct (negb _); [by intros [= <- <-]|]. destruct (negb _); [by intros [= <- <-]|].
  destruct (resolve_resource _ _ _ _); [|by intros [= <- <-]].
  destruct (vcam_claimed s); [by intros [= <- <-]|done].
Qed.
Lemma vcam_release_claims session s s' :
  vcam_claimed s' = (if vcs_closed session then vcam_claimed s else false) →
  vcam_claims s' = if vcs_closed session then vcam_claims s else vcam_claims s ∖ vcs_holds session.
Proof.
  unfold vcam_claims, vcs_holds. intros ->. destruct (vcs_closed session); [done|].
  destruct (vcam_claimed s); set_solver.
Qed.

(** At most one session of a virtual camera is open, and the camera is claimed exactly while
    one is, under any order of opens, captures, unplugs, failures, closes and drops. *)
Theorem vcam_claims_exclusive d s l s' l' :
  rtc (vcam_step d) (s, l) (s', l') →
  exclusive_claims (vcam_claims s) (held_claims vcs_closed vcs_holds l) →
  exclusive_claims (vcam_claims s') (held_claims vcs_closed vcs_holds l').
Proof.
  intros Hr. remember (s, l) as x. remember (s', l') as y. revert s l Heqx.
  induction Hr as [x|x [s1 l1] y Hs _ IH]; intros s l -> He; [by injection Heqy as <- <-|].
  apply (IH Heqy _ _ eq_refl). clear IH.
  assert (∀ s2, vcam_claimed s2 = vcam_claimed s → vcam_claims s2 = vcam_claims s) as Hsame
    by (unfold vcam_claims; by intros ? ->).
  inversion Hs as [? ? ? ? ? ? Ho|? ? ? ? ? ? Ho|? ? ? ? ? ? ? Hi Ho|? ? ? ? ? ? Hi Ho
    |? ? ? ? ? ? ? ? Hi Ho|? ? ? ? ? ? ? ? Hi Ho|? ? ? ? ? ? ? Hi Ho|? ? ? ? Hi| | | | | | |? ? ? Ho];
    subst; try (by rewrite (Hsame s1)); try done.
  - apply vcam_open_claims in Ho as (Hc & H0 & H1).
    assert (vcam_claims s1 = vcs_holds session ∪ vcam_claims s) as ->
      by (unfold vcam_claims; rewrite H0, H1; set_solver).
    apply exclusive_open; [done| |done]. unfold vcam_claims. rewrite H0. set_solver.
  - by apply vcam_open_Err in Ho as ->.
  - apply vcam_capture_claims in Ho as [Hc Hcl]. rewrite (Hsame _ Hcl). by eapply exclusive_update.
  - rewrite (Hsame s1); [done|]. revert Ho. unfold VirtualCameraSession_controls.
    destruct (vcam_active_controls _ _ _); intros [= <- <-]; [apply vcam_unplug_claimed|done].
  - rewrite (Hsame s1); [done|]. revert Ho. unfold VirtualCameraSession_set_control.
    destruct (control_or_unsupported _ _ _ _) as [[? ?]|]; [destruct (_ || _)|]; by intros [= <- <-].
  - rewrite (Hsame s1); [done|]. revert Ho. unfold VirtualCameraSession_set_auto.
    destruct (control_or_unsupported _ _ _ _) as [[? ?]|]; [destruct (negb _)|]; by intros [= <- <-].
  - rewrite (vcam_release_claims session s s1).
    + eapply exclusive_close; [done| |done]. revert Ho. unfold VirtualCameraSession_close.
      destruct (vcs_closed session) eqn:Hc; [by intros [= <- <- <-]|].
      simpl. by destruct (vcam_next_close_error s); intros [= <- <- <-].
    + revert Ho. unfold VirtualCameraSession_close.
      destruct (vcs_closed session) eqn:Hc; [by intros [= <- <- <-]|].
      simpl. by destruct (vcam_next_close_error s); intros [= <- <- <-].
  - rewrite (vcam_release_claims session s (VirtualCameraSession_drop session s)).
    + by apply exclusive_gone.
    + unfold VirtualCameraSession_drop. by destruct (vcs_closed session).
  - rewrite (Hsame s1); [done|]. unfold VirtualCameraAdapter_release_blocked_capture in Ho.
    destruct (vcam_blocked s); [|done]. by injection Ho as <-.
Qed.

(** ** Controls *)

Lemma list_find_update l i kind control control' kind' :
  list_find (λ kc, kc.1 = kind) l = Some (i, (kind, control)) →
  list_find (λ kc : CameraControlKind * ControlState, kc.1 = kind') (<[i := (kind, control')]> l)
  = if decide (kind' = kind) then Some (i, (kind, control')) else list_find (λ kc, kc.1 = kind') l.
Proof.
  revert i. induction l as [|[k c] l IH]; intros i; [done|]. csimpl.
  destruct (decide (k = kind)) as [->|Hne].
  - intros [= <- <-]. csimpl. repeat case_decide; congruence.
  - intros ([i' [k' c']] & Hl & Heq)%fmap_Some. simpl in Heq. injection Heq as -> <- <-. csimpl.
    rewrite (IH i' Hl). repeat case_decide; simplify_eq; done.
Qed.

(** A control that was set reads back, no other changes, and what is refused is exactly a
    value outside the control's range or choices. *)
Theorem vcam_set_get session kind value s i control :
  control_or_unsupported "camera.control.set" session kind s = Ok (i, control) →
  cd_readable (ctl_descriptor control) = true → cd_writable (ctl_descriptor control) = true →
  let '(s', r) := VirtualCameraSession_set_control session kind value s in
  if CameraControlValues_contains (cd_values (ctl_descriptor control)) value then
    r = Ok () ∧ VirtualCameraSession_get_control session kind s' = Ok value ∧
    ∀ kind', kind' ≠ kind → find_control kind' s' = find_control kind' s
  else is_ok r = false ∧ s' = s.
Proof.
  intros Hc Hr Hw. unfold VirtualCameraSession_set_control. rewrite Hc, Hw. simpl.
  unfold control_or_unsupported in Hc. apply bind_Ok in Hc as ([] & Ha & Hf).
  destruct (find_control kind s) as [[i' c']|] eqn:Hfind; [|done]. injection Hf as -> ->.
  unfold find_control in Hfind.
  apply fmap_Some in Hfind as ([j [k c]] & Hl & [= -> ->]). simpl in *.
  pose proof Hl as (_ & Hk & _)%list_find_Some. simpl in Hk. subst k.
  destruct (CameraControlValues_contains _ _); simpl; [|done]. split; [done|].
  unfold VirtualCameraSession_get_control, control_or_unsupported, find_control. split.
  - assert (vcam_active_controls "camera.control.get" session
      (vcam_control (saturating_add u64_max (vcam_control_set_count s) 1)
         (<[j:=(kind, mkControlState (ctl_descriptor c) value false)]> (vcam_controls s)) s) = Ok ()) as ->.
    { revert Ha. unfold vcam_active_controls, vcam_ensure_active, vcam_ensure_controls. simpl.
      destruct (vcs_closed session); [done|]. destruct (negb _); [done|]. simpl.
      by destruct (CapabilitySet_contains _ _). }
    simpl. rewrite (list_find_update _ _ _ _ _ _ Hl), decide_True by done. simpl. by rewrite Hr.
  - intros kind' Hne. simpl. by rewrite (list_find_update _ _ _ _ _ _ Hl), decide_False.
Qed.

Lemma vcam_set_get_witness :
  match VirtualCameraAdapter_pattern "cam" with
  | Ok (d, s) =>
      let session := mkVirtualCameraSession d (mkCameraFormat CamYuyv 320 240) 1 false in
      (VirtualCameraSession_set_control session Gain (ControlInteger 55) s).2 = Ok ()
  | Err _ => False
  end.
Proof.
  destruct (VirtualCameraAdapter_pattern "cam") as [[d s]|] eqn:E; vm_compute in E; [|done].
  injection E as <- <-. cbv zeta.
  match goal with |- (VirtualCameraSession_set_control ?session ?k ?v ?s).2 = _ =>
    destruct (control_or_unsupported "camera.control.set" session k s) as [[i c]|] eqn:Ec;
      [|vm_compute in Ec; done];
    pose proof (vcam_set_get session k v s i c Ec) as H;
    destruct (VirtualCameraSession_set_control session k v s) as [s' r] eqn:Es end.
  vm_compute in Ec. injection Ec as <- <-. simpl in H.
  destruct (H eq_refl eq_refl) as [Hr _]. exact Hr.
Defined.

(** ** The conformance check *)
Class CameraAdapterUnderTest (W S : Type) := {
  cau_enumerate : native W HalError (list ResourceDescriptor);
  cau_open : ResourceSelector → CameraRequest → native W HalError S;
  cau_format : S → CameraFormat;
  cau_capture : native (S * W) Nonconformance CameraFrame;
  cau_controls : native (S * W) HalError (list CameraControlDescriptor);
  cau_get_control : CameraControlKind → native (S * W) HalError CameraControlValue;
  cau_set_control : CameraControlKind → CameraControlValue → native (S * W) HalError unit;
  cau_set_auto : CameraControlKind → bool → native (S * W) HalError unit;
  cau_close : native (S * W) HalError unit;
}.
Definition conf_error {S A} (name : string) (category : ErrorCategory) (message : string)
    : native S Nonconformance A :=
  throw (Returned (static_error name category "camera.conformance" false message)).
Definition assert_unsupported_control {S} (e : HalError) : native S Nonconformance unit :=
  conf_assert (bool_decide (err_name e = mkErrorName "camera.control.unsupported")) ≫= λ _,
  conf_assert (bool_decide (err_category e = InvalidArgument)).

Section conformance.
Context {W S : Type} `{CameraAdapterUnderTest W S}.
Notation check := (native W Nonconformance).
Notation session_check := (native (S * W) Nonconformance).

Definition on_session {A} (session : S) (body : session_check A) : check A := λ w,
  let '((_, w), r) := body (session, w) in (w, r).
Definition check_frames (request : CameraRequest) : session_check unit :=
  cau_capture ≫= λ first, cau_capture ≫= λ second,
  let m := frame_metadata first in let m' := frame_metadata second in
  conf_assert (bool_decide (fm_format m = req_format request)) ≫= λ _,
  conf_assert (len (frame_payload first) <=? MAX_CAMERA_FRAME_BYTES) ≫= λ _,
  conf_assert (fm_sequence m <? fm_sequence m') ≫= λ _,
  conf_assert (fm_monotonic_timestamp_ns m <=? fm_monotonic_timestamp_ns m') ≫= λ _,
  conf_assert (negb (str_is_empty (fm_clock_domain m'))).
Definition refuses {A} (m : native (S * W) HalError A) : session_check unit :=
  expect_err (returning m) ≫= assert_unsupported_control.
Definition check_controls (descriptor : ResourceDescriptor) : session_check unit :=
  if CapabilitySet_contains (desc_capabilities descriptor) camera_controls_capability then
    returning cau_controls ≫= λ controls,
    for_each (λ kind,
      conf_assert (existsb (λ d, bool_decide (cd_kind d = kind)) controls) ≫= λ _,
      returning (cau_get_control kind) ≫= λ _, mret ())
      [Exposure; Gain; WhiteBalance; Focus]
  else
    refuses cau_controls ≫= λ _,
    refuses (cau_get_control Exposure) ≫= λ _,
    refuses (cau_set_control Exposure (ControlInteger 100)) ≫= λ _,
    refuses (cau_set_auto Exposure true).
Definition check_end : session_check unit :=
  returning cau_close ≫= λ _,
  expect_err cau_capture ≫= λ e,
  conf_assert (bool_decide (err_name e = mkErrorName "runtime.session.closed")).
Definition check_camera (descriptor : ResourceDescriptor) (open : CameraRequest → native W HalError S)
    : check unit :=
  native_when (negb (CapabilitySet_contains (desc_capabilities descriptor) camera_capture_capability))
    (conf_error "camera.capture.unsupported" InvalidArgument "camera descriptor does not advertise capture")
  ≫= λ _,
  native_when (negb (bool_decide (desc_transport descriptor = Camera)))
    (conf_error "camera.descriptor.invalid" InvalidArgument
       "camera descriptor must use the camera transport kind") ≫= λ _,
  conf_lift (CameraFormat_new CamNv12 640 480 ≫= λ format,
             CameraRequest_new format DEFAULT_CAMERA_SLOT_COUNT) ≫= λ request,
  returning (open request) ≫= λ session,
  conf_assert (bool_decide (cau_format session = req_format request)) ≫= λ _,
  on_session session
    (check_frames request ≫= λ _, check_controls descriptor ≫= λ _, check_end) ≫= λ _,
  conf_lift (CameraFormat_new CamMjpeg 640 480 ≫= λ format,
             CameraRequest_new format DEFAULT_CAMERA_SLOT_COUNT) ≫= λ unsupported,
  expect_err (returning (open unsupported)) ≫= λ e,
  conf_assert (bool_decide (err_name e = mkErrorName "camera.format.unsupported")).
Definition run_camera_adapter_conformance : check unit :=
  returning cau_enumerate ≫= λ descriptors,
  match descriptors with
  | [] => conf_error "runtime.resource.not_found" NotFound "adapter enumerated no camera resources"
  | descriptor :: _ => check_camera descriptor (cau_open (ResourceDescriptor_selector descriptor))
  end.
End conformance.

(** The virtual adapter; a capture that waits at a gate which nobody opens never returns. *)
Definition virtual_camera_adapter (d : ResourceDescriptor)
    : CameraAdapterUnderTest VirtualCameraState VirtualCameraSession := {|
  cau_enumerate s := (s, VirtualCameraAdapter_enumerate d s);
  cau_open := VirtualCameraAdapter_open d;
  cau_format := vcs_format;
  cau_capture '(session, s) :=
    match VirtualCameraSession_capture [] session s with
    | Some (session, s, r) => ((session, s), map_err Returned r)
    | None => ((session, s), Err NeverReturns)
    end;
  cau_controls '(session, s) :=
    let '(s, r) := VirtualCameraSession_controls session s in ((session, s), r);
  cau_get_control kind '(session, s) := ((session, s), VirtualCameraSession_get_control session kind s);
  cau_set_control kind value '(session, s) :=
    let '(s, r) := VirtualCameraSession_set_control session kind value s in ((session, s), r);
  cau_set_auto kind enabled '(session, s) :=
    let '(s, r) := VirtualCameraSession_set_auto session kind enabled s in ((session, s), r);
  cau_close '(session, s) := VirtualCameraSession_close session s;
|}.

(** The state of a new camera. *)
Definition vcam_initial (claimed : bool) (controls : list (CameraControlKind * ControlState))
    : VirtualCameraState := mkVirtualCameraState true claimed None false false None [] 0 controls.
Definition nv12_640 : CameraFormat := mkCameraFormat CamNv12 640 480.
Lemma vcam_capture_initial d sequence claimed controls :
  VirtualCameraSession_capture [] (mkVirtualCameraSession d nv12_640 sequence false) (vcam_initial claimed controls)
  = Some (mkVirtualCameraSession d nv12_640 (saturating_add u64_max sequence 1) false,
          vcam_initial claimed controls,
          Ok (mkCameraFrame (mkCameraFrameMetadata nv12_640 (vcam_planes nv12_640) sequence sequence
                VCAM_CLOCK_DOMAIN 0) (vcam_pattern (vcam_size nv12_640)))).
Proof.
  unfold VirtualCameraSession_capture. cbn -[vcam_frame]. by rewrite vcam_frame_ok.
Qed.

Lemma cau_capture_initial d sequence claimed controls :
  @cau_capture _ _ (virtual_camera_adapter d)
    (mkVirtualCameraSession d nv12_640 sequence false, vcam_initial claimed controls)
  = ((mkVirtualCameraSession d nv12_640 (saturating_add u64_max sequence 1) false,
      vcam_initial claimed controls),
     Ok (mkCameraFrame (mkCameraFrameMetadata nv12_640 (vcam_planes nv12_640) sequence sequence
           VCAM_CLOCK_DOMAIN 0) (vcam_pattern (vcam_size nv12_640)))).
Proof. unfold cau_capture, virtual_camera_adapter. by rewrite vcam_capture_initial. Qed.
Lemma check_frames_initial d claimed controls :
  @check_frames _ _ (virtual_camera_adapter d) (mkCameraRequest nv12_640 DEFAULT_CAMERA_SLOT_COUNT)
    (mkVirtualCameraSession d nv12_640 1 false, vcam_initial claimed controls)
  = ((mkVirtualCameraSession d nv12_640 3 false, vcam_initial claimed controls), Ok ()).
Proof.
  unfold check_frames.
  do 2 (eapply native_step; [apply cau_capture_initial|]).
  cbn [frame_metadata frame_payload fm_format fm_sequence fm_monotonic_timestamp_ns fm_clock_domain].
  eapply native_step; [vm_compute; reflexivity|].
  eapply native_step; [unfold len; rewrite pattern_length by done; vm_compute; reflexivity|].
  by vm_compute.
Qed.

Lemma on_session_step {W S A} (session session' : S) (w w' : W) (body : native (S * W) Nonconformance A) r :
  body (session, w) = ((session', w'), r) → on_session session body w = (w', r).
Proof. unfold on_session. by intros ->. Qed.
Definition vcam_capabilities (controls_supported : bool) : CapabilitySet :=
  mkCapabilitySet ([camera_capture_capability; camera_frames_shm_capability]
                   ++ (if controls_supported then [camera_controls_capability] else [])).
Definition vcam_new_controls (controls_supported : bool) : list (CameraControlKind * ControlState) :=
  match (if controls_supported then virtual_controls else Ok []) with Ok c => c | Err _ => [] end.
Lemma session_checks_pass id endpoint properties controls_supported :
  let d := mkResourceDescriptor id endpoint Strong Camera properties (vcam_capabilities controls_supported) in
  let controls := vcam_new_controls controls_supported in
  (@check_frames _ _ (virtual_camera_adapter d) (mkCameraRequest nv12_640 DEFAULT_CAMERA_SLOT_COUNT)
   ≫= λ _, @check_controls _ _ (virtual_camera_adapter d) d
   ≫= λ _, @check_end _ _ (virtual_camera_adapter d))
    (mkVirtualCameraSession d nv12_640 1 false, vcam_initial true controls)
  = ((mkVirtualCameraSession d nv12_640 3 true, vcam_initial false controls), Ok ()).
Proof.
  intros d controls. eapply native_step; [apply check_frames_initial|].
  subst d controls. destruct controls_supported;
    (eapply native_step; [vm_compute; reflexivity|]); vm_compute; reflexivity.
Qed.

(** Every virtual camera passes the conformance check, with controls and without. *)
Theorem virtual_camera_conforms resource_id controls_supported :
  valid_identifier resource_id →
  ∃ d s, VirtualCameraAdapter_new resource_id controls_supported = Ok (d, s) ∧
    ∃ s', @run_camera_adapter_conformance _ _ (virtual_camera_adapter d) s = (s', Ok ()) ∧
      vcam_claimed s' = false.
Proof.
  intros Hid. unfold VirtualCameraAdapter_new. rewrite virtual_descriptor_valid by (by vm_compute || done).
  change ([camera_capture_capability; camera_frames_shm_capability] ++ ?[caps])
    with (CapabilitySet_as_slice (vcam_capabilities controls_supported)).
  set (d := mkResourceDescriptor _ _ _ _ _ _).
  exists d, (vcam_initial false (vcam_new_controls controls_supported)).
  split; [by destruct controls_supported|].
  assert (VirtualCameraAdapter_open d (ResourceDescriptor_selector d) = vcam_open_resolved d (Ok d)) as Hopen.
  { unfold VirtualCameraAdapter_open. rewrite resolve_self; [done|by destruct controls_supported]. }
  assert (∀ s, vcam_present s = true → @run_camera_adapter_conformance _ _ (virtual_camera_adapter d) s
    = @check_camera _ _ (virtual_camera_adapter d) d (vcam_open_resolved d (Ok d)) s) as Hrun.
  { intros s Hs. rewrite <- Hopen. unfold run_camera_adapter_conformance.
    unfold returning at 1. unfold native_map_err, mbind, native_bind. simpl.
    unfold VirtualCameraAdapter_enumerate. by rewrite Hs. }
  rewrite Hrun by done. clear Hopen Hrun. unfold check_camera. eexists. split.
  - eapply native_step; [by destruct controls_supported|].
    eapply native_step; [reflexivity|].
    eapply native_step; [vm_compute; reflexivity|].
    eapply native_step; [reflexivity|].
    eapply native_step; [vm_compute; reflexivity|].
    eapply native_step.
    { eapply on_session_step. exact (session_checks_pass _ _ _ _). }
    eapply native_step; [vm_compute; reflexivity|].
    eapply native_step; [reflexivity|]. by vm_compute.
  - done.
Qed.
